(* ===== verification/_CoqProject ===== *)
-Q . S2P
Prelude.v
Mem.v
StrScan.v
StrCopy.v
StrStr.v
StrSpec.v
Time.v
IntOps.v
IntDiv.v
Utf8.v
Cmp.v
Avl.v
CString.v
Hsearch.v
Search.v
Leonardo.v
Sort.v
Smoothsort.v
Conc.v
Rwlock.v
Lock.v
Intscan.v
Numerals.v
Digest.v
Sha2.v
Md5.v
Crypt.v
Stdio.v
Stdin.v
StdioFd.v
Format.v
Printf.v
PrintfSpec.v
Formats.v
VfprintfSpec.v
Snprintf.v
Synthol.v
Mman.v
Seplog.v
Chunks.v
Segments.v
Malloc.v
MallocHeap.v
MallocOps.v
MallocOs.v
MallocFree.v
MallocAlloc.v
MallocApi.v
MallocKernel.v
MallocSpec.v
Fnmatch.v
Patterns.v
FnmatchSpec.v
Softfloat.v
FloatSpec.v
FloatBits.v
SoftAdd.v
SoftMul.v
SoftConv.v
SoftDiv.v
SoftWidth.v
