(* ===== verification/Prelude.v ===== *)
(** * Verified core of the synthol base layer

    synthol is a base layer for Xen unikernels: a program runs on musl (a fork of
    it under [src/src/musl]), the integer support routines of compiler-rt
    ([src/src/compiler-rt/builtins]) and a small layer of synthol's own
    ([src/src/src], [src/src/crt]) that enters [main] and talks to the hypervisor.
    This library models synthol's own code and the parts of the layer whose results
    other code relies on without looking: memory allocation, formatted and buffered
    input and output, file name patterns, byte ranges and strings, multibyte
    characters, integer and floating-point arithmetic, calendar time, search
    structures, sorting, message digests and locks.

    ** Conventions

    A C integer is a [Z]; the wrap-around of a type is written where the code relies
    on it ([u8], [u32], [s32], [u64], ... of this file), and a proof that no
    wrap-around occurs is part of the theorem where the code does not.  Memory is a
    finite map from addresses to bytes ([Mem.mem]); a routine returns [option], and
    [None] is an access outside the mapped memory, an index outside a local array,
    or a loop that has not ended.  A theorem that a routine returns [Some] therefore
    says that it ends and touches no other memory.  Loops are [iter] and [while]
    with an amount of fuel: the length for a counted loop, [fuel_of m] (more than
    the mapped bytes) for a loop that reads a fresh byte each turn, the size of the
    table for probing; [iter_rule] turns an invariant and a decreasing measure below
    the fuel into a result.  Callbacks are functions of the bytes they are given.
    What is not in the repository is a parameter with laws: a comparison
    ([Cmp.TotalCmp]), the system calls that read, write and map memory
    ([StdioFd.KernelLaws], [MallocOs.PagesLaws]), the hypervisor's console; each
    class of laws has an instance, on which the theorems are applied.  The allocator
    works on words instead of bytes, and its theorems are in separation logic
    ([Seplog]), a total one: a triple says that the code returns.

    ** The files

    - [Prelude]: machine integers, loops, bit operations split at a bit, tactics.
    - [Mem], [CString]: byte memory, loads and stores, the zero-byte test on words;
      C strings as lists of bytes.
    - [StrScan] (lengths, searches, comparisons, spans), [StrCopy] ([memcpy] with its
      misaligned cases, [memmove], [memset]), [StrStr] (string copies, [strtok_r]),
      and their specifications in [StrSpec]: [string/*.c].
    - [Time]: [time/__secs_to_tm.c] and its inverse against the Gregorian calendar.
    - [IntOps], [IntDiv]: the integer routines of compiler-rt at each width.
    - [Utf8]: [multibyte/*.c], with the table of [internal.c] evaluated.
    - [Cmp] (comparisons), [Avl] ([search/tsearch_avl.c]), [Hsearch]
      ([search/hsearch.c]), [Search] ([bsearch], [lsearch], [insque]).
    - [Leonardo] (heaps of Leonardo trees), [Sort] (the code of [stdlib/qsort.c]) and
      [Smoothsort] (that it sorts).
    - [Intscan], [Numerals]: numbers from text ([internal/intscan.c]) and as text, one
      the inverse of the other.
    - [Digest] (hashing in pieces), [Sha2], [Md5] (the functions and their code),
      [Crypt] (password hashes): [crypt/*.c].
    - [Stdio], [Stdin] (buffered output and input over any device that keeps the
      classes of laws there), [StdioFd] (file descriptors as such a device);
      [Format] (directives), [Printf] ([vfprintf]), [PrintfSpec] (the text of each
      directive as it is read, and that it is what is printed), [Formats] (formats as
      trees, how they are written and what they mean by the C standard, and that the
      code reads them so), [VfprintfSpec] ([vfprintf] on every such format), [Snprintf]
      (memory as a device).
    - [Synthol]: set-up, messages and shut-down, over the streams and [Snprintf];
      [Mman]: [mmap] and its relatives, synthol's and musl's.
    - [Seplog] (the logic), [Chunks] (sizes, bins), [Segments] (runs of chunks),
      [Malloc] (the code), [MallocHeap] (what its words mean), [MallocOps] (the inner
      operations), [MallocOs] (the system), [MallocFree], [MallocAlloc], [MallocApi]
      (what each function does to that heap), [MallocKernel] (a system that keeps the
      laws), [MallocSpec] (the specification by live blocks, which is the interface).
    - [Fnmatch] (the code of [regex/fnmatch.c]), [Patterns] (patterns as trees, their
      text and what they match), [FnmatchSpec] (that the code agrees with them).
    - [Softfloat] (the code of the soft-float routines of compiler-rt, in any format),
      [FloatSpec] (magnitudes, nearest representations, sticky bits), [FloatBits]
      (the fields of a representation, and what a routine has to deliver), [SoftAdd],
      [SoftMul], [SoftDiv] (with the code of [div*f3.c]), [SoftConv] (integers and
      comparison), [SoftWidth] (other formats).
    - [Conc] (threads over atomic operations and futexes, and the rules for
      invariants of them), [Rwlock] ([thread/pthread_rwlock_*.c]) and [Lock]
      ([thread/__lock.c]).

    The files follow the calls of the code: the string copies use the searches, the
    hash table compares keys with [strcmp], sorting moves elements with [memcpy],
    synthol's messages are printed by [vsnprintf] and [vfprintf], and these write to
    the streams.

    ** What the theorems show

    [MallocSpec]: [malloc], [calloc], [realloc], [posix_memalign] and [free] keep the
    map of live blocks: blocks are disjoint, of the size asked for and aligned, and
    their words change only as they must, for every system that keeps the laws; the
    loops end; a call fails only for a size near 2^63 or when the system refused, in
    this call, a mapping for that size; and any program of calls, loads and stores that
    keeps to its live blocks is answered as that map would answer it.  One case is left
    out, an area of its own that [realloc] makes smaller while the system fails to
    shrink the mapping: there it writes beyond its block.  [Synthol]: what reaches the
    hypervisor, and what a message loses.
    [VfprintfSpec], [Snprintf]: a format prints what the C standard says, whatever its
    flags, widths, precisions, length modifiers and positions; the length is returned
    or [EOVERFLOW], and nothing is written past the buffer.  [Stdio], [Stdin], [StdioFd]:
    output and input arrive complete and in order through any buffer.
    [FnmatchSpec]: a match is found exactly when the pattern as a tree matches, except
    for ranges that end in a multibyte character, equivalence classes and collating
    symbols, class names of 16 bytes or more, and an escaped period under [FNM_PERIOD];
    and on some patterns that are no text [fnmatch] does not return.  [SoftAdd],
    [SoftMul], [SoftDiv], [SoftConv], [SoftWidth]: results are the nearest representation of the
    exact result, ties to even, with the right sign, for single and double precision
    alike (division: above the least normal number, and with the error of its
    reciprocal proved); conversions to integers truncate, and where they do not
    saturate.
    [StrSpec]: each routine writes or returns exactly what its contract says, at any
    alignment, and changes nothing else; tokenising yields the maximal runs.
    [Time]: conversion to civil time is right for every instant, inverts, and fails
    only out of range.  [IntOps], [IntDiv]: results are exact, wrapped or trapped, as
    the routine promises.  [Utf8]: encoding and decoding agree with the definition of
    UTF-8, invert each other and can be resumed.  [Avl], [Hsearch], [Search]: the
    structures implement finite maps, sequences and lists, keep their invariants, and
    their operations end.  [Smoothsort]: the result is a sorted permutation for up to
    2^40 elements.  [Intscan]: numbers are read as the standard says, with their
    limits.  [Sha2], [Md5], [Crypt]: the code computes the published functions (for
    SHA-2 with the constants that FIPS 180 derives from the primes), in whatever pieces
    the message comes.  [Rwlock], [Lock]: mutual exclusion and absence of lost wake-ups
    for every number of threads (below 2^30) and every schedule.

    ** Not modelled

    Assembly (entry, hypercalls, jumps), locales and conversion of legacy character
    sets, regular expressions (TRE), the mathematical library, printing and reading of
    floating-point numbers, soft floats of quad precision, wide-character
    streams, threads other than their locks, the time zone database, the DES and
    Blowfish hashes, and thin wrappers of system calls; the list of
    components gives the reason for each.  Threads are interleaved at the
    level of single operations (sequentially consistent), without cancellation; the
    allocator and the streams are those of a program with one thread; the x86_64 build
    replaces some of the C routines modelled here by assembly, which is not covered. *)
From stdpp Require Export base gmap list numbers option.
From Stdlib Require Export ZArith Lia Bool.
#[global] Open Scope Z_scope.

(** * Machine-width integers *)

(** [wrap w z]: the value of [z] converted to an unsigned [w]-bit type. *)
Definition wrap (w z : Z) : Z := z mod 2 ^ w.

(** [swrap w z]: the value of [z] converted to a signed two's complement
    [w]-bit type. *)
Definition swrap (w z : Z) : Z := (z + 2 ^ (w - 1)) mod 2 ^ w - 2 ^ (w - 1).

Abbreviation u8 := (wrap 8).
Abbreviation u16 := (wrap 16).
Abbreviation u32 := (wrap 32).
Abbreviation u64 := (wrap 64).
Abbreviation s8 := (swrap 8).
Abbreviation s32 := (swrap 32).
Abbreviation s64 := (swrap 64).

(** C truth value of an integer. *)
Definition nz (z : Z) : bool := negb (z =? 0).
Definition b2z (b : bool) : Z := if b then 1 else 0.

(** * Loops

    One turn of a C loop either goes on with a new state or leaves the loop.
    [iter fuel body s] runs the turns; a fault in a turn and running out of fuel
    are both [None], so a theorem [iter .. = Some r] states that the loop
    terminates without a fault. *)
Inductive turn (S R : Type) : Type := Next (s : S) | Leave (r : R).
Arguments Next {S R} s.
Arguments Leave {S R} r.

(** How a loop that contains a [return] ends: it falls through with its final
    state, or the function returns. *)
Inductive exit (S R : Type) : Type := Fell (s : S) | Ret (r : R).
Arguments Fell {S R} s.
Arguments Ret {S R} r.

Fixpoint iter {S R : Type} (fuel : nat) (body : S -> option (turn S R)) (s : S) : option R :=
  match fuel with
  | O => None
  | Datatypes.S fuel' =>
      match body s with
      | None => None
      | Some (Next s') => iter fuel' body s'
      | Some (Leave r) => Some r
      end
  end.

(** [while fuel cond body s]: a C [while] loop with no early exit. *)
Definition while {S : Type} (fuel : nat) (cond : S -> option bool) (body : S -> option S)
    (s : S) : option S :=
  iter fuel (fun s =>
    c ← cond s;
    if (c : bool) then (s' ← body s; Some (Next s')) else Some (Leave s)) s.

Section loops.
Context {S R : Type}.

(** Total-correctness rule: an invariant, a decreasing measure. *)
Lemma iter_rule (I : S -> Prop) (m : S -> nat) (Q : R -> Prop) (body : S -> option (turn S R)) :
  (forall s, I s -> match body s with
                    | Some (Next s') => I s' /\ (m s' < m s)%nat
                    | Some (Leave r) => Q r
                    | None => False
                    end) ->
  forall fuel s, I s -> (m s < fuel)%nat ->
  exists r, iter fuel body s = Some r /\ Q r.
Proof.
  intros Hstep fuel. induction fuel as [|fuel IH]; intros s HI Hm; [lia|].
  simpl. specialize (Hstep s HI). destruct (body s) as [[s'|r]|]; [|eauto|done].
  destruct Hstep. apply IH; [done|lia].
Qed.

(** More fuel never changes a result. *)
Lemma iter_fuel_mono (body : S -> option (turn S R)) fuel fuel' s r :
  iter fuel body s = Some r -> (fuel <= fuel')%nat -> iter fuel' body s = Some r.
Proof.
  revert fuel' s. induction fuel as [|fuel IH]; intros fuel' s H Hle; [done|].
  destruct fuel' as [|fuel']; [lia|]. simpl in *.
  destruct (body s) as [[s'|r']|]; [|done|done]. apply IH; [done|lia].
Qed.
End loops.

(** One turn of a loop. *)
Lemma iter_next {S R} fuel (body : S -> option (turn S R)) s s' :
  body s = Some (Next s') -> iter (Datatypes.S fuel) body s = iter fuel body s'.
Proof. intros E. unfold iter at 1. fold (@iter S R). by rewrite E. Qed.

Lemma iter_leave {S R} fuel (body : S -> option (turn S R)) s r :
  body s = Some (Leave r) -> iter (Datatypes.S fuel) body s = Some r.
Proof. intros E. unfold iter. by rewrite E. Qed.

Lemma while_rule {S : Type} (I : S -> Prop) (m : S -> nat) (cond : S -> option bool)
    (body : S -> option S) :
  (forall s, I s -> match cond s with
                    | Some true => match body s with
                                   | Some s' => I s' /\ (m s' < m s)%nat
                                   | None => False
                                   end
                    | Some false => True
                    | None => False
                    end) ->
  forall fuel s, I s -> (m s < fuel)%nat ->
  exists s', while fuel cond body s = Some s' /\ I s' /\ cond s' = Some false.
Proof.
  intros Hstep fuel s HI Hm. unfold while.
  apply (iter_rule I m (fun s' => I s' /\ cond s' = Some false)); [|done|done].
  clear s HI Hm. intros s HI. specialize (Hstep s HI).
  destruct (cond s) as [[]|] eqn:E; simpl; [|done|done].
  destruct (body s); done.
Qed.

#[global] Arguments iter : simpl never.
#[global] Arguments while : simpl never.

(** * Arithmetic shared by the components *)

Lemma wrap_range w z : 0 <= w -> 0 <= wrap w z < 2 ^ w.
Proof. intros. apply Z.mod_pos_bound. lia. Qed.

Lemma wrap_small w z : 0 <= z < 2 ^ w -> wrap w z = z.
Proof. apply Z.mod_small. Qed.

Lemma wrap_wrap w z : 0 <= w -> wrap w (wrap w z) = wrap w z.
Proof. intros. apply Z.mod_mod. lia. Qed.

Lemma swrap_range w z : 0 < w -> - 2 ^ (w - 1) <= swrap w z < 2 ^ (w - 1).
Proof.
  intros. unfold swrap.
  replace (2 ^ w) with (2 * 2 ^ (w - 1)) by (rewrite <- Z.pow_succ_r by lia; f_equal; lia).
  assert (0 < 2 ^ (w - 1)) by lia.
  pose proof (Z.mod_pos_bound (z + 2 ^ (w - 1)) (2 * 2 ^ (w - 1))). lia.
Qed.

Lemma swrap_small w z : 0 < w -> - 2 ^ (w - 1) <= z < 2 ^ (w - 1) -> swrap w z = z.
Proof.
  intros. unfold swrap.
  replace (2 ^ w) with (2 * 2 ^ (w - 1)) by (rewrite <- Z.pow_succ_r by lia; f_equal; lia).
  rewrite Z.mod_small; lia.
Qed.

Lemma swrap_eq w x y : 0 < w -> x mod 2 ^ w = y mod 2 ^ w -> swrap w x = swrap w y.
Proof.
  intros Hw E. unfold swrap. f_equal. rewrite (Z.add_mod x), (Z.add_mod y), E by lia. done.
Qed.

Lemma swrap_mod w x : 0 < w -> swrap w x mod 2 ^ w = x mod 2 ^ w.
Proof.
  intros Hw. unfold swrap. rewrite <- Z.add_opp_r, <- Z.add_mod_idemp_l, Z.mod_mod, Z.add_mod_idemp_l by lia.
  f_equal. lia.
Qed.

Lemma nz_true z : nz z = true <-> z <> 0.
Proof. unfold nz. destruct (Z.eqb_spec z 0); naive_solver. Qed.

Lemma nz_false z : nz z = false <-> z = 0.
Proof. unfold nz. destruct (Z.eqb_spec z 0); naive_solver. Qed.

Lemma b2z_range b : 0 <= b2z b <= 1.
Proof. destruct b; simpl; lia. Qed.

(** Splitting a bit operation at bit [k]. *)
Section split_bits.
Context (k : Z) (Hk : 0 <= k).

Lemma split_testbit a x n :
  0 <= a < 2 ^ k -> 0 <= n ->
  Z.testbit (a + 2 ^ k * x) n = if n <? k then Z.testbit a n else Z.testbit x (n - k).
Proof.
  intros Ha Hn.
  replace (a + 2 ^ k * x) with (Z.lor a (Z.shiftl x k)).
  { rewrite Z.lor_spec, Z.shiftl_spec by lia. destruct (Z.ltb_spec n k).
    - rewrite (Z.testbit_neg_r x) by lia. by rewrite orb_false_r.
    - rewrite <- (Z.mod_small a (2 ^ k)) by lia. by rewrite Z.mod_pow2_bits_high by lia. }
  rewrite <- Z.lxor_lor, <- Z.add_nocarry_lxor.
  - rewrite Z.shiftl_mul_pow2 by lia. lia.
  - apply Z.bits_inj'. intros i Hi. rewrite Z.land_spec, Z.shiftl_spec, Z.testbit_0_l by lia.
    destruct (Z.ltb_spec i k).
    + rewrite (Z.testbit_neg_r x) by lia. apply andb_false_r.
    + rewrite <- (Z.mod_small a (2 ^ k)) by lia. by rewrite Z.mod_pow2_bits_high by lia.
  - apply Z.bits_inj'. intros i Hi. rewrite Z.land_spec, Z.shiftl_spec, Z.testbit_0_l by lia.
    destruct (Z.ltb_spec i k).
    + rewrite (Z.testbit_neg_r x) by lia. apply andb_false_r.
    + rewrite <- (Z.mod_small a (2 ^ k)) by lia. by rewrite Z.mod_pow2_bits_high by lia.
Qed.

Lemma pow2_bound_iff a : 0 <= a -> (a < 2 ^ k <-> forall n, k <= n -> Z.testbit a n = false).
Proof.
  intros Ha. split.
  - intros Hlt n Hn. rewrite <- (Z.mod_small a (2 ^ k)) by lia.
    apply Z.mod_pow2_bits_high. lia.
  - intros Hb. enough (a mod 2 ^ k = a) as <- by (apply Z.mod_pos_bound; lia).
    apply Z.bits_inj'. intros n Hn. destruct (Z.ltb_spec n k).
    + apply Z.mod_pow2_bits_low. lia.
    + rewrite Z.mod_pow2_bits_high by lia. symmetry. by apply Hb.
Qed.

Lemma land_range a b : 0 <= a < 2 ^ k -> 0 <= b -> 0 <= Z.land a b < 2 ^ k.
Proof.
  intros Ha Hb. assert (0 <= Z.land a b) by (apply Z.land_nonneg; lia).
  split; [done|]. apply pow2_bound_iff; [done|]. intros n Hn.
  rewrite Z.land_spec. by rewrite (proj1 (pow2_bound_iff a ltac:(lia))) by lia.
Qed.

Lemma lor_range a b : 0 <= a < 2 ^ k -> 0 <= b < 2 ^ k -> 0 <= Z.lor a b < 2 ^ k.
Proof.
  intros Ha Hb. assert (0 <= Z.lor a b) by (apply Z.lor_nonneg; lia).
  split; [done|]. apply pow2_bound_iff; [done|]. intros n Hn.
  rewrite Z.lor_spec.
  rewrite (proj1 (pow2_bound_iff a ltac:(lia))), (proj1 (pow2_bound_iff b ltac:(lia))) by lia.
  done.
Qed.

Lemma lxor_range a b : 0 <= a < 2 ^ k -> 0 <= b < 2 ^ k -> 0 <= Z.lxor a b < 2 ^ k.
Proof.
  intros Ha Hb. assert (0 <= Z.lxor a b) by (apply Z.lxor_nonneg; lia).
  split; [done|]. apply pow2_bound_iff; [done|]. intros n Hn.
  rewrite Z.lxor_spec.
  rewrite (proj1 (pow2_bound_iff a ltac:(lia))), (proj1 (pow2_bound_iff b ltac:(lia))) by lia.
  done.
Qed.

Lemma land_split a b x y :
  0 <= a < 2 ^ k -> 0 <= b < 2 ^ k ->
  Z.land (a + 2 ^ k * x) (b + 2 ^ k * y) = Z.land a b + 2 ^ k * Z.land x y.
Proof.
  intros. apply Z.bits_inj'. intros n Hn.
  rewrite Z.land_spec, !split_testbit by (lia || apply land_range; lia).
  destruct (n <? k); by rewrite Z.land_spec.
Qed.

Lemma lor_split a b x y :
  0 <= a < 2 ^ k -> 0 <= b < 2 ^ k ->
  Z.lor (a + 2 ^ k * x) (b + 2 ^ k * y) = Z.lor a b + 2 ^ k * Z.lor x y.
Proof.
  intros. apply Z.bits_inj'. intros n Hn.
  rewrite Z.lor_spec, !split_testbit by (lia || apply lor_range; lia).
  destruct (n <? k); by rewrite Z.lor_spec.
Qed.

Lemma lxor_split a b x y :
  0 <= a < 2 ^ k -> 0 <= b < 2 ^ k ->
  Z.lxor (a + 2 ^ k * x) (b + 2 ^ k * y) = Z.lxor a b + 2 ^ k * Z.lxor x y.
Proof.
  intros. apply Z.bits_inj'. intros n Hn.
  rewrite Z.lxor_spec, !split_testbit by (lia || apply lxor_range; lia).
  destruct (n <? k); by rewrite Z.lxor_spec.
Qed.

Lemma lor_disjoint_add a x : 0 <= a < 2 ^ k -> Z.lor a (2 ^ k * x) = a + 2 ^ k * x.
Proof.
  intros. replace (2 ^ k * x) with (0 + 2 ^ k * x) at 1 by lia.
  replace a with (a + 2 ^ k * 0) at 1 by lia.
  rewrite lor_split by lia. by rewrite Z.lor_0_r.
Qed.

Lemma lnot_split a x : Z.lnot (a + 2 ^ k * x) = (2 ^ k - 1 - a) + 2 ^ k * Z.lnot x.
Proof. unfold Z.lnot. lia. Qed.

Lemma add_mul_range a x m : 0 <= a < 2 ^ k -> 0 <= x < m -> 0 <= a + 2 ^ k * x < 2 ^ k * m.
Proof. nia. Qed.
End split_bits.

(** Testing the top bit of a word of [2 * 2^e] values. *)
Lemma land_word_bit e b :
  0 <= e -> 0 <= b < 2 * 2 ^ e -> nz (Z.land b (2 ^ e)) = (2 ^ e <=? b).
Proof.
  intros He Hb. pose proof (Z.div_mod b (2 ^ e) ltac:(lia)) as E.
  pose proof (Z.mod_pos_bound b (2 ^ e) ltac:(lia)) as Hr.
  assert (El : Z.land b (2 ^ e) = 2 ^ e * Z.land (b / 2 ^ e) 1).
  { replace (2 ^ e) with (0 + 2 ^ e * 1) at 1 by lia. rewrite E, Z.add_comm at 1.
    rewrite land_split by lia. by rewrite Z.land_0_r. }
  assert (Hq : b / 2 ^ e = 0 \/ b / 2 ^ e = 1) by nia. rewrite El. unfold nz.
  destruct Hq as [Hq|Hq]; rewrite Hq in *; symmetry.
  - change (Z.land 0 1) with 0. rewrite Z.mul_0_r. simpl. apply Z.leb_gt. lia.
  - change (Z.land 1 1) with 1. rewrite Z.mul_1_r, (proj2 (Z.eqb_neq (2 ^ e) 0)) by lia.
    apply Z.leb_le. lia.
Qed.

(** Checking a boolean property of every byte by evaluation. *)
Lemma forall_byte (P : Z -> bool) :
  forallb P (seqZ 0 256) = true -> forall b, 0 <= b < 256 -> P b = true.
Proof.
  intros H b Hb. rewrite forallb_forall in H. apply H, list_elem_of_In, elem_of_seqZ. lia.
Qed.

(** * Automation *)

Create HintDb synthol.

#[export] Hint Resolve wrap_range swrap_range b2z_range : synthol.
#[export] Hint Resolve Z.mod_pos_bound : synthol.

(** Case analysis on the boolean comparisons of a goal, then arithmetic. *)
Ltac bcase :=
  match goal with
  | |- context [?a =? ?b] => destruct (Z.eqb_spec a b)
  | |- context [?a <? ?b] => destruct (Z.ltb_spec a b)
  | |- context [?a <=? ?b] => destruct (Z.leb_spec a b)
  | H : context [?a =? ?b] |- _ => destruct (Z.eqb_spec a b)
  | H : context [?a <? ?b] |- _ => destruct (Z.ltb_spec a b)
  | H : context [?a <=? ?b] |- _ => destruct (Z.leb_spec a b)
  end.

(** Replace the quotients and remainders of the goal by their equations. *)
Ltac divmod := Z.div_mod_to_equations; lia.

(** Hand the next loop of the goal to a tactic. *)
Ltac with_loop tac :=
  lazymatch goal with |- context [iter ?f ?b ?s] => tac b s end.

Ltac with_while tac :=
  lazymatch goal with |- context [while ?f ?c ?b ?s] => tac f c b s end.

Ltac nzsimp :=
  repeat first
    [ rewrite (proj2 (nz_true _)) by assumption
    | rewrite (proj2 (nz_false _)) by assumption ].

(** Decide [a <? b] in the goal and in the hypothesis [H]. *)
Ltac ltb_cases a b H := revert H; destruct (Z.ltb_spec a b); simpl; intros H.
