(* ===== verification/Mem.v ===== *)
(** * Byte-addressed memory

    The memory the C string routines work on: a finite map from addresses to
    bytes.  An address outside the map faults, so a theorem that a routine
    returns [Some _] says that it reads and writes mapped bytes only.  Words are
    little-endian (x86_64).  [write_bytes] is the specification of every copying
    routine: the routine's final memory is the initial one with one range
    overwritten. *)
From S2P Require Import Prelude.

Abbreviation mem := (gmap Z Z).

(** ** Loads and stores *)

Definition load8 (m : mem) (a : Z) : option Z := m !! a.

Definition store8 (m : mem) (a v : Z) : option mem :=
  match m !! a with
  | Some _ => Some (<[a := u8 v]> m)
  | None => None
  end.

Fixpoint load_le (n : nat) (m : mem) (a : Z) : option Z :=
  match n with
  | O => Some 0
  | S n' => b ← load8 m a; r ← load_le n' m (a + 1); Some (b + 256 * r)
  end.

Fixpoint store_le (n : nat) (m : mem) (a v : Z) : option mem :=
  match n with
  | O => Some m
  | S n' => m' ← store8 m a v; store_le n' m' (a + 1) (v / 256)
  end.

Abbreviation load32 := (load_le 4).
Abbreviation load64 := (load_le 8).
Abbreviation store32 := (store_le 4).
Abbreviation store64 := (store_le 8).

(** A bound on the length of any loop that reads a fresh address each turn. *)
Definition fuel_of (m : mem) : nat := S (size m).

(** ** Abstract view: ranges of bytes *)

Fixpoint le (bs : list Z) : Z :=
  match bs with [] => 0 | b :: bs' => b + 256 * le bs' end.

Fixpoint split_le (n : nat) (v : Z) : list Z :=
  match n with O => [] | S n' => u8 v :: split_le n' (v / 256) end.

Fixpoint write_bytes (m : mem) (p : Z) (bs : list Z) : mem :=
  match bs with [] => m | b :: bs' => write_bytes (<[p := b]> m) (p + 1) bs' end.

(** The byte at [a]; only used where [a] is mapped. *)
Definition rd (m : mem) (a : Z) : Z := default 0 (m !! a).

Definition bytes_of (m : mem) (p n : Z) : list Z := rd m <$> seqZ p n.

Definition mapped (m : mem) (p n : Z) : Prop := forall a, p <= a < p + n -> is_Some (m !! a).

Definition mem_ok (m : mem) : Prop := forall a b, m !! a = Some b -> 0 <= b < 256.

Definition is_byte (b : Z) : Prop := 0 <= b < 256.

(** [cstr m p len]: a NUL-terminated string of length [len] at [p]. *)
Definition cstr (m : mem) (p len : Z) : Prop :=
  0 <= len /\ mapped m p (len + 1) /\ (forall i, 0 <= i < len -> rd m (p + i) <> 0) /\
  rd m (p + len) = 0.

(** The memory that the word-at-a-time loops may touch beyond byte [p + len]:
    the rest of the aligned 8-byte word it lies in. *)
Definition words_mapped (m : mem) (p len : Z) : Prop :=
  mapped m p (8 * ((p + len) / 8) + 8 - p).

Definition disjoint_ranges (p n q k : Z) : Prop := p + n <= q \/ q + k <= p.

(** ** Lemmas *)

Section mem_lemmas.
Implicit Types (m : mem) (p a : Z) (bs : list Z).

Lemma mapped_sub m p n q k : mapped m p n -> p <= q -> q + k <= p + n -> mapped m q k.
Proof. intros H ?? a ?. apply H. lia. Qed.

Lemma mapped_rd m p n a : mapped m p n -> p <= a < p + n -> m !! a = Some (rd m a).
Proof. intros H Ha. unfold rd. destruct (H a Ha) as [x ->]. done. Qed.

Lemma load8_rd m p n a : mapped m p n -> p <= a < p + n -> load8 m a = Some (rd m a).
Proof. apply mapped_rd. Qed.

Lemma rd_byte m a : mem_ok m -> 0 <= rd m a < 256.
Proof. intros H. unfold rd. destruct (m !! a) eqn:E; simpl; [by apply H in E|lia]. Qed.

Lemma rd_u8 m a : mem_ok m -> u8 (rd m a) = rd m a.
Proof. intros. apply wrap_small. by apply rd_byte. Qed.

Lemma mapped_size m p n : mapped m p n -> n <= Z.of_nat (size m).
Proof.
  intros H. destruct (Z.le_gt_cases n 0); [lia|].
  assert (Hs : (list_to_set (seqZ p n) : gset Z) ⊆ dom m).
  { intros a Ha. apply elem_of_list_to_set, elem_of_seqZ in Ha. apply elem_of_dom, H. lia. }
  apply subseteq_size in Hs.
  rewrite size_list_to_set, length_seqZ, size_dom in Hs by apply NoDup_seqZ. lia.
Qed.

Lemma bytes_of_nil m p : bytes_of m p 0 = [].
Proof. done. Qed.

Lemma bytes_of_nonpos m p n : n <= 0 -> bytes_of m p n = [].
Proof. intros. unfold bytes_of. by rewrite seqZ_nil by lia. Qed.

Lemma bytes_of_cons m p n : 0 < n -> bytes_of m p n = rd m p :: bytes_of m (p + 1) (n - 1).
Proof.
  intros. unfold bytes_of. rewrite seqZ_cons by lia.
  by replace (Z.succ p) with (p + 1) by lia; replace (Z.pred n) with (n - 1) by lia.
Qed.

Lemma length_bytes_of m p n : 0 <= n -> Z.of_nat (length (bytes_of m p n)) = n.
Proof. intros. unfold bytes_of. rewrite length_fmap, length_seqZ. lia. Qed.

Lemma bytes_of_app m p n k :
  0 <= n -> 0 <= k -> bytes_of m p (n + k) = bytes_of m p n ++ bytes_of m (p + n) k.
Proof. intros. unfold bytes_of. rewrite seqZ_app by lia. by rewrite fmap_app. Qed.

Lemma bytes_of_snoc m p n : 0 <= n -> bytes_of m p (n + 1) = bytes_of m p n ++ [rd m (p + n)].
Proof. intros. rewrite bytes_of_app by lia. done. Qed.

Lemma bytes_of_ext m m' p n :
  (forall a, p <= a < p + n -> rd m a = rd m' a) -> bytes_of m p n = bytes_of m' p n.
Proof.
  intros H. unfold bytes_of. apply list_fmap_ext. intros i x Hx.
  apply lookup_seqZ in Hx. apply H. lia.
Qed.

Lemma bytes_of_lookup m p n (i : nat) :
  Z.of_nat i < n -> bytes_of m p n !! i = Some (rd m (p + Z.of_nat i)).
Proof.
  intros. unfold bytes_of. rewrite list_lookup_fmap, lookup_seqZ_lt by lia. done.
Qed.

Lemma bytes_of_bytes m p n : mem_ok m -> Forall is_byte (bytes_of m p n).
Proof.
  intros. unfold bytes_of. apply Forall_fmap, Forall_forall. intros. by apply rd_byte.
Qed.

Lemma lookup_write_bytes m p bs a :
  write_bytes m p bs !! a =
    if decide (p <= a < p + Z.of_nat (length bs)) then bs !! Z.to_nat (a - p) else m !! a.
Proof.
  revert m p. induction bs as [|b bs IH]; intros m p; simpl.
  - case_decide; [lia|done].
  - rewrite IH. repeat case_decide; try lia.
    + replace (Z.to_nat (a - p)) with (S (Z.to_nat (a - (p + 1)))) by lia. done.
    + assert (a = p) as -> by lia. rewrite lookup_insert_eq.
      by replace (Z.to_nat (p - p)) with O by lia.
    + rewrite lookup_insert_ne by lia. done.
Qed.

Lemma write_bytes_app m p bs1 bs2 :
  write_bytes m p (bs1 ++ bs2) = write_bytes (write_bytes m p bs1) (p + Z.of_nat (length bs1)) bs2.
Proof.
  revert m p. induction bs1 as [|b bs1 IH]; intros m p; simpl.
  - by rewrite Z.add_0_r.
  - rewrite IH. f_equal. lia.
Qed.

Lemma write_bytes_snoc m p bs b :
  write_bytes m p (bs ++ [b]) = <[p + Z.of_nat (length bs) := b]> (write_bytes m p bs).
Proof. by rewrite write_bytes_app. Qed.

Lemma rd_write_out m p bs a :
  ~ (p <= a < p + Z.of_nat (length bs)) -> rd (write_bytes m p bs) a = rd m a.
Proof. intros. unfold rd. rewrite lookup_write_bytes. by case_decide. Qed.

Lemma rd_write_in m p bs (i : nat) b :
  bs !! i = Some b -> rd (write_bytes m p bs) (p + Z.of_nat i) = b.
Proof.
  intros H. assert (i < length bs)%nat by (by eapply lookup_lt_Some).
  unfold rd. rewrite lookup_write_bytes. case_decide; [|lia].
  replace (Z.to_nat (p + Z.of_nat i - p)) with i by lia. by rewrite H.
Qed.

Lemma mapped_write m p bs q n : mapped m q n -> mapped (write_bytes m p bs) q n.
Proof.
  intros H a Ha. rewrite lookup_write_bytes. case_decide; [|by apply H].
  apply lookup_lt_is_Some. lia.
Qed.

Lemma write_bytes_ok m p bs : mem_ok m -> Forall is_byte bs -> mem_ok (write_bytes m p bs).
Proof.
  intros Hm Hbs a b. rewrite lookup_write_bytes. case_decide; [|apply Hm].
  intros Hb. by eapply (Forall_lookup_1 _ _ _ _ Hbs).
Qed.

Lemma size_write_bytes m p bs :
  mapped m p (Z.of_nat (length bs)) -> size (write_bytes m p bs) = size m.
Proof.
  intros H. rewrite <- !size_dom. f_equal. apply set_eq. intros a.
  rewrite !elem_of_dom, lookup_write_bytes. case_decide; [|done].
  split; intros _; [by apply H|]. apply lookup_lt_is_Some. lia.
Qed.

Lemma write_bytes_self m p n : 0 <= n -> mapped m p n -> write_bytes m p (bytes_of m p n) = m.
Proof.
  intros Hn H. apply map_eq. intros a. rewrite lookup_write_bytes, length_bytes_of by done.
  case_decide; [|done]. rewrite bytes_of_lookup by lia.
  rewrite (mapped_rd m p n) by (done || lia). do 2 f_equal. lia.
Qed.

Lemma bytes_of_write m p bs : bytes_of (write_bytes m p bs) p (Z.of_nat (length bs)) = bs.
Proof.
  apply list_eq. intros i. destruct (decide (i < length bs)%nat) as [Hi|Hi].
  - destruct (lookup_lt_is_Some_2 bs i Hi) as [b Hb].
    rewrite bytes_of_lookup by lia. by rewrite (rd_write_in m p bs i b), Hb.
  - rewrite !lookup_ge_None_2; [done|lia|].
    pose proof (length_bytes_of (write_bytes m p bs) p (Z.of_nat (length bs)) ltac:(lia)). lia.
Qed.

Lemma store8_write m p n a v :
  mapped m p n -> p <= a < p + n -> store8 m a v = Some (<[a := u8 v]> m).
Proof. intros H Ha. unfold store8. by destruct (H a Ha) as [x ->]. Qed.

Lemma store_le_write k m a v :
  mapped m a (Z.of_nat k) -> store_le k m a v = Some (write_bytes m a (split_le k v)).
Proof.
  revert m a v. induction k as [|k IH]; intros m a v H; cbn [store_le]; [done|].
  rewrite (store8_write m a (Z.of_nat (S k))) by (done || lia). simpl. apply IH.
  apply (mapped_write m a [u8 v]). eapply mapped_sub; [done|lia..].
Qed.

Lemma load_le_rd k m a :
  mapped m a (Z.of_nat k) -> load_le k m a = Some (le (bytes_of m a (Z.of_nat k))).
Proof.
  revert a. induction k as [|k IH]; intros a H; [done|].
  rewrite bytes_of_cons by lia.
  replace (Z.of_nat (S k) - 1) with (Z.of_nat k) by lia. cbn [load_le le].
  rewrite (load8_rd m a (Z.of_nat (S k))) by (done || lia). simpl.
  by rewrite IH by (eapply mapped_sub; [done|lia..]).
Qed.

Lemma le_range bs : Forall is_byte bs -> 0 <= le bs < 2 ^ (8 * Z.of_nat (length bs)).
Proof.
  induction 1 as [|b bs Hb Hbs IH]; [done|]. unfold is_byte in Hb. cbn [le length].
  replace (8 * Z.of_nat (S (length bs))) with (8 + 8 * Z.of_nat (length bs)) by lia.
  rewrite Z.pow_add_r by lia. change (2 ^ 8) with 256. lia.
Qed.

Lemma length_split_le k v : length (split_le k v) = k.
Proof. revert v. induction k; intros; simpl; auto. Qed.

Lemma split_le_le bs : Forall is_byte bs -> split_le (length bs) (le bs) = bs.
Proof.
  induction 1 as [|b bs Hb Hbs IH]; simpl; [done|]. unfold is_byte in Hb.
  unfold wrap. change (2 ^ 8) with 256.
  replace ((b + 256 * le bs) mod 256) with b by divmod.
  replace ((b + 256 * le bs) / 256) with (le bs) by divmod.
  by rewrite IH.
Qed.

Lemma le_app bs1 bs2 :
  le (bs1 ++ bs2) = le bs1 + 2 ^ (8 * Z.of_nat (length bs1)) * le bs2.
Proof.
  induction bs1 as [|b bs1 IH]; [simpl; lia|]. cbn [app le length]. rewrite IH.
  replace (8 * Z.of_nat (S (length bs1))) with (8 + 8 * Z.of_nat (length bs1)) by lia.
  rewrite Z.pow_add_r by lia. change (2 ^ 8) with 256. lia.
Qed.

Lemma split_le_app xs ys k :
  Forall is_byte xs -> Forall is_byte ys -> length xs = k -> split_le k (le (xs ++ ys)) = xs.
Proof.
  intros Hx Hy <-. induction Hx as [|b xs Hb Hx IH]; [done|].
  unfold is_byte in Hb. cbn [app le length split_le]. unfold wrap. change (2 ^ 8) with 256.
  replace ((b + 256 * le (xs ++ ys)) mod 256) with b by divmod.
  replace ((b + 256 * le (xs ++ ys)) / 256) with (le (xs ++ ys)) by divmod.
  by rewrite IH.
Qed.

Lemma split_le_bytes k v : Forall is_byte (split_le k v).
Proof.
  revert v. induction k; intros v; simpl; constructor; [|done].
  apply (wrap_range 8). lia.
Qed.

Lemma cstr_tail m p len : cstr m p len -> 0 < len -> cstr m (p + 1) (len - 1).
Proof.
  intros (Hl & Hm & Hnz & Hz) Hpos. split; [lia|]. split; [eapply mapped_sub; [done|lia..]|].
  split.
  - intros i Hi. rewrite <- Z.add_assoc. apply Hnz. lia.
  - by replace (p + 1 + (len - 1)) with (p + len) by lia.
Qed.

Lemma cstr_write m p bs q len :
  cstr m q len -> disjoint_ranges p (Z.of_nat (length bs)) q (len + 1) ->
  cstr (write_bytes m p bs) q len.
Proof.
  intros (Hl & Hm & Hnz & Hz) Hd. unfold disjoint_ranges in Hd.
  split; [done|]. split; [by apply mapped_write|]. split.
  - intros i Hi. rewrite rd_write_out by lia. by apply Hnz.
  - by rewrite rd_write_out by lia.
Qed.

Lemma words_mapped_sub m p len : 0 <= len -> words_mapped m p len -> mapped m p (len + 1).
Proof.
  intros Hl H a Ha. apply H. pose proof (Z.mod_pos_bound (p + len) 8).
  pose proof (Z.div_mod (p + len) 8). lia.
Qed.

Lemma words_mapped_write m p bs q len :
  words_mapped m q len -> words_mapped (write_bytes m p bs) q len.
Proof. apply mapped_write. Qed.
End mem_lemmas.

#[global] Arguments load_le : simpl never.
#[global] Arguments store_le : simpl never.
#[global] Arguments fuel_of : simpl never.
#[global] Arguments bytes_of : simpl never.

#[export] Hint Resolve rd_byte mapped_write write_bytes_ok bytes_of_bytes split_le_bytes
  words_mapped_write : synthol.

(** ** The word-at-a-time zero-byte test *)

(** [HASZERO], with the constants of a [size_t]. *)
Definition ONES : Z := (2 ^ 64 - 1) / 255.
Definition HIGHS : Z := ONES * (255 / 2 + 1).
Definition HASZERO (x : Z) : bool :=
  nz (Z.land (Z.land (u64 (x - ONES)) (Z.lnot x)) HIGHS).

Fixpoint ones_n (n : nat) : Z := match n with O => 0 | S n' => 1 + 256 * ones_n n' end.

Lemma haszero_byte b : 1 <= b < 256 -> Z.land (Z.land (b - 1) (255 - b)) 128 = 0.
Proof.
  intros Hb.
  pose proof (forall_byte (fun b => implb (0 <? b)
     (Z.land (Z.land (b - 1) (255 - b)) 128 =? 0)) ltac:(vm_compute; reflexivity) b ltac:(lia)) as H.
  cbv beta in H. destruct (Z.ltb_spec 0 b); [|lia]. by apply Z.eqb_eq.
Qed.

(** The test on [n]-byte words, by induction on the number of bytes: below the
    first zero byte the subtraction borrows nothing. *)
Lemma haszero_n bs :
  Forall is_byte bs ->
  (Z.land (Z.land ((le bs - ones_n (length bs)) mod 2 ^ (8 * Z.of_nat (length bs)))
                  (Z.lnot (le bs)))
          (128 * ones_n (length bs)) = 0 <-> 0 ∉ bs).
Proof.
  induction 1 as [|b bs Hb Hbs IH].
  { simpl. rewrite Z.land_0_r. split; [intros _; apply not_elem_of_nil|done]. }
  unfold is_byte in Hb.
  set (n := length bs) in *. set (M := 2 ^ (8 * Z.of_nat n)) in *.
  assert (HM : 2 ^ (8 * Z.of_nat (length (b :: bs))) = 256 * M).
  { subst M n. cbn [length]. rewrite <- (Z.pow_add_r 2 8) by lia. f_equal. lia. }
  rewrite HM. cbn [length le ones_n]. fold n.
  assert (0 < M) by (subst M; lia).
  assert (Hlow : exists c y, 0 <= c < 256 /\
    (b + 256 * le bs - (1 + 256 * ones_n n)) mod (256 * M) = c + 256 * y /\
    c = (b - 1) mod 256 /\ (1 <= b -> y = (le bs - ones_n n) mod M)).
  { set (X := b + 256 * le bs - (1 + 256 * ones_n n)).
    exists (X mod 256), ((X / 256) mod M). split; [|split; [|split]].
    - apply Z.mod_pos_bound; lia.
    - rewrite Z.rem_mul_r by lia. lia.
    - subst X. replace (b + 256 * le bs - (1 + 256 * ones_n n))
        with (b - 1 + (le bs - ones_n n) * 256) by lia.
      by rewrite Z.mod_add by lia.
    - intros Hb1. f_equal. subst X.
      replace (b + 256 * le bs - (1 + 256 * ones_n n))
        with (b - 1 + (le bs - ones_n n) * 256) by lia.
      rewrite Z.div_add, Z.div_small by lia. lia. }
  destruct Hlow as (c & y & Hc & -> & -> & Hy).
  change (Z.land (Z.land ((b - 1) mod 256 + 2 ^ 8 * y) (Z.lnot (b + 2 ^ 8 * le bs)))
    (128 * (1 + 256 * ones_n n)) = 0 <-> 0 ∉ b :: bs).
  rewrite lnot_split.
  replace (128 * (1 + 256 * ones_n n)) with (128 + 2 ^ 8 * (128 * ones_n n)) by lia.
  rewrite !land_split by (lia || (apply land_range; lia)).
  rewrite not_elem_of_cons. clear HM.
  destruct (decide (b = 0)) as [Hz|Hnz]; [rewrite Hz in *; clear Hz|].
  - change (Z.land (Z.land ((0 - 1) mod 256) (2 ^ 8 - 1 - 0)) 128) with 128.
    split; [lia|]. by intros [].
  - rewrite (Z.mod_small (b - 1)) by lia. rewrite Hy by lia.
    change (2 ^ 8 - 1 - b) with (255 - b). rewrite haszero_byte by lia.
    rewrite <- IH. split; [|intros [_ ->]; lia].
    intros. split; [lia|]. lia.
Qed.

Lemma HASZERO_le bs :
  Forall is_byte bs -> length bs = 8%nat -> HASZERO (le bs) = negb (bool_decide (0 ∉ bs)).
Proof.
  intros Hb Hl. pose proof (haszero_n bs Hb) as H. rewrite Hl in H.
  change (ones_n 8) with ONES in H. change (128 * ONES) with HIGHS in H.
  change (8 * Z.of_nat 8) with 64 in H. unfold HASZERO, wrap.
  destruct (bool_decide_reflect (0 ∉ bs)) as [Hd|Hd].
  - by rewrite (proj2 H Hd).
  - apply nz_true. intros Hz. by apply Hd, H.
Qed.

(** [HASZERO( *w ^ ONES*c)] tests for the byte [c]. *)
Lemma lxor_le bs c :
  Forall is_byte bs -> is_byte c ->
  Z.lxor (le bs) (ones_n (length bs) * c) = le ((fun b => Z.lxor b c) <$> bs).
Proof.
  intros H Hc. induction H as [|b bs Hb Hbs IH]; [done|].
  cbn [length le ones_n fmap list_fmap]. rewrite <- IH.
  change 256 with (2 ^ 8).
  replace ((1 + 2 ^ 8 * ones_n (length bs)) * c) with (c + 2 ^ 8 * (ones_n (length bs) * c)) by lia.
  apply lxor_split; unfold is_byte in *; lia.
Qed.

Lemma HASZERO_xor_le bs c :
  Forall is_byte bs -> is_byte c -> length bs = 8%nat ->
  HASZERO (Z.lxor (le bs) (u64 (ONES * c))) = negb (bool_decide (c ∉ bs)).
Proof.
  intros Hb Hc Hl.
  assert (u64 (ONES * c) = ones_n (length bs) * c) as ->.
  { rewrite Hl. change (ones_n 8) with ONES. apply wrap_small.
    unfold is_byte in Hc. unfold ONES. change ((2 ^ 64 - 1) / 255) with 72340172838076673. lia. }
  rewrite lxor_le by done. rewrite HASZERO_le.
  - f_equal. apply bool_decide_ext. rewrite list_elem_of_fmap. split.
    + intros H Hin. apply H. exists c. by rewrite Z.lxor_nilpotent.
    + intros H (b & Hx & Hin). symmetry in Hx. apply Z.lxor_eq in Hx. by subst.
  - apply Forall_fmap. refine (List.Forall_impl _ _ Hb). intros b Hbb.
    by apply (lxor_range 8).
  - by rewrite length_fmap.
Qed.

(** The form the loops use: on mapped memory the test decides whether one of the
    eight bytes at [a] is [c]. *)
Lemma haszero_load64 m a :
  mem_ok m -> mapped m a 8 ->
  exists w, load64 m a = Some w /\
    if HASZERO w then exists i, 0 <= i < 8 /\ rd m (a + i) = 0
    else forall i, 0 <= i < 8 -> rd m (a + i) <> 0.
Proof.
  intros Hok Hm. exists (le (bytes_of m a 8)). split; [by apply (load_le_rd 8)|].
  rewrite HASZERO_le by (done || by apply bytes_of_bytes).
  case_bool_decide as H; simpl.
  - intros i Hi Hz. apply H. unfold bytes_of. apply list_elem_of_fmap.
    exists (a + i). split; [done|]. apply elem_of_seqZ. lia.
  - unfold bytes_of in H. apply list_elem_of_fmap in H as (x & Hx & Hin).
    apply elem_of_seqZ in Hin. exists (x - a). split; [lia|]. by replace (a + (x - a)) with x by lia.
Qed.

Lemma haszero_xor_load64 m a c :
  mem_ok m -> is_byte c -> mapped m a 8 ->
  exists w, load64 m a = Some w /\
    if HASZERO (Z.lxor w (u64 (ONES * c))) then exists i, 0 <= i < 8 /\ rd m (a + i) = c
    else forall i, 0 <= i < 8 -> rd m (a + i) <> c.
Proof.
  intros Hok Hc Hm. exists (le (bytes_of m a 8)). split; [by apply (load_le_rd 8)|].
  rewrite HASZERO_xor_le by (done || by apply bytes_of_bytes).
  case_bool_decide as H; simpl.
  - intros i Hi Hz. apply H. unfold bytes_of. apply list_elem_of_fmap.
    exists (a + i). split; [done|]. apply elem_of_seqZ. lia.
  - unfold bytes_of in H. apply list_elem_of_fmap in H as (x & Hx & Hin).
    apply elem_of_seqZ in Hin. exists (x - a). split; [lia|]. by replace (a + (x - a)) with x by lia.
Qed.

#[global] Arguments le : simpl never.

(** ** Deciding the memory predicates

    Boolean forms of the predicates above, so that they can be evaluated on a
    concrete memory. *)
Definition mapped_b (m : mem) (p n : Z) : bool :=
  forallb (fun a => match m !! a with Some _ => true | None => false end) (seqZ p n).

Definition mem_ok_b (m : mem) : bool :=
  forallb (fun ab => (0 <=? ab.2) && (ab.2 <? 256)) (map_to_list m).

Definition cstr_b (m : mem) (p len : Z) : bool :=
  (0 <=? len) && mapped_b m p (len + 1) && forallb (fun i => nz (rd m (p + i))) (seqZ 0 len) &&
  negb (nz (rd m (p + len))).

Lemma forallb_seqZ f p n : forallb f (seqZ p n) = true -> forall a, p <= a < p + n -> f a = true.
Proof.
  intros H a Ha. rewrite forallb_forall in H. apply H, list_elem_of_In, elem_of_seqZ. lia.
Qed.

Lemma mapped_check m p n : mapped_b m p n = true -> mapped m p n.
Proof.
  intros H a Ha. pose proof (forallb_seqZ _ _ _ H a Ha) as E. simpl in E.
  destruct (m !! a); [by eexists|done].
Qed.

Lemma mem_ok_check m : mem_ok_b m = true -> mem_ok m.
Proof.
  intros H a b E. unfold mem_ok_b in H. rewrite forallb_forall in H.
  specialize (H (a, b)). simpl in H.
  rewrite andb_true_iff, Z.leb_le, Z.ltb_lt in H.
  apply H, list_elem_of_In, elem_of_map_to_list. done.
Qed.

Lemma cstr_check m p len : cstr_b m p len = true -> cstr m p len.
Proof.
  unfold cstr_b. rewrite !andb_true_iff, Z.leb_le. intros [[[Hl Hm] Hn] Hz].
  split; [done|]. split; [by apply mapped_check|]. split.
  - intros i Hi. apply nz_true. apply (forallb_seqZ _ _ _ Hn i). lia.
  - by apply negb_true_iff, nz_false in Hz.
Qed.

(** A quantifier over a range, evaluated. *)
Lemma range_check (P : Z -> Prop) (f : Z -> bool) p n :
  (forall a, f a = true -> P a) -> forallb f (seqZ p n) = true -> forall a, p <= a < p + n -> P a.
Proof. intros HP Hf a Ha. apply HP. by apply (forallb_seqZ _ _ _ Hf). Qed.

Ltac mem_check :=
  lazymatch goal with
  | |- mem_ok _ => apply mem_ok_check; vm_compute; reflexivity
  | |- mapped _ _ _ => apply mapped_check; vm_compute; reflexivity
  | |- words_mapped _ _ _ => apply mapped_check; vm_compute; reflexivity
  | |- cstr _ _ _ => apply cstr_check; vm_compute; reflexivity
  | |- disjoint_ranges _ _ _ _ => unfold disjoint_ranges; lia
  | |- _ => first [lia | reflexivity]
  end.
