(* ===== verification/StrScan.v ===== *)
(** * String and memory searches (src/src/musl/src/string)

    The read-only routines: [strlen] and the searches that scan a word at a time,
    the comparisons, and the byte-set searches.  Each definition runs the loops
    of the C function on the memory of {!Mem}; pointers are addresses and the
    null pointer is [0]. *)
From S2P Require Import Prelude Mem.

(** ** The C functions *)

(** [for (; *s; s++);] *)
Definition scan_nul (m : mem) (s : Z) : option Z :=
  iter (fuel_of m) (fun s =>
    b ← load8 m s; if nz b then Some (Next (s + 1)) else Some (Leave s)) s.

Definition strlen (m : mem) (a : Z) : option Z :=
  r ← iter (fuel_of m) (fun s =>
        if nz (s mod 8) then
          b ← load8 m s;
          if nz b then Some (Next (s + 1)) else Some (Leave (Ret (s - a)))
        else Some (Leave (Fell s))) a;
  match r with
  | Ret l => Some l
  | Fell s =>
      w ← iter (fuel_of m) (fun w =>
            x ← load64 m w; if HASZERO x then Some (Leave w) else Some (Next (w + 8))) s;
      s ← scan_nul m w;
      Some (s - a)
  end.

(** [for (; n && *s != c; s++, n--);] *)
Definition memchr_bytes (m : mem) (c s n : Z) : option (Z * Z) :=
  iter (fuel_of m) (fun '(s, n) =>
    if nz n then
      b ← load8 m s;
      if b =? c then Some (Leave (s, n)) else Some (Next (s + 1, n - 1))
    else Some (Leave (s, n))) (s, n).

Definition memchr (m : mem) (src c n : Z) : option Z :=
  let c := u8 c in
  '(s, n) ← iter (fuel_of m) (fun '(s, n) =>
        if nz (Z.land s 7) && nz n then
          b ← load8 m s;
          if b =? c then Some (Leave (s, n)) else Some (Next (s + 1, n - 1))
        else Some (Leave (s, n))) (src, n);
  '(s, n) ←
    (if nz n then
       b ← load8 m s;
       if b =? c then Some (s, n)
       else
         let k := u64 (ONES * c) in
         '(w, n) ← iter (fuel_of m) (fun '(w, n) =>
               if 8 <=? n then
                 x ← load64 m w;
                 if HASZERO (Z.lxor x k) then Some (Leave (w, n)) else Some (Next (w + 8, n - 8))
               else Some (Leave (w, n))) (s, n);
         memchr_bytes m c w n
     else Some (s, n));
  Some (if nz n then s else 0).

Definition strnlen (m : mem) (s n : Z) : option Z :=
  p ← memchr m s 0 n;
  Some (if nz p then p - s else n).

Definition strchrnul (m : mem) (s c : Z) : option Z :=
  let c := u8 c in
  if negb (nz c) then (l ← strlen m s; Some (s + l))
  else
    r ← iter (fuel_of m) (fun s =>
          if nz (s mod 8) then
            b ← load8 m s;
            if negb (nz b) || (b =? c) then Some (Leave (Ret s)) else Some (Next (s + 1))
          else Some (Leave (Fell s))) s;
    match r with
    | Ret p => Some p
    | Fell s =>
        let k := u64 (ONES * c) in
        w ← iter (fuel_of m) (fun w =>
              x ← load64 m w;
              if negb (HASZERO x) && negb (HASZERO (Z.lxor x k)) then Some (Next (w + 8))
              else Some (Leave w)) s;
        iter (fuel_of m) (fun s =>
          b ← load8 m s;
          if nz b && negb (b =? c) then Some (Next (s + 1)) else Some (Leave s)) w
    end.

Definition strchr (m : mem) (s c : Z) : option Z :=
  r ← strchrnul m s c;
  b ← load8 m r;
  Some (if b =? u8 c then r else 0).

Definition memrchr (mm : mem) (m c n : Z) : option Z :=
  let c := u8 c in
  iter (S (Z.to_nat n)) (fun n =>
    if nz n then
      let n := n - 1 in
      b ← load8 mm (m + n);
      if b =? c then Some (Leave (m + n)) else Some (Next n)
    else Some (Leave 0)) n.

Definition strrchr (m : mem) (s c : Z) : option Z :=
  l ← strlen m s;
  memrchr m s c (l + 1).

Definition memcmp (m : mem) (vl vr n : Z) : option Z :=
  iter (S (Z.to_nat n)) (fun '(l, r, n) =>
    if nz n then
      x ← load8 m l; y ← load8 m r;
      if x =? y then Some (Next (l + 1, r + 1, n - 1)) else Some (Leave (x - y))
    else Some (Leave 0)) (vl, vr, n).

Definition bcmp (m : mem) (s1 s2 n : Z) : option Z := memcmp m s1 s2 n.

Definition strcmp (m : mem) (l r : Z) : option Z :=
  iter (fuel_of m) (fun '(l, r) =>
    x ← load8 m l; y ← load8 m r;
    if (x =? y) && nz x then Some (Next (l + 1, r + 1)) else Some (Leave (x - y))) (l, r).

Definition strncmp (m : mem) (l r n : Z) : option Z :=
  if negb (nz n) then Some 0
  else
    iter (fuel_of m) (fun '(l, r, n) =>
      x ← load8 m l; y ← load8 m r;
      if nz x && nz y && nz n && (x =? y) then Some (Next (l + 1, r + 1, n - 1))
      else Some (Leave (x - y))) (l, r, n - 1).

(** [byteset] is an array of four [size_t]; [BITOP] with [|=] and with [&]. *)
Definition bitop_set (bs : list Z) (b : Z) : list Z :=
  alter (fun w => Z.lor w (2 ^ (b mod 64))) (Z.to_nat (b / 64)) bs.
Definition bitop_test (bs : list Z) (b : Z) : bool :=
  nz (Z.land (nth (Z.to_nat (b / 64)) bs 0) (2 ^ (b mod 64))).

(** [for (; *c && BITOP(byteset, *c, |=); c++);]: the value of the compound
    assignment is the new word, which is never zero. *)
Definition fill_byteset (m : mem) (c : Z) : option (list Z) :=
  iter (fuel_of m) (fun '(c, bs) =>
    b ← load8 m c;
    if nz b then Some (Next (c + 1, bitop_set bs b)) else Some (Leave bs)) (c, [0; 0; 0; 0]).

Definition strspn (m : mem) (a c : Z) : option Z :=
  c0 ← load8 m c;
  if negb (nz c0) then Some 0
  else
    c1 ← load8 m (c + 1);
    if negb (nz c1) then
      s ← iter (fuel_of m) (fun s =>
            b ← load8 m s; if b =? c0 then Some (Next (s + 1)) else Some (Leave s)) a;
      Some (s - a)
    else
      bs ← fill_byteset m c;
      s ← iter (fuel_of m) (fun s =>
            b ← load8 m s;
            if nz b && bitop_test bs b then Some (Next (s + 1)) else Some (Leave s)) a;
      Some (s - a).

Definition strcspn (m : mem) (a c : Z) : option Z :=
  c0 ← load8 m c;
  short ← (if negb (nz c0) then Some true else c1 ← load8 m (c + 1); Some (negb (nz c1)));
  if (short : bool) then (r ← strchrnul m a c0; Some (r - a))
  else
    bs ← fill_byteset m c;
    s ← iter (fuel_of m) (fun s =>
          b ← load8 m s;
          if nz b && negb (bitop_test bs b) then Some (Next (s + 1)) else Some (Leave s)) a;
    Some (s - a).

Definition strpbrk (m : mem) (s b : Z) : option Z :=
  k ← strcspn m s b;
  x ← load8 m (s + k);
  Some (if nz x then s + k else 0).

(** ** Specification vocabulary *)

(** [first_of m stop s k]: [s + k] is the first address from [s] on whose byte
    satisfies [stop]. *)
Definition first_of (m : mem) (stop : Z -> bool) (s k : Z) : Prop :=
  0 <= k /\ stop (rd m (s + k)) = true /\ forall j, 0 <= j < k -> stop (rd m (s + j)) = false.

Definition absent (m : mem) (c s n : Z) : Prop := forall j, 0 <= j < n -> rd m (s + j) <> c.

Lemma first_of_next m stop s k :
  first_of m stop s k -> stop (rd m s) = false -> 0 < k /\ first_of m stop (s + 1) (k - 1).
Proof.
  intros (Hk & Hs & Hn) Hf.
  assert (k <> 0) by (intros ->; rewrite Z.add_0_r in Hs; congruence).
  split; [lia|]. split; [lia|]. split.
  - by replace (s + 1 + (k - 1)) with (s + k) by lia.
  - intros j Hj. rewrite <- Z.add_assoc. apply Hn. lia.
Qed.

Lemma cstr_first_of m p len : cstr m p len -> first_of m (fun b => negb (nz b)) p len.
Proof.
  intros (Hl & _ & Hnz & Hz). split; [done|]. split; [by rewrite Hz|].
  intros j Hj. apply negb_false_iff, nz_true. by apply Hnz.
Qed.

Section scan_loops.
Context (m : mem) (stop : Z -> bool).

(** A loop that looks at one byte per turn stops at the first [stop] byte. *)
Lemma scan_first {R} (body : Z -> option (turn Z R)) (f : Z -> R) s k :
  (forall a b, m !! a = Some b ->
     body a = Some (if stop b then Leave (f a) else Next (a + 1))) ->
  mapped m s (k + 1) -> first_of m stop s k ->
  iter (fuel_of m) body s = Some (f (s + k)).
Proof.
  intros Hbody Hm Hfirst.
  assert (Hsize : k + 1 <= Z.of_nat (size m)) by (by eapply mapped_size).
  destruct (iter_rule (fun a => s <= a <= s + k) (fun a => Z.to_nat (s + k - a))
              (fun r => r = f (s + k)) body) with (fuel := fuel_of m) (s := s)
    as (r & -> & ->); [|unfold fuel_of; destruct Hfirst; lia|unfold fuel_of; lia|done].
  intros a Ha. destruct Hfirst as (Hk & Hs & Hn).
  rewrite (Hbody a (rd m a)) by (apply (mapped_rd m s (k + 1)); [done|lia]).
  destruct (decide (a = s + k)) as [->|Hne].
  - by rewrite Hs.
  - replace a with (s + (a - s)) by lia. rewrite Hn by lia. lia.
Qed.

(** The loop that brings a pointer to a word boundary. *)
Lemma align_first {R} (body : Z -> option (turn Z (exit Z R))) (f : Z -> R) s k :
  (forall a b, m !! a = Some b -> a mod 8 <> 0 ->
     body a = Some (if stop b then Leave (Ret (f a)) else Next (a + 1))) ->
  (forall a, a mod 8 = 0 -> body a = Some (Leave (Fell a))) ->
  mapped m s (k + 1) -> first_of m stop s k ->
  exists r, iter (fuel_of m) body s = Some r /\
    match r with
    | Ret x => x = f (s + k)
    | Fell a => s <= a <= s + k /\ a mod 8 = 0
    end.
Proof.
  intros Hbody Hdone Hm Hfirst.
  assert (Hsize : k + 1 <= Z.of_nat (size m)) by (by eapply mapped_size).
  apply (iter_rule (fun a => s <= a <= s + k) (fun a => Z.to_nat (s + k - a)));
    [|unfold fuel_of; destruct Hfirst; lia|unfold fuel_of; lia].
  intros a Ha. destruct Hfirst as (Hk & Hs & Hn).
  destruct (decide (a mod 8 = 0)) as [H0|H0]; [by rewrite Hdone|].
  rewrite (Hbody a (rd m a)) by (done || (apply (mapped_rd m s (k + 1)); [done|lia])).
  destruct (decide (a = s + k)) as [->|Hne].
  - by rewrite Hs.
  - replace a with (s + (a - s)) by lia. rewrite Hn by lia. lia.
Qed.

(** The word loop never passes the first [stop] byte. *)
Lemma word_first (body : Z -> option (turn Z Z)) s w0 k :
  (forall w, mapped m w 8 -> exists t : bool,
     body w = Some (if t then Leave w else Next (w + 8)) /\
     (t = false -> forall i, 0 <= i < 8 -> stop (rd m (w + i)) = false)) ->
  words_mapped m s k -> first_of m stop s k -> s <= w0 <= s + k -> w0 mod 8 = 0 ->
  exists w, iter (fuel_of m) body w0 = Some w /\ w0 <= w <= s + k.
Proof.
  intros Hbody Hm Hfirst Hw0 Hal. destruct Hfirst as (Hk & Hs & Hn).
  assert (Hsize : k + 1 <= Z.of_nat (size m)) by (eapply mapped_size, words_mapped_sub; done).
  apply (iter_rule (fun w => w0 <= w <= s + k /\ w mod 8 = 0) (fun w => Z.to_nat (s + k - w)));
    [|split; [lia|done]|unfold fuel_of; lia].
  intros w [Hw Hw8].
  destruct (Hbody w) as (t & -> & Ht); [eapply mapped_sub; [exact Hm|lia|divmod]|].
  destruct t; [lia|].
  assert (w + 8 <= s + k).
  { destruct (Z.le_gt_cases (w + 8) (s + k)); [done|].
    specialize (Ht eq_refl (s + k - w) ltac:(lia)).
    replace (w + (s + k - w)) with (s + k) in Ht by lia. congruence. }
  split; [|lia]. split; [lia|divmod].
Qed.
End scan_loops.

Lemma first_of_from m stop s k w : first_of m stop s k -> s <= w <= s + k ->
  first_of m stop w (s + k - w).
Proof.
  intros (Hk & Hs & Hn) Hw. split; [lia|]. split.
  - by replace (w + (s + k - w)) with (s + k) by lia.
  - intros j Hj. replace (w + j) with (s + (w - s + j)) by lia. apply Hn. lia.
Qed.

(** ** Functional correctness *)

Lemma scan_nul_ok m s k : cstr m s k -> scan_nul m s = Some (s + k).
Proof.
  intros H. apply (scan_first m (fun b => negb (nz b)) _ (fun a => a)).
  - intros a b E. unfold load8. rewrite E. simpl. by destruct (nz b).
  - apply H.
  - by apply cstr_first_of.
Qed.

Lemma cstr_from m p len w : cstr m p len -> p <= w <= p + len -> cstr m w (p + len - w).
Proof.
  intros (Hl & Hm & Hnz & Hz) Hw. split; [lia|]. split; [eapply mapped_sub; [done|lia..]|]. split.
  - intros i Hi. replace (w + i) with (p + (w - p + i)) by lia. apply Hnz. lia.
  - by replace (w + (p + len - w)) with (p + len) by lia.
Qed.

(** The two word-loop tests: no zero byte, no byte [c]. *)
Lemma word_test_nul m :
  mem_ok m -> forall w, mapped m w 8 -> exists x, load64 m w = Some x /\
    (HASZERO x = false -> forall i, 0 <= i < 8 -> negb (nz (rd m (w + i))) = false).
Proof.
  intros Hok w Hmw. destruct (haszero_load64 m w) as (x & Hl & Hx); [done..|].
  exists x. split; [done|]. intros E i Hi. rewrite E in Hx.
  apply negb_false_iff, nz_true. by apply Hx.
Qed.

Lemma word_test_byte m c :
  mem_ok m -> is_byte c -> forall w, mapped m w 8 -> exists x, load64 m w = Some x /\
    (HASZERO (Z.lxor x (u64 (ONES * c))) = false ->
     forall i, 0 <= i < 8 -> (rd m (w + i) =? c) = false).
Proof.
  intros Hok Hc w Hmw. destruct (haszero_xor_load64 m w c) as (x & Hl & Hx); [done..|].
  exists x. split; [done|]. intros E i Hi. rewrite E in Hx. apply Z.eqb_neq. by apply Hx.
Qed.

Lemma strlen_ok m p len :
  mem_ok m -> cstr m p len -> words_mapped m p len -> strlen m p = Some len.
Proof.
  intros Hok Hs Hw. unfold strlen.
  with_loop ltac:(fun bd st => destruct (align_first m (fun b => negb (nz b)) bd
    (fun s => s - p) p len) as (r & -> & Hr)).
  - intros a b E Ha. nzsimp. unfold load8. rewrite E. simpl. by destruct (nz b).
  - intros a ->. done.
  - apply Hs.
  - by apply cstr_first_of.
  - simpl. destruct r as [s|l]; [|f_equal; lia]. destruct Hr as [Hsr Hs8].
    with_loop ltac:(fun bd st => destruct (word_first m (fun b => negb (nz b)) bd p st len)
      as (w & -> & Hwr)); [|done|by apply cstr_first_of|done|done|].
    { intros w Hmw. destruct (word_test_nul m Hok w Hmw) as (x & -> & Hx).
      exists (HASZERO x). simpl. by destruct (HASZERO x). }
    simpl. rewrite (scan_nul_ok m w (p + len - w)) by (eapply cstr_from; [done|lia]).
    simpl. f_equal. lia.
Qed.

(** [memchr]: the pointer to the first [c] among the first [n] bytes, or null. *)
Lemma memchr_bytes_found m c s n k :
  mapped m s (k + 1) -> first_of m (fun b => b =? c) s k -> k < n ->
  memchr_bytes m c s n = Some (s + k, n - k).
Proof.
  intros Hm (Hk & Hs & Hn) Hkn.
  assert (Hsize : k + 1 <= Z.of_nat (size m)) by (by eapply mapped_size).
  unfold memchr_bytes.
  with_loop ltac:(fun bd st => destruct (iter_rule
    (fun '(a, r) => s <= a <= s + k /\ r = n - (a - s)) (fun '(a, r) => Z.to_nat (s + k - a))
    (fun r => r = (s + k, n - k)) bd) with (fuel := fuel_of m) (s := st) as (r & -> & ->)).
  - intros [a r] [Ha ->]. rewrite (proj2 (nz_true _)) by lia.
    rewrite (load8_rd m s (k + 1)) by (done || lia). simpl.
    destruct (decide (a = s + k)) as [->|Hne].
    + rewrite Hs. repeat f_equal. lia.
    + assert ((rd m a =? c) = false) as ->; [|lia].
      replace a with (s + (a - s)) by lia. apply Hn. lia.
  - lia.
  - unfold fuel_of. lia.
  - done.
Qed.

Lemma memchr_bytes_absent m c s n :
  mapped m s n -> absent m c s n -> 0 <= n -> memchr_bytes m c s n = Some (s + n, 0).
Proof.
  intros Hm Hab Hn.
  assert (Hsize : n <= Z.of_nat (size m)) by (by eapply mapped_size).
  unfold memchr_bytes.
  with_loop ltac:(fun bd st => destruct (iter_rule
    (fun '(a, r) => s <= a <= s + n /\ r = n - (a - s)) (fun '(a, r) => Z.to_nat (s + n - a))
    (fun r => r = (s + n, 0)) bd) with (fuel := fuel_of m) (s := st) as (r & -> & ->)).
  - intros [a r] [Ha ->]. destruct (decide (a = s + n)) as [->|Hne].
    + replace (n - (s + n - s)) with 0 by lia. done.
    + rewrite (proj2 (nz_true _)) by lia.
      rewrite (load8_rd m s n) by (done || lia). simpl.
      rewrite (proj2 (Z.eqb_neq _ _)); [lia|].
      replace a with (s + (a - s)) by lia. apply Hab. lia.
  - lia.
  - unfold fuel_of. lia.
  - done.
Qed.

(** What [memchr] may read: [k] is the offset of the first [c], or [n] if there
    is none; the rest of the word that holds the match is readable. *)
Record memchr_at (m : mem) (s c n k : Z) : Prop := {
  mc_range : 0 <= k <= n;
  mc_before : absent m c s k;
  mc_here : k < n -> rd m (s + k) = c /\ words_mapped m s k;
  mc_mapped : mapped m s (k + b2z (k <? n));
}.

Lemma memchr_at_read m s c n k a : memchr_at m s c n k -> s <= a < s + n -> a <= s + k ->
  load8 m a = Some (rd m a) /\ ((rd m a =? c) = true <-> a = s + k).
Proof.
  intros [Hr Hb Hh Hm] Ha Hak. split.
  - eapply load8_rd; [exact Hm|]. destruct (Z.ltb_spec k n); simpl; lia.
  - rewrite Z.eqb_eq. split; [|intros ->; apply Hh; lia]. intros E.
    destruct (decide (a = s + k)) as [|Hne]; [done|]. exfalso.
    apply (Hb (a - s)); [lia|]. by replace (s + (a - s)) with a by lia.
Qed.

Lemma memchr_tail m s c n k a :
  memchr_at m s c n k -> s <= a <= s + k -> memchr_bytes m c a (n - (a - s)) = Some (s + k, n - k).
Proof.
  intros H Ha. pose proof H as [Hr Hb Hh Hm].
  revert Hm. destruct (Z.ltb_spec k n) as [Hlt|Hge]; simpl; intros Hm.
  - rewrite (memchr_bytes_found m c a _ (s + k - a)); [do 2 f_equal; lia| | |lia].
    + eapply mapped_sub; [exact Hm|lia..].
    + split; [lia|]. split.
      * apply Z.eqb_eq. replace (a + (s + k - a)) with (s + k) by lia. by apply Hh.
      * intros j Hj. apply Z.eqb_neq. replace (a + j) with (s + (a - s + j)) by lia. apply Hb. lia.
  - rewrite memchr_bytes_absent; [do 2 f_equal; lia| | |lia].
    + eapply mapped_sub; [exact Hm|lia..].
    + intros j Hj. replace (a + j) with (s + (a - s + j)) by lia. apply Hb. lia.
Qed.

Lemma land_7 a : Z.land a 7 = a mod 8.
Proof. apply (Z.land_ones a 3). lia. Qed.

Lemma memchr_ok m s c n k :
  mem_ok m -> memchr_at m s (u8 c) n k -> memchr m s c n = Some (if k <? n then s + k else 0).
Proof.
  intros Hok H. unfold memchr. set (c0 := u8 c) in *.
  assert (Hc0 : is_byte c0) by (apply (wrap_range 8); lia).
  pose proof H as [Hr Hb Hh Hm].
  assert (Hsize : k + b2z (k <? n) <= Z.of_nat (size m)) by (by eapply mapped_size).
  with_loop ltac:(fun bd st => destruct (iter_rule
    (fun '(a, r) => s <= a <= s + k /\ r = n - (a - s)) (fun '(a, r) => Z.to_nat (s + k - a))
    (fun '(a, r) => (s <= a <= s + k /\ r = n - (a - s)) /\
                    (a mod 8 = 0 \/ r = 0 \/ a = s + k /\ k < n)) bd) with (fuel := fuel_of m) (s := st)
      as ([a r] & -> & [Ha ->] & Hend)).
  { intros [a r] [Ha ->]. rewrite land_7.
    destruct (nz (a mod 8)) eqn:E8; simpl.
    2:{ apply nz_false in E8. auto. }
    destruct (nz (n - (a - s))) eqn:En; simpl.
    2:{ apply nz_false in En. auto. }
    apply nz_true in En.
    destruct (memchr_at_read m s c0 n k a) as [-> Hiff]; [done|lia..|]. simpl.
    destruct (rd m a =? c0); [split; [lia|]; right; right; split; [by apply Hiff|]; lia|].
    assert (a <> s + k) by naive_solver. lia. }
  { lia. }
  { unfold fuel_of. ltb_cases k n Hsize; lia. }
  simpl. destruct (nz (n - (a - s))) eqn:En; simpl.
  2:{ apply nz_false in En. rewrite (proj2 (nz_false _)) by lia.
      destruct (Z.ltb_spec k n); [lia|done]. }
  apply nz_true in En.
  destruct (memchr_at_read m s c0 n k a) as [-> Hiff]; [done|lia..|]. simpl.
  destruct (rd m a =? c0).
  { simpl. rewrite (proj2 (nz_true _)) by lia.
    assert (a = s + k) by (by apply Hiff). rewrite (proj2 (Z.ltb_lt _ _)) by lia. by f_equal. }
  assert (Hak : a <> s + k) by naive_solver.
  with_loop ltac:(fun bd st => destruct (iter_rule
    (fun '(w, r) => (s <= w <= s + k /\ w mod 8 = 0) /\ r = n - (w - s))
    (fun '(w, r) => Z.to_nat (s + k - w))
    (fun '(w, r) => s <= w <= s + k /\ r = n - (w - s)) bd) with (fuel := fuel_of m) (s := st)
      as ([w r] & -> & Hw & ->)).
  { intros [w r] [[Hw Hw8] ->]. destruct (Z.leb_spec 8 (n - (w - s))) as [H8|H8]; [|done].
    assert (Hmw : mapped m w 8).
    { revert Hm. destruct (Z.ltb_spec k n) as [Hlt|Hge]; simpl; intros Hm.
      - destruct (Hh Hlt) as [_ Hwm]. eapply mapped_sub; [exact Hwm|lia|divmod].
      - eapply mapped_sub; [exact Hm|lia..]. }
    destruct (word_test_byte m c0 Hok Hc0 w Hmw) as (x & -> & Hx). simpl.
    destruct (HASZERO _); [done|].
    specialize (Hx eq_refl).
    assert (w + 8 <= s + k).
    { destruct (Z.le_gt_cases (w + 8) (s + k)) as [|Hgt]; [done|].
      specialize (Hx (s + k - w) ltac:(lia)). apply Z.eqb_neq in Hx.
      exfalso. apply Hx. replace (w + (s + k - w)) with (s + k) by lia. apply Hh. lia. }
    split; [|lia]. split; [|lia]. split; [lia|divmod]. }
  { lia. }
  { unfold fuel_of. ltb_cases k n Hsize; lia. }
  simpl. rewrite (memchr_tail m s c0 n k) by done. simpl.
  destruct (Z.ltb_spec k n).
  - by rewrite (proj2 (nz_true _)) by lia.
  - by rewrite (proj2 (nz_false _)) by lia.
Qed.

Lemma strnlen_ok m s n k :
  mem_ok m -> memchr_at m s 0 n k -> 0 < s -> strnlen m s n = Some k.
Proof.
  intros Hok H Hs. unfold strnlen. rewrite (memchr_ok m s 0 n k) by done. simpl.
  pose proof (mc_range _ _ _ _ _ H). destruct (Z.ltb_spec k n).
  - rewrite (proj2 (nz_true _)) by lia. f_equal. lia.
  - simpl. f_equal. lia.
Qed.

(** Where [strchrnul] stops: at the terminator or at a [c]. *)
Definition chrnul_stop (c b : Z) : bool := negb (nz b) || (b =? c).

Lemma first_of_cstr0 m s k :
  mapped m s (k + 1) -> first_of m (chrnul_stop 0) s k -> cstr m s k.
Proof.
  unfold chrnul_stop. intros Hm (Hk & Hs & Hn). split; [done|]. split; [done|]. split.
  - intros i Hi. specialize (Hn i Hi). unfold nz in Hn. bcase; simpl in Hn; congruence.
  - unfold nz in Hs. by destruct (Z.eqb_spec (rd m (s + k)) 0).
Qed.

Lemma strchrnul_ok m s c k :
  mem_ok m -> first_of m (chrnul_stop (u8 c)) s k -> words_mapped m s k ->
  strchrnul m s c = Some (s + k).
Proof.
  intros Hok Hf Hw. unfold strchrnul. set (c0 := u8 c) in *.
  assert (Hc0 : is_byte c0) by (apply (wrap_range 8); lia).
  assert (Hm : mapped m s (k + 1)) by (apply words_mapped_sub; [apply Hf|done]).
  destruct (nz c0) eqn:Ec; simpl.
  2:{ apply nz_false in Ec. rewrite Ec in Hf.
      by rewrite (strlen_ok m s k) by (done || by apply first_of_cstr0). }
  with_loop ltac:(fun bd st => destruct (align_first m (chrnul_stop c0) bd
    (fun s => s) s k) as (r & -> & Hr)).
  - intros a b E Ha. nzsimp. unfold load8, chrnul_stop. rewrite E. simpl.
    by destruct (negb (nz b) || (b =? c0)).
  - intros a ->. done.
  - done.
  - done.
  - simpl. destruct r as [a|l]; [|f_equal; lia]. destruct Hr as [Har Ha8].
    with_loop ltac:(fun bd st => destruct (word_first m (chrnul_stop c0) bd s st k)
      as (w & -> & Hwr)); [|done..|].
    { intros w Hmw. destruct (word_test_nul m Hok w Hmw) as (x & Hl & Hx).
      destruct (word_test_byte m c0 Hok Hc0 w Hmw) as (x' & Hl' & Hx').
      rewrite Hl in Hl'. injection Hl' as <-. rewrite Hl. simpl.
      exists (negb (negb (HASZERO x) && negb (HASZERO (Z.lxor x (u64 (ONES * c0)))))).
      unfold chrnul_stop.
      destruct (HASZERO x); [done|]. destruct (HASZERO (Z.lxor x _)); [done|].
      split; [done|]. intros _ i Hi. by rewrite Hx, Hx' by done. }
    simpl. with_loop ltac:(fun bd st =>
      rewrite (scan_first m (chrnul_stop c0) bd (fun a => a) st (s + k - w))).
    + f_equal. lia.
    + intros a' b E. unfold load8, chrnul_stop. rewrite E. simpl.
      by destruct (nz b), (b =? c0).
    + eapply mapped_sub; [exact Hm|lia..].
    + eapply first_of_from; [done|lia].
Qed.

Lemma strchr_ok m s c k :
  mem_ok m -> first_of m (chrnul_stop (u8 c)) s k -> words_mapped m s k ->
  strchr m s c = Some (if rd m (s + k) =? u8 c then s + k else 0).
Proof.
  intros Hok Hf Hw. unfold strchr. rewrite (strchrnul_ok m s c k) by done. simpl.
  assert (Hm : mapped m s (k + 1)) by (apply words_mapped_sub; [apply Hf|done]).
  destruct Hf. by rewrite (load8_rd m s (k + 1)) by (done || lia).
Qed.

(** [k] is the offset of the last [c] among the first [n] bytes, or [-1]. *)
Definition last_of (m : mem) (c s n k : Z) : Prop :=
  -1 <= k < Z.max n 1 /\ (0 <= k -> k < n /\ rd m (s + k) = c) /\
  forall j, k < j < n -> rd m (s + j) <> c.

Lemma memrchr_ok m s c n k :
  0 <= n -> mapped m s n -> last_of m (u8 c) s n k ->
  memrchr m s c n = Some (if 0 <=? k then s + k else 0).
Proof.
  intros Hn Hm (Hk & Hh & Ha). unfold memrchr. set (c0 := u8 c) in *.
  with_loop ltac:(fun bd st => destruct (iter_rule
    (fun r => k < r <= n) (fun r => Z.to_nat r)
    (fun r => r = if 0 <=? k then s + k else 0) bd) with (fuel := S (Z.to_nat n)) (s := st)
      as (r & -> & ->)); [|lia|lia|done].
  intros r Hr. destruct (nz r) eqn:Er.
  - apply nz_true in Er. rewrite (load8_rd m s n) by (done || lia). simpl.
    destruct (Z.eqb_spec (rd m (s + (r - 1))) c0) as [E|E].
    + assert (Hrk : r - 1 = k).
      { destruct (decide (r - 1 = k)); [done|]. exfalso. apply (Ha (r - 1)); [lia|done]. }
      rewrite Hrk. by rewrite (proj2 (Z.leb_le _ _)) by lia.
    + assert (r - 1 <> k) by (intros <-; apply E, Hh; lia). lia.
  - apply nz_false in Er. by rewrite (proj2 (Z.leb_gt _ _)) by lia.
Qed.

Lemma strrchr_ok m s c len k :
  mem_ok m -> cstr m s len -> words_mapped m s len -> last_of m (u8 c) s (len + 1) k ->
  strrchr m s c = Some (if 0 <=? k then s + k else 0).
Proof.
  intros Hok Hs Hw Hk. unfold strrchr. rewrite (strlen_ok m s len) by done. simpl.
  destruct Hs as (Hl & Hm & _). apply memrchr_ok; [lia|done..].
Qed.

(** ** Comparisons *)

(** Lexicographic order on byte strings. *)
Fixpoint lex_compare (xs ys : list Z) : comparison :=
  match xs, ys with
  | [], [] => Eq
  | [], _ :: _ => Lt
  | _ :: _, [] => Gt
  | x :: xs', y :: ys' => match x ?= y with Eq => lex_compare xs' ys' | o => o end
  end.

Lemma lex_compare_refl xs : lex_compare xs xs = Eq.
Proof. induction xs; simpl; [done|]. by rewrite Z.compare_refl. Qed.

Lemma lex_step m l r a b :
  0 < a -> 0 < b ->
  lex_compare (bytes_of m l a) (bytes_of m r b) =
    match rd m l ?= rd m r with
    | Eq => lex_compare (bytes_of m (l + 1) (a - 1)) (bytes_of m (r + 1) (b - 1))
    | o => o
    end.
Proof. intros. rewrite (bytes_of_cons m l a), (bytes_of_cons m r b) by done. done. Qed.

Lemma compare_sub x y : (x - y ?= 0) = (x ?= y).
Proof. by rewrite <- (Z.compare_sub x y). Qed.

Lemma memcmp_ok m l r n :
  mapped m l n -> mapped m r n -> 0 <= n ->
  exists d, memcmp m l r n = Some d /\ (d ?= 0) = lex_compare (bytes_of m l n) (bytes_of m r n).
Proof.
  intros Hl Hr Hn. unfold memcmp.
  apply (iter_rule (fun '(a, b, k) => 0 <= k <= n /\ a = l + (n - k) /\ b = r + (n - k) /\
      lex_compare (bytes_of m l n) (bytes_of m r n) = lex_compare (bytes_of m a k) (bytes_of m b k))
    (fun '(a, b, k) => Z.to_nat k)); [|split; [lia|]; split; [lia|]; split; [lia|]; do 2 f_equal; lia|lia].
  intros [[a b] k] (Hk & -> & -> & ->).
  destruct (nz k) eqn:Ek.
  - apply nz_true in Ek. rewrite (load8_rd m l n (l + (n - k))), (load8_rd m r n (r + (n - k))) by (done || lia). simpl.
    rewrite lex_step by lia.
    destruct (Z.eqb_spec (rd m (l + (n - k))) (rd m (r + (n - k)))) as [E|E].
    + rewrite E, Z.compare_refl. split; [|lia].
      split; [lia|]. split; [lia|]. split; [lia|]. do 2 f_equal; lia.
    + rewrite compare_sub. by destruct (Z.compare_spec (rd m (l + (n - k))) (rd m (r + (n - k)))).
  - apply nz_false in Ek. by rewrite Ek.
Qed.

Lemma strcmp_ok m l r len1 len2 :
  mem_ok m -> cstr m l len1 -> cstr m r len2 ->
  exists d, strcmp m l r = Some d /\
    (d ?= 0) = lex_compare (bytes_of m l len1) (bytes_of m r len2).
Proof.
  intros Hok (Hl1 & Hm1 & Hnz1 & Hz1) (Hl2 & Hm2 & Hnz2 & Hz2). unfold strcmp.
  pose proof (mapped_size _ _ _ Hm1) as Hsz.
  apply (iter_rule (fun '(a, b) => exists i, 0 <= i <= len1 /\ i <= len2 /\ a = l + i /\ b = r + i /\
      lex_compare (bytes_of m l len1) (bytes_of m r len2) =
      lex_compare (bytes_of m a (len1 - i)) (bytes_of m b (len2 - i)))
    (fun '(a, b) => Z.to_nat (l + len1 - a)));
    [|exists 0; split; [lia|]; split; [lia|]; split; [lia|]; split; [lia|]; do 2 f_equal; lia|unfold fuel_of; lia].
  intros [a b] (i & Hi & Hi2 & -> & -> & ->).
  rewrite (load8_rd m l (len1 + 1) (l + i)), (load8_rd m r (len2 + 1) (r + i)) by (done || lia). simpl.
  pose proof (rd_byte m (l + i) Hok) as Hbl. pose proof (rd_byte m (r + i) Hok) as Hbr.
  destruct (decide (i = len1)) as [<-|H1]; destruct (decide (i = len2)) as [<-|H2].
  - rewrite Hz1, Hz2. simpl. by rewrite !Z.sub_diag.
  - rewrite Hz1. rewrite (proj2 (Z.eqb_neq _ _)) by (specialize (Hnz2 i); lia). simpl.
    rewrite compare_sub, Z.sub_diag, (bytes_of_cons m _ (len2 - i)) by lia.
    specialize (Hnz2 i). destruct (Z.compare_spec 0 (rd m (r + i))); [lia|done|lia].
  - rewrite Hz2. rewrite (proj2 (Z.eqb_neq _ _)) by (specialize (Hnz1 i); lia). simpl.
    rewrite compare_sub, Z.sub_diag, (bytes_of_cons m _ (len1 - i)) by lia.
    specialize (Hnz1 i). destruct (Z.compare_spec (rd m (l + i)) 0); [lia|lia|done].
  - rewrite lex_step by lia.
    destruct (Z.eqb_spec (rd m (l + i)) (rd m (r + i))) as [E|E]; simpl.
    + rewrite (proj2 (nz_true _)) by (apply Hnz1; lia). rewrite E, Z.compare_refl.
      split; [|lia]. exists (i + 1). do 4 (split; [lia|]). do 2 f_equal; lia.
    + rewrite compare_sub. by destruct (Z.compare_spec (rd m (l + i)) (rd m (r + i))).
Qed.

Lemma strncmp_ok m l r n len1 len2 :
  mem_ok m -> cstr m l len1 -> cstr m r len2 -> 0 <= n ->
  exists d, strncmp m l r n = Some d /\
    (d ?= 0) = lex_compare (bytes_of m l (Z.min len1 n)) (bytes_of m r (Z.min len2 n)).
Proof.
  intros Hok (Hl1 & Hm1 & Hnz1 & Hz1) (Hl2 & Hm2 & Hnz2 & Hz2) Hn. unfold strncmp.
  pose proof (mapped_size _ _ _ Hm1) as Hsz.
  destruct (nz n) eqn:En; simpl.
  2:{ apply nz_false in En. exists 0. rewrite En, !Z.min_r by lia. done. }
  apply nz_true in En.
  apply (iter_rule (fun '(a, b, k) => exists i, 0 <= i <= len1 /\ i <= len2 /\ i < n /\
      a = l + i /\ b = r + i /\ k = n - 1 - i /\
      lex_compare (bytes_of m l (Z.min len1 n)) (bytes_of m r (Z.min len2 n)) =
      lex_compare (bytes_of m a (Z.min len1 n - i)) (bytes_of m b (Z.min len2 n - i)))
    (fun '(a, b, k) => Z.to_nat (l + len1 - a)));
    [|exists 0; do 6 (split; [lia|]); do 2 f_equal; lia|unfold fuel_of; lia].
  intros [[a b] k] (i & Hi & Hi2 & Hin & -> & -> & -> & ->).
  rewrite (load8_rd m l (len1 + 1) (l + i)), (load8_rd m r (len2 + 1) (r + i)) by (done || lia).
  simpl.
  pose proof (rd_byte m (l + i) Hok) as Hbl. pose proof (rd_byte m (r + i) Hok) as Hbr.
  destruct (decide (i = len1)) as [<-|H1]; destruct (decide (i = len2)) as [<-|H2].
  - rewrite Hz1, Hz2. simpl. by rewrite !Z.min_l, !Z.sub_diag by lia.
  - rewrite Hz1. simpl.
    rewrite (Z.min_l i n), compare_sub, Z.sub_diag, (bytes_of_cons m _ (Z.min len2 n - i)) by lia.
    specialize (Hnz2 i). destruct (Z.compare_spec 0 (rd m (r + i))); [lia|done|lia].
  - rewrite Hz2. rewrite (proj2 (nz_true (rd m (l + i)))) by (apply Hnz1; lia). simpl.
    rewrite (Z.min_l i n), compare_sub, Z.sub_diag, (bytes_of_cons m _ (Z.min len1 n - i)) by lia.
    specialize (Hnz1 i). destruct (Z.compare_spec (rd m (l + i)) 0); [lia|lia|done].
  - rewrite lex_step by lia.
    rewrite (proj2 (nz_true (rd m (l + i)))) by (apply Hnz1; lia).
    rewrite (proj2 (nz_true (rd m (r + i)))) by (apply Hnz2; lia). simpl.
    destruct (Z.eqb_spec (rd m (l + i)) (rd m (r + i))) as [E|E].
    + rewrite E, Z.compare_refl, andb_true_r. destruct (nz (n - 1 - i)) eqn:Ek.
      * apply nz_true in Ek. split; [|lia]. exists (i + 1). do 6 (split; [lia|]). do 2 f_equal; lia.
      * apply nz_false in Ek. rewrite Z.sub_diag.
        by rewrite !bytes_of_nonpos by lia.
    + rewrite andb_false_r, compare_sub.
      by destruct (Z.compare_spec (rd m (l + i)) (rd m (r + i))).
Qed.

(** ** Byte sets *)

Lemma nz_land_pow2 w j : 0 <= j -> nz (Z.land w (2 ^ j)) = Z.testbit w j.
Proof.
  intros Hj. destruct (Z.testbit w j) eqn:E.
  - apply nz_true. intros H. assert (Z.testbit (Z.land w (2 ^ j)) j = true).
    { by rewrite Z.land_spec, E, Z.pow2_bits_true. }
    rewrite H in *. by rewrite Z.testbit_0_l in *.
  - apply nz_false. apply Z.bits_inj'. intros i Hi. rewrite Z.land_spec, Z.testbit_0_l.
    destruct (decide (i = j)) as [->|]; [by rewrite E|].
    rewrite Z.pow2_bits_false by lia. apply andb_false_r.
Qed.

Lemma bitop_test_testbit bs b :
  bitop_test bs b = Z.testbit (nth (Z.to_nat (b / 64)) bs 0) (b mod 64).
Proof. apply nz_land_pow2. apply Z.mod_pos_bound. lia. Qed.

Lemma bitop_set_test bs a b :
  length bs = 4%nat -> is_byte a -> is_byte b ->
  bitop_test (bitop_set bs a) b = (a =? b) || bitop_test bs b.
Proof.
  unfold is_byte. intros Hl Ha Hb. rewrite !bitop_test_testbit. unfold bitop_set.
  rewrite !nth_lookup.
  destruct (decide (a / 64 = b / 64)) as [E|E].
  - rewrite E, list_lookup_alter_eq.
    destruct (lookup_lt_is_Some_2 bs (Z.to_nat (b / 64))) as [w ->]; [rewrite Hl; divmod|].
    simpl. rewrite Z.lor_spec, orb_comm. f_equal.
    rewrite Z.pow2_bits_eqb by divmod.
    destruct (Z.eqb_spec (a mod 64) (b mod 64)), (Z.eqb_spec a b); try done; divmod.
  - rewrite list_lookup_alter_ne by (intros H; apply E; apply Z2Nat.inj in H; divmod).
    destruct (Z.eqb_spec a b); [congruence|done].
Qed.

(** The set of the string's bytes. *)
Lemma fill_byteset_ok m c len :
  mem_ok m -> cstr m c len ->
  exists bs, fill_byteset m c = Some bs /\
    forall b, is_byte b -> bitop_test bs b = bool_decide (b ∈ bytes_of m c len).
Proof.
  intros Hok (Hl & Hm & Hnz & Hz). unfold fill_byteset.
  pose proof (mapped_size _ _ _ Hm) as Hsz.
  apply (iter_rule (fun '(a, bs) => c <= a <= c + len /\ length bs = 4%nat /\
      forall b, is_byte b -> bitop_test bs b = bool_decide (b ∈ bytes_of m c (a - c)))
    (fun '(a, bs) => Z.to_nat (c + len - a))); [| |unfold fuel_of; lia].
  - intros [a bs] (Ha & Hlen & Hbs).
    rewrite (load8_rd m c (len + 1)) by (done || lia). simpl.
    destruct (decide (a = c + len)) as [->|Hne].
    + rewrite Hz. simpl. by replace len with (c + len - c) by lia.
    + assert (rd m a <> 0) by (replace a with (c + (a - c)) by lia; apply Hnz; lia). nzsimp.
      split; [|lia]. split; [lia|]. split; [by unfold bitop_set; rewrite length_alter|].
      intros b Hb. rewrite bitop_set_test by (done || by apply rd_byte).
      rewrite Hbs by done. replace (a + 1 - c) with (a - c + 1) by lia.
      rewrite bytes_of_snoc by lia. replace (c + (a - c)) with a by lia.
      assert (Hiff : b ∈ bytes_of m c (a - c) ++ [rd m a] <-> b ∈ bytes_of m c (a - c) \/ b = rd m a)
        by (rewrite elem_of_app, list_elem_of_singleton; done).
      rewrite (bool_decide_ext _ _ Hiff).
      rewrite bool_decide_or, orb_comm. f_equal.
      destruct (Z.eqb_spec (rd m a) b), (bool_decide_reflect (b = rd m a)); congruence.
  - split; [lia|]. split; [done|]. intros b Hb. rewrite Z.sub_diag. simpl.
    rewrite bitop_test_testbit.
    enough (nth (Z.to_nat (b / 64)) [0; 0; 0; 0] 0 = 0) as -> by apply Z.testbit_0_l.
    by destruct (Z.to_nat (b / 64)) as [|[|[|[|[]]]]].
Qed.

Definition in_set (m : mem) (c len b : Z) : bool := bool_decide (b ∈ bytes_of m c len).

Lemma in_set_0 m c : in_set m c 0 = fun _ => false.
Proof. done. Qed.

Lemma strspn_ok m s c clen k :
  mem_ok m -> cstr m c clen -> mapped m s (k + 1) ->
  first_of m (fun b => negb (nz b) || negb (in_set m c clen b)) s k -> strspn m s c = Some k.
Proof.
  intros Hok Hc Hm Hf. pose proof Hc as (Hl & Hmc & Hnz & Hz). unfold strspn.
  pose proof (rd_byte m c Hok) as Hbc.
  rewrite (load8_rd m c (clen + 1) c) by (done || lia). simpl.
  destruct (decide (clen = 0)) as [->|Hc0].
  { rewrite Z.add_0_r in Hz. rewrite Hz. simpl. f_equal.
    destruct Hf as (Hk & Hs & Hn). destruct (decide (k = 0)) as [|Hk0]; [done|].
    specialize (Hn 0 ltac:(lia)). by rewrite in_set_0, orb_true_r in Hn. }
  rewrite (proj2 (nz_true (rd m c))) by (specialize (Hnz 0); rewrite Z.add_0_r in Hnz; apply Hnz; lia).
  simpl. rewrite (load8_rd m c (clen + 1) (c + 1)) by (done || lia). simpl.
  destruct (decide (clen = 1)) as [->|Hc1].
  - rewrite Hz. simpl. with_loop ltac:(fun bd st =>
      rewrite (scan_first m (fun b => negb (nz b) || negb (in_set m c 1 b)) bd (fun a => a) st k)); [|..].
    + simpl. f_equal. lia.
    + intros a b E. unfold load8. rewrite E. simpl. unfold in_set.
      change (bytes_of m c 1) with [rd m c].
      rewrite (bool_decide_ext _ (b = rd m c)) by apply list_elem_of_singleton.
      destruct (Z.eqb_spec b (rd m c)) as [->|Hne].
      * rewrite bool_decide_true by done.
        rewrite (proj2 (nz_true _)); [done|]. specialize (Hnz 0). rewrite Z.add_0_r in Hnz. apply Hnz. lia.
      * rewrite bool_decide_false by done. by rewrite orb_true_r.
    + done.
    + done.
  - rewrite (proj2 (nz_true (rd m (c + 1)))) by (apply Hnz; lia). simpl.
    destruct (fill_byteset_ok m c clen Hok Hc) as (bs & -> & Hbs). simpl.
    with_loop ltac:(fun bd st =>
      rewrite (scan_first m (fun b => negb (nz b) || negb (in_set m c clen b)) bd (fun a => a) st k)); [|..].
    + simpl. f_equal. lia.
    + intros a b E. unfold load8. rewrite E. simpl. unfold in_set.
      rewrite Hbs by (by apply Hok in E). by destruct (nz b), (bool_decide _).
    + done.
    + done.
Qed.

Lemma strcspn_ok m s c clen k :
  mem_ok m -> cstr m c clen -> words_mapped m s k ->
  first_of m (fun b => negb (nz b) || in_set m c clen b) s k -> strcspn m s c = Some k.
Proof.
  intros Hok Hc Hw Hf. pose proof Hc as (Hl & Hmc & Hnz & Hz). unfold strcspn.
  pose proof (rd_byte m c Hok) as Hbc.
  assert (Hm : mapped m s (k + 1)) by (apply words_mapped_sub; [apply Hf|done]).
  rewrite (load8_rd m c (clen + 1) c) by (done || lia). simpl.
  destruct (decide (clen <= 1)) as [Hc1|Hc1].
  - assert (Hstop : first_of m (chrnul_stop (u8 (rd m c))) s k).
    { rewrite rd_u8 by done. destruct Hf as (Hk & Hs & Hn).
      assert (Heq : forall b, negb (nz b) || in_set m c clen b = chrnul_stop (rd m c) b).
      { intros b. unfold chrnul_stop, in_set. destruct (decide (clen = 0)) as [->|].
        - rewrite Z.add_0_r in Hz. rewrite Hz. simpl. unfold nz. by destruct (b =? 0).
        - replace clen with 1 by lia. change (bytes_of m c 1) with [rd m c].
          rewrite (bool_decide_ext _ (b = rd m c)) by apply list_elem_of_singleton.
          f_equal. by destruct (Z.eqb_spec b (rd m c)), (bool_decide_reflect (b = rd m c)). }
      split; [done|]. rewrite <- Heq. split; [done|]. intros j Hj. rewrite <- Heq. by apply Hn. }
    assert ((if negb (nz (rd m c)) then Some true
             else load8 m (c + 1) ≫= (λ c1, Some (negb (nz c1)))) = Some true) as ->.
    { destruct (nz (rd m c)) eqn:E; [|done]. simpl. apply nz_true in E.
      assert (clen = 1) as ->.
      { destruct (decide (clen = 0)) as [->|]; [|lia]. by rewrite Z.add_0_r in Hz. }
      rewrite (load8_rd m c 2) by (done || lia). simpl. by rewrite Hz. }
    simpl. rewrite (strchrnul_ok m s (rd m c) k) by done. simpl. f_equal. lia.
  - rewrite (proj2 (nz_true (rd m c))) by (specialize (Hnz 0); rewrite Z.add_0_r in Hnz; apply Hnz; lia).
    simpl. rewrite (load8_rd m c (clen + 1) (c + 1)) by (done || lia). simpl.
    rewrite (proj2 (nz_true (rd m (c + 1)))) by (apply Hnz; lia). simpl.
    destruct (fill_byteset_ok m c clen Hok Hc) as (bs & -> & Hbs). simpl.
    with_loop ltac:(fun bd st =>
      rewrite (scan_first m (fun b => negb (nz b) || in_set m c clen b) bd (fun a => a) st k)); [|..].
    + simpl. f_equal. lia.
    + intros a b E. unfold load8. rewrite E. simpl. unfold in_set.
      rewrite Hbs by (by apply Hok in E). by destruct (nz b), (bool_decide _).
    + done.
    + done.
Qed.

Lemma strpbrk_ok m s c clen k :
  mem_ok m -> cstr m c clen -> words_mapped m s k ->
  first_of m (fun b => negb (nz b) || in_set m c clen b) s k ->
  strpbrk m s c = Some (if nz (rd m (s + k)) then s + k else 0).
Proof.
  intros Hok Hc Hw Hf. unfold strpbrk. rewrite (strcspn_ok m s c clen k) by done. simpl.
  assert (Hm : mapped m s (k + 1)) by (apply words_mapped_sub; [apply Hf|done]).
  destruct Hf. by rewrite (load8_rd m s (k + 1)) by (done || lia).
Qed.
