(* ===== verification/StrCopy.v ===== *)
(** * Copying and filling (src/src/musl/src/string)

    The routines that write memory.  Each returns the C result together with the
    final memory; the theorems give that memory as the initial one with one range
    overwritten ([write_bytes]), which also says that nothing else changed. *)
From S2P Require Import Prelude Mem StrScan.

(** ** memcpy *)

(** [*d++ = *s++]. *)
Definition copy1 (m : mem) (d s : Z) : option mem := b ← load8 m s; store8 m d b.

(** [k] of them. *)
Fixpoint copy_n (k : nat) (m : mem) (d s : Z) : option mem :=
  match k with
  | O => Some m
  | S k' => m' ← copy1 m d s; copy_n k' m' (d + 1) (s + 1)
  end.

(** [*(u32 * )d = *(u32 * )s]. *)
Definition copy32 (m : mem) (d s : Z) : option mem := w ← load32 m s; store32 m d w.

Definition copy64 (m : mem) (d s : Z) : option mem := w ← load64 m s; store64 m d w.

Record cpy := { c_mem : mem; c_d : Z; c_s : Z; c_n : Z }.

(** [if (n & k) { k byte copies }] with the pointers advanced. *)
Definition copy_bit (k : Z) (c : cpy) : option cpy :=
  if nz (Z.land (c_n c) k) then
    m ← copy_n (Z.to_nat k) (c_mem c) (c_d c) (c_s c);
    Some {| c_mem := m; c_d := c_d c + k; c_s := c_s c + k; c_n := c_n c |}
  else Some c.

(** The head: byte copies until the source is aligned. *)
Definition memcpy_head (c : cpy) : option cpy :=
  while (S (Z.to_nat (c_n c)))
    (fun c => Some (nz (c_s c mod 4) && nz (c_n c)))
    (fun c => m ← copy1 (c_mem c) (c_d c) (c_s c);
       Some {| c_mem := m; c_d := c_d c + 1; c_s := c_s c + 1; c_n := c_n c - 1 |}) c.

(** Both pointers aligned: 16 bytes a turn, then the remainder. *)
Definition memcpy_aligned (c : cpy) : option mem :=
  c ← while (S (Z.to_nat (c_n c)))
    (fun c => Some (16 <=? c_n c))
    (fun c =>
       m ← copy32 (c_mem c) (c_d c + 0) (c_s c + 0);
       m ← copy32 m (c_d c + 4) (c_s c + 4);
       m ← copy32 m (c_d c + 8) (c_s c + 8);
       m ← copy32 m (c_d c + 12) (c_s c + 12);
       Some {| c_mem := m; c_d := c_d c + 16; c_s := c_s c + 16; c_n := c_n c - 16 |}) c;
  c ← (if nz (Z.land (c_n c) 8) then
         m ← copy32 (c_mem c) (c_d c + 0) (c_s c + 0);
         m ← copy32 m (c_d c + 4) (c_s c + 4);
         Some {| c_mem := m; c_d := c_d c + 8; c_s := c_s c + 8; c_n := c_n c |}
       else Some c);
  c ← (if nz (Z.land (c_n c) 4) then
         m ← copy32 (c_mem c) (c_d c + 0) (c_s c + 0);
         Some {| c_mem := m; c_d := c_d c + 4; c_s := c_s c + 4; c_n := c_n c |}
       else Some c);
  c ← copy_bit 2 c;
  c ← copy_bit 1 c;
  Some (c_mem c).

(** The loop of one [case] of the switch: [w] holds the last word read,
    [ls]/[rs] are the shift counts, [o] the offset of the next word, [lim] the
    loop bound. *)
Definition memcpy_shift (ls rs o lim : Z) (c : cpy) (w : Z) : option cpy :=
  let word w x := u32 (Z.lor (Z.shiftr w ls) (u32 (Z.shiftl x rs))) in
  '(c, _) ← while (S (Z.to_nat (c_n c)))
    (fun '(c, _) => Some (lim <=? c_n c))
    (fun '(c, w) =>
       x ← load32 (c_mem c) (c_s c + o);
       m ← store32 (c_mem c) (c_d c + 0) (word w x);
       w ← load32 m (c_s c + (o + 4));
       m ← store32 m (c_d c + 4) (word x w);
       x ← load32 m (c_s c + (o + 8));
       m ← store32 m (c_d c + 8) (word w x);
       w ← load32 m (c_s c + (o + 12));
       m ← store32 m (c_d c + 12) (word x w);
       Some ({| c_mem := m; c_d := c_d c + 16; c_s := c_s c + 16; c_n := c_n c - 16 |}, w)) (c, w);
  Some c.

(** One [case]: read a word, copy [pre] bytes, run the loop. *)
Definition memcpy_case (pre ls rs o lim : Z) (c : cpy) : option cpy :=
  w ← load32 (c_mem c) (c_s c);
  m ← copy_n (Z.to_nat pre) (c_mem c) (c_d c) (c_s c);
  memcpy_shift ls rs o lim
    {| c_mem := m; c_d := c_d c + pre; c_s := c_s c + pre; c_n := c_n c - pre |} w.

Definition memcpy (m : mem) (dest src n : Z) : option (Z * mem) :=
  c ← memcpy_head {| c_mem := m; c_d := dest; c_s := src; c_n := n |};
  if c_d c mod 4 =? 0 then
    m ← memcpy_aligned c; Some (dest, m)
  else
    c ← (if 32 <=? c_n c then
           if c_d c mod 4 =? 1 then memcpy_case 3 24 8 1 17 c
           else if c_d c mod 4 =? 2 then memcpy_case 2 16 16 2 18 c
           else if c_d c mod 4 =? 3 then memcpy_case 1 8 24 3 19 c
           else Some c
         else Some c);
    c ← copy_bit 16 c;
    c ← copy_bit 8 c;
    c ← copy_bit 4 c;
    c ← copy_bit 2 c;
    c ← copy_bit 1 c;
    Some (dest, c_mem c).

Definition mempcpy (m : mem) (dest src n : Z) : option (Z * mem) :=
  '(r, m) ← memcpy m dest src n; Some (r + n, m).

(** ** memmove *)

(** The [d < s] branch: bring [d] to a word boundary, move words, then bytes. *)
Definition memmove_fwd (m : mem) (d s n : Z) : option mem :=
  let fuel := S (Z.to_nat n) in
  let c := {| c_mem := m; c_d := d; c_s := s; c_n := n |} in
  r ← (if s mod 8 =? d mod 8 then
         r ← iter fuel (fun c =>
               if nz (c_d c mod 8) then
                 if nz (c_n c) then
                   m ← copy1 (c_mem c) (c_d c) (c_s c);
                   Some (Next {| c_mem := m; c_d := c_d c + 1; c_s := c_s c + 1; c_n := c_n c - 1 |})
                 else Some (Leave (Ret (c_mem c)))
               else Some (Leave (Fell c))) c;
         match r with
         | Ret m => Some (Ret m)
         | Fell c =>
             c ← while fuel (fun c => Some (8 <=? c_n c))
                   (fun c => m ← copy64 (c_mem c) (c_d c) (c_s c);
                      Some {| c_mem := m; c_d := c_d c + 8; c_s := c_s c + 8; c_n := c_n c - 8 |}) c;
             Some (Fell c)
         end
       else Some (Fell c));
  match r with
  | Ret m => Some m
  | Fell c =>
      c ← while fuel (fun c => Some (nz (c_n c)))
            (fun c => m ← copy1 (c_mem c) (c_d c) (c_s c);
               Some {| c_mem := m; c_d := c_d c + 1; c_s := c_s c + 1; c_n := c_n c - 1 |}) c;
      Some (c_mem c)
  end.

(** The other branch, from the end: the state is the memory and [n]. *)
Definition memmove_bwd (m : mem) (d s n : Z) : option mem :=
  let fuel := S (Z.to_nat n) in
  r ← (if s mod 8 =? d mod 8 then
         r ← iter fuel (fun '(m, n) =>
               if nz ((d + n) mod 8) then
                 if nz n then
                   let n := n - 1 in
                   m ← copy1 m (d + n) (s + n);
                   Some (Next (m, n))
                 else Some (Leave (Ret m))
               else Some (Leave (Fell (m, n)))) (m, n);
         match r with
         | Ret m => Some (Ret m)
         | Fell c =>
             c ← while fuel (fun '(_, n) => Some (8 <=? n))
                   (fun '(m, n) => let n := n - 8 in
                      m ← copy64 m (d + n) (s + n); Some (m, n)) c;
             Some (Fell c)
         end
       else Some (Fell (m, n)));
  match r with
  | Ret m => Some m
  | Fell c =>
      '(m, _) ← while fuel (fun '(_, n) => Some (nz n))
            (fun '(m, n) => let n := n - 1 in
               m ← copy1 m (d + n) (s + n); Some (m, n)) c;
      Some m
  end.

Definition memmove (m : mem) (dest src n : Z) : option (Z * mem) :=
  let d := dest in
  let s := src in
  if d =? s then Some (d, m)
  else if (s + n <=? d) || (d + n <=? s) then memcpy m d s n
  else if d <? s then m ← memmove_fwd m d s n; Some (dest, m)
  else m ← memmove_bwd m d s n; Some (dest, m).

Definition bcopy (m : mem) (s1 s2 n : Z) : option mem :=
  '(_, m) ← memmove m s2 s1 n; Some m.

(** ** memset *)

Definition memset (m : mem) (dest c n : Z) : option (Z * mem) :=
  let s := dest in
  if negb (nz n) then Some (dest, m) else
  m ← store8 m (s + 0) c;
  m ← store8 m (s + (n - 1)) c;
  if n <=? 2 then Some (dest, m) else
  m ← store8 m (s + 1) c;
  m ← store8 m (s + 2) c;
  m ← store8 m (s + (n - 2)) c;
  m ← store8 m (s + (n - 3)) c;
  if n <=? 6 then Some (dest, m) else
  m ← store8 m (s + 3) c;
  m ← store8 m (s + (n - 4)) c;
  if n <=? 8 then Some (dest, m) else
  let k := Z.land (u64 (- s)) 3 in
  let s := s + k in
  let n := Z.land (n - k) (u64 (-4)) in
  let c32 := u32 ((2 ^ 32 - 1) / 255 * u8 c) in
  m ← store32 m (s + 0) c32;
  m ← store32 m (s + (n - 4)) c32;
  if n <=? 8 then Some (dest, m) else
  m ← store32 m (s + 4) c32;
  m ← store32 m (s + 8) c32;
  m ← store32 m (s + (n - 12)) c32;
  m ← store32 m (s + (n - 8)) c32;
  if n <=? 24 then Some (dest, m) else
  m ← store32 m (s + 12) c32;
  m ← store32 m (s + 16) c32;
  m ← store32 m (s + 20) c32;
  m ← store32 m (s + 24) c32;
  m ← store32 m (s + (n - 28)) c32;
  m ← store32 m (s + (n - 24)) c32;
  m ← store32 m (s + (n - 20)) c32;
  m ← store32 m (s + (n - 16)) c32;
  let k := 24 + Z.land s 4 in
  let s := s + k in
  let n := n - k in
  let c64 := Z.lor c32 (u64 (Z.shiftl c32 32)) in
  '(m, _, _) ← while (S (Z.to_nat n)) (fun '(_, _, n) => Some (32 <=? n))
    (fun '(m, s, n) =>
       m ← store64 m (s + 0) c64;
       m ← store64 m (s + 8) c64;
       m ← store64 m (s + 16) c64;
       m ← store64 m (s + 24) c64;
       Some (m, s + 32, n - 32)) (m, s, n);
  Some (dest, m).

Definition bzero (m : mem) (s n : Z) : option mem := '(_, m) ← memset m s 0 n; Some m.

(** ** The copying lemmas *)

(** The memory after the first [k] bytes have been copied. *)
Definition copied (m : mem) (d s k : Z) : mem := write_bytes m d (bytes_of m s k).

(** A forward copy never reads a byte it has overwritten. *)
Definition fwd_ok (d s n : Z) : Prop := d <= s \/ s + n <= d.

Section forward.
Context (m : mem) (d s n : Z).
Context (Hok : mem_ok m) (Hd : mapped m d n) (Hs : mapped m s n) (Hf : fwd_ok d s n).

Definition cst (k r : Z) : cpy :=
  {| c_mem := copied m d s k; c_d := d + k; c_s := s + k; c_n := r |}.

Lemma copied_0 : copied m d s 0 = m.
Proof. done. Qed.

Lemma cst_0 r : cst 0 r = {| c_mem := m; c_d := d; c_s := s; c_n := r |}.
Proof. unfold cst. by rewrite copied_0, !Z.add_0_r. Qed.

Lemma cst_eq k r a b r' :
  a = d + k -> b = s + k -> r' = r ->
  {| c_mem := copied m d s k; c_d := a; c_s := b; c_n := r' |} = cst k r.
Proof. by intros -> -> ->. Qed.

Lemma mapped_copied k p j : mapped m p j -> mapped (copied m d s k) p j.
Proof. apply mapped_write. Qed.

Lemma copied_ok k : mem_ok (copied m d s k).
Proof. apply write_bytes_ok; [done|by apply bytes_of_bytes]. Qed.

Lemma rd_copied k a : 0 <= k -> s + k <= a < s + n -> rd (copied m d s k) a = rd m a.
Proof.
  intros Hk Ha. apply rd_write_out. rewrite length_bytes_of by done. destruct Hf; lia.
Qed.

Lemma bytes_copied k i j :
  0 <= k <= i -> i + j <= n -> bytes_of (copied m d s k) (s + i) j = bytes_of m (s + i) j.
Proof. intros. apply bytes_of_ext. intros. apply rd_copied; lia. Qed.

Lemma load_copied j k i :
  0 <= k <= i -> i + Z.of_nat j <= n ->
  load_le j (copied m d s k) (s + i) = Some (le (bytes_of m (s + i) (Z.of_nat j))).
Proof.
  intros. rewrite load_le_rd.
  - by rewrite bytes_copied by lia.
  - apply mapped_copied. eapply mapped_sub; [exact Hs|lia..].
Qed.

Lemma load8_copied k i :
  0 <= k <= i -> i < n -> load8 (copied m d s k) (s + i) = Some (rd m (s + i)).
Proof.
  intros. rewrite (load8_rd _ s n) by (lia || by apply mapped_copied).
  by rewrite rd_copied by lia.
Qed.

Lemma store_copied j k v :
  0 <= k -> k + Z.of_nat j <= n -> split_le j v = bytes_of m (s + k) (Z.of_nat j) ->
  store_le j (copied m d s k) (d + k) v = Some (copied m d s (k + Z.of_nat j)).
Proof.
  intros Hk Hj Hv. rewrite store_le_write.
  - rewrite Hv. unfold copied. rewrite bytes_of_app by lia.
    rewrite write_bytes_app, length_bytes_of by lia. done.
  - apply mapped_copied. eapply mapped_sub; [exact Hd|lia..].
Qed.

Lemma store8_copied k v :
  0 <= k < n -> v = rd m (s + k) ->
  store8 (copied m d s k) (d + k) v = Some (copied m d s (k + 1)).
Proof.
  intros Hk ->. rewrite (store8_write _ d n) by (lia || by apply mapped_copied).
  rewrite rd_u8 by done. unfold copied. rewrite bytes_of_snoc by lia.
  by rewrite write_bytes_snoc, length_bytes_of by lia.
Qed.

Lemma split_bytes_of p (j : nat) :
  split_le j (le (bytes_of m p (Z.of_nat j))) = bytes_of m p (Z.of_nat j).
Proof.
  pose proof (length_bytes_of m p (Z.of_nat j) ltac:(lia)) as Hl.
  rewrite <- (split_le_le (bytes_of m p (Z.of_nat j))) at 2 by by apply bytes_of_bytes.
  f_equal. lia.
Qed.

Lemma copy1_copied k a b :
  0 <= k < n -> a = d + k -> b = s + k ->
  copy1 (copied m d s k) a b = Some (copied m d s (k + 1)).
Proof.
  intros Hk -> ->. unfold copy1. rewrite load8_copied by lia. simpl. by apply store8_copied.
Qed.

Lemma copy_le_copied j k a b :
  0 <= k -> k + Z.of_nat j <= n -> a = d + k -> b = s + k ->
  (w ← load_le j (copied m d s k) b; store_le j (copied m d s k) a w) =
    Some (copied m d s (k + Z.of_nat j)).
Proof.
  intros Hk Hj -> ->. rewrite load_copied by lia. simpl.
  apply store_copied; [done..|apply split_bytes_of].
Qed.

Lemma copy32_copied k a b :
  0 <= k -> k + 4 <= n -> a = d + k -> b = s + k ->
  copy32 (copied m d s k) a b = Some (copied m d s (k + 4)).
Proof. apply (copy_le_copied 4). Qed.

Lemma copy64_copied k a b :
  0 <= k -> k + 8 <= n -> a = d + k -> b = s + k ->
  copy64 (copied m d s k) a b = Some (copied m d s (k + 8)).
Proof. apply (copy_le_copied 8). Qed.

Lemma copy_n_copied j k a b :
  0 <= k -> k + Z.of_nat j <= n -> a = d + k -> b = s + k ->
  copy_n j (copied m d s k) a b = Some (copied m d s (k + Z.of_nat j)).
Proof.
  revert k a b. induction j as [|j IH]; intros k a b Hk Hj -> ->; cbn [copy_n].
  - by rewrite Z.add_0_r.
  - rewrite (copy1_copied k) by lia. simpl. rewrite IH by lia. do 2 f_equal. lia.
Qed.

Lemma copy_bit_copied j k r :
  0 <= j -> 0 <= k -> k + j * b2z (nz (Z.land r j)) <= n ->
  copy_bit j (cst k r) = Some (cst (k + j * b2z (nz (Z.land r j))) r).
Proof.
  intros Hj Hk Hb. unfold copy_bit. cbn [cst c_n c_mem c_d c_s].
  destruct (nz (Z.land r j)); simpl in *.
  - rewrite copy_n_copied by lia. simpl. f_equal. rewrite Z2Nat.id by lia.
    replace (j * 1) with j by lia. apply cst_eq; lia.
  - by rewrite Z.mul_0_r, Z.add_0_r.
Qed.

Lemma memcpy_head_ok :
  0 <= n -> exists k, 0 <= k <= n /\
    memcpy_head {| c_mem := m; c_d := d; c_s := s; c_n := n |} = Some (cst k (n - k)) /\
    ((s + k) mod 4 = 0 \/ k = n).
Proof.
  intros Hn. unfold memcpy_head.
  with_while ltac:(fun fl cd bd st => destruct (while_rule
    (fun c => exists k, 0 <= k <= n /\ c = cst k (n - k)) (fun c => Z.to_nat (c_n c)) cd bd)
    with (fuel := fl) (s := st) as (c & -> & (k & Hk & ->) & Hend)).
  - intros c (k & Hk & ->). cbn [cst c_n c_mem c_d c_s].
    destruct (nz ((s + k) mod 4)); [|done]. destruct (nz (n - k)) eqn:E; [|done].
    apply nz_true in E. simpl. rewrite (copy1_copied k) by lia. simpl. split; [|lia].
    exists (k + 1). split; [lia|]. apply cst_eq; lia.
  - exists 0. split; [lia|]. rewrite Z.sub_0_r. by rewrite cst_0.
  - simpl. lia.
  - exists k. split; [done|]. split; [done|]. cbn [cst c_s c_n] in Hend.
    injection Hend as Hend. apply andb_false_iff in Hend as [H|H]; apply nz_false in H; [auto|].
    right. lia.
Qed.
End forward.

(** The low five bits of a count. *)
Lemma low_bits r : 0 <= r < 32 ->
  r = 16 * b2z (nz (Z.land r 16)) + 8 * b2z (nz (Z.land r 8)) + 4 * b2z (nz (Z.land r 4)) +
      2 * b2z (nz (Z.land r 2)) + 1 * b2z (nz (Z.land r 1)).
Proof.
  intros Hr.
  pose proof (forall_byte (fun r => implb (r <? 32)
    (r =? 16 * b2z (nz (Z.land r 16)) + 8 * b2z (nz (Z.land r 8)) + 4 * b2z (nz (Z.land r 4)) +
      2 * b2z (nz (Z.land r 2)) + 1 * b2z (nz (Z.land r 1)))) ltac:(vm_compute; reflexivity) r
    ltac:(lia)) as H.
  cbv beta in H. destruct (Z.ltb_spec r 32); [|lia]. by apply Z.eqb_eq.
Qed.

Lemma low_bits_16 r : 0 <= r < 16 -> nz (Z.land r 16) = false.
Proof.
  intros Hr.
  pose proof (forall_byte (fun r => implb (r <? 16) (negb (nz (Z.land r 16))))
    ltac:(vm_compute; reflexivity) r ltac:(lia)) as H.
  cbv beta in H. destruct (Z.ltb_spec r 16); [|lia]. by apply negb_true_iff.
Qed.

(** A word assembled from two neighbouring words. *)
Lemma shifted_word m a o :
  mem_ok m -> 1 <= o <= 3 ->
  split_le 4 (u32 (Z.lor (Z.shiftr (le (bytes_of m (a - (4 - o)) 4)) (8 * (4 - o)))
                         (u32 (Z.shiftl (le (bytes_of m (a + o) 4)) (8 * o))))) =
  bytes_of m a 4.
Proof.
  intros Hok Ho.
  replace 4 with (4 - o + o) at 2 by lia. rewrite bytes_of_app by lia.
  rewrite le_app, length_bytes_of by lia.
  replace (a - (4 - o) + (4 - o)) with a by lia.
  set (lo := le (bytes_of m (a - (4 - o)) (4 - o))). set (w := le (bytes_of m a o)).
  set (x := le (bytes_of m (a + o) 4)).
  assert (Hlo : 0 <= lo < 2 ^ (8 * (4 - o))).
  { pose proof (le_range (bytes_of m (a - (4 - o)) (4 - o))) as H.
    rewrite length_bytes_of in H by lia. apply H. by apply bytes_of_bytes. }
  assert (Hw : 0 <= w < 2 ^ (8 * o)).
  { pose proof (le_range (bytes_of m a o)) as H.
    rewrite length_bytes_of in H by lia. apply H. by apply bytes_of_bytes. }
  rewrite Z.shiftr_div_pow2, Z.shiftl_mul_pow2 by lia.
  replace (lo + 2 ^ (8 * (4 - o)) * w) with (w * 2 ^ (8 * (4 - o)) + lo) by lia.
  rewrite Z.div_add_l, (Z.div_small lo), Z.add_0_r by lia.
  assert (Hwx : u32 (Z.lor w (u32 (x * 2 ^ (8 * o)))) = u32 (w + 2 ^ (8 * o) * x)).
  { unfold wrap.
    assert (2 ^ 32 = 2 ^ (8 * o) * 2 ^ (32 - 8 * o)) as ->
      by (rewrite <- Z.pow_add_r by lia; f_equal; lia).
    rewrite (Z.mul_comm x), Z.mul_mod_distr_l by lia.
    rewrite lor_disjoint_add by lia.
    rewrite !(Z.rem_mul_r (w + _)) by lia. f_equal.
    - by rewrite !(Z.mul_comm (2 ^ (8 * o))), !Z.mod_add by lia.
    - f_equal. rewrite !(Z.mul_comm (2 ^ (8 * o))), !Z.div_add by lia.
      by rewrite Zplus_mod_idemp_r. }
  rewrite Hwx.
  assert (Happ : w + 2 ^ (8 * o) * x = le (bytes_of m a (4 + o))).
  { replace (4 + o) with (o + 4) by lia. rewrite bytes_of_app, le_app, length_bytes_of by lia. done. }
  rewrite Happ. rewrite bytes_of_app by lia.
  rewrite le_app, length_bytes_of by lia.
  change (8 * 4) with 32. unfold wrap.
  rewrite (Z.mul_comm (2 ^ 32)), Z.mod_add by lia.
  rewrite Z.mod_small.
  - pose proof (split_bytes_of m Hok a 4) as Hsp. exact Hsp.
  - pose proof (le_range (bytes_of m a 4)) as H.
    rewrite length_bytes_of in H by lia. apply H. by apply bytes_of_bytes.
Qed.

(** ** memcpy, memmove *)

Section memcpy.
Context (m : mem) (d s n : Z).
Context (Hok : mem_ok m) (Hd : mapped m d n) (Hs : mapped m s n) (Hf : fwd_ok d s n).
Local Abbreviation copied := (copied m d s).
Local Abbreviation cst := (cst m d s).

Ltac fields := cbn [cst c_n c_mem c_d c_s].
Ltac c32 k := rewrite (copy32_copied m d s n Hok Hd Hs Hf k) by lia; simpl.

Lemma copy_bits k r j1 j2 j3 j4 :
  0 <= k -> 0 <= j1 -> 0 <= j2 -> 0 <= j3 -> 0 <= j4 ->
  k + j1 * b2z (nz (Z.land r j1)) + j2 * b2z (nz (Z.land r j2)) +
    j3 * b2z (nz (Z.land r j3)) + j4 * b2z (nz (Z.land r j4)) <= n ->
  (c ← copy_bit j1 (cst k r); c ← copy_bit j2 c; c ← copy_bit j3 c; copy_bit j4 c) =
  Some (cst (k + j1 * b2z (nz (Z.land r j1)) + j2 * b2z (nz (Z.land r j2)) +
    j3 * b2z (nz (Z.land r j3)) + j4 * b2z (nz (Z.land r j4))) r).
Proof.
  intros.
  pose proof (b2z_range (nz (Z.land r j1))). pose proof (b2z_range (nz (Z.land r j2))).
  pose proof (b2z_range (nz (Z.land r j3))). pose proof (b2z_range (nz (Z.land r j4))).
  rewrite (copy_bit_copied m d s n) by (done || nia). simpl.
  rewrite (copy_bit_copied m d s n) by (done || nia). simpl.
  rewrite (copy_bit_copied m d s n) by (done || nia). simpl.
  by rewrite (copy_bit_copied m d s n) by (done || nia).
Qed.

Lemma memcpy_aligned_ok k :
  0 <= k <= n -> memcpy_aligned (cst k (n - k)) = Some (copied n).
Proof.
  intros Hk. unfold memcpy_aligned.
  with_while ltac:(fun fl cd bd st => destruct (while_rule
    (fun c => exists k, 0 <= k <= n /\ c = cst k (n - k)) (fun c => Z.to_nat (c_n c)) cd bd)
    with (fuel := fl) (s := st) as (c & -> & (k' & Hk' & ->) & Hend)).
  { intros c (k' & Hk' & ->). fields. destruct (Z.leb_spec 16 (n - k')); [|done].
    c32 k'. c32 (k' + 4). c32 (k' + 4 + 4). c32 (k' + 4 + 4 + 4). split; [|lia].
    exists (k' + 16). split; [lia|].
    replace (k' + 4 + 4 + 4 + 4) with (k' + 16) by lia. apply cst_eq; lia. }
  { exists k. done. }
  { fields. lia. }
  revert Hend. fields. intros Hend. injection Hend as Hend. apply Z.leb_gt in Hend.
  clear k Hk. rename k' into k, Hk' into Hk. simpl. fields.
  set (r := n - k) in *.
  pose proof (low_bits r ltac:(lia)) as Hr. rewrite low_bits_16 in Hr by lia.
  pose proof (b2z_range (nz (Z.land r 1))). pose proof (b2z_range (nz (Z.land r 2))).
  pose proof (b2z_range (nz (Z.land r 4))). pose proof (b2z_range (nz (Z.land r 8))).
  set (k8 := k + 8 * b2z (nz (Z.land r 8))).
  set (k4 := k8 + 4 * b2z (nz (Z.land r 4))).
  assert ((if nz (Z.land r 8) then
       m ← copy32 (copied k) (d + k + 0) (s + k + 0);
       m ← copy32 m (d + k + 4) (s + k + 4);
       Some {| c_mem := m; c_d := d + k + 8; c_s := s + k + 8; c_n := r |}
     else Some (cst k r)) = Some (cst k8 r)) as ->.
  { subst k8. destruct (nz (Z.land r 8)); simpl in *.
    - c32 k. c32 (k + 4). f_equal. replace (k + 4 + 4) with (k + 8) by lia. apply cst_eq; lia.
    - by rewrite Z.add_0_r. }
  simpl. fields.
  assert ((if nz (Z.land r 4) then
       m ← copy32 (copied k8) (d + k8 + 0) (s + k8 + 0);
       Some {| c_mem := m; c_d := d + k8 + 4; c_s := s + k8 + 4; c_n := r |}
     else Some (cst k8 r)) = Some (cst k4 r)) as ->.
  { subst k4. destruct (nz (Z.land r 4)); simpl in *.
    - c32 k8. f_equal. apply cst_eq; lia.
    - by rewrite Z.add_0_r. }
  simpl. rewrite (copy_bit_copied m d s n) by (done || lia). simpl.
  rewrite (copy_bit_copied m d s n) by (done || lia). simpl.
  do 2 f_equal. lia.
Qed.

(** The word kept between turns: the four bytes that end at [s + k + o - 1]. *)
Definition held (k o : Z) : Z := le (bytes_of m (s + k - (4 - o)) 4).

Lemma shift_store k o j :
  1 <= o <= 3 -> 0 <= k -> k + 4 <= n -> j = d + k ->
  store32 (copied k) j
    (u32 (Z.lor (Z.shiftr (held k o) (8 * (4 - o)))
                (u32 (Z.shiftl (held (k + 4) o) (8 * o))))) = Some (copied (k + 4)).
Proof.
  intros Ho Hk Hkn ->. apply (store_copied m d s n Hd 4); [lia..|].
  unfold held. replace (s + (k + 4) - (4 - o)) with (s + k + o) by lia.
  by apply shifted_word.
Qed.

Lemma shift_load k o i :
  1 <= o <= 3 -> 0 <= k -> k + o + 4 <= n -> i = s + k + o ->
  load32 (copied k) i = Some (held (k + 4) o).
Proof.
  intros Ho Hk Hkn ->. rewrite <- Z.add_assoc. rewrite (load_copied m d s n Hs Hf 4) by lia.
  unfold held. repeat f_equal. lia.
Qed.

Lemma memcpy_shift_ok o k :
  1 <= o <= 3 -> 4 - o <= k <= n ->
  exists k', k <= k' <= n /\ n - k' < 16 + o /\
    memcpy_shift (8 * (4 - o)) (8 * o) o (16 + o) (cst k (n - k)) (held k o) =
      Some (cst k' (n - k')).
Proof.
  intros Ho Hk. unfold memcpy_shift.
  with_while ltac:(fun fl cd bd st => destruct (while_rule
    (fun '(c, w) => exists k', k <= k' <= n /\ c = cst k' (n - k') /\ w = held k' o)
    (fun '(c, w) => Z.to_nat (c_n c)) cd bd)
    with (fuel := fl) (s := st) as ([c w] & -> & (k' & Hk' & -> & ->) & Hend)).
  - intros [c w] (k' & Hk' & -> & ->). fields.
    destruct (Z.leb_spec (16 + o) (n - k')); [|done].
    rewrite (shift_load k' o) by lia. simpl. rewrite shift_store by lia. simpl.
    rewrite (shift_load (k' + 4) o) by lia. simpl. rewrite shift_store by lia. simpl.
    rewrite (shift_load (k' + 4 + 4) o) by lia. simpl. rewrite shift_store by lia. simpl.
    rewrite (shift_load (k' + 4 + 4 + 4) o) by lia. simpl. rewrite shift_store by lia. simpl.
    split; [|lia]. exists (k' + 16). split; [lia|].
    replace (k' + 4 + 4 + 4 + 4) with (k' + 16) by lia. split; [|done]. apply cst_eq; lia.
  - exists k. split; [lia|done].
  - fields. lia.
  - revert Hend. fields. intros Hend. injection Hend as Hend. apply Z.leb_gt in Hend.
    simpl. exists k'. split; [done|]. split; [lia|done].
Qed.

Lemma memcpy_case_ok o k :
  1 <= o <= 3 -> 0 <= k -> k + 32 <= n ->
  exists k', k <= k' <= n /\ n - k' < 16 + o /\
    memcpy_case (4 - o) (8 * (4 - o)) (8 * o) o (16 + o) (cst k (n - k)) =
      Some (cst k' (n - k')).
Proof.
  intros Ho Hk Hkn. unfold memcpy_case. fields.
  rewrite (load_copied m d s n Hs Hf 4 k k) by lia. simpl.
  rewrite (copy_n_copied m d s n Hok Hd Hs Hf (Z.to_nat (4 - o)) k) by lia. simpl.
  rewrite Z2Nat.id by lia.
  destruct (memcpy_shift_ok o (k + (4 - o))) as (k' & Hk' & Hlt & E); [lia..|].
  exists k'. split; [lia|]. split; [done|]. rewrite <- E. f_equal.
  - apply cst_eq; lia.
  - unfold held. f_equal. f_equal; lia.
Qed.

Lemma memcpy_copied : 0 <= n -> memcpy m d s n = Some (d, copied n).
Proof.
  intros Hn. unfold memcpy.
  destruct (memcpy_head_ok m d s n Hok Hd Hs Hf Hn) as (k & Hk & -> & _). simpl. fields.
  destruct (Z.eqb_spec ((d + k) mod 4) 0) as [E0|E0].
  { by rewrite memcpy_aligned_ok by done. }
  assert (Hswitch : exists k', k <= k' <= n /\ n - k' < 32 /\
    (if 32 <=? n - k then
         if (d + k) mod 4 =? 1 then memcpy_case 3 24 8 1 17 (cst k (n - k))
         else if (d + k) mod 4 =? 2 then memcpy_case 2 16 16 2 18 (cst k (n - k))
         else if (d + k) mod 4 =? 3 then memcpy_case 1 8 24 3 19 (cst k (n - k))
         else Some (cst k (n - k))
       else Some (cst k (n - k))) = Some (cst k' (n - k'))).
  { destruct (Z.leb_spec 32 (n - k)); [|exists k; split; [lia|]; split; [lia|done]].
    pose proof (Z.mod_pos_bound (d + k) 4).
    destruct (Z.eqb_spec ((d + k) mod 4) 1);
      [|destruct (Z.eqb_spec ((d + k) mod 4) 2); [|destruct (Z.eqb_spec ((d + k) mod 4) 3); [|lia]]].
    - destruct (memcpy_case_ok 1 k) as (k' & ? & ? & E); [lia..|]. exists k'.
      split; [done|]. split; [lia|exact E].
    - destruct (memcpy_case_ok 2 k) as (k' & ? & ? & E); [lia..|]. exists k'.
      split; [done|]. split; [lia|exact E].
    - destruct (memcpy_case_ok 3 k) as (k' & ? & ? & E); [lia..|]. exists k'.
      split; [done|]. split; [lia|exact E]. }
  destruct Hswitch as (k' & Hk' & Hlt & ->). simpl.
  set (r := n - k') in *. pose proof (low_bits r ltac:(lia)) as Hr.
  pose proof (b2z_range (nz (Z.land r 1))). pose proof (b2z_range (nz (Z.land r 2))).
  pose proof (b2z_range (nz (Z.land r 4))). pose proof (b2z_range (nz (Z.land r 8))).
  pose proof (b2z_range (nz (Z.land r 16))).
  do 5 (rewrite (copy_bit_copied m d s n) by (done || lia); simpl).
  do 3 f_equal. lia.
Qed.
End memcpy.

(** [copied n] is the specification: the source bytes written at the destination. *)
Lemma memcpy_ok m d s n :
  mem_ok m -> mapped m d n -> mapped m s n -> disjoint_ranges d n s n -> 0 <= n ->
  memcpy m d s n = Some (d, write_bytes m d (bytes_of m s n)).
Proof.
  intros Hok Hd Hs Hdis Hn. apply memcpy_copied; [done..| |done].
  destruct Hdis; [left|right]; lia.
Qed.

Section memmove_forward.
Context (m : mem) (d s n : Z).
Context (Hok : mem_ok m) (Hd : mapped m d n) (Hs : mapped m s n) (Hds : d <= s) (Hn : 0 <= n).
Local Abbreviation copied := (copied m d s).
Local Abbreviation cst := (cst m d s).

Let Hf : fwd_ok d s n.
Proof. by left. Qed.

Lemma memmove_words fuel k :
  0 <= k <= n -> (Z.to_nat n < fuel)%nat ->
  exists k', 0 <= k' <= n /\
    while fuel (fun c => Some (8 <=? c_n c))
      (fun c => m ← copy64 (c_mem c) (c_d c) (c_s c);
         Some {| c_mem := m; c_d := c_d c + 8; c_s := c_s c + 8; c_n := c_n c - 8 |})
      (cst k (n - k)) = Some (cst k' (n - k')).
Proof.
  intros Hk Hfuel.
  with_while ltac:(fun fl cd bd st => destruct (while_rule
    (fun c => exists k, 0 <= k <= n /\ c = cst k (n - k)) (fun c => Z.to_nat (c_n c)) cd bd)
    with (fuel := fl) (s := st) as (c & -> & (k' & Hk' & ->) & _)); [|by eauto| |by eauto].
  - intros c (k' & Hk' & ->). cbn [cst c_n c_mem c_d c_s].
    destruct (Z.leb_spec 8 (n - k')); [|done].
    rewrite (copy64_copied m d s n Hok Hd Hs Hf k') by lia. simpl. split; [|lia].
    exists (k' + 8). split; [lia|]. apply cst_eq; lia.
  - cbn [cst c_n]. lia.
Qed.

Lemma memmove_bytes fuel k :
  0 <= k <= n -> (Z.to_nat n < fuel)%nat ->
  while fuel (fun c => Some (nz (c_n c)))
    (fun c => m ← copy1 (c_mem c) (c_d c) (c_s c);
       Some {| c_mem := m; c_d := c_d c + 1; c_s := c_s c + 1; c_n := c_n c - 1 |})
    (cst k (n - k)) = Some (cst n 0).
Proof.
  intros Hk Hfuel.
  with_while ltac:(fun fl cd bd st => destruct (while_rule
    (fun c => exists k, 0 <= k <= n /\ c = cst k (n - k)) (fun c => Z.to_nat (c_n c)) cd bd)
    with (fuel := fl) (s := st) as (c & -> & (k' & Hk' & ->) & Hend)); [|by eauto| |].
  - intros c (k' & Hk' & ->). cbn [cst c_n c_mem c_d c_s].
    destruct (nz (n - k')) eqn:E; [|done]. apply nz_true in E.
    rewrite (copy1_copied m d s n Hok Hd Hs Hf k') by lia. simpl. split; [|lia].
    exists (k' + 1). split; [lia|]. apply cst_eq; lia.
  - cbn [cst c_n]. lia.
  - injection Hend as Hend. apply nz_false in Hend. cbn [cst c_n] in Hend.
    assert (k' = n) as -> by lia. by rewrite Z.sub_diag.
Qed.

Lemma memmove_align fuel :
  (Z.to_nat n < fuel)%nat ->
  exists r, iter fuel (fun c =>
    if nz (c_d c mod 8) then
      if nz (c_n c) then
        m ← copy1 (c_mem c) (c_d c) (c_s c);
        Some (Next {| c_mem := m; c_d := c_d c + 1; c_s := c_s c + 1; c_n := c_n c - 1 |})
      else Some (Leave (Ret (c_mem c)))
    else Some (Leave (Fell c))) (cst 0 n) = Some r /\
  match r with
  | Ret m' => m' = copied n
  | Fell c => exists k, 0 <= k <= n /\ c = cst k (n - k)
  end.
Proof.
  intros Hfuel.
  apply (iter_rule (fun c => exists k, 0 <= k <= n /\ c = cst k (n - k)) (fun c => Z.to_nat (c_n c)));
    [|exists 0; rewrite Z.sub_0_r; split; [lia|done]|cbn [cst c_n]; lia].
  intros c (k & Hk & ->). cbn [cst c_n c_mem c_d c_s].
  destruct (nz ((d + k) mod 8)); [|by eauto].
  destruct (nz (n - k)) eqn:E.
  - apply nz_true in E. rewrite (copy1_copied m d s n Hok Hd Hs Hf k) by lia. simpl. split; [|lia].
    exists (k + 1). split; [lia|]. apply cst_eq; lia.
  - apply nz_false in E. f_equal. lia.
Qed.

Lemma memmove_fwd_ok : memmove_fwd m d s n = Some (copied n).
Proof.
  unfold memmove_fwd. rewrite <- (cst_0 m d s n). set (fuel := S (Z.to_nat n)).
  assert (Hfuel : (Z.to_nat n < fuel)%nat) by (subst fuel; lia).
  destruct (s mod 8 =? d mod 8); cbv iota.
  - destruct (memmove_align fuel Hfuel) as ([c|m'] & -> & Hr); simpl; [|by rewrite Hr].
    destruct Hr as (k & Hk & ->).
    destruct (memmove_words fuel k Hk Hfuel) as (k' & Hk' & ->). simpl.
    by rewrite (memmove_bytes fuel k' Hk' Hfuel).
  - simpl. replace (cst 0 n) with (cst 0 (n - 0)) by (f_equal; lia).
    by rewrite (memmove_bytes fuel 0 ltac:(lia) Hfuel).
Qed.
End memmove_forward.

Section memmove_backward.
Context (m : mem) (d s n : Z).
Context (Hok : mem_ok m) (Hd : mapped m d n) (Hs : mapped m s n) (Hsd : s <= d).

(** Bytes [k .. n-1] have been copied. *)
Definition bcopied (k : Z) : mem := write_bytes m (d + k) (bytes_of m (s + k) (n - k)).

Lemma bcopied_n : bcopied n = m.
Proof. unfold bcopied. by rewrite Z.sub_diag. Qed.

Lemma rd_bcopied k a : k <= n -> s <= a < s + k -> rd (bcopied k) a = rd m a.
Proof. intros. apply rd_write_out. rewrite length_bytes_of by lia. lia. Qed.

Lemma bcopy_step (j : nat) k :
  0 <= k -> k + Z.of_nat j <= n ->
  (w ← load_le j (bcopied (k + Z.of_nat j)) (s + k);
   store_le j (bcopied (k + Z.of_nat j)) (d + k) w) = Some (bcopied k).
Proof.
  intros Hk Hj. rewrite load_le_rd.
  2:{ apply mapped_write. eapply mapped_sub; [exact Hs|lia..]. }
  simpl. rewrite (bytes_of_ext _ m) by (intros a Ha; apply rd_bcopied; lia).
  rewrite store_le_write.
  2:{ apply mapped_write. eapply mapped_sub; [exact Hd|lia..]. }
  rewrite split_bytes_of by done. f_equal. unfold bcopied.
  apply map_eq. intros a. rewrite !lookup_write_bytes, !length_bytes_of by lia.
  repeat case_decide; try lia; try done.
  all: rewrite !bytes_of_lookup by lia; do 2 f_equal; lia.
Qed.

Lemma bcopy1 k :
  1 <= k <= n -> copy1 (bcopied k) (d + (k - 1)) (s + (k - 1)) = Some (bcopied (k - 1)).
Proof.
  intros Hk. pose proof (bcopy_step 1 (k - 1) ltac:(lia) ltac:(lia)) as H.
  change (Z.of_nat 1) with 1 in H. replace (k - 1 + 1) with k in H by lia.
  unfold copy1. rewrite <- H.
  assert (Hl : forall b, load8 (bcopied k) (s + (k - 1)) = Some b ->
               load_le 1 (bcopied k) (s + (k - 1)) = Some b).
  { intros b Hb. cbn [load_le]. unfold load_le. rewrite Hb. cbn [mbind option_bind]. f_equal. lia. }
  destruct (load8 (bcopied k) (s + (k - 1))) as [b|] eqn:E.
  - rewrite (Hl b eq_refl). cbn [mbind option_bind]. unfold store_le.
    by destruct (store8 (bcopied k) (d + (k - 1)) b).
  - unfold load_le. by rewrite E.
Qed.

Lemma bcopy64 k :
  8 <= k <= n -> copy64 (bcopied k) (d + (k - 8)) (s + (k - 8)) = Some (bcopied (k - 8)).
Proof.
  intros Hk. pose proof (bcopy_step 8 (k - 8) ltac:(lia) ltac:(lia)) as H.
  change (Z.of_nat 8) with 8 in H. by replace (k - 8 + 8) with k in H by lia.
Qed.

Let back (c : mem * Z) : Prop := exists k, 0 <= k <= n /\ c = (bcopied k, k).

Lemma memmove_back_align fuel :
  0 <= n -> (Z.to_nat n < fuel)%nat ->
  exists r, iter fuel (fun '(m, n) =>
    if nz ((d + n) mod 8) then
      if nz n then
        m ← copy1 m (d + (n - 1)) (s + (n - 1));
        Some (Next (m, n - 1))
      else Some (Leave (Ret m))
    else Some (Leave (Fell (m, n)))) (bcopied n, n) = Some r /\
  match r with Ret m' => m' = bcopied 0 | Fell c => back c end.
Proof.
  intros Hn Hfuel.
  apply (iter_rule back (fun c => Z.to_nat (snd c)));
    [|exists n; split; [lia|done]|simpl; lia].
  intros c (k & Hk & ->). destruct (nz ((d + k) mod 8)); [|by exists k].
  destruct (nz k) eqn:E.
  - apply nz_true in E. simpl. rewrite bcopy1 by lia. simpl. split; [|lia].
    exists (k - 1). split; [lia|done].
  - apply nz_false in E. by rewrite E.
Qed.

Lemma memmove_back_words fuel c :
  back c -> (Z.to_nat (snd c) < fuel)%nat ->
  exists c', while fuel (fun '(_, n) => Some (8 <=? n))
    (fun '(m, n) => m ← copy64 m (d + (n - 8)) (s + (n - 8)); Some (m, n - 8)) c = Some c' /\
    back c'.
Proof.
  intros Hc Hfuel.
  with_while ltac:(fun fl cd bd st => destruct (while_rule back (fun c => Z.to_nat (snd c)) cd bd)
    with (fuel := fl) (s := st) as (c' & -> & Hc' & _)); [|done|done|by eauto].
  intros c' (k & Hk & ->). destruct (Z.leb_spec 8 k); [|done].
  simpl. rewrite bcopy64 by lia. simpl. split; [|lia]. exists (k - 8). split; [lia|done].
Qed.

Lemma memmove_back_bytes fuel c :
  back c -> (Z.to_nat (snd c) < fuel)%nat ->
  while fuel (fun '(_, n) => Some (nz n))
    (fun '(m, n) => m ← copy1 m (d + (n - 1)) (s + (n - 1)); Some (m, n - 1)) c =
    Some (bcopied 0, 0).
Proof.
  intros Hc Hfuel.
  with_while ltac:(fun fl cd bd st => destruct (while_rule back (fun c => Z.to_nat (snd c)) cd bd)
    with (fuel := fl) (s := st) as (c' & -> & (k & Hk & ->) & Hend)); [|done|done|].
  - intros c' (k & Hk & ->). destruct (nz k) eqn:E; [|done]. apply nz_true in E.
    simpl. rewrite bcopy1 by lia. simpl. split; [|lia]. exists (k - 1). split; [lia|done].
  - injection Hend as Hend. apply nz_false in Hend. by rewrite Hend.
Qed.

Lemma memmove_bwd_ok : 0 <= n -> memmove_bwd m d s n = Some (copied m d s n).
Proof.
  intros Hn. unfold memmove_bwd. set (fuel := S (Z.to_nat n)).
  assert (Hfuel : forall c, back c -> (Z.to_nat (snd c) < fuel)%nat)
    by (intros c (k & Hk & ->); subst fuel; simpl; lia).
  assert (Hc : bcopied 0 = copied m d s n).
  { unfold bcopied, copied. by rewrite !Z.add_0_r, Z.sub_0_r. }
  replace (m, n) with (bcopied n, n) by (by rewrite bcopied_n). destruct (s mod 8 =? d mod 8); cbv iota.
  - destruct (memmove_back_align fuel Hn ltac:(subst fuel; lia)) as ([c|m'] & -> & Hr); simpl;
      [|by rewrite Hr, Hc].
    destruct (memmove_back_words fuel c Hr (Hfuel c Hr)) as (c' & -> & Hr'). simpl.
    rewrite (memmove_back_bytes fuel c' Hr' (Hfuel c' Hr')). simpl. by rewrite Hc.
  - simpl. rewrite memmove_back_bytes by (subst fuel; simpl; lia || (exists n; split; [lia|done])).
    simpl. by rewrite Hc.
Qed.
End memmove_backward.

Lemma memmove_ok m d s n :
  mem_ok m -> mapped m d n -> mapped m s n -> 0 <= n ->
  memmove m d s n = Some (d, write_bytes m d (bytes_of m s n)).
Proof.
  intros Hok Hd Hs Hn. unfold memmove.
  destruct (Z.eqb_spec d s) as [->|Hne]; [by rewrite write_bytes_self|].
  destruct (_ || _) eqn:Edis.
  { apply memcpy_ok; [done..| |done]. unfold disjoint_ranges.
    apply orb_true_iff in Edis as [E|E]; apply Z.leb_le in E; lia. }
  destruct (Z.ltb_spec d s).
  - by rewrite memmove_fwd_ok by (done || lia).
  - by rewrite memmove_bwd_ok by (done || lia).
Qed.

(** ** memset *)

Section memset.
Context (m : mem) (p n c : Z).
Context (Hm : mapped m p n).

(** Bytes of the destination at the offsets in [W] have been set, the others
    are unchanged or set, and nothing else changed. *)
Definition filled (W : Z -> Prop) (mm : mem) : Prop :=
  (forall i, 0 <= i < n -> W i -> mm !! (p + i) = Some (u8 c)) /\
  (forall i, 0 <= i < n -> mm !! (p + i) = Some (u8 c) \/ mm !! (p + i) = m !! (p + i)) /\
  (forall a, ~ (p <= a < p + n) -> mm !! a = m !! a).

Lemma filled_start : filled (fun _ => False) m.
Proof. split; [done|]. split; [by right|done]. Qed.

Lemma filled_mono (W W' : Z -> Prop) mm :
  (forall i, 0 <= i < n -> W' i -> W i) -> filled W mm -> filled W' mm.
Proof. intros H (H1 & H2 & H3). split; [|done]. intros i Hi HW. apply H1; auto. Qed.

Lemma filled_mapped W mm : filled W mm -> mapped mm p n.
Proof.
  intros (_ & H & _) a Ha. replace a with (p + (a - p)) by lia.
  destruct (H (a - p)) as [-> | ->]; [lia|by eexists|apply Hm; lia].
Qed.

Lemma filled_all W mm :
  0 <= n -> filled W mm -> (forall i, 0 <= i < n -> W i) ->
  mm = write_bytes m p (replicate (Z.to_nat n) (u8 c)).
Proof.
  intros Hn (H1 & _ & H3) HW. apply map_eq. intros a.
  rewrite lookup_write_bytes, length_replicate. case_decide.
  - rewrite lookup_replicate_2 by lia. replace a with (p + (a - p)) by lia. apply H1; [lia|].
    apply HW. lia.
  - apply H3. lia.
Qed.

(** One store of [j] bytes all equal to [c], at offset [i]. *)
Lemma filled_store W mm (j : nat) a i v :
  filled W mm -> a = p + i -> 0 <= i -> i + Z.of_nat j <= n ->
  split_le j v = replicate j (u8 c) ->
  exists mm', store_le j mm a v = Some mm' /\ filled (fun x => W x \/ i <= x < i + Z.of_nat j) mm'.
Proof.
  intros HF -> Hi Hj Hv. eexists. split.
  { apply store_le_write. eapply mapped_sub; [by eapply filled_mapped|lia..]. }
  rewrite Hv. destruct HF as (H1 & H2 & H3). split; [|split].
  - intros x Hx HW. rewrite lookup_write_bytes, length_replicate. case_decide.
    + rewrite lookup_replicate_2 by lia. done.
    + apply H1; [done|]. destruct HW; [done|lia].
  - intros x Hx. rewrite lookup_write_bytes, length_replicate. case_decide; [left|by apply H2].
    rewrite lookup_replicate_2 by lia. done.
  - intros x Hx. rewrite lookup_write_bytes, length_replicate. case_decide; [lia|by apply H3].
Qed.

Lemma filled_store8 W mm a i :
  filled W mm -> a = p + i -> 0 <= i < n ->
  exists mm', store8 mm a c = Some mm' /\ filled (fun x => W x \/ x = i) mm'.
Proof.
  intros HF Ha Hi. destruct (filled_store W mm 1 a i c HF Ha ltac:(lia) ltac:(lia) eq_refl)
    as (mm' & Hst & HF').
  exists mm'. split.
  - unfold store_le in Hst. by destruct (store8 mm a c).
  - eapply filled_mono; [|exact HF']. simpl. intros x _ [|]; [by left|right; lia].
Qed.

Lemma split_c32 : split_le 4 (u32 ((2 ^ 32 - 1) / 255 * u8 c)) = replicate 4 (u8 c).
Proof.
  set (b := u8 c). assert (Hb : 0 <= b < 256) by (apply (wrap_range 8); lia).
  assert (H : forallb (fun b =>
    bool_decide (split_le 4 (u32 ((2 ^ 32 - 1) / 255 * b)) = replicate 4 b)) (seqZ 0 256) = true)
    by (vm_compute; reflexivity).
  apply (forall_byte _ H) in Hb. by apply bool_decide_eq_true in Hb.
Qed.

Lemma split_c64 :
  let c32 := u32 ((2 ^ 32 - 1) / 255 * u8 c) in
  split_le 8 (Z.lor c32 (u64 (Z.shiftl c32 32))) = replicate 8 (u8 c).
Proof.
  intros c32. subst c32.
  set (b := u8 c). assert (Hb : 0 <= b < 256) by (apply (wrap_range 8); lia).
  assert (H : forallb (fun b => let c32 := u32 ((2 ^ 32 - 1) / 255 * b) in
    bool_decide (split_le 8 (Z.lor c32 (u64 (Z.shiftl c32 32))) = replicate 8 b)) (seqZ 0 256) = true)
    by (vm_compute; reflexivity).
  apply (forall_byte _ H) in Hb. by apply bool_decide_eq_true in Hb.
Qed.
End memset.

(** [n &= -4] rounds down to a multiple of four. *)
Lemma land_m4 n : 0 <= n < 2 ^ 64 -> Z.land n (u64 (-4)) = 4 * (n / 4).
Proof.
  intros Hn. change (u64 (-4)) with (0 + 2 ^ 2 * (2 ^ 62 - 1)).
  replace n with (n mod 4 + 2 ^ 2 * (n / 4)) at 1 by divmod.
  rewrite land_split; [|lia|divmod|lia]. rewrite Z.land_0_r.
  change (2 ^ 62 - 1) with (Z.ones 62). rewrite Z.land_ones by lia.
  rewrite Z.mod_small; [lia|]. divmod.
Qed.

Lemma land_neg3 s : Z.land (u64 (- s)) 3 = (- s) mod 4.
Proof.
  rewrite (Z.land_ones _ 2) by lia. unfold wrap. change (2 ^ 2) with 4.
  change (2 ^ 64) with (4 * 2 ^ 62). rewrite Z.rem_mul_r by lia.
  rewrite Z.mul_comm, Z.mod_add by lia. apply Z.mod_mod. lia.
Qed.

Lemma land_bit2 s : Z.land s 4 = 0 \/ Z.land s 4 = 4.
Proof.
  assert (Z.land s 4 = 4 * b2z (Z.testbit s 2)) as ->; [|destruct (Z.testbit s 2); simpl; lia].
  apply Z.bits_inj'. intros i Hi. rewrite Z.land_spec. change 4 with (2 ^ 2).
  rewrite Z.mul_comm, Z.mul_pow2_bits by lia. rewrite Z.pow2_bits_eqb by lia.
  destruct (Z.eqb_spec 2 i) as [<-|Hne].
  - rewrite andb_true_r. by destruct (Z.testbit s 2).
  - rewrite andb_false_r. destruct (Z.testbit s 2); simpl; [|by rewrite Z.testbit_0_l].
    destruct (decide (i < 2)); [by rewrite Z.testbit_neg_r by lia|].
    symmetry. apply (Z.bits_above_log2 1); simpl; lia.
Qed.

Section memset_ok.
Context (m : mem) (p n c : Z).
Context (Hm : mapped m p n).
Local Abbreviation c32 := (u32 ((2 ^ 32 - 1) / 255 * u8 c)).
Local Abbreviation c64 := (Z.lor c32 (u64 (Z.shiftl c32 32))).

Ltac st8 i :=
  match goal with |- context [store8 ?mm ?a c] =>
    match goal with H : filled _ _ _ _ ?W mm |- _ =>
      let mm' := fresh "mm" in let H' := fresh "HF" in let E := fresh in
      destruct (filled_store8 m p n c Hm W mm a i H ltac:(lia) ltac:(lia)) as (mm' & E & H');
      rewrite E; clear H E; cbn [mbind option_bind]
    end end.
Ltac stw i j tac :=
  match goal with |- context [store_le j ?mm ?a ?v] =>
    match goal with H : filled _ _ _ _ ?W mm |- _ =>
      let mm' := fresh "mm" in let H' := fresh "HF" in let E := fresh in
      destruct (filled_store m p n c Hm W mm j a i v H ltac:(lia) ltac:(lia) ltac:(lia) tac)
        as (mm' & E & H');
      rewrite E; clear H E; cbn [mbind option_bind]
    end end.
Ltac st32 i := stw i 4%nat (split_c32 c).
Ltac st64 i := stw i 8%nat (split_c64 c).
Ltac finish :=
  match goal with H : filled _ _ _ _ _ _ |- _ =>
    do 2 f_equal; apply (filled_all m p n c _ _ ltac:(lia) H); intros; lia
  end.

(** The 32-byte loop from offset [o], once the last 28 bytes are set. *)
Lemma memset_loop mm o r fuel :
  filled m p n c (fun i => i < o \/ o + r - 28 <= i) mm ->
  0 <= o -> 0 <= r -> o + r <= n -> (Z.to_nat r < fuel)%nat ->
  r mod 4 = 0 ->
  exists mm' s' r',
    while fuel (fun '(_, _, n) => Some (32 <=? n))
     (fun '(m, s, n) =>
       m ← store64 m (s + 0) c64;
       m ← store64 m (s + 8) c64;
       m ← store64 m (s + 16) c64;
       m ← store64 m (s + 24) c64;
       Some (m, s + 32, n - 32)) (mm, p + o, r) = Some (mm', s', r') /\
    filled m p n c (fun _ => True) mm'.
Proof.
  intros HF Ho Hr Hn Hfuel Hr4.
  with_while ltac:(fun fl cd bd st => destruct (while_rule
    (fun '(mm, s, k) => exists q, s = p + q /\ 0 <= k <= r /\ q + k = o + r /\ k mod 4 = 0 /\
        filled m p n c (fun i => i < q \/ o + r - 28 <= i) mm) (fun '(_, _, k) => Z.to_nat k) cd bd)
    with (fuel := fl) (s := st) as ([[mm' s'] k] & -> & (q & -> & Hk & Hq & Hk4 & HF') & Hend)).
  - clear mm HF. intros [[mm s] k] (q & -> & Hk & Hq & Hk4 & HF). destruct (Z.leb_spec 32 k); [|done].
    st64 q. st64 (q + 8). st64 (q + 16). st64 (q + 24).
    split; [|lia]. exists (q + 32). split; [lia|]. split; [lia|]. split; [lia|]. split; [divmod|].
    eapply filled_mono; [|eassumption]. intros i Hi. simpl. lia.
  - exists o. split; [done|]. split; [lia|]. split; [lia|]. done.
  - done.
  - injection Hend as Hend. apply Z.leb_gt in Hend. do 3 eexists. split; [done|].
    eapply filled_mono; [|exact HF']. intros i Hi _. simpl. divmod.
Qed.

Lemma memset_ok :
  0 <= n < 2 ^ 64 -> memset m p c n = Some (p, write_bytes m p (replicate (Z.to_nat n) (u8 c))).
Proof.
  intros Hn. pose proof (filled_start m p n c) as HF0. unfold memset.
  destruct (nz n) eqn:En; cbn [negb].
  2:{ apply nz_false in En. by rewrite En. }
  apply nz_true in En.
  st8 0. st8 (n - 1).
  destruct (Z.leb_spec n 2); [finish|].
  st8 1. st8 2. st8 (n - 2). st8 (n - 3).
  destruct (Z.leb_spec n 6); [finish|].
  st8 3. st8 (n - 4).
  destruct (Z.leb_spec n 8); [finish|].
  rewrite land_neg3. set (k := (- p) mod 4). assert (Hk : 0 <= k < 4) by (subst k; divmod).
  clearbody k. rewrite land_m4 by lia. set (q4 := (n - k) / 4).
  assert (Hq : n - k - 3 <= 4 * q4 <= n - k) by (subst q4; divmod). clearbody q4.
  match goal with H : filled _ _ _ _ _ ?mm |- _ =>
    apply (filled_mono _ _ _ _ _ (fun i => i < 4 \/ n - 4 <= i)) in H; [|intros; lia] end.
  st32 k. st32 (k + (4 * q4 - 4)).
  destruct (Z.leb_spec (4 * q4) 8); [finish|].
  st32 (k + 4). st32 (k + 8). st32 (k + (4 * q4 - 12)). st32 (k + (4 * q4 - 8)).
  destruct (Z.leb_spec (4 * q4) 24); [finish|].
  match goal with H : filled _ _ _ _ _ ?mm |- _ =>
    apply (filled_mono _ _ _ _ _ (fun i => i < k + 12 \/ k + 4 * q4 - 12 <= i)) in H; [|intros; lia] end.
  st32 (k + 12). st32 (k + 16). st32 (k + 20). st32 (k + 24).
  st32 (k + (4 * q4 - 28)). st32 (k + (4 * q4 - 24)). st32 (k + (4 * q4 - 20)). st32 (k + (4 * q4 - 16)).
  match goal with H : filled _ _ _ _ _ ?mm |- _ =>
    apply (filled_mono _ _ _ _ _ (fun i => i < k + 28 \/ k + 4 * q4 - 28 <= i)) in H; [|intros; lia] end.
  set (k2 := 24 + Z.land (p + k) 4).
  assert (Hk2 : k2 = 24 \/ k2 = 28) by (subst k2; pose proof (land_bit2 (p + k)); lia). clearbody k2.
  match goal with H : filled _ _ _ _ _ ?mm |- _ =>
    apply (filled_mono _ _ _ _ _ (fun i => i < k + k2 \/ k + k2 + (4 * q4 - k2) - 28 <= i)) in H;
      [|intros; lia];
    destruct (memset_loop mm (k + k2) (4 * q4 - k2) (S (Z.to_nat (4 * q4 - k2))) H)
      as (mm' & s' & r' & E & HF); [lia..|destruct Hk2; subst k2; divmod|] end.
  rewrite Z.add_assoc in E. rewrite E. simpl. do 2 f_equal.
  by apply (filled_all m p n c _ _ ltac:(lia) HF).
Qed.
End memset_ok.
