(* ===== verification/StrStr.v ===== *)
(** * NUL-terminated and bounded copies, tokenizers (src/src/musl/src/string)

    The string routines built on the word-at-a-time copy loop, [strcat] and its
    relatives, and the tokenizers [strsep], [strtok_r] and [strtok], whose state
    is a pointer into the string they cut. *)
From S2P Require Import Prelude Mem StrScan StrCopy.

(** ** Bounded and NUL-terminated copies *)

(** [for (; n && ( *d = *s) != c; n--, s++, d++);], and with [aligning] the loop
    that also tests [s & ALIGN].  [stpncpy] and [strlcpy] have [c = 0]. *)
Definition ccpy_loop (aligning : bool) (c : Z) (st : cpy) : option cpy :=
  iter (S (Z.to_nat (c_n st))) (fun st =>
    if (negb aligning || nz (Z.land (c_s st) 7)) && nz (c_n st) then
      b ← load8 (c_mem st) (c_s st);
      m ← store8 (c_mem st) (c_d st) b;
      if b =? c then Some (Leave {| c_mem := m; c_d := c_d st; c_s := c_s st; c_n := c_n st |})
      else Some (Next {| c_mem := m; c_d := c_d st + 1; c_s := c_s st + 1; c_n := c_n st - 1 |})
    else Some (Leave st)) st.

(** [for (; n >= sizeof(size_t) && !test( *ws); n -= .., ws++, wd++) *wd = *ws;] *)
Definition ccpy_words (test : Z -> bool) (st : cpy) : option cpy :=
  iter (S (Z.to_nat (c_n st))) (fun st =>
    if 8 <=? c_n st then
      x ← load64 (c_mem st) (c_s st);
      if test x then Some (Leave st)
      else
        m ← store64 (c_mem st) (c_d st) x;
        Some (Next {| c_mem := m; c_d := c_d st + 8; c_s := c_s st + 8; c_n := c_n st - 8 |})
    else Some (Leave st)) st.

(** The tail reads [*s] whether or not the loop stopped at a [c]. *)
Definition memccpy (m : mem) (dest src c n : Z) : option (Z * mem) :=
  let c := u8 c in
  let st := {| c_mem := m; c_d := dest; c_s := src; c_n := n |} in
  let tail st :=
    b ← load8 (c_mem st) (c_s st);
    Some (if b =? c then c_d st + 1 else 0, c_mem st) in
  if Z.land src 7 =? Z.land dest 7 then
    st ← ccpy_loop true c st;
    if nz (Z.land (c_s st) 7) then tail st
    else
      let k := u64 (ONES * c) in
      st ← ccpy_words (fun x => HASZERO (Z.lxor x k)) st;
      st ← ccpy_loop false c st;
      tail st
  else
    st ← ccpy_loop false c st;
    tail st.

(** [stpcpy]: the pointers only; [c_n] is not used. *)
Definition stpcpy (m : mem) (d s : Z) : option (Z * mem) :=
  let last m d s :=
    iter (fuel_of m) (fun '(m, d, s) =>
      b ← load8 m s;
      m ← store8 m d b;
      if nz b then Some (Next (m, d + 1, s + 1)) else Some (Leave (d, m))) (m, d, s) in
  if s mod 8 =? d mod 8 then
    r ← iter (fuel_of m) (fun '(m, d, s) =>
          if nz (s mod 8) then
            b ← load8 m s;
            m ← store8 m d b;
            if nz b then Some (Next (m, d + 1, s + 1)) else Some (Leave (Ret (d, m)))
          else Some (Leave (Fell (m, d, s)))) (m, d, s);
    match r with
    | Ret x => Some x
    | Fell st =>
        '(m, d, s) ← iter (fuel_of m) (fun '(m, d, s) =>
              x ← load64 m s;
              if HASZERO x then Some (Leave (m, d, s))
              else m ← store64 m d x; Some (Next (m, d + 8, s + 8))) st;
        last m d s
    end
  else last m d s.

Definition strcpy (m : mem) (dest src : Z) : option (Z * mem) :=
  '(_, m) ← stpcpy m dest src; Some (dest, m).

Definition strcat (m : mem) (dest src : Z) : option (Z * mem) :=
  l ← strlen m dest;
  '(_, m) ← strcpy m (dest + l) src;
  Some (dest, m).

Definition stpncpy (m : mem) (d s n : Z) : option (Z * mem) :=
  let c := {| c_mem := m; c_d := d; c_s := s; c_n := n |} in
  let tail c := '(_, m) ← memset (c_mem c) (c_d c) 0 (c_n c); Some (c_d c, m) in
  if Z.land s 7 =? Z.land d 7 then
    c ← ccpy_loop true 0 c;
    at_end ← (if negb (nz (c_n c)) then Some true
              else b ← load8 (c_mem c) (c_s c); Some (negb (nz b)));
    if (at_end : bool) then tail c
    else c ← ccpy_words HASZERO c; c ← ccpy_loop false 0 c; tail c
  else c ← ccpy_loop false 0 c; tail c.

Definition strncpy (m : mem) (d s n : Z) : option (Z * mem) :=
  '(_, m) ← stpncpy m d s n; Some (d, m).

Definition strncat (m : mem) (a s n : Z) : option (Z * mem) :=
  l ← strlen m a;
  c ← while (S (Z.to_nat n))
        (fun c => if nz (c_n c) then b ← load8 (c_mem c) (c_s c); Some (nz b) else Some false)
        (fun c => m ← copy1 (c_mem c) (c_d c) (c_s c);
           Some {| c_mem := m; c_d := c_d c + 1; c_s := c_s c + 1; c_n := c_n c - 1 |})
        {| c_mem := m; c_d := a + l; c_s := s; c_n := n |};
  m ← store8 (c_mem c) (c_d c) 0;
  Some (a, m).

Definition strlcpy (m : mem) (d s n : Z) : option (Z * mem) :=
  let d0 := d in
  let finish m d s := l ← strlen m s; Some (d - d0 + l, m) in
  if negb (nz n) then finish m d s
  else
    let c := {| c_mem := m; c_d := d; c_s := s; c_n := n - 1 |} in
    c ← (if Z.land s 7 =? Z.land d 7 then
           c ← ccpy_loop true 0 c;
           more ← (if nz (c_n c) then b ← load8 (c_mem c) (c_s c); Some (nz b) else Some false);
           if (more : bool) then ccpy_words HASZERO c else Some c
         else Some c);
    c ← ccpy_loop false 0 c;
    m ← store8 (c_mem c) (c_d c) 0;
    finish m (c_d c) (c_s c).

Definition strlcat (m : mem) (d s n : Z) : option (Z * mem) :=
  l ← strnlen m d n;
  if l =? n then k ← strlen m s; Some (l + k, m)
  else '(k, m) ← strlcpy m (d + l) s (n - l); Some (l + k, m).

Definition swab (m : mem) (src dest n : Z) : option mem :=
  c ← while (S (Z.to_nat n)) (fun c => Some (1 <? c_n c))
        (fun c =>
           b ← load8 (c_mem c) (c_s c + 1);
           m ← store8 (c_mem c) (c_d c + 0) b;
           b ← load8 m (c_s c + 0);
           m ← store8 m (c_d c + 1) b;
           Some {| c_mem := m; c_d := c_d c + 2; c_s := c_s c + 2; c_n := c_n c - 2 |})
        {| c_mem := m; c_d := dest; c_s := src; c_n := n |};
  Some (c_mem c).

(** ** Tokenizers *)

(** [strsep]: the string pointer [*str] is the state. *)
Definition strsep (m : mem) (str sep : Z) : option (Z * Z * mem) :=
  let s := str in
  if s =? 0 then Some (0, str, m)
  else
    k ← strcspn m s sep;
    let e := s + k in
    b ← load8 m e;
    if nz b then m ← store8 m e 0; Some (s, e + 1, m)
    else Some (s, 0, m).

(** [strtok_r]: returns the token, the new [*p] and the memory. *)
Definition strtok_r (m : mem) (s sep p : Z) : option (Z * Z * mem) :=
  let s := if s =? 0 then p else s in
  if s =? 0 then Some (0, p, m)
  else
    k ← strspn m s sep;
    let s := s + k in
    b ← load8 m s;
    if negb (nz b) then Some (0, 0, m)
    else
      k ← strcspn m s sep;
      let p := s + k in
      b ← load8 m p;
      if nz b then m ← store8 m p 0; Some (s, p + 1, m)
      else Some (s, 0, m).

(** [strtok]: the same with the static pointer. *)
Definition strtok (m : mem) (s sep static_p : Z) : option (Z * Z * mem) :=
  let s := if s =? 0 then static_p else s in
  if s =? 0 then Some (0, static_p, m)
  else
    k ← strspn m s sep;
    let s := s + k in
    b ← load8 m s;
    if negb (nz b) then Some (0, 0, m)
    else
      k ← strcspn m s sep;
      let p := s + k in
      b ← load8 m p;
      if nz b then m ← store8 m p 0; Some (s, p + 1, m)
      else Some (s, 0, m).

(** ** The bounded word-at-a-time copy *)

Section ccpy.
(** [t] is the offset of the first [c], or [n]: [memchr_at]. *)
Context (m : mem) (d s n t c : Z) (test : Z -> bool).
Context (Hok : mem_ok m) (Hat : memchr_at m s c n t).
Let N := t + b2z (t <? n).
Context (Hd : mapped m d N) (Hdis : disjoint_ranges d N s N).
Context (Htest : forall mm w, mem_ok mm -> mapped mm w 8 -> exists x, load64 mm w = Some x /\
  (test x = false -> forall i, 0 <= i < 8 -> rd mm (w + i) <> c)).

Let Hs : mapped m s N.
Proof. exact (mc_mapped _ _ _ _ _ Hat). Qed.
Let Hf : fwd_ok d s N.
Proof. pose proof (b2z_range (t <? n)) as Hb. destruct Hdis as [H|H]; [left|right; done].
  pose proof (mc_range _ _ _ _ _ Hat). subst N. lia. Qed.
Let Ht : 0 <= t <= n.
Proof. exact (mc_range _ _ _ _ _ Hat). Qed.

Local Abbreviation copied := (copied m d s).
Local Abbreviation cst := (cst m d s).

Lemma ccpy_N : t <= N <= n /\ (t < n -> N = t + 1) /\ (t = n -> N = n).
Proof. pose proof Ht as Ht'. subst N. clear - Ht'. destruct (Z.ltb_spec t n); simpl; lia. Qed.

(** Where the last loop stops. *)
Definition cend : cpy := {| c_mem := copied N; c_d := d + t; c_s := s + t; c_n := n - t |}.

Lemma ccpy_before k : 0 <= k < t -> (rd m (s + k) =? c) = false.
Proof. intros Hk. apply Z.eqb_neq. by apply (mc_before _ _ _ _ _ Hat). Qed.

Lemma ccpy_at : t < n -> (rd m (s + t) =? c) = true.
Proof. intros Hlt. apply Z.eqb_eq. by apply (mc_here _ _ _ _ _ Hat). Qed.

Definition ccpy_mid (al : bool) (st : cpy) : Prop :=
  (st = cend /\ (al = true -> t < n -> (s + t) mod 8 <> 0)) \/
  (al = true /\ exists k, 0 <= k <= t /\ st = cst k (n - k) /\ (s + k) mod 8 = 0).

Lemma ccpy_loop_ok al k :
  0 <= k <= t ->
  exists st, ccpy_loop al c (cst k (n - k)) = Some st /\ ccpy_mid al st.
Proof.
  intros Hk. pose proof Ht. pose proof ccpy_N as (HN1 & HN2 & HN3). unfold ccpy_loop.
  apply (iter_rule (fun st => exists k, 0 <= k <= t /\ st = cst k (n - k)) (fun st => Z.to_nat (c_n st)));
    [|by eauto|cbn [StrCopy.cst c_n]; lia].
  clear k Hk. intros st (k & Hk & ->). cbn [StrCopy.cst c_n c_mem c_d c_s]. rewrite land_7.
  destruct (decide (al = true /\ (s + k) mod 8 = 0)) as [[-> H8]|Hal].
  { rewrite H8. simpl. right. eauto. }
  assert ((negb al || nz ((s + k) mod 8)) = true) as ->.
  { destruct al; simpl; [|done]. apply nz_true. naive_solver. }
  destruct (nz (n - k)) eqn:En; simpl.
  2:{ apply nz_false in En. left. unfold cend. assert (k = t) as -> by lia.
      assert (t = n) as -> by lia. split; [by rewrite HN3|lia]. }
  apply nz_true in En. rewrite (load8_copied m d s N Hs Hf) by lia. simpl.
  rewrite (store8_copied m d s N Hok Hd) by (done || lia). simpl.
  destruct (decide (k = t)) as [->|Hne].
  - rewrite ccpy_at by lia. left. unfold cend. split; [by rewrite HN2 by lia|naive_solver].
  - rewrite ccpy_before by lia. simpl. split; [|lia]. exists (k + 1). split; [lia|]. apply cst_eq; lia.
Qed.

Lemma ccpy_loop_done : ccpy_loop false c cend = Some cend.
Proof.
  pose proof Ht. pose proof ccpy_N as (HN1 & HN2 & HN3). unfold ccpy_loop, iter. simpl.
  destruct (nz (n - t)) eqn:En; [|done]. apply nz_true in En.
  assert (Hrd : rd (copied N) (s + t) = c).
  { apply Z.eqb_eq. rewrite <- ccpy_at by lia. f_equal. unfold rd, StrCopy.copied.
    rewrite HN2, bytes_of_snoc, write_bytes_snoc, length_bytes_of by lia.
    rewrite lookup_insert_ne by (destruct Hdis; lia).
    fold (rd (write_bytes m d (bytes_of m s t)) (s + t)).
    apply rd_write_out. rewrite length_bytes_of by lia. destruct Hdis; lia. }
  rewrite (load8_rd _ s N) by (lia || by apply mapped_write). simpl. rewrite Hrd.
  rewrite (store8_write _ d N) by (lia || by apply mapped_write). simpl.
  rewrite Z.eqb_refl. unfold cend. do 2 f_equal.
  apply insert_id. unfold StrCopy.copied.
  rewrite HN2, bytes_of_snoc, write_bytes_snoc, length_bytes_of by lia.
  rewrite lookup_insert_eq. f_equal.
  assert (Hc : rd m (s + t) = c) by (apply Z.eqb_eq, ccpy_at; lia).
  rewrite <- Hc. symmetry. by apply rd_u8.
Qed.

Lemma ccpy_words_ok k :
  0 <= k <= t -> (s + k) mod 8 = 0 ->
  exists k', 0 <= k' <= t /\ ccpy_words test (cst k (n - k)) = Some (cst k' (n - k')).
Proof.
  intros Hk H8. pose proof Ht. pose proof ccpy_N as (HN1 & HN2 & HN3). unfold ccpy_words.
  with_loop ltac:(fun bd st0 => destruct (iter_rule
    (fun st => exists k, (0 <= k <= t /\ (s + k) mod 8 = 0) /\ st = cst k (n - k))
    (fun st => Z.to_nat (c_n st))
    (fun st => exists k, 0 <= k <= t /\ st = cst k (n - k)) bd)
    with (fuel := S (Z.to_nat (c_n (cst k (n - k))))) (s := st0) as (r & -> & (k' & Hk' & ->)));
    [|by eauto|lia|by eauto].
  clear k Hk H8. intros st (k & [Hk H8] & ->). cbn [StrCopy.cst c_n c_mem c_d c_s].
  destruct (Z.leb_spec 8 (n - k)) as [Hn8|]; [|by eauto].
  assert (Hmw : mapped (copied k) (s + k) 8).
  { apply mapped_copied. destruct (decide (t < n)) as [Hlt|Hge].
    - destruct (mc_here _ _ _ _ _ Hat Hlt) as [_ Hw].
      eapply mapped_sub; [exact Hw|lia|divmod].
    - eapply mapped_sub; [exact Hs|lia|lia]. }
  destruct (Htest (copied k) (s + k)) as (x & Hl & Hx); [by apply copied_ok|done|].
  rewrite Hl. simpl. destruct (test x) eqn:E; [by eauto|].
  assert (Hk8 : k + 8 <= t).
  { destruct (Z.le_gt_cases (k + 8) t) as [|Hgt]; [done|]. exfalso.
    apply (Hx eq_refl (t - k)); [lia|]. replace (s + k + (t - k)) with (s + t) by lia.
    rewrite (rd_copied m d s N Hf) by lia. apply Z.eqb_eq, ccpy_at. lia. }
  rewrite (load_copied m d s N Hs Hf 8) in Hl by lia. injection Hl as <-.
  rewrite (store_copied m d s N Hd 8) by (lia || by apply (split_bytes_of m Hok _ 8)). simpl.
  split; [|lia]. exists (k + 8). split; [split; [lia|divmod]|]. apply cst_eq; lia.
Qed.

(** The copy of [memccpy] and of the unaligned path of the others. *)
Lemma ccpy_last k : 0 <= k <= t -> ccpy_loop false c (cst k (n - k)) = Some cend.
Proof. intros Hk. destruct (ccpy_loop_ok false k Hk) as (st & -> & [[-> _]|[? _]]); done. Qed.

(** The aligned path of [memccpy]. *)
Lemma ccpy_aligned :
  exists st, ccpy_loop true c (cst 0 (n - 0)) = Some st /\
    if nz (Z.land (c_s st) 7) then st = cend
    else (st ← ccpy_words test st; ccpy_loop false c st) = Some cend.
Proof.
  pose proof Ht as Ht'. pose proof ccpy_N as (HN1 & HN2 & HN3).
  destruct (ccpy_loop_ok true 0 ltac:(lia)) as (st & -> & Hst). eexists. split; [done|].
  rewrite land_7. destruct Hst as [[-> Hal]|[_ (k & Hk & -> & H8)]].
  - cbn [cend c_s]. destruct (nz ((s + t) mod 8)) eqn:E; [done|]. apply nz_false in E.
    assert (t = n) as Htn by (destruct (decide (t < n)); [naive_solver|lia]).
    assert (Hce : cend = cst t (n - t)) by (unfold cend, StrCopy.cst; by rewrite HN3, Htn).
    rewrite Hce at 1.
    destruct (ccpy_words_ok t ltac:(lia) E) as (k' & Hk' & ->). simpl. by apply ccpy_last.
  - cbn [StrCopy.cst c_s]. rewrite H8. simpl.
    destruct (ccpy_words_ok k Hk H8) as (k' & Hk' & ->). simpl. by apply ccpy_last.
Qed.

Lemma ccpy_rd_end : t < n -> load8 (copied N) (s + t) = Some c.
Proof.
  intros Hlt. pose proof ccpy_N as (HN1 & HN2 & HN3).
  rewrite (load8_rd _ s N) by (lia || by apply mapped_write). f_equal.
  unfold StrCopy.copied. rewrite rd_write_out.
  - apply Z.eqb_eq. by apply ccpy_at.
  - rewrite length_bytes_of by lia. destruct Hdis; lia.
Qed.
End ccpy.

(** [memccpy] copies up to and including the first [c], or [n] bytes; the value
    it returns depends on the byte at [src + t] in both cases. *)
Lemma memccpy_ok m d s c n t :
  mem_ok m -> memchr_at m s (u8 c) n t ->
  mapped m d (t + b2z (t <? n)) -> disjoint_ranges d (t + b2z (t <? n)) s (t + b2z (t <? n)) ->
  memccpy m d s c n =
    (b ← load8 (copied m d s (t + b2z (t <? n))) (s + t);
     Some (if b =? u8 c then d + t + 1 else 0, copied m d s (t + b2z (t <? n)))).
Proof.
  intros Hok Hat Hd Hdis. unfold memccpy. set (c0 := u8 c) in *.
  assert (Hc0 : is_byte c0) by (apply (wrap_range 8); lia).
  assert (Htest : forall mm w, mem_ok mm -> mapped mm w 8 -> exists x, load64 mm w = Some x /\
    (HASZERO (Z.lxor x (u64 (ONES * c0))) = false -> forall i, 0 <= i < 8 -> rd mm (w + i) <> c0)).
  { intros mm w Hmm Hmw. destruct (word_test_byte mm c0 Hmm Hc0 w Hmw) as (x & Hl & Hx).
    exists x. split; [done|]. intros E i Hi. apply Z.eqb_neq. by apply Hx. }
  assert (Hst : {| c_mem := m; c_d := d; c_s := s; c_n := n |} = cst m d s 0 (n - 0))
    by by rewrite Z.sub_0_r, cst_0.
  pose proof (mc_range _ _ _ _ _ Hat).
  rewrite Hst. destruct (Z.land s 7 =? Z.land d 7).
  - destruct (ccpy_aligned m d s n t c0 _ Hok Hat Hd Hdis Htest) as (st & -> & Hend).
    cbn [mbind option_bind]. destruct (nz (Z.land (c_s st) 7)).
    + by rewrite Hend.
    + destruct (ccpy_words _ st) as [st'|]; [|done]. cbn [mbind option_bind] in *.
      by rewrite Hend.
  - by rewrite (ccpy_last m d s n t c0 Hok Hat Hd Hdis) by lia.
Qed.

Lemma word_test_zero mm w : mem_ok mm -> mapped mm w 8 -> exists x, load64 mm w = Some x /\
  (HASZERO x = false -> forall i, 0 <= i < 8 -> rd mm (w + i) <> 0).
Proof.
  intros Hmm Hmw. destruct (word_test_nul mm Hmm w Hmw) as (x & Hl & Hx).
  exists x. split; [done|]. intros E i Hi. apply nz_true, negb_false_iff. by apply Hx.
Qed.

(** ** Padding and truncating copies *)

Section padded.
Context (m : mem) (d s n t : Z).
Context (Hok : mem_ok m) (Hat : memchr_at m s 0 n t).
Context (Hd : mapped m d n) (Hdis : disjoint_ranges d n s (t + b2z (t <? n))).
Local Abbreviation N := (t + b2z (t <? n)).

Let HN : t <= N <= n /\ (t < n -> N = t + 1) /\ (t = n -> N = n).
Proof. by eapply ccpy_N. Qed.
Let HdN : mapped m d N.
Proof. eapply mapped_sub; [exact Hd|lia|lia]. Qed.
Let HdisN : disjoint_ranges d N s N.
Proof. destruct Hdis; [left|right]; lia. Qed.

Lemma copied_pad k v :
  t <= k <= n -> v = Z.to_nat (n - t) ->
  write_bytes (copied m d s k) (d + t) (replicate v 0) =
  write_bytes m d (bytes_of m s t ++ replicate v 0).
Proof.
  pose proof (mc_range _ _ _ _ _ Hat).
  intros Hk ->. rewrite write_bytes_app, length_bytes_of by lia. apply map_eq. intros a.
  unfold copied. rewrite !lookup_write_bytes, !length_replicate, !length_bytes_of by lia.
  repeat case_decide; try lia; try done.
  rewrite !bytes_of_lookup by lia. done.
Qed.

Definition padded : mem := write_bytes m d (bytes_of m s t ++ replicate (Z.to_nat (n - t)) 0).

Lemma pad_tail k :
  t <= k <= n -> n < 2 ^ 64 ->
  memset (copied m d s k) (d + t) 0 (n - t) = Some (d + t, padded).
Proof.
  intros Hk Hn. pose proof (mc_range _ _ _ _ _ Hat). rewrite memset_ok.
  - change (u8 0) with 0. unfold padded. by rewrite copied_pad.
  - apply mapped_copied. eapply mapped_sub; [exact Hd|lia|lia].
  - lia.
Qed.

Lemma stpncpy_ok : n < 2 ^ 64 -> stpncpy m d s n = Some (d + t, padded).
Proof.
  intros Hn. pose proof (mc_range _ _ _ _ _ Hat) as Ht. unfold stpncpy.
  assert (Hst : {| c_mem := m; c_d := d; c_s := s; c_n := n |} = cst m d s 0 (n - 0))
    by by rewrite Z.sub_0_r, cst_0.
  rewrite Hst. destruct (Z.land s 7 =? Z.land d 7).
  2:{ rewrite (ccpy_last m d s n t 0 Hok Hat HdN HdisN) by lia. simpl. by rewrite pad_tail by lia. }
  destruct (ccpy_loop_ok m d s n t 0 Hok Hat HdN HdisN true 0 ltac:(lia)) as (st & -> & Hmid).
  cbn [mbind option_bind].
  destruct Hmid as [[-> _]|[_ (k & Hk & -> & H8)]].
  - cbn [cend c_n c_mem c_s c_d]. destruct (nz (n - t)) eqn:E; cbn [negb mbind option_bind].
    + apply nz_true in E. rewrite (ccpy_rd_end m d s n t 0 Hat HdisN) by lia.
      cbn [mbind option_bind]. change (negb (nz 0)) with true. cbn iota.
      by rewrite pad_tail by lia.
    + by rewrite pad_tail by lia.
  - cbn [cst c_n c_mem c_s c_d]. destruct (nz (n - k)) eqn:E; cbn [negb mbind option_bind].
    2:{ apply nz_false in E. assert (k = t) as -> by lia. by rewrite pad_tail by lia. }
    apply nz_true in E.
    rewrite (load8_copied m d s N) by (lia || apply Hat || (destruct HdisN; [left|right]; lia)).
    cbn [mbind option_bind]. destruct (decide (k = t)) as [->|Hne].
    + rewrite (proj1 (mc_here _ _ _ _ _ Hat ltac:(lia))). change (negb (nz 0)) with true. cbn iota.
      by rewrite pad_tail by lia.
    + rewrite (proj2 (nz_true (rd m (s + k)))) by (apply (mc_before _ _ _ _ _ Hat); lia).
      cbn [negb]. cbn iota.
      destruct (ccpy_words_ok m d s n t 0 HASZERO Hok Hat HdN HdisN) with (k := k)
        as (k' & Hk' & ->); [intros; by apply word_test_zero|done..|].
      cbn [mbind option_bind]. rewrite (ccpy_last m d s n t 0 Hok Hat HdN HdisN) by lia.
      simpl. by rewrite pad_tail by lia.
Qed.
End padded.

Lemma cstr_memchr_at m s len n :
  cstr m s len -> words_mapped m s len -> 0 <= n -> memchr_at m s 0 n (Z.min len n).
Proof.
  intros (Hl & Hm & Hnz & Hz) Hw Hn. split; [lia| | |].
  - intros j Hj. apply Hnz. lia.
  - intros Hlt. rewrite Z.min_l by lia. done.
  - eapply mapped_sub; [exact Hm|lia|]. destruct (Z.ltb_spec (Z.min len n) n); simpl; lia.
Qed.

Lemma words_mapped_from m s len k : words_mapped m s len -> 0 <= k <= len -> words_mapped m (s + k) (len - k).
Proof.
  intros Hw Hk. unfold words_mapped in *. replace (s + k + (len - k)) with (s + len) by lia.
  eapply mapped_sub; [exact Hw|lia..].
Qed.

Lemma bytes_of_zero m s t : rd m (s + t) = 0 -> 0 <= t -> bytes_of m s t ++ [0] = bytes_of m s (t + 1).
Proof. intros Hz Ht. rewrite bytes_of_snoc by done. by rewrite Hz. Qed.

Section strlcpy.
Context (m : mem) (d s n len : Z).
Context (Hok : mem_ok m) (Hs : cstr m s len) (Hw : words_mapped m s len).
Context (Hd : mapped m d n) (Hdis : disjoint_ranges d n s (len + 1)).
Local Abbreviation t := (Z.min len (n - 1)).

(** The terminator is stored over the copy. *)
Lemma strlcpy_end k :
  1 <= n -> t <= k <= t + 1 ->
  store8 (copied m d s k) (d + t) 0 = Some (write_bytes m d (bytes_of m s t ++ [0])).
Proof.
  intros Hn Hk. assert (0 <= len) by apply Hs.
  rewrite (store8_write _ d n) by (lia || by apply mapped_copied). f_equal.
  change (u8 0) with 0. rewrite write_bytes_snoc, length_bytes_of by lia.
  apply map_eq. intros a. destruct (decide (a = d + t)) as [->|Hne].
  - by rewrite !lookup_insert_eq.
  - rewrite !lookup_insert_ne by done. unfold copied.
    rewrite !lookup_write_bytes, !length_bytes_of by lia. repeat case_decide; try lia; [|done].
    by rewrite !bytes_of_lookup by lia.
Qed.

Lemma strlcpy_copy :
  1 <= n -> exists st,
    (st ← (if Z.land s 7 =? Z.land d 7 then
             st ← ccpy_loop true 0 (cst m d s 0 (n - 1 - 0));
             more ← (if nz (c_n st) then b ← load8 (c_mem st) (c_s st); Some (nz b) else Some false);
             if (more : bool) then ccpy_words HASZERO st else Some st
           else Some (cst m d s 0 (n - 1 - 0)));
     ccpy_loop false 0 st) = Some st /\
    c_d st = d + t /\ c_s st = s + t /\
    exists k, c_mem st = copied m d s k /\ t <= k <= t + 1.
Proof.
  intros Hn. assert (Hl : 0 <= len) by apply Hs.
  pose proof (cstr_memchr_at m s len (n - 1) Hs Hw ltac:(lia)) as Hat.
  pose proof (b2z_range (t <? n - 1)) as Hb.
  pose proof (ccpy_N m s (n - 1) t 0 Hat) as (HN1 & HN2 & HN3).
  set (N := t + b2z (t <? n - 1)) in *.
  assert (HdN : mapped m d N) by (eapply mapped_sub; [exact Hd|lia|lia]).
  assert (HdisN : disjoint_ranges d N s N) by (destruct Hdis; [left|right]; lia).
  assert (Hfin : forall k, 0 <= k <= t ->
    ccpy_loop false 0 (cst m d s k (n - 1 - k)) = Some (cend m d s (n - 1) t))
    by (apply (ccpy_last m d s (n - 1) t 0 Hok Hat HdN HdisN)).
  exists (cend m d s (n - 1) t).
  split; [|split; [done|]; split; [done|]; exists N; split; [done|subst N; lia]].
  destruct (Z.land s 7 =? Z.land d 7); [|by apply Hfin; lia].
  destruct (ccpy_loop_ok m d s (n - 1) t 0 Hok Hat HdN HdisN true 0 ltac:(lia)) as (st & -> & Hmid).
  cbn [mbind option_bind].
  destruct Hmid as [[-> _]|[_ (k & Hk & -> & H8)]].
  - assert ((if nz (c_n (cend m d s (n - 1) t)) then
      b ← load8 (c_mem (cend m d s (n - 1) t)) (c_s (cend m d s (n - 1) t)); Some (nz b)
      else Some false) = Some false) as ->.
    { cbn [cend c_n c_mem c_s]. destruct (nz (n - 1 - t)) eqn:E; [|done].
      apply nz_true in E. by rewrite (ccpy_rd_end m d s (n - 1) t 0 Hat HdisN) by lia. }
    simpl. apply (ccpy_loop_done m d s (n - 1) t 0 Hok Hat HdN HdisN).
  - cbn [cst c_n c_mem c_s]. destruct (nz (n - 1 - k)) eqn:E; [|by apply Hfin].
    apply nz_true in E.
    rewrite (load8_copied m d s N) by (lia || apply Hat || (destruct HdisN; [left|right]; lia)).
    cbn [mbind option_bind]. destruct (nz (rd m (s + k))); [|by apply Hfin].
    destruct (ccpy_words_ok m d s (n - 1) t 0 HASZERO Hok Hat HdN HdisN) with (k := k)
        as (k' & Hk' & Ek); [intros; by apply word_test_zero|done..|].
    rewrite Ek. by apply Hfin.
Qed.

Lemma strlcpy_ok :
  0 <= n -> strlcpy m d s n =
    Some (len, if n =? 0 then m else write_bytes m d (bytes_of m s t ++ [0])).
Proof.
  intros Hn. unfold strlcpy. destruct (Z.eqb_spec n 0) as [->|Hne].
  { simpl. rewrite (strlen_ok m s len) by done. simpl. do 2 f_equal. lia. }
  rewrite (proj2 (nz_true n)) by done. cbn [negb].
  assert (Hst : {| c_mem := m; c_d := d; c_s := s; c_n := n - 1 |} = cst m d s 0 (n - 1 - 0))
    by by rewrite Z.sub_0_r, cst_0.
  rewrite Hst. destruct (strlcpy_copy ltac:(lia)) as (st & Hst2 & Hcd & Hcs & k & Hmem & Hk).
  match goal with |- context [mbind _ ?x] => destruct x as [st'|]; [|done] end.
  cbn [mbind option_bind] in *. rewrite Hst2. cbn [mbind option_bind].
  rewrite Hcd, Hcs, Hmem, strlcpy_end by lia. cbn [mbind option_bind].
  assert (Hlb : Z.of_nat (length (bytes_of m s t ++ [0])) <= n).
  { rewrite length_app, Nat2Z.inj_add, length_bytes_of by (destruct Hs; lia). simpl. lia. }
  rewrite (strlen_ok _ (s + t) (len - t)).
  - cbn [mbind option_bind]. replace (d + t - d + (len - t)) with len by lia. done.
  - apply write_bytes_ok; [done|]. apply Forall_app. split; [by apply bytes_of_bytes|].
    apply Forall_singleton. unfold is_byte. lia.
  - replace (len - t) with (s + len - (s + t)) by lia. apply (cstr_from _ s); [|destruct Hs; lia].
    apply cstr_write; [done|]. destruct Hdis; [left|right]; lia.
  - apply words_mapped_write, words_mapped_from; [done|destruct Hs; lia].
Qed.
End strlcpy.

Lemma strlcat_ok m d s n dl len :
  mem_ok m -> cstr m s len -> words_mapped m s len ->
  memchr_at m d 0 n dl -> mapped m d n -> 0 < d -> disjoint_ranges d n s (len + 1) ->
  strlcat m d s n =
    Some (dl + len, if dl =? n then m
                    else write_bytes m (d + dl) (bytes_of m s (Z.min len (n - dl - 1)) ++ [0])).
Proof.
  intros Hok Hs Hw Hat Hd Hd0 Hdis. unfold strlcat.
  pose proof (mc_range _ _ _ _ _ Hat).
  rewrite (strnlen_ok m d n dl) by done. simpl. destruct (Z.eqb_spec dl n) as [->|Hne].
  - by rewrite (strlen_ok m s len) by done.
  - rewrite (strlcpy_ok m (d + dl) s (n - dl) len Hok Hs Hw).
    + rewrite (proj2 (Z.eqb_neq _ _)) by lia. done.
    + eapply mapped_sub; [exact Hd|lia..].
    + destruct Hdis; [left|right]; lia.
    + lia.
Qed.

(** ** stpcpy, strcpy, strcat, strncat *)

Section stpcpy.
Context (m : mem) (d s len : Z).
Context (Hok : mem_ok m) (Hs : cstr m s len) (Hw : words_mapped m s len).
Local Abbreviation N := (len + 1).
Context (Hd : mapped m d N) (Hdis : disjoint_ranges d N s N).
Local Abbreviation copied := (copied m d s).

Let Hf : fwd_ok d s N.
Proof. destruct Hs. destruct Hdis; [left; lia|by right]. Qed.
Let Hsm : mapped m s N.
Proof. apply Hs. Qed.
Let Hsize : N <= Z.of_nat (size m).
Proof. by eapply mapped_size. Qed.

(** One byte of the copy: at the terminator the loop ends with the result. *)
Lemma stpcpy_byte {R} k (f : mem -> turn (mem * Z * Z) R) (g : mem -> turn (mem * Z * Z) R) :
  0 <= k <= len ->
  (b ← load8 (copied k) (s + k); m' ← store8 (copied k) (d + k) b;
   if nz b then Some (f m') else Some (g m')) =
  Some (if decide (k = len) then g (copied N) else f (copied (k + 1))).
Proof.
  intros Hk. destruct Hs as (Hl & _ & Hnz & Hz).
  rewrite (load8_copied m d s N Hsm Hf) by lia. simpl.
  rewrite (store8_copied m d s N Hok Hd) by (done || lia). simpl.
  case_decide as Hkl.
  - rewrite Hkl, Hz. done.
  - by rewrite (proj2 (nz_true _)) by (apply Hnz; lia).
Qed.

Definition stp_st (k : Z) : mem * Z * Z := (copied k, d + k, s + k).

Lemma stpcpy_last k fuel :
  0 <= k <= len -> (Z.to_nat len < fuel)%nat ->
  iter fuel (fun '(m, d, s) =>
    b ← load8 m s;
    m ← store8 m d b;
    if nz b then Some (Next (m, d + 1, s + 1)) else Some (Leave (d, m))) (stp_st k) =
  Some (d + len, copied N).
Proof.
  intros Hk Hfuel.
  with_loop ltac:(fun bd st0 => destruct (iter_rule
    (fun st => exists k, 0 <= k <= len /\ st = stp_st k) (fun '(_, _, a) => Z.to_nat (s + len - a))
    (fun r => r = (d + len, copied N)) bd) with (fuel := fuel) (s := st0) as (r & -> & ->)).
  - clear k Hk. intros st (k & Hk & ->). unfold stp_st.
    rewrite (stpcpy_byte k (fun m => Next (m, d + k + 1, s + k + 1)) (fun m => Leave (d + k, m))) by done.
    case_decide as Hkl; [by rewrite Hkl|]. split; [|lia]. exists (k + 1). split; [lia|].
    unfold stp_st. f_equal; [f_equal|]; lia.
  - by eauto.
  - unfold stp_st. lia.
  - done.
Qed.

Lemma stpcpy_align :
  exists r, iter (fuel_of m) (fun '(m, d, s) =>
        if nz (s mod 8) then
          b ← load8 m s;
          m ← store8 m d b;
          if nz b then Some (Next (m, d + 1, s + 1)) else Some (Leave (Ret (d, m)))
        else Some (Leave (Fell (m, d, s)))) (m, d, s) = Some r /\
  match r with
  | Ret x => x = (d + len, copied N)
  | Fell st => exists k, 0 <= k <= len /\ (s + k) mod 8 = 0 /\ st = stp_st k
  end.
Proof.
  assert (0 <= len) by apply Hs.
  apply (iter_rule (fun st => exists k, 0 <= k <= len /\ st = stp_st k)
    (fun '(_, _, a) => Z.to_nat (s + len - a))).
  - intros st (k & Hk & ->). unfold stp_st at 1.
    destruct (nz ((s + k) mod 8)) eqn:E8.
    2:{ apply nz_false in E8. by exists k. }
    rewrite (stpcpy_byte k (fun m => Next (m, d + k + 1, s + k + 1)) (fun m => Leave (Ret (d + k, m))))
      by done.
    case_decide as Hkl; [by rewrite Hkl|]. split; [|unfold stp_st; lia]. exists (k + 1).
    split; [lia|]. unfold stp_st. f_equal; [f_equal|]; lia.
  - exists 0. split; [lia|]. unfold stp_st. by rewrite copied_0, !Z.add_0_r.
  - unfold fuel_of. lia.
Qed.

Lemma stpcpy_words k fuel :
  0 <= k <= len -> (s + k) mod 8 = 0 -> (Z.to_nat len < fuel)%nat ->
  exists k', 0 <= k' <= len /\
    iter fuel (fun '(m, d, s) =>
            x ← load64 m s;
            if HASZERO x then Some (Leave (m, d, s))
            else m ← store64 m d x; Some (Next (m, d + 8, s + 8))) (stp_st k) = Some (stp_st k').
Proof.
  intros Hk H8 Hfuel.
  with_loop ltac:(fun bd st0 => destruct (iter_rule
    (fun st => exists k, (0 <= k <= len /\ (s + k) mod 8 = 0) /\ st = stp_st k)
    (fun '(_, _, a) => Z.to_nat (s + len - a))
    (fun st => exists k, 0 <= k <= len /\ st = stp_st k) bd)
    with (fuel := fuel) (s := st0) as (r & -> & (k' & Hk' & ->)));
    [|by eauto|unfold stp_st; lia|by eauto].
  clear k Hk H8. intros st (k & [Hk H8] & ->). unfold stp_st at 1.
  assert (Hmw : mapped (copied k) (s + k) 8).
  { apply mapped_copied. eapply mapped_sub; [exact Hw|lia|divmod]. }
  destruct (word_test_zero (copied k) (s + k)) as (x & Hl & Hx); [by apply copied_ok|done|].
  rewrite Hl. simpl. destruct (HASZERO x); [by eauto|].
  assert (Hk8 : k + 8 <= len).
  { destruct (Z.le_gt_cases (k + 8) len) as [|Hgt]; [done|]. exfalso.
    apply (Hx eq_refl (len - k)); [lia|]. replace (s + k + (len - k)) with (s + len) by lia.
    rewrite (rd_copied m d s N Hf) by lia. apply Hs. }
  rewrite (load_copied m d s N Hsm Hf 8) in Hl by lia. injection Hl as <-.
  rewrite (store_copied m d s N Hd 8) by (lia || by apply (split_bytes_of m Hok _ 8)). simpl.
  split; [|unfold stp_st; lia]. exists (k + 8). split; [split; [lia|divmod]|].
  unfold stp_st. f_equal; [f_equal|]; lia.
Qed.

Lemma fuel_copied k : 0 <= k <= len -> fuel_of (copied k) = fuel_of m.
Proof.
  intros Hk. unfold fuel_of, StrCopy.copied. rewrite size_write_bytes; [done|].
  rewrite length_bytes_of by lia. eapply mapped_sub; [exact Hd|lia..].
Qed.

Lemma stpcpy_ok : stpcpy m d s = Some (d + len, copied N).
Proof.
  assert (0 <= len) by apply Hs.
  assert (Hfuel : (Z.to_nat len < fuel_of m)%nat) by (unfold fuel_of; lia).
  unfold stpcpy. destruct (s mod 8 =? d mod 8).
  - destruct stpcpy_align as ([st|x] & -> & Hr); cbn [mbind option_bind]; [|by rewrite Hr].
    destruct Hr as (k & Hk & H8 & ->).
    destruct (stpcpy_words k (fuel_of m) Hk H8 Hfuel) as (k' & Hk' & ->). cbn [mbind option_bind].
    unfold stp_st. rewrite fuel_copied by done. by apply stpcpy_last.
  - replace (m, d, s) with (stp_st 0) by (unfold stp_st; by rewrite copied_0, !Z.add_0_r).
    apply stpcpy_last; [lia|done].
Qed.
End stpcpy.

Lemma strcpy_ok m d s len :
  mem_ok m -> cstr m s len -> words_mapped m s len ->
  mapped m d (len + 1) -> disjoint_ranges d (len + 1) s (len + 1) ->
  strcpy m d s = Some (d, write_bytes m d (bytes_of m s (len + 1))).
Proof. intros. unfold strcpy. by rewrite (stpcpy_ok m d s len). Qed.

Lemma strcat_ok m d s dl len :
  mem_ok m -> cstr m s len -> words_mapped m s len ->
  cstr m d dl -> words_mapped m d dl -> mapped m d (dl + len + 1) ->
  disjoint_ranges d (dl + len + 1) s (len + 1) ->
  strcat m d s = Some (d, write_bytes m (d + dl) (bytes_of m s (len + 1))).
Proof.
  intros Hok Hs Hw Hds Hdw Hd Hdis. unfold strcat.
  rewrite (strlen_ok m d dl) by done. cbn [mbind option_bind].
  assert (0 <= dl) by apply Hds. assert (0 <= len) by apply Hs.
  rewrite (strcpy_ok m (d + dl) s len); try done.
  - eapply mapped_sub; [exact Hd|lia..].
  - destruct Hdis; [left|right]; lia.
Qed.

Lemma strncat_ok m a s n al len :
  mem_ok m -> cstr m a al -> words_mapped m a al -> cstr m s len -> 0 <= n ->
  mapped m a (al + Z.min len n + 1) ->
  disjoint_ranges (a + al) (Z.min len n + 1) s (len + 1) ->
  strncat m a s n = Some (a, write_bytes m (a + al) (bytes_of m s (Z.min len n) ++ [0])).
Proof.
  intros Hok Ha Haw Hs Hn Hd Hdis. unfold strncat. set (t := Z.min len n).
  rewrite (strlen_ok m a al) by done. cbn [mbind option_bind].
  assert (0 <= al) by apply Ha. destruct Hs as (Hl & Hsm & Hnz & Hz).
  assert (Ht : 0 <= t <= len) by lia.
  assert (HdN : mapped m (a + al) t) by (eapply mapped_sub; [exact Hd|lia..]).
  assert (HsN : mapped m s t) by (eapply mapped_sub; [exact Hsm|lia..]).
  assert (Hf : fwd_ok (a + al) s t) by (destruct Hdis; [left|right]; lia).
  with_while ltac:(fun fl cd bd st => destruct (while_rule
    (fun c => exists k, 0 <= k <= t /\ c = cst m (a + al) s k (n - k)) (fun c => Z.to_nat (c_n c)) cd bd)
    with (fuel := fl) (s := st) as (c & -> & (k & Hk & ->) & Hend)).
  - intros c (k & Hk & ->). cbn [cst c_n c_mem c_d c_s].
    destruct (nz (n - k)) eqn:E; [|done]. apply nz_true in E.
    rewrite (load8_rd _ s (len + 1)) by (lia || by apply mapped_copied). cbn [mbind option_bind].
    assert (Hrd : rd (copied m (a + al) s k) (s + k) = rd m (s + k)).
    { apply rd_write_out. rewrite length_bytes_of by lia. destruct Hdis; lia. }
    rewrite Hrd. destruct (nz (rd m (s + k))) eqn:E2; [|done].
    assert (k < t).
    { apply nz_true in E2. destruct (decide (k = len)) as [->|]; [by rewrite Hz in E2|lia]. }
    rewrite (copy1_copied m (a + al) s t Hok HdN HsN Hf k) by lia. simpl. split; [|lia].
    exists (k + 1). split; [lia|]. apply cst_eq; lia.
  - exists 0. split; [lia|]. by rewrite Z.sub_0_r, cst_0.
  - simpl. lia.
  - revert Hend. cbn [cst c_n c_mem c_d c_s mbind option_bind]. intros Hend.
    assert (k = t) as ->.
    { destruct (nz (n - k)) eqn:E; [|apply nz_false in E; lia]. apply nz_true in E.
      rewrite (load8_rd _ s (len + 1)) in Hend by (lia || by apply mapped_copied).
      injection Hend as Hend. apply nz_false in Hend.
      unfold copied in Hend. rewrite rd_write_out in Hend
        by (rewrite length_bytes_of by lia; destruct Hdis; lia).
      destruct (decide (k < len)) as [Hlt|]; [|lia]. exfalso. apply (Hnz k); [lia|done]. }
    rewrite (store8_write _ a (al + t + 1)) by (lia || by apply mapped_copied).
    cbn [mbind option_bind]. change (u8 0) with 0. unfold copied.
    by rewrite write_bytes_snoc, length_bytes_of by lia.
Qed.

(** ** swab *)

(** The byte of the source that goes to offset [i]: pairs are exchanged. *)
Definition swab_index (i : Z) : Z := if i mod 2 =? 0 then i + 1 else i - 1.
Definition swab_bytes (m : mem) (s n : Z) : list Z :=
  (fun i => rd m (s + swab_index i)) <$> seqZ 0 n.

Lemma swab_bytes_snoc m s n :
  0 <= n -> n mod 2 = 0 -> swab_bytes m s (n + 2) = (swab_bytes m s n ++ [rd m (s + n + 1)]) ++ [rd m (s + n)].
Proof.
  intros Hn H2. unfold swab_bytes. rewrite seqZ_app by lia. rewrite fmap_app, <- app_assoc. f_equal.
  change (seqZ (0 + n) 2) with [Z.of_nat 0 + (0 + n); Z.of_nat 1 + (0 + n)].
  cbn [fmap list_fmap]. unfold swab_index.
  replace (Z.of_nat 0 + (0 + n)) with n by lia. replace (Z.of_nat 1 + (0 + n)) with (n + 1) by lia.
  rewrite H2. replace ((n + 1) mod 2) with 1 by divmod. simpl.
  replace (s + (n + 1)) with (s + n + 1) by lia. by replace (n + 1 - 1) with n by lia.
Qed.

Lemma swab_ok m s d n :
  mem_ok m -> 0 <= n -> mapped m s n -> mapped m d n -> disjoint_ranges d n s n ->
  swab m s d n = Some (write_bytes m d (swab_bytes m s (2 * (n / 2)))).
Proof.
  intros Hok Hn Hs Hd Hdis. unfold swab.
  assert (Hlen : forall k, 0 <= k -> Z.of_nat (length (swab_bytes m s k)) = k).
  { intros k Hk. unfold swab_bytes. rewrite length_fmap, length_seqZ. lia. }
  with_while ltac:(fun fl cd bd st => destruct (while_rule
    (fun c => exists k, (0 <= k <= n /\ k mod 2 = 0) /\
      c = {| c_mem := write_bytes m d (swab_bytes m s k); c_d := d + k; c_s := s + k; c_n := n - k |})
    (fun c => Z.to_nat (c_n c)) cd bd)
    with (fuel := fl) (s := st) as (c & -> & (k & [Hk H2] & ->) & Hend)).
  - intros c (k & [Hk H2] & ->). cbn [c_n c_mem c_d c_s].
    destruct (Z.ltb_spec 1 (n - k)); [|done].
    set (mm := write_bytes m d (swab_bytes m s k)).
    assert (Hmm : forall a, s <= a < s + n -> rd mm a = rd m a).
    { intros a Ha. apply rd_write_out. rewrite Hlen by lia. destruct Hdis; lia. }
    rewrite (load8_rd mm s n) by (lia || by apply mapped_write). cbn [mbind option_bind].
    rewrite (store8_write mm d n) by (lia || by apply mapped_write). cbn [mbind option_bind].
    rewrite Hmm, rd_u8 by (done || lia). rewrite !Z.add_0_r.
    replace (<[d + k := rd m (s + k + 1)]> mm)
      with (write_bytes m d (swab_bytes m s k ++ [rd m (s + k + 1)]))
      by (by rewrite write_bytes_snoc, Hlen by lia).
    set (mm2 := write_bytes m d _).
    rewrite (load8_rd mm2 s n) by (lia || by apply mapped_write). cbn [mbind option_bind].
    rewrite (store8_write mm2 d n) by (lia || by apply mapped_write). cbn [mbind option_bind].
    assert (Hl1 : Z.of_nat (length (swab_bytes m s k ++ [rd m (s + k + 1)])) = k + 1).
    { rewrite length_app, Nat2Z.inj_add, Hlen by lia. simpl. lia. }
    assert (Hmm2 : rd mm2 (s + k) = rd m (s + k)).
    { apply rd_write_out. rewrite Hl1. destruct Hdis; lia. }
    rewrite Hmm2, rd_u8 by done. split; [|cbn [c_n]; lia].
    exists (k + 2). split; [split; [lia|divmod]|].
    rewrite swab_bytes_snoc, (write_bytes_snoc m d (_ ++ _)), Hl1 by lia.
    f_equal; lia || (f_equal; lia).
  - exists 0. split; [split; [lia|done]|]. simpl. by rewrite !Z.add_0_r, Z.sub_0_r.
  - simpl. lia.
  - injection Hend as Hend. cbn [c_n] in Hend. apply Z.ltb_ge in Hend. cbn [mbind option_bind c_mem].
    do 3 f_equal. divmod.
Qed.

(** ** Tokenizers *)

Lemma first_exists m stop s len :
  0 <= len -> stop (rd m (s + len)) = true -> exists k, first_of m stop s k /\ k <= len.
Proof.
  intros Hl. rewrite <- (Z2Nat.id len) by done. generalize (Z.to_nat len) as j. clear len Hl.
  intros j. revert s. induction j as [|j IH]; intros s Hs.
  - exists 0. split; [|lia]. split; [lia|]. split; [done|lia].
  - destruct (stop (rd m s)) eqn:E.
    + exists 0. split; [|lia]. split; [lia|]. rewrite Z.add_0_r. split; [done|lia].
    + destruct (IH (s + 1)) as (k & (Hk & Hst & Hn) & Hle).
      { by replace (s + 1 + Z.of_nat j) with (s + Z.of_nat (S j)) by lia. }
      exists (k + 1). split; [|lia]. split; [lia|]. split.
      * by replace (s + (k + 1)) with (s + 1 + k) by lia.
      * intros i Hi. destruct (decide (i = 0)) as [->|]; [by rewrite Z.add_0_r|].
        replace (s + i) with (s + 1 + (i - 1)) by lia. apply Hn. lia.
Qed.

(** Splitting a byte string at runs of separators; [cur] is the token being
    read, reversed. *)
Fixpoint tokens (sep : Z -> bool) (cur bs : list Z) : list (list Z) :=
  match bs with
  | [] => match cur with [] => [] | _ => [rev cur] end
  | b :: bs' =>
      if sep b then
        match cur with [] => tokens sep [] bs' | _ => rev cur :: tokens sep [] bs' end
      else tokens sep (b :: cur) bs'
  end.

Lemma tokens_skip sep xs ys :
  Forall (fun b => sep b = true) xs -> tokens sep [] (xs ++ ys) = tokens sep [] ys.
Proof. induction 1 as [|b xs Hb Hxs IH]; [done|]. simpl. by rewrite Hb. Qed.

Lemma tokens_take sep cur xs ys :
  Forall (fun b => sep b = false) xs -> tokens sep cur (xs ++ ys) = tokens sep (rev xs ++ cur) ys.
Proof.
  intros H. revert cur. induction H as [|b xs Hb Hxs IH]; intros cur; [done|].
  simpl. rewrite Hb, IH. by rewrite <- app_assoc.
Qed.

Lemma tokens_one sep xs ys :
  xs <> [] -> Forall (fun b => sep b = false) xs ->
  tokens sep [] (xs ++ ys) =
    xs :: match ys with [] => [] | _ :: ys' => tokens sep [] ys' end \/
  exists b ys', ys = b :: ys' /\ sep b = false.
Proof.
  intros Hne H. rewrite tokens_take, app_nil_r by done.
  assert (Hr : rev xs <> []) by (intros E; apply Hne; by rewrite <- (rev_involutive xs), E).
  destruct ys as [|b ys]; simpl.
  - left. destruct (rev xs) as [|y r] eqn:E; [done|]. by rewrite <- E, rev_involutive.
  - destruct (sep b) eqn:Eb; [|right; eauto]. left.
    destruct (rev xs) as [|y r] eqn:E; [done|]. by rewrite <- E, rev_involutive.
Qed.

Lemma Forall_bytes_of (P : Z -> Prop) m p n :
  (forall j, 0 <= j < n -> P (rd m (p + j))) -> Forall P (bytes_of m p n).
Proof.
  intros H. unfold bytes_of. apply Forall_fmap, Forall_forall. intros a Ha.
  apply list_elem_of_In, elem_of_seqZ in Ha. simpl. replace a with (p + (a - p)) by lia. apply H. lia.
Qed.

Section tokens.
Context (m : mem) (s len sep slen : Z).
Context (Hok : mem_ok m) (Hs : cstr m s len) (Hw : words_mapped m s len) (Hs0 : 0 < s).
Context (Hsep : cstr m sep slen) (Hdis : disjoint_ranges s (len + 1) sep (slen + 1)).
Local Abbreviation is_sep := (in_set m sep slen).

Lemma nul_not_sep : is_sep 0 = false.
Proof.
  apply bool_decide_eq_false. intros Hin. unfold bytes_of in Hin.
  apply list_elem_of_fmap in Hin as (a & Ha & Hin). apply elem_of_seqZ in Hin.
  destruct Hsep as (_ & _ & Hnz & _). apply (Hnz (a - sep)); [lia|].
  by replace (sep + (a - sep)) with a by lia.
Qed.

(** The token [strtok_r] finds: bytes [k1 .. k2-1]. *)
Definition token_at (k1 k2 : Z) : Prop :=
  first_of m (fun b => negb (nz b) || negb (is_sep b)) s k1 /\
  first_of m (fun b => negb (nz b) || is_sep b) (s + k1) (k2 - k1) /\ k1 <= k2 <= len.

Lemma token_exists : exists k1 k2, token_at k1 k2.
Proof.
  destruct Hs as (Hl & _ & _ & Hz).
  destruct (first_exists m (fun b => negb (nz b) || negb (is_sep b)) s len) as (k1 & H1 & Hk1);
    [done|by rewrite Hz|].
  destruct (first_exists m (fun b => negb (nz b) || is_sep b) (s + k1) (len - k1)) as (k & H2 & Hk2);
    [lia|by replace (s + k1 + (len - k1)) with (s + len) by lia; rewrite Hz|].
  exists k1, (k1 + k). split; [done|]. replace (k1 + k - k1) with k by lia.
  split; [done|]. destruct H1, H2. lia.
Qed.

(** The bytes skipped are separators, the token has none, and it ends at a
    separator or at the end of the string. *)
Lemma token_bytes k1 k2 :
  token_at k1 k2 ->
  Forall (fun b => is_sep b = true) (bytes_of m s k1) /\
  Forall (fun b => is_sep b = false) (bytes_of m (s + k1) (k2 - k1)) /\
  (k2 < len -> is_sep (rd m (s + k2)) = true) /\ (k1 = k2 -> k2 = len).
Proof.
  intros ((H1 & H1s & H1n) & (H2 & H2s & H2n) & Hk). destruct Hs as (Hl & _ & Hnz & Hz).
  split; [|split; [|split]].
  - apply Forall_bytes_of. intros j Hj. specialize (H1n j Hj).
    apply orb_false_iff in H1n as [_ H]. by apply negb_false_iff.
  - apply Forall_bytes_of. intros j Hj. specialize (H2n j Hj).
    by apply orb_false_iff in H2n as [_ H].
  - intros Hlt. replace (s + k1 + (k2 - k1)) with (s + k2) in H2s by lia.
    apply orb_true_iff in H2s as [H|]; [|done].
    apply negb_true_iff, nz_false in H. exfalso. apply (Hnz k2); [lia|done].
  - intros <-. destruct (decide (k1 = len)) as [|Hne]; [done|]. exfalso.
    rewrite Z.sub_diag, Z.add_0_r in H2s.
    assert (Hn : negb (nz (rd m (s + k1))) = false) by (apply negb_false_iff, nz_true, Hnz; lia).
    rewrite Hn in H1s, H2s. simpl in H1s, H2s. by rewrite H2s in H1s.
Qed.

(** One call of [strtok_r] on the string at [s] (passed as [s] or saved in [p]). *)
Lemma strtok_r_step arg p k1 k2 :
  (if arg =? 0 then p else arg) = s -> token_at k1 k2 ->
  strtok_r m arg sep p =
    Some (if k1 =? len then (0, 0, m)
          else if k2 =? len then (s + k1, 0, m)
          else (s + k1, s + k2 + 1, <[s + k2 := 0]> m)).
Proof.
  intros Harg Htok. pose proof (token_bytes k1 k2 Htok) as (_ & _ & Hend & Heq).
  destruct Htok as (H1 & H2 & Hk). pose proof Hs as (Hl & Hm & Hnz & Hz).
  assert (Hk1 : 0 <= k1) by apply H1.
  unfold strtok_r. rewrite Harg, (proj2 (Z.eqb_neq s 0)) by lia.
  rewrite (strspn_ok m s sep slen k1 Hok Hsep) by (done || (eapply mapped_sub; [exact Hm|lia..])).
  cbn [mbind option_bind].
  rewrite (load8_rd m s (len + 1)) by (done || lia). cbn [mbind option_bind].
  destruct (Z.eqb_spec k1 len) as [->|Hne]; [by rewrite Hz|].
  rewrite (proj2 (nz_true (rd m (s + k1)))) by (apply Hnz; lia). cbn [negb].
  rewrite (strcspn_ok m (s + k1) sep slen (k2 - k1) Hok Hsep).
  - cbn [mbind option_bind]. replace (s + k1 + (k2 - k1)) with (s + k2) by lia.
    rewrite (load8_rd m s (len + 1)) by (done || lia). cbn [mbind option_bind].
    destruct (Z.eqb_spec k2 len) as [->|Hne2]; [by rewrite Hz|].
    rewrite (proj2 (nz_true (rd m (s + k2)))) by (apply Hnz; lia).
    by rewrite (store8_write m s (len + 1)) by (done || lia).
  - eapply mapped_sub; [exact Hw|lia|].
    pose proof (Z.div_le_mono (s + k1 + (k2 - k1)) (s + len) 8 ltac:(lia) ltac:(lia)). lia.
  - done.
Qed.

(** The state after a token that ends at a separator. *)
Lemma strtok_r_rest k1 k2 :
  token_at k1 k2 -> k1 < k2 -> k2 < len ->
  let m' := <[s + k2 := 0]> m in
  mem_ok m' /\ cstr m' (s + k1) (k2 - k1) /\ bytes_of m' (s + k1) (k2 - k1) = bytes_of m (s + k1) (k2 - k1) /\
  cstr m' (s + k2 + 1) (len - k2 - 1) /\ words_mapped m' (s + k2 + 1) (len - k2 - 1) /\
  words_mapped m' (s + k1) (k2 - k1) /\
  bytes_of m' (s + k2 + 1) (len - k2 - 1) = bytes_of m (s + k2 + 1) (len - k2 - 1) /\
  cstr m' sep slen /\ bytes_of m' sep slen = bytes_of m sep slen.
Proof.
  intros Htok H12 H2. destruct Htok as ((Hk1 & _) & _ & Hk).
  pose proof Hs as (Hl & Hm & Hnz & Hz).
  change (<[s + k2 := 0]> m) with (write_bytes m (s + k2) [0]). intros m'.
  assert (Hrd : forall a, a <> s + k2 -> rd m' a = rd m a)
    by (intros a Ha; apply rd_write_out; simpl; lia).
  assert (Hrd0 : rd m' (s + k2) = 0).
  { pose proof (rd_write_in m (s + k2) [0] 0 0 eq_refl) as H. by rewrite Z.add_0_r in H. }
  assert (Hmap : forall q j, mapped m q j -> mapped m' q j) by (intros; by apply mapped_write).
  destruct Hsep as (Hsl & Hsm & Hsnz & Hsz).
  split_and!.
  - apply write_bytes_ok; [done|]. apply Forall_singleton. unfold is_byte. lia.
  - split; [lia|]. split; [apply Hmap; eapply mapped_sub; [exact Hm|lia..]|]. split.
    + intros i Hi. rewrite Hrd by lia. replace (s + k1 + i) with (s + (k1 + i)) by lia. apply Hnz. lia.
    + by replace (s + k1 + (k2 - k1)) with (s + k2) by lia.
  - apply bytes_of_ext. intros a Ha. apply Hrd. lia.
  - split; [lia|]. split; [apply Hmap; eapply mapped_sub; [exact Hm|lia..]|]. split.
    + intros i Hi. rewrite Hrd by lia. replace (s + k2 + 1 + i) with (s + (k2 + 1 + i)) by lia. apply Hnz. lia.
    + rewrite Hrd by lia. by replace (s + k2 + 1 + (len - k2 - 1)) with (s + len) by lia.
  - apply Hmap. replace (s + k2 + 1) with (s + (k2 + 1)) by lia.
    replace (len - k2 - 1) with (len - (k2 + 1)) by lia. apply words_mapped_from; [done|lia].
  - apply Hmap. eapply mapped_sub; [exact Hw|lia|].
    pose proof (Z.div_le_mono (s + k1 + (k2 - k1)) (s + len) 8 ltac:(lia) ltac:(lia)). lia.
  - apply bytes_of_ext. intros a Ha. apply Hrd. lia.
  - split; [done|]. split; [by apply Hmap|]. split.
    + intros i Hi. rewrite Hrd by (destruct Hdis; lia). by apply Hsnz.
    + by rewrite Hrd by (destruct Hdis; lia).
  - apply bytes_of_ext. intros a Ha. apply Hrd. destruct Hdis; lia.
Qed.
End tokens.

(** A client: call [strtok_r(s, ..)], then [strtok_r(NULL, ..)] until it returns
    null, collecting the tokens. *)
Fixpoint strtok_run (fuel : nat) (m : mem) (s sep p : Z) : option (list (list Z)) :=
  match fuel with
  | O => None
  | S fuel' =>
      '(r, p, m) ← strtok_r m s sep p;
      if r =? 0 then Some []
      else
        l ← strlen m r;
        ts ← strtok_run fuel' m 0 sep p;
        Some (bytes_of m r l :: ts)
  end.

Lemma strtok_run_null fuel m sep : (0 < fuel)%nat -> strtok_run fuel m 0 sep 0 = Some [].
Proof. by destruct fuel; [lia|]. Qed.

Lemma strtok_run_ok fuel m arg s len sep slen p :
  mem_ok m -> cstr m s len -> words_mapped m s len -> 0 < s -> cstr m sep slen ->
  disjoint_ranges s (len + 1) sep (slen + 1) ->
  (if arg =? 0 then p else arg) = s -> (Z.to_nat len + 1 < fuel)%nat ->
  strtok_run fuel m arg sep p = Some (tokens (in_set m sep slen) [] (bytes_of m s len)).
Proof.
  revert m arg s len p. induction fuel as [|fuel IH];
    intros m arg s len p Hok Hs Hw Hs0 Hsep Hdis Harg Hfuel; [lia|]. simpl.
  destruct (token_exists m s len sep slen Hs) as (k1 & k2 & Htok).
  rewrite (strtok_r_step m s len sep slen Hok Hs Hw Hs0 Hsep arg p k1 k2 Harg Htok).
  pose proof (token_bytes m s len sep slen Hs k1 k2 Htok) as (Hskip & Htake & Hend & Heq).
  pose proof Htok as ((Hk1 & _) & _ & Hk).
  assert (Hbytes : bytes_of m s len =
    bytes_of m s k1 ++ bytes_of m (s + k1) (k2 - k1) ++ bytes_of m (s + k2) (len - k2)).
  { replace len with (k1 + ((k2 - k1) + (len - k2))) at 1 by lia.
    rewrite !bytes_of_app by lia. by replace (s + k1 + (k2 - k1)) with (s + k2) by lia. }
  rewrite Hbytes, tokens_skip by done. cbn [mbind option_bind].
  destruct (Z.eqb_spec k1 len) as [->|Hne].
  { simpl. by rewrite !bytes_of_nonpos by lia. }
  assert (H12 : k1 < k2) by lia.
  assert (Hnonempty : bytes_of m (s + k1) (k2 - k1) <> []) by by rewrite bytes_of_cons by lia.
  destruct (Z.eqb_spec k2 len) as [->|Hne2].
  - rewrite (proj2 (Z.eqb_neq _ _)) by lia.
    rewrite (strlen_ok m (s + k1) (len - k1)).
    + cbn [mbind option_bind]. rewrite strtok_run_null by lia. cbn [mbind option_bind].
      rewrite (bytes_of_nonpos m (s + len)) by lia.
      destruct (tokens_one (in_set m sep slen) (bytes_of m (s + k1) (len - k1)) [])
        as [->|(? & ? & ? & _)]; done.
    + done.
    + replace (len - k1) with (s + len - (s + k1)) by lia. apply (cstr_from _ s); [done|lia].
    + apply words_mapped_from; [done|lia].
  - destruct (strtok_r_rest m s len sep slen Hok Hs Hw Hsep Hdis k1 k2 Htok H12 ltac:(lia))
      as (Hok' & Hc1 & Hb1 & Hc2 & Hw2 & Hw1 & Hb2 & Hsep' & Hbs).
    rewrite (proj2 (Z.eqb_neq _ _)) by lia.
    rewrite (strlen_ok _ (s + k1) (k2 - k1)) by done. cbn [mbind option_bind].
    rewrite (IH _ 0 (s + k2 + 1) (len - k2 - 1)); try done; try lia.
    2:{ destruct Hdis; [left|right]; lia. }
    cbn [mbind option_bind]. rewrite Hb1, Hb2. unfold in_set at 1. rewrite Hbs.
    change (fun b => bool_decide (b ∈ bytes_of m sep slen)) with (in_set m sep slen).
    rewrite (bytes_of_cons m (s + k2)) by lia.
    destruct (tokens_one (in_set m sep slen) (bytes_of m (s + k1) (k2 - k1))
      (rd m (s + k2) :: bytes_of m (s + k2 + 1) (len - k2 - 1))) as [->|(b & ys & E & Hb)]; [done|done|..].
    + done.
    + injection E as <- <-. rewrite Hend in Hb by lia. done.
Qed.

Lemma strsep_ok m s len sep slen k :
  mem_ok m -> cstr m s len -> words_mapped m s len -> 0 < s -> cstr m sep slen ->
  first_of m (fun b => negb (nz b) || in_set m sep slen b) s k ->
  strsep m s sep = Some (if k =? len then (s, 0, m) else (s, s + k + 1, <[s + k := 0]> m)).
Proof.
  intros Hok Hs Hw Hs0 Hsep Hf. pose proof Hs as (Hl & Hm & Hnz & Hz).
  assert (Hk : 0 <= k <= len).
  { destruct Hf as (Hk & _ & Hn). split; [done|]. destruct (Z.le_gt_cases k len) as [|Hgt]; [done|].
    specialize (Hn len ltac:(lia)). by rewrite Hz in Hn. }
  unfold strsep. rewrite (proj2 (Z.eqb_neq s 0)) by lia.
  rewrite (strcspn_ok m s sep slen k Hok Hsep); [|..|done].
  - cbn [mbind option_bind]. rewrite (load8_rd m s (len + 1)) by (done || lia). cbn [mbind option_bind].
    destruct (Z.eqb_spec k len) as [->|Hne]; [by rewrite Hz|].
    rewrite (proj2 (nz_true (rd m (s + k)))) by (apply Hnz; lia).
    by rewrite (store8_write m s (len + 1)) by (done || lia).
  - eapply mapped_sub; [exact Hw|lia|].
    pose proof (Z.div_le_mono (s + k) (s + len) 8 ltac:(lia) ltac:(lia)). lia.
Qed.
