(* ===== verification/StrSpec.v ===== *)
(** * What the string routines promise

    The contracts of the routines of {!StrScan}, {!StrCopy} and {!StrStr}, stated
    on the memory address by address, each with a run on a concrete memory that
    meets its preconditions.  The preconditions are those of the C standard, and
    for the word-at-a-time routines that the rest of the last aligned word is
    mapped. *)
From S2P Require Import Prelude Mem StrScan StrCopy StrStr.

(** [m'] is [m] with the [n] bytes at [d] replaced by the bytes [s..s+n) of [m]. *)
Definition copies (m m' : mem) (d s n : Z) : Prop :=
  forall a, m' !! a = if decide (d <= a < d + n) then m !! (s + (a - d)) else m !! a.

(** [m'] is [m] with the [n] bytes at [d] set to [c]. *)
Definition fills (m m' : mem) (d c n : Z) : Prop :=
  forall a, m' !! a = if decide (d <= a < d + n) then Some c else m !! a.

(** [m'] is [m] with [bs] at [d]. *)
Definition overwritten (m m' : mem) (d : Z) (bs : list Z) : Prop :=
  forall a, m' !! a = if decide (d <= a < d + Z.of_nat (length bs)) then bs !! Z.to_nat (a - d)
                      else m !! a.

Lemma write_bytes_copies m d s n :
  mapped m s n -> 0 <= n -> copies m (write_bytes m d (bytes_of m s n)) d s n.
Proof.
  intros Hs Hn a. rewrite lookup_write_bytes, length_bytes_of by lia.
  case_decide; [|done]. rewrite bytes_of_lookup by lia.
  rewrite (mapped_rd m s n (s + (a - d))) by (done || lia). do 2 f_equal. lia.
Qed.

Lemma write_bytes_fills m d c n :
  0 <= n -> fills m (write_bytes m d (replicate (Z.to_nat n) c)) d c n.
Proof.
  intros Hn a. rewrite lookup_write_bytes, length_replicate.
  replace (Z.of_nat (Z.to_nat n)) with n by lia.
  case_decide; [|done]. rewrite lookup_replicate_2 by lia. done.
Qed.

Lemma write_bytes_overwritten m d bs : overwritten m (write_bytes m d bs) d bs.
Proof. intros a. apply lookup_write_bytes. Qed.

Lemma existsb_elem (x : Z) l : existsb (Z.eqb x) l = true <-> x ∈ l.
Proof.
  rewrite existsb_exists. split.
  - intros (y & Hy & ->%Z.eqb_eq). by apply list_elem_of_In.
  - intros H. exists x. by rewrite Z.eqb_refl, <- list_elem_of_In.
Qed.

Lemma elem_check (x : Z) l : existsb (Z.eqb x) l = true -> x ∈ l.
Proof. apply existsb_elem. Qed.

Lemma not_elem_check (x : Z) l : existsb (Z.eqb x) l = false -> x ∉ l.
Proof. intros E H%existsb_elem. congruence. Qed.

(** A memory for the concrete runs: [len] bytes at [p]. *)
Definition mem_at (p : Z) (bs : list Z) : mem := write_bytes ∅ p bs.

(** "hello" at 16, "world" at 34, a separator set at 48 and room at 64. *)
Definition demo : mem :=
  mem_at 16 ([104; 101; 108; 108; 111; 0; 9; 9; 7; 7; 7; 7; 7; 7; 7; 7] ++
             [1; 2; 119; 111; 114; 108; 100; 0; 3; 3; 3; 3; 3; 3; 3; 3] ++
             [101; 111; 0; 5; 5; 5; 5; 5; 104; 101; 0; 5; 5; 5; 5; 5] ++ replicate 48 255).

(** ** Copying *)

(** C25. [memcpy] (and [mempcpy]): for non-overlapping mapped ranges, whatever
    the alignment of the two pointers and the length, it returns [dest]
    ([dest + n]), and the final memory holds the source bytes at the destination
    and is unchanged elsewhere. *)
Theorem memcpy_copies m d s n :
  mem_ok m -> mapped m d n -> mapped m s n -> disjoint_ranges d n s n -> 0 <= n ->
  exists m', memcpy m d s n = Some (d, m') /\ mempcpy m d s n = Some (d + n, m') /\
    copies m m' d s n.
Proof.
  intros. exists (write_bytes m d (bytes_of m s n)). unfold mempcpy. rewrite memcpy_ok by done.
  split; [done|]. split; [done|]. by apply write_bytes_copies.
Qed.

(** An unaligned destination: the loop that shifts words together. *)
Lemma memcpy_copies_witness :
  exists m', memcpy demo 70 17 41 = Some (70, m') /\ mempcpy demo 70 17 41 = Some (70 + 41, m') /\
    copies demo m' 70 17 41.
Proof. apply (memcpy_copies demo 70 17 41); mem_check. Defined.

(** C26. [memmove] (and [bcopy], its arguments swapped): however the mapped ranges
    overlap, the destination ends with the bytes the source had at the start. *)
Theorem memmove_copies m d s n :
  mem_ok m -> mapped m d n -> mapped m s n -> 0 <= n ->
  exists m', memmove m d s n = Some (d, m') /\ bcopy m s d n = Some m' /\ copies m m' d s n.
Proof.
  intros. exists (write_bytes m d (bytes_of m s n)). unfold bcopy. rewrite memmove_ok by done.
  split; [done|]. split; [done|]. by apply write_bytes_copies.
Qed.

(** Overlapping ranges at the same alignment, moved backward. *)
Lemma memmove_copies_witness :
  exists m', memmove demo 26 18 33 = Some (26, m') /\ bcopy demo 18 26 33 = Some m' /\
    copies demo m' 26 18 33.
Proof. apply (memmove_copies demo 26 18 33); mem_check. Defined.

(** [memset] (and [bzero]): every byte of the range becomes [(unsigned
    char)c], for every length and alignment (the head and tail stores overlap,
    the middle goes by 32 bytes), and nothing else changes. *)
Theorem memset_fills m d c n :
  mapped m d n -> 0 <= n < 2 ^ 64 ->
  (exists m', memset m d c n = Some (d, m') /\ fills m m' d (u8 c) n) /\
  (exists m', bzero m d n = Some m' /\ fills m m' d 0 n).
Proof.
  intros Hm Hn. split.
  - eexists. split; [by apply memset_ok|]. apply write_bytes_fills. lia.
  - eexists. unfold bzero. rewrite memset_ok by done. split; [done|]. apply write_bytes_fills. lia.
Qed.

Lemma memset_fills_witness :
  (exists m', memset demo 19 321 70 = Some (19, m') /\ fills demo m' 19 (u8 321) 70) /\
  (exists m', bzero demo 19 70 = Some m' /\ fills demo m' 19 0 70).
Proof. apply (memset_fills demo 19 321 70); mem_check. Defined.

(** ** Strings *)

(** [stpcpy] and [strcpy]: the string and its terminator are copied, nothing
    else changes; [stpcpy] returns the address of the new terminator. *)
Theorem strcpy_copies m d s len :
  mem_ok m -> cstr m s len -> words_mapped m s len -> mapped m d (len + 1) ->
  disjoint_ranges d (len + 1) s (len + 1) ->
  exists m', stpcpy m d s = Some (d + len, m') /\ strcpy m d s = Some (d, m') /\
    copies m m' d s (len + 1).
Proof.
  intros Hok Hs Hw Hd Hdis. exists (write_bytes m d (bytes_of m s (len + 1))).
  split; [by apply stpcpy_ok|]. split; [by apply strcpy_ok|].
  destruct Hs as (? & ? & _). apply write_bytes_copies; [done|lia].
Qed.

Lemma strcpy_copies_witness :
  exists m', stpcpy demo 72 16 = Some (72 + 5, m') /\ strcpy demo 72 16 = Some (72, m') /\
    copies demo m' 72 16 (5 + 1).
Proof. apply (strcpy_copies demo 72 16 5); mem_check. Defined.

(** [strcat] and [strncat]: the source (its first [n] bytes) and a terminator
    are written from the destination's terminator on. *)
Theorem strcat_appends m a s n al len :
  mem_ok m -> cstr m a al -> words_mapped m a al -> cstr m s len -> words_mapped m s len ->
  mapped m a (al + len + 1) -> disjoint_ranges a (al + len + 1) s (len + 1) -> 0 <= n ->
  (exists m', strcat m a s = Some (a, m') /\ overwritten m m' (a + al) (bytes_of m s len ++ [0])) /\
  (exists m', strncat m a s n = Some (a, m') /\
     overwritten m m' (a + al) (bytes_of m s (Z.min len n) ++ [0])).
Proof.
  intros Hok Ha Hwa Hs Hws Hd Hdis Hn. pose proof Hs as (Hl & _ & _ & Hz).
  pose proof Ha as (Hal & _).
  split; eexists; (split; [|apply write_bytes_overwritten]).
  - rewrite bytes_of_zero by done. by apply strcat_ok.
  - apply (strncat_ok m a s n al len); try done.
    + eapply mapped_sub; [exact Hd|lia|lia].
    + destruct Hdis; [left|right]; lia.
Qed.

Lemma strcat_appends_witness :
  (exists m', strcat demo 48 56 = Some (48, m') /\
     overwritten demo m' (48 + 2) (bytes_of demo 56 2 ++ [0])) /\
  (exists m', strncat demo 48 56 1 = Some (48, m') /\
     overwritten demo m' (48 + 2) (bytes_of demo 56 (Z.min 2 1) ++ [0])).
Proof. apply (strcat_appends demo 48 56 1 2 2); mem_check. Defined.

(** [stpncpy] and [strncpy]: exactly [n] bytes are written, the string cut
    to [n] bytes and padded with zeros; [stpncpy] returns the address after the
    copied part. *)
Theorem strncpy_pads m d s n len :
  mem_ok m -> cstr m s len -> words_mapped m s len -> mapped m d n ->
  disjoint_ranges d n s (len + 1) -> 0 <= n < 2 ^ 64 ->
  exists m', stpncpy m d s n = Some (d + Z.min len n, m') /\ strncpy m d s n = Some (d, m') /\
    overwritten m m' d (bytes_of m s (Z.min len n) ++ replicate (Z.to_nat (n - Z.min len n)) 0) /\
    Z.of_nat (length (bytes_of m s (Z.min len n) ++ replicate (Z.to_nat (n - Z.min len n)) 0)) = n.
Proof.
  intros Hok Hs Hw Hd Hdis Hn. pose proof Hs as (Hl & _).
  assert (E : stpncpy m d s n = Some (d + Z.min len n, padded m d s n (Z.min len n))).
  { apply stpncpy_ok; [done| |done| |lia].
    - apply cstr_memchr_at; [done..|lia].
    - destruct (Z.ltb_spec (Z.min len n) n); simpl; destruct Hdis; [left|right|left|right]; lia. }
  eexists. split; [exact E|]. unfold strncpy. rewrite E. split; [done|].
  split; [apply write_bytes_overwritten|].
  rewrite length_app, length_replicate, Nat2Z.inj_add, length_bytes_of by lia. lia.
Qed.

Lemma strncpy_pads_witness :
  exists m', stpncpy demo 72 16 9 = Some (72 + Z.min 5 9, m') /\
    strncpy demo 72 16 9 = Some (72, m') /\
    overwritten demo m' 72 (bytes_of demo 16 (Z.min 5 9) ++ replicate (Z.to_nat (9 - Z.min 5 9)) 0) /\
    Z.of_nat (length (bytes_of demo 16 (Z.min 5 9) ++
                      replicate (Z.to_nat (9 - Z.min 5 9)) 0)) = 9.
Proof. apply (strncpy_pads demo 72 16 9 5); mem_check. Defined.

(** [strlcpy] and [strlcat]: at most [n] bytes of the destination are used,
    the result is terminated whenever there is room, and the value returned is
    the length the untruncated result would have. *)
Theorem strlcpy_truncates m d s n len :
  mem_ok m -> cstr m s len -> words_mapped m s len -> mapped m d n ->
  disjoint_ranges d n s (len + 1) -> 0 <= n ->
  (exists m', strlcpy m d s n = Some (len, m') /\
     overwritten m m' d (if n =? 0 then [] else bytes_of m s (Z.min len (n - 1)) ++ [0])) /\
  (forall dl, memchr_at m d 0 n dl -> 0 < d ->
     exists m', strlcat m d s n = Some (dl + len, m') /\
       overwritten m m' (d + dl)
         (if dl =? n then [] else bytes_of m s (Z.min len (n - dl - 1)) ++ [0])).
Proof.
  intros Hok Hs Hw Hd Hdis Hn. split.
  - eexists. split; [apply (strlcpy_ok m d s n len); done|].
    destruct (n =? 0); [apply (write_bytes_overwritten m d [])|apply write_bytes_overwritten].
  - intros dl Hdl Hpos. eexists. split; [by apply (strlcat_ok m d s n dl len)|].
    destruct (dl =? n); [apply (write_bytes_overwritten m (d + dl) [])|apply write_bytes_overwritten].
Qed.

Lemma memchr_at_cstr m d n dl : cstr m d dl -> words_mapped m d dl -> dl < n -> memchr_at m d 0 n dl.
Proof.
  intros Hs Hw Hn. pose proof Hs as (Hl & _).
  pose proof (cstr_memchr_at m d dl n Hs Hw ltac:(lia)) as H.
  by replace (Z.min dl n) with dl in H by lia.
Qed.

Lemma strlcpy_truncates_witness :
  ((exists m', strlcpy demo 48 16 6 = Some (5, m') /\
     overwritten demo m' 48 (if 6 =? 0 then [] else bytes_of demo 16 (Z.min 5 (6 - 1)) ++ [0])) /\
   (forall dl, memchr_at demo 48 0 6 dl -> 0 < 48 ->
     exists m', strlcat demo 48 16 6 = Some (dl + 5, m') /\
       overwritten demo m' (48 + dl)
         (if dl =? 6 then [] else bytes_of demo 16 (Z.min 5 (6 - dl - 1)) ++ [0]))) /\
  memchr_at demo 48 0 6 2.
Proof.
  split; [apply (strlcpy_truncates demo 48 16 6 5); mem_check|apply memchr_at_cstr; mem_check].
Defined.

(** [memccpy]: when the byte [(unsigned char)c] is at [src + t], first in its
    [n] bytes, the bytes up to and including it are copied and the address after
    the copy is returned.  When it is not there, all [n] bytes are copied, and
    the value returned depends on the byte at [src + n], outside the range given:
    null unless that byte is [c]. *)
Theorem memccpy_copies m d s c n t :
  mem_ok m -> memchr_at m s (u8 c) n t -> 
  mapped m d (Z.min n (t + 1)) -> disjoint_ranges d (Z.min n (t + 1)) s (Z.min n (t + 1)) ->
  (t < n ->
     exists m', memccpy m d s c n = Some (d + t + 1, m') /\ copies m m' d s (t + 1)) /\
  (t = n -> forall b, m !! (s + n) = Some b -> disjoint_ranges d n (s + n) 1 ->
     exists m', memccpy m d s c n = Some (if b =? u8 c then d + n + 1 else 0, m') /\
       copies m m' d s n) /\
  (t = n -> m !! (s + n) = None -> memccpy m d s c n = None).
Proof.
  intros Hok Hat Hd Hdis. pose proof (mc_range _ _ _ _ _ Hat) as Ht.
  pose proof (mc_mapped _ _ _ _ _ Hat) as Hms.
  assert (EN : Z.min n (t + 1) = t + b2z (t <? n)) by (destruct (Z.ltb_spec t n); simpl; lia).
  rewrite EN in Hd, Hdis. split; [|split].
  - intros Hlt. rewrite (memccpy_ok m d s c n t) by done. revert Hms Hd Hdis.
    rewrite (proj2 (Z.ltb_lt t n)) by done. cbn [b2z]. intros Hms Hd Hdis.
    eexists. split; [|apply write_bytes_copies; [exact Hms|lia]].
    unfold load8, copied. rewrite lookup_write_bytes, length_bytes_of by lia.
    rewrite decide_False by (destruct Hdis; lia).
    rewrite (mapped_rd m s (t + 1) (s + t)) by (done || lia). cbn [mbind option_bind]. destruct (mc_here _ _ _ _ _ Hat Hlt) as [-> _].
    by rewrite Z.eqb_refl.
  - intros -> b Hb Hdb. rewrite (memccpy_ok m d s c n n) by done. revert Hms Hd Hdis.
    rewrite Z.ltb_irrefl. cbn [b2z]. rewrite Z.add_0_r. intros Hms Hd Hdis.
    eexists. split; [|apply write_bytes_copies; [exact Hms|lia]].
    unfold load8, copied. rewrite lookup_write_bytes, length_bytes_of by lia.
    rewrite decide_False by (destruct Hdb; lia). by rewrite Hb.
  - intros -> Hb. rewrite (memccpy_ok m d s c n n) by done. revert Hms Hd Hdis.
    rewrite Z.ltb_irrefl. cbn [b2z]. rewrite Z.add_0_r. intros Hms Hd Hdis.
    unfold load8, copied. rewrite lookup_write_bytes, length_bytes_of by lia.
    case_decide as Hin; [|by rewrite Hb]. exfalso.
    assert (mapped m d n) as Hdm by done. destruct (Hdm (s + n) Hin) as [x Hx]. congruence.
Qed.

(** The set of [demo] at 48 is "eo", then a zero byte: the byte after the two. *)
Lemma memccpy_copies_witness :
  memchr_at demo 48 (u8 7) 2 2 /\
  exists m', memccpy demo 72 48 0 2 = Some (72 + 2 + 1, m') /\ copies demo m' 72 48 2.
Proof.
  assert (Hat : forall c, c <> 101 -> c <> 111 -> memchr_at demo 48 c 2 2).
  { intros c H1 H2. split; [lia| |lia|mem_check].
    intros j Hj. assert (j = 0 \/ j = 1) as [-> | ->] by lia; [by apply not_eq_sym in H1|].
    by apply not_eq_sym in H2. }
  split; [by apply Hat|].
  destruct (memccpy_copies demo 72 48 0 2 2) as (_ & H & _);
    [mem_check|by apply Hat|mem_check|mem_check|].
  destruct (H eq_refl 0) as (m' & E & Hc); [reflexivity|mem_check|]. exists m'.
  split; [exact E|exact Hc].
Defined.

(** ** Searching *)

(** [strlen] and [strnlen]: the index of the terminator, the second one cut to
    [n]; the word-at-a-time scan reads no further than the aligned word of the
    terminator, which is all that has to be mapped. *)
Theorem strlen_counts m s len :
  mem_ok m -> cstr m s len -> words_mapped m s len -> 0 < s ->
  strlen m s = Some len /\ (forall n, 0 <= n -> strnlen m s n = Some (Z.min len n)).
Proof.
  intros. split; [by apply strlen_ok|]. intros n Hn. apply strnlen_ok; [done| |done].
  by apply cstr_memchr_at.
Qed.

Lemma strlen_counts_witness :
  strlen demo 17 = Some 4 /\ (forall n, 0 <= n -> strnlen demo 17 n = Some (Z.min 4 n)).
Proof. apply (strlen_counts demo 17 4); mem_check. Defined.

(** [memchr] and [memrchr]: the address of the first (last) byte equal to
    [(unsigned char)c] among the [n], null when there is none. *)
Theorem memchr_finds m s c n :
  mem_ok m -> 0 <= n -> mapped m s (8 * ((s + n) / 8) + 8 - s) ->
  (forall k, 0 <= k < n -> rd m (s + k) = u8 c -> absent m (u8 c) s k ->
     memchr m s c n = Some (s + k)) /\
  (forall k, 0 <= k < n -> rd m (s + k) = u8 c -> absent m (u8 c) (s + k + 1) (n - k - 1) ->
     memrchr m s c n = Some (s + k)) /\
  (absent m (u8 c) s n -> memchr m s c n = Some 0 /\ memrchr m s c n = Some 0).
Proof.
  intros Hok Hn Hm.
  assert (Hmn : mapped m s n) by (eapply mapped_sub; [exact Hm|lia|divmod]).
  split; [|split].
  - intros k Hk Hc Ha. rewrite (memchr_ok m s c n k Hok).
    + by rewrite (proj2 (Z.ltb_lt _ _)) by lia.
    + split; [lia|done| |].
      * intros _. split; [done|]. eapply mapped_sub; [exact Hm|lia|divmod].
      * rewrite (proj2 (Z.ltb_lt k n)) by lia. eapply mapped_sub; [exact Hmn|lia|simpl; lia].
  - intros k Hk Hc Ha. rewrite (memrchr_ok m s c n k Hn Hmn).
    + by rewrite (proj2 (Z.leb_le _ _)) by lia.
    + split; [lia|]. split; [split; [lia|done]|]. intros j Hj.
      replace (s + j) with (s + k + 1 + (j - k - 1)) by lia. apply Ha. lia.
  - intros Ha. split.
    + rewrite (memchr_ok m s c n n Hok); [by rewrite Z.ltb_irrefl|]. split; [lia|done|lia|].
      rewrite Z.ltb_irrefl. simpl. by rewrite Z.add_0_r.
    + rewrite (memrchr_ok m s c n (-1) Hn Hmn); [done|]. split; [lia|]. split; [lia|].
      intros j Hj. apply Ha. lia.
Qed.

Lemma memchr_finds_witness :
  memchr demo 17 (111 + 256) 30 = Some (17 + 3) /\
  ((forall k, 0 <= k < 30 -> rd demo (17 + k) = u8 367 -> absent demo (u8 367) (17 + k + 1) (30 - k - 1) ->
     memrchr demo 17 367 30 = Some (17 + k)) /\
   (absent demo (u8 367) 17 30 -> memchr demo 17 367 30 = Some 0 /\ memrchr demo 17 367 30 = Some 0)).
Proof.
  assert (H : forall k, 0 <= k < 3 -> rd demo (17 + k) <> u8 367).
  { intros k Hk. assert (k = 0 \/ k = 1 \/ k = 2) as Hc by lia.
    destruct_or! Hc; subst k; vm_compute; discriminate. }
  destruct (memchr_finds demo 17 367 30) as [H1 H2]; [mem_check..|].
  split; [|exact H2]. apply H1; [lia|reflexivity|exact H].
Defined.

(** [strchrnul], [strchr] and [strrchr]: with the first occurrence of
    [(unsigned char)c] in the string, terminator included, at index [k], its
    address; without one, the terminator's address or null. *)
Theorem strchr_finds m s c len :
  mem_ok m -> cstr m s len -> words_mapped m s len ->
  (forall k, 0 <= k <= len -> rd m (s + k) = u8 c -> absent m (u8 c) s k ->
     strchrnul m s c = Some (s + k) /\ strchr m s c = Some (s + k)) /\
  (forall k, 0 <= k <= len -> rd m (s + k) = u8 c -> absent m (u8 c) (s + k + 1) (len - k) ->
     strrchr m s c = Some (s + k)) /\
  (absent m (u8 c) s (len + 1) ->
     strchrnul m s c = Some (s + len) /\ strchr m s c = Some 0 /\ strrchr m s c = Some 0).
Proof.
  intros Hok Hs Hw. pose proof Hs as (Hl & Hm & Hnz & Hz).
  assert (Hfirst : forall k, 0 <= k <= len -> absent m (u8 c) s k ->
    (k < len -> rd m (s + k) = u8 c) -> first_of m (chrnul_stop (u8 c)) s k).
  { intros k Hk Ha Hc. split; [lia|]. unfold chrnul_stop. split.
    - destruct (decide (k = len)) as [->|]; [by rewrite Hz|].
      rewrite Hc, Z.eqb_refl by lia. apply orb_true_r.
    - intros j Hj. apply orb_false_iff. split.
      + apply negb_false_iff, nz_true, Hnz. lia.
      + apply Z.eqb_neq, Ha. lia. }
  assert (Hwk : forall k, 0 <= k <= len -> words_mapped m s k).
  { intros k Hk. eapply mapped_sub; [exact Hw|lia|divmod]. }
  split; [|split].
  - intros k Hk Hc Ha. split.
    + apply strchrnul_ok; auto.
    + rewrite (strchr_ok m s c k) by auto. by rewrite Hc, Z.eqb_refl.
  - intros k Hk Hc Ha. rewrite (strrchr_ok m s c len k) by
      (done || (split; [lia|]; split; [split; [lia|done]|]; intros j Hj;
       replace (s + j) with (s + k + 1 + (j - k - 1)) by lia; apply Ha; lia)).
    by rewrite (proj2 (Z.leb_le _ _)) by lia.
  - intros Ha. assert (Hf : first_of m (chrnul_stop (u8 c)) s len).
    { apply Hfirst; [lia| |lia]. intros j Hj. apply Ha. lia. }
    split; [by apply strchrnul_ok|]. split.
    + rewrite (strchr_ok m s c len) by done. destruct (Z.eqb_spec (rd m (s + len)) (u8 c)); [|done].
      exfalso. eapply Ha; [|done]. lia.
    + rewrite (strrchr_ok m s c len (-1)); try done. split; [lia|]. split; [lia|].
      intros j Hj. apply Ha. lia.
Qed.

Lemma strchr_finds_witness :
  strrchr demo 34 (111 - 256) = Some (34 + 1) /\
  ((forall k, 0 <= k <= 5 -> rd demo (34 + k) = u8 (-145) -> absent demo (u8 (-145)) 34 k ->
     strchrnul demo 34 (-145) = Some (34 + k) /\ strchr demo 34 (-145) = Some (34 + k))).
Proof.
  assert (H : absent demo (u8 (-145)) (34 + 1 + 1) (5 - 1)).
  { intros k Hk. assert (k = 0 \/ k = 1 \/ k = 2 \/ k = 3) as Hc by lia.
    destruct_or! Hc; subst k; vm_compute; discriminate. }
  destruct (strchr_finds demo 34 (-145) 5) as (H1 & H2 & _); [mem_check..|].
  split; [|exact H1]. apply H2; [lia|reflexivity|exact H].
Defined.

(** [memcmp], [strcmp] and [strncmp] return a difference whose sign is the
    lexicographic order of the byte sequences (unsigned bytes): the two ranges,
    the two strings, the two strings cut to [n] bytes. *)
Theorem compare_lexicographic m l r n len1 len2 :
  mem_ok m -> mapped m l n -> mapped m r n -> 0 <= n -> cstr m l len1 -> cstr m r len2 ->
  (exists d, memcmp m l r n = Some d /\ bcmp m l r n = Some d /\
     (d ?= 0) = lex_compare (bytes_of m l n) (bytes_of m r n)) /\
  (exists d, strcmp m l r = Some d /\
     (d ?= 0) = lex_compare (bytes_of m l len1) (bytes_of m r len2)) /\
  (exists d, strncmp m l r n = Some d /\
     (d ?= 0) = lex_compare (bytes_of m l (Z.min len1 n)) (bytes_of m r (Z.min len2 n))).
Proof.
  intros. split; [|split; [by apply strcmp_ok|by apply strncmp_ok]].
  destruct (memcmp_ok m l r n) as (d & E & Hd); [done..|]. by exists d.
Qed.

Lemma compare_lexicographic_witness :
  (exists d, memcmp demo 17 56 1 = Some d /\ bcmp demo 17 56 1 = Some d /\
     (d ?= 0) = lex_compare (bytes_of demo 17 1) (bytes_of demo 56 1)) /\
  (exists d, strcmp demo 17 56 = Some d /\
     (d ?= 0) = lex_compare (bytes_of demo 17 4) (bytes_of demo 56 2)) /\
  (exists d, strncmp demo 17 56 1 = Some d /\
     (d ?= 0) = lex_compare (bytes_of demo 17 (Z.min 4 1)) (bytes_of demo 56 (Z.min 2 1))).
Proof. apply (compare_lexicographic demo 17 56 1 4 2); mem_check. Defined.

(** [strspn], [strcspn] and [strpbrk]: the length of the longest prefix made
    of (free of) the bytes of the set, and the address of the first byte of the
    set, null when the string has none.  The set is kept in a 256-bit map. *)
Theorem span_longest_prefix m s c clen len :
  mem_ok m -> cstr m c clen -> cstr m s len -> words_mapped m s len ->
  (forall k, 0 <= k <= len -> (k < len -> rd m (s + k) ∉ bytes_of m c clen) ->
     (forall j, 0 <= j < k -> rd m (s + j) ∈ bytes_of m c clen) -> strspn m s c = Some k) /\
  (forall k, 0 <= k <= len -> (k < len -> rd m (s + k) ∈ bytes_of m c clen) ->
     (forall j, 0 <= j < k -> rd m (s + j) ∉ bytes_of m c clen) ->
     strcspn m s c = Some k /\ strpbrk m s c = Some (if k =? len then 0 else s + k)).
Proof.
  intros Hok Hc (Hl & Hm & Hnz & Hz) Hw. unfold in_set. split.
  - intros k Hk Hat Hbefore. apply (strspn_ok m s c clen k); [done..| |].
    + eapply mapped_sub; [exact Hm|lia|lia].
    + split; [lia|]. split.
      * destruct (decide (k = len)) as [->|]; [by rewrite Hz|]. apply orb_true_iff. right.
        unfold in_set. rewrite bool_decide_eq_false_2; [done|]. apply Hat. lia.
      * intros j Hj. apply orb_false_iff. split; [apply negb_false_iff, nz_true, Hnz; lia|].
        unfold in_set. by rewrite bool_decide_eq_true_2 by auto.
  - intros k Hk Hat Hbefore.
    assert (Hf : first_of m (fun b => negb (nz b) || in_set m c clen b) s k).
    { split; [lia|]. split.
      - destruct (decide (k = len)) as [->|]; [by rewrite Hz|]. apply orb_true_iff. right.
        unfold in_set. rewrite bool_decide_eq_true_2; [done|]. apply Hat. lia.
      - intros j Hj. apply orb_false_iff. split; [apply negb_false_iff, nz_true, Hnz; lia|].
        unfold in_set. by rewrite bool_decide_eq_false_2 by auto. }
    assert (Hwk : words_mapped m s k) by (eapply mapped_sub; [exact Hw|lia|divmod]).
    split; [by apply (strcspn_ok m s c clen k)|]. rewrite (strpbrk_ok m s c clen k) by done.
    destruct (Z.eqb_spec k len) as [->|]; [by rewrite Hz|].
    rewrite (proj2 (nz_true _)); [done|]. apply Hnz. lia.
Qed.

(** The set of [demo] at 48 is "eo"; in "hello" its first element is at index 1. *)
Lemma span_longest_prefix_witness :
  strcspn demo 16 48 = Some 1 /\ strpbrk demo 16 48 = Some (if 1 =? 5 then 0 else 16 + 1).
Proof.
  destruct (span_longest_prefix demo 16 48 2 5) as [_ H]; [mem_check..|].
  assert (H0 : rd demo (16 + 0) ∉ bytes_of demo 48 2) by (apply not_elem_check; reflexivity).
  apply (H 1); [lia| |].
  - intros _. apply elem_check. reflexivity.
  - intros j Hj. replace j with 0 by lia. exact H0.
Defined.

(** ** Splitting and swapping *)

(** [strtok_r] run by a caller until it returns null gives exactly the
    maximal non-empty runs of bytes outside the separator set, in order. *)
Theorem strtok_r_tokens m s len sep slen :
  mem_ok m -> cstr m s len -> words_mapped m s len -> 0 < s -> cstr m sep slen ->
  disjoint_ranges s (len + 1) sep (slen + 1) ->
  strtok_run (Z.to_nat len + 2) m s sep 0 =
    Some (tokens (in_set m sep slen) [] (bytes_of m s len)).
Proof.
  intros. apply strtok_run_ok; try done; [|lia].
  destruct (Z.eqb_spec s 0); [lia|done].
Qed.

(** "hello" split at the letters of "eo": "h" and "ll". *)
Lemma strtok_r_tokens_witness :
  strtok_run (Z.to_nat 5 + 2) demo 16 48 0 = Some (tokens (in_set demo 48 2) [] (bytes_of demo 16 5)) /\
  tokens (in_set demo 48 2) [] (bytes_of demo 16 5) = [[104]; [108; 108]].
Proof. split; [apply (strtok_r_tokens demo 16 5 48 2); mem_check|reflexivity]. Defined.
