(* ===== verification/Time.v ===== *)
(** * Calendar arithmetic (src/src/musl/src/time)

    [__secs_to_tm], [__tm_to_secs] and what they are built from.  C's [int] and
    [long long] are integers; the narrowing assignments are written [s32], and C
    division is [Z.quot]/[Z.rem].  The specification is the proleptic Gregorian
    calendar counted in days from 1970-01-01. *)
From S2P Require Import Prelude.

Record tm := {
  tm_sec : Z; tm_min : Z; tm_hour : Z; tm_mday : Z; tm_mon : Z; tm_year : Z;
  tm_wday : Z; tm_yday : Z; tm_isdst : Z; tm_gmtoff : Z; tm_zone : Z;
}.

Definition INT_MAX : Z := 2 ^ 31 - 1.
Definition INT_MIN : Z := - 2 ^ 31.

(** ** The C functions *)

Definition LEAPOCH : Z := 946684800 + 86400 * (31 + 29).
Definition DAYS_PER_400Y : Z := 365 * 400 + 97.
Definition DAYS_PER_100Y : Z := 365 * 100 + 24.
Definition DAYS_PER_4Y : Z := 365 * 4 + 1.

(** March first. *)
Definition days_in_month : list Z := [31; 30; 31; 30; 31; 31; 30; 31; 30; 31; 31; 29].

(** [for (months=0; days_in_month[months] <= remdays; months++)
       remdays -= days_in_month[months];]  Reading past the table faults. *)
Definition month_loop (remdays : Z) : option (Z * Z) :=
  iter 13 (fun '(months, remdays) =>
    d ← days_in_month !! Z.to_nat months;
    if d <=? remdays then Some (Next (months + 1, remdays - d))
    else Some (Leave (months, remdays))) (0, remdays).

(** [None] is a fault, [Some None] the result [-1] with [*tm] untouched. *)
Definition secs_to_tm (t : Z) (tm0 : tm) : option (option tm) :=
  if (t <? INT_MIN * 31622400) || (INT_MAX * 31622400 <? t) then Some None
  else
  let secs := t - LEAPOCH in
  let days := Z.quot secs 86400 in
  let remsecs := s32 (Z.rem secs 86400) in
  let '(remsecs, days) :=
    if remsecs <? 0 then (remsecs + 86400, days - 1) else (remsecs, days) in
  let wday := s32 (Z.rem (3 + days) 7) in
  let wday := if wday <? 0 then wday + 7 else wday in
  let qc_cycles := s32 (Z.quot days DAYS_PER_400Y) in
  let remdays := s32 (Z.rem days DAYS_PER_400Y) in
  let '(remdays, qc_cycles) :=
    if remdays <? 0 then (remdays + DAYS_PER_400Y, qc_cycles - 1) else (remdays, qc_cycles) in
  let c_cycles := Z.quot remdays DAYS_PER_100Y in
  let c_cycles := if c_cycles =? 4 then c_cycles - 1 else c_cycles in
  let remdays := remdays - c_cycles * DAYS_PER_100Y in
  let q_cycles := Z.quot remdays DAYS_PER_4Y in
  let q_cycles := if q_cycles =? 25 then q_cycles - 1 else q_cycles in
  let remdays := remdays - q_cycles * DAYS_PER_4Y in
  let remyears := Z.quot remdays 365 in
  let remyears := if remyears =? 4 then remyears - 1 else remyears in
  let remdays := remdays - remyears * 365 in
  let leap := b2z (negb (nz remyears) && (nz q_cycles || negb (nz c_cycles))) in
  let yday := remdays + 31 + 28 + leap in
  let yday := if 365 + leap <=? yday then yday - (365 + leap) else yday in
  let years := remyears + 4 * q_cycles + 100 * c_cycles + 400 * qc_cycles in
  '(months, remdays) ← month_loop remdays;
  let '(months, years) := if 10 <=? months then (months - 12, years + 1) else (months, years) in
  if (INT_MAX <? years + 100) || (years + 100 <? INT_MIN) then Some None
  else Some (Some {|
    tm_year := years + 100;
    tm_mon := months + 2;
    tm_mday := remdays + 1;
    tm_wday := wday;
    tm_yday := yday;
    tm_hour := Z.quot remsecs 3600;
    tm_min := Z.rem (Z.quot remsecs 60) 60;
    tm_sec := Z.rem remsecs 60;
    tm_isdst := tm_isdst tm0; tm_gmtoff := tm_gmtoff tm0; tm_zone := tm_zone tm0 |}).

(** Returns the seconds and [*is_leap]. *)
Definition year_to_secs (year : Z) : Z * Z :=
  if u64 (year - 2) <=? 136 then
    let y := s32 year in
    let leaps := Z.shiftr (y - 68) 2 in
    let '(leaps, is_leap) :=
      if negb (nz (Z.land (y - 68) 3)) then (leaps - 1, 1) else (leaps, 0) in
    (31536000 * (y - 70) + 86400 * leaps, is_leap)
  else
    let cycles := s32 (Z.quot (year - 100) 400) in
    let rem := s32 (Z.rem (year - 100) 400) in
    let '(cycles, rem) := if rem <? 0 then (cycles - 1, rem + 400) else (cycles, rem) in
    let '(is_leap, centuries, leaps) :=
      if negb (nz rem) then (1, 0, 0)
      else
        let '(centuries, rem) :=
          if 200 <=? rem then
            if 300 <=? rem then (3, rem - 300) else (2, rem - 200)
          else
            if 100 <=? rem then (1, rem - 100) else (0, rem) in
        if negb (nz rem) then (0, centuries, 0)
        else (b2z (negb (nz (rem mod 4))), centuries, rem / 4) in
    let leaps := leaps + (97 * cycles + 24 * centuries - is_leap) in
    ((year - 100) * 31536000 + leaps * 86400 + 946684800 + 86400, is_leap).

Definition secs_through_month : list Z :=
  [0; 31 * 86400; 59 * 86400; 90 * 86400; 120 * 86400; 151 * 86400; 181 * 86400; 212 * 86400;
   243 * 86400; 273 * 86400; 304 * 86400; 334 * 86400].

Definition month_to_secs (month is_leap : Z) : option Z :=
  t ← secs_through_month !! Z.to_nat month;
  Some (if nz is_leap && (2 <=? month) then t + 86400 else t).

Definition tm_to_secs (t : tm) : option Z :=
  let year := tm_year t in
  let month := tm_mon t in
  let '(year, month) :=
    if (12 <=? month) || (month <? 0) then
      let adj := Z.quot month 12 in
      let month := Z.rem month 12 in
      let '(adj, month) := if month <? 0 then (adj - 1, month + 12) else (adj, month) in
      (year + adj, month)
    else (year, month) in
  let '(s, is_leap) := year_to_secs year in
  m ← month_to_secs month is_leap;
  Some (s + m + 86400 * (tm_mday t - 1) + 3600 * tm_hour t + 60 * tm_min t + tm_sec t).

(** The address of [__utc]. *)
Definition utc_zone : Z := 1.

Definition set_utc (t : tm) : tm := {|
  tm_sec := tm_sec t; tm_min := tm_min t; tm_hour := tm_hour t; tm_mday := tm_mday t;
  tm_mon := tm_mon t; tm_year := tm_year t; tm_wday := tm_wday t; tm_yday := tm_yday t;
  tm_isdst := 0; tm_gmtoff := 0; tm_zone := utc_zone |}.

(** [gmtime_r]: [inr] is a null result with [errno = EOVERFLOW]. *)
Definition gmtime_r (t : Z) (tm0 : tm) : option (tm + unit) :=
  r ← secs_to_tm t tm0;
  Some (match r with Some x => inl (set_utc x) | None => inr tt end).

(** [timegm]: the seconds and the normalised [*tm], or [-1] with [EOVERFLOW]. *)
Definition timegm (t : tm) : option (Z * tm + unit) :=
  s ← tm_to_secs t;
  r ← secs_to_tm s t;
  Some (match r with Some x => inl (s, set_utc x) | None => inr tt end).

(** ** The calendar *)

Definition leap_year (y : Z) : bool :=
  (y mod 4 =? 0) && (negb (y mod 100 =? 0) || (y mod 400 =? 0)).

(** Days from 1970-01-01 to January 1st of year [y]. *)
Definition days_to_year (y : Z) : Z :=
  365 * (y - 1970) + ((y - 1) / 4 - (y - 1) / 100 + (y - 1) / 400) - 477.

(** Days of month [mon] (0 = January) in year [y]. *)
Definition month_days (y mon : Z) : Z :=
  if mon =? 1 then 28 + b2z (leap_year y)
  else if (mon =? 3) || (mon =? 5) || (mon =? 8) || (mon =? 10) then 30 else 31.

(** Days before month [mon]: the sum of the months before it. *)
Definition days_to_month (y mon : Z) : Z :=
  foldr Z.add 0 (month_days y <$> seqZ 0 mon).

(** Broken-down times with every field in its range. *)
Definition tm_wf (t : tm) : Prop :=
  0 <= tm_sec t < 60 /\ 0 <= tm_min t < 60 /\ 0 <= tm_hour t < 24 /\
  0 <= tm_mon t < 12 /\ 1 <= tm_mday t <= month_days (1900 + tm_year t) (tm_mon t) /\
  INT_MIN <= tm_year t <= INT_MAX.

(** The instant a broken-down time denotes. *)
Definition tm_days (t : tm) : Z :=
  days_to_year (1900 + tm_year t) + days_to_month (1900 + tm_year t) (tm_mon t) + (tm_mday t - 1).
Definition tm_secs (t : tm) : Z :=
  86400 * tm_days t + 3600 * tm_hour t + 60 * tm_min t + tm_sec t.

(** ** year_to_secs and tm_to_secs *)

Ltac tdivmod := Z.quot_rem_to_equations; Z.div_mod_to_equations; lia.

Lemma year_to_secs_fast y :
  2 <= y <= 138 ->
  Z.shiftr (y - 68) 2 * 86400 + 31536000 * (y - 70)
    - (if negb (nz (Z.land (y - 68) 3)) then 86400 else 0) = 86400 * days_to_year (1900 + y) /\
  negb (nz (Z.land (y - 68) 3)) = leap_year (1900 + y).
Proof.
  intros Hy. rewrite Z.shiftr_div_pow2 by lia. rewrite (Z.land_ones _ 2) by lia.
  change (2 ^ 2) with 4. unfold days_to_year, leap_year, nz.
  split.
  - destruct (Z.eqb_spec ((y - 68) mod 4) 0); simpl; divmod.
  - destruct (Z.eqb_spec ((y - 68) mod 4) 0); destruct (Z.eqb_spec ((1900 + y) mod 4) 0);
      try (exfalso; divmod); simpl; [|done].
    destruct (Z.eqb_spec ((1900 + y) mod 100) 0); destruct (Z.eqb_spec ((1900 + y) mod 400) 0);
      simpl; try done. exfalso. divmod.
Qed.

(** A year as a position in the 400-year cycle that starts in 2000. *)
Lemma leap_year_cycle c r :
  leap_year (2000 + 400 * c + r) = (r mod 4 =? 0) && (negb (r mod 100 =? 0) || (r mod 400 =? 0)).
Proof.
  unfold leap_year.
  replace ((2000 + 400 * c + r) mod 4) with (r mod 4) by divmod.
  replace ((2000 + 400 * c + r) mod 100) with (r mod 100) by divmod.
  by replace ((2000 + 400 * c + r) mod 400) with (r mod 400) by divmod.
Qed.

Lemma days_to_year_cycle c r :
  days_to_year (2000 + 400 * c + r) =
    10957 + 146097 * c + 365 * r + (r + 3) / 4 - (r + 99) / 100 + (r + 399) / 400.
Proof.
  unfold days_to_year.
  replace ((2000 + 400 * c + r - 1) / 4) with (499 + 100 * c + (r + 3) / 4) by divmod.
  replace ((2000 + 400 * c + r - 1) / 100) with (19 + 4 * c + (r + 99) / 100) by divmod.
  replace ((2000 + 400 * c + r - 1) / 400) with (4 + c + (r + 399) / 400) by divmod.
  lia.
Qed.

Lemma quot_rem_fix x n :
  0 < n ->
  (if Z.rem x n <? 0 then (Z.quot x n - 1, Z.rem x n + n) else (Z.quot x n, Z.rem x n)) =
    (x / n, x mod n).
Proof.
  intros Hn. pose proof (Z.quot_rem' x n). pose proof (Z.rem_bound_abs x n ltac:(lia)).
  destruct (Z.ltb_spec (Z.rem x n) 0).
  - f_equal; [apply (Z.div_unique_pos _ _ _ (Z.rem x n + n))|apply (Z.mod_unique_pos _ _ (Z.quot x n - 1))]; lia.
  - f_equal; [apply (Z.div_unique_pos _ _ _ (Z.rem x n))|apply (Z.mod_unique_pos _ _ (Z.quot x n))]; lia.
Qed.

(** The century and leap bookkeeping of the slow path, [0 <= r < 400]. *)
Lemma year_to_secs_rem r :
  0 <= r < 400 ->
  let '(is_leap, centuries, leaps) :=
      if negb (nz r) then (1, 0, 0)
      else
        let '(centuries, rem) :=
          if 200 <=? r then
            if 300 <=? r then (3, r - 300) else (2, r - 200)
          else
            if 100 <=? r then (1, r - 100) else (0, r) in
        if negb (nz rem) then (0, centuries, 0)
        else (b2z (negb (nz (rem mod 4))), centuries, rem / 4) in
  is_leap = b2z ((r mod 4 =? 0) && (negb (r mod 100 =? 0) || (r mod 400 =? 0))) /\
  leaps + 24 * centuries - is_leap + 1 = (r + 3) / 4 - (r + 99) / 100 + (r + 399) / 400.
Proof.
  intros Hr. unfold nz. rewrite (Z.mod_small r 400) by lia.
  destruct (Z.eqb_spec r 0) as [->|Hr0]; [done|]. cbn [negb].
  rewrite orb_false_r.
  assert (Hstep : forall q s, r = 100 * q + s -> 0 <= q < 4 -> 0 <= s < 100 ->
    let '(is_leap, centuries, leaps) :=
      if negb (negb (s =? 0)) then (0, q, 0)
      else (b2z (negb (negb (s mod 4 =? 0))), q, s / 4) in
    is_leap = b2z ((r mod 4 =? 0) && negb (r mod 100 =? 0)) /\
    leaps + 24 * centuries - is_leap + 1 = (r + 3) / 4 - (r + 99) / 100 + (r + 399) / 400).
  { intros q s -> Hq Hs.
    replace ((100 * q + s) mod 100) with s by divmod.
    replace ((100 * q + s) mod 4) with (s mod 4) by divmod.
    destruct (Z.eqb_spec s 0) as [->|Hs0]; cbn [negb].
    - rewrite andb_false_r. split; [done|]. simpl. divmod.
    - rewrite andb_true_r, negb_involutive. split; [done|].
      destruct (Z.eqb_spec (s mod 4) 0); simpl; divmod. }
  destruct (Z.leb_spec 200 r); [destruct (Z.leb_spec 300 r)|destruct (Z.leb_spec 100 r)].
  - apply (Hstep 3 (r - 300)); lia.
  - apply (Hstep 2 (r - 200)); lia.
  - apply (Hstep 1 (r - 100)); lia.
  - apply (Hstep 0 r); lia.
Qed.

(** Both paths compute the calendar; the 32-bit variables do not overflow. *)
Lemma year_to_secs_ok y :
  - 2 ^ 33 <= y <= 2 ^ 33 ->
  year_to_secs y = (86400 * days_to_year (1900 + y), b2z (leap_year (1900 + y))).
Proof.
  intros Hy. unfold year_to_secs.
  destruct (Z.leb_spec (u64 (y - 2)) 136) as [Hfast|Hslow].
  - assert (2 <= y <= 138).
    { unfold wrap in Hfast. destruct (Z.le_gt_cases 2 y).
      - rewrite Z.mod_small in Hfast by lia. lia.
      - rewrite <- (Z.mod_add _ 1) in Hfast by lia. rewrite Z.mod_small in Hfast by lia. lia. }
    rewrite swrap_small by lia. destruct (year_to_secs_fast y) as [Hs Hl]; [done|].
    rewrite <- Hl. destruct (negb (nz (Z.land (y - 68) 3))); f_equal; lia.
  - rewrite !swrap_small by (try tdivmod; lia).
    rewrite quot_rem_fix by lia.
    set (c := (y - 100) / 400). set (r := (y - 100) mod 400).
    assert (Hr : 0 <= r < 400) by (subst r; divmod).
    replace (1900 + y) with (2000 + 400 * c + r) by (subst c r; divmod).
    assert (Hyr : y - 100 = 400 * c + r) by (subst c r; divmod).
    rewrite leap_year_cycle, days_to_year_cycle. clearbody c r.
    pose proof (year_to_secs_rem r Hr) as H.
    revert H. match goal with |- context [if negb (nz r) then ?a else ?b] =>
      destruct (if negb (nz r) then a else b) as [[is_leap centuries] leaps] end.
    intros [Hl Hd]. f_equal; [|done]. rewrite Hyr. lia.
Qed.

Lemma month_to_secs_ok y mon :
  0 <= mon < 12 ->
  month_to_secs mon (b2z (leap_year y)) = Some (86400 * days_to_month y mon).
Proof.
  intros Hm.
  assert (Hcase : mon = 0 \/ mon = 1 \/ mon = 2 \/ mon = 3 \/ mon = 4 \/ mon = 5 \/ mon = 6 \/
    mon = 7 \/ mon = 8 \/ mon = 9 \/ mon = 10 \/ mon = 11) by lia.
  unfold days_to_month, month_days.
  destruct (leap_year y); destruct_or! Hcase; subst mon; reflexivity.
Qed.

Lemma tm_to_secs_ok t :
  0 <= tm_mon t < 12 -> INT_MIN <= tm_year t <= INT_MAX -> tm_to_secs t = Some (tm_secs t).
Proof.
  unfold INT_MIN, INT_MAX. intros Hm Hy. unfold tm_to_secs.
  rewrite (proj2 (Z.leb_gt _ _)), (proj2 (Z.ltb_ge _ _)) by lia. cbn [orb].
  rewrite year_to_secs_ok by lia. rewrite month_to_secs_ok by done. cbn [mbind option_bind].
  f_equal. unfold tm_secs, tm_days. lia.
Qed.

(** A month outside [0..11] is carried into the year. *)
Lemma tm_to_secs_carry t :
  - 2 ^ 31 <= tm_mon t < 2 ^ 31 -> INT_MIN <= tm_year t <= INT_MAX ->
  let y := 1900 + tm_year t + tm_mon t / 12 in
  tm_to_secs t = Some (86400 * (days_to_year y + days_to_month y (tm_mon t mod 12) + (tm_mday t - 1)) +
    3600 * tm_hour t + 60 * tm_min t + tm_sec t).
Proof.
  intros Hm Hy y. unfold INT_MIN, INT_MAX in Hy. unfold tm_to_secs.
  assert ((if (12 <=? tm_mon t) || (tm_mon t <? 0) then
      let '(adj, month) := if Z.rem (tm_mon t) 12 <? 0
        then (Z.quot (tm_mon t) 12 - 1, Z.rem (tm_mon t) 12 + 12)
        else (Z.quot (tm_mon t) 12, Z.rem (tm_mon t) 12) in
      (tm_year t + adj, month)
    else (tm_year t, tm_mon t)) = (tm_year t + tm_mon t / 12, tm_mon t mod 12)) as ->.
  { rewrite quot_rem_fix by lia. destruct (_ || _) eqn:E; [done|].
    apply orb_false_iff in E as [E1 E2]. apply Z.leb_gt in E1. apply Z.ltb_ge in E2.
    rewrite Z.div_small, Z.mod_small by lia. f_equal. lia. }
  rewrite year_to_secs_ok by divmod. rewrite month_to_secs_ok by divmod. cbn [mbind option_bind].
  f_equal. subst y. rewrite Z.add_assoc. lia.
Qed.

(** ** secs_to_tm *)

(** Days from March 1st to the start of month [mo] of the table. *)
Definition march_days (mo : Z) : Z := foldr Z.add 0 (take (Z.to_nat mo) days_in_month).

Lemma month_loop_ok r :
  0 <= r < 366 ->
  exists mo d rem, month_loop r = Some (mo, rem) /\ 0 <= mo < 12 /\
    days_in_month !! Z.to_nat mo = Some d /\ 0 <= rem < d /\ r = march_days mo + rem.
Proof.
  intros Hr.
  assert (Hall : forallb (fun r => match month_loop r with
    | Some (mo, rem) => match days_in_month !! Z.to_nat mo with
        | Some d => (0 <=? mo) && (mo <? 12) && (0 <=? rem) && (rem <? d) && (r =? march_days mo + rem)
        | None => false end
    | None => false end) (seqZ 0 366) = true) by (vm_compute; reflexivity).
  rewrite forallb_forall in Hall. specialize (Hall r).
  destruct (month_loop r) as [[mo rem]|]; [|discriminate Hall; apply list_elem_of_In, elem_of_seqZ; lia].
  destruct (days_in_month !! Z.to_nat mo) as [d|] eqn:Ed;
    [|discriminate Hall; apply list_elem_of_In, elem_of_seqZ; lia].
  assert (Hin : In r (seqZ 0 366)) by (apply list_elem_of_In, elem_of_seqZ; lia).
  specialize (Hall Hin). rewrite !andb_true_iff in Hall.
  destruct Hall as [[[[H1 H2] H3] H4] H5].
  exists mo, d, rem. repeat split; try lia; done.
Qed.

(** The table that starts in March against the calendar's months. *)
Lemma march_calendar y mo :
  0 <= mo < 12 ->
  (mo < 10 -> march_days mo + 59 + b2z (leap_year y) = days_to_month y (mo + 2) /\
              days_in_month !! Z.to_nat mo = Some (month_days y (mo + 2))) /\
  (10 <= mo -> march_days mo = 306 + days_to_month y (mo - 10) /\
     (mo = 10 -> days_in_month !! Z.to_nat mo = Some (month_days y (mo - 10))) /\
     (mo = 11 -> march_days mo = 337 /\ days_in_month !! Z.to_nat mo = Some 29)).
Proof.
  intros Hm. unfold days_to_month, month_days.
  assert (Hcase : mo = 0 \/ mo = 1 \/ mo = 2 \/ mo = 3 \/ mo = 4 \/ mo = 5 \/ mo = 6 \/
    mo = 7 \/ mo = 8 \/ mo = 9 \/ mo = 10 \/ mo = 11) by lia.
  destruct (leap_year y); destruct_or! Hcase; subst mo; (split; [intros ?|intros ?]); try lia;
    repeat split; try reflexivity; try (intros; lia).
Qed.

(** Splitting a position in the 400-year cycle as the code does. *)
Record cycle_pos (rd c q y r : Z) : Prop := {
  cp_c : 0 <= c <= 3; cp_q : 0 <= q <= 24; cp_y : 0 <= y <= 3; cp_r : 0 <= r <= 365;
  cp_sum : rd = DAYS_PER_100Y * c + DAYS_PER_4Y * q + 365 * y + r;
  cp_last : r = 365 -> y = 3 /\ (q = 24 -> c = 3);
}.

(** One division of the cascade, with its correction for the last day. *)
Definition capped (x n k : Z) : Z :=
  if Z.quot x n =? k then Z.quot x n - 1 else Z.quot x n.

Lemma capped_ok x n k :
  0 < n -> 0 < k -> 0 <= x <= n * k ->
  0 <= capped x n k <= k - 1 /\ 0 <= x - capped x n k * n <= n /\
  (x - capped x n k * n = n -> x = n * k).
Proof.
  intros Hn Hk Hx. unfold capped. rewrite Z.quot_div_nonneg by lia.
  pose proof (Z.div_mod x n ltac:(lia)). pose proof (Z.mod_pos_bound x n ltac:(lia)).
  destruct (Z.eqb_spec (x / n) k) as [E|E].
  - rewrite E in *. assert (x mod n = 0) by nia. nia.
  - assert (0 <= x / n) by (apply Z.div_pos; lia).
    assert (x / n < k) by nia. nia.
Qed.

Lemma cycle_split rd :
  0 <= rd < DAYS_PER_400Y ->
  let c := capped rd DAYS_PER_100Y 4 in
  let r1 := rd - c * DAYS_PER_100Y in
  let q := capped r1 DAYS_PER_4Y 25 in
  let r2 := r1 - q * DAYS_PER_4Y in
  let y := capped r2 365 4 in
  cycle_pos rd c q y (r2 - y * 365).
Proof.
  intros Hrd c r1 q r2 y. unfold DAYS_PER_400Y in Hrd.
  pose proof (capped_ok rd DAYS_PER_100Y 4 ltac:(done) ltac:(done) ltac:(unfold DAYS_PER_100Y; lia)) as Hc.
  fold c r1 in Hc.
  pose proof (capped_ok r1 DAYS_PER_4Y 25 ltac:(done) ltac:(done)
    ltac:(unfold DAYS_PER_100Y, DAYS_PER_4Y in *; lia)) as Hq.
  fold q r2 in Hq.
  pose proof (capped_ok r2 365 4 ltac:(done) ltac:(done)
    ltac:(unfold DAYS_PER_100Y, DAYS_PER_4Y in *; lia)) as Hy.
  fold y in Hy.
  split; unfold DAYS_PER_100Y, DAYS_PER_4Y in *; lia.
Qed.

(** The year of the cycle a position lies in, and the days before it. *)
Lemma cycle_year rd c q y r n :
  cycle_pos rd c q y r -> n = y + 4 * q + 100 * c ->
  (forall qc : Z, leap_year (2000 + 400 * qc + n) = negb (nz y) && (nz q || negb (nz c))) /\
  (forall qc : Z, days_to_year (2000 + 400 * qc + n) + 59 + b2z (leap_year (2000 + 400 * qc + n)) + r =
     11017 + 146097 * qc + rd) /\
  (forall qc : Z, days_to_year (2000 + 400 * qc + (n + 1)) + (r - 306) = 11017 + 146097 * qc + rd) /\
  (forall qc : Z, r = 365 -> leap_year (2000 + 400 * qc + (n + 1)) = true).
Proof.
  intros [Hc Hq Hy Hr Hsum Hlast] Hn. unfold DAYS_PER_100Y, DAYS_PER_4Y in Hsum.
  assert (Hleap : forall qc, leap_year (2000 + 400 * qc + n) = negb (nz y) && (nz q || negb (nz c))).
  { intros qc. rewrite leap_year_cycle. unfold nz. subst n.
    replace ((y + 4 * q + 100 * c) mod 4) with y by divmod.
    replace ((y + 4 * q + 100 * c) mod 100) with (y + 4 * q) by divmod.
    rewrite (Z.mod_small (y + 4 * q + 100 * c) 400) by lia.
    rewrite negb_involutive.
    destruct (Z.eqb_spec y 0) as [->|]; [|done]. cbn [andb].
    destruct (Z.eqb_spec q 0) as [->|], (Z.eqb_spec c 0) as [->|];
      repeat match goal with |- context [?a =? ?b] => destruct (Z.eqb_spec a b) end; try done; lia. }
  assert (H4 : (n + 3) / 4 = q + 25 * c + (if y =? 0 then 0 else 1))
    by (subst n; destruct (Z.eqb_spec y 0); divmod).
  assert (H100 : (n + 99) / 100 = c + (if (y =? 0) && (q =? 0) then 0 else 1)).
  { subst n. destruct (Z.eqb_spec y 0), (Z.eqb_spec q 0); simpl; divmod. }
  assert (H400 : (n + 399) / 400 = if (y =? 0) && (q =? 0) && (c =? 0) then 0 else 1).
  { subst n. destruct (Z.eqb_spec y 0), (Z.eqb_spec q 0), (Z.eqb_spec c 0); simpl; divmod. }
  split; [done|]. split; [|split].
  - intros qc. rewrite Hleap, days_to_year_cycle, H4, H100, H400. unfold nz. subst n.
    destruct (Z.eqb_spec y 0), (Z.eqb_spec q 0), (Z.eqb_spec c 0); simpl; lia.
  - intros qc. rewrite days_to_year_cycle. subst n.
    replace ((y + 4 * q + 100 * c + 1 + 3) / 4) with (q + 25 * c + 1) by divmod.
    replace ((y + 4 * q + 100 * c + 1 + 99) / 100) with (c + 1) by divmod.
    replace ((y + 4 * q + 100 * c + 1 + 399) / 400) with 1 by divmod. lia.
  - intros qc Hr365. rewrite leap_year_cycle. subst n. destruct (Hlast Hr365) as [-> H24].
    replace ((3 + 4 * q + 100 * c + 1) mod 4) with 0 by divmod. cbn [Z.eqb andb].
    destruct (decide (q = 24)) as [->|].
    + rewrite H24 by done. done.
    + rewrite (proj2 (Z.eqb_neq ((3 + 4 * q + 100 * c + 1) mod 100) 0)) by divmod. done.
Qed.

Lemma quot_rem_fix_swap x n :
  0 < n ->
  (if Z.rem x n <? 0 then (Z.rem x n + n, Z.quot x n - 1) else (Z.rem x n, Z.quot x n)) =
    (x mod n, x / n).
Proof.
  intros Hn. pose proof (quot_rem_fix x n Hn) as H.
  destruct (Z.rem x n <? 0); by injection H as -> ->.
Qed.

Lemma rem_fix x n : 0 < n -> (if Z.rem x n <? 0 then Z.rem x n + n else Z.rem x n) = x mod n.
Proof.
  intros Hn. pose proof (quot_rem_fix x n Hn) as H.
  destruct (Z.rem x n <? 0); by injection H as _ ->.
Qed.

(** The date [secs_to_tm] finds for [day] days after 2000-03-01: year (from
    1900), month, day of the month and of the year. *)
Definition civil (day : Z) : option (Z * Z * Z * Z) :=
  let qc := day / DAYS_PER_400Y in
  let rd := day mod DAYS_PER_400Y in
  let c := capped rd DAYS_PER_100Y 4 in
  let r1 := rd - c * DAYS_PER_100Y in
  let q := capped r1 DAYS_PER_4Y 25 in
  let r2 := r1 - q * DAYS_PER_4Y in
  let y := capped r2 365 4 in
  let r := r2 - y * 365 in
  let leap := b2z (negb (nz y) && (nz q || negb (nz c))) in
  let yday := r + 31 + 28 + leap in
  let yday := if 365 + leap <=? yday then yday - (365 + leap) else yday in
  let years := y + 4 * q + 100 * c + 400 * qc in
  '(mo, rem) ← month_loop r;
  let '(mo, years) := if 10 <=? mo then (mo - 12, years + 1) else (mo, years) in
  Some (years + 100, mo + 2, rem + 1, yday).

(** [secs_to_tm] with its divisions brought to the floor form. *)
Lemma secs_to_tm_civil t tm0 :
  INT_MIN * 31622400 <= t <= INT_MAX * 31622400 ->
  let day := (t - LEAPOCH) / 86400 in
  let sec := (t - LEAPOCH) mod 86400 in
  secs_to_tm t tm0 =
    ('(y, mo, d, yd) ← civil day;
     if (INT_MAX <? y) || (y <? INT_MIN) then Some None
     else Some (Some {|
       tm_year := y; tm_mon := mo; tm_mday := d; tm_yday := yd;
       tm_wday := (3 + day) mod 7;
       tm_hour := sec / 3600; tm_min := sec / 60 mod 60; tm_sec := sec mod 60;
       tm_isdst := tm_isdst tm0; tm_gmtoff := tm_gmtoff tm0; tm_zone := tm_zone tm0 |})).
Proof.
  intros Ht day sec. unfold INT_MIN, INT_MAX in Ht. unfold secs_to_tm.
  rewrite (proj2 (Z.ltb_ge t _)) by (unfold INT_MIN; lia).
  rewrite (proj2 (Z.ltb_ge _ t)) by (unfold INT_MAX; lia). cbn [orb].
  rewrite (swrap_small 32 (Z.rem (t - LEAPOCH) 86400)) by tdivmod.
  rewrite quot_rem_fix_swap by lia. fold day sec. cbv beta iota.
  assert (Hday : - 2 ^ 40 <= day <= 2 ^ 40) by (subst day; unfold LEAPOCH; divmod).
  assert (Hsec : 0 <= sec < 86400) by (subst sec; divmod).
  clearbody day sec.
  rewrite (swrap_small 32 (Z.rem (3 + day) 7)) by tdivmod.
  rewrite rem_fix by lia.
  rewrite (swrap_small 32 (Z.rem day DAYS_PER_400Y)) by (unfold DAYS_PER_400Y; tdivmod).
  rewrite (swrap_small 32 (Z.quot day DAYS_PER_400Y)) by (unfold DAYS_PER_400Y; tdivmod).
  rewrite quot_rem_fix_swap by done.
  rewrite (Z.quot_div_nonneg sec 3600), (Z.quot_div_nonneg sec 60) by lia.
  rewrite (Z.rem_mod_nonneg (sec / 60) 60), (Z.rem_mod_nonneg sec 60) by (lia || divmod).
  unfold civil, capped. cbv beta iota zeta.
  destruct (month_loop _) as [[mo rem]|]; [|done]. cbn [mbind option_bind].
  destruct (10 <=? mo); cbv beta iota; done.
Qed.

Lemma month_days_range y mon : 28 <= month_days y mon <= 31.
Proof. unfold month_days. pose proof (b2z_range (leap_year y)). repeat bcase; simpl; lia. Qed.

Lemma days_to_month_bounds y mon :
  0 <= mon < 12 ->
  0 <= days_to_month y mon /\ days_to_month y mon + month_days y mon <= 365 + b2z (leap_year y).
Proof.
  intros Hm. unfold days_to_month, month_days.
  assert (Hcase : mon = 0 \/ mon = 1 \/ mon = 2 \/ mon = 3 \/ mon = 4 \/ mon = 5 \/ mon = 6 \/
    mon = 7 \/ mon = 8 \/ mon = 9 \/ mon = 10 \/ mon = 11) by lia.
  destruct (leap_year y); destruct_or! Hcase; subst mon; split; vm_compute; discriminate.
Qed.

(** [civil] inverts the calendar. *)
Lemma civil_ok day :
  exists y mo d yd, civil day = Some (y, mo, d, yd) /\ 0 <= mo < 12 /\
    1 <= d <= month_days (1900 + y) mo /\
    days_to_year (1900 + y) + days_to_month (1900 + y) mo + (d - 1) = 11017 + day /\
    yd = days_to_month (1900 + y) mo + (d - 1).
Proof.
  unfold civil. set (qc := day / DAYS_PER_400Y). set (rd := day mod DAYS_PER_400Y).
  assert (Hrd : 0 <= rd < DAYS_PER_400Y) by (apply Z.mod_pos_bound; done).
  assert (Hday : day = 146097 * qc + rd) by (apply (Z.div_mod day DAYS_PER_400Y); done).
  pose proof (cycle_split rd Hrd) as Hpos. cbv zeta in Hpos. clearbody qc rd. cbv zeta.
  set (c := capped rd DAYS_PER_100Y 4) in *. set (r1 := rd - c * DAYS_PER_100Y) in *.
  set (q := capped r1 DAYS_PER_4Y 25) in *. set (r2 := r1 - q * DAYS_PER_4Y) in *.
  set (y := capped r2 365 4) in *. set (r := r2 - y * 365) in *.
  clearbody r y q c.
  destruct (cycle_year rd c q y r _ Hpos eq_refl) as (Hleap & Hmar & Hjan & Hfeb).
  set (n := y + 4 * q + 100 * c) in *. rewrite <- (Hleap qc).
  destruct (month_loop_ok r) as (mo & dm & rem & -> & Hmo & Hdm & Hrem & Hr); [destruct Hpos; lia|].
  cbn [mbind option_bind].
  destruct (Z.leb_spec 10 mo) as [H10|H10]; cbv iota beta.
  - exists (n + 400 * qc + 1 + 100), (mo - 12 + 2), (rem + 1).
    set (Y := 2000 + 400 * qc + (n + 1)).
    replace (1900 + (n + 400 * qc + 1 + 100)) with Y by (subst Y; lia).
    replace (mo - 12 + 2) with (mo - 10) by lia.
    destruct (march_calendar Y mo Hmo) as [_ H]. destruct (H H10) as (Hsum & Hm10 & Hm11).
    eexists. split; [done|]. split; [lia|].
    assert (Hd : rem + 1 <= month_days Y (mo - 10)).
    { destruct (decide (mo = 10)) as [E|E].
      - rewrite (Hm10 E) in Hdm. injection Hdm as <-. lia.
      - assert (mo = 11) as E11 by lia. destruct (Hm11 E11) as [Hsum11 Hd29].
        rewrite Hd29 in Hdm. injection Hdm as <-.
        rewrite E11. change (month_days Y (11 - 10)) with (28 + b2z (leap_year Y)).
        destruct (decide (r = 365)) as [E365|]; [unfold Y; rewrite (Hfeb qc E365); simpl; lia|].
        pose proof (b2z_range (leap_year Y)). lia. }
    split; [lia|]. specialize (Hjan qc). fold Y in Hjan.
    split; [lia|].
    destruct (days_to_month_bounds Y (mo - 10)) as [Hge _]; [lia|].
    rewrite (proj2 (Z.leb_le _ _)) by lia. lia.
  - exists (n + 400 * qc + 100), (mo + 2), (rem + 1).
    set (Y := 2000 + 400 * qc + n).
    replace (1900 + (n + 400 * qc + 100)) with Y by (subst Y; lia).
    destruct (march_calendar Y mo Hmo) as [H _]. destruct (H H10) as (Hsum & Hd).
    rewrite Hd in Hdm. injection Hdm as <-.
    eexists. split; [done|]. split; [lia|]. split; [lia|].
    specialize (Hmar qc). fold Y in Hmar. fold Y.
    split; [lia|].
    destruct (days_to_month_bounds Y (mo + 2)) as [_ Hle]; [lia|].
    rewrite (proj2 (Z.leb_gt _ _)) by lia. lia.
Qed.

(** ** The theorems' form: wf results, and their uniqueness *)

Lemma days_to_year_succ y : days_to_year (y + 1) = days_to_year y + 365 + b2z (leap_year y).
Proof.
  unfold days_to_year, leap_year.
  destruct (Z.eqb_spec (y mod 4) 0), (Z.eqb_spec (y mod 100) 0), (Z.eqb_spec (y mod 400) 0);
    simpl; divmod.
Qed.

Lemma days_to_year_mono y1 y2 : y1 < y2 -> days_to_year y1 + 365 + b2z (leap_year y1) <= days_to_year y2.
Proof.
  intros H. rewrite <- days_to_year_succ. unfold days_to_year. divmod.
Qed.

Lemma days_to_month_succ y mon :
  0 <= mon -> days_to_month y (mon + 1) = days_to_month y mon + month_days y mon.
Proof.
  intros H. unfold days_to_month. rewrite (seqZ_app 0 mon 1) by lia. rewrite fmap_app, foldr_app.
  change (seqZ (0 + mon) 1) with [0 + mon]. rewrite Z.add_0_l.
  cbn [fmap list_fmap foldr]. rewrite Z.add_0_r. generalize (month_days y mon) as d. intros d.
  induction (month_days y <$> seqZ 0 mon) as [|a l IH]; cbn [foldr]; [lia|]. rewrite IH. lia.
Qed.

Lemma days_to_month_mono y m1 m2 :
  0 <= m1 < m2 -> m2 < 12 -> days_to_month y m1 + month_days y m1 <= days_to_month y m2.
Proof.
  intros [H1 H12] H2. rewrite <- days_to_month_succ by done.
  replace m2 with (m1 + 1 + Z.of_nat (Z.to_nat (m2 - m1 - 1))) by lia.
  induction (Z.to_nat (m2 - m1 - 1)) as [|k IH]; [rewrite Z.add_0_r; lia|].
  replace (m1 + 1 + Z.of_nat (S k)) with (m1 + 1 + Z.of_nat k + 1) by lia.
  rewrite (days_to_month_succ y (m1 + 1 + Z.of_nat k)) by lia.
  pose proof (month_days_range y (m1 + 1 + Z.of_nat k)).
  lia.
Qed.

Record same_instant (t u : tm) : Prop := {
  si_year : tm_year t = tm_year u; si_mon : tm_mon t = tm_mon u; si_mday : tm_mday t = tm_mday u;
  si_hour : tm_hour t = tm_hour u; si_min : tm_min t = tm_min u; si_sec : tm_sec t = tm_sec u;
}.

Lemma tm_days_inj y1 m1 d1 y2 m2 d2 :
  0 <= m1 < 12 -> 0 <= m2 < 12 -> 1 <= d1 <= month_days y1 m1 -> 1 <= d2 <= month_days y2 m2 ->
  days_to_year y1 + days_to_month y1 m1 + (d1 - 1) = days_to_year y2 + days_to_month y2 m2 + (d2 - 1) ->
  y1 = y2 /\ m1 = m2 /\ d1 = d2.
Proof.
  intros Hm1 Hm2 Hd1 Hd2 E.
  pose proof (days_to_month_bounds y1 m1 Hm1). pose proof (days_to_month_bounds y2 m2 Hm2).
  assert (y1 = y2) as ->.
  { destruct (Z.lt_trichotomy y1 y2) as [Hlt|[|Hlt]]; [|done|];
      pose proof (days_to_year_mono _ _ Hlt); lia. }
  assert (m1 = m2) as ->.
  { destruct (Z.lt_trichotomy m1 m2) as [Hlt|[|Hlt]]; [|done|].
    - pose proof (days_to_month_mono y2 m1 m2 ltac:(lia) ltac:(lia)). lia.
    - pose proof (days_to_month_mono y2 m2 m1 ltac:(lia) ltac:(lia)). lia. }
  lia.
Qed.

Lemma tm_secs_inj t u : tm_wf t -> tm_wf u -> tm_secs t = tm_secs u -> same_instant t u.
Proof.
  unfold tm_wf, tm_secs. intros (Hs & Hmi & Hh & Hmo & Hd & Hy) (Hs' & Hmi' & Hh' & Hmo' & Hd' & Hy') E.
  assert (Edays : tm_days t = tm_days u) by lia.
  destruct (tm_days_inj _ _ _ _ _ _ Hmo Hmo' Hd Hd' Edays) as (Ey & Em & Ed).
  split; lia.
Qed.

(** What [secs_to_tm] returns, on every input. *)
Lemma secs_to_tm_ok t tm0 :
  match secs_to_tm t tm0 with
  | None => False
  | Some None => forall u, tm_wf u -> tm_secs u <> t
  | Some (Some x) =>
      tm_wf x /\ tm_secs x = t /\ tm_wday x = (4 + tm_days x) mod 7 /\
      tm_yday x = days_to_month (1900 + tm_year x) (tm_mon x) + (tm_mday x - 1) /\
      tm_isdst x = tm_isdst tm0 /\ tm_gmtoff x = tm_gmtoff tm0 /\ tm_zone x = tm_zone tm0
  end.
Proof.
  destruct (decide (INT_MIN * 31622400 <= t <= INT_MAX * 31622400)) as [Ht|Ht].
  - rewrite secs_to_tm_civil by done.
    set (day := (t - LEAPOCH) / 86400). set (sec := (t - LEAPOCH) mod 86400).
    destruct (civil_ok day) as (y & mo & d & yd & -> & Hmo & Hd & Hdays & Hyd).
    cbn [mbind option_bind].
    assert (Hsec : 0 <= sec < 86400) by (subst sec; divmod).
    assert (Hts : t = 86400 * (11017 + day) + sec) by (subst day sec; unfold LEAPOCH; divmod).
    clearbody day sec. destruct (_ || _) eqn:Eov.
    + intros u Hu E. apply orb_true_iff in Eov. unfold tm_wf in Hu.
      destruct Hu as (Hs' & Hmi' & Hh' & Hmo' & Hd' & Hy').
      assert (Edays : tm_days u = 11017 + day) by (unfold tm_secs in E; lia).
      unfold tm_days in Edays. rewrite <- Hdays in Edays.
      destruct (tm_days_inj _ _ _ _ _ _ Hmo' Hmo Hd' Hd Edays) as (Ey & _). lia.
    + apply orb_false_iff in Eov. unfold tm_wf, tm_secs, tm_days. cbn.
      rewrite Hdays. split; [|split; [|split; [|done]]].
      * repeat split; try lia; divmod.
      * divmod.
      * replace (4 + (11017 + day)) with (3 + day + 1574 * 7) by lia. by rewrite Z.mod_add by lia.
  - assert (secs_to_tm t tm0 = Some None) as ->.
    { unfold secs_to_tm. destruct (Z.ltb_spec t (INT_MIN * 31622400)); [done|].
      by rewrite (proj2 (Z.ltb_lt (INT_MAX * 31622400) t)) by lia. }
    intros u (Hs' & Hmi' & Hh' & Hmo' & Hd' & Hy') E. apply Ht. rewrite <- E. clear E Ht.
    pose proof (days_to_month_bounds (1900 + tm_year u) (tm_mon u) Hmo') as Hb.
    pose proof (b2z_range (leap_year (1900 + tm_year u))).
    unfold tm_secs, tm_days, days_to_year, INT_MAX, INT_MIN in *. divmod.
Qed.

(** ** What the time functions promise *)

Lemma secs_to_tm_wf u tm0 :
  tm_wf u -> exists x, secs_to_tm (tm_secs u) tm0 = Some (Some x) /\ same_instant x u /\ tm_wf x /\
    tm_wday x = (4 + tm_days u) mod 7 /\
    tm_yday x = days_to_month (1900 + tm_year u) (tm_mon u) + (tm_mday u - 1).
Proof.
  intros Hu. pose proof (secs_to_tm_ok (tm_secs u) tm0) as H.
  destruct (secs_to_tm (tm_secs u) tm0) as [[x|]|]; [|by apply H in Hu|done].
  destruct H as (Hx & Es & Ew & Ey & _). exists x.
  assert (Hsame : same_instant x u) by by apply tm_secs_inj.
  split; [done|]. split; [done|]. split; [done|].
  unfold tm_days in *. destruct Hsame as [E1 E2 E3 _ _ _]. by rewrite <- E1, <- E2, <- E3.
Qed.

(** C27. [gmtime_r], on every [time_t]: the broken-down UTC time it stores has
    every field in range, denotes exactly that instant in the proleptic Gregorian
    calendar, and has the right weekday and day of the year; it fails (with
    [EOVERFLOW]) exactly when no [struct tm] whose year fits an [int] denotes the
    instant. *)
Theorem gmtime_r_civil t tm0 :
  match gmtime_r t tm0 with
  | Some (inl x) =>
      tm_wf x /\ tm_secs x = t /\ tm_wday x = (4 + tm_days x) mod 7 /\
      tm_yday x = days_to_month (1900 + tm_year x) (tm_mon x) + (tm_mday x - 1) /\
      tm_isdst x = 0 /\ tm_gmtoff x = 0 /\ tm_zone x = utc_zone
  | Some (inr _) => forall u, tm_wf u -> tm_secs u <> t
  | None => False
  end.
Proof.
  unfold gmtime_r. pose proof (secs_to_tm_ok t tm0) as H.
  destruct (secs_to_tm t tm0) as [[x|]|]; simpl; [|done..].
  destruct H as (Hwf & Hs & Hwd & Hyd & _). done.
Qed.

(** C28. [timegm] inverts [gmtime_r]: on a [struct tm] with every field in range
    it returns the seconds it denotes and leaves the same date and time, with the
    weekday and the day of the year filled in; [gmtime_r] of that value gives the
    date and time back. *)
Theorem timegm_gmtime_roundtrip u tm0 :
  tm_wf u ->
  exists x y, timegm u = Some (inl (tm_secs u, x)) /\ gmtime_r (tm_secs u) tm0 = Some (inl y) /\
    same_instant x u /\ same_instant y u /\
    tm_wday x = (4 + tm_days u) mod 7 /\
    tm_yday x = days_to_month (1900 + tm_year u) (tm_mon u) + (tm_mday u - 1).
Proof.
  intros Hu. pose proof Hu as (_ & _ & _ & Hmo & _ & Hy).
  destruct (secs_to_tm_wf u u Hu) as (x & Ex & Hx & _ & Hwd & Hyd).
  destruct (secs_to_tm_wf u tm0 Hu) as (y & Ey & Hy' & _).
  exists (set_utc x), (set_utc y). unfold timegm, gmtime_r.
  rewrite tm_to_secs_ok by done. cbn [mbind option_bind]. rewrite Ex, Ey.
  split; [done|]. split; [done|]. destruct Hx, Hy'. by repeat split.
Qed.

(** 2000-02-29 23:59:59. *)
Definition leap_day : tm := {| tm_sec := 59; tm_min := 59; tm_hour := 23; tm_mday := 29; tm_mon := 1;
  tm_year := 100; tm_wday := 0; tm_yday := 0; tm_isdst := 0; tm_gmtoff := 0; tm_zone := 0 |}.

Lemma timegm_gmtime_roundtrip_witness :
  tm_wf leap_day /\ tm_secs leap_day = 951868799 /\
  exists x y, timegm leap_day = Some (inl (tm_secs leap_day, x)) /\
    gmtime_r (tm_secs leap_day) leap_day = Some (inl y) /\
    same_instant x leap_day /\ same_instant y leap_day /\
    tm_wday x = (4 + tm_days leap_day) mod 7 /\
    tm_yday x = days_to_month (1900 + tm_year leap_day) (tm_mon leap_day) + (tm_mday leap_day - 1).
Proof.
  assert (H : tm_wf leap_day) by (unfold tm_wf; repeat split; by vm_compute).
  split; [exact H|]. split; [reflexivity|]. apply (timegm_gmtime_roundtrip leap_day leap_day H).
Defined.

(** [__year_to_secs] and [__tm_to_secs]: the leap-year bookkeeping (the fast
    path for 1902..2038 and the 400-year cycle one) gives the days before the
    year, and a month outside 0..11 carries into the year; the other fields may
    be out of range. *)
Theorem tm_to_secs_calendar t :
  - 2 ^ 31 <= tm_mon t < 2 ^ 31 -> INT_MIN <= tm_year t <= INT_MAX ->
  let y := 1900 + tm_year t + tm_mon t / 12 in
  year_to_secs (y - 1900) = (86400 * days_to_year y, b2z (leap_year y)) /\
  tm_to_secs t = Some (86400 * (days_to_year y + days_to_month y (tm_mon t mod 12) + (tm_mday t - 1)) +
    3600 * tm_hour t + 60 * tm_min t + tm_sec t).
Proof.
  intros Hm Hy y. split; [|by apply tm_to_secs_carry].
  rewrite year_to_secs_ok by (unfold INT_MIN, INT_MAX in Hy; subst y; divmod).
  by replace (1900 + (y - 1900)) with y by lia.
Qed.

(** Month -26 of 1900: November 1897. *)
Lemma tm_to_secs_calendar_witness :
  let t := {| tm_sec := 70; tm_min := -3; tm_hour := 25; tm_mday := 0; tm_mon := -26; tm_year := 0;
              tm_wday := 0; tm_yday := 0; tm_isdst := 0; tm_gmtoff := 0; tm_zone := 0 |} in
  year_to_secs (1897 - 1900) = (86400 * days_to_year 1897, b2z (leap_year 1897)) /\
  tm_to_secs t = Some (86400 * (days_to_year 1897 + days_to_month 1897 10 + (0 - 1)) +
    3600 * 25 + 60 * (-3) + 70).
Proof. intros t. apply (tm_to_secs_calendar t); unfold INT_MIN, INT_MAX; simpl; lia. Defined.
