(* ===== verification/IntOps.v ===== *)
(** * Integer support routines (src/src/compiler-rt/builtins)

    Each routine exists in the source at two or three widths with the same text;
    here it is one definition with the width as parameter, and the C function at
    each width is its instance.  Signed values are integers in range, unsigned
    ones are residues; the wrap-arounds of the C code are written out.  A call of
    [compilerrt_abort] is [None]. *)
From S2P Require Import Prelude.

(** ** Two-word values

    The unions [dwords], [udwords], [twords] and [utwords]: a [2h]-bit value as a
    low word in [0, 2^h) and a high word, signed or unsigned. *)
Record words := { high : Z; low : Z }.

Definition join (h : Z) (x : words) : Z := low x + 2 ^ h * high x.
Definition udwords (h a : Z) : words := {| high := wrap h (Z.shiftr a h); low := wrap h a |}.
Definition dwords (h a : Z) : words := {| high := swrap h (Z.shiftr a h); low := wrap h a |}.

(** ** Shifts *)

Definition ashl (h a b : Z) : Z :=
  let input := dwords h a in
  if nz (Z.land b h) then
    join h {| low := 0; high := swrap h (Z.shiftl (low input) (b - h)) |}
  else if b =? 0 then a
  else join h {| low := wrap h (Z.shiftl (low input) b);
                 high := swrap h (Z.lor (Z.shiftl (high input) b) (Z.shiftr (low input) (h - b))) |}.

Definition lshr (h a b : Z) : Z :=
  let input := udwords h a in
  if nz (Z.land b h) then join h {| high := 0; low := Z.shiftr (high input) (b - h) |}
  else if b =? 0 then a
  else join h {| high := Z.shiftr (high input) b;
                 low := Z.lor (wrap h (Z.shiftl (high input) (h - b))) (Z.shiftr (low input) b) |}.

Definition ashr (h a b : Z) : Z :=
  let input := dwords h a in
  if nz (Z.land b h) then
    join h {| high := Z.shiftr (high input) (h - 1); low := wrap h (Z.shiftr (high input) (b - h)) |}
  else if b =? 0 then a
  else join h {| high := Z.shiftr (high input) b;
                 low := wrap h (Z.lor (Z.shiftl (high input) (h - b)) (Z.shiftr (low input) b)) |}.

Definition ashldi3 := ashl 32.
Definition ashlti3 := ashl 64.
Definition lshrdi3 := lshr 32.
Definition lshrti3 := lshr 64.
Definition ashrdi3 := ashr 32.
Definition ashrti3 := ashr 64.

(** ** Comparisons *)

Definition cmp_words (x y : words) : Z :=
  if high x <? high y then 0
  else if high y <? high x then 2
  else if low x <? low y then 0
  else if low y <? low x then 2
  else 1.

Definition cmpdi2 (a b : Z) : Z := cmp_words (dwords 32 a) (dwords 32 b).
Definition cmpti2 (a b : Z) : Z := cmp_words (dwords 64 a) (dwords 64 b).
Definition ucmpdi2 (a b : Z) : Z := cmp_words (udwords 32 a) (udwords 32 b).
Definition ucmpti2 (a b : Z) : Z := cmp_words (udwords 64 a) (udwords 64 b).

(** ** Trapping arithmetic *)

Definition min_of (w : Z) : Z := - 2 ^ (w - 1).
Definition max_of (w : Z) : Z := 2 ^ (w - 1) - 1.

Definition negv (w a : Z) : option Z := if a =? min_of w then None else Some (- a).
Definition negvsi2 := negv 32.
Definition negvdi2 := negv 64.
Definition negvti2 := negv 128.

Definition neg (w a : Z) : Z := swrap w (- a).
Definition negdi2 := neg 64.
Definition negti2 := neg 128.

(** [t = a >> (N-1); (a ^ t) - t] *)
Definition sign_of (w a : Z) : Z := Z.shiftr a (w - 1).
Definition abs_of (w a : Z) : Z := Z.lxor a (sign_of w a) - sign_of w a.

Definition absv (w a : Z) : option Z := if a =? min_of w then None else Some (abs_of w a).
Definition absvsi2 := absv 32.
Definition absvdi2 := absv 64.
Definition absvti2 := absv 128.

Definition addv (w a b : Z) : option Z :=
  let s := swrap w (wrap w (wrap w a + wrap w b)) in
  if 0 <=? b then (if s <? a then None else Some s) else (if a <=? s then None else Some s).
Definition addvsi3 := addv 32.
Definition addvdi3 := addv 64.
Definition addvti3 := addv 128.

Definition subv (w a b : Z) : option Z :=
  let s := swrap w (wrap w (wrap w a - wrap w b)) in
  if 0 <=? b then (if a <? s then None else Some s) else (if s <=? a then None else Some s).
Definition subvsi3 := subv 32.
Definition subvdi3 := subv 64.
Definition subvti3 := subv 128.

Definition mulv (w a b : Z) : option Z :=
  let MIN := min_of w in
  let MAX := Z.lnot MIN in
  if a =? MIN then (if (b =? 0) || (b =? 1) then Some (a * b) else None)
  else if b =? MIN then (if (a =? 0) || (a =? 1) then Some (a * b) else None)
  else
    let sa := sign_of w a in
    let abs_a := abs_of w a in
    let sb := sign_of w b in
    let abs_b := abs_of w b in
    if (abs_a <? 2) || (abs_b <? 2) then Some (a * b)
    else if sa =? sb then (if Z.quot MAX abs_b <? abs_a then None else Some (a * b))
    else (if Z.quot MIN (- abs_b) <? abs_a then None else Some (a * b)).
Definition mulvsi3 := mulv 32.
Definition mulvdi3 := mulv 64.
Definition mulvti3 := mulv 128.

(** The result and [*overflow]. *)
Definition mulo (w a b : Z) : Z * Z :=
  let MIN := min_of w in
  let MAX := Z.lnot MIN in
  let result := swrap w (a * b) in
  if a =? MIN then (result, if negb (b =? 0) && negb (b =? 1) then 1 else 0)
  else if b =? MIN then (result, if negb (a =? 0) && negb (a =? 1) then 1 else 0)
  else
    let sa := sign_of w a in
    let abs_a := abs_of w a in
    let sb := sign_of w b in
    let abs_b := abs_of w b in
    if (abs_a <? 2) || (abs_b <? 2) then (result, 0)
    else if sa =? sb then (result, if Z.quot MAX abs_b <? abs_a then 1 else 0)
    else (result, if Z.quot MIN (- abs_b) <? abs_a then 1 else 0).
Definition mulosi4 := mulo 32.
Definition mulodi4 := mulo 64.
Definition muloti4 := mulo 128.

(** ** Multiplication *)

(** [__muldsi3], [__mulddi3]: the full product of two words by half words. *)
Definition mul_words (h a b : Z) : words :=
  let k := h / 2 in
  let lower_mask := Z.shiftr (2 ^ h - 1) k in
  let lo := wrap h (Z.land a lower_mask * Z.land b lower_mask) in
  let t := Z.shiftr lo k in
  let lo := Z.land lo lower_mask in
  let t := wrap h (t + wrap h (Z.shiftr a k * Z.land b lower_mask)) in
  let lo := wrap h (lo + wrap h (Z.shiftl (Z.land t lower_mask) k)) in
  let hi := Z.shiftr t k in
  let t := Z.shiftr lo k in
  let lo := Z.land lo lower_mask in
  let t := wrap h (t + wrap h (Z.shiftr b k * Z.land a lower_mask)) in
  let lo := wrap h (lo + wrap h (Z.shiftl (Z.land t lower_mask) k)) in
  let hi := swrap h (hi + Z.shiftr t k) in
  let hi := swrap h (hi + wrap h (Z.shiftr a k * Z.shiftr b k)) in
  {| high := hi; low := lo |}.

Definition mul (h a b : Z) : Z :=
  let x := dwords h a in
  let y := dwords h b in
  let r := mul_words h (low x) (low y) in
  join h {| low := low r;
            high := swrap h (high r + wrap h (wrap h (high x * low y) + wrap h (low x * high y))) |}.

Definition muldsi3 := mul_words 32.
Definition muldi3 := mul 32.
Definition mulddi3 := mul_words 64.
Definition multi3 := mul 64.

(** ** Counting bits *)

(** [t = ((x & mask) == 0) << e; x >>= 2^e - t] *)
Definition clz_stage (e mask : Z) '((x, r) : Z * Z) : Z * Z :=
  let t := Z.shiftl (b2z (Z.land x mask =? 0)) e in
  (Z.shiftr x (2 ^ e - t), r + t).

Definition clzsi2 (a : Z) : Z :=
  let '(x, r) :=
    clz_stage 1 0xC (clz_stage 2 0xF0 (clz_stage 3 0xFF00 (clz_stage 4 0xFFFF0000 (u32 a, 0)))) in
  r + Z.land (2 - x) (- b2z (Z.land x 2 =? 0)).

(** [t = ((x & mask) == 0) << e; x >>= t] *)
Definition ctz_stage (e mask : Z) '((x, r) : Z * Z) : Z * Z :=
  let t := Z.shiftl (b2z (Z.land x mask =? 0)) e in
  (Z.shiftr x t, r + t).

Definition ctzsi2 (a : Z) : Z :=
  let '(x, r) :=
    ctz_stage 1 0x3 (ctz_stage 2 0x0F (ctz_stage 3 0x00FF (ctz_stage 4 0x0000FFFF (u32 a, 0)))) in
  let x := Z.land x 3 in
  r + Z.land (2 - Z.shiftr x 1) (- b2z (Z.land x 1 =? 0)).

(** The compiler's [__builtin_clz] and [__builtin_ctz] on a nonzero [w]-bit word. *)
Definition builtin_clz (w x : Z) : Z := w - 1 - Z.log2 x.
Definition builtin_ctz (x : Z) : Z := Z.log2 (Z.land x (- x)).

Definition clz2 (h a : Z) : Z :=
  let x := dwords h a in
  let f := - b2z (high x =? 0) in
  builtin_clz h (Z.lor (Z.land (wrap h (high x)) (wrap h (Z.lnot f))) (Z.land (low x) (wrap h f))) +
  Z.land f h.
Definition clzdi2 := clz2 32.
Definition clzti2 := clz2 64.

Definition ctz2 (h a : Z) : Z :=
  let x := dwords h a in
  let f := - b2z (low x =? 0) in
  builtin_ctz (Z.lor (Z.land (wrap h (high x)) (wrap h f)) (Z.land (low x) (wrap h (Z.lnot f)))) +
  Z.land f h.
Definition ctzdi2 := ctz2 32.
Definition ctzti2 := ctz2 64.

Definition ffssi2 (a : Z) : Z := if a =? 0 then 0 else builtin_ctz (u32 a) + 1.

Definition ffs2 (h a : Z) : Z :=
  let x := dwords h a in
  if low x =? 0 then
    if high x =? 0 then 0 else builtin_ctz (wrap h (high x)) + (1 + h)
  else builtin_ctz (low x) + 1.
Definition ffsdi2 := ffs2 32.
Definition ffsti2 := ffs2 64.

(** ** Parity and byte order *)

Definition paritysi2 (a : Z) : Z :=
  let x := u32 a in
  let x := Z.lxor x (Z.shiftr x 16) in
  let x := Z.lxor x (Z.shiftr x 8) in
  let x := Z.lxor x (Z.shiftr x 4) in
  Z.land (Z.shiftr 0x6996 (Z.land x 0xF)) 1.
Definition paritydi2 (a : Z) : Z :=
  let x := dwords 32 a in paritysi2 (Z.lxor (wrap 32 (high x)) (low x)).
Definition parityti2 (a : Z) : Z :=
  let x := dwords 64 a in paritydi2 (Z.lxor (wrap 64 (high x)) (low x)).

Definition bswapsi2 (u : Z) : Z :=
  Z.lor (Z.lor (Z.lor (Z.shiftr (Z.land u 0xff000000) 24) (Z.shiftr (Z.land u 0x00ff0000) 8))
    (u32 (Z.shiftl (Z.land u 0x0000ff00) 8))) (u32 (Z.shiftl (Z.land u 0x000000ff) 24)).

Definition bswapdi2 (u : Z) : Z :=
  Z.lor (Z.lor (Z.lor (Z.lor (Z.lor (Z.lor (Z.lor
    (Z.shiftr (Z.land u 0xff00000000000000) 56)
    (Z.shiftr (Z.land u 0x00ff000000000000) 40))
    (Z.shiftr (Z.land u 0x0000ff0000000000) 24))
    (Z.shiftr (Z.land u 0x000000ff00000000) 8))
    (u64 (Z.shiftl (Z.land u 0x00000000ff000000) 8)))
    (u64 (Z.shiftl (Z.land u 0x0000000000ff0000) 24)))
    (u64 (Z.shiftl (Z.land u 0x000000000000ff00) 40)))
    (u64 (Z.shiftl (Z.land u 0x00000000000000ff) 56)).

(** ** Two-word arithmetic *)

(** A word and a signed or unsigned high word make the wrapped value. *)
Lemma join_signed h z : 0 < h ->
  join h {| low := wrap h z; high := swrap h (z / 2 ^ h) |} = swrap (2 * h) z.
Proof.
  intros Hh. unfold join, swrap, wrap. simpl.
  assert (E : 2 ^ (2 * h) = 2 ^ h * 2 ^ h) by (rewrite <- Z.pow_add_r by lia; f_equal; lia).
  assert (E1 : 2 ^ (2 * h - 1) = 2 ^ h * 2 ^ (h - 1)).
  { rewrite <- Z.pow_add_r by lia. f_equal. lia. }
  rewrite E, E1. set (H := 2 ^ h) in *. set (K := 2 ^ (h - 1)). assert (0 < H) by (subst H; lia).
  replace (z + H * K) with (K * H + z) by lia.
  rewrite Z.rem_mul_r, Z.div_add_l by lia.
  replace ((K * H + z) mod H) with (z mod H) by (rewrite Z.add_comm, Z.mod_add; lia).
  rewrite (Z.add_comm K). lia.
Qed.

Lemma join_unsigned h z : 0 < h ->
  join h {| low := wrap h z; high := wrap h (z / 2 ^ h) |} = wrap (2 * h) z.
Proof.
  intros Hh. unfold join, wrap. simpl.
  replace (2 ^ (2 * h)) with (2 ^ h * 2 ^ h) by (rewrite <- Z.pow_add_r by lia; f_equal; lia).
  rewrite Z.rem_mul_r by lia. done.
Qed.

Definition signed_range (w a : Z) : Prop := - 2 ^ (w - 1) <= a < 2 ^ (w - 1).

Lemma join_dwords h a : 0 < h -> signed_range (2 * h) a -> join h (dwords h a) = a.
Proof.
  intros Hh Ha. unfold dwords. rewrite Z.shiftr_div_pow2 by lia. rewrite join_signed by done.
  apply swrap_small; [lia|done].
Qed.

Lemma join_udwords h a : 0 < h -> 0 <= a < 2 ^ (2 * h) -> join h (udwords h a) = a.
Proof.
  intros Hh Ha. unfold udwords. rewrite Z.shiftr_div_pow2 by lia. rewrite join_unsigned by done.
  by apply wrap_small.
Qed.

Lemma low_range h a : 0 < h -> 0 <= low (dwords h a) < 2 ^ h.
Proof. intros. apply wrap_range. lia. Qed.

Lemma high_range h a : 0 < h -> signed_range h (high (dwords h a)).
Proof. intros. by apply swrap_range. Qed.

Lemma half_lt h : 0 < h -> 2 ^ h = 2 * 2 ^ (h - 1).
Proof. intros. rewrite <- Z.pow_succ_r by lia. f_equal. lia. Qed.

(** ** Shifts *)

Section words.
Context (h : Z).

Lemma pow_split b : 0 <= b <= h -> 2 ^ h = 2 ^ b * 2 ^ (h - b).
Proof. intros. rewrite <- Z.pow_add_r by lia. f_equal. lia. Qed.

(** Shifting a two-word value right by less than a word. *)
Lemma div_words hi lo b :
  0 <= b <= h -> (lo + 2 ^ h * hi) / 2 ^ b = lo / 2 ^ b + 2 ^ (h - b) * hi.
Proof.
  intros Hb. rewrite (pow_split b) by done.
  replace (lo + 2 ^ b * 2 ^ (h - b) * hi) with (lo + (2 ^ (h - b) * hi) * 2 ^ b) by lia.
  by rewrite Z.div_add by lia.
Qed.

(** Shifting left by [b] moves the top [b] bits of the low word up. *)
Lemma mul_words_div hi lo b :
  0 <= b <= h -> (lo + 2 ^ h * hi) * 2 ^ b / 2 ^ h = lo / 2 ^ (h - b) + 2 ^ b * hi.
Proof.
  intros Hb. rewrite (pow_split b) by done.
  replace ((lo + 2 ^ b * 2 ^ (h - b) * hi) * 2 ^ b)
    with (lo * 2 ^ b + (2 ^ b * hi) * (2 ^ b * 2 ^ (h - b))) by lia.
  rewrite Z.div_add by lia. rewrite (Z.mul_comm lo), Z.div_mul_cancel_l by lia. done.
Qed.

Lemma div_bound lo b : 0 <= b <= h -> 0 <= lo < 2 ^ h -> 0 <= lo / 2 ^ b < 2 ^ (h - b).
Proof.
  intros Hb Hlo. split; [apply Z.div_pos; lia|]. apply Z.div_lt_upper_bound; [lia|].
  rewrite <- pow_split by done. lia.
Qed.

End words.

Section shift.
Context (e : Z) (He : 0 < e).
Let h := 2 ^ e.

Lemma h_pos : 0 < h.
Proof. subst h. lia. Qed.

Lemma ashl_ok a b :
  signed_range (2 * h) a -> 0 <= b < 2 * h -> ashl h a b = swrap (2 * h) (a * 2 ^ b).
Proof.
  intros Ha Hb. pose proof h_pos as Hh. unfold ashl. unfold h at 1. rewrite land_word_bit by (lia || done).
  fold h. pose proof (join_dwords h a Hh Ha) as Ej. unfold join in Ej.
  pose proof (low_range h a Hh) as Hl. set (x := dwords h a) in *. clearbody x.
  destruct (Z.leb_spec h b) as [Hbh|Hbh].
  - rewrite Z.shiftl_mul_pow2 by lia. rewrite <- (join_signed h (a * 2 ^ b)) by done. unfold join.
    simpl low. simpl high.
    replace (a * 2 ^ b) with (a * 2 ^ (b - h) * 2 ^ h)
      by (rewrite <- Z.mul_assoc, <- Z.pow_add_r by lia; do 2 f_equal; lia).
    unfold wrap. rewrite Z.mod_mul, Z.div_mul by lia. f_equal. f_equal. apply swrap_eq; [done|].
    rewrite <- Ej. rewrite <- Z.mul_mod_idemp_l, <- (Z.mul_mod_idemp_l (_ + _)) by lia.
    do 2 f_equal. rewrite (Z.mul_comm (2 ^ h)), Z.mod_add by lia. done.
  - destruct (Z.eqb_spec b 0) as [->|Hb0].
    { rewrite Z.mul_1_r. symmetry. apply swrap_small; [lia|done]. }
    rewrite <- (join_signed h (a * 2 ^ b)) by done. unfold join at 1 2. simpl low. simpl high.
    rewrite !Z.shiftl_mul_pow2, Z.shiftr_div_pow2 by lia.
    replace (a * 2 ^ b / 2 ^ h) with (low x / 2 ^ (h - b) + 2 ^ b * high x)
      by (rewrite <- mul_words_div by lia; by rewrite Ej).
    rewrite (Z.mul_comm (high _)), Z.lor_comm.
    rewrite lor_disjoint_add by (lia || (replace b with (h - (h - b)) at 3 by lia; apply div_bound; lia)).
    f_equal. unfold wrap. rewrite <- Z.mul_mod_idemp_l, <- (Z.mul_mod_idemp_l a) by lia.
    do 2 f_equal. rewrite <- Ej. rewrite (Z.mul_comm (2 ^ h)), Z.mod_add by lia. done.
Qed.

Lemma lshr_ok a b :
  0 <= a < 2 ^ (2 * h) -> 0 <= b < 2 * h -> lshr h a b = a / 2 ^ b.
Proof.
  intros Ha Hb. pose proof h_pos as Hh. unfold lshr. unfold h at 1. rewrite land_word_bit by (lia || done).
  fold h. pose proof (join_udwords h a Hh Ha) as Ej. unfold join in Ej.
  assert (Hl : 0 <= low (udwords h a) < 2 ^ h) by (apply wrap_range; lia).
  assert (Hi : 0 <= high (udwords h a) < 2 ^ h) by (apply wrap_range; lia).
  set (x := udwords h a) in *. clearbody x.
  destruct (Z.leb_spec h b) as [Hbh|Hbh].
  - rewrite Z.shiftr_div_pow2 by lia. unfold join. simpl.
    replace (2 ^ b) with (2 ^ h * 2 ^ (b - h)) by (rewrite <- Z.pow_add_r by lia; f_equal; lia).
    rewrite <- Z.div_div by lia. rewrite <- Ej.
    rewrite (Z.mul_comm (2 ^ h) (high x)), Z.div_add, (Z.div_small (low _)), Z.add_0_l by lia. lia.
  - destruct (Z.eqb_spec b 0) as [->|Hb0]; [by rewrite Z.div_1_r|].
    unfold join. simpl. rewrite Z.shiftl_mul_pow2, !Z.shiftr_div_pow2 by lia.
    rewrite <- Ej. rewrite div_words by lia.
    set (hi := high x) in *. set (lo := low x) in *.
    unfold wrap. rewrite (Z.mul_comm hi), (pow_split h b), (Z.mul_comm (2 ^ b)) by lia.
    rewrite Z.mul_mod_distr_l, Z.lor_comm by lia.
    rewrite lor_disjoint_add by (lia || (apply div_bound; lia)).
    rewrite (Z.div_mod hi (2 ^ b)) at 3 by lia. lia.
Qed.

Lemma ashr_ok a b :
  signed_range (2 * h) a -> 0 <= b < 2 * h -> ashr h a b = a / 2 ^ b.
Proof.
  intros Ha Hb. pose proof h_pos as Hh. unfold ashr. unfold h at 1. rewrite land_word_bit by (lia || done).
  fold h. pose proof (join_dwords h a Hh Ha) as Ej. unfold join in Ej.
  pose proof (low_range h a Hh) as Hl. pose proof (high_range h a Hh) as Hi. unfold signed_range in Hi.
  pose proof (half_lt h Hh) as Hhalf. set (x := dwords h a) in *. clearbody x.
  destruct (Z.leb_spec h b) as [Hbh|Hbh].
  - rewrite !Z.shiftr_div_pow2 by lia. unfold join. simpl.
    replace (2 ^ b) with (2 ^ h * 2 ^ (b - h)) by (rewrite <- Z.pow_add_r by lia; f_equal; lia).
    rewrite <- Z.div_div by lia. rewrite <- Ej.
    rewrite (Z.mul_comm (2 ^ h) (high x)), Z.div_add, (Z.div_small (low _)), Z.add_0_l by lia.
    set (hi := high x) in *.
    assert (Hpow : 1 <= 2 ^ (b - h)) by (pose proof (Z.pow_pos_nonneg 2 (b - h)); lia).
    assert (Hq : - 2 ^ (h - 1) <= hi / 2 ^ (b - h) < 2 ^ (h - 1)).
    { split; [apply Z.div_le_lower_bound; nia|apply Z.div_lt_upper_bound; nia]. }
    assert (Hs : (hi < 0 /\ hi / 2 ^ (h - 1) = -1 /\ hi / 2 ^ (b - h) < 0) \/
                 (0 <= hi /\ hi / 2 ^ (h - 1) = 0 /\ 0 <= hi / 2 ^ (b - h))).
    { destruct (Z.lt_ge_cases hi 0) as [Hn|Hn]; [left|right]; (split; [done|split]).
      - symmetry. apply (Z.div_unique_pos hi _ (-1) (hi + 2 ^ (h - 1))); lia.
      - apply Z.div_lt_upper_bound; lia.
      - apply Z.div_small. lia.
      - apply Z.div_pos; lia. }
    unfold wrap. set (q := hi / 2 ^ (b - h)) in *. clearbody q.
    destruct Hs as [(_ & -> & Hq0)|(_ & -> & Hq0)].
    + replace (q mod 2 ^ h) with (q + 2 ^ h); [lia|].
      rewrite <- (Z.mod_add q 1) by lia. rewrite Z.mod_small; lia.
    + rewrite Z.mod_small; lia.
  - destruct (Z.eqb_spec b 0) as [->|Hb0]; [by rewrite Z.div_1_r|].
    unfold join. simpl. rewrite Z.shiftl_mul_pow2, !Z.shiftr_div_pow2 by lia.
    rewrite <- Ej. rewrite div_words by lia.
    set (hi := high x) in *. set (lo := low x) in *.
    rewrite (Z.mul_comm hi), Z.lor_comm.
    rewrite lor_disjoint_add by (lia || (apply div_bound; lia)).
    pose proof (div_bound h lo b ltac:(lia) Hl) as Hlb. unfold wrap. rewrite (pow_split h b) by lia.
    pose proof (Z.mod_pos_bound hi (2 ^ b) ltac:(lia)) as Hm.
    pose proof (Z.div_mod hi (2 ^ b) ltac:(lia)) as Ed.
    set (q := hi / 2 ^ b) in *. set (r := hi mod 2 ^ b) in *. clearbody q r.
    replace (lo / 2 ^ b + 2 ^ (h - b) * hi)
      with (lo / 2 ^ b + 2 ^ (h - b) * r + q * (2 ^ b * 2 ^ (h - b))) by (rewrite Ed; ring).
    rewrite Z.mod_add by lia. rewrite Z.mod_small by nia. lia.
Qed.
End shift.

(** ** Comparisons *)

Definition ordering_code (c : comparison) : Z :=
  match c with Lt => 0 | Eq => 1 | Gt => 2 end.

Lemma cmp_words_ok h x y : 0 < h -> 0 <= low x < 2 ^ h -> 0 <= low y < 2 ^ h ->
  cmp_words x y = ordering_code (join h x ?= join h y).
Proof.
  intros Hh Hx Hy. unfold cmp_words, join.
  destruct (Z.ltb_spec (high x) (high y)); [rewrite (proj2 (Z.compare_lt_iff _ _)) by nia; done|].
  destruct (Z.ltb_spec (high y) (high x)); [rewrite (proj2 (Z.compare_gt_iff _ _)) by nia; done|].
  assert (high x = high y) as -> by lia.
  destruct (Z.ltb_spec (low x) (low y)); [rewrite (proj2 (Z.compare_lt_iff _ _)) by lia; done|].
  destruct (Z.ltb_spec (low y) (low x)); [rewrite (proj2 (Z.compare_gt_iff _ _)) by lia; done|].
  by rewrite (proj2 (Z.compare_eq_iff _ _)) by lia.
Qed.

(** ** Trapping arithmetic *)

Section width.
Context (w : Z) (Hw : 1 < w).
Implicit Types a b : Z.

Lemma sign_of_ok a : signed_range w a -> sign_of w a = if a <? 0 then -1 else 0.
Proof.
  intros [H1 H2]. unfold sign_of. rewrite Z.shiftr_div_pow2 by lia.
  destruct (Z.ltb_spec a 0).
  - symmetry. apply (Z.div_unique_pos a _ (-1) (a + 2 ^ (w - 1))); lia.
  - apply Z.div_small. lia.
Qed.

(** [(a ^ s) - s] with [s] the sign mask is the absolute value. *)
Lemma mask_neg a (n : bool) : Z.lxor a (if n then -1 else 0) - (if n then -1 else 0) = if n then - a else a.
Proof. destruct n; [rewrite Z.lxor_m1_r; unfold Z.lnot; lia|rewrite Z.lxor_0_r; lia]. Qed.

Lemma abs_of_ok a : signed_range w a -> abs_of w a = Z.abs a.
Proof.
  intros Ha. unfold abs_of. rewrite sign_of_ok, mask_neg by done.
  destruct (Z.ltb_spec a 0); lia.
Qed.

Lemma pow_word : 2 ^ w = 2 * 2 ^ (w - 1) /\ 0 < 2 ^ (w - 1).
Proof. split; [apply half_lt; lia|lia]. Qed.

Lemma swrap_cases z : - 2 ^ w <= z < 2 ^ w ->
  swrap w z = if z <? - 2 ^ (w - 1) then z + 2 ^ w else if z <? 2 ^ (w - 1) then z else z - 2 ^ w.
Proof.
  intros Hz. destruct pow_word as [E Hp].
  assert (H : forall k, - 2 ^ (w - 1) <= z + 2 ^ w * k < 2 ^ (w - 1) -> swrap w z = z + 2 ^ w * k).
  { intros k Hk. rewrite <- (swrap_small w (z + 2 ^ w * k)) by lia. apply swrap_eq; [lia|].
    rewrite (Z.mul_comm (2 ^ w)), Z.mod_add; lia. }
  repeat bcase; [rewrite (H 1)|rewrite (H 0)|rewrite (H (-1))]; lia.
Qed.

Lemma add_wrapped a b : swrap w (wrap w (wrap w a + wrap w b)) = swrap w (a + b).
Proof.
  apply swrap_eq; [lia|]. unfold wrap. rewrite Z.mod_mod by lia. symmetry. apply Z.add_mod. lia.
Qed.

Lemma sub_wrapped a b : swrap w (wrap w (wrap w a - wrap w b)) = swrap w (a - b).
Proof.
  apply swrap_eq; [lia|]. unfold wrap. rewrite Z.mod_mod by lia. symmetry. apply Zminus_mod.
Qed.

Definition in_range (z : Z) : bool := (min_of w <=? z) && (z <=? max_of w).

Lemma addv_ok a b : signed_range w a -> signed_range w b ->
  addv w a b = if in_range (a + b) then Some (a + b) else None.
Proof.
  unfold signed_range, addv, in_range, min_of, max_of. intros Ha Hb. destruct pow_word as [E Hp].
  rewrite add_wrapped, swrap_cases by lia.
  repeat (bcase; simpl; try lia); f_equal; lia.
Qed.

Lemma subv_ok a b : signed_range w a -> signed_range w b ->
  subv w a b = if in_range (a - b) then Some (a - b) else None.
Proof.
  unfold signed_range, subv, in_range, min_of, max_of. intros Ha Hb. destruct pow_word as [E Hp].
  rewrite sub_wrapped, swrap_cases by lia.
  repeat (bcase; simpl; try lia); f_equal; lia.
Qed.

Lemma negv_ok a : signed_range w a -> negv w a = if in_range (- a) then Some (- a) else None.
Proof.
  unfold signed_range, negv, in_range, min_of, max_of. intros Ha. destruct pow_word as [E Hp].
  repeat (bcase; simpl; try lia); f_equal; lia.
Qed.

Lemma absv_ok a : signed_range w a -> absv w a = if in_range (Z.abs a) then Some (Z.abs a) else None.
Proof.
  intros Ha. unfold absv. rewrite abs_of_ok by done. revert Ha.
  unfold signed_range, in_range, min_of, max_of. intros Ha. destruct pow_word as [E Hp].
  repeat (bcase; simpl; try lia); f_equal; lia.
Qed.

(** The division test of [__mulv] and [__mulo] is exact. *)
Lemma mul_test (M x y : Z) : 0 <= M -> 0 <= x -> 0 < y -> (Z.quot M y <? x) = (M <? x * y).
Proof.
  intros HM Hx Hy. rewrite Z.quot_div_nonneg by lia.
  destruct (Z.ltb_spec (M / y) x) as [H|H], (Z.ltb_spec M (x * y)) as [H'|H']; try done; exfalso.
  - assert (x <= M / y) by (apply Z.div_le_lower_bound; lia). lia.
  - assert (M / y < x) by (apply Z.div_lt_upper_bound; lia). lia.
Qed.

Lemma mul_overflow a b :
  signed_range w a -> signed_range w b -> a <> min_of w -> b <> min_of w ->
  2 <= Z.abs a -> 2 <= Z.abs b ->
  (if sign_of w a =? sign_of w b then Z.quot (Z.lnot (min_of w)) (Z.abs b) <? Z.abs a
   else Z.quot (min_of w) (- Z.abs b) <? Z.abs a) = negb (in_range (a * b)).
Proof.
  intros Ha Hb HaM HbM Ha2 Hb2. rewrite !sign_of_ok by done. unfold in_range, min_of, max_of.
  destruct pow_word as [E Hp]. set (P := 2 ^ (w - 1)) in *.
  assert (Hsign : a * b = Z.abs a * Z.abs b /\ (a <? 0) = (b <? 0) \/
                  a * b = - (Z.abs a * Z.abs b) /\ (a <? 0) <> (b <? 0)).
  { destruct (Z.ltb_spec a 0), (Z.ltb_spec b 0); [left|right|right|left]; split; (done || nia). }
  assert (0 <= Z.abs a * Z.abs b) by nia.
  destruct Hsign as [[-> ->]|[-> Hne]].
  - rewrite Z.eqb_refl. replace (Z.lnot (- P)) with (P - 1) by (unfold Z.lnot; lia).
    rewrite mul_test by lia. repeat bcase; simpl; lia.
  - replace ((if a <? 0 then -1 else 0) =? (if b <? 0 then -1 else 0)) with false
      by (destruct (a <? 0), (b <? 0); done).
    rewrite Z.quot_opp_opp by lia. rewrite mul_test by lia. repeat bcase; simpl; lia.
Qed.

Lemma mulv_ok a b : signed_range w a -> signed_range w b ->
  mulv w a b = if in_range (a * b) then Some (a * b) else None.
Proof.
  intros Ha Hb. destruct pow_word as [E Hp]. unfold mulv. rewrite !abs_of_ok by done.
  assert (Hbig : forall x y, x = min_of w -> y <> 0 -> y <> 1 -> in_range (x * y) = false).
  { intros x y -> Hy0 Hy1. unfold in_range, min_of, max_of. apply andb_false_iff.
    rewrite !Z.leb_gt. nia. }
  assert (Hin : forall x, signed_range w x -> in_range x = true).
  { intros x [??]. unfold in_range, min_of, max_of. apply andb_true_iff. rewrite !Z.leb_le. lia. }
  assert (Hsmall : forall x y, signed_range w x -> x <> min_of w -> Z.abs y < 2 -> in_range (x * y) = true).
  { intros x y Hx HxM Hy. apply Hin. unfold signed_range, min_of in *.
    assert (y = -1 \/ y = 0 \/ y = 1) as Hc by lia. destruct_or! Hc; subst y; lia. }
  destruct (Z.eqb_spec a (min_of w)) as [EaM|HaM].
  { destruct (Z.eqb_spec b 0), (Z.eqb_spec b 1); simpl; [lia| | |by rewrite (Hbig a b)];
      rewrite Hin; [done| |done|]; unfold signed_range in *; subst b; lia. }
  destruct (Z.eqb_spec b (min_of w)) as [EbM|HbM].
  { rewrite (Z.mul_comm a b).
    destruct (Z.eqb_spec a 0), (Z.eqb_spec a 1); simpl; [lia| | |by rewrite (Hbig b a)];
      rewrite Hin; [done| |done|]; unfold signed_range in *; subst a; lia. }
  destruct (Z.ltb_spec (Z.abs a) 2); simpl; [by rewrite Z.mul_comm, Hsmall by done|].
  destruct (Z.ltb_spec (Z.abs b) 2); simpl; [by rewrite Hsmall by done|].
  pose proof (mul_overflow a b Ha Hb HaM HbM ltac:(lia) ltac:(lia)) as H2.
  destruct (sign_of w a =? sign_of w b); rewrite H2; by destruct (in_range (a * b)).
Qed.

(** [__mulo] returns what [__mulv] returns, or the wrapped product and the flag. *)
Lemma mulo_mulv a b : signed_range w a -> signed_range w b ->
  mulo w a b = (swrap w (a * b), match mulv w a b with Some _ => 0 | None => 1 end).
Proof.
  intros Ha Hb. unfold mulo, mulv.
  destruct (a =? min_of w); [by destruct (b =? 0), (b =? 1)|].
  destruct (b =? min_of w); [by destruct (a =? 0), (a =? 1)|].
  destruct (_ || _); [done|].
  destruct (sign_of w a =? sign_of w b); by case_match.
Qed.
End width.

(** ** Multiplication *)

Lemma land_mask k x : 0 <= k -> Z.land x (Z.shiftr (2 ^ (2 * k) - 1) k) = x mod 2 ^ k.
Proof.
  intros Hk. rewrite <- Z.land_ones by lia. f_equal. unfold Z.ones.
  rewrite Z.shiftl_1_l, Z.shiftr_div_pow2 by lia.
  replace (2 ^ (2 * k)) with (2 ^ k * 2 ^ k) by (rewrite <- Z.pow_add_r by lia; f_equal; lia).
  symmetry. apply (Z.div_unique_pos _ _ _ (2 ^ k - 1)); lia.
Qed.

(** The four partial products of the schoolbook method, with [K] the half-word
    base: no addition of a carry overflows a word. *)
Lemma schoolbook K p q r s :
  2 <= K -> 0 <= p <= (K - 1) * (K - 1) -> 0 <= q <= (K - 1) * (K - 1) ->
  0 <= r <= (K - 1) * (K - 1) ->
  let t1 := p / K + q in
  let l1 := p mod K + t1 mod K * K in
  let t2 := l1 / K + r in
  let l2 := l1 mod K + t2 mod K * K in
  0 <= t1 < K * K /\ 0 <= l1 < K * K /\ 0 <= t2 < K * K /\ 0 <= l2 < K * K /\
  l2 + K * K * (t1 / K + t2 / K + s) = p + K * (q + r) + K * K * s.
Proof.
  intros HK Hp Hq Hr t1 l1 t2 l2.
  pose proof (Z.div_mod p K ltac:(lia)). pose proof (Z.mod_pos_bound p K ltac:(lia)).
  assert (p / K <= K - 2) by (apply Z.lt_succ_r, Z.div_lt_upper_bound; nia).
  assert (0 <= p / K) by (apply Z.div_pos; lia).
  assert (Ht1 : 0 <= t1 < K * K) by (subst t1; nia).
  pose proof (Z.div_mod t1 K ltac:(lia)). pose proof (Z.mod_pos_bound t1 K ltac:(lia)).
  assert (Hl1 : 0 <= l1 < K * K) by (subst l1; nia).
  assert (El1 : l1 / K = t1 mod K).
  { symmetry. apply (Z.div_unique_pos _ _ _ (p mod K)); [lia|]. subst l1. lia. }
  assert (Em1 : l1 mod K = p mod K).
  { symmetry. apply (Z.mod_unique_pos _ _ (t1 mod K)); [lia|]. subst l1. lia. }
  assert (Ht2 : 0 <= t2 < K * K) by (subst t2; rewrite El1; nia).
  pose proof (Z.div_mod t2 K ltac:(lia)). pose proof (Z.mod_pos_bound t2 K ltac:(lia)).
  assert (El2 : l2 = p mod K + t2 mod K * K) by (subst l2; by rewrite Em1).
  assert (Hl2 : 0 <= l2 < K * K) by (rewrite El2; nia).
  repeat (split; [done|]).
  assert (K * K * (t1 / K) = K * (t1 - t1 mod K)) by nia.
  assert (K * K * (t2 / K) = K * (t2 - t2 mod K)) by nia.
  assert (t2 = t1 mod K + r) by (subst t2; by rewrite El1).
  rewrite El2. subst t1. nia.
Qed.

Section mul.
Context (k : Z) (Hk : 1 <= k).
Let h := 2 * k.

Lemma pow_h : 2 ^ h = 2 ^ k * 2 ^ k.
Proof. subst h. rewrite <- Z.pow_add_r by lia. f_equal. lia. Qed.

Lemma mask_h x : Z.land x (Z.shiftr (2 ^ h - 1) k) = x mod 2 ^ k.
Proof. apply land_mask. lia. Qed.

Lemma mul_words_ok a b :
  0 <= a < 2 ^ h -> 0 <= b < 2 ^ h ->
  low (mul_words h a b) = wrap h (a * b) /\ high (mul_words h a b) = swrap h (a * b / 2 ^ h).
Proof.
  intros Ha Hb. unfold mul_words. replace (h / 2) with k by (subst h; divmod).
  rewrite !mask_h.
  rewrite !Z.shiftr_div_pow2, !Z.shiftl_mul_pow2 by lia.
  pose proof pow_h as Eh. assert (HK : 2 <= 2 ^ k) by (apply (Z.pow_le_mono_r 2 1); lia).
  pose proof (Z.mod_pos_bound a (2 ^ k) ltac:(lia)). pose proof (Z.mod_pos_bound b (2 ^ k) ltac:(lia)).
  assert (0 <= a / 2 ^ k < 2 ^ k).
  { split; [apply Z.div_pos; lia|apply Z.div_lt_upper_bound; lia]. }
  assert (0 <= b / 2 ^ k < 2 ^ k).
  { split; [apply Z.div_pos; lia|apply Z.div_lt_upper_bound; lia]. }
  pose proof (Z.div_mod a (2 ^ k) ltac:(lia)) as Ea. pose proof (Z.div_mod b (2 ^ k) ltac:(lia)) as Eb.
  set (K := 2 ^ k) in *. set (al := a mod K) in *. set (ah := a / K) in *.
  set (bl := b mod K) in *. set (bh := b / K) in *.
  destruct (schoolbook K (al * bl) (ah * bl) (bh * al) (ah * bh) HK) as (Ht1 & Hl1 & Ht2 & Hl2 & E);
    [nia..|].
  assert (Hs : forall z, 0 <= z < K * K -> wrap h z = z) by (intros; apply wrap_small; lia).
  assert (Hm : forall z, z mod K * K < K * K /\ 0 <= z mod K * K).
  { intros z. pose proof (Z.mod_pos_bound z K ltac:(lia)). nia. }
  rewrite !(Hs (al * bl)), !(Hs (ah * bl)), !(Hs (bh * al)), !(Hs (ah * bh)) by nia.
  rewrite !(Hs (al * bl / K + ah * bl)) by done.
  rewrite !(Hs (_ mod K * K)) by (split; apply Hm).
  rewrite !(Hs (al * bl mod K + _)) by done.
  rewrite !(Hs (_ / K + bh * al)) by done.
  rewrite !(Hs (_ mod K + _)) by done.
  set (t1 := al * bl / K + ah * bl) in *. set (l1 := al * bl mod K + t1 mod K * K) in *.
  set (t2 := l1 / K + bh * al) in *. set (l2 := l1 mod K + t2 mod K * K) in *.
  cbn [low high].
  assert (Eab : a * b = l2 + (t1 / K + t2 / K + ah * bh) * (K * K)).
  { rewrite Ea at 1. rewrite Eb at 1. lia. }
  assert (HKK : 0 < K * K) by nia. clearbody l2 t1 t2 l1 al ah bl bh K.
  rewrite Eab, Eh. unfold wrap. rewrite Eh, Z.mod_add, Z.mod_small, Z.div_add, (Z.div_small l2) by lia.
  split; [done|]. apply swrap_eq; [lia|]. rewrite Z.add_0_l.
  rewrite <- Z.add_mod_idemp_l, swrap_mod, Z.add_mod_idemp_l by lia. done.
Qed.

Lemma mul_ok a b :
  signed_range (2 * h) a -> signed_range (2 * h) b -> mul h a b = swrap (2 * h) (a * b).
Proof.
  intros Ha Hb. assert (Hh : 0 < h) by lia. unfold mul.
  pose proof (join_dwords h a Hh Ha) as Ea. pose proof (join_dwords h b Hh Hb) as Eb. unfold join in Ea, Eb.
  pose proof (low_range h a Hh) as Hla. pose proof (low_range h b Hh) as Hlb.
  set (x := dwords h a) in *. set (y := dwords h b) in *. clearbody x y.
  destruct (mul_words_ok (low x) (low y) Hla Hlb) as [-> ->].
  rewrite <- (join_signed h (a * b)) by done. f_equal. f_equal.
  - apply swrap_eq; [done|]. unfold wrap.
    rewrite <- Z.add_mod_idemp_l, swrap_mod by lia.
    rewrite <- (Z.add_mod (high x * low y)), <- Z.add_mod by lia.
    assert (Hab : a * b / 2 ^ h =
      low x * low y / 2 ^ h + (high x * low y + low x * high y) + high x * high y * 2 ^ h).
    { rewrite <- Ea, <- Eb.
      replace ((low x + 2 ^ h * high x) * (low y + 2 ^ h * high y))
        with (low x * low y +
          (high x * low y + low x * high y + high x * high y * 2 ^ h) * 2 ^ h) by ring.
      rewrite Z.div_add by lia. lia. }
    by rewrite Hab, Z.mod_add by lia.
  - unfold wrap. rewrite <- Ea, <- Eb.
    replace ((low x + 2 ^ h * high x) * (low y + 2 ^ h * high y))
      with (low x * low y +
        (high x * low y + low x * high y + high x * high y * 2 ^ h) * 2 ^ h) by ring.
    by rewrite Z.mod_add by lia.
Qed.
End mul.

(** ** Counting bits *)

Lemma land_high_mask k x : 0 <= k -> 0 <= x < 2 ^ (2 * k) ->
  Z.land x (2 ^ (2 * k) - 2 ^ k) = 2 ^ k * (x / 2 ^ k).
Proof.
  intros Hk Hx.
  assert (E2 : 2 ^ (2 * k) = 2 ^ k * 2 ^ k) by (rewrite <- Z.pow_add_r by lia; f_equal; lia).
  pose proof (Z.mod_pos_bound x (2 ^ k) ltac:(lia)) as Hm.
  assert (Hq : 0 <= x / 2 ^ k < 2 ^ k) by (split; [apply Z.div_pos; lia|apply Z.div_lt_upper_bound; lia]).
  replace (2 ^ (2 * k) - 2 ^ k) with (0 + 2 ^ k * Z.ones k) by (unfold Z.ones; rewrite Z.shiftl_1_l; lia).
  replace x with (x mod 2 ^ k + 2 ^ k * (x / 2 ^ k)) at 1 by (pose proof (Z.div_mod x (2 ^ k)); lia).
  rewrite land_split, Z.land_0_r, Z.land_ones, (Z.mod_small (x / 2 ^ k)) by lia. done.
Qed.

(** One stage of [__clzsi2]: the number of leading zeros of [x] in [2k] bits is
    the stage's [t] and the number of leading zeros of the new [x] in [k] bits. *)
Lemma clz_stage_ok e x r x' r' :
  0 <= e -> let k := 2 ^ e in
  0 < x < 2 ^ (2 * k) -> clz_stage e (2 ^ (2 * k) - 2 ^ k) (x, r) = (x', r') ->
  0 < x' < 2 ^ k /\ r' + builtin_clz k x' = r + builtin_clz (2 * k) x.
Proof.
  intros He k Hx. assert (Hk : 1 <= k) by (subst k; pose proof (Z.pow_pos_nonneg 2 e); lia).
  assert (E2 : 2 ^ (2 * k) = 2 ^ k * 2 ^ k) by (rewrite <- Z.pow_add_r by lia; f_equal; lia).
  set (K := 2 ^ k) in *. assert (HK : 0 < K) by (subst K; lia).
  assert (Hdm : x = x mod K + K * (x / K)) by (pose proof (Z.div_mod x K); lia).
  pose proof (Z.mod_pos_bound x K HK) as Hm.
  assert (Hq : 0 <= x / K < K) by (split; [apply Z.div_pos; lia|apply Z.div_lt_upper_bound; lia]).
  assert (El : Z.land x (2 ^ (2 * k) - K) = K * (x / K)) by (apply land_high_mask; lia).
  unfold clz_stage. rewrite El. fold k.
  destruct (Z.eqb_spec (K * (x / K)) 0) as [E0|E0]; simpl b2z.
  - rewrite Z.shiftl_1_l. fold k. rewrite Z.sub_diag, Z.shiftr_0_r. intros [= <- <-].
    assert (x / K = 0) by nia. split; [lia|]. unfold builtin_clz. lia.
  - rewrite Z.shiftl_0_l, Z.sub_0_r, Z.shiftr_div_pow2 by lia. fold K. intros [= <- <-].
    assert (0 < x / K) by nia. split; [lia|]. unfold builtin_clz.
    unfold K. rewrite <- Z.shiftr_div_pow2, Z.log2_shiftr by lia.
    enough (k <= Z.log2 x) by lia. apply (Z.log2_le_pow2 x k); fold K; nia.
Qed.

Lemma clzsi2_ok a : 0 < u32 a -> clzsi2 a = builtin_clz 32 (u32 a).
Proof.
  intros Ha. pose proof (wrap_range 32 a ltac:(lia)) as Hr. unfold clzsi2.
  set (x := u32 a) in *. clearbody x. clear a.
  destruct (clz_stage 4 _ _) as [x4 r4] eqn:E4.
  apply (clz_stage_ok 4) in E4 as [H4 C4]; [|lia|split; [lia|apply Hr]].
  destruct (clz_stage 3 _ _) as [x3 r3] eqn:E3.
  apply (clz_stage_ok 3) in E3 as [H3 C3]; [|lia|exact H4].
  destruct (clz_stage 2 _ _) as [x2 r2] eqn:E2.
  apply (clz_stage_ok 2) in E2 as [H2 C2]; [|lia|exact H3].
  destruct (clz_stage 1 _ _) as [x1 r1] eqn:E1.
  apply (clz_stage_ok 1) in E1 as [H1 C1]; [|lia|exact H2].
  change (2 ^ (2 ^ 1)) with 4 in *.
  change (2 ^ 4) with 16 in *. change (2 * 16) with 32 in *. change (2 ^ 3) with 8 in *.
  change (2 * 8) with 16 in *. change (2 ^ 2) with 4 in *. change (2 * 4) with 8 in *.
  change (2 ^ 1) with 2 in *. change (2 * 2) with 4 in *.
  assert (r1 + builtin_clz 2 x1 = builtin_clz 32 x) as <- by lia. f_equal. clear - H1.
  assert (x1 = 1 \/ x1 = 2 \/ x1 = 3) as Hc by lia. by destruct_or! Hc; subst x1.
Qed.

(** [c] trailing zeros: [x] is an odd multiple of [2^c]. *)
Definition trailing (x c : Z) : Prop := 0 <= c /\ exists m, x = 2 ^ c * (2 * m + 1).

Lemma trailing_exists x : x <> 0 -> exists c, trailing x c.
Proof.
  assert (Hpos : forall p, exists c, trailing (Zpos p) c).
  { intros p. induction p as [p IH|p (c & Hc & m & E)|].
    - exists 0. split; [lia|]. exists (Zpos p). lia.
    - exists (c + 1). split; [lia|]. exists m. rewrite Z.pow_add_r by lia. lia.
    - exists 0. split; [lia|]. by exists 0. }
  intros Hx. destruct x as [|p|p]; [done|apply Hpos|].
  destruct (Hpos p) as (c & Hc & m & E). exists c. split; [done|]. exists (- m - 1). lia.
Qed.

Lemma trailing_ctz x c : trailing x c -> builtin_ctz x = c.
Proof.
  intros (Hc & m & ->). unfold builtin_ctz.
  assert (Hodd : Z.land (2 * m + 1) (- (2 * m + 1)) = 1).
  { replace (2 * m + 1) with (1 + 2 ^ 1 * m) at 1 by lia.
    replace (- (2 * m + 1)) with (1 + 2 ^ 1 * Z.lnot m) by (unfold Z.lnot; lia).
    rewrite land_split by lia. by rewrite Z.land_lnot_diag. }
  replace (- (2 ^ c * (2 * m + 1))) with (- (2 * m + 1) * 2 ^ c) by lia.
  rewrite (Z.mul_comm (2 ^ c)), <- !Z.shiftl_mul_pow2, <- Z.shiftl_land, Hodd by lia.
  rewrite Z.shiftl_1_l. by apply Z.log2_pow2.
Qed.

Lemma trailing_mod x c k : 0 <= k -> trailing x c -> (x mod 2 ^ k = 0 <-> k <= c).
Proof.
  intros Hk (Hc & m & ->). split.
  - intros E. destruct (Z.le_gt_cases k c) as [|Hlt]; [done|]. exfalso.
    apply Z.mod_divide in E as [q E]; [|lia].
    replace (2 ^ k) with (2 ^ c * (2 * 2 ^ (k - c - 1))) in E.
    2:{ rewrite <- Z.pow_succ_r, <- Z.pow_add_r by lia. f_equal. lia. }
    assert (2 ^ c * (2 * m + 1 - 2 * (q * 2 ^ (k - c - 1))) = 0) as E0 by lia.
    apply Z.mul_eq_0 in E0. destruct E0 as [E0|E0]; [|lia].
    pose proof (Z.pow_pos_nonneg 2 c). lia.
  - intros Hle. replace (2 ^ c) with (2 ^ (c - k) * 2 ^ k)
      by (rewrite <- Z.pow_add_r by lia; f_equal; lia).
    replace (2 ^ (c - k) * 2 ^ k * (2 * m + 1)) with (2 ^ (c - k) * (2 * m + 1) * 2 ^ k) by lia.
    apply Z.mod_mul. lia.
Qed.

Lemma trailing_div x c k : 0 <= k <= c -> trailing x c -> trailing (x / 2 ^ k) (c - k).
Proof.
  intros Hk (Hc & m & ->). split; [lia|]. exists m.
  replace (2 ^ c) with (2 ^ (c - k) * 2 ^ k) by (rewrite <- Z.pow_add_r by lia; f_equal; lia).
  replace (2 ^ (c - k) * 2 ^ k * (2 * m + 1)) with (2 ^ (c - k) * (2 * m + 1) * 2 ^ k) by lia.
  apply Z.div_mul. lia.
Qed.

Lemma trailing_wrap w x c : c < w -> trailing x c -> trailing (wrap w x) c.
Proof.
  intros Hw (Hc & m & ->). split; [done|]. unfold wrap.
  replace (2 ^ w) with (2 ^ c * (2 * 2 ^ (w - c - 1))).
  2:{ rewrite <- Z.pow_succ_r, <- Z.pow_add_r by lia. f_equal. lia. }
  rewrite Z.mul_mod_distr_l by lia. set (P := 2 ^ (w - c - 1)). assert (0 < P) by (subst P; lia).
  exists (m mod P). f_equal.
  symmetry. apply (Z.mod_unique_pos _ _ (m / P)).
  - pose proof (Z.mod_pos_bound m P). lia.
  - pose proof (Z.div_mod m P). lia.
Qed.

Lemma ctz_stage_ok e x r x' r' c :
  0 <= e -> let k := 2 ^ e in
  trailing x c -> c < 2 * k -> ctz_stage e (2 ^ k - 1) (x, r) = (x', r') ->
  trailing x' (c - (r' - r)) /\ c - (r' - r) < k.
Proof.
  intros He k Hx Hc. assert (Hk : 1 <= k) by (subst k; pose proof (Z.pow_pos_nonneg 2 e); lia).
  unfold ctz_stage.
  replace (2 ^ k - 1) with (Z.ones k) by (unfold Z.ones; rewrite Z.shiftl_1_l; lia).
  rewrite Z.land_ones by lia. pose proof (trailing_mod x c k ltac:(lia) Hx) as Hm.
  destruct (Z.eqb_spec (x mod 2 ^ k) 0) as [E0|E0]; simpl b2z.
  - rewrite Z.shiftl_1_l. fold k. rewrite Z.shiftr_div_pow2 by lia. intros [= <- <-].
    apply Hm in E0. replace (c - (r + k - r)) with (c - k) by lia. split; [|lia].
    apply trailing_div; [lia|done].
  - rewrite Z.shiftl_0_l, Z.shiftr_0_r. intros [= <- <-].
    replace (c - (r + 0 - r)) with c by lia. split; [done|].
    destruct (Z.le_gt_cases k c); [|done]. exfalso. by apply E0, Hm.
Qed.

Lemma ctzsi2_ok a : 0 < u32 a -> ctzsi2 a = builtin_ctz (u32 a).
Proof.
  intros Ha. pose proof (wrap_range 32 a ltac:(lia)) as Hr. unfold ctzsi2.
  set (x := u32 a) in *. clearbody x. clear a.
  destruct (trailing_exists x ltac:(lia)) as (c & Hx). rewrite (trailing_ctz _ _ Hx).
  assert (Hc : c < 2 * 2 ^ 4).
  { destruct (Z.le_gt_cases 32 c) as [H32|]; [|lia]. exfalso.
    apply (trailing_mod x c 32) in H32; [|lia|done]. rewrite Z.mod_small in H32; lia. }
  destruct (ctz_stage 4 _ _) as [x4 r4] eqn:E4.
  apply (ctz_stage_ok 4 _ _ _ _ c) in E4 as [H4 C4]; [|lia|done|lia].
  destruct (ctz_stage 3 _ _) as [x3 r3] eqn:E3.
  eapply (ctz_stage_ok 3) in E3 as [H3 C3]; [|lia|exact H4|lia].
  destruct (ctz_stage 2 _ _) as [x2 r2] eqn:E2.
  eapply (ctz_stage_ok 2) in E2 as [H2 C2]; [|lia|exact H3|lia].
  destruct (ctz_stage 1 _ _) as [x1 r1] eqn:E1.
  eapply (ctz_stage_ok 1) in E1 as [H1 C1]; [|lia|exact H2|lia].
  match type of H1 with trailing _ ?d => set (d0 := d) in * end.
  assert (Ed : c = r1 + d0) by (subst d0; lia). rewrite Ed. f_equal.
  pose proof (proj1 H1) as Hd0. destruct H1 as (_ & m & ->). clearbody d0.
  change (2 ^ 1) with 2 in C1.
  assert (Hand : Z.land (2 ^ d0 * (2 * m + 1)) 3 = (2 ^ d0 * (2 * m + 1)) mod 4)
    by (change 3 with (Z.ones 2); by apply Z.land_ones).
  rewrite Hand. assert (d0 = 0 \/ d0 = 1) as [-> | ->] by lia.
  - assert (Hm : (2 ^ 0 * (2 * m + 1)) mod 4 = 1 \/ (2 ^ 0 * (2 * m + 1)) mod 4 = 3) by divmod.
    by destruct Hm as [-> | ->].
  - assert (Hm : (2 ^ 1 * (2 * m + 1)) mod 4 = 2) by (change (2 ^ 1) with 2; divmod). by rewrite Hm.
Qed.

Section count2.
Context (h : Z) (Hh : 1 < h).

Lemma land_sign_l x : 0 <= x < 2 ^ h -> Z.land x (wrap h (-1)) = x.
Proof.
  intros Hx. replace (wrap h (-1)) with (Z.ones h).
  - rewrite Z.land_ones by lia. by apply Z.mod_small.
  - unfold wrap, Z.ones. rewrite Z.shiftl_1_l. apply (Z.mod_unique_pos _ _ (-1)); lia.
Qed.

Lemma land_zero_l x : Z.land x (wrap h 0) = 0.
Proof. unfold wrap. by rewrite Z.mod_0_l, Z.land_0_r by lia. Qed.

Lemma wrap_high a : 0 <= a < 2 ^ (2 * h) ->
  wrap h (high (dwords h a)) = a / 2 ^ h /\ low (dwords h a) = a mod 2 ^ h /\
  (high (dwords h a) = 0 <-> a / 2 ^ h = 0).
Proof.
  intros Ha. unfold dwords. simpl. rewrite Z.shiftr_div_pow2 by lia.
  assert (Hq : 0 <= a / 2 ^ h < 2 ^ h).
  { split; [apply Z.div_pos; lia|]. apply Z.div_lt_upper_bound; [lia|].
    rewrite <- Z.pow_add_r by lia. replace (h + h) with (2 * h) by lia. lia. }
  assert (Ew : wrap h (swrap h (a / 2 ^ h)) = a / 2 ^ h).
  { unfold wrap. rewrite swrap_mod by lia. by apply Z.mod_small. }
  split; [done|]. split; [done|]. split; intros E.
  - rewrite <- Ew, E. unfold wrap. by apply Z.mod_0_l; lia.
  - rewrite E. apply swrap_small; lia.
Qed.

Lemma lnot_b2z b : Z.lnot (- b2z b) = - b2z (negb b).
Proof. by destruct b. Qed.

Lemma clz2_ok a : 0 < a < 2 ^ (2 * h) -> clz2 h a = builtin_clz (2 * h) a.
Proof.
  intros Ha. destruct (wrap_high a ltac:(lia)) as (Ehi & Elo & Hz). unfold clz2.
  rewrite lnot_b2z, Ehi, Elo. pose proof (Z.mod_pos_bound a (2 ^ h) ltac:(lia)) as Hm.
  assert (Hq : 0 <= a / 2 ^ h < 2 ^ h) by (rewrite <- Ehi; apply wrap_range; lia).
  pose proof (Z.div_mod a (2 ^ h) ltac:(lia)) as Ed.
  destruct (Z.eqb_spec (high (dwords h a)) 0) as [E|E].
  - apply Hz in E. cbn [b2z negb Z.opp]. rewrite land_zero_l, Z.lor_0_l, land_sign_l by lia.
    rewrite Z.land_m1_l. unfold builtin_clz. rewrite E, Z.mul_0_r, Z.add_0_l in Ed.
    rewrite <- Ed. lia.
  - cbn [b2z negb Z.opp]. rewrite land_zero_l, Z.lor_0_r, land_sign_l, Z.land_0_l by done.
    assert (a / 2 ^ h <> 0) by (intros E0; by apply E, Hz).
    unfold builtin_clz. rewrite <- Z.shiftr_div_pow2, Z.log2_shiftr by lia.
    assert (2 ^ h * 1 <= 2 ^ h * (a / 2 ^ h)) by (apply Z.mul_le_mono_nonneg_l; lia).
    enough (h <= Z.log2 a) by lia. apply (Z.log2_le_pow2 a h); lia.
Qed.

Lemma trailing_words a c : 0 <= a < 2 ^ (2 * h) -> trailing a c ->
  if a mod 2 ^ h =? 0 then trailing (a / 2 ^ h) (c - h) else trailing (a mod 2 ^ h) c.
Proof.
  intros Ha Ht. pose proof (trailing_mod a c h ltac:(lia) Ht) as Hm.
  destruct (Z.eqb_spec (a mod 2 ^ h) 0) as [E|E].
  - apply trailing_div; [|done]. apply Hm in E. lia.
  - apply trailing_wrap; [|done]. destruct (Z.le_gt_cases h c); [|done]. by apply Hm in H.
Qed.

Lemma ctz2_ok a : 0 < a < 2 ^ (2 * h) -> ctz2 h a = builtin_ctz a.
Proof.
  intros Ha. destruct (wrap_high a ltac:(lia)) as (Ehi & Elo & _). unfold ctz2.
  destruct (trailing_exists a ltac:(lia)) as (c & Ht). rewrite (trailing_ctz _ _ Ht).
  pose proof (trailing_words a c ltac:(lia) Ht) as Hw.
  assert (Hq : 0 <= a / 2 ^ h < 2 ^ h) by (rewrite <- Ehi; apply wrap_range; lia).
  rewrite lnot_b2z, Ehi, Elo. pose proof (Z.mod_pos_bound a (2 ^ h) ltac:(lia)) as Hm.
  destruct (Z.eqb_spec (a mod 2 ^ h) 0) as [E|E]; cbn [b2z negb Z.opp].
  - rewrite land_zero_l, Z.lor_0_r, land_sign_l, Z.land_m1_l by done.
    rewrite (trailing_ctz _ _ Hw). lia.
  - rewrite land_zero_l, Z.lor_0_l, land_sign_l, Z.land_0_l by done.
    rewrite (trailing_ctz _ _ Hw). lia.
Qed.

Lemma ffs2_ok a : 0 <= a < 2 ^ (2 * h) -> ffs2 h a = if a =? 0 then 0 else builtin_ctz a + 1.
Proof.
  intros Ha. destruct (wrap_high a Ha) as (Ehi & Elo & Hz). unfold ffs2.
  rewrite Elo, Ehi. destruct (Z.eqb_spec a 0) as [->|Ha0].
  { rewrite Z.mod_0_l by lia. simpl. rewrite (proj2 (Z.eqb_eq _ _)); [done|].
    apply Hz. by apply Z.div_0_l; lia. }
  destruct (trailing_exists a Ha0) as (c & Ht). rewrite (trailing_ctz _ _ Ht).
  pose proof (trailing_words a c Ha Ht) as Hw.
  destruct (Z.eqb_spec (a mod 2 ^ h) 0) as [E|E]; [|by rewrite (trailing_ctz _ _ Hw)].
  rewrite (trailing_ctz _ _ Hw). destruct (Z.eqb_spec (high (dwords h a)) 0) as [E0|_]; [|lia].
  exfalso. apply Hz in E0. pose proof (Z.div_mod a (2 ^ h) ltac:(lia)). lia.
Qed.
End count2.

(** ** Parity and byte order *)

Definition bits_parity (n : nat) (x : Z) : bool :=
  foldr xorb false ((fun i => Z.testbit x (Z.of_nat i)) <$> seq 0 n).

Lemma bits_parity_S n x : bits_parity (S n) x = xorb (Z.testbit x 0) (bits_parity n (Z.shiftr x 1)).
Proof.
  unfold bits_parity. rewrite <- cons_seq, <- fmap_S_seq, fmap_cons, <- list_fmap_compose. simpl.
  f_equal. f_equal. apply list_fmap_ext. intros i j _. unfold compose.
  rewrite (Z.shiftr_spec x 1 (Z.of_nat j)) by lia. f_equal. lia.
Qed.

Lemma bits_parity_lxor n x y : bits_parity n (Z.lxor x y) = xorb (bits_parity n x) (bits_parity n y).
Proof.
  revert x y. induction n as [|n IH]; intros x y; [done|].
  rewrite !bits_parity_S, Z.shiftr_lxor, IH, Z.lxor_spec.
  destruct (Z.testbit x 0), (Z.testbit y 0), (bits_parity n (Z.shiftr x 1)),
    (bits_parity n (Z.shiftr y 1)); done.
Qed.

Lemma bits_parity_add n k x :
  bits_parity (n + k) x = xorb (bits_parity n x) (bits_parity k (Z.shiftr x (Z.of_nat n))).
Proof.
  revert x. induction n as [|n IH]; intros x.
  - simpl. by rewrite Z.shiftr_0_r.
  - simpl Nat.add. rewrite !bits_parity_S, IH, Z.shiftr_shiftr by lia.
    replace (1 + Z.of_nat n) with (Z.of_nat (S n)) by lia.
    by rewrite xorb_assoc.
Qed.

(** Folding the high half onto the low one keeps the parity. *)
Lemma bits_parity_fold n x : bits_parity n (Z.lxor x (Z.shiftr x (Z.of_nat n))) = bits_parity (n + n) x.
Proof. by rewrite bits_parity_lxor, bits_parity_add. Qed.

Lemma bits_parity_wrap n w x : Z.of_nat n <= w -> bits_parity n (wrap w x) = bits_parity n x.
Proof.
  intros Hw. unfold bits_parity. f_equal. apply list_fmap_ext. intros i j Hj.
  apply lookup_seq in Hj as [-> Hi]. unfold wrap. rewrite Z.mod_pow2_bits_low by lia. done.
Qed.

Lemma nibble_parity x : Z.land (Z.shiftr 0x6996 (Z.land x 0xF)) 1 = b2z (bits_parity 4 x).
Proof.
  change 0xF with (Z.ones 4). rewrite Z.land_ones by lia.
  rewrite <- (bits_parity_wrap 4 4 x) by lia. unfold wrap.
  pose proof (Z.mod_pos_bound x (2 ^ 4) ltac:(lia)) as Hm. set (y := x mod 2 ^ 4) in *. clearbody y.
  assert (Hb : (Z.land (Z.shiftr 0x6996 y) 1 =? b2z (bits_parity 4 y)) = true).
  { assert (Hall : forallb (fun y => Z.land (Z.shiftr 0x6996 y) 1 =? b2z (bits_parity 4 y)) (seqZ 0 16) = true)
      by reflexivity.
    rewrite forallb_forall in Hall. apply Hall, list_elem_of_In, elem_of_seqZ. lia. }
  by apply Z.eqb_eq.
Qed.

Lemma paritysi2_ok a : paritysi2 a = b2z (bits_parity 32 a).
Proof.
  unfold paritysi2. rewrite nibble_parity.
  rewrite (bits_parity_fold 4), (bits_parity_fold 8), (bits_parity_fold 16).
  f_equal. by apply bits_parity_wrap.
Qed.

Lemma parity_words (n : nat) a : (0 < n)%nat ->
  bits_parity n (Z.lxor (wrap (Z.of_nat n) (high (dwords (Z.of_nat n) a))) (low (dwords (Z.of_nat n) a))) =
  bits_parity (n + n) a.
Proof.
  intros Hn. rewrite bits_parity_lxor, bits_parity_add, xorb_comm. unfold dwords. simpl.
  rewrite !bits_parity_wrap by lia. f_equal.
  rewrite <- (bits_parity_wrap n (Z.of_nat n) (swrap _ _)) by lia. unfold wrap.
  rewrite swrap_mod by lia. by apply bits_parity_wrap.
Qed.

Lemma paritydi2_ok a : paritydi2 a = b2z (bits_parity 64 a).
Proof. unfold paritydi2. rewrite paritysi2_ok. f_equal. by apply (parity_words 32); lia. Qed.

Lemma parityti2_ok a : parityti2 a = b2z (bits_parity 128 a).
Proof. unfold parityti2. rewrite paritydi2_ok. f_equal. by apply (parity_words 64); lia. Qed.

(** The bytes of [x], least significant first, and the value they make. *)
Fixpoint bytes_le (n : nat) (x : Z) : list Z :=
  match n with O => [] | S n' => x mod 256 :: bytes_le n' (x / 256) end.
Fixpoint value_le (bs : list Z) : Z :=
  match bs with [] => 0 | b :: bs' => b + 256 * value_le bs' end.

(** One masked and shifted byte. *)
Lemma masked_byte u i : 0 <= i -> Z.land u (Z.shiftl 255 (8 * i)) = 256 ^ i * (u / 256 ^ i mod 256).
Proof.
  intros Hi. replace (256 ^ i) with (2 ^ (8 * i)) by (rewrite Z.pow_mul_r by lia; done).
  rewrite <- Z.shiftr_div_pow2, (Z.mul_comm (2 ^ (8 * i))), <- Z.shiftl_mul_pow2 by lia.
  change 256 with (2 ^ 8). rewrite <- Z.land_ones by lia. change (Z.ones 8) with 255.
  apply Z.bits_inj'. intros j Hj. rewrite Z.land_spec, !Z.shiftl_spec by lia.
  destruct (Z.ltb_spec j (8 * i)).
  - rewrite !(Z.testbit_neg_r _ (j - 8 * i)) by lia. by rewrite andb_false_r.
  - rewrite Z.land_spec, Z.shiftr_spec by lia. by replace (j - 8 * i + 8 * i) with j by lia.
Qed.

(** A disjunction of bytes in their places is their sum. *)
Lemma lor_place a b k : 0 <= k -> 0 <= b < 2 ^ k -> Z.lor (2 ^ k * a) b = 2 ^ k * a + b.
Proof. intros. rewrite Z.lor_comm, lor_disjoint_add by lia. lia. Qed.

Lemma bytes_le_at n u : bytes_le n u = (fun i => u / 256 ^ Z.of_nat i mod 256) <$> seq 0 n.
Proof.
  revert u. induction n as [|n IH]; intros u; [done|].
  rewrite <- cons_seq, <- fmap_S_seq, fmap_cons, <- list_fmap_compose. cbn [bytes_le].
  rewrite IH. change (256 ^ Z.of_nat 0) with 1. rewrite Z.div_1_r. f_equal.
  apply list_fmap_ext. intros i j _. unfold compose.
  by rewrite Nat2Z.inj_succ, Z.pow_succ_r, Z.div_div by lia.
Qed.

Lemma byte_range i u : 0 <= u / 256 ^ i mod 256 < 2 ^ 8.
Proof. apply Z.mod_pos_bound. lia. Qed.

Definition byte_at (u i : Z) : Z := u / 256 ^ i mod 256.

(** Moving byte [i] up by [8 k] bits, within [8 n] bits; and down. *)
Lemma byte_up n u i k : 0 <= i -> 0 <= k -> i + k < n ->
  wrap (8 * n) (Z.shiftl (Z.land u (Z.shiftl 255 (8 * i))) (8 * k)) = 2 ^ (8 * (i + k)) * byte_at u i.
Proof.
  intros Hi Hk Hik. rewrite masked_byte, Z.shiftl_mul_pow2 by lia. fold (byte_at u i).
  pose proof (byte_range i u) as Hb. fold (byte_at u i) in Hb.
  replace (256 ^ i) with (2 ^ (8 * i)) by (rewrite Z.pow_mul_r by lia; done).
  replace (2 ^ (8 * i) * byte_at u i * 2 ^ (8 * k)) with (2 ^ (8 * (i + k)) * byte_at u i)
    by (rewrite Z.mul_add_distr_l, Z.pow_add_r by lia; lia).
  apply wrap_small. assert (2 ^ (8 * (i + k)) * 2 ^ 8 <= 2 ^ (8 * n))
    by (rewrite <- Z.pow_add_r by lia; apply Z.pow_le_mono_r; lia). nia.
Qed.

Lemma byte_down u i k : 0 <= k <= i ->
  Z.shiftr (Z.land u (Z.shiftl 255 (8 * i))) (8 * k) = 2 ^ (8 * (i - k)) * byte_at u i.
Proof.
  intros Hk. rewrite masked_byte, Z.shiftr_div_pow2 by lia. fold (byte_at u i).
  replace (256 ^ i) with (2 ^ (8 * (i - k)) * 2 ^ (8 * k)).
  2:{ rewrite <- Z.pow_add_r by lia. replace (8 * (i - k) + 8 * k) with (8 * i) by lia.
      rewrite Z.pow_mul_r by lia. done. }
  replace (2 ^ (8 * (i - k)) * 2 ^ (8 * k) * byte_at u i)
    with (2 ^ (8 * (i - k)) * byte_at u i * 2 ^ (8 * k)) by lia.
  apply Z.div_mul. lia.
Qed.

(** Disjoint bytes, the next one above the others. *)
Lemma lor_bytes j a u i : 0 <= j -> 0 <= a < 2 ^ (8 * j) ->
  Z.lor a (2 ^ (8 * j) * byte_at u i) = a + 2 ^ (8 * j) * byte_at u i /\
  0 <= a + 2 ^ (8 * j) * byte_at u i < 2 ^ (8 * (j + 1)).
Proof.
  intros Hj Ha. rewrite lor_disjoint_add by lia. split; [done|].
  pose proof (byte_range i u) as Hb. fold (byte_at u i) in Hb.
  rewrite Z.mul_add_distr_l, Z.pow_add_r by lia. nia.
Qed.

(** Replace the disjunction of the bytes at places [0..j] by their sum. *)
Ltac lor_place j :=
  match goal with
  | H : 0 <= ?a < _ |- context [Z.lor ?a (2 ^ (8 * ?i) * byte_at ?u ?k)] =>
      let E := fresh "E" in let B := fresh "B" in
      destruct (lor_bytes j a u k ltac:(lia) H) as [E B];
      change (2 ^ (8 * j) * byte_at u k) with (2 ^ (8 * i) * byte_at u k) in E, B;
      rewrite E; clear E H
  end.

Lemma bswapsi2_ok u : bswapsi2 u = value_le (rev (bytes_le 4 u)).
Proof.
  unfold bswapsi2.
  rewrite (byte_down u 3 3 ltac:(lia) : Z.shiftr (Z.land u 0xff000000) 24 = _).
  rewrite (byte_down u 2 1 ltac:(lia) : Z.shiftr (Z.land u 0x00ff0000) 8 = _).
  rewrite (byte_up 4 u 1 1 ltac:(lia) ltac:(lia) ltac:(lia) : u32 (Z.shiftl (Z.land u 0x0000ff00) 8) = _).
  rewrite (byte_up 4 u 0 3 ltac:(lia) ltac:(lia) ltac:(lia) : u32 (Z.shiftl (Z.land u 0x000000ff) 24) = _).
  assert (H0 : 0 <= 2 ^ (8 * (3 - 3)) * byte_at u 3 < 2 ^ (8 * 1)).
  { pose proof (byte_range 3 u). unfold byte_at. lia. }
  lor_place 1. lor_place 2. lor_place 3.
  rewrite bytes_le_at. cbn [seq fmap list_fmap rev app value_le].
  fold (byte_at u (Z.of_nat 0)) (byte_at u (Z.of_nat 1)) (byte_at u (Z.of_nat 2)) (byte_at u (Z.of_nat 3)).
  change (Z.of_nat 0) with 0. change (Z.of_nat 1) with 1. change (Z.of_nat 2) with 2.
  change (Z.of_nat 3) with 3. lia.
Qed.

Lemma bswapdi2_ok u : bswapdi2 u = value_le (rev (bytes_le 8 u)).
Proof.
  unfold bswapdi2.
  rewrite (byte_down u 7 7 ltac:(lia) : Z.shiftr (Z.land u 0xff00000000000000) 56 = _).
  rewrite (byte_down u 6 5 ltac:(lia) : Z.shiftr (Z.land u 0x00ff000000000000) 40 = _).
  rewrite (byte_down u 5 3 ltac:(lia) : Z.shiftr (Z.land u 0x0000ff0000000000) 24 = _).
  rewrite (byte_down u 4 1 ltac:(lia) : Z.shiftr (Z.land u 0x000000ff00000000) 8 = _).
  rewrite (byte_up 8 u 3 1 ltac:(lia) ltac:(lia) ltac:(lia) : u64 (Z.shiftl (Z.land u 0x00000000ff000000) 8) = _).
  rewrite (byte_up 8 u 2 3 ltac:(lia) ltac:(lia) ltac:(lia) : u64 (Z.shiftl (Z.land u 0x0000000000ff0000) 24) = _).
  rewrite (byte_up 8 u 1 5 ltac:(lia) ltac:(lia) ltac:(lia) : u64 (Z.shiftl (Z.land u 0x000000000000ff00) 40) = _).
  rewrite (byte_up 8 u 0 7 ltac:(lia) ltac:(lia) ltac:(lia) : u64 (Z.shiftl (Z.land u 0x00000000000000ff) 56) = _).
  assert (H0 : 0 <= 2 ^ (8 * (7 - 7)) * byte_at u 7 < 2 ^ (8 * 1)).
  { pose proof (byte_range 7 u). unfold byte_at. lia. }
  lor_place 1. lor_place 2. lor_place 3. lor_place 4. lor_place 5. lor_place 6. lor_place 7.
  rewrite bytes_le_at. cbn [seq fmap list_fmap rev app value_le].
  fold (byte_at u (Z.of_nat 0)) (byte_at u (Z.of_nat 1)) (byte_at u (Z.of_nat 2)) (byte_at u (Z.of_nat 3)).
  fold (byte_at u (Z.of_nat 4)) (byte_at u (Z.of_nat 5)) (byte_at u (Z.of_nat 6)) (byte_at u (Z.of_nat 7)).
  change (Z.of_nat 0) with 0. change (Z.of_nat 1) with 1. change (Z.of_nat 2) with 2.
  change (Z.of_nat 3) with 3. change (Z.of_nat 4) with 4. change (Z.of_nat 5) with 5.
  change (Z.of_nat 6) with 6. change (Z.of_nat 7) with 7. lia.
Qed.

(** ** What the routines promise *)

(** The shifts of double-word integers (64-bit on 32-bit words, 128-bit on
    64-bit words), for every shift count the C standard allows: left is
    multiplication wrapped to the width, the two right shifts are division
    rounded down. *)
Theorem shifts_exact e a b :
  e = 5 \/ e = 6 -> 0 <= b < 2 * 2 ^ e ->
  (signed_range (2 * 2 ^ e) a ->
     ashl (2 ^ e) a b = swrap (2 * 2 ^ e) (a * 2 ^ b) /\ ashr (2 ^ e) a b = a / 2 ^ b) /\
  (0 <= a < 2 ^ (2 * 2 ^ e) -> lshr (2 ^ e) a b = a / 2 ^ b).
Proof.
  intros He Hb. assert (0 < e) by lia. split; intros Ha; [split|].
  - by apply ashl_ok.
  - by apply ashr_ok.
  - by apply lshr_ok.
Qed.

Lemma shifts_exact_witness :
  (signed_range (2 * 2 ^ 5) (-5) ->
     ashldi3 (-5) 63 = s64 (-5 * 2 ^ 63) /\ ashrdi3 (-5) 63 = -5 / 2 ^ 63) /\
  (0 <= -5 < 2 ^ (2 * 2 ^ 5) -> lshrdi3 (-5) 63 = -5 / 2 ^ 63).
Proof. apply (shifts_exact 5 (-5) 63); [by left|]. change (2 * 2 ^ 5) with 64. lia. Defined.

(** The three-way comparisons of double-word integers: 0, 1 or 2 as the
    first is less than, equal to or greater than the second, signed and
    unsigned. *)
Theorem cmp_codes h a b :
  h = 32 \/ h = 64 ->
  (signed_range (2 * h) a -> signed_range (2 * h) b ->
     cmp_words (dwords h a) (dwords h b) = ordering_code (a ?= b)) /\
  (0 <= a < 2 ^ (2 * h) -> 0 <= b < 2 ^ (2 * h) ->
     cmp_words (udwords h a) (udwords h b) = ordering_code (a ?= b)).
Proof.
  intros Hh. assert (Hp : 0 < h) by lia.
  split; intros Ha Hb; rewrite (cmp_words_ok h) by (lia || (apply wrap_range; lia)).
  - by rewrite !join_dwords.
  - by rewrite !join_udwords.
Qed.

Lemma cmp_codes_witness :
  cmpdi2 (- 2 ^ 40) 3 = ordering_code (- 2 ^ 40 ?= 3) /\
  ucmpti2 (2 ^ 100) (2 ^ 99) = ordering_code (2 ^ 100 ?= 2 ^ 99).
Proof.
  split.
  - apply (proj1 (cmp_codes 32 (- 2 ^ 40) 3 (or_introl eq_refl))); unfold signed_range; lia.
  - apply (proj2 (cmp_codes 64 (2 ^ 100) (2 ^ 99) (or_intror eq_refl))); lia.
Defined.

(** C29. The trapping arithmetic at every width: addition, subtraction,
    multiplication, negation and absolute value return the exact result when it
    is representable and abort otherwise; the [__mulo] functions return the
    wrapped product and set the flag exactly when it is not exact. *)
Theorem trapping_exact w a b :
  1 < w -> signed_range w a -> signed_range w b ->
  addv w a b = (if in_range w (a + b) then Some (a + b) else None) /\
  subv w a b = (if in_range w (a - b) then Some (a - b) else None) /\
  mulv w a b = (if in_range w (a * b) then Some (a * b) else None) /\
  negv w a = (if in_range w (- a) then Some (- a) else None) /\
  absv w a = (if in_range w (Z.abs a) then Some (Z.abs a) else None) /\
  mulo w a b = (swrap w (a * b), if in_range w (a * b) then 0 else 1).
Proof.
  intros Hw Ha Hb. split; [by apply addv_ok|]. split; [by apply subv_ok|].
  split; [by apply mulv_ok|]. split; [by apply negv_ok|]. split; [by apply absv_ok|].
  rewrite mulo_mulv, mulv_ok by done. by destruct (in_range w (a * b)).
Qed.

(** At the most negative value. *)
Lemma trapping_exact_witness :
  addvsi3 (- 2 ^ 31) (-1) = None /\ subvsi3 (- 2 ^ 31) (-1) = Some (- 2 ^ 31 + 1) /\
  mulvsi3 (- 2 ^ 31) (-1) = None /\ negvsi2 (- 2 ^ 31) = None /\ absvsi2 (- 2 ^ 31) = None /\
  mulosi4 (- 2 ^ 31) (-1) = (- 2 ^ 31, 1).
Proof. apply (trapping_exact 32 (- 2 ^ 31) (-1)); unfold signed_range; lia. Defined.

(** Double-word multiplication by half-word products is multiplication
    wrapped to the width; the inner routine gives both words of the full product
    of two words. *)
Theorem mul_wraps h a b :
  h = 32 \/ h = 64 ->
  (0 <= a < 2 ^ h -> 0 <= b < 2 ^ h ->
     low (mul_words h a b) = wrap h (a * b) /\ high (mul_words h a b) = swrap h (a * b / 2 ^ h)) /\
  (signed_range (2 * h) a -> signed_range (2 * h) b -> mul h a b = swrap (2 * h) (a * b)).
Proof.
  intros Hh. assert (E : h = 2 * (h / 2)) by (destruct Hh as [-> | ->]; done). rewrite E.
  assert (1 <= h / 2) by (destruct Hh as [-> | ->]; done).
  split; intros; [by apply mul_words_ok|by apply mul_ok].
Qed.

Lemma mul_wraps_witness :
  muldi3 (2 ^ 62 + 12345) (-77) = s64 ((2 ^ 62 + 12345) * -77).
Proof. apply (proj2 (mul_wraps 32 (2 ^ 62 + 12345) (-77) (or_introl eq_refl))); unfold signed_range; lia. Defined.

(** Leading and trailing zero counts and find-first-set at every width:
    [clz] locates the highest one bit, [ctz] the lowest, [ffs] the lowest plus one
    with 0 for 0.  [builtin_clz] and [builtin_ctz] are characterised too. *)
Theorem bit_counts a :
  (0 < u32 a -> clzsi2 a = builtin_clz 32 (u32 a) /\ ctzsi2 a = builtin_ctz (u32 a)) /\
  (0 < a < 2 ^ 64 -> clzdi2 a = builtin_clz 64 a /\ ctzdi2 a = builtin_ctz a /\ ffsdi2 a = builtin_ctz a + 1) /\
  (0 < a < 2 ^ 128 -> clzti2 a = builtin_clz 128 a /\ ctzti2 a = builtin_ctz a /\ ffsti2 a = builtin_ctz a + 1) /\
  ffsdi2 0 = 0 /\ ffsti2 0 = 0 /\
  (0 < a -> exists c m, builtin_ctz a = c /\ 0 <= c /\ a = 2 ^ c * (2 * m + 1)) /\
  (0 < a < 2 ^ 128 -> 2 ^ (127 - builtin_clz 128 a) <= a < 2 ^ (128 - builtin_clz 128 a)).
Proof.
  assert (Hffs : forall h, 1 < h -> 0 < a < 2 ^ (2 * h) -> ffs2 h a = builtin_ctz a + 1).
  { intros h Hh Ha. rewrite ffs2_ok by lia. by rewrite (proj2 (Z.eqb_neq a 0)) by lia. }
  split; [|split; [|split; [|split; [|split; [|split]]]]]; try reflexivity.
  - intros Ha. split; [by apply clzsi2_ok|by apply ctzsi2_ok].
  - intros Ha. split; [by apply (clz2_ok 32)|]. split; [by apply (ctz2_ok 32)|by apply (Hffs 32)].
  - intros Ha. split; [by apply (clz2_ok 64)|]. split; [by apply (ctz2_ok 64)|by apply (Hffs 64)].
  - intros Ha. destruct (trailing_exists a ltac:(lia)) as (c & Ht). exists c.
    pose proof (trailing_ctz _ _ Ht) as E. destruct Ht as (Hc & m & Em). by exists m.
  - intros Ha. unfold builtin_clz. destruct (Z.log2_spec a ltac:(lia)) as [H1 H2].
    replace (127 - (128 - 1 - Z.log2 a)) with (Z.log2 a) by lia.
    by replace (128 - (128 - 1 - Z.log2 a)) with (Z.succ (Z.log2 a)) by lia.
Qed.

Lemma bit_counts_witness :
  clzsi2 (2 ^ 32 + 0x50) = 25 /\ ctzsi2 (2 ^ 32 + 0x50) = 4 /\
  (0 < 2 ^ 32 + 0x50 < 2 ^ 64 -> clzdi2 (2 ^ 32 + 0x50) = 31 /\ ctzdi2 (2 ^ 32 + 0x50) = 4 /\
     ffsdi2 (2 ^ 32 + 0x50) = 5).
Proof.
  destruct (bit_counts (2 ^ 32 + 0x50)) as (H1 & H2 & _).
  destruct H1 as [H1 H1']; [reflexivity|]. split; [exact H1|]. split; [exact H1'|exact H2].
Defined.

(** The parity routines fold the word onto itself and give the exclusive
    or of its bits; the byte swaps reverse the little-endian bytes. *)
Theorem parity_and_bswap a :
  paritysi2 a = b2z (bits_parity 32 a) /\ paritydi2 a = b2z (bits_parity 64 a) /\
  parityti2 a = b2z (bits_parity 128 a) /\
  bswapsi2 a = value_le (rev (bytes_le 4 a)) /\ bswapdi2 a = value_le (rev (bytes_le 8 a)).
Proof.
  split; [apply paritysi2_ok|]. split; [apply paritydi2_ok|]. split; [apply parityti2_ok|].
  split; [apply bswapsi2_ok|apply bswapdi2_ok].
Qed.
