(* ===== verification/IntDiv.v ===== *)
(** * Integer division (src/src/compiler-rt/builtins)

    The shift-subtract dividers [__udivsi3], [__udivmoddi4] and [__udivmodti4],
    and the signed and remainder functions on top of them.  The two double-word
    dividers have the same text; [h] is the width of their words.  A division by
    zero traps: [None]. *)
From S2P Require Import Prelude IntOps.

(** ** The single-word divider *)

(** One turn of the loop of [__udivsi3] on [(q, r, carry)]. *)
Definition div_step (w d : Z) '((q, r, carry) : Z * Z * Z) : Z * Z * Z :=
  let r := Z.lor (wrap w (Z.shiftl r 1)) (Z.shiftr q (w - 1)) in
  let q := Z.lor (wrap w (Z.shiftl q 1)) carry in
  let s := Z.shiftr (swrap w (wrap w (d - r - 1))) (w - 1) in
  let carry := Z.land s 1 in
  let r := wrap w (r - Z.land d (wrap w s)) in
  (q, r, carry).

(** [for (; sr > 0; --sr)] *)
Definition div_loop (w d sr : Z) (s : Z * Z * Z) : Z * Z * Z :=
  Nat.iter (Z.to_nat sr) (div_step w d) s.

Definition udivsi3 (n d : Z) : Z :=
  if d =? 0 then 0
  else if n =? 0 then 0
  else
    let sr := u32 (builtin_clz 32 d - builtin_clz 32 n) in
    if 31 <? sr then 0
    else if sr =? 31 then n
    else
      let sr := sr + 1 in
      let q := u32 (Z.shiftl n (32 - sr)) in
      let r := Z.shiftr n sr in
      let '(q, _, carry) := div_loop 32 d sr (q, r, 0) in
      Z.lor (u32 (Z.shiftl q 1)) carry.

(** ** The double-word dividers *)

(** What the case analysis on the words of the operands decides: a result
    [(quotient, remainder)], a trap, or the loop to run. *)
Inductive div_start : Type :=
  | Done (q r : Z)
  | Trap
  | Run (sr : Z) (q r : words).

Definition shl (h x k : Z) : Z := wrap h (Z.shiftl x k).

(** [K X / 0 0], [K 0 / K 0] and [K K / K 0]: the low word of the divisor is 0. *)
Definition start_low0 (h : Z) (n d : words) : div_start :=
  if high d =? 0 then Trap
  else if low n =? 0 then
    Done (high n / high d) (join h {| high := high n mod high d; low := 0 |})
  else if Z.land (high d) (high d - 1) =? 0 then
    Done (Z.shiftr (high n) (builtin_ctz (high d)))
         (join h {| low := low n; high := Z.land (high n) (high d - 1) |})
  else
    let sr := u32 (builtin_clz h (high d) - builtin_clz h (high n)) in
    if h - 2 <? sr then Done 0 (join h n)
    else
      let sr := sr + 1 in
      Run sr {| low := 0; high := shl h (low n) (h - sr) |}
             {| high := Z.shiftr (high n) sr;
                low := Z.lor (shl h (high n) (h - sr)) (Z.shiftr (low n) sr) |}.

(** [K X / 0 K]: the high word of the divisor is 0. *)
Definition start_high0 (h : Z) (n d : words) : div_start :=
  if Z.land (low d) (low d - 1) =? 0 then
    let rem := Z.land (low n) (low d - 1) in
    if low d =? 1 then Done (join h n) rem
    else
      let sr := builtin_ctz (low d) in
      Done (join h {| high := Z.shiftr (high n) sr;
                      low := Z.lor (shl h (high n) (h - sr)) (Z.shiftr (low n) sr) |}) rem
  else
    let sr := u32 (1 + h + builtin_clz h (low d) - builtin_clz h (high n)) in
    if sr =? h then Run sr {| low := 0; high := low n |} {| high := 0; low := high n |}
    else if sr <? h then
      Run sr {| low := 0; high := shl h (low n) (h - sr) |}
             {| high := Z.shiftr (high n) sr;
                low := Z.lor (shl h (high n) (h - sr)) (Z.shiftr (low n) sr) |}
    else
      Run sr {| low := shl h (low n) (2 * h - sr);
                high := Z.lor (shl h (high n) (2 * h - sr)) (Z.shiftr (low n) (sr - h)) |}
             {| high := 0; low := Z.shiftr (high n) (sr - h) |}.

(** [K X / K K] *)
Definition start_both (h : Z) (n d : words) : div_start :=
  let sr := u32 (builtin_clz h (high d) - builtin_clz h (high n)) in
  if h - 1 <? sr then Done 0 (join h n)
  else
    let sr := sr + 1 in
    if sr =? h then Run sr {| low := 0; high := low n |} {| high := 0; low := high n |}
    else Run sr {| low := 0; high := shl h (low n) (h - sr) |}
                {| high := Z.shiftr (high n) sr;
                   low := Z.lor (shl h (high n) (h - sr)) (Z.shiftr (low n) sr) |}.

Definition udivmod_start (h : Z) (n d : words) : div_start :=
  if high n =? 0 then
    if high d =? 0 then
      (if low d =? 0 then Trap else Done (low n / low d) (low n mod low d))
    else Done 0 (low n)
  else if low d =? 0 then start_low0 h n d
  else if high d =? 0 then start_high0 h n d
  else start_both h n d.

(** One turn of the double-word loop on [(q, r, carry)]. *)
Definition div_step2 (h : Z) (d : words) '((q, r, carry) : words * words * Z) : words * words * Z :=
  let rh := Z.lor (shl h (high r) 1) (Z.shiftr (low r) (h - 1)) in
  let rl := Z.lor (shl h (low r) 1) (Z.shiftr (high q) (h - 1)) in
  let qh := Z.lor (shl h (high q) 1) (Z.shiftr (low q) (h - 1)) in
  let ql := Z.lor (shl h (low q) 1) carry in
  let all_d := join h d in
  let all_r := join h {| high := rh; low := rl |} in
  let s := Z.shiftr (swrap (2 * h) (wrap (2 * h) (all_d - all_r - 1))) (2 * h - 1) in
  let carry := Z.land s 1 in
  let all_r := wrap (2 * h) (all_r - Z.land all_d (wrap (2 * h) s)) in
  ({| high := qh; low := ql |}, udwords h all_r, carry).

(** The quotient and [*rem]. *)
Definition udivmod (h a b : Z) : option (Z * Z) :=
  let n := udwords h a in
  let d := udwords h b in
  match udivmod_start h n d with
  | Trap => None
  | Done q r => Some (q, r)
  | Run sr q r =>
      let '(q, r, carry) := Nat.iter (Z.to_nat sr) (div_step2 h d) (q, r, 0) in
      Some (Z.lor (wrap (2 * h) (Z.shiftl (join h q) 1)) carry, join h r)
  end.

Definition udivmoddi4 := udivmod 32.
Definition udivmodti4 := udivmod 64.

(** ** The functions built on the dividers *)

Definition umodsi3 (a b : Z) : Z := u32 (a - u32 (udivsi3 a b * b)).

(** The quotient, converted to the signed [d] and back, and [*rem]. *)
Definition udivmodsi4 (a b : Z) : Z * Z :=
  let d := s32 (udivsi3 a b) in
  (u32 d, u32 (a - u32 (u32 d * b))).

Definition udiv (h a b : Z) : option Z := '(q, _) ← udivmod h a b; Some q.
Definition umod (h a b : Z) : option Z := '(_, r) ← udivmod h a b; Some r.
Definition udivdi3 := udiv 32.
Definition udivti3 := udiv 64.
Definition umoddi3 := umod 32.
Definition umodti3 := umod 64.

(** [(a ^ s) - s] on a signed [w]-bit value, then converted to unsigned. *)
Definition magnitude (w a : Z) : Z := wrap w (swrap w (Z.lxor a (sign_of w a) - sign_of w a)).

(** [(q ^ s) - s] on the unsigned [q], converted to signed. *)
Definition with_sign (w q s : Z) : Z := swrap w (wrap w (Z.lxor q (wrap w s) - wrap w s)).

Definition divsi3 (a b : Z) : option Z :=
  let s_a := sign_of 32 a in
  let s_b := sign_of 32 b in
  let ua := magnitude 32 a in
  let ub := magnitude 32 b in
  if ub =? 0 then None else Some (with_sign 32 (ua / ub) (Z.lxor s_a s_b)).

(** [__divdi3] and [__divti3]; [w] is the width of the operands. *)
Definition div (w a b : Z) : option Z :=
  let s_a := sign_of w a in
  let s_b := sign_of w b in
  '(q, _) ← udivmod (w / 2) (magnitude w a) (magnitude w b);
  Some (with_sign w q (Z.lxor s_a s_b)).

Definition mod_ (w a b : Z) : option Z :=
  '(_, r) ← udivmod (w / 2) (magnitude w a) (magnitude w b);
  let s := sign_of w a in
  Some (swrap w (Z.lxor (swrap w r) s - s)).

Definition divdi3 := div 64.
Definition divti3 := div 128.
Definition moddi3 := mod_ 64.
Definition modti3 := mod_ 128.

Definition modsi3 (a b : Z) : option Z := q ← divsi3 a b; Some (swrap 32 (a - swrap 32 (q * b))).
Definition divmodsi4 (a b : Z) : option (Z * Z) :=
  d ← divsi3 a b; Some (d, swrap 32 (a - swrap 32 (d * b))).
Definition divmoddi4 (a b : Z) : option (Z * Z) :=
  d ← divdi3 a b; Some (d, swrap 64 (a - swrap 64 (d * b))).

Example udivmod_ex : udivmod 32 (2 ^ 63 + 12345678901) (3 * 2 ^ 32 + 7) =
  Some ((2 ^ 63 + 12345678901) / (3 * 2 ^ 32 + 7), (2 ^ 63 + 12345678901) mod (3 * 2 ^ 32 + 7)).
Proof. reflexivity. Qed.

(** ** The loop

    [n / 2^i = d * Q + r] after the turn that leaves [i] turns to go: [q] holds
    the bits of [n] still to shift in above the quotient bits, the last of which
    is in [carry]. *)

Lemma lor_bit w x c : 1 <= w -> 0 <= c <= 1 -> Z.lor (wrap w (Z.shiftl x 1)) c = wrap w (2 * x) + c.
Proof.
  intros Hw Hc. rewrite Z.shiftl_mul_pow2 by lia. change (2 ^ 1) with 2. rewrite (Z.mul_comm x).
  unfold wrap. replace (2 ^ w) with (2 * 2 ^ (w - 1)) by (rewrite <- Z.pow_succ_r by lia; f_equal; lia).
  rewrite Z.mul_mod_distr_l by lia. rewrite Z.lor_comm. change 2 with (2 ^ 1) at 1.
  rewrite lor_disjoint_add by lia. lia.
Qed.

(** Shifting the top bit of [q] into [r] and [carry] into [q]. *)
Lemma div_shift U P n Q :
  1 <= U -> 1 <= P -> 0 <= n < 2 * U * P -> 0 <= Q < P ->
  let q := n mod (2 * U) * P + Q / 2 in
  0 <= q < 2 * U * P /\ q / (U * P) = n / U mod 2 /\
  (2 * q) mod (2 * U * P) + Q mod 2 = n mod U * (2 * P) + Q.
Proof.
  intros HU HP Hn HQ q.
  assert (HQ2 : 0 <= Q / 2 < P) by divmod.
  pose proof (Z.mod_pos_bound n U ltac:(lia)) as HA.
  pose proof (Z.mod_pos_bound (n / U) 2 ltac:(lia)) as Ht.
  assert (EA : n mod (2 * U) = n mod U + U * (n / U mod 2)).
  { rewrite (Z.mul_comm 2 U). by rewrite Z.rem_mul_r by lia. }
  set (A := n mod U) in *. set (t := n / U mod 2) in *.
  assert (Eq : q = U * P * t + (A * P + Q / 2)) by (subst q; rewrite EA; lia).
  assert (HAP : 0 <= A * P + Q / 2 < U * P) by nia.
  split; [rewrite Eq; nia|]. split.
  - symmetry. apply (Z.div_unique_pos _ _ _ (A * P + Q / 2)); [done|lia].
  - assert (Em : 2 * (A * P + Q / 2) = (2 * q) mod (2 * U * P)).
    { apply (Z.mod_unique_pos _ _ t); [lia|]. rewrite Eq. lia. }
    rewrite <- Em. pose proof (Z.div_mod Q 2 ltac:(lia)). lia.
Qed.

(** The comparison by the sign of [d - r - 1]. *)
Lemma sign_test w d r :
  1 <= w -> 0 < d < 2 ^ w -> 0 <= r < 2 ^ w -> r < 2 * d -> (2 ^ (w - 1) < d -> 2 ^ (w - 1) <= r) ->
  Z.shiftr (swrap w (wrap w (d - r - 1))) (w - 1) = if d <=? r then -1 else 0.
Proof.
  intros Hw Hd Hr Hrd Hbig. rewrite Z.shiftr_div_pow2 by lia.
  assert (E : 2 ^ w = 2 * 2 ^ (w - 1)) by (by apply half_lt; lia).
  rewrite (swrap_eq w _ (d - r - 1)) by (lia || (unfold wrap; by apply Z.mod_mod; lia)).
  rewrite swrap_small by lia.
  destruct (Z.leb_spec d r).
  - symmetry. apply (Z.div_unique_pos _ _ (-1) (d - r - 1 + 2 ^ (w - 1))); lia.
  - apply Z.div_small. lia.
Qed.

Lemma double_bit Q c : 0 <= c <= 1 -> (2 * Q + c) / 2 = Q /\ (2 * Q + c) mod 2 = c.
Proof. intros. split; divmod. Qed.

Lemma div_step_ok w d n U P Q r :
  1 <= w -> 2 ^ w = 2 * U * P -> 1 <= U -> 1 <= P -> 0 < d < 2 ^ w -> 0 <= n < 2 ^ w ->
  n / (2 * U) = d * Q + r -> 0 <= r < d -> 0 <= Q < P -> (U * P < d -> U * P <= n /\ U = 1) ->
  exists Q' r',
    div_step w d (n mod (2 * U) * P + Q / 2, r, Q mod 2) = (n mod U * (2 * P) + Q' / 2, r', Q' mod 2) /\
    n / U = d * Q' + r' /\ 0 <= r' < d /\ 0 <= Q' < 2 * P.
Proof.
  intros Hw EW HU HP Hd Hn HnQ Hr HQ Hbig.
  destruct (div_shift U P n Q) as (Hq & Htop & Hnext); [lia..|].
  assert (EW1 : 2 ^ (w - 1) = U * P) by (pose proof (half_lt w ltac:(lia)); lia).
  pose proof (Z.mod_pos_bound (n / U) 2 ltac:(lia)) as Ht.
  pose proof (Z.mod_pos_bound Q 2 ltac:(lia)) as Hc.
  assert (Hn2 : n / U = 2 * (n / (2 * U)) + n / U mod 2).
  { rewrite (Z.mul_comm 2 U), <- Z.div_div by lia. apply Z.div_mod. lia. }
  assert (HnU : 0 <= n / U < 2 ^ w).
  { split; [apply Z.div_pos; lia|]. apply Z.div_lt_upper_bound; nia. }
  unfold div_step. set (q := n mod (2 * U) * P + Q / 2) in *.
  rewrite Z.shiftr_div_pow2, EW1, Htop by lia. rewrite !lor_bit by lia.
  set (t := n / U mod 2) in *. set (r1 := wrap w (2 * r) + t).
  assert (Er1 : r1 = 2 * r + t).
  { subst r1. rewrite wrap_small; [done|]. nia. }
  assert (Hr1 : n / U = d * (2 * Q) + r1) by lia.
  assert (Hr1w : 0 <= r1 < 2 ^ w) by nia.
  rewrite (sign_test w d r1); [|lia|lia|lia|lia|].
  2:{ rewrite EW1. intros Hd2. destruct (Hbig Hd2) as [Hn1 ->]. rewrite Z.div_1_r in Hr1.
      assert (Q = 0) by nia. lia. }
  assert (Eq : wrap w (2 * q) + Q mod 2 = n mod U * (2 * P) + Q).
  { unfold wrap. by rewrite EW. }
  rewrite Eq. destruct (Z.leb_spec d r1).
  - exists (2 * Q + 1), (r1 - d).
    split; [|split; [rewrite Hr1; ring|clear - HQ Hr Ht Er1 H; lia]].
    destruct (double_bit Q 1) as [-> ->]; [lia|].
    change (Z.land (-1) 1) with 1. f_equal. f_equal.
    replace (wrap w (-1)) with (Z.ones w).
    2:{ unfold wrap, Z.ones. rewrite Z.shiftl_1_l. apply (Z.mod_unique_pos _ _ (-1)); lia. }
    rewrite Z.land_ones, (Z.mod_small d) by lia. apply wrap_small. lia.
  - exists (2 * Q), r1. split; [|split; [done|clear - HQ Hr Ht Er1 H; lia]].
    destruct (double_bit Q 0) as [EQ1 EQ2]; [lia|]. rewrite Z.add_0_r in EQ1, EQ2. rewrite EQ1, EQ2.
    change (Z.land 0 1) with 0. f_equal. f_equal. unfold wrap.
    rewrite Z.mod_0_l, Z.land_0_r, Z.sub_0_r by lia. by apply Z.mod_small.
Qed.

Lemma div_loop_ok w d n (i : nat) Q r :
  1 <= w -> 0 < d < 2 ^ w -> 0 <= n < 2 ^ w -> Z.of_nat i <= w ->
  n / 2 ^ Z.of_nat i = d * Q + r -> 0 <= r < d -> 0 <= Q < 2 ^ (w - Z.of_nat i) ->
  (2 ^ (w - 1) < d -> 2 ^ (w - 1) <= n /\ (i <= 1)%nat) ->
  Nat.iter i (div_step w d)
    (n mod 2 ^ Z.of_nat i * 2 ^ (w - Z.of_nat i) + Q / 2, r, Q mod 2) =
  (n / d / 2, n mod d, n / d mod 2).
Proof.
  intros Hw Hd Hn. revert Q r. induction i as [|i IH]; intros Q r Hi HnQ Hr HQ Hbig.
  - simpl Nat.iter. rewrite Z.mod_1_r. rewrite Z.div_1_r in HnQ.
    assert (n / d = Q) as -> by (symmetry; apply (Z.div_unique_pos _ _ _ r); lia).
    assert (n mod d = r) as -> by (symmetry; apply (Z.mod_unique_pos _ _ Q); lia). done.
  - rewrite Nat.iter_succ_r.
    set (U := 2 ^ Z.of_nat i). set (P := 2 ^ (w - Z.of_nat (S i))) in *.
    assert (EU : 2 ^ Z.of_nat (S i) = 2 * U) by (rewrite Nat2Z.inj_succ, Z.pow_succ_r by lia; done).
    assert (EP : 2 ^ (w - Z.of_nat i) = 2 * P)
      by (subst P; rewrite <- Z.pow_succ_r by lia; f_equal; lia).
    assert (EW : 2 ^ w = 2 * U * P).
    { subst P. rewrite <- EU, <- Z.pow_add_r by lia. f_equal. lia. }
    assert (HU : 1 <= U) by (subst U; lia). assert (HP : 1 <= P) by (subst P; lia).
    rewrite EU in *.
    destruct (div_step_ok w d n U P Q r) as (Q' & r' & -> & HnQ' & Hr' & HQ'); try done.
    { assert (2 ^ (w - 1) = U * P) as <- by (pose proof (half_lt w ltac:(lia)); lia).
      intros H. destruct (Hbig H). split; [done|]. subst U. by replace i with O by lia. }
    rewrite <- EP. apply IH; [lia|done|done|lia|].
    intros H. destruct (Hbig H). split; [done|lia].
Qed.

(** From the start values the dividers compute: all quotient bits at once. *)
Lemma div_loop_run w d n sr :
  1 <= w -> 0 < d < 2 ^ w -> 0 <= n < 2 ^ w -> 0 <= sr <= w -> n / 2 ^ sr < d ->
  (2 ^ (w - 1) < d -> 2 ^ (w - 1) <= n /\ sr <= 1) ->
  Nat.iter (Z.to_nat sr) (div_step w d) (n mod 2 ^ sr * 2 ^ (w - sr), n / 2 ^ sr, 0) =
  (n / d / 2, n mod d, n / d mod 2).
Proof.
  intros Hw Hd Hn Hsr Hlt Hbig.
  assert (0 <= n / 2 ^ sr) by (apply Z.div_pos; lia).
  pose proof (div_loop_ok w d n (Z.to_nat sr) 0 (n / 2 ^ sr)) as H0.
  rewrite Z2Nat.id in H0 by lia. rewrite Z.div_0_l, Z.add_0_r, Z.mod_0_l in H0 by lia.
  apply H0; lia.
Qed.

(** The shift count from the leading zeros makes the first partial remainder
    smaller than the divisor. *)
Lemma sr_bound n d : 0 < n -> 0 < d -> Z.log2 d <= Z.log2 n -> n / 2 ^ (Z.log2 n - Z.log2 d + 1) < d.
Proof.
  intros Hn0 Hd0 Hl. pose proof (Z.log2_spec n Hn0) as [_ Hn]. pose proof (Z.log2_spec d Hd0) as [Hd1 _].
  pose proof (Z.log2_nonneg d). apply Z.div_lt_upper_bound; [lia|].
  replace (Z.succ (Z.log2 n)) with (Z.log2 n - Z.log2 d + 1 + Z.log2 d) in Hn by lia.
  rewrite Z.pow_add_r in Hn by lia.
  assert (0 < 2 ^ (Z.log2 n - Z.log2 d + 1)) by lia. nia.
Qed.

Lemma sr_big w n d : 0 < n < 2 ^ w -> 1 <= w -> Z.log2 d <= Z.log2 n ->
  2 ^ (w - 1) < d -> 2 ^ (w - 1) <= n /\ Z.log2 n - Z.log2 d + 1 <= 1.
Proof.
  intros [Hn0 Hn] Hw Hl Hb. apply Z.log2_lt_pow2 in Hn; [|lia].
  assert (w - 1 <= Z.log2 d) by (apply Z.log2_le_pow2; lia).
  split; [|lia]. apply Z.log2_le_pow2; lia.
Qed.

(** The last shift puts the last quotient bit in. *)
Lemma quotient_bits w Q : 1 <= w -> 0 <= Q < 2 ^ w ->
  Z.lor (wrap w (Z.shiftl (Q / 2) 1)) (Q mod 2) = Q.
Proof.
  intros Hw HQ. rewrite lor_bit by (lia || divmod). rewrite wrap_small by divmod. divmod.
Qed.

Lemma udivsi3_ok n d : 0 <= n < 2 ^ 32 -> 0 < d < 2 ^ 32 -> udivsi3 n d = n / d.
Proof.
  intros Hn Hd. unfold udivsi3. rewrite (proj2 (Z.eqb_neq d 0)) by lia.
  destruct (Z.eqb_spec n 0) as [->|Hn0]; [by rewrite Z.div_0_l by lia|].
  assert (Hln : 0 <= Z.log2 n < 32) by (split; [apply Z.log2_nonneg|apply Z.log2_lt_pow2; lia]).
  assert (Hld : 0 <= Z.log2 d < 32) by (split; [apply Z.log2_nonneg|apply Z.log2_lt_pow2; lia]).
  unfold builtin_clz. replace (32 - 1 - Z.log2 d - (32 - 1 - Z.log2 n)) with (Z.log2 n - Z.log2 d) by lia.
  destruct (Z.lt_ge_cases (Z.log2 n) (Z.log2 d)) as [Hlt|Hge].
  { rewrite (proj2 (Z.ltb_lt _ _)) by (unfold wrap; divmod).
    symmetry. apply Z.div_small. split; [lia|]. by apply Z.log2_lt_cancel. }
  rewrite wrap_small by lia. rewrite (proj2 (Z.ltb_ge _ _)) by lia.
  destruct (Z.eqb_spec (Z.log2 n - Z.log2 d) 31) as [E|E].
  { assert (Z.log2 d = 0) as E0 by lia. apply Z.log2_null in E0.
    assert (d = 1) as -> by lia. by rewrite Z.div_1_r. }
  rewrite Z.shiftl_mul_pow2, Z.shiftr_div_pow2 by lia. unfold div_loop.
  set (sr := Z.log2 n - Z.log2 d + 1).
  assert (Eq : u32 (n * 2 ^ (32 - sr)) = n mod 2 ^ sr * 2 ^ (32 - sr)).
  { unfold wrap. replace (2 ^ 32) with (2 ^ sr * 2 ^ (32 - sr))
      by (rewrite <- Z.pow_add_r by lia; f_equal; lia).
    by rewrite Z.mul_mod_distr_r by lia. }
  rewrite Eq, (div_loop_run 32 d n sr); try lia.
  - apply quotient_bits; [lia|]. split; [apply Z.div_pos; lia|apply Z.div_lt_upper_bound; nia].
  - apply sr_bound; lia.
  - apply sr_big; lia.
Qed.

(** ** The double-word dividers *)

Definition words_ok (h : Z) (x : words) : Prop := 0 <= low x < 2 ^ h /\ 0 <= high x < 2 ^ h.

Lemma udwords_ok h a : 0 <= h -> words_ok h (udwords h a).
Proof. intros. split; by apply wrap_range. Qed.

Section words2.
Context (h : Z) (Hh : 2 <= h < 2 ^ 30).

Lemma pow_2h : 2 ^ (2 * h) = 2 ^ h * 2 ^ h.
Proof. rewrite <- Z.pow_add_r by lia. f_equal. lia. Qed.

Lemma join_range x : words_ok h x -> 0 <= join h x < 2 ^ (2 * h).
Proof. intros [H1 H2]. unfold join. rewrite pow_2h. nia. Qed.

(** Shifting a bit into a double word, word by word. *)
Lemma shift_in x c : words_ok h x -> 0 <= c <= 1 ->
  let y := {| high := Z.lor (shl h (high x) 1) (Z.shiftr (low x) (h - 1));
              low := Z.lor (shl h (low x) 1) c |} in
  words_ok h y /\ join h y = Z.lor (wrap (2 * h) (Z.shiftl (join h x) 1)) c.
Proof.
  intros [Hl Hhi] Hc y. unfold shl in y. rewrite lor_bit by lia.
  pose proof (half_lt h ltac:(lia)) as Eh. set (K := 2 ^ (h - 1)) in *. assert (0 < K) by (subst K; lia).
  assert (Hb : 0 <= Z.shiftr (low x) (h - 1) <= 1).
  { rewrite Z.shiftr_div_pow2 by lia. fold K. split; [apply Z.div_pos; lia|].
    apply Z.lt_succ_r, Z.div_lt_upper_bound; lia. }
  subst y. rewrite !lor_bit by lia. revert Hb. rewrite Z.shiftr_div_pow2 by lia. fold K. intros Hb.
  unfold words_ok, join, wrap. cbn [low high]. rewrite pow_2h, Eh.
  set (lo := low x) in *. set (hi := high x) in *. clearbody lo hi.
  rewrite !Z.mul_mod_distr_l by lia.
  pose proof (Z.mod_pos_bound lo K ltac:(lia)). pose proof (Z.mod_pos_bound hi K ltac:(lia)).
  pose proof (Z.div_mod lo K ltac:(lia)) as Elo. pose proof (Z.div_mod hi K ltac:(lia)) as Ehi.
  split; [split; lia|].
  replace (2 * (lo + 2 * K * hi))
    with (2 * (lo mod K) + 2 * K * (2 * (hi mod K) + lo / K) + hi / K * (2 * K * (2 * K))).
  2:{ rewrite Elo at 3. rewrite Ehi at 3. ring. }
  assert (0 < 2 * K * (2 * K)) by nia. rewrite Z.mod_add by lia.
  set (a := lo mod K) in *. set (b := hi mod K) in *. set (t := lo / K) in *. clearbody a b t.
  rewrite Z.mod_small; [lia|]. nia.
Qed.

Lemma top_bit x : words_ok h x -> Z.shiftr (high x) (h - 1) = Z.shiftr (join h x) (2 * h - 1).
Proof.
  intros [Hl Hhi]. rewrite !Z.shiftr_div_pow2 by lia. unfold join.
  replace (2 ^ (2 * h - 1)) with (2 ^ h * 2 ^ (h - 1)) by (rewrite <- Z.pow_add_r by lia; f_equal; lia).
  rewrite <- Z.div_div by lia. f_equal. rewrite (Z.mul_comm (2 ^ h)), Z.div_add by lia.
  by rewrite Z.div_small by lia.
Qed.

Lemma bit_range w x : 1 <= w -> 0 <= x < 2 ^ w -> 0 <= Z.shiftr x (w - 1) <= 1.
Proof.
  intros Hw Hx. rewrite Z.shiftr_div_pow2 by lia. pose proof (half_lt w ltac:(lia)).
  split; [apply Z.div_pos; lia|]. apply Z.lt_succ_r, Z.div_lt_upper_bound; lia.
Qed.

(** The double-word turn refines the single-word one at twice the width. *)
Lemma div_step2_ok d q r c :
  words_ok h d -> words_ok h q -> words_ok h r -> 0 <= c <= 1 ->
  let '(q', r', c') := div_step2 h d (q, r, c) in
  words_ok h q' /\ words_ok h r' /\ 0 <= c' <= 1 /\
  div_step (2 * h) (join h d) (join h q, join h r, c) = (join h q', join h r', c').
Proof.
  intros Hd Hq Hr Hc. unfold div_step2, div_step.
  assert (Hb : 0 <= Z.shiftr (high q) (h - 1) <= 1) by (apply bit_range; [lia|apply Hq]).
  destruct (shift_in q c Hq Hc) as [Hq' Eq']. destruct (shift_in r _ Hr Hb) as [Hr' Er'].
  cbv zeta in Eq', Er'. rewrite Eq', Er', (top_bit q) by done.
  split; [done|]. split; [apply udwords_ok; lia|]. split.
  - match goal with |- context [Z.land ?s 1] =>
      rewrite (Z.land_ones s 1 ltac:(lia) : Z.land s 1 = s mod 2);
      pose proof (Z.mod_pos_bound s 2 ltac:(lia)); lia end.
  - f_equal. f_equal. symmetry. apply join_udwords; [lia|]. apply wrap_range. lia.
Qed.

Lemma div_iter2_ok d (k : nat) q r c :
  words_ok h d -> words_ok h q -> words_ok h r -> 0 <= c <= 1 ->
  let '(q', r', c') := Nat.iter k (div_step2 h d) (q, r, c) in
  words_ok h q' /\ words_ok h r' /\ 0 <= c' <= 1 /\
  Nat.iter k (div_step (2 * h) (join h d)) (join h q, join h r, c) = (join h q', join h r', c').
Proof.
  intros Hd Hq Hr Hc. induction k as [|k IH]; [done|]. simpl Nat.iter.
  destruct (Nat.iter k (div_step2 h d) (q, r, c)) as [[q1 r1] c1].
  destruct IH as (Hq1 & Hr1 & Hc1 & ->). by apply div_step2_ok.
Qed.

(** *** The start of the loop *)

Record start_ok (n : Z) (sr : Z) (q r : words) : Prop := {
  so_q : words_ok h q; so_r : words_ok h r;
  so_sr : 0 <= sr <= 2 * h;
  so_jq : join h q = n mod 2 ^ sr * 2 ^ (2 * h - sr);
  so_jr : join h r = n / 2 ^ sr;
}.

Section start.
Context (n : words) (Hn : words_ok h n).
Let N := join h n.

(** Three ways to split a double word at bit [sr]. *)
Lemma start_low sr : 1 <= sr < h ->
  start_ok N sr {| low := 0; high := shl h (low n) (h - sr) |}
    {| high := Z.shiftr (high n) sr; low := Z.lor (shl h (high n) (h - sr)) (Z.shiftr (low n) sr) |}.
Proof.
  intros Hsr. destruct Hn as [Hl Hhi]. unfold shl.
  rewrite !Z.shiftl_mul_pow2, !Z.shiftr_div_pow2 by lia.
  pose proof (pow_split h sr ltac:(lia)) as Eh.
  assert (Em : forall x, wrap h (x * 2 ^ (h - sr)) = 2 ^ (h - sr) * (x mod 2 ^ sr)).
  { intros x. unfold wrap. rewrite Eh, Z.mul_mod_distr_r by lia. lia. }
  rewrite !Em, Z.lor_comm. rewrite lor_disjoint_add by (lia || (apply div_bound; lia)).
  pose proof (div_bound h (low n) sr ltac:(lia) Hl) as Hb.
  pose proof (Z.mod_pos_bound (low n) (2 ^ sr) ltac:(lia)) as Hm.
  pose proof (Z.mod_pos_bound (high n) (2 ^ sr) ltac:(lia)) as Hm'.
  assert (0 <= high n / 2 ^ sr < 2 ^ h).
  { pose proof (div_bound h (high n) sr ltac:(lia) Hhi). nia. }
  subst N. unfold join. split; unfold words_ok, join; cbn [low high].
  - split; [lia|]. rewrite Eh. nia.
  - split; [|lia]. rewrite Eh. nia.
  - lia.
  - replace (2 ^ h * high n) with (2 ^ (h - sr) * high n * 2 ^ sr) by (rewrite Eh; ring).
    rewrite Z.mod_add by lia. replace (2 * h - sr) with (h - sr + h) by lia.
    rewrite (Z.pow_add_r 2 (h - sr)) by lia. lia.
  - rewrite div_words by lia. rewrite (Z.div_mod (high n) (2 ^ sr)) at 3 by lia.
    rewrite Eh. ring.
Qed.

Lemma start_mid : start_ok N h {| low := 0; high := low n |} {| high := 0; low := high n |}.
Proof.
  destruct Hn as [Hl Hhi]. subst N. unfold join. split; unfold words_ok, join; cbn [low high]; [lia..| |].
  - rewrite (Z.mul_comm (2 ^ h) (high n)), Z.mod_add, Z.mod_small by lia.
    replace (2 * h - h) with h by lia. lia.
  - rewrite (Z.mul_comm (2 ^ h) (high n)), Z.div_add, Z.div_small by lia. lia.
Qed.

Lemma start_high sr : h < sr < 2 * h ->
  start_ok N sr
    {| low := shl h (low n) (2 * h - sr);
       high := Z.lor (shl h (high n) (2 * h - sr)) (Z.shiftr (low n) (sr - h)) |}
    {| high := 0; low := Z.shiftr (high n) (sr - h) |}.
Proof.
  intros Hsr. destruct Hn as [Hl Hhi]. unfold shl. set (k := sr - h).
  replace (2 * h - sr) with (h - k) by (subst k; lia).
  rewrite !Z.shiftl_mul_pow2, !Z.shiftr_div_pow2 by lia.
  pose proof (pow_split h k ltac:(lia)) as Eh.
  assert (Em : forall x, wrap h (x * 2 ^ (h - k)) = 2 ^ (h - k) * (x mod 2 ^ k)).
  { intros x. unfold wrap. rewrite Eh, Z.mul_mod_distr_r by lia. lia. }
  rewrite !Em, Z.lor_comm. rewrite lor_disjoint_add by (lia || (apply div_bound; lia)).
  pose proof (div_bound h (low n) k ltac:(lia) Hl) as Hb.
  pose proof (Z.mod_pos_bound (low n) (2 ^ k) ltac:(lia)) as Hm.
  pose proof (Z.mod_pos_bound (high n) (2 ^ k) ltac:(lia)) as Hm'.
  assert (0 <= high n / 2 ^ k < 2 ^ h).
  { pose proof (div_bound h (high n) k ltac:(lia) Hhi). nia. }
  assert (Esr : 2 ^ sr = 2 ^ h * 2 ^ k) by (rewrite <- Z.pow_add_r by lia; f_equal; lia).
  assert (EN : N mod 2 ^ h = low n /\ N / 2 ^ h = high n).
  { subst N. unfold join. rewrite (Z.mul_comm (2 ^ h)), Z.mod_add, Z.div_add by lia.
    rewrite Z.mod_small, Z.div_small by lia. done. }
  destruct EN as [EN1 EN2]. unfold join. split; unfold words_ok, join; cbn [low high].
  - split; rewrite Eh; nia.
  - lia.
  - lia.
  - rewrite Esr, Z.rem_mul_r, EN1, EN2 by lia.
    replace (2 * h - sr) with (h - k) by (subst k; lia).
    rewrite (Z.div_mod (low n) (2 ^ k)) at 3 by lia. rewrite Eh. ring.
  - rewrite Esr, <- Z.div_div, EN2 by lia. lia.
Qed.
End start.
End words2.

Section udivmod.
Context (h : Z) (Hh : 2 <= h < 2 ^ 30).

Definition start_spec (a b : Z) (s : div_start) : Prop :=
  match s with
  | Trap => b = 0
  | Done q r => b <> 0 /\ q = a / b /\ r = a mod b
  | Run sr q r => b <> 0 /\ start_ok h a sr q r /\ a / 2 ^ sr < b /\
                  (2 ^ (2 * h - 1) < b -> 2 ^ (2 * h - 1) <= a /\ sr <= 1)
  end.

Lemma done_spec a b q r : a = b * q + r -> 0 <= r < b -> start_spec a b (Done q r).
Proof.
  intros E Hr. split; [lia|]. split; [by apply (Z.div_unique_pos _ _ _ r)|by apply (Z.mod_unique_pos _ _ q)].
Qed.

Lemma log2_join x : words_ok h x -> high x <> 0 -> Z.log2 (join h x) = h + Z.log2 (high x).
Proof.
  intros [Hl Hhi] Hx. unfold join. pose proof (Z.log2_spec (high x) ltac:(lia)) as [H1 H2].
  pose proof (Z.log2_nonneg (high x)). apply Z.log2_unique; [lia|].
  replace (Z.succ (h + Z.log2 (high x))) with (h + Z.succ (Z.log2 (high x))) by lia.
  rewrite !Z.pow_add_r by lia. assert (0 < 2 ^ h) by lia. nia.
Qed.

Lemma log2_word x : 0 < x < 2 ^ h -> 0 <= Z.log2 x < h.
Proof. intros. split; [apply Z.log2_nonneg|]. apply Z.log2_lt_pow2; lia. Qed.

(** A power of two is recognised by [x & (x - 1)]. *)
Lemma land_pred x : 0 < x -> Z.land x (x - 1) = 0 -> x = 2 ^ builtin_ctz x /\ 0 <= builtin_ctz x.
Proof.
  intros Hx E. destruct (trailing_exists x ltac:(lia)) as (c & Ht).
  pose proof (trailing_ctz _ _ Ht) as ->. destruct Ht as (Hc & m & Em). split; [|done].
  destruct (decide (m = 0)) as [->|Hm0]; [lia|]. exfalso.
  assert (Hp : 0 < 2 ^ c) by lia. assert (Hm : 0 < m) by nia.
  assert (E1 : Z.land x (x - 1) = 2 ^ (c + 1) * m).
  { replace (x - 1) with ((2 ^ c - 1) + 2 ^ (c + 1) * m) by (rewrite Z.pow_add_r by lia; lia).
    rewrite Em. replace (2 ^ c * (2 * m + 1)) with (2 ^ c + 2 ^ (c + 1) * m)
      by (rewrite Z.pow_add_r by lia; lia).
    rewrite land_split by (rewrite ?Z.pow_add_r by lia; lia). rewrite Z.land_diag.
    replace (2 ^ c - 1) with (Z.ones c) by (unfold Z.ones; rewrite Z.shiftl_1_l; lia).
    rewrite Z.land_ones, Z.mod_same by lia. done. }
  assert (0 < 2 ^ (c + 1)) by lia. nia.
Qed.

Lemma land_pow2_pred x c : 0 <= c -> Z.land x (2 ^ c - 1) = x mod 2 ^ c.
Proof.
  intros Hc. replace (2 ^ c - 1) with (Z.ones c) by (unfold Z.ones; rewrite Z.shiftl_1_l; lia).
  by apply Z.land_ones.
Qed.

Lemma u32_neg z : - 2 ^ 30 < z < 0 -> 2 ^ 31 < u32 z.
Proof. unfold wrap. intros. divmod. Qed.

Section cases.
Context (n d : words) (Hn : words_ok h n) (Hd : words_ok h d) (Hnh : high n <> 0).
Let N := join h n.
Let D := join h d.

Lemma N_range : 0 < N < 2 ^ (2 * h).
Proof.
  pose proof (join_range h Hh n Hn) as H. destruct Hn as [Hl Hhi]. fold N in H.
  split; [|lia]. subst N. unfold join. assert (0 < 2 ^ h) by lia. nia.
Qed.

(** The loop's conditions hold when [sr = log2 n - log2 d + 1]. *)
Lemma run_spec sr q r :
  0 < D -> Z.log2 D <= Z.log2 N -> sr = Z.log2 N - Z.log2 D + 1 -> start_ok h N sr q r ->
  start_spec N D (Run sr q r).
Proof.
  intros HD Hl -> Hs. pose proof N_range. split; [lia|]. split; [done|].
  split; [apply sr_bound; lia|apply sr_big; lia].
Qed.

(** A smaller leading bit: the quotient is zero. *)
Lemma less_spec : 0 < D -> Z.log2 N < Z.log2 D -> start_spec N D (Done 0 N).
Proof.
  intros HD Hl. pose proof N_range. apply done_spec; [lia|]. split; [lia|]. by apply Z.log2_lt_cancel.
Qed.

Lemma start_both_ok : high d <> 0 -> low d <> 0 -> start_spec N D (start_both h n d).
Proof.
  intros Hdh Hdl. destruct Hn as [Hnl Hnhi]. destruct Hd as [Hdlo Hdhi].
  pose proof (log2_word (high n) ltac:(lia)) as Hln. pose proof (log2_word (high d) ltac:(lia)) as Hld.
  pose proof (log2_join n Hn Hnh) as EN. pose proof (log2_join d Hd Hdh) as ED. fold N in EN. fold D in ED.
  assert (HD : 0 < D) by (subst D; unfold join; nia).
  unfold start_both, builtin_clz.
  replace (h - 1 - Z.log2 (high d) - (h - 1 - Z.log2 (high n)))
    with (Z.log2 (high n) - Z.log2 (high d)) by lia. fold N.
  destruct (Z.lt_ge_cases (Z.log2 (high n)) (Z.log2 (high d))) as [Hlt|Hge].
  { pose proof (u32_neg (Z.log2 (high n) - Z.log2 (high d)) ltac:(lia)).
    rewrite (proj2 (Z.ltb_lt _ _)) by lia. apply less_spec; [done|lia]. }
  rewrite wrap_small by lia. rewrite (proj2 (Z.ltb_ge _ _)) by lia.
  destruct (Z.eqb_spec (Z.log2 (high n) - Z.log2 (high d) + 1) h) as [E|E].
  - rewrite E. apply run_spec; [done|lia|lia|]. by apply start_mid.
  - apply run_spec; [done|lia|lia|]. apply start_low; [done|done|lia].
Qed.

Lemma start_low0_ok : low d = 0 -> start_spec N D (start_low0 h n d).
Proof.
  intros Hdl. destruct Hn as [Hnl Hnhi]. destruct Hd as [_ Hdhi]. unfold start_low0.
  assert (ED0 : D = 2 ^ h * high d) by (subst D; unfold join; lia).
  destruct (Z.eqb_spec (high d) 0) as [E0|Hdh]; [simpl; lia|].
  pose proof (Z.mod_pos_bound (high n) (high d) ltac:(lia)) as Hmod.
  pose proof (Z.div_mod (high n) (high d) Hdh) as Hdiv.
  assert (Hp : 0 < 2 ^ h) by lia. assert (HD : 0 < D) by nia.
  destruct (Z.eqb_spec (low n) 0) as [Enl|Enl].
  { apply done_spec; unfold N, join in *; cbn [low high]; rewrite ?Enl, ?ED0.
    - rewrite Hdiv at 1. ring.
    - nia. }
  destruct (Z.eqb_spec (Z.land (high d) (high d - 1)) 0) as [Ep|Ep].
  { destruct (land_pred (high d) ltac:(lia) Ep) as [Ec Hc]. set (c := builtin_ctz (high d)) in *.
    rewrite Z.shiftr_div_pow2 by lia. rewrite Ec, land_pow2_pred by lia. rewrite Ec in *.
    apply done_spec; unfold N, join in *; cbn [low high]; rewrite ED0.
    - rewrite Hdiv at 1. ring.
    - nia. }
  pose proof (log2_word (high n) ltac:(lia)) as Hln. pose proof (log2_word (high d) ltac:(lia)) as Hld.
  pose proof (log2_join n Hn Hnh) as EN. pose proof (log2_join d Hd Hdh) as ED. fold N in EN. fold D in ED.
  unfold builtin_clz.
  replace (h - 1 - Z.log2 (high d) - (h - 1 - Z.log2 (high n)))
    with (Z.log2 (high n) - Z.log2 (high d)) by lia. fold N.
  destruct (Z.lt_ge_cases (Z.log2 (high n)) (Z.log2 (high d))) as [Hlt|Hge].
  { pose proof (u32_neg (Z.log2 (high n) - Z.log2 (high d)) ltac:(lia)).
    rewrite (proj2 (Z.ltb_lt _ _)) by lia. apply less_spec; [done|lia]. }
  rewrite wrap_small by lia.
  assert (Hl0 : 0 < Z.log2 (high d)).
  { destruct (Z.eq_dec (Z.log2 (high d)) 0) as [E|]; [|lia]. exfalso. apply Z.log2_null in E.
    apply Ep. by replace (high d) with 1 by lia. }
  rewrite (proj2 (Z.ltb_ge _ _)) by lia.
  apply run_spec; [done|lia|lia|]. apply start_low; [done|done|lia].
Qed.

Lemma start_high0_ok : high d = 0 -> low d <> 0 -> start_spec N D (start_high0 h n d).
Proof.
  intros Hdh Hdl. destruct Hn as [Hnl Hnhi]. destruct Hd as [Hdlo _]. unfold start_high0.
  assert (ED0 : D = low d) by (subst D; unfold join; lia).
  assert (Hp : 0 < 2 ^ h) by lia.
  pose proof (log2_word (high n) ltac:(lia)) as Hln. pose proof (log2_word (low d) ltac:(lia)) as Hld.
  pose proof (log2_join n Hn Hnh) as EN. fold N in EN.
  destruct (Z.eqb_spec (Z.land (low d) (low d - 1)) 0) as [Ep|Ep].
  - destruct (land_pred (low d) ltac:(lia) Ep) as [Ec Hc]. set (c := builtin_ctz (low d)) in *.
    destruct (Z.eqb_spec (low d) 1) as [E1|E1].
    { rewrite E1. change (1 - 1) with 0. rewrite Z.land_0_r. fold N. apply done_spec; lia. }
    assert (Hc1 : 1 <= c < h).
    { rewrite Ec, Z.log2_pow2 in Hld by lia. split; [|lia].
      destruct (Z.eq_dec c 0) as [E|]; [|lia]. exfalso. rewrite E in Ec. by apply E1. }
    destruct (start_low h Hh n Hn c Hc1) as [_ Hr _ _ Er]. fold N in Er. rewrite Er.
    rewrite Ec, land_pow2_pred by lia.
    assert (EN2 : N mod 2 ^ c = low n mod 2 ^ c).
    { subst N. unfold join. rewrite (pow_split h c) by lia.
      replace (2 ^ c * 2 ^ (h - c) * high n) with (2 ^ (h - c) * high n * 2 ^ c) by ring.
      by apply Z.mod_add; lia. }
    rewrite <- EN2. apply done_spec; rewrite ED0, Ec; [apply Z.div_mod; lia|apply Z.mod_pos_bound; lia].
  - unfold builtin_clz.
    replace (1 + h + (h - 1 - Z.log2 (low d)) - (h - 1 - Z.log2 (high n)))
      with (Z.log2 N - Z.log2 D + 1) by (rewrite EN, ED0; lia).
    assert (Hl0 : 0 < Z.log2 (low d)).
    { destruct (Z.eq_dec (Z.log2 (low d)) 0) as [E|]; [|lia]. exfalso. apply Z.log2_null in E.
      apply Ep. by replace (low d) with 1 by lia. }
    set (sr := Z.log2 N - Z.log2 D + 1). assert (Hsr : 2 <= sr < 2 * h) by (subst sr; rewrite EN, ED0; lia).
    rewrite wrap_small by lia. assert (HD : 0 < D) by lia.
    assert (Hle : Z.log2 D <= Z.log2 N) by (rewrite EN, ED0; lia).
    destruct (Z.eqb_spec sr h) as [E|E].
    { rewrite E. apply run_spec; [done|done|by rewrite <- E|by apply start_mid]. }
    destruct (Z.ltb_spec sr h) as [Hlt|Hge]; (apply run_spec; [done|done|done|]).
    + apply start_low; [done|done|lia].
    + apply start_high; [done|done|lia].
Qed.
End cases.

Lemma udivmod_start_ok n d : words_ok h n -> words_ok h d ->
  start_spec (join h n) (join h d) (udivmod_start h n d).
Proof.
  intros Hn Hd. unfold udivmod_start. pose proof Hn as [Hnl Hnh]. pose proof Hd as [Hdl Hdh].
  assert (Hp : 0 < 2 ^ h) by lia.
  destruct (Z.eqb_spec (high n) 0) as [En|En].
  - assert (EN : join h n = low n) by (unfold join; lia). rewrite EN.
    destruct (Z.eqb_spec (high d) 0) as [Ed|Ed].
    + assert (ED : join h d = low d) by (unfold join; lia). rewrite ED.
      destruct (Z.eqb_spec (low d) 0); [done|]. done.
    + apply done_spec; unfold join; nia.
  - destruct (Z.eqb_spec (low d) 0) as [Ed|Ed]; [by apply start_low0_ok|].
    destruct (Z.eqb_spec (high d) 0); [by apply start_high0_ok|by apply start_both_ok].
Qed.

Lemma udivmod_ok a b : 0 <= a < 2 ^ (2 * h) -> 0 <= b < 2 ^ (2 * h) ->
  udivmod h a b = if b =? 0 then None else Some (a / b, a mod b).
Proof.
  intros Ha Hb. unfold udivmod.
  pose proof (udwords_ok h a ltac:(lia)) as Hn. pose proof (udwords_ok h b ltac:(lia)) as Hd.
  pose proof (join_udwords h a ltac:(lia) Ha) as Ea. pose proof (join_udwords h b ltac:(lia) Hb) as Eb.
  pose proof (udivmod_start_ok _ _ Hn Hd) as Hs. rewrite Ea, Eb in Hs.
  destruct (udivmod_start h (udwords h a) (udwords h b)) as [q r| |sr q r]; simpl in Hs.
  - destruct Hs as (Hb0 & -> & ->). by rewrite (proj2 (Z.eqb_neq b 0)).
  - by rewrite (proj2 (Z.eqb_eq b 0)).
  - destruct Hs as (Hb0 & [Hq Hr Hsr Ejq Ejr] & Hlt & Hbig). rewrite (proj2 (Z.eqb_neq b 0)) by done.
    pose proof (div_iter2_ok h Hh (udwords h b) (Z.to_nat sr) q r 0 Hd Hq Hr ltac:(lia)) as Hi.
    destruct (Nat.iter (Z.to_nat sr) (div_step2 h (udwords h b)) (q, r, 0)) as [[q' r'] c'].
    destruct Hi as (Hq' & Hr' & Hc' & Ei). rewrite Ejq, Ejr, Eb in Ei.
    rewrite (div_loop_run (2 * h) b a sr) in Ei by (lia || done). injection Ei as E1 E2 E3.
    rewrite <- E1, <- E2, <- E3. f_equal. f_equal. apply quotient_bits; [lia|].
    split; [apply Z.div_pos; lia|]. apply Z.div_lt_upper_bound; nia.
Qed.
End udivmod.

(** ** Signed division *)

Section signed.
Context (w : Z) (Hw : 2 <= w).

Lemma magnitude_ok a : signed_range w a -> magnitude w a = Z.abs a.
Proof.
  intros Ha. unfold magnitude. change (Z.lxor a (sign_of w a) - sign_of w a) with (abs_of w a).
  rewrite abs_of_ok by (lia || done). unfold wrap. rewrite swrap_mod by lia.
  apply Z.mod_small. pose proof (half_lt w ltac:(lia)). unfold signed_range in Ha. lia.
Qed.

Lemma with_sign_ok q (n : bool) : 0 <= q < 2 ^ w ->
  with_sign w q (if n then -1 else 0) = swrap w (if n then - q else q).
Proof.
  intros Hq. unfold with_sign. apply swrap_eq; [lia|]. unfold wrap. rewrite Z.mod_mod by lia.
  destruct n.
  - assert (Em : (-1) mod 2 ^ w = Z.ones w).
    { unfold Z.ones. rewrite Z.shiftl_1_l. symmetry. apply (Z.mod_unique_pos _ _ (-1)); lia. }
    rewrite Em.
    assert (Ex : Z.lxor q (Z.ones w) = Z.ones w - q).
    { rewrite Z.lxor_comm. symmetry. apply Z.bits_inj'. intros i Hi.
      replace (Z.ones w - q) with (Z.lnot q mod 2 ^ w).
      2:{ unfold Z.ones, Z.lnot. rewrite Z.shiftl_1_l. symmetry. apply (Z.mod_unique_pos _ _ (-1)); lia. }
      rewrite Z.lxor_spec. destruct (Z.lt_ge_cases i w).
      - rewrite Z.mod_pow2_bits_low, Z.lnot_spec, Z.ones_spec_low by lia. by destruct (Z.testbit q i).
      - rewrite Z.mod_pow2_bits_high, Z.ones_spec_high by lia.
        by rewrite (proj1 (pow2_bound_iff w ltac:(lia) q ltac:(lia))) by lia. }
    rewrite Ex. f_equal. lia.
  - rewrite Z.mod_0_l, Z.lxor_0_r, Z.sub_0_r by lia. done.
Qed.

Lemma lxor_signs a b : signed_range w a -> signed_range w b ->
  Z.lxor (sign_of w a) (sign_of w b) = if xorb (a <? 0) (b <? 0) then -1 else 0.
Proof.
  intros Ha Hb. rewrite !sign_of_ok by (lia || done). by destruct (a <? 0), (b <? 0).
Qed.

Lemma quot_signs a b : b <> 0 ->
  Z.quot a b = if xorb (a <? 0) (b <? 0) then - (Z.abs a / Z.abs b) else Z.abs a / Z.abs b.
Proof.
  intros Hb. rewrite <- Z.quot_div_nonneg by lia.
  destruct (Z.ltb_spec a 0), (Z.ltb_spec b 0); simpl xorb; cbv iota.
  - rewrite !Z.abs_neq by lia. by rewrite Z.quot_opp_opp.
  - rewrite Z.abs_neq, Z.abs_eq by lia. rewrite Z.quot_opp_l by lia. lia.
  - rewrite Z.abs_eq, Z.abs_neq by lia. rewrite Z.quot_opp_r by lia. lia.
  - by rewrite !Z.abs_eq.
Qed.

Lemma quot_bound a b : signed_range w a -> b <> 0 -> 0 <= Z.abs a / Z.abs b < 2 ^ w.
Proof.
  intros Ha Hb. pose proof (half_lt w ltac:(lia)). unfold signed_range in Ha.
  split; [apply Z.div_pos; lia|]. apply Z.div_lt_upper_bound; [lia|]. nia.
Qed.

Lemma signed_quotient a b : signed_range w a -> signed_range w b -> b <> 0 ->
  with_sign w (Z.abs a / Z.abs b) (Z.lxor (sign_of w a) (sign_of w b)) = swrap w (Z.quot a b).
Proof.
  intros Ha Hb Hb0. rewrite lxor_signs, with_sign_ok, quot_signs by (done || by apply quot_bound). done.
Qed.

Lemma rem_signs a b : b <> 0 -> Z.rem a b = if a <? 0 then - (Z.abs a mod Z.abs b) else Z.abs a mod Z.abs b.
Proof.
  intros Hb. rewrite <- Z.rem_mod_nonneg by lia. rewrite Z.rem_abs_r by lia.
  destruct (Z.ltb_spec a 0).
  - rewrite Z.abs_neq by lia. rewrite Z.rem_opp_l by lia. lia.
  - by rewrite Z.abs_eq.
Qed.
End signed.

Lemma divsi3_ok a b : signed_range 32 a -> signed_range 32 b ->
  divsi3 a b = if b =? 0 then None else Some (s32 (Z.quot a b)).
Proof.
  intros Ha Hb. unfold divsi3. rewrite !magnitude_ok by (lia || done).
  destruct (Z.eqb_spec b 0) as [->|Hb0]; [done|]. rewrite (proj2 (Z.eqb_neq _ 0)) by lia.
  f_equal. by apply signed_quotient.
Qed.

Section signed2.
Context (h : Z) (Hh : 2 <= h < 2 ^ 30).
Let w := 2 * h.

Lemma udivmod_magnitudes a b : signed_range w a -> signed_range w b ->
  udivmod (w / 2) (magnitude w a) (magnitude w b) =
    if b =? 0 then None else Some (Z.abs a / Z.abs b, Z.abs a mod Z.abs b).
Proof.
  intros Ha Hb. replace (w / 2) with h by (subst w; divmod).
  rewrite !magnitude_ok by (lia || done).
  pose proof (half_lt w ltac:(lia)). unfold signed_range in *.
  rewrite udivmod_ok by (fold w; lia).
  destruct (Z.eqb_spec b 0) as [->|Hb0]; [done|]. by rewrite (proj2 (Z.eqb_neq _ 0)) by lia.
Qed.

Lemma div_ok a b : signed_range w a -> signed_range w b ->
  div w a b = if b =? 0 then None else Some (swrap w (Z.quot a b)).
Proof.
  intros Ha Hb. unfold div. rewrite udivmod_magnitudes by done.
  destruct (Z.eqb_spec b 0) as [|Hb0]; [done|]. simpl. f_equal. apply signed_quotient; (done || lia).
Qed.

Lemma mod_ok a b : signed_range w a -> signed_range w b ->
  mod_ w a b = if b =? 0 then None else Some (Z.rem a b).
Proof.
  intros Ha Hb. unfold mod_. rewrite udivmod_magnitudes by done.
  destruct (Z.eqb_spec b 0) as [|Hb0]; [done|]. simpl. f_equal.
  pose proof (half_lt w ltac:(lia)). pose proof Ha as [Ha1 Ha2]. pose proof Hb as [Hb1 Hb2].
  pose proof (Z.mod_pos_bound (Z.abs a) (Z.abs b) ltac:(lia)) as Hm.
  rewrite (swrap_small w (_ mod _)), sign_of_ok, mask_neg by (lia || done).
  rewrite <- rem_signs by done. apply swrap_small; [lia|]. rewrite rem_signs by done.
  destruct (a <? 0); lia.
Qed.
End signed2.

(** ** What the dividers promise *)

(** C30. The unsigned dividers: [__udivmoddi4] and [__udivmodti4], through their
    special cases and the shift-subtract loop, give the quotient and the
    remainder of every pair of operands, and trap on a zero divisor; so do
    the functions on top of them.  [__udivsi3] gives the quotient and 0 on a zero
    divisor. *)
Theorem udivmod_exact h a b :
  h = 32 \/ h = 64 -> 0 <= a < 2 ^ (2 * h) -> 0 <= b < 2 ^ (2 * h) ->
  udivmod h a b = (if b =? 0 then None else Some (a / b, a mod b)) /\
  udiv h a b = (if b =? 0 then None else Some (a / b)) /\
  umod h a b = (if b =? 0 then None else Some (a mod b)).
Proof.
  intros Hh Ha Hb. assert (Hr : 2 <= h < 2 ^ 30) by lia.
  unfold udiv, umod. rewrite udivmod_ok by done. by destruct (b =? 0).
Qed.

Lemma udivmod_exact_witness :
  udivmoddi4 (2 ^ 63 + 12345678901) (3 * 2 ^ 32 + 7) =
    Some ((2 ^ 63 + 12345678901) / (3 * 2 ^ 32 + 7), (2 ^ 63 + 12345678901) mod (3 * 2 ^ 32 + 7)) /\
  udivdi3 (2 ^ 63 + 12345678901) (3 * 2 ^ 32 + 7) = Some ((2 ^ 63 + 12345678901) / (3 * 2 ^ 32 + 7)) /\
  umoddi3 (2 ^ 63 + 12345678901) (3 * 2 ^ 32 + 7) = Some ((2 ^ 63 + 12345678901) mod (3 * 2 ^ 32 + 7)).
Proof.
  apply (udivmod_exact 32 (2 ^ 63 + 12345678901) (3 * 2 ^ 32 + 7)); [by left|lia|lia].
Defined.

(** The single-word unsigned functions: [__udivsi3] by its loop gives the
    quotient (0 for a zero divisor), [__umodsi3] and [__udivmodsi4] the remainder. *)
Theorem udivsi3_exact a b :
  0 <= a < 2 ^ 32 -> 0 <= b < 2 ^ 32 ->
  udivsi3 a b = a / b /\ umodsi3 a b = a mod b /\ udivmodsi4 a b = (a / b, a mod b).
Proof.
  intros Ha Hb.
  assert (Eq : udivsi3 a b = a / b).
  { destruct (Z.eq_dec b 0) as [->|]; [by rewrite Z.div_0_r|]. apply udivsi3_ok; lia. }
  assert (Hq : 0 <= a / b < 2 ^ 32).
  { destruct (Z.eq_dec b 0) as [->|]; [rewrite Z.div_0_r; lia|].
    split; [apply Z.div_pos; lia|]. apply Z.div_lt_upper_bound; nia. }
  assert (Er : u32 (a - u32 (a / b * b)) = a mod b).
  { destruct (Z.eq_dec b 0) as [->|]; [rewrite Z.mod_0_r_ext by done; rewrite Z.mul_0_r|].
    - rewrite (wrap_small 32 0), Z.sub_0_r by lia. apply wrap_small. lia.
    - pose proof (Z.div_mod a b ltac:(lia)). pose proof (Z.mod_pos_bound a b ltac:(lia)).
      rewrite (wrap_small 32 (a / b * b)) by lia.
      replace (a - a / b * b) with (a mod b) by lia. apply wrap_small. lia. }
  unfold umodsi3, udivmodsi4. rewrite Eq.
  assert (Ed : u32 (s32 (a / b)) = a / b).
  { unfold wrap. rewrite swrap_mod by lia. by apply Z.mod_small. }
  by rewrite Ed, Er.
Qed.

Lemma udivsi3_exact_witness :
  udivsi3 4000000000 7 = 4000000000 / 7 /\ umodsi3 4000000000 7 = 4000000000 mod 7 /\
  udivmodsi4 4000000000 7 = (4000000000 / 7, 4000000000 mod 7).
Proof. apply (udivsi3_exact 4000000000 7); lia. Defined.

(** The signed functions, through sign masks and the unsigned dividers:
    C division and remainder, truncating toward zero (the one quotient that does
    not fit, [MIN / -1], wraps), and a trap on a zero divisor. *)
Theorem signed_division_truncates h a b :
  h = 32 \/ h = 64 -> signed_range (2 * h) a -> signed_range (2 * h) b ->
  div (2 * h) a b = (if b =? 0 then None else Some (swrap (2 * h) (Z.quot a b))) /\
  mod_ (2 * h) a b = (if b =? 0 then None else Some (Z.rem a b)) /\
  (signed_range 32 a -> signed_range 32 b ->
     divsi3 a b = (if b =? 0 then None else Some (s32 (Z.quot a b))) /\
     modsi3 a b = (if b =? 0 then None else Some (s32 (Z.rem a b)))).
Proof.
  intros Hh Ha Hb. assert (Hr : 2 <= h < 2 ^ 30) by lia.
  split; [by apply div_ok|]. split; [by apply mod_ok|]. intros Ha' Hb'.
  unfold modsi3. rewrite divsi3_ok by done. split; [done|].
  destruct (Z.eqb_spec b 0) as [|Hb0]; [done|]. simpl. f_equal. apply swrap_eq; [lia|].
  rewrite Zminus_mod, swrap_mod, <- Z.mul_mod_idemp_l, swrap_mod by lia.
  rewrite Z.mul_mod_idemp_l, <- Zminus_mod by lia. f_equal.
  pose proof (Z.quot_rem' a b). lia.
Qed.

Lemma signed_division_truncates_witness :
  divdi3 (-7) 2 = Some (s64 (Z.quot (-7) 2)) /\ moddi3 (-7) 2 = Some (Z.rem (-7) 2) /\
  (signed_range 32 (-7) -> signed_range 32 2 ->
     divsi3 (-7) 2 = Some (s32 (Z.quot (-7) 2)) /\ modsi3 (-7) 2 = Some (s32 (Z.rem (-7) 2))).
Proof.
  apply (signed_division_truncates 32 (-7) 2); [by left|unfold signed_range; lia..].
Defined.
