(* ===== verification/Utf8.v ===== *)
(** * Multibyte characters (src/src/musl/src/multibyte)

    The UTF-8 decoder with its packed state, the encoder, and the UTF-16
    conversions on top of them.  [utf8] says which of the two locale encodings is
    current ([MB_CUR_MAX] 4 or 1).  The shift state is the [unsigned] the
    [mbstate_t] starts with; the function-local static states are passed like
    any other.  A result [-1] is the one that sets [errno] to [EILSEQ]. *)
From S2P Require Import Prelude Mem.

(** ** The C functions *)

(** [internal.h] *)
Definition OOB (c b : Z) : bool :=
  nz (Z.land (Z.lor (Z.shiftr b 3 - 0x10) (Z.shiftr b 3 + Z.shiftr (s32 c) 26)) (Z.lnot 7)).
Definition R (a b : Z) : Z := u32 (Z.shiftl (u32 (if a =? 0x80 then 0x40 - b else 0 - a)) 23).
Definition SA : Z := 0xc2.
Definition SB : Z := 0xf4.
Definition CODEUNIT (c : Z) : Z := Z.land 0xdfff (s8 c).
Definition IS_CODEUNIT (c : Z) : bool := u32 (u32 c - 0xdf80) <? 0x80.

(** [internal.c] *)
Definition C (x : Z) : Z := if x <? 2 then -1 else Z.lor (R 0x80 0xc0) x.
Definition D (x : Z) : Z := C (x + 16).
Definition E (x : Z) : Z :=
  Z.lor (Z.lor (if x =? 0 then R 0xa0 0xc0 else if x =? 0xd then R 0x80 0xa0 else R 0x80 0xc0)
               (Z.shiftr (R 0x80 0xc0) 6)) x.
Definition F (x : Z) : Z :=
  Z.lor (Z.lor (Z.lor (if 5 <=? x then 0 else if x =? 0 then R 0x90 0xc0
                       else if x =? 4 then R 0x80 0x90 else R 0x80 0xc0)
                      (Z.shiftr (R 0x80 0xc0) 6)) (Z.shiftr (R 0x80 0xc0) 12)) x.
Definition bittab : list Z :=
  (C <$> seqZ 0x2 14) ++ (D <$> seqZ 0 16) ++ (E <$> seqZ 0 16) ++ (F <$> seqZ 0 5).

Definition EOF : Z := -1.
Definition WEOF : Z := 0xffffffff.

(** [size_t] results. *)
Definition ILSEQ : Z := u64 (-1).
Definition MORE : Z := u64 (-2).

(** [*s-SA > SB-SA], in [unsigned]. *)
Definition not_lead (b : Z) : bool := SB - SA <? u32 (b - SA).
(** [*s-0x80u >= 0x40] *)
Definition not_cont (b : Z) : bool := 0x40 <=? u32 (b - 0x80).
(** [c<<6 | *s-0x80] *)
Definition shift_in (c b : Z) : Z := u32 (Z.lor (u32 (Z.shiftl c 6)) (b - 0x80)).
Definition top_bit (c : Z) : bool := nz (Z.land c (2 ^ 31)).

(** What [mbrtowc] returns, what it stores in [*wc] if it does, and the state. *)
Record mb := { mb_ret : Z; mb_wc : option Z; mb_st : Z }.

(** The loop from the label [loop:]: [k] more bytes of the [N] are left. *)
Fixpoint mbrtowc_loop (fuel : nat) (m : mem) (N c s n : Z) : option mb :=
  match fuel with
  | O => None
  | S fuel' =>
      b ← load8 m s;
      let c := shift_in c b in
      let s := s + 1 in
      let n := n - 1 in
      if negb (top_bit c) then
        Some {| mb_ret := u64 (N - n); mb_wc := Some (s32 c); mb_st := 0 |}
      else if nz n then
        b ← load8 m s;
        if not_cont b then Some {| mb_ret := ILSEQ; mb_wc := None; mb_st := 0 |}
        else mbrtowc_loop fuel' m N c s n
      else Some {| mb_ret := MORE; mb_wc := None; mb_st := c |}
  end.

Definition mbrtowc (utf8 : bool) (m : mem) (src n st : Z) : option mb :=
  let s := src in
  let N := u32 n in
  let c := st in
  let ilseq := Some {| mb_ret := ILSEQ; mb_wc := None; mb_st := 0 |} in
  let resume c s n :=
    if nz n then
      b ← load8 m s;
      if OOB c b then ilseq else mbrtowc_loop 4 m N c s n
    else Some {| mb_ret := MORE; mb_wc := None; mb_st := c |} in
  if s =? 0 then (if nz c then ilseq else Some {| mb_ret := 0; mb_wc := None; mb_st := c |})
  else if negb (nz n) then Some {| mb_ret := MORE; mb_wc := None; mb_st := c |}
  else if negb (nz c) then
    b ← load8 m s;
    if b <? 0x80 then Some {| mb_ret := b2z (nz b); mb_wc := Some b; mb_st := c |}
    else if negb utf8 then Some {| mb_ret := 1; mb_wc := Some (CODEUNIT b); mb_st := c |}
    else if not_lead b then ilseq
    else
      c ← bittab !! Z.to_nat (b - SA);
      resume (u32 c) (s + 1) (n - 1)
  else resume c s n.

Definition mbrlen (utf8 : bool) (m : mem) (s n st : Z) : option mb := mbrtowc utf8 m s n st.

(** The value returned (an [int]) and the one stored. *)
Definition mbtowc (utf8 : bool) (m : mem) (src n : Z) : option (Z * option Z) :=
  let s := src in
  let ilseq := Some (-1, None) in
  if s =? 0 then Some (0, None)
  else if negb (nz n) then ilseq
  else
    b ← load8 m s;
    if b <? 0x80 then Some (b2z (nz b), Some b)
    else if negb utf8 then Some (1, Some (CODEUNIT b))
    else if not_lead b then ilseq
    else
      c ← bittab !! Z.to_nat (b - SA);
      let c := u32 c in
      let s := s + 1 in
      if (n <? 4) && top_bit (u32 (Z.shiftl c (6 * n - 6))) then ilseq
      else
        b ← load8 m s;
        if OOB c b then ilseq
        else
          let c := shift_in c b in
          let s := s + 1 in
          if negb (top_bit c) then Some (2, Some (s32 c))
          else
            b ← load8 m s;
            if not_cont b then ilseq
            else
              let c := shift_in c b in
              let s := s + 1 in
              if negb (top_bit c) then Some (3, Some (s32 c))
              else
                b ← load8 m s;
                if not_cont b then ilseq else Some (4, Some (s32 (shift_in c b))).

Definition mblen (utf8 : bool) (m : mem) (s n : Z) : option Z :=
  '(r, _) ← mbtowc utf8 m s n; Some r.

Definition mbsinit (st : option Z) : bool :=
  match st with None => true | Some c => negb (nz c) end.

Definition btowc (utf8 : bool) (c : Z) : Z :=
  let b := u8 c in
  if b <? 128 then b
  else if negb utf8 && negb (c =? EOF) then CODEUNIT c else WEOF.

Definition wctob (utf8 : bool) (c : Z) : Z :=
  if c <? 128 then c else if negb utf8 && IS_CODEUNIT c then u8 c else EOF.

(** [wcrtomb]; [wc] is a [wchar_t], which is a signed [int]. *)
Definition wcrtomb (utf8 : bool) (m : mem) (s wc : Z) : option (Z * mem) :=
  if s =? 0 then Some (1, m)
  else if u32 wc <? 0x80 then m ← store8 m s wc; Some (1, m)
  else if negb utf8 then
    (if negb (IS_CODEUNIT wc) then Some (ILSEQ, m) else m ← store8 m s wc; Some (1, m))
  else if u32 wc <? 0x800 then
    m ← store8 m s (Z.lor 0xc0 (Z.shiftr wc 6));
    m ← store8 m (s + 1) (Z.lor 0x80 (Z.land wc 0x3f));
    Some (2, m)
  else if (u32 wc <? 0xd800) || (u32 (wc - 0xe000) <? 0x2000) then
    m ← store8 m s (Z.lor 0xe0 (Z.shiftr wc 12));
    m ← store8 m (s + 1) (Z.lor 0x80 (Z.land (Z.shiftr wc 6) 0x3f));
    m ← store8 m (s + 2) (Z.lor 0x80 (Z.land wc 0x3f));
    Some (3, m)
  else if u32 (wc - 0x10000) <? 0x100000 then
    m ← store8 m s (Z.lor 0xf0 (Z.shiftr wc 18));
    m ← store8 m (s + 1) (Z.lor 0x80 (Z.land (Z.shiftr wc 12) 0x3f));
    m ← store8 m (s + 2) (Z.lor 0x80 (Z.land (Z.shiftr wc 6) 0x3f));
    m ← store8 m (s + 3) (Z.lor 0x80 (Z.land wc 0x3f));
    Some (4, m)
  else Some (ILSEQ, m).

Definition wctomb (utf8 : bool) (m : mem) (s wc : Z) : option (Z * mem) :=
  if s =? 0 then Some (0, m) else '(r, m) ← wcrtomb utf8 m s wc; Some (s32 r, m).

Definition c32rtomb (utf8 : bool) (m : mem) (s c32 : Z) : option (Z * mem) := wcrtomb utf8 m s (s32 c32).

(** [c16rtomb]: the result, the state and the memory; [c16] is in [0, 2^16). *)
Definition c16rtomb (utf8 : bool) (m : mem) (s c16 x : Z) : option (Z * Z * mem) :=
  if s =? 0 then (if nz x then Some (ILSEQ, 0, m) else Some (1, x, m))
  else if negb (nz x) && (u32 (c16 - 0xd800) <? 0x400) then
    Some (0, u32 (Z.shiftl (c16 - 0xd7c0) 10), m)
  else if nz x then
    if 0x400 <=? u32 (c16 - 0xdc00) then Some (ILSEQ, 0, m)
    else
      let wc := s32 (x + c16 - 0xdc00) in
      '(r, m) ← wcrtomb utf8 m s wc; Some (r, 0, m)
  else '(r, m) ← wcrtomb utf8 m s c16; Some (r, x, m).

(** [mbrtoc16] on a non-null [s]: [mb_wc] is what it stores in [*pc16]. *)
Definition mbrtoc16 (utf8 : bool) (m : mem) (s n ps : Z) : option mb :=
  if 0 <? s32 ps then
    Some {| mb_ret := u64 (-3); mb_wc := Some (u16 ps); mb_st := 0 |}
  else
    r ← mbrtowc utf8 m s n ps;
    if mb_ret r <=? 4 then
      match mb_wc r with
      | None => Some r
      | Some wc =>
          if 0x10000 <=? wc then
            Some {| mb_ret := mb_ret r; mb_wc := Some (u16 (0xd7c0 + Z.shiftr wc 10));
                    mb_st := u32 (Z.land wc 0x3ff + 0xdc00) |}
          else Some {| mb_ret := mb_ret r; mb_wc := Some (u16 wc); mb_st := mb_st r |}
      end
    else Some r.

Definition mbrtoc32 (utf8 : bool) (m : mem) (s n ps : Z) : option mb :=
  r ← mbrtowc utf8 m s n ps;
  Some (if mb_ret r <=? 4 then {| mb_ret := mb_ret r; mb_wc := option_map u32 (mb_wc r); mb_st := mb_st r |}
        else {| mb_ret := mb_ret r; mb_wc := None; mb_st := mb_st r |}).

Example bittab_len : length bittab = 51%nat.
Proof. reflexivity. Qed.

Example mbrtowc_ex :
  mbrtowc true (write_bytes ∅ 16 [0xf0; 0x9f; 0x98; 0x80]) 16 4 0 =
    Some {| mb_ret := 4; mb_wc := Some 0x1f600; mb_st := 0 |}.
Proof. vm_compute. reflexivity. Qed.

(** ** UTF-8 *)

(** Unicode scalar values. *)
Definition scalar (c : Z) : Prop := 0 <= c < 0xd800 \/ 0xe000 <= c < 0x110000.
Definition scalar_b (c : Z) : bool := ((0 <=? c) && (c <? 0xd800)) || ((0xe000 <=? c) && (c <? 0x110000)).

Definition utf8_encode (c : Z) : list Z :=
  if c <? 0x80 then [c]
  else if c <? 0x800 then [0xc0 + c / 64; 0x80 + c mod 64]
  else if c <? 0x10000 then [0xe0 + c / 4096; 0x80 + c / 64 mod 64; 0x80 + c mod 64]
  else [0xf0 + c / 262144; 0x80 + c / 4096 mod 64; 0x80 + c / 64 mod 64; 0x80 + c mod 64].

(** ** The decoder as an automaton

    A partial character: its length, the continuation bytes still to come, and
    the value of the bits read so far. *)
Record partial := { p_len : Z; p_rem : Z; p_val : Z }.

(** The values that some scalar of that length has as its leading bits. *)
Definition val_ok (len rem v : Z) : bool :=
  if len =? 2 then (if rem =? 1 then (2 <=? v) && (v <? 32) else (128 <=? v) && (v <? 2048))
  else if len =? 3 then
    (if rem =? 2 then (0 <=? v) && (v <? 16)
     else if rem =? 1 then (32 <=? v) && (v <? 1024) && negb ((864 <=? v) && (v <? 896))
     else (2048 <=? v) && (v <? 65536) && negb ((0xd800 <=? v) && (v <? 0xe000)))
  else
    (if rem =? 3 then (0 <=? v) && (v <? 5)
     else if rem =? 2 then (16 <=? v) && (v <? 272)
     else if rem =? 1 then (1024 <=? v) && (v <? 17408)
     else (65536 <=? v) && (v <? 0x110000)).

Definition partial_ok (p : partial) : Prop :=
  2 <= p_len p <= 4 /\ 1 <= p_rem p < p_len p /\ val_ok (p_len p) (p_rem p) (p_val p) = true.

Inductive step_result : Type := Char (c : Z) | More (p : partial) | Bad.

(** The first byte of a multibyte character. *)
Definition lead (b : Z) : step_result :=
  if (0xc2 <=? b) && (b <? 0xe0) then More {| p_len := 2; p_rem := 1; p_val := b - 0xc0 |}
  else if (0xe0 <=? b) && (b <? 0xf0) then More {| p_len := 3; p_rem := 2; p_val := b - 0xe0 |}
  else if (0xf0 <=? b) && (b <? 0xf5) then More {| p_len := 4; p_rem := 3; p_val := b - 0xf0 |}
  else Bad.

(** A further byte. *)
Definition cont (p : partial) (b : Z) : step_result :=
  let v := p_val p * 64 + (b - 0x80) in
  if (0x80 <=? b) && (b <? 0xc0) && val_ok (p_len p) (p_rem p - 1) v then
    if p_rem p =? 1 then Char v else More {| p_len := p_len p; p_rem := p_rem p - 1; p_val := v |}
  else Bad.

Inductive outcome : Type :=
  | OChar (c : Z) (used : Z)
  | OMore (p : option partial)
  | OBad.

(** The automaton on a list of bytes, from between characters ([None]) or inside
    one; [used] counts the bytes read. *)
Fixpoint decode_from (p : partial) (bs : list Z) (used : Z) : outcome :=
  match bs with
  | [] => OMore (Some p)
  | b :: bs' =>
      match cont p b with
      | Char c => OChar c (used + 1)
      | More p' => decode_from p' bs' (used + 1)
      | Bad => OBad
      end
  end.

Definition decode (p : option partial) (bs : list Z) : outcome :=
  match p with
  | Some p => decode_from p bs 0
  | None =>
      match bs with
      | [] => OMore None
      | b :: bs' =>
          if b <? 0x80 then OChar b 1
          else match lead b with More p => decode_from p bs' 1 | _ => OBad end
      end
  end.

(** *** The automaton against the encoding *)

(** The bytes already read of a partial character. *)
Definition prefix_bytes (p : partial) : list Z :=
  let v := p_val p in
  if p_len p =? 2 then [0xc0 + v]
  else if p_len p =? 3 then
    (if p_rem p =? 2 then [0xe0 + v] else [0xe0 + v / 64; 0x80 + v mod 64])
  else
    (if p_rem p =? 3 then [0xf0 + v]
     else if p_rem p =? 2 then [0xf0 + v / 64; 0x80 + v mod 64]
     else [0xf0 + v / 4096; 0x80 + v / 64 mod 64; 0x80 + v mod 64]).

Lemma partial_cases p : partial_ok p ->
  exists v, p = {| p_len := 2; p_rem := 1; p_val := v |} /\ 2 <= v < 32 \/
            p = {| p_len := 3; p_rem := 2; p_val := v |} /\ 0 <= v < 16 \/
            p = {| p_len := 3; p_rem := 1; p_val := v |} /\ 32 <= v < 1024 /\ ~ (864 <= v < 896) \/
            p = {| p_len := 4; p_rem := 3; p_val := v |} /\ 0 <= v < 5 \/
            p = {| p_len := 4; p_rem := 2; p_val := v |} /\ 16 <= v < 272 \/
            p = {| p_len := 4; p_rem := 1; p_val := v |} /\ 1024 <= v < 17408.
Proof.
  destruct p as [len rem v]. intros (Hl & Hr & Hv). simpl in *. exists v.
  assert (Hc : len = 2 /\ rem = 1 \/ len = 3 /\ rem = 2 \/ len = 3 /\ rem = 1 \/
    len = 4 /\ rem = 3 \/ len = 4 /\ rem = 2 \/ len = 4 /\ rem = 1) by lia.
  destruct_or! Hc; destruct Hc as [-> ->]; unfold val_ok in Hv; simpl in Hv;
    rewrite ?andb_true_iff, ?negb_true_iff, ?andb_false_iff, ?Z.leb_le, ?Z.ltb_lt, ?Z.leb_gt, ?Z.ltb_ge in Hv.
  - left. split; [done|lia].
  - right; left. split; [done|lia].
  - right; right; left. split; [done|lia].
  - right; right; right; left. split; [done|lia].
  - right; right; right; right; left. split; [done|lia].
  - right; right; right; right; right. split; [done|lia].
Qed.

Ltac partial_split H :=
  apply partial_cases in H as (v & H); destruct_or! H;
  let E := fresh "E" in destruct H as [E H]; subst;
  unfold prefix_bytes; cbn [p_len p_rem p_val Z.eqb Pos.eqb].

Ltac list_eq := simpl; repeat (apply (f_equal2 (@cons Z)); [divmod|]); reflexivity.

Ltac bools :=
  rewrite ?andb_true_iff, ?andb_false_iff, ?orb_true_iff, ?orb_false_iff, ?negb_true_iff, ?negb_false_iff,
    ?Z.leb_le, ?Z.ltb_lt, ?Z.leb_gt, ?Z.ltb_ge in *.

(** The encoding by the length of the result. *)
Lemma encode_cases c : scalar c ->
  (0 <= c < 0x80 /\ utf8_encode c = [c]) \/
  (0x80 <= c < 0x800 /\ utf8_encode c = [0xc0 + c / 64; 0x80 + c mod 64]) \/
  (0x800 <= c < 0x10000 /\ ~ (0xd800 <= c < 0xe000) /\
     utf8_encode c = [0xe0 + c / 4096; 0x80 + c / 64 mod 64; 0x80 + c mod 64]) \/
  (0x10000 <= c < 0x110000 /\
     utf8_encode c = [0xf0 + c / 262144; 0x80 + c / 4096 mod 64; 0x80 + c / 64 mod 64; 0x80 + c mod 64]).
Proof.
  unfold scalar, utf8_encode. intros Hc.
  destruct (Z.ltb_spec c 0x80); [left; split; [lia|done]|]. destruct (Z.ltb_spec c 0x800); [right; left; split; [lia|done]|].
  destruct (Z.ltb_spec c 0x10000); right; right; [left|right].
  - split; [lia|]. split; [lia|done].
  - split; [lia|done].
Qed.

Lemma cont_char p b c : partial_ok p -> cont p b = Char c ->
  scalar c /\ utf8_encode c = prefix_bytes p ++ [b].
Proof.
  intros Hp Hc. unfold cont in Hc. partial_split Hp;
    unfold val_ok in Hc; simpl in Hc; case_match eqn:Hv; simplify_eq; bools.
  - split; [left; lia|]. unfold utf8_encode. rewrite (proj2 (Z.ltb_ge _ 0x80)) by lia.
    rewrite (proj2 (Z.ltb_lt _ 0x800)) by lia. list_eq.
  - split; [unfold scalar; lia|]. unfold utf8_encode.
    rewrite (proj2 (Z.ltb_ge _ 0x80)), (proj2 (Z.ltb_ge _ 0x800)), (proj2 (Z.ltb_lt _ 0x10000)) by lia.
    list_eq.
  - split; [unfold scalar; lia|]. unfold utf8_encode.
    rewrite (proj2 (Z.ltb_ge _ 0x80)), (proj2 (Z.ltb_ge _ 0x800)), (proj2 (Z.ltb_ge _ 0x10000)) by lia.
    list_eq.
Qed.

Lemma cont_more p b p' : partial_ok p -> cont p b = More p' ->
  partial_ok p' /\ prefix_bytes p' = prefix_bytes p ++ [b] /\ p_len p' = p_len p /\ p_rem p' = p_rem p - 1.
Proof.
  intros Hp Hc. unfold cont in Hc. partial_split Hp;
    simpl in Hc; destruct (_ && _) eqn:Hv; simplify_eq; pose proof Hv as Hv0; bools;
    destruct Hv0 as [_ Hv0]; (split; [split; [simpl; lia|split; [simpl; lia|exact Hv0]]|]);
    (split; [|done]); unfold val_ok in Hv; simpl in Hv; bools; list_eq.
Qed.

Lemma cont_bad p b c rest : partial_ok p -> cont p b = Bad -> scalar c ->
  utf8_encode c <> prefix_bytes p ++ b :: rest.
Proof.
  intros Hp Hc Hs Heq. unfold cont in Hc.
  destruct (encode_cases c Hs) as [[Hr E]|[[Hr E]|[(Hr & Hns & E)|[Hr E]]]]; rewrite E in Heq; clear E;
    partial_split Hp; unfold prefix_bytes in Heq; simpl in Heq; simplify_eq;
    revert Hc; unfold val_ok; simpl; case_match eqn:Hv; try done; intros _; bools; divmod.
Qed.

Lemma encode_nonempty c : exists b bs, utf8_encode c = b :: bs.
Proof. unfold utf8_encode. repeat case_match; eauto. Qed.

(** No encoding is a prefix of an unfinished one. *)
Lemma encode_not_prefix p c rest : partial_ok p -> scalar c -> prefix_bytes p <> utf8_encode c ++ rest.
Proof.
  intros Hp Hs Heq.
  destruct (encode_cases c Hs) as [[Hr E]|[[Hr E]|[(Hr & Hns & E)|[Hr E]]]]; rewrite E in Heq; clear E;
    partial_split Hp; unfold prefix_bytes in Heq; simpl in Heq; simplify_eq; divmod.
Qed.

(** *** The automaton decides UTF-8 *)

(** [bs] can neither be completed to an encoding nor starts with one. *)
Definition malformed (bs : list Z) : Prop :=
  forall c rest rest', scalar c -> utf8_encode c ++ rest <> bs ++ rest'.

Lemma decode_from_spec p bs used : partial_ok p ->
  match decode_from p bs used with
  | OChar c u => scalar c /\ 0x80 <= c /\ exists rest, bs = rest ++ drop (Z.to_nat (u - used)) bs /\
      used < u <= used + Z.of_nat (length bs) /\
      utf8_encode c = prefix_bytes p ++ take (Z.to_nat (u - used)) bs
  | OMore (Some p') => partial_ok p' /\ prefix_bytes p' = prefix_bytes p ++ bs
  | OMore None => False
  | OBad => malformed (prefix_bytes p ++ bs)
  end.
Proof.
  revert p used. induction bs as [|b bs IH]; intros p used Hp; simpl.
  { split; [done|]. by rewrite app_nil_r. }
  destruct (cont p b) as [c|p'|] eqn:Ec.
  - destruct (cont_char p b c Hp Ec) as [Hs E]. split; [done|]. split.
    { unfold cont in Ec. partial_split Hp; unfold val_ok in Ec; simpl in Ec; case_match eqn:Hv;
        simplify_eq; bools; lia. }
    exists [b]. replace (Z.to_nat (used + 1 - used)) with 1%nat by lia. simpl.
    rewrite drop_0, take_0. split; [done|]. split; [lia|done].
  - destruct (cont_more p b p' Hp Ec) as (Hp' & E & _). specialize (IH p' (used + 1) Hp').
    destruct (decode_from p' bs (used + 1)) as [c u|[p2|]|]; [|by rewrite E, <- app_assoc in IH|done|].
    + destruct IH as (Hs & Hc & rest & Hb & Hu & E2). split; [done|]. split; [done|].
      exists (b :: rest). replace (Z.to_nat (u - used)) with (S (Z.to_nat (u - (used + 1)))) by lia.
      simpl. split; [by rewrite Hb at 1|]. split; [lia|]. by rewrite E2, E, <- app_assoc.
    + by rewrite E, <- app_assoc in IH.
  - intros c rest rest' Hs Heq. rewrite <- app_assoc in Heq. simpl in Heq.
    apply app_eq_app in Heq as (l & [[E1 E2]|[E1 E2]]).
    + destruct l as [|x l]; simplify_eq/=.
      * rewrite app_nil_r in E1. by apply (encode_not_prefix p c []); [done..|rewrite app_nil_r].
      * by eapply cont_bad.
    + by apply (encode_not_prefix p c l).
Qed.

Lemma encode_ascii c : 0 <= c < 0x80 -> utf8_encode c = [c] /\ scalar c.
Proof. intros. unfold utf8_encode, scalar. rewrite (proj2 (Z.ltb_lt _ _)) by lia. split; [done|lia]. Qed.

Lemma lead_more b p : lead b = More p -> partial_ok p /\ prefix_bytes p = [b].
Proof.
  unfold lead. intros H. repeat case_match; simplify_eq; bools;
    (split; [split; [simpl; lia|split; [simpl; lia|unfold val_ok; simpl; bools; lia]]|]);
    unfold prefix_bytes; simpl; f_equal; lia.
Qed.

Lemma lead_bad b rest : 0x80 <= b < 256 -> (forall p, lead b <> More p) -> malformed (b :: rest).
Proof.
  intros Hb Hl c r r' Hs Heq.
  assert (Hr : b < 0xc2 \/ 0xf5 <= b).
  { destruct (lead b) eqn:E; [|by destruct (Hl p)|]; unfold lead in E; repeat case_match; try done; bools; lia. }
  destruct (encode_cases c Hs) as [[Hc E]|[[Hc E]|[(Hc & Hns & E)|[Hc E]]]]; rewrite E in Heq;
    simpl in Heq; simplify_eq; divmod.
Qed.

(** What the decoder says of a byte sequence between characters. *)
Lemma decode_spec bs : Forall is_byte bs ->
  match decode None bs with
  | OChar c u => scalar c /\ 0 < u <= Z.of_nat (length bs) /\ utf8_encode c = take (Z.to_nat u) bs
  | OMore (Some p') => partial_ok p' /\ prefix_bytes p' = bs
  | OMore None => bs = []
  | OBad => malformed bs
  end.
Proof.
  intros Hb. destruct bs as [|b bs]; [done|]. simpl. apply Forall_cons_1 in Hb as [Hb Hbs]. unfold is_byte in Hb.
  destruct (Z.ltb_spec b 0x80).
  { destruct (encode_ascii b ltac:(lia)) as [E Hs]. split; [done|]. split; [lia|].
    rewrite E. done. }
  destruct (lead b) as [|p|] eqn:El; [|destruct (lead_more b p El) as [Hp Epre]|].
  - apply lead_bad; [lia|]. intros p. by rewrite El.
  - pose proof (decode_from_spec p bs 1 Hp) as Hd. rewrite Epre in Hd.
    destruct (decode_from p bs 1) as [c u|[p2|]|]; [|done..].
    destruct Hd as (Hs & _ & rest & _ & Hu & E). split; [done|]. split; [lia|].
    replace (Z.to_nat u) with (S (Z.to_nat (u - 1))) by lia. done.
  - apply lead_bad; [lia|]. intros p. by rewrite El.
Qed.

(** Decoding in pieces: a sequence that ends inside a character leaves the
    automaton where the rest can be decoded. *)
Lemma decode_from_app p xs ys used :
  decode_from p (xs ++ ys) used =
    match decode_from p xs used with
    | OMore (Some p') => decode_from p' ys (used + Z.of_nat (length xs))
    | o => o
    end.
Proof.
  revert p used. induction xs as [|x xs IH]; intros p used; simpl.
  - by rewrite Z.add_0_r.
  - destruct (cont p x); [done| |done]. rewrite IH.
    replace (used + 1 + Z.of_nat (length xs)) with (used + Z.pos (Pos.of_succ_nat (length xs))) by lia.
    done.
Qed.

Lemma decode_from_used p bs used k :
  decode_from p bs (used + k) =
    match decode_from p bs used with OChar c u => OChar c (u + k) | o => o end.
Proof.
  revert p used. induction bs as [|b bs IH]; intros p used; [done|]. simpl.
  destruct (cont p b); [f_equal; lia| |done].
  replace (used + k + 1) with (used + 1 + k) by lia. apply IH.
Qed.

(** ** The packed state *)

Definition first_range (p : partial) : Z :=
  let v := p_val p in
  if (p_len p =? 3) && (p_rem p =? 2) then
    (if v =? 0 then R 0xa0 0xc0 else if v =? 0xd then R 0x80 0xa0 else R 0x80 0xc0)
  else if (p_len p =? 4) && (p_rem p =? 3) then
    (if v =? 0 then R 0x90 0xc0 else if v =? 4 then R 0x80 0x90 else R 0x80 0xc0)
  else R 0x80 0xc0.

(** The [unsigned] that represents a partial character: the range of the next
    byte above, a marker per byte still to come after it, the bits read. *)
Definition pack (p : partial) : Z :=
  first_range p + (if 2 <=? p_rem p then 0x03000000 else 0) + (if 3 <=? p_rem p then 0x000c0000 else 0) + p_val p.

Definition pack_opt (p : option partial) : Z := match p with None => 0 | Some p => pack p end.

Lemma byte_cases (P : Z -> bool) lo :
  forallb P (seqZ lo (256 - lo)) = true -> forall b, lo <= b < 256 -> P b = true.
Proof.
  intros H b Hb. rewrite forallb_forall in H. apply H, list_elem_of_In, elem_of_seqZ. lia.
Qed.

(** The table: what each lead byte starts. *)
Lemma lead_table b : 0x80 <= b < 256 ->
  match lead b with
  | More p => not_lead b = false /\ exists c, bittab !! Z.to_nat (b - SA) = Some c /\ u32 c = pack p
  | _ => not_lead b = true
  end.
Proof.
  intros Hb.
  assert (H : (match lead b with
               | More p => negb (not_lead b) &&
                   match bittab !! Z.to_nat (b - SA) with Some c => u32 c =? pack p | None => false end
               | _ => not_lead b
               end) = true).
  { revert b Hb. apply (byte_cases (fun b => match lead b with
      | More p => negb (not_lead b) &&
          match bittab !! Z.to_nat (b - SA) with Some c => u32 c =? pack p | None => false end
      | _ => not_lead b end)). vm_compute. reflexivity. }
  destruct (lead b); [done| |done]. apply andb_true_iff in H as [H1 H2]. split; [by apply negb_true_iff|].
  destruct (bittab !! _) as [c|]; [|done]. exists c. split; [done|by apply Z.eqb_eq].
Qed.

Lemma not_cont_ok b : is_byte b -> not_cont b = negb ((0x80 <=? b) && (b <? 0xc0)).
Proof.
  unfold is_byte. intros Hb.
  apply eqb_prop. revert b Hb.
  apply (forall_byte (fun b => Bool.eqb (not_cont b) (negb ((0x80 <=? b) && (b <? 0xc0))))).
  vm_compute. reflexivity.
Qed.

(** The bound check for a range offset [k]. *)
Definition oob_at (k b : Z) : bool :=
  nz (Z.land (Z.lor (Z.shiftr b 3 - 0x10) (Z.shiftr b 3 + k)) (Z.lnot 7)).

Lemma oob_range k lo hi b : is_byte b ->
  forallb (fun b => Bool.eqb (oob_at k b) (negb ((lo <=? b) && (b <? hi)))) (seqZ 0 256) = true ->
  oob_at k b = negb ((lo <=? b) && (b <? hi)).
Proof.
  intros Hb H. apply eqb_prop.
  by apply (forall_byte (fun b => Bool.eqb (oob_at k b) (negb ((lo <=? b) && (b <? hi))))).
Qed.

Lemma s32_top c k : 2 ^ 31 <= c < 2 ^ 32 -> c / 2 ^ 26 = k + 64 -> Z.shiftr (s32 c) 26 = k.
Proof.
  intros Hc Hk. rewrite Z.shiftr_div_pow2 by lia.
  assert (s32 c = c - 2 ^ 32) as ->.
  { rewrite <- (swrap_small 32 (c - 2 ^ 32)) by lia. apply swrap_eq; [lia|].
    rewrite <- Zminus_mod_idemp_r. change (2 ^ 32 mod 2 ^ 32) with 0. by rewrite Z.sub_0_r. }
  divmod.
Qed.

Definition is_bad (r : step_result) : bool := match r with Bad => true | _ => false end.

Lemma is_bad_cont p b :
  is_bad (cont p b) =
    negb ((0x80 <=? b) && (b <? 0xc0) && val_ok (p_len p) (p_rem p - 1) (p_val p * 64 + (b - 0x80))).
Proof. unfold cont. destruct (_ && _); simpl; [|done]. by destruct (_ =? 1). Qed.

Lemma oob_pack p b k lo hi : is_byte b -> 2 ^ 31 <= pack p < 2 ^ 32 -> pack p / 2 ^ 26 = k + 64 ->
  forallb (fun b => Bool.eqb (oob_at k b) (negb ((lo <=? b) && (b <? hi)))) (seqZ 0 256) = true ->
  OOB (pack p) b = negb ((lo <=? b) && (b <? hi)).
Proof. intros Hb Hc Hk H. unfold OOB. rewrite (s32_top _ k Hc Hk). by apply oob_range. Qed.

(** The facts of the six kinds of state, from the layout. *)
Ltac pack_split Hp :=
  partial_split Hp; unfold pack, first_range in *; cbn [p_len p_rem p_val Z.eqb Pos.eqb andb Z.leb Z.compare Pos.compare Pos.compare_cont] in *.

Lemma R_values : R 0x80 0xc0 = 0xC0000000 /\ R 0xa0 0xc0 = 0xB0000000 /\ R 0x80 0xa0 = 0xD0000000 /\
  R 0x90 0xc0 = 0xB8000000 /\ R 0x80 0x90 = 0xD8000000.
Proof. repeat split; reflexivity. Qed.

Ltac pack_values :=
  let E1 := fresh in let E2 := fresh in let E3 := fresh in let E4 := fresh in let E5 := fresh in
  destruct R_values as (E1 & E2 & E3 & E4 & E5); rewrite ?E1, ?E2, ?E3, ?E4, ?E5 in *;
  clear E1 E2 E3 E4 E5.

Lemma pack_range p : partial_ok p -> 2 ^ 31 <= pack p < 2 ^ 32.
Proof. intros Hp. pack_split Hp; pack_values; repeat case_match; lia. Qed.

Ltac pack_div :=
  unfold pack, first_range; cbn [p_len p_rem p_val Z.eqb Pos.eqb andb]; pack_values;
  repeat bcase; try lia; divmod.

Lemma OOB_case p b k lo hi : partial_ok p -> is_byte b -> pack p / 2 ^ 26 = k + 64 ->
  forallb (fun b => Bool.eqb (oob_at k b) (negb ((lo <=? b) && (b <? hi)))) (seqZ 0 256) = true ->
  (lo <= b < hi <-> 0x80 <= b < 0xc0 /\
     val_ok (p_len p) (p_rem p - 1) (p_val p * 64 + (b - 0x80)) = true) ->
  OOB (pack p) b = is_bad (cont p b).
Proof.
  intros Hp Hb Hk Hall Hiff. rewrite (oob_pack p b k lo hi) by (done || by apply pack_range).
  rewrite is_bad_cont. f_equal. by rewrite eq_iff_eq_true, !andb_true_iff, !Z.leb_le, !Z.ltb_lt.
Qed.

(** The bound check accepts exactly the bytes the automaton accepts. *)
Lemma OOB_pack p b : partial_ok p -> is_byte b -> OOB (pack p) b = is_bad (cont p b).
Proof.
  intros Hp Hb. pose proof Hp as Hpok. unfold is_byte in Hb.
  assert (Hcase : forall k lo hi, pack p / 2 ^ 26 = k + 64 ->
    (k, lo, hi) ∈ [(-16, 0x80, 0xc0); (-20, 0xa0, 0xc0); (-12, 0x80, 0xa0); (-18, 0x90, 0xc0); (-10, 0x80, 0x90)] ->
    (lo <= b < hi <-> 0x80 <= b < 0xc0 /\
       val_ok (p_len p) (p_rem p - 1) (p_val p * 64 + (b - 0x80)) = true) ->
    OOB (pack p) b = is_bad (cont p b)).
  { intros k lo hi Hk Hin Hiff. apply (OOB_case p b k lo hi); try done.
    rewrite !elem_of_cons in Hin. destruct_or! Hin; try (simplify_eq; vm_compute; reflexivity).
    by apply elem_of_nil in Hin. }
  clear Hpok. apply partial_cases in Hp as (v & Hp). destruct_or! Hp; destruct Hp as [-> Hp].
  - apply (Hcase (-16) 0x80 0xc0); [pack_div|clear; set_solver|unfold val_ok; simpl; bools; lia].
  - destruct (Z.eqb_spec v 0); [|destruct (Z.eqb_spec v 13)].
    + apply (Hcase (-20) 0xa0 0xc0); [pack_div|clear; set_solver|unfold val_ok; simpl; bools; lia].
    + apply (Hcase (-12) 0x80 0xa0); [pack_div|clear; set_solver|unfold val_ok; simpl; bools; lia].
    + apply (Hcase (-16) 0x80 0xc0); [pack_div|clear; set_solver|unfold val_ok; simpl; bools; lia].
  - apply (Hcase (-16) 0x80 0xc0); [pack_div|clear; set_solver|unfold val_ok; simpl; bools; lia].
  - destruct (Z.eqb_spec v 0); [|destruct (Z.eqb_spec v 4)].
    + apply (Hcase (-18) 0x90 0xc0); [pack_div|clear; set_solver|unfold val_ok; simpl; bools; lia].
    + apply (Hcase (-10) 0x80 0x90); [pack_div|clear; set_solver|unfold val_ok; simpl; bools; lia].
    + apply (Hcase (-16) 0x80 0xc0); [pack_div|clear; set_solver|unfold val_ok; simpl; bools; lia].
  - apply (Hcase (-16) 0x80 0xc0); [pack_div|clear; set_solver|unfold val_ok; simpl; bools; lia].
  - apply (Hcase (-16) 0x80 0xc0); [pack_div|clear; set_solver|unfold val_ok; simpl; bools; lia].
Qed.

(** After the first continuation byte the plain range check is enough. *)
Lemma not_cont_pack p b : partial_ok p -> is_byte b -> p_rem p < p_len p - 1 ->
  not_cont b = is_bad (cont p b).
Proof.
  intros Hp Hb Hrem. rewrite is_bad_cont, not_cont_ok by done. f_equal.
  rewrite eq_iff_eq_true. rewrite !andb_true_iff, !Z.leb_le, !Z.ltb_lt. unfold is_byte in Hb.
  apply partial_cases in Hp as (v & Hp). destruct_or! Hp; destruct Hp as [-> Hp];
    simpl in *; try lia; unfold val_ok; simpl; bools; lia.
Qed.

Lemma shift_in_value c y z : 0 <= y < 64 -> u32 (c * 64) = z * 64 -> shift_in c (0x80 + y) = z * 64 + y.
Proof.
  intros Hy Hz. unfold shift_in. rewrite Z.shiftl_mul_pow2 by lia. change (2 ^ 6) with 64. rewrite Hz.
  replace (0x80 + y - 0x80) with y by lia.
  rewrite Z.lor_comm. replace (z * 64) with (2 ^ 6 * z) by lia. rewrite lor_disjoint_add by lia.
  pose proof (wrap_range 32 (c * 64) ltac:(lia)). rewrite wrap_small by lia. lia.
Qed.

(** Reading an accepted byte: the packed state of what the automaton reaches, the
    top bit saying whether the character is complete. *)
Lemma shift_in_pack p b : partial_ok p -> is_byte b ->
  match cont p b with
  | Char c => shift_in (pack p) b = c /\ 0x80 <= c < 2 ^ 31
  | More p' => shift_in (pack p) b = pack p'
  | Bad => True
  end.
Proof.
  intros Hp Hb. unfold cont. destruct (_ && _) eqn:Hv; [|done].
  replace b with (0x80 + (b - 0x80)) at 1 by lia. set (y := b - 0x80) in *.
  assert (Hy : 0 <= y < 64) by (bools; lia).
  replace b with (0x80 + y) by lia. clearbody y.
  apply partial_cases in Hp as (v & Hp). destruct_or! Hp; destruct Hp as [-> Hp];
    unfold pack, first_range in *; cbn [p_len p_rem p_val Z.eqb Pos.eqb andb] in *;
    unfold val_ok in Hv; simpl in Hv |- *; pack_values; bools.
  - rewrite (shift_in_value _ y v); [lia|lia|unfold wrap; divmod].
  - rewrite (shift_in_value _ y (0x03000000 + v)); [lia|lia|unfold wrap; repeat case_match; divmod].
  - rewrite (shift_in_value _ y v); [lia|lia|unfold wrap; divmod].
  - rewrite (shift_in_value _ y (0x030c0000 + v)); [lia|lia|unfold wrap; repeat case_match; divmod].
  - rewrite (shift_in_value _ y (0x03000000 + v)); [lia|lia|unfold wrap; divmod].
  - rewrite (shift_in_value _ y v); [lia|lia|unfold wrap; divmod].
Qed.

Lemma top_bit_ok c : 0 <= c < 2 ^ 32 -> top_bit c = (2 ^ 31 <=? c).
Proof.
  intros Hc. unfold top_bit. apply (land_word_bit 31); lia.
Qed.

(** ** [mbrtowc] runs the automaton *)

(** The result of [mbrtowc] for an outcome; [back] is what [N - n] is off by. *)
Definition mb_of (N n : Z) (o : outcome) : mb :=
  match o with
  | OChar c u => {| mb_ret := u64 (N - (n - u)); mb_wc := Some c; mb_st := 0 |}
  | OMore p => {| mb_ret := MORE; mb_wc := None; mb_st := pack_opt p |}
  | OBad => {| mb_ret := ILSEQ; mb_wc := None; mb_st := 0 |}
  end.

Lemma rd_is_byte m a : mem_ok m -> is_byte (rd m a).
Proof. apply rd_byte. Qed.

Lemma top_bit_char c : 0x80 <= c < 2 ^ 31 -> top_bit c = false /\ s32 c = c.
Proof.
  intros Hc. rewrite top_bit_ok by lia. split; [apply Z.leb_gt; lia|]. apply swrap_small; lia.
Qed.

Lemma top_bit_pack p : partial_ok p -> top_bit (pack p) = true.
Proof.
  intros Hp. pose proof (pack_range p Hp). rewrite top_bit_ok by lia. apply Z.leb_le. lia.
Qed.

Lemma mbrtowc_loop_ok fuel m N n0 p s n :
  mem_ok m -> mapped m s n -> 1 <= n -> partial_ok p -> is_bad (cont p (rd m s)) = false ->
  (Z.to_nat (p_rem p) <= fuel)%nat ->
  mbrtowc_loop fuel m N (pack p) s n = Some (mb_of N n0 (decode_from p (bytes_of m s n) (n0 - n))).
Proof.
  intros Hok. revert p s n. induction fuel as [|fuel IH]; intros p s n Hm Hn Hp Hb Hf.
  { destruct Hp as (_ & ? & _). lia. }
  cbn [mbrtowc_loop]. rewrite (load8_rd m s n s) by (done || lia). cbn [mbind option_bind].
  rewrite bytes_of_cons by lia. cbn [decode_from].
  pose proof (shift_in_pack p (rd m s) Hp (rd_is_byte m s Hok)) as Hs.
  destruct (cont p (rd m s)) as [c|p'|] eqn:Ec; [| |done].
  - destruct Hs as [-> Hc]. destruct (top_bit_char c Hc) as [-> ->]. cbn [negb mb_of].
    by replace (n0 - (n0 - n + 1)) with (n - 1) by lia.
  - rewrite Hs. destruct (cont_more p (rd m s) p' Hp Ec) as (Hp' & _ & Hlen & Hrem).
    rewrite top_bit_pack by done. cbn [negb]. destruct (nz (n - 1)) eqn:En.
    + apply nz_true in En. rewrite (load8_rd m s n (s + 1)) by (done || lia). cbn [mbind option_bind].
      assert (Hm' : mapped m (s + 1) (n - 1)) by (eapply mapped_sub; [exact Hm|lia|lia]).
      rewrite (not_cont_pack p') by (done || (by apply rd_byte) || (destruct Hp as (_ & ? & _); lia)).
      destruct (is_bad (cont p' (rd m (s + 1)))) eqn:Eb.
      * rewrite bytes_of_cons by lia. cbn [decode_from]. by destruct (cont p' (rd m (s + 1))).
      * rewrite IH by (done || lia). by replace (n0 - n + 1) with (n0 - (n - 1)) by lia.
    + apply nz_false in En. rewrite bytes_of_nonpos by lia. done.
Qed.

(** The call, from any state a call leaves. *)
Lemma mbrtowc_ok m s n p :
  mem_ok m -> mapped m s n -> 0 <= n -> 0 < s -> (forall p', p = Some p' -> partial_ok p') ->
  mbrtowc true m s n (pack_opt p) =
    Some (match decode p (bytes_of m s n) with
          | OChar c u => if (c <? 0x80) && (u =? 1)
                         then {| mb_ret := b2z (nz c); mb_wc := Some c; mb_st := 0 |}
                         else mb_of (u32 n) n (OChar c u)
          | o => mb_of (u32 n) n o
          end).
Proof.
  intros Hok Hm Hn Hs Hp. unfold mbrtowc. rewrite (proj2 (Z.eqb_neq s 0)) by lia.
  destruct (nz n) eqn:En.
  2:{ apply nz_false in En as ->. rewrite bytes_of_nil. by destruct p. }
  apply nz_true in En. cbn [negb]. rewrite (load8_rd m s n s) by (done || lia). cbn [mbind option_bind].
  rewrite bytes_of_cons by lia. set (b := rd m s).
  assert (Hb : is_byte b) by by apply rd_byte.
  assert (Hm' : mapped m (s + 1) (n - 1)) by (eapply mapped_sub; [exact Hm|lia|lia]).
  destruct p as [p|]; cbn [pack_opt decode].
  - specialize (Hp p eq_refl). pose proof (pack_range p Hp).
    rewrite (proj2 (nz_true (pack p))) by lia. cbn [negb].
    rewrite OOB_pack by done. destruct (is_bad (cont p b)) eqn:Eb.
    { cbn [decode_from]. by destruct (cont p b). }
    rewrite (mbrtowc_loop_ok 4 m (u32 n) n p s n) by
      (done || lia || (destruct Hp as (? & ? & _); lia)).
    rewrite bytes_of_cons by lia. fold b. rewrite Z.sub_diag.
    pose proof (decode_from_spec p (b :: bytes_of m (s + 1) (n - 1)) 0 Hp) as Hd.
    destruct (decode_from p _ 0) as [c u|[p2|]|]; [|done..].
    destruct Hd as (_ & Hc & _). by rewrite (proj2 (Z.ltb_ge c 0x80)) by lia.
  - change (negb (nz 0)) with true. cbn [negb]. destruct (Z.ltb_spec b 0x80) as [Hlt|Hge].
    { rewrite Z.eqb_refl. cbn [decode_from]. rewrite (proj2 (Z.ltb_lt b 0x80)) by lia. done. }
    pose proof (lead_table b ltac:(unfold is_byte in Hb; lia)) as Ht.
    destruct (lead b) as [c|p|] eqn:El.
    + rewrite Ht. done.
    + destruct Ht as (-> & c & -> & Ec). cbn [mbind option_bind]. rewrite Ec.
      destruct (lead_more b p El) as [Hpok _]. destruct (nz (n - 1)) eqn:En1.
      2:{ apply nz_false in En1. by rewrite bytes_of_nonpos by lia. }
      apply nz_true in En1. rewrite (load8_rd m (s + 1) (n - 1) (s + 1)) by (done || lia).
      cbn [mbind option_bind]. rewrite OOB_pack by (done || by apply rd_byte).
      destruct (is_bad (cont p (rd m (s + 1)))) eqn:Eb.
      { rewrite bytes_of_cons by lia. cbn [decode_from]. by destruct (cont p (rd m (s + 1))). }
      rewrite (mbrtowc_loop_ok 4 m (u32 n) n p (s + 1) (n - 1)) by
        (done || lia || (destruct Hpok as (? & ? & _); lia)).
      replace (n - (n - 1)) with 1 by lia.
      pose proof (decode_from_spec p (bytes_of m (s + 1) (n - 1)) 1 Hpok) as Hd.
      destruct (decode_from p _ 1) as [c' u|[p2|]|]; [|done..].
      destruct Hd as (_ & Hc & _). by rewrite (proj2 (Z.ltb_ge c' 0x80)) by lia.
    + rewrite Ht. done.
Qed.

(** ** [mbtowc] *)

Definition mbtowc_of (o : outcome) : Z * option Z :=
  match o with
  | OChar c u => (if c =? 0 then 0 else u, Some c)
  | _ => (-1, None)
  end.

(** The test on [n] refuses a character longer than the buffer. *)
Definition short_test (b n : Z) : bool :=
  match lead b with
  | More p => Bool.eqb (top_bit (u32 (Z.shiftl (pack p) (6 * n - 6)))) (n <? p_len p) &&
              (p_len p <=? 4) && (p_rem p =? p_len p - 1)
  | _ => true
  end.

Lemma short_test_ok b n p : 0x80 <= b < 256 -> 1 <= n -> lead b = More p ->
  (n <? 4) && top_bit (u32 (Z.shiftl (pack p) (6 * n - 6))) = (n <? p_len p) /\ p_rem p = p_len p - 1.
Proof.
  intros Hb Hn El.
  assert (H : short_test b 1 && short_test b 2 && short_test b 3 = true).
  { revert b Hb El. intros b Hb _. revert b Hb.
    apply (byte_cases (fun b => short_test b 1 && short_test b 2 && short_test b 3)).
    vm_compute. reflexivity. }
  rewrite !andb_true_iff in H. destruct H as [[H1 H2] H3].
  assert (Hall : n < 4 -> short_test b n = true).
  { intros. assert (n = 1 \/ n = 2 \/ n = 3) as Hc by lia. by destruct_or! Hc; subst n. }
  assert (Hlen : p_len p <= 4 /\ p_rem p = p_len p - 1).
  { unfold short_test in H1. rewrite El, !andb_true_iff, Z.leb_le, Z.eqb_eq in H1. tauto. }
  split; [|apply Hlen]. destruct (Z.ltb_spec n 4) as [Hn4|Hn4]; cbn [andb].
  - specialize (Hall Hn4). unfold short_test in Hall.
    rewrite El, !andb_true_iff in Hall. apply eqb_prop, Hall.
  - symmetry. apply Z.ltb_ge. lia.
Qed.

(** Too few bytes never make a character, enough of them always decide. *)
Lemma decode_from_length p bs used : partial_ok p ->
  match decode_from p bs used with
  | OChar _ _ => p_rem p <= Z.of_nat (length bs)
  | OMore _ => Z.of_nat (length bs) < p_rem p
  | OBad => True
  end.
Proof.
  revert p used. induction bs as [|b bs IH]; intros p used Hp; simpl decode_from.
  - destruct Hp as (_ & ? & _). simpl. lia.
  - destruct (cont p b) as [c|p'|] eqn:Ec; [| |done].
    + unfold cont in Ec. destruct (_ && _); [|done]. destruct (Z.eqb_spec (p_rem p) 1); simpl; [lia|done].
    + destruct (cont_more p b p' Hp Ec) as (Hp' & _ & _ & Hr). specialize (IH p' (used + 1) Hp').
      cbn [length]. destruct (decode_from p' bs (used + 1)); lia.
Qed.

Lemma cont_rem_of p b :
  match cont p b with Char _ => p_rem p = 1 | More _ => p_rem p <> 1 | Bad => True end.
Proof. unfold cont. destruct (_ && _); [|done]. by destruct (Z.eqb_spec (p_rem p) 1). Qed.

(** The result after reading the byte at [s], whose acceptance is known. *)
Lemma mbtowc_byte p m s :
  partial_ok p -> mem_ok m ->
  match cont p (rd m s) with
  | Char c => top_bit (shift_in (pack p) (rd m s)) = false /\ s32 (shift_in (pack p) (rd m s)) = c /\ c <> 0
  | More p' => top_bit (shift_in (pack p) (rd m s)) = true /\ shift_in (pack p) (rd m s) = pack p' /\
               partial_ok p' /\ p_len p' = p_len p /\ p_rem p' = p_rem p - 1
  | Bad => True
  end.
Proof.
  intros Hp Hok. pose proof (shift_in_pack p (rd m s) Hp (rd_is_byte m s Hok)) as Hs.
  destruct (cont p (rd m s)) as [c|p'|] eqn:Ec; [| |done].
  - destruct Hs as [-> Hc]. destruct (top_bit_char c Hc) as [-> ->]. repeat split; lia.
  - destruct (cont_more p _ p' Hp Ec) as (Hp' & _ & Hl & Hr). rewrite Hs.
    split; [by apply top_bit_pack|done].
Qed.

Lemma mbtowc_ok m s n :
  mem_ok m -> mapped m s n -> 0 <= n -> 0 < s ->
  mbtowc true m s n = Some (mbtowc_of (decode None (bytes_of m s n))).
Proof.
  intros Hok Hm Hn Hs. unfold mbtowc. rewrite (proj2 (Z.eqb_neq s 0)) by lia.
  destruct (nz n) eqn:En; [|apply nz_false in En as ->; done]. apply nz_true in En. cbn [negb].
  rewrite (load8_rd m s n s) by (done || lia). cbn [mbind option_bind].
  rewrite bytes_of_cons by lia. cbn [decode]. pose proof (rd_byte m s Hok) as Hb.
  set (b := rd m s) in *. destruct (Z.ltb_spec b 0x80) as [Hlt|Hge].
  { cbn [mbtowc_of]. unfold nz. by destruct (b =? 0). }
  pose proof (lead_table b ltac:(lia)) as Ht. destruct (lead b) as [c|p|] eqn:El; [by rewrite Ht| |by rewrite Ht].
  destruct Ht as (-> & c & -> & Ec). cbn [mbind option_bind]. rewrite Ec. clear c Ec.
  destruct (lead_more b p El) as [Hp _].
  destruct (short_test_ok b n p ltac:(lia) ltac:(lia) El) as [-> Hrem].
  pose proof (decode_from_length p (bytes_of m (s + 1) (n - 1)) 1 Hp) as Hl.
  rewrite length_bytes_of in Hl by lia.
  destruct (Z.ltb_spec n (p_len p)) as [Hsh|Hlen].
  { destruct (decode_from p _ 1); [lia|done..]. }
  clear Hl. pose proof Hp as (Hplen & _ & _).
  rewrite (load8_rd m s n (s + 1)) by (done || lia). cbn [mbind option_bind].
  rewrite OOB_pack by (done || by apply rd_byte). rewrite (bytes_of_cons m (s + 1)) by lia. cbn [decode_from].
  pose proof (mbtowc_byte p m (s + 1) Hp Hok) as H1. pose proof (cont_rem_of p (rd m (s + 1))) as R1.
  destruct (cont p (rd m (s + 1))) as [c1|p1|]; [| |done]; cbn [is_bad].
  { destruct H1 as (-> & -> & Hc). simpl. by rewrite (proj2 (Z.eqb_neq c1 0)). }
  destruct H1 as (-> & -> & Hp1 & Hl1 & Hr1). cbn [negb].
  rewrite (load8_rd m s n (s + 1 + 1)) by (done || lia). cbn [mbind option_bind].
  rewrite (not_cont_pack p1) by (done || lia || by apply rd_byte).
  rewrite (bytes_of_cons m (s + 1 + 1)) by lia. cbn [decode_from].
  pose proof (mbtowc_byte p1 m (s + 1 + 1) Hp1 Hok) as H2.
  pose proof (cont_rem_of p1 (rd m (s + 1 + 1))) as R2.
  destruct (cont p1 (rd m (s + 1 + 1))) as [c2|p2|]; [| |done]; cbn [is_bad].
  { destruct H2 as (-> & -> & Hc). simpl. by rewrite (proj2 (Z.eqb_neq c2 0)). }
  destruct H2 as (-> & -> & Hp2 & Hl2 & Hr2). cbn [negb].
  rewrite (load8_rd m s n (s + 1 + 1 + 1)) by (done || lia). cbn [mbind option_bind].
  rewrite (not_cont_pack p2) by (done || lia || by apply rd_byte).
  rewrite (bytes_of_cons m (s + 1 + 1 + 1)) by lia. cbn [decode_from].
  pose proof (mbtowc_byte p2 m (s + 1 + 1 + 1) Hp2 Hok) as H3.
  pose proof (cont_rem_of p2 (rd m (s + 1 + 1 + 1))) as R3.
  destruct (cont p2 (rd m (s + 1 + 1 + 1))) as [c3|p3|]; [| |done]; cbn [is_bad].
  { destruct H3 as (_ & -> & Hc). simpl. by rewrite (proj2 (Z.eqb_neq c3 0)). }
  lia.
Qed.

(** ** [wcrtomb] *)

Lemma lor_marker k a x : 0 <= k -> 0 <= x < 2 ^ k -> Z.lor (2 ^ k * a) x = 2 ^ k * a + x.
Proof. intros. rewrite Z.lor_comm, lor_disjoint_add by lia. lia. Qed.

Lemma cont_byte x : u8 (Z.lor 0x80 (Z.land x 0x3f)) = 0x80 + x mod 64.
Proof.
  change 0x3f with (Z.ones 6). rewrite Z.land_ones by lia. change (2 ^ 6) with 64.
  pose proof (Z.mod_pos_bound x 64 ltac:(lia)).
  rewrite (lor_marker 6 2) by lia. apply wrap_small. lia.
Qed.

Lemma store8_in m p n a v : mapped m p n -> p <= a < p + n -> store8 m a v = Some (<[a := u8 v]> m).
Proof. intros Hm Ha. unfold store8. destruct (Hm a Ha) as [x ->]. done. Qed.

Lemma mapped_insert m p n a v : mapped m p n -> mapped (<[a := v]> m) p n.
Proof.
  intros Hm b Hb. destruct (decide (a = b)) as [->|]; [rewrite lookup_insert_eq; eauto|].
  rewrite lookup_insert_ne by done. by apply Hm.
Qed.

Definition encode_len (c : Z) : Z := Z.of_nat (length (utf8_encode c)).

Lemma encode_len_range c : 1 <= encode_len c <= 4.
Proof. unfold encode_len, utf8_encode. repeat case_match; simpl; lia. Qed.

Lemma wcrtomb_ok m s c : scalar c -> 0 < s -> mapped m s (encode_len c) ->
  wcrtomb true m s c = Some (encode_len c, write_bytes m s (utf8_encode c)).
Proof.
  intros Hs Hs0 Hm. unfold wcrtomb. rewrite (proj2 (Z.eqb_neq s 0)) by lia.
  assert (Hc : 0 <= c < 2 ^ 32) by (unfold scalar in Hs; lia).
  rewrite (wrap_small 32 c) by lia. unfold encode_len in *.
  destruct (encode_cases c Hs) as [[Hr E]|[[Hr E]|[(Hr & Hns & E)|[Hr E]]]]; rewrite E in *; clear E; cbn [length] in Hm.
  - rewrite (proj2 (Z.ltb_lt c 0x80)) by lia. rewrite (store8_in m s 1) by (done || lia). simpl.
    by rewrite wrap_small by lia.
  - rewrite (proj2 (Z.ltb_ge c 0x80)), (proj2 (Z.ltb_lt c 0x800)) by lia. cbn [negb].
    rewrite (store8_in m s 2) by (done || lia). cbn [mbind option_bind].
    rewrite (store8_in _ s 2) by (lia || by apply mapped_insert). cbn [mbind option_bind].
    rewrite cont_byte, Z.shiftr_div_pow2 by lia. change (2 ^ 6) with 64.
    rewrite (lor_marker 5 6) by divmod. rewrite wrap_small by divmod. done.
  - rewrite (proj2 (Z.ltb_ge c 0x80)), (proj2 (Z.ltb_ge c 0x800)) by lia. cbn [negb].
    assert ((c <? 0xd800) || (u32 (c - 0xe000) <? 0x2000) = true) as ->.
    { apply orb_true_iff. rewrite !Z.ltb_lt. destruct (Z.lt_ge_cases c 0xd800); [by left|right].
      rewrite wrap_small; lia. }
    rewrite (store8_in m s 3) by (done || lia). cbn [mbind option_bind].
    rewrite (store8_in _ s 3) by (lia || by apply mapped_insert). cbn [mbind option_bind].
    rewrite (store8_in _ s 3) by (lia || by repeat apply mapped_insert). cbn [mbind option_bind].
    rewrite !cont_byte, !Z.shiftr_div_pow2 by lia. change (2 ^ 6) with 64. change (2 ^ 12) with 4096.
    rewrite (lor_marker 4 14) by divmod. rewrite wrap_small by divmod. simpl.
    by rewrite <- !Z.add_assoc.
  - rewrite (proj2 (Z.ltb_ge c 0x80)), (proj2 (Z.ltb_ge c 0x800)) by lia. cbn [negb].
    assert ((c <? 0xd800) || (u32 (c - 0xe000) <? 0x2000) = false) as ->.
    { apply orb_false_iff. rewrite !Z.ltb_ge. split; [lia|]. rewrite wrap_small; lia. }
    rewrite (wrap_small 32 (c - 0x10000)), (proj2 (Z.ltb_lt (c - 0x10000) 0x100000)) by lia.
    rewrite (store8_in m s 4) by (done || lia). cbn [mbind option_bind].
    rewrite (store8_in _ s 4) by (lia || by apply mapped_insert). cbn [mbind option_bind].
    rewrite (store8_in _ s 4) by (lia || by repeat apply mapped_insert). cbn [mbind option_bind].
    rewrite (store8_in _ s 4) by (lia || by repeat apply mapped_insert). cbn [mbind option_bind].
    rewrite !cont_byte, !Z.shiftr_div_pow2 by lia. change (2 ^ 6) with 64. change (2 ^ 12) with 4096.
    change (2 ^ 18) with 262144.
    rewrite (lor_marker 3 30) by divmod. rewrite wrap_small by divmod. simpl.
    by rewrite <- !Z.add_assoc.
Qed.

Lemma wcrtomb_bad m s c : - 2 ^ 31 <= c < 2 ^ 31 -> ~ scalar c -> s <> 0 ->
  wcrtomb true m s c = Some (ILSEQ, m).
Proof.
  unfold scalar. intros Hc Hs Hs0. unfold wcrtomb. rewrite (proj2 (Z.eqb_neq s 0)) by lia. cbn [negb].
  assert (Hu : u32 c = c /\ 0xd800 <= c < 0xe000 \/ u32 c = c /\ 0x110000 <= c \/ u32 c = c + 2 ^ 32 /\ c < 0).
  { destruct (Z.lt_ge_cases c 0).
    - right; right. split; [|lia]. unfold wrap. symmetry. apply (Z.mod_unique_pos _ _ (-1)); lia.
    - rewrite wrap_small by lia. destruct (Z.lt_ge_cases c 0xe000); [left|right; left]; (split; [done|lia]). }
  assert (Hu2 : 0x2000 <= u32 (c - 0xe000)) by (unfold wrap; divmod).
  assert (Hu3 : 0x100000 <= u32 (c - 0x10000)) by (unfold wrap; divmod).
  rewrite !(proj2 (Z.ltb_ge _ _)) by lia. done.
Qed.

(** The decoder on an encoding followed by anything. *)
Lemma encode_unique c c' rest rest' : scalar c -> scalar c' ->
  utf8_encode c ++ rest = utf8_encode c' ++ rest' -> c = c'.
Proof.
  intros Hs Hs' Heq.
  destruct (encode_cases c Hs) as [[Hr E1]|[[Hr E1]|[(Hr & Hns & E1)|[Hr E1]]]];
  destruct (encode_cases c' Hs') as [[Hr' E2]|[[Hr' E2]|[(Hr' & Hns' & E2)|[Hr' E2]]]];
    rewrite E1, E2 in Heq; simpl in Heq; injection Heq; intros; divmod.
Qed.

Lemma encode_bytes c : scalar c -> Forall is_byte (utf8_encode c).
Proof.
  intros Hs. destruct (encode_cases c Hs) as [[Hr E]|[[Hr E]|[(Hr & Hns & E)|[Hr E]]]];
    rewrite E; repeat constructor; unfold is_byte; divmod.
Qed.

Lemma decode_encode c rest : scalar c -> Forall is_byte rest ->
  decode None (utf8_encode c ++ rest) = OChar c (encode_len c).
Proof.
  intros Hs Hrest. pose proof (decode_spec (utf8_encode c ++ rest)) as Hd.
  specialize (Hd ltac:(apply Forall_app; split; [by apply encode_bytes|done])).
  destruct (decode None _) as [c' u|[p|]|].
  - destruct Hd as (Hs' & Hu & E).
    assert (c' = c) as ->.
    { apply (encode_unique c' c (drop (Z.to_nat u) (utf8_encode c ++ rest)) rest); try done.
      by rewrite E, take_drop. }
    f_equal. unfold encode_len. apply (f_equal length) in E. rewrite length_take in E. lia.
  - destruct Hd as [Hp E]. by destruct (encode_not_prefix p c rest Hp Hs).
  - destruct (encode_nonempty c) as (b & bs & E). by rewrite E in Hd.
  - exfalso. by apply (Hd c rest []); [|rewrite app_nil_r].
Qed.

(** ** What the conversions promise *)

(** [wcrtomb] in a UTF-8 locale: a Unicode scalar value is written as its
    encoding and the length returned; any other [wchar_t] is refused with
    [EILSEQ] and nothing is written. *)
Theorem wcrtomb_encodes m s c :
  - 2 ^ 31 <= c < 2 ^ 31 -> 0 < s -> mapped m s 4 ->
  (scalar c -> wcrtomb true m s c = Some (encode_len c, write_bytes m s (utf8_encode c))) /\
  (~ scalar c -> wcrtomb true m s c = Some (ILSEQ, m)).
Proof.
  intros Hc Hs Hm. pose proof (encode_len_range c). split; intros Hsc.
  - apply wcrtomb_ok; [done|done|]. eapply mapped_sub; [exact Hm|lia|lia].
  - apply wcrtomb_bad; [done|done|lia].
Qed.

Definition room : mem := write_bytes ∅ 16 [1; 2; 3; 4; 5; 6; 7; 8].

Lemma wcrtomb_encodes_witness :
  wcrtomb true room 16 0x20ac = Some (encode_len 0x20ac, write_bytes room 16 (utf8_encode 0x20ac)) /\
  wcrtomb true room 16 0xd800 = Some (ILSEQ, room).
Proof.
  split.
  - apply (wcrtomb_encodes room 16 0x20ac); [lia|lia|mem_check|unfold scalar; lia].
  - apply (wcrtomb_encodes room 16 0xd800); [lia|lia|mem_check|unfold scalar; lia].
Defined.

(** C31. [mbrtowc] from the initial state, on any bytes: it returns a character
    exactly when they start with the encoding of a scalar value (its length, 0
    for the null character), "incomplete" exactly when they are a proper prefix
    of one (the state then records it), and [EILSEQ] otherwise; overlong forms,
    surrogates and values above 0x10ffff are thus refused.  Only the [n] bytes are
    read. *)
Theorem mbrtowc_decodes m s n :
  mem_ok m -> mapped m s n -> 0 < n < 2 ^ 32 -> 0 < s ->
  exists r, mbrtowc true m s n 0 = Some r /\
  ((exists c, scalar c /\ encode_len c <= n /\ bytes_of m s (encode_len c) = utf8_encode c /\
      r = {| mb_ret := if c =? 0 then 0 else encode_len c; mb_wc := Some c; mb_st := 0 |}) \/
   (exists p, partial_ok p /\ prefix_bytes p = bytes_of m s n /\
      r = {| mb_ret := MORE; mb_wc := None; mb_st := pack p |}) \/
   (malformed (bytes_of m s n) /\ r = {| mb_ret := ILSEQ; mb_wc := None; mb_st := 0 |})).
Proof.
  intros Hok Hm Hn Hs. eexists. split.
  { apply (mbrtowc_ok m s n None); [done|done|lia|done|done]. }
  pose proof (decode_spec (bytes_of m s n) (bytes_of_bytes m s n Hok)) as Hd.
  destruct (decode None (bytes_of m s n)) as [c u|[p|]|].
  - left. exists c. destruct Hd as (Hsc & Hu & E). rewrite length_bytes_of in Hu by lia.
    assert (Hlen : encode_len c = u).
    { unfold encode_len. rewrite E, length_take. pose proof (length_bytes_of m s n ltac:(lia)). lia. }
    assert (Eb : bytes_of m s u = utf8_encode c).
    { rewrite E. replace n with (u + (n - u)) by lia. rewrite bytes_of_app by lia.
      rewrite take_app_length'; [done|]. pose proof (length_bytes_of m s u ltac:(lia)). lia. }
    rewrite Hlen. split; [done|]. split; [lia|]. split; [done|].
    destruct ((c <? 0x80) && (u =? 1)) eqn:E1.
    + apply andb_true_iff in E1 as [_ ->%Z.eqb_eq]. unfold nz. by destruct (c =? 0).
    + unfold mb_of. rewrite (wrap_small 32 n), (wrap_small 64) by lia.
      rewrite (proj2 (Z.eqb_neq c 0)); [by replace (n - (n - u)) with u by lia|].
      intros ->. unfold encode_len, utf8_encode in Hlen. simpl in Hlen. subst u. done.
  - right; left. exists p. by destruct Hd.
  - right; left. pose proof (length_bytes_of m s n ltac:(lia)) as Hl. rewrite Hd in Hl. simpl in Hl. lia.
  - right; right. done.
Qed.

(** C28's outcome classes exclude each other; a character's bytes determine it. *)
Lemma mbrtowc_decodes_witness :
  exists r, mbrtowc true (write_bytes ∅ 16 [0xed; 0xa0; 0x80]) 16 3 0 = Some r /\
  ((exists c, scalar c /\ encode_len c <= 3 /\
      bytes_of (write_bytes ∅ 16 [0xed; 0xa0; 0x80]) 16 (encode_len c) = utf8_encode c /\
      r = {| mb_ret := if c =? 0 then 0 else encode_len c; mb_wc := Some c; mb_st := 0 |}) \/
   (exists p, partial_ok p /\ prefix_bytes p = bytes_of (write_bytes ∅ 16 [0xed; 0xa0; 0x80]) 16 3 /\
      r = {| mb_ret := MORE; mb_wc := None; mb_st := pack p |}) \/
   (malformed (bytes_of (write_bytes ∅ 16 [0xed; 0xa0; 0x80]) 16 3) /\
      r = {| mb_ret := ILSEQ; mb_wc := None; mb_st := 0 |})).
Proof. apply (mbrtowc_decodes (write_bytes ∅ 16 [0xed; 0xa0; 0x80]) 16 3); mem_check. Defined.

(** Encoding and decoding invert each other: whatever follows in the
    buffer, [mbrtowc] and [mbtowc] give back the character [wcrtomb] wrote and
    consume exactly its bytes (0 is returned for the null character). *)
Theorem encode_decode_roundtrip m s c n :
  mem_ok m -> scalar c -> 0 < s -> mapped m s n -> encode_len c <= n < 2 ^ 32 ->
  exists m', wcrtomb true m s c = Some (encode_len c, m') /\
    mbrtowc true m' s n 0 =
      Some {| mb_ret := if c =? 0 then 0 else encode_len c; mb_wc := Some c; mb_st := 0 |} /\
    mbtowc true m' s n = Some (if c =? 0 then 0 else encode_len c, Some c).
Proof.
  intros Hok Hsc Hs Hm Hn. pose proof (encode_len_range c) as Hl.
  assert (Hm4 : mapped m s (encode_len c)) by (eapply mapped_sub; [exact Hm|lia|lia]).
  exists (write_bytes m s (utf8_encode c)). split; [by apply wcrtomb_ok|].
  set (m' := write_bytes m s (utf8_encode c)).
  assert (Hok' : mem_ok m') by (apply write_bytes_ok; [done|by apply encode_bytes]).
  assert (Hm' : mapped m' s n) by by apply mapped_write.
  assert (Eb : bytes_of m' s n = utf8_encode c ++ bytes_of m' (s + encode_len c) (n - encode_len c)).
  { replace n with (encode_len c + (n - encode_len c)) at 1 by lia. rewrite bytes_of_app by lia. f_equal.
    unfold encode_len. apply bytes_of_write. }
  assert (Ed : decode None (bytes_of m' s n) = OChar c (encode_len c)).
  { rewrite Eb. apply decode_encode; [done|by apply bytes_of_bytes]. }
  split.
  - change 0 with (pack_opt None) at 1. rewrite (mbrtowc_ok m' s n None) by (done || lia). rewrite Ed.
    destruct ((c <? 0x80) && (encode_len c =? 1)) eqn:E1.
    + apply andb_true_iff in E1 as [_ ->%Z.eqb_eq]. unfold nz. by destruct (c =? 0).
    + unfold mb_of. rewrite (wrap_small 32 n), (wrap_small 64) by lia.
      rewrite (proj2 (Z.eqb_neq c 0)); [by replace (n - (n - encode_len c)) with (encode_len c) by lia|].
      by intros ->.
  - rewrite (mbtowc_ok m' s n) by (done || lia). by rewrite Ed.
Qed.

Lemma encode_decode_roundtrip_witness :
  exists m', wcrtomb true room 17 0x10ffff = Some (encode_len 0x10ffff, m') /\
    mbrtowc true m' 17 7 0 =
      Some {| mb_ret := if 0x10ffff =? 0 then 0 else encode_len 0x10ffff; mb_wc := Some 0x10ffff; mb_st := 0 |} /\
    mbtowc true m' 17 7 = Some (if 0x10ffff =? 0 then 0 else encode_len 0x10ffff, Some 0x10ffff).
Proof.
  apply (encode_decode_roundtrip room 17 0x10ffff 7); try mem_check.
  - right. lia.
  - change (encode_len 0x10ffff) with 4. lia.
Defined.

(** What two calls return in place of one. *)
Definition resumed (k : Z) (r : mb) : mb :=
  match mb_wc r with
  | Some c => {| mb_ret := if c =? 0 then 0 else k + mb_ret r; mb_wc := Some c; mb_st := mb_st r |}
  | None => r
  end.

Lemma decode_app p xs ys : (xs <> [] \/ p <> None) ->
  decode p (xs ++ ys) =
    match decode p xs with
    | OMore (Some p') => match decode (Some p') ys with
                         | OChar c u => OChar c (u + Z.of_nat (length xs))
                         | o => o
                         end
    | o => o
    end.
Proof.
  intros Hne. destruct p as [p|]; simpl.
  - rewrite decode_from_app. destruct (decode_from p xs 0) as [c u|[p'|]|]; try done.
    by rewrite Z.add_0_l, <- (Z.add_0_l (Z.of_nat _)), decode_from_used.
  - destruct xs as [|x xs]; [by destruct Hne|]. simpl.
    destruct (x <? 0x80); [done|]. destruct (lead x) as [|p|]; try done.
    rewrite decode_from_app. destruct (decode_from p xs 1) as [c u|[p'|]|]; try done.
    replace (1 + Z.of_nat (length xs)) with (0 + Z.of_nat (S (length xs))) by lia.
    by rewrite decode_from_used.
Qed.

(** The decoder is restartable anywhere: when the first [k] bytes end
    inside a character, decoding the rest from the state they left gives the
    character, the error or the state that one call on all the bytes gives, and
    the bytes consumed add up. *)
Theorem mbrtowc_restarts m s k n p r1 :
  mem_ok m -> mapped m s n -> 0 < k <= n -> n < 2 ^ 32 -> 0 < s ->
  (forall p', p = Some p' -> partial_ok p') ->
  mbrtowc true m s k (pack_opt p) = Some r1 -> mb_ret r1 = MORE ->
  exists r2, mbrtowc true m (s + k) (n - k) (mb_st r1) = Some r2 /\
    mbrtowc true m s n (pack_opt p) = Some (resumed k r2).
Proof.
  intros Hok Hm Hk Hn Hs Hp E1 Emore.
  assert (Hm1 : mapped m s k) by (eapply mapped_sub; [exact Hm|lia|lia]).
  assert (Hm2 : mapped m (s + k) (n - k)) by (eapply mapped_sub; [exact Hm|lia|lia]).
  pose proof (length_bytes_of m s k ltac:(lia)) as Hlen.
  assert (Hd1 : exists p1, decode p (bytes_of m s k) = OMore (Some p1) /\ partial_ok p1 /\ mb_st r1 = pack p1).
  { rewrite mbrtowc_ok in E1 by (done || lia). injection E1 as <-. revert Emore.
    assert (Hd : match decode p (bytes_of m s k) with
                 | OMore None => False | OMore (Some p1) => partial_ok p1
                 | OChar c u => 0 <= u <= k | OBad => True end).
    { destruct p as [p|].
      - pose proof (decode_from_spec p (bytes_of m s k) 0 (Hp p eq_refl)) as Hd. simpl.
        destruct (decode_from p _ 0) as [c u|[p1|]|]; [|by destruct Hd|done|done].
        destruct Hd as (_ & _ & rest & _ & Hu & _). lia.
      - pose proof (decode_spec (bytes_of m s k) (bytes_of_bytes m s k Hok)) as Hd.
        destruct (decode None _) as [c u|[p1|]|]; [|by destruct Hd| |done].
        + destruct Hd as (_ & Hu & _). lia.
        + rewrite Hd in Hlen. simpl in Hlen. lia. }
    destruct (decode p (bytes_of m s k)) as [c u|[p1|]|]; [| |done|].
    - intros E. exfalso. revert E. destruct (_ && _); simpl.
      + intros E. pose proof (b2z_range (nz c)). change MORE with (2 ^ 64 - 2) in E. lia.
      + rewrite (wrap_small 32 k), (wrap_small 64) by lia. change MORE with (2 ^ 64 - 2). lia.
    - intros _. exists p1. done.
    - simpl. intros E. discriminate E. }
  destruct Hd1 as (p1 & Ed1 & Hp1 & Est). eexists. split.
  { rewrite Est. apply (mbrtowc_ok m (s + k) (n - k) (Some p1)); [done|done|lia|lia|].
    intros p' [= <-]. done. }
  rewrite (mbrtowc_ok m s n p) by (done || lia). f_equal.
  replace n with (k + (n - k)) at 1 by lia. rewrite bytes_of_app, decode_app, Ed1 by
    (lia || (left; intros E; rewrite E in Hlen; simpl in Hlen; lia)).
  pose proof (decode_from_spec p1 (bytes_of m (s + k) (n - k)) 0 Hp1) as Hd2.
  unfold decode. destruct (decode_from p1 _ 0) as [c u|[p2|]|]; [|done..].
  destruct Hd2 as (_ & Hc & rest & _ & Hu & _). rewrite length_bytes_of in Hu by lia.
  rewrite (proj2 (Z.ltb_ge c 0x80)) by lia. unfold mb_of, resumed. cbn [andb mb_wc mb_ret mb_st].
  rewrite (proj2 (Z.eqb_neq c 0)) by lia. rewrite Hlen.
  rewrite !(wrap_small 32), !(wrap_small 64) by lia. f_equal. lia.
Qed.

(** U+1F600 cut after two bytes. *)
Definition smile : mem := write_bytes ∅ 16 [0xf0; 0x9f; 0x98; 0x80].

Lemma mbrtowc_restarts_witness :
  exists r2, mbrtowc true smile (16 + 2) (4 - 2) 0xC300001F = Some r2 /\
    mbrtowc true smile 16 4 (pack_opt None) = Some (resumed 2 r2).
Proof.
  apply (mbrtowc_restarts smile 16 2 4 None {| mb_ret := MORE; mb_wc := None; mb_st := 0xC300001F |});
    try mem_check.
  intros p' H. discriminate.
Defined.

(** The byte count is computed in [unsigned]: with a buffer of 4 GiB or more
    the value returned is not the number of bytes consumed (here 2). *)
Lemma mbrtowc_large_n :
  mbrtowc true (write_bytes ∅ 16 [0xc3; 0xa9]) 16 (2 ^ 32 + 2) 0 =
    Some {| mb_ret := 2 ^ 64 - 2 ^ 32 + 2; mb_wc := Some 0xe9; mb_st := 0 |}.
Proof. vm_compute. reflexivity. Qed.
