(* ===== verification/Cmp.v ===== *)
(** * Comparison callbacks

    The search and sort functions call back a comparison function that returns a
    negative, zero or positive [int].  [TotalCmp] is what POSIX requires of it: a
    total preorder.  The library's functions are proved against the class; the
    instances are the comparisons the witnesses run with. *)
From stdpp Require Import sorting.
From S2P Require Import Prelude.

Class TotalCmp {K : Type} (cmp : K -> K -> Z) : Prop := {
  cmp_sgn : forall a b, Z.sgn (cmp a b) = - Z.sgn (cmp b a);
  cmp_le_trans : forall a b c, cmp a b <= 0 -> cmp b c <= 0 -> cmp a c <= 0;
}.

Section total_cmp.
Context {K : Type} (cmp : K -> K -> Z) `{!TotalCmp cmp}.

Lemma cmp_lt_gt a b : cmp a b < 0 <-> 0 < cmp b a.
Proof. pose proof (cmp_sgn a b). lia. Qed.

Lemma cmp_eq_sym a b : cmp a b = 0 <-> cmp b a = 0.
Proof. pose proof (cmp_sgn a b). lia. Qed.

Lemma cmp_refl a : cmp a a = 0.
Proof. pose proof (cmp_sgn a a). lia. Qed.

Lemma cmp_le_total a b : cmp a b <= 0 \/ cmp b a <= 0.
Proof. pose proof (cmp_sgn a b). lia. Qed.

Lemma cmp_lt_le_trans a b c : cmp a b < 0 -> cmp b c <= 0 -> cmp a c < 0.
Proof.
  intros H1 H2. assert (cmp a c <= 0) by (apply (cmp_le_trans a b c); lia).
  destruct (Z.eq_dec (cmp a c) 0) as [E|]; [|lia].
  pose proof (cmp_sgn a b). pose proof (cmp_sgn a c).
  assert (cmp b a <= 0) by (apply (cmp_le_trans b c a); lia). lia.
Qed.

Lemma cmp_le_lt_trans a b c : cmp a b <= 0 -> cmp b c < 0 -> cmp a c < 0.
Proof.
  intros H1 H2. assert (cmp a c <= 0) by (apply (cmp_le_trans a b c); lia).
  destruct (Z.eq_dec (cmp a c) 0) as [E|]; [|lia].
  pose proof (cmp_sgn b c). pose proof (cmp_sgn a c).
  assert (cmp c b <= 0) by (apply (cmp_le_trans c a b); lia). lia.
Qed.

(** Keys that compare equal compare alike. *)
Lemma cmp_congr a b c : cmp a b = 0 -> Z.sgn (cmp a c) = Z.sgn (cmp b c).
Proof.
  intros E. pose proof (cmp_sgn b a). destruct (Z.lt_total (cmp a c) 0) as [L|[L|L]].
  - assert (cmp b c < 0) by (apply (cmp_le_lt_trans b a c); lia). lia.
  - assert (cmp b c <= 0) by (apply (cmp_le_trans b a c); lia). pose proof (cmp_sgn a c). pose proof (cmp_sgn b c).
    assert (cmp c b <= 0) by (apply (cmp_le_trans c a b); lia). lia.
  - apply cmp_lt_gt in L. assert (cmp c b < 0) by (apply (cmp_lt_le_trans c a b); lia).
    pose proof (cmp_sgn b c). pose proof (cmp_sgn a c). lia.
Qed.

(** The strict order, as a relation. *)
Definition cmp_lt (a b : K) : Prop := cmp a b < 0.
Definition cmp_le (a b : K) : Prop := cmp a b <= 0.

#[export] Instance cmp_lt_trans : Transitive cmp_lt.
Proof. intros a b c H1 H2. unfold cmp_lt in *. by apply (cmp_lt_le_trans a b c); [|lia]. Qed.

#[export] Instance cmp_le_preorder : PreOrder cmp_le.
Proof.
  split; [intros a; unfold cmp_le; rewrite cmp_refl; lia|].
  intros a b c. apply cmp_le_trans.
Qed.

#[export] Instance cmp_le_is_total : Total cmp_le.
Proof. intros a b. apply cmp_le_total. Qed.
End total_cmp.

(** Difference of integers (without overflow). *)
#[export] Instance sub_total : TotalCmp Z.sub.
Proof. split; intros; lia. Qed.

(** Difference of the first components. *)
Definition cmp_fst {A : Type} (x y : Z * A) : Z := x.1 - y.1.
#[export] Instance cmp_fst_total {A} : TotalCmp (@cmp_fst A).
Proof. split; unfold cmp_fst; intros; lia. Qed.
