(* ===== verification/Avl.v ===== *)
(** * Binary search trees ([search/tsearch_avl.c], [search/tdestroy.c])

    The nodes of a tree form an inductive [tree]; each keeps the address
    [malloc] gave it, its key and the height field the code stores, so a node
    pointer is an address and [None] is a null pointer dereferenced.  The
    comparison callback and the result of [malloc] are parameters. *)
From stdpp Require Import sorting.
From S2P Require Import Prelude Cmp.

Section avl.
Context {K : Type} (cmp : K -> K -> Z).

(** [struct node] with its subtrees; [Nil] is the null pointer. *)
Inductive tree : Type := Nil | Node (addr : Z) (key : K) (left right : tree) (height : Z).

Definition height_of (n : tree) : Z := match n with Nil => 0 | Node _ _ _ _ h => h end.
Definition addr_of (n : tree) : Z := match n with Nil => 0 | Node a _ _ _ _ => a end.

Definition delta (n : tree) : option Z :=
  match n with
  | Nil => None
  | Node _ _ l r _ => Some (height_of l - height_of r)
  end.

Definition updateheight (n : tree) : option tree :=
  match n with
  | Nil => None
  | Node a k l r _ =>
      let h := 0 in
      let h := match l with Node _ _ _ _ lh => if h <? lh then lh else h | Nil => h end in
      let h := match r with Node _ _ _ _ rh => if h <? rh then rh else h | Nil => h end in
      Some (Node a k l r (h + 1))
  end.

Definition rotl (n : tree) : option tree :=
  match n with
  | Node a k l (Node ra rk rl rr rh) h =>
      n ← updateheight (Node a k l rl h);
      updateheight (Node ra rk n rr rh)
  | _ => None
  end.

Definition rotr (n : tree) : option tree :=
  match n with
  | Node a k (Node la lk ll lr lh) r h =>
      n ← updateheight (Node a k lr r h);
      updateheight (Node la lk ll n lh)
  | _ => None
  end.

Definition balance (n : tree) : option tree :=
  d ← delta n;
  match n with
  | Nil => None
  | Node a k l r h =>
      if d <? -1 then
        dr ← delta r;
        r ← (if 0 <? dr then rotr r else Some r);
        rotl (Node a k l r h)
      else if 1 <? d then
        dl ← delta l;
        l ← (if dl <? 0 then rotl l else Some l);
        rotr (Node a k l r h)
      else updateheight n
  end.

(** The address of the node found, 0 if there is none. *)
Fixpoint find (n : tree) (k : K) : Z :=
  match n with
  | Nil => 0
  | Node a key l r _ =>
      let c := cmp k key in
      if c =? 0 then a else if c <? 0 then find l k else find r k
  end.

(** [insert]: the new subtree ([None] for the null pointer, "no change") and
    [*found]; [malloc] is the address the call returns, 0 if it fails. *)
Fixpoint insert (malloc : Z) (n : tree) (k : K) : option (option tree * Z) :=
  match n with
  | Nil =>
      if nz malloc then Some (Some (Node malloc k Nil Nil 1), malloc) else Some (None, 0)
  | Node a key l r h =>
      let c := cmp k key in
      if c =? 0 then Some (None, a)
      else
        '(s, found) ← insert malloc (if c <? 0 then l else r) k;
        match s with
        | None => Some (None, found)
        | Some s =>
            n ← balance (if c <? 0 then Node a key s r h else Node a key l s h);
            Some (Some n, found)
        end
  end.

(** [remove_rightmost]: what is left and the node taken out. *)
Fixpoint remove_rightmost (n : tree) : option (tree * (Z * K * Z)) :=
  match n with
  | Nil => None
  | Node a k l Nil h => Some (l, (a, k, h))
  | Node a k l r h =>
      '(r, rightmost) ← remove_rightmost r;
      n ← balance (Node a k l r h);
      Some (n, rightmost)
  end.

(** [remove]: the new subtree and the pointer returned. *)
Fixpoint remove (n : tree) (k : K) (parent : Z) : option (tree * Z) :=
  match n with
  | Nil => Some (Nil, 0)
  | Node a key l r h =>
      let c := cmp k key in
      if c =? 0 then
        match l with
        | Nil => Some (r, parent)
        | Node _ _ _ _ _ =>
            '(l, (ra, rk, rh)) ← remove_rightmost l;
            n ← balance (Node ra rk l r rh);
            Some (n, parent)
        end
      else
        '(s, parent) ← remove (if c <? 0 then l else r) k a;
        let n := if c <? 0 then Node a key s r h else Node a key l s h in
        if nz parent then (n ← balance n; Some (n, parent)) else Some (n, parent)
  end.

(** The entry points, on the root pointer stored at [rootp]. *)
Definition tdelete (root : tree) (key : K) : option (tree * Z) := remove root key (addr_of root).

Definition tfind (root : tree) (key : K) : Z := find root key.

Definition tsearch (malloc : Z) (root : tree) (key : K) : option (tree * Z) :=
  '(update, ret) ← insert malloc root key;
  Some (match update with Some t => t | None => root end, ret).

(** [VISIT], and the calls of [action] that [walk] makes, in order. *)
Inductive visit : Type := preorder | postorder | endorder | leaf.

#[export] Instance visit_eq_dec : EqDecision visit.
Proof. solve_decision. Defined.

Fixpoint walk (r : tree) (d : Z) : list (Z * visit * Z) :=
  match r with
  | Nil => []
  | Node a _ Nil Nil _ => [(a, leaf, d)]
  | Node a _ l rt _ =>
      (a, preorder, d) :: walk l (d + 1) ++ (a, postorder, d) :: walk rt (d + 1) ++ [(a, endorder, d)]
  end.

Definition twalk (root : tree) : list (Z * visit * Z) := walk root 0.

(** The calls [tdestroy] makes, in order. *)
Inductive destroy_call : Type := Freekey (k : K) | Free (a : Z).

Fixpoint tdestroy (root : tree) (freekey : bool) : list destroy_call :=
  match root with
  | Nil => []
  | Node a k l r _ =>
      tdestroy l freekey ++ tdestroy r freekey ++ (if freekey then [Freekey k] else []) ++ [Free a]
  end.

(** ** The invariant *)

Fixpoint avl (t : tree) : Prop :=
  match t with
  | Nil => True
  | Node _ _ l r h =>
      avl l /\ avl r /\ -1 <= height_of l - height_of r <= 1 /\
      h = 1 + Z.max (height_of l) (height_of r)
  end.

(** The nodes from left to right: address and key. *)
Fixpoint inorder (t : tree) : list (Z * K) :=
  match t with Nil => [] | Node a k l r _ => inorder l ++ (a, k) :: inorder r end.

Definition key_lt (x y : Z * K) : Prop := cmp_lt cmp x.2 y.2.

(** The keys increase strictly from left to right. *)
Definition ordered (t : tree) : Prop := StronglySorted key_lt (inorder t).

Definition addrs_ok (t : tree) : Prop := Forall (fun x => x.1 <> 0) (inorder t).

(** [k] belongs between [l1] and [l2]. *)
Definition between (k : K) (l1 l2 : list (Z * K)) : Prop :=
  Forall (fun x => 0 < cmp k x.2) l1 /\ Forall (fun x => cmp k x.2 < 0) l2.

Lemma height_nonneg t : avl t -> 0 <= height_of t.
Proof. induction t as [|a k l IHl r IHr h]; simpl; [lia|]. intros (Hl & Hr & _ & ->). specialize (IHl Hl). lia. Qed.

Lemma height_pos t : avl t -> 0 < height_of t -> exists a k l r h, t = Node a k l r h.
Proof. destruct t; simpl; [lia|]. eauto 10. Qed.

Lemma updateheight_node a k l r h :
  0 <= height_of l -> 0 <= height_of r ->
  updateheight (Node a k l r h) = Some (Node a k l r (1 + Z.max (height_of l) (height_of r))).
Proof.
  intros Hl Hr. unfold updateheight. do 2 f_equal.
  destruct l as [|? ? ? ? lh], r as [|? ? ? ? rh]; simpl in *; repeat bcase; lia.
Qed.

Arguments updateheight : simpl never.
Arguments rotl : simpl never.
Arguments rotr : simpl never.
Arguments balance : simpl never.

(** A step of [cbn] on the monadic code of the rotations. *)
Ltac run := cbn [mbind option_bind height_of delta].

Ltac list_assoc := repeat (rewrite <- !app_assoc || rewrite <- !app_comm_cons).

Lemma rotl_node a k l ra rk rl rr rh h :
  0 <= height_of l -> 0 <= height_of rl -> 0 <= height_of rr ->
  rotl (Node a k l (Node ra rk rl rr rh) h) =
    Some (Node ra rk (Node a k l rl (1 + Z.max (height_of l) (height_of rl))) rr
      (1 + Z.max (1 + Z.max (height_of l) (height_of rl)) (height_of rr))).
Proof.
  intros. unfold rotl. rewrite updateheight_node by done. run. by rewrite updateheight_node by (simpl; lia).
Qed.

Lemma rotr_node a k la lk ll lr lh r h :
  0 <= height_of r -> 0 <= height_of ll -> 0 <= height_of lr ->
  rotr (Node a k (Node la lk ll lr lh) r h) =
    Some (Node la lk ll (Node a k lr r (1 + Z.max (height_of lr) (height_of r)))
      (1 + Z.max (height_of ll) (1 + Z.max (height_of lr) (height_of r)))).
Proof.
  intros. unfold rotr. rewrite updateheight_node by done. run. by rewrite updateheight_node by (simpl; lia).
Qed.

Lemma balance_ok a k l r h :
  avl l -> avl r -> -2 <= height_of l - height_of r <= 2 ->
  exists t, balance (Node a k l r h) = Some t /\ avl t /\
    inorder t = inorder l ++ (a, k) :: inorder r /\
    Z.max (height_of l) (height_of r) <= height_of t <= 1 + Z.max (height_of l) (height_of r) /\
    (-1 <= height_of l - height_of r <= 1 -> height_of t = 1 + Z.max (height_of l) (height_of r)).
Proof.
  intros Hl Hr Hd. pose proof (height_nonneg l Hl). pose proof (height_nonneg r Hr).
  unfold balance. run.
  destruct (Z.ltb_spec (height_of l - height_of r) (-1)) as [L1|L1]; [|destruct (Z.ltb_spec 1 (height_of l - height_of r)) as [L2|L2]].
  - destruct (height_pos r Hr ltac:(lia)) as (ra & rk & rl & rr & rh & ->).
    destruct Hr as (Hrl & Hrr & Hrd & Hrh). simpl in Hd, L1. subst rh.
    pose proof (height_nonneg rl Hrl). pose proof (height_nonneg rr Hrr). run.
    destruct (Z.ltb_spec 0 (height_of rl - height_of rr)) as [L3|L3].
    + destruct (height_pos rl Hrl ltac:(lia)) as (ma & mk & ml & mr & mh & ->).
      destruct Hrl as (Hml & Hmr & Hmd & Hmh). cbn [height_of] in *. subst mh.
      pose proof (height_nonneg ml Hml). pose proof (height_nonneg mr Hmr).
      rewrite rotr_node by (simpl; lia). run.
      rewrite rotl_node by (simpl; lia).
      eexists. split; [done|]. cbn [avl inorder height_of].
      split; [repeat split; first [assumption|lia]|]. split; [by list_assoc|lia].
    + run. rewrite rotl_node by (simpl; lia).
      eexists. split; [done|]. cbn [avl inorder height_of].
      split; [repeat split; first [assumption|lia]|]. split; [by list_assoc|lia].
  - destruct (height_pos l Hl ltac:(lia)) as (la & lk & ll & lr & lh & ->).
    destruct Hl as (Hll & Hlr & Hld & Hlh). simpl in Hd, L2. subst lh.
    pose proof (height_nonneg ll Hll). pose proof (height_nonneg lr Hlr). run.
    destruct (Z.ltb_spec (height_of ll - height_of lr) 0) as [L3|L3].
    + destruct (height_pos lr Hlr ltac:(lia)) as (ma & mk & ml & mr & mh & ->).
      destruct Hlr as (Hml & Hmr & Hmd & Hmh). cbn [height_of] in *. subst mh.
      pose proof (height_nonneg ml Hml). pose proof (height_nonneg mr Hmr).
      rewrite rotl_node by (simpl; lia). run.
      rewrite rotr_node by (simpl; lia).
      eexists. split; [done|]. cbn [avl inorder height_of].
      split; [repeat split; first [assumption|lia]|]. split; [by list_assoc|lia].
    + run. rewrite rotr_node by (simpl; lia).
      eexists. split; [done|]. cbn [avl inorder height_of].
      split; [repeat split; first [assumption|lia]|]. split; [by list_assoc|lia].
  - rewrite updateheight_node by (simpl; lia). eexists. split; [done|]. cbn [avl inorder height_of].
    split; [repeat split; first [assumption|lia]|]. split; [done|lia].
Qed.

Lemma ordered_node a k l r h : ordered (Node a k l r h) ->
  ordered l /\ ordered r /\ Forall (fun x => cmp_lt cmp x.2 k) (inorder l) /\
  Forall (fun x => cmp_lt cmp k x.2) (inorder r).
Proof.
  unfold ordered. simpl. induction (inorder l) as [|x xs IH]; simpl; intros Hs; inversion Hs as [|? ? Hs' Hx]; subst.
  - split; [constructor|]. split; [done|]. split; [constructor|]. exact Hx.
  - destruct (IH Hs') as (H1 & H2 & H3 & H4). apply Forall_app in Hx as [Hx Hy]. inversion Hy; subst.
    split; [by constructor|]. split; [done|]. split; [by constructor|done].
Qed.

Context `{!TotalCmp cmp}.

Lemma between_left k k' l1 l2 a l : cmp k k' < 0 -> Forall (fun x => cmp_lt cmp k' x.2) l ->
  between k l1 l2 -> between k l1 (l2 ++ (a, k') :: l).
Proof.
  intros Hk Hl [H1 H2]. split; [done|]. apply Forall_app. split; [done|]. constructor; [done|].
  eapply Forall_impl; [|exact Hl]. intros x Hx. unfold cmp_lt in Hx. simpl.
  eapply (cmp_lt_le_trans cmp); [exact Hk|lia].
Qed.

Lemma between_right k k' l1 l2 a l : 0 < cmp k k' -> Forall (fun x => cmp_lt cmp x.2 k') l ->
  between k l1 l2 -> between k (l ++ (a, k') :: l1) l2.
Proof.
  intros Hk Hl [H1 H2]. split; [|done]. apply Forall_app. split; [|by constructor].
  eapply Forall_impl; [|exact Hl]. intros x Hx. unfold cmp_lt in Hx. simpl.
  apply (cmp_lt_gt cmp). eapply (cmp_lt_le_trans cmp); [exact Hx|].
  apply (cmp_lt_gt cmp) in Hk. lia.
Qed.

Lemma find_spec t k : ordered t ->
  (exists l1 a k' l2, inorder t = l1 ++ (a, k') :: l2 /\ cmp k k' = 0 /\ find t k = a) \/
   (find t k = 0 /\ exists l1 l2, inorder t = l1 ++ l2 /\ between k l1 l2).
Proof.
  induction t as [|a key l IHl r IHr h]; intros H.
  { right. split; [done|]. exists [], []. split; [done|]. by split; constructor. }
  apply ordered_node in H as (Ol & Or & Fl & Fr). simpl.
  destruct (Z.eqb_spec (cmp k key) 0) as [E|E].
  { left. by exists (inorder l), a, key, (inorder r). }
  destruct (Z.ltb_spec (cmp k key) 0) as [L|L].
  - destruct (IHl Ol) as [(l1 & a' & k' & l2 & -> & Hc & Hf)|(Hf & l1 & l2 & -> & Hb)].
    + left. exists l1, a', k', (l2 ++ (a, key) :: inorder r). by list_assoc.
    + right. split; [done|]. exists l1, (l2 ++ (a, key) :: inorder r).
      split; [by list_assoc|]. by apply between_left.
  - destruct (IHr Or) as [(l1 & a' & k' & l2 & -> & Hc & Hf)|(Hf & l1 & l2 & -> & Hb)].
    + left. exists (inorder l ++ (a, key) :: l1), a', k', l2. by list_assoc.
    + right. split; [done|]. exists (inorder l ++ (a, key) :: l1), l2.
      split; [by list_assoc|]. apply between_right; [lia|done|done].
Qed.

(** What [insert] does, by outcome. *)
Definition insert_post (malloc : Z) (t : tree) (k : K) (s : option tree) (found : Z) : Prop :=
  (s = None /\ exists l1 k' l2, inorder t = l1 ++ (found, k') :: l2 /\ cmp k k' = 0) \/
  (exists l1 l2, inorder t = l1 ++ l2 /\ between k l1 l2 /\
    ((malloc = 0 /\ s = None /\ found = 0) \/
     (malloc <> 0 /\ found = malloc /\ exists t', s = Some t' /\ avl t' /\
       inorder t' = l1 ++ (malloc, k) :: l2 /\ height_of t <= height_of t' <= height_of t + 1))).

Lemma insert_ok malloc t k : avl t -> ordered t ->
  exists s found, insert malloc t k = Some (s, found) /\ insert_post malloc t k s found.
Proof.
  induction t as [|a key l IHl r IHr h]; intros Ht Ho; simpl.
  { unfold nz. destruct (Z.eqb_spec malloc 0) as [E|E]; simpl; do 2 eexists; (split; [done|]); right;
      exists [], []; (split; [done|]); (split; [by split; constructor|]); [by left|right].
    split; [done|]. split; [done|]. eexists. split; [done|]. simpl. split; [|split; [done|lia]].
    repeat split; lia. }
  pose proof Ht as (Hl & Hr & Hd & Hh). apply ordered_node in Ho as (Ol & Or & Fl & Fr).
  destruct (Z.eqb_spec (cmp k key) 0) as [E|E].
  { do 2 eexists. split; [done|]. left. split; [done|]. by exists (inorder l), key, (inorder r). }
  destruct (Z.ltb_spec (cmp k key) 0) as [L|L].
  - destruct (IHl Hl Ol) as (s & found & -> & [(-> & l1 & k' & l2 & Ei & Hc)|(l1 & l2 & Ei & Hb & [(-> & -> & ->)|(Hm & -> & t' & -> & Ht' & Ei' & Hh')])]);
      cbn [mbind option_bind].
    + do 2 eexists. split; [done|]. left. split; [done|]. exists l1, k', (l2 ++ (a, key) :: inorder r).
      split; [|done]. simpl. rewrite Ei. by list_assoc.
    + do 2 eexists. split; [done|]. right. exists l1, (l2 ++ (a, key) :: inorder r).
      split; [simpl; rewrite Ei; by list_assoc|]. split; [by apply between_left|by left].
    + destruct (balance_ok a key t' r h Ht' Hr ltac:(lia)) as (n & -> & Hn & Ein & Hhn & Hhn').
      cbn [mbind option_bind]. do 2 eexists. split; [done|]. right. exists l1, (l2 ++ (a, key) :: inorder r).
      split; [simpl; rewrite Ei; by list_assoc|]. split; [by apply between_left|]. right.
      split; [done|]. split; [done|]. exists n. split; [done|]. split; [done|].
      split; [rewrite Ein, Ei'; by list_assoc|]. cbn [height_of]. lia.
  - destruct (IHr Hr Or) as (s & found & -> & [(-> & l1 & k' & l2 & Ei & Hc)|(l1 & l2 & Ei & Hb & [(-> & -> & ->)|(Hm & -> & t' & -> & Ht' & Ei' & Hh')])]);
      cbn [mbind option_bind].
    + do 2 eexists. split; [done|]. left. split; [done|]. exists (inorder l ++ (a, key) :: l1), k', l2.
      split; [|done]. simpl. rewrite Ei. by list_assoc.
    + do 2 eexists. split; [done|]. right. exists (inorder l ++ (a, key) :: l1), l2.
      split; [simpl; rewrite Ei; by list_assoc|]. split; [apply between_right; [lia|done|done]|by left].
    + destruct (balance_ok a key l t' h Hl Ht' ltac:(lia)) as (n & -> & Hn & Ein & Hhn & Hhn').
      cbn [mbind option_bind]. do 2 eexists. split; [done|]. right. exists (inorder l ++ (a, key) :: l1), l2.
      split; [simpl; rewrite Ei; by list_assoc|]. split; [apply between_right; [lia|done|done]|]. right.
      split; [done|]. split; [done|]. exists n. split; [done|]. split; [done|].
      split; [rewrite Ein, Ei'; by list_assoc|]. cbn [height_of]. lia.
Qed.

Lemma remove_rightmost_ok n : avl n -> n <> Nil ->
  exists t a k h, remove_rightmost n = Some (t, (a, k, h)) /\ avl t /\
    inorder n = inorder t ++ [(a, k)] /\ height_of n - 1 <= height_of t <= height_of n.
Proof.
  induction n as [|a k l IHl r IHr h]; intros Hn Hne; [done|].
  destruct Hn as (Hl & Hr & Hd & Hh). pose proof (height_nonneg l Hl) as Hp.
  destruct r as [|ra rk rl rr rh].
  { exists l, a, k, h. cbn [height_of] in *. split; [done|]. split; [done|]. split; [done|]. lia. }
  destruct (IHr Hr ltac:(done)) as (t & ma & mk & mh & E & Ht & Ei & Hht).
  change (remove_rightmost (Node a k l (Node ra rk rl rr rh) h)) with
    ('(r, rightmost) ← remove_rightmost (Node ra rk rl rr rh);
      n ← balance (Node a k l r h); Some (n, rightmost)).
  rewrite E. cbn [mbind option_bind].
  destruct (balance_ok a k l t h Hl Ht ltac:(lia)) as (n & -> & Hn & Ein & Hhn & Hhn').
  cbn [mbind option_bind]. exists n, ma, mk, mh. split; [done|]. split; [done|].
  split; [rewrite Ein; change (inorder (Node a k l (Node ra rk rl rr rh) h)) with
    (inorder l ++ (a, k) :: inorder (Node ra rk rl rr rh)); rewrite Ei; by list_assoc|].
  change (height_of (Node a k l (Node ra rk rl rr rh) h)) with h. lia.
Qed.

(** [p] is the node of [t] one of whose children is at [a]. *)
Fixpoint parent_of (t : tree) (a p : Z) : Prop :=
  match t with
  | Nil => False
  | Node b _ l r _ => (p = b /\ (addr_of l = a \/ addr_of r = a)) \/ parent_of l a p \/ parent_of r a p
  end.

Definition remove_post (t : tree) (k : K) (parent : Z) (t' : tree) (ret : Z) : Prop :=
  (t' = t /\ ret = 0 /\ exists l1 l2, inorder t = l1 ++ l2 /\ between k l1 l2) \/
  (exists l1 a k' l2, inorder t = l1 ++ (a, k') :: l2 /\ cmp k k' = 0 /\
     avl t' /\ inorder t' = l1 ++ l2 /\ height_of t - 1 <= height_of t' <= height_of t /\
     ret <> 0 /\ ((ret = parent /\ addr_of t = a) \/ parent_of t a ret)).

Lemma remove_ok t k parent : avl t -> ordered t -> addrs_ok t -> parent <> 0 ->
  exists t' ret, remove t k parent = Some (t', ret) /\ remove_post t k parent t' ret.
Proof.
  revert parent. induction t as [|a key l IHl r IHr h]; intros parent Ht Ho Ha Hp; simpl.
  { do 2 eexists. split; [done|]. left. split; [done|]. split; [done|]. exists [], [].
    split; [done|]. by split; constructor. }
  pose proof Ht as (Hl & Hr & Hd & Hh). apply ordered_node in Ho as (Ol & Or & Fl & Fr).
  pose proof (height_nonneg l Hl). pose proof (height_nonneg r Hr).
  unfold addrs_ok in Ha. cbn [inorder] in Ha. apply Forall_app in Ha as [Al Ar].
  apply Forall_cons_1 in Ar as [Aa Ar]. cbn [fst] in Aa.
  destruct (Z.eqb_spec (cmp k key) 0) as [E|E].
  { assert (Hc : exists t', match l with
      | Nil => Some (r, parent)
      | Node _ _ _ _ _ => '(l, (ra, rk, rh)) ← remove_rightmost l;
                          n ← balance (Node ra rk l r rh); Some (n, parent)
      end = Some (t', parent) /\ avl t' /\ inorder t' = inorder l ++ inorder r /\ h - 1 <= height_of t' <= h).
    { destruct l as [|la lk ll lr lh]; [exists r; cbn [height_of] in *; repeat split; (done || lia)|].
      destruct (remove_rightmost_ok (Node la lk ll lr lh) Hl ltac:(done)) as (t & ra & rk & rh & -> & Htt & Ei & Hht).
      cbn [mbind option_bind]. destruct (balance_ok ra rk t r rh Htt Hr ltac:(lia)) as (n & -> & Hn & Ein & Hhn & Hhn').
      cbn [mbind option_bind]. exists n. split; [done|]. split; [done|].
      split; [rewrite Ein, Ei; by list_assoc|lia]. }
    destruct Hc as (t' & -> & Ht' & Ei & Hh'). do 2 eexists. split; [done|]. right.
    exists (inorder l), a, key, (inorder r). split; [done|]. split; [done|]. split; [done|].
    split; [done|]. split; [done|]. split; [done|]. by left. }
  destruct (Z.ltb_spec (cmp k key) 0) as [L|L].
  - destruct (IHl a Hl Ol Al Aa) as (t' & ret & -> & [(-> & -> & l1 & l2 & Ei & Hb)|(l1 & da & k' & l2 & Ei & Hc & Ht' & Ei' & Hh' & Hr0 & Hpar)]);
      cbn [mbind option_bind].
    + do 2 eexists. split; [done|]. left. split; [done|]. split; [done|].
      exists l1, (l2 ++ (a, key) :: inorder r). split; [simpl; rewrite Ei; by list_assoc|by apply between_left].
    + rewrite (proj2 (nz_true ret) Hr0).
      destruct (balance_ok a key t' r h Ht' Hr ltac:(lia)) as (n & -> & Hn & Ein & Hhn & Hhn').
      cbn [mbind option_bind]. do 2 eexists. split; [done|]. right.
      exists l1, da, k', (l2 ++ (a, key) :: inorder r). split; [simpl; rewrite Ei; by list_assoc|].
      split; [done|]. split; [done|]. split; [rewrite Ein, Ei'; by list_assoc|].
      cbn [height_of parent_of]. split; [lia|]. split; [done|]. right. destruct Hpar as [[-> ->]|]; tauto.
  - destruct (IHr a Hr Or Ar Aa) as (t' & ret & -> & [(-> & -> & l1 & l2 & Ei & Hb)|(l1 & da & k' & l2 & Ei & Hc & Ht' & Ei' & Hh' & Hr0 & Hpar)]);
      cbn [mbind option_bind].
    + do 2 eexists. split; [done|]. left. split; [done|]. split; [done|].
      exists (inorder l ++ (a, key) :: l1), l2.
      split; [simpl; rewrite Ei; by list_assoc|apply between_right; [lia|done|done]].
    + rewrite (proj2 (nz_true ret) Hr0).
      destruct (balance_ok a key l t' h Hl Ht' ltac:(lia)) as (n & -> & Hn & Ein & Hhn & Hhn').
      cbn [mbind option_bind]. do 2 eexists. split; [done|]. right.
      exists (inorder l ++ (a, key) :: l1), da, k', l2. split; [simpl; rewrite Ei; by list_assoc|].
      split; [done|]. split; [done|]. split; [rewrite Ein, Ei'; by list_assoc|].
      cbn [height_of parent_of]. split; [lia|]. split; [done|]. right. destruct Hpar as [[-> ->]|]; tauto.
Qed.

(** ** Height *)

Fixpoint fib (n : nat) : Z :=
  match n with O => 0 | S n' => match n' with O => 1 | S n'' => fib n' + fib n'' end end.

Lemma fib_step n : fib (S (S n)) = fib (S n) + fib n.
Proof. done. Qed.

Lemma fib_pos n : 0 <= fib n /\ 1 <= fib (S n).
Proof. induction n as [|n [IH1 IH2]]; [done|]. split; [lia|]. rewrite fib_step. lia. Qed.

Lemma fib_mono n k : (n <= k)%nat -> fib n <= fib k.
Proof.
  induction 1 as [|k H IH]; [lia|]. destruct k as [|k].
  { assert (n = 0%nat) as -> by lia. simpl. lia. }
  rewrite fib_step. pose proof (fib_pos k). lia.
Qed.

(** A linear-time version, to evaluate it. *)
Fixpoint fib_fast (n : nat) (a b : Z) : Z :=
  match n with O => a | S n' => fib_fast n' b (a + b) end.

Lemma fib_fast_ok n : fib_fast n 0 1 = fib n.
Proof.
  enough (H : forall k, fib_fast n (fib k) (fib (S k)) = fib (n + k)) by (specialize (H 0%nat); by rewrite Nat.add_0_r in H).
  induction n as [|n IH]; intros k; [done|]. cbn [fib_fast].
  replace (fib k + fib (S k)) with (fib (S (S k))) by (rewrite fib_step; lia).
  rewrite IH. by replace (n + S k)%nat with (S n + k)%nat by lia.
Qed.

Lemma avl_size t : avl t -> fib (Z.to_nat (height_of t) + 2) <= Z.of_nat (length (inorder t)) + 1.
Proof.
  induction t as [|a k l IHl r IHr h]; [simpl; lia|]. intros (Hl & Hr & Hd & Hh).
  specialize (IHl Hl). specialize (IHr Hr).
  pose proof (height_nonneg l Hl). pose proof (height_nonneg r Hr).
  cbn [height_of inorder]. rewrite length_app. cbn [length].
  set (x := Z.to_nat (Z.max (height_of l) (height_of r))).
  replace (Z.to_nat h + 2)%nat with (S (S (S x))) by lia. rewrite (fib_step (S x)).
  destruct (Z.max_spec (height_of l) (height_of r)) as [[Hm Em]|[Hm Em]].
  - assert (Ex : (Z.to_nat (height_of r) + 2 = S (S x))%nat) by lia. rewrite Ex in IHr.
    pose proof (fib_mono (S x) (Z.to_nat (height_of l) + 2) ltac:(lia)). lia.
  - assert (Ex : (Z.to_nat (height_of l) + 2 = S (S x))%nat) by lia. rewrite Ex in IHl.
    pose proof (fib_mono (S x) (Z.to_nat (height_of r) + 2) ltac:(lia)). lia.
Qed.

(** ** Traversals *)

Definition visited (vs : list visit) (tr : list (Z * visit * Z)) : list Z :=
  (fun x => x.1.1) <$> filter (fun x => x.1.2 ∈ vs) tr.

Lemma visited_app vs tr1 tr2 : visited vs (tr1 ++ tr2) = visited vs tr1 ++ visited vs tr2.
Proof. unfold visited. by rewrite list.filter_app, fmap_app. Qed.

Lemma visited_cons vs a v d tr :
  visited vs ((a, v, d) :: tr) = if decide (v ∈ vs) then a :: visited vs tr else visited vs tr.
Proof. unfold visited. rewrite list.filter_cons. simpl. by case_decide. Qed.

(** The addresses of the nodes in the three orders. *)
Fixpoint pre_addrs (t : tree) : list Z :=
  match t with Nil => [] | Node a _ l r _ => a :: pre_addrs l ++ pre_addrs r end.
Fixpoint post_addrs (t : tree) : list Z :=
  match t with Nil => [] | Node a _ l r _ => post_addrs l ++ post_addrs r ++ [a] end.

Lemma walk_node a k l r h d : l <> Nil \/ r <> Nil ->
  walk (Node a k l r h) d =
    (a, preorder, d) :: walk l (d + 1) ++ (a, postorder, d) :: walk r (d + 1) ++ [(a, endorder, d)].
Proof. intros [H|H]; destruct l, r; done. Qed.

Lemma walk_orders t d :
  visited [preorder; leaf] (walk t d) = pre_addrs t /\
  visited [postorder; leaf] (walk t d) = (inorder t).*1 /\
  visited [endorder; leaf] (walk t d) = post_addrs t.
Proof.
  revert d. induction t as [|a k l IHl r IHr h]; intros d; [done|].
  destruct (IHl (d + 1)) as (L1 & L2 & L3), (IHr (d + 1)) as (R1 & R2 & R3).
  assert (Hc : (l = Nil /\ r = Nil) \/ (l <> Nil \/ r <> Nil)).
  { destruct l; [destruct r; [by left|right; by right]|right; by left]. }
  destruct Hc as [[-> ->]|Hne]; [done|]. rewrite walk_node by done.
  rewrite !visited_cons, !visited_app, !visited_cons, !visited_app, !visited_cons.
  rewrite L1, L2, L3, R1, R2, R3. cbn [inorder]. rewrite fmap_app.
  repeat match goal with |- context [decide (?v ∈ ?vs)] =>
    let b := eval vm_compute in (bool_decide (v ∈ vs)) in
    lazymatch b with
    | true => rewrite (decide_True (P := v ∈ vs)) by (apply (bool_decide_unpack (v ∈ vs)); vm_compute; exact I)
    | false => rewrite (decide_False (P := v ∈ vs)) by (apply (bool_decide_unpack (v ∉ vs)); vm_compute; exact I)
    end end.
  repeat split; simpl; by rewrite ?app_nil_r, <- ?app_assoc.
Qed.

(** ** The tree as a finite map

    [assoc] is the address of the first node whose key compares equal. *)
Fixpoint assoc (l : list (Z * K)) (k : K) : Z :=
  match l with [] => 0 | (a, k') :: l' => if cmp k k' =? 0 then a else assoc l' k end.

Lemma assoc_miss l1 l2 k : Forall (fun x => cmp k x.2 <> 0) l1 -> assoc (l1 ++ l2) k = assoc l2 k.
Proof.
  induction l1 as [|[a k'] l1 IH]; intros H; [done|]. apply Forall_cons_1 in H as [H H']. simpl in *.
  rewrite (proj2 (Z.eqb_neq _ _)) by done. by apply IH.
Qed.

Lemma assoc_skip l1 l2 a k' k : cmp k k' <> 0 -> assoc (l1 ++ (a, k') :: l2) k = assoc (l1 ++ l2) k.
Proof.
  intros H. induction l1 as [|[b kb] l1 IH]; simpl; [by rewrite (proj2 (Z.eqb_neq _ _))|].
  case_match; done.
Qed.

Lemma between_congr k k2 l1 l2 : cmp k2 k = 0 -> between k l1 l2 ->
  Forall (fun x => cmp k2 x.2 <> 0) l1 /\ Forall (fun x => cmp k2 x.2 <> 0) l2.
Proof.
  intros E [H1 H2]. split; (eapply Forall_impl; [|done]); simpl; intros x Hx;
    pose proof (cmp_congr cmp k2 k x.2 E); lia.
Qed.

Lemma between_assoc k k2 l1 l2 : cmp k2 k = 0 -> between k l1 l2 -> assoc (l1 ++ l2) k2 = 0.
Proof.
  intros E Hb. destruct (between_congr k k2 l1 l2 E Hb) as [H1 H2].
  rewrite assoc_miss by done. rewrite <- (app_nil_r l2), assoc_miss by done. done.
Qed.

Lemma ordered_between l1 a k' l2 : StronglySorted key_lt (l1 ++ (a, k') :: l2) -> between k' l1 l2.
Proof.
  intros Hs. split.
  - induction l1 as [|x l1 IH]; [constructor|]. simpl in Hs. inversion Hs as [|? ? Hs' Hx]; subst.
    apply Forall_app in Hx as [_ Hx]. apply Forall_cons_1 in Hx as [Hx _].
    constructor; [|by apply IH]. apply (cmp_lt_gt cmp). exact Hx.
  - induction l1 as [|x l1 IH]; inversion Hs as [|? ? Hs' Hx]; subst; [exact Hx|by apply IH].
Qed.

Lemma find_assoc t k : ordered t -> find t k = assoc (inorder t) k.
Proof.
  intros Ho. destruct (find_spec t k Ho) as [(l1 & a & k' & l2 & E & Hc & ->)|(-> & l1 & l2 & E & Hb)].
  - unfold ordered in Ho. rewrite E in *. apply ordered_between in Ho.
    destruct (between_congr k' k l1 l2 Hc Ho) as [H1 _].
    rewrite assoc_miss by done. simpl. by rewrite Hc.
  - rewrite E. symmetry. apply (between_assoc k); [apply (cmp_refl cmp)|done].
Qed.

Lemma ordered_insert l1 l2 a k : between k l1 l2 -> StronglySorted key_lt (l1 ++ l2) ->
  StronglySorted key_lt (l1 ++ (a, k) :: l2).
Proof.
  intros [H1 H2] Hs. induction l1 as [|x l1 IH]; simpl in *.
  - by constructor.
  - inversion Hs as [|? ? Hs' Hx]; subst. apply Forall_cons_1 in H1 as [Hx1 H1].
    apply Forall_app in Hx as [Hxl Hxr]. constructor; [by apply IH|].
    apply Forall_app. split; [done|]. constructor; [|done]. by apply (cmp_lt_gt cmp).
Qed.

Lemma ordered_delete l1 l2 x : StronglySorted key_lt (l1 ++ x :: l2) -> StronglySorted key_lt (l1 ++ l2).
Proof.
  induction l1 as [|y l1 IH]; simpl; intros Hs; inversion Hs as [|? ? Hs' Hx]; subst; [done|].
  constructor; [by apply IH|]. apply Forall_app in Hx as [Hx1 Hx2]. inversion Hx2; subst.
  by apply Forall_app.
Qed.
End avl.

Arguments tree K : clear implicits.
Arguments Nil {K}.
Arguments Node {K} addr key left right height.

Section avl_properties.
Context {K : Type} (cmp : K -> K -> Z) `{!TotalCmp cmp}.
Implicit Types (t : tree K) (k : K).

(** The invariant of a root: balanced, the stored heights right, the keys in
    order, no node at the null address. *)
Definition tree_ok t : Prop := avl t /\ ordered cmp t /\ addrs_ok t.

(** C32. [tsearch] keeps the invariant and is insertion in a map: the node
    returned is the one that already holds an equal key (the tree is then left
    alone), otherwise the node [malloc] gave, and afterwards that key is found
    there and every other key where it was.  When [malloc] fails nothing changes
    and the result is null. *)
Theorem tsearch_inserts malloc t k :
  tree_ok t ->
  exists t' ret, tsearch cmp malloc t k = Some (t', ret) /\ tree_ok t' /\
    ret = (if tfind cmp t k =? 0 then malloc else tfind cmp t k) /\
    (tfind cmp t k <> 0 \/ malloc = 0 -> t' = t) /\
    (forall k2, tfind cmp t' k2 =
       if (cmp k2 k =? 0) && negb (ret =? 0) then ret else tfind cmp t k2) /\
    (t' <> t -> inorder t' ≡ₚ (malloc, k) :: inorder t).
Proof.
  intros (Ht & Ho & Ha). unfold tsearch, tfind.
  destruct (insert_ok cmp malloc t k Ht Ho) as (s & found & -> & [(-> & l1 & k' & l2 & E & Hc)|(l1 & l2 & E & Hb & Hs)]);
    cbn [mbind option_bind]; do 2 eexists; (split; [done|]).
  - assert (Hf : forall k2, cmp k2 k = 0 -> find cmp t k2 = found).
    { intros k2 Hk. rewrite find_assoc, E by done. unfold ordered in Ho. rewrite E in Ho.
      apply ordered_between in Ho; [|done].
      assert (Hc2 : cmp k2 k' = 0) by (pose proof (cmp_congr cmp k2 k k' Hk); lia).
      destruct (between_congr cmp k' k2 l1 l2 Hc2 Ho) as [H1 _].
      rewrite assoc_miss by done. simpl. by rewrite Hc2. }
    rewrite (Hf k (cmp_refl cmp k)).
    assert (Hf0 : found <> 0).
    { unfold addrs_ok in Ha. rewrite E in Ha. apply Forall_app in Ha as [_ Ha].
      apply Forall_cons_1 in Ha as [Ha _]. done. }
    rewrite (proj2 (Z.eqb_neq found 0) Hf0). split; [done|]. split; [done|]. split; [done|].
    split; [|done]. intros k2. destruct (Z.eqb_spec (cmp k2 k) 0) as [E2|E2]; [|done]. by rewrite (Hf k2 E2).
  - assert (Hm : find cmp t k = 0).
    { rewrite find_assoc, E by done. apply (between_assoc cmp k); [apply (cmp_refl cmp)|done]. }
    rewrite Hm. cbn [Z.eqb].
    destruct Hs as [(-> & -> & ->)|(Hm0 & -> & t' & -> & Ht' & Ei & Hh)].
    + split; [done|]. split; [done|]. split; [done|]. split; [|done]. intros k2. by rewrite andb_false_r.
    + assert (Ho' : ordered cmp t').
      { unfold ordered in *. rewrite Ei. rewrite E in Ho. by apply ordered_insert. }
      split; [|split; [done|split; [by intros [?|?]|split]]].
      * split; [done|]. split; [done|]. unfold addrs_ok in *. rewrite Ei. rewrite E in Ha.
        apply Forall_app in Ha as [Ha1 Ha2]. apply Forall_app. by repeat constructor.
      * intros k2. rewrite (proj2 (Z.eqb_neq malloc 0) Hm0), andb_true_r, !find_assoc, Ei, E by done.
        destruct (Z.eqb_spec (cmp k2 k) 0) as [E2|E2]; [|by apply assoc_skip].
        destruct (between_congr cmp k k2 l1 l2 E2 Hb) as [H1 _].
        rewrite assoc_miss by done. simpl. by rewrite E2.
      * intros _. rewrite Ei, E. symmetry. apply Permutation_middle.
Qed.

(** C33. [tdelete] keeps the invariant and is deletion from a map: null when the
    key is not there, and the tree is left alone; otherwise exactly the node
    found goes, and the pointer returned is its parent (the old root's address
    when it was the root). *)
Theorem tdelete_deletes t k :
  tree_ok t ->
  exists t' ret, tdelete cmp t k = Some (t', ret) /\ tree_ok t' /\
    (tfind cmp t k = 0 -> t' = t /\ ret = 0) /\
    (tfind cmp t k <> 0 -> ret <> 0 /\
       (ret = addr_of t /\ addr_of t = tfind cmp t k \/ parent_of t (tfind cmp t k) ret) /\
       exists k', cmp k k' = 0 /\ inorder t ≡ₚ (tfind cmp t k, k') :: inorder t') /\
    (forall k2, tfind cmp t' k2 = if cmp k2 k =? 0 then 0 else tfind cmp t k2).
Proof.
  intros (Ht & Ho & Ha). unfold tdelete, tfind.
  destruct t as [|a0 k0 l0 r0 h0].
  { do 2 eexists. split; [done|]. split; [done|]. split; [done|]. split; [done|]. intros k2. simpl. by case_match. }
  assert (Hp : a0 <> 0).
  { unfold addrs_ok in Ha. simpl in Ha. apply Forall_app in Ha as [_ Ha]. by apply Forall_cons_1 in Ha as [Ha _]. }
  set (t := Node a0 k0 l0 r0 h0) in *. change (addr_of t) with a0.
  destruct (remove_ok cmp t k a0 Ht Ho Ha Hp) as (t' & ret & -> & [(-> & -> & l1 & l2 & E & Hb)|
      (l1 & a & k' & l2 & E & Hc & Ht' & Ei & Hh & Hr0 & Hpar)]); do 2 eexists; (split; [done|]).
  - assert (Hf : forall k2, cmp k2 k = 0 -> find cmp t k2 = 0).
    { intros k2 Hk. rewrite find_assoc, E by done. by apply (between_assoc cmp k). }
    rewrite (Hf k (cmp_refl cmp k)). split; [done|]. split; [done|]. split; [done|].
    intros k2. destruct (Z.eqb_spec (cmp k2 k) 0) as [E2|E2]; [by rewrite Hf|done].
  - assert (Hob : between cmp k' l1 l2) by (apply (ordered_between cmp l1 a); unfold ordered in Ho; by rewrite <- E).
    assert (Ho' : ordered cmp t').
    { unfold ordered in *. rewrite Ei. rewrite E in Ho. by apply ordered_delete in Ho. }
    assert (Hf : find cmp t k = a).
    { rewrite find_assoc, E by done. destruct (between_congr cmp k' k l1 l2 Hc Hob) as [H1 _].
      rewrite assoc_miss by done. simpl. by rewrite Hc. }
    unfold addrs_ok in Ha. rewrite E in Ha. apply Forall_app in Ha as [Ha1 Ha2].
    apply Forall_cons_1 in Ha2 as [Ha Ha2]. simpl in Ha. rewrite Hf.
    split; [split; [done|]; split; [done|]; unfold addrs_ok; rewrite Ei; by apply Forall_app|].
    split; [done|]. split.
    { intros _. split; [done|]. split; [destruct Hpar as [[-> ?]|]; [by left|by right]|].
      exists k'. split; [done|]. rewrite E, Ei. symmetry. apply Permutation_middle. }
    intros k2. rewrite !find_assoc, Ei, E by done.
    destruct (Z.eqb_spec (cmp k2 k) 0) as [E2|E2].
    + apply (between_assoc cmp k'); [|done]. pose proof (cmp_congr cmp k2 k k' E2). lia.
    + symmetry. apply assoc_skip. pose proof (cmp_congr cmp k k' k2 Hc).
      intros Ex. apply E2. pose proof (cmp_sgn (cmp := cmp) k2 k). pose proof (cmp_sgn (cmp := cmp) k2 k'). lia.
Qed.

(** The height of a tree of [n] nodes obeys [fib (height + 2) <= n + 1]: the
    worst case of [2^32] nodes stays within the depth 45 the source announces, and
    any number of nodes below [2^64] keeps every height field, an [int], in
    range. *)
Theorem height_bound t :
  tree_ok t ->
  fib (Z.to_nat (height_of t) + 2) <= Z.of_nat (length (inorder t)) + 1 /\
  (Z.of_nat (length (inorder t)) <= 2 ^ 32 -> height_of t <= 45) /\
  (Z.of_nat (length (inorder t)) < 2 ^ 64 -> height_of t <= 91).
Proof.
  intros (Ht & _ & _). pose proof (avl_size t Ht) as H. split; [done|].
  split; intros Hn; apply Z.nlt_ge; intros Hlt.
  - pose proof (fib_mono 48 (Z.to_nat (height_of t) + 2) ltac:(lia)) as Hm.
    assert (E : fib 48 = 4807526976) by (rewrite <- fib_fast_ok; reflexivity). lia.
  - pose proof (fib_mono 94 (Z.to_nat (height_of t) + 2) ltac:(lia)) as Hm.
    assert (E : fib 94 = 19740274219868223167) by (rewrite <- fib_fast_ok; reflexivity). lia.
Qed.

(** [twalk] calls the action once on each leaf and three times on each other
    node, so that the calls marked [preorder], [postorder] and [endorder], each
    with [leaf], list the nodes in the three orders; the middle one is the order
    of the keys.  [tdestroy] frees the nodes in the last order, each key right
    before its node. *)
Theorem traversals_in_order t :
  visited [preorder; leaf] (twalk t) = pre_addrs t /\
  visited [postorder; leaf] (twalk t) = (inorder t).*1 /\
  visited [endorder; leaf] (twalk t) = post_addrs t /\
  (tdestroy t false = Free <$> post_addrs t) /\
  omap (fun c => match c with Free a => Some a | Freekey _ => None end) (tdestroy t true) = post_addrs t /\
  omap (fun c => match c with Free _ => None | Freekey k => Some k end) (tdestroy t true) ≡ₚ (inorder t).*2.
Proof.
  destruct (walk_orders t 0) as (H1 & H2 & H3). split; [done|]. split; [done|]. split; [done|]. clear.
  induction t as [|a k l (IHl1 & IHl2 & IHl3) r (IHr1 & IHr2 & IHr3) h]; [done|]. simpl.
  rewrite IHl1, IHr1, !fmap_app, !omap_app, IHl2, IHr2. split; [done|]. split; [done|].
  rewrite IHl3, IHr3. simpl. apply Permutation_app_head. symmetry. apply Permutation_cons_append.
Qed.
End avl_properties.

(** ** Witnesses *)

(** Keys 10, 20, 30, 40, inserted in this order; the next insertion on the right
    rotates. *)
Definition sample : tree Z :=
  Node 1002 20 (Node 1001 10 Nil Nil 1) (Node 1003 30 Nil (Node 1004 40 Nil Nil 1) 2) 3.

Example sample_built :
  foldl (fun t i => match tsearch Z.sub (1000 + i) t (10 * i) with Some (t', _) => t' | None => t end)
    Nil (seqZ 1 4) = sample.
Proof. reflexivity. Qed.

Example sample_insert : exists t', tsearch Z.sub 1005 sample 50 = Some (t', 1005) /\ addr_of t' = 1002 /\ height_of t' = 3.
Proof. eexists. split; [reflexivity|done]. Qed.

Lemma sample_ok : tree_ok Z.sub sample.
Proof.
  split; [simpl; repeat split; lia|]. split.
  - unfold ordered, sample. simpl. repeat constructor; unfold key_lt, cmp_lt; simpl; lia.
  - unfold addrs_ok, sample. simpl. repeat constructor; simpl; lia.
Qed.

Lemma tsearch_inserts_witness :
  exists t' ret, tsearch Z.sub 1005 sample 50 = Some (t', ret) /\ tree_ok Z.sub t' /\
    ret = (if tfind Z.sub sample 50 =? 0 then 1005 else tfind Z.sub sample 50) /\
    (tfind Z.sub sample 50 <> 0 \/ 1005 = 0 -> t' = sample) /\
    (forall k2, tfind Z.sub t' k2 = if (k2 - 50 =? 0) && negb (ret =? 0) then ret else tfind Z.sub sample k2) /\
    (t' <> sample -> inorder t' ≡ₚ (1005, 50) :: inorder sample).
Proof. exact (tsearch_inserts Z.sub 1005 sample 50 sample_ok). Defined.

Lemma tdelete_deletes_witness :
  exists t' ret, tdelete Z.sub sample 20 = Some (t', ret) /\ tree_ok Z.sub t' /\
    (tfind Z.sub sample 20 = 0 -> t' = sample /\ ret = 0) /\
    (tfind Z.sub sample 20 <> 0 -> ret <> 0 /\
       (ret = addr_of sample /\ addr_of sample = tfind Z.sub sample 20 \/ parent_of sample (tfind Z.sub sample 20) ret) /\
       exists k', 20 - k' = 0 /\ inorder sample ≡ₚ (tfind Z.sub sample 20, k') :: inorder t') /\
    (forall k2, tfind Z.sub t' k2 = if k2 - 20 =? 0 then 0 else tfind Z.sub sample k2).
Proof. exact (tdelete_deletes Z.sub sample 20 sample_ok). Defined.

Lemma height_bound_witness :
  fib (Z.to_nat (height_of sample) + 2) <= Z.of_nat (length (inorder sample)) + 1 /\
  (Z.of_nat (length (inorder sample)) <= 2 ^ 32 -> height_of sample <= 45) /\
  (Z.of_nat (length (inorder sample)) < 2 ^ 64 -> height_of sample <= 91).
Proof. exact (height_bound Z.sub sample sample_ok). Defined.
