(* ===== verification/CString.v ===== *)
(** * Strings as values

    What a routine that takes C strings depends on is the list of bytes before
    the terminator; [cstring] reads it off the memory. *)
From S2P Require Import Prelude Mem StrScan.

Fixpoint string_at (fuel : nat) (m : mem) (p : Z) : list Z :=
  match fuel with
  | O => []
  | S fuel' => if rd m p =? 0 then [] else rd m p :: string_at fuel' m (p + 1)
  end.

Definition cstring (m : mem) (p : Z) : list Z := string_at (size m) m p.

Definition is_str (m : mem) (p : Z) : Prop := exists len, cstr m p len.

Lemma string_at_cstr fuel m p len : cstr m p len -> len < Z.of_nat fuel ->
  string_at fuel m p = bytes_of m p len.
Proof.
  revert p len. induction fuel as [|fuel IH]; intros p len (Hl & Hm & Hnz & Hz) Hf; [lia|].
  simpl. destruct (Z.eqb_spec (rd m p) 0) as [E|E].
  - assert (len = 0) as ->; [|by rewrite bytes_of_nil].
    destruct (Z.eq_dec len 0); [done|]. exfalso. apply (Hnz 0); [lia|by rewrite Z.add_0_r].
  - assert (len <> 0) by (intros ->; rewrite Z.add_0_r in Hz; done).
    rewrite bytes_of_cons by lia. f_equal. apply IH; [|lia]. split; [lia|].
    split; [eapply mapped_sub; [exact Hm|lia|lia]|]. split.
    + intros i Hi. rewrite <- Z.add_assoc. apply Hnz. lia.
    + by replace (p + 1 + (len - 1)) with (p + len) by lia.
Qed.

Lemma cstring_cstr m p len : cstr m p len -> cstring m p = bytes_of m p len.
Proof.
  intros H. apply string_at_cstr; [done|]. destruct H as (_ & Hm & _). apply mapped_size in Hm. lia.
Qed.

Lemma cstring_length m p len : cstr m p len -> Z.of_nat (length (cstring m p)) = len.
Proof. intros H. rewrite (cstring_cstr m p len H). apply length_bytes_of. apply H. Qed.

Lemma cstr_cstring m p : is_str m p -> cstr m p (Z.of_nat (length (cstring m p))).
Proof. intros [len H]. by rewrite (cstring_length m p len H). Qed.

Lemma cstring_bytes m p : mem_ok m -> is_str m p -> Forall is_byte (cstring m p).
Proof. intros Hok [len H]. rewrite (cstring_cstr m p len H). by apply bytes_of_bytes. Qed.

Lemma lex_compare_eq xs ys : lex_compare xs ys = Eq <-> xs = ys.
Proof.
  split; [|intros ->; induction ys as [|y ys IH]; simpl; [done|by rewrite Z.compare_refl]].
  revert ys. induction xs as [|x xs IH]; intros [|y ys]; simpl; try done.
  destruct (Z.compare_spec x y) as [->| |]; try done. intros H. f_equal. by apply IH.
Qed.

(** [strcmp] decides equality. *)
Lemma strcmp_eq m p q : mem_ok m -> is_str m p -> is_str m q ->
  exists d, strcmp m p q = Some d /\ (d = 0 <-> cstring m p = cstring m q).
Proof.
  intros Hok [l1 H1] [l2 H2]. destruct (strcmp_ok m p q l1 l2 Hok H1 H2) as (d & -> & Hd).
  exists d. split; [done|]. rewrite (cstring_cstr m p l1 H1), (cstring_cstr m q l2 H2), <- lex_compare_eq, <- Hd.
  symmetry. apply Z.compare_eq_iff.
Qed.

(** Reading a string byte by byte: the rule for loops that walk one string. *)
Lemma cstr_fold {A} (m : mem) (f : A -> Z -> A) (p len : Z) (a : A) (body : Z * A -> option (turn (Z * A) A)) :
  cstr m p len ->
  (forall q a, mapped m q 1 -> body (q, a) =
     if nz (rd m q) then Some (Next (q + 1, f a (rd m q))) else Some (Leave a)) ->
  iter (fuel_of m) body (p, a) = Some (foldl f a (bytes_of m p len)).
Proof.
  intros (Hl & Hm & Hnz & Hz) Hbody. pose proof (mapped_size _ _ _ Hm) as Hsz.
  destruct (iter_rule
    (fun '(q, b) => exists i, 0 <= i <= len /\ q = p + i /\ foldl f b (bytes_of m q (len - i)) = foldl f a (bytes_of m p len))
    (fun '(q, _) => Z.to_nat (p + len - q))
    (fun r => r = foldl f a (bytes_of m p len)) body) with (fuel := fuel_of m) (s := (p, a)) as (r & -> & ->).
  - intros [q b] (i & Hi & -> & Hf). rewrite Hbody by (eapply mapped_sub; [exact Hm|lia|lia]).
    destruct (Z.eq_dec i len) as [->|Hne].
    + rewrite Hz. simpl. rewrite Z.sub_diag in Hf. by rewrite bytes_of_nil in Hf.
    + rewrite (proj2 (nz_true _)) by (apply Hnz; lia). split; [|lia]. exists (i + 1).
      split; [lia|]. split; [lia|]. rewrite <- Hf, (bytes_of_cons m (p + i)) by lia. simpl.
      by replace (len - i - 1) with (len - (i + 1)) by lia.
  - exists 0. rewrite Z.add_0_r, Z.sub_0_r. repeat split; lia.
  - unfold fuel_of. lia.
  - done.
Qed.
