(* ===== verification/Hsearch.v ===== *)
(** * Hash tables ([search/hsearch.c])

    Open addressing with a power-of-two table and quadratic (triangular) probing.
    Keys are pointers to strings in a memory that the functions only read; an
    entry whose key is null is free.  Whether [calloc] has room for so many objects
    of a size is an argument. *)
From S2P Require Import Prelude Mem StrScan CString.

Record ENTRY := { e_key : Z; e_data : Z }.
Inductive ACTION : Type := FIND | ENTER.

Definition sizeof_ENTRY : Z := 16.
Definition MINSIZE : Z := 8.
Definition MAXSIZE : Z := (2 ^ 64 - 1) / 2 + 1.

(** [struct __tab]; [None] is the null pointer. *)
Record tab := { entries : option (list ENTRY); mask : Z; used : Z }.

Definition no_entry : ENTRY := {| e_key := 0; e_data := 0 |}.
Definition no_tab : tab := {| entries := None; mask := 0; used := 0 |}.

Section hsearch.
Variable m : mem.

Definition keyhash (k : Z) : option Z :=
  iter (fuel_of m) (fun '(p, h) =>
    b ← load8 m p;
    if nz b then Some (Next (p + 1, u64 (31 * h + b))) else Some (Leave h)) (k, 0).

(** The index of the slot the loop of [resize] stops at. *)
Definition free_slot (l : list ENTRY) (mask hash : Z) : option Z :=
  iter (S (length l)) (fun '(i, j) =>
    let idx := Z.land i mask in
    e ← l !! Z.to_nat idx;
    if e_key e =? 0 then Some (Leave idx) else Some (Next (u64 (i + j), u64 (j + 1)))) (hash, 1).

(** One turn of the loop over the old table. *)
Definition rehash (mask : Z) (l : list ENTRY) (e : ENTRY) : option (list ENTRY) :=
  if negb (e_key e =? 0) then
    h ← keyhash (e_key e);
    idx ← free_slot l mask h;
    Some (<[Z.to_nat idx := e]> l)
  else Some l.

Fixpoint rehash_all (mask : Z) (l old : list ENTRY) : option (list ENTRY) :=
  match old with
  | [] => Some l
  | e :: old => l ← rehash mask l e; rehash_all mask l old
  end.

Definition newsize_of (nel : Z) : option Z :=
  while 64 (fun newsize => Some (newsize <? nel)) (fun newsize => Some (newsize * 2)) MINSIZE.

Definition resize (calloc : Z -> Z -> bool) (nel : Z) (t : tab) : option (bool * tab) :=
  let nel := if MAXSIZE <? nel then MAXSIZE else nel in
  newsize ← newsize_of nel;
  if negb (calloc newsize sizeof_ENTRY) then Some (false, t)
  else
    let fresh := replicate (Z.to_nat newsize) no_entry in
    let mask' := newsize - 1 in
    match entries t with
    | None => Some (true, {| entries := Some fresh; mask := mask'; used := used t |})
    | Some old =>
        l ← rehash_all mask' fresh (take (Z.to_nat (mask t + 1)) old);
        Some (true, {| entries := Some l; mask := mask'; used := used t |})
    end.

(** The index of the slot found. *)
Definition lookup (key hash : Z) (t : tab) : option Z :=
  l ← entries t;
  iter (S (length l)) (fun '(i, j) =>
    let idx := Z.land i (mask t) in
    e ← l !! Z.to_nat idx;
    if e_key e =? 0 then Some (Leave idx)
    else
      c ← strcmp m (e_key e) key;
      if c =? 0 then Some (Leave idx) else Some (Next (u64 (i + j), u64 (j + 1)))) (hash, 1).

(** [__hcreate_r]: [None] for the null [__tab]; [calloc_tab]
    tells whether there was room for the [struct __tab]. *)
Definition hcreate_r (calloc_tab : bool) (calloc : Z -> Z -> bool) (nel : Z) : option (bool * option tab) :=
  if negb calloc_tab then Some (false, None)
  else
    '(r, t) ← resize calloc nel no_tab;
    Some (r, if (r : bool) then Some t else None).

(** [__hsearch_r]: the result, the slot stored in [*retval] ([None] for null) and
    the table. *)
Definition hsearch_r (calloc : Z -> Z -> bool) (item : ENTRY) (action : ACTION) (t : tab) :
    option (bool * option Z * tab) :=
  hash ← keyhash (e_key item);
  idx ← lookup (e_key item) hash t;
  l ← entries t;
  e ← l !! Z.to_nat idx;
  if negb (e_key e =? 0) then Some (true, Some idx, t)
  else
    match action with
    | FIND => Some (false, None, t)
    | ENTER =>
        let l := <[Z.to_nat idx := item]> l in
        let used := used t + 1 in
        let t := {| entries := Some l; mask := mask t; used := used |} in
        if mask t - mask t / 4 <? used then
          '(ok, t) ← resize calloc (u64 (2 * used)) t;
          if (ok : bool) then
            idx ← lookup (e_key item) hash t;
            Some (true, Some idx, t)
          else
            Some (false, None,
                  {| entries := Some (<[Z.to_nat idx := {| e_key := 0; e_data := e_data item |}]> l);
                     mask := mask t; used := used - 1 |})
        else Some (true, Some idx, t)
    end.
End hsearch.

(** ** Probing

    After [n] turns the probe loops look at slot [hash + n (n + 1) / 2]. *)
Definition tri (n : Z) : Z := n * (n + 1) / 2.
Definition slot (size h n : Z) : Z := (h + tri n) mod size.

Lemma tri_double n : 2 * tri n = n * (n + 1).
Proof.
  assert (E : exists x, n * (n + 1) = x * 2).
  { destruct (Z.Even_or_Odd n) as [[x ->]|[x ->]]; [exists (x * (2 * x + 1))|exists ((2 * x + 1) * (x + 1))]; lia. }
  destruct E as [x E]. unfold tri. rewrite E, Z.div_mul; lia.
Qed.

Lemma tri_succ n : tri (n + 1) = tri n + (n + 1).
Proof. pose proof (tri_double n). pose proof (tri_double (n + 1)). lia. Qed.

Lemma slot_range size h n : 0 < size -> 0 <= slot size h n < size.
Proof. intros. by apply Z.mod_pos_bound. Qed.

(** The probes of the first [size] turns are all different. *)
Lemma slot_inj k h a b : 0 <= k -> 0 <= a < 2 ^ k -> 0 <= b < 2 ^ k ->
  slot (2 ^ k) h a = slot (2 ^ k) h b -> a = b.
Proof.
  intros Hk Ha Hb E.
  enough (H : forall a b, 0 <= a < b -> b < 2 ^ k -> slot (2 ^ k) h a = slot (2 ^ k) h b -> False).
  { destruct (Z.lt_total a b) as [L|[L|L]]; [|done|]; exfalso; [apply (H a b)|apply (H b a)]; (done || lia). }
  clear a b Ha Hb E. intros a b Ha Hb E. unfold slot in E.
  assert (Hd : (2 ^ k | tri b - tri a)).
  { apply Z.mod_divide; [lia|]. rewrite Zminus_mod. apply (f_equal (fun x => (x - h) mod 2 ^ k)) in E.
    rewrite !Zminus_mod_idemp_l in E. replace (h + tri a - h) with (tri a) in E by lia.
    replace (h + tri b - h) with (tri b) in E by lia. rewrite E, Z.sub_diag. done. }
  assert (Hd2 : (2 ^ (k + 1) | (b - a) * (a + b + 1))).
  { replace ((b - a) * (a + b + 1)) with (2 * (tri b - tri a)) by
      (pose proof (tri_double a); pose proof (tri_double b); lia).
    rewrite Z.pow_add_r, Z.mul_comm by lia. by apply Z.mul_divide_mono_l. }
  assert (Hodd : forall x y, Z.Odd x -> 0 < y < 2 ^ (k + 1) -> (2 ^ (k + 1) | x * y) -> False).
  { intros x y Hx Hy Hxy. apply Z.gauss in Hxy.
    - apply Z.divide_pos_le in Hxy; lia.
    - apply Z.coprime_pow_l; [lia|]. destruct Hx as [z ->]. apply Z.bezout_1_gcd. exists (- z), 1. lia. }
  destruct (Z.Even_or_Odd (b - a)) as [[x Ex]|Hx].
  - apply (Hodd (a + b + 1) (b - a)); [exists (a + x); lia|rewrite Z.pow_add_r by lia; lia|].
    by rewrite Z.mul_comm.
  - apply (Hodd (b - a) (a + b + 1)); [done|rewrite Z.pow_add_r by lia; lia|done].
Qed.

(** So they reach every slot. *)
Lemma slot_surj k h i : 0 <= k -> 0 <= i < 2 ^ k -> exists n, 0 <= n < 2 ^ k /\ slot (2 ^ k) h n = i.
Proof.
  intros Hk Hi.
  assert (Hp : slot (2 ^ k) h <$> seqZ 0 (2 ^ k) ≡ₚ seqZ 0 (2 ^ k)).
  { apply submseteq_length_Permutation; [|by rewrite length_fmap].
    apply NoDup_submseteq.
    - apply NoDup_fmap_2_strong; [|apply NoDup_seqZ]. intros a b Ha Hb.
      apply elem_of_seqZ in Ha, Hb. apply slot_inj; lia.
    - intros x Hx. apply list_elem_of_fmap in Hx as (n & -> & Hn). apply elem_of_seqZ.
      pose proof (slot_range (2 ^ k) h n). lia. }
  assert (Hin : i ∈ slot (2 ^ k) h <$> seqZ 0 (2 ^ k)) by (rewrite Hp; apply elem_of_seqZ; lia).
  apply list_elem_of_fmap in Hin as (n & -> & Hn). apply elem_of_seqZ in Hn. exists n. split; [lia|done].
Qed.

(** Masking a probe index that wraps at 64 bits. *)
Lemma probe_index k h n : 0 <= k <= 64 -> Z.land (u64 (h + tri n)) (2 ^ k - 1) = slot (2 ^ k) h n.
Proof.
  intros Hk. rewrite Z.sub_1_r, <- Z.ones_equiv, Z.land_ones by lia. unfold slot, wrap.
  apply Z.mod_mod_divide. exists (2 ^ (64 - k)). rewrite <- Z.pow_add_r by lia. f_equal. lia.
Qed.

Lemma probe_next h n : u64 (u64 (h + tri n) + (n + 1)) = u64 (h + tri (n + 1)).
Proof. unfold wrap. rewrite Z.add_mod_idemp_l by lia. f_equal. rewrite tri_succ. lia. Qed.

(** A probe loop that stops somewhere: it stops at the first such slot, and it
    looks at no other memory than the table. *)
Section probe.
Context (k : Z) (Hk : 0 <= k <= 63) (h : Z) (Hh : 0 <= h < 2 ^ 64).
Context (l : list ENTRY) (Hl : Z.of_nat (length l) = 2 ^ k) (stop : ENTRY -> bool).

Definition at_slot (n : Z) : ENTRY := default no_entry (l !! Z.to_nat (slot (2 ^ k) h n)).

Lemma at_slot_lookup n : l !! Z.to_nat (slot (2 ^ k) h n) = Some (at_slot n).
Proof.
  unfold at_slot. pose proof (slot_range (2 ^ k) h n ltac:(lia)).
  destruct (lookup_lt_is_Some_2 l (Z.to_nat (slot (2 ^ k) h n))) as [e ->]; [lia|done].
Qed.

Lemma probe_ok (body : Z * Z -> option (turn (Z * Z) Z)) n0 :
  (forall i j e, l !! Z.to_nat (Z.land i (2 ^ k - 1)) = Some e ->
     body (i, j) = Some (if stop e then Leave (Z.land i (2 ^ k - 1)) else Next (u64 (i + j), u64 (j + 1)))) ->
  0 <= n0 < 2 ^ k -> stop (at_slot n0) = true ->
  exists n, 0 <= n <= n0 /\ iter (S (length l)) body (h, 1) = Some (slot (2 ^ k) h n) /\
    stop (at_slot n) = true /\ forall n', 0 <= n' < n -> stop (at_slot n') = false.
Proof.
  intros Hbody Hn0 Hs0.
  assert (H2k : 2 ^ k < 2 ^ 64) by (apply Z.pow_lt_mono_r; lia).
  destruct (iter_rule
    (fun '(i, j) => exists n, 0 <= n <= n0 /\ i = u64 (h + tri n) /\ j = n + 1 /\
       forall n', 0 <= n' < n -> stop (at_slot n') = false)
    (fun '(i, j) => Z.to_nat (n0 + 1 - j))
    (fun r => exists n, 0 <= n <= n0 /\ r = slot (2 ^ k) h n /\ stop (at_slot n) = true /\
       forall n', 0 <= n' < n -> stop (at_slot n') = false) body) with (fuel := S (length l)) (s := (h, 1))
    as (r & -> & n & Hn & -> & Hrest).
  - intros [i j] (n & Hn & -> & -> & Hbefore).
    rewrite (Hbody _ _ (at_slot n)) by (rewrite probe_index by lia; apply at_slot_lookup).
    rewrite probe_index by lia. destruct (stop (at_slot n)) eqn:Es; [by exists n|].
    assert (n <> n0) by (intros ->; congruence). rewrite probe_next, (wrap_small 64 (n + 1 + 1)) by lia.
    split; [|lia]. exists (n + 1). split; [lia|]. split; [done|]. split; [lia|].
    intros n' Hn'. destruct (Z.eq_dec n' n) as [->|]; [done|]. apply Hbefore. lia.
  - exists 0. change (tri 0) with 0. rewrite Z.add_0_r, wrap_small by lia. repeat split; lia.
  - lia.
  - by exists n.
Qed.
End probe.

(** ** The table *)

Definition hash_bytes (bs : list Z) : Z := foldl (fun h b => u64 (31 * h + b)) 0 bs.

Lemma hash_range bs : 0 <= hash_bytes bs < 2 ^ 64.
Proof.
  unfold hash_bytes. induction bs as [|b bs _] using rev_ind; [simpl; lia|].
  rewrite foldl_app. apply wrap_range. lia.
Qed.

Lemma keyhash_ok m p : is_str m p -> keyhash m p = Some (hash_bytes (cstring m p)).
Proof.
  intros Hs. unfold keyhash. erewrite cstr_fold; [|by apply cstr_cstring|].
  - by rewrite (cstring_cstr m p _ (cstr_cstring m p Hs)) at 2.
  - intros q a Hq. simpl. rewrite (load8_rd m q 1 q) by (done || lia). done.
Qed.

(** The entries in use. *)
Definition contents (l : list ENTRY) : list ENTRY := filter (fun e => e_key e <> 0) l.

Section table.
Context (m : mem) (Hmem : mem_ok m).

Definition key_of (e : ENTRY) : list Z := cstring m (e_key e).

(** Every probe before the [n]-th of the entry's own sequence hits a used slot. *)
Definition reachable (k : Z) (l : list ENTRY) (h i : Z) : Prop :=
  exists n, 0 <= n < 2 ^ k /\ i = slot (2 ^ k) h n /\
    forall n', 0 <= n' < n -> e_key (at_slot k h l n') <> 0.

Definition table_ok (k : Z) (l : list ENTRY) : Prop :=
  3 <= k <= 60 /\ Z.of_nat (length l) = 2 ^ k /\ NoDup (key_of <$> contents l) /\
  forall (i : nat) e, l !! i = Some e -> e_key e <> 0 ->
    is_str m (e_key e) /\ reachable k l (hash_bytes (key_of e)) (Z.of_nat i).

Lemma contents_insert l (i : nat) e x : l !! i = Some e -> e_key e = 0 -> e_key x <> 0 ->
  contents (<[i := x]> l) ≡ₚ x :: contents l.
Proof.
  intros Hi He Hx. pose proof (lookup_lt_Some _ _ _ Hi) as Hlt.
  rewrite <- (take_drop_middle l i e Hi) at 2. rewrite insert_take_drop by done. unfold contents.
  rewrite !list.filter_app, !list.filter_cons. rewrite decide_True by done. rewrite decide_False by naive_solver.
  symmetry. apply Permutation_middle.
Qed.

Lemma contents_in l e : e ∈ contents l <-> e_key e <> 0 /\ e ∈ l.
Proof. unfold contents. by rewrite list_elem_of_filter. Qed.

Lemma contents_length l : (length (contents l) <= length l)%nat.
Proof. apply length_filter. Qed.

Lemma free_exists l : (length (contents l) < length l)%nat -> exists (i : nat) e, l !! i = Some e /\ e_key e = 0.
Proof.
  induction l as [|x l IH]; simpl; [lia|]. unfold contents. rewrite list.filter_cons. intros H.
  case_decide as Hx.
  - simpl in H. destruct IH as (i & e & Hi & He); [unfold contents; lia|]. by exists (S i), e.
  - exists 0%nat, x. split; [done|]. by destruct (Z.eq_dec (e_key x) 0).
Qed.

(** The probe loops meet a free slot in a table that is not full. *)
Lemma free_probe k l h : table_ok k l -> (length (contents l) < length l)%nat ->
  exists n, 0 <= n < 2 ^ k /\ e_key (at_slot k h l n) = 0.
Proof.
  intros (Hk & Hlen & _) Hfree. destruct (free_exists l Hfree) as (i & e & Hi & He).
  pose proof (lookup_lt_Some _ _ _ Hi).
  destruct (slot_surj k h (Z.of_nat i)) as (n & Hn & E); [lia..|]. exists n. split; [done|].
  unfold at_slot. by rewrite E, Nat2Z.id, Hi.
Qed.

Lemma free_slot_ok k l h : table_ok k l -> 0 <= h < 2 ^ 64 -> (length (contents l) < length l)%nat ->
  exists (i : nat) e, free_slot l (2 ^ k - 1) h = Some (Z.of_nat i) /\ l !! i = Some e /\ e_key e = 0 /\
    reachable k l h (Z.of_nat i).
Proof.
  intros Ht Hh Hfree. destruct (free_probe k l h Ht Hfree) as (n0 & Hn0 & H0).
  destruct Ht as (Hk & Hlen & _).
  destruct (probe_ok k ltac:(lia) h Hh l Hlen (fun e => e_key e =? 0)
    (fun '(i, j) => e ← l !! Z.to_nat (Z.land i (2 ^ k - 1));
       if e_key e =? 0 then Some (Leave (Z.land i (2 ^ k - 1))) else Some (Next (u64 (i + j), u64 (j + 1)))) n0)
    as (n & Hn & E & Hs & Hb); [|lia|by rewrite H0|].
  { intros i j e ->. cbn [mbind option_bind]. by destruct (e_key e =? 0). }
  pose proof (slot_range (2 ^ k) h n ltac:(lia)).
  exists (Z.to_nat (slot (2 ^ k) h n)), (at_slot k h l n). rewrite Z2Nat.id by lia.
  split; [exact E|]. split; [apply at_slot_lookup; lia|]. split; [by apply Z.eqb_eq|].
  exists n. split; [lia|]. split; [done|]. intros n' Hn'. by apply Z.eqb_neq, Hb.
Qed.

(** [lookup] finds the entry of the key, or the slot to put it. *)
Lemma lookup_ok k l t key : table_ok k l -> entries t = Some l -> mask t = 2 ^ k - 1 ->
  (length (contents l) < length l)%nat -> is_str m key ->
  exists (i : nat) e, lookup m key (hash_bytes (cstring m key)) t = Some (Z.of_nat i) /\ l !! i = Some e /\
    ((e_key e <> 0 /\ key_of e = cstring m key) \/
     (e_key e = 0 /\ reachable k l (hash_bytes (cstring m key)) (Z.of_nat i) /\
      forall e', e' ∈ contents l -> key_of e' <> cstring m key)).
Proof.
  intros Ht El Em Hfree Hkey. set (h := hash_bytes (cstring m key)).
  destruct (free_probe k l h Ht Hfree) as (n0 & Hn0 & H0). destruct Ht as (Hk & Hlen & Hnd & Hall).
  assert (Hin : forall n e, at_slot k h l n = e -> e_key e <> 0 -> is_str m (e_key e)).
  { intros n e <- He. eapply Hall; [apply at_slot_lookup; lia|done]. }
  set (stop := fun e => (e_key e =? 0) || bool_decide (key_of e = cstring m key)).
  unfold lookup. rewrite El. cbn [mbind option_bind]. rewrite Em.
  with_loop ltac:(fun bd st => destruct (probe_ok k ltac:(lia) h (hash_range _) l Hlen stop bd n0)
    as (n & Hn & -> & Hs & Hb)); [|lia|unfold stop; by rewrite H0|].
  { intros i j e He. rewrite He. cbn [mbind option_bind]. unfold stop.
    destruct (Z.eqb_spec (e_key e) 0) as [|Hne]; [done|].
    destruct (strcmp_eq m (e_key e) key Hmem) as (d & -> & Hd); [|done|].
    { by apply (Hall _ e He). }
    cbn [mbind option_bind orb]. destruct (Z.eqb_spec d 0) as [Ed|Ed].
    - by rewrite bool_decide_eq_true_2 by by apply Hd.
    - by rewrite bool_decide_eq_false_2 by (intros E; by apply Ed, Hd). }
  pose proof (slot_range (2 ^ k) h n ltac:(lia)).
  exists (Z.to_nat (slot (2 ^ k) h n)), (at_slot k h l n). rewrite Z2Nat.id by lia.
  split; [done|]. split; [apply at_slot_lookup; lia|]. unfold stop in Hs.
  destruct (Z.eqb_spec (e_key (at_slot k h l n)) 0) as [E0|E0].
  - right. split; [done|].
    assert (Hbefore : forall n', 0 <= n' < n -> e_key (at_slot k h l n') <> 0 /\ key_of (at_slot k h l n') <> cstring m key).
    { intros n' Hn'. specialize (Hb n' Hn'). unfold stop in Hb. apply orb_false_iff in Hb as [H1 H2].
      apply Z.eqb_neq in H1. apply bool_decide_eq_false in H2. done. }
    split; [exists n; split; [lia|]; split; [done|]; intros; by apply Hbefore|].
    intros e' He' Ek. apply contents_in in He' as [Hne He']. apply list_elem_of_lookup in He' as [i Hi].
    destruct (Hall i e' Hi Hne) as (_ & n1 & Hn1 & Ei & Hb1). rewrite Ek in Ei, Hb1. fold h in Ei, Hb1.
    assert (Ea : at_slot k h l n1 = e').
    { unfold at_slot. rewrite <- Ei, Nat2Z.id. by rewrite Hi. }
    destruct (Z.lt_total n n1) as [L|[->|L]].
    + apply (Hb1 n); [lia|done].
    + congruence.
    + destruct (Hbefore n1) as [_ Hx]; [lia|]. congruence.
  - left. split; [done|]. simpl in Hs. by apply bool_decide_eq_true in Hs.
Qed.

(** Filling a free slot, at the end of its probe sequence. *)
Lemma table_insert k l (i : nat) e x :
  table_ok k l -> l !! i = Some e -> e_key e = 0 -> e_key x <> 0 -> is_str m (e_key x) ->
  reachable k l (hash_bytes (key_of x)) (Z.of_nat i) ->
  (forall e', e' ∈ contents l -> key_of e' <> key_of x) ->
  table_ok k (<[i := x]> l).
Proof.
  intros (Hk & Hlen & Hnd & Hall) Hi He Hx Hsx Hr Hnew.
  pose proof (lookup_lt_Some _ _ _ Hi) as Hlt.
  assert (Hmono : forall h j, reachable k l h j -> reachable k (<[i := x]> l) h j).
  { intros h j (n & Hn & -> & Hb). exists n. split; [done|]. split; [done|]. intros n' Hn'.
    specialize (Hb n' Hn'). unfold at_slot in *.
    destruct (decide (i = Z.to_nat (slot (2 ^ k) h n'))) as [->|Hne].
    - by rewrite list_lookup_insert_eq.
    - by rewrite list_lookup_insert_ne. }
  split; [done|]. split; [by rewrite length_insert|]. split.
  - rewrite (contents_insert l i e x Hi He Hx). simpl. apply list.NoDup_cons. split; [|done].
    intros Hin. apply list_elem_of_fmap in Hin as (e' & E & He'). by apply (Hnew e').
  - intros j e' Hj He'. destruct (decide (i = j)) as [<-|Hne].
    + rewrite list_lookup_insert_eq in Hj by done. injection Hj as <-. split; [done|]. by apply Hmono.
    + rewrite list_lookup_insert_ne in Hj by done. destruct (Hall j e' Hj He') as [Hs Hr'].
      split; [done|]. by apply Hmono.
Qed.

Lemma contents_empty n : contents (replicate n no_entry) = [].
Proof.
  unfold contents. induction n as [|n IH]; simpl; [done|].
  rewrite list.filter_cons. by rewrite decide_False by (simpl; lia).
Qed.

Lemma table_empty k : 3 <= k <= 60 -> table_ok k (replicate (Z.to_nat (2 ^ k)) no_entry).
Proof.
  intros Hk. split; [done|]. split; [rewrite length_replicate; lia|].
  rewrite contents_empty. split; [constructor|]. intros i e Hi He. apply lookup_replicate in Hi as [-> _]. done.
Qed.

Lemma contents_cons e l : contents (e :: l) = if decide (e_key e <> 0) then e :: contents l else contents l.
Proof. unfold contents. by rewrite list.filter_cons. Qed.

(** Moving the entries over. *)
Lemma rehash_all_ok k l old :
  table_ok k l -> Forall (fun e => e_key e <> 0 -> is_str m (e_key e)) old ->
  NoDup (key_of <$> (contents old ++ contents l)) ->
  Z.of_nat (length (contents old)) + Z.of_nat (length (contents l)) < 2 ^ k ->
  exists l', rehash_all m (2 ^ k - 1) l old = Some l' /\ table_ok k l' /\
    contents l' ≡ₚ contents old ++ contents l.
Proof.
  revert l. induction old as [|x old IH]; intros l Ht Hs Hnd Hc; simpl.
  { by exists l. }
  apply Forall_cons_1 in Hs as [Hx Hs]. rewrite contents_cons in *. unfold rehash.
  destruct (Z.eqb_spec (e_key x) 0) as [E|E]; cbn [negb mbind option_bind].
  { rewrite decide_False in * by lia. by apply IH. }
  rewrite decide_True in * by done. cbn [length fmap list_fmap app] in Hnd, Hc.
  assert (Hlen : Z.of_nat (length l) = 2 ^ k) by apply Ht.
  rewrite (keyhash_ok m (e_key x)) by by apply Hx. cbn [mbind option_bind].
  destruct (free_slot_ok k l (hash_bytes (cstring m (e_key x))) Ht (hash_range _) ltac:(lia))
    as (i & e & -> & Hi & He & Hr). cbn [mbind option_bind]. rewrite Nat2Z.id.
  apply list.NoDup_cons in Hnd as [Hnew Hnd].
  assert (Hci := contents_insert l i e x Hi He E).
  destruct (IH (<[i := x]> l)) as (l' & -> & Ht' & Hp).
  - apply (table_insert k l i e x); [done|done|done|done|by apply Hx|done|].
    intros e' He' Ek. apply Hnew. rewrite <- Ek. apply list_elem_of_fmap_2, elem_of_app. by right.
  - done.
  - rewrite Hci, <- Permutation_middle. simpl. by apply list.NoDup_cons.
  - rewrite Hci. cbn [length]. lia.
  - exists l'. split; [done|]. split; [done|]. rewrite Hp, Hci. symmetry. apply Permutation_middle.
Qed.

(** The new size is the least power of two from 8 on that is not below the request. *)
Definition table_size (nel : Z) : Z := Z.max 8 (2 ^ Z.log2_up nel).

Lemma table_size_least nel k : 3 <= k -> nel <= 2 ^ k -> k = 3 \/ 2 ^ (k - 1) < nel -> 2 ^ k = table_size nel.
Proof.
  intros Hk Hle [->|Hlt]; unfold table_size.
  - assert (Z.log2_up nel <= 3) by (rewrite <- (Z.log2_up_pow2 3) by lia; by apply Z.log2_up_le_mono).
    assert (2 ^ Z.log2_up nel <= 2 ^ 3) by (apply Z.pow_le_mono_r; lia). lia.
  - rewrite (Z.log2_up_unique nel k) by (rewrite <- ?Z.sub_1_r; lia). assert (2 ^ 3 <= 2 ^ k) by (apply Z.pow_le_mono_r; lia). lia.
Qed.

Lemma newsize_ok nel : nel <= 2 ^ 63 ->
  exists k, newsize_of nel = Some (2 ^ k) /\ 3 <= k <= 63 /\ nel <= 2 ^ k /\ 2 ^ k = table_size nel.
Proof.
  intros Hn. unfold newsize_of.
  destruct (while_rule (fun s => exists k, s = 2 ^ k /\ 3 <= k <= 63 /\ (k = 3 \/ 2 ^ (k - 1) < nel))
    (fun s => Z.to_nat (63 - Z.log2 s)) (fun s => Some (s <? nel)) (fun s => Some (s * 2)))
    with (fuel := 64%nat) (s := MINSIZE) as (s & -> & (k & -> & Hk & Hl) & Hc).
  - intros s (k & -> & Hk & _). destruct (Z.ltb_spec (2 ^ k) nel); [|done].
    assert (k < 63) by (destruct (Z.eq_dec k 63) as [->|]; lia).
    replace (2 ^ k * 2) with (2 ^ (k + 1)) by (rewrite Z.pow_add_r by lia; lia).
    split; [exists (k + 1); split; [done|split; [lia|right; by replace (k + 1 - 1) with k by lia]]|]. rewrite !Z.log2_pow2 by lia. lia.
  - exists 3. split; [done|]. split; [lia|by left].
  - vm_compute. lia.
  - injection Hc as Hc. apply Z.ltb_ge in Hc. exists k. split; [done|]. split; [done|]. split; [done|]. apply table_size_least; [lia|done|done].
Qed.

(** Overwriting a free slot with a free entry. *)
Lemma table_clear k l (i : nat) e x :
  table_ok k l -> l !! i = Some e -> e_key e = 0 -> e_key x = 0 ->
  table_ok k (<[i := x]> l) /\ contents (<[i := x]> l) = contents l.
Proof.
  intros (Hk & Hlen & Hnd & Hall) Hi He Hx. pose proof (lookup_lt_Some _ _ _ Hi) as Hlt.
  assert (Ec : contents (<[i := x]> l) = contents l).
  { rewrite <- (take_drop_middle l i e Hi) at 2. rewrite insert_take_drop by done. unfold contents.
    rewrite !list.filter_app, !list.filter_cons. by rewrite !decide_False by lia. }
  split; [|done]. split; [done|]. split; [by rewrite length_insert|]. split; [by rewrite Ec|].
  intros j e' Hj He'. destruct (decide (i = j)) as [<-|Hne].
  { rewrite list_lookup_insert_eq in Hj by done. injection Hj as <-. done. }
  rewrite list_lookup_insert_ne in Hj by done. destruct (Hall j e' Hj He') as [Hs (n & Hn & En & Hb)].
  split; [done|]. exists n. split; [done|]. split; [done|]. intros n' Hn'. specialize (Hb n' Hn').
  unfold at_slot in *. destruct (decide (i = Z.to_nat (slot (2 ^ k) (hash_bytes (key_of e')) n'))) as [Ei|Hni].
  - exfalso. apply Hb. rewrite <- Ei, Hi. done.
  - by rewrite list_lookup_insert_ne.
Qed.

(** The invariant of a [struct __tab], and what it stores. *)
Definition tab_ok (t : tab) : Prop :=
  exists k l, entries t = Some l /\ mask t = 2 ^ k - 1 /\ table_ok k l /\
    used t = Z.of_nat (length (contents l)) /\ used t <= mask t - mask t / 4.

Definition entries_of (t : tab) : list ENTRY :=
  match entries t with Some l => contents l | None => [] end.

Definition entry_at (t : tab) (ret : option Z) : option ENTRY :=
  l ← entries t; i ← ret; l !! Z.to_nat i.

Lemma load_limit k : 2 <= k -> (2 ^ k - 1) - (2 ^ k - 1) / 4 = 3 * 2 ^ (k - 2).
Proof.
  intros Hk. replace (2 ^ k) with (4 * 2 ^ (k - 2)) by
    (change 4 with (2 ^ 2); rewrite <- Z.pow_add_r by lia; f_equal; lia).
  replace ((4 * 2 ^ (k - 2) - 1) / 4) with (2 ^ (k - 2) - 1) by (apply (Z.div_unique _ _ _ 3); lia). lia.
Qed.

Context (calloc : Z -> Z -> bool).
(** [calloc] refuses sizes that do not fit in a [size_t]. *)
Hypothesis calloc_overflow : forall n size, calloc n size = true -> n * size < 2 ^ 64.

Lemma resize_ok k l t nel :
  table_ok k l -> entries t = Some l -> mask t = 2 ^ k - 1 ->
  Z.of_nat (length (contents l)) < nel <= 2 ^ 63 ->
  if calloc (table_size nel) 16 then
  exists k' l', resize m calloc nel t = Some (true, {| entries := Some l'; mask := 2 ^ k' - 1; used := used t |}) /\
    table_ok k' l' /\ contents l' ≡ₚ contents l /\ nel <= 2 ^ k'
  else resize m calloc nel t = Some (false, t).
Proof.
  intros Ht El Em Hnel. pose proof Ht as (Hk & Hlen & Hnd & Hall). unfold resize.
  change MAXSIZE with (2 ^ 63). rewrite (proj2 (Z.ltb_ge (2 ^ 63) nel)) by lia.
  destruct (newsize_ok nel ltac:(lia)) as (k' & -> & Hk' & Hle & <-). cbn [mbind option_bind]. change sizeof_ENTRY with 16.
  destruct (calloc (2 ^ k') 16) eqn:Ec; cbn [negb]; [|done]. apply calloc_overflow in Ec.
  assert (k' < 60) by (apply (Z.pow_lt_mono_r_iff 2); lia).
  rewrite El, Em, take_ge by lia.
  destruct (rehash_all_ok k' (replicate (Z.to_nat (2 ^ k')) no_entry) l) as (l' & -> & Ht' & Hp).
  - apply table_empty. lia.
  - apply Forall_lookup. intros i e Hi He. by apply (Hall i e).
  - by rewrite contents_empty, app_nil_r.
  - rewrite contents_empty. simpl. lia.
  - exists k', l'. split; [done|]. split; [done|]. rewrite contents_empty, app_nil_r in Hp. done.
Qed.

Lemma key_unique l e e' : NoDup (key_of <$> contents l) -> e ∈ contents l -> e' ∈ contents l ->
  key_of e = key_of e' -> e = e'.
Proof.
  intros Hnd He He' Ek. apply list_elem_of_lookup in He as [i Hi]. apply list_elem_of_lookup in He' as [j Hj].
  assert (i = j) as <-; [|congruence].
  apply (NoDup_lookup _ i j (key_of e) Hnd); rewrite list_lookup_fmap; [by rewrite Hi|by rewrite Hj, Ek].
Qed.

(** Growing the table, and looking up the entry just put in it. *)
Lemma grow_ok k l t item :
  table_ok k l -> entries t = Some l -> mask t = 2 ^ k - 1 -> used t = Z.of_nat (length (contents l)) ->
  item ∈ contents l -> is_str m (e_key item) ->
  if calloc (table_size (2 * used t)) 16 then
  exists t' (i : nat), resize m calloc (u64 (2 * used t)) t = Some (true, t') /\
    lookup m (e_key item) (hash_bytes (cstring m (e_key item))) t' = Some (Z.of_nat i) /\
    tab_ok t' /\ entry_at t' (Some (Z.of_nat i)) = Some item /\ entries_of t' ≡ₚ contents l
  else resize m calloc (u64 (2 * used t)) t = Some (false, t).
Proof.
  intros Ht El Em Eu Hin Hs. pose proof Ht as (Hk & Hlen & _). pose proof (contents_length l).
  assert (Hp60 : 2 ^ k <= 2 ^ 60) by (apply Z.pow_le_mono_r; lia).
  assert (Hpos : (0 < length (contents l))%nat) by (destruct (contents l); [by apply not_elem_of_nil in Hin|simpl; lia]).
  rewrite wrap_small by lia.
  pose proof (resize_ok k l t (2 * used t) Ht El Em ltac:(lia)) as Hres.
  destruct (calloc (table_size (2 * used t)) 16); [|done]. destruct Hres as (k' & l' & -> & Ht' & Hp & Hge).
  pose proof Ht' as (Hk' & Hlen' & Hnd' & _). assert (Hlim := load_limit k' ltac:(lia)).
  assert (H2k : 4 * 2 ^ (k' - 2) = 2 ^ k') by (change 4 with (2 ^ 2); rewrite <- Z.pow_add_r by lia; f_equal; lia).
  assert (Hl' : length (contents l') = length (contents l)) by by rewrite Hp.
  set (t' := {| entries := Some l'; mask := 2 ^ k' - 1; used := used t |}).
  destruct (lookup_ok k' l' t' (e_key item) Ht' eq_refl eq_refl ltac:(lia) Hs) as (i & e & E & Hi & Hcase).
  exists t', i. split; [done|]. split; [done|]. split.
  { exists k', l'. cbn [entries mask used t']. split; [done|]. split; [done|]. split; [done|]. split; lia. }
  unfold entry_at, entries_of. cbn [entries mbind option_bind t']. rewrite Nat2Z.id, Hi. split; [|done].
  assert (Hin' : item ∈ contents l') by by rewrite Hp.
  destruct Hcase as [[He Ek]|(_ & _ & Habs)]; [|by destruct (Habs item Hin')].
  f_equal. apply (key_unique l' e item Hnd'); [|done|done].
  apply contents_in. split; [done|]. by eapply list_elem_of_lookup_2.
Qed.

(** C34. [hsearch] is lookup and insertion in a map keyed by strings: an entry with
    an equal key is returned and the table left alone; otherwise [FIND] returns
    nothing, and [ENTER] adds the item to what is stored (whatever happens to the
    place of the other entries when the table grows) and returns it.  It does so
    whenever the table with the item is at most three quarters full, or [calloc] has
    room for the least power of two of twice as many entries as there are; in the one
    other case it reports failure and the entries stay.  Every probe sequence ends. *)
Theorem hsearch_finds_or_enters item action t :
  tab_ok t -> e_key item <> 0 -> is_str m (e_key item) ->
  exists r ret t', hsearch_r m calloc item action t = Some (r, ret, t') /\ tab_ok t' /\
  ((exists e, e ∈ entries_of t /\ key_of e = key_of item /\ r = true /\ t' = t /\ entry_at t ret = Some e) \/
   ((forall e, e ∈ entries_of t -> key_of e <> key_of item) /\
    match action with
    | FIND => r = false /\ ret = None /\ t' = t
    | ENTER =>
        if (4 * (used t + 1) <=? 3 * (mask t + 1)) || calloc (table_size (2 * (used t + 1))) 16
        then r = true /\ entry_at t' ret = Some item /\ entries_of t' ≡ₚ item :: entries_of t
        else r = false /\ ret = None /\ entries_of t' = entries_of t
    end)).
Proof.
  intros Htab Hitem Hs. destruct Htab as (k & l & El & Em & Ht & Eu & Hload).
  assert (Htab : tab_ok t) by by exists k, l.
  pose proof Ht as (Hk & Hlen & Hnd & Hall). assert (Hlim := load_limit k ltac:(lia)).
  assert (H2k : 4 * 2 ^ (k - 2) = 2 ^ k) by (change 4 with (2 ^ 2); rewrite <- Z.pow_add_r by lia; f_equal; lia).
  assert (Hfree : (length (contents l) < length l)%nat) by (rewrite Em in Hload; lia).
  assert (Hle : entries_of t = contents l) by (unfold entries_of; by rewrite El).
  unfold hsearch_r. rewrite keyhash_ok by done. cbn [mbind option_bind].
  destruct (lookup_ok k l t (e_key item) Ht El Em Hfree Hs) as (i & e & -> & Hi & Hcase).
  cbn [mbind option_bind]. rewrite El. cbn [mbind option_bind]. rewrite Nat2Z.id, Hi, Hle. cbn [mbind option_bind].
  destruct Hcase as [[He Ek]|(He & Hr & Hnew)].
  { rewrite (proj2 (Z.eqb_neq _ _) He). cbn [negb]. do 3 eexists. split; [done|]. split; [done|].
    left. exists e. split; [apply contents_in; split; [done|by eapply list_elem_of_lookup_2]|].
    split; [done|]. split; [done|]. split; [done|]. unfold entry_at. rewrite El. simpl. by rewrite Nat2Z.id. }
  rewrite He. cbn [Z.eqb negb]. destruct action; [do 3 eexists; split; [done|]; split; [done|]; by right|].
  assert (Ht1 := table_insert k l i e item Ht Hi He Hitem Hs Hr Hnew).
  assert (Hc1 := contents_insert l i e item Hi He Hitem).
  assert (Hl1 : length (contents (<[i := item]> l)) = S (length (contents l))) by by rewrite Hc1.
  assert (Hlt := lookup_lt_Some _ _ _ Hi). cbn [mask].
  assert (Hload' : (4 * (used t + 1) <=? 3 * (mask t + 1)) = negb (mask t - mask t / 4 <? used t + 1)).
  { rewrite Em, Hlim. destruct (Z.leb_spec (4 * (used t + 1)) (3 * (2 ^ k - 1 + 1))), (Z.ltb_spec (3 * 2 ^ (k - 2)) (used t + 1)); (done || lia). }
  rewrite Hload'. destruct (Z.ltb_spec (mask t - mask t / 4) (used t + 1)) as [Hfull|Hroom]; cbn [negb orb].
  - set (t1 := {| entries := Some (<[i := item]> l); mask := mask t; used := used t + 1 |}).
    change (used t + 1) with (used t1).
    pose proof (grow_ok k (<[i := item]> l) t1 item Ht1 eq_refl Em) as Hgrow.
    assert (Hu1 : used t1 = Z.of_nat (length (contents (<[i := item]> l)))) by (cbn [used t1]; lia).
    specialize (Hgrow Hu1 ltac:(rewrite Hc1; left) Hs).
    destruct (calloc (table_size (2 * used t1)) 16).
    + destruct Hgrow as (t' & i2 & -> & E2 & Ht' & Hat & Hp). cbn [mbind option_bind]. rewrite E2. cbn [mbind option_bind].
      do 3 eexists. split; [done|]. split; [done|].
      right. split; [done|]. split; [done|]. split; [done|]. by rewrite Hp.
    + rewrite Hgrow. cbn [mbind option_bind].
      destruct (table_clear k l i e {| e_key := 0; e_data := e_data item |} Ht Hi He eq_refl) as [Ht2 Hc2].
      rewrite list_insert_insert_eq. do 3 eexists. split; [done|]. cbn [mask used t1]. split.
      { exists k, (<[i := {| e_key := 0; e_data := e_data item |}]> l). cbn [entries mask used].
        split; [done|]. split; [done|]. split; [done|]. rewrite Hc2. split; lia. }
      right. split; [done|]. split; [done|]. split; [done|]. exact Hc2.
  - do 3 eexists. split; [done|]. split.
    { exists k, (<[i := item]> l). cbn [entries mask used]. split; [done|]. split; [done|]. split; [done|]. split; lia. }
    right. split; [done|]. split; [done|]. unfold entry_at, entries_of. cbn [entries mbind option_bind].
    split; [rewrite Nat2Z.id; by apply list_lookup_insert_eq|done].
Qed.

(** [hcreate] makes an empty table with at least as many slots as entries asked
    for, if there is memory for it, and fails otherwise; there is none for more than the
    address space has room for. *)
Theorem hcreate_empty calloc_tab nel :
  0 <= nel < 2 ^ 64 ->
  if calloc_tab && calloc (table_size (Z.min nel (2 ^ 63))) 16
  then exists t, hcreate_r m calloc_tab calloc nel = Some (true, Some t) /\ tab_ok t /\ entries_of t = [] /\ nel <= mask t + 1
  else hcreate_r m calloc_tab calloc nel = Some (false, None).
Proof.
  intros Hn. unfold hcreate_r. destruct calloc_tab; cbn [negb andb]; [|done]. unfold resize.
  change MAXSIZE with (2 ^ 63).
  replace (if 2 ^ 63 <? nel then 2 ^ 63 else nel) with (Z.min nel (2 ^ 63)) by (bcase; lia).
  destruct (newsize_ok (Z.min nel (2 ^ 63))) as (k & -> & Hk & Hle & <-); [lia|]. change sizeof_ENTRY with 16.
  cbn [mbind option_bind]. destruct (calloc (2 ^ k) 16) eqn:Ec; cbn [negb mbind option_bind]; [|done].
  apply calloc_overflow in Ec.
  assert (Hk60 : k < 60) by (apply (Z.pow_lt_mono_r_iff 2); lia).
  assert (H63 : 2 ^ k < 2 ^ 60) by (apply Z.pow_lt_mono_r; lia).
  eexists. split; [done|]. unfold entries_of. cbn [entries mask no_tab].
  split; [|split; [apply contents_empty|lia]].
  exists k, (replicate (Z.to_nat (2 ^ k)) no_entry). cbn [entries mask used].
  split; [done|]. split; [done|]. split; [apply table_empty; lia|]. rewrite contents_empty.
  split; [done|]. rewrite load_limit by lia. cbn [used no_tab]. lia.
Qed.
End table.

(** ** Witnesses *)

(** Strings "ab" and "cd", and the table an 8-slot [hcreate] gives. *)
Definition words : mem := write_bytes ∅ 100 [97; 98; 0; 99; 100; 0].
Definition small_calloc (n size : Z) : bool := n * size <? 2 ^ 20.

Lemma small_calloc_ok n size : small_calloc n size = true -> n * size < 2 ^ 64.
Proof. unfold small_calloc. rewrite Z.ltb_lt. lia. Qed.

Example hsearch_runs :
  (t ← (t ← hcreate_r words true small_calloc 5; t.2);
   '(_, _, t) ← hsearch_r words small_calloc {| e_key := 100; e_data := 7 |} ENTER t;
   '(r, i, t) ← hsearch_r words small_calloc {| e_key := 100; e_data := 8 |} FIND t;
   entry_at t i) = Some {| e_key := 100; e_data := 7 |}.
Proof. vm_compute. reflexivity. Qed.

Definition table0 : tab := {| entries := Some (replicate 8 no_entry); mask := 7; used := 0 |}.

Lemma table0_ok : tab_ok words table0.
Proof.
  exists 3, (replicate 8 no_entry). split; [done|]. split; [done|].
  split; [apply (table_empty words 3); lia|]. rewrite contents_empty. done.
Qed.

Lemma ab_is_str : is_str words 100.
Proof. exists 2. mem_check. Qed.

Lemma hsearch_finds_or_enters_witness :
  exists r ret t', hsearch_r words small_calloc {| e_key := 100; e_data := 7 |} ENTER table0 = Some (r, ret, t') /\
  tab_ok words t' /\
  ((exists e, e ∈ entries_of table0 /\ key_of words e = key_of words {| e_key := 100; e_data := 7 |} /\
      r = true /\ t' = table0 /\ entry_at table0 ret = Some e) \/
   ((forall e, e ∈ entries_of table0 -> key_of words e <> key_of words {| e_key := 100; e_data := 7 |}) /\
    (if (4 * (used table0 + 1) <=? 3 * (mask table0 + 1)) || small_calloc (table_size (2 * (used table0 + 1))) 16
     then r = true /\ entry_at t' ret = Some {| e_key := 100; e_data := 7 |} /\
       entries_of t' ≡ₚ {| e_key := 100; e_data := 7 |} :: entries_of table0
     else r = false /\ ret = None /\ entries_of t' = entries_of table0))).
Proof.
  apply (hsearch_finds_or_enters words ltac:(mem_check) small_calloc small_calloc_ok
    {| e_key := 100; e_data := 7 |} ENTER table0 table0_ok); [done|exact ab_is_str].
Defined.

Lemma hcreate_empty_witness :
  if true && small_calloc (table_size (Z.min 5 (2 ^ 63))) 16
  then exists t, hcreate_r words true small_calloc 5 = Some (true, Some t) /\ tab_ok words t /\ entries_of t = [] /\ 5 <= mask t + 1
  else hcreate_r words true small_calloc 5 = Some (false, None).
Proof. apply (hcreate_empty words small_calloc small_calloc_ok true 5). lia. Defined.
