(* ===== verification/Search.v ===== *)
(** * Linear and binary search, and queues
    ([stdlib/bsearch.c], [search/lsearch.c], [search/insque.c])

    The searches work on an array of [nel] elements of [width] bytes at [base] and
    call back a comparison, which gets addresses.  The queue operations relink
    nodes in a store of nodes shared by every list. *)
From S2P Require Import Prelude Mem StrCopy.

Section searching.
(** The comparison callback: the memory it reads, the key and an element. *)
Variable compar : mem -> Z -> Z -> Z.

Definition bsearch (m : mem) (key base nel width : Z) : option Z :=
  iter (S (Z.to_nat nel)) (fun '(base, nel) =>
    if 0 <? nel then
      let try := base + width * (nel / 2) in
      let sign := compar m key try in
      if sign =? 0 then Some (Leave try)
      else if nel =? 1 then Some (Leave 0)
      else if sign <? 0 then Some (Next (base, nel / 2))
      else Some (Next (try, nel - nel / 2))
    else Some (Leave 0)) (base, nel).

(** The scan both searches start with: the element found, or how the loop ends. *)
Definition scan (m : mem) (key base n width : Z) : option (exit Z Z) :=
  iter (S (Z.to_nat n)) (fun i =>
    if i <? n then
      if compar m key (base + width * i) =? 0 then Some (Leave (Ret (base + width * i)))
      else Some (Next (i + 1))
    else Some (Leave (Fell i))) 0.

Definition lfind (m : mem) (key base n width : Z) : option Z :=
  r ← scan m key base n width;
  match r with Ret p => Some p | Fell _ => Some 0 end.

(** [lsearch]: the result, the new [*nelp] and the memory. *)
Definition lsearch (m : mem) (key base n width : Z) : option (Z * Z * mem) :=
  r ← scan m key base n width;
  match r with
  | Ret p => Some (p, n, m)
  | Fell _ =>
      '(p, m) ← memcpy m (base + width * n) key width;
      Some (p, n + 1, m)
  end.

(** ** [bsearch] *)

(** The array is partitioned by the key: the comparisons with the elements go from
    positive to zero to negative. *)
Definition partitioned (m : mem) (key base nel width : Z) : Prop :=
  forall i j, 0 <= i < j -> j < nel ->
    Z.sgn (compar m key (base + width * j)) <= Z.sgn (compar m key (base + width * i)).

(** On a partitioned array [bsearch] ends with an element that compares equal
    exactly when there is one, and null otherwise; it makes no other
    comparison than with elements of the array. *)
Theorem bsearch_finds m key base nel width :
  0 <= nel -> partitioned m key base nel width ->
  exists r, bsearch m key base nel width = Some r /\
    ((exists i, 0 <= i < nel /\ r = base + width * i /\ compar m key r = 0) \/
     (r = 0 /\ forall i, 0 <= i < nel -> compar m key (base + width * i) <> 0)).
Proof.
  intros Hn Hp. unfold bsearch.
  apply (iter_rule
    (fun '(b, n) => exists lo, 0 <= lo /\ 0 <= n /\ lo + n <= nel /\ b = base + width * lo /\
       (forall i, 0 <= i < lo -> 0 < compar m key (base + width * i)) /\
       (forall i, lo + n <= i < nel -> compar m key (base + width * i) < 0))
    (fun '(b, n) => Z.to_nat n)); [|exists 0; repeat split; lia|lia].
  intros [b n] (lo & Hlo & Hn0 & Hhi & -> & Hl & Hr).
  destruct (Z.ltb_spec 0 n) as [Hpos|Hz].
  2: { right. split; [done|]. intros i Hi. destruct (Z.lt_ge_cases i lo); [specialize (Hl i)|specialize (Hr i)]; lia. }
  assert (Hh : 0 <= n / 2 < n) by divmod.
  replace (base + width * lo + width * (n / 2)) with (base + width * (lo + n / 2)) by lia.
  destruct (Z.eqb_spec (compar m key (base + width * (lo + n / 2))) 0) as [E|E].
  { left. exists (lo + n / 2). split; [lia|]. done. }
  destruct (Z.eqb_spec n 1) as [->|Hn1].
  { right. split; [done|]. intros i Hi. change (1 / 2) with 0 in E. rewrite Z.add_0_r in E.
    destruct (Z.lt_total i lo) as [|[->|]]; [specialize (Hl i); lia|done|specialize (Hr i); lia]. }
  assert (Hh2 : 1 <= n / 2) by divmod.
  destruct (Z.ltb_spec (compar m key (base + width * (lo + n / 2))) 0) as [L|L].
  - split; [|lia]. exists lo. repeat (split; [done || lia|]). intros i Hi.
    destruct (Z.eq_dec i (lo + n / 2)) as [->|]; [done|].
    specialize (Hp (lo + n / 2) i ltac:(lia) ltac:(lia)). lia.
  - split; [|lia]. exists (lo + n / 2). repeat (split; [done || lia|]). split; [|intros i Hi; apply Hr; lia].
    intros i Hi. specialize (Hp i (lo + n / 2) ltac:(lia) ltac:(lia)). lia.
Qed.

(** ** [lfind] and [lsearch] *)

Lemma scan_ok m key base n width : 0 <= n ->
  exists r, scan m key base n width = Some r /\
  match r with
  | Ret p => exists i, 0 <= i < n /\ p = base + width * i /\ compar m key p = 0 /\
               forall j, 0 <= j < i -> compar m key (base + width * j) <> 0
  | Fell _ => forall j, 0 <= j < n -> compar m key (base + width * j) <> 0
  end.
Proof.
  intros Hn. unfold scan.
  apply (iter_rule (fun i => 0 <= i <= n /\ forall j, 0 <= j < i -> compar m key (base + width * j) <> 0)
    (fun i => Z.to_nat (n - i))); [|split; lia|lia].
  intros i (Hi & Hb). destruct (Z.ltb_spec i n) as [L|L].
  - destruct (Z.eqb_spec (compar m key (base + width * i)) 0) as [E|E]; [exists i; split; [lia|done]|].
    split; [|lia]. split; [lia|]. intros j Hj. destruct (Z.eq_dec j i) as [->|]; [done|apply Hb; lia].
  - intros j Hj. apply Hb. lia.
Qed.

(** [lfind] and [lsearch] return the first element that compares equal.  When
    there is none, [lfind] returns null and [lsearch] copies the key behind the
    last element, counts it and returns its address; nothing else is written. *)
Theorem lsearch_finds_or_appends m key base n width :
  mem_ok m -> 0 <= n -> 0 <= width ->
  mapped m (base + width * n) width -> mapped m key width ->
  disjoint_ranges (base + width * n) width key width ->
  (exists i, 0 <= i < n /\ compar m key (base + width * i) = 0 /\
     (forall j, 0 <= j < i -> compar m key (base + width * j) <> 0) /\
     lfind m key base n width = Some (base + width * i) /\
     lsearch m key base n width = Some (base + width * i, n, m)) \/
  ((forall j, 0 <= j < n -> compar m key (base + width * j) <> 0) /\
     lfind m key base n width = Some 0 /\
     lsearch m key base n width =
       Some (base + width * n, n + 1, write_bytes m (base + width * n) (bytes_of m key width))).
Proof.
  intros Hok Hn Hw Hm1 Hm2 Hd. unfold lfind, lsearch.
  destruct (scan_ok m key base n width Hn) as ([i|p] & -> & H); cbn [mbind option_bind].
  - right. split; [done|]. split; [done|].
    rewrite memcpy_ok by done. done.
  - left. destruct H as (i & Hi & -> & E & Hb). by exists i.
Qed.
End searching.

(** ** Queues *)

(** [struct node], and the store: node addresses to nodes. *)
Record node := { next : Z; prev : Z }.
Abbreviation store := (gmap Z node).

Definition set_next (st : store) (p v : Z) : option store :=
  n ← st !! p; Some (<[p := {| next := v; prev := prev n |}]> st).
Definition set_prev (st : store) (p v : Z) : option store :=
  n ← st !! p; Some (<[p := {| next := next n; prev := v |}]> st).

Definition insque (st : store) (e p : Z) : option store :=
  if p =? 0 then
    st ← set_prev st e 0; set_next st e 0
  else
    np ← st !! p;
    st ← set_next st e (next np);
    st ← set_prev st e p;
    st ← set_next st p e;
    ne ← st !! e;
    if nz (next ne) then set_prev st (next ne) e else Some st.

Definition remque (st : store) (e : Z) : option store :=
  ne ← st !! e;
  st ← (if nz (next ne) then set_prev st (next ne) (prev ne) else Some st);
  ne ← st !! e;
  if nz (prev ne) then set_next st (prev ne) (next ne) else Some st.

(** [list_seg st p l q]: the nodes [l] are linked in order, the first one's
    [prev] is [p], the last one's [next] is [q]. *)
Fixpoint list_seg (st : store) (p : Z) (l : list Z) (q : Z) : Prop :=
  match l with
  | [] => True
  | a :: l' => st !! a = Some {| next := match l' with b :: _ => b | [] => q end; prev := p |} /\
               list_seg st a l' q
  end.

(** A whole list. *)
Definition is_list (st : store) (l : list Z) : Prop :=
  list_seg st 0 l 0 /\ NoDup l /\ 0 ∉ l.

Definition first_or (l : list Z) (q : Z) : Z := match l with b :: _ => b | [] => q end.
Definition last_or (p : Z) (l : list Z) : Z := default p (list.last l).

Lemma list_seg_app st p l1 l2 q :
  list_seg st p (l1 ++ l2) q <-> list_seg st p l1 (first_or l2 q) /\ list_seg st (last_or p l1) l2 q.
Proof.
  revert p. induction l1 as [|a l1 IH]; intros p; simpl; [tauto|].
  rewrite IH. assert (E : last_or a l1 = last_or p (a :: l1)).
  { unfold last_or. destruct l1; [done|]. rewrite list.last_cons_cons. destruct (list.last (z :: l1)) eqn:El; [done|].
    by apply list.last_None in El. }
  rewrite E. destruct l1; simpl; tauto.
Qed.

Lemma list_seg_ext st st' p l q : (forall a, a ∈ l -> st' !! a = st !! a) ->
  list_seg st p l q -> list_seg st' p l q.
Proof.
  revert p. induction l as [|a l IH]; intros p H; [done|]. intros [H1 H2]. split.
  - rewrite H; [done|left].
  - apply IH; [|done]. intros b Hb. apply H. by right.
Qed.

(** Changing the [next] of the last node, the [prev] of the first. *)
Lemma list_seg_last st st' p l a q n : NoDup (l ++ [a]) ->
  list_seg st p (l ++ [a]) q -> st' !! a = Some {| next := n; prev := last_or p l |} ->
  (forall b, b ∈ l -> st' !! b = st !! b) -> list_seg st' p (l ++ [a]) n.
Proof.
  intros Hnd Hs Ha Hl. rewrite !list_seg_app in *. destruct Hs as [Hs1 Hs2]. simpl in *.
  split; [by eapply list_seg_ext|done].
Qed.

Lemma list_seg_first st st' p b l q p' : 
  list_seg st p (b :: l) q -> b ∉ l -> st' !! b = Some {| next := first_or l q; prev := p' |} ->
  (forall c, c ∈ l -> st' !! c = st !! c) -> list_seg st' p' (b :: l) q.
Proof. intros [H1 H2] Hnd Hb Hl. split; [done|]. by eapply list_seg_ext. Qed.

Lemma set_next_eq st p n v : st !! p = Some n -> set_next st p v = Some (<[p := {| next := v; prev := prev n |}]> st).
Proof. intros H. unfold set_next. by rewrite H. Qed.
Lemma set_prev_eq st p n v : st !! p = Some n -> set_prev st p v = Some (<[p := {| next := next n; prev := v |}]> st).
Proof. intros H. unfold set_prev. by rewrite H. Qed.

Ltac store := repeat first
  [ rewrite lookup_insert_eq
  | rewrite lookup_insert_ne by (assumption || congruence) ].

(** Split memberships in concatenations; [apart] proves that two nodes differ. *)
Ltac split_mem := repeat match goal with
  | H : _ ∉ _ ++ _ |- _ => apply not_elem_of_app in H as [? ?]
  | H : _ ∉ _ :: _ |- _ => apply not_elem_of_cons in H as [? ?]
  | H : NoDup (_ :: _) |- _ => apply list.NoDup_cons in H as [? ?]
  end.
Ltac apart := solve [assumption | congruence | intros ->; contradiction | intros <-; contradiction].
Ltac frame := repeat (rewrite lookup_insert_ne by apart); try done.

Lemma NoDup_middle (l1 l2 : list Z) p : NoDup (l1 ++ p :: l2) <-> (p ∉ l1) /\ (p ∉ l2) /\ NoDup (l1 ++ l2).
Proof. rewrite <- Permutation_middle, list.NoDup_cons, not_elem_of_app. tauto. Qed.

Lemma insque_after st e ne l1 p l2 :
  st !! e = Some ne -> e <> 0 -> is_list st (l1 ++ p :: l2) -> e ∉ l1 ++ p :: l2 ->
  exists st', insque st e p = Some st' /\ is_list st' (l1 ++ p :: e :: l2) /\
    forall a, a ∉ l1 ++ p :: e :: l2 -> st' !! a = st !! a.
Proof.
  intros He He0 (Hs & Hnd & H0) Hnin.
  assert (Hnd' : NoDup (l1 ++ p :: e :: l2) /\ 0 ∉ l1 ++ p :: e :: l2).
  { rewrite NoDup_middle in *. split_mem. destruct Hnd as (? & ? & ?).
    split; [|rewrite not_elem_of_app, !not_elem_of_cons; done].
    rewrite not_elem_of_cons, NoDup_middle. split; [done|]. split; [split; [congruence|done]|done]. }
  apply list_seg_app in Hs as [Hs1 [Hp Hs2]]. fold (first_or l2 0) in Hp.
  apply NoDup_middle in Hnd as (Hp1 & Hp2 & Hnd). split_mem.
  unfold insque. rewrite (proj2 (Z.eqb_neq p 0)) by congruence. rewrite Hp. cbn [mbind option_bind next].
  rewrite (set_next_eq st e ne _ He). cbn [mbind option_bind].
  erewrite set_prev_eq by (by rewrite lookup_insert_eq). cbn [mbind option_bind next]. rewrite insert_insert_eq.
  erewrite set_next_eq by (rewrite lookup_insert_ne by congruence; exact Hp). cbn [mbind option_bind prev].
  rewrite lookup_insert_ne by congruence. rewrite lookup_insert_eq. cbn [mbind option_bind next].
  set (st1 := <[p := _]> (<[e := _]> st)).
  assert (Hs1' : list_seg st1 0 l1 p).
  { eapply list_seg_ext; [|exact Hs1]. intros a Ha. unfold st1. frame. }
  assert (Hpe : st1 !! p = Some {| next := e; prev := last_or 0 l1 |} /\ st1 !! e = Some {| next := first_or l2 0; prev := p |}).
  { unfold st1. rewrite lookup_insert_eq. frame. by rewrite lookup_insert_eq. }
  assert (Hout : forall a, a <> p -> a <> e -> st1 !! a = st !! a) by (intros; unfold st1; frame).
  clearbody st1. destruct Hpe as [Hpn Hen]. destruct l2 as [|b l2]; cbn [first_or] in *.
  - exists st1. split; [done|]. split; [split; [apply list_seg_app; simpl; by split|done]|].
    intros a Ha. split_mem. by apply Hout.
  - destruct Hs2 as [Hb Hs2]. apply NoDup_middle in Hnd as (Hb1 & Hb2 & _). split_mem.
    rewrite (proj2 (nz_true b)) by congruence.
    rewrite (set_prev_eq st1 b {| next := first_or l2 0; prev := p |}) by (by rewrite Hout by congruence).
    cbn [next]. eexists. split; [done|]. split; [split; [apply list_seg_app; split|done]|].
    + eapply list_seg_ext; [|exact Hs1']. intros a Ha. frame.
    + simpl. rewrite lookup_insert_eq. frame. split; [done|]. split; [done|]. split; [done|].
      eapply list_seg_ext; [|exact Hs2]. intros a Ha. frame. apply Hout; apart.
    + intros a Ha. split_mem. frame. by apply Hout.
Qed.

(** The first half of [remque]: the node behind gets the new predecessor. *)
Lemma unlink_next st e p l2 : list_seg st e l2 0 -> NoDup l2 -> 0 ∉ l2 ->
  exists st1, (if nz (first_or l2 0) then set_prev st (first_or l2 0) p else Some st) = Some st1 /\
    list_seg st1 p l2 0 /\ forall a, a ∉ l2 -> st1 !! a = st !! a.
Proof.
  intros Hs Hnd H0. destruct l2 as [|b l2]; cbn [first_or]; [by exists st|].
  destruct Hs as [Hb Hs]. split_mem. rewrite (proj2 (nz_true b)) by congruence.
  rewrite (set_prev_eq _ _ _ _ Hb). cbn [next]. eexists. split; [done|]. split.
  - split; [by rewrite lookup_insert_eq|]. eapply list_seg_ext; [|exact Hs]. intros a Ha. frame.
  - intros a Ha. split_mem. frame.
Qed.

Lemma remque_ok st e l1 l2 : is_list st (l1 ++ e :: l2) ->
  exists st', remque st e = Some st' /\ is_list st' (l1 ++ l2) /\
    forall a, a ∉ l1 ++ l2 -> st' !! a = st !! a.
Proof.
  intros (Hs & Hnd & H0).
  apply list_seg_app in Hs as [Hs1 [He Hs2]]. fold (first_or l2 0) in He. cbn [first_or] in Hs1.
  apply NoDup_middle in Hnd as (He1 & He2 & Hnd). split_mem.
  assert (H0' : 0 ∉ l1 ++ l2) by (by apply not_elem_of_app).
  unfold remque. rewrite He. cbn [mbind option_bind next prev].
  pose proof Hnd as Hnd2. apply list.NoDup_app in Hnd2 as (_ & Hdis & Hnd2).
  destruct (unlink_next st e (last_or 0 l1) l2 Hs2 Hnd2) as (st1 & -> & Hl2 & Hsame); [done|].
  cbn [mbind option_bind]. rewrite Hsame, He by done. cbn [mbind option_bind next prev].
  destruct (decide (l1 = [])) as [->|Hne].
  { exists st1. split; [done|]. split; [done|]. intros a Ha. by apply Hsame. }
  destruct (exists_last Hne) as (l0 & c & ->).
  assert (Hlast : last_or 0 (l0 ++ [c]) = c) by (unfold last_or; by rewrite list.last_snoc).
  rewrite Hlast in *. split_mem. rewrite (proj2 (nz_true c)) by congruence.
  pose proof Hs1 as Hs0. apply list_seg_app in Hs0 as [_ [Hc _]].
  assert (Hc2 : c ∉ l2) by (apply Hdis; set_solver).
  rewrite (set_next_eq st1 c {| next := e; prev := last_or 0 l0 |}) by (by rewrite Hsame).
  cbn [prev]. eexists. split; [done|].
  split; [split; [apply list_seg_app; split|split; [done|by rewrite !not_elem_of_app, not_elem_of_cons]]|].
  - apply list.NoDup_app in Hnd as (Hnd1 & _).
    pose proof Hnd1 as Hc0. apply NoDup_middle in Hc0 as (Hc0 & _).
    eapply (list_seg_last st); [done|exact Hs1|by rewrite lookup_insert_eq|]. intros b Hb. frame.
    apply Hsame, Hdis, elem_of_app. by left.
  - rewrite Hlast. eapply list_seg_ext; [|exact Hl2]. intros a Ha. frame.
  - intros a Ha. split_mem. frame. by apply Hsame.
Qed.

(** [insque] puts an element behind another one of a list, or makes it a list
    of its own when there is no predecessor; [remque] takes one out; the order of
    the others stays, and no node outside the list is written. *)
Theorem queue_operations st e :
  (is_Some (st !! e) -> e <> 0 ->
   (exists st', insque st e 0 = Some st' /\ is_list st' [e] /\ forall a, a <> e -> st' !! a = st !! a) /\
   (forall l1 p l2, is_list st (l1 ++ p :: l2) -> e ∉ l1 ++ p :: l2 ->
      exists st', insque st e p = Some st' /\ is_list st' (l1 ++ p :: e :: l2) /\
        forall a, a ∉ l1 ++ p :: e :: l2 -> st' !! a = st !! a)) /\
  (forall l1 l2, is_list st (l1 ++ e :: l2) ->
     exists st', remque st e = Some st' /\ is_list st' (l1 ++ l2) /\
       forall a, a ∉ l1 ++ l2 -> st' !! a = st !! a).
Proof.
  split; [intros [ne He] He0; split|].
  - exists (<[e := {| next := 0; prev := 0 |}]> st). unfold insque. cbn [Z.eqb].
    rewrite (set_prev_eq st e ne) by done. cbn [mbind option_bind].
    erewrite set_next_eq by (by rewrite lookup_insert_eq). cbn [prev]. rewrite insert_insert_eq.
    split; [done|]. split; [|intros; by store]. split; [by simpl; store|].
    split; [apply list.NoDup_singleton|apply not_elem_of_cons; split; [congruence|apply not_elem_of_nil]].
  - intros l1 p l2 Hl Hnin. by apply insque_after with ne.
  - intros l1 l2 Hl. by apply remque_ok.
Qed.

(** ** Witnesses *)

(** Three one-byte elements 10, 20, 30 at 200, the key 20 at 300, room behind. *)
Definition table : mem := write_bytes (write_bytes ∅ 200 [10; 20; 30; 0]) 300 [25].
Definition bytes_cmp (m : mem) (k e : Z) : Z := rd m k - rd m e.

Lemma bsearch_finds_witness :
  exists r, bsearch bytes_cmp table 300 200 3 1 = Some r /\
    ((exists i, 0 <= i < 3 /\ r = 200 + 1 * i /\ bytes_cmp table 300 r = 0) \/
     (r = 0 /\ forall i, 0 <= i < 3 -> bytes_cmp table 300 (200 + 1 * i) <> 0)).
Proof.
  apply (bsearch_finds bytes_cmp table 300 200 3 1); [lia|]. intros i j Hi Hj.
  assert (i = 0 /\ j = 1 \/ i = 0 /\ j = 2 \/ i = 1 /\ j = 2) as Hc by lia.
  destruct_or! Hc; destruct Hc as [-> ->]; vm_compute; discriminate.
Defined.

Lemma lsearch_finds_or_appends_witness :
  (exists i, 0 <= i < 3 /\ bytes_cmp table 300 (200 + 1 * i) = 0 /\
     (forall j, 0 <= j < i -> bytes_cmp table 300 (200 + 1 * j) <> 0) /\
     lfind bytes_cmp table 300 200 3 1 = Some (200 + 1 * i) /\
     lsearch bytes_cmp table 300 200 3 1 = Some (200 + 1 * i, 3, table)) \/
  ((forall j, 0 <= j < 3 -> bytes_cmp table 300 (200 + 1 * j) <> 0) /\
     lfind bytes_cmp table 300 200 3 1 = Some 0 /\
     lsearch bytes_cmp table 300 200 3 1 =
       Some (200 + 1 * 3, 3 + 1, write_bytes table (200 + 1 * 3) (bytes_of table 300 1))).
Proof. apply (lsearch_finds_or_appends bytes_cmp table 300 200 3 1); mem_check. Defined.

(** The list 1, 2 and a node 3 on its own. *)
Definition nodes : store :=
  <[1 := {| next := 2; prev := 0 |}]> (<[2 := {| next := 0; prev := 1 |}]> {[3 := {| next := 9; prev := 9 |}]}).

Lemma queue_operations_witness :
  (exists st', insque nodes 3 1 = Some st' /\ is_list st' [1; 3; 2] /\
     forall a, a ∉ [1; 3; 2] -> st' !! a = nodes !! a) /\
  (exists st', remque nodes 1 = Some st' /\ is_list st' [2] /\ forall a, a ∉ [2] -> st' !! a = nodes !! a).
Proof.
  assert (Hl : is_list nodes [1; 2]).
  { split; [split; [reflexivity|split; [reflexivity|exact I]]|].
    split; [repeat constructor; rewrite ?list_elem_of_singleton; intros H; inversion H|].
    rewrite !not_elem_of_cons. split; [lia|split; [lia|apply not_elem_of_nil]]. }
  split.
  - apply (proj2 (proj1 (queue_operations nodes 3) ltac:(eexists; reflexivity) ltac:(lia)) [] 1 [2] Hl).
    simpl. rewrite !not_elem_of_cons. split; [lia|split; [lia|apply not_elem_of_nil]].
  - apply (proj2 (queue_operations nodes 1) [] [2] Hl).
Defined.
