(* ===== verification/Leonardo.v ===== *)
(** * Leonardo heaps

    The data structure of smoothsort, on arrays seen as functions from indices to
    values.  A tree of order [k] has [L k] elements: a left subtree of order
    [k - 1], a right one of order [k - 2], and the root behind them.  The
    functions here say what one sifting does to an array; the code is compared
    with them in [Sort]. *)
From S2P Require Import Prelude Cmp.

(** Leonardo numbers. *)
Fixpoint L (k : nat) : Z :=
  match k with O => 1 | S k1 => match k1 with O => 1 | S k2 => L k1 + L k2 + 1 end end.

Lemma L_step k : L (S (S k)) = L (S k) + L k + 1.
Proof. done. Qed.

Lemma L_pos k : 1 <= L k.
Proof.
  enough (H : 1 <= L k /\ 1 <= L (S k)) by apply H. induction k as [|k [IH1 IH2]]; [done|].
  split; [done|]. rewrite L_step. lia.
Qed.

Lemma L_step_le k : L k <= L (S k).
Proof. destruct k as [|k]; [done|]. rewrite L_step. pose proof (L_pos k). lia. Qed.

Lemma L_mono j k : (j <= k)%nat -> L j <= L k.
Proof. induction 1 as [|k H IH]; [lia|]. pose proof (L_step_le k). lia. Qed.

Lemma L_strict j k : (0 < j < k)%nat -> L j < L k.
Proof.
  intros [Hj Hk]. pose proof (L_mono (S j) k ltac:(lia)). destruct j as [|j]; [lia|].
  rewrite L_step in H. pose proof (L_pos j). lia.
Qed.

#[global] Arguments L : simpl never.

Section heaps.
Context {V : Type} (cmp : V -> V -> Z) `{!TotalCmp cmp}.
Implicit Types (a b : Z -> V) (x y : V) (r : Z).
#[local] Abbreviation le := (cmp_le cmp).

Definition upd a (i : Z) (v : V) : Z -> V := fun j => if j =? i then v else a j.

Lemma upd_eq a i v : upd a i v i = v.
Proof. unfold upd. by rewrite Z.eqb_refl. Qed.
Lemma upd_ne a i v j : j <> i -> upd a i v j = a j.
Proof. intros. unfold upd. by rewrite (proj2 (Z.eqb_neq j i)). Qed.

(** The tree of order [k] rooted at [r] is heap-ordered. *)
Fixpoint heap (k : nat) : Z -> (Z -> V) -> Prop :=
  match k with
  | S k1 =>
      match k1 with
      | O => fun _ _ => True
      | S k2 => fun r a =>
          le (a (r - 1)) (a r) /\ le (a (r - 1 - L k2)) (a r) /\
          heap k1 (r - 1 - L k2) a /\ heap k2 (r - 1) a
      end
  | O => fun _ _ => True
  end.

(** Its two subtrees are. *)
Definition subs (k : nat) r a : Prop :=
  match k with
  | S (S k2 as k1) => heap k1 (r - 1 - L k2) a /\ heap k2 (r - 1) a
  | _ => True
  end.

(** Every child of the root satisfies [P]. *)
Definition children (k : nat) r a (P : V -> Prop) : Prop :=
  match k with S (S k2) => P (a (r - 1)) /\ P (a (r - 1 - L k2)) | _ => True end.

Arguments heap : simpl never.
Arguments subs : simpl never.
Arguments children : simpl never.

Lemma heap_step k r a : heap (S (S k)) r a <->
  le (a (r - 1)) (a r) /\ le (a (r - 1 - L k)) (a r) /\ heap (S k) (r - 1 - L k) a /\ heap k (r - 1) a.
Proof. done. Qed.

Lemma subs_step k r a : subs (S (S k)) r a <-> heap (S k) (r - 1 - L k) a /\ heap k (r - 1) a.
Proof. done. Qed.

Lemma children_step k r a P : children (S (S k)) r a P <-> P (a (r - 1)) /\ P (a (r - 1 - L k)).
Proof. done. Qed.

Lemma heap_split k r a : heap k r a <-> subs k r a /\ children k r a (fun v => le v (a r)).
Proof. destruct k as [|[|k]]; [done|done|]. rewrite heap_step, subs_step, children_step. tauto. Qed.

(** Induction over orders, two at a time. *)
Lemma order_ind (P : nat -> Prop) : P 0%nat -> P 1%nat -> (forall k, P k -> P (S k) -> P (S (S k))) -> forall k, P k.
Proof. intros H0 H1 HS k. enough (P k /\ P (S k)) by tauto. induction k as [|k [IH1 IH2]]; auto. Qed.

Lemma heap_ext k r a b : (forall i, r - L k < i <= r -> a i = b i) -> heap k r a -> heap k r b.
Proof.
  revert r. induction k as [| |k IH1 IH2] using order_ind; intros r Hab; [done|done|].
  rewrite !heap_step. rewrite L_step in Hab. pose proof (L_pos k). pose proof (L_pos (S k)).
  rewrite <- (Hab r), <- (Hab (r - 1)), <- (Hab (r - 1 - L k)) by lia.
  intros (H1 & H2 & H3 & H4). split; [done|]. split; [done|].
  split; [apply IH2; [|done]|apply IH1; [|done]]; intros i Hi; apply Hab; lia.
Qed.

Lemma subs_ext k r a b : (forall i, r - L k < i < r -> a i = b i) -> subs k r a -> subs k r b.
Proof.
  intros Hab. destruct k as [|[|k]]; [done|done|]. rewrite !subs_step. rewrite L_step in Hab.
  pose proof (L_pos k). pose proof (L_pos (S k)).
  intros [H1 H2]. split; (eapply heap_ext; [|done]); intros i Hi; apply Hab; lia.
Qed.

(** The root is the greatest element. *)
Lemma heap_max k r a : heap k r a -> forall i, r - L k < i <= r -> le (a i) (a r).
Proof.
  revert r. induction k as [| |k IH1 IH2] using order_ind; intros r.
  1, 2: intros _ i Hi; assert (i = r) as -> by (unfold L in Hi; lia); reflexivity.
  rewrite heap_step, L_step. intros (H1 & H2 & H3 & H4) i Hi.
  destruct (Z.eq_dec i r) as [->|Hne]; [reflexivity|].
  destruct (Z.le_gt_cases i (r - 1 - L k)).
  - etransitivity; [apply (IH2 _ H3)|done]. lia.
  - etransitivity; [apply (IH1 _ H4)|done]. lia.
Qed.

(** ** Sifting

    The positions below the root that the element [x] passes on its way down, and
    the array after each of their elements has moved one position up. *)
Fixpoint sift_path (k : nat) : Z -> V -> (Z -> V) -> list Z :=
  match k with
  | S k1 =>
      match k1 with
      | O => fun _ _ _ => []
      | S k2 => fun r x a =>
          let rt := r - 1 in
          let lf := r - 1 - L k2 in
          if (0 <=? cmp x (a lf)) && (0 <=? cmp x (a rt)) then []
          else if 0 <=? cmp (a lf) (a rt) then lf :: sift_path k1 lf x a
          else rt :: sift_path k2 rt x a
      end
  | O => fun _ _ _ => []
  end.

Fixpoint fill a (r : Z) (path : list Z) (x : V) : Z -> V :=
  match path with
  | [] => upd a r x
  | q :: path' => fill (upd a r (a q)) q path' x
  end.

Arguments sift_path : simpl never.

Lemma sift_path_step k r x a : sift_path (S (S k)) r x a =
  if (0 <=? cmp x (a (r - 1 - L k))) && (0 <=? cmp x (a (r - 1))) then []
  else if 0 <=? cmp (a (r - 1 - L k)) (a (r - 1)) then (r - 1 - L k) :: sift_path (S k) (r - 1 - L k) x a
  else (r - 1) :: sift_path k (r - 1) x a.
Proof. done. Qed.

Lemma sift_path_ext k r x a b : (forall i, r - L k < i < r -> a i = b i) ->
  sift_path k r x a = sift_path k r x b.
Proof.
  revert r. induction k as [| |k IH1 IH2] using order_ind; intros r Hab; [done|done|].
  rewrite L_step in Hab. pose proof (L_pos k). pose proof (L_pos (S k)).
  rewrite !sift_path_step.
  rewrite <- (Hab (r - 1)), <- (Hab (r - 1 - L k)) by lia.
  rewrite (IH1 (r - 1)) by (intros; apply Hab; lia). rewrite (IH2 (r - 1 - L k)) by (intros; apply Hab; lia).
  done.
Qed.

Lemma le_iff x y : (0 <=? cmp x y) = true <-> le y x.
Proof. rewrite Z.leb_le. unfold cmp_le. pose proof (cmp_sgn x y). lia. Qed.

Lemma le_not x y : (0 <=? cmp x y) = false <-> cmp x y < 0.
Proof. apply Z.leb_gt. Qed.

(** What sifting does, as a statement. *)
Definition sift_spec (k : nat) (r : Z) x a : Prop :=
  let a' := fill a r (sift_path k r x a) x in
  heap k r a' /\ (forall i, ~ (r - L k < i <= r) -> a' i = a i) /\
  le x (a' r) /\ children k r a (fun v => le v (a' r)) /\
  (forall y, le x y -> children k r a (fun v => le v y) -> le (a' r) y).

(** The child [q], of order [kq], goes up in place of the root; the [other] child
    stays.  The two directions share this. *)
Lemma sift_child k r x a q kq other ko :
  let lf := r - 1 - L k in let rt := r - 1 in
  (q = lf /\ kq = S k /\ other = rt /\ ko = k \/ q = rt /\ kq = k /\ other = lf /\ ko = S k) ->
  (forall a, subs kq q a -> sift_spec kq q x a) ->
  heap kq q a -> heap ko other a -> le (a other) (a q) -> le x (a q) ->
  let a' := fill (upd a r (a q)) q (sift_path kq q x a) x in
  heap kq q a' /\ heap ko other a' /\ a' r = a q /\ a' other = a other /\ le (a' q) (a q) /\
  (forall i, ~ (r - (L (S k) + L k + 1) < i <= r) -> a' i = a i).
Proof.
  intros lf rt Hq IH Hhq Hho Hoq Hxq a'. pose proof (L_pos k). pose proof (L_pos (S k)). subst lf rt.
  assert (Hup : forall i, q - L kq < i <= q -> upd a r (a q) i = a i).
  { intros i Hi. apply upd_ne. destruct Hq as [(-> & -> & _)|(-> & -> & _)]; lia. }
  assert (Hsq : subs kq q (upd a r (a q))).
  { apply heap_split in Hhq as [Hhq _]. eapply subs_ext; [|exact Hhq]. intros i Hi. symmetry. apply Hup. lia. }
  assert (Ep : sift_path kq q x (upd a r (a q)) = sift_path kq q x a)
    by (apply sift_path_ext; intros; apply Hup; lia).
  pose proof (IH _ Hsq) as IHq. unfold sift_spec in IHq. rewrite Ep in IHq. fold a' in IHq. clear IH.
  destruct IHq as (H1 & H2 & H3 & H4 & H5).
  split; [done|]. split; [|split; [|split; [|split]]].
  - eapply heap_ext; [|exact Hho]. intros i Hi. rewrite H2, upd_ne; [done|..];
      destruct Hq as [(-> & -> & -> & ->)|(-> & -> & -> & ->)]; lia.
  - rewrite H2, upd_eq; [done|]. destruct Hq as [(-> & -> & _)|(-> & -> & _)]; lia.
  - rewrite H2, upd_ne; [done|..]; destruct Hq as [(-> & -> & -> & ->)|(-> & -> & -> & ->)]; lia.
  - apply H5; [done|]. apply heap_split in Hhq as [_ Hhq]. revert Hhq. unfold children.
    destruct kq as [|[|kq]]; [done..|]. pose proof (L_pos kq). pose proof (L_pos (S kq)).
    rewrite L_step in Hup. rewrite !(Hup _) by lia. done.
  - intros i Hi. rewrite H2, upd_ne; [done|..]; destruct Hq as [(-> & -> & _)|(-> & -> & _)]; lia.
Qed.

(** What sifting does to one tree: the heap is restored, the root is the greatest
    of the element and the children, nothing else changes. *)
Lemma sift_fill k r x a : subs k r a -> sift_spec k r x a.
Proof.
  revert r a. induction k as [| |k IH1 IH2] using order_ind; intros r a Hs; unfold sift_spec; cbn zeta.
  1, 2: unfold sift_path, fill, heap, children; rewrite upd_eq; repeat split; try done;
    intros i Hi; apply upd_ne; unfold L in Hi; lia.
  rewrite subs_step in Hs. destruct Hs as [Hl Hr]. rewrite !children_step, L_step, sift_path_step.
  pose proof (L_pos k). pose proof (L_pos (S k)).
  set (lf := r - 1 - L k) in *. set (rt := r - 1) in *.
  destruct ((0 <=? cmp x (a lf)) && (0 <=? cmp x (a rt))) eqn:E1.
  { apply andb_true_iff in E1 as [E1 E2]. apply le_iff in E1, E2. cbn [fill]. rewrite heap_step.
    fold rt lf. rewrite upd_eq, !upd_ne by lia. repeat split; try done.
    - eapply heap_ext; [|exact Hl]. intros i Hi. rewrite upd_ne; [done|lia].
    - eapply heap_ext; [|exact Hr]. intros i Hi. rewrite upd_ne; [done|lia].
    - intros i Hi. apply upd_ne. lia. }
  assert (Hx : cmp x (a lf) < 0 \/ cmp x (a rt) < 0).
  { apply andb_false_iff in E1 as [E1|E1]; apply le_not in E1; auto. }
  assert (Hall : forall q, (q = lf \/ q = rt) -> le (a lf) (a q) -> le (a rt) (a q) -> le x (a q)).
  { intros q Hq H1 H2. destruct Hx as [Hx|Hx]; [transitivity (a lf)|transitivity (a rt)]; try done; unfold cmp_le; lia. }
  destruct (0 <=? cmp (a lf) (a rt)) eqn:E2; cbn [fill].
  - apply le_iff in E2. destruct (sift_child k r x a lf (S k) rt k) as (H1 & H2 & H3 & H4 & H5 & H6);
      [by left|intros; by apply IH2|done|done|done|apply Hall; [by left|reflexivity|done]|].
    rewrite heap_step. fold rt lf. rewrite H3, H4. repeat split; try done.
    + apply Hall; [by left|reflexivity|done].
    + intros y _ [_ Hy]. done.
  - apply le_not in E2. assert (E3 : le (a lf) (a rt)) by (unfold cmp_le; lia).
    destruct (sift_child k r x a rt k lf (S k)) as (H1 & H2 & H3 & H4 & H5 & H6);
      [by right|intros; by apply IH1|done|done|done|apply Hall; [by right|done|reflexivity]|].
    rewrite heap_step. fold rt lf. rewrite H3, H4. repeat split; try done.
    + apply Hall; [by right|done|reflexivity].
    + intros y _ [Hy _]. done.
Qed.

(** ** Moving elements along a path permutes the array *)

Lemma fill_ext a b r path x : (forall i, i <> r -> a i = b i) -> NoDup (r :: path) ->
  forall i, fill a r path x i = fill b r path x i.
Proof.
  revert a b r. induction path as [|q path IH]; intros a b r Hab Hnd i; cbn [fill].
  - destruct (Z.eq_dec i r) as [->|]; [by rewrite !upd_eq|by rewrite !upd_ne, Hab].
  - apply list.NoDup_cons in Hnd as [Hr Hnd]. apply not_elem_of_cons in Hr as [Hrq _].
    apply IH; [|done]. intros j Hj. destruct (Z.eq_dec j r) as [->|].
    + rewrite !upd_eq. by apply Hab.
    + rewrite !upd_ne by done. by apply Hab.
Qed.

Lemma fill_out a r path x i : i ∉ r :: path -> fill a r path x i = a i.
Proof.
  revert a r. induction path as [|q path IH]; intros a r Hi; cbn [fill];
    apply not_elem_of_cons in Hi as [Hir Hi]; [by apply upd_ne|]. rewrite IH by done. by apply upd_ne.
Qed.

Lemma fill_last a r path x q : q = default r (list.last path) -> NoDup (r :: path) -> fill a r path x q = x.
Proof.
  revert a r. induction path as [|p path IH]; intros a r -> Hnd; cbn [fill]; [apply upd_eq|].
  apply list.NoDup_cons in Hnd as [_ Hnd]. apply IH; [|done].
  destruct path; [done|]. rewrite list.last_cons_cons. destruct (list.last (z :: path)) eqn:E; [done|].
  by apply list.last_None in E.
Qed.

(** A property of all the elements is kept. *)
Lemma fill_all (P : V -> Prop) a r path x n : (forall i, 0 <= i < n -> P (a i)) -> P x ->
  Forall (fun i => 0 <= i < n) path -> forall i, 0 <= i < n -> P (fill a r path x i).
Proof.
  revert a r. induction path as [|q path IH]; intros a r Ha Hx Hp i Hi; cbn [fill].
  - unfold upd. destruct (i =? r); auto.
  - apply Forall_cons_1 in Hp as [Hq Hp]. apply IH; try done. intros j Hj. unfold upd. destruct (j =? r); auto.
Qed.

Definition elems a (n : Z) : list V := a <$> seqZ 0 n.

Lemma elems_ext a b n : (forall i, 0 <= i < n -> a i = b i) -> elems a n = elems b n.
Proof. intros H. apply list_fmap_ext. intros i x Hx. apply H. apply list_elem_of_lookup_2, elem_of_seqZ in Hx. lia. Qed.

Ltac elems_eq := lazymatch goal with |- elems ?x ?n ≡ₚ elems ?y ?n => rewrite (elems_ext x y n); [done|] end.

Lemma elems_reindex a f n : (forall i, 0 <= i < n -> 0 <= f i < n) ->
  (forall i j, 0 <= i < n -> 0 <= j < n -> f i = f j -> i = j) -> elems (fun i => a (f i)) n ≡ₚ elems a n.
Proof.
  intros Hr Hinj. unfold elems.
  assert (E : (fun i => a (f i)) <$> seqZ 0 n = a <$> (f <$> seqZ 0 n)) by by rewrite <- list_fmap_compose.
  rewrite E. apply fmap_Permutation. apply submseteq_length_Permutation; [|by rewrite length_fmap].
  apply NoDup_submseteq.
  - apply NoDup_fmap_2_strong; [|apply NoDup_seqZ]. intros i j Hi Hj.
    apply elem_of_seqZ in Hi, Hj. apply Hinj; lia.
  - intros x Hx. apply list_elem_of_fmap in Hx as (i & -> & Hi). apply elem_of_seqZ in Hi.
    apply elem_of_seqZ. specialize (Hr i). lia.
Qed.

Definition swap a (i j : Z) : Z -> V := upd (upd a i (a j)) j (a i).

Lemma elems_swap a n i j : 0 <= i < n -> 0 <= j < n -> elems (swap a i j) n ≡ₚ elems a n.
Proof.
  intros Hi Hj. rewrite <- (elems_reindex a (fun k => if k =? j then i else if k =? i then j else k)).
  - elems_eq. intros k Hk. unfold swap, upd. by repeat case_match.
  - intros k Hk. repeat case_match; lia.
  - intros k1 k2 H1 H2. repeat case_match; lia.
Qed.

Lemma fill_perm a r path n : NoDup (r :: path) -> Forall (fun i => 0 <= i < n) (r :: path) ->
  elems (fill a r path (a r)) n ≡ₚ elems a n.
Proof.
  revert a r. induction path as [|q path IH]; intros a r Hnd Hin; cbn [fill].
  { elems_eq. intros i Hi. unfold upd. by destruct (Z.eqb_spec i r) as [->|]. }
  apply list.NoDup_cons in Hnd as [Hr Hnd]. apply not_elem_of_cons in Hr as [Hrq _].
  apply Forall_cons_1 in Hin as [Hrn Hin]. pose proof Hin as Hqn. apply Forall_cons_1 in Hqn as [Hqn _].
  rewrite <- (elems_swap a n r q), <- (IH (swap a r q) q) by done.
  elems_eq. intros i _.
  unfold swap at 2. rewrite upd_eq. apply fill_ext; [|done].
  intros j Hj. unfold swap. by rewrite (upd_ne _ q).
Qed.

(** Paths go strictly left, inside the tree. *)
Lemma sift_path_range k r x a : NoDup (r :: sift_path k r x a) /\
  Forall (fun q => r - L k < q < r) (sift_path k r x a).
Proof.
  assert (Hdec : forall (r' : Z) l, (NoDup (r' :: l) /\ forall q, q ∈ l -> r' - L k < q < r') ->
    NoDup (r' :: l) /\ Forall (fun q => r' - L k < q < r') l) by (intros r' l []; split; [done|by apply list.Forall_forall]).
  apply Hdec. clear Hdec.
  revert r. induction k as [| |k IH1 IH2] using order_ind; intros r;
    [change (sift_path _ r x a) with (@nil Z); split; [apply list.NoDup_singleton|set_solver]..|].
  rewrite sift_path_step, L_step. pose proof (L_pos k). pose proof (L_pos (S k)).
  assert (Hcons : forall q l d, NoDup (q :: l) -> (forall p, p ∈ l -> q - d < p < q) -> r - (L (S k) + L k + 1) < q < r ->
    r - (L (S k) + L k + 1) <= q - d ->
    NoDup (r :: q :: l) /\ (forall p, p ∈ q :: l -> r - (L (S k) + L k + 1) < p < r)).
  { intros q l d Hnd Hl Hq Hd. assert (Hall : forall p, p ∈ q :: l -> r - (L (S k) + L k + 1) < p < r).
    { intros p Hp. apply elem_of_cons in Hp as [->|Hp]; [done|]. specialize (Hl p Hp). lia. }
    split; [|done]. apply list.NoDup_cons. split; [|done]. intros Hr. specialize (Hall r Hr). lia. }
  destruct (_ && _); [split; [apply list.NoDup_singleton|set_solver]|].
  destruct (0 <=? _).
  - destruct (IH2 (r - 1 - L k)) as [Hnd Hl]. apply (Hcons _ _ (L (S k)) Hnd Hl); lia.
  - destruct (IH1 (r - 1)) as [Hnd Hl]. apply (Hcons _ _ (L k) Hnd Hl); lia.
Qed.

(** ** Trinkling

    A forest is a list of tree orders from right to left; each tree's root is right
    before the next tree's elements. *)
Fixpoint extent (ts : list nat) : Z := match ts with [] => 0 | k :: ts' => L k + extent ts' end.

Lemma extent_nonneg ts : 0 <= extent ts.
Proof. induction ts as [|k ts IH]; simpl; [lia|]. pose proof (L_pos k). lia. Qed.

(** Heaps, their roots increasing from left to right; the last root is at [s]. *)
Fixpoint forest (ts : list nat) (s : Z) a : Prop :=
  match ts with
  | [] => True
  | k :: ts' => heap k s a /\ forest ts' (s - L k) a /\
                match ts' with [] => True | _ :: _ => le (a (s - L k)) (a s) end
  end.

Lemma forest_ext ts s a b : (forall i, s - extent ts < i <= s -> a i = b i) -> forest ts s a -> forest ts s b.
Proof.
  revert s. induction ts as [|k ts IH]; intros s Hab; [done|]. simpl in *.
  pose proof (L_pos k). pose proof (extent_nonneg ts). intros (H1 & H2 & H3).
  split; [eapply heap_ext; [|exact H1]; intros; apply Hab; lia|].
  split; [apply IH; [|done]; intros; apply Hab; lia|].
  destruct ts as [|k' ts]; [done|]. simpl in *. pose proof (L_pos k'). pose proof (extent_nonneg ts).
  rewrite <- !Hab by lia. done.
Qed.

(** The roots the element [x] passes on its way left, and the tree it stops at
    (order, root, and whether that tree is known to be a heap). *)
Fixpoint tr_path (ts : list nat) (trusty : bool) (k : nat) (r : Z) (x : V) a : list Z * nat * Z * bool :=
  match ts with
  | [] => ([], k, r, trusty)
  | k' :: ts' =>
      let s := r - L k in
      if cmp (a s) x <=? 0 then ([], k, r, trusty)
      else if negb trusty && (1 <? Z.of_nat k) &&
              ((0 <=? cmp (a (r - 1)) (a s)) || (0 <=? cmp (a (r - 1 - L (k - 2))) (a s)))
      then ([], k, r, trusty)
      else let '(path, kf, rf, tf) := tr_path ts' false k' s x a in (s :: path, kf, rf, tf)
  end.

(** The array [trinkle] leaves when [x] is the element at [r]. *)
Definition trinkled (ts : list nat) (trusty : bool) (k : nat) (r : Z) (x : V) a : Z -> V :=
  let '(path, kf, rf, tf) := tr_path ts trusty k r x a in
  if tf then upd a r x
  else let a1 := fill a r path x in fill a1 rf (sift_path kf rf x a1) x.

Lemma tr_path_ext ts trusty k r x a b : (forall i, i < r -> a i = b i) ->
  tr_path ts trusty k r x a = tr_path ts trusty k r x b.
Proof.
  revert trusty k r. induction ts as [|k' ts IH]; intros trusty k r Hab; [done|]. simpl.
  pose proof (L_pos k). pose proof (L_pos (k - 2)). rewrite <- !Hab by lia.
  rewrite (IH false k' (r - L k)) by (intros; apply Hab; lia). done.
Qed.

Lemma tr_path_untrusted ts k r x a : (tr_path ts false k r x a).2 = false.
Proof.
  revert k r. induction ts as [|k' ts IH]; intros k r; [done|]. simpl. repeat case_match; simpl in *; try done.
  all: specialize (IH k' (r - L k)); by rewrite H1 in IH || by rewrite H2 in IH.
Qed.

(** Whether the element stops at this tree. *)
Definition stops (trusty : bool) (k : nat) (r s : Z) x a : bool :=
  (cmp (a s) x <=? 0) ||
  (negb trusty && (1 <? Z.of_nat k) &&
   ((0 <=? cmp (a (r - 1)) (a s)) || (0 <=? cmp (a (r - 1 - L (k - 2))) (a s)))).

Definition settled (trusty : bool) (k : nat) (r : Z) (x : V) a : Z -> V :=
  if trusty then upd a r x else fill a r (sift_path k r x a) x.

Lemma fill_upd a r path x : NoDup (r :: path) -> forall i, fill (upd a r x) r path x i = fill a r path x i.
Proof. intros Hnd i. apply fill_ext; [|done]. intros j Hj. by apply upd_ne. Qed.

Lemma trinkled_nil trusty k r x a i : trinkled [] trusty k r x a i = settled trusty k r x a i.
Proof.
  unfold trinkled, settled. cbn [tr_path]. destruct trusty; [done|]. cbn [fill].
  rewrite (sift_path_ext k r x (upd a r x) a) by (intros; apply upd_ne; lia).
  apply fill_upd, sift_path_range.
Qed.

Lemma trinkled_cons k' ts trusty k r x a i :
  trinkled (k' :: ts) trusty k r x a i =
    if stops trusty k r (r - L k) x a then settled trusty k r x a i
    else trinkled ts false k' (r - L k) x (upd a r (a (r - L k))) i.
Proof.
  rewrite <- (trinkled_nil trusty). unfold stops, trinkled. cbn [tr_path].
  destruct (cmp (a (r - L k)) x <=? 0); [done|]. cbn [orb].
  destruct (_ && _ && _); [done|].
  rewrite (tr_path_ext ts false k' (r - L k) x (upd a r (a (r - L k))) a) by
    (intros; apply upd_ne; pose proof (L_pos k); lia).
  pose proof (tr_path_untrusted ts k' (r - L k) x a) as Ht.
  destruct (tr_path ts false k' (r - L k) x a) as [[[path kf] rf] tf]. simpl in Ht. by subst tf.
Qed.

Lemma stops_false trusty k r s x a : stops trusty k r s x a = false ->
  cmp x (a s) < 0 /\ (trusty = false -> children k r a (fun v => le v (a s))).
Proof.
  unfold stops. rewrite orb_false_iff, Z.leb_gt. intros [H1 H2].
  split; [by apply (cmp_lt_gt cmp)|]. intros ->. destruct k as [|[|k]]; [done..|].
  rewrite children_step. replace (S (S k) - 2)%nat with k in H2 by lia.
  rewrite (proj2 (Z.ltb_lt 1 _)) in H2 by lia. cbn [negb andb] in H2.
  apply orb_false_iff in H2 as [H2 H3]. apply le_not in H2, H3. unfold cmp_le. lia.
Qed.

Lemma stops_true trusty k r s x a y : stops trusty k r s x a = true ->
  le x y -> children k r a (fun v => le v y) -> le (a s) y.
Proof.
  unfold stops. rewrite orb_true_iff, Z.leb_le. intros [H|H] Hx Hy; [by transitivity x|].
  apply andb_true_iff in H as [H Hc]. apply andb_true_iff in H as [_ Hk]. apply Z.ltb_lt in Hk.
  destruct k as [|[|k]]; [lia|lia|]. replace (S (S k) - 2)%nat with k in Hc by lia.
  rewrite children_step in Hy. destruct Hy as [Hy1 Hy2].
  apply orb_true_iff in Hc as [Hc|Hc]; apply le_iff in Hc; by etransitivity.
Qed.

Lemma children_ext k r a b (P : V -> Prop) : (forall i, r - L k < i < r -> a i = b i) ->
  children k r a P -> children k r b P.
Proof.
  intros Hab. destruct k as [|[|k]]; [done..|]. rewrite !children_step. rewrite L_step in Hab.
  pose proof (L_pos k). pose proof (L_pos (S k)). by rewrite !Hab by lia.
Qed.

Lemma children_mono k r a (P Q : V -> Prop) : (forall v, P v -> Q v) -> children k r a P -> children k r a Q.
Proof. intros HPQ. destruct k as [|[|k]]; [done..|]. rewrite !children_step. intros []. auto. Qed.

(** Where the element settles, its tree becomes a heap whose root is the greatest of
    the element and the children. *)
Lemma settled_ok trusty k r x a : subs k r a -> (trusty = true -> children k r a (fun v => le v x)) ->
  let a' := settled trusty k r x a in
  heap k r a' /\ (forall i, ~ (r - L k < i <= r) -> a' i = a i) /\
  le x (a' r) /\ children k r a (fun v => le v (a' r)) /\
  (forall y, le x y -> children k r a (fun v => le v y) -> le (a' r) y).
Proof.
  intros Hs Ht. destruct trusty; [|by apply sift_fill]. cbn zeta. unfold settled. specialize (Ht eq_refl).
  pose proof (L_pos k).
  rewrite upd_eq. split; [|split; [intros; apply upd_ne; lia|split; [reflexivity|split; [done|done]]]].
  apply heap_split. split; [eapply subs_ext; [|exact Hs]; intros; rewrite upd_ne; [done|lia]|].
  rewrite upd_eq. eapply children_ext; [|exact Ht]. intros. rewrite upd_ne; [done|lia].
Qed.

(** [trinkle]: when all the other trees are heaps with increasing roots, so are all
    of them afterwards. *)
Lemma trinkled_ok ts trusty k r x a :
  forest ts (r - L k) a -> subs k r a -> (trusty = true -> children k r a (fun v => le v x)) ->
  let a' := trinkled ts trusty k r x a in
  forest (k :: ts) r a' /\ (forall i, ~ (r - extent (k :: ts) < i <= r) -> a' i = a i) /\
  (forall y, le x y -> children k r a (fun v => le v y) ->
     match ts with [] => True | _ :: _ => le (a (r - L k)) y end -> le (a' r) y).
Proof.
  revert trusty k r a. induction ts as [|k' ts IH]; intros trusty k r a Hf Hs Ht; cbn zeta.
  { destruct (settled_ok trusty k r x a Hs Ht) as (H1 & H2 & H3 & H4 & H5).
    assert (E := trinkled_nil trusty k r x a). simpl. rewrite Z.add_0_r, E. split; [|split].
    - split; [|done]. eapply heap_ext; [|exact H1]. intros i _. by rewrite E.
    - intros i Hi. rewrite E. by apply H2.
    - intros y Hy Hc _. by apply H5. }
  assert (E := trinkled_cons k' ts trusty k r x a). pose proof (L_pos k) as HL. pose proof (L_pos k') as HL'.
  pose proof (extent_nonneg ts) as Hw.
  destruct (stops trusty k r (r - L k) x a) eqn:Es.
  - destruct (settled_ok trusty k r x a Hs Ht) as (H1 & H2 & H3 & H4 & H5).
    split; [split; [|split]|split].
    + eapply heap_ext; [|exact H1]. intros i _. by rewrite E.
    + eapply forest_ext; [|exact Hf]. intros i Hi. rewrite E, H2; [done|lia].
    + rewrite !E, H2 by lia. by apply (stops_true trusty k r (r - L k) x a).
    + intros i Hi. rewrite E. apply H2. simpl in Hi. lia.
    + intros y Hy Hc _. rewrite E. by apply H5.
  - apply stops_false in Es as [Hx Hc]. destruct Hf as (Hh & Hf & Hord).
    set (s := r - L k) in *. set (a1 := upd a r (a s)) in *.
    assert (Ha1 : forall i, i < r -> a1 i = a i) by (intros; apply upd_ne; lia).
    apply heap_split in Hh as [Hhs Hhc].
    destruct (IH false k' s a1) as (I1 & I2 & I3).
    { eapply forest_ext; [|exact Hf]. intros i Hi. symmetry. apply Ha1. lia. }
    { eapply subs_ext; [|exact Hhs]. intros i Hi. symmetry. apply Ha1. lia. }
    { done. }
    assert (Er : trinkled ts false k' s x a1 r = a s) by (rewrite I2 by lia; apply upd_eq).
    assert (Ein : forall i, s < i < r -> trinkled ts false k' s x a1 i = a i).
    { intros i Hi. rewrite I2 by lia. apply Ha1. lia. }
    split; [split; [|split]|split].
    + apply heap_split. split.
      * eapply subs_ext; [|exact Hs]. intros i Hi. by rewrite E, Ein by lia.
      * rewrite E, Er. apply (children_ext k r a); [intros i Hi; by rewrite E, Ein by lia|].
        destruct trusty; [|by apply Hc]. eapply children_mono; [|by apply Ht].
        intros v Hv. transitivity x; [done|]. unfold cmp_le. lia.
    + eapply forest_ext; [|exact I1]. intros i _. by rewrite E.
    + rewrite !E, Er. apply I3.
      * unfold cmp_le. lia.
      * eapply children_ext; [|exact Hhc]. intros i Hi. symmetry. apply Ha1. lia.
      * destruct ts as [|k2 ts]; [done|]. by rewrite Ha1 by lia.
    + intros i Hi. simpl in Hi. rewrite E, I2 by (simpl; lia). apply upd_ne. lia.
    + intros y _ _ Hy. rewrite E, Er. done.
Qed.

(** The positions of a trinkling path, and the tree it ends at. *)
Lemma tr_path_range ts trusty k r x a path kf rf tf :
  tr_path ts trusty k r x a = (path, kf, rf, tf) ->
  NoDup (r :: path) /\ Forall (fun q => r - extent (k :: ts) < q < r) path /\
  rf = default r (list.last path) /\ r - extent (k :: ts) <= rf - L kf /\ rf <= r /\
  kf ∈ k :: ts /\ (length path <= length ts)%nat.
Proof.
  revert trusty k r path. induction ts as [|k' ts IH]; intros trusty k r path; simpl.
  { intros [= <- <- <- <-]. split; [apply list.NoDup_singleton|]. repeat split; [constructor|lia|lia|left|simpl; lia]. }
  pose proof (L_pos k). pose proof (L_pos k'). pose proof (extent_nonneg ts).
  assert (Hstop : ([], k, r, trusty) = (path, kf, rf, tf) ->
    NoDup (r :: path) /\ Forall (fun q => r - (L k + (L k' + extent ts)) < q < r) path /\
    rf = default r (list.last path) /\ r - (L k + (L k' + extent ts)) <= rf - L kf /\ rf <= r /\
    kf ∈ k :: k' :: ts /\ (length path <= S (length ts))%nat).
  { intros [= <- <- <- <-]. split; [apply list.NoDup_singleton|]. repeat split; [constructor|lia|lia|left|simpl; lia]. }
  destruct (_ <=? 0); [done|]. destruct (_ && _ && _); [done|]. clear Hstop.
  destruct (tr_path ts false k' (r - L k) x a) as [[[path' kf'] rf'] tf'] eqn:E. intros [= <- <- <- <-].
  destruct (IH _ _ _ _ E) as (P1 & H2 & H3 & H4 & H5 & H6 & H7). simpl in H2, H4.
  assert (Hall : Forall (fun q => r - (L k + (L k' + extent ts)) < q < r) (r - L k :: path')).
  { constructor; [lia|]. eapply Forall_impl; [|exact H2]. simpl. intros q Hq. lia. }
  split; [|split; [done|split; [|split; [lia|split; [lia|split; [by right|simpl; lia]]]]]].
  - apply list.NoDup_cons. split; [|done]. intros Hr. rewrite list.Forall_forall in Hall.
    specialize (Hall r Hr). lia.
  - rewrite H3. destruct path' as [|p path']; [done|]. rewrite list.last_cons_cons.
    destruct (list.last (p :: path')) eqn:El; [done|]. by apply list.last_None in El.
Qed.

Lemma trinkled_perm ts trusty k r a n : 0 <= r < n -> extent (k :: ts) <= r + 1 ->
  elems (trinkled ts trusty k r (a r) a) n ≡ₚ elems a n.
Proof.
  intros Hr Hw. unfold trinkled. destruct (tr_path ts trusty k r (a r) a) as [[[path kf] rf] tf] eqn:E.
  destruct (tr_path_range _ _ _ _ _ _ _ _ _ _ E) as (P1 & H2 & H3 & H4 & H5 & _). destruct tf.
  { elems_eq. intros i Hi. unfold upd. by destruct (Z.eqb_spec i r) as [->|]. }
  pose proof (L_pos kf). set (a1 := fill a r path (a r)).
  assert (Ex : a r = a1 rf) by (symmetry; by apply fill_last).
  assert (Hp1 : elems a1 n ≡ₚ elems a n).
  { apply fill_perm; [done|]. constructor; [lia|]. eapply Forall_impl; [|exact H2]. cbn beta. intros q Hq. lia. }
  rewrite <- Hp1, Ex. destruct (sift_path_range kf rf (a1 rf) a1) as [S1 S2].
  apply fill_perm; [done|]. constructor; [lia|]. eapply Forall_impl; [|exact S2]. cbn beta. intros q Hq. lia.
Qed.

Lemma sift_perm k r a n : 0 <= r < n -> L k <= r + 1 ->
  elems (fill a r (sift_path k r (a r) a) (a r)) n ≡ₚ elems a n.
Proof.
  intros Hr Hw. destruct (sift_path_range k r (a r) a) as [S1 S2].
  apply fill_perm; [done|]. constructor; [lia|]. eapply Forall_impl; [|exact S2]. cbn beta. intros q Hq. lia.
Qed.

Lemma trinkled_all (P : V -> Prop) ts trusty k r a n : 0 <= r < n -> extent (k :: ts) <= r + 1 ->
  (forall i, 0 <= i < n -> P (a i)) -> forall i, 0 <= i < n -> P (trinkled ts trusty k r (a r) a i).
Proof.
  intros Hr Hw HP. unfold trinkled. destruct (tr_path ts trusty k r (a r) a) as [[[path kf] rf] tf] eqn:E.
  destruct (tr_path_range _ _ _ _ _ _ _ _ _ _ E) as (P1 & H2 & H3 & H4 & H5 & _). destruct tf.
  { intros i Hi. unfold upd. destruct (i =? r); auto. }
  destruct (sift_path_range kf rf (a r) (fill a r path (a r))) as [_ S2]. pose proof (L_pos kf).
  apply fill_all; [apply fill_all|..]; auto.
  - eapply Forall_impl; [|exact H2]. cbn beta. intros q Hq. lia.
  - eapply Forall_impl; [|exact S2]. cbn beta. intros q Hq. lia.
Qed.
End heaps.

(** Applying a function to every element commutes with moving them. *)
Lemma fill_morph {V W : Type} (f : V -> W) (a : Z -> V) (b : Z -> W) r path x y j :
  (forall i, f (a i) = b i) -> f x = y -> f (fill a r path x j) = fill b r path y j.
Proof.
  revert a b r. induction path as [|q path IH]; intros a b r Hab Hxy; cbn [fill].
  - unfold upd. by destruct (j =? r).
  - apply IH; [|done]. intros i. unfold upd. by destruct (i =? r).
Qed.

Lemma sift_path_length {V : Type} (cmp : V -> V -> Z) k r x (a : Z -> V) : (length (sift_path cmp k r x a) <= k)%nat.
Proof.
  revert r. induction k as [| |k IH1 IH2] using order_ind; intros r;
    [change (sift_path cmp _ r x a) with (@nil Z); simpl; lia..|].
  rewrite sift_path_step. specialize (IH1 (r - 1)). specialize (IH2 (r - 1 - L k)).
  destruct (_ && _); [simpl; lia|]. destruct (0 <=? _); cbn [length]; lia.
Qed.
