(* ===== verification/Sort.v ===== *)
(** * Smoothsort ([stdlib/qsort.c])

    The array is bytes in memory and elements move by [memcpy] through a 256-byte
    buffer on the stack (at [tmp]).  The comparison callback depends on the bytes of
    the two elements.  Elements of a local array outside their bounds, and shift
    counts outside the width, are faults. *)
From S2P Require Import Prelude Mem StrCopy Cmp Leonardo.

(** ** The code *)

(** [a_ctz_64] of [internal/atomic.h]: a perfect hash of the lowest set bit; 0 for
    0, which [pntz] counts on. *)
Definition debruijn64 : list Z :=
  [0; 1; 2; 53; 3; 7; 54; 27; 4; 38; 41; 8; 34; 55; 48; 28;
   62; 5; 39; 46; 44; 42; 22; 9; 24; 35; 59; 56; 49; 18; 29; 11;
   63; 52; 6; 26; 37; 40; 33; 47; 61; 45; 43; 21; 23; 58; 17; 10;
   51; 25; 36; 32; 60; 20; 57; 16; 50; 31; 19; 15; 30; 14; 13; 12].

Definition a_ctz_64 (x : Z) : option Z :=
  debruijn64 !! Z.to_nat (Z.shiftr (u64 (Z.land x (u64 (- x)) * 0x022fdd63cc95386d)) 58).

(** A two-word bit vector [p[2]]. *)
Definition pntz (p : Z * Z) : option Z :=
  r ← a_ctz_64 (u64 (p.1 - 1));
  if nz r then Some r
  else
    r1 ← a_ctz_64 p.2;
    let r := 64 + r1 in
    if negb (r =? 64) then Some r else Some 0.

Definition shl (p : Z * Z) (n : Z) : option (Z * Z) :=
  let '(p0, p1, n) := if 64 <=? u64 n then (0, p.1, n - 64) else (p.1, p.2, n) in
  if (0 <? n) && (n <? 64) then
    Some (u64 (Z.shiftl p0 n), Z.lor (u64 (Z.shiftl p1 n)) (Z.shiftr p0 (64 - n)))
  else None.

Definition shr (p : Z * Z) (n : Z) : option (Z * Z) :=
  let '(p0, p1, n) := if 64 <=? u64 n then (p.2, 0, n - 64) else (p.1, p.2, n) in
  if (0 <? n) && (n <? 64) then
    Some (Z.lor (Z.shiftr p0 n) (u64 (Z.shiftl p1 (64 - n))), Z.shiftr p1 n)
  else None.

Definition AR_SIZE : Z := 14 * 8 + 1.
Definition LP_SIZE : Z := 12 * 8.

(** [ar[i++] = p] *)
Definition push (ar : list Z) (p : Z) : option (list Z) :=
  if Z.of_nat (length ar) <? AR_SIZE then Some (ar ++ [p]) else None.

Definition at_index (l : list Z) (i : Z) : option Z := if i <? 0 then None else l !! Z.to_nat i.

Section qsort.
Variables (width : Z) (cmp : list Z -> list Z -> Z) (tmp : Z).

(** A call [( *cmp)(p, q)], which reads the two elements. *)
Definition load_bytes (m : mem) (p n : Z) : option (list Z) := mapM (load8 m) (seqZ p n).
Definition call (m : mem) (p q : Z) : option Z :=
  x ← load_bytes m p width; y ← load_bytes m q width; Some (cmp x y).

(** The inner loop of [cycle], on the pointers [ar[0 .. n]]. *)
Fixpoint cycle_moves (m : mem) (l : Z) (ar : list Z) : option (list Z * mem) :=
  match ar with
  | p :: ((q :: _) as ar') =>
      '(_, m) ← memcpy m p q l;
      '(ar', m) ← cycle_moves m l ar';
      Some (p + l :: ar', m)
  | _ => Some (ar, m)
  end.

Definition cycle (m : mem) (ar : list Z) : option mem :=
  let n := Z.of_nat (length ar) in
  if n <? 2 then Some m
  else
    ar ← push ar tmp;
    iter (S (Z.to_nat width)) (fun '(width, ar, m) =>
      if nz width then
        let l := if 256 <? width then 256 else width in
        p ← ar !! O;
        '(_, m) ← memcpy m tmp p l;
        '(ar, m) ← cycle_moves m l ar;
        Some (Next (width - l, ar, m))
      else Some (Leave m)) (width, ar, m).

(** A turn of the loop of [sift]. *)
Definition sift_turn (m : mem) (lp : list Z) : Z * Z * list Z -> option (turn (Z * Z * list Z) (list Z)) :=
  fun '(head, pshift, ar) =>
    if 1 <? pshift then
      let rt := head - width in
      d ← at_index lp (pshift - 2);
      let lf := head - width - d in
      a0 ← ar !! O;
      c1 ← call m a0 lf;
      brk ← (if 0 <=? c1 then (c2 ← call m a0 rt; Some (0 <=? c2)) else Some false);
      if (brk : bool) then Some (Leave ar)
      else
        c ← call m lf rt;
        if 0 <=? c then (ar ← push ar lf; Some (Next (lf, pshift - 1, ar)))
        else (ar ← push ar rt; Some (Next (rt, pshift - 2, ar)))
    else Some (Leave ar).

Definition sift (m : mem) (head pshift : Z) (lp : list Z) : option mem :=
  ar ← iter (S (Z.to_nat pshift)) (sift_turn m lp) (head, pshift, [head]);
  cycle m ar.

(** A turn of the loop of [trinkle]. *)
Definition trinkle_turn (m : mem) (lp : list Z) :
    Z * (Z * Z) * Z * bool * list Z -> option (turn (Z * (Z * Z) * Z * bool * list Z) (Z * Z * bool * list Z)) :=
  fun '(head, p, pshift, trusty, ar) =>
    if negb ((p.1 =? 1) && (p.2 =? 0)) then
      d ← at_index lp pshift;
      let stepson := head - d in
      a0 ← ar !! O;
      c ← call m stepson a0;
      if c <=? 0 then Some (Leave (head, pshift, trusty, ar))
      else
        brk ← (if negb trusty && (1 <? pshift) then
                 let rt := head - width in
                 d2 ← at_index lp (pshift - 2);
                 let lf := head - width - d2 in
                 c1 ← call m rt stepson;
                 if 0 <=? c1 then Some true else (c2 ← call m lf stepson; Some (0 <=? c2))
               else Some false);
        if (brk : bool) then Some (Leave (head, pshift, trusty, ar))
        else
          ar ← push ar stepson;
          trail ← pntz p;
          p ← shr p trail;
          Some (Next (stepson, p, pshift + trail, false, ar))
    else Some (Leave (head, pshift, trusty, ar)).

Definition trinkle (m : mem) (head : Z) (pp : Z * Z) (pshift : Z) (trusty : bool) (lp : list Z) : option mem :=
  '(head, pshift, trusty, ar) ← iter (S (length lp)) (trinkle_turn m lp) (head, pp, pshift, trusty, [head]);
  if negb trusty then (m ← cycle m ar; sift m head pshift lp) else Some m.

(** The Leonardo numbers, scaled by the element width. *)
Definition leonardo (size : Z) : option (list Z) :=
  iter (Z.to_nat LP_SIZE) (fun lp =>
    let i := length lp in
    if Z.of_nat i <? LP_SIZE then
      x ← lp !! (i - 2)%nat; y ← lp !! (i - 1)%nat;
      let v := u64 (x + y + width) in
      if v <? size then Some (Next (lp ++ [v])) else Some (Leave (lp ++ [v]))
    else None) [width; width].

(** A turn of the loop that builds the forest. *)
Definition build_turn (high : Z) (lp : list Z) :
    Z * (Z * Z) * Z * mem -> option (turn (Z * (Z * Z) * Z * mem) (Z * (Z * Z) * Z * mem)) :=
  fun '(head, p, pshift, m) =>
    if head <? high then
      '(p, pshift, m) ←
        (if Z.land p.1 3 =? 3 then
           m ← sift m head pshift lp;
           p ← shr p 2;
           Some (p, pshift + 2, m)
         else
           d ← at_index lp (pshift - 1);
           m ← (if high - head <=? d then trinkle m head p pshift false lp else sift m head pshift lp);
           if pshift =? 1 then (p ← shl p 1; Some (p, 0, m))
           else (p ← shl p (pshift - 1); Some (p, 1, m)));
      Some (Next (head + width, (Z.lor p.1 1, p.2), pshift, m))
    else Some (Leave (head, p, pshift, m)).

(** A turn of the loop that takes the forest apart. *)
Definition drain_turn (lp : list Z) : Z * (Z * Z) * Z * mem -> option (turn (Z * (Z * Z) * Z * mem) mem) :=
  fun '(head, p, pshift, m) =>
    if negb ((pshift =? 1) && (p.1 =? 1) && (p.2 =? 0)) then
      '(p, pshift, m) ←
        (if pshift <=? 1 then
           trail ← pntz p;
           p ← shr p trail;
           Some (p, pshift + trail, m)
         else
           p ← shl p 2;
           let pshift := pshift - 2 in
           p ← shr (Z.lxor p.1 7, p.2) 1;
           d ← at_index lp pshift;
           m ← trinkle m (head - d - width) p (pshift + 1) true lp;
           p ← shl p 1;
           let p := (Z.lor p.1 1, p.2) in
           m ← trinkle m (head - width) p pshift true lp;
           Some (p, pshift, m));
      Some (Next (head - width, p, pshift, m))
    else Some (Leave m).

Definition qsort (m : mem) (base nel : Z) : option mem :=
  let size := u64 (width * nel) in
  if negb (nz size) then Some m
  else
    let high := base + size - width in
    lp ← leonardo size;
    '(head, p, pshift, m) ← iter (S (Z.to_nat nel)) (build_turn high lp) (base, (1, 0), 1, m);
    m ← trinkle m head p pshift false lp;
    iter (S (Z.to_nat nel)) (drain_turn lp) (head, p, pshift, m).
End qsort.

Definition byte_cmp (x y : list Z) : Z := default 0 (x !! 0%nat) - default 0 (y !! 0%nat).
Example qsort_ex :
  (m ← qsort 1 byte_cmp 500 (write_bytes (write_bytes ∅ 500 (replicate 256 0)) 100 [5;3;9;1;8;7;2;6;4;0;3;3]) 100 12;
   Some (bytes_of m 100 12)) = Some [0;1;2;3;3;3;4;5;6;7;8;9].
Proof. vm_compute. reflexivity. Qed.

(** ** The bit vector

    The orders of the trees, from the last one leftwards, as the code keeps them:
    bit [i] is set when there is a tree of order [pshift + i]. *)
Fixpoint bits (ts : list nat) : Z :=
  match ts with
  | k :: ((k' :: _) as ts') => 1 + 2 ^ Z.of_nat (k' - k) * bits ts'
  | _ => 1
  end.

(** Orders increase leftwards. *)
Fixpoint increasing (ts : list nat) : Prop :=
  match ts with
  | k :: ((k' :: _) as ts') => (k < k')%nat /\ increasing ts'
  | _ => True
  end.

Lemma bits_cons k k' ts : bits (k :: k' :: ts) = 1 + 2 ^ Z.of_nat (k' - k) * bits (k' :: ts).
Proof. done. Qed.

#[global] Arguments bits : simpl never.

Lemma bits_pos k ts : increasing (k :: ts) -> 0 < bits (k :: ts) /\ bits (k :: ts) mod 2 = 1.
Proof.
  revert k. induction ts as [|k' ts IH]; intros k; [done|]. intros [Hk Hi].
  destruct (IH k' Hi) as [H1 _]. rewrite bits_cons.
  replace (Z.of_nat (k' - k)) with (1 + Z.of_nat (k' - k - 1)) by lia. rewrite Z.pow_add_r by lia.
  split; [nia|]. rewrite <- Z.mul_assoc. generalize (2 ^ Z.of_nat (k' - k - 1) * bits (k' :: ts)). intros z. change (2 ^ 1) with 2. divmod.
Qed.

Lemma bits_bound k ts K : increasing (k :: ts) -> Forall (fun j => j <= K)%nat (k :: ts) ->
  bits (k :: ts) < 2 ^ Z.of_nat (K - k + 1).
Proof.
  revert k. induction ts as [|k' ts IH]; intros k Hi HK.
  { change (bits [k]) with 1. replace (Z.of_nat (K - k + 1)) with (Z.of_nat (K - k) + 1) by lia.
    rewrite Z.pow_add_r by lia. lia. }
  destruct Hi as [Hk Hi]. apply Forall_cons_1 in HK as [HK1 HK]. specialize (IH k' Hi HK).
  apply Forall_cons_1 in HK as [HK2 _]. rewrite bits_cons.
  replace (Z.of_nat (K - k + 1)) with (Z.of_nat (k' - k) + Z.of_nat (K - k' + 1)) by lia.
  rewrite Z.pow_add_r by lia.
  assert (1 < 2 ^ Z.of_nat (k' - k)) by (apply Z.pow_gt_1; lia). nia.
Qed.

(** The lowest set bit. *)
Lemma lowest_bit k y : 0 <= k -> Z.land (2 ^ k * (2 * y + 1)) (- (2 ^ k * (2 * y + 1))) = 2 ^ k.
Proof.
  intros Hk. replace (- (2 ^ k * (2 * y + 1))) with (0 + 2 ^ k * (1 + 2 ^ 1 * Z.lnot y)) by (unfold Z.lnot; lia).
  replace (2 ^ k * (2 * y + 1)) with (0 + 2 ^ k * (1 + 2 ^ 1 * y)) by lia.
  rewrite (land_split k Hk) by lia. rewrite (land_split 1) by lia.
  rewrite Z.land_lnot_diag. change (Z.land 1 1) with 1. rewrite Z.land_0_l. lia.
Qed.

Lemma a_ctz_64_ok k y : 0 <= k < 64 -> 0 <= y -> 2 ^ k * (2 * y + 1) < 2 ^ 64 ->
  a_ctz_64 (2 ^ k * (2 * y + 1)) = Some k.
Proof.
  intros Hk Hy Hx. unfold a_ctz_64.
  set (x := 2 ^ k * (2 * y + 1)) in *. assert (Hx0 : 0 <= x) by (unfold x; nia).
  assert (E : Z.land x (u64 (- x)) = 2 ^ k).
  { unfold wrap. rewrite <- (Z.land_ones (- x) 64), Z.land_assoc, (Z.land_comm x (- x)), <- Z.land_assoc by lia.
    rewrite (Z.land_ones x 64), (Z.mod_small x) by lia. rewrite Z.land_comm. apply lowest_bit. lia. }
  rewrite E. clear E.
  assert (H : forallb (fun k => bool_decide (debruijn64 !! Z.to_nat (Z.shiftr (u64 (2 ^ k * 0x022fdd63cc95386d)) 58) = Some k))
    (seqZ 0 64) = true) by (vm_compute; reflexivity).
  rewrite forallb_forall in H. specialize (H k). rewrite bool_decide_eq_true in H. apply H.
  apply list_elem_of_In, elem_of_seqZ. lia.
Qed.

Lemma pntz_ok k k' ts : increasing (k :: k' :: ts) -> bits (k :: k' :: ts) < 2 ^ 63 -> (k' - k < 64)%nat ->
  pntz (bits (k :: k' :: ts), 0) = Some (Z.of_nat (k' - k)).
Proof.
  intros [Hk Hi] Hb Hlt. destruct (bits_pos k' ts Hi) as [Hp Hodd]. unfold pntz. simpl fst. rewrite bits_cons in *.
  replace (1 + 2 ^ Z.of_nat (k' - k) * bits (k' :: ts) - 1) with (2 ^ Z.of_nat (k' - k) * bits (k' :: ts)) by lia.
  rewrite wrap_small by lia. pose proof (Z.div_mod (bits (k' :: ts)) 2 ltac:(lia)) as E. rewrite Hodd in E.
  rewrite E, a_ctz_64_ok by (lia || divmod). cbn [mbind option_bind].
  by rewrite (proj2 (nz_true (Z.of_nat (k' - k)))) by lia.
Qed.

Lemma shl_ok b n : 0 <= b -> 0 < n < 64 -> b * 2 ^ n < 2 ^ 64 -> shl (b, 0) n = Some (b * 2 ^ n, 0).
Proof.
  intros Hb Hn Hlt. unfold shl. cbn [fst snd]. rewrite (wrap_small 64 n) by lia.
  rewrite (proj2 (Z.leb_gt 64 n)) by lia. rewrite (proj2 (Z.ltb_lt 0 n)), (proj2 (Z.ltb_lt n 64)) by lia. cbn [andb].
  rewrite Z.shiftl_0_l, Z.shiftl_mul_pow2, wrap_small by lia. do 2 f_equal.
  rewrite Z.shiftr_div_pow2 by lia. rewrite Z.div_small; [done|]. split; [lia|].
  apply (Z.mul_lt_mono_pos_r (2 ^ n)); [lia|]. rewrite <- Z.pow_add_r by lia. by replace (64 - n + n) with 64 by lia.
Qed.

Lemma shr_ok b n : 0 <= b -> 0 < n < 64 -> shr (b, 0) n = Some (b / 2 ^ n, 0).
Proof.
  intros Hb Hn. unfold shr. cbn [fst snd]. rewrite (wrap_small 64 n) by lia.
  rewrite (proj2 (Z.leb_gt 64 n)) by lia. rewrite (proj2 (Z.ltb_lt 0 n)), (proj2 (Z.ltb_lt n 64)) by lia. cbn [andb].
  rewrite Z.shiftl_0_l, Z.shiftr_0_l, Z.shiftr_div_pow2 by lia. change (u64 0) with 0. by rewrite Z.lor_0_r.
Qed.

Lemma shr_bits k k' ts : increasing (k :: k' :: ts) -> (k' - k < 64)%nat ->
  shr (bits (k :: k' :: ts), 0) (Z.of_nat (k' - k)) = Some (bits (k' :: ts), 0).
Proof.
  intros [Hk Hi] Hlt. destruct (bits_pos k' ts Hi) as [Hp _]. rewrite bits_cons.
  assert (1 < 2 ^ Z.of_nat (k' - k)) by (apply Z.pow_gt_1; lia).
  rewrite shr_ok by nia. do 2 f_equal. rewrite Z.add_comm, Z.mul_comm, Z.div_add_l by lia.
  rewrite Z.div_small; lia.
Qed.

Lemma bits_one k ts : increasing (k :: ts) -> (bits (k :: ts) =? 1) = match ts with [] => true | _ => false end.
Proof.
  destruct ts as [|k' ts]; [done|]. intros [Hk Hi]. destruct (bits_pos k' ts Hi) as [Hp _]. rewrite bits_cons.
  assert (1 < 2 ^ Z.of_nat (k' - k)) by (apply Z.pow_gt_1; lia). apply Z.eqb_neq. nia.
Qed.

(** ** Moving elements

    Element [j] is the [width] bytes at [base + width * j]; [arr m0 m a] says that
    the array in [m] holds the elements [a] and that [m] differs from [m0] in the
    array and the buffer only. *)
Section elements.
Context (width base nel tmp : Z) (Hwidth : 0 < width) (Hnel : 0 <= nel).
Context (Htmp : disjoint_ranges base (width * nel) tmp 256).
Implicit Types (a b : Z -> list Z).

Definition addr (j : Z) : Z := base + width * j.

Definition outside (x : Z) : Prop := ~ (base <= x < base + width * nel) /\ ~ (tmp <= x < tmp + 256).

(** The memory the sort works in is there. *)
Definition space (m : mem) : Prop := mem_ok m /\ mapped m base (width * nel) /\ mapped m tmp 256.

Definition arr (m0 m : mem) a : Prop :=
  space m /\
  (forall x, outside x -> m !! x = m0 !! x) /\
  forall j, 0 <= j < nel -> bytes_of m (addr j) width = a j.

Lemma arr_ext m0 m a b : (forall j, 0 <= j < nel -> a j = b j) -> arr m0 m a -> arr m0 m b.
Proof. intros Hab (H1 & H2 & H5). repeat (split; [done|]). intros j Hj. by rewrite <- Hab, H5. Qed.

(** A slice of an element lies in the array, away from the buffer and from the
    same slice of another element. *)
Lemma slice_in j c l : 0 <= j < nel -> 0 <= c -> c + l <= width ->
  base <= addr j + c /\ addr j + c + l <= base + width * nel.
Proof. unfold addr. nia. Qed.

Lemma slice_apart i j c l : i <> j -> 0 <= c -> c + l <= width -> 0 <= l ->
  disjoint_ranges (addr i + c) l (addr j + c) l.
Proof. unfold disjoint_ranges, addr. intros. destruct (Z.lt_ge_cases i j); [left|right]; nia. Qed.

(** What one [memcpy] between slices does to the slices. *)
Lemma slice_copy m j c l p :
  space m -> 0 <= j < nel -> 0 <= c -> 0 <= l -> c + l <= width ->
  mapped m p l -> disjoint_ranges (addr j + c) l p l ->
  exists m', memcpy m (addr j + c) p l = Some (addr j + c, m') /\
    space m' /\
    (forall x, ~ (addr j + c <= x < addr j + c + l) -> rd m' x = rd m x) /\
    (forall x, ~ (addr j + c <= x < addr j + c + l) -> m' !! x = m !! x) /\
    bytes_of m' (addr j + c) l = bytes_of m p l.
Proof.
  intros (Hok & Hm & Ht) Hj Hc Hl Hcl Hp Hd.
  pose proof (length_bytes_of m p l Hl) as Hlen.
  assert (Hx : forall x, ~ (addr j + c <= x < addr j + c + l) ->
    write_bytes m (addr j + c) (bytes_of m p l) !! x = m !! x).
  { intros x Hx. rewrite lookup_write_bytes, Hlen. by case_decide. }
  exists (write_bytes m (addr j + c) (bytes_of m p l)). split.
  { apply memcpy_ok; [done| |done|done|done]. pose proof (slice_in j c l Hj Hc Hcl).
    eapply mapped_sub; [exact Hm|lia|lia]. }
  split; [split; [apply write_bytes_ok; [done|by apply bytes_of_bytes]|split; by apply mapped_write]|].
  split; [intros x H; unfold rd; by rewrite Hx|]. split; [done|].
  rewrite <- Hlen at 2. apply bytes_of_write.
Qed.

(** The inner loop on one slice: the elements at [r :: path] move up by one, the
    buffer's slice [x] goes to the last. *)
Lemma cycle_moves_ok path : forall m b r x c l,
  space m -> Forall (fun j => 0 <= j < nel) (r :: path) -> NoDup (r :: path) ->
  0 <= c -> 0 < l <= 256 -> c + l <= width ->
  (forall j, 0 <= j < nel -> bytes_of m (addr j + c) l = b j) -> bytes_of m tmp l = x ->
  exists m', cycle_moves m l (((fun j => addr j + c) <$> (r :: path)) ++ [tmp]) =
      Some (((fun j => addr j + (c + l)) <$> (r :: path)) ++ [tmp], m') /\
    space m' /\
    (forall j, 0 <= j < nel -> bytes_of m' (addr j + c) l = fill b r path x j) /\
    (forall z, (forall j, 0 <= j < nel -> ~ (addr j + c <= z < addr j + c + l)) -> m' !! z = m !! z).
Proof.
  assert (Hupd : forall m m1 b r c l y, 0 <= c -> 0 < l -> c + l <= width -> 0 <= r < nel ->
    (forall j, 0 <= j < nel -> bytes_of m (addr j + c) l = b j) -> bytes_of m1 (addr r + c) l = y ->
    (forall z, ~ (addr r + c <= z < addr r + c + l) -> rd m1 z = rd m z) ->
    forall j, 0 <= j < nel -> bytes_of m1 (addr j + c) l = upd b r y j).
  { intros m m1 b r c l y Hc Hl Hcl Hr Hb Hy Hrd j Hj.
    destruct (Z.eq_dec j r) as [->|Hne]; [by rewrite upd_eq|].
    rewrite upd_ne, <- (Hb j Hj) by done. apply bytes_of_ext. intros z Hz2. apply Hrd.
    pose proof (slice_apart j r c l Hne Hc Hcl ltac:(lia)) as Hap. unfold disjoint_ranges in Hap. lia. }
  induction path as [|q path IH]; intros m b r x c l Hsp Hin Hnd Hc Hl Hcl Hb Hx;
    apply Forall_cons_1 in Hin as [Hr Hin]; pose proof Hsp as (Hok & Hm & Ht);
    pose proof (slice_in r c l Hr Hc Hcl) as Hrin.
  - destruct (slice_copy m r c l tmp Hsp Hr Hc ltac:(lia) Hcl) as (m' & E & Hsp' & Hrd & Hz & Hs);
      [eapply mapped_sub; [exact Ht|lia|lia]|unfold disjoint_ranges in *; lia|].
    exists m'. simpl. rewrite E. cbn [mbind option_bind]. split; [by rewrite Z.add_assoc|].
    split; [done|]. split; [|intros z Hz2; by apply Hz, Hz2].
    apply (Hupd m); try done; [lia|congruence].
  - pose proof Hin as Hq. apply Forall_cons_1 in Hq as [Hq _].
    apply list.NoDup_cons in Hnd as [Hrq Hnd]. apply not_elem_of_cons in Hrq as [Hrq _].
    pose proof (slice_apart r q c l Hrq Hc Hcl ltac:(lia)) as Hd.
    pose proof (slice_in q c l Hq Hc Hcl) as Hqin.
    destruct (slice_copy m r c l (addr q + c) Hsp Hr Hc ltac:(lia) Hcl) as (m1 & E & Hsp1 & Hrd & Hz & Hs);
      [eapply mapped_sub; [exact Hm|lia|lia]|done|].
    destruct (IH m1 (upd b r (b q)) q x c l) as (m' & E' & Hsp' & Hb' & Hz'); [done..| | |].
    { apply (Hupd m); try done; [lia|]. by rewrite Hs, Hb. }
    { rewrite <- Hx. apply bytes_of_ext. intros z Hz2. apply Hrd. unfold disjoint_ranges in Htmp. lia. }
    exists m'. split; [|split; [done|split; [done|intros z Hz2; rewrite Hz' by done; by apply Hz, Hz2]]].
    simpl fmap in *. simpl app in *. simpl cycle_moves. rewrite E. cbn [mbind option_bind].
    change (cycle_moves m1 l (addr q + c :: ((λ j : Z, addr j + c) <$> path) ++ [tmp])) with
      (cycle_moves m1 l ((addr q + c :: ((λ j : Z, addr j + c) <$> path)) ++ [tmp])).
    simpl in E'. rewrite E'. cbn [mbind option_bind]. by replace (addr r + c + l) with (addr r + (c + l)) by lia.
Qed.

(** The buffer is loaded with a slice. *)
Lemma buffer_load m r c l : space m -> 0 <= r < nel -> 0 <= c -> 0 <= l <= 256 -> c + l <= width ->
  exists m', memcpy m tmp (addr r + c) l = Some (tmp, m') /\ space m' /\
    bytes_of m' tmp l = bytes_of m (addr r + c) l /\
    (forall x, ~ (tmp <= x < tmp + 256) -> m' !! x = m !! x).
Proof.
  intros (Hok & Hm & Ht) Hr Hc Hl Hcl. pose proof (slice_in r c l Hr Hc Hcl) as Hin.
  pose proof (length_bytes_of m (addr r + c) l ltac:(lia)) as Hlen.
  exists (write_bytes m tmp (bytes_of m (addr r + c) l)). split; [|split; [|split]].
  - apply memcpy_ok; [done|eapply mapped_sub; [exact Ht|lia|lia]|eapply mapped_sub; [exact Hm|lia|lia]| |lia].
    unfold disjoint_ranges in *. lia.
  - split; [apply write_bytes_ok; [done|by apply bytes_of_bytes]|split; by apply mapped_write].
  - rewrite <- Hlen at 2. apply bytes_of_write.
  - intros x Hx. rewrite lookup_write_bytes, Hlen. case_decide; [lia|done].
Qed.

(** Offsets outside the slice are outside every element's slice. *)
Lemma slice_other i j c l o : 0 <= c -> c + l <= width -> 0 <= o < width -> ~ (c <= o < c + l) ->
  ~ (addr i + c <= addr j + o < addr i + c + l).
Proof.
  unfold addr. intros Hc Hcl Ho Hn H. destruct (Z.lt_total i j) as [L|[->|L]]; [|lia|];
    [assert (width * (i + 1) <= width * j)|assert (width * (j + 1) <= width * i)]; nia.
Qed.

(** An array whose elements have been replaced up to offset [c]. *)
Definition replaced (m : mem) a a' (c : Z) : Prop :=
  forall j, 0 <= j < nel -> bytes_of m (addr j) c = take (Z.to_nat c) (a' j) /\
    bytes_of m (addr j + c) (width - c) = drop (Z.to_nat c) (a j).

Lemma replaced_slice m a a' c l j : replaced m a a' c -> 0 <= j < nel -> 0 <= c -> 0 <= l -> c + l <= width ->
  bytes_of m (addr j + c) l = take (Z.to_nat l) (drop (Z.to_nat c) (a j)).
Proof.
  intros H Hj Hc Hl Hcl. destruct (H j Hj) as [_ <-].
  replace (width - c) with (l + (width - c - l)) by lia. rewrite bytes_of_app by lia.
  rewrite take_app_length'; [done|]. pose proof (length_bytes_of m (addr j + c) l Hl). lia.
Qed.

Lemma replaced_step m m' a a' c l : replaced m a a' c -> 0 <= c -> 0 <= l -> c + l <= width ->
  (forall j, 0 <= j < nel -> bytes_of m' (addr j + c) l = take (Z.to_nat l) (drop (Z.to_nat c) (a' j))) ->
  (forall j o, 0 <= j < nel -> 0 <= o < width -> ~ (c <= o < c + l) -> m' !! (addr j + o) = m !! (addr j + o)) ->
  replaced m' a a' (c + l).
Proof.
  intros H Hc Hl Hcl Hs Ho j Hj. destruct (H j Hj) as [H1 H2].
  replace (Z.to_nat (c + l)) with (Z.to_nat c + Z.to_nat l)%nat by lia. split.
  - rewrite bytes_of_app, Hs by lia. rewrite <- take_take_drop. f_equal. rewrite <- H1.
    apply bytes_of_ext. intros x Hx. unfold rd. replace x with (addr j + (x - addr j)) by lia. rewrite Ho by lia. done.
  - rewrite <- drop_drop, <- H2. replace (width - c) with (l + (width - (c + l))) by lia.
    rewrite bytes_of_app by lia. rewrite drop_app_length' by
      (pose proof (length_bytes_of m (addr j + c) l Hl); lia). rewrite Z.add_assoc.
    apply bytes_of_ext. intros x Hx. unfold rd. replace x with (addr j + (x - addr j)) by lia. rewrite Ho by lia. done.
Qed.

(** [cycle]: the elements move up along the path, the first goes to the last
    position. *)
Lemma cycle_ok m0 m a r path :
  arr m0 m a -> Forall (fun j => 0 <= j < nel) (r :: path) -> NoDup (r :: path) ->
  Z.of_nat (length path) < 112 ->
  exists m', cycle width tmp m (addr <$> (r :: path)) = Some m' /\ arr m0 m' (fill a r path (a r)).
Proof.
  intros Ha Hin Hnd Hlen. pose proof Hin as Hr. apply Forall_cons_1 in Hr as [Hr _]. unfold cycle.
  rewrite length_fmap. cbn [length]. destruct path as [|q path].
  { exists m. split; [done|]. eapply arr_ext; [|exact Ha]. intros j Hj. cbn [fill].
    unfold upd. by destruct (Z.eqb_spec j r) as [->|]. }
  rewrite (proj2 (Z.ltb_ge _ 2)) by (simpl; lia). set (ps := q :: path) in *.
  unfold push. rewrite length_fmap, (proj2 (Z.ltb_lt _ AR_SIZE)) by (unfold AR_SIZE; simpl in *; lia).
  cbn [mbind option_bind]. set (a' := fill a r ps (a r)).
  destruct Ha as (Hsp & Hout & Hel).
  assert (Hlen_a : forall j, 0 <= j < nel -> length (a j) = Z.to_nat width).
  { intros j Hj. rewrite <- Hel by done. pose proof (length_bytes_of m (addr j) width ltac:(lia)). lia. }
  apply (iter_rule
    (fun '(w, ar, m') => exists c, 0 <= c <= width /\ w = width - c /\
       ar = ((fun j => addr j + c) <$> (r :: ps)) ++ [tmp] /\ space m' /\
       (forall x, outside x -> m' !! x = m0 !! x) /\ replaced m' a a' c)
    (fun '(w, _, _) => Z.to_nat w)); [| |lia].
  2: { exists 0. split; [lia|]. split; [lia|]. split; [f_equal; apply list_fmap_ext; intros; lia|].
       split; [done|]. split; [done|]. intros j Hj. split; [by rewrite bytes_of_nil|].
       rewrite Z.add_0_r, Z.sub_0_r. by apply Hel. }
  intros [[w ar] m'] (c & Hc & -> & -> & Hsp' & Hout' & Hrep).
  destruct (Z.eq_dec c width) as [->|Hne].
  { rewrite Z.sub_diag. cbn [nz Z.eqb negb]. split; [done|]. split; [done|]. intros j Hj.
    destruct (Hrep j Hj) as [-> _]. apply take_ge. unfold a'. apply Nat.eq_le_incl. apply (fill_all (fun v => length v = Z.to_nat width) a r ps (a r) nel); auto. apply (Forall_cons_1 _ _ _ Hin). }
  rewrite (proj2 (nz_true (width - c))) by lia.
  set (l := if 256 <? width - c then 256 else width - c).
  assert (Hl : 0 < l <= 256 /\ c + l <= width) by (unfold l; destruct (Z.ltb_spec 256 (width - c)); lia).
  clearbody l. destruct Hl as [Hl Hcl]. 
  assert (E0 : (((fun j => addr j + c) <$> (r :: ps)) ++ [tmp]) !! 0%nat = Some (addr r + c)) by done.
  rewrite E0. cbn [mbind option_bind]. clear E0.
  destruct (buffer_load m' r c l Hsp' Hr ltac:(lia) ltac:(lia) Hcl) as (m1 & -> & Hsp1 & Hb1 & Hs1).
  cbn [mbind option_bind].
  assert (Hsl : forall j, 0 <= j < nel -> bytes_of m1 (addr j + c) l = take (Z.to_nat l) (drop (Z.to_nat c) (a j))).
  { intros j Hj. rewrite <- (replaced_slice m' a a') by (done || lia). apply bytes_of_ext. intros x Hx. unfold rd.
    rewrite Hs1; [done|]. pose proof (slice_in j c l Hj ltac:(lia) Hcl). unfold disjoint_ranges in Htmp. lia. }
  destruct (cycle_moves_ok ps m1 (fun j => take (Z.to_nat l) (drop (Z.to_nat c) (a j))) r
    (take (Z.to_nat l) (drop (Z.to_nat c) (a r))) c l Hsp1 Hin Hnd ltac:(lia) Hl Hcl Hsl) as (m2 & -> & Hsp2 & Hb2 & Hs2).
  { rewrite Hb1. apply (replaced_slice m' a a'); (done || lia). }
  cbn [mbind option_bind]. split; [|lia]. exists (c + l). split; [lia|]. split; [lia|]. split; [done|].
  split; [done|]. split.
  - intros x Hx. rewrite Hs2, Hs1; [by apply Hout'|by destruct Hx|]. intros j Hj Hx2.
    pose proof (slice_in j c l Hj ltac:(lia) Hcl). destruct Hx; lia.
  - eapply replaced_step; [exact Hrep|lia|lia|lia| |].
    + intros j Hj. rewrite Hb2 by done. symmetry. by apply (fill_morph (fun v => take (Z.to_nat l) (drop (Z.to_nat c) v))).
    + intros j o Hj Ho Hno. rewrite Hs2, Hs1; [done| |].
      * pose proof (slice_in j 0 width Hj ltac:(lia) ltac:(lia)). unfold disjoint_ranges in Htmp. lia.
      * intros i Hi. apply slice_other; lia.
Qed.
End elements.

(** ** Sifting and trinkling *)

Lemma load_bytes_ok m p n : mapped m p n -> load_bytes m p n = Some (bytes_of m p n).
Proof.
  intros Hm. apply mapM_Some_2. unfold bytes_of. apply Forall2_fmap_r, Forall_Forall2_diag, list.Forall_forall.
  intros x Hx. apply elem_of_seqZ in Hx. unfold load8. apply (mapped_rd m p n); [done|lia].
Qed.

Section sorting.
Context (width base nel tmp : Z) (Hwidth : 0 < width) (Hnel : 0 <= nel).
Context (Htmp : disjoint_ranges base (width * nel) tmp 256).
Context (cmp : list Z -> list Z -> Z) `{!TotalCmp cmp}.
#[local] Abbreviation addr := (addr width base).
#[local] Abbreviation arr := (arr width base nel tmp).
Implicit Types (a b : Z -> list Z).

Lemma call_ok m0 m a i j : arr m0 m a -> 0 <= i < nel -> 0 <= j < nel ->
  call width cmp m (addr i) (addr j) = Some (cmp (a i) (a j)).
Proof.
  intros ((Hok & Hm & _) & _ & Hel) Hi Hj. unfold call.
  assert (Hmap : forall k, 0 <= k < nel -> mapped m (addr k) width).
  { intros k Hk. eapply mapped_sub; [exact Hm|unfold Sort.addr; nia..]. }
  rewrite !load_bytes_ok by auto. cbn [mbind option_bind]. by rewrite !Hel.
Qed.

(** The table of Leonardo numbers reaches order [K]; the orders in use fit the
    local arrays. *)
Definition lp_ok (lp : list Z) (K : nat) : Prop :=
  (K <= 60)%nat /\ forall k, (k <= K)%nat -> lp !! k = Some (width * L k).

Lemma lp_at lp K k i : lp_ok lp K -> (k <= K)%nat -> i = Z.of_nat k -> at_index lp i = Some (width * L k).
Proof.
  intros [_ H] Hk ->. unfold at_index. rewrite (proj2 (Z.ltb_ge _ _)) by lia. rewrite Nat2Z.id. by apply H.
Qed.

Lemma push_ok r pre q : (length (r :: pre) < 113)%nat ->
  push (addr r :: (addr <$> pre)) (addr q) = Some (addr r :: (addr <$> (pre ++ [q]))).
Proof.
  intros H. unfold push. simpl in H. rewrite (proj2 (Z.ltb_lt _ AR_SIZE)) by (unfold AR_SIZE; simpl; rewrite length_fmap; lia).
  by rewrite fmap_app.
Qed.

Lemma sift_turn_ok m0 m a lp K r pre q k :
  arr m0 m a -> lp_ok lp K -> (S (S k) <= K)%nat -> 0 <= r < nel -> 0 <= q < nel -> L (S (S k)) <= q + 1 ->
  (length (r :: pre) < 113)%nat ->
  sift_turn width cmp m lp (addr q, Z.of_nat (S (S k)), addr <$> (r :: pre)) =
    let lf := q - 1 - L k in let rt := q - 1 in
    Some (if (0 <=? cmp (a r) (a lf)) && (0 <=? cmp (a r) (a rt)) then Leave (addr <$> (r :: pre))
          else if 0 <=? cmp (a lf) (a rt) then Next (addr lf, Z.of_nat (S k), addr <$> (r :: pre ++ [lf]))
          else Next (addr rt, Z.of_nat k, addr <$> (r :: pre ++ [rt]))).
Proof.
  intros Ha Hlp Hk Hr Hq HL Hlen. rewrite L_step in HL. pose proof (L_pos k). pose proof (L_pos (S k)).
  unfold sift_turn. rewrite (proj2 (Z.ltb_lt 1 _)) by lia.
  rewrite (lp_at lp K k) by (done || lia). cbn [mbind option_bind]. cbn [fmap list_fmap lookup list_lookup].
  cbn [mbind option_bind].
  replace (addr q - width - width * L k) with (addr (q - 1 - L k)) by (unfold Sort.addr; lia).
  replace (addr q - width) with (addr (q - 1)) by (unfold Sort.addr; lia).
  rewrite !(call_ok m0 m a) by (done || lia). cbn [mbind option_bind].
  replace (Z.of_nat (S (S k)) - 1) with (Z.of_nat (S k)) by lia.
  replace (Z.of_nat (S (S k)) - 2) with (Z.of_nat k) by lia.
  cbn zeta. rewrite !push_ok by done.
  destruct (0 <=? cmp (a r) (a (q - 1 - L k))); cbn [mbind option_bind andb];
    [destruct (0 <=? cmp (a r) (a (q - 1))); [done|]|];
    by destruct (0 <=? cmp (a (q - 1 - L k)) (a (q - 1))).
Qed.

(** A loop that counts its turns down. *)
Lemma iter_count {S R} (I : nat -> S -> Prop) (Q : R -> Prop) (body : S -> option (turn S R)) :
  (forall n s, I (Datatypes.S n) s -> exists s', body s = Some (Next s') /\ I n s') ->
  (forall s, I O s -> exists r, body s = Some (Leave r) /\ Q r) ->
  forall n fuel s, I n s -> (n < fuel)%nat -> exists r, iter fuel body s = Some r /\ Q r.
Proof.
  intros Hnext Hend n. induction n as [|n IH]; intros fuel s Hs Hf; (destruct fuel as [|fuel]; [lia|]).
  - destruct (Hend s Hs) as (r & E & Hr). exists r. split; [by apply iter_leave|done].
  - destruct (Hnext n s Hs) as (s' & E & Hs'). rewrite (iter_next _ _ _ _ E). apply IH; [done|lia].
Qed.

Lemma sift_loop_ok m0 m a lp K r k : arr m0 m a -> lp_ok lp K -> (k <= K)%nat -> 0 <= r < nel ->
  forall fuel q pre, (k < fuel)%nat -> 0 <= q < nel -> L k <= q + 1 -> (length pre + k <= 110)%nat ->
  iter fuel (sift_turn width cmp m lp) (addr q, Z.of_nat k, addr <$> (r :: pre)) =
    Some (addr <$> (r :: pre ++ sift_path cmp k q (a r) a)).
Proof.
  intros Ha Hlp Hk Hr. revert Hk. induction k as [| |k IH1 IH2] using order_ind; intros Hk fuel q pre Hf Hq HL Hlen;
    (destruct fuel as [|fuel]; [lia|]).
  1, 2: change (sift_path cmp _ q (a r) a) with (@nil Z); rewrite app_nil_r; by apply iter_leave.
  pose proof HL as HL'. rewrite L_step in HL'. pose proof (L_pos k). pose proof (L_pos (S k)).
  assert (E := sift_turn_ok m0 m a lp K r pre q k Ha Hlp Hk Hr Hq HL ltac:(simpl; lia)). cbn zeta in E.
  rewrite sift_path_step. destruct (_ && _); [rewrite app_nil_r; by apply iter_leave|].
  destruct (0 <=? cmp (a (q - 1 - L k)) (a (q - 1))).
  - rewrite (iter_next _ _ _ _ E), IH2 by (lia || (rewrite length_app; simpl; lia)). by rewrite <- app_assoc.
  - rewrite (iter_next _ _ _ _ E), IH1 by (lia || (rewrite length_app; simpl; lia)). by rewrite <- app_assoc.
Qed.

(** [sift] does to the memory what [sift_path] says of the elements. *)
Lemma sift_ok m0 m a lp K r k : arr m0 m a -> lp_ok lp K -> (k <= K)%nat -> 0 <= r < nel -> L k <= r + 1 ->
  exists m', sift width cmp tmp m (addr r) (Z.of_nat k) lp = Some m' /\
    arr m0 m' (fill a r (sift_path cmp k r (a r) a) (a r)).
Proof.
  intros Ha Hlp Hk Hr HL. pose proof Hlp as [HK _]. unfold sift. rewrite Nat2Z.id.
  change [addr r] with (addr <$> [r]).
  rewrite (sift_loop_ok m0 m a lp K r k) by (done || simpl; lia). cbn [mbind option_bind app].
  destruct (sift_path_range cmp k r (a r) a) as [Hnd Hin].
  apply (cycle_ok width base nel tmp Hwidth Hnel Htmp m0 m a); [done| |done|].
  - constructor; [done|]. eapply Forall_impl; [|exact Hin]. cbn beta. intros q Hq. lia.
  - pose proof (sift_path_length cmp k r (a r) a). lia.
Qed.

(** The forest at the last root [q]: its orders fit the table and their trees the
    array. *)
Definition fits (K : nat) (ts : list nat) (q : Z) : Prop :=
  increasing ts /\ Forall (fun k => (k <= K)%nat) ts /\ extent ts = q + 1 /\ 0 <= q < nel.

Lemma fits_bits K k ts q : fits K (k :: ts) q -> (K <= 60)%nat -> bits (k :: ts) < 2 ^ 62.
Proof.
  intros (Hi & HK & _) H60. eapply Z.lt_le_trans; [by apply (bits_bound k ts K)|].
  apply Z.pow_le_mono_r; lia.
Qed.

Lemma fits_tail K k k' ts q : fits K (k :: k' :: ts) q -> fits K (k' :: ts) (q - L k).
Proof.
  intros ([_ Hi] & HK & He & Hq). apply Forall_cons_1 in HK as [_ HK]. simpl in He.
  pose proof (L_pos k). pose proof (L_pos k'). pose proof (extent_nonneg ts).
  split; [done|]. split; [done|]. split; [simpl; lia|lia].
Qed.

Lemma trinkle_turn_last m lp h k p trusty ar : p = (bits [k], 0) ->
  trinkle_turn width cmp m lp (h, p, Z.of_nat k, trusty, ar) = Some (Leave (h, Z.of_nat k, trusty, ar)).
Proof. by intros ->. Qed.

Lemma trinkle_turn_ok m0 m a lp K r pre q k k' ts trusty :
  arr m0 m a -> lp_ok lp K -> fits K (k :: k' :: ts) q -> 0 <= r < nel -> (length (r :: pre) < 113)%nat ->
  trinkle_turn width cmp m lp (addr q, (bits (k :: k' :: ts), 0), Z.of_nat k, trusty, addr <$> (r :: pre)) =
    Some (if stops cmp trusty k q (q - L k) (a r) a
          then Leave (addr q, Z.of_nat k, trusty, addr <$> (r :: pre))
          else Next (addr (q - L k), (bits (k' :: ts), 0), Z.of_nat k', false, addr <$> (r :: pre ++ [q - L k]))).
Proof.
  intros Ha Hlp Hfit Hr Hlen. pose proof Hlp as [H60 _]. pose proof (fits_bits _ _ _ _ Hfit H60) as Hb.
  pose proof (fits_tail _ _ _ _ _ Hfit) as (_ & _ & _ & Hs). destruct Hfit as (Hi & HK & He & Hq).
  apply Forall_cons_1 in HK as [Hk HK]. apply Forall_cons_1 in HK as [Hk' _]. pose proof Hi as [Hlt _].
  pose proof (L_pos k). pose proof (L_pos k').
  unfold trinkle_turn. cbn [fst snd]. rewrite bits_one by done. cbn [andb negb].
  rewrite (lp_at lp K k (Z.of_nat k)) by (done || lia). cbn [mbind option_bind fmap list_fmap lookup list_lookup].
  replace (addr q - width * L k) with (addr (q - L k)) by (unfold Sort.addr; lia).
  rewrite (call_ok m0 m a) by (done || lia). cbn [mbind option_bind]. unfold stops.
  destruct (cmp (a (q - L k)) (a r) <=? 0); [done|]. cbn [orb].
  assert (Hrest : (ar ← push (addr r :: (addr <$> pre)) (addr (q - L k));
      trail ← pntz (bits (k :: k' :: ts), 0); p ← shr (bits (k :: k' :: ts), 0) trail;
      Some (Next (R := Z * Z * bool * list Z) (addr (q - L k), p, Z.of_nat k + trail, false, ar))) =
    Some (Next (addr (q - L k), (bits (k' :: ts), 0), Z.of_nat k', false, addr r :: (addr <$> (pre ++ [q - L k]))))).
  { rewrite push_ok by done. cbn [mbind option_bind]. rewrite pntz_ok by (done || lia). cbn [mbind option_bind].
    rewrite shr_bits by (done || lia). cbn [mbind option_bind].
    by replace (Z.of_nat k + Z.of_nat (k' - k)) with (Z.of_nat k') by lia. }
  destruct (negb trusty && (1 <? Z.of_nat k)) eqn:Et; cbn [mbind option_bind andb]; [|exact Hrest].
  apply andb_true_iff in Et as [_ Et]. apply Z.ltb_lt in Et. destruct k as [|[|k]]; [lia|lia|].
  replace (S (S k) - 2)%nat with k by lia. rewrite (lp_at lp K k) by (done || lia). cbn [mbind option_bind].
  simpl in He. rewrite L_step in He. pose proof (L_pos k). pose proof (L_pos (S k)). pose proof (extent_nonneg ts).
  replace (addr q - width - width * L k) with (addr (q - 1 - L k)) by (unfold Sort.addr; lia).
  replace (addr q - width) with (addr (q - 1)) by (unfold Sort.addr; lia).
  rewrite !(call_ok m0 m a) by (done || lia). cbn [mbind option_bind].
  destruct (0 <=? cmp (a (q - 1)) (a (q - L (S (S k))))); cbn [mbind option_bind orb]; [done|].
  destruct (0 <=? cmp (a (q - 1 - L k)) (a (q - L (S (S k))))); [done|exact Hrest].
Qed.

Lemma trinkle_loop_ok m0 m a lp K r ts : arr m0 m a -> lp_ok lp K -> 0 <= r < nel ->
  forall fuel k q trusty pre, (length ts < fuel)%nat -> fits K (k :: ts) q -> (length pre + length ts <= 110)%nat ->
  iter fuel (trinkle_turn width cmp m lp) (addr q, (bits (k :: ts), 0), Z.of_nat k, trusty, addr <$> (r :: pre)) =
    let '(path, kf, rf, tf) := tr_path cmp ts trusty k q (a r) a in
    Some (addr rf, Z.of_nat kf, tf, addr <$> (r :: pre ++ path)).
Proof.
  intros Ha Hlp Hr. induction ts as [|k' ts IH]; intros fuel k q trusty pre Hf Hfit Hlen;
    (destruct fuel as [|fuel]; [lia|]).
  { cbn [tr_path]. rewrite app_nil_r. apply iter_leave. by apply trinkle_turn_last. }
  simpl in Hf, Hlen.
  assert (E := trinkle_turn_ok m0 m a lp K r pre q k k' ts trusty Ha Hlp Hfit Hr ltac:(simpl; lia)).
  cbn [tr_path]. unfold stops in E. destruct (cmp (a (q - L k)) (a r) <=? 0);
    [rewrite app_nil_r; by apply iter_leave|]. cbn [orb] in E.
  destruct (_ && _ && _); [rewrite app_nil_r; by apply iter_leave|].
  rewrite (iter_next _ _ _ _ E), IH by (lia || (by eapply fits_tail) || (rewrite length_app; simpl; lia)).
  destruct (tr_path cmp ts false k' (q - L k) (a r) a) as [[[path kf] rf] tf]. by rewrite <- app_assoc.
Qed.

Lemma increasing_length k ts K : increasing (k :: ts) -> Forall (fun k => (k <= K)%nat) (k :: ts) ->
  (length ts + k <= K)%nat.
Proof.
  revert k. induction ts as [|k' ts IH]; intros k Hi HK; apply Forall_cons_1 in HK as [H1 HK]; [simpl; lia|].
  destruct Hi as [Hk Hi]. specialize (IH k' Hi HK). simpl. lia.
Qed.

(** [trinkle] does to the memory what [trinkled] says of the elements. *)
Lemma trinkle_ok m0 m a lp K r k ts trusty p h : arr m0 m a -> lp_ok lp K -> fits K (k :: ts) r ->
  p = (bits (k :: ts), 0) -> h = addr r ->
  exists m', trinkle width cmp tmp m h p (Z.of_nat k) trusty lp = Some m' /\
    arr m0 m' (trinkled cmp ts trusty k r (a r) a).
Proof.
  intros Ha Hlp Hfit -> ->. pose proof Hlp as [H60 Hlen]. pose proof Hfit as (Hi & HK & He & Hr).
  pose proof (increasing_length k ts K Hi HK) as Hts.
  pose proof (lookup_lt_Some _ _ _ (Hlen K ltac:(lia))) as Hlplen.
  unfold trinkle. change [addr r] with (addr <$> (r :: [])).
  rewrite (trinkle_loop_ok m0 m a lp K r ts) by (done || simpl; lia). unfold trinkled.
  destruct (tr_path cmp ts trusty k r (a r) a) as [[[path kf] rf] tf] eqn:E. cbn [mbind option_bind app].
  destruct (tr_path_range _ _ _ _ _ _ _ _ _ _ _ E) as (Hnd & Hin & Hrf & Hext & Hle & Hkf & Hpl).
  rewrite list.Forall_forall in HK. pose proof (HK kf Hkf) as HkfK. pose proof (L_pos kf).
  destruct tf; cbn [negb].
  { exists m. split; [done|]. eapply arr_ext; [|exact Ha]. intros j Hj. unfold upd. by destruct (Z.eqb_spec j r) as [->|]. }
  destruct (cycle_ok width base nel tmp Hwidth Hnel Htmp m0 m a r path Ha) as (m1 & -> & Ha1); [|done|lia|].
  { constructor; [done|]. eapply Forall_impl; [|exact Hin]. cbn beta. intros q Hq. lia. }
  cbn [mbind option_bind]. set (a1 := fill a r path (a r)) in *.
  destruct (sift_ok m0 m1 a1 lp K rf kf Ha1 Hlp HkfK ltac:(lia) ltac:(lia)) as (m2 & -> & Ha2).
  exists m2. split; [done|]. assert (Ex : a1 rf = a r) by by apply fill_last. by rewrite <- Ex at 1 2.
Qed.
End sorting.
