(* ===== verification/Smoothsort.v ===== *)
(** * Smoothsort sorts

    The two phases of [qsort] on the abstract arrays of [Leonardo]: building a
    forest of heaps, of which the trees that will not grow any more have
    increasing roots, and taking the greatest element off the forest one by one. *)
From stdpp Require Import sorting.
From S2P Require Import Prelude Mem Cmp Leonardo Sort.

(** ** Arithmetic of the forest's bit vector *)

Lemma bits_low2 k k' ts : increasing (k :: k' :: ts) ->
  (Z.land (bits (k :: k' :: ts)) 3 =? 3) = (k' =? S k)%nat.
Proof.
  intros [Hk Hi]. destruct (bits_pos k' ts Hi) as [_ Hodd]. change 3 with (Z.ones 2).
  rewrite Z.land_ones, bits_cons by lia. change (Z.ones 2) with 3. change (2 ^ 2) with 4.
  destruct (Nat.eqb_spec k' (S k)) as [->|Hne].
  - replace (S k - k)%nat with 1%nat by lia. change (2 ^ Z.of_nat 1) with 2. apply Z.eqb_eq. divmod.
  - replace (Z.of_nat (k' - k)) with (2 + Z.of_nat (k' - k - 2)) by lia. rewrite Z.pow_add_r, <- Z.mul_assoc by lia.
    generalize (2 ^ Z.of_nat (k' - k - 2) * bits (k' :: ts)). intros z. change (2 ^ 2) with 4. apply Z.eqb_neq. divmod.
Qed.

Lemma lor_even_1 x : Z.lor (2 * x) 1 = 1 + 2 * x.
Proof. rewrite Z.lor_comm. change 2 with (2 ^ 1). rewrite lor_disjoint_add by lia. done. Qed.

(** Two trees and the next element become one tree. *)
Lemma bits_merge k ts : increasing (k :: S k :: ts) -> match ts with [] => True | k' :: _ => (S k + 2 <= k')%nat end ->
  Z.lor (bits (k :: S k :: ts) / 2 ^ 2) 1 = bits (S (S k) :: ts).
Proof.
  intros [_ Hi] Hgap. rewrite bits_cons. replace (S k - k)%nat with 1%nat by lia. change (2 ^ Z.of_nat 1) with 2.
  change (2 ^ 2) with 4. destruct ts as [|k' ts]; [done|]. rewrite !bits_cons.
  replace (Z.of_nat (k' - S k)) with (2 + Z.of_nat (k' - S k - 2)) by lia.
  replace (Z.of_nat (k' - S (S k))) with (1 + Z.of_nat (k' - S k - 2)) by lia.
  rewrite !Z.pow_add_r, <- !Z.mul_assoc by lia. generalize (2 ^ Z.of_nat (k' - S k - 2) * bits (k' :: ts)). intros z.
  change (2 ^ 2) with 4. change (2 ^ 1) with 2. rewrite <- (lor_even_1 z). f_equal. divmod.
Qed.

(** A new tree of a smaller order. *)
Lemma bits_push j k ts : (j < k)%nat -> Z.lor (bits (k :: ts) * 2 ^ Z.of_nat (k - j)) 1 = bits (j :: k :: ts).
Proof.
  intros Hj. rewrite bits_cons. replace (Z.of_nat (k - j)) with (1 + Z.of_nat (k - j - 1)) by lia.
  rewrite Z.pow_add_r by lia. change (2 ^ 1) with 2. rewrite <- Z.mul_assoc, <- lor_even_1. f_equal. lia.
Qed.

(** Splitting the last tree: first the left subtree takes its place. *)
Lemma bits_split k ts : increasing (S (S k) :: ts) ->
  Z.lxor (bits (S (S k) :: ts) * 2 ^ 2) 7 / 2 ^ 1 = bits (S k :: ts).
Proof.
  intros Hi. destruct (bits_pos _ _ Hi) as [_ Hodd].
  assert (E : Z.lxor (bits (S (S k) :: ts) * 2 ^ 2) 7 = bits (S (S k) :: ts) * 4 - 1).
  { pose proof (Z.div_mod (bits (S (S k) :: ts)) 2 ltac:(lia)) as Eb. rewrite Hodd in Eb.
    set (y := bits (S (S k) :: ts) / 2) in *. rewrite Eb.
    replace ((2 * y + 1) * 2 ^ 2) with (4 + 2 ^ 3 * y) by lia. replace 7 with (7 + 2 ^ 3 * 0) by lia.
    rewrite lxor_split by lia. rewrite Z.lxor_0_r. change (Z.lxor 4 7) with 3. lia. }
  rewrite E. destruct ts as [|k' ts]; [done|]. destruct Hi as [Hk _]. rewrite !bits_cons.
  replace (Z.of_nat (k' - S k)) with (1 + Z.of_nat (k' - S (S k))) by lia. rewrite Z.pow_add_r by lia.
  generalize (2 ^ Z.of_nat (k' - S (S k))). intros z. rewrite <- Z.mul_assoc. generalize (z * bits (k' :: ts)).
  intros w. change (2 ^ 1) with 2. divmod.
Qed.

(** ** The table of Leonardo numbers *)

Fixpoint L_fast (n : nat) (x y : Z) : Z := match n with O => x | S n' => L_fast n' y (x + y + 1) end.

Lemma L_fast_ok n : L_fast n 1 1 = L n.
Proof.
  enough (H : forall k, L_fast n (L k) (L (S k)) = L (n + k)) by (specialize (H 0%nat); by rewrite Nat.add_0_r in H).
  induction n as [|n IH]; intros k; [done|]. cbn [L_fast].
  replace (L k + L (S k) + 1) with (L (S (S k))) by (rewrite L_step; lia). rewrite IH. f_equal. lia.
Qed.

Lemma L_57 : 2 ^ 40 < L 57.
Proof. rewrite <- L_fast_ok. reflexivity. Qed.

Section smoothsort.
Context (width base nel tmp : Z) (Hwidth : 0 < width) (Hnel : 0 < nel <= 2 ^ 40) (Hsize : width * nel < 2 ^ 62).

Lemma leonardo_ok : exists lp K, leonardo width (width * nel) = Some lp /\ lp_ok width lp K /\
  forall k, L k <= nel -> (k <= K)%nat.
Proof.
  unfold leonardo.
  destruct (iter_rule (S := list Z) (R := list Z)
    (fun lp => (2 <= length lp <= 57)%nat /\ forall k, (k < length lp)%nat -> lp !! k = Some (width * L k) /\ ((2 <= k)%nat -> L k < nel))
    (fun lp => (58 - length lp)%nat)
    (fun lp => exists K, lp_ok width lp K /\ forall k, L k <= nel -> (k <= K)%nat)
    (fun lp => let i := length lp in
      if Z.of_nat i <? LP_SIZE then
        x ← lp !! (i - 2)%nat; y ← lp !! (i - 1)%nat;
        let v := u64 (x + y + width) in
        if v <? width * nel then Some (Next (lp ++ [v])) else Some (Leave (lp ++ [v]))
      else None)) with (fuel := Z.to_nat LP_SIZE) (s := [width; width]) as (lp & E & K & HK).
  - intros lp [Hlen Hlp]. cbn zeta. rewrite (proj2 (Z.ltb_lt _ LP_SIZE)) by (unfold LP_SIZE; lia).
    destruct (Hlp (length lp - 2)%nat ltac:(lia)) as [-> H2]. destruct (Hlp (length lp - 1)%nat ltac:(lia)) as [-> H1].
    cbn [mbind option_bind].
    assert (Ev : width * L (length lp - 2) + width * L (length lp - 1) + width = width * L (length lp)).
    { replace (length lp) with (S (S (length lp - 2))) at 3 by lia. rewrite L_step.
      replace (S (length lp - 2)) with (length lp - 1)%nat by lia. lia. }
    rewrite Ev.
    assert (Hsmall : forall k, (k < length lp)%nat -> width * L k <= width * nel).
    { intros k Hk. destruct (Hlp k Hk) as [_ Hn]. destruct k as [|[|k]]; [unfold L; nia..|]. specialize (Hn ltac:(lia)). nia. }
    pose proof (Hsmall (length lp - 2)%nat ltac:(lia)). pose proof (Hsmall (length lp - 1)%nat ltac:(lia)).
    pose proof (L_pos (length lp)).
    assert (width <= width * nel) by nia.
    rewrite wrap_small by nia.
    assert (Happ : forall k, (k < length lp)%nat -> (lp ++ [width * L (length lp)]) !! k = Some (width * L k)).
    { intros k Hk. rewrite lookup_app_l by done. by apply Hlp. }
    assert (Happ2 : (lp ++ [width * L (length lp)]) !! length lp = Some (width * L (length lp))).
    { by rewrite lookup_app_r, Nat.sub_diag by lia. }
    destruct (Z.ltb_spec (width * L (length lp)) (width * nel)) as [Hlt|Hge].
    + assert (Hln : L (length lp) < nel) by nia. assert (length lp <> 57)%nat.
      { intros E. rewrite E in Hln. pose proof L_57. lia. }
      rewrite length_app. simpl. split; [|lia]. split; [lia|]. intros k Hk.
      destruct (decide (k = length lp)) as [->|Hne]; [done|]. split; [apply Happ; lia|]. apply Hlp. lia.
    + exists (length lp). split.
      * split; [lia|]. intros k Hk. destruct (decide (k = length lp)) as [->|Hne]; [done|apply Happ; lia].
      * intros k Hk. apply Nat.nlt_ge. intros Hlt. pose proof (L_strict (length lp) k ltac:(lia)). nia.
  - split; [simpl; lia|]. intros [|[|k]] Hk; simpl in Hk; [|..|lia]; (split; [unfold L; simpl; f_equal; lia|lia]).
  - simpl. unfold LP_SIZE. lia.
  - by exists lp, K.
Qed.
End smoothsort.

(** ** The invariants *)

Section forests.
Context {V : Type} (cmp : V -> V -> Z) `{!TotalCmp cmp} (nel : Z).
Implicit Types (a b : Z -> V).
#[local] Abbreviation le := (cmp_le cmp).

(** The orders in the building phase: only the last two trees can be neighbours,
    order 0 comes after order 1 only, and the first tree has more than order 0. *)
Fixpoint spaced (ts : list nat) : Prop :=
  match ts with
  | k :: ((k' :: _) as ts') => (k + 2 <= k')%nat /\ spaced ts'
  | [k] => (1 <= k)%nat
  | [] => True
  end.

Definition shape (ts : list nat) : Prop :=
  match ts with
  | k :: ((k' :: _) as ts') => (k < k')%nat /\ (k = 0%nat -> k' = 1%nat) /\ spaced ts'
  | [k] => (1 <= k)%nat
  | [] => False
  end.

Lemma spaced_increasing ts : spaced ts -> increasing ts.
Proof.
  induction ts as [|k [|k' ts] IH]; [done|done|]. intros [Hk Hs]. split; [lia|by apply IH].
Qed.

Lemma shape_increasing ts : shape ts -> increasing ts.
Proof. destruct ts as [|k [|k' ts]]; [done|done|]. intros (Hk & _ & Hs). split; [done|by apply spaced_increasing]. Qed.

(** The trees left of the pending one: heaps, and a tree that is final (too few
    elements follow for it to be merged) has increasing roots up to it. *)
Fixpoint built (ts : list nat) (s : Z) a : Prop :=
  match ts with
  | [] => True
  | k :: ts' => heap cmp k s a /\ (nel - 1 - s <= L (k - 1) -> forest cmp (k :: ts') s a) /\ built ts' (s - L k) a
  end.

Lemma built_ext ts s a b : (forall i, i <= s -> a i = b i) -> built ts s a -> built ts s b.
Proof.
  revert s. induction ts as [|k ts IH]; intros s Hab; [done|]. simpl. pose proof (L_pos k). intros (H1 & H2 & H3).
  split; [eapply heap_ext; [|exact H1]; intros; apply Hab; lia|].
  split; [|apply IH; [intros; apply Hab; lia|done]].
  intros Hf. eapply (forest_ext cmp (k :: ts)); [|by apply H2]. intros; apply Hab; lia.
Qed.

Lemma built_forest ts s a : forest cmp ts s a -> built ts s a.
Proof.
  revert s. induction ts as [|k ts IH]; intros s; [done|]. intros Hf. pose proof Hf as (H1 & H2 & _).
  split; [done|]. split; [done|by apply IH].
Qed.

Lemma heap_subs k r a : heap cmp k r a -> subs cmp k r a.
Proof. intros H. by apply heap_split in H as [H _]. Qed.

(** The last root is the greatest element of the forest. *)
Lemma forest_max ts s a : forest cmp ts s a -> forall i, s - extent ts < i <= s -> le (a i) (a s).
Proof.
  revert s. induction ts as [|k ts IH]; intros s Hf i Hi; [simpl in Hi; lia|].
  simpl in Hf, Hi. destruct Hf as (Hh & Hf & Hord). pose proof (L_pos k).
  destruct (Z.le_gt_cases i (s - L k)); [|apply (heap_max cmp k s a Hh); lia].
  specialize (IH _ Hf i ltac:(lia)). destruct ts as [|k' ts]; [simpl in Hi; lia|]. by etransitivity.
Qed.
End forests.

(** ** Building *)

Section qsort_proof.
Context (width base nel tmp : Z) (Hwidth : 0 < width) (Hnel : 0 < nel <= 2 ^ 40) (Hsize : width * nel < 2 ^ 62).
Context (Htmp : disjoint_ranges base (width * nel) tmp 256).
Context (cmp : list Z -> list Z -> Z) `{!TotalCmp cmp}.
Context (m0 : mem) (a0 : Z -> list Z) (lp : list Z) (K : nat) (Hlp : lp_ok width lp K).
Context (HK : forall k, L k <= nel -> (k <= K)%nat).
#[local] Abbreviation addr := (addr width base).
#[local] Abbreviation arr := (arr width base nel tmp m0).
#[local] Abbreviation le := (cmp_le cmp).
Implicit Types (a b : Z -> list Z).

Definition building (q : Z) (st : Z * (Z * Z) * Z * mem) : Prop :=
  exists k ts m a, st = (addr q, (bits (k :: ts), 0), Z.of_nat k, m) /\ arr m a /\
    elems a nel ≡ₚ elems a0 nel /\ fits nel K (k :: ts) q /\ shape (k :: ts) /\
    subs cmp k q a /\ built cmp nel ts (q - L k) a.

Lemma addr_step q : addr q + width = addr (q + 1).
Proof. unfold Sort.addr. lia. Qed.

Lemma nel_nonneg : 0 <= nel.
Proof. lia. Qed.

(** The last two trees and the next element make a tree of the next order. *)
Lemma merge_step k ts q m a : arr m a -> elems a nel ≡ₚ elems a0 nel -> fits nel K (k :: S k :: ts) q ->
  shape (k :: S k :: ts) -> subs cmp k q a -> built cmp nel (S k :: ts) (q - L k) a -> q < nel - 1 ->
  exists m', sift width cmp tmp m (addr q) (Z.of_nat k) lp = Some m' /\
    building (q + 1) (addr (q + 1), (bits (S (S k) :: ts), 0), Z.of_nat k + 2, m').
Proof.
  intros Ha Hperm (Hi & HKs & He & Hq) (_ & _ & Hsp) Hsub Hb Hlt. simpl in He.
  pose proof (extent_nonneg ts) as Hext. pose proof (L_pos k). pose proof (L_pos (S k)).
  apply Forall_cons_1 in HKs as [Hk HKs]. apply Forall_cons_1 in HKs as [_ HKs].
  destruct (sift_ok width base nel tmp Hwidth nel_nonneg Htmp cmp m0 m a lp K q k Ha Hlp Hk Hq ltac:(lia)) as (m' & -> & Ha').
  destruct (sift_fill cmp k q (a q) a Hsub) as (Hh & Hsame & _).
  pose proof (sift_perm cmp k q a nel Hq ltac:(lia)) as Hp.
  set (a' := fill a q (sift_path cmp k q (a q) a) (a q)) in *.
  exists m'. split; [done|]. exists (S (S k)), ts, m', a'.
  split; [do 2 f_equal; lia|]. split; [done|]. split; [by rewrite Hp|].
  simpl in Hb. destruct Hb as (Hh1 & _ & Hb).
  assert (Hgap : match ts with [] => True | k' :: _ => (S k + 2 <= k')%nat end) by (destruct ts; [done|apply Hsp]).
  split; [|split; [|split]].
  - split; [|split; [|split; [simpl; rewrite L_step; lia|lia]]].
    + destruct ts as [|k' ts]; [done|]. split; [lia|]. by destruct Hi as [_ [_ Hi]].
    + constructor; [|done]. apply HK. rewrite L_step. lia.
  - destruct ts as [|k' ts]; [simpl; lia|]. destruct Hsp as [_ Hsp]. split; [lia|split; [lia|done]].
  - rewrite subs_step. replace (q + 1 - 1 - L k) with (q - L k) by lia. replace (q + 1 - 1) with q by lia.
    split; [|done]. eapply heap_ext; [|exact Hh1]. intros i Hi2. rewrite Hsame; [done|lia].
  - rewrite L_step. replace (q + 1 - (L (S k) + L k + 1)) with (q - L k - L (S k)) by lia.
    eapply built_ext; [|exact Hb]. intros i Hi2. rewrite Hsame; [done|lia].
Qed.

(** A final tree is trinkled, another one sifted; either way it is built. *)
Lemma settle_step k ts q m a : arr m a -> elems a nel ≡ₚ elems a0 nel -> fits nel K (k :: ts) q ->
  spaced (k :: ts) -> subs cmp k q a -> built cmp nel ts (q - L k) a -> (1 <= k)%nat ->
  exists m' a', (if addr (nel - 1) - addr q <=? width * L (k - 1)
      then trinkle width cmp tmp m (addr q) (bits (k :: ts), 0) (Z.of_nat k) false lp
      else sift width cmp tmp m (addr q) (Z.of_nat k) lp) = Some m' /\
    arr m' a' /\ elems a' nel ≡ₚ elems a0 nel /\ built cmp nel (k :: ts) q a'.
Proof.
  intros Ha Hperm Hfit Hsp Hsub Hb Hk1. pose proof Hfit as (Hi & HKs & He & Hq). simpl in He.
  pose proof (extent_nonneg ts) as Hext. pose proof (L_pos k). apply Forall_cons_1 in HKs as [Hk HKs].
  replace (addr (nel - 1) - addr q) with (width * (nel - 1 - q)) by (unfold Sort.addr; lia).
  destruct (Z.leb_spec (width * (nel - 1 - q)) (width * L (k - 1))) as [Hfin|Hnot].
  - destruct (trinkle_ok width base nel tmp Hwidth nel_nonneg Htmp cmp m0 m a lp K q k ts false (bits (k :: ts), 0) (addr q)
      Ha Hlp Hfit eq_refl eq_refl) as (m' & -> & Ha').
    eexists m', _. split; [done|]. split; [done|].
    split; [etransitivity; [apply (trinkled_perm cmp); [done|simpl; lia]|done]|].
    apply built_forest. refine (proj1 (trinkled_ok cmp ts false k q (a q) a _ Hsub _)); [|done].
    destruct ts as [|k' ts]; [done|]. destruct Hsp as [Hgap _]. destruct Hb as (_ & Hf & _). apply Hf.
    assert (nel - 1 - q <= L (k - 1)) by nia. pose proof (L_mono (S k) (k' - 1) ltac:(lia)).
    replace (S k) with (S (S (k - 1))) in H1 by lia. rewrite L_step in H1.
    replace (S (k - 1)) with k in H1 by lia. lia.
  - destruct (sift_ok width base nel tmp Hwidth nel_nonneg Htmp cmp m0 m a lp K q k Ha Hlp Hk Hq ltac:(lia)) as (m' & -> & Ha').
    destruct (sift_fill cmp k q (a q) a Hsub) as (Hh & Hsame & _).
    eexists m', _. split; [done|]. split; [exact Ha'|]. split; [etransitivity; [apply (sift_perm cmp); lia|done]|].
    split; [done|]. split; [intros Hfin; nia|].
    eapply built_ext; [|exact Hb]. intros i Hi2. rewrite Hsame; [done|lia].
Qed.

Lemma push_fits j k ts q : fits nel K (k :: ts) q -> q < nel - 1 -> (j < k)%nat -> L j = 1 ->
  fits nel K (j :: k :: ts) (q + 1).
Proof.
  intros (Hi & HKs & He & Hq) Hlt Hj HL. split; [done|]. split; [constructor; [apply HK; lia|done]|].
  split; [|lia]. simpl in *. lia.
Qed.

Lemma building_step q st : building q st -> q < nel - 1 ->
  exists st', build_turn width cmp tmp (addr (nel - 1)) lp st = Some (Next st') /\ building (q + 1) st'.
Proof.
  intros (k & ts & m & a & -> & Ha & Hperm & Hfit & Hsh & Hsub & Hb) Hlt. pose proof Hlp as [H60 _].
  pose proof Hfit as (Hi & HKs & He & Hq). pose proof (fits_bits nel K k ts q Hfit H60) as Hbits.
  destruct (bits_pos k ts Hi) as [Hbp _]. apply Forall_cons_1 in HKs as [Hk HKs].
  unfold build_turn. rewrite (proj2 (Z.ltb_lt _ _)) by (unfold Sort.addr; nia). cbn [fst snd].
  destruct (Z.land (bits (k :: ts)) 3 =? 3) eqn:E3.
  - destruct ts as [|k' ts]; [done|]. rewrite bits_low2 in E3 by done. apply Nat.eqb_eq in E3 as ->.
    destruct (merge_step k ts q m a Ha Hperm Hfit Hsh Hsub Hb Hlt) as (m' & -> & Hbuild).
    cbn [mbind option_bind]. rewrite shr_ok by lia. cbn [mbind option_bind fst snd].
    rewrite bits_merge, addr_step; [eexists; split; [done|exact Hbuild]|done|]. destruct Hsh as (_ & _ & Hsp). destruct ts; [done|apply Hsp].
  - assert (Hk1 : (1 <= k)%nat /\ spaced (k :: ts)).
    { destruct ts as [|k' ts]; [by split|]. rewrite bits_low2 in E3 by done. apply Nat.eqb_neq in E3.
      destruct Hsh as (H1 & H2 & H3). split; [destruct k; [by rewrite H2 in E3|lia]|]. split; [lia|done]. }
    destruct Hk1 as [Hk1 Hsp].
    rewrite (lp_at width lp K (k - 1) (Z.of_nat k - 1)) by (done || lia). cbn [mbind option_bind].
    destruct (settle_step k ts q m a Ha Hperm Hfit Hsp Hsub Hb Hk1) as (m' & a' & -> & Ha' & Hperm' & Hb').
    cbn [mbind option_bind].
    assert (Hbl : bits (k :: ts) * 2 ^ Z.of_nat (k - 1) < 2 ^ 63).
    { pose proof (bits_bound k ts K Hi ltac:(by constructor)) as Hbb.
      apply (Z.lt_le_trans _ (2 ^ Z.of_nat (K - k + 1) * 2 ^ Z.of_nat (k - 1))); [nia|].
      rewrite <- Z.pow_add_r by lia. apply Z.pow_le_mono_r; lia. }
    destruct (Z.eqb_spec (Z.of_nat k) 1) as [Ek|Ek].
    + assert (k = 1%nat) as -> by lia. rewrite shl_ok by lia. cbn [mbind option_bind fst snd].
      rewrite (bits_push 0 1), addr_step by lia. eexists. split; [done|].
      exists 0%nat, (1%nat :: ts), m', a'. split; [done|]. split; [done|]. split; [done|].
      split; [by apply push_fits|]. split; [split; [lia|done]|]. split; [done|].
      change (L 0) with 1. by replace (q + 1 - 1) with q by lia.
    + replace (Z.of_nat k - 1) with (Z.of_nat (k - 1)) by lia. rewrite shl_ok by lia. cbn [mbind option_bind fst snd].
      rewrite (bits_push 1 k), addr_step by lia. eexists. split; [done|].
      exists 1%nat, (k :: ts), m', a'. split; [done|]. split; [done|]. split; [done|].
      split; [apply push_fits; (done || lia)|]. split; [split; [lia|split; [lia|done]]|]. split; [done|].
      change (L 1) with 1. by replace (q + 1 - 1) with q by lia.
Qed.

Lemma building_start m : arr m a0 -> building 0 (base, (1, 0), 1, m).
Proof.
  intros Ha. exists 1%nat, [], m, a0. split; [unfold Sort.addr; repeat f_equal; lia|]. split; [done|]. split; [done|].
  split; [|split; [simpl; lia|done]]. split; [done|]. split; [constructor; [apply HK; unfold L; lia|constructor]|]. split; [done|lia].
Qed.

(** ** Draining *)

Definition rooted (ts : list nat) : Prop := match list.last ts with Some k => (1 <= k)%nat | None => False end.

Lemma shape_rooted ts : shape ts -> rooted ts.
Proof.
  destruct ts as [|k [|k' ts]]; [done|done|]. intros (Hk & _ & Hs). unfold rooted. rewrite list.last_cons_cons.
  revert k' Hk Hs. induction ts as [|k2 ts IH]; intros k' Hk Hs; [simpl; lia|]. rewrite list.last_cons_cons.
  destruct Hs as [Hk2 Hs]. apply IH; [lia|done].
Qed.

(** The elements behind [q] are in their final place. *)
Definition settled_from (q : Z) a : Prop := forall i j, 0 <= i < j -> q < j < nel -> le (a i) (a j).

Definition draining (q : Z) (st : Z * (Z * Z) * Z * mem) : Prop :=
  exists k ts m a, st = (addr q, (bits (k :: ts), 0), Z.of_nat k, m) /\ arr m a /\
    elems a nel ≡ₚ elems a0 nel /\ fits nel K (k :: ts) q /\ rooted (k :: ts) /\
    forest cmp (k :: ts) q a /\ settled_from q a.

Lemma settle_last ts q a : fits nel K ts q -> forest cmp ts q a -> settled_from q a -> settled_from (q - 1) a.
Proof.
  intros (_ & _ & He & Hq) Hf Hs i j Hi Hj. destruct (Z.eq_dec j q) as [->|Hne]; [|apply Hs; lia].
  apply (forest_max cmp ts q a Hf). lia.
Qed.

(** Taking the last root of a tree with two subtrees: both become trees. *)
Lemma split_step k ts q m a : arr m a -> elems a nel ≡ₚ elems a0 nel -> fits nel K (S (S k) :: ts) q ->
  forest cmp (S (S k) :: ts) q a -> settled_from q a ->
  exists m1 m2 a2,
    trinkle width cmp tmp m (addr q - width * L k - width) (bits (S k :: ts), 0) (Z.of_nat (S k)) true lp = Some m1 /\
    trinkle width cmp tmp m1 (addr q - width) (bits (k :: S k :: ts), 0) (Z.of_nat k) true lp = Some m2 /\
    arr m2 a2 /\ elems a2 nel ≡ₚ elems a0 nel /\ fits nel K (k :: S k :: ts) (q - 1) /\
    forest cmp (k :: S k :: ts) (q - 1) a2 /\ settled_from (q - 1) a2.
Proof.
  intros Ha Hperm Hfit Hf Hs. pose proof (settle_last _ _ _ Hfit Hf Hs) as Hs'.
  destruct Hfit as (Hi & HKs & He & Hq). pose proof (extent_nonneg ts) as Hext. pose proof (L_pos k). pose proof (L_pos (S k)).
  simpl in He. rewrite L_step in He. apply Forall_cons_1 in HKs as [Hk HKs].
  destruct Hf as (Hh & Hf & _). rewrite L_step in Hf. apply heap_step in Hh as (_ & _ & Hl & Hr).
  set (r1 := q - 1 - L k) in *.
  assert (Hfit1 : fits nel K (S k :: ts) r1).
  { split; [destruct ts; [done|split; [destruct Hi; lia|apply Hi]]|]. split; [constructor; [lia|done]|].
    split; [simpl; lia|lia]. }
  assert (Hfit2 : fits nel K (k :: S k :: ts) (q - 1)).
  { split; [split; [lia|apply Hfit1]|]. split; [repeat constructor; (lia || done)|]. split; [simpl; lia|lia]. }
  destruct (trinkle_ok width base nel tmp Hwidth nel_nonneg Htmp cmp m0 m a lp K r1 (S k) ts true
    (bits (S k :: ts), 0) (addr q - width * L k - width) Ha Hlp Hfit1 eq_refl ltac:(unfold r1, Sort.addr; lia)) as (m1 & E1 & Ha1).
  replace (q - (L (S k) + L k + 1)) with (r1 - L (S k)) in Hf by lia.
  apply heap_split in Hl as [Hl1 Hl2].
  destruct (trinkled_ok cmp ts true (S k) r1 (a r1) a Hf Hl1 (fun _ => Hl2)) as (Hf1 & Hsame1 & _).
  set (a1 := trinkled cmp ts true (S k) r1 (a r1) a) in *.
  destruct (trinkle_ok width base nel tmp Hwidth nel_nonneg Htmp cmp m0 m1 a1 lp K (q - 1) k (S k :: ts) true
    (bits (k :: S k :: ts), 0) (addr q - width) Ha1 Hlp Hfit2 eq_refl ltac:(unfold Sort.addr; lia)) as (m2 & E2 & Ha2).
  assert (Hr1 : heap cmp k (q - 1) a1).
  { eapply heap_ext; [|exact Hr]. intros i Hi2. rewrite Hsame1; [done|simpl; lia]. }
  apply heap_split in Hr1 as [Hr1 Hr2].
  replace r1 with (q - 1 - L k) in Hf1 by lia.
  destruct (trinkled_ok cmp (S k :: ts) true k (q - 1) (a1 (q - 1)) a1 Hf1 Hr1 (fun _ => Hr2)) as (Hf2 & Hsame2 & _).
  pose proof (fun P : list Z -> Prop => trinkled_all cmp P ts true (S k) r1 a q ltac:(lia) ltac:(simpl; lia)) as Hall1. fold a1 in Hall1.
  pose proof (fun P : list Z -> Prop => trinkled_all cmp P (S k :: ts) true k (q - 1) a1 q ltac:(lia) ltac:(simpl; lia)) as Hall2.
  set (a2 := trinkled cmp (S k :: ts) true k (q - 1) (a1 (q - 1)) a1) in *.
  exists m1, m2, a2. split; [done|]. split; [done|]. split; [done|].
  split; [|split; [done|split; [done|]]].
  - etransitivity; [apply (trinkled_perm cmp (S k :: ts) true k (q - 1) a1 nel); [lia|simpl; lia]|].
    etransitivity; [apply (trinkled_perm cmp ts true (S k) r1 a nel); [lia|simpl; lia]|done].
  - intros i j Hi2 Hj. assert (Ej : forall j, q <= j -> a2 j = a j).
    { intros j2 Hj2. rewrite Hsame2, Hsame1; [done|simpl; lia..]. }
    rewrite (Ej j) by lia. destruct (Z.lt_ge_cases i q) as [Hiq|Hiq]; [|rewrite Ej by lia; apply Hs'; lia].
    apply (Hall2 (fun v => le v (a j))); [|lia]. apply (Hall1 (fun v => le v (a j))). intros i2 Hi3. apply Hs'; lia.
Qed.

Lemma draining_step q st : draining q st -> 0 < q ->
  exists st', drain_turn width cmp tmp lp st = Some (Next st') /\ draining (q - 1) st'.
Proof.
  intros (k & ts & m & a & -> & Ha & Hperm & Hfit & Hroot & Hf & Hs) Hpos. pose proof Hlp as [H60 _].
  pose proof (fits_bits nel K k ts q Hfit H60) as Hbits. pose proof Hfit as (Hi & HKs & He & Hq).
  destruct (bits_pos k ts Hi) as [Hbp _]. unfold drain_turn. cbn [fst snd].
  replace (addr q - width) with (addr (q - 1)) by (unfold Sort.addr; lia).
  destruct (decide (k <= 1)%nat) as [Hk1|Hk1].
  - assert (HL : L k = 1) by (destruct k as [|[|k]]; [done|done|lia]).
    destruct ts as [|k' ts]; [simpl in He; lia|].
    rewrite bits_one by done. rewrite andb_false_r. cbn [andb negb].
    rewrite (proj2 (Z.leb_le _ 1)) by lia. apply Forall_cons_1 in HKs as [Hk HKs].
    apply Forall_cons_1 in HKs as [Hk' _]. pose proof Hi as [Hlt _].
    rewrite pntz_ok by (done || lia). cbn [mbind option_bind]. rewrite shr_bits by (done || lia).
    cbn [mbind option_bind]. replace (Z.of_nat k + Z.of_nat (k' - k)) with (Z.of_nat k') by lia.
    eexists. split; [done|]. exists k', ts, m, a. split; [done|]. split; [done|]. split; [done|].
    rewrite <- HL. split; [by apply fits_tail in Hfit|].
    split; [unfold rooted in *; by rewrite list.last_cons_cons in Hroot|].
    split; [apply Hf|]. rewrite HL. by apply (settle_last (k :: k' :: ts)).
  - destruct k as [|[|k]]; [lia|lia|]. rewrite (proj2 (Z.eqb_neq (Z.of_nat (S (S k))) 1)) by lia. cbn [andb negb].
    rewrite (proj2 (Z.leb_gt _ 1)) by lia.
    pose proof (bits_bound _ ts K Hi HKs) as Hbb. pose proof HKs as HKk. apply Forall_cons_1 in HKk as [Hk _].
    assert (H58 : 2 ^ Z.of_nat (K - S (S k) + 1) <= 2 ^ 59) by (apply Z.pow_le_mono_r; lia).
    rewrite shl_ok by lia. cbn [mbind option_bind fst snd].
    assert (Hx : 0 <= Z.lxor (bits (S (S k) :: ts) * 2 ^ 2) 7) by (apply Z.lxor_nonneg; lia).
    rewrite shr_ok by lia. cbn [mbind option_bind]. rewrite bits_split by done.
    replace (Z.of_nat (S (S k)) - 2) with (Z.of_nat k) by lia.
    rewrite (lp_at width lp K k (Z.of_nat k)) by (done || lia). cbn [mbind option_bind].
    replace (Z.of_nat k + 1) with (Z.of_nat (S k)) by lia.
    destruct (split_step k ts q m a Ha Hperm Hfit Hf Hs) as (m1 & m2 & a2 & -> & E2 & Ha2 & Hperm2 & Hfit2 & Hf2 & Hs2).
    cbn [mbind option_bind].
    pose proof (fits_bits nel K k (S k :: ts) (q - 1) Hfit2 H60) as Hb2. rewrite bits_cons in Hb2.
    replace (S k - k)%nat with 1%nat in Hb2 by lia. change (2 ^ Z.of_nat 1) with 2 in Hb2.
    destruct (bits_pos (S k) ts ltac:(apply Hfit2)) as [Hbp2 _].
    rewrite shl_ok by lia. cbn [mbind option_bind fst snd].
    pose proof (bits_push k (S k) ts ltac:(lia)) as Hpush. replace (S k - k)%nat with 1%nat in Hpush by lia.
    change (Z.of_nat 1) with 1 in Hpush. rewrite Hpush.
    replace (addr q - width) with (addr (q - 1)) in E2 by (unfold Sort.addr; lia). rewrite E2. cbn [mbind option_bind].
    eexists. split; [done|]. exists k, (S k :: ts), m2, a2. split; [done|]. split; [done|]. split; [done|].
    split; [done|]. split; [|by split]. unfold rooted in *. rewrite list.last_cons_cons.
    destruct ts as [|k' ts]; [simpl; lia|]. by rewrite list.last_cons_cons in Hroot |- *.
Qed.

(** One element left: the array is in order. *)
Lemma draining_end st : draining 0 st ->
  exists m a, drain_turn width cmp tmp lp st = Some (Leave m) /\ arr m a /\
    elems a nel ≡ₚ elems a0 nel /\ StronglySorted le (elems a nel).
Proof.
  intros (k & ts & m & a & -> & Ha & Hperm & Hfit & Hroot & Hf & Hs). exists m, a.
  destruct Hfit as (Hi & HKs & He & Hq). simpl in He. pose proof (L_pos k). 
  destruct ts as [|k' ts]; [|simpl in He; pose proof (L_pos k'); pose proof (extent_nonneg ts); lia].
  assert (k = 1%nat) as ->.
  { unfold rooted in Hroot. simpl in Hroot, He. destruct k as [|[|k]]; [lia|done|]. rewrite L_step in He.
    pose proof (L_pos k). pose proof (L_pos (S k)). lia. }
  split; [done|]. split; [done|]. split; [done|]. unfold elems.
  assert (Hgen : forall n lo, 0 <= lo -> lo + Z.of_nat n <= nel -> StronglySorted le (a <$> seqZ lo (Z.of_nat n))).
  { induction n as [|n IH]; intros lo Hlo Hn; [constructor|]. rewrite seqZ_cons by lia. constructor.
    - replace (Z.pred (Z.of_nat (S n))) with (Z.of_nat n) by lia. apply IH; lia.
    - apply Forall_fmap, list.Forall_forall. intros x Hx. apply elem_of_seqZ in Hx. apply Hs; lia. }
  specialize (Hgen (Z.to_nat nel) 0 ltac:(lia) ltac:(lia)). by rewrite Z2Nat.id in Hgen by lia.
Qed.

Lemma building_end q st : building q st -> q = nel - 1 ->
  build_turn width cmp tmp (addr (nel - 1)) lp st = Some (Leave st).
Proof.
  intros (k & ts & m & a & -> & _) ->. unfold build_turn. by rewrite Z.ltb_irrefl.
Qed.

(** The last trinkling makes the whole forest ordered. *)
Lemma built_draining st : building (nel - 1) st ->
  let '(h, p, s, m) := st in
  exists m', trinkle width cmp tmp m h p s false lp = Some m' /\ draining (nel - 1) (h, p, s, m').
Proof.
  intros (k & ts & m & a & -> & Ha & Hperm & Hfit & Hsh & Hsub & Hb). pose proof Hfit as (Hi & HKs & He & Hq).
  destruct (trinkle_ok width base nel tmp Hwidth nel_nonneg Htmp cmp m0 m a lp K (nel - 1) k ts false (bits (k :: ts), 0)
    (addr (nel - 1)) Ha Hlp Hfit eq_refl eq_refl) as (m' & -> & Ha').
  eexists. split; [done|]. exists k, ts, m', (trinkled cmp ts false k (nel - 1) (a (nel - 1)) a).
  split; [done|]. split; [done|]. split; [etransitivity; [apply (trinkled_perm cmp); [lia|simpl in *; lia]|done]|].
  split; [done|]. split; [by apply shape_rooted|]. split; [|intros i j Hi2 Hj; lia].
  refine (proj1 (trinkled_ok cmp ts false k (nel - 1) (a (nel - 1)) a _ Hsub _)); [|done].
  destruct ts as [|k' ts]; [done|]. destruct Hb as (_ & Hf & _). apply Hf.
  destruct Hsh as [Hlt _]. pose proof (L_mono k (k' - 1) ltac:(lia)). lia.
Qed.
End qsort_proof.

Section qsort.
Context (width : Z) (cmp : list Z -> list Z -> Z) `{!TotalCmp cmp}.

(** The elements of the array, in order. *)
Definition elements (m : mem) (base nel : Z) : list (list Z) :=
  (fun j => bytes_of m (base + width * j) width) <$> seqZ 0 nel.

(** C35. [qsort] sorts: for every comparison that is a total preorder of the
    elements, it ends with a permutation of the elements in increasing order, and
    changes no byte outside the array and its own 256-byte buffer.  No index leaves
    a local array and no shift count leaves its range, for up to [2^40] elements. *)
Theorem qsort_sorts m base nel tmp :
  0 < width -> 0 <= nel <= 2 ^ 40 -> width * nel < 2 ^ 62 ->
  mem_ok m -> mapped m base (width * nel) -> mapped m tmp 256 -> disjoint_ranges base (width * nel) tmp 256 ->
  exists m', qsort width cmp tmp m base nel = Some m' /\
    elements m' base nel ≡ₚ elements m base nel /\
    StronglySorted (cmp_le cmp) (elements m' base nel) /\
    (forall x, outside width base nel tmp x -> m' !! x = m !! x).
Proof.
  intros Hw Hn Hsize Hok Hm Ht Hd. unfold qsort. rewrite wrap_small by nia.
  destruct (Z.eq_dec nel 0) as [->|Hn0].
  { rewrite Z.mul_0_r. exists m. split; [done|]. split; [done|]. split; [constructor|done]. }
  rewrite (proj2 (nz_true _)) by nia. cbn [negb].
  assert (Hn1 : 0 < nel <= 2 ^ 40) by lia.
  destruct (leonardo_ok width nel Hw Hn1 Hsize) as (lp & K & -> & Hlp & HK). cbn [mbind option_bind].
  set (a0 := fun j => bytes_of m (addr width base j) width).
  assert (Ha0 : arr width base nel tmp m m a0) by done.
  replace (base + width * nel - width) with (addr width base (nel - 1)) by (unfold addr; lia).
  destruct (iter_count (fun n => building width base nel tmp cmp m a0 K (nel - 1 - Z.of_nat n))
    (building width base nel tmp cmp m a0 K (nel - 1)) (build_turn width cmp tmp (addr width base (nel - 1)) lp))
    with (n := Z.to_nat (nel - 1)) (fuel := S (Z.to_nat nel)) (s := (base, (1, 0), 1, m)) as (st & -> & Hst).
  { intros n s Hs. destruct (building_step width base nel tmp Hw Hn1 Hsize Hd cmp m a0 lp K Hlp HK _ s Hs) as (s' & E & Hs'); [lia|].
    exists s'. split; [done|]. by replace (nel - 1 - Z.of_nat n) with (nel - 1 - Z.of_nat (S n) + 1) by lia. }
  { intros s Hs. rewrite Z.sub_0_r in Hs. exists s. split; [by eapply building_end|done]. }
  { rewrite Z2Nat.id, Z.sub_diag by lia. by apply building_start. }
  { lia. }
  cbn [mbind option_bind]. apply (built_draining width base nel tmp Hw Hn1 Hd cmp m a0 lp K Hlp) in Hst.
  destruct st as [[[h p] s] m1]. destruct Hst as (m2 & -> & Hdr). cbn [mbind option_bind].
  destruct (iter_count (fun n => draining width base nel tmp cmp m a0 K (Z.of_nat n))
    (fun m' => exists a, arr width base nel tmp m m' a /\ elems a nel ≡ₚ elems a0 nel /\
       StronglySorted (cmp_le cmp) (elems a nel)) (drain_turn width cmp tmp lp))
    with (n := Z.to_nat (nel - 1)) (fuel := S (Z.to_nat nel)) (s := (h, p, s, m2)) as (m' & -> & a & Ha & Hperm & Hsort).
  { intros n st Hst. destruct (draining_step width base nel tmp Hw Hn1 Hd cmp m a0 lp K Hlp _ st Hst) as (s' & E & Hs'); [lia|].
    exists s'. split; [done|]. by replace (Z.of_nat n) with (Z.of_nat (S n) - 1) by lia. }
  { intros st Hst. destruct (draining_end width base nel tmp Hn1 cmp m a0 lp K st Hst) as (m' & a & E & Ha & Hp & Hs).
    exists m'. split; [done|]. by exists a. }
  { by rewrite Z2Nat.id by lia. }
  { lia. }
  destruct Ha as (_ & Hout & Hel).
  assert (Eel : elements m' base nel = elems a nel).
  { unfold elements, elems. apply list_fmap_ext. intros i x Hx. apply Hel.
    apply list_elem_of_lookup_2, elem_of_seqZ in Hx. lia. }
  exists m'. split; [done|]. rewrite Eel. split; [exact Hperm|]. split; [done|exact Hout].
Qed.
End qsort.

(** ** Witness *)

#[export] Instance byte_cmp_total : TotalCmp byte_cmp.
Proof. split; unfold byte_cmp; intros; lia. Qed.

(** Five two-byte elements at 100, compared by their first bytes. *)
Definition pairs : mem :=
  write_bytes (write_bytes ∅ 500 (replicate 256 0)) 100 [5; 0; 3; 1; 9; 2; 3; 3; 1; 4].

Lemma qsort_sorts_witness :
  exists m', qsort 2 byte_cmp 500 pairs 100 5 = Some m' /\
    elements 2 m' 100 5 ≡ₚ elements 2 pairs 100 5 /\
    StronglySorted (cmp_le byte_cmp) (elements 2 m' 100 5) /\
    (forall x, outside 2 100 5 500 x -> m' !! x = pairs !! x).
Proof. apply (qsort_sorts 2 byte_cmp pairs 100 5 500); mem_check. Defined.
