(* ===== verification/Conc.v ===== *)
(** * Threads that share memory

    The synchronisation functions of [thread/] are written as programs over the
    atomic operations of [internal/atomic.h] and the two futex calls; threads
    interleave these operations in any order (sequential consistency).  The proof
    rules below are those of an invariant over the shared memory and one ghost
    value for each thread: [wp] is what a program has to satisfy for the invariant
    to be kept, and [reachable_inv] says that it then holds in every reachable
    state, whatever the number of threads and the schedule. *)
From stdpp Require Import relations.
From S2P Require Import Prelude.

(** ** Programs *)

Abbreviation store := (nat -> Z).
Definition set (σ : store) (l : nat) (v : Z) : store := fun l' => if Nat.eqb l' l then v else σ l'.

(** The operations of [atomic.h] on an [int]; a read or a write of a volatile
    [int] is one of them. *)
Inductive atom :=
| ALoad (l : nat)
| AStore (l : nat) (v : Z)
| ACas (l : nat) (t s : Z)
| ASwap (l : nat) (v : Z)
| AFetchAdd (l : nat) (v : Z).

(** The value returned, and the memory after. *)
Definition act (a : atom) (σ : store) : Z * store :=
  match a with
  | ALoad l => (σ l, σ)
  | AStore l v => (0, set σ l v)
  | ACas l t s => (σ l, if σ l =? t then set σ l s else σ)
  | ASwap l v => (σ l, set σ l v)
  | AFetchAdd l v => (σ l, set σ l (s32 (σ l + v)))
  end.

(** [FutexWait l v] sleeps if [l] holds [v] (and otherwise returns [-EAGAIN]);
    [FutexWake l n] wakes [n] of the threads that sleep on [l], or all when there
    are fewer; [Input] is a value from outside (the clock); [Mark] changes what
    the thread shows of itself; [Fault] is undefined behaviour. *)
Inductive prog (T R : Type) : Type :=
| Done (r : R)
| Fault
| Atom (a : atom) (k : Z -> prog T R)
| FutexWait (l : nat) (v : Z) (k : Z -> prog T R)
| FutexWake (l : nat) (n : Z) (k : prog T R)
| Input (k : Z -> prog T R)
| Mark (t : T) (k : prog T R)
| Loop (S A : Type) (body : S -> prog T (S + A)) (s : S) (k : A -> prog T R).
#[global] Arguments Done {T R} r.
#[global] Arguments Fault {T R}.
#[global] Arguments Atom {T R} a k.
#[global] Arguments FutexWait {T R} l v k.
#[global] Arguments FutexWake {T R} l n k.
#[global] Arguments Input {T R} k.
#[global] Arguments Mark {T R} t k.
#[global] Arguments Loop {T R S A} body s k.

Fixpoint prog_bind {T A B} (f : A -> prog T B) (p : prog T A) : prog T B :=
  match p with
  | Done r => f r
  | Fault => Fault
  | Atom a k => Atom a (fun v => prog_bind f (k v))
  | FutexWait l v k => FutexWait l v (fun r => prog_bind f (k r))
  | FutexWake l n k => FutexWake l n (prog_bind f k)
  | Input k => Input (fun v => prog_bind f (k v))
  | Mark t k => Mark t (prog_bind f k)
  | Loop body s k => Loop body s (fun a => prog_bind f (k a))
  end.
#[global] Instance prog_mbind {T} : MBind (prog T) := fun A B => prog_bind.
#[global] Instance prog_mret {T} : MRet (prog T) := fun A => Done.

Section operations.
Context {T : Type}.
Implicit Types (l : nat) (v : Z).
Definition load l : prog T Z := Atom (ALoad l) Done.
Definition a_store l v : prog T unit := Atom (AStore l v) (fun _ => Done tt).
Definition a_cas l t s : prog T Z := Atom (ACas l t s) Done.
Definition a_swap l v : prog T Z := Atom (ASwap l v) Done.
Definition a_fetch_add l v : prog T Z := Atom (AFetchAdd l v) Done.
Definition a_inc l : prog T unit := _ ← a_fetch_add l 1; Done tt.
Definition a_dec l : prog T unit := _ ← a_fetch_add l (-1); Done tt.
Definition mark (t : T) : prog T unit := Mark t (Done tt).
Definition input : prog T Z := Input Done.
Definition futex_wait l v : prog T Z := FutexWait l v Done.
Definition futex_wake l n : prog T unit := FutexWake l n (Done tt).
End operations.
Definition loop {T S A} (body : S -> prog T (S + A)) (s : S) : prog T A := Loop body s Done.
Definition again {T S A} (s : S) : prog T (S + A) := Done (inl s).
Definition leave {T S A} (a : A) : prog T (S + A) := Done (inr a).

(** ** Threads *)

Section threads.
Context {T : Type}.

Inductive thread :=
| Run (p : prog T unit)
| Sleep (l : nat) (k : Z -> prog T unit).

Record config := { memory : store; threads : list (T * thread) }.

Definition wakes (j : nat) (ths : list (T * thread)) : list (T * thread) :=
  match ths !! j with
  | Some (t, Sleep _ k) => <[j := (t, Run (k 0))]> ths
  | _ => ths
  end.

Definition sleeps (l : nat) (th : T * thread) : bool :=
  match th.2 with Sleep l' _ => Nat.eqb l' l | Run _ => false end.

(** The threads [js] may be those that a call to wake [n] threads wakes. *)
Definition may_wake (l : nat) (n : Z) (ths : list (T * thread)) (js : list nat) : Prop :=
  NoDup js /\ Forall (fun j => exists th, ths !! j = Some th /\ sleeps l th = true) js /\
  Z.of_nat (length js) <= n /\
  (Z.of_nat (length js) = n \/ forall j th, ths !! j = Some th -> sleeps l th = true -> j ∈ js).

(** One step of thread [i]. *)
Inductive step (i : nat) : config -> config -> Prop :=
| step_atom σ ths t a k :
    ths !! i = Some (t, Run (Atom a k)) ->
    step i {| memory := σ; threads := ths |}
           {| memory := (act a σ).2; threads := <[i := (t, Run (k (act a σ).1))]> ths |}
| step_wait σ ths t l v k :
    ths !! i = Some (t, Run (FutexWait l v k)) -> σ l = v ->
    step i {| memory := σ; threads := ths |} {| memory := σ; threads := <[i := (t, Sleep l k)]> ths |}
| step_no_wait σ ths t l v k :
    ths !! i = Some (t, Run (FutexWait l v k)) -> σ l <> v ->
    step i {| memory := σ; threads := ths |} {| memory := σ; threads := <[i := (t, Run (k (-11)))]> ths |}
| step_interrupted σ ths t l k r :
    ths !! i = Some (t, Sleep l k) ->
    step i {| memory := σ; threads := ths |} {| memory := σ; threads := <[i := (t, Run (k r))]> ths |}
| step_wake σ ths t l n k js :
    ths !! i = Some (t, Run (FutexWake l n k)) -> may_wake l n ths js ->
    step i {| memory := σ; threads := ths |}
           {| memory := σ; threads := <[i := (t, Run k)]> (foldr wakes ths js) |}
| step_input σ ths t k v :
    ths !! i = Some (t, Run (Input k)) ->
    step i {| memory := σ; threads := ths |} {| memory := σ; threads := <[i := (t, Run (k v))]> ths |}
| step_mark σ ths t t' k :
    ths !! i = Some (t, Run (Mark t' k)) ->
    step i {| memory := σ; threads := ths |} {| memory := σ; threads := <[i := (t', Run k)]> ths |}
| step_loop σ ths t (S A : Type) (body : S -> prog T (S + A)) s k :
    ths !! i = Some (t, Run (Loop body s k)) ->
    step i {| memory := σ; threads := ths |}
           {| memory := σ; threads := <[i := (t, Run (prog_bind
                (fun r => match r with inl s' => Loop body s' k | inr a => k a end) (body s)))]> ths |}.

(** The same step as a function; [js] are the threads to wake and [r] is the value
    from outside. *)
Definition exec (i : nat) (js : list nat) (r : Z) (c : config) : option config :=
  let σ := memory c in
  let ths := threads c in
  let upd t p := Some {| memory := σ; threads := <[i := (t, Run p)]> ths |} in
  match ths !! i with
  | Some (t, Run (Atom a k)) => Some {| memory := (act a σ).2; threads := <[i := (t, Run (k (act a σ).1))]> ths |}
  | Some (t, Run (FutexWait l v k)) =>
      if σ l =? v then Some {| memory := σ; threads := <[i := (t, Sleep l k)]> ths |} else upd t (k (-11))
  | Some (t, Sleep _ k) => upd t (k r)
  | Some (t, Run (FutexWake l n k)) =>
      if bool_decide (NoDup js) && forallb (fun j => from_option (sleeps l) false (ths !! j)) js &&
         (Z.of_nat (length js) <=? n) &&
         ((Z.of_nat (length js) =? n) ||
          forallb (fun j => negb (from_option (sleeps l) false (ths !! j)) || bool_decide (j ∈ js)) (seq 0 (length ths)))
      then Some {| memory := σ; threads := <[i := (t, Run k)]> (foldr wakes ths js) |}
      else None
  | Some (t, Run (Input k)) => upd t (k r)
  | Some (t, Run (Mark t' k)) => upd t' k
  | Some (t, Run (Loop body s k)) =>
      upd t (prog_bind (fun r => match r with inl s' => Loop body s' k | inr a => k a end) (body s))
  | Some (_, Run (Done _)) | Some (_, Run Fault) | None => None
  end.

Fixpoint run (schedule : list (nat * (list nat * Z))) (c : config) : option config :=
  match schedule with
  | [] => Some c
  | (i, (js, r)) :: schedule => c ← exec i js r c; run schedule c
  end.

Definition reachable (c0 c : config) : Prop := rtc (fun c c' => exists i, step i c c') c0 c.

Definition finished (th : T * thread) : Prop := exists r, th.2 = Run (Done r).
Definition asleep (th : T * thread) : Prop := exists l k, th.2 = Sleep l k.
Definition faulted (th : T * thread) : Prop := th.2 = Run Fault.

(** No thread can take a step of its own. *)
Definition stopped (c : config) : Prop :=
  forall i th, threads c !! i = Some th -> finished th \/ asleep th.
End threads.
#[global] Arguments thread T : clear implicits.
#[global] Arguments config T : clear implicits.

Section exec_lemmas.
Context {T : Type}.
Implicit Types (c : config T).

Lemma exec_step i js r c c' : exec i js r c = Some c' -> step i c c'.
Proof.
  destruct c as [σ ths]. unfold exec. cbn [memory threads].
  destruct (ths !! i) as [[t [p|l k]]|] eqn:E; [|intros [= <-]; by eapply step_interrupted|done].
  destruct p as [u| |a k|l v k|l n k|k|t' k|S A body s k]; try done.
  - intros [= <-]. by eapply step_atom.
  - destruct (Z.eqb_spec (σ l) v); intros [= <-]; [by eapply step_wait|by eapply step_no_wait].
  - destruct (_ && _) eqn:Hw; [|done]. intros [= <-]. eapply step_wake; [done|].
    apply andb_prop in Hw as [[[Hn Hs]%andb_prop Hl]%andb_prop Ha].
    apply bool_decide_eq_true in Hn. apply Z.leb_le in Hl. split; [done|]. split; [|split; [done|]].
    + apply Forall_forall. intros j Hj. rewrite forallb_forall in Hs.
      specialize (Hs j Hj). destruct (ths !! j) eqn:?; [eauto|done].
    + apply orb_prop in Ha as [Ha|Ha]; [left; by apply Z.eqb_eq|right]. intros j th Hj Hsl.
      rewrite forallb_forall in Ha. specialize (Ha j). rewrite Hj in Ha. simpl in Ha. rewrite Hsl in Ha. simpl in Ha.
      eapply bool_decide_eq_true, Ha, in_seq. apply lookup_lt_Some in Hj. lia.
  - intros [= <-]. by eapply step_input.
  - intros [= <-]. by eapply step_mark.
  - intros [= <-]. by eapply step_loop.
Qed.

Lemma run_reachable schedule c c' : run schedule c = Some c' -> reachable c c'.
Proof.
  revert c. induction schedule as [|[i [js r]] schedule IH]; intros c; simpl; [intros [= ->]; apply rtc_refl|].
  destruct (exec i js r c) as [c1|] eqn:E; [|done]. intros H. eapply rtc_l; [|by apply IH].
  exists i. by eapply exec_step.
Qed.

(** The state after a schedule, [c] itself when the schedule is not possible. *)
Definition after schedule c : config T := default c (run schedule c).

Lemma after_reachable schedule c : reachable c (after schedule c).
Proof.
  unfold after. destruct (run schedule c) as [c'|] eqn:E; [by apply (run_reachable schedule)|apply rtc_refl].
Qed.

Definition stoppedb c : bool :=
  forallb (fun th => match th.2 with Run (Done _) | Sleep _ _ => true | _ => false end) (threads c).

Lemma stoppedb_stopped c : stoppedb c = true -> stopped c.
Proof.
  unfold stoppedb. rewrite forallb_forall. intros H i th Hi.
  specialize (H th (proj1 (list_elem_of_In _ _) (list_elem_of_lookup_2 _ _ _ Hi))).
  unfold finished, asleep. destruct (th.2) as [[]|]; try done; eauto.
Qed.
End exec_lemmas.

(** [n] steps of thread [i]. *)
Definition steps (i n : nat) : list (nat * (list nat * Z)) := repeat (i, ([], 0)) n.

(** ** Sums over the threads *)
Section sums.
Context {G : Type}.
Implicit Types (f : G -> Z) (gs : list G).

Fixpoint total f gs : Z := match gs with [] => 0 | g :: gs => f g + total f gs end.

Lemma total_insert f gs i g g' : gs !! i = Some g -> total f (<[i := g']> gs) = total f gs - f g + f g'.
Proof.
  revert i. induction gs as [|h gs IH]; intros [|i] H; simplify_eq/=; [lia|]. rewrite (IH i) by done. lia.
Qed.

Lemma total_nonneg f gs : (forall g, 0 <= f g) -> 0 <= total f gs.
Proof. intros H. induction gs as [|g gs IH]; simpl; [done|]. specialize (H g). lia. Qed.

Lemma total_one f gs i g : (forall g, 0 <= f g) -> gs !! i = Some g -> f g <= total f gs.
Proof.
  intros H. revert i. induction gs as [|h gs IH]; intros [|i] Hi; simplify_eq/=.
  - pose proof (total_nonneg f gs H). lia.
  - specialize (IH i Hi). specialize (H h). lia.
Qed.

Lemma total_two f gs i j g h : (forall g, 0 <= f g) -> i <> j -> gs !! i = Some g -> gs !! j = Some h ->
  f g + f h <= total f gs.
Proof.
  intros H. revert i j. induction gs as [|x gs IH]; intros [|i] [|j] Hne Hi Hj; simplify_eq/=; try done.
  - pose proof (total_one f gs j h H Hj). lia.
  - pose proof (total_one f gs i g H Hi). lia.
  - assert (i <> j) by congruence. specialize (IH i j ltac:(done) Hi Hj). specialize (H x). lia.
Qed.

Lemma total_add f f' gs : total (fun g => f g + f' g) gs = total f gs + total f' gs.
Proof. induction gs as [|g gs IH]; simpl; [done|]. lia. Qed.

Lemma total_fill {A} f g (l : list A) : f g = 0 -> total f ((fun _ => g) <$> l) = 0.
Proof. intros H. induction l as [|x l IH]; [done|]. rewrite fmap_cons. cbn [total]. lia. Qed.

Lemma total_pos f gs : (forall g, 0 <= f g) -> 0 < total f gs -> exists i g, gs !! i = Some g /\ 0 < f g.
Proof.
  intros H. induction gs as [|g gs IH]; simpl; [lia|]. intros Hp.
  destruct (Z.lt_ge_cases 0 (f g)); [by exists 0%nat, g|].
  destruct IH as (i & h & ? & ?); [lia|]. by exists (S i), h.
Qed.

Lemma total_le_length f gs : (forall g, f g <= 1) -> total f gs <= Z.of_nat (length gs).
Proof. intros H. induction gs as [|g gs IH]; simpl; [done|]. specialize (H g). lia. Qed.

Lemma total_le f f' gs : (forall g, f g <= f' g) -> total f gs <= total f' gs.
Proof. intros H. induction gs as [|g gs IH]; simpl; [done|]. specialize (H g). lia. Qed.
End sums.

(** ** Proof rules *)

(** What a component supplies: the ghost value of a thread, with what it shows,
    where it sleeps and what it becomes when it is woken, and the invariant. *)
Class Protocol (T G : Type) := {
  shows : G -> T;
  bed : G -> option nat;
  woken : G -> G;
  interrupted : G -> G;
  final : G -> Prop;
  inv : store -> list G -> Prop;
  shows_woken g : shows (woken g) = shows g;
  shows_interrupted g : shows (interrupted g) = shows g;
  bed_woken g : bed (woken g) = None;
  bed_interrupted g : bed (interrupted g) = None;
  inv_woken σ gs i g l : inv σ gs -> gs !! i = Some g -> bed g = Some l -> inv σ (<[i := woken g]> gs);
  inv_interrupted σ gs i g l : inv σ gs -> gs !! i = Some g -> bed g = Some l -> inv σ (<[i := interrupted g]> gs);
}.

Section rules.
Context `{P : Protocol T G}.
Implicit Types (g : G) (gs : list G) (σ : store).

(** The ghost values after a call that wakes [n] threads on [l]. *)
Definition after_wake (l : nat) (n : Z) gs gs' : Prop :=
  exists js, gs' = foldr (fun j gs => alter woken j gs) gs js /\ NoDup js /\
    Forall (fun j => exists g, gs !! j = Some g /\ bed g = Some l) js /\
    Z.of_nat (length js) <= n /\
    (Z.of_nat (length js) = n \/ forall j g, gs !! j = Some g -> bed g = Some l -> j ∈ js).

(** What a thread with the ghost value [g] has to satisfy to run [p] and end with
    [Q]: every operation of it keeps the invariant, for some new ghost value. *)
Fixpoint wp {R} (p : prog T R) g (Q : R -> G -> Prop) : Prop :=
  match p with
  | Done r => Q r g
  | Fault => False
  | Atom a k => forall σ gs i, inv σ gs -> gs !! i = Some g ->
      exists g', shows g' = shows g /\ bed g' = None /\
        inv (act a σ).2 (<[i := g']> gs) /\ wp (k (act a σ).1) g' Q
  | FutexWait l v k => forall σ gs i, inv σ gs -> gs !! i = Some g ->
      if σ l =? v then
        exists g', shows g' = shows g /\ bed g' = Some l /\ inv σ (<[i := g']> gs) /\
          wp (k 0) (woken g') Q /\ forall r, wp (k r) (interrupted g') Q
      else wp (k (-11)) g Q
  | FutexWake l n k => forall σ gs gs' i, inv σ gs -> gs !! i = Some g -> inv σ gs' -> gs' !! i = Some g ->
      after_wake l n gs gs' ->
      exists g', shows g' = shows g /\ bed g' = None /\ inv σ (<[i := g']> gs') /\ wp k g' Q
  | Input k => forall v, wp (k v) g Q
  | Mark t k => exists g', shows g' = t /\ bed g' = None /\
      (forall σ gs i, inv σ gs -> gs !! i = Some g -> inv σ (<[i := g']> gs)) /\ wp k g' Q
  | Loop body s k => exists J : _ -> G -> Prop, J s g /\
      forall s g, J s g -> wp (body s) g (fun r g' =>
        match r with inl s' => J s' g' | inr a => wp (k a) g' Q end)
  end.

Lemma wp_mono {R} (p : prog T R) g (Q Q' : R -> G -> Prop) :
  wp p g Q -> (forall r g, Q r g -> Q' r g) -> wp p g Q'.
Proof.
  revert g Q Q'. induction p as [R r|R|R a k IH|R l v k IH|R l n k IH|R k IH|R t k IH|R S A body IHb s k IHk];
    intros g Q Q' H HQ; cbn [wp] in *; auto.
  - intros σ gs i Hi Hg. destruct (H σ gs i Hi Hg) as (g' & ? & ? & ? & Hw). eauto 10.
  - intros σ gs i Hi Hg. specialize (H σ gs i Hi Hg). destruct (σ l =? v); [|eauto].
    destruct H as (g' & ? & ? & ? & Hw & Hr). exists g'. repeat split; eauto.
  - intros σ gs gs' i Hi Hg Hi' Hg' Ha. destruct (H σ gs gs' i Hi Hg Hi' Hg' Ha) as (g' & ? & ? & ? & Hw). eauto 10.
  - eauto.
  - destruct H as (g' & ? & ? & ? & Hw). eauto 10.
  - destruct H as (J & HJ & Hb). exists J. split; [done|]. intros s1 g1 H1. eapply IHb; [by apply Hb|].
    intros [s2|a] g2; [done|]. intros Hw. by eapply IHk.
Qed.

Lemma wp_bind {R S} (p : prog T R) (f : R -> prog T S) g (Q : S -> G -> Prop) :
  wp p g (fun r g' => wp (f r) g' Q) -> wp (r ← p; f r) g Q.
Proof.
  unfold mbind, prog_mbind. revert g.
  induction p as [R r|R|R a k IH|R l v k IH|R l n k IH|R k IH|R t k IH|R S' A body IHb s k IHk];
    intros g H; cbn [wp prog_bind] in *; auto.
  - intros σ gs i Hi Hg. destruct (H σ gs i Hi Hg) as (g' & ? & ? & ? & Hw). eauto 10.
  - intros σ gs i Hi Hg. specialize (H σ gs i Hi Hg). destruct (σ l =? v); [|eauto].
    destruct H as (g' & ? & ? & ? & Hw & Hr). exists g'. repeat split; eauto.
  - intros σ gs gs' i Hi Hg Hi' Hg' Ha. destruct (H σ gs gs' i Hi Hg Hi' Hg' Ha) as (g' & ? & ? & ? & Hw). eauto 10.
  - destruct H as (g' & ? & ? & ? & Hw). eauto 10.
  - destruct H as (J & HJ & Hb). exists J. split; [done|]. intros s1 g1 H1.
    eapply wp_mono; [by apply Hb|]. intros [s2|a] g2; [done|]. apply IHk.
Qed.

(** A call that wakes at least one thread wakes one, or there was none. *)
Lemma after_wake_cases l n gs gs' : 0 < n -> after_wake l n gs gs' ->
  (gs' = gs /\ forall j g, gs !! j = Some g -> bed g <> Some l) \/
  exists j h, gs !! j = Some h /\ bed h = Some l /\ gs' !! j = Some (woken h).
Proof.
  intros Hn (js & -> & Hnd & Hjs & Hlen & Hall). destruct js as [|j js].
  - left. split; [done|]. intros j g Hj Hb. destruct Hall as [Hall|Hall]; [simpl in Hall; lia|].
    specialize (Hall j g Hj Hb). by apply elem_of_nil in Hall.
  - right. apply list.NoDup_cons in Hnd as [Hnj _]. apply list.Forall_cons in Hjs as [(h & Hj & Hb) _].
    exists j, h. split; [done|]. split; [done|]. cbn [foldr]. rewrite list_lookup_alter_eq.
    assert (E : foldr (fun j gs => alter woken j gs) gs js !! j = Some h); [|by rewrite E].
    clear - Hnj Hj. induction js as [|k js IH]; simpl; [done|]. apply not_elem_of_cons in Hnj as [Hne Hnj].
    rewrite list_lookup_alter_ne by done. by apply IH.
Qed.

(** ** Soundness *)

Definition thread_ok (th : T * thread T) g : Prop :=
  shows g = th.1 /\
  match th.2 with
  | Run p => bed g = None /\ wp p g (fun _ => final)
  | Sleep l k => bed g = Some l /\ wp (k 0) (woken g) (fun _ => final) /\
      forall r, wp (k r) (interrupted g) (fun _ => final)
  end.

Definition config_ok (c : config T) : Prop :=
  exists gs, inv (memory c) gs /\ Forall2 thread_ok (threads c) gs.

Lemma ok_insert ths gs i th g :
  Forall2 thread_ok ths gs -> thread_ok th g -> Forall2 thread_ok (<[i := th]> ths) (<[i := g]> gs).
Proof. intros. by apply Forall2_insert. Qed.

Lemma thread_ok_woken th g l k : thread_ok th g -> th.2 = Sleep l k -> thread_ok (th.1, Run (k 0)) (woken g).
Proof.
  intros [Hs Hk] E. rewrite E in Hk. destruct Hk as (Hb & Hw & _). split; simpl; [by rewrite shows_woken|].
  split; [apply bed_woken|done].
Qed.

Lemma alter_insert {A} (f : A -> A) i (l : list A) x : l !! i = Some x -> alter f i l = <[i := f x]> l.
Proof. revert i. induction l as [|y l IH]; intros [|i] H; simplify_eq/=; [done|]. f_equal. by apply IH. Qed.

(** Waking threads keeps the invariant. *)
Lemma wake_config l n σ ths gs js : inv σ gs -> Forall2 thread_ok ths gs -> may_wake l n ths js ->
  exists gs', after_wake l n gs gs' /\ inv σ gs' /\ Forall2 thread_ok (foldr wakes ths js) gs' /\
    forall i th, ths !! i = Some th -> ~ sleeps l th -> foldr wakes ths js !! i = Some th /\ gs' !! i = gs !! i.
Proof.
  intros Hinv Hok (Hn & Hs & Hl & Ha).
  assert (Hbed : forall j th g, ths !! j = Some th -> gs !! j = Some g -> (sleeps l th = true <-> bed g = Some l)).
  { intros j th g Hj Hg. destruct (Forall2_lookup_lr _ _ _ _ _ _ Hok Hj Hg) as [_ H]. unfold sleeps.
    destruct (th.2) as [p|l' k]; [destruct H as [H _]|destruct H as [H _]]; rewrite H; [done|].
    rewrite Nat.eqb_eq. split; [by intros ->|congruence]. }
  exists (foldr (fun j gs => alter woken j gs) gs js). split.
  { exists js. split; [done|]. split; [done|]. split.
    - eapply list.Forall_impl; [exact Hs|]. intros j (th & Hj & Hsl).
      destruct (Forall2_lookup_l _ _ _ _ _ Hok Hj) as (g & Hg & _). exists g. split; [done|]. by apply (Hbed j th g).
    - split; [done|]. destruct Ha as [Ha|Ha]; [by left|right]. intros j g Hg Hb.
      destruct (Forall2_lookup_r _ _ _ _ _ Hok Hg) as (th & Hj & _). apply (Ha j th Hj). by apply (Hbed j th g). }
  clear Hl Ha. induction js as [|j js IH]; simpl.
  { split; [done|]. split; [done|]. auto. }
  apply list.NoDup_cons in Hn as [Hnj Hn]. apply list.Forall_cons in Hs as [(th & Hj & Hsl) Hs].
  destruct (IH Hn Hs) as (Hi & Hok' & Hrest). clear IH.
  assert (Hjs : foldr wakes ths js !! j = Some th /\ foldr (fun j gs => alter woken j gs) gs js !! j = gs !! j).
  { clear - Hnj Hj. induction js as [|j' js IH]; simpl; [auto|]. apply not_elem_of_cons in Hnj as [Hne Hnj].
    destruct (IH Hnj) as [E1 E2]. rewrite list_lookup_alter_ne by done. split; [|done].
    unfold wakes at 1. destruct (foldr wakes ths js !! j') as [[t [p|l k]]|]; [done| |done]. by rewrite list_lookup_insert_ne. }
  destruct Hjs as [E1 E2]. destruct (Forall2_lookup_l _ _ _ _ _ Hok Hj) as (g & Hg & Hgok). rewrite Hg in E2.
  pose proof (proj1 (Hbed j th g Hj Hg) Hsl) as Hb.
  rewrite (alter_insert _ _ _ _ E2).
  unfold wakes at 1. rewrite E1. destruct th as [t [p|l' k]]; [done|].
  split; [by eapply inv_woken|]. split.
  - apply ok_insert; [done|]. by apply (thread_ok_woken (t, Sleep l' k) g l' k).
  - intros i th' Hi' Hns. destruct (Hrest i th' Hi' Hns) as [R1 R2].
    assert (i <> j) by (intros ->; rewrite Hj in Hi'; injection Hi' as <-; apply Hns; by rewrite Hsl).
    unfold wakes at 1. rewrite E1. rewrite !list_lookup_insert_ne by done. done.
Qed.

Lemma step_ok i c c' : config_ok c -> step i c c' -> config_ok c'.
Proof.
  intros (gs & Hinv & Hok) Hst.
  destruct Hst as [σ ths t a k Hi|σ ths t l v k Hi Hv|σ ths t l v k Hi Hv|σ ths t l k r Hi|σ ths t l n k js Hi Hw
    |σ ths t k v Hi|σ ths t t' k Hi|σ ths t S A body s k Hi]; simpl in *;
    destruct (Forall2_lookup_l _ _ _ _ _ Hok Hi) as (g & Hg & Hs & Hth); simpl in Hs, Hth; try destruct Hth as [Hb Hp]; cbn [wp] in *.
  - destruct (Hp σ gs i Hinv Hg) as (g' & ? & ? & ? & ?). exists (<[i:=g']> gs). split; [done|].
    apply ok_insert; [done|]. split; simpl; [congruence|done].
  - specialize (Hp σ gs i Hinv Hg). rewrite (proj2 (Z.eqb_eq _ _) Hv) in Hp. destruct Hp as (g' & ? & ? & ? & ? & ?).
    exists (<[i:=g']> gs). split; [done|]. apply ok_insert; [done|]. split; simpl; [congruence|done].
  - specialize (Hp σ gs i Hinv Hg). rewrite (proj2 (Z.eqb_neq _ _) Hv) in Hp. exists gs. split; [done|].
    rewrite <- (list_insert_id gs i g Hg). by apply ok_insert.
  - destruct Hp as [_ Hp]. exists (<[i:=interrupted g]> gs). split; [by eapply inv_interrupted|].
    apply ok_insert; [done|]. split; simpl; [by rewrite shows_interrupted|]. split; [apply bed_interrupted|done].
  - destruct (wake_config l n σ ths gs js Hinv Hok Hw) as (gs' & Ha & Hinv' & Hok' & Hrest).
    destruct (Hrest i _ Hi) as [_ Eg]; [unfold sleeps; simpl; auto|]. rewrite Hg in Eg.
    destruct (Hp σ gs gs' i Hinv Hg Hinv' Eg Ha) as (g' & ? & ? & ? & ?). exists (<[i:=g']> gs'). split; [done|].
    apply ok_insert; [done|]. split; simpl; [congruence|done].
  - exists gs. split; [done|]. rewrite <- (list_insert_id gs i g Hg). by apply ok_insert.
  - destruct Hp as (g' & ? & ? & Hmv & ?). exists (<[i:=g']> gs). split; [by eapply Hmv|]. by apply ok_insert.
  - destruct Hp as (J & HJ & Hbody). exists gs. split; [done|]. rewrite <- (list_insert_id gs i g Hg). apply ok_insert; [done|].
    split; simpl; [done|]. split; [done|]. apply (wp_bind (body s)). eapply wp_mono; [by apply Hbody|].
    intros [s'|a] g'; [|done]. intros HJ'. exists J. done.
Qed.

(** The invariant holds in every reachable state. *)
Lemma reachable_ok c0 c : config_ok c0 -> reachable c0 c -> config_ok c.
Proof. intros H Hr. induction Hr as [|c1 c2 c3 [i Hst] _ IH]; [done|]. apply IH. by eapply step_ok. Qed.

Lemma config_ok_no_fault c i th : config_ok c -> threads c !! i = Some th -> ~ faulted th.
Proof.
  intros (gs & _ & Hok) Hi Hf. destruct (Forall2_lookup_l _ _ _ _ _ Hok Hi) as (g & _ & _ & H).
  rewrite Hf in H. by destruct H.
Qed.

(** In a stopped state the threads are final or asleep. *)
Lemma stopped_ghosts c gs : Forall2 thread_ok (threads c) gs -> stopped c ->
  (forall j g, gs !! j = Some g -> final g \/ exists l, bed g = Some l) /\
  (forall j th, threads c !! j = Some th -> finished th \/ exists g l, gs !! j = Some g /\ bed g = Some l).
Proof.
  intros Hths Hstop. split.
  - intros j g Hg. destruct (Forall2_lookup_r _ _ _ _ _ Hths Hg) as (th & Hj & _ & Hth).
    destruct (Hstop j th Hj) as [[r Hf]|(l & k & Hf)]; rewrite Hf in Hth; [left; apply Hth|right; exists l; apply Hth].
  - intros j th Hj. destruct (Hstop j th Hj) as [Hf|(l & k & Hf)]; [by left|right].
    destruct (Forall2_lookup_l _ _ _ _ _ Hths Hj) as (g & Hg & _ & Hth). rewrite Hf in Hth. exists g, l. split; [done|apply Hth].
Qed.
End rules.

#[global] Arguments total : simpl never.
#[export] Hint Resolve total_nonneg : synthol.

(** ** Tactics for proofs of [wp] *)

Ltac wp_simpl :=
  cbn [act fst snd mbind prog_mbind prog_bind load a_cas a_store a_swap a_fetch_add a_inc a_dec again leave wp].

(** The operation changes neither the memory nor the ghost value. *)
Ltac stays :=
  match goal with Hinv : inv _ _, Hg : _ !! _ = Some ?g |- _ =>
    exists g; rewrite (list_insert_id _ _ _ Hg); split; [done|]; split; [done|]; split; [exact Hinv|] end.

(** Forget the state between two operations. *)
Ltac forget :=
  repeat match goal with H : context [total _ _] |- _ => clear H end;
  repeat match goal with σ : store |- _ => clear dependent σ end;
  repeat match goal with gs : list _, H : _ !! _ = Some _ |- _ => clear dependent gs end;
  repeat match goal with i : nat |- _ => clear i end.
