(* ===== verification/Rwlock.v ===== *)
(** * Reader-writer locks ([thread/pthread_rwlock_*.c], [thread/__timedwait.c])

    The lock word counts the readers, with 0x7fffffff for a writer, and its top bit
    says that there may be sleepers; the second word counts the threads that wait.
    Any number of threads, each running any sequence of lock and unlock calls, is
    considered.  The private flag of the futex calls is left out, and a sleeping
    thread may be interrupted at any time with any result, which covers signals and
    timeouts. *)
From stdpp Require Import relations.
From S2P Require Import Prelude Conc.

Definition EINTR := 4.
Definition EAGAIN := 11.
Definition EBUSY := 16.
Definition EINVAL := 22.
Definition ENOSYS := 38.
Definition ETIMEDOUT := 110.
Definition ECANCELED := 125.
Definition INT_MAX := 0x7fffffff.

Section waiting.
Context {T : Type}.

(** [at] is the absolute time, [None] for no limit; the clock is read from outside. *)
Definition timedwait_cp (addr : nat) (val : Z) (at_ : option (Z * Z)) : prog T Z :=
  early ← match at_ with
          | None => Done 0
          | Some (sec, nsec) =>
              if 1000000000 <=? u64 nsec then Done EINVAL
              else
                err ← input; to_sec ← input; to_nsec ← input;
                if nz err then Done EINVAL
                else
                  let to_sec := sec - to_sec in
                  let to_nsec := nsec - to_nsec in
                  let to_sec := if to_nsec <? 0 then to_sec - 1 else to_sec in
                  Done (if to_sec <? 0 then ETIMEDOUT else 0)
          end;
  if nz early then Done early
  else
    r ← futex_wait addr val;
    r ← (if - r =? ENOSYS then futex_wait addr val else Done r);
    let r := - r in
    Done (if negb (r =? EINTR) && negb (r =? ETIMEDOUT) && negb (r =? ECANCELED) then 0 else r).

(** Cancellation is disabled around the call, which has no effect here. *)
Definition timedwait := timedwait_cp.

Definition wake (addr : nat) (cnt : Z) : prog T unit := futex_wake addr (if cnt <? 0 then INT_MAX else cnt).

(** [while (spins-- && *lock && !*waiters) a_spin();] *)
Definition spin (lock waiters : nat) (spins : Z) : prog T unit :=
  loop (fun spins =>
    if nz spins then
      v ← load lock;
      if nz v then (w ← load waiters; if nz w then leave tt else again (spins - 1)) else leave tt
    else leave tt) spins.

(** ** The functions *)

Definition _rw_lock : nat := 0.
Definition _rw_waiters : nat := 1.

Definition pthread_rwlock_tryrdlock : prog T Z :=
  loop (fun _ =>
    val ← load _rw_lock;
    let cnt := Z.land val INT_MAX in
    if cnt =? INT_MAX then leave EBUSY
    else if cnt =? 0x7ffffffe then leave EAGAIN
    else
      old ← a_cas _rw_lock val (val + 1);
      if negb (old =? val) then again tt else leave 0) tt.

Definition pthread_rwlock_trywrlock : prog T Z :=
  old ← a_cas _rw_lock 0 INT_MAX; Done (if nz old then EBUSY else 0).

(** The body of the loops of [timedrdlock] and [timedwrlock] from the increment of
    the number of waiters on. *)
Definition queue (r : Z) (at_ : option (Z * Z)) : prog T (unit + Z) :=
  let t := s32 (Z.lor r 0x80000000) in
  _ ← a_inc _rw_waiters;
  _ ← a_cas _rw_lock r t;
  r ← timedwait _rw_lock t at_;
  _ ← a_dec _rw_waiters;
  if nz r && negb (r =? EINTR) then leave r else again tt.

Definition pthread_rwlock_timedrdlock (at_ : option (Z * Z)) : prog T Z :=
  r ← pthread_rwlock_tryrdlock;
  if negb (r =? EBUSY) then Done r
  else
    _ ← spin _rw_lock _rw_waiters 100;
    loop (fun _ =>
      r ← pthread_rwlock_tryrdlock;
      if negb (r =? EBUSY) then leave r
      else
        r ← load _rw_lock;
        if negb (nz r) || negb (Z.land r 0x7fffffff =? 0x7fffffff) then again tt
        else queue r at_) tt.

Definition pthread_rwlock_timedwrlock (at_ : option (Z * Z)) : prog T Z :=
  r ← pthread_rwlock_trywrlock;
  if negb (r =? EBUSY) then Done r
  else
    _ ← spin _rw_lock _rw_waiters 100;
    loop (fun _ =>
      r ← pthread_rwlock_trywrlock;
      if negb (r =? EBUSY) then leave r
      else
        r ← load _rw_lock;
        if negb (nz r) then again tt else queue r at_) tt.

Definition pthread_rwlock_rdlock : prog T Z := pthread_rwlock_timedrdlock None.
Definition pthread_rwlock_wrlock : prog T Z := pthread_rwlock_timedwrlock None.

Definition pthread_rwlock_unlock : prog T Z :=
  '(new, waiters, val, cnt) ← loop (fun _ =>
    val ← load _rw_lock;
    let cnt := Z.land val 0x7fffffff in
    waiters ← load _rw_waiters;
    new ← (if (cnt =? 0x7fffffff) || (cnt =? 1) then Done 0
           else if val =? - 2 ^ 31 then Fault else Done (val - 1));
    old ← a_cas _rw_lock val new;
    if negb (old =? val) then again tt else leave (new, waiters, val, cnt)) tt;
  _ ← (if negb (nz new) && (nz waiters || (val <? 0)) then wake _rw_lock cnt else Done tt);
  Done 0.
End waiting.

(** ** Threads that use the lock *)

Inductive show := Idle | Reading | Writing.

Inductive use := Rd (at_ : option (Z * Z)) | Wr (at_ : option (Z * Z)) | TryRd | TryWr.

(** Take the lock; when that succeeds show it, and give the lock back. *)
Definition section (u : use) : prog show Z :=
  r ← match u with
      | Rd at_ => pthread_rwlock_timedrdlock at_
      | Wr at_ => pthread_rwlock_timedwrlock at_
      | TryRd => pthread_rwlock_tryrdlock
      | TryWr => pthread_rwlock_trywrlock
      end;
  if r =? 0 then
    _ ← mark (match u with Rd _ | TryRd => Reading | Wr _ | TryWr => Writing end);
    _ ← mark Idle;
    pthread_rwlock_unlock
  else Done r.

Fixpoint client (us : list use) : prog show unit :=
  match us with
  | [] => Done tt
  | u :: us => _ ← section u; client us
  end.

(** [pthread_rwlock_init] clears both words. *)
Definition start (clients : list (list use)) : config show :=
  {| memory := fun _ => 0; threads := (fun us => (Idle, Run (client us))) <$> clients |}.

(** ** The invariant *)

(** A thread is away (with [act], it must look at the lock again or wake a
    sleeper), counted among the waiters, asleep, or holds the lock; a holder may
    have seen that there are no waiters. *)
Inductive ghost :=
| Away (act : bool)
| Queued (act : bool)
| Abed
| Holds (wr shown saw0 : bool).

Definition reads (g : ghost) : Z := match g with Holds w _ _ => b2z (negb w) | _ => 0 end.
Definition writes (g : ghost) : Z := match g with Holds w _ _ => b2z w | _ => 0 end.
Definition waits (g : ghost) : Z := match g with Queued _ | Abed => 1 | _ => 0 end.
Definition beds (g : ghost) : Z := match g with Abed => 1 | _ => 0 end.
Definition acts (g : ghost) : Z := match g with Away b | Queued b => b2z b | _ => 0 end.
Definition saws (g : ghost) : Z := match g with Holds _ _ b => b2z b | _ => 0 end.

(** The lock word is the number of readers or marks the writer, the other the
    number of waiters; sleepers have a holder or an active thread to wake them; and
    a holder that saw no waiters goes by the top bit. *)
Definition rw_ok (lock waiters n w q b a u : Z) : Prop :=
  waiters = q /\
  ((w = 0 /\ (lock = n \/ (0 < n /\ lock = n - 2 ^ 31))) \/
   (w = 1 /\ n = 0 /\ (lock = INT_MAX \/ lock = -1))) /\
  (0 < b -> lock <> 0 \/ 0 < a) /\
  (0 < u -> lock < 0 \/ b = 0).

Definition rw_inv (σ : store) (gs : list ghost) : Prop :=
  Z.of_nat (length gs) < 2 ^ 30 /\
  rw_ok (σ _rw_lock) (σ _rw_waiters) (total reads gs) (total writes gs) (total waits gs) (total beds gs)
    (total acts gs) (total saws gs).

Lemma bounds gs :
  0 <= total reads gs /\ 0 <= total writes gs /\ 0 <= total beds gs <= total waits gs /\ 0 <= total acts gs /\
  0 <= total saws gs <= total reads gs + total writes gs /\
  total reads gs + total writes gs + total waits gs <= Z.of_nat (length gs).
Proof.
  rewrite <- !total_add. repeat split.
  all: try (apply total_nonneg; by intros [[]|[]| |[] [] []]).
  all: try (apply total_le; by intros [[]|[]| |[] [] []]).
  apply total_le_length; by intros [[]|[]| |[] [] []].
Qed.

Lemma bounds_at gs i g : gs !! i = Some g ->
  reads g <= total reads gs /\ writes g <= total writes gs /\ waits g <= total waits gs /\
  beds g <= total beds gs /\ acts g <= total acts gs /\ saws g <= total saws gs.
Proof. intros H. repeat split; (eapply total_one; [|exact H]); by intros [[]|[]| |[] [] []]. Qed.

(** Changing the ghost value of one thread. *)
Ltac retotal Hg g' := rewrite !(total_insert _ _ _ _ g' Hg), ?length_insert; cbn [reads writes waits beds acts saws b2z negb]; rewrite ?Z.sub_0_r, ?Z.add_0_r.

#[global, refine] Instance rw_protocol : Protocol show ghost := {
  shows g := match g with Holds wr true _ => if wr then Writing else Reading | _ => Idle end;
  bed g := match g with Abed => Some _rw_lock | _ => None end;
  woken g := match g with Abed => Queued true | g => g end;
  interrupted g := match g with Abed => Queued false | g => g end;
  final g := g = Away false;
  inv := rw_inv;
}.
Proof.
  1-4: by intros [[]|[]| |[] [] []].
  - intros σ gs i g l [Hlen Hok] Hg Hb. destruct g; try done. pose proof (bounds gs). pose proof (bounds_at gs i _ Hg) as Hat. cbn in Hat. unfold rw_inv, rw_ok in *.
    retotal Hg (Queued true). lia.
  - intros σ gs i g l [Hlen Hok] Hg Hb. destruct g; try done. pose proof (bounds gs). pose proof (bounds_at gs i _ Hg) as Hat. cbn in Hat. unfold rw_inv, rw_ok in *.
    retotal Hg (Queued false). lia.
Defined.

(** ** Bits of the lock word *)

Lemma land_max v : - 2 ^ 31 <= v < 2 ^ 31 -> Z.land v 0x7fffffff = if v <? 0 then v + 2 ^ 31 else v.
Proof.
  intros Hv. change 0x7fffffff with (Z.ones 31). rewrite Z.land_ones by lia. destruct (Z.ltb_spec v 0).
  - symmetry. apply (Z.mod_unique_pos _ _ (-1)); lia.
  - apply Z.mod_small. lia.
Qed.

Lemma set_top v : - 2 ^ 31 <= v < 2 ^ 31 -> s32 (Z.lor v 0x80000000) = if v <? 0 then v else v - 2 ^ 31.
Proof.
  intros Hv. pose proof (Z.div_mod v (2 ^ 31) ltac:(lia)) as E. pose proof (Z.mod_pos_bound v (2 ^ 31) ltac:(lia)).
  assert (Hq : v / 2 ^ 31 = 0 /\ 0 <= v \/ v / 2 ^ 31 = -1 /\ v < 0) by (generalize dependent (v mod 2 ^ 31); intros; lia).
  rewrite E at 1. rewrite Z.add_comm. replace 0x80000000 with (0 + 2 ^ 31 * 1) by lia. rewrite lor_split by lia.
  rewrite Z.lor_0_r.
  destruct Hq as [[-> Hn]|[-> Hn]].
  - change (Z.lor 0 1) with 1. rewrite (proj2 (Z.ltb_ge v 0)) by lia. unfold swrap. change (2 ^ (32 - 1)) with (2 ^ 31). divmod.
  - change (Z.lor (-1) 1) with (-1). rewrite (proj2 (Z.ltb_lt v 0)) by lia. rewrite swrap_small by lia. lia.
Qed.

(** Releasing the lock: the new word, and whether sleepers have to be woken. *)
Definition last_holder (val : Z) : bool := let cnt := Z.land val 0x7fffffff in (cnt =? 0x7fffffff) || (cnt =? 1).
Definition wakes_up (waiters val : Z) : bool := last_holder val && (nz waiters || (val <? 0)).

Lemma release val waiters n w q b a u (wr saw : bool) k :
  rw_ok val waiters n w q b a u -> b2z (negb wr) <= n < 2 ^ 30 -> b2z wr <= w -> 0 <= u - b2z saw <= n + w - 1 -> 0 <= b -> 0 <= a ->
  (k = 0 -> saw = true) ->
  rw_ok (if last_holder val then 0 else val - 1) waiters (n - b2z (negb wr)) (w - b2z wr) q b
    (a + b2z (wakes_up k val)) (u - b2z saw).
Proof.
  intros (Hq & Hl & Hb & Hu) Hn Hw Hs Hb0 Ha Hsaw. pose proof (b2z_range saw). unfold wakes_up, last_holder, rw_ok, INT_MAX in *.
  assert (Hval : - 2 ^ 31 <= val < 2 ^ 31) by (pose proof (b2z_range (negb wr)); lia). rewrite land_max by done. clear Hval.
  assert (Hk : k = 0 /\ saw = true \/ nz k = true) by (destruct (Z.eq_dec k 0); [auto|right; by apply nz_true]).
  destruct Hl as [(Hw0 & [Hl|[Hn0 Hl]])|(Hw1 & Hn0 & [Hl|Hl])]; destruct (Z.ltb_spec val 0); try lia.
  all: repeat (match goal with |- context [?x =? ?y] => destruct (Z.eqb_spec x y); try lia end).
  all: destruct Hk as [[-> ->]| ->]; destruct wr; cbn [b2z negb andb orb nz] in *; rewrite ?andb_false_r, ?orb_true_r in *; cbn [b2z] in *; try lia.
Qed.

Lemma word_range σ gs : rw_inv σ gs -> - 2 ^ 31 <= σ _rw_lock < 2 ^ 31.
Proof. intros [Hlen Hok]. pose proof (bounds gs). unfold rw_ok, INT_MAX in Hok. lia. Qed.

(** ** Each function keeps the invariant *)
Section functions.
Implicit Types (Q : Z -> ghost -> Prop).

(** One operation of thread [i], with the bounds on the totals. *)
Ltac operation :=
  wp_simpl; intros σ gs i Hinv Hg; pose proof Hinv as [Hlen Hok]; pose proof (bounds gs) as Hbounds;
  pose proof (bounds_at gs i _ Hg) as Hat; wp_simpl.

(** The new ghost value [g'] of the thread. *)
Ltac becomes g' :=
  exists g'; split; [done|]; split; [done|]; split;
  [ match goal with Hinv : inv _ _, Hg : _ !! _ = Some _, Hok : rw_ok _ _ _ _ _ _ _ _ |- _ =>
      clear Hinv; unfold inv, rw_protocol, rw_inv, rw_ok, set, INT_MAX in *;
      cbn -[Z.pow Z.add Z.sub Z.land Z.lor] in *; retotal Hg g';
      destruct Hok as (Hq & Hl & Hb & Hu); split; [assumption|] end | ].

(** The parts of the invariant that do not change, and the others by cases on the
    lock word. *)
Ltac arith :=
  cbn [b2z negb] in *; rewrite ?Z.sub_0_r, ?Z.add_0_r; split_and!;
  first [ assumption | match goal with Hl : _ \/ _ |- _ =>
    destruct Hl as [[Hw [Hl|[Hn Hl]]]|(Hw & Hn & [Hl|Hl])] end; lia ].

Lemma tryrdlock_ok b Q :
  Q 0 (Holds false false false) ->
  (forall r, r = EBUSY \/ r = EAGAIN -> Q r (Away false)) ->
  wp pthread_rwlock_tryrdlock (Away b) Q.
Proof.
  intros H0 Hr. exists (fun _ g => exists b, g = Away b). split; [eauto|]. clear b. intros _ g [b ->].
  operation. set (val := σ _rw_lock). unfold INT_MAX.
  assert (Hval : - 2 ^ 31 <= val < 2 ^ 31) by (eapply word_range; eauto). rewrite land_max by done.
  destruct (Z.eqb_spec (if val <? 0 then val + 2 ^ 31 else val) 0x7fffffff) as [E|E].
  { becomes (Away false); [..|apply Hr; by left]; ltb_cases val 0 E; destruct b; arith. }
  destruct (Z.eqb_spec (if val <? 0 then val + 2 ^ 31 else val) 0x7ffffffe) as [E1|E1].
  { becomes (Away false); [..|apply Hr; by right]; ltb_cases val 0 E1; destruct b; arith. }
  stays. clearbody val. forget.
  operation. destruct (Z.eqb_spec (σ _rw_lock) val) as [Ev|Ev].
  - becomes (Holds false false false); [..|done]; revert E1; ltb_cases val 0 E; intros; destruct b; arith.
  - stays. cbn. eauto.
Qed.

Lemma trywrlock_ok b Q :
  Q 0 (Holds true false false) -> Q EBUSY (Away false) ->
  wp pthread_rwlock_trywrlock (Away b) Q.
Proof.
  intros H0 Hr. operation. destruct (Z.eqb_spec (σ _rw_lock) 0) as [E|E].
  - becomes (Holds true false false); [destruct b; arith..|]. by rewrite (proj2 (nz_false _)) by done.
  - becomes (Away false); [destruct b; arith..|]. by rewrite (proj2 (nz_true _)) by done.
Qed.

(** A thread that was woken, and not interrupted, has to look at the lock again. *)
Lemma futex_wait_ok t Q : t < 0 -> (forall r c, (c = true -> r = 0) -> Q r (Queued c)) ->
  wp (futex_wait _rw_lock t) (Queued false) Q.
Proof.
  intros Ht HQ. operation. destruct (Z.eqb_spec (σ _rw_lock) t) as [E|E]; [|by apply HQ].
  becomes Abed; [arith..|]. split; [by apply HQ|]. intros r. by apply HQ.
Qed.

Lemma timedwait_ok at_ t Q : t < 0 -> (forall r c, (c = true -> r = 0) -> Q r (Queued c)) ->
  wp (timedwait _rw_lock t at_) (Queued false) Q.
Proof.
  intros Ht HQ. apply wp_bind. apply (wp_mono _ _ (fun _ g => g = Queued false)).
  - destruct at_ as [[sec nsec]|]; [|done]. destruct (1000000000 <=? u64 nsec); [done|].
    intros err s n. by destruct (nz err).
  - intros early g ->. destruct (nz early); [by apply HQ|]. apply wp_bind, futex_wait_ok; [done|]. intros r c Hc.
    apply wp_bind. apply (wp_mono _ _ (fun r g => exists c, g = Queued c /\ (c = true -> r = 0))).
    + destruct (Z.eqb_spec (- r) ENOSYS) as [E|E]; [|by exists c].
      destruct c; [by rewrite Hc in E|]. apply futex_wait_ok; [done|]. eauto.
    + clear r c Hc. intros r g (c & -> & Hc). apply HQ. intros Hct. rewrite (Hc Hct). done.
Qed.

Lemma queue_ok r at_ (Q : unit + Z -> ghost -> Prop) : r <> 0 -> - 2 ^ 31 <= r < 2 ^ 31 ->
  (forall c, Q (inl tt) (Away c)) -> (forall e, e <> 0 -> Q (inr e) (Away false)) ->
  wp (queue r at_) (Away false) Q.
Proof.
  intros Hr Hrange Hagain Hleave. unfold queue. rewrite set_top by done.
  set (t := if r <? 0 then r else r - 2 ^ 31). assert (Ht : t < 0) by (subst t; destruct (Z.ltb_spec r 0); lia).
  operation. becomes (Queued false); [rewrite swrap_small by lia; arith..|]. forget.
  operation.
  assert (Hgo : wp (r ← timedwait _rw_lock t at_; _ ← a_dec _rw_waiters;
    if nz r && negb (r =? EINTR) then leave r else again tt) (Queued false) Q).
  { apply wp_bind, timedwait_ok; [done|]. intros e c Hc. forget. operation.
    destruct (nz e && negb (e =? EINTR)) eqn:Ee.
    - destruct c; [by rewrite Hc in Ee|].
      becomes (Away false); [rewrite swrap_small by lia; arith..|]. apply Hleave. apply andb_prop in Ee as [Ee _]. by apply nz_true.
    - becomes (Away c); [rewrite swrap_small by lia; destruct c; arith..|]. apply Hagain. }
  destruct (Z.eqb_spec (σ _rw_lock) r) as [E|E].
  - becomes (Queued false); [..|exact Hgo]; subst t; ltb_cases r 0 Ht; arith.
  - stays. exact Hgo.
Qed.

Lemma spin_ok g n (Q : unit -> ghost -> Prop) : bed g = None -> Q tt g ->
  wp (spin _rw_lock _rw_waiters n) g Q.
Proof.
  intros Hb HQ. exists (fun _ g' => g' = g). split; [done|]. intros k ? ->. destruct (nz k); [|done].
  cbn [mbind prog_mbind prog_bind load wp]. intros σ gs i Hinv Hg. exists g. rewrite list_insert_id by done.
  split_and!; try done. cbn [act fst]. destruct (nz _); [|done]. clear σ gs i Hinv Hg. intros σ gs i Hinv Hg.
  exists g. rewrite list_insert_id by done. split_and!; try done. by destruct (nz _).
Qed.

Lemma timedrdlock_ok at_ Q : Q 0 (Holds false false false) -> (forall r, r <> 0 -> Q r (Away false)) ->
  wp (pthread_rwlock_timedrdlock at_) (Away false) Q.
Proof.
  intros H0 Hr. apply wp_bind, tryrdlock_ok; [done|]. intros r [->| ->]; [|by apply Hr].
  apply wp_bind, spin_ok; [done|]. exists (fun _ g => exists b, g = Away b). split; [eauto|]. intros _ g [b ->].
  apply wp_bind, tryrdlock_ok; [done|]. intros r [->| ->]; [|by apply Hr].
  operation. stays. pose proof (word_range _ _ Hinv) as Hrange. cbn [act fst].
  revert Hrange. generalize (σ _rw_lock). forget. intros r Hrange.
  destruct (negb (nz r) || _) eqn:E; [cbn; eauto|]. apply orb_false_elim in E as [Hnz%negb_false_iff _].
  apply queue_ok; [by apply nz_true|done|cbn; eauto|exact Hr].
Qed.

Lemma timedwrlock_ok at_ Q : Q 0 (Holds true false false) -> (forall r, r <> 0 -> Q r (Away false)) ->
  wp (pthread_rwlock_timedwrlock at_) (Away false) Q.
Proof.
  intros H0 Hr. apply wp_bind, trywrlock_ok; [done|].
  apply wp_bind, spin_ok; [done|]. exists (fun _ g => exists b, g = Away b). split; [eauto|]. intros _ g [b ->].
  apply wp_bind, trywrlock_ok; [done|].
  operation. stays. pose proof (word_range _ _ Hinv) as Hrange. cbn [act fst].
  revert Hrange. generalize (σ _rw_lock). forget. intros r Hrange.
  destruct (negb (nz r)) eqn:E; [cbn; eauto|]. apply negb_false_iff in E.
  apply queue_ok; [by apply nz_true|done|cbn; eauto|exact Hr].
Qed.

(** A wake-up with someone asleep leaves an active thread behind. *)
Lemma wake_ok n (Q : unit -> ghost -> Prop) : 0 < n -> Q tt (Away false) -> wp (futex_wake _rw_lock n) (Away true) Q.
Proof.
  intros Hn HQ σ gs gs' i Hinv Hg Hinv' Hg' Ha.
  exists (Away false). split; [done|]. split; [done|]. split; [|done].
  destruct Hinv' as [Hl (Hq & Hw & Hb' & Hu)]. clear Hinv. pose proof (bounds gs').
  assert (Hor : total beds gs' = 0 \/ 2 <= total acts gs').
  { destruct (after_wake_cases _ _ _ _ Hn Ha) as [[-> Hno]|(j & h & Hj & Hb & Hj')].
    - left. destruct (Z.lt_ge_cases 0 (total beds gs)) as [Hlt|Hge]; [|lia].
      destruct (total_pos beds gs ltac:(by intros [[]|[]| |[] [] []]) Hlt) as (j & g & Hj & Hgp).
      specialize (Hno j g Hj). by destruct g.
    - right. destruct h; try done. assert (i <> j) by (intros ->; congruence).
      apply (total_two acts gs' i j _ _ ltac:(by intros [[]|[]| |[] [] []]) ltac:(done) Hg' Hj'). }
  unfold inv, rw_protocol, rw_inv, rw_ok. retotal Hg' (Away false). split; [done|]. split_and!; try assumption. lia.
Qed.

Lemma load_lock_ok wr saw :
  wp (load _rw_lock) (Holds wr false saw) (fun val g => g = Holds wr false saw /\ - 2 ^ 31 < val < 2 ^ 31).
Proof.
  operation. stays. split; [done|]. destruct Hok as (_ & Hl & _). unfold INT_MAX in Hl.
  destruct wr; cbn [reads writes b2z negb] in Hat; lia.
Qed.

(** A holder that sees no waiters knows that there are no sleepers. *)
Lemma load_waiters_ok wr :
  wp (load _rw_waiters) (Holds wr false false) (fun waiters g => exists saw, g = Holds wr false saw /\ (waiters = 0 -> saw = true)).
Proof.
  operation. destruct (Z.eq_dec (σ _rw_waiters) 0) as [Ez|Ez].
  - becomes (Holds wr false true); [|eauto]. destruct wr; arith.
  - stays. exists false. split; [done|]. intros H. contradiction.
Qed.

Lemma unlock_ok wr Q : Q 0 (Away false) -> wp pthread_rwlock_unlock (Holds wr false false) Q.
Proof.
  intros HQ. apply wp_bind. exists (fun _ g => g = Holds wr false false). split; [done|]. intros _ ? ->.
  apply wp_bind. eapply wp_mono; [apply load_lock_ok|]. intros val g [-> Hval].
  set (cnt := Z.land val 0x7fffffff). set (new := if last_holder val then 0 else val - 1).
  assert (Hcas : forall waiters saw, (waiters = 0 -> saw = true) -> wp
    (old ← a_cas _rw_lock val new; if negb (old =? val) then again tt else leave (new, waiters, val, cnt)) (Holds wr false saw)
    (fun r g' => match r with
      | inl _ => g' = Holds wr false false
      | inr a => wp (let '(new, waiters, val, cnt) := a in
          _ ← (if negb (nz new) && (nz waiters || (val <? 0)) then wake _rw_lock cnt else Done tt); Done 0) g' Q end)).
  { intros waiters saw Hsaw. operation. destruct (Z.eqb_spec (σ _rw_lock) val) as [E|E].
    2:{ becomes (Holds wr false false); [destruct saw, wr; arith..|done]. }
    exists (Away (wakes_up waiters val)). split; [done|]. split; [done|]. split.
    - pose proof (bounds (<[i := Away (wakes_up waiters val)]> gs)) as Hb'. revert Hb'. unfold inv, rw_protocol, rw_inv.
      retotal Hg (Away (wakes_up waiters val)). intros Hb'. split; [done|]. cbn [set Nat.eqb _rw_lock _rw_waiters].
      rewrite E in Hok. apply release; try done; destruct wr; cbn [reads writes beds acts saws b2z negb] in *; lia.
    - assert (Enew : negb (nz new) = last_holder val).
      { subst new. destruct (last_holder val) eqn:El; [done|]. apply negb_false_iff, nz_true.
        unfold last_holder in El. fold cnt in El. subst cnt. intros Hz. assert (val = 1) as -> by lia. done. }
      cbn [negb]. cbn [leave wp]. rewrite Enew. change (last_holder val && _) with (wakes_up waiters val).
      destruct (wakes_up waiters val) eqn:Ew; [|done]. apply wp_bind. unfold wake.
      apply andb_prop in Ew as [Ew _]. unfold last_holder in Ew. fold cnt in Ew.
      assert (Hcnt : 0 < cnt) by (apply orb_prop in Ew as [Ew|Ew]; apply Z.eqb_eq in Ew; lia).
      rewrite (proj2 (Z.ltb_ge cnt 0)) by lia. apply wake_ok; [done|]. exact HQ. }
  apply wp_bind. eapply wp_mono; [apply load_waiters_ok|]. intros waiters g (saw & -> & Hsaw).
  assert (Hcnt : (cnt =? 0x7fffffff) || (cnt =? 1) = last_holder val) by done. rewrite Hcnt.
  apply wp_bind. specialize (Hcas waiters saw Hsaw). subst new. destruct (last_holder val); [exact Hcas|].
  rewrite (proj2 (Z.eqb_neq val (- 2 ^ 31))) by lia. exact Hcas.
Qed.

Lemma section_ok u Q : (forall r, Q r (Away false)) -> wp (section u) (Away false) Q.
Proof.
  intros HQ. unfold section. apply wp_bind.
  set (wr := match u with Rd _ | TryRd => false | _ => true end).
  assert (H : forall (r : Z) g, (r = 0 /\ g = Holds wr false false) \/ (r <> 0 /\ g = Away false) ->
    wp (if r =? 0 then _ ← mark (match u with Rd _ | TryRd => Reading | Wr _ | TryWr => Writing end);
          _ ← mark Idle; pthread_rwlock_unlock else Done r) g Q).
  { intros r g [[-> ->]|[Hr ->]]; [|rewrite (proj2 (Z.eqb_neq r 0)) by done; apply HQ]. cbn [Z.eqb].
    exists (Holds wr true false). split; [by destruct u|]. split; [done|]. split.
    - intros σ gs i [Hl Hok] Hg. unfold inv, rw_protocol, rw_inv. retotal Hg (Holds wr true false).
      split; [done|]. by rewrite !Z.sub_add.
    - exists (Holds wr false false). split; [done|]. split; [done|]. split; [|by apply unlock_ok].
      intros σ gs i [Hl Hok] Hg. unfold inv, rw_protocol, rw_inv. retotal Hg (Holds wr false false).
      split; [done|]. by rewrite !Z.sub_add. }
  destruct u as [at_|at_| |].
  - apply timedrdlock_ok; [by apply H; left|]. intros r Hr. by apply H; right.
  - apply timedwrlock_ok; [by apply H; left|]. intros r Hr. by apply H; right.
  - apply tryrdlock_ok; [by apply H; left|]. intros r Hr. apply H; right. by destruct Hr as [->| ->].
  - apply trywrlock_ok; [by apply H; left|]. by apply H; right.
Qed.

Lemma client_ok us : wp (client us) (Away false) (fun _ => final).
Proof. induction us as [|u us IH]; simpl; [done|]. by apply wp_bind, section_ok. Qed.
End functions.

(** ** The lock *)

Lemma start_ok clients : Z.of_nat (length clients) < 2 ^ 30 -> config_ok (start clients).
Proof.
  intros Hlen. exists ((fun _ => Away false) <$> clients). split.
  - unfold inv, rw_protocol, rw_inv. rewrite length_fmap, !total_fill by done. split; [done|]. unfold rw_ok. simpl. lia.
  - simpl. clear Hlen. induction clients as [|us cs IH]; [constructor|]. constructor; [|done].
    split; [done|]. split; [done|]. apply client_ok.
Qed.

(** C36. Readers and writers exclude each other: however many threads use the lock,
    blocking, with time limits or by trying, and however they are scheduled and
    interrupted, while one thread is writing no other is reading or writing, and no
    thread runs into undefined behaviour. *)
Theorem rwlock_excludes clients c :
  Z.of_nat (length clients) < 2 ^ 30 ->
  reachable (start clients) c ->
  (forall i j th t th', i <> j -> threads c !! i = Some (Writing, th) -> threads c !! j = Some (t, th') -> t = Idle) /\
  (forall i th, threads c !! i = Some th -> ~ faulted th).
Proof.
  intros Hlen Hr. assert (Hok : config_ok c) by (eapply reachable_ok, Hr; by apply start_ok).
  split; [|by intros i th; apply config_ok_no_fault].
  intros i j th t th' Hne Hi Hj. destruct Hok as (gs & [Hl Hok] & Hths).
  destruct (Forall2_lookup_l _ _ _ _ _ Hths Hi) as (g & Hg & Hs & _).
  destruct (Forall2_lookup_l _ _ _ _ _ Hths Hj) as (h & Hh & Ht & _).
  destruct g as [| | |[] [] saw]; try done. destruct h as [| | |wr [] saw']; try done.
  destruct Hok as (_ & Hw & _). pose proof (bounds gs).
  pose proof (total_two writes gs i j _ _ ltac:(by intros [[]|[]| |[] [] []]) Hne Hg Hh).
  pose proof (bounds_at gs j _ Hh). destruct wr; cbn [reads writes b2z negb] in *; lia.
Qed.

(** C37. The lock loses no wake-up: when no thread can take a step of its own, every
    thread has finished; a thread is never left asleep. *)
Theorem rwlock_no_lost_wakeup clients c :
  Z.of_nat (length clients) < 2 ^ 30 ->
  reachable (start clients) c -> stopped c ->
  forall i th, threads c !! i = Some th -> finished th.
Proof.
  intros Hlen Hr Hstop i th Hi.
  destruct (reachable_ok _ c (start_ok _ Hlen) Hr) as (gs & [Hl Hok] & Hths).
  destruct (stopped_ghosts _ _ Hths Hstop) as [Hgs Hdone].
  destruct (Hdone i th Hi) as [Hf|(g & a & Hg & Hbed)]; [done|]. exfalso.
  assert (Hz : forall f : ghost -> Z, (forall g, 0 <= f g) -> f (Away false) = 0 -> f Abed = 0 -> total f gs <= 0).
  { intros f Hf0 Ho Ha. apply Z.nlt_ge. intros Hlt. destruct (total_pos f gs Hf0 Hlt) as (j & h & Hj & Hp).
    destruct (Hgs j h Hj) as [->|[b Hh]]; [lia|]. destruct h; try done. lia. }
  pose proof (Hz reads ltac:(by intros [[]|[]| |[] [] []]) eq_refl eq_refl).
  pose proof (Hz writes ltac:(by intros [[]|[]| |[] [] []]) eq_refl eq_refl).
  pose proof (Hz acts ltac:(by intros [[]|[]| |[] [] []]) eq_refl eq_refl).
  destruct g; try done. pose proof (bounds gs). pose proof (bounds_at gs i _ Hg). destruct Hok as (_ & Hw & Hb' & _).
  cbn in *. lia.
Qed.

(** A writer, and a reader that goes to sleep until the writer is done. *)
Definition example_start := start [[Wr None]; [Rd None]].
Definition example_sleep := steps 0 2 ++ steps 1 328.
Definition example_end := example_sleep ++ steps 0 5 ++ [(0%nat, ([1%nat], 0))] ++ steps 1 11.

Lemma rwlock_excludes_witness :
  map (fun th => th.1) (threads (after example_sleep example_start)) = [Writing; Idle] /\
  forall i j th t th', i <> j -> threads (after example_sleep example_start) !! i = Some (Writing, th) ->
    threads (after example_sleep example_start) !! j = Some (t, th') -> t = Idle.
Proof.
  split; [vm_compute; reflexivity|].
  apply (rwlock_excludes [[Wr None]; [Rd None]] (after example_sleep example_start)); [done|apply after_reachable].
Defined.

Lemma rwlock_no_lost_wakeup_witness :
  map (fun th => th.1) (threads (after example_end example_start)) = [Idle; Idle] /\
  forall i th, threads (after example_end example_start) !! i = Some th -> finished th.
Proof.
  split; [vm_compute; reflexivity|].
  apply (rwlock_no_lost_wakeup [[Wr None]; [Rd None]]); [done|apply after_reachable|].
  apply stoppedb_stopped. vm_compute. reflexivity.
Defined.
