(* ===== verification/Lock.v ===== *)
(** * The internal lock ([thread/__lock.c])

    One [int] holds a flag in the sign bit and the number of threads inside [__lock]
    or holding the lock.  The assertions in the comments of the code are checked:
    where one fails the model faults. *)
From stdpp Require Import relations.
From S2P Require Import Prelude Conc.

Definition INT_MIN := - 2 ^ 31.
Definition l : nat := 0.
Definition threads_minus_1 : nat := 1.

Section functions.
Context {T : Type}.

Definition futexwait (addr : nat) (val : Z) : prog T unit :=
  r ← futex_wait addr val;
  if negb (r =? -38) then Done tt else (_ ← futex_wait addr val; Done tt).

Definition lock : prog T unit :=
  multi ← load threads_minus_1;
  if negb (nz multi) then Done tt
  else
    current ← a_cas l 0 (INT_MIN + 1);
    if negb (nz current) then Done tt
    else
      taken ← loop (fun '(i, current) =>
        if i <? 10 then
          let current := if current <? 0 then current - (INT_MIN + 1) else current in
          if current <? 0 then Fault
          else
            val ← a_cas l current (INT_MIN + (current + 1));
            if val =? current then leave true else again (i + 1, val)
        else leave false) (0, current);
      if (taken : bool) then Done tt
      else
        current ← a_fetch_add l 1;
        loop (fun current =>
          current ← (if current <? 0 then (_ ← futexwait l current; Done (current - (INT_MIN + 1))) else Done current);
          if current <=? 0 then Fault
          else
            val ← a_cas l current (INT_MIN + current);
            if val =? current then leave tt else again val) (current + 1).

Definition unlock : prog T unit :=
  v ← load l;
  if v <? 0 then
    old ← a_fetch_add l (- (INT_MIN + 1));
    if negb (old =? INT_MIN + 1) then futex_wake l 1 else Done tt
  else Done tt.
End functions.

(** Threads that take the lock [n] times; what a thread shows is whether it is
    between [lock] and [unlock]. *)
Fixpoint client (n : nat) : prog bool unit :=
  match n with
  | O => Done tt
  | S n => _ ← lock; _ ← mark true; _ ← mark false; _ ← unlock; client n
  end.

(** Several threads, and the lock free. *)
Definition start (clients : list nat) : config bool :=
  {| memory := fun a => if Nat.eqb a threads_minus_1 then 1 else 0;
     threads := (fun n => (false, Run (client n))) <$> clients |}.

(** ** The invariant *)

(** A thread is outside (with [wakes], about to wake a sleeper), counted and awake,
    asleep, or holds the lock. *)
Inductive ghost := Outside (waking : bool) | Counted | Abed | Holds (shown : bool).

Definition inside (g : ghost) : Z := match g with Counted | Abed => 1 | _ => 0 end.
Definition held (g : ghost) : Z := match g with Holds _ => 1 | _ => 0 end.
Definition beds (g : ghost) : Z := match g with Abed => 1 | _ => 0 end.
Definition acts (g : ghost) : Z := match g with Outside b => b2z b | Counted => 1 | _ => 0 end.

Definition lock_word (word n h b a : Z) : Prop :=
  word = n + h - 2 ^ 31 * h /\ h <= 1 /\ (0 < b -> h = 1 \/ 0 < a).

Definition lock_inv (σ : store) (gs : list ghost) : Prop :=
  (Z.of_nat (length gs) < 2 ^ 30 /\ σ threads_minus_1 = 1) /\
  lock_word (σ l) (total inside gs) (total held gs) (total beds gs) (total acts gs).

Lemma ghost_nonneg : (forall g, 0 <= inside g) /\ (forall g, 0 <= held g) /\ (forall g, 0 <= beds g) /\ (forall g, 0 <= acts g).
Proof. repeat split; by intros [[]| | |]. Qed.

Lemma lock_bounds gs :
  0 <= total held gs /\ 0 <= total beds gs <= total inside gs /\ 0 <= total acts gs /\
  total inside gs + total held gs <= Z.of_nat (length gs).
Proof.
  destruct ghost_nonneg as (Hi & Hh & Hb & Ha). rewrite <- total_add.
  repeat split; try by apply total_nonneg.
  - apply total_le. by intros [[]| | |].
  - apply total_le_length. by intros [[]| | |].
Qed.

Lemma lock_bounds_at gs i g : gs !! i = Some g ->
  inside g <= total inside gs /\ held g <= total held gs /\ beds g <= total beds gs /\ acts g <= total acts gs.
Proof. intros H. destruct ghost_nonneg as (Hi & Hh & Hb & Ha). repeat split; by eapply total_one. Qed.

Ltac retotal Hg g' :=
  rewrite !(total_insert _ _ _ _ g' Hg), ?length_insert; cbn [inside held beds acts b2z]; rewrite ?Z.sub_0_r, ?Z.add_0_r.

#[global, refine] Instance lock_protocol : Protocol bool ghost := {
  shows g := match g with Holds b => b | _ => false end;
  bed g := match g with Abed => Some l | _ => None end;
  woken g := match g with Abed => Counted | g => g end;
  interrupted g := match g with Abed => Counted | g => g end;
  final g := g = Outside false;
  inv := lock_inv;
}.
Proof.
  1-4: by intros [[]| | |].
  all: intros σ gs i g a [Hlen Hok] Hg Hb; destruct g; try done; pose proof (lock_bounds gs);
    pose proof (lock_bounds_at gs i _ Hg) as Hat; cbn in Hat; unfold lock_inv, lock_word in *; retotal Hg Counted; lia.
Defined.

(** ** Each function keeps the invariant *)
Section proofs.

Ltac operation :=
  wp_simpl; intros σ gs i Hinv Hg; pose proof Hinv as [[Hlen Hmulti] Hok]; pose proof (lock_bounds gs) as Hbounds;
  pose proof (lock_bounds_at gs i _ Hg) as Hat; wp_simpl.

Ltac becomes g' :=
  exists g'; split; [done|]; split; [done|]; split;
  [ match goal with Hinv : inv _ _, Hg : _ !! _ = Some _, Hok : lock_word _ _ _ _ _ |- _ =>
      clear Hinv; unfold inv, lock_protocol, lock_inv, lock_word, set, INT_MIN in *;
      cbn -[Z.pow Z.add Z.sub Z.mul] in *; retotal Hg g'; split; [by split|]; try lia end | ].

(** The word a thread may see: it is not below the flag with a count of one. *)
Lemma lock_word_range σ gs : lock_inv σ gs -> INT_MIN + 1 <= σ l < 2 ^ 30.
Proof. intros [[Hlen _] (Hw & Hh & _)]. pose proof (lock_bounds gs). unfold INT_MIN. nia. Qed.

(** The first loop either takes the lock or leaves the thread outside. *)
Definition seen (current : Z) : Prop := INT_MIN + 1 <= current < 2 ^ 30.

Lemma cas_ok current (Q : Z -> ghost -> Prop) : 0 <= current ->
  Q current (Holds false) -> (forall val, val <> current -> seen val -> Q val (Outside false)) ->
  wp (a_cas l current (INT_MIN + (current + 1))) (Outside false) Q.
Proof.
  intros Hc Htake Hfail. operation. destruct (Z.eqb_spec (σ l) current) as [E|E].
  - becomes (Holds false). by rewrite E.
  - stays. apply Hfail; [done|]. by eapply lock_word_range.
Qed.

Lemma lock_spin_ok current : seen current ->
  wp (loop (fun '(i, current) =>
        if i <? 10 then
          let current := if current <? 0 then current - (INT_MIN + 1) else current in
          if current <? 0 then Fault
          else
            val ← a_cas l current (INT_MIN + (current + 1));
            if val =? current then leave true else again (i + 1, val)
        else leave false) (0, current)) (Outside false)
    (fun taken g => g = if (taken : bool) then Holds false else Outside false).
Proof.
  intros Hs. exists (fun '(_, current) g => g = Outside false /\ seen current). split; [done|]. clear current Hs.
  intros [i current] g [-> Hs]. destruct (i <? 10); [|done]. cbv zeta.
  set (c := if current <? 0 then current - (INT_MIN + 1) else current).
  assert (Hc : 0 <= c) by (subst c; unfold seen, INT_MIN in *; destruct (Z.ltb_spec current 0); lia).
  rewrite (proj2 (Z.ltb_ge c 0)) by lia. apply wp_bind, cas_ok; [done|by rewrite Z.eqb_refl|].
  intros val Hne Hval. by rewrite (proj2 (Z.eqb_neq val c)).
Qed.

(** The main loop, for a thread that is counted. *)
Definition seen_counted (current : Z) : Prop := INT_MIN + 2 <= current <= 2 ^ 30 /\ (current < 0 \/ 0 < current).

Lemma word_counted σ gs i : lock_inv σ gs -> gs !! i = Some Counted -> seen_counted (σ l).
Proof.
  intros [[Hlen _] (Hw & Hh & _)] Hg. pose proof (lock_bounds gs). pose proof (lock_bounds_at gs i _ Hg) as Hat. cbn in Hat.
  unfold seen_counted, INT_MIN. assert (total held gs = 0 \/ total held gs = 1) as [E|E] by lia; rewrite E in *; lia.
Qed.

Lemma futexwait_ok val (Q : unit -> ghost -> Prop) : val < 0 -> Q tt Counted -> wp (futexwait l val) Counted Q.
Proof.
  intros Hv HQ.
  assert (H : forall Q : Z -> ghost -> Prop, (forall r, Q r Counted) -> wp (futex_wait l val) Counted Q).
  { intros Q' HQ'. operation. destruct (Z.eqb_spec (σ l) val) as [E|E]; [|by apply HQ'].
    becomes Abed. by split. }
  apply wp_bind, H. intros r. destruct (negb (r =? -38)); [done|]. by apply wp_bind, H.
Qed.

Lemma main_loop_ok current (Q : unit -> ghost -> Prop) : seen_counted current -> Q tt (Holds false) ->
  wp (loop (fun current =>
          current ← (if current <? 0 then (_ ← futexwait l current; Done (current - (INT_MIN + 1))) else Done current);
          if current <=? 0 then Fault
          else
            val ← a_cas l current (INT_MIN + current);
            if val =? current then leave tt else again val) current) Counted Q.
Proof.
  intros Hs HQ. exists (fun current g => g = Counted /\ seen_counted current). split; [done|]. clear current Hs.
  intros current g [-> [Hr Hz]]. apply wp_bind.
  apply (wp_mono _ _ (fun c g => g = Counted /\ 0 < c)).
  - destruct (Z.ltb_spec current 0); [|split; [done|lia]]. apply wp_bind, futexwait_ok; [done|].
    split; [done|]. unfold INT_MIN in *. lia.
  - intros c g [-> Hc]. rewrite (proj2 (Z.leb_gt c 0)) by lia. clear current Hr Hz.
    operation. destruct (Z.eqb_spec (σ l) c) as [E|E].
    + becomes (Holds false). done.
    + stays. split; [done|]. by eapply word_counted.
Qed.

Lemma load_multi_ok (Q : Z -> ghost -> Prop) : Q 1 (Outside false) -> wp (load threads_minus_1) (Outside false) Q.
Proof. intros HQ. operation. stays. by rewrite Hmulti. Qed.

Lemma load_held_ok (Q : Z -> ghost -> Prop) : (forall v, v < 0 -> Q v (Holds false)) -> wp (load l) (Holds false) Q.
Proof.
  intros HQ. operation. stays. apply HQ. destruct Hok as (Hw & Hh & _). cbn in Hat.
  assert (total held gs = 1) as E by lia. rewrite E in Hw. lia.
Qed.

Lemma lock_wp (Q : unit -> ghost -> Prop) : Q tt (Holds false) -> wp lock (Outside false) Q.
Proof.
  intros HQ. apply wp_bind, load_multi_ok, wp_bind, (cas_ok 0); [done|done|]. intros current Hne Hs.
  rewrite (proj2 (nz_true _)) by done. apply wp_bind. eapply wp_mono; [by apply lock_spin_ok|].
  intros [] g ->; [done|]. apply wp_bind. operation. 
  becomes Counted.
  - rewrite swrap_small by lia. lia.
  - pose proof (lock_word_range _ _ Hinv). apply main_loop_ok; [|done]. unfold seen_counted. split; [lia|].
    destruct Hok as (Hw & Hh & _). unfold INT_MIN in *. nia.
Qed.

(** A wake-up with someone asleep leaves an active thread behind. *)
Lemma lock_wake_ok (Q : unit -> ghost -> Prop) : Q tt (Outside false) -> wp (futex_wake l 1) (Outside true) Q.
Proof.
  intros HQ σ gs gs' i Hinv Hg Hinv' Hg' Ha. exists (Outside false). split; [done|]. split; [done|]. split; [|done].
  destruct Hinv' as [Hl (Hw & Hh & Hb)]. pose proof (lock_bounds gs').
  assert (Hor : total beds gs' = 0 \/ 2 <= total acts gs').
  { destruct (after_wake_cases _ _ _ _ Z.lt_0_1 Ha) as [[-> Hno]|(j & h & Hj & Hbed & Hj')].
    - left. destruct (Z.lt_ge_cases 0 (total beds gs)) as [Hlt|Hge]; [|lia].
      destruct (total_pos beds gs ltac:(apply ghost_nonneg) Hlt) as (j & g & Hj & Hgp).
      specialize (Hno j g Hj). by destruct g.
    - right. destruct h; try done. assert (i <> j) by (intros ->; congruence).
      apply (total_two acts gs' i j _ _ ltac:(apply ghost_nonneg) ltac:(done) Hg' Hj'). }
  unfold inv, lock_protocol, lock_inv, lock_word. retotal Hg' (Outside false). split; [done|]. lia.
Qed.

Lemma unlock_wp (Q : unit -> ghost -> Prop) : Q tt (Outside false) -> wp unlock (Holds false) Q.
Proof.
  intros HQ. apply wp_bind, load_held_ok. intros v Hv. rewrite (proj2 (Z.ltb_lt _ _) Hv). operation.
  assert (total held gs = 1) as Hone by (destruct Hok as (Hw & Hh & _); cbn in Hat; lia).
  destruct (Z.eqb_spec (σ l) (INT_MIN + 1)) as [E|E].
  - becomes (Outside false); [|done]. rewrite Hone in *. rewrite swrap_small by lia. lia.
  - becomes (Outside true).
    + rewrite Hone in *. rewrite swrap_small by lia. lia.
    + by apply lock_wake_ok.
Qed.

Lemma client_wp n : wp (client n) (Outside false) (fun _ => final).
Proof.
  induction n as [|n IH]; [done|]. cbn [client]. apply wp_bind, lock_wp.
  assert (Hm : forall b b' σ gs i, inv σ gs -> gs !! i = Some (Holds b) -> inv σ (<[i := Holds b']> gs)).
  { intros b b' σ gs i [Hl Hok] Hg. unfold inv, lock_protocol, lock_inv. retotal Hg (Holds b').
    split; [done|]. by rewrite Z.sub_add. }
  exists (Holds true). split; [done|]. split; [done|]. split; [by apply Hm|].
  exists (Holds false). split; [done|]. split; [done|]. split; [by apply Hm|]. by apply wp_bind, unlock_wp.
Qed.
End proofs.

Lemma lock_start_ok clients : Z.of_nat (length clients) < 2 ^ 30 -> config_ok (start clients).
Proof.
  intros Hlen. exists ((fun _ => Outside false) <$> clients). split.
  - unfold inv, lock_protocol, lock_inv. rewrite length_fmap, !total_fill by done. split; [done|].
    unfold lock_word. simpl. lia.
  - simpl. clear Hlen. induction clients as [|n cs IH]; [constructor|]. constructor; [|done].
    split; [done|]. split; [done|]. apply client_wp.
Qed.

(** The internal lock excludes: at most one thread is between [lock] and
    [unlock], and none of the assertions that the comments of the code make fails. *)
Theorem lock_excludes clients c :
  Z.of_nat (length clients) < 2 ^ 30 -> reachable (start clients) c ->
  (forall i j th t th', i <> j -> threads c !! i = Some (true, th) -> threads c !! j = Some (t, th') -> t = false) /\
  (forall i th, threads c !! i = Some th -> ~ faulted th).
Proof.
  intros Hlen Hr. assert (Hok : config_ok c) by (eapply reachable_ok, Hr; by apply lock_start_ok).
  split; [|by intros i th; apply config_ok_no_fault].
  intros i j th t th' Hne Hi Hj. destruct Hok as (gs & [Hl (_ & Hh & _)] & Hths).
  destruct (Forall2_lookup_l _ _ _ _ _ Hths Hi) as (g & Hg & Hs & _).
  destruct (Forall2_lookup_l _ _ _ _ _ Hths Hj) as (h & Hj' & Ht & _).
  destruct g as [| | |[]]; try done. destruct h as [| | |[]]; try done.
  pose proof (total_two held gs i j _ _ ltac:(apply ghost_nonneg) Hne Hg Hj'). cbn in *. lia.
Qed.

(** The internal lock loses no wake-up: when no thread can take a step of its own,
    every thread has finished. *)
Theorem lock_no_lost_wakeup clients c :
  Z.of_nat (length clients) < 2 ^ 30 -> reachable (start clients) c -> stopped c ->
  forall i th, threads c !! i = Some th -> finished th.
Proof.
  intros Hlen Hr Hstop i th Hi.
  destruct (reachable_ok _ c (lock_start_ok _ Hlen) Hr) as (gs & [Hl (_ & _ & Hb)] & Hths).
  destruct (stopped_ghosts _ _ Hths Hstop) as [Hgs Hdone].
  destruct (Hdone i th Hi) as [Hf|(g & a & Hg & Hbed)]; [done|]. exfalso.
  assert (Hz : forall f : ghost -> Z, (forall g, 0 <= f g) -> f (Outside false) = 0 -> f Abed = 0 -> total f gs <= 0).
  { intros f Hf0 Ho Ha. apply Z.nlt_ge. intros Hlt. destruct (total_pos f gs Hf0 Hlt) as (j & h & Hj & Hp).
    destruct (Hgs j h Hj) as [->|[b Hh]]; [lia|]. destruct h; try done. lia. }
  pose proof (Hz held ltac:(apply ghost_nonneg) eq_refl eq_refl).
  pose proof (Hz acts ltac:(apply ghost_nonneg) eq_refl eq_refl).
  destruct g; try done. pose proof (lock_bounds_at gs i _ Hg). cbn in *. lia.
Qed.

(** A thread that holds the lock while another goes to sleep, until it is woken. *)
Definition example_start := start [1%nat; 1%nat].
Definition example_sleep := steps 0 3 ++ steps 1 26.
Definition example_end := example_sleep ++ steps 0 3 ++ [(0%nat, ([1%nat], 0))] ++ steps 1 5.

Lemma lock_excludes_witness :
  map (fun th => th.1) (threads (after example_sleep example_start)) = [true; false] /\
  forall i j th t th', i <> j -> threads (after example_sleep example_start) !! i = Some (true, th) ->
    threads (after example_sleep example_start) !! j = Some (t, th') -> t = false.
Proof.
  split; [vm_compute; reflexivity|].
  apply (lock_excludes [1; 1]%nat (after example_sleep example_start)); [done|apply after_reachable].
Defined.

Lemma lock_no_lost_wakeup_witness :
  length (threads (after example_end example_start)) = 2%nat /\
  forall i th, threads (after example_end example_start) !! i = Some th -> finished th.
Proof.
  split; [vm_compute; reflexivity|].
  apply (lock_no_lost_wakeup [1; 1]%nat); [done|apply after_reachable|].
  apply stoppedb_stopped. vm_compute. reflexivity.
Defined.
