(* ===== verification/Intscan.v ===== *)
(** * Integers from text ([internal/intscan.c], [stdlib/strtol.c], [stdlib/atoi.c])

    [strtol] and its relatives scan a string through a [FILE] whose buffer is the
    string.  The fields of it that the scan uses are [sfile]; reading on past the
    end of the buffer would call a null [read] function, and is a fault. *)
From S2P Require Import Prelude Mem StrScan CString.

(** ** Characters *)

Definition isdigit (c : Z) : bool := u32 (c - 48) <? 10.
Definition isspace (c : Z) : bool := (c =? 32) || (u32 (c - 9) <? 5).

(** The table of digit values, indexed from -1. *)
Definition table : list Z :=
  [255] ++ replicate 48 255 ++ [0;1;2;3;4;5;6;7;8;9] ++ replicate 7 255 ++
  [10;11;12;13;14;15;16;17;18;19;20;21;22;23;24;25;26;27;28;29;30;31;32;33;34;35] ++ replicate 6 255 ++
  [10;11;12;13;14;15;16;17;18;19;20;21;22;23;24;25;26;27;28;29;30;31;32;33;34;35] ++ replicate 133 255.
Definition val (c : Z) : Z := default 255 (table !! Z.to_nat (c + 1)).

(** ** The scanning window of [shgetc.h] *)

Record sfile := { rpos : Z; rend : Z; shend : Z; shcnt_ : Z; shlim_ : Z }.

Definition shlim (f : sfile) (lim : Z) : sfile :=
  let cnt := rend f - rpos f in
  {| rpos := rpos f; rend := rend f; shlim_ := lim; shcnt_ := cnt;
     shend := if nz lim && (lim <? cnt) then rpos f + lim else rend f |}.
Definition shcnt (f : sfile) : Z := shcnt_ f + (rpos f - rend f).
Definition advance (f : sfile) (k : Z) : sfile :=
  {| rpos := rpos f + k; rend := rend f; shend := shend f; shcnt_ := shcnt_ f; shlim_ := shlim_ f |}.
Definition shgetc (m : mem) (f : sfile) : option (Z * sfile) :=
  if rpos f <? shend f then c ← load8 m (rpos f); Some (c, advance f 1) else None.
Definition shunget (f : sfile) : sfile := if nz (shend f) then advance f (-1) else f.

(** ** The scan *)

Definition UINT_MAX := 2 ^ 32 - 1.
Definition ULLONG_MAX := 2 ^ 64 - 1.
Definition EINVAL := 22.
Definition ERANGE := 34.

(** [for (...; cond; c = shgetc(f)) x = step] *)
Definition scan_while (m : mem) (cond : Z -> Z -> bool) (step : Z -> Z -> Z) (s : Z * Z * sfile) : option (Z * Z * sfile) :=
  iter (fuel_of m) (fun '(x, c, f) =>
    if cond x c then '(c', f) ← shgetc m f; Some (Next (step x c, c', f)) else Some (Leave (x, c, f))) s.

Definition shift_table : list Z := [0;1;2;4;7;3;6;5].

(** The digits of the number, from the first one. *)
Definition digits (m : mem) (base c : Z) (f : sfile) : option (Z * Z * sfile) :=
  if base =? 10 then
    s ← scan_while m (fun x c => isdigit c && (x <=? UINT_MAX / 10 - 1)) (fun x c => u32 (x * 10 + (c - 48))) (0, c, f);
    scan_while m (fun y c => isdigit c && (y <=? ULLONG_MAX / 10) && (u64 (10 * y) <=? ULLONG_MAX - (c - 48)))
      (fun y c => u64 (y * 10 + (c - 48))) s
  else if negb (nz (Z.land base (base - 1))) then
    bs ← shift_table !! Z.to_nat (Z.land (Z.shiftr (u32 (0x17 * base)) 5) 7);
    s ← scan_while m (fun x c => (val c <? base) && (x <=? UINT_MAX / 32)) (fun x c => Z.lor (u32 (Z.shiftl x bs)) (val c)) (0, c, f);
    scan_while m (fun y c => (val c <? base) && (y <=? Z.shiftr ULLONG_MAX bs)) (fun y c => Z.lor (u64 (Z.shiftl y bs)) (val c)) s
  else
    s ← scan_while m (fun x c => (val c <? base) && (x <=? UINT_MAX / 36 - 1)) (fun x c => u32 (x * base + val c)) (0, c, f);
    scan_while m (fun y c => (val c <? base) && (y <=? ULLONG_MAX / base) && (u64 (base * y) <=? ULLONG_MAX - val c))
      (fun y c => u64 (y * base + val c)) s.

(** The end of the scan: the value, the file and [errno] ([None] when it is not
    set). *)
Definition finish (m : mem) (base neg lim : Z) (s : Z * Z * sfile) : option (Z * sfile * option Z) :=
  let '(y, c, f) := s in
  '(y, neg, f, err) ← (if val c <? base then
      '(_, _, f) ← scan_while m (fun _ c => val c <? base) (fun x _ => x) (y, c, f);
      Some (lim, if nz (Z.land lim 1) then 0 else neg, f, Some ERANGE)
    else Some (y, neg, f, None));
  let f := shunget f in
  if (lim <=? y) && negb (nz (Z.land lim 1)) && negb (nz neg) then Some (u64 (lim - 1), f, Some ERANGE)
  else if lim <? y then Some (lim, f, Some ERANGE)
  else Some (u64 (Z.lxor y (u64 neg) - neg), f, err).

(** [pok] is set for [strtol]; [scanf] leaves it clear. *)
Definition intscan (m : mem) (f : sfile) (base : Z) (pok : bool) (lim : Z) : option (Z * sfile * option Z) :=
  if (36 <? base) || (base =? 1) then Some (0, f, Some EINVAL)
  else
    '(c, f) ← (p ← shgetc m f;
      iter (fuel_of m) (fun '(c, f) => if isspace c then p ← shgetc m f; Some (Next p) else Some (Leave (c, f))) p);
    '(neg, c, f) ← (if (c =? 43) || (c =? 45) then
        '(c', f) ← shgetc m f; Some (- b2z (c =? 45), c', f)
      else Some (0, c, f));
    if ((base =? 0) || (base =? 16)) && (c =? 48) then
      '(c, f) ← shgetc m f;
      if Z.lor c 32 =? 120 then
        '(c, f) ← shgetc m f;
        if 16 <=? val c then
          let f := shunget f in
          Some (0, if pok then shunget f else shlim f 0, None)
        else s ← digits m 16 c f; finish m 16 neg lim s
      else
        let base := if base =? 0 then 8 else base in
        s ← digits m base c f; finish m base neg lim s
    else
      let base := if base =? 0 then 10 else base in
      if base <=? val c then Some (0, shlim (shunget f) 0, Some EINVAL)
      else s ← digits m base c f; finish m base neg lim s.

(** ** The functions *)

(** The result, the end pointer and [errno]. *)
Definition strtox (m : mem) (s base lim : Z) : option (Z * Z * option Z) :=
  let f := {| rpos := s; rend := if (2 ^ 64 - 1) / 2 <? s then 2 ^ 64 - 1 else s + (2 ^ 64 - 1) / 2;
              shend := 0; shcnt_ := 0; shlim_ := 0 |} in
  '(y, f, err) ← intscan m (shlim f 0) (u32 base) true lim;
  Some (y, s + shcnt f, err).

Definition strtoull (m : mem) (s base : Z) := strtox m s base (2 ^ 64 - 1).
Definition strtoul (m : mem) (s base : Z) := strtox m s base (2 ^ 64 - 1).
Definition signed_result (r : option (Z * Z * option Z)) : option (Z * Z * option Z) :=
  '(y, p, err) ← r; Some (s64 y, p, err).
Definition strtoll (m : mem) (s base : Z) := signed_result (strtox m s base (2 ^ 63)).
Definition strtol (m : mem) (s base : Z) := signed_result (strtox m s base (2 ^ 63)).
Definition strtoimax := strtoll.
Definition strtoumax := strtoull.

(** [atoi], [atol] and [atoll] at their widths; signed overflow is a fault. *)
Definition ato (w : Z) (m : mem) (s : Z) : option Z :=
  s ← iter (fuel_of m) (fun s => c ← load8 m s; if isspace (s8 c) then Some (Next (s + 1)) else Some (Leave s)) s;
  c ← load8 m s;
  let neg := c =? 45 in
  let s := if (c =? 45) || (c =? 43) then s + 1 else s in
  n ← iter (fuel_of m) (fun '(n, s) =>
    c ← load8 m s;
    if isdigit (s8 c) then
      let n := 10 * n - (s8 c - 48) in
      if n <? - 2 ^ (w - 1) then None else Some (Next (n, s + 1))
    else Some (Leave n)) (0, s);
  if neg then Some n else if n =? - 2 ^ (w - 1) then None else Some (- n).
Definition atoi := ato 32.
Definition atol := ato 64.
Definition atoll := ato 64.

Definition text (p : Z) (bs : list Z) : mem := write_bytes ∅ p (bs ++ [0]).
Example strtol_ex : strtol (text 100 [32; 45; 48; 120; 70; 102; 71]) 100 0 = Some (-255, 106, None).
Proof. vm_compute. reflexivity. Qed.
Example strtoul_ex : strtoul (text 100 [50; 49; 57; 57; 57; 57; 57; 57; 57; 57; 57; 57; 57; 57; 57; 57; 57; 57; 57; 57; 33]) 100 10
  = Some (2 ^ 64 - 1, 120, Some ERANGE).
Proof. vm_compute. reflexivity. Qed.
Example strtol_bad : strtol (text 100 [32; 43; 48; 120; 122]) 100 16 = Some (0, 103, None) /\
  strtol (text 100 [32; 43; 122]) 100 16 = Some (0, 100, Some EINVAL).
Proof. split; vm_compute; reflexivity. Qed.
Example atoi_ex : atoi (text 100 [32; 45; 50; 49; 52; 55; 52; 56; 51; 54; 52; 56; 120]) 100 = Some (- 2 ^ 31).
Proof. vm_compute. reflexivity. Qed.

(** ** What a number is *)

Fixpoint prefix_of (p : Z -> bool) (bs : list Z) : list Z :=
  match bs with [] => [] | b :: bs => if p b then b :: prefix_of p bs else [] end.

Definition digit_of (base c : Z) : bool := val c <? base.

(** The value of a sequence of digits. *)
Definition value_from (base x : Z) (ds : list Z) : Z := foldl (fun x c => x * base + val c) x ds.
Definition value (base : Z) (ds : list Z) : Z := value_from base 0 ds.

(** White space and the sign: their length, and whether the sign is a minus. *)
Definition lead (bs : list Z) : Z * bool :=
  let n := Z.of_nat (length (prefix_of isspace bs)) in
  match drop (Z.to_nat n) bs with
  | b :: _ => if b =? 45 then (n + 1, true) else if b =? 43 then (n + 1, false) else (n, false)
  | [] => (n, false)
  end.

(** The sign, the value and the length of the number at the start of a string, in
    a base of 2 to 36, or with 0 the base its prefix gives it. *)
Definition parse (base : Z) (bs : list Z) : option (bool * Z * Z) :=
  let '(n, neg) := lead bs in
  let bs := drop (Z.to_nat n) bs in
  let number base k bs := let ds := prefix_of (digit_of base) bs in (neg, value base ds, n + k + Z.of_nat (length ds)) in
  match bs with
  | b :: bs' =>
      if ((base =? 0) || (base =? 16)) && (b =? 48) then
        match bs' with
        | x :: bs'' =>
            if Z.lor x 32 =? 120 then
              Some (if digit_of 16 (default 0 (head bs'')) then number 16 2 bs'' else (neg, 0, n + 1))
            else Some (number (if base =? 0 then 8 else 16) 1 bs')
        | [] => Some (neg, 0, n + 1)
        end
      else
        let base := if base =? 0 then 10 else base in
        if digit_of base b then Some (number base 0 bs) else None
  | [] => None
  end.

(** ** Bytes *)

Lemma byte_check (p : Z -> bool) c : forallb p (seqZ 0 256) = true -> is_byte c -> p c = true.
Proof. intros H Hc. by apply forall_byte. Qed.

Lemma val_range c : is_byte c -> 0 <= val c <= 255.
Proof.
  intros Hc. assert (H : (0 <=? val c) && (val c <=? 255) = true).
  { apply (byte_check (fun c => (0 <=? val c) && (val c <=? 255))); [vm_compute; reflexivity|done]. }
  apply andb_prop in H as [H1 H2]. apply Z.leb_le in H1. apply Z.leb_le in H2. lia.
Qed.

Lemma isdigit_val c : is_byte c -> isdigit c = (val c <? 10) /\ (isdigit c = true -> val c = c - 48 /\ val c < 10).
Proof.
  intros Hc. assert (H : eqb (isdigit c) (val c <? 10) && implb (isdigit c) (val c =? c - 48) = true).
  { apply (byte_check (fun c => eqb (isdigit c) (val c <? 10) && implb (isdigit c) (val c =? c - 48))); [vm_compute; reflexivity|done]. }
  apply andb_prop in H as [H1 H2]. apply eqb_prop in H1.
  split; [done|]. intros E. rewrite E in H1, H2. apply Z.eqb_eq in H2. split; [done|]. by apply Z.ltb_lt.
Qed.

(** ** The scan of a string *)
Section string.
Context (m : mem) (s len re : Z) (Hok : mem_ok m) (Hs : cstr m s len) (Hre : s + len < re).

Definition at_byte (i : Z) : sfile := {| rpos := s + i; rend := re; shend := re; shcnt_ := re - s; shlim_ := 0 |}.
Definition byte (i : Z) : Z := rd m (s + i).
Definition slice (i j : Z) : list Z := bytes_of m (s + i) (j - i).

Lemma byte_ok i : is_byte (byte i).
Proof. by apply rd_byte. Qed.

Lemma shgetc_ok i : 0 <= i <= len -> shgetc m (at_byte i) = Some (byte i, at_byte (i + 1)).
Proof.
  intros Hi. destruct Hs as (Hl & Hm & _). unfold shgetc. cbn [rpos shend at_byte].
  rewrite (proj2 (Z.ltb_lt _ _)) by lia. rewrite (load8_rd m s (len + 1)) by (done || lia). simpl.
  unfold advance, at_byte. simpl. by rewrite Z.add_assoc.
Qed.

Lemma shunget_ok i : 0 <= s -> 0 <= i -> shunget (at_byte (i + 1)) = at_byte i.
Proof.
  intros. unfold shunget. cbn [shend at_byte]. destruct Hs as (Hl & _). rewrite (proj2 (nz_true re)) by lia.
  unfold advance, at_byte. simpl. f_equal. lia.
Qed.

Lemma byte_end : byte len = 0.
Proof. by destruct Hs as (_ & _ & _ & Hz). Qed.

Lemma slice_nil i : slice i i = [].
Proof. unfold slice. by rewrite Z.sub_diag. Qed.

Lemma slice_snoc i j : i <= j -> slice i (j + 1) = slice i j ++ [byte j].
Proof.
  intros. unfold slice, byte. replace (j + 1 - i) with (j - i + 1) by lia. rewrite bytes_of_snoc by lia.
  do 3 f_equal. lia.
Qed.

Lemma slice_cons i j : i < j -> slice i j = byte i :: slice (i + 1) j.
Proof.
  intros. unfold slice, byte. rewrite bytes_of_cons by lia. f_equal. f_equal; lia.
Qed.

Lemma slice_app i j k : i <= j <= k -> slice i k = slice i j ++ slice j k.
Proof.
  intros. unfold slice. replace (k - i) with ((j - i) + (k - j)) by lia. rewrite bytes_of_app by lia.
  do 2 f_equal. lia.
Qed.

(** A loop that reads on while a condition holds that fails at the terminator. *)
Lemma scan_while_ok cond step i x : 0 <= i <= len -> (forall x, cond x 0 = false) ->
  exists j, i <= j <= len /\
    scan_while m cond step (x, byte i, at_byte (i + 1)) = Some (foldl step x (slice i j), byte j, at_byte (j + 1)) /\
    cond (foldl step x (slice i j)) (byte j) = false /\
    forall k, i <= k < j -> cond (foldl step x (slice i k)) (byte k) = true.
Proof.
  intros Hi Hz. unfold scan_while.
  edestruct (iter_rule
    (fun '(y, c, f) => exists k, i <= k <= len /\ y = foldl step x (slice i k) /\ c = byte k /\ f = at_byte (k + 1) /\
       forall k', i <= k' < k -> cond (foldl step x (slice i k')) (byte k') = true)
    (fun '(_, _, f) => Z.to_nat (s + len + 1 - rpos f))
    (fun r => exists j, i <= j <= len /\ r = (foldl step x (slice i j), byte j, at_byte (j + 1)) /\
       cond (foldl step x (slice i j)) (byte j) = false /\
       forall k, i <= k < j -> cond (foldl step x (slice i k)) (byte k) = true))
    as (r & E & j & Hj & -> & Hc & Hk); [| | |exists j; split; [exact Hj|split; [exact E|split; [exact Hc|exact Hk]]]].
  - intros [[y c] f] (k & Hk & -> & -> & -> & Hall). destruct (cond _ (byte k)) eqn:E; [|exists k; eauto].
    assert (k <> len) by (intros ->; by rewrite byte_end, Hz in E).
    rewrite shgetc_ok by lia. cbn [mbind option_bind]. split; [|cbn [rpos at_byte]; lia].
    exists (k + 1). split; [lia|]. rewrite slice_snoc, foldl_app by lia. split; [done|]. split; [done|]. split; [done|].
    intros k' Hk'. destruct (Z.eq_dec k' k) as [->|]; [done|]. apply Hall. lia.
  - exists i. rewrite slice_nil. split; [lia|]. split; [done|]. split; [done|]. split; [done|]. lia.
  - cbn [rpos at_byte]. destruct Hs as (_ & Hm & _). apply mapped_size in Hm. unfold fuel_of. lia.
Qed.

Lemma prefix_app p xs ys : Forall (fun b => p b = true) xs -> prefix_of p (xs ++ ys) = xs ++ prefix_of p ys.
Proof. induction 1 as [|x xs Hx Hxs IH]; [done|]. simpl. by rewrite Hx, IH. Qed.

(** The first byte from [i] on that does not satisfy [p]. *)
Lemma prefix_end p i : p 0 = false -> 0 <= i <= len ->
  exists e, i <= e <= len /\ prefix_of p (slice i len) = slice i e /\ p (byte e) = false /\
    forall k, i <= k < e -> p (byte k) = true.
Proof.
  intros Hp Hi. destruct (p (byte i)) eqn:E.
  2:{ exists i. rewrite slice_nil. split; [lia|]. split; [|split; [done|lia]].
      destruct (Z.eq_dec i len) as [->|]; [by rewrite slice_nil|]. rewrite slice_cons by lia. simpl. by rewrite E. }
  revert i Hi E. intros i Hi. remember (Z.to_nat (len - i)) as n eqn:En. revert i Hi En.
  induction n as [|n IH]; intros i Hi En E.
  { assert (i = len) as -> by lia. by rewrite byte_end, Hp in E. }
  assert (i <> len) by (intros ->; by rewrite byte_end, Hp in E).
  destruct (p (byte (i + 1))) eqn:E1.
  - destruct (IH (i + 1)) as (e & He & Hpre & Hend & Hall); [lia|lia|done|].
    exists e. split; [lia|]. rewrite !(slice_cons i) by lia. simpl. rewrite E, Hpre. split; [done|]. split; [done|].
    intros k Hk. destruct (Z.eq_dec k i) as [->|]; [done|]. apply Hall. lia.
  - exists (i + 1). split; [lia|]. rewrite !(slice_cons i), slice_nil by lia. simpl. rewrite E.
    split; [|split; [done|intros k Hk; by replace k with i by lia]]. f_equal.
    destruct (Z.eq_dec (i + 1) len) as [->|]; [by rewrite slice_nil|]. rewrite slice_cons by lia. simpl. by rewrite E1.
Qed.

Lemma value_from_app base x xs ys : value_from base x (xs ++ ys) = value_from base (value_from base x xs) ys.
Proof. apply foldl_app. Qed.

Lemma value_from_mono base x ds : 1 <= base -> 0 <= x -> Forall is_byte ds -> x <= value_from base x ds.
Proof.
  intros Hb Hx Hds. revert x Hx. induction Hds as [|d ds Hd Hds IH]; intros x Hx; [done|]. simpl.
  pose proof (val_range d Hd). specialize (IH (x * base + val d) ltac:(nia)). nia.
Qed.

Lemma slice_bytes i j : Forall is_byte (slice i j).
Proof. by apply bytes_of_bytes. Qed.

Lemma value_snoc base i j : i <= j -> value base (slice i (j + 1)) = value base (slice i j) * base + val (byte j).
Proof. intros. unfold value. by rewrite slice_snoc, value_from_app by lia. Qed.

Lemma value_mono base i j k : 1 <= base -> i <= j <= k -> 0 <= value base (slice i j) <= value base (slice i k).
Proof.
  intros Hb Hj. assert (H0 : 0 <= value base (slice i j)) by (apply value_from_mono; [lia|lia|apply slice_bytes]).
  split; [done|]. unfold value. rewrite (slice_app i j k), value_from_app by lia.
  apply value_from_mono; [lia|exact H0|apply slice_bytes].
Qed.

(** The two loops over the digits: the first keeps the value in 32 bits, the second
    stops before the value leaves 64 bits. *)
Section two_stage.
Context (base : Z) (Hbase : 2 <= base <= 36) (cond1 cond2 : Z -> Z -> bool) (step1 step2 : Z -> Z -> Z).
Context (Hcond1 : forall x c, is_byte c -> 0 <= x -> cond1 x c = true ->
  digit_of base c = true /\ step1 x c = x * base + val c /\ x * base + val c <= ULLONG_MAX).
Context (Hcond2 : forall y c, is_byte c -> 0 <= y <= ULLONG_MAX ->
  cond2 y c = digit_of base c && (y * base + val c <=? ULLONG_MAX)).
Context (Hstep2 : forall y c, is_byte c -> 0 <= y <= ULLONG_MAX -> cond2 y c = true -> step2 y c = y * base + val c).
Context (Hz1 : forall x, cond1 x 0 = false) (Hz2 : forall x, cond2 x 0 = false).

Lemma fold_value (cond : Z -> Z -> bool) step i x j : i <= j ->
  (forall y c, is_byte c -> 0 <= y <= ULLONG_MAX -> cond y c = true ->
     digit_of base c = true /\ step y c = y * base + val c /\ y * base + val c <= ULLONG_MAX) ->
  0 <= x <= ULLONG_MAX ->
  (forall k, i <= k < j -> cond (foldl step x (slice i k)) (byte k) = true) ->
  foldl step x (slice i j) = value_from base x (slice i j) /\ 0 <= value_from base x (slice i j) <= ULLONG_MAX /\
  forall k, i <= k < j -> digit_of base (byte k) = true.
Proof.
  intros Hij Hc Hx Hall. remember (Z.to_nat (j - i)) as n eqn:En. revert j Hij Hall En.
  induction n as [|n IH]; intros j Hij Hall En.
  { assert (j = i) as -> by lia. rewrite slice_nil. simpl. split; [done|]. split; [done|]. lia. }
  destruct (IH (j - 1)) as (E & Hr & Hd); [lia|intros k Hk; apply Hall; lia|lia|].
  specialize (Hall (j - 1) ltac:(lia)). rewrite E in Hall.
  destruct (Hc _ _ (byte_ok (j - 1)) Hr Hall) as (Hd1 & Hst & Hle).
  replace j with (j - 1 + 1) by lia. rewrite slice_snoc, foldl_app, value_from_app, E by lia. simpl.
  split; [done|]. split.
  - pose proof (val_range _ (byte_ok (j - 1))). nia.
  - intros k Hk. destruct (Z.eq_dec k (j - 1)) as [->|]; [done|]. apply Hd. lia.
Qed.

Lemma two_stage i : 0 <= i <= len ->
  exists j e, i <= j <= e /\ e <= len /\ prefix_of (digit_of base) (slice i len) = slice i e /\ digit_of base (byte e) = false /\
    (t ← scan_while m cond1 step1 (0, byte i, at_byte (i + 1)); scan_while m cond2 step2 t) =
      Some (value base (slice i j), byte j, at_byte (j + 1)) /\
    0 <= value base (slice i j) <= ULLONG_MAX /\
    (forall k, i <= k < e -> digit_of base (byte k) = true) /\
    (j = e \/ (j < e /\ ULLONG_MAX < value base (slice i (j + 1)))).
Proof.
  intros Hi. destruct (prefix_end (digit_of base) i) as (e & He & Hpre & Hend & Hdig); [|done|].
  { unfold digit_of. apply Z.ltb_ge. change (val 0) with 255. lia. }
  destruct (scan_while_ok cond1 step1 i 0 Hi Hz1) as (j1 & Hj1 & E1 & _ & Hall1).
  destruct (fold_value cond1 step1 i 0 j1) as (F1 & R1 & D1); [lia| |unfold ULLONG_MAX; lia|done|].
  { intros y c Hc [Hy _] Ht. by apply Hcond1. }
  rewrite E1, F1. cbn [mbind option_bind].
  destruct (scan_while_ok cond2 step2 j1 (value_from base 0 (slice i j1)) ltac:(lia) Hz2) as (j & Hj & E2 & Hc2 & Hall2).
  destruct (fold_value cond2 step2 j1 (value_from base 0 (slice i j1)) j) as (F2 & R2 & D2); [lia| |done|done|].
  { intros y c Hc Hy Ht. pose proof (Hstep2 y c Hc Hy Ht). rewrite Hcond2 in Ht by done.
    apply andb_prop in Ht as [Hd Hle]. apply Z.leb_le in Hle. done. }
  rewrite F2 in E2, Hc2. rewrite <- value_from_app, <- slice_app in E2, Hc2, R2 by lia. fold (value base (slice i j)) in *.
  assert (Hje : j <= e).
  { apply Z.nlt_ge. intros Hlt. destruct (Z.lt_ge_cases e j1) as [H1|H1]; [by rewrite D1 in Hend by lia|].
    by rewrite D2 in Hend by lia. }
  exists j, e. split; [lia|]. split; [lia|]. split; [done|]. split; [done|]. split; [done|]. split; [done|]. split; [done|].
  rewrite Hcond2 in Hc2 by (done || apply byte_ok). destruct (Z.eq_dec j e); [by left|right]. split; [lia|].
  rewrite Hdig in Hc2 by lia. simpl in Hc2. apply Z.leb_gt in Hc2. by rewrite value_snoc by lia.
Qed.
End two_stage.

Lemma shift_of_base base : 2 <= base <= 36 -> nz (Z.land base (base - 1)) = false ->
  exists bs, shift_table !! Z.to_nat (Z.land (Z.shiftr (u32 (0x17 * base)) 5) 7) = Some bs /\ base = 2 ^ bs /\ 0 < bs <= 5.
Proof.
  intros Hb Hz.
  assert (H : forallb (fun b => nz (Z.land b (b - 1)) ||
      match shift_table !! Z.to_nat (Z.land (Z.shiftr (u32 (0x17 * b)) 5) 7) with
      | Some bs => (b =? 2 ^ bs) && (0 <? bs) && (bs <=? 5) | None => false end) (seqZ 2 35) = true) by (vm_compute; reflexivity).
  rewrite forallb_forall in H. specialize (H base ltac:(apply list_elem_of_In, elem_of_seqZ; lia)). rewrite Hz in H.
  cbn [orb] in H. destruct (shift_table !! _) as [bs|]; [|done].
  exists bs. split; [done|]. apply andb_prop in H as [[H1 H2]%andb_prop H3]. lia.
Qed.

Definition scanned (base i : Z) (r : option (Z * Z * sfile)) : Prop :=
  exists j e, i <= j <= e /\ e <= len /\ prefix_of (digit_of base) (slice i len) = slice i e /\ digit_of base (byte e) = false /\
    r = Some (value base (slice i j), byte j, at_byte (j + 1)) /\
    0 <= value base (slice i j) <= ULLONG_MAX /\
    (forall k, i <= k < e -> digit_of base (byte k) = true) /\
    (j = e \/ (j < e /\ ULLONG_MAX < value base (slice i (j + 1)))).

Lemma shift_or x bs d : 0 <= x -> 0 < bs -> 0 <= d < 2 ^ bs -> Z.lor (Z.shiftl x bs) d = x * 2 ^ bs + d.
Proof.
  intros. rewrite Z.shiftl_mul_pow2, Z.lor_comm, (Z.mul_comm x) by lia. rewrite lor_disjoint_add by lia. lia.
Qed.

Lemma digits_ok base i : 2 <= base <= 36 -> 0 <= i <= len -> scanned base i (digits m base (byte i) (at_byte (i + 1))).
Proof.
  intros Hb Hi. unfold scanned, digits.
  assert (Hz : (val 0 <? base) = false) by (apply Z.ltb_ge; change (val 0) with 255; lia).
  destruct (Z.eqb_spec base 10) as [->|Hne]; [|destruct (nz (Z.land base (base - 1))) eqn:Ep; cbn [negb]].
  - apply two_stage; unfold UINT_MAX, ULLONG_MAX; try done.
    + intros x c Hc Hx [Hd Hl]%andb_prop. destruct (isdigit_val c Hc) as [Ed Hv]. destruct (Hv Hd) as [Hv1 Hlt].
      rewrite Hd in Ed. unfold digit_of. rewrite <- Ed. apply Z.leb_le in Hl.
      revert Hl. change ((2 ^ 32 - 1) / 10 - 1) with 429496728. intros Hl.
      pose proof (val_range c Hc). rewrite <- Hv1. rewrite wrap_small by lia. split; [done|]. lia.
    + intros y c Hc Hy. destruct (isdigit_val c Hc) as [Ed Hv]. unfold digit_of. rewrite <- Ed.
      destruct (isdigit c) eqn:Hd; [|done]. destruct (Hv eq_refl) as [Hv1 Hlt]. cbn [andb].
      pose proof (val_range c Hc). rewrite <- Hv1.
      destruct (Z.leb_spec y ((2 ^ 64 - 1) / 10)) as [Hq|Hq].
      * cbn [andb]. rewrite wrap_small by (revert Hq; change ((2 ^ 64 - 1) / 10) with 1844674407370955161; lia).
        destruct (Z.leb_spec (10 * y) (2 ^ 64 - 1 - val c)), (Z.leb_spec (y * 10 + val c) (2 ^ 64 - 1)); lia.
      * symmetry. apply Z.leb_gt. revert Hq. change ((2 ^ 64 - 1) / 10) with 1844674407370955161. lia.
    + intros y c Hc Hy [[Hd Hl]%andb_prop Hl2]%andb_prop. destruct (isdigit_val c Hc) as [Ed Hv]. destruct (Hv Hd) as [Hv1 Hlt].
      apply Z.leb_le in Hl, Hl2. revert Hl. change ((2 ^ 64 - 1) / 10) with 1844674407370955161. intros Hl.
      rewrite Hd in Ed. pose proof (val_range c Hc).
      rewrite (wrap_small 64 (10 * y)) in Hl2 by lia. rewrite <- Hv1 in *. apply wrap_small. lia.
  - apply two_stage; unfold UINT_MAX, ULLONG_MAX; try done; try (intros; by rewrite Hz).
    + intros x c Hc Hx [Hd Hl]%andb_prop. apply Z.leb_le in Hl. pose proof (val_range c Hc). split; [done|].
      apply Z.ltb_lt in Hd. revert Hl. change ((2 ^ 32 - 1) / 36 - 1) with 119304646. intros Hl.
      rewrite wrap_small by nia. split; [done|]. nia.
    + intros y c Hc Hy. unfold digit_of. destruct (Z.ltb_spec (val c) base) as [Hd|]; [|done]. cbn [andb].
      pose proof (val_range c Hc). pose proof (Z.div_mod (2 ^ 64 - 1) base ltac:(lia)) as E.
      pose proof (Z.mod_pos_bound (2 ^ 64 - 1) base ltac:(lia)).
      destruct (Z.leb_spec y ((2 ^ 64 - 1) / base)) as [Hq|Hq]; cbn [andb].
      * rewrite wrap_small by nia.
        destruct (Z.leb_spec (base * y) (2 ^ 64 - 1 - val c)), (Z.leb_spec (y * base + val c) (2 ^ 64 - 1)); lia.
      * symmetry. apply Z.leb_gt. nia.
    + intros y c Hc Hy [[Hd Hl]%andb_prop Hl2]%andb_prop. apply Z.leb_le in Hl, Hl2. apply Z.ltb_lt in Hd.
      pose proof (val_range c Hc). pose proof (Z.mul_div_le (2 ^ 64 - 1) base ltac:(lia)).
      rewrite (wrap_small 64 (base * y)) in Hl2 by nia. apply wrap_small. lia.
  - destruct (shift_of_base base Hb Ep) as (bs & -> & -> & Hbs). cbn [mbind option_bind].
    assert (Hp : 2 ^ bs <= 2 ^ 5) by (apply Z.pow_le_mono_r; lia). change (2 ^ 5) with 32 in Hp.
    apply two_stage; unfold UINT_MAX, ULLONG_MAX; try done; try (intros; by rewrite Hz).
    + intros x c Hc Hx [Hd Hl]%andb_prop. apply Z.leb_le in Hl. pose proof (val_range c Hc). split; [done|].
      apply Z.ltb_lt in Hd. revert Hl. change ((2 ^ 32 - 1) / 32) with 134217727. intros Hl.
      assert (x * 2 ^ bs <= 134217727 * 32) by nia.
      rewrite wrap_small by (rewrite Z.shiftl_mul_pow2 by lia; lia). rewrite shift_or by lia. split; [done|]. lia.
    + intros y c Hc Hy. unfold digit_of. destruct (Z.ltb_spec (val c) (2 ^ bs)) as [Hd|]; [|done]. cbn [andb].
      pose proof (val_range c Hc). rewrite Z.shiftr_div_pow2 by lia.
      pose proof (Z.div_mod (2 ^ 64 - 1) (2 ^ bs) ltac:(lia)) as E.
      assert (Em : (2 ^ 64 - 1) mod 2 ^ bs = 2 ^ bs - 1).
      { replace (2 ^ 64 - 1) with (2 ^ bs - 1 + (2 ^ (64 - bs) - 1) * 2 ^ bs).
        - rewrite Z.mod_add by lia. apply Z.mod_small. lia.
        - replace (2 ^ 64) with (2 ^ (64 - bs) * 2 ^ bs) by (rewrite <- Z.pow_add_r by lia; f_equal; lia). lia. }
      destruct (Z.leb_spec y ((2 ^ 64 - 1) / 2 ^ bs)), (Z.leb_spec (y * 2 ^ bs + val c) (2 ^ 64 - 1)); nia.
    + intros y c Hc Hy [Hd Hl]%andb_prop. apply Z.leb_le in Hl. apply Z.ltb_lt in Hd. pose proof (val_range c Hc).
      rewrite Z.shiftr_div_pow2 in Hl by lia. pose proof (Z.mul_div_le (2 ^ 64 - 1) (2 ^ bs) ltac:(lia)).
      rewrite wrap_small by (rewrite Z.shiftl_mul_pow2 by lia; nia). by rewrite shift_or by lia.
Qed.

(** ** The value *)

(** The result for a sign and a value: of the unsigned types, reduced modulo
    [2 ^ 64]; of the signed ones, capped.  [lim] is the code's argument. *)
Definition converted (lim : Z) (neg : bool) (v : Z) : Z * option Z :=
  if lim =? 2 ^ 63 then
    let z := if neg then - v else v in
    if z <? - 2 ^ 63 then (2 ^ 63, Some ERANGE)
    else if 2 ^ 63 - 1 <? z then (2 ^ 63 - 1, Some ERANGE)
    else (u64 z, None)
  else if lim <? v then (lim, Some ERANGE)
  else (u64 (if neg then - v else v), None).

Definition is_lim (lim : Z) : Prop := lim = 2 ^ 63 \/ lim = ULLONG_MAX.

Lemma negate y (neg : bool) : 0 <= y < 2 ^ 64 -> u64 (Z.lxor y (u64 (- b2z neg)) - - b2z neg) = u64 (if neg then - y else y).
Proof.
  intros Hy. destruct neg; cbn [b2z].
  - change (u64 (- (1))) with (Z.ones 64). replace (Z.lxor y (Z.ones 64)) with (Z.lnot y mod 2 ^ 64).
    + unfold Z.lnot. replace (Z.pred (- y)) with (2 ^ 64 - 1 - y + (-1) * 2 ^ 64) by lia.
      rewrite Z.mod_add, Z.mod_small by lia. unfold wrap. replace (2 ^ 64 - 1 - y - - (1)) with (- y + 1 * 2 ^ 64) by lia.
      by rewrite Z.mod_add by lia.
    + apply Z.bits_inj'. intros n Hn. rewrite Z.lxor_spec, Z.testbit_ones_nonneg by lia. destruct (Z.ltb_spec n 64).
      * rewrite Z.mod_pow2_bits_low, Z.lnot_spec, xorb_true_r by lia. done.
      * rewrite Z.mod_pow2_bits_high, xorb_false_r by lia. symmetry. apply (proj1 (pow2_bound_iff 64 ltac:(lia) y ltac:(lia))); lia.
  - change (u64 (- 0)) with 0. rewrite Z.lxor_0_r. f_equal. lia.
Qed.

(** The three returns at the end of the scan. *)
Lemma returns y (neg : bool) lim f err : is_lim lim -> 0 <= y <= ULLONG_MAX ->
  (if (lim <=? y) && negb (nz (Z.land lim 1)) && negb (nz (- b2z neg)) then Some (u64 (lim - 1), f, Some ERANGE)
   else if lim <? y then Some (lim, f, Some ERANGE)
   else Some (u64 (Z.lxor y (u64 (- b2z neg)) - - b2z neg), f, err)) =
  Some ((converted lim neg y).1, f : sfile, match (converted lim neg y).2 with None => err | e => e end).
Proof.
  intros Hlim Hy. rewrite negate by (unfold ULLONG_MAX in Hy; lia). unfold converted.
  destruct Hlim as [->| ->].
  - change (nz (Z.land (2 ^ 63) 1)) with false. rewrite Z.eqb_refl. cbn [negb andb].
    destruct neg; cbn [b2z nz negb Z.opp]; rewrite ?andb_true_r, ?andb_false_r;
      repeat bcase; try lia; try done.
  - change (nz (Z.land ULLONG_MAX 1)) with true. rewrite andb_false_r. cbn [andb].
    change (ULLONG_MAX =? 2 ^ 63) with false. cbv iota. by destruct (ULLONG_MAX <? y).
Qed.

Lemma finish_ok base i (neg : bool) lim r : 2 <= base <= 36 -> 0 <= s -> 0 <= i <= len -> is_lim lim -> scanned base i r ->
  let ds := prefix_of (digit_of base) (slice i len) in
  (t ← r; finish m base (- b2z neg) lim t) =
    Some ((converted lim neg (value base ds)).1, at_byte (i + Z.of_nat (length ds)), (converted lim neg (value base ds)).2).
Proof.
  intros Hb Hs0 Hi Hlim (j & e & Hj & He & Hpre & Hend & -> & Hv & Hdig & Hcase) ds. subst ds. rewrite Hpre.
  assert (Hlen : i + Z.of_nat (length (slice i e)) = e) by (unfold slice; rewrite length_bytes_of by lia; lia).
  rewrite Hlen. cbn [mbind option_bind finish]. set (v := value base (slice i e)).
  assert (Hlimr : 2 ^ 63 <= lim <= ULLONG_MAX) by (destruct Hlim as [->| ->]; unfold ULLONG_MAX; lia).
  destruct Hcase as [->|[Hlt Hover]].
  - unfold digit_of in Hend. rewrite Hend. cbn [mbind option_bind]. rewrite shunget_ok, returns by (done || lia). fold v.
    by destruct (converted lim neg v).2.
  - pose proof (Hdig j ltac:(lia)) as Hd. unfold digit_of in Hd. rewrite Hd.
    destruct (scan_while_ok (fun _ c => val c <? base) (fun x _ => x) j (value base (slice i j))) as (e' & He' & -> & Hend' & Hall);
      [lia|intros; apply Z.ltb_ge; change (val 0) with 255; lia|].
    assert (e' = e) as ->.
    { destruct (Z.lt_trichotomy e' e) as [H|[H|H]]; [|done|].
      - specialize (Hdig e' ltac:(lia)). unfold digit_of in Hdig. congruence.
      - specialize (Hall e ltac:(lia)). cbv beta in Hall. unfold digit_of in Hend. congruence. }
    assert (Hbig : ULLONG_MAX < v).
    { pose proof (value_mono base i (j + 1) e ltac:(lia) ltac:(lia)). subst v. lia. }
    cbn [mbind option_bind]. rewrite shunget_ok by lia. unfold converted.
    destruct Hlim as [->| ->].
    + change (nz (Z.land (2 ^ 63) 1)) with false. rewrite Z.eqb_refl. rewrite Z.leb_refl, Z.ltb_irrefl. cbn [negb andb].
      unfold ULLONG_MAX in Hbig. rewrite negate by lia. destruct neg; cbn [b2z nz negb Z.opp]; repeat bcase; try lia; done.
    + change (nz (Z.land ULLONG_MAX 1)) with true. rewrite andb_false_r, Z.ltb_irrefl. cbn [andb].
      change (ULLONG_MAX =? 2 ^ 63) with false. cbv iota. rewrite (proj2 (Z.ltb_lt _ _) Hbig). done.
Qed.

(** ** The whole scan *)

Lemma drop_slice i j k : 0 <= k <= j - i -> drop (Z.to_nat k) (slice i j) = slice (i + k) j.
Proof.
  intros Hk. rewrite (slice_app i (i + k) j) by lia. rewrite drop_app_length'; [done|].
  unfold slice. pose proof (length_bytes_of m (s + i) (i + k - i) ltac:(lia)). lia.
Qed.

Lemma spaces_ok : exists n, 0 <= n <= len /\ prefix_of isspace (slice 0 len) = slice 0 n /\
  (p ← shgetc m (at_byte 0);
   iter (fuel_of m) (fun '(c, f) => if isspace c then p ← shgetc m f; Some (Next p) else Some (Leave (c, f))) p) =
    Some (byte n, at_byte (n + 1)).
Proof.
  destruct Hs as (Hl & Hm & _).
  destruct (prefix_end isspace 0) as (n & Hn & Hpre & Hend & Hall); [done|lia|]. exists n. split; [done|]. split; [done|].
  rewrite shgetc_ok by lia. cbn [mbind option_bind].
  edestruct (iter_rule (fun '(c, f) => exists k, 0 <= k <= n /\ c = byte k /\ f = at_byte (k + 1))
    (fun '(_, f) => Z.to_nat (s + len + 1 - rpos f)) (fun r => r = (byte n, at_byte (n + 1)))) as (r & E & ->);
    [| | |exact E].
  - intros [c f] (k & Hk & -> & ->). destruct (Z.eq_dec k n) as [->|Hne]; [by rewrite Hend|]. rewrite Hall by lia.
    rewrite shgetc_ok by lia. cbn [mbind option_bind rpos at_byte]. split; [|lia]. exists (k + 1). split; [lia|done].
  - exists 0. split; [lia|done].
  - apply mapped_size in Hm. unfold fuel_of. cbn [rpos at_byte]. lia.
Qed.

Lemma byte_end_or n : 0 <= n <= len -> (n = len /\ byte n = 0 /\ slice n len = []) \/ (n < len /\ slice n len = byte n :: slice (n + 1) len).
Proof.
  intros Hn. destruct (Z.eq_dec n len) as [->|]; [left|right].
  - by rewrite byte_end, slice_nil.
  - split; [lia|]. by apply slice_cons; lia.
Qed.

(** The sign. *)
Lemma sign_ok n : 0 <= n <= len -> prefix_of isspace (slice 0 len) = slice 0 n ->
  exists k (neg : bool), 0 <= k <= len /\ lead (slice 0 len) = (k, neg) /\
    (if (byte n =? 43) || (byte n =? 45) then
        '(c', f) ← shgetc m (at_byte (n + 1)); Some (- b2z (byte n =? 45), c', f)
      else Some (0, byte n, at_byte (n + 1))) = Some (- b2z neg, byte k, at_byte (k + 1)).
Proof.
  intros Hn Hpre. unfold lead. rewrite Hpre.
  replace (Z.of_nat (length (slice 0 n))) with n by (unfold slice; rewrite length_bytes_of by lia; lia).
  rewrite drop_slice, Z.add_0_l by lia.
  destruct (byte_end_or n Hn) as [(-> & Hz & ->)|[Hlt ->]].
  - exists len, false. by rewrite Hz.
  - destruct (Z.eqb_spec (byte n) 45) as [E|E]; [|destruct (Z.eqb_spec (byte n) 43) as [E1|E1]]; cbn [orb].
    + rewrite E. cbn [Z.eqb orb]. exists (n + 1), true. split; [lia|]. split; [done|]. rewrite shgetc_ok by lia. done.
    + exists (n + 1), false. split; [lia|]. split; [done|]. by rewrite shgetc_ok by lia.
    + exists n, false. done.
Qed.

Lemma converted_zero lim neg : is_lim lim -> converted lim neg 0 = (0, None).
Proof. by intros [->| ->]; destruct neg. Qed.

(** What the scan returns, by the number at the start of the string. *)
Definition scan_result (lim : Z) (r : option (bool * Z * Z)) (out : option (Z * sfile * option Z)) : Prop :=
  match r with
  | Some (neg, v, k) => out = Some ((converted lim neg v).1, at_byte k, (converted lim neg v).2)
  | None => exists f, out = Some (0, f, Some EINVAL) /\ shcnt f = 0
  end.

Lemma number_ok base i (neg : bool) lim : 2 <= base <= 36 -> 0 <= s -> 0 <= i <= len -> is_lim lim ->
  (t ← digits m base (byte i) (at_byte (i + 1)); finish m base (- b2z neg) lim t) =
    Some ((converted lim neg (value base (prefix_of (digit_of base) (slice i len)))).1,
      at_byte (i + Z.of_nat (length (prefix_of (digit_of base) (slice i len)))),
      (converted lim neg (value base (prefix_of (digit_of base) (slice i len)))).2).
Proof. intros. apply finish_ok; try done. by apply digits_ok. Qed.

Lemma intscan_ok base lim : base = 0 \/ 2 <= base <= 36 -> 0 <= s -> is_lim lim ->
  scan_result lim (parse base (slice 0 len)) (intscan m (at_byte 0) base true lim).
Proof.
  intros Hb Hs0 Hlim. unfold intscan.
  rewrite (proj2 (Z.ltb_ge 36 base)), (proj2 (Z.eqb_neq base 1)) by lia. cbn [orb].
  destruct spaces_ok as (n0 & Hn0 & Hpre & ->). cbn [mbind option_bind].
  destruct (sign_ok n0 Hn0 Hpre) as (n & neg & Hn & El & ->). cbn [mbind option_bind]. unfold parse. rewrite El.
  rewrite drop_slice, Z.add_0_l by lia.
  destruct (byte_end_or n Hn) as [(-> & Hz & ->)|[Hlt ->]].
  { rewrite Hz. change (0 =? 48) with false. rewrite andb_false_r.
    rewrite (proj2 (Z.leb_le _ _)) by (change (val 0) with 255; destruct (Z.eqb_spec base 0); lia).
    eexists. split; [done|]. unfold shcnt, shlim. simpl. lia. }
  destruct (((base =? 0) || (base =? 16)) && (byte n =? 48)) eqn:Eb.
  - apply andb_prop in Eb as [Eb _]. rewrite shgetc_ok by lia. cbn [mbind option_bind].
    set (base' := if base =? 0 then 8 else base).
    assert (Hb' : base' = if base =? 0 then 8 else 16).
    { subst base'. destruct (Z.eqb_spec base 0); [done|]. simpl in Eb. by apply Z.eqb_eq. }
    assert (Hb2 : 2 <= base' <= 36) by (rewrite Hb'; destruct (base =? 0); lia).
    destruct (byte_end_or (n + 1) ltac:(lia)) as [(En & Hz & ->)|[Hlt1 Esl]].
    + rewrite Hz. change (Z.lor 0 32 =? 120) with false. cbv iota.
      pose proof (number_ok base' (n + 1) neg lim Hb2 Hs0 ltac:(lia) Hlim) as H. rewrite Hz in H. rewrite H.
      rewrite En, slice_nil. simpl. by rewrite Z.add_0_r.
    + rewrite Esl. destruct (Z.lor (byte (n + 1)) 32 =? 120).
      * rewrite shgetc_ok by lia. cbn [mbind option_bind]. replace (n + 1 + 1) with (n + 2) by lia.
        assert (Eh : default 0 (head (slice (n + 2) len)) = byte (n + 2)).
        { destruct (byte_end_or (n + 2) ltac:(lia)) as [(_ & -> & ->)|[_ ->]]; done. }
        rewrite Eh. unfold digit_of at 1. rewrite Z.leb_antisym. destruct (val (byte (n + 2)) <? 16); cbn [negb].
        -- by rewrite (number_ok 16 (n + 2)) by (done || lia).
        -- rewrite shunget_ok by lia. replace (n + 2) with (n + 1 + 1) by lia. rewrite shunget_ok by lia.
           simpl. by rewrite converted_zero.
      * rewrite (number_ok base' (n + 1)) by (done || lia). rewrite <- Esl, <- Hb'. simpl. done.
  - set (base' := if base =? 0 then 10 else base).
    assert (Hb2 : 2 <= base' <= 36) by (subst base'; destruct (Z.eqb_spec base 0); lia).
    unfold digit_of at 1. rewrite Z.leb_antisym. destruct (val (byte n) <? base'); cbn [negb].
    + rewrite (number_ok base' n) by (done || lia). rewrite (slice_cons n) by lia. simpl. by rewrite Z.add_0_r.
    + eexists. split; [done|]. unfold shcnt, shlim. simpl. lia.
Qed.
End string.

Lemma strtox_ok m s len base lim : mem_ok m -> cstr m s len -> 0 <= s -> s + len < 2 ^ 64 - 1 -> len < 2 ^ 63 - 1 ->
  base = 0 \/ 2 <= base <= 36 -> is_lim lim ->
  strtox m s base lim = Some match parse base (bytes_of m s len) with
    | Some (neg, v, k) => ((converted lim neg v).1, s + k, (converted lim neg v).2)
    | None => (0, s, Some EINVAL)
    end.
Proof.
  intros Hok Hs Hs0 Hend Hlen Hb Hlim. unfold strtox.
  set (re := if (2 ^ 64 - 1) / 2 <? s then 2 ^ 64 - 1 else s + (2 ^ 64 - 1) / 2).
  assert (Hre : s + len < re).
  { subst re. change ((2 ^ 64 - 1) / 2) with (2 ^ 63 - 1). destruct (Z.ltb_spec (2 ^ 63 - 1) s); lia. }
  replace (shlim _ 0) with (at_byte s re 0) by (unfold shlim, at_byte; simpl; by rewrite Z.add_0_r).
  rewrite wrap_small by lia.
  pose proof (intscan_ok m s len re Hok Hs Hre base lim Hb Hs0 Hlim) as H.
  unfold slice in H. rewrite Z.add_0_r, Z.sub_0_r in H.
  destruct (parse base (bytes_of m s len)) as [[[neg v] k]|]; simpl in H.
  - rewrite H. cbn [mbind option_bind]. do 3 f_equal. unfold shcnt, at_byte. simpl. lia.
  - destruct H as (f & -> & Hf). cbn [mbind option_bind]. by rewrite Hf, Z.add_0_r.
Qed.

(** ** [atoi] *)

Lemma char_class c : is_byte c -> isspace (s8 c) = isspace c /\ isdigit (s8 c) = isdigit c /\ (isdigit c = true -> s8 c = c).
Proof.
  intros Hc.
  assert (H : eqb (isspace (s8 c)) (isspace c) && eqb (isdigit (s8 c)) (isdigit c) && implb (isdigit c) (s8 c =? c) = true).
  { apply (byte_check (fun c => eqb (isspace (s8 c)) (isspace c) && eqb (isdigit (s8 c)) (isdigit c) && implb (isdigit c) (s8 c =? c)));
      [vm_compute; reflexivity|done]. }
  apply andb_prop in H as [[H1 H2]%andb_prop H3]. apply eqb_prop in H1, H2. split; [done|]. split; [done|].
  intros E. rewrite E in H3. by apply Z.eqb_eq.
Qed.

Section ato.
Context (w : Z) (Hw : 0 < w) (m : mem) (s len : Z) (Hok : mem_ok m) (Hs : cstr m s len).
#[local] Abbreviation byte := (byte m s).
#[local] Abbreviation slice := (slice m s).

Lemma load_byte k : 0 <= k <= len -> load8 m (s + k) = Some (byte k).
Proof. intros Hk. destruct Hs as (Hl & Hm & _). by rewrite (load8_rd m s (len + 1)) by (done || lia). Qed.

Lemma ato_spaces n : 0 <= n <= len -> isspace (byte n) = false -> (forall k, 0 <= k < n -> isspace (byte k) = true) ->
  iter (fuel_of m) (fun s => c ← load8 m s; if isspace (s8 c) then Some (Next (s + 1)) else Some (Leave s)) s = Some (s + n).
Proof.
  intros Hn Hend Hall. destruct Hs as (Hl & Hm & _).
  edestruct (iter_rule (fun p => exists k, 0 <= k <= n /\ p = s + k) (fun p => Z.to_nat (s + len + 1 - p)) (fun r => r = s + n))
    as (r & E & ->); [| | |exact E].
  - intros p (k & Hk & ->). rewrite load_byte by lia. cbn [mbind option_bind].
    destruct (char_class (byte k) (byte_ok m s Hok k)) as [-> _].
    destruct (Z.eq_dec k n) as [->|]; [by rewrite Hend|]. rewrite Hall by lia. split; [|lia]. exists (k + 1). split; lia.
  - exists 0. split; lia.
  - apply mapped_size in Hm. unfold fuel_of. lia.
Qed.

Lemma ato_digits i e : 0 <= i <= e -> e <= len -> isdigit (byte e) = false -> (forall k, i <= k < e -> isdigit (byte k) = true) ->
  value 10 (slice i e) <= 2 ^ (w - 1) ->
  iter (fuel_of m) (fun '(n, s) =>
    c ← load8 m s;
    if isdigit (s8 c) then
      if 10 * n - (s8 c - 48) <? - 2 ^ (w - 1) then None else Some (Next (10 * n - (s8 c - 48), s + 1))
    else Some (Leave n)) (0, s + i) = Some (- value 10 (slice i e)).
Proof.
  intros Hi He Hend Hall Hv. destruct Hs as (Hl & Hm & _).
  edestruct (iter_rule (fun '(n, p) => exists k, i <= k <= e /\ p = s + k /\ n = - value 10 (slice i k))
    (fun '(_, p) => Z.to_nat (s + len + 1 - p)) (fun r => r = - value 10 (slice i e))) as (r & E & ->); [| | |exact E].
  - intros [n p] (k & Hk & -> & ->). rewrite load_byte by lia. cbn [mbind option_bind].
    destruct (char_class (byte k) (byte_ok m s Hok k)) as (_ & -> & H8).
    destruct (Z.eq_dec k e) as [->|]; [by rewrite Hend|]. specialize (Hall k ltac:(lia)). rewrite Hall. rewrite H8 by done.
    destruct (isdigit_val (byte k) (byte_ok m s Hok k)) as [_ Hval]. destruct (Hval Hall) as [Hval1 _].
    replace (10 * - value 10 (slice i k) - (byte k - 48)) with (- value 10 (slice i (k + 1))) by (rewrite value_snoc by lia; lia).
    pose proof (value_mono m s Hok 10 i (k + 1) e ltac:(lia) ltac:(lia)).
    rewrite (proj2 (Z.ltb_ge _ _)) by lia. split; [|lia]. exists (k + 1). split; [lia|]. split; [lia|done].
  - exists i. split; [lia|]. split; [done|]. by rewrite slice_nil.
  - apply mapped_size in Hm. unfold fuel_of. lia.
Qed.
End ato.

(** The decimal number after white space and a sign. *)
Definition decimal (bs : list Z) : Z :=
  let '(n, neg) := lead bs in
  let v := value 10 (prefix_of isdigit (drop (Z.to_nat n) bs)) in
  if neg then - v else v.

Lemma ato_ok w m s len :
  0 < w -> mem_ok m -> cstr m s len ->
  - 2 ^ (w - 1) <= decimal (bytes_of m s len) < 2 ^ (w - 1) -> ato w m s = Some (decimal (bytes_of m s len)).
Proof.
  intros Hw Hok Hs. pose proof Hs as (Hl & _).
  assert (E0 : bytes_of m s len = slice m s 0 len) by (unfold slice; by rewrite Z.add_0_r, Z.sub_0_r). rewrite E0. unfold decimal.
  destruct (prefix_end m s len Hs isspace 0) as (n0 & Hn0 & Hpre & Hend0 & Hall0); [done|lia|].
  destruct (sign_ok m s len (s + len + 1) Hs ltac:(lia) n0 Hn0 Hpre) as (n & neg & Hn & El & Hsign). rewrite El.
  rewrite drop_slice, Z.add_0_l by lia.
  destruct (prefix_end m s len Hs isdigit n) as (e & He & -> & Hend & Hall); [done|lia|].
  set (v := value 10 (slice m s n e)). intros Hz.
  assert (Hv : 0 <= v) by (apply value_mono with (k := e); [done|lia|lia]).
  unfold ato. rewrite (ato_spaces m s len Hok Hs n0 Hn0 Hend0 Hall0). cbn [mbind option_bind].
  rewrite (load_byte m s len Hs n0) by lia. cbn [mbind option_bind].
  assert (Hpos : (if (byte m s n0 =? 45) || (byte m s n0 =? 43) then s + n0 + 1 else s + n0) = s + n /\ (byte m s n0 =? 45) = neg).
  { unfold lead in El. rewrite Hpre in El.
    replace (Z.of_nat (length (slice m s 0 n0))) with n0 in El by (unfold slice; rewrite length_bytes_of by lia; lia).
    rewrite drop_slice, Z.add_0_l in El by lia.
    destruct (byte_end_or m s len Hs n0 Hn0) as [(En & Hz0 & Esl)|[_ Esl]]; rewrite Esl in El.
    - injection El as <- <-. by rewrite Hz0.
    - destruct (byte m s n0 =? 45); [|destruct (byte m s n0 =? 43)]; injection El as <- <-; cbn [orb]; split; try done; lia. }
  cbv zeta. destruct Hpos as [-> ->]. rewrite (ato_digits w Hw m s len Hok Hs n e) by (try done; try lia; fold v; destruct neg; lia).
  cbn [mbind option_bind]. fold v. destruct neg; [done|]. rewrite (proj2 (Z.eqb_neq _ _)) by lia. by rewrite Z.opp_involutive.
Qed.

(** [atoi], [atol] and [atoll] read a decimal number after white space and a
    sign whenever the type can hold it, the least value included. *)
Theorem atoi_reads m s len : mem_ok m -> cstr m s len ->
  let z := decimal (bytes_of m s len) in
  (- 2 ^ 31 <= z < 2 ^ 31 -> atoi m s = Some z) /\
  (- 2 ^ 63 <= z < 2 ^ 63 -> atol m s = Some z /\ atoll m s = Some z).
Proof.
  intros Hok Hs. split; [by apply (ato_ok 32)|]. intros Hz. by split; apply (ato_ok 64).
Qed.

Lemma atoi_reads_witness : atoi (text 100 [32; 45; 50; 49; 52; 55; 52; 56; 51; 54; 52; 56; 120]) 100 = Some (- 2 ^ 31).
Proof.
  destruct (atoi_reads (text 100 [32; 45; 50; 49; 52; 55; 52; 56; 51; 54; 52; 56; 120]) 100 13) as [H _]; [mem_check..|].
  assert (E : decimal (bytes_of (text 100 [32; 45; 50; 49; 52; 55; 52; 56; 51; 54; 52; 56; 120]) 100 13) = - 2 ^ 31) by (vm_compute; reflexivity).
  rewrite E in H. apply H. lia.
Defined.

(** The value in a range, and whether it had to be capped. *)
Definition capped (lo hi z : Z) : Z * option Z :=
  if z <? lo then (lo, Some ERANGE) else if hi <? z then (hi, Some ERANGE) else (z, None).

(** C38. [strtol] and [strtoll] (and [strtoimax]) read the number a string starts
    with, in every base: the value capped to 64 bits with [ERANGE], the end of the
    number, or [EINVAL] and the start of the string when there is none. *)
Theorem strtol_parses m s len base :
  mem_ok m -> cstr m s len -> 0 <= s -> s + len < 2 ^ 64 - 1 -> len < 2 ^ 63 - 1 -> base = 0 \/ 2 <= base <= 36 ->
  strtol m s base = Some match parse base (bytes_of m s len) with
    | Some (neg, v, k) => let '(z, err) := capped (- 2 ^ 63) (2 ^ 63 - 1) (if neg then - v else v) in (z, s + k, err)
    | None => (0, s, Some EINVAL)
    end /\
  strtoll m s base = strtol m s base /\ strtoimax m s base = strtol m s base.
Proof.
  intros. split; [|done]. unfold strtol, signed_result. rewrite (strtox_ok m s len) by (try done; by left).
  destruct (parse base (bytes_of m s len)) as [[[neg v] k]|]; [|done]. cbn [mbind option_bind].
  unfold converted, capped. rewrite Z.eqb_refl. set (z := if neg then - v else v).
  destruct (Z.ltb_spec z (- 2 ^ 63)); [done|]. destruct (Z.ltb_spec (2 ^ 63 - 1) z); [done|]. cbn [fst snd].
  rewrite (swrap_eq 64 (u64 z) z), swrap_small by (lia || (unfold wrap; apply Z.mod_mod; lia)). done.
Qed.

(** [strtoul] and [strtoull] (and [strtoumax]) do the same with the value capped
    to the largest unsigned one, and a minus sign negating it modulo [2 ^ 64]. *)
Theorem strtoul_parses m s len base :
  mem_ok m -> cstr m s len -> 0 <= s -> s + len < 2 ^ 64 - 1 -> len < 2 ^ 63 - 1 -> base = 0 \/ 2 <= base <= 36 ->
  strtoul m s base = Some match parse base (bytes_of m s len) with
    | Some (neg, v, k) => if v <? 2 ^ 64 then (u64 (if neg then - v else v), s + k, None) else (2 ^ 64 - 1, s + k, Some ERANGE)
    | None => (0, s, Some EINVAL)
    end /\
  strtoull m s base = strtoul m s base /\ strtoumax m s base = strtoul m s base.
Proof.
  intros. split; [|done]. unfold strtoul. rewrite (strtox_ok m s len) by (try done; by right).
  destruct (parse base (bytes_of m s len)) as [[[neg v] k]|]; [|done].
  unfold converted. change (2 ^ 64 - 1 =? 2 ^ 63) with false. cbv iota.
  by destruct (Z.ltb_spec (2 ^ 64 - 1) v), (Z.ltb_spec v (2 ^ 64)); try lia.
Qed.

Lemma strtol_parses_witness :
  strtol (text 100 [32; 45; 48; 120; 70; 102; 71]) 100 0 = Some (-255, 106, None) /\
  strtoll (text 100 [32; 45; 48; 120; 70; 102; 71]) 100 0 = strtol (text 100 [32; 45; 48; 120; 70; 102; 71]) 100 0.
Proof.
  destruct (strtol_parses (text 100 [32; 45; 48; 120; 70; 102; 71]) 100 7 0) as (-> & -> & _); [mem_check..|lia|lia|lia|by left|].
  split; [vm_compute; reflexivity|done].
Defined.

Lemma strtoul_parses_witness :
  strtoul (text 100 [45; 49]) 100 10 = Some (2 ^ 64 - 1, 102, None).
Proof.
  destruct (strtoul_parses (text 100 [45; 49]) 100 2 10) as (-> & _); [mem_check..|lia|lia|lia|by right|].
  vm_compute. reflexivity.
Defined.
