(* ===== verification/Numerals.v ===== *)
(** * Numbers as text ([fmt_x], [fmt_o] and [fmt_u] of [stdio/vfprintf.c])

    The loops of [printf] that write the digits of a number backwards from the end of
    a buffer, and what they produce: the numeral of the number without leading zeros,
    as the scan of [Intscan] reads it. *)
From S2P Require Import Prelude Mem Intscan.

(** [for (; x; x = next(x)) *--s = digit(x);] on the text [s] already there. *)
Fixpoint backwards (digit next : Z -> Z) (fuel : nat) (x : Z) (s : list Z) : list Z :=
  match fuel with
  | O => s
  | S fuel => if nz x then backwards digit next fuel (next x) (digit x :: s) else s
  end.

Definition xdigits : list Z := [48; 49; 50; 51; 52; 53; 54; 55; 56; 57; 65; 66; 67; 68; 69; 70].
Definition fmt_x (x : Z) (s : list Z) (lower : Z) : list Z :=
  backwards (fun x => Z.lor (nth (Z.to_nat (Z.land x 15)) xdigits 0) lower) (fun x => Z.shiftr x 4) 64 x s.
Definition fmt_o (x : Z) (s : list Z) : list Z :=
  backwards (fun x => 48 + Z.land x 7) (fun x => Z.shiftr x 3) 64 x s.
(** [uintmax_t] is [unsigned long], so that the first loop of [fmt_u] does not run. *)
Definition fmt_u (x : Z) (s : list Z) : list Z :=
  backwards (fun y => 48 + y mod 10) (fun y => y / 10) 64 x s.

(** [ds] is the numeral of [x] in base [b]; zero has no digits. *)
Definition numeral (b x : Z) (ds : list Z) : Prop :=
  Forall (fun c => (0 <= c < 128) /\ digit_of b c = true) ds /\ value b ds = x /\ (forall c, head ds = Some c -> val c <> 0).

Lemma value_app b xs ys : value b (xs ++ ys) = value b xs * b ^ Z.of_nat (length ys) + value b ys.
Proof.
  unfold value. rewrite value_from_app. generalize (value_from b 0 xs). clear xs. intros z.
  enough (H : forall a, value_from b a ys = a * b ^ Z.of_nat (length ys) + value_from b 0 ys) by apply H.
  induction ys as [|y ys IH]; intros a; [unfold value_from; simpl; lia|].
  change (value_from b a (y :: ys)) with (value_from b (a * b + val y) ys).
  change (value_from b 0 (y :: ys)) with (value_from b (0 * b + val y) ys).
  rewrite (IH (a * b + val y)), (IH (0 * b + val y)). cbn [length]. rewrite Nat2Z.inj_succ, Z.pow_succ_r by lia. ring.
Qed.

Lemma val_nonneg c : 0 <= val c.
Proof.
  unfold val. destruct (table !! Z.to_nat (c + 1)) eqn:E; [|simpl; lia]. simpl.
  apply list_elem_of_lookup_2 in E. assert (H : Forall (fun x => 0 <= x) table) by (by apply (bool_decide_unpack _); vm_compute).
  rewrite list.Forall_forall in H. by apply H.
Qed.

Lemma value_lower b ds : 0 < b -> (forall c, head ds = Some c -> val c <> 0) -> ds <> [] -> b ^ (Z.of_nat (length ds) - 1) <= value b ds.
Proof.
  intros Hb Hh Hne. destruct ds as [|c ds]; [done|]. change (c :: ds) with ([c] ++ ds). rewrite value_app, length_app.
  specialize (Hh c eq_refl). pose proof (val_nonneg c). assert (0 <= value b ds).
  { clear Hh Hne. induction ds as [|d ds IH] using rev_ind; [done|]. rewrite value_app. cbn [length]. rewrite Z.pow_1_r.
    pose proof (val_nonneg d). change (value b [d]) with (0 * b + val d). nia. }
  change (value b [c]) with (0 * b + val c). simpl length. replace (Z.of_nat (1 + length ds) - 1) with (Z.of_nat (length ds)) by lia.
  pose proof (Z.pow_pos_nonneg b (Z.of_nat (length ds)) Hb). nia.
Qed.

Section loop.
Context (b : Z) (Hb : 2 <= b <= 36) (digit next : Z -> Z).
Context (Hnext : forall x, 0 <= x < 2 ^ 64 -> next x = x / b).
Context (Hdigit : forall x, 0 <= x < 2 ^ 64 -> 0 <= digit x < 128 /\ val (digit x) = x mod b).

Lemma backwards_ok fuel x s : 0 <= x < 2 ^ Z.of_nat fuel -> x < 2 ^ 64 ->
  exists ds, backwards digit next fuel x s = ds ++ s /\ numeral b x ds.
Proof using b Hb digit next Hnext Hdigit.
  revert x s. induction fuel as [|fuel IH]; intros x s Hx Hmax.
  { change (2 ^ Z.of_nat 0) with 1 in Hx. assert (x = 0) as -> by lia. exists []. split; [done|]. by split. }
  cbn [backwards]. destruct (nz x) eqn:Ez; [apply nz_true in Ez|apply nz_false in Ez; subst; exists []; split; [done|]; by split].
  rewrite Nat2Z.inj_succ, Z.pow_succ_r in Hx by lia. rewrite Hnext by lia.
  assert (Hq : 0 <= x / b < 2 ^ Z.of_nat fuel) by (split; [apply Z.div_pos; lia|]; apply Z.div_lt_upper_bound; [lia|]; pose proof (Z.pow_pos_nonneg 2 (Z.of_nat fuel)); nia).
  assert (Hm : x / b < 2 ^ 64) by (pose proof (Z.div_le_upper_bound x b x); nia).
  destruct (IH (x / b) (digit x :: s) Hq Hm) as (ds & E & Hf & Hv & Hh). exists (ds ++ [digit x]).
  rewrite <- app_assoc. split; [exact E|]. destruct (Hdigit x) as [Hc Hval]; [lia|]. pose proof (Z.mod_pos_bound x b ltac:(lia)).
  split; [apply list.Forall_app; split; [done|]; apply list.Forall_singleton; split; [done|]; unfold digit_of; rewrite Hval; lia|].
  split.
  - rewrite value_app, Hv. change (value b [digit x]) with (0 * b + val (digit x)). rewrite Hval. cbn [length].
    change (Z.of_nat 1) with 1. rewrite Z.pow_1_r. pose proof (Z.div_mod x b). lia.
  - intros c Hhd. destruct ds as [|d ds]; [|by apply Hh]. simpl in Hhd. injection Hhd as <-. rewrite Hval.
    change (value b []) with 0 in Hv. pose proof (Z.div_mod x b). nia.
Qed.
End loop.

(** The digits below 16, checked one by one. *)
Lemma forall_below (P : Z -> bool) n : forallb P (seqZ 0 n) = true -> forall d, 0 <= d < n -> P d = true.
Proof. intros H d Hd. by apply (forallb_seqZ P 0 n H). Qed.

Definition hex_digit_ok (lower d : Z) : bool :=
  let c := Z.lor (nth (Z.to_nat d) xdigits 0) lower in (0 <=? c) && (c <? 128) && (val c =? d).

Lemma backwards_chars (P : Z -> Prop) digit next fuel x s : (forall y, P (digit y)) -> Forall P s -> Forall P (backwards digit next fuel x s).
Proof.
  intros Hd. revert x s. induction fuel as [|fuel IH]; intros x s Hs; [done|]. cbn [backwards].
  destruct (nz x); [|done]. apply IH. by constructor.
Qed.

(** The digits of [%x] and of [%X]; [lower] is 32 or 0. *)
Definition cased (lower c : Z) : Prop := 48 <= c <= 57 \/ 65 + lower <= c <= 70 + lower.

Lemma fmt_x_cased x lower : lower = 0 \/ lower = 32 -> Forall (cased lower) (fmt_x x [] lower).
Proof.
  intros Hl. apply backwards_chars; [|done]. intros y. unfold cased.
  change (Z.land y 15) with (Z.land y (Z.ones 4)). rewrite (Z.land_ones y 4) by lia. pose proof (Z.mod_pos_bound y (2 ^ 4) ltac:(lia)) as Hd.
  set (c := Z.lor _ _). assert (Hc : ((48 <=? c) && (c <=? 57) || (65 + lower <=? c) && (c <=? 70 + lower)) = true).
  { subst c. revert Hd. generalize (y mod 2 ^ 4). intros d Hd.
    destruct Hl as [-> | ->].
    - by apply (forall_below (fun d => let c := Z.lor (nth (Z.to_nat d) xdigits 0) 0 in (48 <=? c) && (c <=? 57) || (65 + 0 <=? c) && (c <=? 70 + 0)) 16).
    - by apply (forall_below (fun d => let c := Z.lor (nth (Z.to_nat d) xdigits 0) 32 in (48 <=? c) && (c <=? 57) || (65 + 32 <=? c) && (c <=? 70 + 32)) 16). }
  rewrite orb_true_iff, !andb_true_iff, !Z.leb_le in Hc. lia.
Qed.

Lemma fmt_x_ok x s lower : 0 <= x < 2 ^ 64 -> lower = 0 \/ lower = 32 ->
  exists ds, fmt_x x s lower = ds ++ s /\ numeral 16 x ds.
Proof.
  intros Hx Hl. apply backwards_ok; [lia| | |exact Hx|lia].
  - intros y _. by rewrite Z.shiftr_div_pow2.
  - intros y Hy. change (Z.land y 15) with (Z.land y (Z.ones 4)). rewrite (Z.land_ones y 4) by lia. change (2 ^ 4) with 16. pose proof (Z.mod_pos_bound y 16 ltac:(lia)) as Hd.
    assert (Hok : hex_digit_ok lower (y mod 16) = true) by (destruct Hl as [-> | ->]; apply (forall_below _ 16); (vm_compute; reflexivity) || lia).
    unfold hex_digit_ok in Hok. rewrite !andb_true_iff, Z.leb_le, Z.ltb_lt, Z.eqb_eq in Hok. tauto.
Qed.

Lemma digit_char d : 0 <= d < 10 -> val (48 + d) = d.
Proof. intros Hd. apply Z.eqb_eq. by apply (forall_below (fun d => val (48 + d) =? d) 10). Qed.

Lemma fmt_o_ok x s : 0 <= x < 2 ^ 64 -> exists ds, fmt_o x s = ds ++ s /\ numeral 8 x ds.
Proof.
  intros Hx. apply backwards_ok; [lia| | |exact Hx|lia].
  - intros y _. by rewrite Z.shiftr_div_pow2.
  - intros y Hy. change (Z.land y 7) with (Z.land y (Z.ones 3)). rewrite (Z.land_ones y 3) by lia. change (2 ^ 3) with 8. pose proof (Z.mod_pos_bound y 8 ltac:(lia)). split; [lia|]. apply digit_char. lia.
Qed.

Lemma fmt_u_ok x s : 0 <= x < 2 ^ 64 -> exists ds, fmt_u x s = ds ++ s /\ numeral 10 x ds.
Proof.
  intros Hx. apply backwards_ok; [lia|done| |exact Hx|lia].
  intros y Hy. pose proof (Z.mod_pos_bound y 10 ltac:(lia)). split; [lia|]. apply digit_char. lia.
Qed.

Lemma numeral_length b x ds n : 2 <= b -> numeral b x ds -> x < b ^ n -> 0 <= n -> Z.of_nat (length ds) <= n.
Proof.
  intros Hb (_ & Hv & Hh) Hx Hn. destruct (decide (ds = [])) as [->|Hne]; [simpl; lia|].
  pose proof (value_lower b ds ltac:(lia) Hh Hne) as Hl. rewrite Hv in Hl.
  assert (Z.of_nat (length ds) - 1 < n) by (apply (Z.pow_lt_mono_r_iff b); lia). lia.
Qed.

Lemma numeral_zero b ds : 0 < b -> numeral b 0 ds -> ds = [].
Proof.
  intros Hb (_ & Hv & Hh). destruct (decide (ds = [])) as [|Hne]; [done|]. pose proof (value_lower b ds Hb Hh Hne) as Hl.
  pose proof (Z.pow_pos_nonneg b (Z.of_nat (length ds) - 1) Hb). destruct ds; [done|]. simpl length in *. lia.
Qed.

Lemma numeral_pos b x ds : 0 < x -> numeral b x ds -> ds <> [].
Proof. intros Hx (_ & Hv & _) ->. change (value b []) with 0 in Hv. lia. Qed.

(** A number has one numeral, up to the case of its letters. *)
Lemma numeral_snoc b x ds c : 0 < b -> numeral b x (ds ++ [c]) -> numeral b (x / b) ds /\ val c = x mod b.
Proof.
  intros Hb (Hf & Hv & Hh). apply list.Forall_app in Hf as [Hf Hc]. apply list.Forall_singleton in Hc as [_ Hc].
  unfold digit_of in Hc. apply Z.ltb_lt in Hc. pose proof (val_nonneg c) as Hn. rewrite value_app in Hv.
  change (value b [c]) with (0 * b + val c) in Hv. cbn [length] in Hv. change (Z.of_nat 1) with 1 in Hv. rewrite Z.pow_1_r in Hv.
  assert (Hm : x = b * value b ds + val c) by lia.
  split; [|apply (Z.mod_unique_pos _ _ (value b ds)); lia].
  split; [done|]. split; [apply (Z.div_unique_pos _ _ _ (val c)); lia|].
  intros c' Hc'. apply Hh. by destruct ds.
Qed.

Lemma numeral_unique (P : Z -> Prop) b x ds ds' : 0 < b ->
  (forall c c', P c -> P c' -> 0 <= c < 128 -> 0 <= c' < 128 -> digit_of b c = true -> val c = val c' -> c = c') ->
  Forall P ds -> Forall P ds' -> numeral b x ds -> numeral b x ds' -> ds = ds'.
Proof.
  intros Hb Hinj. revert x ds'. induction ds as [|c ds IH] using rev_ind; intros x ds' HP HP' Hd Hd'.
  - destruct Hd as (_ & Hv & _). change (value b []) with 0 in Hv. subst x. by apply numeral_zero in Hd'.
  - destruct ds' as [|c' ds' _] using rev_ind.
    { destruct Hd' as (_ & Hv & _). change (value b []) with 0 in Hv. subst x. by apply numeral_zero in Hd; [|done]. }
    pose proof Hd as (Hf & _ & _). pose proof Hd' as (Hf' & _ & _). apply list.Forall_app in Hf as [_ [[Hc Hdc] _]%list.Forall_cons].
    apply list.Forall_app in Hf' as [_ [[Hc' _] _]%list.Forall_cons]. apply list.Forall_app in HP as [HP [HPc _]%list.Forall_cons], HP' as [HP' [HPc' _]%list.Forall_cons].
    apply numeral_snoc in Hd as [Hd Ev], Hd' as [Hd' Ev']; [|done..].
    rewrite (IH _ _ HP HP' Hd Hd'). do 2 f_equal. apply Hinj; try done. congruence.
Qed.

Lemma digit_value c : 0 <= c < 128 -> digit_of 10 c = true -> c = 48 + val c.
Proof.
  intros Hc Hd. assert (H : implb (digit_of 10 c) (c =? 48 + val c) = true) by (by apply (forall_below (fun c => implb (digit_of 10 c) (c =? 48 + val c)) 128)).
  rewrite Hd in H. cbn [implb] in H. by apply Z.eqb_eq.
Qed.

Lemma numeral_decimal b x ds ds' : 0 < b <= 10 -> numeral b x ds -> numeral b x ds' -> ds = ds'.
Proof.
  intros Hb. apply (numeral_unique (fun _ => True)); [lia| |by apply list.Forall_true..].
  intros c c' _ _ Hc Hc' Hd E. unfold digit_of in Hd. apply Z.ltb_lt in Hd.
  rewrite (digit_value c), (digit_value c') by (done || unfold digit_of; lia). by rewrite E.
Qed.

Lemma cased_value lower c : lower = 0 \/ lower = 32 -> cased lower c -> c = if val c <? 10 then 48 + val c else 55 + lower + val c.
Proof.
  intros Hl Hc. unfold cased in Hc.
  assert (H : implb ((48 <=? c) && (c <=? 57) || (65 + lower <=? c) && (c <=? 70 + lower)) (c =? if val c <? 10 then 48 + val c else 55 + lower + val c) = true).
  { destruct Hl as [-> | ->].
    - apply (forall_below (fun c => implb ((48 <=? c) && (c <=? 57) || (65 + 0 <=? c) && (c <=? 70 + 0)) (c =? if val c <? 10 then 48 + val c else 55 + 0 + val c)) 128); [vm_compute; reflexivity|lia].
    - apply (forall_below (fun c => implb ((48 <=? c) && (c <=? 57) || (65 + 32 <=? c) && (c <=? 70 + 32)) (c =? if val c <? 10 then 48 + val c else 55 + 32 + val c)) 128); [vm_compute; reflexivity|lia]. }
  assert (E : (48 <=? c) && (c <=? 57) || (65 + lower <=? c) && (c <=? 70 + lower) = true) by (rewrite orb_true_iff, !andb_true_iff, !Z.leb_le; lia).
  rewrite E in H. cbn [implb] in H. by apply Z.eqb_eq.
Qed.

Lemma numeral_hex lower x ds ds' : lower = 0 \/ lower = 32 -> Forall (cased lower) ds -> Forall (cased lower) ds' ->
  numeral 16 x ds -> numeral 16 x ds' -> ds = ds'.
Proof.
  intros Hl. apply (numeral_unique (cased lower)); [lia|]. intros c c' Hc Hc' _ _ _ E.
  rewrite (cased_value lower c), (cased_value lower c') by done. by rewrite E.
Qed.
