(* ===== verification/Digest.v ===== *)
(** * Hashing a message in pieces ([crypt/crypt_sha256.c], [crypt_sha512.c], [crypt_md5.c])

    The three hashes keep the length of the message, the hash of its full blocks and
    the bytes after them in a buffer; only the block function and the encoding of
    the length differ.  [hash_of] is the hash of a whole message, and [sum_ok] says
    that the pieces it is given in do not matter. *)
From S2P Require Import Prelude Mem.

(** What distinguishes the hashes: the size of a block, the last offset at which the
    padding may end in the current block, the initial state, the block function and
    the encodings of the length and of the state. *)
Class Hash := {
  block : nat;
  limit : nat;
  initial : list Z;
  processblock : list Z -> list Z -> list Z;
  length_field : Z -> list Z;
  output : list Z -> list Z;
  block_size : (limit + 8 <= block)%nat /\ (0 < limit)%nat /\ (Z.of_nat block | 2 ^ 64);
  length_field_size : forall n, length (length_field n) = 8%nat;
}.

Record ctx := { len : Z; h : list Z; buf : list Z }.

Section code.
Context `{Hash}.

(** [memcpy(buf + r, p, n)] on the buffer *)
Definition splice (buf : list Z) (r : nat) (p : list Z) : list Z := take r buf ++ p ++ drop (r + length p) buf.

Definition init (s : ctx) : ctx := {| len := 0; h := initial; buf := buf s |}.

(** [for (; len >= 64; len -= 64, p += 64) processblock(s, p);] *)
Fixpoint full_blocks (fuel : nat) (h : list Z) (p : list Z) : list Z * list Z :=
  match fuel with
  | O => (h, p)
  | S fuel => if (block <=? length p)%nat then full_blocks fuel (processblock h (take block p)) (drop block p) else (h, p)
  end.

Definition update (s : ctx) (p : list Z) : ctx :=
  let r := Z.to_nat (len s mod Z.of_nat block) in
  let len := u64 (len s + Z.of_nat (length p)) in
  let rest h buf p :=
    let '(h, p) := full_blocks (length p) h p in {| len := len; h := h; buf := splice buf 0 p |} in
  if negb (r =? 0)%nat then
    if (length p <? block - r)%nat then {| len := len; h := h s; buf := splice (buf s) r p |}
    else
      let buf := splice (buf s) r (take (block - r) p) in
      rest (processblock (h s) buf) buf (drop (block - r) p)
  else rest (h s) (buf s) p.

Definition pad (s : ctx) : ctx :=
  let r := Z.to_nat (len s mod Z.of_nat block) in
  let buf := splice (buf s) r [0x80] in
  let r := S r in
  let '(h, buf, r) :=
    if (limit <? r)%nat then
      let buf := splice buf r (replicate (block - r) 0) in
      (processblock (h s) buf, buf, O)
    else (h s, buf, r) in
  let buf := splice buf r (replicate (block - 8 - r) 0) in
  let len := u64 (len s * 8) in
  let buf := splice buf (block - 8) (length_field len) in
  {| len := len; h := processblock h buf; buf := buf |}.

Definition sum (s : ctx) : list Z := output (h (pad s)).

(** ** The hash of a whole message *)

Fixpoint absorb (n : nat) (h : list Z) (bs : list Z) : list Z :=
  match n with O => h | S n => absorb n (processblock h (take block bs)) (drop block bs) end.

(** The message, the byte 0x80, zeros up to the length field and the length in bits;
    the zeros end at [limit] in a block, or at the field itself. *)
Definition padded (msg : list Z) : list Z :=
  msg ++ [0x80] ++ replicate (Z.to_nat ((Z.of_nat limit - Z.of_nat (length msg) - 1) mod Z.of_nat block)) 0 ++
  replicate (block - 8 - limit) 0 ++ length_field (u64 (8 * Z.of_nat (length msg))).

Definition hash_of (msg : list Z) : list Z :=
  output (absorb (length (padded msg) / block) initial (padded msg)).
End code.

(** ** The pieces do not matter *)
Section streaming.
Context `{H : Hash}.

Lemma block_pos : (0 < block)%nat.
Proof. pose proof (block_size). lia. Qed.

Lemma length_splice b r p : (r + length p <= length b)%nat -> length (splice b r p) = length b.
Proof. intros. unfold splice. rewrite !length_app, length_take, length_drop. lia. Qed.

Lemma take_splice b r p : (r + length p <= length b)%nat -> take (r + length p) (splice b r p) = take r b ++ p.
Proof.
  intros. unfold splice. rewrite app_assoc. apply take_app_length'. rewrite length_app, length_take. lia.
Qed.

Lemma absorb_app n k h0 xs ys : length xs = (n * block)%nat -> absorb (n + k) h0 (xs ++ ys) = absorb k (absorb n h0 xs) ys.
Proof.
  revert h0 xs. induction n as [|n IH]; intros h0 xs Hl; simpl in *.
  - by destruct xs.
  - pose proof block_pos. rewrite take_app_le by lia. rewrite drop_app_le by lia. apply IH. rewrite length_drop. lia.
Qed.

Lemma absorb_one h0 b : length b = block -> absorb 1 h0 b = processblock h0 b.
Proof. intros. simpl. by rewrite take_ge by lia. Qed.

Lemma full_blocks_ok fuel h0 p : (length p <= fuel)%nat ->
  full_blocks fuel h0 p = (absorb (length p / block) h0 p, drop (length p / block * block) p).
Proof.
  pose proof block_pos as Hb. revert h0 p. induction fuel as [|fuel IH]; intros h0 p Hf.
  - destruct p; [|simpl in Hf; lia]. rewrite Nat.Div0.div_0_l. done.
  - cbn [full_blocks]. destruct (Nat.leb_spec block (length p)) as [Hle|Hlt].
    + rewrite IH by (rewrite length_drop; lia). rewrite length_drop.
      assert (E : (length p / block = S ((length p - block) / block))%nat).
      { replace (length p) with (length p - block + 1 * block)%nat at 1 by lia. rewrite Nat.div_add by lia. lia. }
      rewrite E. cbn [absorb]. rewrite drop_drop. do 2 f_equal.
    + rewrite Nat.div_small by done. done.
Qed.

(** The context after a message [a ++ r], with [a] the full blocks and [r] the rest. *)
Record parts (s : ctx) (n : nat) (a r : list Z) : Prop := {
  parts_buf : length (buf s) = block;
  parts_a : length a = (n * block)%nat;
  parts_r : (length r < block)%nat;
  parts_len : len s = u64 (Z.of_nat (length (a ++ r)));
  parts_h : h s = absorb n initial a;
  parts_rest : take (length r) (buf s) = r;
}.

Definition holds (s : ctx) (msg : list Z) : Prop := exists n a r, msg = a ++ r /\ parts s n a r.

Lemma len_mod x : u64 (Z.of_nat x) mod Z.of_nat block = Z.of_nat (x mod block).
Proof.
  destruct block_size as (_ & _ & Hdiv). unfold wrap. rewrite Z.mod_mod_divide by done. by rewrite Nat2Z.inj_mod.
Qed.

Lemma offset_ok s n a r : parts s n a r -> Z.to_nat (len s mod Z.of_nat block) = length r.
Proof.
  intros [? Ha Hr -> _ _]. rewrite len_mod, length_app, Ha, Nat.add_comm, Nat.Div0.mod_add, Nat.mod_small by done. lia.
Qed.

Lemma len_add x y : u64 (u64 (Z.of_nat x) + Z.of_nat y) = u64 (Z.of_nat (x + y)).
Proof. unfold wrap. rewrite Zplus_mod_idemp_l, Nat2Z.inj_add. done. Qed.

Lemma init_ok s : length (buf s) = block -> holds (init s) [].
Proof. intros Hl. exists O, [], []. split; [done|]. pose proof block_pos. by split. Qed.

(** The full blocks of [p] and then its rest at the start of the buffer. *)
Lemma rest_ok n a p l b h0 : length a = (n * block)%nat -> length b = block ->
  l = u64 (Z.of_nat (length (a ++ p))) -> h0 = absorb n initial a ->
  holds (let '(h1, p) := full_blocks (length p) h0 p in {| len := l; h := h1; buf := splice b 0 p |}) (a ++ p).
Proof.
  intros Ha Hb -> ->. rewrite full_blocks_ok by done. pose proof block_pos. set (q := (length p / block)%nat).
  assert (Hq : (q * block <= length p)%nat) by (subst q; rewrite Nat.mul_comm; apply Nat.Div0.mul_div_le).
  assert (Hq2 : (length p < S q * block)%nat) by (subst q; rewrite Nat.mul_comm; apply Nat.mul_succ_div_gt; lia).
  assert (Hd : (length (drop (q * block) p) < block)%nat) by (rewrite length_drop; lia).
  exists (n + q)%nat, (a ++ take (q * block) p), (drop (q * block) p). split; [by rewrite <- app_assoc, take_drop|].
  split; simpl.
  - rewrite length_splice; lia.
  - rewrite length_app, length_take. lia.
  - done.
  - by rewrite <- app_assoc, take_drop.
  - rewrite absorb_app by done. rewrite <- (take_drop (q * block) p) at 1.
    rewrite <- (Nat.add_0_r q) at 1. rewrite absorb_app by (rewrite length_take; lia). done.
  - change (length (drop (q * block) p)) with (0 + length (drop (q * block) p))%nat. rewrite take_splice by lia. done.
Qed.

Lemma update_ok s msg p : holds s msg -> holds (update s p) (msg ++ p).
Proof.
  intros (n & a & r & -> & P). pose proof block_pos. unfold update. rewrite (offset_ok _ _ _ _ P).
  destruct P as [Hb Ha Hr Hl Hh Ht]. rewrite Hl, len_add, <- length_app.
  destruct (Nat.eqb_spec (length r) 0) as [E|E]; cbn [negb].
  - destruct r; [|done]. rewrite app_nil_r in *. by eapply rest_ok.
  - destruct (Nat.ltb_spec (length p) (block - length r)) as [Hs|Hs].
    + exists n, a, (r ++ p). split; [by rewrite app_assoc|].
      split; simpl; [rewrite length_splice; lia|done|rewrite length_app; lia|by rewrite app_assoc|done|].
      rewrite length_app, take_splice by lia. by rewrite Ht.
    + set (k := (block - length r)%nat) in *. pose (f := r ++ take k p).
      assert (Hf : length f = block) by (subst f; rewrite length_app, length_take; lia).
      assert (Hbuf : splice (buf s) (length r) (take k p) = f).
      { unfold splice. rewrite Ht, drop_ge, app_nil_r; [done|]. rewrite length_take. lia. }
      rewrite Hbuf. replace ((a ++ r) ++ p) with ((a ++ f) ++ drop k p).
      2:{ subst f. by rewrite <- !app_assoc, take_drop. }
      apply (rest_ok (n + 1)); [rewrite length_app; lia|done|done|].
      rewrite absorb_app by done. by rewrite absorb_one, Hh.
Qed.

Lemma updates_ok s msg ps : holds s msg -> holds (foldl update s ps) (msg ++ concat ps).
Proof.
  revert s msg. induction ps as [|p ps IH]; intros s msg Hs; simpl; [by rewrite app_nil_r|].
  rewrite app_assoc. by apply IH, update_ok.
Qed.

(** The buffer is written from the left: the bytes [x] stand, [p] follows. *)
Lemma write_next b x r p k : length b = block -> take r b = x -> r = length x -> k = (r + length p)%nat -> (k <= block)%nat ->
  take k (splice b r p) = x ++ p /\ length (splice b r p) = block.
Proof. intros Hb <- _ -> Hk. rewrite take_splice, length_splice by lia. done. Qed.

Lemma zeros_needed (a : list Z) n r : length a = (n * block)%nat -> (length r < block)%nat ->
  Z.to_nat ((Z.of_nat limit - Z.of_nat (length (a ++ r)) - 1) mod Z.of_nat block) =
  if (limit <? S (length r))%nat then (limit + block - S (length r))%nat else (limit - S (length r))%nat.
Proof.
  intros Ha Hr. pose proof block_size as (Hl & Hl0 & _). rewrite length_app, Ha.
  replace (Z.of_nat limit - Z.of_nat (n * block + length r) - 1)
    with ((Z.of_nat limit - Z.of_nat (length r) - 1) + (- Z.of_nat n) * Z.of_nat block) by lia.
  rewrite Z_mod_plus_full. destruct (Nat.ltb_spec limit (S (length r))).
  - rewrite <- (Z_mod_plus_full _ 1), Z.mod_small by lia. lia.
  - rewrite Z.mod_small by lia. lia.
Qed.

Lemma bits_ok x : u64 (u64 (Z.of_nat x) * 8) = u64 (8 * Z.of_nat x).
Proof. unfold wrap. rewrite Zmult_mod_idemp_l. f_equal. lia. Qed.

Lemma pad_ok s msg : holds s msg ->
  h (pad s) = absorb (length (padded msg) / block) initial (padded msg) /\ length (buf (pad s)) = block.
Proof.
  intros (n & a & r & -> & P). pose proof block_size as (Hlim & Hlim0 & _). unfold pad. rewrite (offset_ok _ _ _ _ P).
  destruct P as [Hb Ha Hr Hl Hh Ht]. rewrite Hl, bits_ok.
  unfold padded. rewrite (zeros_needed _ n) by done. rewrite <- app_assoc.
  set (F := length_field _). assert (HF : length F = 8%nat) by apply length_field_size. clearbody F.
  destruct (write_next (buf s) r (length r) [0x80] (S (length r))) as [T1 L1]; [done..|simpl; lia|lia|].
  destruct (Nat.ltb_spec limit (S (length r))) as [Hc|Hc]; cbn [h buf].
  - destruct (write_next _ _ (S (length r)) (replicate (block - S (length r)) 0) block L1 T1) as [T2 L2];
      [rewrite length_app; simpl; lia|rewrite length_replicate; lia|lia|].
    destruct (write_next _ [] 0 (replicate (block - 8 - 0) 0) (block - 8) L2) as [T3 L3];
      [done..|rewrite length_replicate; lia|lia|].
    destruct (write_next _ _ (block - 8) F block L3 T3) as [T4 L4];
      [simpl; rewrite length_replicate; lia|lia|lia|].
    split; [|done]. rewrite take_ge in T4 by lia. rewrite take_ge in T2 by lia. rewrite T4, T2.
    rewrite Hh. set (B1 := (r ++ _) ++ _). set (B2 := ([] ++ _) ++ F).
    assert (H1 : length B1 = block) by (subst B1; rewrite !length_app, length_replicate; simpl; lia).
    assert (H2 : length B2 = block) by (subst B2; rewrite !length_app, length_replicate; simpl; lia).
    match goal with |- _ = absorb _ _ ?P => replace P with (a ++ B1 ++ B2) end.
    2:{ subst B1 B2. rewrite <- !app_assoc. do 3 f_equal. cbn [app].
        rewrite (app_assoc (replicate _ _)), <- replicate_add, (app_assoc (replicate _ _)), <- replicate_add. do 2 f_equal. lia. }
    rewrite !length_app, Ha, H1, H2. replace (n * block + (block + block))%nat with ((n + 2) * block)%nat by lia.
    rewrite Nat.div_mul by lia. rewrite absorb_app by done. change 2%nat with (1 + 1)%nat.
    rewrite absorb_app by lia. by rewrite !absorb_one.
  - destruct (write_next _ _ (S (length r)) (replicate (block - 8 - S (length r)) 0) (block - 8) L1 T1) as [T3 L3];
      [rewrite length_app; simpl; lia|rewrite length_replicate; lia|lia|].
    destruct (write_next _ _ (block - 8) F block L3 T3) as [T4 L4];
      [rewrite !length_app, length_replicate; simpl; lia|lia|lia|].
    split; [|done]. rewrite take_ge in T4 by lia. rewrite T4, Hh. set (B := _ ++ F).
    assert (HB : length B = block) by (subst B; rewrite !length_app, length_replicate; simpl; lia).
    match goal with |- _ = absorb _ _ ?P => replace P with (a ++ B) end.
    2:{ subst B. rewrite <- !app_assoc. do 3 f_equal. cbn [app].
        rewrite (app_assoc (replicate _ _)), <- replicate_add. do 2 f_equal. lia. }
    rewrite !length_app, Ha, HB. replace (n * block + block)%nat with ((n + 1) * block)%nat by lia.
    rewrite Nat.div_mul by lia. rewrite absorb_app by done. by rewrite absorb_one.
Qed.

(** A fresh context, the pieces one after the other and the sum: the hash of the whole. *)
Lemma sum_ok s ps : length (buf s) = block -> sum (foldl update (init s) ps) = hash_of (concat ps).
Proof.
  intros Hs. unfold sum, hash_of. by destruct (pad_ok _ _ (updates_ok _ _ ps (init_ok _ Hs))) as [-> _].
Qed.

(** The context can be used again, whatever it held. *)
Lemma sum_buf s msg : holds s msg -> length (buf (pad s)) = block.
Proof. intros Hs. by destruct (pad_ok _ _ Hs). Qed.
End streaming.
