(* ===== verification/Sha2.v ===== *)
(** * SHA-256 and SHA-512 ([crypt/crypt_sha256.c], [crypt/crypt_sha512.c])

    The two files differ in the width of the words and in constants, so the code is
    one set of definitions over a [variant].  [fips] is the definition of the
    standard (FIPS 180-3): padding as a congruence, rotation as a permutation of
    digits, the choice and majority functions and the message schedule in the
    standard's form.  [standard] has the widths and rotations of the standard, and its
    constants as the standard defines them, from the square and cube roots of the
    first primes; none of this is taken from the tables of the code. *)
From S2P Require Import Prelude Mem Digest.

(** The [n] words of [w] bits of one line of a table of the source. *)
Definition row (w n : Z) (x : Z) : list Z := (fun j => wrap w (Z.shiftr x (w * (n - 1 - j)))) <$> seqZ 0 n.

Record variant := {
  w : Z;                    (* bits of a word *)
  wbytes : nat;             (* bytes of a word *)
  K : list Z;
  cS0 : Z * Z * Z; cS1 : Z * Z * Z; cR0 : Z * Z * Z; cR1 : Z * Z * Z;
  H0 : list Z;
}.

Section code.
Context (v : variant).

Definition ror (n k : Z) : Z := Z.lor (Z.shiftr n k) (wrap (w v) (Z.shiftl n (w v - k))).
Definition Ch (x y z : Z) : Z := Z.lxor z (Z.land x (Z.lxor y z)).
Definition Maj (x y z : Z) : Z := Z.lor (Z.land x y) (Z.land z (Z.lor x y)).
Definition big (c : Z * Z * Z) (x : Z) : Z :=
  let '(i, j, k) := c in Z.lxor (Z.lxor (ror x i) (ror x j)) (ror x k).
Definition small (c : Z * Z * Z) (x : Z) : Z :=
  let '(i, j, k) := c in Z.lxor (Z.lxor (ror x i) (ror x j)) (Z.shiftr x k).
Definition S0 := big (cS0 v).
Definition S1 := big (cS1 v).
Definition R0 := small (cR0 v).
Definition R1 := small (cR1 v).

(** [(uint32_t)p[0]<<24 | (uint32_t)p[1]<<16 | ... | p[3]] *)
Fixpoint be (p : list Z) : Z :=
  match p with [] => 0 | b :: p => Z.lor (Z.shiftl b (8 * Z.of_nat (length p))) (be p) end.

(** [md[0] = x >> 24; ... md[3] = x;] *)
Definition be_bytes (n : nat) (x : Z) : list Z := (fun j => u8 (Z.shiftr x (8 * (Z.of_nat n - 1 - j)))) <$> seqZ 0 (Z.of_nat n).

(** [for (; i < 64; i++) W[i] = R1(W[i-2]) + W[i-7] + R0(W[i-15]) + W[i-16];] *)
Fixpoint expand (n : nat) (W : list Z) : list Z :=
  match n with
  | O => W
  | S n =>
      let i := length W in
      expand n (W ++ [wrap (w v) (R1 (W !!! (i - 2)%nat) + W !!! (i - 7)%nat + R0 (W !!! (i - 15)%nat) + W !!! (i - 16)%nat)])
  end.

Definition regs : Type := Z * Z * Z * Z * Z * Z * Z * Z.

Definition round (W : list Z) (s : regs) (i : nat) : regs :=
  let '(a, b, c, d, e, f, g, h) := s in
  let t1 := wrap (w v) (h + S1 e + Ch e f g + K v !!! i + W !!! i) in
  let t2 := wrap (w v) (S0 a + Maj a b c) in
  (wrap (w v) (t1 + t2), a, b, c, wrap (w v) (d + t1), e, f, g).

Definition processblock (h buf : list Z) : list Z :=
  let W := (fun i => be (take (wbytes v) (drop (wbytes v * i) buf))) <$> seq 0 16 in
  let W := expand (length (K v) - 16) W in
  let s := (h !!! 0%nat, h !!! 1%nat, h !!! 2%nat, h !!! 3%nat, h !!! 4%nat, h !!! 5%nat, h !!! 6%nat, h !!! 7%nat) in
  let '(a, b, c, d, e, f, g, h') := foldl (round W) s (seq 0 (length (K v))) in
  (fun '(x, y) => wrap (w v) (x + y)) <$> zip h [a; b; c; d; e; f; g; h'].
End code.

Definition v256 : variant := {|
  w := 32; wbytes := 4;
  cS0 := (2, 13, 22); cS1 := (6, 11, 25); cR0 := (7, 18, 3); cR1 := (17, 19, 10);
  K := mbind (row 32 8) [
    0x428a2f98_71374491_b5c0fbcf_e9b5dba5_3956c25b_59f111f1_923f82a4_ab1c5ed5;
    0xd807aa98_12835b01_243185be_550c7dc3_72be5d74_80deb1fe_9bdc06a7_c19bf174;
    0xe49b69c1_efbe4786_0fc19dc6_240ca1cc_2de92c6f_4a7484aa_5cb0a9dc_76f988da;
    0x983e5152_a831c66d_b00327c8_bf597fc7_c6e00bf3_d5a79147_06ca6351_14292967;
    0x27b70a85_2e1b2138_4d2c6dfc_53380d13_650a7354_766a0abb_81c2c92e_92722c85;
    0xa2bfe8a1_a81a664b_c24b8b70_c76c51a3_d192e819_d6990624_f40e3585_106aa070;
    0x19a4c116_1e376c08_2748774c_34b0bcb5_391c0cb3_4ed8aa4a_5b9cca4f_682e6ff3;
    0x748f82ee_78a5636f_84c87814_8cc70208_90befffa_a4506ceb_bef9a3f7_c67178f2];
  H0 := row 32 8 0x6a09e667_bb67ae85_3c6ef372_a54ff53a_510e527f_9b05688c_1f83d9ab_5be0cd19;
|}.

Definition v512 : variant := {|
  w := 64; wbytes := 8;
  cS0 := (28, 34, 39); cS1 := (14, 18, 41); cR0 := (1, 8, 7); cR1 := (19, 61, 6);
  K := mbind (row 64 4) [
    0x428a2f98d728ae22_7137449123ef65cd_b5c0fbcfec4d3b2f_e9b5dba58189dbbc;
    0x3956c25bf348b538_59f111f1b605d019_923f82a4af194f9b_ab1c5ed5da6d8118;
    0xd807aa98a3030242_12835b0145706fbe_243185be4ee4b28c_550c7dc3d5ffb4e2;
    0x72be5d74f27b896f_80deb1fe3b1696b1_9bdc06a725c71235_c19bf174cf692694;
    0xe49b69c19ef14ad2_efbe4786384f25e3_0fc19dc68b8cd5b5_240ca1cc77ac9c65;
    0x2de92c6f592b0275_4a7484aa6ea6e483_5cb0a9dcbd41fbd4_76f988da831153b5;
    0x983e5152ee66dfab_a831c66d2db43210_b00327c898fb213f_bf597fc7beef0ee4;
    0xc6e00bf33da88fc2_d5a79147930aa725_06ca6351e003826f_142929670a0e6e70;
    0x27b70a8546d22ffc_2e1b21385c26c926_4d2c6dfc5ac42aed_53380d139d95b3df;
    0x650a73548baf63de_766a0abb3c77b2a8_81c2c92e47edaee6_92722c851482353b;
    0xa2bfe8a14cf10364_a81a664bbc423001_c24b8b70d0f89791_c76c51a30654be30;
    0xd192e819d6ef5218_d69906245565a910_f40e35855771202a_106aa07032bbd1b8;
    0x19a4c116b8d2d0c8_1e376c085141ab53_2748774cdf8eeb99_34b0bcb5e19b48a8;
    0x391c0cb3c5c95a63_4ed8aa4ae3418acb_5b9cca4f7763e373_682e6ff3d6b2b8a3;
    0x748f82ee5defb2fc_78a5636f43172f60_84c87814a1f0ab72_8cc702081a6439ec;
    0x90befffa23631e28_a4506cebde82bde9_bef9a3f7b2c67915_c67178f2e372532b;
    0xca273eceea26619c_d186b8c721c0c207_eada7dd6cde0eb1e_f57d4f7fee6ed178;
    0x06f067aa72176fba_0a637dc5a2c898a6_113f9804bef90dae_1b710b35131c471b;
    0x28db77f523047d84_32caab7b40c72493_3c9ebe0a15c9bebc_431d67c49c100d4c;
    0x4cc5d4becb3e42b6_597f299cfc657e2a_5fcb6fab3ad6faec_6c44198c4a475817];
  H0 := row 64 8 0x6a09e667f3bcc908_bb67ae8584caa73b_3c6ef372fe94f82b_a54ff53a5f1d36f1_510e527fade682d1_9b05688c2b3e6c1f_1f83d9abfb41bd6b_5be0cd19137e2179;
|}.

Lemma be_bytes_length n x : length (be_bytes n x) = n.
Proof. unfold be_bytes. rewrite length_fmap, length_seqZ. lia. Qed.

Lemma block64 : (56 + 8 <= 64)%nat /\ (0 < 56)%nat /\ (Z.of_nat 64 | 2 ^ 64).
Proof. split_and!; [lia|lia|by exists (2 ^ 58)]. Qed.

Lemma block128 : (112 + 8 <= 128)%nat /\ (0 < 112)%nat /\ (Z.of_nat 128 | 2 ^ 64).
Proof. split_and!; [lia|lia|by exists (2 ^ 57)]. Qed.

Definition sha256 : Hash := {|
  block := 64; limit := 56; initial := H0 v256; Digest.processblock := processblock v256;
  length_field := be_bytes 8; output := fun h => h ≫= be_bytes 4;
  block_size := block64; length_field_size := be_bytes_length 8 |}.

Definition sha512 : Hash := {|
  block := 128; limit := 112; initial := H0 v512; Digest.processblock := processblock v512;
  length_field := be_bytes 8; output := fun h => h ≫= be_bytes 8;
  block_size := block128; length_field_size := be_bytes_length 8 |}.

(** The functions of the two files under their names. *)
Definition sha256_init := init (H := sha256).
Definition sha256_update := update (H := sha256).
Definition sha256_sum := sum (H := sha256).
Definition sha512_processblock := processblock v512.
Definition sha512_pad := pad (H := sha512).
Definition sha512_init := init (H := sha512).
Definition sha512_update := update (H := sha512).
Definition sha512_sum := sum (H := sha512).

(** ** The standard *)
Section fips.
Context (v : variant).

Definition rotate_right (n k : Z) : Z := n / 2 ^ k + n mod 2 ^ k * 2 ^ (w v - k).
Definition choose (x y z : Z) : Z := Z.lxor (Z.land x y) (Z.land (Z.lnot x) z).
Definition majority (x y z : Z) : Z := Z.lxor (Z.lxor (Z.land x y) (Z.land x z)) (Z.land y z).
Definition Sigma (c : Z * Z * Z) (x : Z) : Z := let '(i, j, k) := c in Z.lxor (Z.lxor (rotate_right x i) (rotate_right x j)) (rotate_right x k).
Definition sigma (c : Z * Z * Z) (x : Z) : Z := let '(i, j, k) := c in Z.lxor (Z.lxor (rotate_right x i) (rotate_right x j)) (x / 2 ^ k).

(** The message schedule, from the last sixteen words of it, the oldest first. *)
Fixpoint schedule (n : nat) (last16 : list Z) : list Z :=
  match n with
  | O => []
  | S n =>
      let next := sigma (cR1 v) (last16 !!! 14%nat) + last16 !!! 9%nat + sigma (cR0 v) (last16 !!! 1%nat) + last16 !!! 0%nat in
      last16 !!! 0%nat :: schedule n (drop 1 last16 ++ [next mod 2 ^ w v])
  end.

Definition step (s : regs) (kw : Z * Z) : regs :=
  let '(a, b, c, d, e, f, g, h) := s in
  let T1 := h + Sigma (cS1 v) e + choose e f g + kw.1 + kw.2 in
  let T2 := Sigma (cS0 v) a + majority a b c in
  ((T1 + T2) mod 2 ^ w v, a, b, c, (d + T1) mod 2 ^ w v, e, f, g).

Fixpoint big_endian (bs : list Z) : Z := match bs with [] => 0 | b :: bs => b * 256 ^ Z.of_nat (length bs) + big_endian bs end.
Definition digits256 (n : nat) (x : Z) : list Z := rev (split_le n x).

Definition chunk (i : nat) (bs : list Z) : list Z := take (wbytes v) (drop (wbytes v * i) bs).

Definition compress (h bs : list Z) : list Z :=
  let M := (fun i => big_endian (chunk i bs)) <$> seq 0 16 in
  let s := (h !!! 0%nat, h !!! 1%nat, h !!! 2%nat, h !!! 3%nat, h !!! 4%nat, h !!! 5%nat, h !!! 6%nat, h !!! 7%nat) in
  let '(a, b, c, d, e, f, g, h') := foldl step s (zip (K v) (schedule (length (K v)) M)) in
  (fun '(x, y) => (x + y) mod 2 ^ w v) <$> zip h [a; b; c; d; e; f; g; h'].

(** The message, 1 bit, zeros until two words are missing, its length in bits. *)
Definition fips_padded (msg : list Z) : list Z :=
  let zeros := (- (Z.of_nat (length msg) + 1 + Z.of_nat (2 * wbytes v))) mod Z.of_nat (16 * wbytes v) in
  msg ++ [128] ++ replicate (Z.to_nat zeros) 0 ++ digits256 (2 * wbytes v) (8 * Z.of_nat (length msg)).

Fixpoint fips_blocks (n : nat) (h bs : list Z) : list Z :=
  match n with
  | O => h
  | S n => fips_blocks n (compress h (take (16 * wbytes v) bs)) (drop (16 * wbytes v) bs)
  end.

Definition fips (msg : list Z) : list Z :=
  let bs := fips_padded msg in
  fips_blocks (length bs / (16 * wbytes v)) (H0 v) bs ≫= digits256 (wbytes v).
End fips.

(** *** The parameters of the standard

    The constants are the first bits of the fractional parts of the square and cube roots
    of the first primes (sections 4.2 and 5.3). *)
Definition prime (n : Z) : bool := forallb (fun d => negb (n mod d =? 0)) (seqZ 2 (Z.sqrt n - 1)).
Definition first_primes (n : nat) : list Z := take n (filter (fun x => prime x = true) (seqZ 2 500)).

(** The greatest [r] with [r ^ 3 <= n], bit by bit. *)
Fixpoint root_bits (bits : nat) (n r : Z) : Z :=
  match bits with
  | O => r
  | S bits => let r' := r + 2 ^ Z.of_nat bits in root_bits bits n (if r' ^ 3 <=? n then r' else r)
  end.
Definition cube_root (n : Z) : Z := root_bits (Z.to_nat (Z.log2 n)) n 0.

Definition square_constants (w : Z) (n : nat) : list Z := (fun p => Z.sqrt (p * 2 ^ (2 * w)) mod 2 ^ w) <$> first_primes n.
Definition cube_constants (w : Z) (n : nat) : list Z := (fun p => cube_root (p * 2 ^ (3 * w)) mod 2 ^ w) <$> first_primes n.

Inductive algorithm := SHA256 | SHA512.

(** Sections 4.1.2 and 4.1.3: the rotations, and in the small functions a shift at the end. *)
Definition standard (a : algorithm) : variant :=
  match a with
  | SHA256 => {| w := 32; wbytes := 4; cS0 := (2, 13, 22); cS1 := (6, 11, 25); cR0 := (7, 18, 3); cR1 := (17, 19, 10);
                 K := cube_constants 32 64; H0 := square_constants 32 8 |}
  | SHA512 => {| w := 64; wbytes := 8; cS0 := (28, 34, 39); cS1 := (14, 18, 41); cR0 := (1, 8, 7); cR1 := (19, 61, 6);
                 K := cube_constants 64 80; H0 := square_constants 64 8 |}
  end.

Lemma root_bits_ok bits n r : 0 <= r -> r ^ 3 <= n < (r + 2 ^ Z.of_nat bits) ^ 3 ->
  root_bits bits n r ^ 3 <= n < (root_bits bits n r + 1) ^ 3 /\ 0 <= root_bits bits n r.
Proof.
  revert r. induction bits as [|bits IH]; intros r Hr Hn; cbn [root_bits]; [done|].
  rewrite Nat2Z.inj_succ, Z.pow_succ_r in Hn by lia. apply IH; destruct (Z.leb_spec ((r + 2 ^ Z.of_nat bits) ^ 3) n); lia.
Qed.

(** A cube root is recognised by its definition. *)
Lemma cube_root_is n r : 1 < n -> 0 <= r -> r ^ 3 <= n < (r + 1) ^ 3 -> cube_root n = r.
Proof.
  intros Hn Hr Hc. unfold cube_root. pose proof (Z.log2_pos n Hn). destruct (root_bits_ok (Z.to_nat (Z.log2 n)) n 0) as [Hb Hb0]; [done| |].
  { rewrite Z2Nat.id by lia. split; [lia|]. rewrite Z.add_0_l, <- Z.pow_mul_r by lia.
    eapply Z.lt_le_trans; [apply Z.log2_spec; lia|]. apply Z.pow_le_mono_r; lia. }
  set (q := root_bits _ _ _) in *. destruct (Z.lt_total q r) as [Hl|[?|Hl]]; [|done|].
  - assert ((q + 1) ^ 3 <= r ^ 3) by (apply Z.pow_le_mono_l; lia). lia.
  - assert ((r + 1) ^ 3 <= q ^ 3) by (apply Z.pow_le_mono_l; lia). lia.
Qed.

(** A table of constants is checked against the primes: the integer part of the root is
    below 8, and with it the constant is the root. *)
Definition is_cube_fraction (w p c : Z) : bool :=
  (0 <=? c) && (c <? 2 ^ w) && existsb (fun a =>
    ((a * 2 ^ w + c) ^ 3 <=? p * 2 ^ (3 * w)) && (p * 2 ^ (3 * w) <? (a * 2 ^ w + c + 1) ^ 3)) (seqZ 0 8).

Lemma is_cube_fraction_ok w p c : 0 <= w -> 1 < p -> is_cube_fraction w p c = true -> cube_root (p * 2 ^ (3 * w)) mod 2 ^ w = c.
Proof.
  intros Hw Hp. unfold is_cube_fraction. rewrite !andb_true_iff, existsb_exists, Z.leb_le, Z.ltb_lt.
  intros [[Hc1 Hc2] (a & Ha & Hr)]. apply list_elem_of_In, elem_of_seqZ in Ha. rewrite andb_true_iff, Z.leb_le, Z.ltb_lt in Hr.
  assert (0 < 2 ^ (3 * w)) by (apply Z.pow_pos_nonneg; lia).
  rewrite (cube_root_is _ (a * 2 ^ w + c)); [|nia|nia|done]. rewrite Z.add_comm, Z_mod_plus_full. by apply Z.mod_small.
Qed.

Lemma cube_constants_are w n cs : 0 <= w -> length cs = length (first_primes n) ->
  forallb (fun pc => (1 <? pc.1) && is_cube_fraction w pc.1 pc.2) (zip (first_primes n) cs) = true -> cube_constants w n = cs.
Proof.
  intros Hw Hl Hc. unfold cube_constants. revert cs Hl Hc. induction (first_primes n) as [|p ps IH]; intros [|c cs] Hl Hc; try done.
  cbn [zip zip_with forallb fst snd] in Hc. rewrite !andb_true_iff, Z.ltb_lt in Hc. destruct Hc as [[Hp Hc] Hcs].
  rewrite fmap_cons, (is_cube_fraction_ok w p c) by done. f_equal. apply IH; [by injection Hl|done].
Qed.

(** ** The code computes the standard's functions *)
Definition variant_of (a : algorithm) : variant := match a with SHA256 => v256 | SHA512 => v512 end.

(** The tables of the code are the constants of the standard. *)
Lemma variant_standard a : variant_of a = standard a.
Proof.
  destruct a; unfold standard, variant_of.
  - rewrite (cube_constants_are 32 64 (K v256)); [vm_compute; reflexivity|lia|vm_compute; reflexivity..].
  - rewrite (cube_constants_are 64 80 (K v512)); [vm_compute; reflexivity|lia|vm_compute; reflexivity..].
Qed.

Definition word (v : variant) (x : Z) : Prop := 0 <= x < 2 ^ w v.

Class Valid (v : variant) : Prop := {
  valid_w : w v = 8 * Z.of_nat (wbytes v);
  valid_bytes : (0 < wbytes v)%nat;
  valid_K : (16 <= length (K v))%nat;
  valid_H0 : Forall (word v) (H0 v) /\ length (H0 v) = 8%nat;
  valid_rot : forall c, c ∈ [cS0 v; cS1 v; cR0 v; cR1 v] ->
    0 < c.1.1 < w v /\ 0 < c.1.2 < w v /\ 0 < c.2 < w v;
}.

Section equal.
Context (v : variant) `{Valid v}.
#[local] Abbreviation word := (word v).

Lemma w_pos : 0 < w v.
Proof. pose proof valid_w. pose proof valid_bytes. lia. Qed.

Lemma wrap_word x : word (wrap (w v) x).
Proof. apply wrap_range. pose proof w_pos. lia. Qed.

Lemma ror_rotr n k : word n -> 0 < k < w v -> ror v n k = rotate_right v n k /\ word (ror v n k).
Proof.
  intros Hn Hk. unfold ror, rotate_right, wrap, Sha2.word in *. rewrite Z.shiftl_mul_pow2, Z.shiftr_div_pow2 by lia.
  assert (E : 2 ^ w v = 2 ^ k * 2 ^ (w v - k)) by (rewrite <- Z.pow_add_r by lia; f_equal; lia).
  assert (Hdiv : 0 <= n / 2 ^ k < 2 ^ (w v - k)).
  { split; [apply Z.div_pos; lia|]. apply Z.div_lt_upper_bound; [lia|]. rewrite <- E. lia. }
  pose proof (Z.mod_pos_bound n (2 ^ k) ltac:(lia)).
  rewrite E, Z.mul_mod_distr_r by lia. rewrite (Z.mul_comm (n mod _)), lor_disjoint_add by lia.
  split; [done|]. nia.
Qed.

Lemma Ch_choose x y z : Ch x y z = choose x y z.
Proof. apply Z.bits_inj'. intros n Hn. unfold Ch, choose. rewrite ?Z.lxor_spec, ?Z.land_spec, ?Z.lnot_spec, ?Z.lxor_spec by lia. by destruct (Z.testbit x n), (Z.testbit y n), (Z.testbit z n). Qed.

Lemma Maj_majority x y z : Maj x y z = majority x y z.
Proof. apply Z.bits_inj'. intros n _. unfold Maj, majority. rewrite ?Z.lor_spec, ?Z.lxor_spec, ?Z.land_spec, ?Z.lor_spec. by destruct (Z.testbit x n), (Z.testbit y n), (Z.testbit z n). Qed.

Lemma big_Sigma c x : word x -> c ∈ [cS0 v; cS1 v; cR0 v; cR1 v] -> big v c x = Sigma v c x.
Proof.
  intros Hx Hc. destruct (valid_rot c Hc) as (H1 & H2 & H3). destruct c as [[i j] k]. simpl in *.
  unfold big, Sigma. by rewrite (proj1 (ror_rotr _ i Hx H1)), (proj1 (ror_rotr _ j Hx H2)), (proj1 (ror_rotr _ k Hx H3)).
Qed.

Lemma small_sigma c x : word x -> c ∈ [cS0 v; cS1 v; cR0 v; cR1 v] -> small v c x = sigma v c x.
Proof.
  intros Hx Hc. destruct (valid_rot c Hc) as (H1 & H2 & H3). destruct c as [[i j] k]. simpl in *.
  unfold small, sigma. rewrite (proj1 (ror_rotr _ i Hx H1)), (proj1 (ror_rotr _ j Hx H2)), Z.shiftr_div_pow2 by lia. done.
Qed.

Lemma be_big_endian bs : Forall is_byte bs -> be bs = big_endian bs /\ 0 <= big_endian bs < 256 ^ Z.of_nat (length bs).
Proof.
  induction 1 as [|b bs Hb Hbs [IH Hr]]; [done|]. cbn [be big_endian length].
  assert (E : 256 ^ Z.of_nat (length bs) = 2 ^ (8 * Z.of_nat (length bs))) by (rewrite Z.pow_mul_r by lia; done).
  rewrite Nat2Z.inj_succ, Z.pow_succ_r by lia. rewrite IH, Z.shiftl_mul_pow2 by lia. unfold is_byte in Hb. split; [|nia].
  rewrite Z.lor_comm, (Z.mul_comm b), lor_disjoint_add by lia. lia.
Qed.

(** *** The schedule *)
Definition next (W : list Z) : Z :=
  let i := length W in
  wrap (w v) (R1 v (W !!! (i - 2)%nat) + W !!! (i - 7)%nat + R0 v (W !!! (i - 15)%nat) + W !!! (i - 16)%nat).

Lemma lookup_word W i : Forall word W -> word (W !!! i).
Proof.
  intros HW. rewrite list_lookup_total_alt. destruct (W !! i) as [x|] eqn:E; simpl.
  - exact (proj1 (list.Forall_lookup _ _) HW _ _ E).
  - unfold Sha2.word. change (@inhabitant Z _) with 1. pose proof (proj1 (Z.pow_gt_1 2 (w v) ltac:(lia)) w_pos). lia.
Qed.

Lemma schedule_take n win : (n <= length win)%nat -> schedule v n win = take n win.
Proof.
  revert win. induction n as [|n IH]; intros win Hl; [done|]. destruct win as [|x win]; [simpl in Hl; lia|].
  cbn [schedule take]. simpl drop. rewrite drop_0. f_equal. simpl in Hl.
  rewrite IH by (rewrite length_app; simpl; lia). rewrite take_app_le by lia. done.
Qed.

Lemma drop_total (W : list Z) i j : drop i W !!! j = W !!! (i + j)%nat.
Proof. by rewrite !list_lookup_total_alt, lookup_drop. Qed.

Lemma next_sigma i W : Forall word W -> length W = (i + 16)%nat ->
  next W = (sigma v (cR1 v) (W !!! (i + 14)%nat) + W !!! (i + 9)%nat + sigma v (cR0 v) (W !!! (i + 1)%nat) + W !!! i) mod 2 ^ w v.
Proof.
  intros HW Hl. unfold next, wrap. rewrite Hl.
  replace (i + 16 - 2)%nat with (i + 14)%nat by lia. replace (i + 16 - 7)%nat with (i + 9)%nat by lia.
  replace (i + 16 - 15)%nat with (i + 1)%nat by lia. replace (i + 16 - 16)%nat with i by lia.
  unfold R0, R1. rewrite !small_sigma by (by apply lookup_word || set_solver). done.
Qed.

Lemma schedule_S n win :
  schedule v (S n) win = win !!! 0%nat :: schedule v n (drop 1 win ++
    [(sigma v (cR1 v) (win !!! 14%nat) + win !!! 9%nat + sigma v (cR0 v) (win !!! 1%nat) + win !!! 0%nat) mod 2 ^ w v]).
Proof. done. Qed.

Lemma expand_schedule m n i W : Forall word W -> length W = (i + 16)%nat -> n = (m + 16)%nat ->
  expand v m W = take i W ++ schedule v n (drop i W).
Proof.
  revert n i W. induction m as [|m IH]; intros n i W HW Hl ->.
  - rewrite schedule_take by (rewrite length_drop; lia). rewrite (take_ge (drop i W)) by (rewrite length_drop; lia).
    by rewrite take_drop.
  - cbn [expand]. change (wrap _ _) with (next W).
    assert (Hn : Forall word (W ++ [next W])) by (apply list.Forall_app; split; [done|apply list.Forall_singleton, wrap_word]).
    rewrite (IH (m + 16)%nat (S i)); [|done|rewrite length_app; simpl; lia|done].
    destruct (lookup_lt_is_Some_2 W i) as [x Hx]; [lia|].
    rewrite take_app_le, drop_app_le by lia. rewrite (take_S_r _ _ _ Hx), <- app_assoc. f_equal.
    rewrite Nat.add_succ_l, schedule_S.
    rewrite !drop_total, drop_drop, !Nat.add_0_r, <- (next_sigma i), (Nat.add_comm i 1) by done.
    by rewrite list_lookup_total_alt, Hx.
Qed.

(** *** The rounds and the block function *)
Definition words8 (s : regs) : Prop :=
  let '(a, b, c, d, e, f, g, h) := s in Forall word [a; b; c; d; e; f; g; h].

Lemma mod_word x : word (x mod 2 ^ w v).
Proof. apply wrap_word. Qed.

Lemma round_step W s i : words8 s -> round v W s i = step v s (K v !!! i, W !!! i) /\ words8 (round v W s i).
Proof.
  destruct s as [[[[[[[a b] c] d] e] f] g] h]. unfold words8. rewrite !list.Forall_cons. intros (? & ? & ? & ? & ? & ? & ? & ? & _).
  unfold round, step, S0, S1, wrap. rewrite !big_Sigma by (done || set_solver). rewrite Ch_choose, Maj_majority. cbn [fst snd].
  split.
  - by rewrite <- Zplus_mod, Zplus_mod_idemp_r.
  - rewrite !list.Forall_cons. split_and!; by try apply mod_word.
Qed.

Lemma rounds_steps W n s : words8 s ->
  let kw := (fun i => (K v !!! i, W !!! i)) <$> seq 0 n in
  foldl (round v W) s (seq 0 n) = foldl (step v) s kw /\ words8 (foldl (step v) s kw).
Proof.
  intros Hs. induction n as [|n [IH Hw]]; [done|]. rewrite seq_S, fmap_app, !foldl_app. simpl in *.
  rewrite foldl_app, IH. cbn [foldl]. by destruct (round_step W _ n Hw) as [<- ?].
Qed.

Lemma zip_index (xs ys : list Z) : length xs = length ys ->
  (fun i => (xs !!! i, ys !!! i)) <$> seq 0 (length xs) = zip xs ys.
Proof.
  intros Hl. apply list_eq. intros i. rewrite list_lookup_fmap, lookup_zip_with.
  destruct (decide (i < length xs)%nat) as [Hi|Hi].
  - rewrite lookup_seq_lt by done. simpl.
    rewrite (list_lookup_lookup_total_lt xs), (list_lookup_lookup_total_lt ys) by lia. done.
  - rewrite lookup_seq_ge by lia. by rewrite (lookup_ge_None_2 xs) by lia.
Qed.

Lemma schedule_length n win : length (schedule v n win) = n.
Proof. revert win. induction n as [|n IH]; intros win; [done|]. cbn [schedule length]. by rewrite IH. Qed.

Lemma chunk_word i bs : Forall is_byte bs -> be (chunk v i bs) = big_endian (chunk v i bs) /\ word (be (chunk v i bs)).
Proof.
  intros Hb. destruct (be_big_endian (chunk v i bs)) as [E Hr]; [by apply list.Forall_take, list.Forall_drop|].
  split; [done|]. rewrite E. unfold Sha2.word. rewrite valid_w, Z.pow_mul_r by lia. change (2 ^ 8) with 256. split; [lia|].
  eapply Z.lt_le_trans; [apply Hr|]. apply Z.pow_le_mono_r; [lia|]. unfold chunk. rewrite length_take. lia.
Qed.

Lemma processblock_compress h bs : Forall word h -> Forall is_byte bs ->
  processblock v h bs = compress v h bs /\ Forall word (processblock v h bs).
Proof.
  intros Hh Hb. unfold processblock. fold (chunk v).
  set (M := _ <$> seq 0 16). assert (HM : M = (fun i => big_endian (chunk v i bs)) <$> seq 0 16).
  { apply list_fmap_ext. intros i x _. by apply chunk_word. }
  assert (HMw : Forall word M) by (apply list.Forall_fmap, list.Forall_true; intros; by apply chunk_word).
  assert (HMl : length M = 16%nat) by (unfold M; by rewrite length_fmap, length_seq).
  pose proof valid_K as HK. rewrite (expand_schedule _ (length (K v)) 0) by (done || lia). rewrite drop_0, take_0, app_nil_l.
  set (s := (_, _, _, _, _, _, _, _)). assert (Hs : words8 s).
  { subst s. unfold words8. rewrite !list.Forall_cons. split_and!; by try apply lookup_word. }
  destruct (rounds_steps (schedule v (length (K v)) M) (length (K v)) s Hs) as [E Hw].
  unfold compress. rewrite <- HM, E, zip_index by (by rewrite schedule_length). fold s.
  split; [done|]. clear E Hw. destruct (foldl _ _ _) as [[[[[[[a b] c] d] e] f] g] h'].
  apply list.Forall_fmap, list.Forall_true. intros []. apply wrap_word.
Qed.

(** *** Padding and the whole message *)
Lemma split_le_snoc n x : split_le (S n) x = split_le n x ++ [x / 256 ^ Z.of_nat n mod 256].
Proof.
  revert x. induction n as [|n IH]; intros x; [cbn; by rewrite Z.div_1_r|].
  change (split_le (S (S n)) x) with (x mod 256 :: split_le (S n) (x / 256)). rewrite IH. cbn [split_le app].
  rewrite Nat2Z.inj_succ, Z.pow_succ_r, Z.div_div by lia. done.
Qed.

Lemma be_bytes_S n x : be_bytes (S n) x = u8 (Z.shiftr x (8 * Z.of_nat n)) :: be_bytes n x.
Proof.
  unfold be_bytes. rewrite Nat2Z.inj_succ, seqZ_cons by lia. rewrite fmap_cons. f_equal; [do 3 f_equal; lia|].
  rewrite Z.pred_succ. apply list_eq. intros i. rewrite !list_lookup_fmap.
  destruct (decide (Z.of_nat i < Z.of_nat n)).
  - rewrite !lookup_seqZ_lt by lia. simpl. do 4 f_equal. lia.
  - by rewrite !lookup_seqZ_ge by lia.
Qed.

Lemma be_bytes_digits n x : be_bytes n x = digits256 n x.
Proof.
  induction n as [|n IH]; [done|]. rewrite be_bytes_S, IH. unfold digits256. rewrite split_le_snoc, rev_app_distr. cbn [rev app].
  f_equal. unfold wrap. rewrite Z.shiftr_div_pow2, Z.pow_mul_r by lia. done.
Qed.

Lemma digits256_zeros k n x : 0 <= x < 256 ^ Z.of_nat n -> digits256 (k + n) x = replicate k 0 ++ digits256 n x.
Proof.
  intros Hx. induction k as [|k IH]; [done|]. rewrite <- be_bytes_digits in *. cbn [Nat.add replicate app].
  rewrite be_bytes_S, IH. f_equal. unfold wrap. rewrite Z.shiftr_div_pow2, Z.pow_mul_r by lia.
  change (2 ^ 8) with 256. rewrite Z.div_small; [done|]. split; [lia|]. eapply Z.lt_le_trans; [apply Hx|].
  apply Z.pow_le_mono_r; lia.
Qed.

(** The hash of [Digest] that a variant makes. *)
Class Implements (v : variant) (X : Hash) : Prop := {
  imp_block : block = (16 * wbytes v)%nat;
  imp_limit : limit = (14 * wbytes v)%nat;
  imp_initial : initial = H0 v;
  imp_process : Digest.processblock = processblock v;
  imp_length : length_field = be_bytes 8;
  imp_output : output = mbind (be_bytes (wbytes v));
}.

Context `{X : Hash} `{!Implements v X}.

Lemma padded_fips msg : (4 <= wbytes v)%nat -> 8 * Z.of_nat (length msg) < 2 ^ 64 -> padded msg = fips_padded v msg.
Proof.
  intros H4 Hl. unfold padded, fips_padded. rewrite imp_block, imp_limit, imp_length, wrap_small, be_bytes_digits by lia.
  replace (2 * wbytes v)%nat with (2 * wbytes v - 8 + 8)%nat at 2 by lia.
  rewrite digits256_zeros by (split; [lia|exact Hl]). do 2 f_equal. f_equal; [|by do 2 f_equal; lia].
  do 2 f_equal. rewrite <- (Z_mod_plus_full (- _) 1). f_equal. lia.
Qed.

Lemma fips_blocks_absorb n h bs : length bs = (n * block)%nat -> Forall is_byte bs -> Forall word h ->
  absorb n h bs = fips_blocks v n h bs /\ Forall word (absorb n h bs).
Proof.
  revert h bs. induction n as [|n IH]; intros h bs Hl Hb Hh; [done|]. cbn [absorb fips_blocks].
  rewrite imp_process, imp_block in *.
  destruct (processblock_compress h (take (16 * wbytes v) bs)) as [E Hw]; [done|by apply list.Forall_take|].
  rewrite <- E. apply IH; [rewrite length_drop; lia|by apply list.Forall_drop|done].
Qed.

Lemma digits256_bytes n x : Forall is_byte (digits256 n x).
Proof. apply List.Forall_rev, split_le_bytes. Qed.

Lemma hash_of_fips msg : (4 <= wbytes v)%nat -> Forall is_byte msg -> 8 * Z.of_nat (length msg) < 2 ^ 64 ->
  hash_of msg = fips v msg.
Proof.
  intros H4 Hb Hl. unfold hash_of, fips. rewrite padded_fips by done. set (bs := fips_padded v msg).
  assert (Hbs : Forall is_byte bs).
  { subst bs. unfold fips_padded. rewrite !list.Forall_app. split_and!; [done|by apply list.Forall_singleton|
      |apply digits256_bytes]. by apply list.Forall_replicate. }
  assert (Hlen : exists k, length bs = (k * block)%nat).
  { subst bs. unfold fips_padded. rewrite !length_app, length_replicate. unfold digits256. rewrite length_rev, length_split_le, imp_block.
    pose proof valid_bytes. pose proof (Z.div_mod (- (Z.of_nat (length msg) + 1 + Z.of_nat (2 * wbytes v))) (Z.of_nat (16 * wbytes v)) ltac:(lia)).
    pose proof (Z.mod_pos_bound (- (Z.of_nat (length msg) + 1 + Z.of_nat (2 * wbytes v))) (Z.of_nat (16 * wbytes v)) ltac:(lia)).
    set (q := _ / _) in *. exists (Z.to_nat (- q)). cbn [length]. nia. }
  destruct Hlen as [k Hk]. rewrite Hk at 1. rewrite Nat.div_mul by (pose proof block_pos; lia).
  rewrite Hk, <- imp_block, Nat.div_mul by (pose proof block_pos; lia).
  rewrite imp_output, imp_initial. destruct (fips_blocks_absorb k (H0 v) bs) as [-> _]; [done|done|apply valid_H0|].
  apply list_bind_ext; [|done]. intros x. apply be_bytes_digits.
Qed.
End equal.

(** ** The two hashes *)
Lemma check_words v (bs : list Z) : forallb (fun x => (0 <=? x) && (x <? 2 ^ w v)) bs = true -> Forall (word v) bs.
Proof. intros H. apply list.Forall_forall. intros x Hx%list_elem_of_In. apply forallb_forall with (x := x) in H; [unfold word; lia|done]. Qed.

Ltac valid_variant :=
  split; [done|cbn; lia|apply Nat.leb_le; by vm_compute
         |split; [apply check_words; by vm_compute|by vm_compute]
         |intros c; rewrite !elem_of_cons; intros [-> | [-> | [-> | [-> | H%elem_of_nil]]]]; [cbn; lia..|done]].

#[global] Instance v256_valid : Valid v256.
Proof. valid_variant. Qed.

#[global] Instance v512_valid : Valid v512.
Proof. valid_variant. Qed.

Definition hash (a : algorithm) : Hash := match a with SHA256 => sha256 | SHA512 => sha512 end.

#[global] Instance variant_valid a : Valid (variant_of a).
Proof. destruct a; apply _. Qed.

#[global] Instance hash_implements a : Implements (variant_of a) (hash a).
Proof. by destruct a. Qed.

(** C39. SHA-256 and SHA-512 fed with a message in any pieces return the hash that
    FIPS 180-3 defines for the message, with its rotations and with its constants from
    the roots of primes, whatever the context held before; the message is shorter than 2^64 bits, the limit of the length the code keeps. *)
Theorem sha2_hashes (a : algorithm) (s : ctx) (ps : list (list Z)) :
  length (buf s) = @block (hash a) -> Forall is_byte (concat ps) -> 8 * Z.of_nat (length (concat ps)) < 2 ^ 64 ->
  sum (H := hash a) (foldl (update (H := hash a)) (init (H := hash a) s) ps) = fips (standard a) (concat ps).
Proof.
  intros Hs Hb Hl. rewrite <- variant_standard, sum_ok by done. apply hash_of_fips; try done; [apply _..|]. destruct a; cbn; lia.
Qed.

Lemma sha2_hashes_witness :
  sha512_sum (foldl sha512_update (sha512_init {| len := 7; h := [1]; buf := replicate 128 9 |}) [[97]; []; [98; 99]]) = fips (standard SHA512) [97; 98; 99].
Proof.
  apply (sha2_hashes SHA512 {| len := 7; h := [1]; buf := replicate 128 9 |} [[97]; []; [98; 99]]); [done| |cbn; lia].
  repeat constructor; lia.
Defined.

(** The test vector of the standard for SHA-256. *)
Example sha256_abc :
  big_endian (sha256_sum (foldl sha256_update (sha256_init {| len := 0; h := []; buf := replicate 64 0 |}) [[97; 98]; [99]])) =
  0xba7816bf_8f01cfea_414140de_5dae2223_b00361a3_96177a9c_b410ff61_f20015ad.
Proof. by vm_compute. Qed.
