(* ===== verification/Md5.v ===== *)
(** * MD5 ([crypt/crypt_md5.c])

    The block function keeps four registers and updates one of them per step, in
    place; RFC 1321 is given here as 64 operations on registers that rotate. *)
From S2P Require Import Prelude Mem Digest Sha2.

Definition rol (n k : Z) : Z := Z.lor (u32 (Z.shiftl n k)) (Z.shiftr n (32 - k)).
Definition F (x y z : Z) : Z := Z.lxor z (Z.land x (Z.lxor y z)).
Definition G (x y z : Z) : Z := Z.lxor y (Z.land z (Z.lxor y x)).
Definition H (x y z : Z) : Z := Z.lxor (Z.lxor x y) z.
Definition I (x y z : Z) : Z := Z.lxor y (Z.lor x (u32 (Z.lnot z))).

(** [FF], [GG], [HH] and [II]: [a += F(b,c,d) + w + t; a = rol(a,s) + b] *)
Definition step (f : Z -> Z -> Z -> Z) (a b c d w s t : Z) : Z := u32 (rol (u32 (a + (f b c d + w + t))) s + b).

Definition tab : list Z := mbind (row 32 8) [
  0xd76aa478_e8c7b756_242070db_c1bdceee_f57c0faf_4787c62a_a8304613_fd469501;
  0x698098d8_8b44f7af_ffff5bb1_895cd7be_6b901122_fd987193_a679438e_49b40821;
  0xf61e2562_c040b340_265e5a51_e9b6c7aa_d62f105d_02441453_d8a1e681_e7d3fbc8;
  0x21e1cde6_c33707d6_f4d50d87_455a14ed_a9e3e905_fcefa3f8_676f02d9_8d2a4c8a;
  0xfffa3942_8771f681_6d9d6122_fde5380c_a4beea44_4bdecfa9_f6bb4b60_bebfbc70;
  0x289b7ec6_eaa127fa_d4ef3085_04881d05_d9d4d039_e6db99e5_1fa27cf8_c4ac5665;
  0xf4292244_432aff97_ab9423a7_fc93a039_655b59c3_8f0ccc92_ffeff47d_85845dd1;
  0x6fa87e4f_fe2ce6e0_a3014314_4e0811a1_f7537e82_bd3af235_2ad7d2bb_eb86d391].

Definition regs : Type := Z * Z * Z * Z.

(** The body of a [while] loop: four steps, with the word of each step at [k i]. *)
Definition quad (f : Z -> Z -> Z -> Z) (k : nat -> nat) (s : Z * Z * Z * Z) (W : list Z) (r : regs) (i : nat) : regs :=
  let '(a, b, c, d) := r in
  let '(s1, s2, s3, s4) := s in
  let a := step f a b c d (W !!! k i) s1 (tab !!! i) in
  let i := S i in
  let d := step f d a b c (W !!! k i) s2 (tab !!! i) in
  let i := S i in
  let c := step f c d a b (W !!! k i) s3 (tab !!! i) in
  let i := S i in
  let b := step f b c d a (W !!! k i) s4 (tab !!! i) in
  (a, b, c, d).

(** [p[0] | (uint32_t)p[1]<<8 | ...], from the byte at shift [k] *)
Fixpoint le_or (k : Z) (p : list Z) : Z :=
  match p with [] => 0 | b :: p => Z.lor (Z.shiftl b k) (le_or (k + 8) p) end.

Definition le_bytes (n : nat) (x : Z) : list Z := (fun j => u8 (Z.shiftr x (8 * j))) <$> seqZ 0 (Z.of_nat n).

Definition processblock (h buf : list Z) : list Z :=
  let W := (fun i => le_or 0 (take 4 (drop (4 * i) buf))) <$> seq 0 16 in
  let r := (h !!! 0%nat, h !!! 1%nat, h !!! 2%nat, h !!! 3%nat) in
  let r := foldl (quad F (fun i => i) (7, 12, 17, 22) W) r [0; 4; 8; 12]%nat in
  let r := foldl (quad G (fun i => (5 * i + 1) mod 16)%nat (5, 9, 14, 20) W) r [16; 20; 24; 28]%nat in
  let r := foldl (quad H (fun i => (3 * i + 5) mod 16)%nat (4, 11, 16, 23) W) r [32; 36; 40; 44]%nat in
  let '(a, b, c, d) := foldl (quad I (fun i => (7 * i) mod 16)%nat (6, 10, 15, 21) W) r [48; 52; 56; 60]%nat in
  (fun '(x, y) => u32 (x + y)) <$> zip h [a; b; c; d].

Lemma le_bytes_length n x : length (le_bytes n x) = n.
Proof. unfold le_bytes. rewrite length_fmap, length_seqZ. lia. Qed.

Definition md5 : Hash := {|
  block := 64; limit := 56; initial := row 32 4 0x67452301_efcdab89_98badcfe_10325476;
  Digest.processblock := processblock;
  length_field := le_bytes 8; output := fun h => h ≫= le_bytes 4;
  block_size := block64; length_field_size := le_bytes_length 8 |}.

Definition md5_pad := pad (H := md5).
Definition md5_init := init (H := md5).
Definition md5_update := update (H := md5).
Definition md5_sum := sum (H := md5).

(** ** RFC 1321 *)
Section rfc.
Definition rotate_left (n k : Z) : Z := n mod 2 ^ (32 - k) * 2 ^ k + n / 2 ^ (32 - k).

(** The function, the word and the rotation of operation [i]. *)
Definition aux (i : nat) (x y z : Z) : Z :=
  if (i <? 16)%nat then Z.lor (Z.land x y) (Z.land (Z.lnot x) z)
  else if (i <? 32)%nat then Z.lor (Z.land x z) (Z.land y (Z.lnot z))
  else if (i <? 48)%nat then Z.lxor (Z.lxor x y) z
  else Z.lxor y (Z.lor x (2 ^ 32 - 1 - z)).
Definition word_index (i : nat) : nat :=
  (if i <? 16 then i else if i <? 32 then (1 + 5 * (i - 16)) mod 16
   else if i <? 48 then (5 + 3 * (i - 32)) mod 16 else (7 * (i - 48)) mod 16)%nat.
Definition shift (i : nat) : Z :=
  [7; 12; 17; 22; 5; 9; 14; 20; 4; 11; 16; 23; 6; 10; 15; 21] !!! (4 * (i / 16) + i mod 4)%nat.

Definition operation (X : list Z) (r : regs) (i : nat) : regs :=
  let '(a, b, c, d) := r in
  (d, (b + rotate_left ((a + aux i b c d + X !!! word_index i + tab !!! i) mod 2 ^ 32) (shift i)) mod 2 ^ 32, b, c).

Definition rfc_block (h bs : list Z) : list Z :=
  let X := (fun i => le (take 4 (drop (4 * i) bs))) <$> seq 0 16 in
  let '(a, b, c, d) := foldl (operation X) (h !!! 0%nat, h !!! 1%nat, h !!! 2%nat, h !!! 3%nat) (seq 0 64) in
  (fun '(x, y) => (x + y) mod 2 ^ 32) <$> zip h [a; b; c; d].

Fixpoint rfc_blocks (n : nat) (h bs : list Z) : list Z :=
  match n with O => h | S n => rfc_blocks n (rfc_block h (take 64 bs)) (drop 64 bs) end.

(** A 1 bit, zeros to 448 modulo 512 bits, and the length in bits, low byte first. *)
Definition rfc_padded (msg : list Z) : list Z :=
  let l := 8 * Z.of_nat (length msg) in
  msg ++ [128] ++ replicate (Z.to_nat ((448 - (l + 8)) mod 512 / 8)) 0 ++ split_le 8 (l mod 2 ^ 64).

Definition rfc1321 (msg : list Z) : list Z :=
  let bs := rfc_padded msg in
  rfc_blocks (length bs / 64) [0x67452301; 0xefcdab89; 0x98badcfe; 0x10325476] bs ≫= split_le 4.
End rfc.

(** ** The code computes it *)
Definition word32 (x : Z) : Prop := 0 <= x < 2 ^ 32.

Lemma rol_rotl n k : word32 n -> 0 < k < 32 -> rol n k = rotate_left n k.
Proof.
  intros Hn Hk. unfold rol, rotate_left, wrap, word32 in *. rewrite Z.shiftl_mul_pow2, Z.shiftr_div_pow2 by lia.
  assert (E : 2 ^ 32 = 2 ^ (32 - k) * 2 ^ k) by (rewrite <- Z.pow_add_r by lia; f_equal; lia).
  assert (Hd : 0 <= n / 2 ^ (32 - k) < 2 ^ k).
  { split; [apply Z.div_pos; lia|]. apply Z.div_lt_upper_bound; [lia|]. rewrite <- E. lia. }
  rewrite E, Z.mul_mod_distr_r by lia. rewrite Z.lor_comm, (Z.mul_comm (n mod _)), lor_disjoint_add by lia. lia.
Qed.

#[local] Ltac bits x y z :=
  apply Z.bits_inj'; intros n Hn;
  rewrite ?Z.lor_spec, ?Z.lxor_spec, ?Z.land_spec, ?Z.lnot_spec, ?Z.lor_spec, ?Z.lxor_spec by lia;
  by destruct (Z.testbit x n), (Z.testbit y n), (Z.testbit z n).

Lemma F_rfc x y z : F x y z = Z.lor (Z.land x y) (Z.land (Z.lnot x) z).
Proof. unfold F. bits x y z. Qed.

Lemma G_rfc x y z : G x y z = Z.lor (Z.land x z) (Z.land y (Z.lnot z)).
Proof. unfold G. bits x y z. Qed.

Lemma I_rfc x y z : word32 z -> I x y z = Z.lxor y (Z.lor x (2 ^ 32 - 1 - z)).
Proof.
  intros Hz. unfold I. do 2 f_equal. unfold wrap, word32, Z.lnot, Z.pred in *.
  rewrite <- (Z_mod_plus_full _ 1), Z.mod_small by lia. lia.
Qed.

Definition words4 (r : regs) : Prop := let '(a, b, c, d) := r in word32 a /\ word32 b /\ word32 c /\ word32 d.

Lemma word32_wrap x : word32 (u32 x).
Proof. by apply wrap_range. Qed.

(** One assignment of the code is one operation of the RFC. *)
Lemma step_operation f X i a b c d k s :
  f b c d = aux i b c d -> k = word_index i -> s = shift i -> 0 < s < 32 ->
  (d, step f a b c d (X !!! k) s (tab !!! i), b, c) = operation X (a, b, c, d) i.
Proof.
  intros Hf -> -> Hs. unfold operation, step. rewrite Hf, rol_rotl by (apply word32_wrap || done).
  unfold wrap. do 3 f_equal. rewrite Z.add_comm. do 4 f_equal. lia.
Qed.

Lemma step_word f a b c d w s t : word32 (step f a b c d w s t).
Proof. apply word32_wrap. Qed.

#[local] Ltac side := first [done | match goal with H : forall _, _ |- _ => apply H; first [done | lia | apply step_word] end].

(** The four steps of a turn, with the operands in the places they have in it. *)
Lemma quad_operations f k s X r i :
  (forall j x y z, (i <= j < i + 4)%nat -> word32 z -> f x y z = aux j x y z) ->
  (forall j, (i <= j < i + 4)%nat -> k j = word_index j) ->
  s = (shift i, shift (S i), shift (S (S i)), shift (S (S (S i)))) ->
  (forall j, (i <= j < i + 4)%nat -> 0 < shift j < 32) -> words4 r ->
  quad f k s X r i = foldl (operation X) r (seq i 4) /\ words4 (quad f k s X r i).
Proof.
  intros Hf Hk -> Hs Hr. destruct r as [[[a b] c] d]. destruct Hr as (Ha & Hb & Hc & Hd).
  unfold quad. cbn [seq foldl].
  rewrite <- (step_operation f X i a b c d (k i) (shift i)) by side.
  set (a' := step _ a b c d _ _ _).
  rewrite <- (step_operation f X (S i) d a' b c (k (S i)) (shift (S i))) by side.
  set (d' := step _ d a' b c _ _ _).
  rewrite <- (step_operation f X (S (S i)) c d' a' b (k (S (S i))) (shift (S (S i)))) by side.
  set (c' := step _ c d' a' b _ _ _).
  rewrite <- (step_operation f X (S (S (S i))) b c' d' a' (k (S (S (S i)))) (shift (S (S (S i))))) by side.
  split; [done|]. repeat split; apply step_word.
Qed.

(** A loop of the code is sixteen operations. *)
Lemma round_operations f k s X lo r :
  (forall j x y z, (lo <= j < lo + 16)%nat -> word32 z -> f x y z = aux j x y z) ->
  (forall j, (lo <= j < lo + 16)%nat -> k j = word_index j) ->
  (forall j, (lo <= j < lo + 16)%nat -> 0 < shift j < 32) ->
  (forall q, (q < 4)%nat -> s = (shift (lo + 4 * q), shift (S (lo + 4 * q)), shift (S (S (lo + 4 * q))), shift (S (S (S (lo + 4 * q)))))) ->
  words4 r ->
  foldl (quad f k s X) r [lo; lo + 4; lo + 8; lo + 12]%nat = foldl (operation X) r (seq lo 16) /\
  words4 (foldl (operation X) r (seq lo 16)).
Proof.
  intros Hf Hk Hsh Hs Hr.
  assert (Hq : forall q r, (q < 4)%nat -> words4 r ->
    quad f k s X r (lo + 4 * q) = foldl (operation X) r (seq (lo + 4 * q) 4) /\ words4 (foldl (operation X) r (seq (lo + 4 * q) 4))).
  { intros q r' Hlt Hr'. destruct (quad_operations f k s X r' (lo + 4 * q)) as [<- ?]; try done.
    - intros j x y z ?. apply Hf. lia.
    - intros j ?. apply Hk. lia.
    - by apply Hs.
    - intros j ?. apply Hsh. lia. }
  assert (E : seq lo 16 = seq (lo + 4 * 0) 4 ++ seq (lo + 4 * 1) 4 ++ seq (lo + 4 * 2) 4 ++ seq (lo + 4 * 3) 4).
  { cbn [seq app]. repeat f_equal; lia. }
  rewrite E, !foldl_app. cbn [foldl].
  replace lo with (lo + 4 * 0)%nat at 1 by lia. replace (lo + 4)%nat with (lo + 4 * 1)%nat at 1 by lia.
  replace (lo + 8)%nat with (lo + 4 * 2)%nat by lia. replace (lo + 12)%nat with (lo + 4 * 3)%nat by lia.
  destruct (Hq 0%nat r) as [-> H0]; [lia|done|]. destruct (Hq 1%nat _ ltac:(lia) H0) as [-> H1].
  destruct (Hq 2%nat _ ltac:(lia) H1) as [-> H2]. by destruct (Hq 3%nat _ ltac:(lia) H2) as [-> H3].
Qed.

Lemma check_range (P : nat -> bool) lo n : forallb P (seq lo n) = true -> forall j, (lo <= j < lo + n)%nat -> P j = true.
Proof. intros H j Hj. rewrite forallb_forall in H. apply H. apply in_seq. lia. Qed.

Lemma shift_range lo j : (lo <= 48)%nat -> (lo <= j < lo + 16)%nat -> 0 < shift j < 32.
Proof.
  intros Hlo Hj. assert (E : ((0 <? shift j) && (shift j <? 32)) = true); [|lia].
  apply (check_range (fun j => (0 <? shift j) && (shift j <? 32)) 0 64); [done|lia].
Qed.

Lemma le_or_le k p : 0 <= k -> Forall is_byte p -> le_or k p = 2 ^ k * le p.
Proof.
  intros Hk Hp. revert k Hk. induction Hp as [|b p Hb Hp IH]; intros k Hk; [change (le []) with 0; cbn; lia|].
  cbn [le_or]. change (le (b :: p)) with (b + 256 * le p). rewrite IH, Z.shiftl_mul_pow2 by lia.
  assert (E : 2 ^ (k + 8) = 2 ^ k * 256) by (rewrite Z.pow_add_r by lia; done).
  unfold is_byte in Hb. rewrite lor_disjoint_add; [rewrite E; lia|lia|]. rewrite E. nia.
Qed.

Lemma le_bytes_split n x : le_bytes n x = split_le n x.
Proof.
  revert x. induction n as [|n IH]; intros x; [done|]. unfold le_bytes in *. rewrite Nat2Z.inj_succ, seqZ_cons by lia.
  cbn [fmap list_fmap split_le]. rewrite Z.mul_0_r, Z.shiftr_0_r, <- IH, Z.pred_succ. f_equal.
  apply list_eq. intros i. rewrite !list_lookup_fmap. destruct (decide (Z.of_nat i < Z.of_nat n)).
  - rewrite !lookup_seqZ_lt by lia. simpl. do 2 f_equal. rewrite !Z.shiftr_div_pow2 by lia.
    change 256 with (2 ^ 8). rewrite Z.div_div, <- Z.pow_add_r by lia. do 2 f_equal. lia.
  - by rewrite !lookup_seqZ_ge by lia.
Qed.

(** The words and the rotations of a loop are those of its operations. *)
Definition loop_table (k : nat -> nat) (s : Z * Z * Z * Z) (lo : nat) : bool :=
  forallb (fun j => (k j =? word_index j)%nat) (seq lo 16) &&
  forallb (fun q => bool_decide (s = (shift (lo + 4 * q), shift (S (lo + 4 * q)), shift (S (S (lo + 4 * q))),
                                      shift (S (S (S (lo + 4 * q))))))) (seq 0 4).

Lemma loop_operations f k s lo X r : (lo <= 48)%nat ->
  (forall j x y z, (lo <= j < lo + 16)%nat -> word32 z -> f x y z = aux j x y z) -> loop_table k s lo = true -> words4 r ->
  foldl (quad f k s X) r [lo; lo + 4; lo + 8; lo + 12]%nat = foldl (operation X) r (seq lo 16) /\
  words4 (foldl (operation X) r (seq lo 16)).
Proof.
  intros Hlo Hf [Hk Hs]%andb_true_iff Hr. apply round_operations; [done| | | |done].
  - intros j Hj. apply Nat.eqb_eq. exact (check_range _ lo 16 Hk j Hj).
  - intros j. by apply shift_range.
  - intros q Hq. eapply bool_decide_eq_true. exact (check_range _ 0 4 Hs q ltac:(lia)).
Qed.

#[local] Ltac aux_case L :=
  intros j x y z Hj Hz; unfold aux; destruct (Nat.ltb_spec j 16), (Nat.ltb_spec j 32), (Nat.ltb_spec j 48); try lia; by apply L.

Lemma F_aux j x y z : (0 <= j < 0 + 16)%nat -> word32 z -> F x y z = aux j x y z.
Proof. revert j x y z. aux_case F_rfc. Qed.

Lemma G_aux j x y z : (16 <= j < 16 + 16)%nat -> word32 z -> G x y z = aux j x y z.
Proof. revert j x y z. aux_case G_rfc. Qed.

Lemma H_aux j x y z : (32 <= j < 32 + 16)%nat -> word32 z -> H x y z = aux j x y z.
Proof. revert j x y z. aux_case (@eq_refl Z). Qed.

Lemma I_aux j x y z : (48 <= j < 48 + 16)%nat -> word32 z -> I x y z = aux j x y z.
Proof. revert j x y z. aux_case I_rfc. Qed.

Lemma processblock_rfc h bs : Forall word32 h -> Forall is_byte bs ->
  processblock h bs = rfc_block h bs /\ Forall word32 (processblock h bs).
Proof.
  intros Hh Hb. unfold processblock, rfc_block.
  rewrite (list_fmap_ext _ (fun i => le (take 4 (drop (4 * i) bs))) (seq 0 16)).
  2:{ intros i x _. rewrite le_or_le; [lia|done|by apply list.Forall_take, list.Forall_drop]. }
  set (X := _ <$> seq 0 16). set (r := (h !!! 0%nat, _, _, _)).
  assert (Hr : words4 r) by (subst r; split_and!; by apply (lookup_word v256)).
  change (seq 0 64) with (seq 0 16 ++ seq 16 16 ++ seq 32 16 ++ seq 48 16). rewrite !foldl_app.
  destruct (loop_operations F (fun i => i) (7, 12, 17, 22) 0%nat X r) as [E0 H0]; [lia|apply F_aux|by vm_compute|done|].
  destruct (loop_operations G (fun i => (5 * i + 1) mod 16)%nat (5, 9, 14, 20) 16%nat X _ ltac:(lia) G_aux ltac:(by vm_compute) H0) as [E1 H1].
  destruct (loop_operations H (fun i => (3 * i + 5) mod 16)%nat (4, 11, 16, 23) 32%nat X _ ltac:(lia) H_aux ltac:(by vm_compute) H1) as [E2 H2].
  destruct (loop_operations I (fun i => (7 * i) mod 16)%nat (6, 10, 15, 21) 48%nat X _ ltac:(lia) I_aux ltac:(by vm_compute) H2) as [E3 H3].
  cbn [Nat.add] in E0, E1, E2, E3. rewrite E0, E1, E2, E3. split; [done|].
  destruct (foldl _ _ (seq 48 16)) as [[[a b] c] d]. apply list.Forall_fmap, list.Forall_true. intros []. apply word32_wrap.
Qed.

(** *** Padding and the whole message *)
Lemma padded_rfc msg : padded (H := md5) msg = rfc_padded msg.
Proof.
  unfold padded, rfc_padded. cbn [limit block md5 length_field]. change (64 - 8 - 56)%nat with 0%nat. cbn [replicate app].
  rewrite le_bytes_split. do 3 f_equal. do 2 f_equal.
  replace (448 - (8 * Z.of_nat (length msg) + 8)) with (8 * (Z.of_nat 56 - Z.of_nat (length msg) - 1)) by lia.
  change 512 with (8 * 64). rewrite Z.mul_mod_distr_l, (Z.mul_comm 8), Z.div_mul by lia. done.
Qed.

Lemma rfc_blocks_absorb n h bs : length bs = (n * 64)%nat -> Forall is_byte bs -> Forall word32 h ->
  absorb (H := md5) n h bs = rfc_blocks n h bs.
Proof.
  revert h bs. induction n as [|n IH]; intros h bs Hl Hb Hh; [done|]. cbn [absorb rfc_blocks].
  change (@Digest.processblock md5) with processblock. change (@block md5) with 64%nat.
  destruct (processblock_rfc h (take 64 bs)) as [E Hw]; [done|by apply list.Forall_take|].
  rewrite <- E. apply IH; [rewrite length_drop; lia|by apply list.Forall_drop|done].
Qed.

Lemma rfc_padded_length msg : exists k, length (rfc_padded msg) = (k * 64)%nat.
Proof.
  unfold rfc_padded. rewrite !length_app, length_replicate, length_split_le. cbn [length].
  set (l := Z.of_nat (length msg)). set (q := (448 - (8 * l + 8)) / 512).
  pose proof (Z.div_mod (448 - (8 * l + 8)) 512 ltac:(lia)). pose proof (Z.mod_pos_bound (448 - (8 * l + 8)) 512 ltac:(lia)).
  exists (Z.to_nat (1 - q)). replace ((448 - (8 * l + 8)) mod 512) with ((55 - l - 64 * q) * 8) by lia.
  rewrite Z.div_mul by lia. lia.
Qed.

Lemma hash_of_rfc msg : Forall is_byte msg -> hash_of (H := md5) msg = rfc1321 msg.
Proof.
  intros Hb. unfold hash_of, rfc1321. rewrite padded_rfc. set (bs := rfc_padded msg).
  assert (Hbs : Forall is_byte bs).
  { subst bs. unfold rfc_padded. rewrite !list.Forall_app. split_and!; [done|by apply list.Forall_singleton| |apply split_le_bytes].
    by apply list.Forall_replicate. }
  destruct (rfc_padded_length msg) as [k Hk]. fold bs in Hk. change (@block md5) with 64%nat.
  rewrite Hk, Nat.div_mul by lia.
  change (@initial md5) with [0x67452301; 0xefcdab89; 0x98badcfe; 0x10325476].
  rewrite rfc_blocks_absorb; [|done|done|by apply (check_words v256)].
  apply list_bind_ext; [|done]. intros x. apply le_bytes_split.
Qed.

(** MD5 fed with a message in any pieces returns the digest RFC 1321 defines for
    the message, whatever its length and whatever the context held before. *)
Theorem md5_hashes (s : ctx) (ps : list (list Z)) :
  length (buf s) = 64%nat -> Forall is_byte (concat ps) ->
  md5_sum (foldl md5_update (md5_init s) ps) = rfc1321 (concat ps).
Proof. intros Hs Hb. unfold md5_sum, md5_update, md5_init. rewrite sum_ok by done. by apply hash_of_rfc. Qed.

Lemma md5_hashes_witness :
  md5_sum (foldl md5_update (md5_init {| len := 3; h := []; buf := replicate 64 1 |}) [replicate 60 7; [1; 2; 3; 4; 5]]) =
  rfc1321 (replicate 60 7 ++ [1; 2; 3; 4; 5]).
Proof.
  apply (md5_hashes {| len := 3; h := []; buf := replicate 64 1 |} [replicate 60 7; [1; 2; 3; 4; 5]]); [done|].
  repeat constructor; lia.
Defined.

Example md5_abc :
  big_endian (md5_sum (foldl md5_update (md5_init {| len := 0; h := []; buf := replicate 64 0 |}) [[97; 98]; [99]])) =
  0x90015098_3cd24fb0_d6963f7d_28e17f72.
Proof. by vm_compute. Qed.
