(* ===== verification/Crypt.v ===== *)
(** * Password hashes ([crypt/crypt_sha256.c], [crypt/crypt_sha512.c], [crypt/crypt_md5.c])

    A key and a setting are the bytes of their C strings; the digests are those of
    [Sha2] and [Md5], fed through their contexts as the code feeds them.  The result
    is the string left in the output buffer, or [None] for a null pointer.  The local
    [struct sha256 ctx] is not initialised by the code: it is an argument here.
    [sha_crypt_spec] says what is computed, with the hash of whole messages. *)
From Stdlib Require Import String.
From S2P Require Import Prelude Mem Digest Sha2 Md5 Intscan Numerals.

Definition str (s : String.string) : list Z := (fun c => Z.of_N (Ascii.N_of_ascii c)) <$> String.list_ascii_of_string s.
#[local] Arguments str s%_string_scope.
Definition ch (s : list Z) (i : nat) : Z := default 0 (s !! i).

Definition b64 : list Z := str "./0123456789ABCDEFGHIJKLMNOPQRSTUVWXYZabcdefghijklmnopqrstuvwxyz".

Fixpoint to64 (u : Z) (n : nat) : list Z :=
  match n with O => [] | S n => b64 !!! Z.to_nat (u mod 64) :: to64 (u / 64) n end.

(** [sha256_sum], leaving the context. *)
Definition finish `{Hash} (s : ctx) : ctx * list Z := let s := pad s in (s, output (h s)).

(** [(md[p[0]]<<16)|(md[p[1]]<<8)|md[p[2]]] *)
Definition three (md : list Z) (p : nat * nat * nat) : Z :=
  let '(i, j, k) := p in Z.lor (Z.lor (Z.shiftl (md !!! i) 16) (Z.shiftl (md !!! j) 8)) (md !!! k).

(** ** SHA-crypt *)
Section sha_crypt.
Context (a : algorithm).
#[local] Instance hash_a : Hash := hash a.

Definition KEY_MAX : Z := 256.
Definition SALT_MAX : nat := 16.
Definition ROUNDS_DEFAULT : Z := 5000.
Definition ROUNDS_MIN : Z := 1000.
Definition ROUNDS_MAX : Z := 9999999.

Definition prefix : list Z := match a with SHA256 => str "$5$" | SHA512 => str "$6$" end.
(** [sizeof md] *)
Definition mdlen : nat := match a with SHA256 => 32 | SHA512 => 64 end.

(** [for (i = n; i > 32; i -= 32) update(s, md, 32); update(s, md, i);] *)
Fixpoint hashmd_loop (fuel : nat) (s : ctx) (i : nat) (md : list Z) : ctx :=
  match fuel with
  | O => s
  | S fuel =>
      if (mdlen <? i)%nat then hashmd_loop fuel (update s (take mdlen md)) (i - mdlen) md
      else update s (take i md)
  end.
Definition hashmd (s : ctx) (n : nat) (md : list Z) : ctx := hashmd_loop (S n) s n md.

(** [for (i = klen; i > 0; i >>= 1) if (i & 1) update md; else update key;] *)
Fixpoint key_bits (fuel : nat) (s : ctx) (i : Z) (md key : list Z) : ctx :=
  match fuel with
  | O => s
  | S fuel =>
      if 0 <? i then key_bits fuel (if nz (Z.land i 1) then update s md else update s key) (Z.shiftr i 1) md key
      else s
  end.

(** The salt up to [SALT_MAX] bytes, the end or ['$']: its length; [None] for a
    character that may not occur. *)
Fixpoint salt_len (n : nat) (salt : list Z) : option nat :=
  match n, salt with
  | S n, c :: salt =>
      if c =? 36 then Some O
      else if (c =? 10) || (c =? 58) then None
      else S <$> salt_len n salt
  | _, _ => Some O
  end.

(** The part [rounds=n$]: its canonical form, the number and the salt after it. *)
Definition rounds_of (salt : list Z) : option (list Z * Z * list Z) :=
  if bool_decide (take 7 salt = str "rounds=") then
    let salt := drop 7 salt in
    if negb (isdigit (ch salt 0)) then None
    else
      '(u, e, _) ← strtoul (text 1 salt) 1 10;
      let e := drop (Z.to_nat (e - 1)) salt in
      if negb (ch e 0 =? 36) then None
      else
        let salt := drop 1 e in
        r ← (if u <? ROUNDS_MIN then Some ROUNDS_MIN else if ROUNDS_MAX <? u then None else Some u);
        Some (str "rounds=" ++ fmt_u r [] ++ str "$", r, salt)
  else Some ([], ROUNDS_DEFAULT, salt).

Definition iteration (klen slen : nat) (kmd smd : list Z) (s : ctx * list Z) (i : Z) : ctx * list Z :=
  let '(s, md) := s in
  let s := init s in
  let s := if nz (i mod 2) then hashmd s klen kmd else update s md in
  let s := if nz (i mod 3) then update s (take slen smd) else s in
  let s := if nz (i mod 7) then hashmd s klen kmd else s in
  let s := if nz (i mod 2) then update s md else hashmd s klen kmd in
  finish s.

Definition perm : list (nat * nat * nat) := match a with
  | SHA256 =>
  [(0, 10, 20); (21, 1, 11); (12, 22, 2); (3, 13, 23); (24, 4, 14);
   (15, 25, 5); (6, 16, 26); (27, 7, 17); (18, 28, 8); (9, 19, 29)]%nat
  | SHA512 =>
  [(0, 21, 42); (22, 43, 1); (44, 2, 23); (3, 24, 45); (25, 46, 4);
   (47, 5, 26); (6, 27, 48); (28, 49, 7); (50, 8, 29); (9, 30, 51);
   (31, 52, 10); (53, 11, 32); (12, 33, 54); (34, 55, 13); (56, 14, 35);
   (15, 36, 57); (37, 58, 16); (59, 17, 38); (18, 39, 60); (40, 61, 19);
   (62, 20, 41)]%nat
  end.

Definition encode (md : list Z) : list Z :=
  (perm ≫= fun p => to64 (three md p) 4) ++
  match a with SHA256 => to64 (Z.lor (Z.shiftl (md !!! 31%nat) 8) (md !!! 30%nat)) 3 | SHA512 => to64 (md !!! 63%nat) 2 end.

Definition sha_crypt (s : ctx) (key setting : list Z) : option (list Z) :=
  let klen := length key in
  if KEY_MAX <? Z.of_nat klen then None
  else if negb (bool_decide (take 3 setting = prefix)) then None
  else
    '(rounds, r, salt) ← rounds_of (drop 3 setting);
    slen ← salt_len SALT_MAX salt;
    let salt := take slen salt in
    (* B = sha(key salt key) *)
    let '(s, md) := finish (update (update (update (init s) key) salt) key) in
    (* A = sha(key salt repeat-B alternate-B-key) *)
    let s := hashmd (update (update (init s) key) salt) klen md in
    let '(s, md) := finish (key_bits (S klen) s (Z.of_nat klen) md key) in
    (* DP = sha(repeat-key) *)
    let '(s, kmd) := finish (Nat.iter klen (fun s => update s key) (init s)) in
    (* DS = sha(repeat-salt) *)
    let '(s, smd) := finish (Nat.iter (16 + Z.to_nat (md !!! 0%nat)) (fun s => update s salt) (init s)) in
    let '(_, md) := foldl (iteration klen slen kmd smd) (s, md) (seqZ 0 r) in
    Some (prefix ++ rounds ++ salt ++ str "$" ++ encode md).
End sha_crypt.

Definition sha256crypt := sha_crypt SHA256.
Definition sha512crypt := sha_crypt SHA512.
Definition sha512_hashmd := hashmd SHA512.

(** ** The self test *)
Definition testkey : list Z :=
  str "Xy01@#" ++ [1; 2; 128; 127; 255; 13; 10; 129; 9] ++ str " !".

Definition sha_testsetting (a : algorithm) : list Z := prefix a ++ str "rounds=1234$abc0123456789$".
Definition sha_testhash (a : algorithm) : list Z :=
  sha_testsetting a ++ match a with
  | SHA256 => str "3VfDjPt05VHFn47C/ojFZ6KRPYrOjj1lLbH.dkF3bZ6"
  | SHA512 => str "BCpt8zLrc/RcyuXmCDOE1ALqMXB2MH6n1g891HhFj8.w7LxGv.FTkqq6Vxc/km3Y0jE0j24jY5PIv/oOu6reg1"
  end.

(** [__crypt_sha256] and [__crypt_sha512]; the contexts of the two calls are [s] and [s']. *)
Definition crypt_sha (a : algorithm) (s s' : ctx) (key setting : list Z) : list Z :=
  match sha_crypt a s key setting with
  | Some p => if bool_decide (sha_crypt a s' testkey (sha_testsetting a) = Some (sha_testhash a)) then p else str "*"
  | None => str "*"
  end.

Definition crypt_sha256 := crypt_sha SHA256.
Definition crypt_sha512 := crypt_sha SHA512.

(** ** MD5-crypt *)
Section md5_crypt.
#[local] Instance hash_md5 : Hash := md5.

Definition MD5_KEY_MAX : Z := 30000.
Definition MD5_SALT_MAX : nat := 8.

(** [for (i = klen; i > sizeof md; i -= sizeof md) update md; update(md, i);] *)
Fixpoint md5_repeat (fuel : nat) (s : ctx) (i : nat) (md : list Z) : ctx :=
  match fuel with
  | O => s
  | S fuel => if (16 <? i)%nat then md5_repeat fuel (update s md) (i - 16) md else update s (take i md)
  end.

(** [for (i = klen; i; i >>= 1) if (i & 1) update(md, 1) else update(key, 1)] *)
Fixpoint md5_bits (fuel : nat) (s : ctx) (i : Z) (md key : list Z) : ctx :=
  match fuel with
  | O => s
  | S fuel =>
      if nz i then md5_bits fuel (if nz (Z.land i 1) then update s (take 1 md) else update s (take 1 key)) (Z.shiftr i 1) md key
      else s
  end.

Fixpoint md5_salt_len (n : nat) (salt : list Z) : nat :=
  match n, salt with
  | S n, c :: salt => if c =? 36 then O else S (md5_salt_len n salt)
  | _, _ => O
  end.

Definition md5_iteration (key salt : list Z) (s : ctx * list Z) (i : Z) : ctx * list Z :=
  let '(s, md) := s in
  let s := init s in
  let s := if nz (i mod 2) then update s key else update s md in
  let s := if nz (i mod 3) then update s salt else s in
  let s := if nz (i mod 7) then update s key else s in
  let s := if nz (i mod 2) then update s md else update s key in
  finish s.

Definition md5_perm : list (nat * nat * nat) := [(0, 6, 12); (1, 7, 13); (2, 8, 14); (3, 9, 15); (4, 10, 5)]%nat.
Definition md5_encode (md : list Z) : list Z := (md5_perm ≫= fun p => to64 (three md p) 4) ++ to64 (md !!! 11%nat) 2.

Definition md5crypt (s : ctx) (key setting : list Z) : option (list Z) :=
  let klen := length key in
  if MD5_KEY_MAX <? Z.of_nat klen then None
  else if negb (bool_decide (take 3 setting = str "$1$")) then None
  else
    let slen := md5_salt_len MD5_SALT_MAX (drop 3 setting) in
    let salt := take slen (drop 3 setting) in
    (* md5(key salt key) *)
    let '(s, md) := finish (update (update (update (init s) key) salt) key) in
    (* md5(key $1$ salt repeated-md weird-key[0]-0) *)
    let s := update (update (init s) key) (take (3 + slen) setting) in
    let s := md5_repeat (S klen) s klen md in
    let md := <[0%nat := 0]> md in
    let '(s, md) := finish (md5_bits (S klen) s (Z.of_nat klen) md key) in
    let '(_, md) := foldl (md5_iteration key salt) (s, md) (seqZ 0 1000) in
    Some (take (3 + slen) setting ++ str "$" ++ md5_encode md).
End md5_crypt.

Definition md5_testsetting : list Z := str "$1$abcd0123$".
Definition md5_testhash : list Z := md5_testsetting ++ str "9Qcg8DyviekV3tDGMZynJ1".

(** [__crypt_md5] *)
Definition crypt_md5 (s s' : ctx) (key setting : list Z) : list Z :=
  match md5crypt s key setting with
  | Some p => if bool_decide (md5crypt s' testkey md5_testsetting = Some md5_testhash) then p else str "*"
  | None => str "*"
  end.

(** ** What is computed *)

(** The first [n] bytes of [md] repeated for ever. *)
Definition cyc (n : nat) (md : list Z) : list Z := (fun i => md !!! (i mod length md)%nat) <$> seq 0 n.

(** For each binary digit of [n], the lowest first: [one] or [zero]. *)
Definition by_bits (n : Z) (one zero : list Z) : list (list Z) :=
  (fun j => if Z.testbit n j then one else zero) <$> seqZ 0 (if 0 <? n then Z.log2 n + 1 else 0).

Section spec.
Context (a : algorithm).
#[local] Abbreviation H := (hash_of (H := hash a)).

Definition next_digest (P S A : list Z) (i : Z) : list Z :=
  H ((if Z.odd i then P else A) ++ (if i mod 3 =? 0 then [] else S) ++ (if i mod 7 =? 0 then [] else P) ++
     (if Z.odd i then A else P)).

Definition sha_digest (key salt : list Z) (rounds : Z) : list Z :=
  let B := H (key ++ salt ++ key) in
  let A := H (key ++ salt ++ cyc (length key) B ++ concat (by_bits (Z.of_nat (length key)) B key)) in
  let P := cyc (length key) (H (concat (replicate (length key) key))) in
  let S := take (length salt) (H (concat (replicate (16 + Z.to_nat (A !!! 0%nat)) salt))) in
  foldl (next_digest P S) A (seqZ 0 rounds).

(** The number of rounds a setting names, if it names one, and its salt. *)
Definition read_salt (rest : list Z) : option (list Z) :=
  let salt := take 16 (prefix_of (fun c => negb (c =? 36)) rest) in
  if forallb (fun c => negb (c =? 10) && negb (c =? 58)) salt then Some salt else None.

Definition read_setting (setting : list Z) : option (option Z * list Z) :=
  if bool_decide (take 3 setting = prefix a) then
    let rest := drop 3 setting in
    if bool_decide (take 7 rest = str "rounds=") then
      let ds := prefix_of isdigit (drop 7 rest) in
      let n := value 10 ds in
      let rest := drop (length ds) (drop 7 rest) in
      if bool_decide (ds <> []) && (ch rest 0 =? 36) && (n <=? 9999999) then
        salt ← read_salt (drop 1 rest); Some (Some (Z.max 1000 n), salt)
      else None
    else salt ← read_salt rest; Some (None, salt)
  else None.

Fixpoint digits10 (n : nat) (z : Z) : list Z := match n with O => [] | S n => digits10 n (z / 10) ++ [48 + z mod 10] end.
Definition decimal_of (z : Z) : list Z := digits10 (Z.to_nat (if z <? 10000 then 4 else if z <? 100000 then 5 else if z <? 1000000 then 6 else 7)) z.

Definition sha_crypt_spec (key setting : list Z) : option (list Z) :=
  if (length key <=? 256)%nat then
    '(rounds, salt) ← read_setting setting;
    Some (prefix a ++ match rounds with Some n => str "rounds=" ++ decimal_of n ++ str "$" | None => [] end ++
          salt ++ str "$" ++ encode a (sha_digest key salt (default 5000 rounds)))
  else None.
End spec.

(** ** Contexts and messages *)
Section contexts.
Context `{X : Hash}.

Lemma finish_hash s msg : holds s msg -> (finish s).2 = hash_of msg /\ length (buf (finish s).1) = block.
Proof. intros Hs. unfold finish, hash_of. cbn [fst snd]. by destruct (pad_ok _ _ Hs) as [-> ->]. Qed.

Lemma iter_update_ok n s msg p : holds s msg -> holds (Nat.iter n (fun s => update s p) s) (msg ++ concat (replicate n p)).
Proof.
  intros Hs. induction n as [|n IH]; [by rewrite app_nil_r|].
  assert (E : concat (replicate (S n) p) = concat (replicate n p) ++ p).
  { rewrite <- Nat.add_1_r, replicate_add, concat_app. simpl. by rewrite app_nil_r. }
  rewrite E, app_assoc. cbn [Nat.iter nat_rect]. by apply update_ok.
Qed.

Lemma cyc_small n md : (n <= length md)%nat -> cyc n md = take n md.
Proof.
  intros Hn. apply list_eq. intros i. unfold cyc. rewrite list_lookup_fmap. destruct (decide (i < n)%nat).
  - rewrite lookup_seq_lt, lookup_take_lt by done. simpl. rewrite Nat.mod_small by lia.
    symmetry. apply list_lookup_lookup_total_lt. lia.
  - rewrite lookup_seq_ge, lookup_take_ge by lia. done.
Qed.

Lemma cyc_large n md : (0 < length md <= n)%nat -> cyc n md = md ++ cyc (n - length md) md.
Proof.
  intros Hn. unfold cyc. replace n with (length md + (n - length md))%nat at 1 by lia. rewrite seq_app, fmap_app. f_equal.
  - change (cyc (length md) md = md). rewrite cyc_small by done. by apply take_ge.
  - rewrite (Nat.add_comm 0), <- fmap_add_seq, <- list_fmap_compose. apply list_fmap_ext. intros i x _. simpl.
    f_equal. rewrite Nat.add_comm, <- (Nat.mul_1_l (length md)) at 1. by rewrite Nat.Div0.mod_add.
Qed.

Lemma length_cyc n md : length (cyc n md) = n.
Proof. unfold cyc. by rewrite length_fmap, length_seq. Qed.

Lemma by_bits_step n one zero : 0 < n ->
  by_bits n one zero = (if nz (Z.land n 1) then one else zero) :: by_bits (Z.shiftr n 1) one zero.
Proof.
  intros Hn. unfold by_bits. rewrite (proj2 (Z.ltb_lt 0 n)) by done. rewrite seqZ_cons by (pose proof (Z.log2_nonneg n); lia).
  rewrite fmap_cons. f_equal.
  - change 1 with (Z.ones 1) at 1. rewrite Z.land_ones by lia. change (2 ^ 1) with 2. rewrite Z.bit0_odd, Zmod_odd.
    by destruct (Z.odd n).
  - assert (E : Z.log2 n + 1 - 1 = if 0 <? Z.shiftr n 1 then Z.log2 (Z.shiftr n 1) + 1 else 0).
    { assert (Hd : Z.shiftr n 1 = n / 2) by (rewrite Z.shiftr_div_pow2 by lia; done).
      rewrite Z.log2_shiftr, Hd by done. destruct (Z.ltb_spec 0 (n / 2)).
      - pose proof (Z.log2_le_mono 2 n ltac:(Z.div_mod_to_equations; lia)). change (Z.log2 2) with 1 in *. lia.
      - assert (n = 1) as -> by (Z.div_mod_to_equations; lia). done. }
    replace (Z.pred (Z.log2 n + 1)) with (Z.log2 n + 1 - 1) by lia. rewrite E.
    rewrite <- (fmap_add_seqZ 1 0), <- list_fmap_compose. apply list_fmap_ext. intros i x Hx%list_elem_of_lookup_2%elem_of_seqZ.
    simpl. rewrite Z.shiftr_spec, Z.add_comm by lia. done.
Qed.

Lemma by_bits_zero one zero : by_bits 0 one zero = [].
Proof. done. Qed.
End contexts.

(** ** The digests of SHA-crypt *)
Section sha_digest.
Context (a : algorithm).
#[local] Instance hash_a' : Hash := hash a.

Lemma mdlen_pos : (0 < mdlen a)%nat.
Proof. destruct a; cbn; lia. Qed.

Lemma length_bind_const {A B} (f : A -> list B) n xs : (forall x, length (f x) = n) -> length (xs ≫= f) = (n * length xs)%nat.
Proof. intros Hf. induction xs as [|x xs IH]; [simpl; lia|]. change ((x :: xs) ≫= f) with (f x ++ (xs ≫= f)). rewrite length_app, Hf, IH. simpl. lia. Qed.

Lemma absorb_length (n : nat) h bs : length h = 8%nat -> length (absorb n h bs) = 8%nat.
Proof.
  revert h bs. induction n as [|n IH]; intros h bs Hl; [done|]. cbn [absorb]. apply IH.
  assert (E : forall v h b, length h = 8%nat -> length (Sha2.processblock v h b) = 8%nat).
  { intros v h' b Hl'. unfold Sha2.processblock. destruct (foldl _ _ _) as [[[[[[[? ?] ?] ?] ?] ?] ?] ?].
    rewrite length_fmap, length_zip_with, Hl'. done. }
  unfold hash_a'. rewrite (@imp_process _ _ (hash_implements a)). by apply E.
Qed.

Lemma hash_of_length msg : length (hash_of msg) = mdlen a.
Proof.
  unfold hash_of, hash_a'. rewrite (@imp_output _ _ (hash_implements a)), (length_bind_const _ _ _ (be_bytes_length _)).
  rewrite absorb_length; [by destruct a|]. rewrite (@imp_initial _ _ (hash_implements a)). apply valid_H0.
Qed.

Lemma hashmd_ok s msg n md : holds s msg -> length md = mdlen a -> holds (hashmd a s n md) (msg ++ cyc n md).
Proof.
  intros Hs Hmd. pose proof mdlen_pos as Hp. unfold hashmd. assert (Hf : (n < S n)%nat) by lia. revert Hf. generalize (S n) as fuel.
  intros fuel. revert n s msg Hs. induction fuel as [|fuel IH]; intros n s msg Hs Hf; [lia|]. cbn [hashmd_loop].
  destruct (Nat.ltb_spec (mdlen a) n) as [Hlt|Hge].
  - rewrite cyc_large, app_assoc by lia. rewrite (take_ge md) by lia. rewrite Hmd. apply IH; [by apply update_ok|lia].
  - rewrite cyc_small by lia. by apply update_ok.
Qed.

Lemma key_bits_ok fuel s msg n md key : holds s msg -> 0 <= n < Z.of_nat fuel ->
  holds (key_bits a fuel s n md key) (msg ++ concat (by_bits n md key)).
Proof.
  revert s msg n. induction fuel as [|fuel IH]; intros s msg n Hs Hn; [lia|]. cbn [key_bits].
  destruct (Z.ltb_spec 0 n) as [Hp|Hz].
  - rewrite by_bits_step by done. cbn [concat]. rewrite app_assoc. apply IH.
    + destruct (nz _); by apply update_ok.
    + rewrite Z.shiftr_div_pow2 by lia. change (2 ^ 1) with 2. Z.div_mod_to_equations; lia.
  - assert (n = 0) as -> by lia. rewrite by_bits_zero. by rewrite app_nil_r.
Qed.

Lemma nz_odd i : 0 <= i -> nz (i mod 2) = Z.odd i.
Proof. intros _. rewrite Zmod_odd. by destruct (Z.odd i). Qed.

Lemma iteration_ok klen slen kmd smd s md i : length (buf s) = block -> 0 <= i ->
  length kmd = mdlen a -> length md = mdlen a ->
  exists s', iteration a klen slen kmd smd (s, md) i = (s', next_digest a (cyc klen kmd) (take slen smd) md i) /\
    length (buf s') = block.
Proof.
  intros Hb Hi Hk Hm. unfold iteration, next_digest. rewrite nz_odd by done. unfold nz.
  set (ctx := if Z.odd i then update _ md else _). pose proof (init_ok s Hb) as H0. remember [] as m0 eqn:Em in H0.
  assert (Hc : holds ctx (m0 ++ (if Z.odd i then cyc klen kmd else md) ++ (if i mod 3 =? 0 then [] else take slen smd) ++
    (if i mod 7 =? 0 then [] else cyc klen kmd) ++ (if Z.odd i then md else cyc klen kmd))).
  { clear Em. subst ctx. destruct (Z.odd i), (i mod 3 =? 0), (i mod 7 =? 0); cbn [negb];
      rewrite ?app_nil_l, ?app_assoc; repeat first [apply update_ok | apply hashmd_ok]; done. }
  destruct (finish_hash _ _ Hc) as [E Hl]. destruct (finish ctx) as [s' md'] eqn:Ef. exists s'. subst m0. simpl in *. by rewrite E.
Qed.

Lemma next_digest_length P S md i : length (next_digest a P S md i) = mdlen a.
Proof. apply hash_of_length. Qed.

Lemma iterations_ok klen slen kmd smd n s md : length (buf s) = block ->
  length kmd = mdlen a -> length md = mdlen a ->
  (foldl (iteration a klen slen kmd smd) (s, md) (seqZ 0 n)).2 =
  foldl (next_digest a (cyc klen kmd) (take slen smd)) md (seqZ 0 n).
Proof.
  intros Hb Hk. assert (Hpos : Forall (fun i => 0 <= i) (seqZ 0 n)) by (apply list.Forall_forall; intros i ?%elem_of_seqZ; lia).
  revert s md Hb. induction Hpos as [|i l Hi Hpos IH]; intros s md Hb Hm; [done|]. cbn [foldl].
  destruct (iteration_ok klen slen kmd smd s md i) as (s' & -> & Hb'); [done..|]. apply IH; [done|apply next_digest_length].
Qed.

(** The steps of [sha_crypt] between reading the setting and writing the result. *)
Definition digest_steps (s : ctx) (key salt : list Z) (r : Z) : list Z :=
  let klen := length key in
  let '(s, md) := finish (update (update (update (init s) key) salt) key) in
  let s := hashmd a (update (update (init s) key) salt) klen md in
  let '(s, md) := finish (key_bits a (S klen) s (Z.of_nat klen) md key) in
  let '(s, kmd) := finish (Nat.iter klen (fun s => update s key) (init s)) in
  let '(s, smd) := finish (Nat.iter (16 + Z.to_nat (md !!! 0%nat)) (fun s => update s salt) (init s)) in
  (foldl (iteration a klen (length salt) kmd smd) (s, md) (seqZ 0 r)).2.

#[local] Ltac finished H :=
  let E := fresh "E" in let L := fresh "L" in let F := fresh "F" in
  match type of H with holds ?c ?m =>
    destruct (finish_hash c m H) as [E L]; destruct (finish c) as [? ?] eqn:F; cbn [fst snd] in E, L; subst
  end.

Lemma digest_steps_ok s key salt r : length (buf s) = block -> digest_steps s key salt r = sha_digest a key salt r.
Proof.
  intros Hb. unfold digest_steps, sha_digest.
  pose proof (update_ok _ _ key (update_ok _ _ salt (update_ok _ _ key (init_ok s Hb)))) as H1. finished H1.
  pose proof (hashmd_ok _ _ (length key) _ (update_ok _ _ salt (update_ok _ _ key (init_ok _ L))) (hash_of_length ((([] ++ key) ++ salt) ++ key))) as H2.
  apply (key_bits_ok (S (length key)) _ _ (Z.of_nat (length key)) (hash_of ((([] ++ key) ++ salt) ++ key)) key) in H2; [|lia]. finished H2.
  pose proof (iter_update_ok (length key) _ _ key (init_ok _ L0)) as H3. finished H3.
  match goal with |- context [Nat.iter ?n] => pose proof (iter_update_ok n _ _ salt (init_ok _ L1)) as H4 end. finished H4.
  rewrite iterations_ok by (done || apply hash_of_length). rewrite !app_nil_l, <- !app_assoc. done.
Qed.
End sha_digest.

(** ** Reading the setting *)
Definition char (c : Z) : Prop := 0 < c < 256.

Lemma ch_out s i : (length s <= i)%nat -> ch s i = 0.
Proof. intros Hl. unfold ch. by rewrite lookup_ge_None_2. Qed.

Lemma prefix_take p (bs : list Z) : prefix_of p bs = take (length (prefix_of p bs)) bs.
Proof. induction bs as [|b bs IH]; [done|]. cbn [prefix_of]. destruct (p b); [cbn; by f_equal|done]. Qed.

Lemma salt_len_ok n salt :
  salt_len n salt =
    if forallb (fun c => negb (c =? 10) && negb (c =? 58)) (take n (prefix_of (fun c => negb (c =? 36)) salt))
    then Some (length (take n (prefix_of (fun c => negb (c =? 36)) salt))) else None.
Proof.
  revert salt. induction n as [|n IH]; intros salt; [by destruct salt|]. destruct salt as [|c salt]; [done|].
  cbn [salt_len prefix_of]. destruct (c =? 36); [done|]. cbn [negb take forallb length]. rewrite IH.
  destruct (c =? 10); [done|]. destruct (c =? 58); [done|]. cbn [orb negb andb]. by destruct (forallb _ _).
Qed.

Lemma read_salt_ok salt :
  (slen ← salt_len SALT_MAX salt; Some (take slen salt, slen)) = (s ← read_salt salt; Some (s, length s)).
Proof.
  unfold read_salt, SALT_MAX. rewrite salt_len_ok. destruct (forallb _ _); [|done]. cbn [mbind option_bind].
  do 2 f_equal. rewrite length_take. set (P := prefix_of _ salt). assert (E : P = take (length P) salt) by apply prefix_take.
  rewrite E at 2. by rewrite take_take.
Qed.

Lemma text_ok bs : Forall char bs -> mem_ok (text 1 bs) /\ cstr (text 1 bs) 1 (Z.of_nat (length bs)) /\
  bytes_of (text 1 bs) 1 (Z.of_nat (length bs)) = bs.
Proof.
  intros Hb. unfold text. assert (Hok : mem_ok (write_bytes ∅ 1 (bs ++ [0]))).
  { apply write_bytes_ok; [intros ?? [=]|]. apply list.Forall_app. split; [|apply list.Forall_singleton; unfold is_byte; lia].
    refine (list.Forall_impl _ _ _ Hb _). unfold char, is_byte. lia. }
  assert (Hrd : forall i : nat, rd (write_bytes ∅ 1 (bs ++ [0])) (1 + Z.of_nat i) = ch bs i \/ (length bs < i)%nat).
  { intros i. destruct (decide (i <= length bs)%nat) as [Hi|]; [left|right; lia].
    destruct (lookup_lt_is_Some_2 (bs ++ [0]) i) as [b E]; [rewrite length_app; simpl; lia|].
    rewrite (rd_write_in _ _ _ _ _ E). unfold ch. destruct (decide (i < length bs)%nat).
    - rewrite lookup_app_l in E by done. by rewrite E.
    - rewrite lookup_app_r in E by lia. replace (i - length bs)%nat with O in E by lia. injection E as <-.
      by rewrite lookup_ge_None_2 by lia. }
  split; [done|]. split.
  - split; [lia|]. split; [|split].
    + intros x Hx. rewrite lookup_write_bytes. case_decide as Hc; [|rewrite length_app in Hc; simpl in Hc; lia].
      apply lookup_lt_is_Some. rewrite length_app in *. simpl. lia.
    + intros i Hi. destruct (Hrd (Z.to_nat i)) as [E|]; [|lia]. rewrite Z2Nat.id in E by lia. rewrite E. unfold ch.
      destruct (lookup_lt_is_Some_2 bs (Z.to_nat i)) as [b Eb]; [lia|]. rewrite Eb.
      pose proof (proj1 (list.Forall_lookup _ _) Hb _ _ Eb) as Hc. unfold char in Hc. simpl. lia.
    + destruct (Hrd (length bs)) as [E|]; [|lia]. rewrite E. by apply ch_out.
  - apply list_eq. intros i. destruct (decide (i < length bs)%nat).
    + rewrite bytes_of_lookup by lia. destruct (Hrd i) as [E|]; [|lia]. rewrite E. unfold ch.
      destruct (lookup_lt_is_Some_2 bs i) as [b Eb]; [lia|]. by rewrite Eb.
    + rewrite !lookup_ge_None_2; [done|lia|]. pose proof (length_bytes_of (write_bytes ∅ 1 (bs ++ [0])) 1 (Z.of_nat (length bs))). lia.
Qed.

Lemma char_byte bs : Forall char bs -> Forall is_byte bs.
Proof. intros H. refine (list.Forall_impl _ _ _ H _). unfold char, is_byte. lia. Qed.

Lemma prefix_ext p q (bs : list Z) : Forall (fun b => p b = q b) bs -> prefix_of p bs = prefix_of q bs.
Proof. induction 1 as [|b bs Hb _ IH]; [done|]. cbn [prefix_of]. by rewrite Hb, IH. Qed.

Lemma digits_prefix bs : Forall char bs -> prefix_of (digit_of 10) bs = prefix_of isdigit bs.
Proof.
  intros Hb. apply prefix_ext. refine (list.Forall_impl _ _ _ (char_byte _ Hb) _). intros c Hc.
  by destruct (isdigit_val c Hc) as [-> _].
Qed.

Lemma isdigit_prefix bs : isdigit (ch bs 0) = bool_decide (prefix_of isdigit bs <> []).
Proof. destruct bs as [|c bs]; [done|]. unfold ch. simpl. by destruct (isdigit c). Qed.

Lemma isdigit_iff c : is_byte c -> isdigit c = true <-> 48 <= c <= 57.
Proof.
  intros Hc. unfold is_byte in Hc. unfold isdigit, wrap. destruct (Z.ltb_spec ((c - 48) mod 2 ^ 32) 10) as [H|H]; split; try done;
    (destruct (decide (c < 48)); [rewrite <- (Z_mod_plus_full _ 1), Z.mod_small in H by lia|rewrite Z.mod_small in H by lia]; lia).
Qed.

Lemma parse_digits bs : Forall char bs -> isdigit (ch bs 0) = true ->
  parse 10 bs = Some (false, value 10 (prefix_of isdigit bs), Z.of_nat (length (prefix_of isdigit bs))).
Proof.
  intros Hb Hd. rewrite <- (digits_prefix bs Hb). destruct bs as [|c bs]; [done|]. unfold ch in Hd. simpl in Hd.
  pose proof (char_byte _ Hb) as [Hc _]%list.Forall_cons. pose proof (proj1 (isdigit_iff c Hc) Hd) as Hr.
  assert (Hs : isspace c = false).
  { destruct (isspace c) eqn:E; [|done]. assert (negb (isspace c && (48 <=? c)) = true) as Hn.
    { apply (byte_check (fun c => negb (isspace c && (48 <=? c)))); [by vm_compute|done]. }
    rewrite E in Hn. lia. }
  assert (Hl : lead (c :: bs) = (0, false)).
  { unfold lead. cbn [prefix_of]. rewrite Hs. cbn [length]. change (drop (Z.to_nat (Z.of_nat 0)) (c :: bs)) with (c :: bs). cbv iota.
    destruct (Z.eqb_spec c 45); [lia|]. by destruct (Z.eqb_spec c 43); [lia|]. }
  unfold parse. rewrite Hl. change (drop (Z.to_nat 0) (c :: bs)) with (c :: bs). cbv iota zeta. cbn [orb andb Z.eqb].
  assert (digit_of 10 c = true) as -> by (unfold digit_of; by destruct (isdigit_val c Hc) as [<- _]). done.
Qed.

Lemma value_nonneg ds : Forall is_byte ds -> 0 <= value 10 ds.
Proof. intros Hd. unfold value. by apply value_from_mono. Qed.

Lemma prefix_Forall (P : Z -> Prop) p bs : Forall P bs -> Forall P (prefix_of p bs).
Proof. intros H. rewrite prefix_take. by apply list.Forall_take. Qed.

Lemma strtoul_digits bs : Forall char bs -> isdigit (ch bs 0) = true -> Z.of_nat (length bs) < 2 ^ 62 ->
  let v := value 10 (prefix_of isdigit bs) in
  exists err, strtoul (text 1 bs) 1 10 = Some (Z.min v (2 ^ 64 - 1), 1 + Z.of_nat (length (prefix_of isdigit bs)), err).
Proof.
  intros Hb Hd Hl v. destruct (text_ok bs Hb) as (Hok & Hc & E).
  unfold strtoul. rewrite (strtox_ok _ 1 (Z.of_nat (length bs))); [|done|done|lia..|by right].
  rewrite E, parse_digits by done. fold v. eexists. do 3 f_equal.
  pose proof (value_nonneg _ (prefix_Forall _ isdigit _ (char_byte _ Hb))) as Hv. fold v in Hv.
  unfold converted. change (2 ^ 64 - 1 =? 2 ^ 63) with false. cbv iota.
  destruct (Z.ltb_spec (2 ^ 64 - 1) v); cbn [fst]; [lia|]. rewrite wrap_small; lia.
Qed.

Lemma digits10_fmt k fuel y acc : (k <= fuel)%nat -> 10 ^ (Z.of_nat k - 1) <= y < 10 ^ Z.of_nat k -> (0 < k)%nat ->
  backwards (fun y => 48 + y mod 10) (fun y => y / 10) fuel y acc = digits10 k y ++ acc.
Proof.
  revert k y acc. induction fuel as [|fuel IH]; intros k y acc Hk Hy Hp; [lia|]. destruct k as [|k]; [lia|].
  rewrite Nat2Z.inj_succ in Hy. rewrite Z.pow_succ_r in Hy by lia. replace (Z.succ (Z.of_nat k) - 1) with (Z.of_nat k) in Hy by lia.
  pose proof (Z.pow_pos_nonneg 10 (Z.of_nat k)). cbn [backwards digits10]. rewrite (proj2 (nz_true y)) by lia.
  rewrite <- app_assoc. cbn [app]. destruct k as [|k].
  - change (10 ^ Z.of_nat 0) with 1 in *. assert (y / 10 = 0) as -> by (Z.div_mod_to_equations; lia). by destruct fuel.
  - apply IH; [lia| |lia]. rewrite Nat2Z.inj_succ in *. rewrite Z.pow_succ_r in * by lia.
    replace (Z.succ (Z.of_nat k) - 1) with (Z.of_nat k) by lia. Z.div_mod_to_equations. lia.
Qed.

Lemma decimal_ok r : 1000 <= r <= 9999999 -> fmt_u r [] = decimal_of r.
Proof.
  intros Hr. unfold fmt_u, decimal_of. rewrite <- (app_nil_r (digits10 _ _)).
  destruct (Z.ltb_spec r 10000), (Z.ltb_spec r 100000), (Z.ltb_spec r 1000000); try lia; apply digits10_fmt; rewrite ?Z2Nat.id by lia; lia.
Qed.

Lemma rounds_of_ok rest : Forall char rest -> Z.of_nat (length rest) < 2 ^ 62 ->
  rounds_of rest =
    if bool_decide (take 7 rest = str "rounds=") then
      let ds := prefix_of isdigit (drop 7 rest) in
      let n := value 10 ds in
      let tail := drop (length ds) (drop 7 rest) in
      if bool_decide (ds <> []) && (ch tail 0 =? 36) && (n <=? 9999999)
      then Some (str "rounds=" ++ decimal_of (Z.max 1000 n) ++ str "$", Z.max 1000 n, drop 1 tail)
      else None
    else Some ([], 5000, rest).
Proof.
  intros Hb Hl. unfold rounds_of. case_bool_decide as E; [|done]. clear E. cbv zeta.
  assert (Hb' : Forall char (drop 7 rest)) by (by apply list.Forall_drop).
  assert (Hl' : Z.of_nat (length (drop 7 rest)) < 2 ^ 62) by (rewrite length_drop; lia). revert Hb' Hl'.
  generalize (drop 7 rest). clear rest Hb Hl. intros bs Hb Hl. rewrite <- isdigit_prefix.
  destruct (isdigit (ch bs 0)) eqn:Hd; [|done]. cbn [negb andb].
  destruct (strtoul_digits bs Hb Hd Hl) as [err E]. rewrite E. cbn [mbind option_bind].
  set (n := value 10 (prefix_of isdigit bs)) in *.
  replace (Z.to_nat (1 + Z.of_nat (length (prefix_of isdigit bs)) - 1)) with (length (prefix_of isdigit bs)) by lia.
  destruct (ch _ 0 =? 36); [|done]. cbn [negb andb]. unfold ROUNDS_MIN, ROUNDS_MAX.
  destruct (Z.leb_spec n 9999999) as [Hn|Hn].
  - destruct (Z.ltb_spec (Z.min n (2 ^ 64 - 1)) 1000); cbn [mbind option_bind].
    + replace (Z.max 1000 n) with 1000 by lia. by rewrite decimal_ok.
    + destruct (Z.ltb_spec 9999999 (Z.min n (2 ^ 64 - 1))); [lia|]. cbn [mbind option_bind].
      replace (Z.min n (2 ^ 64 - 1)) with n by lia. replace (Z.max 1000 n) with n by lia. by rewrite decimal_ok by lia.
  - destruct (Z.ltb_spec (Z.min n (2 ^ 64 - 1)) 1000); [lia|].
    by destruct (Z.ltb_spec 9999999 (Z.min n (2 ^ 64 - 1))); [|lia].
Qed.

Lemma salt_len_le n salt slen : salt_len n salt = Some slen -> length (take slen salt) = slen.
Proof.
  revert slen salt. induction n as [|n IH]; intros slen salt H; [destruct salt; by injection H as <-|].
  destruct salt as [|c salt]; [by injection H as <-|]. cbn [salt_len] in H.
  destruct (c =? 36); [by injection H as <-|]. destruct (_ || _); [done|].
  destruct (salt_len n salt) as [l|] eqn:E; [|done]. injection H as <-. cbn [take length]. by rewrite (IH _ _ E).
Qed.

Section sha_spec.
Context (a : algorithm).
#[local] Instance hash_a3 : Hash := hash a.

(** What [sha_crypt] does after reading the setting. *)
Definition sha_result (s : ctx) (key rounds : list Z) (r : Z) (salt : list Z) : list Z :=
  prefix a ++ rounds ++ salt ++ str "$" ++ encode a (digest_steps a s key salt r).

Lemma sha_crypt_steps s key setting :
  sha_crypt a s key setting =
    if (length key <=? 256)%nat then
      if bool_decide (take 3 setting = prefix a) then
        '(rounds, r, rest) ← rounds_of (drop 3 setting);
        '(salt, _) ← (slen ← salt_len SALT_MAX rest; Some (take slen rest, slen));
        Some (sha_result s key rounds r salt)
      else None
    else None.
Proof.
  unfold sha_crypt, KEY_MAX. destruct (Z.ltb_spec 256 (Z.of_nat (length key))), (Nat.leb_spec (length key) 256); try lia; [done|].
  case_bool_decide; [|done]. cbn [negb]. destruct (rounds_of _) as [[[rounds r] rest]|]; [|done]. cbn [mbind option_bind].
  destruct (salt_len _ _) as [slen|] eqn:Es; [|done]. cbn [mbind option_bind].
  unfold sha_result, digest_steps. rewrite (salt_len_le _ _ _ Es). by repeat destruct (finish _) as [? ?]; destruct (foldl _ _ _).
Qed.

Lemma sha_crypt_ok s key setting : length (buf s) = block -> Forall char setting -> Z.of_nat (length setting) < 2 ^ 62 ->
  sha_crypt a s key setting = sha_crypt_spec a key setting.
Proof.
  intros Hb Hc Hl. rewrite sha_crypt_steps. unfold sha_crypt_spec, read_setting.
  destruct (length key <=? 256)%nat; [|done]. case_bool_decide; [|done].
  rewrite rounds_of_ok by (try apply list.Forall_drop; rewrite ?length_drop; done || lia). cbv zeta.
  assert (R : forall rounds r rest,
    ('(salt, _) ← (slen ← salt_len SALT_MAX rest; Some (take slen rest, slen)); Some (sha_result s key rounds r salt)) =
    (salt ← read_salt rest; Some (sha_result s key rounds r salt))).
  { intros rounds r rest. rewrite read_salt_ok. by destruct (read_salt rest). }
  case_bool_decide.
  - destruct (_ && _); [|done]. cbn [mbind option_bind]. rewrite R. destruct (read_salt _); [|done]. cbn [mbind option_bind default].
    unfold sha_result. by rewrite digest_steps_ok.
  - cbn [mbind option_bind]. rewrite R. destruct (read_salt _); [|done]. cbn [mbind option_bind default].
    unfold sha_result. by rewrite digest_steps_ok.
Qed.
End sha_spec.

(** ** The result is a setting of itself *)
Lemma prefix_stop p xs c ys : Forall (fun b => p b = true) xs -> p c = false -> prefix_of p (xs ++ c :: ys) = xs.
Proof. intros Hx Hc. rewrite prefix_app by done. cbn [prefix_of]. by rewrite Hc, app_nil_r. Qed.

Lemma prefix_all p bs : Forall (fun b => p b = true) (prefix_of p bs).
Proof. induction bs as [|b bs IH]; [done|]. cbn [prefix_of]. destruct (p b) eqn:E; by constructor. Qed.

Lemma read_salt_spec rest salt : read_salt rest = Some salt ->
  salt = take (length salt) rest /\ (length salt <= 16)%nat /\ Forall (fun c => negb (c =? 36) = true) salt /\
  forall tail, read_salt (salt ++ 36 :: tail) = Some salt.
Proof.
  unfold read_salt. set (p := fun c => negb (c =? 36)). destruct (forallb _ _) eqn:Ef; [|done]. intros [= <-].
  assert (Hl : (length (take 16 (prefix_of p rest)) <= 16)%nat) by (rewrite length_take; lia).
  assert (Hp : Forall (fun c => p c = true) (take 16 (prefix_of p rest))) by (apply list.Forall_take, prefix_all).
  split; [|split; [done|split; [done|]]].
  - rewrite length_take. rewrite (prefix_take p rest) at 1. by rewrite take_take.
  - intros tail. rewrite prefix_stop by done. rewrite (take_ge (take _ _)) by done. by rewrite Ef.
Qed.

Lemma digits10_ok k n : 0 <= n < 10 ^ Z.of_nat k ->
  Forall (fun c => 48 <= c <= 57) (digits10 k n) /\ value 10 (digits10 k n) = n /\ length (digits10 k n) = k.
Proof.
  revert n. induction k as [|k IH]; intros n Hn; [cbn in *; split; [done|split; [cbn; lia|done]]|].
  rewrite Nat2Z.inj_succ, Z.pow_succ_r in Hn by lia.
  destruct (IH (n / 10)) as (Hf & Hv & Hl); [Z.div_mod_to_equations; lia|]. cbn [digits10].
  pose proof (Z.mod_pos_bound n 10 ltac:(lia)) as Hm. split; [|split].
  - apply list.Forall_app. split; [done|]. apply list.Forall_singleton. lia.
  - unfold value in *. rewrite value_from_app, Hv. cbn [value_from foldl].
    assert (Hb : is_byte (48 + n mod 10)) by (unfold is_byte; lia).
    destruct (isdigit_val _ Hb) as [_ H]. destruct H as [-> _]; [apply isdigit_iff; [done|lia]|]. Z.div_mod_to_equations; lia.
  - rewrite length_app, Hl. simpl. lia.
Qed.

Lemma decimal_of_ok n : 1000 <= n <= 9999999 ->
  Forall (fun c => 48 <= c <= 57) (decimal_of n) /\ value 10 (decimal_of n) = n /\ (0 < length (decimal_of n) <= 7)%nat.
Proof.
  intros Hn. unfold decimal_of. set (k := Z.to_nat _).
  destruct (digits10_ok k n) as (? & ? & ->); [|split; [done|split; [done|]]]; subst k;
    destruct (Z.ltb_spec n 10000), (Z.ltb_spec n 100000), (Z.ltb_spec n 1000000); lia || (rewrite Z2Nat.id by lia; lia).
Qed.

Section again.
Context (a : algorithm).

Lemma take_prefix (tail : list Z) : take 3 (prefix a ++ tail) = prefix a /\ drop 3 (prefix a ++ tail) = tail.
Proof. by destruct a. Qed.

Definition written (rounds : option Z) (salt tail : list Z) : list Z :=
  prefix a ++ match rounds with Some n => str "rounds=" ++ decimal_of n ++ str "$" | None => [] end ++ salt ++ str "$" ++ tail.

Lemma no_rounds rest salt tail : salt = take (length salt) rest -> take 7 rest <> str "rounds=" ->
  take 7 (salt ++ 36 :: tail) <> str "rounds=".
Proof.
  intros Hs Hr E. destruct (decide (7 <= length salt)%nat) as [H7|H7].
  - rewrite take_app_le in E by done. apply Hr. rewrite Hs, take_take, Nat.min_l in E by done. done.
  - assert (E' : take 7 (salt ++ 36 :: tail) !! length salt = Some 36).
    { rewrite lookup_take_lt, lookup_app_r by lia. by rewrite Nat.sub_diag. }
    rewrite E in E'. destruct (length salt) as [|[|[|[|[|[|[|]]]]]]]; (discriminate E' || lia).
Qed.

Lemma read_setting_range setting n salt : read_setting a setting = Some (Some n, salt) -> 1000 <= n <= 9999999.
Proof.
  unfold read_setting. case_bool_decide; [|done]. case_bool_decide; [|by destruct (read_salt _)].
  set (v := value 10 _). destruct (bool_decide _); [|done]. destruct (ch _ _ =? 36); [|done]. cbn [andb].
  destruct (Z.leb_spec v 9999999); [|done]. destruct (read_salt _); [|done]. intros [= <- <-]. lia.
Qed.

Lemma read_setting_salt setting rounds salt : read_setting a setting = Some (rounds, salt) ->
  exists k, read_salt (drop k setting) = Some salt /\ (rounds = None -> k = 3%nat /\ take 7 (drop 3 setting) <> str "rounds=").
Proof.
  unfold read_setting. case_bool_decide; [|done]. cbv zeta. case_bool_decide as E.
  - destruct (_ && _); [|done]. rewrite !drop_drop. destruct (read_salt _) eqn:Es; [|done]. intros [= <- <-]. by eexists.
  - destruct (read_salt _) eqn:Es; [|done]. intros [= <- <-]. by exists 3%nat.
Qed.

Lemma read_written setting rounds salt tail : read_setting a setting = Some (rounds, salt) ->
  read_setting a (written rounds salt tail) = Some (rounds, salt).
Proof.
  intros H. destruct (read_setting_salt _ _ _ H) as (k & Hs & Hk). destruct (read_salt_spec _ _ Hs) as (Ht & _ & _ & Hback).
  unfold written, read_setting. rewrite (proj1 (take_prefix _)), (proj2 (take_prefix _)).
  rewrite bool_decide_true by done. change (str "$" ++ tail) with (36 :: tail). destruct rounds as [n|].
  - pose proof (read_setting_range _ _ _ H) as Hn. destruct (decimal_of_ok n Hn) as (Hd & Hv & Hl).
    rewrite <- !app_assoc. change (str "$" ++ salt ++ 36 :: tail) with (36 :: salt ++ 36 :: tail).
    change (take 7 (str "rounds=" ++ ?x)) with (str "rounds="). change (drop 7 (str "rounds=" ++ ?x)) with x.
    rewrite bool_decide_true by done. cbv zeta.
    assert (E : prefix_of isdigit (decimal_of n ++ 36 :: salt ++ 36 :: tail) = decimal_of n).
    { apply prefix_stop; [|done]. refine (list.Forall_impl _ _ _ Hd _). intros c Hc. apply isdigit_iff; [unfold is_byte; lia|lia]. }
    rewrite E, drop_app_length, Hv. rewrite bool_decide_true by (by intros E'; rewrite E' in Hl; simpl in Hl; lia).
    rewrite (proj2 (Z.leb_le _ _)) by lia. cbn [ch lookup list_lookup default andb drop].
    change (ch (36 :: _) 0 =? 36) with true. cbn [andb]. rewrite drop_0, Hback. cbn [mbind option_bind]. do 3 f_equal. lia.
  - destruct (Hk eq_refl) as [-> Hr]. cbn [app]. rewrite bool_decide_false by (by apply (no_rounds (drop 3 setting))).
    by rewrite Hback.
Qed.
End again.

(** ** The 64-character encoding *)
Lemma b64_ok i : 0 <= i < 64 -> char (b64 !!! Z.to_nat i) /\ b64 !!! Z.to_nat i <> 36.
Proof.
  intros Hi. assert (H : forallb (fun i => (0 <? b64 !!! Z.to_nat i) && (b64 !!! Z.to_nat i <? 256) && negb (b64 !!! Z.to_nat i =? 36)) (seqZ 0 64) = true)
    by (by vm_compute).
  pose proof (forallb_seqZ _ _ _ H i ltac:(lia)) as E. unfold char. cbv beta in E. lia.
Qed.

Lemma b64_inj i j : 0 <= i < 64 -> 0 <= j < 64 -> b64 !!! Z.to_nat i = b64 !!! Z.to_nat j -> i = j.
Proof.
  intros Hi Hj. assert (H : forallb (fun i => forallb (fun j => negb (b64 !!! Z.to_nat i =? b64 !!! Z.to_nat j) || (i =? j)) (seqZ 0 64)) (seqZ 0 64) = true)
    by (by vm_compute).
  pose proof (forallb_seqZ _ _ _ (forallb_seqZ _ _ _ H i ltac:(lia)) j ltac:(lia)) as E. cbv beta in E. lia.
Qed.

Lemma to64_ok n u : Forall char (to64 u n) /\ length (to64 u n) = n.
Proof.
  revert u. induction n as [|n IH]; intros u; [done|]. cbn [to64 length]. destruct (IH (u / 64)) as [Hf ->].
  split; [|done]. constructor; [|done]. apply b64_ok, Z.mod_pos_bound. lia.
Qed.

Lemma to64_inj n u v : 0 <= u < 64 ^ Z.of_nat n -> 0 <= v < 64 ^ Z.of_nat n -> to64 u n = to64 v n -> u = v.
Proof.
  revert u v. induction n as [|n IH]; intros u v; [cbn; lia|]. rewrite Nat2Z.inj_succ, Z.pow_succ_r by lia. intros Hu Hv [= E1 E2].
  apply b64_inj in E1; [|apply Z.mod_pos_bound; lia..]. apply IH in E2; Z.div_mod_to_equations; lia.
Qed.

Lemma three_add md i j k : Forall is_byte [md !!! i; md !!! j; md !!! k] ->
  three md (i, j, k) = md !!! i * 65536 + md !!! j * 256 + md !!! k.
Proof.
  rewrite !list.Forall_cons. unfold is_byte. intros (H1 & H2 & H3 & _). unfold three. rewrite !Z.shiftl_mul_pow2 by lia.
  rewrite Z.lor_comm, (Z.lor_comm (_ * _)), (Z.mul_comm _ (2 ^ 16)), (lor_disjoint_add 16) by lia.
  replace (md !!! j * 2 ^ 8 + 2 ^ 16 * md !!! i) with (2 ^ 8 * (md !!! j + 256 * md !!! i)) by lia.
  rewrite (lor_disjoint_add 8) by lia. lia.
Qed.

Lemma lookup_byte md i : Forall is_byte md -> is_byte (md !!! i).
Proof.
  intros Hb. rewrite list_lookup_total_alt. destruct (md !! i) eqn:E; simpl; [exact (proj1 (list.Forall_lookup _ _) Hb _ _ E)|].
  change (@inhabitant Z _) with 1. unfold is_byte. lia.
Qed.

Lemma three_inj md md' i j k : Forall is_byte md -> Forall is_byte md' -> to64 (three md (i, j, k)) 4 = to64 (three md' (i, j, k)) 4 ->
  md !!! i = md' !!! i /\ md !!! j = md' !!! j /\ md !!! k = md' !!! k.
Proof.
  intros Hb Hb'. rewrite !three_add by (repeat constructor; by apply lookup_byte).
  pose proof (lookup_byte _ i Hb). pose proof (lookup_byte _ j Hb). pose proof (lookup_byte _ k Hb).
  pose proof (lookup_byte _ i Hb'). pose proof (lookup_byte _ j Hb'). pose proof (lookup_byte _ k Hb'). unfold is_byte in *.
  intros E%to64_inj; change (64 ^ Z.of_nat 4) with 16777216; lia.
Qed.

Definition triple_indices (p : nat * nat * nat) : list nat := [p.1.1; p.1.2; p.2].

Lemma threes_inj perm md md' tail tail' : Forall is_byte md -> Forall is_byte md' ->
  (perm ≫= fun p => to64 (three md p) 4) ++ tail = (perm ≫= fun p => to64 (three md' p) 4) ++ tail' ->
  Forall (fun i => md !!! i = md' !!! i) (perm ≫= triple_indices) /\ tail = tail'.
Proof.
  intros Hb Hb'. induction perm as [|[[i j] k] perm IH]; [done|]. cbn [mbind list_bind]. rewrite <- !app_assoc. intros E.
  apply app_inj_1 in E as [E1 E2]; [|by rewrite !(proj2 (to64_ok _ _))]. destruct (IH E2) as [Hf ->]. split; [|done].
  apply three_inj in E1 as (? & ? & ?); [|done..]. by repeat constructor.
Qed.

(** The indices cover the digest. *)
Lemma covered (ixs : list nat) (md md' : list Z) n : Forall (fun i => md !!! i = md' !!! i) ixs ->
  forallb (fun i => bool_decide (i ∈ ixs)) (seq 0 n) = true -> length md = n -> length md' = n -> md = md'.
Proof.
  intros Hf Hc Hl Hl'. apply list_eq. intros i. destruct (decide (i < n)%nat).
  - rewrite !list_lookup_lookup_total_lt by lia. f_equal. rewrite forallb_forall in Hc.
    specialize (Hc i ltac:(apply in_seq; lia)). apply bool_decide_eq_true in Hc.
    exact (proj1 (list.Forall_forall _ _) Hf i Hc).
  - rewrite !lookup_ge_None_2 by lia. done.
Qed.

Lemma two_add x y : is_byte x -> is_byte y -> Z.lor (Z.shiftl x 8) y = x * 256 + y.
Proof.
  unfold is_byte. intros Hx Hy. rewrite Z.shiftl_mul_pow2, Z.lor_comm, (Z.mul_comm x) by lia. rewrite (lor_disjoint_add 8) by lia. lia.
Qed.

Lemma encode_ok a md : Forall char (encode a md) /\ length (encode a md) = match a with SHA256 => 43 | SHA512 => 86 end%nat.
Proof.
  unfold encode. split.
  - apply list.Forall_app. split; [|destruct a; apply to64_ok]. apply list.Forall_bind, list.Forall_true. intros p. apply to64_ok.
  - rewrite length_app, (length_bind_const _ 4) by (intros; apply to64_ok). destruct a; by rewrite (proj2 (to64_ok _ _)).
Qed.

(** ** MD5-crypt *)
Section md5_spec.
#[local] Instance hash_md5' : Hash := md5.

Definition md5_next (key salt A : list Z) (i : Z) : list Z :=
  hash_of ((if Z.odd i then key else A) ++ (if i mod 3 =? 0 then [] else salt) ++ (if i mod 7 =? 0 then [] else key) ++
     (if Z.odd i then A else key)).

Definition md5_digest (key salt : list Z) : list Z :=
  let B := hash_of (key ++ salt ++ key) in
  let A := hash_of (key ++ str "$1$" ++ salt ++ cyc (length key) B ++ concat (by_bits (Z.of_nat (length key)) [0] (take 1 key))) in
  foldl (md5_next key salt) A (seqZ 0 1000).

Definition md5_salt (setting : list Z) : list Z := take 8 (prefix_of (fun c => negb (c =? 36)) (drop 3 setting)).

Definition md5crypt_spec (key setting : list Z) : option (list Z) :=
  if (Z.of_nat (length key) <=? 30000) && bool_decide (take 3 setting = str "$1$") then
    Some (str "$1$" ++ md5_salt setting ++ str "$" ++ md5_encode (md5_digest key (md5_salt setting)))
  else None.

Lemma md5_absorb_length (n : nat) h bs : length h = 4%nat -> length (absorb n h bs) = 4%nat.
Proof.
  revert h bs. induction n as [|n IH]; intros h bs Hl; [done|]. cbn [absorb]. apply IH.
  change (@Digest.processblock hash_md5') with Md5.processblock. unfold Md5.processblock.
  destruct (foldl _ _ _) as [[[? ?] ?] ?]. by rewrite length_fmap, length_zip_with, Hl.
Qed.

Lemma md5_hash_length msg : length (hash_of msg) = 16%nat.
Proof.
  unfold hash_of. change (@output hash_md5') with (fun h => h ≫= le_bytes 4). cbv beta.
  rewrite (length_bind_const _ _ _ (le_bytes_length _)), md5_absorb_length; done.
Qed.

Lemma md5_repeat_ok fuel s msg n md : holds s msg -> (n < fuel)%nat -> length md = 16%nat ->
  holds (md5_repeat fuel s n md) (msg ++ cyc n md).
Proof.
  intros Hs Hf Hmd. revert n s msg Hs Hf. induction fuel as [|fuel IH]; intros n s msg Hs Hf; [lia|]. cbn [md5_repeat].
  destruct (Nat.ltb_spec 16 n) as [Hlt|Hge].
  - rewrite cyc_large, app_assoc, Hmd by lia. apply IH; [by apply update_ok|lia].
  - rewrite cyc_small by lia. by apply update_ok.
Qed.

Lemma md5_bits_ok fuel s msg n md key : holds s msg -> 0 <= n < Z.of_nat fuel ->
  holds (md5_bits fuel s n md key) (msg ++ concat (by_bits n (take 1 md) (take 1 key))).
Proof.
  revert s msg n. induction fuel as [|fuel IH]; intros s msg n Hs Hn; [lia|]. cbn [md5_bits].
  destruct (nz n) eqn:En; [apply nz_true in En|apply nz_false in En].
  - rewrite by_bits_step by lia. cbn [concat]. rewrite app_assoc. apply IH.
    + destruct (nz (Z.land n 1)); by apply update_ok.
    + rewrite Z.shiftr_div_pow2 by lia. change (2 ^ 1) with 2. Z.div_mod_to_equations; lia.
  - subst n. rewrite by_bits_zero. by rewrite app_nil_r.
Qed.

Lemma md5_iteration_ok key salt s md i : length (buf s) = block -> 0 <= i ->
  exists s', md5_iteration key salt (s, md) i = (s', md5_next key salt md i) /\ length (buf s') = block.
Proof.
  intros Hb Hi. unfold md5_iteration, md5_next. rewrite nz_odd by done. unfold nz.
  set (ctx := if Z.odd i then update _ md else _). pose proof (init_ok s Hb) as H0. remember [] as m0 eqn:Em in H0.
  assert (Hc : holds ctx (m0 ++ (if Z.odd i then key else md) ++ (if i mod 3 =? 0 then [] else salt) ++
    (if i mod 7 =? 0 then [] else key) ++ (if Z.odd i then md else key))).
  { clear Em. subst ctx. destruct (Z.odd i), (i mod 3 =? 0), (i mod 7 =? 0); cbn [negb];
      rewrite ?app_nil_l, ?app_assoc; repeat apply update_ok; done. }
  destruct (finish_hash _ _ Hc) as [E Hl]. destruct (finish ctx) as [s' md'] eqn:Ef. exists s'. subst m0. simpl in *. by rewrite E.
Qed.

Lemma md5_iterations_ok key salt n s md : length (buf s) = block ->
  (foldl (md5_iteration key salt) (s, md) (seqZ 0 n)).2 = foldl (md5_next key salt) md (seqZ 0 n).
Proof.
  assert (Hpos : Forall (fun i => 0 <= i) (seqZ 0 n)) by (apply list.Forall_forall; intros i ?%elem_of_seqZ; lia).
  revert s md. induction Hpos as [|i l Hi Hpos IH]; intros s md Hb; [done|]. cbn [foldl].
  destruct (md5_iteration_ok key salt s md i) as (s' & -> & Hb'); [done..|]. by apply IH.
Qed.

Lemma md5_salt_len_ok n salt : md5_salt_len n salt = length (take n (prefix_of (fun c => negb (c =? 36)) salt)).
Proof.
  revert salt. induction n as [|n IH]; intros salt; [by destruct salt|]. destruct salt as [|c salt]; [done|].
  cbn [md5_salt_len prefix_of]. destruct (c =? 36); [done|]. cbn [negb take length]. by rewrite IH.
Qed.

Lemma md5_salt_take setting : take (length (md5_salt setting)) (drop 3 setting) = md5_salt setting.
Proof.
  unfold md5_salt. rewrite length_take. set (P := prefix_of _ _). assert (E : P = take (length P) (drop 3 setting)) by apply prefix_take.
  rewrite E at 2. by rewrite take_take.
Qed.

(** The steps of [md5crypt] between reading the setting and writing the result. *)
Definition md5_steps (s : ctx) (key salt header : list Z) : list Z :=
  let klen := length key in
  let '(s, md) := finish (update (update (update (init s) key) salt) key) in
  let s := md5_repeat (S klen) (update (update (init s) key) header) klen md in
  let md := <[0%nat := 0]> md in
  let '(s, md) := finish (md5_bits (S klen) s (Z.of_nat klen) md key) in
  (foldl (md5_iteration key salt) (s, md) (seqZ 0 1000)).2.

Lemma md5_steps_ok s key salt : length (buf s) = block -> md5_steps s key salt (str "$1$" ++ salt) = md5_digest key salt.
Proof.
  intros Hb. unfold md5_steps, md5_digest.
  pose proof (update_ok _ _ key (update_ok _ _ salt (update_ok _ _ key (init_ok s Hb)))) as H1.
  destruct (finish_hash _ _ H1) as [E1 L1]. destruct (finish _) as [s1 md]. cbn [fst snd] in E1, L1. subst md.
  set (B := hash_of _). assert (HB : length B = 16%nat) by apply md5_hash_length.
  pose proof (md5_repeat_ok (S (length key)) _ _ (length key) B (update_ok _ _ (str "$1$" ++ salt) (update_ok _ _ key (init_ok _ L1)))
    ltac:(lia) HB) as H2.
  apply (md5_bits_ok (S (length key)) _ _ (Z.of_nat (length key)) (<[0%nat := 0]> B) key) in H2; [|lia].
  assert (HB0 : take 1 (<[0%nat := 0]> B) = [0]) by (by destruct B). rewrite HB0 in H2.
  destruct (finish_hash _ _ H2) as [E2 L2]. destruct (finish _) as [s2 A]. cbn [fst snd] in E2, L2.
  rewrite md5_iterations_ok, E2 by done. subst B. rewrite !app_nil_l, <- !app_assoc. done.
Qed.

Lemma md5crypt_ok s key setting : length (buf s) = block -> md5crypt s key setting = md5crypt_spec key setting.
Proof.
  intros Hb. unfold md5crypt, md5crypt_spec, MD5_KEY_MAX.
  destruct (Z.ltb_spec 30000 (Z.of_nat (length key))), (Z.leb_spec (Z.of_nat (length key)) 30000); try lia; [done|].
  cbn [andb]. case_bool_decide as Hp; [|done]. cbn [negb]. rewrite md5_salt_len_ok. unfold MD5_SALT_MAX. fold (md5_salt setting).
  rewrite md5_salt_take. assert (Et : take (3 + length (md5_salt setting)) setting = str "$1$" ++ md5_salt setting).
  { rewrite <- (take_drop 3 setting) at 2. rewrite Hp. change (3 + ?n)%nat with (length (str "$1$") + n)%nat.
    by rewrite take_app_add, md5_salt_take. }
  rewrite Et, <- (md5_steps_ok s) by done. unfold md5_steps.
  destruct (finish _) as [? ?]; destruct (finish _) as [? ?]; destruct (foldl _ _ _). cbn [snd]. by rewrite <- app_assoc.
Qed.
End md5_spec.

(** ** The properties *)

Lemma take_char n s : Forall char s -> Forall char (take n s).
Proof. apply list.Forall_take. Qed.

Lemma digit_chars ds : Forall (fun c => 48 <= c <= 57) ds -> Forall char ds.
Proof. intros H. refine (list.Forall_impl _ _ _ H _). unfold char. lia. Qed.

Lemma check_chars (cs : list Z) : forallb (fun c => (0 <? c) && (c <? 256)) cs = true -> Forall char cs.
Proof. intros H. apply list.Forall_forall. intros c Hc%list_elem_of_In. rewrite forallb_forall in H. specialize (H c Hc). unfold char. lia. Qed.

Lemma written_ok a setting rounds salt tail : Forall char setting -> read_setting a setting = Some (rounds, salt) -> Forall char tail ->
  Forall char (written a rounds salt tail) /\ (length (written a rounds salt tail) <= 35 + length tail)%nat.
Proof.
  intros Hc Hr Ht. destruct (read_setting_salt _ _ _ _ Hr) as (k & Hs & _). destruct (read_salt_spec _ _ Hs) as (Hst & Hl & _).
  assert (Hsc : Forall char salt) by (rewrite Hst; by apply list.Forall_take, list.Forall_drop).
  assert (Hp : Forall char (prefix a) /\ length (prefix a) = 3%nat) by (destruct a; split; try done; by apply check_chars).
  assert (Hd : Forall char (str "$")) by (by apply check_chars). destruct Hp as [Hp Hpl].
  unfold written. destruct rounds as [n|]; rewrite !list.Forall_app, !length_app, Hpl; change (length (str "$")) with 1%nat.
  - pose proof (read_setting_range _ _ _ _ Hr) as Hn. destruct (decimal_of_ok n Hn) as (Hdc & _ & Hdl).
    split; [split_and!; try done; [by apply check_chars|by apply digit_chars]|]. change (length (str "rounds=")) with 7%nat. lia.
  - split; [by split_and!|]. cbn [length]. lia.
Qed.

(** C40. [sha256crypt] and [sha512crypt] return what [sha_crypt_spec] says for every key
    and setting: a null pointer for a key of more than 256 bytes or a setting the
    grammar [read_setting] rejects; otherwise the canonical setting and the encoding
    of the digest of SHA-crypt, a function of whole-message hashes. *)
Theorem sha_crypt_computes a (s : ctx) key setting :
  length (buf s) = @block (hash a) -> Forall char setting -> Z.of_nat (length setting) < 2 ^ 62 ->
  sha_crypt a s key setting = sha_crypt_spec a key setting.
Proof. intros. by apply sha_crypt_ok. Qed.

Definition fresh (a : algorithm) : ctx := {| len := 0; h := []; buf := replicate (@block (hash a)) 0 |}.

Lemma sha_crypt_computes_witness :
  sha256crypt (fresh SHA256) (str "key") (str "$5$rounds=1000000000000000000000$salt") =
  sha_crypt_spec SHA256 (str "key") (str "$5$rounds=1000000000000000000000$salt").
Proof. apply (sha_crypt_computes SHA256 (fresh SHA256)); [done|by apply check_chars|by vm_compute]. Defined.

(** For a key of at most 256 bytes and a setting of the grammar, [sha256crypt] and
    [sha512crypt] return a string that verifies the key: given as the setting for the
    same key it is returned again. With its terminator it fits the 128 bytes of the
    buffer of [crypt]. *)
Theorem sha_crypt_verifies a (s s' : ctx) key setting :
  length (buf s) = @block (hash a) -> length (buf s') = @block (hash a) ->
  Forall char setting -> Z.of_nat (length setting) < 2 ^ 62 ->
  (length key <= 256)%nat -> is_Some (read_setting a setting) ->
  exists out, sha_crypt a s key setting = Some out /\ sha_crypt a s' key out = Some out /\
    Forall char out /\ (length out + 1 <= 128)%nat.
Proof.
  intros Hb Hb' Hc Hl Hk [[rounds salt] Er]. set (md := sha_digest a key salt (default 5000 rounds)).
  destruct (encode_ok a md) as [He Hel]. set (out := written a rounds salt (encode a md)).
  destruct (written_ok a setting rounds salt (encode a md) Hc Er He) as [Hw Hwl]. fold out in Hw, Hwl.
  assert (Hlen : (length (encode a md) <= 86)%nat) by (rewrite Hel; destruct a; lia).
  assert (Hspec : forall st, read_setting a st = Some (rounds, salt) -> sha_crypt_spec a key st = Some out).
  { intros st E. unfold sha_crypt_spec. by rewrite (proj2 (Nat.leb_le _ _) Hk), E. }
  exists out. split; [|split; [|split; [done|lia]]].
  - rewrite sha_crypt_ok by done. by apply Hspec.
  - rewrite sha_crypt_ok by (done || lia). apply Hspec. by apply (read_written a setting).
Qed.

Lemma sha_crypt_verifies_witness : exists out, sha512crypt (fresh SHA512) (str "key") out = Some out.
Proof.
  destruct (sha_crypt_verifies SHA512 (fresh SHA512) (fresh SHA512) (str "key") (str "$6$rounds=1500$salt$")) as (out & _ & H & _);
    [done|done|by apply check_chars|by vm_compute|cbn; lia|vm_compute; by eexists|by exists out].
Defined.

(** The 64-character encodings lose nothing: digests with the same encoding are the same. *)
Theorem encode_injective (md md' : list Z) : Forall is_byte md -> Forall is_byte md' ->
  (forall a, length md = mdlen a -> length md' = mdlen a -> encode a md = encode a md' -> md = md') /\
  (length md = 16%nat -> length md' = 16%nat -> md5_encode md = md5_encode md' -> md = md').
Proof.
  intros Hb Hb'.
  assert (last : forall i n, 64 ^ Z.of_nat n >= 256 -> to64 (md !!! i) n = to64 (md' !!! i) n -> md !!! i = md' !!! i).
  { intros i n Hn. pose proof (lookup_byte _ i Hb). pose proof (lookup_byte _ i Hb'). unfold is_byte in *. apply to64_inj; lia. }
  split.
  - intros a Hl Hl' E. unfold encode in E. destruct a; apply threes_inj in E as [Hf E]; try done.
    + rewrite !two_add in E by (by apply lookup_byte).
      pose proof (lookup_byte _ 31 Hb). pose proof (lookup_byte _ 30 Hb). pose proof (lookup_byte _ 31 Hb'). pose proof (lookup_byte _ 30 Hb').
      unfold is_byte in *. apply to64_inj in E; [|change (64 ^ Z.of_nat 3) with 262144; lia..].
      apply (covered (30%nat :: 31%nat :: (perm SHA256 ≫= triple_indices)) md md' 32); [|by vm_compute|done|done].
      constructor; [lia|]. by constructor; [lia|].
    + apply last in E; [|by vm_compute]. apply (covered (63%nat :: (perm SHA512 ≫= triple_indices)) md md' 64); [|by vm_compute|done|done].
      by constructor.
  - intros Hl Hl' E. unfold md5_encode in E. apply threes_inj in E as [Hf E]; [|done..]. apply last in E; [|by vm_compute].
    apply (covered (11%nat :: (md5_perm ≫= triple_indices)) md md' 16); [|by vm_compute|done|done]. by constructor.
Qed.

Lemma encode_injective_witness : exists md md', md5_encode md = md5_encode md' /\ md = md'.
Proof.
  exists (replicate 16 7), (replicate 16 7). split; [done|].
  apply (encode_injective (replicate 16 7) (replicate 16 7)); [repeat constructor; lia|repeat constructor; lia|done..].
Defined.

Lemma md5_salt_written setting tail : md5_salt (str "$1$" ++ md5_salt setting ++ str "$" ++ tail) = md5_salt setting.
Proof.
  unfold md5_salt at 1. change (drop 3 (str "$1$" ++ ?x)) with x. change (str "$" ++ tail) with (36 :: tail).
  rewrite prefix_stop; [|by apply list.Forall_take, prefix_all|done]. apply take_ge. unfold md5_salt. rewrite length_take. lia.
Qed.

(** [md5crypt] returns what [md5crypt_spec] says for every key and setting, and its
    result verifies the key again; with its terminator it fits the 64 bytes of the
    buffer of the self test. *)
Theorem md5crypt_computes (s s' : ctx) key setting : length (buf s) = 64%nat -> length (buf s') = 64%nat ->
  md5crypt s key setting = md5crypt_spec key setting /\
  match md5crypt s key setting with
  | Some out => md5crypt s' key out = Some out /\ (length out + 1 <= 64)%nat
  | None => 30000 < Z.of_nat (length key) \/ take 3 setting <> str "$1$"
  end.
Proof.
  intros Hb Hb'. rewrite !md5crypt_ok by done. split; [done|]. unfold md5crypt_spec at 1.
  destruct (Z.leb_spec (Z.of_nat (length key)) 30000) as [Hk|Hk]; [|by left]. case_bool_decide; [|by right]. cbn [andb].
  set (salt := md5_salt setting). set (enc := md5_encode _). split.
  - rewrite md5crypt_ok by done. unfold md5crypt_spec. rewrite (proj2 (Z.leb_le _ _) Hk), bool_decide_true by done. cbn [andb].
    subst salt. by rewrite md5_salt_written.
  - assert (length enc = 22%nat).
    { subst enc. unfold md5_encode. rewrite length_app, (length_bind_const _ 4) by (intros; apply to64_ok). by rewrite (proj2 (to64_ok _ _)). }
    assert (length salt <= 8)%nat by (subst salt; unfold md5_salt; rewrite length_take; lia).
    rewrite !length_app. change (length (str "$1$")) with 3%nat. change (length (str "$")) with 1%nat. lia.
Qed.

Lemma md5crypt_computes_witness : exists s, md5crypt s (str "key") (str "$1$abcdefghij") = md5crypt_spec (str "key") (str "$1$abcdefghij").
Proof.
  exists {| len := 1; h := []; buf := replicate 64 5 |}.
  apply (md5crypt_computes {| len := 1; h := []; buf := replicate 64 5 |} {| len := 0; h := []; buf := replicate 64 0 |}); done.
Defined.

(** [__crypt_sha256], [__crypt_sha512] and [__crypt_md5] return ["*"] where the
    specification has no result, and never a string other than ["*"] and the
    specified one. *)
Theorem crypt_fails_closed (s s' : ctx) key setting :
  (forall a, length (buf s) = @block (hash a) -> Forall char setting -> Z.of_nat (length setting) < 2 ^ 62 ->
    match sha_crypt_spec a key setting with
    | Some out => crypt_sha a s s' key setting = out \/ crypt_sha a s s' key setting = str "*"
    | None => crypt_sha a s s' key setting = str "*"
    end) /\
  (length (buf s) = 64%nat ->
    match md5crypt_spec key setting with
    | Some out => crypt_md5 s s' key setting = out \/ crypt_md5 s s' key setting = str "*"
    | None => crypt_md5 s s' key setting = str "*"
    end).
Proof.
  split.
  - intros a Hb Hc Hl. unfold crypt_sha. rewrite sha_crypt_ok by done. destruct (sha_crypt_spec a key setting); [|done].
    case_bool_decide; [by left|by right].
  - intros Hb. unfold crypt_md5. rewrite md5crypt_ok by done. destruct (md5crypt_spec key setting); [|done].
    case_bool_decide; [by left|by right].
Qed.

(** Settings that are rejected. *)
Example rejected : Forall (fun st => read_setting SHA256 st = None)
  [str "$6$salt"; str "$5$rounds=$salt"; str "$5$rounds=5000"; str "$5$rounds= 5000$s"; str "$5$rounds=99999999$s"; str "$5$a:b$"].
Proof. repeat constructor; by vm_compute. Qed.

Example accepted :
  read_setting SHA256 (str "$5$rounds=007$saltsaltsaltsaltsalt") = Some (Some 1000, str "saltsaltsaltsalt") /\
  read_setting SHA512 (str "$6$") = Some (None, []).
Proof. split; by vm_compute. Qed.
