(* ===== verification/Stdio.v ===== *)
(** * Buffered streams ([internal/stdio_impl.h], [stdio/__towrite.c], [stdio/fwrite.c], ...)

    A [FILE] is the record of the code without its lock: the buffer is a piece of
    memory of its own, pointers are addresses and a null pointer is 0.  What is
    behind the callbacks [f->write] and [f->read] is a device of some type [W]; the
    class [Writer] says what a write callback promises, and the theorems about the
    stream operations hold for every device that keeps the promise.  An operation
    returns [None] when it would touch memory outside the buffer.  The lock of a
    stream ([FLOCK]) makes an operation atomic and is left out. *)
From S2P Require Import Prelude Mem.

Record FILE := {
  flags : Z; mode : Z;
  rpos : Z; rend : Z;
  wpos : Z; wbase : Z; wend : Z;
  buf : Z; buf_size : Z; lbf : Z;
  data : mem;                     (* the memory the buffer is in *)
}.

Definition F_PERM : Z := 1.
Definition F_NORD : Z := 4.
Definition F_NOWR : Z := 8.
Definition F_EOF : Z := 16.
Definition F_ERR : Z := 32.
Definition F_SVB : Z := 64.
Definition F_APP : Z := 128.
Definition UNGET : Z := 8.
Definition EOF : Z := -1.

Definition has (f : FILE) (b : Z) : bool := nz (Z.land (flags f) b).
Definition set_flags (f : FILE) (fl : Z) : FILE :=
  {| flags := fl; mode := mode f; rpos := rpos f; rend := rend f; wpos := wpos f; wbase := wbase f; wend := wend f;
     buf := buf f; buf_size := buf_size f; lbf := lbf f; data := data f |}.
Definition raise (f : FILE) (b : Z) : FILE := set_flags f (Z.lor (flags f) b).
Definition set_mode (f : FILE) (x : Z) : FILE :=
  {| flags := flags f; mode := x; rpos := rpos f; rend := rend f; wpos := wpos f; wbase := wbase f; wend := wend f;
     buf := buf f; buf_size := buf_size f; lbf := lbf f; data := data f |}.
Definition set_read (f : FILE) (p e : Z) : FILE :=
  {| flags := flags f; mode := mode f; rpos := p; rend := e; wpos := wpos f; wbase := wbase f; wend := wend f;
     buf := buf f; buf_size := buf_size f; lbf := lbf f; data := data f |}.
Definition set_write (f : FILE) (b p e : Z) : FILE :=
  {| flags := flags f; mode := mode f; rpos := rpos f; rend := rend f; wbase := b; wpos := p; wend := e;
     buf := buf f; buf_size := buf_size f; lbf := lbf f; data := data f |}.
Definition set_lbf (f : FILE) (x : Z) : FILE :=
  {| flags := flags f; mode := mode f; rpos := rpos f; rend := rend f; wpos := wpos f; wbase := wbase f; wend := wend f;
     buf := buf f; buf_size := buf_size f; lbf := x; data := data f |}.
Definition set_buf (f : FILE) (b n : Z) : FILE :=
  {| flags := flags f; mode := mode f; rpos := rpos f; rend := rend f; wpos := wpos f; wbase := wbase f; wend := wend f;
     buf := b; buf_size := n; lbf := lbf f; data := data f |}.
Definition set_data (f : FILE) (m : mem) : FILE :=
  {| flags := flags f; mode := mode f; rpos := rpos f; rend := rend f; wpos := wpos f; wbase := wbase f; wend := wend f;
     buf := buf f; buf_size := buf_size f; lbf := lbf f; data := m |}.

(** [f->mode |= f->mode-1] *)
Definition touch_mode (f : FILE) : FILE := set_mode f (swrap 8 (Z.lor (mode f) (mode f - 1))).

(** The bytes between two pointers into the buffer, and [memcpy(p, s, l)] into it. *)
Definition between (f : FILE) (p q : Z) : list Z := bytes_of (data f) p (q - p).
Definition put (f : FILE) (p : Z) (s : list Z) : option FILE :=
  if bool_decide (buf f <= p) && bool_decide (p + Z.of_nat (length s) <= buf f + buf_size f) || bool_decide (s = [])
  then Some (set_data f (write_bytes (data f) p s)) else None.

(** [memcpy(f->wpos, s, l); f->wpos += l;] *)
Definition append (f : FILE) (s : list Z) : option FILE :=
  f ← put f (wpos f) s;
  Some (set_write f (wbase f) (wpos f + Z.of_nat (length s)) (wend f)).

Definition pending (f : FILE) : list Z := between f (wbase f) (wpos f).
Definition unread (f : FILE) : list Z := between f (rpos f) (rend f).

(** [__towrite]: [true] on failure. *)
Definition towrite (f : FILE) : FILE * bool :=
  let f := touch_mode f in
  if has f F_NOWR then (raise f F_ERR, true)
  else
    let f := set_read f 0 0 in
    (set_write f (buf f) (buf f) (buf f + buf_size f), false).

(** What stands behind a stream for writing: [f->write(f, s, l)], on the bytes of [s]. *)
Class Writer (W : Type) := write : W -> FILE -> list Z -> option (W * FILE * Z).

Section writing.
Context {W : Type} `{Writer W}.

(** [for (i=l; i && s[i-1] != '\n'; i--);] *)
Fixpoint after_newline (i : nat) (s : list Z) : nat :=
  match i with
  | O => O
  | S j => if s !!! j =? 10 then i else after_newline j s
  end.

Definition fwritex (w : W) (s : list Z) (f : FILE) : option (W * FILE * Z) :=
  let l := Z.of_nat (length s) in
  let '(f, bad) := if wend f =? 0 then towrite f else (f, false) in
  if bad then Some (w, f, 0)
  else if wend f - wpos f <? l then write w f s
  else
    let i := if 0 <=? lbf f then after_newline (length s) s else O in
    '(w, f, n) ← (if (0 <? i)%nat then write w f (take i s) else Some (w, f, 0));
    if n <? Z.of_nat i then Some (w, f, n)
    else
      let s := drop i s in
      f ← append f s;
      Some (w, f, l).

(** The result of [fwrite] for [size] times [nmemb] bytes. *)
Definition fwrite (w : W) (s : list Z) (size nmemb : Z) (f : FILE) : option (W * FILE * Z) :=
  let l := u64 (size * nmemb) in
  let nmemb := if size =? 0 then 0 else nmemb in
  '(w, f, k) ← fwritex w (take (Z.to_nat l) s) f;
  if k =? l then Some (w, f, nmemb) else if size =? 0 then None else Some (w, f, k / size).

Definition overflow (w : W) (f : FILE) (c : Z) : option (W * FILE * Z) :=
  let c := u8 c in
  let '(f, bad) := if wend f =? 0 then towrite f else (f, false) in
  if bad then Some (w, f, EOF)
  else if (wpos f <? wend f) && negb (c =? lbf f) then
    f ← append f [c];
    Some (w, f, c)
  else
    '(w, f, n) ← write w f [c];
    Some (w, f, if n =? 1 then c else EOF).

Definition putc_unlocked (w : W) (c : Z) (f : FILE) : option (W * FILE * Z) :=
  if negb (u8 c =? lbf f) && (wpos f <? wend f) then
    f ← append f [u8 c];
    Some (w, f, u8 c)
  else overflow w f c.

Definition fputc (w : W) (c : Z) (f : FILE) := putc_unlocked w c f.
Definition putc (w : W) (c : Z) (f : FILE) := putc_unlocked w c f.

Definition fputs (w : W) (s : list Z) (f : FILE) : option (W * FILE * Z) :=
  let l := Z.of_nat (length s) in
  '(w, f, n) ← fwrite w s 1 l f;
  Some (w, f, b2z (n =? l) - 1).

Definition puts (w : W) (s : list Z) (stdout : FILE) : option (W * FILE * Z) :=
  '(w, stdout, n) ← fputs w s stdout;
  if n <? 0 then Some (w, stdout, -1)
  else
    '(w, stdout, c) ← putc_unlocked w 10 stdout;
    Some (w, stdout, - b2z (c <? 0)).

(** [fflush] of one stream; [seek w f off whence] is the callback [f->seek]. *)
Definition fflush (seek : W -> FILE -> Z -> Z -> W * FILE * Z) (w : W) (f : FILE) : option (W * FILE * Z) :=
  '(w, f, bad) ← (if wbase f <? wpos f then '(w, f, _) ← write w f []; Some (w, f, wpos f =? 0) else Some (w, f, false));
  if (bad : bool) then Some (w, f, EOF)
  else
    let '(w, f, _) := if rpos f <? rend f then seek w f (rpos f - rend f) 1 else (w, f, 0) in
    let f := set_read (set_write f 0 0 0) 0 0 in
    Some (w, f, 0).
End writing.

(** ** What a device promises *)

Definition buffer_ok (f : FILE) : Prop :=
  UNGET < buf f /\ 0 <= buf_size f /\ mapped (data f) (buf f) (buf_size f) /\ buf f + buf_size f < 2 ^ 63.

(** A stream in write mode, and one that is not (or no longer, after an error). *)
Definition writing (f : FILE) : Prop := wbase f = buf f /\ buf f <= wpos f <= wend f /\ wend f = buf f + buf_size f.
Definition idle (f : FILE) : Prop := wbase f = 0 /\ wpos f = 0 /\ wend f = 0.

(** What a write callback may not change. *)
Definition setup (f : FILE) := (buf f, buf_size f, data f, mode f, rpos f, rend f).

(** [sent w d]: the device [w] has received the bytes [d].  A write sends what is pending
    and then its argument; when it fails, which not every device can, it leaves an error
    on the stream and has sent a part of that, of which it reports the bytes of its
    argument.  A stream that has failed can still be asked to write nothing. *)
Class WriterLaws (W : Type) `{Writer W} := {
  sent : W -> list Z -> Prop;
  can_fail : Prop;
  write_law w f s d : buffer_ok f -> writing f -> sent w d ->
    exists w' f' n, write w f s = Some (w', f', n) /\ setup f' = setup f /\
      ((n = Z.of_nat (length s) /\ writing f' /\ pending f' = [] /\ flags f' = flags f /\ sent w' (d ++ pending f ++ s)) \/
       (can_fail /\ exists k, idle f' /\ flags f' = Z.lor (flags f) F_ERR /\ (k <= length (pending f ++ s))%nat /\
          sent w' (d ++ take k (pending f ++ s)) /\ n = Z.max 0 (Z.of_nat k - Z.of_nat (length (pending f))) /\
          (s <> [] -> n < Z.of_nat (length s))));
  write_nothing w f d : buffer_ok f -> idle f -> sent w d ->
    exists w' f' n, write w f [] = Some (w', f', n) /\ setup f' = setup f /\ sent w' d /\
      (flags f' = flags f /\ wpos f' <> 0 \/ can_fail /\ flags f' = Z.lor (flags f) F_ERR);
}.
Arguments can_fail W {_ _}.

(** The stream seen from the program: [l] is everything it has written. *)
Definition stream {W} `{WriterLaws W} (w : W) (f : FILE) (l : list Z) : Prop :=
  buffer_ok f /\ (writing f \/ idle f) /\ exists d, sent w d /\ l = d ++ pending f.

Lemma pending_idle f : idle f -> pending f = [].
Proof. intros (Hb & Hp & _). unfold pending, between. by rewrite Hb, Hp, bytes_of_nonpos by lia. Qed.

Lemma length_between f p q : p <= q -> Z.of_nat (length (between f p q)) = q - p.
Proof. intros. unfold between. rewrite length_bytes_of; lia. Qed.

Lemma has_raise f b : 0 < b -> has (raise f b) b = true.
Proof.
  intros Hb. unfold has. cbn [flags raise set_flags]. apply nz_true. intros E.
  assert (Z.land (Z.lor (flags f) b) b = b) as E' by (rewrite Z.land_comm; apply Z.bits_inj'; intros n _; rewrite Z.land_spec, Z.lor_spec; by destruct (Z.testbit (flags f) n), (Z.testbit b n)).
  lia.
Qed.

Lemma put_ok f p s : buffer_ok f -> buf f <= p -> p + Z.of_nat (length s) <= buf f + buf_size f ->
  put f p s = Some (set_data f (write_bytes (data f) p s)).
Proof. intros. unfold put. by rewrite !bool_decide_true by done. Qed.

Lemma buffer_ok_data f p s : buffer_ok f -> buffer_ok (set_data f (write_bytes (data f) p s)).
Proof. intros (H1 & H2 & H3 & H4). split; [done|]. split; [done|]. split; [|done]. by apply mapped_write. Qed.

Lemma setup_buffer f f' : setup f' = setup f -> buffer_ok f -> buffer_ok f'.
Proof. unfold setup, buffer_ok. intros [= -> -> -> _ _ _]. done. Qed.

(** Bytes put at [wpos] become pending. *)
Lemma pending_put f s : writing f -> wpos f + Z.of_nat (length s) <= wend f ->
  let f' := set_data f (write_bytes (data f) (wpos f) s) in
  let f' := set_write f' (wbase f') (wpos f' + Z.of_nat (length s)) (wend f') in
  writing f' /\ pending f' = pending f ++ s.
Proof.
  intros (Hb & Hp & He) Hs. cbn. split; [split_and!; cbn; lia|]. unfold pending, between. cbn [data wbase wpos set_write set_data].
  replace (wpos f + Z.of_nat (length s) - wbase f) with ((wpos f - wbase f) + Z.of_nat (length s)) by lia.
  rewrite bytes_of_app by lia. f_equal.
  - apply bytes_of_ext. intros x Hx. apply rd_write_out. lia.
  - replace (wbase f + (wpos f - wbase f)) with (wpos f) by lia. apply bytes_of_write.
Qed.

(** ** The stream operations over any device *)
Section streams.
Context {W : Type} `{WriterLaws W}.

(** What a failed operation leaves: an error, an empty buffer, and a part of what the
    stream should hold. *)
Definition failed (w : W) (f f' : FILE) (l : list Z) : Prop :=
  can_fail W /\ flags f' = Z.lor (flags f) F_ERR /\ idle f' /\ exists k, stream w f' (take k l).

Definition accepted (w : W) (f f' : FILE) (l : list Z) : Prop := flags f' = flags f /\ writing f' /\ stream w f' l.

(** The write callback, in these terms. *)
Lemma write_stream w f s l : writing f -> stream w f l ->
  exists w' f' n, write w f s = Some (w', f', n) /\ buf_size f' = buf_size f /\
    ((n = Z.of_nat (length s) /\ accepted w' f f' (l ++ s) /\ pending f' = []) \/
     (failed w' f f' (l ++ s) /\ 0 <= n /\ (s <> [] -> n < Z.of_nat (length s)))).
Proof.
  intros Hw (Hbuf & _ & d & Hd & ->). destruct (write_law w f s d Hbuf Hw Hd) as (w' & f' & n & E & Hs & Hcase).
  exists w', f', n. split; [done|]. assert (Hb' : buffer_ok f') by (by eapply setup_buffer).
  split; [by unfold setup in Hs; injection Hs|].
  destruct Hcase as [(Hn & Hw' & Hp & Hfl & Hsent) | (Hcan & k & Hi & Hfl & Hk & Hsent & Hn & Hlt)]; [left|right].
  - split; [done|]. split; [|done]. split; [done|]. split; [done|]. split; [done|]. split; [by left|].
    exists (d ++ pending f ++ s). by rewrite Hp, app_nil_r, <- app_assoc.
  - split; [|split; [lia|done]]. split; [done|]. split; [done|]. split; [done|]. exists (length d + k)%nat. split; [done|]. split; [by right|].
    exists (d ++ take k (pending f ++ s)). split; [done|]. rewrite (pending_idle _ Hi), app_nil_r, <- app_assoc.
    by rewrite take_app_add.
Qed.

(** Bytes that fit are put in the buffer. *)
Lemma append_ok w f s l : writing f -> stream w f l -> Z.of_nat (length s) <= wend f - wpos f ->
  exists f', append f s = Some f' /\ accepted w f f' (l ++ s) /\ lbf f' = lbf f /\ pending f' = pending f ++ s.
Proof.
  intros Hw (Hbuf & _ & d & Hd & ->) Hs. pose proof Hw as (Hb & Hp & He). unfold append.
  rewrite put_ok by (done || lia). cbn [mbind option_bind]. eexists. split; [done|].
  destruct (pending_put f s Hw) as [Hw' Hpe]; [lia|]. cbv zeta in Hw', Hpe.
  split; [|done]. split; [done|]. split; [done|]. split; [by apply (buffer_ok_data f (wpos f) s)|]. split; [by left|].
  exists d. split; [done|]. rewrite Hpe. by rewrite app_assoc.
Qed.

Lemma towrite_ok w f l : stream w f l ->
  if has f F_NOWR then (towrite f).2 = true /\ flags (towrite f).1 = Z.lor (flags f) F_ERR /\ stream w (towrite f).1 l
  else idle f -> (towrite f).2 = false /\ accepted w f (towrite f).1 l /\ pending (towrite f).1 = [] /\ lbf (towrite f).1 = lbf f.
Proof.
  intros (Hbuf & Hm & d & Hd & ->). pose proof Hbuf as (H1 & H2 & H3 & H4). unfold towrite. change (has (touch_mode f) F_NOWR) with (has f F_NOWR).
  destruct (has f F_NOWR); [split; [done|split; [done|split; [done|split; [exact Hm|by exists d]]]]|].
  intros Hi. split; [done|]. assert (Hp : pending (towrite (set_flags f 0)).1 = []) by (unfold pending, between; cbn; by rewrite Z.sub_diag, bytes_of_nil).
  split; [|split; [exact Hp|done]]. split; [done|]. assert (Hw : writing (set_write (set_read (touch_mode f) 0 0) (buf f) (buf f) (buf f + buf_size f))).
  { split_and!; cbn; lia. }
  split; [exact Hw|]. split; [done|]. split; [by left|]. exists d. split; [done|]. rewrite (pending_idle f Hi).
  f_equal. unfold pending, between. cbn. by rewrite Z.sub_diag, bytes_of_nil.
Qed.

Lemma wend_zero f : buffer_ok f -> (writing f -> wend f <> 0) /\ (wend f = 0 -> writing f \/ idle f -> idle f).
Proof. intros (H1 & H2 & _). unfold UNGET in *. split; [intros (Hb & Hp & He); lia|]. intros E [(Hb & Hp & He)|]; [lia|done]. Qed.

(** The stream ready for writing, as all the operations make it. *)
Lemma ready_ok w f l : stream w f l -> has f F_NOWR = false ->
  exists f', (if wend f =? 0 then towrite f else (f, false)) = (f', false) /\
    accepted w f f' l /\ lbf f' = lbf f /\ pending f' = pending f.
Proof.
  intros Hs Hn. pose proof (towrite_ok w f l Hs) as Ht. rewrite Hn in Ht. destruct Hs as (Hb & Hm & d & Hd & ->).
  destruct (wend_zero f Hb) as [Hz Hz2]. destruct (Z.eqb_spec (wend f) 0) as [E|E].
  - specialize (Hz2 E Hm). destruct (Ht Hz2) as (Hf & Ha & Hp & Hl). destruct (towrite f) as [f' b]. cbn [fst snd] in *. subst b.
    exists f'. split_and!; try done. by rewrite (pending_idle f Hz2).
  - exists f. destruct Hm as [Hw|(_ & _ & E')]; [|done]. split; [done|]. split; [|done].
    split; [done|]. split; [done|]. split; [done|]. split; [by left|]. by exists d.
Qed.

Lemma not_readonly f f' : flags f' = flags f -> has f' F_NOWR = has f F_NOWR.
Proof. unfold has. by intros ->. Qed.

Lemma after_newline_le i s : (after_newline i s <= i)%nat.
Proof. induction i as [|i IH]; [done|]. cbn [after_newline]. destruct (_ =? 10); lia. Qed.

(** No newline after the last one. *)
Lemma after_newline_rest i s : (i <= length s)%nat -> 10 ∉ drop (after_newline i s) (take i s).
Proof.
  induction i as [|i IH]; intros Hi; [rewrite take_0, drop_nil; by intros ?%elem_of_nil|]. cbn [after_newline].
  destruct (Z.eqb_spec (s !!! i) 10) as [E|E]; [rewrite drop_ge by (rewrite length_take; lia); by intros ?%elem_of_nil|].
  destruct (lookup_lt_is_Some_2 s i ltac:(lia)) as [x Hx]. rewrite (take_S_r _ _ _ Hx).
  rewrite drop_app_le by (rewrite length_take; pose proof (after_newline_le i s); lia).
  rewrite elem_of_app, elem_of_cons. rewrite list_lookup_total_alt, Hx in E. simpl in E.
  intros [Hin|[?|?%elem_of_nil]]; [by apply IH in Hin; [|lia]|congruence|done].
Qed.

(** [__fwritex] appends its argument to what the stream holds, or fails with an error on
    the stream, which then holds a part of that; on a line-buffered stream no complete
    line stays in the buffer. *)
Lemma fwritex_ok w s f l : stream w f l -> has f F_NOWR = false ->
  exists w' f' n, fwritex w s f = Some (w', f', n) /\
    ((n = Z.of_nat (length s) /\ accepted w' f f' (l ++ s) /\
      (0 <= lbf f -> 10 ∉ pending f -> 10 ∉ pending f')) \/
     (n < Z.of_nat (length s) /\ failed w' f f' (l ++ s))).
Proof.
  intros Hs Hn. unfold fwritex. destruct (ready_ok w f l Hs Hn) as (f1 & -> & (Hfl1 & Hw1 & Hs1) & Hlbf & Hp1). cbv iota.
  assert (Hfail : forall w' f2 l', failed w' f1 f2 l' -> failed w' f f2 l') by (intros ? ? ? (? & ? & ?); split; [done|split; [congruence|done]]).
  destruct (Z.ltb_spec (wend f1 - wpos f1) (Z.of_nat (length s))) as [Hbig|Hfits].
  - destruct (write_stream w f1 s l Hw1 Hs1) as (w' & f2 & n & E & _ & [(Hn' & (Hfl & Ha) & Hp)|(Hf & Hn0 & Hlt)]); rewrite E; exists w', f2, n; (split; [done|]).
    + left. split; [done|]. split; [split; [congruence|done]|]. intros _ _. rewrite Hp. by intros ?%elem_of_nil.
    + right. split; [|by apply Hfail]. apply Hlt. intros ->. destruct Hw1 as (_ & ? & _). simpl in Hbig. lia.
  - set (i := if 0 <=? lbf f1 then _ else O).
    assert (Hi : (i <= length s)%nat) by (subst i; destruct (0 <=? lbf f1); [apply after_newline_le|lia]).
    assert (Hrest : 0 <= lbf f -> 10 ∉ drop i s).
    { intros Hl. subst i. rewrite Hlbf. rewrite (proj2 (Z.leb_le 0 (lbf f))) by done.
      pose proof (after_newline_rest (length s) s ltac:(lia)) as H10. by rewrite take_ge in H10 by lia. }
    clearbody i. destruct (Nat.ltb_spec 0 i) as [Hpos|Hz].
    + destruct (write_stream w f1 (take i s) l Hw1 Hs1) as (w' & f2 & n & E & Hsz & [(Hn' & (Hfl & Hw2 & Hs2) & Hp)|(Hf & Hn0 & Hlt)]); rewrite E; cbn [mbind option_bind].
      * rewrite length_take, Nat.min_l in Hn' by done. destruct (Z.ltb_spec n (Z.of_nat i)); [lia|].
        destruct (append_ok w' f2 (drop i s) (l ++ take i s) Hw2 Hs2) as (f3 & Ea & (Hfl3 & Hw3 & Hs3) & _ & Hp3).
        { assert (Hpe : Z.of_nat (length (pending f2)) = wpos f2 - wbase f2) by (apply length_between; destruct Hw2; lia). rewrite Hp in Hpe. simpl in Hpe.
          destruct Hw2 as (? & ? & ?), Hw1 as (? & ? & ?). rewrite length_drop. lia. }
        rewrite Ea. cbn [mbind option_bind]. exists w', f3, (Z.of_nat (length s)). split; [done|]. left. split; [done|].
        rewrite <- app_assoc, take_drop in Hs3. split; [split; [congruence|done]|]. rewrite Hp3, Hp. intros Hl _. by apply Hrest.
      * assert (Hni : n < Z.of_nat i).
        { rewrite <- (Nat.min_l i (length s)), <- length_take by done. apply Hlt. intros E'. apply (f_equal length) in E'. rewrite length_take in E'. simpl in E'. lia. }
        rewrite (proj2 (Z.ltb_lt n (Z.of_nat i))) by done. exists w', f2, n. split; [done|]. right. split; [lia|].
        destruct Hf as (Hcan & Hfl & Hid & k & Hk). split; [done|]. split; [congruence|]. split; [done|]. exists (k `min` (length l + i))%nat.
        replace (take (k `min` (length l + i)) (l ++ s)) with (take k (l ++ take i s)); [done|].
        rewrite <- take_take, take_app_add. done.
    + assert (i = O) as -> by lia. cbn [mbind option_bind]. change (0 <? Z.of_nat 0) with false. cbv iota. rewrite drop_0 in *.
      destruct (append_ok w f1 s l Hw1 Hs1 Hfits) as (f2 & Ea & (Hfl & Hw2 & Hs2) & _ & Hp2). rewrite Ea. cbn [mbind option_bind].
      exists w, f2, (Z.of_nat (length s)). split; [done|]. left. split; [done|]. split; [split; [congruence|done]|].
      intros Hl Hnp. rewrite Hp2, Hp1. rewrite elem_of_app. intros [?|Hin]; [done|]. by apply Hrest in Hin.
Qed.
End streams.

Section output.
Context {W : Type} `{WriterLaws W}.

Definition outcome (w' : W) (f f' : FILE) (l l' : list Z) (ok : bool) : Prop :=
  if ok then accepted w' f f' l' else failed w' f f' l'.

Lemma overflow_ok w f c l : stream w f l -> has f F_NOWR = false ->
  exists w' f' r, overflow w f c = Some (w', f', r) /\
    ((r = u8 c /\ accepted w' f f' (l ++ [u8 c])) \/ (r = EOF /\ failed w' f f' (l ++ [u8 c]))).
Proof.
  intros Hs Hn. unfold overflow. destruct (ready_ok w f l Hs Hn) as (f1 & -> & (Hfl1 & Hw1 & Hs1) & Hlbf & _). cbv iota.
  destruct (Z.ltb_spec (wpos f1) (wend f1)) as [Hroom|Hfull]; [destruct (Z.eqb_spec (u8 c) (lbf f1)); cbn [andb negb]|cbn [andb]].
  2:{ destruct (append_ok w f1 [u8 c] l Hw1 Hs1) as (f2 & Ea & (Hfl & Ha) & _ & _); [simpl; lia|]. rewrite Ea. cbn [mbind option_bind].
      exists w, f2, (u8 c). split; [done|]. left. split; [done|]. split; [congruence|done]. }
  all: destruct (write_stream w f1 [u8 c] l Hw1 Hs1) as (w' & f2 & n & E & _ & [(Hn' & (Hfl & Ha) & _)|((Hcan & Hfl & Hf) & Hn0 & Hlt)]); rewrite E; cbn [mbind option_bind].
  - exists w', f2, (u8 c). rewrite Hn'. split; [done|]. left. split; [done|]. split; [congruence|done].
  - exists w', f2, EOF. specialize (Hlt ltac:(done)). simpl in Hlt. destruct (Z.eqb_spec n 1); [lia|]. split; [done|]. right. split; [done|]. split; [done|]. split; [congruence|done].
  - exists w', f2, (u8 c). rewrite Hn'. split; [done|]. left. split; [done|]. split; [congruence|done].
  - exists w', f2, EOF. specialize (Hlt ltac:(done)). simpl in Hlt. destruct (Z.eqb_spec n 1); [lia|]. split; [done|]. right. split; [done|]. split; [done|]. split; [congruence|done].
Qed.

Lemma putc_ok w f c l : stream w f l -> has f F_NOWR = false ->
  exists w' f' r, putc_unlocked w c f = Some (w', f', r) /\
    ((r = u8 c /\ accepted w' f f' (l ++ [u8 c])) \/ (r = EOF /\ failed w' f f' (l ++ [u8 c]))).
Proof.
  intros Hs Hn. unfold putc_unlocked. destruct (negb (u8 c =? lbf f)) eqn:El; [|by apply overflow_ok].
  destruct (Z.ltb_spec (wpos f) (wend f)) as [Hroom|]; [|by apply overflow_ok]. cbn [andb].
  assert (Hw : writing f) by (destruct Hs as (_ & [?|(Hb & Hp & He)] & _); [done|lia]).
  destruct (append_ok w f [u8 c] l Hw Hs) as (f2 & Ea & Ha & _ & _); [simpl; lia|]. rewrite Ea. cbn [mbind option_bind].
  exists w, f2, (u8 c). split; [done|]. by left.
Qed.

Lemma fwrite_ok w s size nmemb f l : stream w f l -> has f F_NOWR = false -> 0 < size -> 0 <= nmemb ->
  Z.of_nat (length s) = size * nmemb -> size * nmemb < 2 ^ 64 ->
  exists w' f' n, fwrite w s size nmemb f = Some (w', f', n) /\
    ((n = nmemb /\ accepted w' f f' (l ++ s)) \/ (n < nmemb /\ failed w' f f' (l ++ s))).
Proof.
  intros Hs Hn Hsz Hnm Hl Hmax. unfold fwrite. rewrite wrap_small by lia. rewrite take_ge by lia.
  destruct (fwritex_ok w s f l Hs Hn) as (w' & f' & k & E & Hcase). rewrite E. cbn [mbind option_bind].
  destruct (Z.eqb_spec size 0); [lia|].
  destruct Hcase as [(Hk & Ha & _)|(Hk & Hf)].
  - rewrite Hk, Hl, Z.eqb_refl. exists w', f', nmemb. split; [done|]. by left.
  - destruct (Z.eqb_spec k (size * nmemb)); [lia|]. exists w', f', (k / size). split; [done|]. right. split; [|done].
    apply Z.div_lt_upper_bound; lia.
Qed.

Lemma fputs_ok w s f l : stream w f l -> has f F_NOWR = false -> Z.of_nat (length s) < 2 ^ 64 ->
  exists w' f' r, fputs w s f = Some (w', f', r) /\
    ((r = 0 /\ accepted w' f f' (l ++ s)) \/ (r = EOF /\ failed w' f f' (l ++ s))).
Proof.
  intros Hs Hn Hl. unfold fputs.
  destruct (fwrite_ok w s 1 (Z.of_nat (length s)) f l) as (w' & f' & n & E & [[-> Ha]|[Hlt Hf]]); try done || lia; rewrite E; cbn [mbind option_bind].
  - rewrite Z.eqb_refl. exists w', f', 0. split; [done|]. by left.
  - destruct (Z.eqb_spec n (Z.of_nat (length s))); [lia|]. exists w', f', EOF. split; [done|]. by right.
Qed.

Lemma failed_app w f f' l l2 : failed w f f' l -> failed w f f' (l ++ l2).
Proof.
  intros (Hcan & Hfl & Hi & k & Hk). split; [done|]. split; [done|]. split; [done|]. exists (k `min` length l)%nat.
  replace (take (k `min` length l) (l ++ l2)) with (take k l); [done|]. rewrite take_app_le by lia.
  destruct (Nat.le_ge_cases k (length l)); [by rewrite Nat.min_l|rewrite Nat.min_r, !take_ge by lia; done].
Qed.

(** C22. Writing appends: [fwrite], [fputs], [puts] and [fputc] (and [putc]) either return success and
    the stream holds what it held followed by the new bytes, or they return failure with
    an error on the stream, which then holds a part of that. No byte is lost, repeated
    or reordered, whatever the buffering mode, the size of the buffer and the way the
    device takes the bytes, and nothing outside the buffer is touched. *)
Theorem output_appends w f l : stream w f l -> has f F_NOWR = false ->
  (forall s size nmemb, 0 < size -> 0 <= nmemb -> Z.of_nat (length s) = size * nmemb -> size * nmemb < 2 ^ 64 ->
    exists w' f' n, fwrite w s size nmemb f = Some (w', f', n) /\ n <= nmemb /\ outcome w' f f' l (l ++ s) (n =? nmemb)) /\
  (forall s, Z.of_nat (length s) < 2 ^ 64 ->
    exists w' f' r, fputs w s f = Some (w', f', r) /\ (r = 0 \/ r = EOF) /\ outcome w' f f' l (l ++ s) (r =? 0)) /\
  (forall s, Z.of_nat (length s) < 2 ^ 64 ->
    exists w' f' r, puts w s f = Some (w', f', r) /\ (r = 0 \/ r = -1) /\ outcome w' f f' l (l ++ s ++ [10]) (r =? 0)) /\
  (forall c, exists w' f' r, fputc w c f = Some (w', f', r) /\ (r = u8 c \/ r = EOF) /\ outcome w' f f' l (l ++ [u8 c]) (r =? u8 c)).
Proof.
  intros Hs Hn. split; [|split; [|split]].
  - intros s size nmemb ? ? ? ?. destruct (fwrite_ok w s size nmemb f l) as (w' & f' & n & E & [[-> Ha]|[Hlt Hf]]); try done.
    + exists w', f', nmemb. rewrite Z.eqb_refl. by split_and!.
    + exists w', f', n. destruct (Z.eqb_spec n nmemb); [lia|]. split_and!; [done|lia|done].
  - intros s Hl. destruct (fputs_ok w s f l) as (w' & f' & r & E & [[-> Ha]|[-> Hf]]); try done; eexists _, _, _.
    + by split; [|split; [left|]].
    + by split; [|split; [right|]].
  - intros s Hl. unfold puts. destruct (fputs_ok w s f l) as (w1 & f1 & r & E & [[-> (Hfl & _ & Hs1)]|[-> Hf]]); try done; rewrite E; cbn [mbind option_bind].
    + change (0 <? 0) with false. cbv iota. destruct (putc_ok w1 f1 10 (l ++ s)) as (w' & f' & c & E2 & [[-> (Hfl2 & Hw2 & Ha)]|[-> (Hcan & Hfl2 & Hf)]]);
        [done|by rewrite (not_readonly f f1)|..]; rewrite E2; cbn [mbind option_bind]; rewrite <- app_assoc in *.
      * exists w', f', 0. split; [done|]. split; [by left|]. split; [congruence|done].
      * exists w', f', (-1). split; [done|]. split; [by right|]. split; [done|]. split; [congruence|done].
    + change (EOF <? 0) with true. cbv iota. exists w1, f1, (-1). split; [done|]. split; [by right|].
      rewrite app_assoc. by apply failed_app.
  - intros c. destruct (putc_ok w f c l) as (w' & f' & r & E & [[-> Ha]|[-> Hf]]); try done.
    + exists w', f', (u8 c). rewrite Z.eqb_refl. by split_and!; [|left|].
    + exists w', f', EOF. split_and!; [done|by right|]. unfold EOF. pose proof (wrap_range 8 c). by destruct (Z.eqb_spec (-1) (u8 c)); [lia|].
Qed.

(** The callback of a position change keeps the stream. *)
Definition seek_keeps (seek : W -> FILE -> Z -> Z -> W * FILE * Z) : Prop :=
  forall w f off whence d, sent w d -> let '(w', f', _) := seek w f off whence in
    sent w' d /\ setup f' = setup f /\ flags f' = flags f.

(** The end of [fflush], once the device has everything. *)
Lemma finish_flush seek w f f0 l : seek_keeps seek -> buffer_ok f -> flags f = flags f0 -> sent w l ->
  exists w' f' r, (let '(w2, f2, _) := if rpos f <? rend f then seek w f (rpos f - rend f) 1 else (w, f, 0) in
    Some (w2, set_read (set_write f2 0 0 0) 0 0, 0)) = Some (w', f', r) /\ idle f' /\
    ((r = 0 /\ flags f' = flags f0 /\ sent w' l /\ stream w' f' l) \/ (r = EOF /\ failed w' f0 f' l)).
Proof.
  intros Hk Hb Hfl Hd.
  assert (Hx : let '(w2, f2, _) := if rpos f <? rend f then seek w f (rpos f - rend f) 1 else (w, f, 0) in
    sent w2 l /\ buffer_ok f2 /\ flags f2 = flags f).
  { destruct (rpos f <? rend f); [|done]. specialize (Hk w f (rpos f - rend f) 1 l Hd).
    destruct (seek _ _ _ _) as [[w2 f2] r]. destruct Hk as (? & Hset & ?). split; [done|]. split; [by eapply setup_buffer|done]. }
  destruct (if rpos f <? rend f then seek w f (rpos f - rend f) 1 else (w, f, 0)) as [[w2 f2] r]. destruct Hx as (Hd2 & Hb2 & Hfl2).
  eexists _, _, _. split; [done|]. split; [done|]. left. split; [done|]. split; [cbn; congruence|]. split; [done|].
  split; [exact Hb2|]. split; [by right|]. exists l. split; [done|]. rewrite pending_idle by done. by rewrite app_nil_r.
Qed.

(** [fflush] returns 0 and everything written is with the device, or it returns [EOF]
    with an error on the stream; in either case nothing is left in the buffer. *)
Theorem fflush_sends seek w f l : stream w f l -> seek_keeps seek ->
  exists w' f' r, fflush seek w f = Some (w', f', r) /\ idle f' /\
    ((r = 0 /\ flags f' = flags f /\ sent w' l /\ stream w' f' l) \/ (r = EOF /\ failed w' f f' l)).
Proof.
  intros Hs Hk. unfold fflush.
  pose proof (fun w1 f1 => finish_flush seek w1 f1 f l Hk) as Hfin.
  pose proof Hs as (Hb & Hm & d & Hd & El).
  destruct (Z.ltb_spec (wbase f) (wpos f)) as [Hp|Hp].
  - assert (Hw : writing f) by (destruct Hm as [?|(? & ? & ?)]; [done|lia]).
    destruct (write_stream w f [] l Hw Hs) as (w1 & f1 & n & E & _ & [(_ & (Hfl & Hw1 & Hs1) & Hpe)|(Hf & _ & _)]); rewrite E; cbn [mbind option_bind].
    + destruct Hw1 as (E1 & E2 & E3). destruct Hs1 as (Hb1 & _ & d1 & Hd1 & El1).
      destruct (Z.eqb_spec (wpos f1) 0) as [E0|E0]; [destruct Hb1; unfold UNGET in *; lia|].
      apply Hfin; [done|done|]. rewrite Hpe, !app_nil_r in El1. by subst.
    + pose proof Hf as (_ & _ & (_ & -> & _) & _). cbn [Z.eqb]. exists w1, f1, EOF. split; [done|]. rewrite app_nil_r in Hf.
      split; [apply Hf|]. by right.
  - cbn [mbind option_bind]. apply Hfin; [done|done|]. assert (Hpe : pending f = []) by (unfold pending, between; apply bytes_of_nonpos; lia).
    by rewrite El, Hpe, app_nil_r.
Qed.
End output.
