(* ===== verification/Stdin.v ===== *)
(** * Reading from buffered streams ([stdio/__toread.c], [__uflow.c], [fread.c], [fgets.c], [ungetc.c])

    The input side of [Stdio]: a stream for reading shows the bytes in its buffer and
    then those the device still has.  The promise of a read callback is the class
    [ReaderLaws]. *)
From S2P Require Import Prelude Mem Stdio.

(** [f->read(f, dst, len)]: the returned value and the bytes stored at [dst]. *)
Class Reader (W : Type) := read : W -> FILE -> Z -> option (W * FILE * Z * list Z).

Section reading.
Context {W : Type} `{Writer W} `{Reader W}.

Definition toread (w : W) (f : FILE) : option (W * FILE * bool) :=
  let f := touch_mode f in
  '(w, f) ← (if wbase f <? wpos f then '(w, f, _) ← write w f []; Some (w, f) else Some (w, f));
  let f := set_write f 0 0 0 in
  if has f F_NORD then Some (w, raise f F_ERR, true)
  else
    let f := set_read f (buf f + buf_size f) (buf f + buf_size f) in
    Some (w, f, has f F_EOF).

Definition uflow (w : W) (f : FILE) : option (W * FILE * Z) :=
  '(w, f, bad) ← toread w f;
  if (bad : bool) then Some (w, f, EOF)
  else
    '(w, f, n, bs) ← read w f 1;
    Some (w, f, if n =? 1 then hd 0 bs else EOF).

Definition getc_unlocked (w : W) (f : FILE) : option (W * FILE * Z) :=
  if rpos f <? rend f then
    c ← load8 (data f) (rpos f);
    Some (w, set_read f (rpos f + 1) (rend f), c)
  else uflow w f.

Definition fgetc (w : W) (f : FILE) := getc_unlocked w f.
Definition getc (w : W) (f : FILE) := getc_unlocked w f.

(** The loop of [fread]: [dest] is what has been stored, [l] the bytes still wanted. *)
Fixpoint fread_loop (fuel : nat) (w : W) (f : FILE) (l : Z) (dest : list Z) : option (W * FILE * Z * list Z) :=
  match fuel with
  | O => None
  | S fuel =>
      if l =? 0 then Some (w, f, l, dest)
      else
        '(w, f, bad) ← toread w f;
        '(w, f, k, bs) ← (if (bad : bool) then Some (w, f, 0, []) else read w f l);
        if u64 (k + 1) <=? 1 then Some (w, f, l, dest)
        else fread_loop fuel w f (l - k) (dest ++ bs)
  end.

Definition fread (w : W) (size nmemb : Z) (f : FILE) : option (W * FILE * Z * list Z) :=
  let len := u64 (size * nmemb) in
  let nmemb := if size =? 0 then 0 else nmemb in
  let f := touch_mode f in
  let k := Z.min (rend f - rpos f) len in
  let dest := if 0 <? rend f - rpos f then between f (rpos f) (rpos f + k) else [] in
  let l := if 0 <? rend f - rpos f then len - k else len in
  let f := if 0 <? rend f - rpos f then set_read f (rpos f + k) (rend f) else f in
  '(w, f, l, dest) ← fread_loop (S (Z.to_nat l)) w f l dest;
  Some (w, f, if l =? 0 then nmemb else (len - l) / size, dest).

Definition ungetc (w : W) (c : Z) (f : FILE) : option (W * FILE * Z) :=
  if c =? EOF then Some (w, f, c)
  else
    '(w, f) ← (if rpos f =? 0 then '(w, f, _) ← toread w f; Some (w, f) else Some (w, f));
    if (rpos f =? 0) || (rpos f <=? buf f - UNGET) then Some (w, f, EOF)
    else
      m ← store8 (data f) (rpos f - 1) c;
      let f := set_read (set_data f m) (rpos f - 1) (rend f) in
      Some (w, set_flags f (Z.land (flags f) (Z.lnot F_EOF)), c).

(** [memchr] for a newline: its index. *)
Fixpoint newline_at (s : list Z) : option nat :=
  match s with [] => None | b :: s => if b =? 10 then Some O else S <$> newline_at s end.

(** The loop of [fgets] with room for [n] more bytes after [p]; the result is the
    string or a null pointer. *)
Fixpoint fgets_loop (fuel : nat) (w : W) (f : FILE) (n : Z) (p : list Z) : option (W * FILE * option (list Z)) :=
  match fuel with
  | O => None
  | S fuel =>
      if n =? 0 then Some (w, f, Some p)
      else
        let u := between f (rpos f) (rend f) in
        let z := newline_at u in
        let k := match z with Some i => Z.of_nat i + 1 | None => rend f - rpos f end in
        let k := Z.min k n in
        let p := p ++ between f (rpos f) (rpos f + k) in
        let f := set_read f (rpos f + k) (rend f) in
        let n := n - k in
        if bool_decide (is_Some z) || (n =? 0) then Some (w, f, Some p)
        else
          '(w, f, c) ← getc_unlocked w f;
          if c <? 0 then Some (w, f, if bool_decide (p = []) || negb (has f F_EOF) then None else Some p)
          else if c =? 10 then Some (w, f, Some (p ++ [c]))
          else fgets_loop fuel w f (n - 1) (p ++ [c])
  end.

Definition fgets (w : W) (n : Z) (f : FILE) : option (W * FILE * option (list Z)) :=
  let n := n - 1 in
  if n <=? 0 then Some (w, touch_mode f, if nz n then None else Some [])
  else fgets_loop (S (Z.to_nat n)) w f n [].
End reading.

(** ** What a device promises *)

Definition input_ok (f : FILE) : Prop :=
  UNGET < buf f /\ 0 <= buf_size f /\ mapped (data f) (buf f - UNGET) (UNGET + buf_size f) /\ mem_ok (data f) /\ idle f /\
  ((rpos f = 0 /\ rend f = 0) \/ (buf f - UNGET <= rpos f <= rend f /\ rend f <= buf f + buf_size f)).

(** A read gives at least one byte, and may leave more in the buffer; or it gives none,
    at the end of the input or on an error, and says so in the flags. *)
Definition ended (f f' : FILE) (l : list Z) : Prop :=
  (l = [] /\ flags f' = Z.lor (flags f) F_EOF) \/ flags f' = Z.lor (flags f) F_ERR.

Class ReaderLaws (W : Type) `{Reader W} := {
  source : W -> list Z -> Prop;
  source_bytes w d : source w d -> Forall is_byte d;
  read_law w f len d : input_ok f -> rpos f = rend f -> 0 < len < 2 ^ 64 - 1 -> source w d ->
    exists w' f' n bs, read w f len = Some (w', f', n, bs) /\ input_ok f' /\
      ((n = Z.of_nat (length bs) /\ 0 < n <= len /\ flags f' = flags f /\ (n < len -> rpos f' = rend f') /\
        exists d', source w' d' /\ d = bs ++ unread f' ++ d') \/
       ((n = 0 \/ n = 2 ^ 64 - 1) /\ bs = [] /\ unread f' = [] /\ source w' d /\ ended f f' d));
}.

(** The stream seen from the program: [l] is everything it can still read. *)
Definition incoming {W} `{ReaderLaws W} (w : W) (f : FILE) (l : list Z) : Prop :=
  input_ok f /\ exists d, source w d /\ l = unread f ++ d.

Lemma unread_bytes f : input_ok f -> Forall is_byte (unread f).
Proof. intros (_ & _ & _ & Hm & _). by apply bytes_of_bytes. Qed.

Lemma unread_empty f : rpos f = rend f -> unread f = [].
Proof. intros E. unfold unread, between. by rewrite E, Z.sub_diag, bytes_of_nil. Qed.

Lemma between_split f p q r : p <= q <= r -> between f p r = between f p q ++ between f q r.
Proof.
  intros Hp. unfold between. replace (r - p) with ((q - p) + (r - q)) by lia. rewrite bytes_of_app by lia.
  do 2 f_equal. lia.
Qed.

Lemma input_advance f p : input_ok f -> rpos f <= p <= rend f -> input_ok (set_read f p (rend f)) /\
  unread f = between f (rpos f) p ++ unread (set_read f p (rend f)).
Proof.
  intros (H1 & H2 & H3 & H4 & H5 & H6) Hp. split; [|by apply between_split].
  split; [done|]. split; [done|]. split; [done|]. split; [done|]. split; [done|]. cbn. lia.
Qed.

Section input.
Context {W : Type} `{Writer W} `{ReaderLaws W}.

Lemma incoming_bytes w f l : incoming w f l -> Forall is_byte l.
Proof. intros (Hi & d & Hd & ->). apply list.Forall_app. split; [by apply unread_bytes|by eapply source_bytes]. Qed.

Lemma advance_incoming w f l p : incoming w f l -> rpos f <= p <= rend f ->
  incoming w (set_read f p (rend f)) (drop (Z.to_nat (p - rpos f)) l) /\
  between f (rpos f) p = take (Z.to_nat (p - rpos f)) l.
Proof.
  intros (Hi & d & Hd & ->) Hp. destruct (input_advance f p Hi Hp) as [Hi' E].
  assert (Hl : length (between f (rpos f) p) = Z.to_nat (p - rpos f)) by (pose proof (length_between f (rpos f) p); lia).
  rewrite E, <- app_assoc. split; [|by rewrite take_app_length' by done].
  split; [done|]. exists d. split; [done|]. by rewrite drop_app_length' by done.
Qed.

Lemma touch_input w f l : incoming w f l -> incoming w (touch_mode f) l.
Proof. by intros (Hi & Hd). Qed.

(** [__toread] on a readable stream with an empty buffer. *)
Lemma toread_ok w f l : incoming w f l -> has f F_NORD = false -> has f F_EOF = false -> rpos f = rend f ->
  exists f', toread w f = Some (w, f', false) /\ incoming w f' l /\ rpos f' = rend f' /\ rpos f' <> 0 /\ flags f' = flags f.
Proof.
  intros ((I1 & I2 & I3 & I4 & (Hb & Hp & He) & I6) & d & Hd & ->) Hn Heof E. unfold toread.
  cbn [touch_mode set_mode wbase wpos]. rewrite Hb, Hp. cbn [mbind option_bind Z.ltb Z.compare].
  change (has (set_write _ 0 0 0) F_NORD) with (has f F_NORD). rewrite Hn.
  change (has (set_read _ _ _) F_EOF) with (has f F_EOF). rewrite Heof.
  eexists. split; [done|]. split; [|split; [done|split; [cbn; unfold UNGET in *; lia|done]]].
  split.
  - split_and!; try done. right. cbn. unfold UNGET. lia.
  - exists d. split; [done|]. rewrite (unread_empty f E). by rewrite unread_empty.
Qed.

(** A read callback on such a stream. *)
Lemma read_ok w f len l : incoming w f l -> rpos f = rend f -> 0 < len < 2 ^ 64 - 1 ->
  exists w' f' n bs, read w f len = Some (w', f', n, bs) /\
    ((n = Z.of_nat (length bs) /\ 0 < n <= len /\ flags f' = flags f /\ (n < len -> rpos f' = rend f') /\ (length bs <= length l)%nat /\ bs = take (length bs) l /\
      incoming w' f' (drop (length bs) l)) \/
     ((n = 0 \/ n = 2 ^ 64 - 1) /\ bs = [] /\ incoming w' f' l /\ ended f f' l)).
Proof.
  intros (Hi & d & Hd & ->) E Hlen. rewrite (unread_empty f E), app_nil_l in *.
  destruct (read_law w f len d Hi E Hlen Hd) as (w' & f' & n & bs & Er & Hi' & [(Hn & Hr & Hfl & Hlast & d' & Hd' & ->)|(Hn & -> & Hu & Hd' & He)]);
    exists w', f', n, bs || exists w', f', n, []; (split; [done|]).
  - left. split; [done|]. split; [done|]. split; [done|]. split; [done|]. split; [rewrite length_app; lia|]. split; [by rewrite take_app_length|].
    rewrite drop_app_length. split; [done|]. by exists d'.
  - right. split_and!; try done. split; [done|]. exists d. split; [done|]. by rewrite Hu.
Qed.

Lemma getc_ok w f l : incoming w f l -> has f F_NORD = false -> has f F_EOF = false ->
  exists w' f' c, getc_unlocked w f = Some (w', f', c) /\
    ((exists l', l = c :: l' /\ is_byte c /\ incoming w' f' l' /\ flags f' = flags f) \/
     (c = EOF /\ incoming w' f' l /\ ended f f' l)).
Proof.
  intros Hi Hn He. pose proof (incoming_bytes _ _ _ Hi) as Hbs. pose proof Hi as ((I1 & I2 & I3 & I4 & I5 & I6) & _).
  unfold getc_unlocked. destruct (Z.ltb_spec (rpos f) (rend f)) as [Hlt|Hge].
  - assert (Hm : exists c, load8 (data f) (rpos f) = Some c /\ between f (rpos f) (rpos f + 1) = [c]).
    { exists (rd (data f) (rpos f)). split; [apply (load8_rd _ _ _ _ I3); lia|]. unfold between.
      replace (rpos f + 1 - rpos f) with 1 by lia. rewrite bytes_of_cons, bytes_of_nonpos by lia. done. }
    destruct Hm as (c & Ec & Hc). rewrite Ec. cbn [mbind option_bind].
    destruct (advance_incoming w f l (rpos f + 1) Hi ltac:(lia)) as [Hi' E]. replace (rpos f + 1 - rpos f) with 1 in * by lia.
    rewrite Hc in E. change (Z.to_nat 1) with 1%nat in *. destruct l as [|x l']; [done|]. simpl in E. injection E as <-.
    exists w, (set_read f (rpos f + 1) (rend f)), c. split; [done|]. left. exists l'. change (drop 1 (c :: l')) with (drop 0 l') in Hi'. rewrite drop_0 in Hi'. apply list.Forall_cons in Hbs as [? _]. by split_and!.
  - assert (E : rpos f = rend f) by lia. unfold uflow. destruct (toread_ok w f l Hi Hn He E) as (f1 & -> & Hi1 & E1 & _ & Hfl). cbn [mbind option_bind].
    destruct (read_ok w f1 1 l Hi1 E1 ltac:(lia)) as (w2 & f2 & n & bs & -> & [(Hn' & Hr & Hfl2 & _ & Hl & Hbs' & Hi2)|(Hn' & -> & Hi2 & Hend)]); cbn [mbind option_bind].
    + assert (length bs = 1%nat) as L by lia. rewrite L in *. rewrite Hn'. change (Z.of_nat 1 =? 1) with true. cbv iota.
      destruct l as [|c l']; [simpl in *; lia|]. simpl in Hbs', Hi2. subst bs. rewrite drop_0 in Hi2.
      exists w2, f2, c. split; [done|]. left. exists l'. apply list.Forall_cons in Hbs as [? _]. split_and!; try done. congruence.
    + exists w2, f2, EOF. destruct (Z.eqb_spec n 1); [lia|]. split; [done|]. right. split; [done|]. split; [done|].
      unfold ended in *. by rewrite <- Hfl.
Qed.

(** *** [fread] *)
Lemma fread_loop_ok fuel w f l dest r : incoming w f r -> has f F_NORD = false -> has f F_EOF = false ->
  0 <= l < Z.of_nat fuel -> l < 2 ^ 64 - 1 -> (0 < l -> rpos f = rend f) ->
  exists w' f' l' bs r', fread_loop fuel w f l dest = Some (w', f', l', dest ++ bs) /\ r = bs ++ r' /\ incoming w' f' r' /\
    Z.of_nat (length bs) = l - l' /\ 0 <= l' <= l /\ ((l' = 0 /\ flags f' = flags f) \/ (0 < l' /\ ended f f' r')).
Proof.
  revert w f l dest r. induction fuel as [|fuel IH]; intros w f l dest r Hi Hn He Hl Hmax Hempty; [lia|]. cbn [fread_loop].
  destruct (Z.eqb_spec l 0) as [->|Hnz].
  { exists w, f, 0, [], r. rewrite app_nil_r. split; [done|]. split; [done|]. split; [done|]. split; [done|]. split; [lia|]. by left. }
  destruct (toread_ok w f r Hi Hn He ltac:(apply Hempty; lia)) as (f1 & -> & Hi1 & E1 & _ & Hfl1). cbn [mbind option_bind].
  destruct (read_ok w f1 l r Hi1 E1 ltac:(lia)) as (w2 & f2 & n & bs & -> & [(Hn' & Hr & Hfl2 & Hlast & Hlen & Hbs & Hi2)|(Hn' & -> & Hi2 & Hend)]); cbn [mbind option_bind].
  - rewrite wrap_small by lia. destruct (Z.leb_spec (n + 1) 1); [lia|].
    assert (Hfl : flags f2 = flags f) by congruence.
    destruct (IH w2 f2 (l - n) (dest ++ bs) (drop (length bs) r)) as (w' & f' & l' & bs' & r' & E & Er & Hi' & Hlb & Hl' & Hc);
      [done|by unfold has; rewrite Hfl|by unfold has; rewrite Hfl|lia|lia|intros; apply Hlast; lia|].
    exists w', f', l', (bs ++ bs'), r'. rewrite E, <- app_assoc. split; [done|].
    split; [rewrite <- (take_drop (length bs) r), <- Hbs, Er; by rewrite app_assoc|]. split; [done|]. split; [rewrite length_app; lia|]. split; [lia|].
    destruct Hc as [[? ?]|[? Hend]]; [left; split; [done|congruence]|right; split; [done|]]. unfold ended in *. by rewrite <- Hfl.
  - exists w2, f2, l, [], r. assert (E : (u64 (n + 1) <=? 1) = true) by (destruct Hn' as [-> | ->]; done). rewrite E, app_nil_r.
    split; [done|]. split; [done|]. split; [done|]. split; [simpl; lia|]. split; [lia|]. right. split; [lia|].
    unfold ended in *. by rewrite <- Hfl1.
Qed.

(** [fread] delivers the next bytes of the stream in order: as many as were asked for,
    or, when it returns fewer items, all there were up to the end of the input (with
    the end-of-file flag) or up to an error (with the error flag). The bytes after
    them stay readable. *)
Theorem fread_delivers w f r size nmemb :
  incoming w f r -> has f F_NORD = false -> has f F_EOF = false ->
  0 < size -> 0 <= nmemb -> size * nmemb < 2 ^ 64 - 1 ->
  exists w' f' n bs r', fread w size nmemb f = Some (w', f', n, bs) /\ r = bs ++ r' /\ incoming w' f' r' /\
    ((n = nmemb /\ Z.of_nat (length bs) = size * nmemb /\ flags f' = flags f) \/
     (n = Z.of_nat (length bs) / size /\ Z.of_nat (length bs) < size * nmemb /\ ended f f' r')).
Proof.
  intros Hi Hn He Hsz Hnm Hmax. unfold fread. rewrite wrap_small by lia. destruct (Z.eqb_spec size 0); [lia|].
  set (f0 := touch_mode f). assert (Hi0 : incoming w f0 r) by done. change (flags f) with (flags f0). change (has f) with (has f0) in Hn, He.
  assert (Hended : forall x l, ended f x l <-> ended f0 x l) by done. clearbody f0. clear Hi.
  set (len := size * nmemb) in *.
  assert (Hfirst : exists f1 dest l, (if 0 <? rend f0 - rpos f0 then (set_read f0 (rpos f0 + Z.min (rend f0 - rpos f0) len) (rend f0))
      else f0) = f1 /\ (if 0 <? rend f0 - rpos f0 then between f0 (rpos f0) (rpos f0 + Z.min (rend f0 - rpos f0) len) else []) = dest /\
      (if 0 <? rend f0 - rpos f0 then len - Z.min (rend f0 - rpos f0) len else len) = l /\
      dest = take (length dest) r /\ incoming w f1 (drop (length dest) r) /\ 0 <= l <= len /\ Z.of_nat (length dest) = len - l /\
      (0 < l -> rpos f1 = rend f1) /\ flags f1 = flags f0).
  { pose proof Hi0 as ((_ & _ & _ & _ & _ & Hpos) & _). eexists _, _, _. split; [done|]. split; [done|]. split; [done|].
    destruct (Z.ltb_spec 0 (rend f0 - rpos f0)).
    - destruct (advance_incoming w f0 r (rpos f0 + Z.min (rend f0 - rpos f0) len) Hi0 ltac:(lia)) as [Hi1 E].
      pose proof (length_between f0 (rpos f0) (rpos f0 + Z.min (rend f0 - rpos f0) len) ltac:(lia)) as Hlb.
      replace (Z.to_nat (rpos f0 + Z.min (rend f0 - rpos f0) len - rpos f0)) with (length (between f0 (rpos f0) (rpos f0 + Z.min (rend f0 - rpos f0) len))) in * by lia.
      split; [done|]. split; [done|]. split; [lia|]. split; [lia|]. split; [cbn; lia|done].
    - split; [done|]. split; [by rewrite drop_0|]. split; [lia|]. split; [simpl; lia|]. split; [lia|done]. }
  destruct Hfirst as (f1 & dest & l & -> & -> & -> & Hd & Hi1 & Hl & Hdl & Hem & Hfl).
  destruct (fread_loop_ok (S (Z.to_nat l)) w f1 l dest (drop (length dest) r)) as (w' & f' & l' & bs & r' & E & Er & Hi' & Hlb & Hl' & Hc);
    [done|by unfold has; rewrite Hfl|by unfold has; rewrite Hfl|lia|lia|done|].
  rewrite E. cbn [mbind option_bind]. exists w', f', (if l' =? 0 then nmemb else (len - l') / size), (dest ++ bs), r'. split; [done|].
  split; [rewrite <- app_assoc, <- Er, Hd at 1; by rewrite take_drop|]. split; [done|]. rewrite length_app.
  destruct Hc as [[-> Hfl']|[Hpos Hend]]; [left|right].
  - split; [done|]. split; [lia|congruence].
  - destruct (Z.eqb_spec l' 0); [lia|]. split; [f_equal; lia|]. split; [lia|]. apply Hended. unfold ended in *. by rewrite <- Hfl.
Qed.
End input.

(** ** [fgets] and [ungetc] *)

(** The first line of what can be read, with its newline. *)
Definition line_of (l : list Z) : list Z := match newline_at l with Some i => take (S i) l | None => l end.

Lemma newline_none u d : newline_at u = None -> line_of (u ++ d) = u ++ line_of d.
Proof.
  intros Hu. unfold line_of. assert (E : newline_at (u ++ d) = (fun i => (length u + i)%nat) <$> newline_at d).
  { revert Hu. induction u as [|b u IH]; intros Hu; [simpl; by destruct (newline_at d)|]. cbn [newline_at app] in *.
    destruct (b =? 10); [done|]. destruct (newline_at u); [done|]. rewrite IH by done. by destruct (newline_at d). }
  rewrite E. destruct (newline_at d) as [i|]; [|done]. cbn [fmap option_fmap option_map].
  by rewrite <- Nat.add_succ_r, take_app_add.
Qed.

Lemma newline_some u d i : newline_at u = Some i -> line_of (u ++ d) = take (S i) u /\ (i < length u)%nat.
Proof.
  intros Hu. assert (E : newline_at (u ++ d) = Some i /\ (i < length u)%nat).
  { revert i Hu. induction u as [|b u IH]; intros i Hu; [done|]. cbn [newline_at app length] in *.
    destruct (b =? 10); [injection Hu as <-; split; [done|lia]|]. destruct (newline_at u) as [j|] eqn:Ej; [|done]. injection Hu as <-.
    destruct (IH j eq_refl) as [-> ?]. split; [done|lia]. }
  destruct E as [E Hi]. split; [|done]. unfold line_of. rewrite E. apply take_app_le. lia.
Qed.

Lemma line_cons c d : line_of (c :: d) = if c =? 10 then [c] else c :: line_of d.
Proof.
  unfold line_of. cbn [newline_at]. destruct (c =? 10); [done|]. by destruct (newline_at d).
Qed.

Section lines.
Context {W : Type} `{Writer W} `{ReaderLaws W}.

(** What [fgets] does with [n] bytes of room after [p], when [r] can be read. *)
Definition fgets_result (f : FILE) (n : nat) (p r : list Z) (out : option (W * FILE * option (list Z))) : Prop :=
  exists w' f' res r', out = Some (w', f', res) /\ incoming w' f' r' /\
    ((res = Some (p ++ take n (line_of r)) /\ r = take n (line_of r) ++ r' /\
       (flags f' = flags f \/ (r' = [] /\ flags f' = Z.lor (flags f) F_EOF))) \/
     (res = None /\ ((p = [] /\ r = [] /\ flags f' = Z.lor (flags f) F_EOF) \/ flags f' = Z.lor (flags f) F_ERR))).

Lemma eof_after f f' l : has f F_EOF = false -> ended f f' l -> has f' F_EOF = true -> l = [] /\ flags f' = Z.lor (flags f) F_EOF.
Proof.
  unfold has. intros He [[-> E]|E] Hh; [done|]. exfalso. rewrite E in Hh. apply nz_true in Hh. apply Hh.
  apply nz_false in He. apply Z.bits_inj'. intros i Hi. apply (f_equal (fun x => Z.testbit x i)) in He.
  rewrite Z.land_spec, Z.lor_spec in *. rewrite Z.bits_0 in *. unfold F_EOF, F_ERR in *.
  destruct (decide (i = 4)) as [-> |]; [by destruct (Z.testbit (flags f) 4)|].
  replace (Z.testbit 16 i) with false in *; [by rewrite andb_false_r|]. change 16 with (2 ^ 4). symmetry. by apply Z.pow2_bits_false.
Qed.

Lemma no_eof f f' l : has f F_EOF = false -> ended f f' l -> has f' F_EOF = false -> flags f' = Z.lor (flags f) F_ERR.
Proof.
  intros He [[-> E]|E] Hh; [|done]. exfalso. assert (has f' F_EOF = true); [|congruence].
  assert (E' : has f' F_EOF = has (raise f F_EOF) F_EOF) by (unfold has; by rewrite E). rewrite E'. by apply has_raise.
Qed.

(** The part of a turn after the bytes [u] of the buffer: a byte from [getc], and the
    rest of the loop, given what that does. *)
Lemma fgets_byte rest w f n p u d : incoming w f d -> has f F_NORD = false -> has f F_EOF = false ->
  newline_at u = None -> (length u < n)%nat ->
  (forall w f m p r, incoming w f r -> has f F_NORD = false -> has f F_EOF = false -> (m < n)%nat ->
    fgets_result f m p r (rest w f (Z.of_nat m) p)) -> Z.of_nat n < 2 ^ 31 ->
  fgets_result f n p (u ++ d) ('(w, f, c) ← getc_unlocked w f;
    if c <? 0 then Some (w, f, if bool_decide (p ++ u = []) || negb (has f F_EOF) then None else Some (p ++ u))
    else if c =? 10 then Some (w, f, Some ((p ++ u) ++ [c]))
    else rest w f (Z.of_nat n - Z.of_nat (length u) - 1) ((p ++ u) ++ [c])).
Proof.
  intros Hi Hn He Ez Hlen IH Hmax. pose proof (newline_none u d Ez) as El.
  destruct (getc_ok w f d Hi Hn He) as (w2 & f2 & c & -> & [(d' & -> & Hc & Hi2 & Hfl)|(-> & Hi2 & Hend)]); cbn [mbind option_bind].
  - unfold is_byte in Hc. destruct (Z.ltb_spec c 0); [lia|]. rewrite line_cons in El. destruct (Z.eqb_spec c 10) as [->|Hc10].
    + exists w2, f2, (Some ((p ++ u) ++ [10])), d'. split; [done|]. split; [done|]. left. rewrite El.
      rewrite take_ge by (rewrite length_app; simpl; lia). rewrite <- !app_assoc. split; [done|]. split; [done|]. by left.
    + replace (Z.of_nat n - Z.of_nat (length u) - 1) with (Z.of_nat (n - length u - 1)) by lia.
      destruct (IH w2 f2 (n - length u - 1)%nat ((p ++ u) ++ [c]) d') as (w' & f' & res & r' & E & Hi' & Hc'); try done || lia; try (unfold has; by rewrite Hfl).
      exists w', f', res, r'. split; [done|]. split; [done|]. rewrite El, Hfl in *.
      replace n with (length u + S (n - length u - 1))%nat at 1 2 by lia. rewrite take_app_add. cbn [take].
      destruct Hc' as [(-> & Ed & Hfl')|(-> & [(Hnil & _)|Hfl'])].
      * left. rewrite <- !app_assoc. split; [done|]. split; [|done]. cbn [app]. by rewrite <- Ed.
      * by apply app_nil in Hnil as [_ ?].
      * right. split; [done|]. by right.
  - change (EOF <? 0) with true. cbv iota. eexists w2, f2, _, d. split; [done|]. split; [done|]. destruct (has f2 F_EOF) eqn:Hf2; cbn [negb].
    + destruct (eof_after f f2 d He Hend Hf2) as [-> Hfl]. rewrite orb_false_r, !app_nil_r in *.
      assert (El' : line_of u = u) by (unfold line_of; by rewrite Ez). rewrite El', (take_ge u n) by lia. case_bool_decide as Hp.
      * apply app_nil in Hp as [-> Hu]. right. split; [done|]. by left.
      * left. split; [done|]. split; [done|]. by right.
    + rewrite orb_true_r. right. split; [done|]. right. by apply (no_eof f f2 d).
Qed.

Lemma fgets_loop_ok fuel w f n p r : incoming w f r -> has f F_NORD = false -> has f F_EOF = false ->
  (n < fuel)%nat -> Z.of_nat n < 2 ^ 31 -> fgets_result f n p r (fgets_loop fuel w f (Z.of_nat n) p).
Proof.
  revert w f n p r. induction fuel as [|fuel IH]; intros w f n p r Hi Hn He Hf Hmax; [lia|]. cbn [fgets_loop].
  destruct (Z.eqb_spec (Z.of_nat n) 0) as [E0|E0].
  { assert (n = O) as -> by lia. exists w, f, (Some p), r. split; [done|]. split; [done|]. left. rewrite app_nil_r. split; [done|]. split; [done|]. by left. }
  pose proof Hi as ((_ & _ & _ & _ & _ & Hpos) & d & Hd & Er). change (between f (rpos f) (rend f)) with (unread f).
  assert (Hlu : Z.of_nat (length (unread f)) = rend f - rpos f) by (apply length_between; lia).
  set (k := Z.min _ (Z.of_nat n)). assert (Hk : 0 <= k <= rend f - rpos f /\ k <= Z.of_nat n).
  { subst k. destruct (newline_at (unread f)) as [i|] eqn:Ez; [destruct (newline_some _ d _ Ez)|]; lia. }
  destruct (advance_incoming w f r (rpos f + k) Hi ltac:(lia)) as [Hi1 Eb]. rewrite Eb.
  replace (Z.to_nat (rpos f + k - rpos f)) with (Z.to_nat k) in * by lia. set (f1 := set_read f (rpos f + k) (rend f)) in *.
  assert (Hdone : take (Z.to_nat k) r = take n (line_of r) ->
    fgets_result f n p r (Some (w, f1, Some (p ++ take (Z.to_nat k) r)))).
  { intros Hs. eexists w, f1, _, (drop (Z.to_nat k) r). split; [done|]. split; [done|]. left. rewrite <- Hs.
    split; [done|]. split; [by rewrite take_drop|]. by left. }
  destruct (newline_at (unread f)) as [i|] eqn:Ez; rewrite ?bool_decide_true by done; rewrite ?bool_decide_false by (by intros [??]); cbn [orb].
  - destruct (newline_some _ d _ Ez) as [El Hi2]. rewrite <- Er in El. apply Hdone. rewrite El, Er, take_take, take_app_le by lia. f_equal. lia.
  - assert (El : line_of r = unread f ++ line_of d) by (rewrite Er; by apply newline_none).
    destruct (Z.eqb_spec (Z.of_nat n - k) 0) as [En|En].
    + apply Hdone. rewrite El, Er, !take_app_le by lia. f_equal. lia.
    + assert (Hku : Z.to_nat k = length (unread f)) by lia. replace (Z.of_nat n - k) with (Z.of_nat n - Z.of_nat (length (unread f))) by lia.
      rewrite Hku in *. rewrite Er in Hi1 |- *. rewrite take_app_length, drop_app_length in *.
      apply (fgets_byte (fun w f m p => fgets_loop fuel w f m p) w f1); try done; [lia|]. intros w' f' m p' r' ? ? ? Hm.
      apply IH; (done || lia).
Qed.

(** C23. [fgets] returns the first [n - 1] bytes of the next line, its newline included, and
    the bytes after them stay readable; a last line without a newline is returned too.
    It returns a null pointer only at the end of the input, with nothing read, or on
    an error. *)
Theorem fgets_reads_line w f n r : incoming w f r -> has f F_NORD = false -> has f F_EOF = false -> 1 < n < 2 ^ 31 ->
  fgets_result f (Z.to_nat (n - 1)) [] r (fgets w n f).
Proof.
  intros Hi Hn He Hr. unfold fgets. destruct (Z.leb_spec (n - 1) 0); [lia|].
  replace (n - 1) with (Z.of_nat (Z.to_nat (n - 1))) at 3 by lia. apply fgets_loop_ok; (done || lia).
Qed.

(** A byte pushed back by [ungetc] is the next one read, and reading it leaves the
    stream as it was: with at least one byte of the push-back area free, [getc] after
    [ungetc] returns the byte, and what can be read is what could be read before. *)
Theorem ungetc_getc w f l c : incoming w f l -> has f F_NORD = false -> 0 <= c < 256 -> buf f - UNGET < rpos f ->
  exists f', ungetc w c f = Some (w, f', c) /\ incoming w f' (c :: l) /\ has f' F_EOF = false /\
  exists f'', getc w f' = Some (w, f'', c) /\ incoming w f'' l.
Proof.
  intros Hi Hn Hc Hroom. pose proof Hi as ((I1 & I2 & I3 & I4 & I5 & I6) & d & Hd & ->). unfold UNGET in *.
  destruct I6 as [[Hr _]|[Hr1 Hr2]]; [lia|]. unfold ungetc, EOF. destruct (Z.eqb_spec c (-1)); [lia|].
  destruct (Z.eqb_spec (rpos f) 0); [lia|]. cbn [mbind option_bind]. destruct (Z.eqb_spec (rpos f) 0); [lia|].
  destruct (Z.leb_spec (rpos f) (buf f - UNGET)) as [?|_]; [unfold UNGET in *; lia|]. cbn [orb].
  rewrite (store8_write _ (buf f - 8) (8 + buf_size f)) by (done || lia). cbn [mbind option_bind]. rewrite wrap_small by lia.
  change (<[rpos f - 1:=c]> (data f)) with (write_bytes (data f) (rpos f - 1) [c]). set (m := write_bytes _ _ _). set (f1 := set_flags _ _). exists f1. split; [done|].
  assert (Hok : input_ok f1).
  { split; [done|]. split; [done|]. split; [by apply mapped_write|].
    split; [apply write_bytes_ok; [done|apply list.Forall_singleton; unfold is_byte; lia]|]. split; [done|]. right. cbn. unfold UNGET. lia. }
  assert (Hu : unread f1 = c :: unread f).
  { unfold unread, between. cbn [f1 data rpos rend set_flags set_read set_data]. rewrite bytes_of_cons by lia. f_equal.
    - subst m. pose proof (rd_write_in (data f) (rpos f - 1) [c] 0 c eq_refl) as E. by rewrite Z.add_0_r in E.
    - replace (rpos f - 1 + 1) with (rpos f) by lia. replace (rend f - (rpos f - 1) - 1) with (rend f - rpos f) by lia.
      apply bytes_of_ext. intros a Ha. apply rd_write_out. simpl. lia. }
  assert (Hi1 : incoming w f1 (c :: unread f ++ d)) by (split; [done|]; exists d; by rewrite Hu).
  assert (He : has f1 F_EOF = false).
  { unfold has. apply nz_false. cbn [f1 flags set_flags]. apply Z.bits_inj'. intros i _.
    rewrite !Z.land_spec, Z.bits_0. destruct (Z.leb_spec 0 i); [|by rewrite !(Z.testbit_neg_r _ i) by lia].
    rewrite Z.lnot_spec by lia. by destruct (Z.testbit _ i), (Z.testbit F_EOF i). }
  split; [done|]. split; [done|].
  assert (Hlt : (rpos f1 <? rend f1) = true) by (cbn; lia). unfold getc, getc_unlocked. rewrite Hlt.
  pose proof Hok as (_ & _ & Hm & _). rewrite (load8_rd _ _ _ _ Hm) by (cbn; unfold UNGET in *; lia). cbn [mbind option_bind].
  assert (Hrd : rd (data f1) (rpos f1) = c).
  { pose proof (rd_write_in (data f) (rpos f - 1) [c] 0 c eq_refl) as E. by rewrite Z.add_0_r in E. }
  rewrite Hrd. eexists. split; [done|].
  destruct (advance_incoming w f1 _ (rpos f1 + 1) Hi1) as [Hi2 _]; [cbn; lia|].
  replace (Z.to_nat (rpos f1 + 1 - rpos f1)) with 1%nat in Hi2 by lia. by rewrite <- (drop_0 (unread f ++ d)).
Qed.
End lines.
