(* ===== verification/StdioFd.v ===== *)
(** * Streams on file descriptors ([stdio/__stdio_write.c], [__stdout_write.c], [__stdio_read.c])

    The callbacks behind [fopen]ed files and the standard streams.  The system calls
    are parameters: the class [Kernel] has [writev] and [readv] on the descriptor of
    the stream and the request that [isatty] makes, and [KernelLaws] says what they do
    with the bytes.  The callbacks are then a [Writer] and a [Reader] that keep the
    promises of [Stdio] and [Stdin]. *)
From S2P Require Import Prelude Mem Stdio Stdin.

(** [writev] gives the number of bytes taken or -1; [readv] the bytes read, or [None]
    for -1, with room for [n] bytes; [winsize] is 0 on a terminal. *)
Class Kernel (K : Type) := {
  writev : K -> list (list Z) -> K * Z;
  readv : K -> Z -> K * option (list Z);
  winsize : K -> Z;
}.

Section callbacks.
Context {K : Type} `{Kernel K}.

(** The loop of [__stdio_write]. *)
Fixpoint write_loop (fuel : nat) (k : K) (f : FILE) (len : Z) (iov : list (list Z)) (rem : Z) : option (K * FILE * Z) :=
  match fuel with
  | O => None
  | S fuel =>
      let '(k, cnt) := writev k iov in
      if cnt =? rem then Some (k, set_write f (buf f) (buf f) (buf f + buf_size f), len)
      else if cnt <? 0 then
        let f := raise (set_write f 0 0 0) F_ERR in
        Some (k, f, if (length iov =? 2)%nat then 0 else len - Z.of_nat (length (hd [] iov)))
      else
        let rem := rem - cnt in
        let '(iov, cnt) :=
          if Z.of_nat (length (hd [] iov)) <? cnt then (tail iov, cnt - Z.of_nat (length (hd [] iov))) else (iov, cnt) in
        write_loop fuel k f len (drop (Z.to_nat cnt) (hd [] iov) :: tail iov) rem
  end.

Definition stdio_write (k : K) (f : FILE) (s : list Z) : option (K * FILE * Z) :=
  let p := pending f in
  let rem := Z.of_nat (length p) + Z.of_nat (length s) in
  write_loop (S (Z.to_nat rem)) k f (Z.of_nat (length s)) [p; s] rem.

Definition stdio_read (k : K) (f : FILE) (len : Z) : option (K * FILE * Z * list Z) :=
  let b := b2z (nz (buf_size f)) in
  let first := len - b in
  match readv k (first + buf_size f) with
  | (k, None) => Some (k, raise f F_ERR, 2 ^ 64 - 1, [])
  | (k, Some bs) =>
      let cnt := Z.of_nat (length bs) in
      if cnt =? 0 then Some (k, raise f F_EOF, 0, [])
      else if cnt <=? first then Some (k, f, cnt, bs)
      else
        let f := set_data f (write_bytes (data f) (buf f) (drop (Z.to_nat first) bs)) in
        let cnt := cnt - first in
        let f := set_read f (buf f) (buf f + cnt) in
        if nz (buf_size f) then
          c ← load8 (data f) (rpos f);
          Some (k, set_read f (rpos f + 1) (rend f), len, take (Z.to_nat first) bs ++ [c])
        else Some (k, f, len, take (Z.to_nat first) bs)
  end.

(** Standard output finds out at its first write whether it is a terminal; from then on
    [f->write] is [__stdio_write]. *)
Record tty := { kern : K; started : bool }.
Definition stdout_write (k : tty) (f : FILE) (s : list Z) : option (tty * FILE * Z) :=
  let f := if started k then f
           else if negb (has f F_SVB) && nz (winsize (kern k)) then set_lbf f (-1) else f in
  '(k, f, n) ← stdio_write (kern k) f s;
  Some ({| kern := k; started := true |}, f, n).
End callbacks.
Arguments tty : clear implicits.

#[export] Instance fd_writer {K} `{Kernel K} : Writer K := stdio_write.
#[export] Instance fd_reader {K} `{Kernel K} : Reader K := stdio_read.
#[export] Instance stdout_writer {K} `{Kernel K} : Writer (tty K) := stdout_write.

(** [received k d]: the bytes [d] were taken; [remaining k d]: the bytes [d] are still to be
    read.  A write takes at least one byte when there are any, or fails; a read gives at
    least one byte before the end of the input, or fails. *)
Class KernelLaws (K : Type) `{Kernel K} := {
  received : K -> list Z -> Prop;
  remaining : K -> list Z -> Prop;
  remaining_bytes k d : remaining k d -> Forall is_byte d;
  writev_law k iov d : received k d -> let '(k', c) := writev k iov in
    (c = -1 /\ received k' d) \/
    (0 <= c <= Z.of_nat (length (concat iov)) /\ (concat iov <> [] -> 0 < c) /\ received k' (d ++ take (Z.to_nat c) (concat iov)));
  readv_law k n d : 0 < n -> remaining k d ->
    match readv k n with
    | (k', None) => remaining k' d
    | (k', Some bs) => exists d', d = bs ++ d' /\ remaining k' d' /\ Z.of_nat (length bs) <= n /\ (bs = [] -> d = [])
    end;
}.

Section laws.
Context {K : Type} `{KernelLaws K}.

(** What the loop returns when [j] of the bytes [p ++ s] have been taken; it ends, since
    every turn takes at least one. *)
Lemma write_loop_ok fuel k f p s j iov d :
  received k (d ++ take j (p ++ s)) -> (j <= length (p ++ s))%nat ->
  ((iov = [drop j p; s] /\ (j <= length p)%nat) \/
   (iov = [drop (j - length p) s] /\ (length p < j)%nat /\ (j < length (p ++ s))%nat)) ->
  (length (p ++ s) - j < fuel)%nat ->
  exists k' f' n, write_loop fuel k f (Z.of_nat (length s)) iov (Z.of_nat (length (p ++ s) - j)) = Some (k', f', n) /\
    ((n = Z.of_nat (length s) /\ f' = set_write f (buf f) (buf f) (buf f + buf_size f) /\ received k' (d ++ p ++ s)) \/
     (exists i, f' = raise (set_write f 0 0 0) F_ERR /\ (i <= length (p ++ s))%nat /\ received k' (d ++ take i (p ++ s)) /\
        n = Z.max 0 (Z.of_nat i - Z.of_nat (length p)) /\ (s <> [] -> n < Z.of_nat (length s)))).
Proof.
  revert k j iov. induction fuel as [|fuel IH]; intros k j iov Hr Hj Hiov Hf; [lia|]. cbn [write_loop].
  assert (Hc : concat iov = drop j (p ++ s)).
  { destruct Hiov as [[-> Hp]|(-> & Hp & _)]; simpl; rewrite app_nil_r; [by rewrite drop_app_le|by rewrite drop_app_ge by lia]. }
  pose proof (writev_law k iov _ Hr) as Hk. destruct (writev k iov) as [k1 c]. rewrite Hc, length_drop, <- app_assoc in Hk.
  pose proof (length_app p s) as Hla. set (rem := (length (p ++ s) - j)%nat) in *. destruct (Z.eqb_spec c (Z.of_nat rem)) as [Ec|Ec].
  - destruct Hk as [(-> & _)|(_ & _ & Hk)]; [lia|]. eexists _, _, _. split; [done|]. left. split; [done|]. split; [done|].
    rewrite Ec, Nat2Z.id, (take_ge (drop _ _)), take_drop in Hk by (rewrite length_drop; lia). done.
  - destruct Hk as [(-> & Hk)|(Hcr & Hpos & Hk)].
    + change (-1 <? 0) with true. cbv iota. eexists _, _, _. split; [done|]. right. exists j. split; [done|]. split; [done|]. split; [done|].
      destruct Hiov as [[-> Hp]|(-> & Hp & Hlt)]; cbn [length Nat.eqb hd].
      * split; [lia|]. intros Hs. destruct s; [done|]. simpl. lia.
      * rewrite length_drop. split; [lia|]. intros _. lia.
    + destruct (Z.ltb_spec c 0); [lia|].
      assert (Hc0 : 0 < c) by (apply Hpos; intros E; apply (f_equal length) in E; rewrite length_drop in E; simpl in E; lia).
      replace (Z.of_nat rem - c) with (Z.of_nat (length (p ++ s) - (j + Z.to_nat c))) by lia.
      assert (Hr' : received k1 (d ++ take (j + Z.to_nat c) (p ++ s))) by (rewrite take_take_drop in Hk; done || by rewrite <- take_take_drop).
      destruct Hiov as [[-> Hp]|(-> & Hp & Hlt)]; cbn [hd tail]; rewrite length_drop.
      * destruct (Z.ltb_spec (Z.of_nat (length p - j)) c) as [Hn|Hn]; cbn [hd tail].
        -- apply IH; [done|lia| |lia]. right. split; [|lia].
           f_equal. f_equal. lia.
        -- rewrite drop_drop. apply IH; [done|lia| |lia]. left. split; [done|lia].
      * destruct (Z.ltb_spec (Z.of_nat (length s - (j - length p))) c) as [Hn|Hn]; [lia|]. cbn [hd tail]. rewrite drop_drop.
        apply IH; [done|lia| |lia]. right. split; [|lia].
        f_equal. f_equal. lia.
Qed.

Lemma stdio_write_ok k f s d : writing f -> received k d ->
  exists k' f' n, stdio_write k f s = Some (k', f', n) /\
    ((n = Z.of_nat (length s) /\ f' = set_write f (buf f) (buf f) (buf f + buf_size f) /\ received k' (d ++ pending f ++ s)) \/
     (exists i, f' = raise (set_write f 0 0 0) F_ERR /\ (i <= length (pending f ++ s))%nat /\ received k' (d ++ take i (pending f ++ s)) /\
        n = Z.max 0 (Z.of_nat i - Z.of_nat (length (pending f))) /\ (s <> [] -> n < Z.of_nat (length s)))).
Proof.
  intros Hw Hr. unfold stdio_write. pose proof (length_app (pending f) s) as Hla.
  replace (Z.of_nat (length (pending f)) + Z.of_nat (length s)) with (Z.of_nat (length (pending f ++ s) - 0)) by lia.
  apply (write_loop_ok _ _ _ _ _ 0 _ d); [by rewrite take_0, app_nil_r|lia|left; rewrite drop_0; split; [done|lia]|lia].
Qed.

Lemma stdio_write_nothing k f d : buffer_ok f -> idle f -> received k d ->
  exists k' f' n, stdio_write k f [] = Some (k', f', n) /\ setup f' = setup f /\ received k' d /\
    (flags f' = flags f /\ wpos f' <> 0 \/ True /\ flags f' = Z.lor (flags f) F_ERR).
Proof.
  intros (B1 & B2 & _) Hi Hr. unfold stdio_write. rewrite (pending_idle f Hi). cbn [length Z.of_nat Z.add Z.to_nat write_loop].
  pose proof (writev_law k [[]; []] d Hr) as Hk. destruct (writev k [[]; []]) as [k' c]. simpl in Hk.
  destruct Hk as [(-> & Hk)|(Hc & _ & Hk)].
  - change (-1 =? 0) with false. change (-1 <? 0) with true. cbv iota. eexists k', _, _. split; [done|]. split; [done|]. split; [done|]. by right.
  - assert (c = 0) as -> by lia. rewrite Z.eqb_refl. eexists k', _, _. split; [done|]. split; [done|]. rewrite take_nil, app_nil_r in Hk.
    split; [done|]. left. split; [done|]. cbn. unfold UNGET in *. lia.
Qed.

Lemma written_writing f : buffer_ok f -> writing (set_write f (buf f) (buf f) (buf f + buf_size f)).
Proof. intros (? & ? & _). split_and!; cbn; lia. Qed.

#[export, refine] Instance fd_writer_laws : WriterLaws K := {| sent := received; can_fail := True |}.
Proof.
  2:{ intros k f d Hb Hi Hr. destruct (stdio_write_nothing k f d Hb Hi Hr) as (k' & f' & n & E & Hc). by exists k', f', n. }
  intros k f s d Hb Hw Hr. destruct (stdio_write_ok k f s d Hw Hr) as (k' & f' & n & E & [(-> & -> & Hk)|(i & -> & Hi & Hk & Hn & Hlt)]);
    eexists k', _, _; (split; [exact E|]); (split; [done|]).
  - left. split; [done|]. split; [by apply written_writing|]. split; [|done]. unfold pending, between. cbn. by rewrite Z.sub_diag, bytes_of_nil.
  - right. split; [done|]. exists i. by split_and!.
Defined.

#[export, refine] Instance stdout_writer_laws : WriterLaws (tty K) := {| sent k d := received (kern k) d; can_fail := True |}.
Proof.
  2:{ intros k f d Hb Hi Hr. change (write k f []) with (stdout_write k f []). unfold stdout_write.
      set (g := if started k then f else if negb (has f F_SVB) && nz (winsize (kern k)) then set_lbf f (-1) else f).
      assert (Hg : setup g = setup f /\ flags g = flags f /\ idle g) by (subst g; destruct (started k); [done|]; by destruct (_ && _)).
      destruct Hg as (Hs & Hfl & Hig). destruct (stdio_write_nothing (kern k) g d) as (k' & f' & n & E & Hs' & Hr' & Hf);
        [by eapply setup_buffer|done|done|]. rewrite E. cbn [mbind option_bind]. eexists _, f', n. split; [done|]. rewrite <- Hs, <- Hfl. done. }
  intros k f s d Hb Hw Hr. cbn [write stdout_writer]. unfold stdout_write. 
  set (g := if started k then f else if negb (has f F_SVB) && nz (winsize (kern k)) then set_lbf f (-1) else f).
  assert (Hg : setup g = setup f /\ flags g = flags f /\ pending g = pending f /\ writing g).
  { subst g. destruct (started k); [done|]. by destruct (_ && _). }
  destruct Hg as (Hs & Hfl & Hp & Hwg). destruct (stdio_write_ok (kern k) g s d Hwg Hr) as (k' & f' & n & E & Hc).
  change (write k f s) with (stdout_write k f s). unfold stdout_write. fold g. rewrite E. cbn [mbind option_bind].
  eexists _, f', n. split; [done|]. rewrite <- Hp. assert (Hbg : buffer_ok g) by (by eapply setup_buffer).
  destruct Hc as [(-> & -> & Hk)|(i & -> & Hi & Hk & Hn & Hlt)].
  - split; [exact Hs|]. left. split; [done|]. split; [by apply written_writing|].
    split; [unfold pending, between; cbn; by rewrite Z.sub_diag, bytes_of_nil|]. split; [exact Hfl|done].
  - split; [exact Hs|]. right. split; [done|]. exists i. split; [done|]. split; [cbn; by rewrite Hfl|done].
Defined.

Lemma take_snoc_drop (bs : list Z) n : (n < length bs)%nat -> bs = take n bs ++ drop n bs /\ drop n bs <> [].
Proof. intros Hn. rewrite take_drop. split; [done|]. intros E. apply (f_equal length) in E. rewrite length_drop in E. simpl in E. lia. Qed.

#[export, refine] Instance fd_reader_laws : ReaderLaws K := {| source := remaining; source_bytes := remaining_bytes |}.
Proof.
  intros k f len d Hi E Hlen Hd. pose proof Hi as (I1 & I2 & I3 & I4 & I5 & I6). change (read k f len) with (stdio_read k f len). unfold stdio_read.
  set (b := b2z (nz (buf_size f))). assert (Hb : 0 <= b <= 1 /\ (b = 1 -> 0 < buf_size f) /\ (b = 0 -> buf_size f = 0)).
  { subst b. destruct (nz (buf_size f)) eqn:Eb; [apply nz_true in Eb|apply nz_false in Eb]; cbn; lia. }
  pose proof (readv_law k (len - b + buf_size f) d ltac:(lia) Hd) as Hk. destruct (readv k (len - b + buf_size f)) as [k1 [bs|]].
  2:{ eexists _, _, _, _. split; [done|]. split; [done|]. right. split; [by right|]. split; [done|]. split; [by apply unread_empty|]. split; [done|]. by right. }
  destruct Hk as (d' & -> & Hd' & Hlb & Hend). pose proof (remaining_bytes _ _ Hd) as [Hbs _]%list.Forall_app.
  destruct (Z.eqb_spec (Z.of_nat (length bs)) 0) as [E0|E0].
  { destruct bs; [|done]. specialize (Hend eq_refl). eexists _, _, _, _. split; [done|]. split; [done|]. right. split; [by left|]. split; [done|].
    split; [by apply unread_empty|]. split; [done|]. by left. }
  destruct (Z.leb_spec (Z.of_nat (length bs)) (len - b)) as [Hs|Hl].
  { eexists _, _, _, _. split; [done|]. split; [done|]. left. split; [done|]. split; [lia|]. split; [done|]. split; [done|].
    exists d'. split; [done|]. by rewrite (unread_empty _ E). }
  destruct (take_snoc_drop bs (Z.to_nat (len - b)) ltac:(lia)) as [Ebs Hne]. set (x := drop _ bs) in *. set (y := take (Z.to_nat (len - b)) bs) in *.
  assert (Hx : Z.of_nat (length x) = Z.of_nat (length bs) - (len - b)) by (subst x; rewrite length_drop; lia).
  assert (Hy : Z.of_nat (length y) = len - b) by (subst y; rewrite length_take; lia).
  assert (Hb1 : b = 1 /\ nz (buf_size f) = true) by (destruct (decide (b = 1)); [subst b; by destruct (nz (buf_size f))|assert (b = 0) by lia; lia]).
  destruct Hb1 as [Hb1 Hnz]. clearbody b. subst b. assert (Hbuf : 0 < buf_size f) by (by apply Hb). clear Hb.
  cbn [buf_size set_read set_data]. rewrite Hnz. replace (Z.of_nat (length bs) - (len - 1)) with (Z.of_nat (length x)) by lia.
  set (f1 := set_data f (write_bytes (data f) (buf f) x)).
  assert (Hm : mapped (data f1) (buf f - UNGET) (UNGET + buf_size f)) by (by apply mapped_write).
  cbn [rpos rend data set_read]. change (buf f1) with (buf f). rewrite (load8_rd _ _ _ _ Hm) by (unfold UNGET in *; lia). cbn [mbind option_bind].
  destruct x as [|c x']; [done|]. assert (Hc : rd (data f1) (buf f) = c).
  { pose proof (rd_write_in (data f) (buf f) (c :: x') 0 c eq_refl) as Er. by rewrite Z.add_0_r in Er. }
  assert (Hok : input_ok (set_read (set_read f1 (buf f) (buf f + Z.of_nat (length (c :: x')))) (buf f + 1) (buf f + Z.of_nat (length (c :: x'))))).
  { split; [done|]. split; [done|]. split; [exact Hm|]. split.
    { apply write_bytes_ok; [done|]. rewrite Ebs in Hbs. by apply list.Forall_app in Hbs as [_ ?]. }
    split; [done|]. right. cbn. unfold UNGET. simpl in Hx. lia. }
  rewrite Hc. eexists _, _, _, _. split; [done|]. split; [exact Hok|]. left. rewrite length_app. cbn [length]. split; [lia|]. split; [lia|]. split; [done|]. split; [lia|].
  exists d'. split; [done|]. unfold unread, between. cbn [data rpos rend set_read].
  assert (Hu : bytes_of (data f1) (buf f + 1) (buf f + Z.of_nat (length (c :: x')) - (buf f + 1)) = x').
  { pose proof (bytes_of_write (data f) (buf f) (c :: x')) as Er. rewrite bytes_of_cons in Er by (simpl; lia). injection Er as _ Er.
    simpl length. replace (buf f + Z.of_nat (S (length x')) - (buf f + 1)) with (Z.of_nat (S (length x')) - 1) by lia. exact Er. }
  simpl length in Hu. rewrite Hu, Ebs. by rewrite <- !app_assoc.
Defined.
End laws.

(** ** The loop of [__stdio_write] ends *)
Section progress.
Context {K : Type} `{Kernel K}.

Definition total (iov : list (list Z)) : Z := Z.of_nat (length (concat iov)).

(** What [writev] returns: -1, or a number of bytes between 1 and what it was given. *)
Definition progresses : Prop :=
  forall k iov, let c := (writev k iov).2 in c = -1 \/ (c <= total iov /\ (0 < c \/ total iov = 0 /\ c = 0)).

Lemma write_loop_ends fuel k f len iov : progresses -> (length iov <= 2)%nat -> total iov < Z.of_nat fuel ->
  is_Some (write_loop fuel k f len iov (total iov)).
Proof.
  intros Hp. revert k iov. induction fuel as [|fuel IH]; intros k iov Hl Hf; [unfold total in Hf; lia|]. cbn [write_loop].
  pose proof (Hp k iov) as Hc. destruct (writev k iov) as [k1 c]. cbn [snd] in Hc.
  destruct (Z.eqb_spec c (total iov)); [by eexists|]. destruct (Z.ltb_spec c 0); [by eexists|].
  destruct Hc as [?|[Hc [Hpos|?]]]; [lia| |lia].
  destruct iov as [|a [|b [|? ?]]]; cbn [hd tail]; [unfold total in *; simpl in *; lia| | |simpl in Hl; lia].
  - destruct (Z.ltb_spec (Z.of_nat (length a)) c); cbn [hd tail]; [unfold total in Hc; simpl in Hc; rewrite app_nil_r in Hc; lia|].
    replace (total [a] - c) with (total [drop (Z.to_nat c) a]) by (unfold total; simpl; rewrite !app_nil_r, length_drop; lia).
    apply IH; [simpl; lia|]. unfold total in *. simpl in *. rewrite !app_nil_r, length_drop in *. lia.
  - unfold total in Hc, Hf. simpl in Hc, Hf. rewrite !app_nil_r, length_app in Hc, Hf.
    destruct (Z.ltb_spec (Z.of_nat (length a)) c); cbn [hd tail].
    + replace (total [a; b] - c) with (total [drop (Z.to_nat (c - Z.of_nat (length a))) b]) by (unfold total; simpl; rewrite !app_nil_r, length_app, length_drop; lia).
      apply IH; [simpl; lia|]. unfold total. simpl. rewrite !app_nil_r, length_drop. lia.
    + replace (total [a; b] - c) with (total [drop (Z.to_nat c) a; b]) by (unfold total; simpl; rewrite !app_nil_r, !length_app, length_drop; lia).
      apply IH; [simpl; lia|]. unfold total. simpl. rewrite !app_nil_r, length_app, length_drop. lia.
Qed.

(** C24. [__stdio_write] returns, however [writev] splits the bytes, as long as every call takes
    at least one byte or fails: it makes at most one call per byte and one more. *)
Theorem stdio_write_returns k f s : progresses -> is_Some (stdio_write k f s).
Proof.
  intros Hp. unfold stdio_write. replace (Z.of_nat (length (pending f)) + Z.of_nat (length s)) with (total [pending f; s])
    by (unfold total; simpl; rewrite app_nil_r, length_app; lia).
  apply write_loop_ends; [done|simpl; lia|]. assert (0 <= total [pending f; s]) by (unfold total; lia). lia.
Qed.
End progress.

(** ** A small kernel, for examples

    It takes at most three bytes at a time and fails when it has none left to give room
    for; it gives at most five bytes at a time. *)
Record slow := { taken : list Z; room : Z; input : list Z }.

#[export] Instance slow_kernel : Kernel slow := {
  writev k iov :=
    if room k <=? 0 then (k, if bool_decide (concat iov = []) then 0 else -1)
    else
      let n := Z.min 3 (Z.min (room k) (Z.of_nat (length (concat iov)))) in
      ({| taken := taken k ++ take (Z.to_nat n) (concat iov); room := room k - n; input := input k |}, n);
  readv k n :=
    let m := Z.to_nat (Z.min 5 n) in
    ({| taken := taken k; room := room k; input := drop m (input k) |}, Some (take m (input k)));
  winsize k := -1;
}.

#[export, refine] Instance slow_laws : KernelLaws slow :=
  {| received k d := taken k = d; remaining k d := input k = d /\ Forall is_byte d |}.
Proof.
  - by intros k d [_ Hd].
  - intros k iov d <-. cbn [writev slow_kernel]. destruct (Z.leb_spec (room k) 0).
    + case_bool_decide as E; [right; rewrite E; simpl; by rewrite app_nil_r|by left].
    + right. assert (concat iov <> [] -> (0 < length (concat iov))%nat) by (destruct (concat iov); simpl; [done|lia]).
      split; [lia|]. split; [intros; specialize (H0 H1); lia|done].
  - intros k n d Hn [<- Hd]. cbn [readv slow_kernel]. eexists. split; [symmetry; apply take_drop|].
    split; [split; [done|by apply list.Forall_drop]|]. split; [rewrite length_take; lia|].
    intros E. apply (f_equal length) in E. rewrite length_take in E. simpl in E. destruct (input k); [done|simpl in E; lia].
Defined.

(** A stream with a buffer of four bytes at 1000, after its push-back area. *)
Definition demo (bs : list Z) (p e : Z) (l : Z) : FILE :=
  {| flags := 0; mode := 0; rpos := p; rend := e; wpos := 0; wbase := 0; wend := 0; buf := 1000; buf_size := 4; lbf := l;
     data := write_bytes ∅ 992 (replicate 8 0 ++ bs) |}.
Definition demo_out (n : Z) : slow := {| taken := []; room := n; input := [] |}.
Definition demo_in (s : list Z) : slow := {| taken := []; room := 0; input := s |}.

Lemma demo_stream n l : stream (demo_out n) (demo [0; 0; 0; 0] 0 0 l) [].
Proof. split; [split_and!; [done|done|mem_check|done]|]. split; [by right|]. by exists []. Defined.

Lemma demo_incoming s : Forall is_byte s -> incoming (demo_in s) (demo [97; 10; 98; 0] 1000 1003 10) (97 :: 10 :: 98 :: s).
Proof.
  intros Hs. split; [split_and!; [done|done|mem_check|mem_check|done..|right; cbn; unfold UNGET; lia]|].
  by exists s.
Defined.

Lemma output_appends_witness : stream (demo_out 100) (demo [0; 0; 0; 0] 0 0 10) [] /\
  exists w' f' r, fputs (demo_out 100) [104; 101; 10; 108; 111] (demo [0; 0; 0; 0] 0 0 10) = Some (w', f', r) /\ (r = 0 \/ r = EOF) /\
    outcome w' (demo [0; 0; 0; 0] 0 0 10) f' [] [104; 101; 10; 108; 111] (r =? 0).
Proof.
  split; [apply demo_stream|].
  by apply (output_appends (demo_out 100) (demo [0; 0; 0; 0] 0 0 10) [] (demo_stream 100 10) eq_refl).
Defined.

(** The device takes three bytes and then fails. *)
Lemma fflush_sends_witness : stream (demo_out 3) (demo [0; 0; 0; 0] 0 0 10) [] /\
  exists w' f' r, fflush (fun w f _ _ => (w, f, 0)) (demo_out 3) (demo [0; 0; 0; 0] 0 0 10) = Some (w', f', r) /\ idle f' /\
    ((r = 0 /\ flags f' = 0 /\ sent w' [] /\ stream w' f' []) \/
     (r = EOF /\ failed w' (demo [0; 0; 0; 0] 0 0 10) f' [])).
Proof.
  split; [apply demo_stream|].
  apply (fflush_sends (fun w f _ _ => (w, f, 0)) (demo_out 3) (demo [0; 0; 0; 0] 0 0 10) [] (demo_stream 3 10)).
  by intros w f ? ? d Hd.
Defined.

Lemma fread_delivers_witness : let f := demo [97; 10; 98; 0] 1000 1003 10 in let r := [97; 10; 98; 99; 100; 101; 102; 103; 104] in
  exists w' f' n bs r', fread (demo_in [99; 100; 101; 102; 103; 104]) 2 4 f = Some (w', f', n, bs) /\ r = bs ++ r' /\ incoming w' f' r' /\
    ((n = 4 /\ Z.of_nat (length bs) = 2 * 4 /\ flags f' = flags f) \/
     (n = Z.of_nat (length bs) / 2 /\ Z.of_nat (length bs) < 2 * 4 /\ ended f f' r')).
Proof.
  apply (fread_delivers (demo_in [99; 100; 101; 102; 103; 104])); [apply demo_incoming|..]; try done.
  by repeat apply list.Forall_cons_2.
Defined.

Lemma fgets_reads_line_witness : let f := demo [97; 10; 98; 0] 1000 1003 10 in
  fgets_result f 15 [] [97; 10; 98; 99; 10] (fgets (demo_in [99; 10]) 16 f).
Proof.
  apply (fgets_reads_line (demo_in [99; 10])); [apply demo_incoming|..]; try done.
  by repeat apply list.Forall_cons_2.
Defined.

Lemma ungetc_getc_witness : let f := demo [97; 10; 98; 0] 1000 1003 10 in let w := demo_in [] in
  exists f', ungetc w 65 f = Some (w, f', 65) /\ incoming w f' [65; 97; 10; 98] /\ has f' F_EOF = false /\
  exists f'', getc w f' = Some (w, f'', 65) /\ incoming w f'' [97; 10; 98].
Proof. apply (ungetc_getc (demo_in [])); [by apply demo_incoming|done..]. Defined.

Lemma stdio_write_returns_witness : progresses (K := slow) /\
  is_Some (stdio_write (demo_out 7) (demo [0; 0; 0; 0] 0 0 10) [1; 2; 3; 4; 5; 6; 7; 8; 9]).
Proof.
  assert (H : progresses (K := slow)).
  { intros k iov. cbn [writev slow_kernel]. unfold total. destruct (Z.leb_spec (room k) 0); cbn [snd].
    - case_bool_decide as E; [right; rewrite E; simpl; split; [done|by right]|by left].
    - right. destruct (concat iov); simpl; [split; [lia|right; lia]|lia]. }
  split; [exact H|]. by apply stdio_write_returns.
Defined.

(** What these devices get and give. *)
Example fputs_line : match fputs (demo_out 100) [104; 101; 10; 108; 111] (demo [0; 0; 0; 0] 0 0 10) with
  | Some (w, f, r) => (taken w, pending f, r) = ([104; 101; 10; 108; 111], [], 0) | None => False end.
Proof. vm_compute. reflexivity. Qed.
Example fputs_full : match fputs (demo_out 3) [104; 101; 10; 108; 111; 111] (demo [0; 0; 0; 0] 0 0 10) with
  | Some (w, f, r) => (taken w, pending f, r, has f F_ERR) = ([104; 101; 10], [], EOF, true) | None => False end.
Proof. vm_compute. reflexivity. Qed.
