(* ===== verification/Format.v ===== *)
(** * The directives of a format string ([stdio/vfprintf.c], first half of [printf_core])

    What [printf_core] does between a [%] and the conversion: positional arguments,
    flags, width, precision, length modifiers and conversion specifier, and the argument
    that they ask for.  A format is the list of the bytes of the string.  The variable
    arguments are the 64-bit slots they are passed in; floating-point arguments, which
    are passed elsewhere, are not modelled. *)
From S2P Require Import Prelude Mem Intscan.

Definition INT_MAX : Z := 2 ^ 31 - 1.
Definition INT_MIN : Z := - 2 ^ 31.
Definition NL_ARGMAX : nat := 9.
Definition EINVAL : Z := 22.
Definition EOVERFLOW : Z := 75.

(** A result, an error with its [errno], or something the C standard leaves undefined
    (or that is not modelled). *)
Inductive outcome (A : Type) := Ok (a : A) | Err (e : Z) | Undef.
Arguments Ok {A} a.
Arguments Err {A} e.
Arguments Undef {A}.

Definition bind {A B} (x : outcome A) (k : A -> outcome B) : outcome B :=
  match x with Ok a => k a | Err e => Err e | Undef => Undef end.
Declare Scope outcome_scope.
Notation "'let*' x := y 'in' z" := (bind y (fun x => z)) (at level 10, x pattern, z at level 200) : outcome_scope.
Open Scope outcome_scope.

Definition ALT_FORM : Z := Z.shiftl 1 (35 - 32).
Definition ZERO_PAD : Z := Z.shiftl 1 (48 - 32).
Definition LEFT_ADJ : Z := Z.shiftl 1 (45 - 32).
Definition PAD_POS : Z := Z.shiftl 1 (32 - 32).
Definition MARK_POS : Z := Z.shiftl 1 (43 - 32).
Definition GROUPED : Z := Z.shiftl 1 (39 - 32).
Definition FLAGMASK : Z := Z.lor ALT_FORM (Z.lor ZERO_PAD (Z.lor LEFT_ADJ (Z.lor PAD_POS (Z.lor MARK_POS GROUPED)))).

Inductive state :=
  BARE | LPRE | LLPRE | HPRE | HHPRE | BIGLPRE | ZTPRE | JPRE
| PTR | INT | UINT | ULLONG | LONG | ULONG | SHORT | USHORT | CHAR | UCHAR
| LLONG | SIZET | IMAX | UMAX | PDIFF | UIPTR | DBL | LDBL | NOARG.

#[export] Instance state_eq_dec : EqDecision state.
Proof. solve_decision. Defined.

(** [st-1 < STOP] *)
Definition prefix_state (st : state) : bool :=
  match st with LPRE | LLPRE | HPRE | HHPRE | BIGLPRE | ZTPRE | JPRE => true | _ => false end.

(** A character of a set of characters. *)
Definition one_of (c : Z) (cs : list Z) : bool := bool_decide (c ∈ cs).
Definition integer_states (signed unsigned : state) (c : Z) : option state :=
  if one_of c [100; 105] then Some signed
  else if one_of c [111; 117; 120; 88] then Some unsigned else None.
Definition floats : list Z := [101; 102; 103; 97; 69; 70; 71; 65].

(** The table [states]; [BARE] is its 0, for failure. *)
Definition states (st : state) (c : Z) : state :=
  match st with
  | BARE =>
      match integer_states INT UINT c with
      | Some t => t
      | None =>
          if one_of c floats then DBL
          else if c =? 99 then CHAR else if c =? 67 then INT
          else if one_of c [115; 83] then PTR else if c =? 112 then UIPTR else if c =? 110 then PTR
          else if c =? 109 then NOARG
          else if c =? 108 then LPRE else if c =? 104 then HPRE else if c =? 76 then BIGLPRE
          else if c =? 122 then ZTPRE else if c =? 106 then JPRE else if c =? 116 then ZTPRE else BARE
      end
  | LPRE =>
      match integer_states LONG ULONG c with
      | Some t => t
      | None => if one_of c floats then DBL else if c =? 99 then INT else if one_of c [115; 110] then PTR
                else if c =? 108 then LLPRE else BARE
      end
  | LLPRE => match integer_states LLONG ULLONG c with Some t => t | None => if c =? 110 then PTR else BARE end
  | HPRE =>
      match integer_states SHORT USHORT c with
      | Some t => t | None => if c =? 110 then PTR else if c =? 104 then HHPRE else BARE
      end
  | HHPRE => match integer_states CHAR UCHAR c with Some t => t | None => if c =? 110 then PTR else BARE end
  | BIGLPRE => if one_of c floats then LDBL else if c =? 110 then PTR else BARE
  | ZTPRE => match integer_states PDIFF SIZET c with Some t => t | None => if c =? 110 then PTR else BARE end
  | JPRE => match integer_states IMAX UMAX c with Some t => t | None => if c =? 110 then PTR else BARE end
  | _ => BARE
  end.

(** Characters are signed: those above 127 are negative. *)
Definition schar (c : Z) : Z := swrap 8 c.
Definition OOB (x : Z) : bool := 122 - 65 <? u32 (schar x - 65).

(** ** Arguments *)
Definition va_arg (ap : list Z) : outcome (Z * list Z) :=
  match ap with x :: ap => Ok (x, ap) | [] => Undef end.

(** The member [i] of the argument as [pop_arg] stores it; [p] has the same bits. *)
Definition arg_of (type : state) (x : Z) : option Z :=
  match type with
  | PTR | LONG | ULONG | ULLONG | LLONG | SIZET | IMAX | UMAX | PDIFF | UIPTR => Some (u64 x)
  | INT => Some (u64 (s32 x))
  | UINT => Some (u32 x)
  | SHORT => Some (u64 (swrap 16 x))
  | USHORT => Some (u16 x)
  | CHAR => Some (u64 (swrap 8 x))
  | UCHAR => Some (u8 x)
  | _ => None
  end.

Definition pop_arg (type : state) (ap : list Z) : outcome (Z * list Z) :=
  let* (x, ap) := va_arg ap in
  match arg_of type x with Some i => Ok (i, ap) | None => Undef end.

(** ** The state of a pass over the format

    [s] is the rest of the format; [nl_arg] has [None] where nothing was stored. *)
Record pass := { s : list Z; ap : list Z; l10n : bool; nl_type : list state; nl_arg : list (option Z) }.

Definition chr (q : pass) (i : nat) : Z := nth i (s q) 0.
Definition set_s (q : pass) (x : list Z) : pass :=
  {| s := x; ap := ap q; l10n := l10n q; nl_type := nl_type q; nl_arg := nl_arg q |}.
Definition skip (q : pass) (n : nat) : pass := set_s q (drop n (s q)).
Definition set_ap (q : pass) (x : list Z) : pass :=
  {| s := s q; ap := x; l10n := l10n q; nl_type := nl_type q; nl_arg := nl_arg q |}.
Definition set_l10n (q : pass) : pass :=
  {| s := s q; ap := ap q; l10n := true; nl_type := nl_type q; nl_arg := nl_arg q |}.
Definition set_type (q : pass) (i : nat) (t : state) : pass :=
  {| s := s q; ap := ap q; l10n := l10n q; nl_type := <[i := t]> (nl_type q); nl_arg := nl_arg q |}.
Definition set_arg (q : pass) (i : nat) (x : Z) : pass :=
  {| s := s q; ap := ap q; l10n := l10n q; nl_type := nl_type q; nl_arg := <[i := Some x]> (nl_arg q) |}.

Definition stored_arg (q : pass) (i : nat) : outcome Z :=
  match nl_arg q !! i with Some (Some x) => Ok x | _ => Undef end.

(** [isdigit(s[i]) && s[i+1]=='$'] *)
Definition positional (q : pass) (i : nat) : bool := isdigit (chr q i) && (chr q (S i) =? 36).
Definition position (q : pass) (i : nat) : nat := Z.to_nat (chr q i - 48).

(** An [int] for [*]: from the stored arguments, or the next one.  In the first pass
    ([f] is null) its value is not used, and here 0. *)
Definition star (f : bool) (i : nat) (q : pass) : outcome (Z * pass) :=
  if f then let* x := stored_arg q i in Ok (s32 x, q) else Ok (0, q).
Definition next_int (f : bool) (q : pass) : outcome (Z * pass) :=
  if f then let* (x, ap) := va_arg (ap q) in Ok (s32 x, set_ap q ap) else Ok (0, q).

Fixpoint getint_from (i : Z) (s : list Z) : Z * list Z :=
  match s with
  | c :: s' =>
      if isdigit c then
        getint_from (if (INT_MAX / 10 <? u32 i) || (INT_MAX - 10 * i <? c - 48) then -1 else 10 * i + (c - 48)) s'
      else (i, s)
  | [] => (i, s)
  end.
Definition getint (s : list Z) : Z * list Z := getint_from 0 s.

Definition is_flag (c : Z) : bool := (u32 (schar c - 32) <? 32) && nz (Z.land FLAGMASK (Z.shiftl 1 (c - 32))).
Fixpoint read_flags (fl : Z) (s : list Z) : Z * list Z :=
  match s with
  | c :: s' => if is_flag c then read_flags (Z.lor fl (Z.shiftl 1 (c - 32))) s' else (fl, s)
  | [] => (fl, s)
  end.

Definition read_position (q : pass) : Z * pass :=
  if positional q 1 then (chr q 1 - 48, skip (set_l10n q) 3) else (-1, skip q 1).

Definition read_width (f : bool) (fl : Z) (q : pass) : outcome (Z * Z * pass) :=
  if chr q 0 =? 42 then
    let* (w, q) :=
      (if positional q 1 then
         let i := position q 1 in
         let* (w, q) := star f i (set_type (set_l10n q) i INT) in Ok (w, skip q 3)
       else if negb (l10n q) then let* (w, q) := next_int f q in Ok (w, skip q 1)
       else Err EINVAL) in
    if w <? 0 then (if w =? INT_MIN then Undef else Ok (- w, Z.lor fl LEFT_ADJ, q)) else Ok (w, fl, q)
  else
    let '(w, s) := getint (s q) in
    if w <? 0 then Err EOVERFLOW else Ok (w, fl, set_s q s).

(** The precision and whether there is one. *)
Definition read_precision (f : bool) (q : pass) : outcome (Z * bool * pass) :=
  if (chr q 0 =? 46) && (chr q 1 =? 42) then
    let* (p, q) :=
      (if positional q 2 then
         let i := position q 2 in
         let* (p, q) := star f i (set_type q i INT) in Ok (p, skip q 4)
       else if negb (l10n q) then let* (p, q) := next_int f q in Ok (p, skip q 2)
       else Err EINVAL) in
    Ok (p, 0 <=? p, q)
  else if chr q 0 =? 46 then
    let '(p, s) := getint (s (skip q 1)) in Ok (p, true, set_s q s)
  else Ok (-1, false, q).

(** The states before and after the conversion specifier, which is returned too. *)
Fixpoint read_type (ps : state) (s : list Z) : outcome (state * state * Z * list Z) :=
  match s with
  | c :: s =>
      if OOB c then Err EINVAL
      else
        let st := states ps c in
        if prefix_state st then read_type st s
        else if bool_decide (st = BARE) then Err EINVAL
        else Ok (ps, st, c, s)
  | [] => Err EINVAL
  end.

Record directive := { argpos : Z; fl : Z; w : Z; p : Z; xp : bool; ps : state; st : state; t : Z }.

Definition read_directive (f : bool) (q : pass) : outcome (directive * pass) :=
  let '(argpos, q) := read_position q in
  let '(fl, r) := read_flags 0 (s q) in
  let* (w, fl, q) := read_width f fl (set_s q r) in
  let* (p, xp, q) := read_precision f q in
  let* (ps, st, t, r) := read_type BARE (s q) in
  Ok ({| argpos := argpos; fl := fl; w := w; p := p; xp := xp; ps := ps; st := st; t := t |}, set_s q r).

(** The argument of the conversion; [None]: the first pass ends here. *)
Definition fetch (f : bool) (d : directive) (q : pass) : outcome (option (Z * pass)) :=
  if bool_decide (st d = NOARG) then (if 0 <=? argpos d then Err EINVAL else Ok (Some (0, q)))
  else if 0 <=? argpos d then
    let i := Z.to_nat (argpos d) in
    let q := set_type q i (st d) in
    if f then let* x := stored_arg q i in Ok (Some (x, q)) else Ok (Some (0, q))
  else if f then let* (x, ap) := pop_arg (st d) (ap q) in Ok (Some (x, set_ap q ap))
  else Ok None.

(** The literal text at the start: the bytes up to the next [%] or the end, and then
    [%%]s; what is printed and what is left. *)
Fixpoint plain (s : list Z) : nat :=
  match s with c :: s => if c =? 37 then O else S (plain s) | [] => O end.
Fixpoint percents (s : list Z) : nat :=
  match s with
  | c :: r => match r with d :: s => if (c =? 37) && (d =? 37) then S (percents s) else O | [] => O end
  | [] => O
  end.

Definition literal (s : list Z) : list Z * list Z :=
  let a := plain s in
  let z := percents (drop a s) in
  (take (a + z) s, drop (a + 2 * z) s).

(** ** The first pass, without a stream

    The flag says whether it came to the end of the format. *)
Fixpoint first_pass (fuel : nat) (q : pass) (cnt l : Z) : outcome (bool * pass) :=
  match fuel with
  | O => Undef
  | S fuel =>
      if INT_MAX - cnt <? l then Err EOVERFLOW
      else
        let cnt := cnt + l in
        match s q with
        | [] => Ok (true, q)
        | _ =>
            let '(lit, r) := literal (s q) in
            let l := Z.of_nat (length lit) in
            if INT_MAX - cnt <? l then Err EOVERFLOW
            else
              let q := set_s q r in
              if nz l then first_pass fuel q cnt l
              else
                let* (d, q) := read_directive false q in
                let* r := fetch false d q in
                match r with None => Ok (false, q) | Some (_, q) => first_pass fuel q cnt l end
        end
  end.

(** The arguments in the order of their positions. *)
Fixpoint pop_all (i n : nat) (q : pass) : outcome (nat * pass) :=
  match n with
  | O => Ok (i, q)
  | S n =>
      match nl_type q !! i with
      | Some BARE | None => Ok (i, q)
      | Some type => let* (x, ap) := pop_arg type (ap q) in pop_all (S i) n (set_arg (set_ap q ap) i x)
      end
  end.

Definition scan_format (q : pass) : outcome (Z * pass) :=
  let* (ended, q) := first_pass (S (length (s q))) q 0 0 in
  if negb ended || negb (l10n q) then Ok (0, q)
  else
    let* (i, q) := pop_all 1 NL_ARGMAX q in
    if forallb (fun t => bool_decide (t = BARE)) (drop i (nl_type q)) then Ok (1, q) else Err EINVAL.

(** ** Reading moves on, and keeps numbers in range *)
Lemma drop_suffix {A} n (l : list A) : drop n l `suffix_of` l.
Proof. exists (take n l). by rewrite take_drop. Qed.

Lemma read_flags_suffix fl s : (read_flags fl s).2 `suffix_of` s.
Proof.
  revert fl. induction s as [|c s IH]; intros fl; [done|]. cbn [read_flags]. destruct (is_flag c); [|done].
  etrans; [apply IH|]. by exists [c].
Qed.

Lemma getint_suffix i s : (getint_from i s).2 `suffix_of` s.
Proof.
  revert i. induction s as [|c s IH]; intros i; [done|]. cbn [getint_from]. destruct (isdigit c); [|done].
  etrans; [apply IH|]. by exists [c].
Qed.

Lemma isdigit_range c : is_byte c -> isdigit c = true -> 48 <= c <= 57.
Proof.
  unfold is_byte, isdigit. intros Hc Hd. apply Z.ltb_lt in Hd. destruct (Z.le_gt_cases 48 c); [rewrite wrap_small in Hd; lia|].
  unfold wrap in Hd. rewrite <- (Z.mod_unique_pos (c - 48) (2 ^ 32) (-1) (c - 48 + 2 ^ 32)) in Hd by lia. lia.
Qed.

(** The number that [getint] reads, or -1 when it is more than an [int] can hold. *)
Lemma getint_range i s : Forall is_byte s -> -1 <= i <= INT_MAX -> -1 <= (getint_from i s).1 <= INT_MAX.
Proof.
  unfold INT_MAX. revert i. induction s as [|c s IH]; intros i Hs Hi; [done|]. apply list.Forall_cons in Hs as [Hc Hs]. cbn [getint_from].
  destruct (isdigit c) eqn:Ed; [|done]. apply isdigit_range in Ed; [|done]. apply IH; [done|]. unfold INT_MAX.
  destruct (decide (i = -1)) as [->|Hne]; [by change (2147483647 / 10 <? u32 (-1)) with true|].
  rewrite wrap_small by lia. destruct (Z.ltb_spec ((2 ^ 31 - 1) / 10) i); cbn [orb]; [lia|].
  destruct (Z.ltb_spec (2 ^ 31 - 1 - 10 * i) (c - 48)); lia.
Qed.

Lemma star_s f i q w q' : star f i q = Ok (w, q') -> s q' = s q /\ (f = true -> INT_MIN <= w <= INT_MAX) /\ (f = false -> w = 0).
Proof.
  unfold star, stored_arg, INT_MIN, INT_MAX. destruct f; [|by intros [= <- <-]].
  destruct (nl_arg q !! i) as [[x|]|]; [|done..]. cbn [bind]. intros [= <- <-].
  pose proof (swrap_range 32 x ltac:(lia)). split; [done|]. split; [lia|done].
Qed.

Lemma next_int_s f q w q' : next_int f q = Ok (w, q') -> s q' = s q /\ (f = true -> INT_MIN <= w <= INT_MAX) /\ (f = false -> w = 0).
Proof.
  unfold next_int, INT_MIN, INT_MAX. destruct f; [|by intros [= <- <-]].
  destruct (ap q) as [|x l]; [done|]. cbn [va_arg bind]. intros [= <- <-].
  pose proof (swrap_range 32 x ltac:(lia)). split; [done|]. split; [lia|done].
Qed.

Lemma starred_ok f (b b' : bool) i q0 q n n' w q' : s q0 = s q ->
  (if b then let* (w, q) := star f i q0 in Ok (w, skip q n)
   else if b' then let* (w, q) := next_int f q in Ok (w, skip q n') else Err EINVAL) = Ok (w, q') ->
  INT_MIN <= w <= INT_MAX /\ s q' `suffix_of` s q.
Proof.
  intros E0. destruct b; [|destruct b'; [|done]].
  - destruct (star f i q0) as [[w1 q1]| |] eqn:Es; [|done..]. cbn [bind]. intros [= <- <-]. apply star_s in Es as (Eq & Hw & Hw').
    split; [unfold INT_MIN, INT_MAX in *; destruct f; [by apply Hw|rewrite Hw' by done; lia]|]. cbn [skip set_s s]. rewrite Eq, E0. apply drop_suffix.
  - destruct (next_int f q) as [[w1 q1]| |] eqn:Es; [|done..]. cbn [bind]. intros [= <- <-]. apply next_int_s in Es as (Eq & Hw & Hw').
    split; [unfold INT_MIN, INT_MAX in *; destruct f; [by apply Hw|rewrite Hw' by done; lia]|]. cbn [skip set_s s]. rewrite Eq. apply drop_suffix.
Qed.

Lemma read_width_ok f fl q w fl' q' : read_width f fl q = Ok (w, fl', q') -> Forall is_byte (s q) ->
  0 <= w <= INT_MAX /\ s q' `suffix_of` s q.
Proof.
  unfold read_width. intros E Hs. destruct (chr q 0 =? 42).
  - set (r := if positional q 1 then _ else _) in E.
    assert (Hr : forall w0 q0, r = Ok (w0, q0) -> INT_MIN <= w0 <= INT_MAX /\ s q0 `suffix_of` s q) by (intros w0 q0; by apply starred_ok).
    clearbody r. destruct r as [[w0 q0]| |]; [|done..]. cbn [bind] in E. destruct (Hr w0 q0 eq_refl) as [Hw Hq]. unfold INT_MIN, INT_MAX in *.
    destruct (Z.ltb_spec w0 0); [destruct (Z.eqb_spec w0 (- 2 ^ 31)); [done|]|]; injection E as <- <- <-; split; (done || lia).
  - pose proof (getint_suffix 0 (s q)) as Hsuf. pose proof (getint_range 0 (s q) Hs ltac:(unfold INT_MAX; lia)) as Hr. unfold getint in E.
    destruct (getint_from 0 (s q)) as [w0 r]. destruct (Z.ltb_spec w0 0); [done|]. injection E as <- <- <-. cbn [fst snd] in *. split; [lia|done].
Qed.

Lemma read_precision_ok f q p xp q' : read_precision f q = Ok (p, xp, q') -> Forall is_byte (s q) ->
  INT_MIN <= p <= INT_MAX /\ (xp = true -> -1 <= p) /\ (xp = false -> p < 0) /\ s q' `suffix_of` s q.
Proof.
  unfold read_precision. intros E Hs. destruct ((chr q 0 =? 46) && (chr q 1 =? 42)).
  - set (r := if positional q 2 then _ else _) in E.
    assert (Hr : forall w0 q0, r = Ok (w0, q0) -> INT_MIN <= w0 <= INT_MAX /\ s q0 `suffix_of` s q) by (intros w0 q0; by apply starred_ok).
    clearbody r. destruct r as [[w0 q0]| |]; [|done..]. cbn [bind] in E. destruct (Hr w0 q0 eq_refl) as [Hw Hq]. injection E as <- <- <-.
    split; [done|]. destruct (Z.leb_spec 0 w0); (split; [intros; (done || lia)|split; [intros; (done || lia)|done]]).
  - destruct (chr q 0 =? 46); [|injection E as <- <- <-; unfold INT_MIN, INT_MAX; (split; [lia|split; [done|split; [lia|done]]])].
    assert (Hs1 : Forall is_byte (s (skip q 1))) by (by apply list.Forall_drop). pose proof (getint_suffix 0 (s (skip q 1))) as Hsuf.
    pose proof (getint_range 0 _ Hs1 ltac:(unfold INT_MAX; lia)) as Hr. unfold getint in E.
    destruct (getint_from 0 (s (skip q 1))) as [p0 r]. injection E as <- <- <-. cbn [fst snd] in *. unfold INT_MIN, INT_MAX in *.
    split; [lia|]. split; [lia|]. split; [done|]. etrans; [exact Hsuf|apply drop_suffix].
Qed.

Lemma read_type_ok ps s ps' st t r : read_type ps s = Ok (ps', st, t, r) -> r `suffix_of` s /\ prefix_state st = false /\ st <> BARE.
Proof.
  revert ps. induction s as [|c s IH]; intros ps; cbn [read_type]; [done|]. destruct (OOB c); [done|].
  destruct (prefix_state (states ps c)) eqn:Ep.
  - intros E. apply IH in E as (Hr & Hs). split; [|done]. etrans; [exact Hr|]. by exists [c].
  - case_bool_decide as Eb; [done|]. intros [= <- <- <- <-]. split; [by exists [c]|done].
Qed.

Lemma isdigit_position q i : Forall is_byte (s q) -> positional q i = true -> 0 <= chr q i - 48 <= 9.
Proof.
  unfold positional. intros Hs [Hd _]%andb_true_iff. enough (is_byte (chr q i)) as Hb by (pose proof (isdigit_range _ Hb Hd); lia).
  unfold chr. destruct (Nat.lt_ge_cases i (length (s q))) as [Hi|Hi]; [|rewrite nth_overflow by done; unfold is_byte; lia].
  rewrite list.Forall_forall in Hs. apply Hs, list_elem_of_In, nth_In. done.
Qed.

(** A directive that is read has its numbers in range: the position of its argument is
    -1 or a digit, the width an [int] that is not negative, the precision an [int] that
    is negative exactly when there is none (or when it was too large to hold, and there
    is one); its conversion has a type, and the format is shorter after it. *)
Lemma read_directive_ok f q d q' : read_directive f q = Ok (d, q') -> Forall is_byte (s q) -> s q <> [] ->
  -1 <= argpos d <= 9 /\ 0 <= w d <= INT_MAX /\ INT_MIN <= p d <= INT_MAX /\
  (xp d = true -> -1 <= p d) /\ (xp d = false -> p d < 0) /\
  prefix_state (st d) = false /\ st d <> BARE /\
  s q' `suffix_of` s q /\ (length (s q') < length (s q))%nat.
Proof.
  intros E Hs Hne. unfold read_directive in E.
  assert (Hpos : let '(a, q1) := read_position q in -1 <= a <= 9 /\ s q1 `suffix_of` s q /\ (length (s q1) < length (s q))%nat).
  { unfold read_position. destruct (positional q 1) eqn:Ep; cbn [skip set_s set_l10n s]; (split; [|split; [apply drop_suffix|rewrite length_drop; destruct (s q); [done|simpl; lia]]]).
    - pose proof (isdigit_position q 1 Hs Ep). lia.
    - lia. }
  destruct (read_position q) as [a q1]. destruct Hpos as (Ha & Hq1 & Hlen). pose proof (read_flags_suffix 0 (s q1)) as Hfl.
  destruct (read_flags 0 (s q1)) as [fl0 r1]. cbn [snd] in Hfl.
  assert (Hsuf1 : r1 `suffix_of` s q) by (by etrans). assert (Hb : forall r, r `suffix_of` s q -> Forall is_byte r) by (intros r [k Ek]; rewrite Ek in Hs; by apply list.Forall_app in Hs as [_ ?]).
  destruct (read_width f fl0 (set_s q1 r1)) as [[[w0 fl1] q2]| |] eqn:Ew; [|done..]. cbn [bind] in E.
  apply read_width_ok in Ew as [Hw Hq2]; [|by apply Hb]. cbn [set_s s] in Hq2. assert (Hsuf2 : s q2 `suffix_of` s q) by (by etrans).
  destruct (read_precision f q2) as [[[p0 xp0] q3]| |] eqn:Ep; [|done..]. cbn [bind] in E.
  apply read_precision_ok in Ep as (Hp & Hxp & Hnp & Hq3); [|by apply Hb]. assert (Hsuf3 : s q3 `suffix_of` s q) by (by etrans).
  destruct (read_type BARE (s q3)) as [[[[ps0 st0] t0] r3]| |] eqn:Et; [|done..]. cbn [bind] in E. apply read_type_ok in Et as (Hr3 & Hst & Hbare).
  injection E as <- <-. cbn [argpos w p xp st set_s s]. do 7 (split; [done|]). split; [by etrans|].
  assert (Hl : r3 `suffix_of` s q1) by (etrans; [exact Hr3|etrans; [exact Hq3|etrans; [exact Hq2|exact Hfl]]]). apply suffix_length in Hl. lia.
Qed.

Lemma fetch_s f d q x q' : fetch f d q = Ok (Some (x, q')) -> s q' = s q.
Proof.
  unfold fetch. case_bool_decide; [destruct (0 <=? argpos d); [done|]; by intros [= <- <-]|].
  destruct (0 <=? argpos d); destruct f; try done; [| |].
  - destruct (stored_arg _ _); [|done..]. cbn [bind]. by intros [= <- <-].
  - by intros [= <- <-].
  - destruct (pop_arg (st d) (ap q)) as [[y l]| |]; [|done..]. cbn [bind]. by intros [= <- <-].
Qed.

Lemma percents_le s : (2 * percents s <= length s)%nat.
Proof.
  enough (H : forall n s, (length s <= n)%nat -> (2 * percents s <= length s)%nat) by (by apply (H (length s))).
  clear s. induction n as [|n IH]; intros s Hn; [destruct s; [done|simpl in Hn; lia]|].
  destruct s as [|c [|d s]]; [done|simpl; lia|]. cbn [percents length] in *. destruct (_ && _); [|lia]. specialize (IH s ltac:(lia)). lia.
Qed.

(** The literal text uses up as much of the format, and nothing when it is empty. *)
Lemma literal_ok s lit rest : literal s = (lit, rest) ->
  rest `suffix_of` s /\ (length rest + length lit <= length s)%nat /\ (lit = [] -> rest = s).
Proof.
  unfold literal. set (a := plain s). assert (Ha : (a <= length s)%nat) by (subst a; induction s as [|c s IH]; [done|]; cbn [plain length]; destruct (c =? 37); lia).
  pose proof (percents_le (drop a s)) as Hz. rewrite length_drop in Hz. set (z := percents (drop a s)) in *. intros [= <- <-].
  split; [apply drop_suffix|]. rewrite length_drop, length_take. split; [lia|].
  intros E. apply (f_equal length) in E. rewrite length_take in E. simpl in E. assert (a + z = 0)%nat by lia.
  by replace (a + (z + (z + 0)))%nat with 0%nat by lia.
Qed.

(** The first pass over a literal text, and at the end. *)
Lemma first_pass_text fuel q cnt l lit rest : s q <> [] -> literal (s q) = (lit, rest) -> lit <> [] -> 0 <= l -> cnt + l + Z.of_nat (length lit) <= INT_MAX ->
  first_pass (S fuel) q cnt l = first_pass fuel (set_s q rest) (cnt + l) (Z.of_nat (length lit)).
Proof.
  intros Hne Hlit Hl Hl0 Hmax. assert (Hpos : 0 < Z.of_nat (length lit)) by (destruct lit; [done|simpl; lia]).
  cbn [first_pass]. rewrite (proj2 (Z.ltb_ge _ _)) by lia. destruct (s q) as [|c sq]; [done|]. rewrite Hlit.
  rewrite (proj2 (Z.ltb_ge _ _)) by lia. by rewrite (proj2 (nz_true _)) by lia.
Qed.

Lemma first_pass_end fuel q cnt l : s q = [] -> cnt + l <= INT_MAX -> first_pass (S fuel) q cnt l = Ok (true, q).
Proof. intros Hq Hmax. cbn [first_pass]. rewrite (proj2 (Z.ltb_ge _ _)) by lia. by rewrite Hq. Qed.
