(* ===== verification/Printf.v ===== *)
(** * Formatted output ([stdio/vfprintf.c])

    The conversions and the second pass of [printf_core], and [vfprintf], on any device
    that can be written to.  Conversions of floating-point numbers and [%m], the text of
    an error, are not modelled: a format that uses one has no result. *)
From S2P Require Import Prelude Mem StrScan Utf8 Intscan Numerals Stdio Format.

Definition to_outcome {A} (x : option A) : outcome A := match x with Some a => Ok a | None => Undef end.

(** ["-+   0X0x"] and ["(null)"] *)
Definition signs : list Z := [45; 43; 32; 32; 32; 48; 88; 48; 120].
Definition null_text : list Z := [40; 110; 117; 108; 108; 41].
Definition UINTPTR_DIGITS : Z := 16.
Definition INTMAX_MAX : Z := 2 ^ 63 - 1.
Definition EILSEQ : Z := 84.

Definition flag (fl b : Z) : bool := nz (Z.land fl b).
Definition clear (fl b : Z) : Z := Z.land fl (Z.lnot b).

(** What is printed for a directive: the prefix, the text between [a] and [z], the
    precision and the flags. *)
Record field := { pre : list Z; body : list Z; prec : Z; fflags : Z }.

(** After the digits of an integer, from [if (xp && p<0)] on. *)
Definition finish_integer (pre : list Z) (x : Z) (a : list Z) (p : Z) (xp : bool) (fl : Z) : outcome field :=
  if xp && (p <? 0) then Err EOVERFLOW
  else
    let fl := if xp then clear fl ZERO_PAD else fl in
    if negb (nz x) && negb (nz p) then Ok {| pre := pre; body := []; prec := p; fflags := fl |}
    else Ok {| pre := pre; body := a; prec := Z.max p (Z.of_nat (length a) + b2z (negb (nz x))); fflags := fl |}.

(** [case 'x'] and [case 'X'], with [t] the letter. *)
Definition convert_hex (t x p : Z) (xp : bool) (fl : Z) : outcome field :=
  let a := fmt_x x [] (Z.land t 32) in
  let prefix := if nz x && flag fl ALT_FORM then take 2 (drop (Z.to_nat (Z.shiftr t 4)) signs) else [] in
  finish_integer prefix x a p xp fl.

Definition convert_octal (x p : Z) (xp : bool) (fl : Z) : outcome field :=
  let a := fmt_o x [] in
  let z_a := Z.of_nat (length a) in
  let p := if flag fl ALT_FORM && (p <? z_a + 1) then z_a + 1 else p in
  finish_integer [] x a p xp fl.

Definition convert_unsigned (prefix : list Z) (x p : Z) (xp : bool) (fl : Z) : outcome field :=
  finish_integer prefix x (fmt_u x []) p xp fl.

Definition convert_signed (x p : Z) (xp : bool) (fl : Z) : outcome field :=
  if INTMAX_MAX <? x then convert_unsigned (take 1 signs) (u64 (- x)) p xp fl
  else if flag fl MARK_POS then convert_unsigned (take 1 (drop 1 signs)) x p xp fl
  else if flag fl PAD_POS then convert_unsigned (take 1 (drop 2 signs)) x p xp fl
  else convert_unsigned [] x p xp fl.

(** [case 'p']: the comparison of [p] with twice the size of a pointer is unsigned. *)
Definition convert_pointer (x p : Z) (xp : bool) (fl : Z) : outcome field :=
  let p := if UINTPTR_DIGITS <? u64 p then p else UINTPTR_DIGITS in
  convert_hex 120 x p xp (Z.lor fl ALT_FORM).

Definition convert_char (x fl : Z) : field := {| pre := []; body := [u8 x]; prec := 1; fflags := clear fl ZERO_PAD |}.

Definition convert_string (m : mem) (x p fl : Z) : outcome field :=
  let max := if p <? 0 then INT_MAX else p in
  if nz x then
    let* n := to_outcome (strnlen m x max) in
    let* z := (if p <? 0 then to_outcome (load8 m (x + n)) else Ok 0) in
    if nz z then Err EOVERFLOW
    else Ok {| pre := []; body := bytes_of m x n; prec := n; fflags := clear fl ZERO_PAD |}
  else
    let a := take (Z.to_nat max) null_text in
    Ok {| pre := []; body := a; prec := Z.of_nat (length a); fflags := clear fl ZERO_PAD |}.

(** [t] with [ls] and [lc] changed to [S] and [C]. *)
Definition letter (d : directive) : Z :=
  if negb (bool_decide (ps d = BARE)) && (Z.land (t d) 15 =? 3) then clear (t d) 32 else t d.
Definition flags_of (d : directive) : Z := if flag (fl d) LEFT_ADJ then clear (fl d) ZERO_PAD else fl d.

(** The conversions that fill in a field. *)
Definition convert (m : mem) (d : directive) (x : Z) : outcome field :=
  let t := letter d in
  let fl := flags_of d in
  if t =? 112 then convert_pointer x (p d) (xp d) fl
  else if one_of t [120; 88] then convert_hex t x (p d) (xp d) fl
  else if t =? 111 then convert_octal x (p d) (xp d) fl
  else if one_of t [100; 105] then convert_signed x (p d) (xp d) fl
  else if t =? 117 then convert_unsigned [] x (p d) (xp d) fl
  else if t =? 99 then Ok (convert_char x fl)
  else if t =? 115 then convert_string m x (p d) fl
  else Undef.

(** [%n] *)
Definition store_count (m : mem) (ps : state) (a cnt : Z) : option mem :=
  match ps with
  | BARE => store_le 4 m a cnt
  | LPRE | LLPRE | ZTPRE | JPRE => store_le 8 m a cnt
  | HPRE => store_le 2 m a cnt
  | HHPRE => store_le 1 m a cnt
  | _ => Some m
  end.

(** ** Wide characters *)

(** The bytes of [mb] after [wctomb], or a failure. *)
Definition to_bytes (utf8 : bool) (wc : Z) : outcome (list Z) :=
  let* (l, m) := to_outcome (wctomb utf8 (write_bytes ∅ 1 [0; 0; 0; 0]) 1 wc) in
  if l <? 0 then Err EILSEQ else Ok (bytes_of m 1 l).

(** The characters that [ws] points to: those of the argument, or the one of [%lc]. *)
Definition wide_at (m : mem) (x : Z) (k : nat) : outcome Z :=
  let* c := to_outcome (load_le 4 m (x + 4 * Z.of_nat k)) in Ok (s32 c).
Definition wide_one (x : Z) (k : nat) : outcome Z :=
  match k with O => Ok (s32 x) | S O => Ok 0 | _ => Undef end.

(** The first loop, which counts the bytes, and the second one, which prints them. *)
Fixpoint wide_length (fuel : nat) (utf8 : bool) (ws : nat -> outcome Z) (k : nat) (i p : Z) : outcome Z :=
  match fuel with
  | O => Undef
  | S fuel =>
      if i <? u64 p then
        let* c := ws k in
        if nz c then
          let* mb := to_bytes utf8 c in
          if Z.of_nat (length mb) <=? u64 (u64 p - i) then wide_length fuel utf8 ws (S k) (i + Z.of_nat (length mb)) p
          else Ok i
        else Ok i
      else Ok i
  end.

Section printing.
Context {W : Type} `{Writer W}.

Definition out (wf : W * FILE) (s : list Z) : outcome (W * FILE) :=
  let '(w, f) := wf in
  if has f F_ERR then Ok (w, f)
  else let* (w, f, _) := to_outcome (fwritex w s f) in Ok (w, f).

Fixpoint pad_loop (fuel : nat) (wf : W * FILE) (c l : Z) : outcome (W * FILE) :=
  match fuel with
  | O => Undef
  | S fuel =>
      if 256 <=? l then let* wf := out wf (replicate 256 c) in pad_loop fuel wf c (l - 256)
      else out wf (replicate (Z.to_nat l) c)
  end.
Definition pad (wf : W * FILE) (c w l fl : Z) : outcome (W * FILE) :=
  if flag fl (Z.lor LEFT_ADJ ZERO_PAD) || (w <=? l) then Ok wf
  else pad_loop (S (Z.to_nat (w - l))) wf c (w - l).

(** From [if (p < z-a) p = z-a] on; the new value of [l]. *)
Definition print_field (wf : W * FILE) (r : field) (w cnt : Z) : outcome (W * FILE * Z) :=
  let pl := Z.of_nat (length (pre r)) in
  let z_a := Z.of_nat (length (body r)) in
  let fl := fflags r in
  let p := if prec r <? z_a then z_a else prec r in
  if INT_MAX - pl <? p then Err EOVERFLOW
  else
    let w := if w <? pl + p then pl + p else w in
    if INT_MAX - cnt <? w then Err EOVERFLOW
    else
      let* wf := pad wf 32 w (pl + p) fl in
      let* wf := out wf (pre r) in
      let* wf := pad wf 48 w (pl + p) (Z.lxor fl ZERO_PAD) in
      let* wf := pad wf 48 p z_a 0 in
      let* wf := out wf (body r) in
      let* wf := pad wf 32 w (pl + p) (Z.lxor fl LEFT_ADJ) in
      Ok (wf, w).

Fixpoint print_wide_loop (fuel : nat) (utf8 : bool) (ws : nat -> outcome Z) (wf : W * FILE) (k : nat) (i p : Z) : outcome (W * FILE) :=
  match fuel with
  | O => Undef
  | S fuel =>
      if i <? u32 p then
        let* c := ws k in
        if nz c then
          let* mb := to_bytes utf8 c in
          if i + Z.of_nat (length mb) <=? u64 p then
            let* wf := out wf mb in print_wide_loop fuel utf8 ws wf (S k) (i + Z.of_nat (length mb)) p
          else Ok wf
        else Ok wf
      else Ok wf
  end.

(** [case 'C'] and [case 'S']; the new value of [l]. *)
Definition print_wide (utf8 : bool) (wf : W * FILE) (m : mem) (ws : nat -> outcome Z) (p w fl : Z) : outcome (W * FILE * Z) :=
  let fuel := S (fuel_of m) in
  let* i := wide_length fuel utf8 ws 0 0 p in
  if INT_MAX <? i then Err EOVERFLOW
  else
    let p := i in
    let* wf := pad wf 32 w p fl in
    let* wf := print_wide_loop fuel utf8 ws wf 0 0 p in
    let* wf := pad wf 32 w p (Z.lxor fl LEFT_ADJ) in
    Ok (wf, if p <? w then w else p).

(** The device, the stream, the memory, the returned value and [errno], if it is set. *)
Definition result : Type := W * FILE * mem * Z * option Z.

(** What a directive does to them: the new value of [l], or the error it ends with. *)
Definition perform (utf8 : bool) (wf : W * FILE) (m : mem) (d : directive) (x cnt : Z) : outcome (W * FILE * mem * Z) :=
  if letter d =? 110 then let* m := to_outcome (store_count m (ps d) x cnt) in Ok (wf, m, 0)
  else if letter d =? 67 then let* (wf, l) := print_wide utf8 wf m (wide_one x) (-1) (w d) (flags_of d) in Ok (wf, m, l)
  else if letter d =? 83 then let* (wf, l) := print_wide utf8 wf m (wide_at m x) (p d) (w d) (flags_of d) in Ok (wf, m, l)
  else
    let* r := convert m d x in
    let* (wf, l) := print_field wf r (w d) cnt in Ok (wf, m, l).

Fixpoint printf_core (fuel : nat) (utf8 : bool) (wf : W * FILE) (m : mem) (q : pass) (cnt l : Z) : option result :=
  let fail e := Some (wf, m, -1, Some e) in
  match fuel with
  | O => None
  | S fuel =>
      if INT_MAX - cnt <? l then fail EOVERFLOW
      else
        let cnt := cnt + l in
        match s q with
        | [] => Some (wf, m, cnt, None)
        | _ =>
            let '(lit, rest) := literal (s q) in
            let l := Z.of_nat (length lit) in
            if INT_MAX - cnt <? l then fail EOVERFLOW
            else
              match out wf lit with
              | Ok wf =>
                  let q := set_s q rest in
                  if nz l then printf_core fuel utf8 wf m q cnt l
                  else
                    match (let* (d, q) := read_directive true q in
                           let* r := fetch true d q in
                           match r with Some (x, q) => Ok (d, x, q) | None => Undef end) with
                    | Ok (d, x, q) =>
                        match perform utf8 wf m d x cnt with
                        | Ok (wf, m, l) => printf_core fuel utf8 wf m q cnt l
                        | Err e => Some (wf, m, -1, Some e)
                        | Undef => None
                        end
                    | Err e => Some (wf, m, -1, Some e)
                    | Undef => None
                    end
              | _ => None
              end
        end
  end.

(** The state of a pass at its start. *)
Definition start (fmt ap : list Z) (types : list state) (args : list (option Z)) : pass :=
  {| s := fmt; ap := ap; l10n := false; nl_type := types; nl_arg := args |}.

(** The array [internal_buf] is at [internal], with any bytes [junk] in it. *)
Definition vfprintf (internal : Z) (junk : list Z) (utf8 : bool) (wf : W * FILE) (fmt : list Z) (m : mem) (ap : list Z) : option result :=
  match scan_format (start fmt ap (replicate (S NL_ARGMAX) BARE) (replicate (S NL_ARGMAX) None)) with
  | Undef => None
  | Err e => Some (wf, m, -1, Some e)
  | Ok (_, q) =>
      let '(w, f) := wf in
      let olderr := Z.land (flags f) F_ERR in
      let f := if mode f <? 1 then set_flags f (Z.land (flags f) (Z.lnot F_ERR)) else f in
      let saved := if nz (buf_size f) then 0 else buf f in
      let f0 := f in
      let f := if nz (buf_size f) then f
               else set_data (set_write (set_buf f internal 80) internal internal (internal + 80)) (write_bytes (data f) internal junk) in
      '(w, f, m, ret, err) ← printf_core (S (length fmt)) utf8 (w, f) m (start fmt (Format.ap q) (nl_type q) (nl_arg q)) 0 0;
      '(w, f, ret) ←
        (if nz saved then
           '(w, f, _) ← write w f [];
           let ret := if wpos f =? 0 then -1 else ret in
           Some (w, set_data (set_write (set_buf f saved 0) 0 0 0) (data f0), ret)
         else Some (w, f, ret));
      let ret := if has f F_ERR then -1 else ret in
      Some (w, raise f olderr, m, ret, err)
  end.
End printing.

(** ** What is printed *)
Section printed.
Context {W : Type} `{WriterLaws W} (fl0 : Z).

(** The stream holds [l], or an error occurred and it holds a part of [l]; [fl0] are the
    flags before. *)
Definition printed (wf : W * FILE) (l : list Z) : Prop :=
  (flags wf.2 = fl0 /\ stream wf.1 wf.2 l) \/
  (can_fail W /\ flags wf.2 = Z.lor fl0 F_ERR /\ exists k, stream wf.1 wf.2 (take k l)).

Context (Hwritable : nz (Z.land fl0 F_NOWR) = false) (Hclean : nz (Z.land fl0 F_ERR) = false).

Lemma take_shorter (k : nat) (l s : list Z) : exists k', take k l = take k' (l ++ s).
Proof.
  exists (k `min` length l)%nat. rewrite take_app_le by lia.
  destruct (Nat.le_ge_cases k (length l)); [by rewrite Nat.min_l|rewrite Nat.min_r, !take_ge by lia; done].
Qed.

Lemma printed_more wf l s : flags wf.2 = Z.lor fl0 F_ERR -> printed wf l -> printed wf (l ++ s).
Proof using Hclean.
  intros E [[E' _]|(Hcan & _ & k & Hk)].
  - exfalso. rewrite E in E'. assert (Hb : has (raise (set_flags (wf.2) fl0) F_ERR) F_ERR = true) by (by apply has_raise).
    unfold has, raise in Hb. cbn [flags set_flags] in Hb. rewrite E' in Hb. congruence.
  - right. split; [done|]. split; [done|]. destruct (take_shorter k l s) as [k' Ek]. exists k'. by rewrite <- Ek.
Qed.

Lemma out_ok wf l s : printed wf l -> exists wf', out wf s = Ok wf' /\ printed wf' (l ++ s).
Proof using Hwritable Hclean.
  intros Hp. destruct wf as [w f]. unfold out. destruct (has f F_ERR) eqn:He.
  - exists (w, f). split; [done|]. destruct Hp as [[E Hs]|(Hcan & E & Hs)]; [unfold has in He; cbn [snd] in E; rewrite E in He; congruence|].
    apply printed_more; [done|]. by right.
  - destruct Hp as [[E Hs]|(Hcan & E & Hs)].
    + cbn [fst snd] in E, Hs. assert (Hn : has f F_NOWR = false) by (unfold has; by rewrite E).
      destruct (fwritex_ok w s f l Hs Hn) as (w' & f' & n & -> & [(_ & (Hfl & _ & Hs') & _)|(_ & (Hcan & Hfl & _ & Hk))]).
      * exists (w', f'). split; [done|]. left. split; [cbn; congruence|done].
      * exists (w', f'). split; [done|]. right. split; [done|]. split; [cbn; congruence|done].
    + exfalso. pose proof (has_raise (set_flags f fl0) F_ERR ltac:(done)) as Hb. unfold has, raise in *. cbn [flags set_flags snd] in *.
      rewrite E in He. congruence.
Qed.

End printed.

Definition blanks (c n : Z) : list Z := replicate (Z.to_nat n) c.
Lemma length_blanks c n : Z.of_nat (length (blanks c n)) = Z.max 0 n.
Proof. unfold blanks. rewrite length_replicate. lia. Qed.
Lemma blanks_nonpos c n : n <= 0 -> blanks c n = [].
Proof. intros. unfold blanks. by replace (Z.to_nat n) with O by lia. Qed.
Lemma blanks_add c n k : 0 <= n -> 0 <= k -> blanks c (n + k) = blanks c n ++ blanks c k.
Proof. intros. unfold blanks. by rewrite Z2Nat.inj_add, replicate_add by lia. Qed.

Definition padding (c w l fl : Z) : list Z := if flag fl (Z.lor LEFT_ADJ ZERO_PAD) then [] else blanks c (w - l).

(** What is proved of the printing functions holds for every relation [P] between a stream
    and the text printed on it that [out] extends. *)
Section sink.
Context {W : Type} `{Writer W} (P : W * FILE -> list Z -> Prop).
Context (Hout : forall wf l s, P wf l -> exists wf', out wf s = Ok wf' /\ P wf' (l ++ s)).

Lemma pad_loop_ok fuel wf l c n : P wf l -> 0 <= n < Z.of_nat fuel ->
  exists wf', pad_loop fuel wf c n = Ok wf' /\ P wf' (l ++ blanks c n).
Proof using Hout.
  revert wf l n. induction fuel as [|fuel IH]; intros wf l n Hp Hn; [lia|]. cbn [pad_loop].
  destruct (Z.leb_spec 256 n).
  - destruct (Hout wf l (blanks c 256) Hp) as (wf1 & E1 & Hp1). change (replicate 256 c) with (blanks c 256). rewrite E1. cbn [bind].
    destruct (IH wf1 (l ++ blanks c 256) (n - 256) Hp1 ltac:(lia)) as (wf2 & E2 & Hp2). exists wf2. split; [done|].
    rewrite <- app_assoc in Hp2. replace n with (256 + (n - 256)) by lia. rewrite blanks_add by lia. done.
  - by apply Hout.
Qed.

Lemma pad_prints wf l c w n fl : P wf l -> exists wf', pad wf c w n fl = Ok wf' /\ P wf' (l ++ padding c w n fl).
Proof using Hout.
  intros Hp. unfold pad, padding. destruct (flag fl _); [exists wf; by rewrite app_nil_r|]. cbn [orb].
  destruct (Z.leb_spec w n); [exists wf; rewrite blanks_nonpos, app_nil_r by lia; done|]. apply pad_loop_ok; [done|lia].
Qed.
End sink.

(** ** A field, justified *)
Lemma flag_bit fl k : 0 <= k -> flag fl (2 ^ k) = Z.testbit fl k.
Proof.
  intros Hk. unfold flag. destruct (Z.testbit fl k) eqn:E.
  - apply nz_true. intros E0. apply (f_equal (fun z => Z.testbit z k)) in E0.
    rewrite Z.land_spec, E, Z.pow2_bits_true, Z.bits_0 in E0 by lia. done.
  - apply nz_false. apply Z.bits_inj'. intros i Hi. rewrite Z.land_spec, Z.bits_0. destruct (decide (i = k)) as [->|Hne]; [by rewrite E|].
    rewrite Z.pow2_bits_false by lia. by rewrite andb_false_r.
Qed.

Lemma flag_or fl a b : flag fl (Z.lor a b) = flag fl a || flag fl b.
Proof.
  unfold flag. rewrite Z.land_lor_distr_r. unfold nz. rewrite <- negb_andb. f_equal. apply Bool.eq_true_iff_eq.
  rewrite andb_true_iff, !Z.eqb_eq. apply Z.lor_eq_0_iff.
Qed.

Lemma flag_xor fl j k : 0 <= j -> 0 <= k -> flag (Z.lxor fl (2 ^ j)) (2 ^ k) = xorb (flag fl (2 ^ k)) (bool_decide (j = k)).
Proof.
  intros. rewrite !flag_bit, Z.lxor_spec by done. f_equal. case_bool_decide as E; [subst; by apply Z.pow2_bits_true|].
  apply Z.pow2_bits_false. lia.
Qed.

Lemma flag_clear fl j k : 0 <= j -> 0 <= k -> flag (clear fl (2 ^ j)) (2 ^ k) = flag fl (2 ^ k) && negb (bool_decide (j = k)).
Proof.
  intros. unfold clear. rewrite !flag_bit, Z.land_spec, Z.lnot_spec by done. do 2 f_equal. case_bool_decide as E; [subst; by apply Z.pow2_bits_true|].
  apply Z.pow2_bits_false. lia.
Qed.

Definition justify (left zero : bool) (w : Z) (pre body : list Z) : list Z :=
  let n := w - Z.of_nat (length pre) - Z.of_nat (length body) in
  if left then pre ++ body ++ blanks 32 n
  else if zero then pre ++ blanks 48 n ++ body
  else blanks 32 n ++ pre ++ body.

Lemma length_justify left zero w pre body :
  Z.of_nat (length (justify left zero w pre body)) = Z.max w (Z.of_nat (length pre) + Z.of_nat (length body)).
Proof. unfold justify. destruct left; [|destruct zero]; rewrite !length_app, !Nat2Z.inj_add, length_blanks; lia. Qed.

Definition field_text (r : field) (w : Z) : list Z :=
  justify (flag (fflags r) LEFT_ADJ) (flag (fflags r) ZERO_PAD) w (pre r) (blanks 48 (prec r - Z.of_nat (length (body r))) ++ body r).

Section fields.
Context {W : Type} `{Writer W} (P : W * FILE -> list Z -> Prop).
Context (Hout : forall wf l s, P wf l -> exists wf', out wf s = Ok wf' /\ P wf' (l ++ s)).

Lemma print_field_ok wf l r w cnt : P wf l -> flag (fflags r) LEFT_ADJ && flag (fflags r) ZERO_PAD = false -> 0 <= w <= INT_MAX -> 0 <= cnt <= INT_MAX ->
  if cnt + Z.of_nat (length (field_text r w)) <=? INT_MAX
  then exists wf', print_field wf r w cnt = Ok (wf', Z.of_nat (length (field_text r w))) /\ P wf' (l ++ field_text r w)
  else print_field wf r w cnt = Err EOVERFLOW.
Proof using Hout.
  intros Hp Hfl Hw Hcnt. unfold print_field. set (pl := Z.of_nat (length (pre r))). set (z_a := Z.of_nat (length (body r))).
  set (p := if prec r <? z_a then z_a else prec r). assert (Hpv : p = Z.max (prec r) z_a) by (subst p; destruct (Z.ltb_spec (prec r) z_a); lia).
  assert (Hlen : Z.of_nat (length (field_text r w)) = Z.max w (pl + p)).
  { unfold field_text. rewrite length_justify, length_app, Nat2Z.inj_add, length_blanks. fold z_a pl. lia. }
  rewrite Hlen. clear Hlen. destruct (Z.ltb_spec (INT_MAX - pl) p) as [Ho|Ho]; [destruct (Z.leb_spec (cnt + Z.max w (pl + p)) INT_MAX); [unfold INT_MAX in *; lia|done]|].
  set (w' := if w <? pl + p then pl + p else w). assert (Hw' : w' = Z.max w (pl + p)) by (subst w'; destruct (Z.ltb_spec w (pl + p)); lia).
  rewrite <- Hw'. destruct (Z.leb_spec (cnt + w') INT_MAX) as [Hle|Hgt]; [|destruct (Z.ltb_spec (INT_MAX - cnt) w'); [done|lia]].
  destruct (Z.ltb_spec (INT_MAX - cnt) w'); [lia|]. clearbody p w'.
  destruct (pad_prints P Hout wf l 32 w' (pl + p) (fflags r) Hp) as (wf1 & -> & Hp1). cbn [bind].
  destruct (Hout wf1 _ (pre r) Hp1) as (wf2 & -> & Hp2). cbn [bind].
  destruct (pad_prints P Hout wf2 _ 48 w' (pl + p) (Z.lxor (fflags r) ZERO_PAD) Hp2) as (wf3 & -> & Hp3). cbn [bind].
  destruct (pad_prints P Hout wf3 _ 48 p z_a 0 Hp3) as (wf4 & -> & Hp4). cbn [bind].
  destruct (Hout wf4 _ (body r) Hp4) as (wf5 & -> & Hp5). cbn [bind].
  destruct (pad_prints P Hout wf5 _ 32 w' (pl + p) (Z.lxor (fflags r) LEFT_ADJ) Hp5) as (wf6 & -> & Hp6). cbn [bind].
  exists wf6. split; [done|]. revert Hp6. clear -Hfl Hpv Hw' Hw Hcnt.
  rewrite <- !app_assoc. unfold padding. rewrite !flag_or.
  change (flag 0 LEFT_ADJ || flag 0 ZERO_PAD) with false. cbv iota.
  change LEFT_ADJ with (2 ^ 13) in *. change ZERO_PAD with (2 ^ 16) in *.
  rewrite !flag_xor by done.
  rewrite (bool_decide_false (16 = 13)), (bool_decide_false (13 = 16)), !bool_decide_true by done. rewrite !xorb_false_r, !xorb_true_r.
  assert (E : blanks 48 (p - z_a) = blanks 48 (prec r - z_a)).
  { destruct (Z.le_gt_cases (prec r) z_a); [by rewrite !blanks_nonpos by lia|f_equal; lia]. }
  assert (Ew : forall c, blanks c (w' - (pl + p)) = blanks c (w - pl - Z.of_nat (length (blanks 48 (prec r - z_a) ++ body r)))).
  { intros c. rewrite length_app, Nat2Z.inj_add, length_blanks. fold z_a. destruct (Z.le_gt_cases w (pl + p)); [by rewrite !blanks_nonpos by lia|f_equal; lia]. }
  unfold field_text, justify. change LEFT_ADJ with (2 ^ 13). change ZERO_PAD with (2 ^ 16). fold pl z_a. rewrite <- !Ew, E.
  destruct (flag (fflags r) (2 ^ 13)), (flag (fflags r) (2 ^ 16)); try done; cbn [orb negb app]; rewrite ?app_nil_r, <- ?app_assoc; done.
Qed.
End fields.
