(* ===== verification/PrintfSpec.v ===== *)
(** * What a format means

    The text of each conversion as the C standard describes it, and of a whole format as
    its directives are read ([formatted]); [printf_core] prints that text, returns its
    length, and refuses to print more than [INT_MAX] bytes.  [Formats] and [VfprintfSpec]
    say what a format means without the parser, and that it is this. *)
From S2P Require Import Prelude Mem StrScan Utf8 Intscan Numerals Stdio Stdin StdioFd Format Printf.

(** ** One conversion *)

(** Digits with a precision, or with the one digit that zero has without one. *)
Definition with_precision (xp : bool) (p : Z) (ds : list Z) : list Z :=
  if xp then blanks 48 (p - Z.of_nat (length ds)) ++ ds else match ds with [] => [48] | _ => ds end.
Definition leading_zero (ds : list Z) : list Z := match ds with 48 :: _ => ds | _ => 48 :: ds end.

Definition sign_text (v fl : Z) : list Z :=
  if v <? 0 then [45] else if flag fl MARK_POS then [43] else if flag fl PAD_POS then [32] else [].
Definition hex_prefix (x t fl : Z) : list Z := if nz x && flag fl ALT_FORM then [48; t] else [].

(** The sign or prefix of a conversion, its text with the precision, and whether the
    flag 0 can pad it with zeros. *)
Inductive conversion (m : mem) (d : directive) (x : Z) : list Z -> list Z -> bool -> Prop :=
| conv_signed ds v :
    one_of (letter d) [100; 105] = true -> v = swrap 64 x -> numeral 10 (Z.abs v) ds ->
    conversion m d x (sign_text v (fl d)) (with_precision (xp d) (p d) ds) (negb (xp d))
| conv_unsigned ds :
    letter d = 117 -> numeral 10 x ds ->
    conversion m d x [] (with_precision (xp d) (p d) ds) (negb (xp d))
| conv_octal ds :
    letter d = 111 -> numeral 8 x ds ->
    conversion m d x [] (let text := with_precision (xp d) (p d) ds in if flag (fl d) ALT_FORM then leading_zero text else text) (negb (xp d))
| conv_hex ds :
    one_of (letter d) [120; 88] = true -> numeral 16 x ds -> Forall (cased (Z.land (letter d) 32)) ds ->
    conversion m d x (hex_prefix x (letter d) (fl d)) (with_precision (xp d) (p d) ds) (negb (xp d))
| conv_pointer ds :
    letter d = 112 -> numeral 16 x ds -> Forall (cased 32) ds ->
    conversion m d x (hex_prefix x 120 ALT_FORM) (with_precision (xp d) (Z.max 16 (p d)) ds) (negb (xp d))
| conv_char :
    letter d = 99 -> conversion m d x [] [u8 x] false
| conv_null :
    letter d = 115 -> x = 0 -> conversion m d x [] (if p d <? 0 then null_text else take (Z.to_nat (p d)) null_text) false
| conv_string n :
    letter d = 115 -> 0 < x -> memchr_at m x 0 (if p d <? 0 then INT_MAX else p d) n -> (p d < 0 -> n < INT_MAX) ->
    conversion m d x [] (bytes_of m x n) false.

Lemma land_alt fl : flag (Z.lor fl ALT_FORM) ALT_FORM = true.
Proof.
  change ALT_FORM with (2 ^ 3). rewrite flag_bit, Z.lor_spec by done. rewrite (Z.pow2_bits_true 3) by done. by rewrite orb_true_r.
Qed.

(** The text of a field, without the padding to its width. *)
Definition core_text (r : field) : list Z := blanks 48 (prec r - Z.of_nat (length (body r))) ++ body r.

(** The tail of the integer conversions. *)
Lemma finish_integer_ok b pre x ds p xp fl : 0 < b -> numeral b x ds -> xp && (p <? 0) = false ->
  exists r, finish_integer pre x ds p xp fl = Ok r /\ r.(Printf.pre) = pre /\
    core_text r = blanks 48 ((if nz x then p else if nz p then Z.max p 1 else 0) - Z.of_nat (length ds)) ++ ds /\
    fflags r = if xp then clear fl ZERO_PAD else fl.
Proof.
  intros Hb Hds Hov. unfold finish_integer. rewrite Hov. destruct (nz x) eqn:Ex; cbn [negb andb].
  - eexists. split; [done|]. split; [done|]. split; [|done]. unfold core_text. cbn [prec body].
    change (b2z false) with 0. rewrite Z.add_0_r. f_equal.
    destruct (Z.le_gt_cases p (Z.of_nat (length ds))); [by rewrite !blanks_nonpos by lia|f_equal; lia].
  - apply nz_false in Ex. subst x. apply numeral_zero in Hds as ->; [|done]. destruct (nz p) eqn:Ep; cbn [negb].
    + eexists. split; [done|]. split; [done|]. split; [|done]. unfold core_text. cbn [prec body length]. done.
    + eexists. split; [done|]. split; [done|]. split; [|done]. unfold core_text. cbn [prec body length].
      apply nz_false in Ep. by subst p.
Qed.

Lemma precision_text b x ds p xp : 0 < b -> 0 <= x -> numeral b x ds -> xp = (0 <=? p) ->
  blanks 48 ((if nz x then p else if nz p then Z.max p 1 else 0) - Z.of_nat (length ds)) ++ ds = with_precision xp p ds.
Proof.
  intros Hb Hx0 Hds ->. unfold with_precision. destruct (nz x) eqn:Ex.
  - apply nz_true in Ex. assert (Hne : ds <> []) by (apply (numeral_pos b x); [lia|done]).
    destruct (Z.leb_spec 0 p); [done|]. rewrite blanks_nonpos by lia. by destruct ds.
  - apply nz_false in Ex. subst x. apply numeral_zero in Hds as ->; [|done]. simpl length. rewrite Z.sub_0_r, !app_nil_r.
    destruct (nz p) eqn:Ep; [apply nz_true in Ep|apply nz_false in Ep; by subst p].
    destruct (Z.leb_spec 0 p); [f_equal; lia|by rewrite Z.max_r by lia].
Qed.

Lemma no_leading_zero b x ds : numeral b x ds -> leading_zero ds = 48 :: ds.
Proof.
  intros (_ & _ & Hh). destruct ds as [|c ds]; [done|]. specialize (Hh c eq_refl). unfold leading_zero.
  destruct (decide (c = 48)) as [->|Hne]; [by destruct Hh|].
  destruct c as [|c|c]; try done. repeat (destruct c as [c|c|]; try done).
Qed.

Lemma octal_text x ds p xp fl : 0 <= x -> numeral 8 x ds -> xp = (0 <=? p) ->
  let z_a := Z.of_nat (length ds) in
  let p' := if flag fl ALT_FORM && (p <? z_a + 1) then z_a + 1 else p in
  blanks 48 ((if nz x then p' else if nz p' then Z.max p' 1 else 0) - z_a) ++ ds =
  (let text := with_precision xp p ds in if flag fl ALT_FORM then leading_zero text else text).
Proof.
  intros Hx Hds Hxp z_a. destruct (flag fl ALT_FORM); cbn [andb]; [|by apply (precision_text 8)].
  destruct (Z.ltb_spec p (z_a + 1)) as [Hlt|Hge].
  - cbv zeta. assert (Hz : nz (z_a + 1) = true) by (apply nz_true; lia). rewrite Hz.
    assert (E : (if nz x then z_a + 1 else Z.max (z_a + 1) 1) = z_a + 1) by (destruct (nz x); lia). rewrite E.
    replace (z_a + 1 - z_a) with 1 by lia. change (blanks 48 1 ++ ds) with (48 :: ds).
    unfold with_precision. destruct xp; [rewrite blanks_nonpos by lia; by rewrite <- (no_leading_zero 8 x)|].
    destruct ds as [|c ds']; [done|]. by rewrite <- (no_leading_zero 8 x).
  - cbv zeta. subst z_a. rewrite (precision_text 8 x ds p xp) by done. unfold with_precision.
    assert (Hx' : xp = true) by (subst xp; apply Z.leb_le; lia). rewrite Hx'.
    replace (p - Z.of_nat (length ds)) with (1 + (p - Z.of_nat (length ds) - 1)) by lia. rewrite blanks_add by lia. done.
Qed.

(** ** The field of a conversion *)

(** The flags with which a directive is read, and its argument. *)
Definition well_formed (d : directive) (x : Z) : Prop := xp d = (0 <=? p d) /\ INT_MIN <= p d <= INT_MAX /\ 0 <= x < 2 ^ 64.

Definition fills (r : field) (d : directive) (pre body : list Z) (zero : bool) : Prop :=
  r.(Printf.pre) = pre /\ core_text r = body /\
  flag (fflags r) LEFT_ADJ = flag (fl d) LEFT_ADJ /\
  flag (fflags r) ZERO_PAD = zero && flag (fl d) ZERO_PAD && negb (flag (fl d) LEFT_ADJ).

(** The flags of a field: 0 does nothing next to -, or when it is cleared. *)
Lemma flags_of_ok d : flag (flags_of d) LEFT_ADJ = flag (fl d) LEFT_ADJ /\
  flag (flags_of d) ZERO_PAD = flag (fl d) ZERO_PAD && negb (flag (fl d) LEFT_ADJ).
Proof.
  unfold flags_of. change LEFT_ADJ with (2 ^ 13). change ZERO_PAD with (2 ^ 16).
  destruct (flag (fl d) (2 ^ 13)) eqn:E; cbn [negb]; [|by rewrite andb_true_r].
  rewrite !flag_clear by done. rewrite E. split; [done|]. by rewrite !andb_false_r.
Qed.

Lemma flags_alt d : flag (Z.lor (flags_of d) ALT_FORM) LEFT_ADJ = flag (flags_of d) LEFT_ADJ /\
  flag (Z.lor (flags_of d) ALT_FORM) ZERO_PAD = flag (flags_of d) ZERO_PAD.
Proof.
  change ALT_FORM with (2 ^ 3). change LEFT_ADJ with (2 ^ 13). change ZERO_PAD with (2 ^ 16).
  rewrite !flag_bit, !Z.lor_spec by done. rewrite !(Z.pow2_bits_false 3) by done. by rewrite !orb_false_r.
Qed.

Lemma flags_of_other d k : 0 <= k -> k <> 16 -> flag (flags_of d) (2 ^ k) = flag (fl d) (2 ^ k).
Proof.
  intros Hk Hne. unfold flags_of. destruct (flag (fl d) LEFT_ADJ); [|done]. change ZERO_PAD with (2 ^ 16).
  rewrite flag_clear by done. rewrite bool_decide_false by done. by rewrite andb_true_r.
Qed.

Lemma clear_flags fl : flag (clear fl ZERO_PAD) LEFT_ADJ = flag fl LEFT_ADJ /\ flag (clear fl ZERO_PAD) ZERO_PAD = false.
Proof.
  change LEFT_ADJ with (2 ^ 13). change ZERO_PAD with (2 ^ 16). rewrite !flag_clear by done.
  rewrite bool_decide_false, bool_decide_true by done. by rewrite andb_true_r, andb_false_r.
Qed.

Lemma fills_integer r d pre body fl : r.(Printf.pre) = pre -> core_text r = body ->
  fflags r = (if xp d then clear fl ZERO_PAD else fl) ->
  flag fl LEFT_ADJ = flag (flags_of d) LEFT_ADJ -> flag fl ZERO_PAD = flag (flags_of d) ZERO_PAD ->
  fills r d pre body (negb (xp d)).
Proof.
  intros Hp Hb Hf Hl Hz. split; [done|]. split; [done|]. rewrite Hf. destruct (flags_of_ok d) as [E1 E2], (clear_flags fl) as [E3 E4].
  destruct (xp d); cbn [negb andb]; [split; congruence|]. split; congruence.
Qed.

Lemma fills_plain r d body : r.(Printf.pre) = [] -> core_text r = body -> fflags r = clear (flags_of d) ZERO_PAD -> fills r d [] body false.
Proof.
  intros Hp Hb Hf. split; [done|]. split; [done|]. rewrite Hf. destruct (flags_of_ok d) as [E1 E2], (clear_flags (flags_of d)) as [E3 E4].
  split; [congruence|done].
Qed.

Lemma well_formed_precision d x : well_formed d x -> xp d && (p d <? 0) = false.
Proof. intros (-> & _ & _). destruct (Z.leb_spec 0 (p d)), (Z.ltb_spec (p d) 0); (done || lia). Qed.

Lemma convert_unsigned_ok d x pre ds y : well_formed d x -> 0 <= y < 2 ^ 64 -> numeral 10 y ds ->
  exists r, convert_unsigned pre y (p d) (xp d) (flags_of d) = Ok r /\ fills r d pre (with_precision (xp d) (p d) ds) (negb (xp d)).
Proof.
  intros Hd Hy Hds. destruct (fmt_u_ok y [] Hy) as (ds' & E & Hds'). rewrite app_nil_r in E.
  assert (ds' = ds) as -> by (by apply (numeral_decimal 10 y)). unfold convert_unsigned. rewrite E.
  destruct (finish_integer_ok 10 pre y ds (p d) (xp d) (flags_of d)) as (r & -> & Hp & Hc & Hf); [done|done|by eapply well_formed_precision|].
  exists r. split; [done|]. apply (fills_integer _ _ _ _ (flags_of d)); [done| |done|done|done]. rewrite Hc.
  apply (precision_text 10 y); [done|lia|done|apply Hd].
Qed.

Lemma convert_signed_ok d x ds : well_formed d x -> numeral 10 (Z.abs (swrap 64 x)) ds ->
  exists r, convert_signed x (p d) (xp d) (flags_of d) = Ok r /\
    fills r d (sign_text (swrap 64 x) (fl d)) (with_precision (xp d) (p d) ds) (negb (xp d)).
Proof.
  intros Hd Hds. pose proof Hd as (_ & _ & Hx). unfold convert_signed, sign_text.
  change MARK_POS with (2 ^ 11). change PAD_POS with (2 ^ 0). rewrite !flags_of_other by done.
  assert (Hs : swrap 64 x = if INTMAX_MAX <? x then x - 2 ^ 64 else x).
  { destruct (Z.ltb_spec INTMAX_MAX x); unfold INTMAX_MAX in *; [|rewrite swrap_small; lia].
    rewrite (swrap_eq 64 x (x - 2 ^ 64)), swrap_small by (lia || (symmetry; apply (Z_mod_plus_full x (-1)))). done. }
  rewrite Hs in Hds |- *. destruct (Z.ltb_spec INTMAX_MAX x) as [Hn|Hp]; unfold INTMAX_MAX in *.
  - destruct (Z.ltb_spec (x - 2 ^ 64) 0); [|lia]. change (take 1 signs) with [45].
    assert (E : u64 (- x) = Z.abs (x - 2 ^ 64)) by (unfold wrap; symmetry; apply (Z.mod_unique_pos _ _ (-1)); lia).
    rewrite E. apply (convert_unsigned_ok d x); [done|lia|done].
  - destruct (Z.ltb_spec x 0); [lia|]. replace (Z.abs x) with x in Hds by lia. change (take 1 (drop 1 signs)) with [43]. change (take 1 (drop 2 signs)) with [32].
    destruct (flag (fl d) (2 ^ 11)); [by apply (convert_unsigned_ok d x)|]. destruct (flag (fl d) (2 ^ 0)); by apply (convert_unsigned_ok d x).
Qed.

Lemma convert_octal_ok d x ds : well_formed d x -> numeral 8 x ds ->
  exists r, convert_octal x (p d) (xp d) (flags_of d) = Ok r /\
    fills r d [] (let text := with_precision (xp d) (p d) ds in if flag (fl d) ALT_FORM then leading_zero text else text) (negb (xp d)).
Proof.
  intros Hd Hds. pose proof Hd as (Hxp & _ & Hx). destruct (fmt_o_ok x [] Hx) as (ds' & E & Hds'). rewrite app_nil_r in E.
  assert (ds' = ds) as -> by (by apply (numeral_decimal 8 x)). unfold convert_octal. rewrite E.
  assert (Ef : flag (flags_of d) ALT_FORM = flag (fl d) ALT_FORM) by (by apply (flags_of_other d 3)). rewrite Ef.
  set (p' := if flag (fl d) ALT_FORM && (p d <? _) then _ else _).
  assert (Hov : xp d && (p' <? 0) = false).
  { subst p'. destruct (flag (fl d) ALT_FORM && _); [|by eapply well_formed_precision].
    destruct (Z.ltb_spec (Z.of_nat (length ds) + 1) 0); [lia|by rewrite andb_false_r]. }
  destruct (finish_integer_ok 8 [] x ds p' (xp d) (flags_of d)) as (r & -> & Hp & Hc & Hf); [done|done|done|].
  exists r. split; [done|]. apply (fills_integer _ _ _ _ (flags_of d)); [done| |done|done|done]. rewrite Hc.
  apply octal_text; [lia|done|done].
Qed.

Lemma convert_hex_ok d x ds t p' xp' fl : well_formed d x -> one_of t [120; 88] = true -> numeral 16 x ds -> Forall (cased (Z.land t 32)) ds ->
  xp' = (0 <=? p') -> exists r, convert_hex t x p' xp' fl = Ok r /\ r.(Printf.pre) = hex_prefix x t fl /\
    core_text r = with_precision xp' p' ds /\ fflags r = if xp' then clear fl ZERO_PAD else fl.
Proof.
  intros (_ & _ & Hx) Ht Hds Hc Hxp. assert (Hl : Z.land t 32 = 0 \/ Z.land t 32 = 32).
  { unfold one_of in Ht. apply bool_decide_eq_true in Ht. rewrite !elem_of_cons in Ht. destruct Ht as [-> |[-> |?%elem_of_nil]]; [by right|by left|done]. }
  destruct (fmt_x_ok x [] _ Hx Hl) as (ds' & E & Hds'). rewrite app_nil_r in E.
  assert (Hc' : Forall (cased (Z.land t 32)) ds') by (rewrite <- E; by apply fmt_x_cased).
  assert (ds' = ds) as -> by (by apply (numeral_hex _ x _ _ Hl)). unfold convert_hex. rewrite E.
  destruct (finish_integer_ok 16 (hex_prefix x t fl) x ds p' xp' fl) as (r & Er & Hp & Hct & Hf);
    [done|done|by subst xp'; destruct (Z.leb_spec 0 p'), (Z.ltb_spec p' 0); (done || lia)|].
  exists r. split; [rewrite <- Er; unfold hex_prefix|split; [done|]; split; [|done]; rewrite Hct; apply (precision_text 16 x); (done || lia)].
  destruct (nz x && flag fl ALT_FORM); [|done]. unfold one_of in Ht. apply bool_decide_eq_true in Ht. rewrite !elem_of_cons in Ht.
  by destruct Ht as [-> |[-> |?%elem_of_nil]].
Qed.

Lemma convert_pointer_ok d x ds : well_formed d x -> numeral 16 x ds -> Forall (cased 32) ds ->
  exists r, convert_pointer x (p d) (xp d) (flags_of d) = Ok r /\
    fills r d (hex_prefix x 120 ALT_FORM) (with_precision (xp d) (Z.max 16 (p d)) ds) (negb (xp d)).
Proof.
  intros Hd Hds Hc. pose proof Hd as (Hxp & Hpm & _). unfold convert_pointer. set (p' := if UINTPTR_DIGITS <? _ then _ else _).
  assert (Hp' : p' = if xp d then Z.max 16 (p d) else p d).
  { subst p'. rewrite Hxp. unfold UINTPTR_DIGITS, INT_MIN, INT_MAX in *. destruct (Z.leb_spec 0 (p d)) as [Hp|Hp].
    - rewrite wrap_small by lia. destruct (Z.ltb_spec 16 (p d)); lia.
    - unfold wrap. rewrite <- (Z.mod_unique_pos (p d) (2 ^ 64) (-1) (p d + 2 ^ 64)) by lia. destruct (Z.ltb_spec 16 (p d + 2 ^ 64)); lia. }
  clearbody p'. destruct (convert_hex_ok d x ds 120 p' (xp d) (Z.lor (flags_of d) ALT_FORM)) as (r & -> & Hp & Hct & Hf); [done..| |].
  { rewrite Hp', Hxp. destruct (Z.leb_spec 0 (p d)); [destruct (Z.leb_spec 0 (Z.max 16 (p d)))|destruct (Z.leb_spec 0 (p d))]; (done || lia). }
  exists r. split; [done|]. destruct (flags_alt d). eapply fills_integer; [|rewrite Hct, Hp'; by destruct (xp d)|exact Hf|done|done].
  rewrite Hp. unfold hex_prefix. rewrite land_alt. by change (flag ALT_FORM ALT_FORM) with true.
Qed.

Lemma convert_string_ok m d x n : mem_ok m -> 0 < x -> memchr_at m x 0 (if p d <? 0 then INT_MAX else p d) n -> (p d < 0 -> n < INT_MAX) ->
  exists r, convert_string m x (p d) (flags_of d) = Ok r /\ fills r d [] (bytes_of m x n) false.
Proof.
  intros Hm Hx Hn Hlim. unfold convert_string. rewrite (proj2 (nz_true x)) by lia. rewrite (strnlen_ok m x _ n) by done. cbn [to_outcome bind].
  assert (Hend : (if p d <? 0 then to_outcome (load8 m (x + n)) else Ok 0) = Ok 0).
  { destruct (Z.ltb_spec (p d) 0) as [Hp|]; [|done]. specialize (Hlim Hp). destruct Hn as [Hr Hb Hh Hmp]. destruct (Hh Hlim) as [Hz Hw].
    revert Hmp. destruct (Z.ltb_spec n INT_MAX); [|lia]. intros Hmp. rewrite (load8_rd _ _ _ _ Hmp) by (simpl; lia). by rewrite Hz. }
  rewrite Hend. cbn [bind]. change (nz 0) with false. cbv iota. eexists. split; [done|].
  apply fills_plain; [done| |done]. unfold core_text. cbn [prec body]. destruct Hn as [Hr _ _ _].
  rewrite blanks_nonpos; [done|]. rewrite length_bytes_of by lia. lia.
Qed.

Lemma convert_ok m d x pre body zero : mem_ok m -> well_formed d x -> conversion m d x pre body zero ->
  exists r, convert m d x = Ok r /\ fills r d pre body zero.
Proof.
  intros Hm Hd Hc. unfold convert. inversion Hc as [ds v Hl Hv Hds|ds Hl Hds|ds Hl Hds|ds Hl Hds Hcs|ds Hl Hds Hcs|Hl|Hl Hx|n Hl Hx Hn Hlim]; subst; clear Hc.
  - unfold one_of in Hl. apply bool_decide_eq_true in Hl. rewrite !elem_of_cons in Hl.
    destruct Hl as [-> |[-> |?%elem_of_nil]]; [| |done]; by apply convert_signed_ok.
  - rewrite Hl. apply (convert_unsigned_ok d x); [done|apply Hd|done].
  - rewrite Hl. by apply convert_octal_ok.
  - destruct (flags_of_ok d) as [El Ez].
    destruct (convert_hex_ok d x ds (letter d) (p d) (xp d) (flags_of d)) as (r & E & Hp & Hct & Hf); try done; [apply Hd|].
    exists r. split.
    { unfold one_of in Hl. apply bool_decide_eq_true in Hl. rewrite !elem_of_cons in Hl. by destruct Hl as [E'|[E'|?%elem_of_nil]]; [rewrite E' in *..|]. }
    apply (fills_integer _ _ _ _ (flags_of d)); [|done|done|done|done]. rewrite Hp. unfold hex_prefix.
    change ALT_FORM with (2 ^ 3). by rewrite (flags_of_other d 3).
  - rewrite Hl. by apply convert_pointer_ok.
  - rewrite Hl. eexists. split; [done|]. by apply fills_plain.
  - rewrite Hl. eexists. split; [done|]. apply fills_plain; [done| |done]. unfold core_text. cbn [prec body].
    rewrite blanks_nonpos by lia. destruct (p d <? 0); [|done]. rewrite take_ge; [done|]. change (length null_text) with 6%nat. unfold INT_MAX. lia.
  - rewrite Hl. by apply convert_string_ok.
Qed.

(** ** Wide characters *)

(** The bytes of the longest prefix of the characters that has at most [room] bytes. *)
Fixpoint wide_fit (utf8 : bool) (room : Z) (cs : list Z) : option (list Z) :=
  match cs with
  | [] => Some []
  | c :: cs =>
      match to_bytes utf8 c with
      | Ok mb => if Z.of_nat (length mb) <=? room then (fun t => mb ++ t) <$> wide_fit utf8 (room - Z.of_nat (length mb)) cs else Some []
      | _ => None
      end
  end.

(** [cs] are the characters before the null one. *)
Definition wide_string (ws : nat -> outcome Z) (k : nat) (cs : list Z) : Prop :=
  (forall j c, cs !! j = Some c -> ws (k + j)%nat = Ok c /\ c <> 0) /\ ws (k + length cs)%nat = Ok 0.

Lemma wide_string_cons ws k c cs : wide_string ws k (c :: cs) -> ws k = Ok c /\ c <> 0 /\ wide_string ws (S k) cs.
Proof.
  intros [Hc Hz]. destruct (Hc 0%nat c eq_refl) as [E Hn]. rewrite Nat.add_0_r in E. split; [done|]. split; [done|]. split.
  - intros j c' Hj. destruct (Hc (S j) c' Hj) as [E' ?]. split; [by rewrite <- E', Nat.add_succ_r|done].
  - rewrite <- Hz. f_equal. simpl. lia.
Qed.

Lemma wide_string_nil ws k : wide_string ws k [] -> ws k = Ok 0.
Proof. intros [_ Hz]. by rewrite Nat.add_0_r in Hz. Qed.

Lemma to_bytes_nonempty utf8 c mb : to_bytes utf8 c = Ok mb -> (0 < length mb)%nat.
Proof.
  unfold to_bytes. destruct (wctomb utf8 _ 1 c) as [[r m]|] eqn:E; [|done]. cbn [to_outcome bind].
  destruct (Z.ltb_spec r 0); [done|]. intros [= <-]. enough (0 < r) by (pose proof (length_bytes_of m 1 r ltac:(lia)); lia).
  unfold wctomb in E. cbn [Z.eqb] in E. destruct (wcrtomb _ _ _ _) as [[r' m']|] eqn:E'; [|done]. cbn [mbind option_bind] in E. injection E as <- <-.
  enough (r' = 1 \/ r' = 2 \/ r' = 3 \/ r' = 4 \/ r' = ILSEQ) as [-> |[-> |[-> |[-> | ->]]]] by (done || (exfalso; vm_compute in H; congruence)).
  revert E'. unfold wcrtomb. cbn [Z.eqb]. repeat case_match; try done; repeat (destruct (store8 _ _ _); cbn [mbind option_bind]; [|done]); intros E'; simplify_eq; tauto.
Qed.

Lemma wide_length_ok fuel utf8 ws k i p room cs text : wide_string ws k cs -> u64 p = i + room -> 0 <= i -> 0 <= room ->
  wide_fit utf8 room cs = Some text -> (length cs < fuel)%nat ->
  wide_length fuel utf8 ws k i p = Ok (i + Z.of_nat (length text)) /\ Z.of_nat (length text) <= room.
Proof.
  revert k i room cs text. induction fuel as [|fuel IH]; intros k i room cs text Hws Hp Hi Hr Hfit Hf; [lia|]. cbn [wide_length].
  pose proof (wrap_range 64 p ltac:(lia)) as Hpr. destruct cs as [|c cs].
  - injection Hfit as <-. apply wide_string_nil in Hws. rewrite Hws. cbn [bind nz negb Z.eqb length]. rewrite Z.add_0_r. by destruct (i <? u64 p).
  - apply wide_string_cons in Hws as (E & Hn & Hws). cbn [wide_fit] in Hfit. destruct (to_bytes utf8 c) as [mb| |] eqn:Em; try done.
    pose proof (to_bytes_nonempty _ _ _ Em) as Hmb. rewrite E. cbn [bind]. rewrite (proj2 (nz_true c)) by done. rewrite Em. cbn [bind].
    replace (u64 p - i) with room by lia. rewrite (wrap_small 64 room) by lia.
    destruct (Z.leb_spec (Z.of_nat (length mb)) room) as [Hle|Hgt].
    + destruct (Z.ltb_spec i (u64 p)); [|lia]. destruct (wide_fit utf8 _ cs) as [t|] eqn:Et; [|done]. injection Hfit as <-.
      destruct (IH (S k) (i + Z.of_nat (length mb)) (room - Z.of_nat (length mb)) cs t) as [-> Ht]; [done|lia|lia|lia|done|simpl in Hf; lia|].
      rewrite length_app. split; [f_equal; lia|lia].
    + injection Hfit as <-. cbn [length]. rewrite Z.add_0_r. by destruct (i <? u64 p).
Qed.

(** ** The text of a directive *)

(** Whether the flag 0 pads. *)
Definition pads (d : directive) : bool := flag (fl d) ZERO_PAD && negb (flag (fl d) LEFT_ADJ).

(** The effect of a directive after [cnt] bytes: what it prints and the memory after. *)
Inductive directive_text (utf8 : bool) (m : mem) (d : directive) (x cnt : Z) : list Z -> mem -> Prop :=
| text_field pre body zero :
    conversion m d x pre body zero ->
    directive_text utf8 m d x cnt (justify (flag (fl d) LEFT_ADJ) (zero && pads d) (w d) pre body) m
| text_count m' :
    letter d = 110 -> store_count m (ps d) x cnt = Some m' -> directive_text utf8 m d x cnt [] m'
| text_wide ws p' cs body :
    (letter d = 67 /\ ws = wide_one x /\ p' = -1 \/ letter d = 83 /\ ws = wide_at m x /\ p' = p d) ->
    pads d = false -> wide_string ws 0 cs -> (length cs <= fuel_of m)%nat ->
    wide_fit utf8 (u64 p') cs = Some body -> Z.of_nat (length body) <= INT_MAX ->
    directive_text utf8 m d x cnt (justify (flag (fl d) LEFT_ADJ) false (w d) [] body) m.

Section wide.
Context {W : Type} `{Writer W} (P : W * FILE -> list Z -> Prop).
Context (Hout : forall wf l s, P wf l -> exists wf', out wf s = Ok wf' /\ P wf' (l ++ s)).

Lemma print_wide_loop_ok fuel utf8 ws wf l k i p room cs text : P wf l -> wide_string ws k cs ->
  wide_fit utf8 room cs = Some text -> (length cs < fuel)%nat -> 0 <= i -> p = i + Z.of_nat (length text) -> p <= INT_MAX -> 0 <= room ->
  exists wf', print_wide_loop fuel utf8 ws wf k i p = Ok wf' /\ P wf' (l ++ text).
Proof using Hout.
  revert wf l k i room cs text. induction fuel as [|fuel IH]; intros wf l k i room cs text Hpr Hws Hfit Hf Hi Hp Hmax Hr; [lia|]. cbn [print_wide_loop].
  unfold INT_MAX in Hmax. rewrite !wrap_small by lia. destruct cs as [|c cs].
  - injection Hfit as <-. rewrite app_nil_r. apply wide_string_nil in Hws. rewrite Hws. exists wf. by destruct (i <? p).
  - apply wide_string_cons in Hws as (E & Hn & Hws). cbn [wide_fit] in Hfit. destruct (to_bytes utf8 c) as [mb| |] eqn:Em; try done.
    pose proof (to_bytes_nonempty _ _ _ Em) as Hmb. rewrite E. cbn [bind]. rewrite (proj2 (nz_true c)) by done. rewrite Em. cbn [bind].
    destruct (Z.leb_spec (Z.of_nat (length mb)) room) as [Hle|Hgt].
    + destruct (wide_fit utf8 _ cs) as [t|] eqn:Et; [|done]. injection Hfit as <-. rewrite length_app in Hp.
      destruct (Z.ltb_spec i p); [|lia]. destruct (Z.leb_spec (i + Z.of_nat (length mb)) p); [|lia].
      destruct (Hout wf l mb Hpr) as (wf1 & -> & Hp1). cbn [bind].
      destruct (IH wf1 (l ++ mb) (S k) (i + Z.of_nat (length mb)) (room - Z.of_nat (length mb)) cs t) as (wf2 & E2 & Hp2);
        [done|done|done|simpl in Hf; lia|lia|lia|unfold INT_MAX; lia|lia|].
      exists wf2. split; [exact E2|]. by rewrite app_assoc.
    + injection Hfit as <-. simpl in Hp. rewrite app_nil_r. exists wf. destruct (Z.ltb_spec i p); [lia|done].
Qed.

Lemma print_wide_ok utf8 wf l m ws p w fl cs body : P wf l -> wide_string ws 0 cs -> (length cs <= fuel_of m)%nat ->
  wide_fit utf8 (u64 p) cs = Some body -> Z.of_nat (length body) <= INT_MAX -> flag fl ZERO_PAD = false -> 0 <= w ->
  let text := justify (flag fl LEFT_ADJ) false w [] body in
  exists wf', print_wide utf8 wf m ws p w fl = Ok (wf', Z.of_nat (length text)) /\ P wf' (l ++ text).
Proof using Hout.
  intros Hp Hws Hf Hfit Hmax Hz Hw text. unfold print_wide. pose proof (wrap_range 64 p ltac:(lia)) as Hr.
  destruct (wide_length_ok (S (fuel_of m)) utf8 ws 0 0 p (u64 p) cs body) as [-> _]; [done|lia|lia|lia|done|lia|]. cbn [bind]. rewrite Z.add_0_l.
  destruct (Z.ltb_spec INT_MAX (Z.of_nat (length body))); [lia|]. set (n := Z.of_nat (length body)).
  destruct (pad_prints P Hout wf l 32 w n fl Hp) as (wf1 & -> & Hp1). cbn [bind].
  destruct (print_wide_loop_ok (S (fuel_of m)) utf8 ws wf1 (l ++ padding 32 w n fl) 0 0 n (u64 p) cs body) as (wf2 & -> & Hp2); [done|done|done|lia|lia|lia|lia|lia|]. cbn [bind].
  destruct (pad_prints P Hout wf2 _ 32 w n (Z.lxor fl LEFT_ADJ) Hp2) as (wf3 & -> & Hp3). cbn [bind].
  assert (Hlen : (if n <? w then w else n) = Z.of_nat (length text)) by (subst text; rewrite length_justify; simpl length; destruct (Z.ltb_spec n w); lia).
  exists wf3. split; [by rewrite Hlen|]. revert Hp3. rewrite <- !app_assoc. unfold padding. rewrite !flag_or.
  change ZERO_PAD with (2 ^ 16) in *. change LEFT_ADJ with (2 ^ 13) in *. rewrite !flag_xor by done.
  rewrite bool_decide_true, bool_decide_false by done. rewrite Hz. cbn [xorb]. rewrite xorb_true_r, !orb_false_r. subst text. unfold justify. simpl length. rewrite Z.sub_0_r. fold n.
  destruct (flag fl (2 ^ 13)); cbn [negb app]; rewrite ?app_nil_r; done.
Qed.
End wide.

Lemma store_le_ok n m a v m' : mem_ok m -> store_le n m a v = Some m' -> mem_ok m'.
Proof.
  revert m a v. induction n as [|n IH]; intros m a v Hm; [by intros [= <-]|].
  change (store_le (S n) m a v) with (m' ← store8 m a v; store_le n m' (a + 1) (v / 256)). unfold store8. destruct (m !! a); cbn [mbind option_bind]; [|done]. apply IH. intros b c.
  rewrite lookup_insert_Some. intros [[_ <-]|[_ ?]]; [apply (wrap_range 8); lia|by eapply Hm].
Qed.

Lemma directive_text_mem utf8 m d x cnt txt m' : mem_ok m -> directive_text utf8 m d x cnt txt m' -> mem_ok m'.
Proof.
  intros Hm Hd. inversion Hd as [|m1 _ Hs|]; subst; try done. unfold store_count in Hs.
  destruct (ps d); by (injection Hs as <- || eapply store_le_ok).
Qed.

(** The letters of the conversions that fill in a field. *)
Lemma conversion_letter m d x pre body zero : conversion m d x pre body zero -> letter d <> 110 /\ letter d <> 67 /\ letter d <> 83.
Proof.
  intros Hc. inversion Hc as [? ? Hl|? Hl|? Hl|? Hl|? Hl|Hl|Hl|? Hl]; subst; try (rewrite Hl; done);
    unfold one_of in Hl; apply bool_decide_eq_true in Hl; rewrite !elem_of_cons in Hl; by destruct Hl as [-> |[-> |?%elem_of_nil]].
Qed.

Section directives.
Context {W : Type} `{Writer W} (P : W * FILE -> list Z -> Prop).
Context (Hout : forall wf l s, P wf l -> exists wf', out wf s = Ok wf' /\ P wf' (l ++ s)).

Lemma perform_ok utf8 wf l m d x cnt txt m' : P wf l -> mem_ok m -> well_formed d x -> 0 <= w d <= INT_MAX -> 0 <= cnt <= INT_MAX ->
  directive_text utf8 m d x cnt txt m' ->
  (exists wf', perform utf8 wf m d x cnt = Ok (wf', m', Z.of_nat (length txt)) /\ P wf' (l ++ txt)) \/
  (INT_MAX < cnt + Z.of_nat (length txt) /\ perform utf8 wf m d x cnt = Err EOVERFLOW).
Proof using Hout.
  intros Hp Hm Hd Hw Hcnt Ht. unfold perform. destruct Ht as [pre body zero Hc|m1 Hl Hs|ws p' cs body Hl Hz Hws Hf Hfit Hmax].
  - destruct (conversion_letter _ _ _ _ _ _ Hc) as (H1 & H2 & H3). rewrite !(proj2 (Z.eqb_neq _ _)) by done.
    destruct (convert_ok m d x pre body zero Hm Hd Hc) as (r & -> & Epre & Ebody & El & Ez). cbn [bind].
    assert (Hff : flag (fflags r) LEFT_ADJ && flag (fflags r) ZERO_PAD = false) by (rewrite El, Ez; destruct zero, (flag (fl d) ZERO_PAD), (flag (fl d) LEFT_ADJ); done).
    pose proof (print_field_ok P Hout wf l r (w d) cnt Hp Hff Hw Hcnt) as Hpf.
    assert (Etxt : field_text r (w d) = justify (flag (fl d) LEFT_ADJ) (zero && pads d) (w d) pre body).
    { unfold field_text. fold (core_text r). rewrite Epre, Ebody, El, Ez. unfold pads. by rewrite andb_assoc. }
    rewrite Etxt in Hpf. destruct (Z.leb_spec (cnt + Z.of_nat (length (justify (flag (fl d) LEFT_ADJ) (zero && pads d) (w d) pre body))) INT_MAX).
    + destruct Hpf as (wf' & -> & Hp'). cbn [bind]. left. by exists wf'.
    + rewrite Hpf. by right.
  - rewrite Hl, Hs. left. exists wf. split; [done|]. by rewrite app_nil_r.
  - assert (Hfl : flag (flags_of d) ZERO_PAD = false) by (destruct (flags_of_ok d) as [_ ->]; exact Hz).
    left. destruct Hl as [(Hl & -> & ->)|(Hl & -> & ->)]; rewrite Hl; cbn [Z.eqb].
    + destruct (print_wide_ok P Hout utf8 wf l m (wide_one x) (-1) (w d) (flags_of d) cs body Hp Hws Hf Hfit Hmax Hfl ltac:(lia)) as (wf' & E & Hp').
      exists wf'. destruct (flags_of_ok d) as [El _]. rewrite El in E, Hp'. change (67 =? 110) with false. change (67 =? 67) with true. cbv iota. by rewrite E.
    + destruct (print_wide_ok P Hout utf8 wf l m (wide_at m x) (p d) (w d) (flags_of d) cs body Hp Hws Hf Hfit Hmax Hfl ltac:(lia)) as (wf' & E & Hp').
      exists wf'. destruct (flags_of_ok d) as [El _]. rewrite El in E, Hp'. change (83 =? 110) with false. change (83 =? 67) with false. change (83 =? 83) with true. cbv iota. by rewrite E.
Qed.
End directives.

(** ** The text of a format *)

(** One directive in the second pass: it, its argument and what is left. *)
Definition next_directive (q : pass) : outcome (directive * Z * pass) :=
  let* (d, q) := read_directive true q in
  let* r := fetch true d q in
  match r with Some (x, q) => Ok (d, x, q) | None => Undef end.

(** [formatted utf8 m q cnt out m']: after [cnt] bytes, what is left of the format prints
    [out], and the directives [%n] turn the memory [m] into [m']. *)
Inductive formatted (utf8 : bool) : mem -> pass -> Z -> list Z -> mem -> Prop :=
| formatted_end m q cnt : s q = [] -> formatted utf8 m q cnt [] m
| formatted_literal m q cnt lit rest out m' :
    literal (s q) = (lit, rest) -> lit <> [] ->
    formatted utf8 m (set_s q rest) (cnt + Z.of_nat (length lit)) out m' ->
    formatted utf8 m q cnt (lit ++ out) m'
| formatted_directive m q cnt d x q' txt m1 out m' :
    s q <> [] -> (literal (s q)).1 = [] -> next_directive q = Ok (d, x, q') -> well_formed d x ->
    directive_text utf8 m d x cnt txt m1 ->
    formatted utf8 m1 q' (cnt + Z.of_nat (length txt)) out m' ->
    formatted utf8 m q cnt (txt ++ out) m'.

Lemma next_directive_ok q d x q' : next_directive q = Ok (d, x, q') -> Forall is_byte (s q) -> s q <> [] ->
  0 <= w d <= INT_MAX /\ Forall is_byte (s q') /\ (length (s q') < length (s q))%nat.
Proof.
  unfold next_directive. intros E Hb Hne. destruct (read_directive true q) as [[d0 q0]| |] eqn:Er; [|done..]. cbn [bind] in E.
  destruct (fetch true d0 q0) as [[[x0 q1]|]| |] eqn:Ef; [|done..]. cbn [bind] in E. injection E as <- <- <-.
  apply fetch_s in Ef. destruct (read_directive_ok _ _ _ _ Er Hb Hne) as (_ & Hw & _ & _ & _ & _ & _ & Hsuf & Hlen).
  split; [done|]. rewrite Ef. split; [|done]. destruct Hsuf as [k Ek]. rewrite Ek in Hb. by apply list.Forall_app in Hb as [_ ?].
Qed.

Section core.
Context {W : Type} `{Writer W} (P : W * FILE -> list Z -> Prop).
Context (Hout : forall wf l s, P wf l -> exists wf', out wf s = Ok wf' /\ P wf' (l ++ s)).

Lemma printf_core_S fuel utf8 wf m q cnt l : printf_core (S fuel) utf8 wf m q cnt l =
  if INT_MAX - cnt <? l then Some (wf, m, -1, Some EOVERFLOW)
  else match s q with
       | [] => Some (wf, m, cnt + l, None)
       | _ =>
           let '(lit, rest) := literal (s q) in
           let n := Z.of_nat (length lit) in
           if INT_MAX - (cnt + l) <? n then Some (wf, m, -1, Some EOVERFLOW)
           else match out wf lit with
                | Ok wf =>
                    if nz n then printf_core fuel utf8 wf m (set_s q rest) (cnt + l) n
                    else match next_directive (set_s q rest) with
                         | Ok (d, x, q) =>
                             match perform utf8 wf m d x (cnt + l) with
                             | Ok (wf, m, l') => printf_core fuel utf8 wf m q (cnt + l) l'
                             | Err e => Some (wf, m, -1, Some e)
                             | Undef => None
                             end
                         | Err e => Some (wf, m, -1, Some e)
                         | Undef => None
                         end
                | _ => None
                end
       end.
Proof. reflexivity. Qed.

(** What [printf_core] does with the rest of a format: it prints all of it, or stops when
    there would be more than [INT_MAX] bytes. *)
Definition completes (r : option result) (l out : list Z) (m' : mem) (cnt : Z) : Prop :=
  if cnt + Z.of_nat (length out) <=? INT_MAX
  then exists wf', r = Some (wf', m', cnt + Z.of_nat (length out), None) /\ P wf' (l ++ out)
  else exists wf' m'' k, r = Some (wf', m'', -1, Some EOVERFLOW) /\ P wf' (l ++ take k out).

Lemma completes_app r l txt out m' cnt : completes r (l ++ txt) out m' (cnt + Z.of_nat (length txt)) -> completes r l (txt ++ out) m' cnt.
Proof using.
  unfold completes. rewrite length_app, Nat2Z.inj_add, <- Z.add_assoc. destruct (_ <=? INT_MAX).
  - intros (wf' & -> & Hp). exists wf'. split; [done|]. by rewrite <- app_assoc in Hp.
  - intros (wf' & m'' & k & -> & Hp). exists wf', m'', (length txt + k)%nat. split; [done|]. rewrite <- app_assoc in Hp. by rewrite take_app_add.
Qed.

Lemma set_s_same q r : r = s q -> set_s q r = q.
Proof using. intros ->. by destruct q. Qed.

Lemma printf_core_ok utf8 m q cnt txt m' : formatted utf8 m q cnt txt m' -> forall fuel wf l cnt0 l0,
  P wf l -> mem_ok m -> Forall is_byte (s q) -> cnt = cnt0 + l0 -> 0 <= cnt0 <= INT_MAX -> 0 <= l0 -> (length (s q) < fuel)%nat ->
  completes (printf_core fuel utf8 wf m q cnt0 l0) l txt m' cnt.
Proof using Hout.
  induction 1 as [m q cnt Hq|m q cnt lit rest txt m' Hlit Hne Hf IH|m q cnt d x q' txt m1 rtxt m' Hne Hlit Hd Hwf Ht Hf IH];
    intros fuel wf l cnt0 l0 Hp Hm Hb Hcnt Hc0 Hl0 Hfuel; (destruct fuel as [|fuel]; [lia|]); rewrite printf_core_S;
    (destruct (Z.ltb_spec (INT_MAX - cnt0) l0) as [Ho|Ho]; [unfold completes; rewrite (proj2 (Z.leb_gt _ _)) by lia; exists wf, m, 0%nat; rewrite take_0, app_nil_r; done|]); rewrite <- Hcnt.
  - rewrite Hq. unfold completes. simpl length. rewrite Z.add_0_r. destruct (Z.leb_spec cnt INT_MAX); [|lia]. exists wf. by rewrite app_nil_r.
  - destruct (s q) as [|c sq] eqn:Eq; [by injection Hlit as <- _|]. rewrite <- Eq in *. rewrite Hlit. cbv zeta.
    destruct (literal_ok _ _ _ Hlit) as (Hsuf & Hlen & _). destruct (Z.ltb_spec (INT_MAX - cnt) (Z.of_nat (length lit))) as [Hov|Hov].
    { unfold completes. rewrite (proj2 (Z.leb_gt _ _)) by (rewrite length_app; lia). exists wf, m, 0%nat. by rewrite take_0, app_nil_r. }
    destruct (Hout wf l lit Hp) as (wf1 & -> & Hp1).
    rewrite (proj2 (nz_true _)) by (destruct lit; [done|simpl; lia]). apply completes_app. apply IH; try (done || lia).
    + cbn [set_s s]. destruct Hsuf as [k Ek]. rewrite Ek in Hb. by apply list.Forall_app in Hb as [_ ?].
    + cbn [set_s s]. destruct lit; [done|]. simpl in Hlen. lia.
  - destruct (s q) as [|c sq] eqn:Eq; [done|]. rewrite <- Eq in *. destruct (literal (s q)) as [lit rest] eqn:El. cbn [fst] in Hlit. subst lit.
    destruct (literal_ok _ _ _ El) as (_ & _ & Hrest). rewrite (set_s_same q rest) by (by apply Hrest). cbv zeta. cbn [length].
    destruct (Z.ltb_spec (INT_MAX - cnt) (Z.of_nat 0)); [lia|]. destruct (Hout wf l [] Hp) as (wf1 & -> & Hp1).
    rewrite app_nil_r in Hp1. change (nz (Z.of_nat 0)) with false. cbv iota. rewrite Hd.
    destruct (next_directive_ok _ _ _ _ Hd Hb Hne) as (Hw & Hb' & Hlen).
    destruct (perform_ok P Hout utf8 wf1 l m d x cnt txt m1 Hp1 Hm Hwf Hw ltac:(lia) Ht) as [(wf2 & -> & Hp2)|(Hov & ->)].
    + apply completes_app. apply IH; try (done || lia). by eapply directive_text_mem.
    + unfold completes. rewrite (proj2 (Z.leb_gt _ _)) by (rewrite length_app; lia). exists wf1, m, 0%nat. by rewrite take_0, app_nil_r.
Qed.
End core.

(** ** [vfprintf] *)
Lemma clear_absent fl b : nz (Z.land fl b) = false -> Z.land fl (Z.lnot b) = fl.
Proof.
  intros H. apply nz_false in H. apply Z.bits_inj'. intros i Hi. apply (f_equal (fun z => Z.testbit z i)) in H.
  rewrite Z.land_spec, Z.bits_0 in H. rewrite Z.land_spec, Z.lnot_spec by done. by destruct (Z.testbit fl i), (Z.testbit b i).
Qed.

Lemma set_flags_same f fl : fl = flags f -> set_flags f fl = f.
Proof. intros ->. by destruct f. Qed.

Lemma mapped_written m p bs : mapped (write_bytes m p bs) p (Z.of_nat (length bs)).
Proof.
  intros a Ha. destruct (lookup_lt_is_Some_2 bs (Z.to_nat (a - p)) ltac:(lia)) as [b Hb].
  revert p a Ha Hb. induction bs as [|c bs IH] in m |- *; intros p a Ha Hb; [simpl in Ha; lia|]. cbn [write_bytes].
  destruct (decide (a = p)) as [->|Hne]; [apply mapped_write with (n := 1) (q := p); [|lia]; intros x Hx; replace x with p by lia; rewrite lookup_insert; by case_decide|].
  apply (IH _ (p + 1) a); [simpl in Ha; lia|]. replace (Z.to_nat (a - p)) with (S (Z.to_nat (a - (p + 1)))) in Hb by lia. done.
Qed.

(** What [vfprintf] leaves: success, or -1 after an error of the device or because there
    is too much to print; and nothing in the buffer of an unbuffered stream. *)
Definition prints {W} `{WriterLaws W} (r : option result) (f : FILE) (l out : list Z) (m' : mem) : Prop :=
  exists w1 f1 m1 n err, r = Some ((w1, f1), m1, n, err) /\ (buf_size f = 0 -> pending f1 = []) /\
    ((n = Z.of_nat (length out) /\ n <= INT_MAX /\ err = None /\ m1 = m' /\ flags f1 = flags f /\ stream w1 f1 (l ++ out)) \/
     (n = -1 /\ (can_fail W /\ flags f1 = Z.lor (flags f) F_ERR \/ INT_MAX < Z.of_nat (length out)) /\
        exists k, stream w1 f1 (take k (l ++ out)))).

(** The automatic array of [vfprintf]. *)
Definition array_ok (internal : Z) (junk : list Z) : Prop :=
  UNGET < internal /\ internal + 80 < 2 ^ 63 /\ length junk = 80%nat.

Definition unbuffered (f : FILE) (internal : Z) (junk : list Z) : FILE :=
  set_data (set_write (set_buf f internal 80) internal internal (internal + 80)) (write_bytes (data f) internal junk).
Definition restored (f0 f : FILE) : FILE := set_data (set_write (set_buf f (buf f0) 0) 0 0 0) (data f0).

Section vfprintf.
Context {W : Type} `{WriterLaws W}.

Lemma stream_unbuffered w f l internal junk : stream w f l -> array_ok internal junk -> buf_size f = 0 -> stream w (unbuffered f internal junk) l.
Proof.
  intros ((B1 & B2 & B3 & B4) & Hm & d & Hd & ->) (A1 & A2 & A3) Hsz.
  assert (Hp : pending f = []).
  { destruct Hm as [(E1 & E2 & E3)|Hi]; [unfold pending, between; apply bytes_of_nonpos; lia|by apply pending_idle]. }
  split; [|split].
  - split; [done|]. split; [done|]. split; [|done]. cbn. pose proof (mapped_written (data f) internal junk) as Hmw. by rewrite A3 in Hmw.
  - left. split_and!; cbn; lia.
  - exists d. split; [done|]. rewrite Hp. unfold pending, between. cbn. by rewrite Z.sub_diag, bytes_of_nil.
Qed.

Lemma stream_restored w f0 f d : buffer_ok f0 -> buf_size f0 = 0 -> sent w d -> stream w (restored f0 f) d.
Proof.
  intros (B1 & B2 & B3 & B4) Hsz Hd. split; [split; [done|]; split; [done|]; split; [cbn; by rewrite <- Hsz|cbn; lia]|]. split; [by right|].
  exists d. split; [done|]. rewrite pending_idle by done. by rewrite app_nil_r.
Qed.

(** The write that ends a call on an unbuffered stream. *)
Lemma flush_stream w f l : stream w f l -> exists w' f' n, write w f [] = Some (w', f', n) /\
  ((flags f' = flags f /\ wpos f' <> 0 /\ sent w' l) \/ (can_fail W /\ flags f' = Z.lor (flags f) F_ERR /\ exists k, sent w' (take k l))).
Proof.
  intros (Hbf & [Hw|Hi] & d & Hd & ->).
  - destruct (write_law w f [] d Hbf Hw Hd) as (w' & f' & n & E & Hs & Hc). exists w', f', n. split; [done|].
    assert (Hbf' : buffer_ok f') by (by eapply setup_buffer). rewrite app_nil_r in Hc.
    destruct Hc as [(_ & Hw' & _ & Hfl & Hsent)|(Hcan & k & Hi & Hfl & Hk & Hsent & _)].
    + left. split; [done|]. split; [|done]. destruct Hbf' as [? _], Hw' as (? & ? & ?). unfold UNGET in *. lia.
    + right. split; [done|]. split; [done|]. exists (length d + k)%nat. by rewrite take_app_add.
  - destruct (write_nothing w f d Hbf Hi Hd) as (w' & f' & n & E & Hs & Hsent & Hfl). exists w', f', n. split; [done|].
    rewrite (pending_idle f Hi), app_nil_r. destruct Hfl as [[Hfl Hp]|[Hcan Hfl]]; [by left|right].
    split; [done|]. split; [done|]. exists (length d). by rewrite take_ge.
Qed.

Lemma flush_printed fl0 w f f0 l : printed fl0 (w, f) l -> buffer_ok f0 -> buf_size f0 = 0 ->
  exists w' f' n, write w f [] = Some (w', f', n) /\
    ((flags f' = fl0 /\ wpos f' <> 0 /\ stream w' (restored f0 f') l) \/
     (can_fail W /\ flags f' = Z.lor fl0 F_ERR /\ exists k, stream w' (restored f0 f') (take k l))).
Proof.
  intros Hp Hb Hsz. assert (Hlor : Z.lor (Z.lor fl0 F_ERR) F_ERR = Z.lor fl0 F_ERR) by (by rewrite <- Z.lor_assoc, Z.lor_diag).
  destruct Hp as [[Hfl Hs]|(Hcan & Hfl & k & Hs)]; cbn [fst snd] in *;
    destruct (flush_stream w f _ Hs) as (w' & f' & n & E & [(Hfl' & Hp & Hd)|(Hcan' & Hfl' & k' & Hd)]); exists w', f', n; (split; [done|]).
  - left. split; [congruence|]. split; [done|]. by apply stream_restored.
  - right. split; [done|]. split; [congruence|]. exists k'. by apply stream_restored.
  - right. split; [done|]. split; [congruence|]. exists k. by apply stream_restored.
  - right. split; [done|]. split; [congruence|]. exists (k' `min` k)%nat. rewrite <- take_take. by apply stream_restored.
Qed.

Lemma has_err fl0 : nz (Z.land fl0 F_ERR) = false -> Z.lor fl0 F_ERR <> fl0 /\ nz (Z.land (Z.lor fl0 F_ERR) F_ERR) = true.
Proof using.
  intros Hc. pose proof (has_raise {| flags := fl0; mode := 0; rpos := 0; rend := 0; wpos := 0; wbase := 0; wend := 0; buf := 0; buf_size := 0; lbf := 0; data := ∅ |} F_ERR ltac:(done)) as H1.
  unfold has, raise in H1. cbn [flags set_flags] in H1. split; [|done]. intros E. congruence.
Qed.

Lemma vfprintf_ok internal junk utf8 w f l fmt m ap c q out m' :
  stream w f l -> has f F_NOWR = false -> has f F_ERR = false -> array_ok internal junk -> mem_ok m -> Forall is_byte fmt ->
  scan_format (start fmt ap (replicate (S NL_ARGMAX) BARE) (replicate (S NL_ARGMAX) None)) = Ok (c, q) ->
  formatted utf8 m (start fmt (Format.ap q) (nl_type q) (nl_arg q)) 0 out m' ->
  prints (vfprintf internal junk utf8 (w, f) fmt m ap) f l out m'.
Proof.
  intros Hs Hnw Hne Ha Hm Hfmt Hscan Hout. unfold vfprintf. rewrite Hscan.
  assert (Ef : (if mode f <? 1 then set_flags f (Z.land (flags f) (Z.lnot F_ERR)) else f) = f).
  { destruct (mode f <? 1); [|done]. apply set_flags_same. by apply clear_absent. }
  rewrite Ef. clear Ef. set (q0 := start fmt (Format.ap q) _ _) in *. pose proof Hs as (Hb & _).
  assert (Hold : Z.land (flags f) F_ERR = 0) by (by apply nz_false). rewrite Hold.
  assert (Hraise : forall g, raise g 0 = g) by (intros g; apply set_flags_same; by rewrite Z.lor_0_r).
  assert (Hcore : forall w1 f1, flags f1 = flags f -> stream w1 f1 l ->
    exists w' f' m1 n err, printf_core (S (length fmt)) utf8 (w1, f1) m q0 0 0 = Some ((w', f'), m1, n, err) /\
      ((n = Z.of_nat (length out) /\ n <= INT_MAX /\ err = None /\ m1 = m' /\ printed (flags f) (w', f') (l ++ out)) \/
       (n = -1 /\ INT_MAX < Z.of_nat (length out) /\ exists k, printed (flags f) (w', f') (take k (l ++ out))))).
  { intros w1 f1 Hfl1 Hs1.
    assert (Hp1 : printed (flags f) (w1, f1) l) by (by left).
    pose proof (printf_core_ok (printed (flags f)) (out_ok (flags f) Hnw Hne) utf8 m q0 0 out m' Hout (S (length fmt)) (w1, f1) l 0 0 Hp1 Hm Hfmt eq_refl ltac:(unfold INT_MAX; lia) ltac:(lia) ltac:(cbn; lia)) as Hc.
    unfold completes in Hc. rewrite Z.add_0_l in Hc. destruct (Z.leb_spec (Z.of_nat (length out)) INT_MAX).
    - destruct Hc as ([w' f'] & E & Hp). exists w', f', m', (Z.of_nat (length out)), None. split; [done|]. by left.
    - destruct Hc as ([w' f'] & m1 & k & E & Hp). exists w', f', m1, (-1), (Some EOVERFLOW). split; [done|]. right. split; [done|]. split; [done|].
      exists (length l + k)%nat. by rewrite take_app_add. }
  destruct (nz (buf_size f)) eqn:Esz.
  - destruct (Hcore w f eq_refl Hs) as (w' & f' & m1 & n & err & -> & Hc). cbn [mbind option_bind]. change (nz 0) with false. cbv iota. cbn [mbind option_bind]. rewrite Hraise.
    eexists w', f', m1, _, err. split; [done|]. split; [apply nz_true in Esz; done|].
    destruct Hc as [(Hn & Hmax & He & Hm1 & [[Hfl Hp]|(Hcan & Hfl & k & Hp)])|(Hn & Hmax & k & [[Hfl Hp]|(Hcan & Hfl & j & Hp)])]; cbn [fst snd] in *; unfold has; rewrite Hfl.
    + left. unfold has in Hne. rewrite Hne. done.
    + right. rewrite (proj2 (has_err _ Hne)). split; [done|]. split; [by left|by exists k].
    + right. unfold has in Hne. rewrite Hne. split; [done|]. split; [by right|by exists k].
    + right. rewrite (proj2 (has_err _ Hne)). split; [done|]. split; [by right|]. exists (j `min` k)%nat. by rewrite <- take_take.
  - apply nz_false in Esz. fold (unbuffered f internal junk).
    destruct (Hcore w (unbuffered f internal junk) eq_refl (stream_unbuffered _ _ _ _ _ Hs Ha Esz)) as (w' & f' & m1 & n & err & -> & Hc). cbn [mbind option_bind].
    assert (Hbz : nz (buf f) = true) by (apply nz_true; destruct Hb; unfold UNGET in *; lia). rewrite Hbz.
    assert (Hpr : exists L, printed (flags f) (w', f') L /\ ((n = Z.of_nat (length out) /\ n <= INT_MAX /\ err = None /\ m1 = m' /\ L = l ++ out) \/
      (n = -1 /\ INT_MAX < Z.of_nat (length out) /\ exists k, L = take k (l ++ out)))).
    { destruct Hc as [(? & ? & ? & ? & Hp)|(? & ? & k & Hp)]; eexists; (split; [exact Hp|]); [by left|right; split; [done|split; [done|by exists k]]]. }
    destruct Hpr as (L & Hp & HL). destruct (flush_printed (flags f) w' f' f L Hp Hb Esz) as (w2 & f2 & n2 & -> & Hc2). cbn [mbind option_bind].
    change (set_data (set_write (set_buf f2 (buf f) 0) 0 0 0) (data f)) with (restored f f2). rewrite Hraise.
    eexists w2, (restored f f2), m1, _, err. split; [done|]. split; [intros _; by apply pending_idle|].
    change (has (restored f f2) F_ERR) with (has f2 F_ERR). change (flags (restored f f2)) with (flags f2). unfold has.
    destruct Hc2 as [(Hfl2 & Hw2 & Hs2)|(Hcan & Hfl2 & k & Hs2)]; rewrite Hfl2.
    + unfold has in Hne. rewrite Hne. rewrite (proj2 (Z.eqb_neq _ _) Hw2).
      destruct HL as [(? & ? & ? & ? & ->)|(? & ? & k & ->)]; [by left|right]. split; [done|]. split; [by right|by exists k].
    + rewrite (proj2 (has_err _ Hne)). right. split; [done|]. split; [by left|].
      destruct HL as [(? & ? & ? & ? & ->)|(? & ? & j & ->)]; [by exists k|]. exists (k `min` j)%nat. by rewrite <- take_take.
Qed.

(** The pass over the format that prints, after the one that collects the arguments of
    their positions. *)
Definition prepared (fmt ap : list Z) (q : pass) : Prop :=
  exists c q', scan_format (start fmt ap (replicate (S NL_ARGMAX) BARE) (replicate (S NL_ARGMAX) None)) = Ok (c, q') /\
    q = start fmt (Format.ap q') (nl_type q') (nl_arg q').

End vfprintf.

(** ** An example: ["x=%05d%%"] with -42 *)
Definition demo_fmt : list Z := [120; 61; 37; 48; 53; 100; 37; 37].
Definition demo_pass : pass := start demo_fmt [2 ^ 64 - 42] (replicate 10 BARE) (replicate 10 None).

Lemma demo_formatted m : prepared demo_fmt [2 ^ 64 - 42] demo_pass /\
  formatted true m demo_pass 0 [120; 61; 45; 48; 48; 52; 50; 37] m.
Proof.
  split; [by eexists _, _|].
  apply (formatted_literal true m demo_pass 0 [120; 61] [37; 48; 53; 100; 37; 37] [45; 48; 48; 52; 50; 37] m); [done|done|].
  eapply (formatted_directive true m _ _ _ _ _ [45; 48; 48; 52; 50] m [37] m); [done|done|reflexivity|split_and!; done| |].
  - set (d := {| argpos := _ |}). set (x := 18446744073709551574).
    change [45; 48; 48; 52; 50] with (justify (flag (fl d) LEFT_ADJ) (negb (xp d) && pads d) (w d) (sign_text (-42) (fl d)) (with_precision (xp d) (p d) [52; 50])).
    apply text_field, conv_signed; [done|done|]. split; [by repeat apply list.Forall_cons_2|]. split; [done|]. by intros c [= <-].
  - apply (formatted_literal true m _ _ [37] [] []); [done|done|]. by apply formatted_end.
Defined.
