(* ===== verification/Formats.v ===== *)
(** * Formats as trees

    What the C standard says of a format, without the parser of [stdio/vfprintf.c]: a
    format is a list of bytes and directives ([part]), a directive has flags, a width, a
    precision, a length modifier and a conversion, and takes its arguments in order or by
    their positions.  [format_text] writes a format as the string that is passed to [printf];
    [meaning] is what it prints.  Then: what the parser of [Format] reads in that string
    ([directive_read], [first_pass_read]). *)
From S2P Require Import Prelude Mem StrScan Utf8 Intscan Numerals Stdio Stdin StdioFd Format Printf PrintfSpec.

Abbreviation len l := (Z.of_nat (length l)).

(** ** Formats *)

(** The next argument, or the one at a position. *)
Inductive arg_source : Type := NextArg | Nth (n : Z).

(** A width or precision: its digits, or [*] and an argument. *)
Inductive amount : Type := Digits (ds : list Z) | Star (a : arg_source).

Inductive modifier : Type := M_none | M_hh | M_h | M_l | M_ll | M_j | M_z | M_t.

(** [d] or [i]; [u], [o], [x] or [X]; [n], [p], [c], [s]; [lc] or [C]; [ls] or [S]. *)
Inductive conv : Type :=
  Signed (i : bool) (md : modifier) | Unsigned (md : modifier) | Octal (md : modifier) | Hex (upper : bool) (md : modifier)
| Count (md : modifier) | Pointer | Chr | Str | WideChar (xsi : bool) | WideString (xsi : bool).

Record dir : Type := { d_from : arg_source; d_flags : list Z; d_width : option amount; d_prec : option amount; d_conv : conv }.

Inductive part : Type := Byte (c : Z) | Dir (d : dir).

(** *** How they are written *)

Definition show_source (a : arg_source) : list Z := match a with NextArg => [] | Nth n => [48 + n; 36] end.

Definition show_number (n : amount) : list Z := match n with Digits ds => ds | Star a => 42 :: show_source a end.

Definition show_modifier (md : modifier) : list Z :=
  match md with
  | M_none => [] | M_hh => [104; 104] | M_h => [104] | M_l => [108] | M_ll => [108; 108]
  | M_j => [106] | M_z => [122] | M_t => [116]
  end.

Definition show_conv (c : conv) : list Z :=
  match c with
  | Signed i md => show_modifier md ++ [if i then 105 else 100]
  | Unsigned md => show_modifier md ++ [117]
  | Octal md => show_modifier md ++ [111]
  | Hex upper md => show_modifier md ++ [if upper then 88 else 120]
  | Count md => show_modifier md ++ [110]
  | Pointer => [112]
  | Chr => [99]
  | Str => [115]
  | WideChar xsi => if xsi then [67] else [108; 99]
  | WideString xsi => if xsi then [83] else [108; 115]
  end.

Definition show_width (o : option amount) : list Z := match o with Some n => show_number n | None => [] end.
Definition show_prec (o : option amount) : list Z := match o with Some n => 46 :: show_number n | None => [] end.

Definition show_dir (d : dir) : list Z :=
  37 :: show_source (d_from d) ++ d_flags d ++ show_width (d_width d) ++ show_prec (d_prec d) ++ show_conv (d_conv d).

Definition show_part (x : part) : list Z :=
  match x with Byte c => if c =? 37 then [37; 37] else [c] | Dir d => show_dir d end.

(** The string of a format. *)
Definition format_text (l : list part) : list Z := flat_map show_part l.

(** *** Which are well formed *)

Definition dec_digit (c : Z) : Prop := 48 <= c <= 57.
Definition dec (ds : list Z) : Z := fold_left (fun n c => 10 * n + (c - 48)) ds 0.

(** [#], [0], [-], a space, [+] and [']. *)
Definition flag_chars : list Z := [35; 48; 45; 32; 43; 39].

(** The type of the argument of a conversion, as [printf] distinguishes them. *)
Definition integer_type (signed : bool) (md : modifier) : state :=
  match md with
  | M_none => if signed then INT else UINT
  | M_hh => if signed then CHAR else UCHAR
  | M_h => if signed then SHORT else USHORT
  | M_l => if signed then LONG else ULONG
  | M_ll => if signed then LLONG else ULLONG
  | M_j => if signed then IMAX else UMAX
  | M_z | M_t => if signed then PDIFF else SIZET
  end.

Definition type_of (c : conv) : state :=
  match c with
  | Signed _ md => integer_type true md
  | Unsigned md | Octal md | Hex _ md => integer_type false md
  | Count _ | Str | WideString _ => PTR
  | Pointer => UIPTR
  | Chr => CHAR
  | WideChar _ => INT
  end.

Section types.
(** The types of the arguments by position, or [None]: they are taken in order. *)
Context (types : option (list state)).

Definition source_ok (a : arg_source) (ty : state) : Prop :=
  match types, a with
  | None, NextArg => True
  | Some tys, Nth n => 1 <= n <= 9 /\ tys !! Z.to_nat (n - 1) = Some ty
  | _, _ => False
  end.

Definition amount_ok (n : amount) : Prop :=
  match n with Digits ds => Forall dec_digit ds /\ dec ds <= INT_MAX | Star a => source_ok a INT end.

(** A width does not begin with the flag 0. *)
Definition width_ok (n : amount) : Prop :=
  amount_ok n /\ match n with Digits ds => exists c ds', ds = c :: ds' /\ c <> 48 | Star _ => True end.

Definition dir_ok (d : dir) : Prop :=
  source_ok (d_from d) (type_of (d_conv d)) /\ Forall (fun c => c ∈ flag_chars) (d_flags d) /\
  match d_width d with Some n => width_ok n | None => True end /\
  match d_prec d with Some n => amount_ok n | None => True end.

Definition part_ok (x : part) : Prop := match x with Byte c => 0 < c < 256 | Dir d => dir_ok d end.
End types.

(** The positions that a format uses. *)
Definition source_position (a : arg_source) : list Z := match a with Nth n => [n] | NextArg => [] end.
Definition number_position (o : option amount) : list Z := match o with Some (Star a) => source_position a | _ => [] end.
Definition positions (l : list part) : list Z :=
  flat_map (fun x => match x with
                     | Byte _ => []
                     | Dir d => number_position (d_width d) ++ number_position (d_prec d) ++ source_position (d_from d)
                     end) l.

(** A format that takes its arguments in order; or by position, with an argument of one
    type at every position up to the last, and each of them used. *)
Definition format_ok (types : option (list state)) (args : list Z) (l : list part) : Prop :=
  Forall (part_ok types) l /\
  match types with
  | None => True
  | Some tys => (length tys <= length args)%nat /\ forall i, 1 <= i <= len tys -> i ∈ positions l
  end.

(** ** What they mean *)

(** The size of an integer in bits. *)
Definition int_bits (md : modifier) : Z := match md with M_hh => 8 | M_h => 16 | M_none => 32 | _ => 64 end.

Definition digits_text (prec : option Z) (ds : list Z) : list Z :=
  match prec with Some n => blanks 48 (n - len ds) ++ ds | None => match ds with [] => [48] | _ => ds end end.

Section meaning.
Context (utf8 : bool) (args : list Z).

(** An argument is a word of 64 bits, of which its type says how many count; [k] is the
    number of those already taken in order. *)
Definition pick (a : arg_source) (k : nat) : option (Z * nat) :=
  match a with
  | NextArg => x ← args !! k; Some (x, S k)
  | Nth n => x ← args !! Z.to_nat (n - 1); Some (x, k)
  end.

Definition number_of (n : amount) (k : nat) : option (Z * nat) :=
  match n with Digits ds => Some (dec ds, k) | Star a => '(x, k) ← pick a k; Some (s32 x, k) end.

(** The width, and whether an argument has it negative: then it is on the left. *)
Definition width_of (o : option amount) (k : nat) : option (Z * bool * nat) :=
  match o with
  | None => Some (0, false, k)
  | Some n => '(v, k) ← number_of n k; if v =? - 2 ^ 31 then None else Some (Z.abs v, v <? 0, k)
  end.

(** The precision; a negative argument is none. *)
Definition prec_of (o : option amount) (k : nat) : option (option Z * nat) :=
  match o with
  | None => Some (None, k)
  | Some n => '(v, k) ← number_of n k; Some (if v <? 0 then None else Some v, k)
  end.

Section conversions.
Context (m : mem) (flags : list Z) (prec : option Z) (x : Z).
Definition has_flag (c : Z) : bool := bool_decide (c ∈ flags).

Definition sign_mark (v : Z) : list Z :=
  if v <? 0 then [45] else if has_flag 43 then [43] else if has_flag 32 then [32] else [].
Definition hex_mark (v t : Z) : list Z := if has_flag 35 && nz v then [48; t] else [].

(** What a conversion prints before the zeros of the flag 0, and after them; and whether
    that flag applies. *)
Inductive conv_text : conv -> list Z -> list Z -> bool -> Prop :=
| conv_d i md ds :
    numeral 10 (Z.abs (swrap (int_bits md) x)) ds ->
    conv_text (Signed i md) (sign_mark (swrap (int_bits md) x)) (digits_text prec ds) (bool_decide (prec = None))
| conv_u md ds :
    numeral 10 (wrap (int_bits md) x) ds -> conv_text (Unsigned md) [] (digits_text prec ds) (bool_decide (prec = None))
| conv_o md ds :
    numeral 8 (wrap (int_bits md) x) ds ->
    conv_text (Octal md) [] (if has_flag 35 then leading_zero (digits_text prec ds) else digits_text prec ds) (bool_decide (prec = None))
| conv_x (upper : bool) md ds :
    numeral 16 (wrap (int_bits md) x) ds -> Forall (cased (if upper then 0 else 32)) ds ->
    conv_text (Hex upper md) (hex_mark (wrap (int_bits md) x) (if upper then 88 else 120)) (digits_text prec ds) (bool_decide (prec = None))
| conv_p ds :
    numeral 16 (wrap 64 x) ds -> Forall (cased 32) ds ->
    conv_text Pointer (if nz (wrap 64 x) then [48; 120] else []) (digits_text (Z.max 16 <$> prec) ds) (bool_decide (prec = None))
| conv_c : conv_text Chr [] [wrap 8 x] false
| conv_s_null :
    wrap 64 x = 0 -> conv_text Str [] (match prec with Some n => take (Z.to_nat n) | None => id end [40; 110; 117; 108; 108; 41]) false
| conv_s n :
    wrap 64 x <> 0 -> memchr_at m (wrap 64 x) 0 (default INT_MAX prec) n -> (prec = None -> n < INT_MAX) ->
    conv_text Str [] (bytes_of m (wrap 64 x) n) false.
End conversions.

(** The bytes of a wide character, and of the longest prefix of [cs] that fits. *)
Definition multibyte (c : Z) : option (list Z) :=
  if utf8 then if scalar_b c then Some (utf8_encode c) else None
  else if (0 <=? c) && (c <? 128) then Some [c]
  else if (0xdf80 <=? c) && (c <? 0xe000) then Some [c - 0xdf00] else None.

Fixpoint fitting (room : option Z) (cs : list Z) : option (list Z) :=
  match cs with
  | [] => Some []
  | c :: cs =>
      mb ← multibyte c;
      match room with
      | None => (fun t => mb ++ t) <$> fitting None cs
      | Some n => if len mb <=? n then (fun t => mb ++ t) <$> fitting (Some (n - len mb)) cs else Some []
      end
  end.

(** The wide characters at [a], up to a null one. *)
Definition wide_chars (m : mem) (a : Z) (cs : list Z) : Prop :=
  Forall (fun c => c <> 0) cs /\
  forall j c, (cs ++ [0]) !! j = Some c -> exists u, load32 m (a + 4 * Z.of_nat j) = Some u /\ s32 u = c.

(** The characters and the limit of [lc] and [ls]. *)
Definition wide_text (m : mem) (c : conv) (prec : option Z) (x : Z) (cs : list Z) (room : option Z) : Prop :=
  match c with
  | WideChar _ => cs = (if s32 x =? 0 then [] else [s32 x]) /\ room = None
  | WideString _ => wide_chars m (wrap 64 x) cs /\ room = prec
  | _ => False
  end.

(** After [cnt] bytes and [k] arguments a directive prints a text, changes the memory
    (only [n] does), and takes arguments: width, precision, value. *)
Inductive effect (m : mem) (d : dir) (k : nat) (cnt : Z) : list Z -> mem -> nat -> Prop :=
| effect_field w neg k1 prec k2 x k3 pre body zero :
    width_of (d_width d) k = Some (w, neg, k1) -> prec_of (d_prec d) k1 = Some (prec, k2) -> pick (d_from d) k2 = Some (x, k3) ->
    conv_text m (d_flags d) prec x (d_conv d) pre body zero ->
    let left := has_flag (d_flags d) 45 || neg in
    effect m d k cnt (justify left (zero && has_flag (d_flags d) 48 && negb left) w pre body) m k3
| effect_wide w neg k1 prec k2 x k3 cs room body :
    width_of (d_width d) k = Some (w, neg, k1) -> prec_of (d_prec d) k1 = Some (prec, k2) -> pick (d_from d) k2 = Some (x, k3) ->
    wide_text m (d_conv d) prec x cs room -> fitting room cs = Some body -> len body <= INT_MAX ->
    has_flag (d_flags d) 48 = false ->
    effect m d k cnt (justify (has_flag (d_flags d) 45 || neg) false w [] body) m k3
| effect_count w neg k1 prec k2 x k3 md m' :
    width_of (d_width d) k = Some (w, neg, k1) -> prec_of (d_prec d) k1 = Some (prec, k2) -> pick (d_from d) k2 = Some (x, k3) ->
    d_conv d = Count md -> store_le (Z.to_nat (int_bits md / 8)) m (wrap 64 x) cnt = Some m' ->
    effect m d k cnt [] m' k3.

Inductive meaning : mem -> list part -> nat -> Z -> list Z -> mem -> Prop :=
| meaning_end m k cnt : meaning m [] k cnt [] m
| meaning_byte m c l k cnt out m' : meaning m l k (cnt + 1) out m' -> meaning m (Byte c :: l) k cnt (c :: out) m'
| meaning_dir m d l k cnt txt m1 k' out m' :
    effect m d k cnt txt m1 k' -> meaning m1 l k' (cnt + len txt) out m' -> meaning m (Dir d :: l) k cnt (txt ++ out) m'.
End meaning.

(** ** Reading what is written *)

(** *** Digits and flags *)
Lemma digit_isdigit c : dec_digit c -> isdigit c = true.
Proof. unfold dec_digit, isdigit. intros Hc. rewrite wrap_small by lia. apply Z.ltb_lt. lia. Qed.

(** A byte other than these is above them, or not a digit for another reason. *)
Definition ends_number (s : list Z) : Prop := match s with c :: _ => isdigit c = false | [] => True end.

Lemma dec_mono ds : Forall dec_digit ds -> forall n, 0 <= n -> n <= fold_left (fun n c => 10 * n + (c - 48)) ds n.
Proof.
  induction 1 as [|c ds Hc _ IH]; intros n Hn; simpl; [lia|]. unfold dec_digit in Hc. specialize (IH (10 * n + (c - 48)) ltac:(lia)). lia.
Qed.

Lemma getint_read ds rest : Forall dec_digit ds -> ends_number rest -> forall n, 0 <= n ->
  fold_left (fun n c => 10 * n + (c - 48)) ds n <= INT_MAX ->
  getint_from n (ds ++ rest) = (fold_left (fun n c => 10 * n + (c - 48)) ds n, rest).
Proof.
  intros Hd Hr. induction Hd as [|c ds Hc Hd IH]; intros n Hn Hmax; simpl in *.
  - destruct rest as [|c rest]; [done|]. simpl. by rewrite Hr.
  - rewrite digit_isdigit by done. unfold dec_digit in Hc.
    pose proof (dec_mono ds Hd (10 * n + (c - 48)) ltac:(lia)) as Hle. unfold INT_MAX in *. rewrite wrap_small by lia.
    rewrite (proj2 (Z.ltb_ge _ n)) by (apply Z.div_le_lower_bound; lia). rewrite (proj2 (Z.ltb_ge _ _)) by lia. cbn [orb].
    apply IH; lia.
Qed.

(** The mask of some flags. *)
Definition flags_mask (fs : list Z) : Z := fold_left (fun a c => Z.lor a (Z.shiftl 1 (c - 32))) fs 0.

Definition ends_flags (s : list Z) : Prop := match s with c :: _ => is_flag c = false | [] => True end.

Lemma flag_char_ok c : c ∈ flag_chars -> is_flag c = true /\ 32 <= c < 64.
Proof. unfold flag_chars. rewrite !elem_of_cons, elem_of_nil. intros H. repeat destruct H as [->|H]; try done. Qed.

Lemma flags_read fs rest : Forall (fun c => c ∈ flag_chars) fs -> ends_flags rest -> forall n,
  read_flags n (fs ++ rest) = (fold_left (fun a c => Z.lor a (Z.shiftl 1 (c - 32))) fs n, rest).
Proof.
  intros Hf Hr. induction Hf as [|c fs Hc Hf IH]; intros n; simpl.
  - destruct rest as [|c rest]; [done|]. simpl. by rewrite Hr.
  - rewrite (proj1 (flag_char_ok c Hc)). apply IH.
Qed.

Lemma flag_mask fs k n : Forall (fun c => c ∈ flag_chars) fs -> 0 <= k ->
  flag (fold_left (fun a c => Z.lor a (Z.shiftl 1 (c - 32))) fs n) (2 ^ k) = flag n (2 ^ k) || has_flag fs (k + 32).
Proof.
  intros Hf Hk. revert n. induction Hf as [|c fs Hc Hf IH]; intros n; simpl; [by rewrite orb_false_r|].
  rewrite IH. apply flag_char_ok in Hc as [_ Hc]. rewrite Z.shiftl_mul_pow2, Z.mul_1_l by lia. rewrite !flag_bit, Z.lor_spec by done.
  assert (E : Z.testbit (2 ^ (c - 32)) k = bool_decide (k + 32 = c)).
  { case_bool_decide as E; [subst; replace (k + 32 - 32) with k by lia; by apply Z.pow2_bits_true|apply Z.pow2_bits_false; lia]. }
  rewrite E, <- orb_assoc. f_equal. unfold has_flag. apply eq_bool_prop_intro. rewrite orb_True, !bool_decide_spec, elem_of_cons. done.
Qed.

(** *** The characters that end a number *)
Definition letter_char (c : Z) : Prop := 65 <= c <= 122.
Definition starts_with (P : Z -> Prop) (s : list Z) : Prop := match s with c :: _ => P c | [] => False end.

Lemma in_range_forall (f : Z -> bool) lo n c : forallb f (seqZ lo n) = true -> lo <= c < lo + n -> f c = true.
Proof. intros Hf Hc. rewrite forallb_forall in Hf. apply Hf, list_elem_of_In, elem_of_seqZ. done. Qed.

Lemma not_flag c : c = 42 \/ c = 46 \/ 49 <= c <= 57 \/ letter_char c -> is_flag c = false.
Proof.
  unfold letter_char. intros [-> |[-> |[H|H]]]; [done|done| |]; apply negb_true_iff.
  - by apply (in_range_forall (fun c => negb (is_flag c)) 49 9 c); [vm_compute|lia].
  - by apply (in_range_forall (fun c => negb (is_flag c)) 65 58 c); [vm_compute|lia].
Qed.

Lemma not_digit c : 36 <= c < 48 \/ letter_char c -> isdigit c = false.
Proof. unfold letter_char, isdigit. intros H. apply Z.ltb_ge. unfold wrap. divmod. Qed.

Lemma conv_starts c rest : starts_with letter_char (show_conv c ++ rest).
Proof. unfold letter_char. destruct c as [[] []|[]|[]|[] []|[]| | | |[]|[]]; simpl; lia. Qed.

Lemma prec_starts o c rest : starts_with (fun b => b = 46 \/ letter_char b) (show_prec o ++ show_conv c ++ rest).
Proof. pose proof (conv_starts c rest) as H. destruct o; simpl; [by left|]. destruct (show_conv c ++ rest); simpl in *; tauto. Qed.

(** A directive ends in a letter, and is read to there. *)
Lemma type_read c rest : exists ps, read_type BARE (show_conv c ++ rest) = Ok (ps, type_of c, List.last (show_conv c) 0, rest) /\
  ps = match c with
       | Signed _ md | Unsigned md | Octal md | Hex _ md | Count md =>
           match md with M_none => BARE | M_hh => HHPRE | M_h => HPRE | M_l => LPRE | M_ll => LLPRE | M_j => JPRE | M_z | M_t => ZTPRE end
       | WideChar false | WideString false => LPRE
       | _ => BARE
       end.
Proof. destruct c as [[] []|[]|[]|[] []|[]| | | |[]|[]]; eexists; split; reflexivity. Qed.

(** ** The state of a pass *)
Section passes.
Context (types : option (list state)) (args : list Z).

(** A type whose arguments are stored as 64 bits. *)
Definition stored_type (ty : state) : Prop := ty <> BARE /\ forall x, is_Some (arg_of ty x).

Lemma type_of_stored c : stored_type (type_of c).
Proof. split; [by destruct c as [[] []|[]|[]|[] []|[]| | | |[]|[]]|]. intros x. destruct c as [[] []|[]|[]|[] []|[]| | | |[]|[]]; by eexists. Qed.

(** After the positions [seen], the first pass has their types. *)
Definition typed (tys : list state) (seen : list Z) (q : pass) : Prop :=
  length (nl_type q) = 10%nat /\
  forall i, 0 <= i <= 9 ->
    if decide (i ∈ seen)
    then exists ty, 1 <= i /\ tys !! Z.to_nat (i - 1) = Some ty /\ stored_type ty /\ nl_type q !! Z.to_nat i = Some ty
    else nl_type q !! Z.to_nat i = Some BARE.

(** Both passes: the first one ([f] is false) collects types, the second takes arguments,
    [k] so far. *)
Definition at_pass (f : bool) (k : nat) (seen : list Z) (q : pass) : Prop :=
  match types with
  | None => l10n q = false /\ if f then ap q = drop k args else ap q = args /\ nl_type q = replicate 10 BARE /\ nl_arg q = replicate 10 None
  | Some tys =>
      if f then forall i ty x, tys !! i = Some ty -> args !! i = Some x -> exists y, arg_of ty x = Some y /\ nl_arg q !! S i = Some (Some y)
      else ap q = args /\ nl_arg q = replicate 10 None /\ typed tys seen q
  end.

(** Within a numbered directive. *)
Definition numbered (q : pass) : Prop := match types with Some _ => l10n q = true | None => True end.

Lemma at_pass_s f k seen q r : at_pass f k seen q -> at_pass f k seen (set_s q r).
Proof. destruct q. done. Qed.

Lemma at_pass_skip f k seen q n : at_pass f k seen q -> at_pass f k seen (skip q n).
Proof. apply at_pass_s. Qed.

Lemma at_pass_seen f k seen seen' q : (forall i, i ∈ seen <-> i ∈ seen') -> at_pass f k seen q -> at_pass f k seen' q.
Proof.
  unfold at_pass. intros Hiff. destruct types; [|done]. destruct f; [done|]. intros (? & ? & Hl & Ht). split; [done|]. split; [done|]. split; [done|].
  intros i Hi. specialize (Ht i Hi). destruct (decide (i ∈ seen)); [rewrite decide_True by (by apply Hiff)|rewrite decide_False by (by rewrite <- Hiff)]; done.
Qed.

Lemma typed_set tys seen q n ty : 1 <= n <= 9 -> tys !! Z.to_nat (n - 1) = Some ty -> stored_type ty ->
  typed tys seen q -> typed tys (n :: seen) (set_type q (Z.to_nat n) ty).
Proof.
  intros Hn Hty Hst [Hl Ht]. split; [simpl; by rewrite length_insert|]. intros i Hi. simpl nl_type. specialize (Ht i Hi).
  destruct (decide (i = n)) as [->|Hne].
  - rewrite decide_True by (by left). exists ty. rewrite list_lookup_insert_eq by lia. split_and!; done || lia.
  - rewrite list_lookup_insert_ne by lia. destruct (decide (i ∈ seen)).
    + by rewrite decide_True by (by right).
    + rewrite decide_False; [done|]. by intros [?|?]%elem_of_cons.
Qed.

Lemma at_pass_type f k seen q n ty : source_ok types (Nth n) ty -> stored_type ty -> at_pass f k seen q ->
  at_pass f k (n :: seen) (set_type (set_l10n q) (Z.to_nat n) ty) /\ (l10n q = true -> at_pass f k (n :: seen) (set_type q (Z.to_nat n) ty)).
Proof.
  unfold source_ok, at_pass. destruct types as [tys|]; [|done]. intros [Hn Hty] Hst H. destruct f; [done|].
  destruct H as (? & ? & H). split; [|intros _]; (split; [done|]; split; [done|]).
  - by apply (typed_set tys seen q).
  - by apply typed_set.
Qed.

(** *** Arguments of [*] *)
Lemma s32_u64 x : s32 (u64 (s32 x)) = s32 x.
Proof. unfold swrap, wrap. divmod. Qed.

Lemma star_nth f n k k' x seen q : source_ok types (Nth n) INT -> at_pass f k seen q -> (f = true -> pick args (Nth n) k = Some (x, k')) ->
  forall q1, nl_arg q1 = nl_arg q -> star f (Z.to_nat n) q1 = Ok (if f then s32 x else 0, q1).
Proof.
  unfold source_ok, at_pass, star. destruct types as [tys|]; [|done]. intros [Hn Hty] H Hp q1 E. destruct f; [|done].
  specialize (Hp eq_refl). simpl in Hp. destruct (args !! Z.to_nat (n - 1)) as [y|] eqn:Ey; simplify_eq/=.
  destruct (H _ _ _ Hty Ey) as (z & Hz & El). replace (S (Z.to_nat (n - 1))) with (Z.to_nat n) in El by lia.
  unfold stored_arg. rewrite E, El. simpl. simplify_eq/=. by rewrite s32_u64.
Qed.

Lemma star_next f k k' x seen q : source_ok types NextArg INT -> at_pass f k seen q -> (f = true -> pick args NextArg k = Some (x, k')) ->
  l10n q = false /\ exists q1, next_int f q = Ok (if f then s32 x else 0, q1) /\ s q1 = s q /\ at_pass f k' seen q1.
Proof.
  unfold source_ok, at_pass, next_int. destruct types as [tys|]; [done|]. intros _ [Hl H] Hp. split; [done|].
  destruct f; [|exists q; done]. specialize (Hp eq_refl). simpl in Hp.
  destruct (args !! k) as [y|] eqn:Ey; simplify_eq/=. rewrite H, (drop_S _ _ _ Ey). simpl. by eexists.
Qed.

Lemma nth_char n : 1 <= n <= 9 -> isdigit (48 + n) = true /\ Z.to_nat (48 + n - 48) = Z.to_nat n.
Proof. intros Hn. split; [apply digit_isdigit; unfold dec_digit; lia|f_equal; lia]. Qed.

Lemma source_nth a ty n : source_ok types a ty -> a = Nth n -> 1 <= n <= 9.
Proof. unfold source_ok. intros H ->. destruct types; [lia|done]. Qed.

(** The width and its sign, as the parser has them. *)
Definition width_read (v fl : Z) (q : pass) : outcome (Z * Z * pass) :=
  if v <? 0 then (if v =? INT_MIN then Undef else Ok (- v, Z.lor fl LEFT_ADJ, q)) else Ok (v, fl, q).

Lemma star_width f a k k' x seen q fl rest : s q = 42 :: show_source a ++ rest -> ends_number rest ->
  source_ok types a INT -> at_pass f k seen q -> numbered q -> (f = true -> pick args a k = Some (x, k')) ->
  exists q', read_width f fl q = width_read (if f then s32 x else 0) fl q' /\ s q' = rest /\
    at_pass f k' (source_position a ++ seen) q' /\ numbered q'.
Proof.
  intros Es Hr Ha Hq Hn Hp. unfold read_width, positional, position, chr. rewrite Es. cbn [nth]. destruct a as [|n]; cbn [show_source app nth].
  - destruct (star_next f k k' x seen q Ha Hq Hp) as (Hl & q1 & E & Es1 & Hq1). change (42 =? 42) with true. cbv iota.
    assert (Hd : isdigit (nth 0 rest 0) = false) by (destruct rest; done). rewrite Hd. cbn [andb]. rewrite Hl. cbn [negb]. rewrite E. cbn [bind].
    exists (skip q1 1). split; [done|]. split; [simpl; by rewrite Es1, Es|]. split; [by apply at_pass_skip|].
    unfold source_ok in Ha. unfold numbered. by destruct types.
  - pose proof (source_nth _ _ n Ha eq_refl) as Hn9. destruct (nth_char n Hn9) as [-> ->]. change (42 =? 42) with true. change (36 =? 36) with true. cbn [andb]. cbv iota.
    destruct (at_pass_type f k seen q n INT Ha) as [Ht _]; [split; [done|by eexists]|done|].
    rewrite (star_nth f n k k' x seen q Ha Hq Hp) by done. cbn [bind].
    eexists. split; [reflexivity|]. split; [simpl; by rewrite Es|]. split.
    + destruct f; [|by apply at_pass_skip]. specialize (Hp eq_refl). simpl in Hp. destruct (args !! _); simplify_eq/=. by apply at_pass_skip.
    + unfold numbered, source_ok in *. by destruct types.
Qed.

Lemma star_prec f a k k' x seen q rest : s q = 46 :: 42 :: show_source a ++ rest -> ends_number rest ->
  source_ok types a INT -> at_pass f k seen q -> numbered q -> (f = true -> pick args a k = Some (x, k')) ->
  exists q', read_precision f q = Ok (if f then s32 x else 0, 0 <=? if f then s32 x else 0, q') /\ s q' = rest /\
    at_pass f k' (source_position a ++ seen) q' /\ numbered q'.
Proof.
  intros Es Hr Ha Hq Hn Hp. unfold read_precision, positional, position, chr. rewrite Es. cbn [nth]. destruct a as [|n]; cbn [show_source app nth].
  - destruct (star_next f k k' x seen q Ha Hq Hp) as (Hl & q1 & E & Es1 & Hq1). change ((46 =? 46) && (42 =? 42)) with true. cbv iota.
    assert (Hd : isdigit (nth 0 rest 0) = false) by (destruct rest; done). rewrite Hd. cbn [andb]. rewrite Hl. cbn [negb]. rewrite E. cbn [bind].
    exists (skip q1 2). split; [done|]. split; [simpl; by rewrite Es1, Es|]. split; [by apply at_pass_skip|].
    unfold source_ok in Ha. unfold numbered. by destruct types.
  - pose proof (source_nth _ _ n Ha eq_refl) as Hn9. destruct (nth_char n Hn9) as [-> ->]. change ((46 =? 46) && (42 =? 42)) with true. change (36 =? 36) with true. cbn [andb]. cbv iota.
    destruct (at_pass_type f k seen q n INT Ha) as [_ Ht]; [split; [done|by eexists]|done|].
    assert (Hl : l10n q = true) by (unfold numbered, source_ok in *; by destruct types). specialize (Ht Hl).
    rewrite (star_nth f n k k' x seen q Ha Hq Hp) by done. cbn [bind].
    eexists. split; [reflexivity|]. split; [simpl; by rewrite Es|]. split.
    + destruct f; [|by apply at_pass_skip]. specialize (Hp eq_refl). simpl in Hp. destruct (args !! _); simplify_eq/=. by apply at_pass_skip.
    + unfold numbered, source_ok in *. by destruct types.
Qed.

(** *** Width and precision *)
Lemma chr_0 q c r : s q = c :: r -> chr q 0 = c.
Proof. unfold chr. by intros ->. Qed.

Lemma dec_nonneg ds : Forall dec_digit ds -> 0 <= dec ds.
Proof. intros H. by apply dec_mono. Qed.

Lemma starts_ends P rest : (forall c, P c -> isdigit c = false) -> starts_with P rest -> ends_number rest.
Proof. destruct rest; simpl; auto. Qed.

Lemma prec_char c : c = 46 \/ letter_char c -> isdigit c = false /\ c <> 42.
Proof. intros H. split; [apply not_digit|]; unfold letter_char in *; lia. Qed.

Lemma width_read_ok f o k w neg k1 seen q fl rest : s q = show_width o ++ rest -> starts_with (fun b => b = 46 \/ letter_char b) rest ->
  match o with Some n => width_ok types n | None => True end -> at_pass f k seen q -> numbered q ->
  (f = true -> width_of args o k = Some (w, neg, k1)) ->
  exists w' fl' q', read_width f fl q = Ok (w', fl', q') /\ s q' = rest /\
    at_pass f k1 (number_position o ++ seen) q' /\ numbered q' /\
    (f = true -> w' = w /\ fl' = if neg then Z.lor fl LEFT_ADJ else fl).
Proof.
  intros Es Hr Ho Hq Hn Hw.
  assert (Hend : ends_number rest) by (eapply starts_ends; [|exact Hr]; intros c; apply prec_char).
  assert (Hdigits : forall ds c r, s q = ds ++ rest -> ds ++ rest = c :: r -> c <> 42 -> Forall dec_digit ds -> dec ds <= INT_MAX ->
    (f = true -> w = dec ds /\ neg = false /\ k1 = k) -> number_position o = [] ->
    exists w' fl' q', read_width f fl q = Ok (w', fl', q') /\ s q' = rest /\ at_pass f k1 (number_position o ++ seen) q' /\ numbered q' /\
      (f = true -> w' = w /\ fl' = if neg then Z.lor fl LEFT_ADJ else fl)).
  { intros ds c r E Ec Hc Hd Hmax Hwd Hpos. unfold read_width. rewrite (chr_0 q c r) by congruence. rewrite (proj2 (Z.eqb_neq c 42)) by done.
    pose proof (dec_nonneg ds Hd). unfold getint. rewrite E, (getint_read ds rest) by (done || lia). fold (dec ds).
    rewrite (proj2 (Z.ltb_ge _ 0)) by lia. exists (dec ds), fl, (set_s q rest). rewrite Hpos. split; [done|]. split; [done|]. split.
    - destruct f; [destruct (Hwd eq_refl) as (_ & _ & ->)|]; by apply at_pass_s.
    - split; [done|]. intros Hf. by destruct (Hwd Hf) as (-> & -> & _). }
  destruct o as [[ds|a]|]; cbn [show_width show_number] in Es.
  - destruct Ho as [[Hd Hmax] (c & ds' & -> & Hc)]. apply (Hdigits (c :: ds') c (ds' ++ rest)); try done.
    + apply list.Forall_cons in Hd as [Hd _]. unfold dec_digit in Hd. lia.
    + intros Hf. specialize (Hw Hf). cbn [width_of number_of] in Hw. cbn [mbind option_bind] in Hw.
      destruct (_ =? _); [done|]. pose proof (dec_nonneg _ Hd). rewrite (proj2 (Z.ltb_ge _ 0)), Z.abs_eq in Hw by lia. by simplify_eq.
  - destruct Ho as [Ha _]. cbn [amount_ok] in Ha.
    set (x := match pick args a k with Some (x, _) => x | None => 0 end).
    assert (Hp : f = true -> pick args a k = Some (x, k1)).
    { intros Hf. specialize (Hw Hf). cbn [width_of number_of] in Hw. subst x. destruct (pick args a k) as [[x k']|]; cbn [mbind option_bind] in Hw; [|done].
      destruct (_ =? _); by simplify_eq. }
    destruct (star_width f a k k1 x seen q fl rest Es Hend Ha Hq Hn Hp) as (q' & -> & Es' & Hq' & Hn').
    unfold width_read. destruct f; [|exists 0, fl, q'; done]. specialize (Hw eq_refl). specialize (Hp eq_refl).
    cbn [width_of number_of] in Hw. rewrite Hp in Hw. cbn [mbind option_bind] in Hw. unfold INT_MIN.
    destruct (Z.eqb_spec (s32 x) (- 2 ^ 31)) as [|Hne]; [done|]. simplify_eq. destruct (Z.ltb_spec (s32 x) 0).
    + eexists _, _, q'. split; [done|]. do 3 (split; [done|]). intros _. split; [lia|done].
    + eexists _, _, q'. split; [done|]. do 3 (split; [done|]). intros _. split; [lia|done].
  - destruct rest as [|c r]; [done|]. apply (Hdigits [] c r); try done.
    + by apply prec_char in Hr as [_ ?].
    + intros Hf. specialize (Hw Hf). cbn [width_of] in Hw. by simplify_eq.
Qed.

Lemma prec_read_ok f o k prec k1 seen q rest : s q = show_prec o ++ rest -> starts_with letter_char rest ->
  match o with Some n => amount_ok types n | None => True end -> at_pass f k seen q -> numbered q ->
  (f = true -> prec_of args o k = Some (prec, k1)) ->
  exists p' xp' q', read_precision f q = Ok (p', xp', q') /\ s q' = rest /\
    at_pass f k1 (number_position o ++ seen) q' /\ numbered q' /\
    (f = true -> xp' = (0 <=? p') /\ INT_MIN <= p' <= INT_MAX /\ prec = if p' <? 0 then None else Some p').
Proof.
  intros Es Hr Ho Hq Hn Hp. assert (Hend : ends_number rest).
  { eapply starts_ends; [|exact Hr]. intros c Hc. apply not_digit. by right. }
  destruct o as [[ds|a]|]; cbn [show_prec show_number app] in Es.
  - destruct Ho as [Hd Hmax]. unfold read_precision. rewrite (chr_0 q _ _ Es). change (46 =? 46) with true. cbn [andb].
    assert (H1 : chr q 1 =? 42 = false).
    { unfold chr. rewrite Es. simpl. apply Z.eqb_neq. destruct ds as [|c ds]; [|apply list.Forall_cons in Hd as [Hd _]; unfold dec_digit in Hd; simpl; lia].
      destruct rest as [|c r]; [done|]. simpl in *. unfold letter_char in Hr. lia. }
    rewrite H1. cbn [skip set_s s]. rewrite Es. cbn [drop]. pose proof (dec_nonneg ds Hd). unfold getint. rewrite (getint_read ds rest) by (done || lia). fold (dec ds).
    eexists _, _, _. split; [reflexivity|]. split; [done|]. split; [destruct f; [specialize (Hp eq_refl); cbn in Hp; simplify_eq|]; by apply at_pass_s|]. split; [done|].
    intros Hf. specialize (Hp Hf). cbn in Hp. rewrite (proj2 (Z.leb_le 0 _)), (proj2 (Z.ltb_ge _ 0)) in * by done. simplify_eq. unfold INT_MIN. split; [done|]. split; [lia|done].
  - cbn [amount_ok] in Ho. set (x := match pick args a k with Some (x, _) => x | None => 0 end).
    assert (Hpk : f = true -> pick args a k = Some (x, k1)).
    { intros Hf. specialize (Hp Hf). cbn [prec_of number_of] in Hp. subst x. destruct (pick args a k) as [[x k']|]; cbn [mbind option_bind] in Hp; by simplify_eq. }
    destruct (star_prec f a k k1 x seen q rest Es Hend Ho Hq Hn Hpk) as (q' & -> & Es' & Hq' & Hn').
    eexists _, _, q'. split; [done|]. do 3 (split; [done|]). intros ->. specialize (Hp eq_refl). specialize (Hpk eq_refl).
    cbn [prec_of number_of] in Hp. rewrite Hpk in Hp. cbn [mbind option_bind] in Hp. simplify_eq.
    pose proof (swrap_range 32 x ltac:(lia)). unfold INT_MIN, INT_MAX. split; [done|]. split; [lia|done].
  - unfold read_precision. destruct rest as [|c r]; [done|]. rewrite (chr_0 q c r Es).
    rewrite (proj2 (Z.eqb_neq c 46)) by (unfold starts_with, letter_char in Hr; lia). cbn [andb].
    eexists _, _, q. split; [done|]. split; [done|]. split; [destruct f; [specialize (Hp eq_refl); cbn in Hp; simplify_eq|]; done|]. split; [done|].
    intros Hf. specialize (Hp Hf). cbn in Hp. simplify_eq. done.
Qed.

(** *** A directive *)
Lemma not_positional xs rest : Forall (fun c => c <> 36) xs -> match List.rev xs with c :: _ => isdigit c = false | [] => False end ->
  isdigit (nth 0 (xs ++ rest) 0) && (nth 1 (xs ++ rest) 0 =? 36) = false.
Proof.
  intros Hx Hl. destruct xs as [|c [|c' xs]]; [done|simpl in *; by rewrite Hl|].
  apply list.Forall_cons in Hx as [_ Hx]. apply list.Forall_cons in Hx as [Hc _]. simpl. rewrite (proj2 (Z.eqb_neq c' 36)) by done. apply andb_false_r.
Qed.

Lemma conv_last c : exists pre b, show_conv c = pre ++ [b] /\ letter_char b /\ Forall (fun c => c <> 36) (show_conv c).
Proof.
  destruct c as [i md|md|md|upper md|md| | | |xsi|xsi]; cbn [show_conv].
  1-5: eexists (show_modifier md), _; (split; [reflexivity|]); (split; [unfold letter_char; try (case_match; lia); lia|]);
    destruct md; try case_match; repeat constructor; lia.
  1-3: exists []; eexists; (split; [reflexivity|]); (split; [unfold letter_char; lia|]); repeat constructor; lia.
  1-2: destruct xsi; [exists []|exists [108]]; eexists; (split; [reflexivity|]); (split; [unfold letter_char; lia|]); repeat constructor; lia.
Qed.

Lemma digits_plain ds : Forall dec_digit ds -> Forall (fun c => c <> 36) ds.
Proof. intros H. eapply list.Forall_impl; [exact H|]. unfold dec_digit. simpl. lia. Qed.

Lemma number_plain n : types = None -> amount_ok types n -> Forall (fun c => c <> 36) (show_number n).
Proof.
  intros Ht Hn. unfold amount_ok, source_ok in Hn. rewrite Ht in Hn. destruct n as [ds|[|n]]; simpl in *.
  - destruct Hn. by apply digits_plain.
  - by repeat constructor.
  - done.
Qed.

Lemma dir_plain d : types = None -> dir_ok types d ->
  Forall (fun c => c <> 36) (d_flags d ++ show_width (d_width d) ++ show_prec (d_prec d) ++ show_conv (d_conv d)).
Proof.
  intros Ht (_ & Hf & Hw & Hp). rewrite !list.Forall_app. destruct (conv_last (d_conv d)) as (_ & _ & _ & _ & Hc). split_and!; [| | |done].
  - eapply list.Forall_impl; [exact Hf|]. intros c Hc' ->. unfold flag_chars in Hc'. rewrite !elem_of_cons, elem_of_nil in Hc'. lia.
  - destruct (d_width d) as [n|]; [|constructor]. destruct Hw as [Hw _]. by apply number_plain.
  - destruct (d_prec d) as [n|]; [|constructor]. constructor; [done|]. by apply number_plain.
Qed.

Lemma position_read f k seen q d rest : s q = show_dir d ++ rest -> dir_ok types d -> at_pass f k seen q ->
  exists q', read_position q = (match d_from d with NextArg => -1 | Nth n => n end, q') /\
    s q' = d_flags d ++ show_width (d_width d) ++ show_prec (d_prec d) ++ show_conv (d_conv d) ++ rest /\ at_pass f k seen q' /\ numbered q'.
Proof.
  intros Es Hd Hq. pose proof Hd as (Hs & _). unfold show_dir in Es. unfold read_position, positional, chr. rewrite Es.
  destruct (d_from d) as [|n]; cbn [show_source app nth] in *.
  - assert (Ht : types = None) by (unfold source_ok in Hs; by destruct types).
    rewrite not_positional.
    + exists (skip q 1). split; [done|]. split; [simpl; by rewrite Es, <- !app_assoc|]. split; [by apply at_pass_skip|]. unfold numbered. by rewrite Ht.
    + by apply dir_plain.
    + destruct (conv_last (d_conv d)) as (pre & b & -> & Hb & _). rewrite !app_assoc, rev_unit. apply not_digit. by right.
  - destruct (nth_char n (source_nth _ _ n Hs eq_refl)) as [-> _]. change (36 =? 36) with true. cbn [andb].
    exists (skip (set_l10n q) 3). split; [f_equal; lia|]. split; [simpl; by rewrite Es, <- !app_assoc|]. split.
    + apply at_pass_skip. unfold at_pass, source_ok in *. by destruct types.
    + unfold numbered. simpl. by destruct types.
Qed.

(** What the parser makes of a directive; the width and the rest only when it prints. *)
Definition describes (d' : directive) (d : dir) : Prop :=
  argpos d' = match d_from d with NextArg => -1 | Nth n => n end /\ st d' = type_of (d_conv d) /\ t d' = List.last (show_conv (d_conv d)) 0 /\
  ps d' = match d_conv d with
          | Signed _ md | Unsigned md | Octal md | Hex _ md | Count md =>
              match md with M_none => BARE | M_hh => HHPRE | M_h => HPRE | M_l => LPRE | M_ll => LLPRE | M_j => JPRE | M_z | M_t => ZTPRE end
          | WideChar false | WideString false => LPRE
          | _ => BARE
          end.

Definition widths (d' : directive) (d : dir) (w' : Z) (neg : bool) (prec : option Z) : Prop :=
  w d' = w' /\ fl d' = (if neg then Z.lor (flags_mask (d_flags d)) LEFT_ADJ else flags_mask (d_flags d)) /\
  xp d' = (0 <=? p d') /\ INT_MIN <= p d' <= INT_MAX /\ prec = if p d' <? 0 then None else Some (p d').

Lemma directive_read f d k seen q rest w' neg k1 prec k2 : s q = show_dir d ++ rest -> dir_ok types d -> at_pass f k seen q ->
  (f = true -> width_of args (d_width d) k = Some (w', neg, k1)) -> (f = true -> prec_of args (d_prec d) k1 = Some (prec, k2)) ->
  exists d' q', read_directive f q = Ok (d', q') /\ s q' = rest /\ describes d' d /\
    at_pass f k2 (number_position (d_prec d) ++ number_position (d_width d) ++ seen) q' /\ numbered q' /\
    (f = true -> widths d' d w' neg prec).
Proof.
  intros Es Hd Hq Hw Hp. unfold read_directive. destruct (position_read f k seen q d rest Es Hd Hq) as (q1 & -> & Es1 & Hq1 & Hn1).
  destruct Hd as (_ & Hf & Hwo & Hpo). rewrite Es1.
  rewrite (flags_read (d_flags d)); [|done|].
  2:{ pose proof (prec_starts (d_prec d) (d_conv d) rest) as Hst. destruct (d_width d) as [[ds|a]|]; cbn [show_width show_number app].
      - destruct Hwo as [[Hds _] (c & ds' & -> & Hc)]. apply list.Forall_cons in Hds as [Hds _]. simpl. apply not_flag. unfold dec_digit in Hds. lia.
      - apply not_flag. tauto.
      - destruct (show_prec _ ++ _); simpl in *; [done|]. apply not_flag. tauto. }
  fold (flags_mask (d_flags d)). set (q1' := set_s q1 _). set (fl0 := flags_mask (d_flags d)).
  destruct (width_read_ok f (d_width d) k w' neg k1 seen q1' fl0 (show_prec (d_prec d) ++ show_conv (d_conv d) ++ rest)) as (w1 & fl1 & q2 & -> & Es2 & Hq2 & Hn2 & Hw2);
    [done|apply prec_starts|done|by apply at_pass_s|done|done|]. cbn [bind].
  destruct (prec_read_ok f (d_prec d) k1 prec k2 (number_position (d_width d) ++ seen) q2 (show_conv (d_conv d) ++ rest)) as (p1 & xp1 & q3 & -> & Es3 & Hq3 & Hn3 & Hp3);
    [done|apply conv_starts|done|done|done|done|]. cbn [bind].
  rewrite Es3. destruct (type_read (d_conv d) rest) as (ps1 & -> & Hps). cbn [bind].
  eexists _, _. split; [reflexivity|]. split; [done|]. split; [done|]. split; [by apply at_pass_s|]. split; [done|].
  intros ->. destruct (Hw2 eq_refl) as [-> ->]. destruct (Hp3 eq_refl) as (-> & ? & ->). done.
Qed.

(** A directive of the second pass, with its argument. *)
Lemma next_directive_read d k q rest w' neg k1 prec k2 x k3 : s q = show_dir d ++ rest -> dir_ok types d -> at_pass true k [] q ->
  width_of args (d_width d) k = Some (w', neg, k1) -> prec_of args (d_prec d) k1 = Some (prec, k2) -> pick args (d_from d) k2 = Some (x, k3) ->
  exists d' q' y, next_directive q = Ok (d', y, q') /\ s q' = rest /\ describes d' d /\ widths d' d w' neg prec /\
    arg_of (type_of (d_conv d)) x = Some y /\ at_pass true k3 [] q'.
Proof.
  intros Es Hd Hq Hw Hp Hx. unfold next_directive.
  destruct (directive_read true d k [] q rest w' neg k1 prec k2 Es Hd Hq (fun _ => Hw) (fun _ => Hp)) as (d' & q' & -> & Es' & Hdesc & Hq' & _ & Hwd).
  cbn [bind]. pose proof Hdesc as (Ea & Est & _). destruct (type_of_stored (d_conv d)) as [Hbare Hst]. pose proof Hd as (Hsrc & _).
  unfold fetch. rewrite Est, Ea. rewrite bool_decide_false by (destruct (d_conv d) as [? []|[]|[]|? []|[]| | | | |]; done).
  destruct (d_from d) as [|n] eqn:Ef; cbn [pick] in Hx.
  - change (0 <=? -1) with false. cbv iota. unfold at_pass, source_ok in *. destruct types as [tys|]; [done|]. destruct Hq' as [Hl Hap].
    destruct (args !! k2) as [z|] eqn:Ez; simplify_eq/=. unfold pop_arg. rewrite Hap, (drop_S _ _ _ Ez). cbn [va_arg bind].
    destruct (Hst x) as [y Hy]. rewrite Hy. cbn [bind]. exists d', (set_ap q' (drop (S k2) args)), y. split; [done|]. split; [done|]. split; [done|].
    split; [by apply Hwd|]. done.
  - pose proof (source_nth _ _ n Hsrc eq_refl) as Hn. rewrite (proj2 (Z.leb_le 0 n)) by lia.
    unfold at_pass, source_ok in *. destruct types as [tys|]; [|done]. destruct Hsrc as [_ Hty]. destruct (args !! Z.to_nat (n - 1)) as [z|] eqn:Ez; [|done].
    injection Hx as -> ->. destruct (Hq' _ _ _ Hty Ez) as (y & Hy & El). replace (S (Z.to_nat (n - 1))) with (Z.to_nat n) in El by lia.
    unfold stored_arg. cbn [set_type Format.nl_arg]. rewrite El. cbn [bind]. eexists _, _, y. split; [reflexivity|]. split; [done|]. split; [done|].
    split; [by apply Hwd|]. done.
Qed.

(** A directive of the first pass: it ends there when the arguments are in order. *)
Lemma first_directive_read d seen q rest : s q = show_dir d ++ rest -> dir_ok types d -> at_pass false 0 seen q ->
  exists d' q', read_directive false q = Ok (d', q') /\
    match types with
    | None => fetch false d' q' = Ok None /\ at_pass false 0 seen q'
    | Some _ => exists q1, fetch false d' q' = Ok (Some (0, q1)) /\ s q1 = rest /\ l10n q1 = true /\ at_pass false 0 (positions [Dir d] ++ seen) q1
    end.
Proof.
  intros Es Hd Hq. destruct (directive_read false d 0 seen q rest 0 false 0 None 0 Es Hd Hq) as (d' & q' & E & Es' & (Ea & Est & _) & Hq' & Hn & _); [done..|].
  exists d', q'. split; [done|]. destruct Hd as (Hsrc & _ & Hwo & Hpo). unfold fetch. rewrite Est, Ea.
  rewrite bool_decide_false by (destruct (d_conv d) as [? []|[]|[]|? []|[]| | | | |]; done).
  destruct types as [tys|] eqn:Ety.
  - unfold source_ok in Hsrc. destruct (d_from d) as [|n] eqn:Ef; [done|]. destruct Hsrc as [Hn9 Hty]. rewrite (proj2 (Z.leb_le 0 n)) by lia.
    unfold numbered in Hn. rewrite Ety in Hn.
    eexists. split; [reflexivity|]. split; [done|]. split; [done|].
    destruct (at_pass_type false 0 _ q' n (type_of (d_conv d)) ltac:(unfold source_ok; by rewrite Ety) (type_of_stored _) Hq') as [_ H].
    specialize (H Hn). eapply at_pass_seen; [|exact H]. intros i. simpl positions. rewrite Ef, app_nil_r.
    cbn [source_position]. rewrite !elem_of_cons, !elem_of_app, list_elem_of_singleton. tauto.
  - unfold source_ok in Hsrc. destruct (d_from d); [|done]. split; [done|]. unfold at_pass in *. by rewrite Ety in *.
Qed.
End passes.

(** *** Text *)
Lemma text_app l l' : format_text (l ++ l') = format_text l ++ format_text l'.
Proof. apply flat_map_app. Qed.

Lemma percents_all s : exists r, s = replicate (2 * percents s) 37 ++ r.
Proof.
  enough (H : forall n s, (length s <= n)%nat -> exists r, s = replicate (2 * percents s) 37 ++ r) by (by apply (H (length s))).
  clear s. induction n as [|n IH]; intros [|c [|d s]] Hn; try (simpl in Hn; lia); try (by exists []); try (by eexists).
  cbn [percents]. destruct (Z.eqb_spec c 37) as [->|]; [|by eexists]. destruct (Z.eqb_spec d 37) as [->|]; [|by eexists]. simpl andb.
  destruct (IH s ltac:(simpl in Hn; lia)) as [r E]. exists r. rewrite E at 1. cbn [Nat.mul].
  replace (S (percents s) + (S (percents s) + 0))%nat with (S (S (2 * percents s))) by lia. done.
Qed.

Lemma percents_take s k : (k <= percents s)%nat -> take k s = replicate k 37.
Proof.
  intros Hk. destruct (percents_all s) as [r E]. rewrite E. rewrite take_app_le by (rewrite length_replicate; lia).
  rewrite take_replicate. f_equal. lia.
Qed.

Lemma literal_byte c s : c <> 37 -> literal (c :: s) = (c :: (literal s).1, (literal s).2).
Proof. intros Hc. unfold literal. cbn [plain]. by rewrite (proj2 (Z.eqb_neq c 37)). Qed.

Lemma literal_percent s : literal (37 :: 37 :: s) = match plain s with O => (37 :: (literal s).1, (literal s).2) | _ => ([37], s) end.
Proof.
  unfold literal. change (plain (37 :: 37 :: s)) with 0%nat. cbn [drop]. change (percents (37 :: 37 :: s)) with (S (percents s)).
  destruct (plain s) as [|n] eqn:E; cbn [drop Nat.add fst snd].
  - rewrite drop_0. replace (2 * S (percents s))%nat with (S (S (2 * percents s))) by lia. cbn [take drop]. do 2 f_equal. rewrite (percents_take s) by done.
    destruct (percents s) as [|z] eqn:Ez; [done|]. cbn [take replicate]. f_equal. apply percents_take. lia.
  - destruct s as [|c s]; [done|]. cbn [plain] in E. destruct (Z.eqb_spec c 37) as [|Hc]; [done|].
    assert (percents (c :: s) = 0%nat) as ->; [|done]. destruct s; [done|]. cbn [percents]. by rewrite (proj2 (Z.eqb_neq c 37)).
Qed.

Lemma literal_dir c s : c <> 37 -> literal (37 :: c :: s) = ([], 37 :: c :: s).
Proof.
  intros Hc. unfold literal. change (plain (37 :: c :: s)) with 0%nat. cbn [drop percents]. rewrite (proj2 (Z.eqb_neq c 37)) by done. done.
Qed.

Lemma show_dir_head types d rest : dir_ok types d -> exists c s, show_dir d ++ rest = 37 :: c :: s /\ c <> 37.
Proof.
  intros (Hs & Hf & Hw & Hp). unfold show_dir. destruct (d_from d) as [|n] eqn:Ef.
  2:{ assert (1 <= n <= 9) by (by eapply source_nth). cbn. eexists _, _. split; [reflexivity|]. lia. }
  cbn [show_source app]. destruct (d_flags d) as [|c fs].
  2:{ cbn. eexists _, _. split; [reflexivity|]. apply list.Forall_cons in Hf as [Hc _]. intros ->. unfold flag_chars in Hc. rewrite !elem_of_cons, elem_of_nil in Hc. lia. }
  pose proof (prec_starts (d_prec d) (d_conv d) rest) as Hst. rewrite app_assoc in Hst. destruct (d_width d) as [[ds|a]|]; cbn [show_width show_number app].
  - destruct Hw as [[Hds _] (c & ds' & -> & _)]. apply list.Forall_cons in Hds as [Hds _]. cbn. eexists _, _. split; [reflexivity|]. unfold dec_digit in Hds. lia.
  - cbn. eexists _, _. split; [reflexivity|]. lia.
  - destruct ((show_prec _ ++ _) ++ _) as [|c s]; [done|]. eexists _, _. split; [reflexivity|]. simpl in Hst. unfold letter_char in Hst. lia.
Qed.

(** The text that is printed at once is some bytes of the format. *)
Lemma text_chunk types l : Forall (part_ok types) l ->
  exists cs l', l = map Byte cs ++ l' /\ literal (format_text l) = (cs, format_text l') /\ (cs = [] -> match l' with Byte _ :: _ => False | _ => True end).
Proof.
  induction 1 as [|x l Hx Hl IH]; [by exists [], []|]. destruct IH as (cs & l' & -> & E & _).
  destruct x as [c|d].
  - cbn [format_text flat_map show_part]. fold (format_text (map Byte cs ++ l')). destruct (Z.eqb_spec c 37) as [->|Hc]; cbn [app].
    + rewrite literal_percent, E. destruct (plain _); [exists (37 :: cs), l'|exists [37], (map Byte cs ++ l')]; done.
    + rewrite literal_byte, E by done. by exists (c :: cs), l'.
  - exists [], (Dir d :: map Byte cs ++ l'). split; [done|]. split; [|done]. cbn [format_text flat_map show_part]. fold (format_text (map Byte cs ++ l')).
    destruct (show_dir_head types d (format_text (map Byte cs ++ l')) Hx) as (c & s & -> & Hc). by rewrite literal_dir.
Qed.

Lemma length_text_bytes cs : (length cs <= length (format_text (map Byte cs)))%nat.
Proof. induction cs as [|c cs IH]; [done|]. cbn. fold (format_text (map Byte cs)). rewrite length_app. destruct (c =? 37); simpl; lia. Qed.

(** ** The first pass over a format *)

(** The number of bytes of a format outside its directives. *)
Definition plain_bytes (l : list part) : Z := len (flat_map (fun x => match x with Byte c => [c] | Dir _ => [] end) l).

Lemma plain_bytes_app l l' : plain_bytes (l ++ l') = plain_bytes l + plain_bytes l'.
Proof. unfold plain_bytes. rewrite flat_map_app, length_app. lia. Qed.

Lemma plain_bytes_map cs : plain_bytes (map Byte cs) = len cs.
Proof. unfold plain_bytes. induction cs as [|c cs IH]; [done|]. cbn [map flat_map app length] in *. lia. Qed.

Lemma positions_app l l' : positions (l ++ l') = positions l ++ positions l'.
Proof. apply flat_map_app. Qed.

Lemma positions_map cs : positions (map Byte cs) = [].
Proof. by induction cs. Qed.

Lemma plain_bytes_nonneg l : 0 <= plain_bytes l.
Proof. unfold plain_bytes. lia. Qed.

(** What the first pass has at the end: nothing, where the arguments are in order, and
    else the types of all of them. *)
Definition first_done (types : option (list state)) (args : list Z) (seen : list Z) (e : bool) (q : pass) : Prop :=
  match types with
  | None => at_pass types args false 0 seen q
  | Some _ => e = true /\ at_pass types args false 0 seen q /\ (l10n q = true \/ seen = [])
  end.

Lemma first_pass_dir fuel q cnt n c r : s q = 37 :: c :: r -> c <> 37 -> cnt + n <= INT_MAX ->
  first_pass (S fuel) q cnt n =
    (let* (d, q) := read_directive false q in
     let* r := fetch false d q in
     match r with None => Ok (false, q) | Some (_, q) => first_pass fuel q (cnt + n) 0 end).
Proof.
  intros Es Hc Hmax. cbn [first_pass]. rewrite (proj2 (Z.ltb_ge _ n)) by lia. rewrite Es, literal_dir by done. cbn [length]. change (Z.of_nat 0) with 0.
  rewrite (proj2 (Z.ltb_ge _ 0)) by lia. change (nz 0) with false. cbv iota. rewrite <- Es. by rewrite (set_s_same q (s q)).
Qed.

Lemma first_pass_read types args : forall N l fuel q cnt n seen, (length l <= N)%nat -> Forall (part_ok types) l -> s q = format_text l ->
  (length (format_text l) < fuel)%nat -> 0 <= cnt -> 0 <= n -> at_pass types args false 0 seen q ->
  (match types with Some _ => l10n q = true \/ seen = [] | None => True end) ->
  (first_pass fuel q cnt n = Err EOVERFLOW /\ INT_MAX < cnt + n + plain_bytes l) \/
  exists e q', first_pass fuel q cnt n = Ok (e, q') /\ first_done types args (positions l ++ seen) e q'.
Proof.
  induction N as [|N IH]; intros l [|fuel] q cnt n seen HN Hl Es Hf Hcnt Hn Hq Hseen; try lia;
    pose proof (plain_bytes_nonneg l) as Hpb; (destruct (Z.ltb_spec (INT_MAX - cnt) n) as [Ho|Ho];
      [left; cbn [first_pass]; rewrite (proj2 (Z.ltb_lt _ n)) by lia; split; [done|lia]|]).
  - destruct l as [|]; [|simpl in HN; lia]. right. exists true, q. rewrite (first_pass_end fuel q cnt n) by (done || lia). split; [done|].
    unfold first_done. destruct types; done.
  - destruct (text_chunk types l Hl) as (cs & l' & -> & Elit & Hhd). rewrite <- Es in Elit. rewrite plain_bytes_app, plain_bytes_map, positions_app, positions_map in *.
    pose proof (plain_bytes_nonneg l') as Hpb'. apply list.Forall_app in Hl as [Hcs Hl']. rewrite length_app, length_map in HN. rewrite text_app, length_app in Hf.
    pose proof (length_text_bytes cs) as Hlc. cbn [app].
    destruct (decide (cs = [])) as [->|Hne].
    + destruct l' as [|[c|d] l']; [|by destruct (Hhd eq_refl)|].
      * right. exists true, q. rewrite (first_pass_end fuel q cnt n) by (done || lia). split; [done|]. unfold first_done. destruct types; done.
      * cbn [map app] in Es, Hf. simpl in HN. apply list.Forall_cons in Hl' as [Hd Hl']. cbn [format_text flat_map show_part] in Es, Hf. fold (format_text l') in Es, Hf.
        destruct (show_dir_head types d (format_text l') Hd) as (c & r & Er & Hc). rewrite (first_pass_dir fuel q cnt n c r) by (congruence || lia).
        destruct (first_directive_read types args d seen q (format_text l') Es Hd Hq) as (d' & q' & -> & Hr). cbn [bind].
        destruct types as [tys|].
        -- destruct Hr as (q1 & -> & Es1 & Hl1 & Hq1). cbn [bind].
           assert (Hlen : (length (format_text l') < fuel)%nat).
           { rewrite length_app in Hf. assert (2 <= length (show_dir d))%nat; [|lia]. unfold show_dir.
             destruct (conv_last (d_conv d)) as (pre & b & -> & _). simpl. rewrite !length_app. simpl. lia. }
           destruct (IH l' fuel q1 (cnt + n) 0 (positions [Dir d] ++ seen)) as [[E Hov]|(e & q2 & E & Hdone)];
             [lia|done|done|done|lia|lia|done|by left| |].
           ++ left. split; [done|]. unfold plain_bytes in *. cbn [flat_map app]. lia.
           ++ right. exists e, q2. split; [done|]. unfold first_done in *. destruct Hdone as (-> & Hq2 & Hs). split; [done|].
              change (Dir d :: l') with ([Dir d] ++ l'). rewrite positions_app. split.
              ** eapply at_pass_seen; [|exact Hq2]. intros i. rewrite !elem_of_app. tauto.
              ** destruct Hs as [Hs|Hs]; [by left|right]. apply app_eq_nil in Hs as [-> Hs]. by rewrite app_nil_r, Hs.
        -- destruct Hr as [-> Hq']. cbn [bind]. right. exists false, q'. split; [done|]. exact Hq'.
    + assert (Hlen : (1 <= length cs)%nat) by (destruct cs; [done|simpl; lia]).
      destruct (Z.ltb_spec INT_MAX (cnt + n + len cs)) as [Ho'|Ho'].
      { left. split; [|lia]. cbn [first_pass]. rewrite (proj2 (Z.ltb_ge _ n)) by lia. destruct (s q) as [|c r]; [by injection Elit as <- _|].
        rewrite Elit. rewrite (proj2 (Z.ltb_lt _ (len cs))) by lia. done. }
      assert (Hsq : s q <> []) by (intros E0; rewrite E0 in Elit; by injection Elit as <- _).
      rewrite (first_pass_text fuel q cnt n cs (format_text l')) by (done || lia).
      destruct (IH l' fuel (set_s q (format_text l')) (cnt + n) (len cs) seen) as [[E Hov]|(e & q2 & E & Hdone)];
        [lia|done|done|lia|lia|lia|by apply at_pass_s|done|left; split; [done|lia]|right; by exists e, q2].
Qed.
