(* ===== verification/VfprintfSpec.v ===== *)
(** * [vfprintf] on every format

    [Formats.meaning] says what a format prints, without the parser of the code; here
    [vfprintf] prints it.  The first pass collects the arguments of a format that numbers
    them ([scan_read]), the parser reads each directive as it is written
    ([Formats.next_directive_read]), and its conversion is the one of [PrintfSpec]
    ([converted_conversion]). *)
From S2P Require Import Prelude Mem StrScan Utf8 Intscan Numerals Stdio Stdin StdioFd Format Printf PrintfSpec Formats.

Abbreviation len l := (Z.of_nat (length l)).

(** ** The arguments by position *)
Lemma source_range types a ty n : source_ok types a ty -> n ∈ source_position a -> 1 <= n <= 9.
Proof. intros Ha Hn. destruct a as [|k]; simpl in Hn; [by apply elem_of_nil in Hn|]. apply list_elem_of_singleton in Hn as ->. by eapply source_nth. Qed.

Lemma positions_range types l n : Forall (part_ok types) l -> n ∈ positions l -> 1 <= n <= 9.
Proof.
  induction 1 as [|x l Hx _ IH]; [by intros ?%elem_of_nil|]. change (x :: l) with ([x] ++ l). rewrite positions_app, elem_of_app. intros [Hn|Hn]; [|by apply IH].
  destruct x as [c|d]; [by apply elem_of_nil in Hn|]. destruct Hx as (Hs & _ & Hw & Hp). simpl in Hn. rewrite app_nil_r, !elem_of_app in Hn.
  destruct Hn as [Hn|[Hn|Hn]]; [| |by eapply source_range].
  - destruct (d_width d) as [[|a]|]; simpl in Hn; [by apply elem_of_nil in Hn| |by apply elem_of_nil in Hn]. destruct Hw as [Hw _]. by eapply source_range.
  - destruct (d_prec d) as [[|a]|]; simpl in Hn; [by apply elem_of_nil in Hn| |by apply elem_of_nil in Hn]. by eapply source_range.
Qed.

Section numbered_args.
Context (tys : list state) (args : list Z).

(** The argument at index [j] is stored. *)
Definition stored_at (q : pass) (j : nat) : Prop :=
  exists ty x y, tys !! j = Some ty /\ args !! j = Some x /\ arg_of ty x = Some y /\ nl_arg q !! S j = Some (Some y).

Lemma pop_all_read : forall n i q, (i + n = 9)%nat -> (i <= length tys <= 9)%nat -> (length tys <= length args)%nat ->
  (forall j, (j < length tys)%nat -> exists ty, tys !! j = Some ty /\ stored_type ty /\ nl_type q !! S j = Some ty) ->
  (forall j, (length tys < j <= 9)%nat -> nl_type q !! j = Some BARE) ->
  Format.ap q = drop i args -> length (nl_arg q) = 10%nat -> (forall j, (j < i)%nat -> stored_at q j) ->
  exists q', pop_all (S i) n q = Ok (S (length tys), q') /\ nl_type q' = nl_type q /\ forall j, (j < length tys)%nat -> stored_at q' j.
Proof.
  induction n as [|n IH]; intros i q Hi Hlen Hargs Ht Hb Ha Hl Hs.
  - exists q. replace i with (length tys) in * by lia. done.
  - destruct (decide (i = length tys)) as [->|Hne].
    + cbn [pop_all]. rewrite (Hb (S (length tys))) by lia. by exists q.
    + destruct (Ht i ltac:(lia)) as (ty & Hty & [Hbare Hst] & Hnl). destruct (lookup_lt_is_Some_2 args i ltac:(lia)) as [x Hx].
      destruct (Hst x) as [y Hy].
      assert (E : pop_all (S i) (S n) q = pop_all (S (S i)) n (set_arg (set_ap q (drop (S i) args)) (S i) y)).
      { cbn [pop_all]. rewrite Hnl. destruct ty; [done|..]; unfold pop_arg; rewrite Ha, (drop_S _ _ _ Hx); cbn [va_arg bind]; by rewrite Hy. }
      rewrite E. destruct (IH (S i) (set_arg (set_ap q (drop (S i) args)) (S i) y)) as (q' & Eq & Et & Hs'); try done; try lia; [| |by exists q'].
      * cbn [set_arg set_ap Format.nl_arg]. by rewrite length_insert.
      * intros j Hj. unfold stored_at. cbn [set_arg set_ap Format.nl_arg]. destruct (decide (j = i)) as [->|Hji].
        -- exists ty, x, y. rewrite list_lookup_insert_eq by lia. done.
        -- destruct (Hs j ltac:(lia)) as (ty' & x' & y' & H1 & H2 & H3 & H4). exists ty', x', y'. rewrite list_lookup_insert_ne by lia. done.
Qed.
End numbered_args.

Definition pass_start (l : list part) (args : list Z) : pass := start (format_text l) args (replicate (S NL_ARGMAX) BARE) (replicate (S NL_ARGMAX) None).

Lemma start_at_pass types args l : at_pass types args false 0 [] (pass_start l args).
Proof.
  unfold at_pass. destruct types as [tys|]; [|done]. split; [done|]. split; [done|]. split; [done|]. intros i Hi.
  rewrite decide_False by by intros ?%elem_of_nil. cbn [pass_start start nl_type]. apply lookup_replicate_2. unfold NL_ARGMAX. lia.
Qed.

(** What the second pass starts from. *)
Lemma scan_read types args l : format_ok types args l ->
  (scan_format (pass_start l args) = Err EOVERFLOW /\ INT_MAX < plain_bytes l) \/
  exists c q, scan_format (pass_start l args) = Ok (c, q) /\
    at_pass types args true 0 [] (start (format_text l) (Format.ap q) (nl_type q) (nl_arg q)).
Proof.
  intros [Hl Hty]. unfold scan_format.
  destruct (first_pass_read types args (length l) l (S (length (format_text l))) (pass_start l args) 0 0 []) as [[E Hov]|(e & q & E & Hdone)];
    [done|done|done|lia|lia|lia|apply start_at_pass|by destruct types; [right|]| |]; cbn [pass_start start Format.s] in E |- *; rewrite E; cbn [bind].
  - left. split; [done|lia].
  - right. unfold first_done in Hdone. rewrite app_nil_r in Hdone. destruct types as [tys|].
    + destruct Hdone as (-> & (Ha & Hn & Hlen & Htyped) & Hl10). cbn [negb orb]. destruct Hty as [Hargs Hused].
      assert (Hmax : (length tys <= 9)%nat).
      { destruct (decide (length tys = 0%nat)); [lia|]. assert (Hu : len tys ∈ positions l) by (apply Hused; lia). pose proof (positions_range _ l _ Hl Hu). lia. }
      destruct (l10n q) eqn:El; cbn [negb].
      * destruct (pop_all_read tys args NL_ARGMAX 0 q) as (q' & -> & Et & Hs); [done|lia|done| | |by rewrite drop_0|by rewrite Hn|lia|].
        { intros j Hj. specialize (Htyped (Z.of_nat (S j)) ltac:(lia)). rewrite decide_True in Htyped by (apply Hused; lia).
          destruct Htyped as (ty & _ & H1 & H2 & H3). exists ty. rewrite Nat2Z.id in H3. replace (Z.to_nat (Z.of_nat (S j) - 1)) with j in H1 by lia. done. }
        { intros j Hj. specialize (Htyped (Z.of_nat j) ltac:(lia)). rewrite Nat2Z.id in Htyped. destruct (decide _); [|done].
          destruct Htyped as (ty & _ & H1 & _). apply lookup_lt_Some in H1. lia. }
        cbn [bind]. assert (Hall : forallb (fun t => bool_decide (t = BARE)) (drop (S (length tys)) (nl_type q')) = true).
        { apply forallb_forall. intros t Ht. apply bool_decide_eq_true. apply list_elem_of_In, list_elem_of_lookup in Ht as [j Hj]. rewrite lookup_drop in Hj.
          assert (Hj10 : (S (length tys) + j < 10)%nat) by (apply lookup_lt_Some in Hj; rewrite Et, Hlen in Hj; done).
          specialize (Htyped (Z.of_nat (S (length tys) + j)) ltac:(lia)). rewrite Nat2Z.id in Htyped. rewrite Et in Hj. destruct (decide _).
          - destruct Htyped as (ty & _ & H1 & _). apply lookup_lt_Some in H1. lia.
          - congruence. }
        rewrite Hall. eexists _, q'. split; [done|]. intros j ty x Hj Hx. pose proof (lookup_lt_Some _ _ _ Hj) as Hlt.
        destruct (Hs j Hlt) as (ty' & x' & y & H1 & H2 & H3 & H4). simplify_eq. by exists y.
      * destruct Hl10 as [|Hnil]; [done|]. exists 0, q. split; [done|]. intros j ty x Hj _. apply lookup_lt_Some in Hj.
        exfalso. specialize (Hused 1 ltac:(lia)). rewrite Hnil in Hused. by apply elem_of_nil in Hused.
    + destruct Hdone as (Hl10 & Ha & Ht & Hn). rewrite Hl10. cbn [negb]. rewrite orb_true_r. exists 0, q. split; [done|]. split; [done|]. cbn. by rewrite Ha, drop_0.
Qed.

(** ** Conversions *)

Section conversion.
Context (d' : directive) (d : dir) (w' : Z) (neg : bool) (prec : option Z).
Context (Hdesc : describes d' d) (Hw : widths d' d w' neg prec) (Hflags : Forall (fun c => c ∈ flag_chars) (d_flags d)).

Lemma flag_other k : 0 <= k -> k <> 13 -> flag (fl d') (2 ^ k) = has_flag (d_flags d) (k + 32).
Proof using Hw Hflags.
  intros Hk Hne. destruct Hw as (_ & -> & _). assert (E : flag (flags_mask (d_flags d)) (2 ^ k) = has_flag (d_flags d) (k + 32)).
  { unfold flags_mask. rewrite flag_mask by done. by rewrite flag_bit, Z.bits_0 by done. }
  destruct neg; [|done]. change LEFT_ADJ with (2 ^ 13). rewrite flag_bit, Z.lor_spec, Z.pow2_bits_false, orb_false_r, <- flag_bit by lia. done.
Qed.

Lemma flag_left : flag (fl d') LEFT_ADJ = has_flag (d_flags d) 45 || neg.
Proof using Hw Hflags.
  destruct Hw as (_ & -> & _). change LEFT_ADJ with (2 ^ 13). assert (E : flag (flags_mask (d_flags d)) (2 ^ 13) = has_flag (d_flags d) 45).
  { unfold flags_mask. rewrite flag_mask by done. by rewrite flag_bit, Z.bits_0 by done. }
  destruct neg; [|by rewrite E, orb_false_r]. by rewrite flag_bit, Z.lor_spec, Z.pow2_bits_true, !orb_true_r by lia.
Qed.

Lemma pads_left : pads d' = has_flag (d_flags d) 48 && negb (has_flag (d_flags d) 45 || neg).
Proof using Hw Hflags. unfold pads. rewrite flag_left. change ZERO_PAD with (2 ^ 16). by rewrite (flag_other 16). Qed.

(** The precision and whether there is one. *)
Lemma prec_cases : (prec = None /\ xp d' = false /\ p d' < 0) \/ (prec = Some (p d') /\ xp d' = true /\ 0 <= p d').
Proof using Hw.
  destruct Hw as (_ & _ & Hxp & _ & Hp). destruct (Z.ltb_spec (p d') 0).
  - left. split; [done|]. split; [|done]. rewrite Hxp. apply Z.leb_gt. done.
  - right. split; [done|]. split; [|done]. rewrite Hxp. by apply Z.leb_le.
Qed.

Lemma digits_written ds : with_precision (xp d') (p d') ds = digits_text prec ds.
Proof using Hw. destruct prec_cases as [(-> & -> & _)|(-> & -> & _)]; done. Qed.

Lemma none_ok : negb (xp d') = bool_decide (prec = None).
Proof using Hw. destruct prec_cases as [(-> & -> & _)|(-> & -> & _)]; done. Qed.

(** The letter after [lc] and [ls] are made [C] and [S]. *)
Lemma letter_ok : letter d' = match d_conv d with
  | Signed i _ => if i then 105 else 100 | Unsigned _ => 117 | Octal _ => 111 | Hex upper _ => if upper then 88 else 120
  | Count _ => 110 | Pointer => 112 | Chr => 99 | Str => 115 | WideChar _ => 67 | WideString _ => 83 end.
Proof using Hdesc.
  destruct Hdesc as (_ & _ & Et & Eps). unfold letter. rewrite Et, Eps.
  destruct (d_conv d) as [[] []|[]|[]|[] []|[]| | | |[]|[]]; reflexivity.
Qed.
End conversion.

(** *** Arguments *)
Lemma swrap_u64 n x : 0 < n <= 64 -> swrap 64 (u64 (swrap n x)) = swrap n x.
Proof.
  intros Hn. pose proof (swrap_range n x ltac:(lia)) as Hr. assert (2 ^ (n - 1) <= 2 ^ 63) by (apply Z.pow_le_mono_r; lia).
  rewrite (swrap_eq 64 _ (swrap n x)), swrap_small; [done|lia|change (64 - 1) with 63; lia|lia|]. unfold wrap. by rewrite Z.mod_mod by lia.
Qed.

Lemma signed_arg md x y : arg_of (integer_type true md) x = Some y -> swrap 64 y = swrap (int_bits md) x.
Proof.
  destruct md; cbn [integer_type arg_of int_bits]; intros [= <-]; try (by apply swrap_u64);
    apply swrap_eq; try lia; unfold wrap; by rewrite Z.mod_mod by lia.
Qed.

Lemma unsigned_arg md x y : arg_of (integer_type false md) x = Some y -> y = wrap (int_bits md) x.
Proof. destruct md; cbn [integer_type arg_of int_bits]; congruence. Qed.

Lemma arg_range ty x y : arg_of ty x = Some y -> 0 <= y < 2 ^ 64.
Proof.
  destruct ty; cbn [arg_of]; intros [= <-]; try (apply (wrap_range 64); lia).
  - pose proof (wrap_range 32 x ltac:(lia)). lia.
  - pose proof (wrap_range 16 x ltac:(lia)). lia.
  - pose proof (wrap_range 8 x ltac:(lia)). lia.
Qed.

(** The conversions of the standard are those of [PrintfSpec.conversion]. *)
Lemma converted_conversion m d' d w' neg prec x y pre body zero :
  describes d' d -> widths d' d w' neg prec -> Forall (fun c => c ∈ flag_chars) (d_flags d) ->
  arg_of (type_of (d_conv d)) x = Some y -> conv_text m (d_flags d) prec x (d_conv d) pre body zero ->
  conversion m d' y pre body zero.
Proof.
  intros Hd Hw Hf Ha Hc. pose proof (letter_ok d' d Hd) as Hl. pose proof (flag_other d' d w' neg prec Hw Hf) as Hfl.
  assert (Hsign : forall v, sign_text v (fl d') = sign_mark (d_flags d) v).
  { intros v. unfold sign_text, sign_mark. change MARK_POS with (2 ^ 11). change PAD_POS with (2 ^ 0). by rewrite (Hfl 11), (Hfl 0) by lia. }
  assert (Halt : flag (fl d') ALT_FORM = has_flag (d_flags d) 35) by (change ALT_FORM with (2 ^ 3); by rewrite (Hfl 3) by lia).
  pose proof (digits_written d' d w' neg prec Hw) as Hds. pose proof (none_ok d' d w' neg prec Hw) as Hnone.
  pose proof (prec_cases d' d w' neg prec Hw) as Hprec. clear Hfl Hf.
  inversion Hc as [i md ds Hn E|md ds Hn E|md ds Hn E|upper md ds Hn Hcs E|ds Hn Hcs E|E|Hz E|n Hnz Hat Hlim E]; subst; rewrite <- E in Hl, Ha; cbn [type_of] in Ha; clear Hc.
  - apply signed_arg in Ha. rewrite <- Hsign, <- Hds, <- Hnone. apply conv_signed; [by rewrite Hl; destruct i|done|done].
  - apply unsigned_arg in Ha as ->. rewrite <- Hds, <- Hnone. by apply conv_unsigned.
  - apply unsigned_arg in Ha as ->. rewrite <- Hds, <- Hnone, <- Halt. by apply conv_octal.
  - apply unsigned_arg in Ha as ->. rewrite <- Hds, <- Hnone.
    assert (Ep : hex_mark (d_flags d) (wrap (int_bits md) x) (if upper then 88 else 120) = hex_prefix (wrap (int_bits md) x) (letter d') (fl d')).
    { unfold hex_mark, hex_prefix. by rewrite Halt, Hl, andb_comm. }
    rewrite Ep. apply conv_hex; [by rewrite Hl; destruct upper|done|]. rewrite Hl. by destruct upper.
  - cbn [arg_of] in Ha. injection Ha as <-.
    assert (Ep : digits_text (Z.max 16 <$> prec) ds = with_precision (xp d') (Z.max 16 (p d')) ds) by (by destruct Hprec as [(-> & -> & _)|(-> & -> & _)]).
    assert (Em : (if nz (wrap 64 x) then [48; 120] else []) = hex_prefix (wrap 64 x) 120 ALT_FORM) by (unfold hex_prefix; by destruct (nz _)).
    rewrite Ep, Em, <- Hnone. by apply conv_pointer.
  - cbn [arg_of] in Ha. injection Ha as <-. assert (Ec : wrap 8 x = u8 (u64 (swrap 8 x))).
    { unfold wrap. rewrite Z.mod_mod_divide by (by exists (2 ^ 56)). symmetry. by apply swrap_mod. }
    rewrite Ec. by apply conv_char.
  - cbn [arg_of] in Ha. injection Ha as <-.
    assert (En : match prec with Some n => take (Z.to_nat n) | None => id end [40; 110; 117; 108; 108; 41] = (if p d' <? 0 then null_text else take (Z.to_nat (p d')) null_text)).
    { destruct Hprec as [(-> & _ & Hp)|(-> & _ & Hp)]; [by rewrite (proj2 (Z.ltb_lt _ 0))|by rewrite (proj2 (Z.ltb_ge _ 0))]. }
    rewrite En. by apply conv_null.
  - cbn [arg_of] in Ha. injection Ha as <-. pose proof (wrap_range 64 x ltac:(lia)). apply PrintfSpec.conv_string; [done|lia| |].
    + destruct Hprec as [(-> & _ & Hp)|(-> & _ & Hp)]; [by rewrite (proj2 (Z.ltb_lt _ 0))|by rewrite (proj2 (Z.ltb_ge _ 0))].
    + intros Hp. apply Hlim. destruct Hprec as [(-> & _)|(_ & _ & ?)]; [done|lia].
Qed.

(** *** Wide characters *)
Lemma multibyte_ok utf8 c mb : multibyte utf8 c = Some mb -> to_bytes utf8 c = Ok mb.
Proof.
  unfold multibyte, to_bytes. set (m := write_bytes ∅ 1 [0; 0; 0; 0]). intros H.
  assert (Hm : mapped m 1 4) by (apply mapped_written with (bs := [0; 0; 0; 0])).
  enough (E : wcrtomb utf8 m 1 c = Some (len mb, write_bytes m 1 mb) /\ 0 < len mb <= 4).
  { destruct E as [E Hl]. unfold wctomb. change (1 =? 0) with false. cbv iota. rewrite E. cbn [mbind option_bind to_outcome bind].
    rewrite swrap_small by lia. rewrite (proj2 (Z.ltb_ge _ 0)) by lia. by rewrite bytes_of_write. }
  destruct utf8.
  - destruct (scalar_b c) eqn:Hs; [|done]. injection H as <-.
    assert (Hsc : scalar c) by (unfold scalar_b in Hs; unfold scalar; rewrite orb_true_iff, !andb_true_iff, !Z.leb_le, !Z.ltb_lt in Hs; lia).
    pose proof (encode_len_range c) as Hr. unfold encode_len in Hr. split; [|lia]. apply wcrtomb_ok; [done|lia|]. eapply mapped_sub; [exact Hm|lia|unfold encode_len; lia].
  - assert (Hstore : store8 m 1 c = Some (<[1 := u8 c]> m)) by (eapply store8_in; [exact Hm|lia]).
    unfold wcrtomb. change (1 =? 0) with false. cbv iota.
    destruct ((0 <=? c) && (c <? 128)) eqn:E1; [|destruct ((0xdf80 <=? c) && (c <? 0xe000)) eqn:E2; [|done]]; injection H as <-;
      rewrite andb_true_iff, Z.leb_le, Z.ltb_lt in *.
    + rewrite (wrap_small 32) by lia. rewrite (proj2 (Z.ltb_lt c 128)), Hstore by lia. cbn [mbind option_bind write_bytes length].
      rewrite (wrap_small 8 c) by lia. split; [done|lia].
    + rewrite (wrap_small 32 c) by lia. rewrite (proj2 (Z.ltb_ge c 128)) by lia. cbn [negb]. unfold IS_CODEUNIT.
      rewrite (wrap_small 32 c), (wrap_small 32) by lia. rewrite (proj2 (Z.ltb_lt _ _)) by lia. cbn [negb]. rewrite Hstore. cbn [mbind option_bind write_bytes length].
      assert (Ec : u8 c = c - 0xdf00) by (unfold wrap; divmod). rewrite Ec. split; [done|lia].
Qed.

Lemma fitting_some utf8 cs : forall n body, fitting utf8 (Some n) cs = Some body -> wide_fit utf8 n cs = Some body.
Proof.
  induction cs as [|c cs IH]; intros n body H; [done|]. cbn [fitting wide_fit] in *. destruct (multibyte utf8 c) as [mb|] eqn:Em; [|done].
  rewrite (multibyte_ok _ _ _ Em). cbn [mbind option_bind] in H. destruct (len mb <=? n); [|done].
  destruct (fitting utf8 _ cs) as [t|] eqn:Et; [|done]. by rewrite (IH _ _ Et).
Qed.

Lemma fitting_none utf8 cs : forall n body, fitting utf8 None cs = Some body -> len body <= n -> wide_fit utf8 n cs = Some body.
Proof.
  induction cs as [|c cs IH]; intros n body H Hn; [done|]. cbn [fitting wide_fit] in *. destruct (multibyte utf8 c) as [mb|] eqn:Em; [|done].
  rewrite (multibyte_ok _ _ _ Em). cbn [mbind option_bind] in H. destruct (fitting utf8 None cs) as [t|] eqn:Et; [|done]. injection H as <-.
  rewrite length_app in Hn. rewrite (proj2 (Z.leb_le _ n)) by lia. by rewrite (IH (n - len mb) t) by (done || lia).
Qed.

Lemma load32_mapped m a u : load32 m a = Some u -> mapped m a 4.
Proof.
  unfold load_le, load8. intros H b Hb. destruct (m !! a) eqn:E0; cbn [mbind option_bind] in H; [|done].
  destruct (m !! (a + 1)) eqn:E1; cbn [mbind option_bind] in H; [|done]. destruct (m !! (a + 1 + 1)) eqn:E2; cbn [mbind option_bind] in H; [|done].
  destruct (m !! (a + 1 + 1 + 1)) eqn:E3; cbn [mbind option_bind] in H; [|done].
  assert (b = a \/ b = a + 1 \/ b = a + 1 + 1 \/ b = a + 1 + 1 + 1) as [-> |[-> |[-> | ->]]] by lia; eauto.
Qed.

Lemma wide_chars_string m a cs : wide_chars m a cs -> wide_string (wide_at m a) 0 cs /\ (length cs <= fuel_of m)%nat.
Proof.
  intros [Hnz Hc]. split; [split|].
  - intros j c Hj. rewrite Nat.add_0_l. destruct (Hc j c) as (u & Hu & Hs); [by apply lookup_app_l_Some|].
    unfold wide_at. rewrite Hu. cbn [to_outcome bind]. rewrite Hs. split; [done|]. rewrite list.Forall_forall in Hnz. apply Hnz. by eapply list_elem_of_lookup_2.
  - rewrite Nat.add_0_l. destruct (Hc (length cs) 0) as (u & Hu & Hs); [by rewrite lookup_app_r, Nat.sub_diag by lia|].
    unfold wide_at. rewrite Hu. cbn [to_outcome bind]. by rewrite Hs.
  - assert (Hm : mapped m a (4 * (len cs + 1))).
    { intros b Hb. assert (Hj : (Z.to_nat ((b - a) / 4) < length (cs ++ [0%Z]))%nat) by (rewrite length_app; simpl; divmod).
      destruct (lookup_lt_is_Some_2 _ _ Hj) as [c Hjc]. destruct (Hc _ _ Hjc) as (u & Hu & _). apply load32_mapped in Hu. apply Hu. divmod. }
    apply mapped_size in Hm. unfold fuel_of. lia.
Qed.

(** ** A directive *)
Lemma effect_text utf8 args m d k cnt txt m' k' : effect utf8 args m d k cnt txt m' k' -> Forall (fun c => c ∈ flag_chars) (d_flags d) ->
  exists w' neg k1 prec k2 x, width_of args (d_width d) k = Some (w', neg, k1) /\ prec_of args (d_prec d) k1 = Some (prec, k2) /\
    pick args (d_from d) k2 = Some (x, k') /\
    forall d' y, describes d' d -> widths d' d w' neg prec -> arg_of (type_of (d_conv d)) x = Some y ->
      directive_text utf8 m d' y cnt txt m'.
Proof.
  intros He Hf. destruct He as [w' neg k1 prec k2 x k3 pre body zero Hw Hp Hx Hc left|w' neg k1 prec k2 x k3 cs room body Hw Hp Hx Hwide Hfit Hmax Hzero|w' neg k1 prec k2 x k3 md m1 Hw Hp Hx Hcv Hs];
    exists w', neg, k1, prec, k2, x; (do 3 (split; [done|])); intros d' y Hd Hwd Ha.
  - pose proof (text_field utf8 m d' y cnt pre body zero (converted_conversion m d' d w' neg prec x y pre body zero Hd Hwd Hf Ha Hc)) as H.
    rewrite (flag_left d' d w' neg prec Hwd Hf), (pads_left d' d w' neg prec Hwd Hf) in H.
    destruct Hwd as (<- & _). by rewrite andb_assoc in H.
  - pose proof (letter_ok d' d Hd) as Hl. pose proof (prec_cases d' d w' neg prec Hwd) as Hpc.
    assert (Hpads : pads d' = false) by (rewrite (pads_left d' d w' neg prec Hwd Hf); by rewrite Hzero).
    pose proof (flag_left d' d w' neg prec Hwd Hf) as Hleft. destruct Hwd as (<- & _ & _ & Hr & _). rewrite <- Hleft.
    unfold INT_MAX, INT_MIN in *. destruct (d_conv d) as [| | | | | | | |xsi|xsi]; try done; cbn [wide_text type_of arg_of] in *; injection Ha as <-; destruct Hwide as [Hcs ->].
    + apply (text_wide utf8 m d' _ cnt (wide_one (u64 (s32 x))) (-1) cs body); [by left|done| | | |done].
      * unfold wide_string, wide_one. rewrite s32_u64. destruct (Z.eqb_spec (s32 x) 0) as [E|E]; subst cs; [split; [done|by rewrite E]|].
        split; [|done]. intros [|j] c Hj; [by injection Hj as <-|done].
      * subst cs. unfold fuel_of. destruct (s32 x =? 0); simpl; lia.
      * apply fitting_none; [done|]. change (u64 (-1)) with (2 ^ 64 - 1). lia.
    + destruct (wide_chars_string m _ cs Hcs) as [Hws Hlen]. apply (text_wide utf8 m d' _ cnt (wide_at m (u64 x)) (p d') cs body); [by right|done|done|done| |done].
      destruct Hpc as [(-> & _ & Hneg)|(-> & _ & Hpos)].
      * apply fitting_none; [done|]. unfold wrap. rewrite <- (Z.mod_unique_pos (p d') (2 ^ 64) (-1) (p d' + 2 ^ 64)) by lia. lia.
      * apply fitting_some. by rewrite wrap_small by lia.
  - pose proof (letter_ok d' d Hd) as Hl. rewrite Hcv in Hl, Ha. cbn [type_of arg_of] in Ha. injection Ha as <-. apply text_count; [done|].
    destruct Hd as (_ & _ & _ & Eps). rewrite Hcv in Eps. unfold store_count. rewrite Eps. by destruct md.
Qed.

(** ** A format *)
Lemma meaning_bytes utf8 args m cs l k cnt out m' : meaning utf8 args m (map Byte cs ++ l) k cnt out m' ->
  exists out', out = cs ++ out' /\ meaning utf8 args m l k (cnt + len cs) out' m'.
Proof.
  revert cnt out. induction cs as [|c cs IH]; intros cnt out H; [exists out; by rewrite Z.add_0_r|]. inversion H as [|? ? ? ? ? out1 ? H1|]; subst.
  destruct (IH _ _ H1) as (out' & -> & H2). exists out'. split; [done|]. by replace (cnt + len (c :: cs)) with (cnt + 1 + len cs) by (simpl length; lia).
Qed.

Lemma meaning_length utf8 args m l k cnt out m' : meaning utf8 args m l k cnt out m' -> plain_bytes l <= len out.
Proof.
  induction 1 as [m k cnt|m c l k cnt out m' _ IH|m d l k cnt txt m1 k' out m' _ _ IH]; [done|..]; unfold plain_bytes in *; cbn [flat_map app length]; [lia|].
  rewrite length_app. lia.
Qed.

Lemma meaning_formatted utf8 types args : forall N l m q k cnt out m', (length l <= N)%nat -> Forall (part_ok types) l -> s q = format_text l ->
  at_pass types args true k [] q -> meaning utf8 args m l k cnt out m' -> formatted utf8 m q cnt out m'.
Proof.
  induction N as [|N IH]; intros l m q k cnt out m' HN Hl Es Hq Hm.
  - destruct l; [|simpl in HN; lia]. inversion Hm; subst. by apply formatted_end.
  - destruct (text_chunk types l Hl) as (cs & l' & -> & Elit & Hhd). rewrite <- Es in Elit. apply list.Forall_app in Hl as [_ Hl'].
    rewrite length_app, length_map in HN. destruct (decide (cs = [])) as [->|Hne].
    + cbn [map app] in *. destruct l' as [|[c|d] l']; [|by destruct (Hhd eq_refl)|]; [inversion Hm; subst; by apply formatted_end|].
      apply list.Forall_cons in Hl' as [Hd Hl']. inversion Hm as [| |? ? ? ? ? txt m1 k' out1 ? He Hm1]; subst.
      pose proof Hd as (_ & Hfl & _). destruct (effect_text _ _ _ _ _ _ _ _ _ He Hfl) as (w' & neg & k1 & prec & k2 & x & Hw & Hp & Hx & Htext).
      change (format_text (Dir d :: l')) with (show_dir d ++ format_text l') in Es.
      destruct (next_directive_read types args d k q (format_text l') w' neg k1 prec k2 x k' Es Hd Hq Hw Hp Hx) as (d' & q' & y & Hnext & Es' & Hdesc & Hwd & Hy & Hq').
      apply (formatted_directive utf8 m q cnt d' y q' txt m1 out1 m').
      * rewrite Es. destruct (show_dir_head types d (format_text l') Hd) as (c & r & -> & _). done.
      * by rewrite Elit.
      * done.
      * destruct Hwd as (_ & _ & Hxp & Hr & _). split; [done|]. split; [done|]. by eapply arg_range.
      * by apply Htext.
      * apply (IH l' m1 q' k'); [simpl in HN; lia|done|done|done|done].
    + destruct (meaning_bytes _ _ _ _ _ _ _ _ _ Hm) as (out' & -> & Hm'). apply (formatted_literal utf8 m q cnt cs (format_text l')); [done|done|].
      apply (IH l' m _ k); [destruct cs; [done|simpl in HN; lia]|done|done|by apply at_pass_s|done].
Qed.

(** The bytes of a format. *)
Lemma number_bytes types n : amount_ok types n -> Forall is_byte (show_number n).
Proof.
  unfold is_byte. destruct n as [ds|[|n]]; cbn [amount_ok show_number show_source].
  - intros [H _]. eapply list.Forall_impl; [exact H|]. unfold dec_digit. simpl. lia.
  - repeat constructor; lia.
  - intros H. pose proof (source_nth _ _ _ n H eq_refl). repeat constructor; lia.
Qed.

Lemma conv_bytes c : Forall is_byte (show_conv c).
Proof. unfold is_byte. destruct c as [[] []|[]|[]|[] []|[]| | | |[]|[]]; repeat constructor; lia. Qed.

Lemma text_bytes types l : Forall (part_ok types) l -> Forall is_byte (format_text l).
Proof.
  induction 1 as [|x l Hx _ IH]; [constructor|]. cbn [format_text flat_map]. apply list.Forall_app. split; [|exact IH]. destruct x as [c|d]; cbn [show_part].
  - simpl in Hx. unfold is_byte. destruct (c =? 37); repeat constructor; lia.
  - destruct Hx as (Hs & Hf & Hw & Hp). unfold show_dir. constructor; [unfold is_byte; lia|]. rewrite !list.Forall_app. split_and!; [| | | |apply conv_bytes].
    + destruct (d_from d) as [|n]; [constructor|]. pose proof (source_nth _ _ _ n Hs eq_refl). unfold is_byte. repeat constructor; lia.
    + eapply list.Forall_impl; [exact Hf|]. intros c Hc. apply flag_char_ok in Hc as [_ ?]. unfold is_byte. lia.
    + destruct (d_width d) as [n|]; [|constructor]. destruct Hw as [Hw _]. by eapply number_bytes.
    + destruct (d_prec d) as [n|]; [|constructor]. constructor; [unfold is_byte; lia|]. by eapply number_bytes.
Qed.

(** What the standard says of a format is what [PrintfSpec.formatted] says of its string,
    unless the text outside the directives alone is too long. *)
Lemma meaning_prepared utf8 types args fmt m out m' : format_ok types args fmt -> meaning utf8 args m fmt 0 0 out m' ->
  (scan_format (pass_start fmt args) = Err EOVERFLOW /\ INT_MAX < len out) \/
  exists q, prepared (format_text fmt) args q /\ formatted utf8 m q 0 out m'.
Proof.
  intros Hfmt Hmean. destruct (scan_read types args fmt Hfmt) as [[E Hov]|(c & q & E & Hq)].
  - left. split; [done|]. pose proof (meaning_length _ _ _ _ _ _ _ _ Hmean). lia.
  - right. eexists. split; [by eexists c, q|]. pose proof Hfmt as [Hl _].
    by apply (meaning_formatted utf8 types args (length fmt) fmt m _ 0 0 out m').
Qed.

(** C20. [vfprintf] prints what the format means and returns its length; or it returns -1
    with an error on the stream, after the device failed, or because the text is longer
    than [INT_MAX]: then a part of the text was printed.  This holds for every device,
    buffered or not, and every format made of bytes and of directives with any flags,
    width, precision and length modifier and the conversions [d i u o x X c s p n lc ls C
    S], whose arguments are taken in order or by their positions. *)
Theorem vfprintf_prints {W : Type} `{WriterLaws W} internal junk utf8 w f l types args fmt m out m' :
  stream w f l -> has f F_NOWR = false -> has f F_ERR = false -> array_ok internal junk -> mem_ok m ->
  format_ok types args fmt -> meaning utf8 args m fmt 0 0 out m' ->
  prints (vfprintf internal junk utf8 (w, f) (format_text fmt) m args) f l out m'.
Proof.
  intros Hs Hnw Hne Ha Hm Hfmt Hmean. destruct (meaning_prepared _ _ _ _ _ _ _ Hfmt Hmean) as [[E Hov]|(q & (c & q' & E & ->) & Hf)].
  - unfold vfprintf. unfold pass_start in E. rewrite E. exists w, f, m, (-1), (Some EOVERFLOW). split; [done|]. split.
    + intros Hsz. destruct Hs as (Hb & Hmode & _). destruct Hmode as [(E1 & E2 & E3)|Hi]; [|by apply pending_idle].
      destruct Hb as (B1 & B2 & B3 & B4). unfold pending, between. apply bytes_of_nonpos. lia.
    + right. split; [done|]. split; [by right|]. exists (length l). by rewrite take_app_length.
  - destruct Hfmt as [Hl _]. eapply vfprintf_ok; try done. by eapply text_bytes.
Qed.

(** ["x=%0*d%%"] with 5 and -42, and ["%2$hhx %1$s"] with a null pointer and 511. *)
Definition demo_d : dir := {| d_from := NextArg; d_flags := [48]; d_width := Some (Star NextArg); d_prec := None; d_conv := Signed false M_none |}.
Definition demo_hhx : dir := {| d_from := Nth 2; d_flags := []; d_width := None; d_prec := None; d_conv := Hex false M_hh |}.
Definition demo_s : dir := {| d_from := Nth 1; d_flags := []; d_width := None; d_prec := None; d_conv := Str |}.
Definition demo_star : list part := [Byte 120; Byte 61; Dir demo_d; Byte 37].
Definition demo_numbered : list part := [Dir demo_hhx; Byte 32; Dir demo_s].

Lemma demo_star_meaning m : meaning true [5; 2 ^ 32 - 42] m demo_star 0 0 [120; 61; 45; 48; 48; 52; 50; 37] m.
Proof.
  apply meaning_byte, meaning_byte. apply (meaning_dir true _ m _ _ 0 _ [45; 48; 48; 52; 50] m 2); [|apply meaning_byte, meaning_end].
  apply (effect_field true [5; 2 ^ 32 - 42] m demo_d 0 2 5 false 1 None 1 (2 ^ 32 - 42) 2 [45] [52; 50] true); try reflexivity.
  apply (Formats.conv_d m [48] None (2 ^ 32 - 42) false M_none [52; 50]). split; [by repeat apply list.Forall_cons_2|]. split; [done|]. by intros c [= <-].
Defined.

Lemma demo_numbered_meaning m : meaning true [0; 511] m demo_numbered 0 0 [102; 102; 32; 40; 110; 117; 108; 108; 41] m.
Proof.
  apply (meaning_dir true _ m _ _ 0 _ [102; 102] m 0).
  - apply (effect_field true [0; 511] m demo_hhx 0 0 0 false 0 None 0 511 0 [] [102; 102] true); try reflexivity.
    apply (Formats.conv_x m [] None 511 false M_hh [102; 102]); [|apply list.Forall_cons_2, list.Forall_cons_2, list.Forall_nil_2; right; lia].
    split; [by repeat apply list.Forall_cons_2|]. split; [done|]. by intros c [= <-].
  - apply meaning_byte. apply (meaning_dir true _ m _ _ 0 _ [40; 110; 117; 108; 108; 41] m 0); [|apply meaning_end].
    apply (effect_field true [0; 511] m demo_s 0 _ 0 false 0 None 0 0 0 [] [40; 110; 117; 108; 108; 41] false); try reflexivity. by apply Formats.conv_s_null.
Defined.

Lemma vfprintf_prints_witness : let f := demo [0; 0; 0; 0] 0 0 10 in
  prints (vfprintf 5000 (replicate 80 0) true (demo_out 100, f) (format_text demo_star) ∅ [5; 2 ^ 32 - 42]) f [] [120; 61; 45; 48; 48; 52; 50; 37] ∅ /\
  prints (vfprintf 5000 (replicate 80 0) true (demo_out 100, f) (format_text demo_numbered) ∅ [0; 511]) f [] [102; 102; 32; 40; 110; 117; 108; 108; 41] ∅.
Proof.
  split.
  - apply (vfprintf_prints 5000 (replicate 80 0) true (demo_out 100) (demo [0; 0; 0; 0] 0 0 10) [] None);
      [apply demo_stream|done|done|done|mem_check| |apply demo_star_meaning].
    split; [|done]. repeat constructor; simpl; lia.
  - apply (vfprintf_prints 5000 (replicate 80 0) true (demo_out 100) (demo [0; 0; 0; 0] 0 0 10) [] (Some [PTR; UCHAR]));
      [apply demo_stream|done|done|done|mem_check| |apply demo_numbered_meaning].
    split; [repeat constructor; simpl; lia|]. split; [done|]. simpl. intros i Hi. assert (i = 1 \/ i = 2) as [-> | ->] by lia; set_solver.
Defined.
