(* ===== verification/Snprintf.v ===== *)
(** * Formatted output to memory ([stdio/vsnprintf.c], [snprintf.c], [vsprintf.c])

    [vsnprintf] prints on a stream whose device is a piece of memory.  That device keeps
    the promise of [WriterLaws] for every text, with what does not fit dropped, so that
    the theorems about [vfprintf] apply to it. *)
From S2P Require Import Prelude Mem StrScan CString Utf8 Intscan Numerals Stdio Stdin StdioFd Format Printf PrintfSpec.

(** [struct cookie], with the memory that [s] points to. *)
Record cookie := { cs : Z; cn : Z; dst : mem }.

(** [memcpy(c->s, p, k); c->s += k; c->n -= k;] for bytes that were read at [p]. *)
Definition copy_in (c : cookie) (bs : list Z) : option cookie :=
  let k := Z.of_nat (length bs) in
  if mapped_b (dst c) (cs c) k
  then Some {| cs := cs c + k; cn := cn c - k; dst := write_bytes (dst c) (cs c) bs |} else None.

Definition sn_write (c : cookie) (f : FILE) (s : list Z) : option (cookie * FILE * Z) :=
  let k := Z.min (cn c) (wpos f - wbase f) in
  c ← (if nz k then copy_in c (between f (wbase f) (wbase f + k)) else Some c);
  let k := Z.min (cn c) (Z.of_nat (length s)) in
  c ← (if nz k then copy_in c (take (Z.to_nat k) s) else Some c);
  m ← store8 (dst c) (cs c) 0;
  Some ({| cs := cs c; cn := cn c; dst := m |}, set_write f (buf f) (buf f) (wend f), Z.of_nat (length s)).

#[export] Instance sn_writer : Writer cookie := sn_write.

(** The automatic variables of [vsnprintf]: the addresses of [buf] and [dummy]. *)
Definition sn_file (one : Z) : FILE :=
  {| flags := 0; mode := 0; rpos := 0; rend := 0; wpos := 0; wbase := 0; wend := 0; buf := one; buf_size := 0; lbf := EOF; data := ∅ |}.

(** The returned value, [errno] if it is set, the destination and the memory. *)
Definition vsnprintf (one dummy internal : Z) (junk : list Z) (utf8 : bool) (m0 : mem) (s n : Z) (fmt : list Z) (m : mem) (ap : list Z) : option (Z * option Z * mem * mem) :=
  let c := if nz n then {| cs := s; cn := n - 1; dst := m0 |} else {| cs := dummy; cn := 0; dst := {[ dummy := 0 ]} |} in
  if INT_MAX <? n then Some (-1, Some EOVERFLOW, m0, m)
  else
    d ← store8 (dst c) (cs c) 0;
    '(c, _, m, ret, err) ← vfprintf internal junk utf8 ({| cs := cs c; cn := cn c; dst := d |}, sn_file one) fmt m ap;
    Some (ret, err, if nz n then dst c else m0, m).

Definition snprintf := vsnprintf.
Definition vsprintf (one dummy internal : Z) (junk : list Z) (utf8 : bool) (m0 : mem) (s : Z) := vsnprintf one dummy internal junk utf8 m0 s INT_MAX.

(** ** The device *)
Lemma mapped_b_ok m p n : mapped m p n -> mapped_b m p n = true.
Proof.
  intros Hm. unfold mapped_b. apply forallb_forall. intros a Ha. apply list_elem_of_In, elem_of_seqZ in Ha.
  destruct (Hm a ltac:(lia)) as [b ->]. done.
Qed.

Lemma write_over m p b xs : xs <> [] -> write_bytes (write_bytes m p [b]) p xs = write_bytes m p xs.
Proof. destruct xs; [done|]. intros _. cbn [write_bytes]. by rewrite insert_insert_eq. Qed.

Section device.
Context (s cap : Z) (m0 : mem) (Hcap : 0 <= cap) (Hmap : mapped m0 s (cap + 1)).

Definition kept (d : list Z) : list Z := take (Z.to_nat cap) d.

(** The destination holds as much of [d] as fits, and a null byte. *)
Definition holds (c : cookie) (d : list Z) : Prop :=
  cs c = s + Z.of_nat (length (kept d)) /\ cn c = cap - Z.of_nat (length (kept d)) /\ dst c = write_bytes m0 s (kept d ++ [0]).

(** It would, with the null byte. *)
Definition loaded (c : cookie) (d : list Z) : Prop :=
  cs c = s + Z.of_nat (length (kept d)) /\ cn c = cap - Z.of_nat (length (kept d)) /\
  write_bytes (dst c) (cs c) [0] = write_bytes m0 s (kept d ++ [0]) /\ mapped (dst c) s (cap + 1).

Lemma length_kept d : Z.of_nat (length (kept d)) <= cap.
Proof using Hcap. unfold kept. rewrite length_take. lia. Qed.

(** The bytes of [x] that still fit after [d]. *)
Lemma kept_app d x : kept (d ++ x) = kept d ++ take (Z.to_nat (cap - Z.of_nat (length (kept d)))) x.
Proof using Hcap. unfold kept. rewrite take_app, length_take. do 2 f_equal. lia. Qed.

Lemma holds_loaded c d : holds c d -> loaded c d.
Proof using Hcap Hmap.
  intros (Hs & Hn & Hd). split; [done|]. split; [done|]. split; [|rewrite Hd; by apply mapped_write].
  rewrite Hd, Hs, !write_bytes_app. by rewrite write_over.
Qed.

Lemma copy_loaded c d x : loaded c d ->
  let k := Z.min (cn c) (Z.of_nat (length x)) in
  exists c', (if nz k then copy_in c (take (Z.to_nat k) x) else Some c) = Some c' /\ loaded c' (d ++ x).
Proof using Hcap Hmap.
  intros (Hs & Hn & Hd & Hm) k. pose proof (length_kept d) as Hk.
  assert (Hx : take (Z.to_nat (cap - Z.of_nat (length (kept d)))) x = take (Z.to_nat k) x).
  { subst k. rewrite Hn. destruct (Z.le_gt_cases (Z.of_nat (length x)) (cap - Z.of_nat (length (kept d)))); [by rewrite !take_ge by lia|f_equal; lia]. }
  destruct (nz k) eqn:Ek.
  - apply nz_true in Ek. assert (Hl : Z.of_nat (length (take (Z.to_nat k) x)) = k) by (rewrite length_take; lia).
    unfold copy_in. rewrite Hl, (mapped_b_ok (dst c) (cs c) k) by (eapply mapped_sub; [exact Hm|lia..]). eexists. split; [done|].
    pose proof (length_kept (d ++ x)) as Hk'. unfold loaded. rewrite kept_app, Hx, length_app, Nat2Z.inj_add, Hl in *.
    cbn [cs cn dst]. split; [lia|]. split; [lia|]. split; [|by apply mapped_write].
    set (xs := take (Z.to_nat k) x) in *. clearbody xs k. subst k.
    assert (Hne : xs ++ [0] <> []) by (by destruct xs). rewrite <- write_bytes_app, <- (write_over (dst c) (cs c) 0) by done.
    rewrite Hd, Hs, <- app_assoc. by rewrite (write_bytes_app m0 s (kept d) [0]), (write_bytes_app m0 s (kept d) (xs ++ [0])), write_over.
  - apply nz_false in Ek. exists c. split; [done|]. unfold loaded. rewrite kept_app, Hx, Ek, take_0, app_nil_r. done.
Qed.

Lemma sn_write_ok c f x d : holds c d -> wbase f <= wpos f -> exists c',
  sn_write c f x = Some (c', set_write f (buf f) (buf f) (wend f), Z.of_nat (length x)) /\ holds c' (d ++ pending f ++ x).
Proof using Hcap Hmap.
  intros Hd Hw. pose proof (length_between f (wbase f) (wpos f) Hw) as Hl. fold (pending f) in Hl.
  destruct (copy_loaded c d (pending f) (holds_loaded _ _ Hd)) as (c1 & E1 & H1). rewrite Hl in E1.
  destruct (copy_loaded c1 (d ++ pending f) x H1) as (c2 & E2 & (Hs & Hn & Hz & Hm)). unfold sn_write.
  assert (Hcn : 0 <= cn c) by (destruct Hd as (_ & -> & _); pose proof (length_kept d); lia).
  assert (Hb : between f (wbase f) (wbase f + Z.min (cn c) (wpos f - wbase f)) = take (Z.to_nat (Z.min (cn c) (wpos f - wbase f))) (pending f)).
  { generalize (Z.le_min_r (cn c) (wpos f - wbase f)), (Z.min_glb (cn c) (wpos f - wbase f) 0 Hcn ltac:(lia)).
    generalize (Z.min (cn c) (wpos f - wbase f)). intros k Hk1 Hk2. unfold pending, between. replace (wbase f + k - wbase f) with k by lia.
    replace (wpos f - wbase f) with (k + (wpos f - wbase f - k)) by lia. rewrite bytes_of_app by lia.
    rewrite take_app_length'; [done|]. pose proof (length_bytes_of (data f) (wbase f) k Hk2). lia. }
  rewrite Hb, E1. cbn [mbind option_bind]. rewrite E2. cbn [mbind option_bind].
  pose proof (length_kept ((d ++ pending f) ++ x)) as Hk.
  unfold store8. destruct (Hm (cs c2)) as [b Eb]; [lia|]. rewrite Eb. cbn [mbind option_bind]. eexists. split; [done|].
  rewrite app_assoc. split; [exact Hs|]. split; [exact Hn|]. exact Hz.
Qed.

(** It keeps the promise of a device, and never fails. *)
Definition sn_laws : WriterLaws cookie.
Proof using s cap m0 Hcap Hmap.
  refine {| sent := holds; can_fail := False |}.
  - intros c f x d (B1 & B2 & _) Hw Hd. destruct Hw as (W1 & W2 & W3). destruct (sn_write_ok c f x d Hd ltac:(lia)) as (c' & E & Hd').
    eexists c', _, _. split; [exact E|]. split; [done|]. left. split; [done|]. split; [split_and!; cbn; lia|].
    split; [unfold pending, between; cbn; by rewrite Z.sub_diag, bytes_of_nil|]. done.
  - intros c f d (B1 & B2 & _) Hi Hd. pose proof Hi as (W1 & W2 & W3). destruct (sn_write_ok c f [] d Hd ltac:(lia)) as (c' & E & Hd').
    eexists c', _, _. split; [exact E|]. split; [done|]. rewrite (pending_idle f Hi), !app_nil_r in Hd'. split; [done|]. left. split; [done|]. cbn. unfold UNGET in *. lia.
Defined.
End device.

(** ** [snprintf] *)
Definition frame_ok (one internal : Z) (junk : list Z) : Prop := UNGET < one < 2 ^ 63 /\ array_ok internal junk.

Lemma sn_run one internal junk utf8 s cap m0 fmt m ap q out m' :
  frame_ok one internal junk -> 0 <= cap -> mapped m0 s (cap + 1) -> mem_ok m -> Forall is_byte fmt ->
  prepared fmt ap q -> formatted utf8 m q 0 out m' ->
  exists d c f m1 ret err, store8 m0 s 0 = Some d /\
    vfprintf internal junk utf8 ({| cs := s; cn := cap; dst := d |}, sn_file one) fmt m ap = Some ((c, f), m1, ret, err) /\
    if Z.of_nat (length out) <=? INT_MAX
    then ret = Z.of_nat (length out) /\ err = None /\ m1 = m' /\ dst c = write_bytes m0 s (take (Z.to_nat cap) out ++ [0])
    else ret = -1 /\ exists k, dst c = write_bytes m0 s (take (Z.to_nat cap) (take k out) ++ [0]).
Proof.
  intros (Hone & Ha) Hcap Hmap Hm Hfmt (c0 & q' & Hscan & ->) Hout. pose (L := sn_laws s cap m0 Hcap Hmap).
  destruct (Hmap s) as [b Eb]; [lia|]. exists (<[s := 0]> m0). set (c1 := {| cs := s; cn := cap; dst := <[s := 0]> m0 |}).
  assert (Hs0 : stream c1 (sn_file one) []).
  { split; [split_and!; cbn; try lia; intros a Ha'; lia|]. split; [by right|]. exists []. split; [|by rewrite pending_idle].
    split; [cbn; unfold kept; rewrite take_nil; simpl; lia|]. split; [cbn; unfold kept; rewrite take_nil; simpl; lia|]. unfold kept. by rewrite take_nil. }
  destruct (vfprintf_ok internal junk utf8 c1 (sn_file one) [] fmt m ap c0 q' out m' Hs0 eq_refl eq_refl Ha Hm Hfmt Hscan Hout)
    as (c & f & m1 & ret & err & E & Hpe & Hc). specialize (Hpe eq_refl). exists c, f, m1, ret, err. split; [unfold store8; by rewrite Eb|]. split; [exact E|].
  assert (Hdst : forall l, stream c f l -> dst c = write_bytes m0 s (take (Z.to_nat cap) l ++ [0])).
  { intros l (_ & _ & d & (_ & _ & Hd) & ->). rewrite Hpe, app_nil_r. exact Hd. }
  destruct Hc as [(Hret & Hmax & Herr & Hm1 & Hfl & Hst)|(Hret & [[[] _]|Hmax] & k & Hst)].
  - destruct (Z.leb_spec (Z.of_nat (length out)) INT_MAX); [|lia]. by rewrite (Hdst _ Hst).
  - destruct (Z.leb_spec (Z.of_nat (length out)) INT_MAX); [lia|]. split; [done|]. exists k. by apply Hdst.
Qed.

(** C17. [snprintf] with room for [n] bytes stores the first [n - 1] bytes of the formatted
    text and a null byte, changes nothing else of the destination, and returns the
    length of the whole text, whatever [n] is; with [n] 0 it stores nothing. A text or an
    [n] above [INT_MAX] makes it return -1. *)
Theorem snprintf_writes one dummy internal junk utf8 m0 s n fmt m ap q out m' :
  frame_ok one internal junk -> 0 <= n -> mapped m0 s n -> mem_ok m -> Forall is_byte fmt ->
  prepared fmt ap q -> formatted utf8 m q 0 out m' ->
  if INT_MAX <? n then snprintf one dummy internal junk utf8 m0 s n fmt m ap = Some (-1, Some EOVERFLOW, m0, m)
  else if Z.of_nat (length out) <=? INT_MAX
  then snprintf one dummy internal junk utf8 m0 s n fmt m ap =
    Some (Z.of_nat (length out), None, if n =? 0 then m0 else write_bytes m0 s (take (Z.to_nat (n - 1)) out ++ [0]), m')
  else exists err d m1, snprintf one dummy internal junk utf8 m0 s n fmt m ap = Some (-1, err, d, m1).
Proof.
  intros Hf Hn Hmap Hm Hfmt Hq Hout. unfold snprintf, vsnprintf. destruct (Z.ltb_spec INT_MAX n); [done|]. destruct (Z.eqb_spec n 0) as [->|Hne].
  - change (nz 0) with false. cbv iota. cbn [cs cn dst].
    destruct (sn_run one internal junk utf8 dummy 0 {[ dummy := 0 ]} fmt m ap q out m' Hf) as (d & c & f & m1 & ret & err & -> & E & Hc); try done.
    { intros a Ha. replace a with dummy by lia. rewrite lookup_singleton_eq. by eexists. }
    cbn [mbind option_bind]. rewrite E. cbn [mbind option_bind]. destruct (_ <=? INT_MAX).
    + destruct Hc as (-> & -> & -> & _). done.
    + destruct Hc as (-> & _). by exists err, m0, m1.
  - rewrite (proj2 (nz_true n)) by done. cbn [cs cn dst].
    destruct (sn_run one internal junk utf8 s (n - 1) m0 fmt m ap q out m' Hf) as (d & c & f & m1 & ret & err & -> & E & Hc); try done; [lia|by replace (n - 1 + 1) with n by lia|].
    cbn [mbind option_bind]. rewrite E. cbn [mbind option_bind]. destruct (_ <=? INT_MAX).
    + destruct Hc as (-> & -> & -> & ->). done.
    + destruct Hc as (-> & _). by exists err, (dst c), m1.
Qed.

(** ** Printing a number and reading it again *)
Lemma snprintf_ok one dummy internal junk utf8 m0 s n fmt m ap q out m' :
  frame_ok one internal junk -> 0 < n <= INT_MAX -> mapped m0 s n -> mem_ok m -> Forall is_byte fmt ->
  prepared fmt ap q -> formatted utf8 m q 0 out m' -> Z.of_nat (length out) <= INT_MAX ->
  snprintf one dummy internal junk utf8 m0 s n fmt m ap =
    Some (Z.of_nat (length out), None, write_bytes m0 s (take (Z.to_nat (n - 1)) out ++ [0]), m').
Proof.
  intros Hf Hn Hmap Hm Hfmt Hq Hout Hl. unfold snprintf, vsnprintf. destruct (Z.ltb_spec INT_MAX n); [lia|]. rewrite (proj2 (nz_true n)) by lia. cbn [cs cn dst].
  destruct (sn_run one internal junk utf8 s (n - 1) m0 fmt m ap q out m' Hf) as (d & c & f & m1 & ret & err & -> & E & Hc); try done; [lia|by replace (n - 1 + 1) with n by lia|].
  cbn [mbind option_bind]. rewrite E. cbn [mbind option_bind]. destruct (Z.leb_spec (Z.of_nat (length out)) INT_MAX); [|lia].
  by destruct Hc as (-> & -> & -> & ->).
Qed.

Lemma cstr_written m p bs : Forall (fun c => c <> 0) bs ->
  cstr (write_bytes m p (bs ++ [0])) p (Z.of_nat (length bs)) /\ bytes_of (write_bytes m p (bs ++ [0])) p (Z.of_nat (length bs)) = bs.
Proof.
  intros Hb. pose proof (mapped_written m p (bs ++ [0])) as Hm. rewrite length_app in Hm.
  assert (E : bytes_of (write_bytes m p (bs ++ [0])) p (Z.of_nat (length bs)) = bs).
  { pose proof (bytes_of_write m p (bs ++ [0])) as E. rewrite length_app, Nat2Z.inj_add, bytes_of_app in E by lia.
    apply app_inj_1 in E as [E _]; [done|]. pose proof (length_bytes_of (write_bytes m p (bs ++ [0])) p (Z.of_nat (length bs))). lia. }
  split; [|done]. split; [lia|]. split; [eapply mapped_sub; [exact Hm|simpl; lia..]|]. split.
  - intros i Hi. destruct (lookup_lt_is_Some_2 bs (Z.to_nat i) ltac:(lia)) as [c Hc].
    rewrite <- (Z2Nat.id i) by lia. rewrite (rd_write_in m p (bs ++ [0]) (Z.to_nat i) c) by (by rewrite lookup_app_l by lia).
    rewrite list.Forall_forall in Hb. apply Hb. by eapply list_elem_of_lookup_2.
  - apply rd_write_in. rewrite lookup_app_r, Nat.sub_diag by lia. done.
Qed.

(** The text of [%ld]. *)
Definition decimal_text (x : Z) : list Z := sign_text x 0 ++ with_precision false (-1) (fmt_u (Z.abs x) []).

Lemma decimal_digits x : - 2 ^ 63 <= x < 2 ^ 63 -> let ds := with_precision false (-1) (fmt_u (Z.abs x) []) in
  Forall (fun c => 48 <= c <= 57) ds /\ value 10 ds = Z.abs x /\ (1 <= length ds <= 19)%nat /\ numeral 10 (Z.abs x) (fmt_u (Z.abs x) []).
Proof.
  intros Hx. destruct (fmt_u_ok (Z.abs x) [] ltac:(lia)) as (ds & E & Hds). rewrite app_nil_r in E. rewrite E.
  destruct (Z.eq_dec x 0) as [->|Hne].
  - pose proof (numeral_zero 10 ds eq_refl Hds) as ->. split; [by apply list.Forall_singleton|]. split; [done|]. simpl. split; [lia|done].
  - pose proof (numeral_pos 10 (Z.abs x) ds ltac:(lia) Hds) as Hnil. pose proof (numeral_length 10 (Z.abs x) ds 19 ltac:(lia) Hds ltac:(lia) ltac:(lia)) as Hl.
    assert (Ew : with_precision false (-1) ds = ds) by (by destruct ds). rewrite Ew. destruct Hds as (Hf & Hv & Hh). split; [|split; [done|split; [destruct ds; [done|simpl in *; lia]|done]]].
    eapply list.Forall_impl; [exact Hf|]. intros c [Hc Hd]. simpl. pose proof (digit_value c Hc Hd) as E'. pose proof (val_nonneg c).
    unfold digit_of in Hd. apply Z.ltb_lt in Hd. lia.
Qed.

Lemma isdigit_digit c : 48 <= c <= 57 -> isdigit c = true.
Proof. intros Hc. unfold isdigit. rewrite wrap_small by lia. apply Z.ltb_lt. lia. Qed.

Lemma digits_all ds : Forall (fun c => 48 <= c <= 57) ds -> prefix_of isdigit ds = ds.
Proof.
  intros Hd. rewrite <- (app_nil_r ds) at 1. rewrite prefix_app; [by rewrite app_nil_r|].
  eapply list.Forall_impl; [exact Hd|]. intros c. apply isdigit_digit.
Qed.

Lemma decimal_of_text x : - 2 ^ 63 <= x < 2 ^ 63 -> decimal (decimal_text x) = x.
Proof.
  intros Hx. destruct (decimal_digits x Hx) as (Hd & Hv & Hl & _). unfold decimal_text. set (ds := with_precision _ _ _) in *. clearbody ds.
  unfold decimal, lead, sign_text. change (flag 0 MARK_POS) with false. change (flag 0 PAD_POS) with false. cbv iota.
  destruct (Z.ltb_spec x 0) as [Hneg|Hpos].
  - change (- value 10 (prefix_of isdigit ds) = x). rewrite digits_all, Hv by done. lia.
  - destruct ds as [|c ds]; [simpl in Hl; lia|]. pose proof Hd as [Hc _]%list.Forall_cons. cbn [app].
    assert (Hsp : isspace c = false).
    { unfold isspace. destruct (Z.eqb_spec c 32); [lia|]. rewrite wrap_small by lia. apply Z.ltb_ge. lia. }
    cbn [prefix_of]. rewrite Hsp. cbn [length]. change (drop (Z.to_nat (Z.of_nat 0)) (c :: ds)) with (c :: ds).
    cbv iota beta. rewrite (proj2 (Z.eqb_neq c 45)), (proj2 (Z.eqb_neq c 43)) by lia. change (value 10 (prefix_of isdigit (c :: ds)) = x). rewrite digits_all, Hv by done. lia.
Qed.

Definition fmt_ld : list Z := [37; 108; 100].

Lemma formatted_ld utf8 m x : - 2 ^ 63 <= x < 2 ^ 63 ->
  exists q, prepared fmt_ld [u64 x] q /\ formatted utf8 m q 0 (decimal_text x) m.
Proof.
  intros Hx. eexists. split; [eexists _, _; split; [reflexivity|reflexivity]|]. rewrite <- (app_nil_r (decimal_text x)).
  pose proof (wrap_range 64 x ltac:(lia)) as Hr. assert (Hs : swrap 64 (u64 (u64 x)) = x).
  { rewrite wrap_wrap by lia. rewrite (swrap_eq 64 (u64 x) x), swrap_small by (lia || (unfold wrap; apply Z.mod_mod; lia)). done. }
  eapply formatted_directive; [done|done|reflexivity| | |by apply formatted_end].
  - split; [done|]. split; [done|]. cbn [arg_of]. apply wrap_range. lia.
  - assert (Ht : decimal_text x = justify (flag 0 LEFT_ADJ) (negb false && false) 0 (sign_text x 0) (with_precision false (-1) (fmt_u (Z.abs x) []))).
    { unfold justify. change (flag 0 LEFT_ADJ) with false. cbv iota. unfold decimal_text. cbn [negb andb]. rewrite blanks_nonpos by lia. done. }
    rewrite Ht. apply (text_field _ _ {| argpos := -1; fl := 0; w := 0; p := -1; xp := false; ps := LPRE; st := LONG; t := 100 |} _ 0 (sign_text x 0) (with_precision false (-1) (fmt_u (Z.abs x) [])) (negb false)).
    apply (conv_signed m {| argpos := -1; fl := 0; w := 0; p := -1; xp := false; ps := LPRE; st := LONG; t := 100 |} (u64 (u64 x)) (fmt_u (Z.abs x) []) x); [done|by rewrite Hs|].
    apply decimal_digits. done.
Qed.

(** C21. A [long] printed by [snprintf] with [%ld] and read again by [atol] is the same
    number, for every [long] and every buffer of at least 21 bytes. *)
Theorem snprintf_atol one dummy internal junk utf8 m0 s n x m :
  frame_ok one internal junk -> 21 <= n <= INT_MAX -> mapped m0 s n -> mem_ok m0 -> mem_ok m -> - 2 ^ 63 <= x < 2 ^ 63 ->
  exists len m1, snprintf one dummy internal junk utf8 m0 s n fmt_ld m [u64 x] = Some (len, None, m1, m) /\ atol m1 s = Some x.
Proof.
  intros Hf Hn Hmap Hm0 Hm Hx. destruct (formatted_ld utf8 m x Hx) as (q & Hq & Hout). destruct (decimal_digits x Hx) as (Hd & _ & Hl & _).
  assert (Hlen : Z.of_nat (length (decimal_text x)) < n).
  { unfold decimal_text. rewrite length_app. assert (length (sign_text x 0) <= 1)%nat by (unfold sign_text; destruct (x <? 0); simpl; lia). lia. }
  exists (Z.of_nat (length (decimal_text x))), (write_bytes m0 s (decimal_text x ++ [0])). split.
  - rewrite (snprintf_ok one dummy internal junk utf8 m0 s n fmt_ld m [u64 x] q (decimal_text x) m); try (done || lia); [|by repeat apply list.Forall_cons_2].
    by rewrite take_ge by lia.
  - assert (Hb : Forall (fun c => c <> 0 /\ is_byte c) (decimal_text x)).
    { apply list.Forall_app. split; [unfold sign_text; destruct (x <? 0); [by apply list.Forall_singleton|by apply list.Forall_nil]|].
      eapply list.Forall_impl; [exact Hd|]. unfold is_byte. simpl. lia. }
    apply list.Forall_and in Hb as [Hb1 Hb2]. destruct (cstr_written m0 s (decimal_text x) Hb1) as [Hc E].
    assert (Hok : mem_ok (write_bytes m0 s (decimal_text x ++ [0]))) by (apply write_bytes_ok; [done|]; apply list.Forall_app; split; [done|by apply list.Forall_singleton]).
    unfold atol. rewrite (ato_ok 64 _ _ (Z.of_nat (length (decimal_text x)))); rewrite ?E, ?(decimal_of_text x Hx); done.
Qed.

Lemma snprintf_writes_witness : let m0 := write_bytes ∅ 100 (replicate 6 7) in
  snprintf 50 60 5000 (replicate 80 0) true m0 100 6 demo_fmt ∅ [2 ^ 64 - 42] = Some (8, None, write_bytes m0 100 [120; 61; 45; 48; 48; 0], ∅).
Proof.
  apply (snprintf_writes 50 60 5000 (replicate 80 0) true (write_bytes ∅ 100 (replicate 6 7)) 100 6 demo_fmt ∅ [2 ^ 64 - 42] demo_pass [120; 61; 45; 48; 48; 52; 50; 37] ∅);
    [done|lia|mem_check|mem_check|by repeat apply list.Forall_cons_2|apply (demo_formatted ∅)|apply (demo_formatted ∅)].
Defined.

Lemma snprintf_atol_witness : let m0 := write_bytes ∅ 100 (replicate 24 7) in
  exists len m1, snprintf 50 60 5000 (replicate 80 0) true m0 100 24 fmt_ld ∅ [u64 (- 2 ^ 63)] = Some (len, None, m1, ∅) /\ atol m1 100 = Some (- 2 ^ 63).
Proof.
  apply (snprintf_atol 50 60 5000 (replicate 80 0) true (write_bytes ∅ 100 (replicate 24 7)) 100 24); [done|done|mem_check|mem_check|mem_check|done].
Defined.
