(* ===== verification/Synthol.v ===== *)
From Stdlib Require Import String.
(** * synthol: start-up, messages and the end ([src/src/src/setup.c], [logging.c], [assert.c], [abort.c])

    What this repository adds to its C library.  The hypervisor is a parameter: the class
    [Hypervisor] has the two hypercalls that are used, with the commands of the Xen
    headers, and [HypervisorLaws] says that the console shows what is written to it and
    that a domain that asks to be shut down is.  An operation returns [None] when it
    reads or writes outside the memory it was given, or when an assertion fails. *)
From S2P Require Import Prelude Mem StrScan StrSpec CString Utf8 Intscan Numerals Stdio Stdin StdioFd Format Printf PrintfSpec Formats VfprintfSpec Snprintf.

Definition str (s : String.string) : list Z := (fun c => Z.of_N (Ascii.N_of_ascii c)) <$> String.list_ascii_of_string s.
#[local] Arguments str s%_string_scope.

(** [console_io h cmd bytes]: the bytes that the call reads, and its result; [sched_op]
    says whether the domain was stopped, and does not return then. *)
Class Hypervisor (H : Type) := {
  CONSOLEIO_write : Z;
  SCHEDOP_shutdown : Z;
  SHUTDOWN_poweroff : Z;
  SHUTDOWN_crash : Z;
  console_io : H -> Z -> list Z -> H * Z;
  sched_op : H -> Z -> Z -> H * bool;
}.
Arguments CONSOLEIO_write H {_}.
Arguments SCHEDOP_shutdown H {_}.
Arguments SHUTDOWN_poweroff H {_}.
Arguments SHUTDOWN_crash H {_}.

(** ** [itoa] *)
Definition digits : list Z := str "0123456789abcdef".

Fixpoint itoa_loop (i : nat) (m : mem) (p x : Z) : option mem :=
  match i with
  | O => Some m
  | S i => m ← store8 m (p - 1) (nth (Z.to_nat (x mod 16)) digits 0); itoa_loop i m (p - 1) (Z.shiftr x 4)
  end.

Definition itoa (m : mem) (p x : Z) : option mem :=
  let p := p + 16 in
  m ← store8 m p 0;
  itoa_loop 16 m p x.

Section synthol.
Context {H : Type} `{Hypervisor H}.

Definition HYPERCALL_console_io (h : H) (cmd count : Z) (m : mem) (buffer : Z) : option (H * Z) :=
  if (0 <=? count) && mapped_b m buffer count then
    let '(h, r) := console_io h cmd (bytes_of m buffer count) in Some (h, s32 r)
  else None.

(** ** Messages of the start-up *)
Definition NL (h : H) : H := (console_io h (CONSOLEIO_write H) [10]).1.
Definition SAY_text (h : H) (s : String.string) : H := (console_io h (CONSOLEIO_write H) (str s)).1.
Definition SAY (h : H) (m : mem) (x : Z) : option H :=
  l ← strlen m x;
  '(h, _) ← HYPERCALL_console_io h (CONSOLEIO_write H) (s32 l) m x;
  Some h.
Definition SAYU (buf : Z) (h : H) (m : mem) (x : Z) : option (H * mem) :=
  m ← itoa m buf (u64 x);
  h ← SAY h m buf;
  Some (h, m).

(** ** The end *)

(** [for(;;) HYPERCALL_sched_op(SCHEDOP_shutdown, &op);] *)
Fixpoint halt (fuel : nat) (h : H) (reason : Z) : option H :=
  match fuel with
  | O => None
  | S fuel => let '(h, stopped) := sched_op h (SCHEDOP_shutdown H) reason in if stopped then Some h else halt fuel h reason
  end.
Definition shutdown (fuel : nat) (h : H) (reason : Z) : option H :=
  halt fuel h (if nz reason then SHUTDOWN_crash H else SHUTDOWN_poweroff H).
Definition abort (fuel : nat) (h : H) : option H := halt fuel h (SHUTDOWN_crash H).

(** [synthol_setup]; [main] is [synthol_main], which the program defines, and [buf] is at
    an address in the memory [m]. *)
Definition synthol_setup (fuel : nat) (main : H -> mem -> option (H * mem * Z)) (buf : Z) (h : H) (m : mem) (start_info init_sp : Z) : option H :=
  let h := NL (SAY_text h "<<<<<<<<<<<") in
  '(h, m) ← SAYU buf (SAY_text h "start_info: ") m start_info;
  let h := NL h in
  '(h, m) ← SAYU buf (SAY_text h "init_sp:    ") m init_sp;
  let h := NL h in
  let h := NL (SAY_text h "[enter main]") in
  '(h, m, ret) ← main h m;
  let h := NL (SAY_text h "[exit main]") in
  '(h, m) ← SAYU buf (SAY_text h "ret = ") m ret;
  let h := NL h in
  let h := NL (SAY_text h ">>>>>>>>>>>") in
  shutdown fuel h (SHUTDOWN_poweroff H).

(** ** Logging *)

(** The array [buf] of [n] bytes is at [buf], with any bytes [junk] in it; [one],
    [dummy], [internal] and [junk'] are the automatic variables of [vsnprintf]. *)
Definition synthol_vnlogf (one dummy internal : Z) (junk' : list Z) (utf8 : bool) (buf : Z) (junk : list Z)
    (h : H) (n : Z) (fmt : list Z) (m : mem) (ap : list Z) : option (H * mem * Z) :=
  '(r, _, d, m) ← vsnprintf one dummy internal junk' utf8 (write_bytes ∅ buf junk) buf n fmt m ap;
  '(h, err) ← HYPERCALL_console_io h (CONSOLEIO_write H) r d buf;
  Some (h, m, err).
Definition synthol_nlogf := synthol_vnlogf.

(** The assertion that the hypercall succeeds. *)
Definition vlogf_write (h : H) (f : FILE) (s : list Z) : option (H * FILE * Z) :=
  let '(h, err) := console_io h (CONSOLEIO_write H) s in
  if nz (s32 err) then None else Some (h, f, Z.of_nat (length s)).
#[local] Instance log_writer : Writer H := vlogf_write.

Definition log_file (one : Z) (junk : Z) : FILE :=
  {| flags := 0; mode := 0; rpos := 0; rend := 0; wpos := 0; wbase := 0; wend := 0; buf := one; buf_size := 1; lbf := 10;
     data := write_bytes ∅ one [junk] |}.

Definition synthol_vlogf (one junk internal : Z) (junk' : list Z) (utf8 : bool) (h : H) (fmt : list Z) (m : mem) (ap : list Z) : option (H * mem * Z) :=
  '(h, _, m, r, _) ← vfprintf internal junk' utf8 (h, log_file one junk) fmt m ap;
  Some (h, m, r).
Definition synthol_logf := synthol_vlogf.

(** [__assert_fail]: a message of at most 4095 bytes, and [abort]. *)
Definition ABORT_MESSAGE_BUFFER_SIZE : Z := 4096.
Definition assert_fail (fuel : nat) (one dummy internal : Z) (junk' : list Z) (utf8 : bool) (buf : Z) (junk : list Z)
    (h : H) (m : mem) (expr file line func : Z) : option H :=
  '(h, _, _) ← synthol_nlogf one dummy internal junk' utf8 buf junk h ABORT_MESSAGE_BUFFER_SIZE
    (str "Assertion failed: %s (%s: %s: %d)" ++ [10]) m [expr; file; func; line];
  abort fuel h.
End synthol.

(** ** What the hypervisor promises *)
Class HypervisorLaws (H : Type) `{Hypervisor H} := {
  log : H -> list Z;
  stopped : H -> option Z;
  poweroff_zero : SHUTDOWN_poweroff H = 0;
  console_law h bs : exists h', console_io h (CONSOLEIO_write H) bs = (h', 0) /\ log h' = log h ++ bs;
  sched_law h r : exists h', sched_op h (SCHEDOP_shutdown H) r = (h', true) /\ log h' = log h /\ stopped h' = Some r;
}.

(** ** [itoa] writes sixteen hexadecimal digits *)
Fixpoint hex (n : nat) (x : Z) : list Z :=
  match n with O => [] | S n => hex n (x / 16) ++ [nth (Z.to_nat (x mod 16)) digits 0] end.

Lemma length_hex n x : length (hex n x) = n.
Proof. revert x. induction n as [|n IH]; intros x; [done|]. cbn [hex]. rewrite length_app, IH. simpl. lia. Qed.

Lemma digit_ok d : 0 <= d < 16 -> let c := nth (Z.to_nat d) digits 0 in val c = d /\ is_byte c /\ c <> 0 /\ cased 32 c.
Proof.
  intros Hd c. assert (Hc : ((val c =? d) && ((48 <=? c) && (c <=? 57) || (97 <=? c) && (c <=? 102))) = true).
  { by apply (forall_below (fun d => let c := nth (Z.to_nat d) digits 0 in (val c =? d) && ((48 <=? c) && (c <=? 57) || (97 <=? c) && (c <=? 102))) 16). }
  rewrite andb_true_iff, orb_true_iff, !andb_true_iff, !Z.leb_le, Z.eqb_eq in Hc. destruct Hc as [Hv Hr]. unfold is_byte, cased. split; [done|]. lia.
Qed.

Lemma hex_ok n x : 0 <= x -> Forall (fun c => is_byte c /\ c <> 0 /\ cased 32 c /\ digit_of 16 c = true) (hex n x) /\ value 16 (hex n x) = x mod 16 ^ Z.of_nat n.
Proof.
  revert x. induction n as [|n IH]; intros x Hx; [split; [done|by rewrite Z.mod_1_r]|]. cbn [hex].
  destruct (IH (x / 16) ltac:(apply Z.div_pos; lia)) as [Hf Hv]. destruct (digit_ok (x mod 16)) as (Hc & Hb & Hz & Hl); [apply Z.mod_pos_bound; lia|].
  split.
  - apply list.Forall_app. split; [done|]. apply list.Forall_singleton. split_and!; try done. unfold digit_of. rewrite Hc. pose proof (Z.mod_pos_bound x 16 ltac:(lia)). lia.
  - rewrite value_app, Hv. cbn [length]. change (Z.of_nat 1) with 1. rewrite Z.pow_1_r. set (c := nth _ _ _) in *. change (value 16 [c]) with (0 * 16 + val c).
    rewrite Hc, Nat2Z.inj_succ, Z.pow_succ_r, Z.rem_mul_r by lia. lia.
Qed.

Lemma write_bytes_insert m p bs a c : ~ (p <= a < p + Z.of_nat (length bs)) -> write_bytes (<[a := c]> m) p bs = <[a := c]> (write_bytes m p bs).
Proof.
  intros Ha. apply map_eq. intros i. rewrite lookup_write_bytes. destruct (decide (i = a)) as [->|Hne].
  - rewrite lookup_insert_eq. case_decide; [lia|]. by rewrite lookup_insert_eq.
  - rewrite !(lookup_insert_ne _ a i) by done. by rewrite lookup_write_bytes.
Qed.

Lemma itoa_loop_ok i m p x : 0 <= x -> mapped m (p - Z.of_nat i) (Z.of_nat i) -> itoa_loop i m p x = Some (write_bytes m (p - Z.of_nat i) (hex i x)).
Proof.
  revert m p x. induction i as [|i IH]; intros m p x Hx Hm; [done|]. cbn [itoa_loop hex].
  set (c := nth (Z.to_nat (x mod 16)) digits 0). assert (Hc : is_byte c) by (apply digit_ok, Z.mod_pos_bound; lia).
  rewrite (store8_write m (p - Z.of_nat (S i)) (Z.of_nat (S i))) by (done || lia). cbn [mbind option_bind].
  rewrite wrap_small by exact Hc. rewrite Z.shiftr_div_pow2 by lia. change (2 ^ 4) with 16.
  change (write_bytes m (p - 1) [c]) with (<[p - 1 := c]> m). rewrite IH; [|apply Z.div_pos; lia|].
  - replace (p - 1 - Z.of_nat i) with (p - Z.of_nat (S i)) by lia. f_equal. rewrite write_bytes_snoc, write_bytes_insert; rewrite length_hex; [|lia].
    f_equal. lia.
  - apply (mapped_write m (p - 1) [c]). eapply mapped_sub; [exact Hm|lia..].
Qed.

Lemma itoa_ok m p x : 0 <= x -> mapped m p 17 -> itoa m p x = Some (write_bytes m p (hex 16 x ++ [0])).
Proof.
  intros Hx Hm. unfold itoa. rewrite (store8_write m p 17) by (done || lia). cbn [mbind option_bind]. change (u8 0) with 0.
  rewrite (itoa_loop_ok 16 _ (p + 16)) by (done || (apply (mapped_write m (p + 16) [0]); eapply mapped_sub; [exact Hm|lia..])).
  f_equal. replace (p + 16 - Z.of_nat 16) with p by lia. rewrite write_bytes_snoc, length_hex.
  change (write_bytes m (p + 16) [0]) with (<[p + 16 := 0]> m). rewrite write_bytes_insert by (rewrite length_hex; lia). done.
Qed.

Lemma hex_cstr m p x : 0 <= x -> cstr (write_bytes m p (hex 16 x ++ [0])) p 16 /\ bytes_of (write_bytes m p (hex 16 x ++ [0])) p 16 = hex 16 x.
Proof.
  intros Hx. destruct (hex_ok 16 x Hx) as [Hf _]. pose proof (cstr_written m p (hex 16 x)) as Hc. rewrite length_hex in Hc. apply Hc.
  eapply list.Forall_impl; [exact Hf|]. simpl. tauto.
Qed.

Lemma hex_bytes x : 0 <= x -> Forall is_byte (hex 16 x ++ [0]).
Proof.
  intros Hx. destruct (hex_ok 16 x Hx) as [Hf _]. apply list.Forall_app. split; [|by apply list.Forall_singleton].
  eapply list.Forall_impl; [exact Hf|]. simpl. tauto.
Qed.

Lemma cased_char c : cased 32 c -> isspace c = false /\ c <> 45 /\ c <> 43 /\ Z.lor c 32 <> 120.
Proof.
  unfold cased. intros Hc. assert (H : (negb (isspace c) && negb (Z.lor c 32 =? 120)) = true).
  { assert (Hi : implb ((48 <=? c) && (c <=? 57) || (97 <=? c) && (c <=? 102)) (negb (isspace c) && negb (Z.lor c 32 =? 120)) = true).
    { apply (forall_below (fun c => implb ((48 <=? c) && (c <=? 57) || (97 <=? c) && (c <=? 102)) (negb (isspace c) && negb (Z.lor c 32 =? 120))) 128); [vm_compute; reflexivity|lia]. }
    assert (E : (48 <=? c) && (c <=? 57) || (97 <=? c) && (c <=? 102) = true) by (rewrite orb_true_iff, !andb_true_iff, !Z.leb_le; lia).
    rewrite E in Hi. exact Hi. }
  rewrite andb_true_iff, !negb_true_iff, Z.eqb_neq in H. split; [apply H|]. split; [lia|]. split; [lia|apply H].
Qed.

Lemma all_digits b ds : Forall (fun c => digit_of b c = true) ds -> prefix_of (digit_of b) ds = ds.
Proof. intros Hd. rewrite <- (app_nil_r ds) at 1. rewrite prefix_app by done. apply app_nil_r. Qed.

(** A sequence of hexadecimal digits, as [strtoull] reads it. *)
Lemma parse_hex ds : (2 <= length ds)%nat -> Forall (fun c => cased 32 c /\ digit_of 16 c = true) ds ->
  parse 16 ds = Some (false, value 16 ds, Z.of_nat (length ds)).
Proof.
  intros Hl Hf. destruct ds as [|c [|x ds]]; [simpl in Hl; lia..|]. clear Hl.
  pose proof Hf as [[Hc Hdc] [[Hx Hdx] Hf']%list.Forall_cons]%list.Forall_cons.
  destruct (cased_char c Hc) as (Hs & H1 & H2 & _), (cased_char x Hx) as (_ & _ & _ & H3).
  assert (Hall : Forall (fun c => digit_of 16 c = true) (c :: x :: ds)) by (eapply list.Forall_impl; [exact Hf|]; simpl; tauto).
  pose proof Hall as [_ Hall']%list.Forall_cons.
  assert (El : lead (c :: x :: ds) = (0, false)).
  { unfold lead. cbn [prefix_of]. rewrite Hs. change (drop (Z.to_nat (Z.of_nat (length (@nil Z)))) (c :: x :: ds)) with (c :: x :: ds). cbv iota.
    by rewrite (proj2 (Z.eqb_neq c 45)), (proj2 (Z.eqb_neq c 43)) by done. }
  unfold parse. rewrite El. change (drop (Z.to_nat 0) (c :: x :: ds)) with (c :: x :: ds). cbv iota beta zeta. change ((16 =? 0) || (16 =? 16)) with true. cbn [andb].
  destruct (Z.eqb_spec c 48) as [->|Hne].
  - rewrite (proj2 (Z.eqb_neq _ _) H3). change (16 =? 0) with false. cbv iota. rewrite (all_digits 16 (x :: ds) Hall').
    do 3 f_equal; simpl length; lia.
  - change (16 =? 0) with false. cbv iota. rewrite Hdc, (all_digits 16 _ Hall). do 3 f_equal; simpl length; lia.
Qed.

(** [itoa] fills its 17 bytes with the sixteen lower-case hexadecimal digits of the
    number and a null byte, and [strtoull] in base 16 reads the number back. *)
Theorem itoa_strtoull m p x : mem_ok m -> mapped m p 17 -> 0 <= p -> p + 17 < 2 ^ 63 -> 0 <= x < 2 ^ 64 ->
  itoa m p x = Some (write_bytes m p (hex 16 x ++ [0])) /\ Forall (cased 32) (hex 16 x) /\ value 16 (hex 16 x) = x /\
  strtoull (write_bytes m p (hex 16 x ++ [0])) p 16 = Some (x, p + 16, None).
Proof.
  intros Hm Hmap Hp Hend Hx. destruct (hex_ok 16 x ltac:(lia)) as [Hf Hv]. rewrite Z.mod_small in Hv by (change (16 ^ Z.of_nat 16) with (2 ^ 64); lia).
  split; [apply itoa_ok; (done || lia)|]. split; [eapply list.Forall_impl; [exact Hf|]; simpl; tauto|]. split; [done|].
  destruct (hex_cstr m p x ltac:(lia)) as [Hc E]. unfold strtoull.
  rewrite (strtox_ok _ p 16); [|apply write_bytes_ok; [done|apply hex_bytes; lia]|done|lia..|by right].
  assert (Hhex : Forall (fun c => cased 32 c /\ digit_of 16 c = true) (hex 16 x)) by (eapply list.Forall_impl; [exact Hf|]; simpl; tauto).
  rewrite E, parse_hex by (rewrite ?length_hex; (done || lia)). rewrite Hv, length_hex.
  unfold converted. change (2 ^ 64 - 1 =? 2 ^ 63) with false. cbv iota. rewrite (proj2 (Z.ltb_ge _ _)) by lia. cbn [fst snd]. by rewrite wrap_small by lia.
Qed.

Lemma itoa_strtoull_witness : let m := write_bytes ∅ 96 (replicate 24 7) in
  itoa m 96 0x854903 = Some (write_bytes m 96 (hex 16 0x854903 ++ [0])) /\ Forall (cased 32) (hex 16 0x854903) /\ value 16 (hex 16 0x854903) = 0x854903 /\
  strtoull (write_bytes m 96 (hex 16 0x854903 ++ [0])) 96 16 = Some (0x854903, 112, None).
Proof. apply (itoa_strtoull (write_bytes ∅ 96 (replicate 24 7)) 96 0x854903); [mem_check|mem_check|lia..]. Defined.

Section laws.
Context {H : Type} `{HypervisorLaws H}.

(** ** The start-up *)
Lemma SAY_text_log h s : log (SAY_text h s) = log h ++ str s.
Proof. unfold SAY_text. destruct (console_law h (str s)) as (h' & -> & E). exact E. Qed.

Lemma NL_log h : log (NL h) = log h ++ [10].
Proof. unfold NL. destruct (console_law h [10]) as (h' & -> & E). exact E. Qed.

Lemma console_io_ok h m p n : 0 <= n -> mapped m p n ->
  exists h', HYPERCALL_console_io h (CONSOLEIO_write H) n m p = Some (h', 0) /\ log h' = log h ++ bytes_of m p n.
Proof.
  intros Hn Hm. unfold HYPERCALL_console_io. rewrite (proj2 (Z.leb_le 0 n)) by done. rewrite (mapped_b_ok m p n Hm). cbn [andb].
  destruct (console_law h (bytes_of m p n)) as (h' & -> & E). by exists h'.
Qed.

(** The array [buf] can be written, and [strlen] may read the words it is in. *)
Definition room (m : mem) (buf : Z) : Prop := mem_ok m /\ words_mapped m buf 16.

Lemma SAYU_ok buf h m x : room m buf -> exists h' m', SAYU buf h m x = Some (h', m') /\ room m' buf /\ log h' = log h ++ hex 16 (u64 x).
Proof.
  intros [Hm Hw]. pose proof (wrap_range 64 x ltac:(lia)) as Hx. pose proof (words_mapped_sub m buf 16 ltac:(lia) Hw) as Hmap.
  unfold SAYU. rewrite (itoa_ok m buf (u64 x)) by (done || lia). cbn [mbind option_bind]. set (m' := write_bytes m buf _).
  destruct (hex_cstr m buf (u64 x) ltac:(lia)) as [Hc E]. fold m' in Hc, E.
  assert (Hm' : mem_ok m') by (apply write_bytes_ok; [done|apply hex_bytes; lia]). assert (Hw' : words_mapped m' buf 16) by (by apply words_mapped_write).
  unfold SAY. rewrite (strlen_ok m' buf 16) by done. cbn [mbind option_bind]. rewrite swrap_small by lia.
  destruct (console_io_ok h m' buf 16) as (h' & -> & El); [lia|eapply mapped_sub; [exact (words_mapped_sub m' buf 16 ltac:(lia) Hw')|lia..]|]. cbn [mbind option_bind].
  exists h', m'. split; [done|]. split; [done|]. by rewrite El, E.
Qed.

Lemma halt_ok fuel h r : (0 < fuel)%nat -> exists h', halt fuel h r = Some h' /\ log h' = log h /\ stopped h' = Some r.
Proof.
  destruct fuel as [|fuel]; [lia|]. intros _. cbn [halt]. destruct (sched_law h r) as (h' & -> & E1 & E2). by exists h'.
Qed.

(** What the console shows when [main] prints [text] and returns [ret]. *)
Definition session (start_info init_sp ret : Z) (text : list Z) : list Z :=
  str "<<<<<<<<<<<" ++ [10] ++ str "start_info: " ++ hex 16 (u64 start_info) ++ [10] ++ str "init_sp:    " ++ hex 16 (u64 init_sp) ++ [10] ++
  str "[enter main]" ++ [10] ++ text ++ str "[exit main]" ++ [10] ++ str "ret = " ++ hex 16 (u64 ret) ++ [10] ++ str ">>>>>>>>>>>" ++ [10].

(** C13. [synthol_setup] runs the program once between its messages, which show its
    arguments and the result in hexadecimal, and then stops the domain with the reason
    for a power-off, not a crash. *)
Theorem setup_session fuel main buf h m start_info init_sp text ret :
  (0 < fuel)%nat -> room m buf ->
  (forall h m, room m buf -> exists h' m', main h m = Some (h', m', ret) /\ room m' buf /\ log h' = log h ++ text) ->
  exists h', synthol_setup fuel main buf h m start_info init_sp = Some h' /\
    log h' = log h ++ session start_info init_sp ret text /\ stopped h' = Some (SHUTDOWN_poweroff H).
Proof.
  intros Hf Hr Hmain. unfold synthol_setup.
  destruct (SAYU_ok buf (SAY_text (NL (SAY_text h "<<<<<<<<<<<")) "start_info: ") m start_info Hr) as (h1 & m1 & -> & Hr1 & E1). cbn [mbind option_bind].
  destruct (SAYU_ok buf (SAY_text (NL h1) "init_sp:    ") m1 init_sp Hr1) as (h2 & m2 & -> & Hr2 & E2). cbn [mbind option_bind].
  destruct (Hmain (NL (SAY_text (NL h2) "[enter main]")) m2 Hr2) as (h3 & m3 & -> & Hr3 & E3). cbn [mbind option_bind].
  destruct (SAYU_ok buf (SAY_text (NL (SAY_text h3 "[exit main]")) "ret = ") m3 ret Hr3) as (h4 & m4 & -> & Hr4 & E4). cbn [mbind option_bind].
  unfold shutdown. rewrite poweroff_zero. change (nz 0) with false. cbv iota.
  destruct (halt_ok fuel (NL (SAY_text (NL h4) ">>>>>>>>>>>")) (SHUTDOWN_poweroff H) Hf) as (h' & E & Hl & Hs). rewrite poweroff_zero in E, Hs.
  exists h'. split; [exact E|]. split; [|exact Hs]. rewrite Hl. repeat (rewrite ?NL_log, ?SAY_text_log, ?E4, ?E3, ?E2, ?E1). unfold session. by rewrite <- !app_assoc.
Qed.
End laws.

(** ** Messages in one hypercall *)
Section logging.
Context {H : Type} `{HypervisorLaws H}.

(** C14. [synthol_vnlogf] (and [synthol_nlogf]) sends a message that fits its buffer to the
    console in one hypercall. A message longer than the buffer makes it pass the length
    of the whole message with a buffer that holds less: the call reads past its end. *)
Theorem vnlogf_sends one dummy internal junk' utf8 buf junk h n fmt m ap q out m' :
  frame_ok one internal junk' -> 0 < n <= INT_MAX -> Z.of_nat (length junk) = n -> mem_ok m -> Forall is_byte fmt ->
  prepared fmt ap q -> formatted utf8 m q 0 out m' ->
  (Z.of_nat (length out) < n -> exists h', synthol_vnlogf one dummy internal junk' utf8 buf junk h n fmt m ap = Some (h', m', 0) /\ log h' = log h ++ out) /\
  (n < Z.of_nat (length out) <= INT_MAX -> exists d,
    vsnprintf one dummy internal junk' utf8 (write_bytes ∅ buf junk) buf n fmt m ap = Some (Z.of_nat (length out), None, d, m') /\
    HYPERCALL_console_io h (CONSOLEIO_write H) (Z.of_nat (length out)) d buf = None /\
    synthol_vnlogf one dummy internal junk' utf8 buf junk h n fmt m ap = None).
Proof.
  intros Hf Hn Hj Hm Hfmt Hq Hout. pose proof (mapped_written ∅ buf junk) as Hmap. rewrite Hj in Hmap.
  assert (Hsn : Z.of_nat (length out) <= INT_MAX -> vsnprintf one dummy internal junk' utf8 (write_bytes ∅ buf junk) buf n fmt m ap =
    Some (Z.of_nat (length out), None, write_bytes (write_bytes ∅ buf junk) buf (take (Z.to_nat (n - 1)) out ++ [0]), m')).
  { intros Hl. exact (snprintf_ok one dummy internal junk' utf8 _ buf n fmt m ap q out m' Hf Hn Hmap Hm Hfmt Hq Hout Hl). }
  split; intros Hl; specialize (Hsn ltac:(lia)); unfold synthol_vnlogf; rewrite Hsn; cbn [mbind option_bind].
  - rewrite (take_ge out) by lia. destruct (console_io_ok h (write_bytes (write_bytes ∅ buf junk) buf (out ++ [0])) buf (Z.of_nat (length out))) as (h' & -> & E);
      [lia|apply mapped_write; eapply mapped_sub; [exact Hmap|lia..]|]. cbn [mbind option_bind]. exists h'. split; [done|]. rewrite E. f_equal.
    pose proof (bytes_of_write (write_bytes ∅ buf junk) buf (out ++ [0])) as Eb. rewrite length_app, Nat2Z.inj_add, bytes_of_app in Eb by lia.
    apply app_inj_1 in Eb as [Eb _]; [done|]. pose proof (length_bytes_of (write_bytes (write_bytes ∅ buf junk) buf (out ++ [0])) buf (Z.of_nat (length out))). lia.
  - set (d := write_bytes _ buf (_ ++ [0])). assert (Hb : HYPERCALL_console_io h (CONSOLEIO_write H) (Z.of_nat (length out)) d buf = None).
    { unfold HYPERCALL_console_io. destruct (mapped_b d buf (Z.of_nat (length out))) eqn:E; [|by rewrite andb_false_r].
      apply mapped_check in E. destruct (E (buf + n)) as [b Eb]; [lia|]. subst d. rewrite !lookup_write_bytes, length_app, length_take in Eb.
      cbn [length] in Eb. rewrite !decide_False in Eb by lia. done. }
    exists d. split; [done|]. split; [done|]. by rewrite Hb.
Qed.
End logging.

(** ** Messages through a buffer of one byte *)
Section vlogf.
Context {H : Type} `{HypervisorLaws H}.
#[local] Existing Instance log_writer.

Lemma vlogf_write_ok h f s : exists h', write h f s = Some (h', f, Z.of_nat (length s)) /\ log h' = log h ++ s.
Proof.
  change (write h f s) with (vlogf_write h f s). unfold vlogf_write. destruct (console_law h s) as (h' & -> & E). by exists h'.
Qed.

(** The state of the stream: nothing was lost, or one byte stayed in the buffer. *)
Definition logged (h0 : H) (hf : H * FILE) (l : list Z) : Prop :=
  let '(h, f) := hf in
  flags f = 0 /\ lbf f = 10 /\ buf_size f = 1 /\ buffer_ok f /\
  (((idle f \/ writing f /\ wpos f = buf f) /\ log h = log h0 ++ l) \/
   (writing f /\ wpos f = buf f + 1 /\ exists pre b post, l = pre ++ [b] ++ post /\ b <> 10 /\ log h = log h0 ++ pre ++ post)).

Lemma append_nothing f : buffer_ok f -> exists f', append f [] = Some f' /\ flags f' = flags f /\ lbf f' = lbf f /\ buf_size f' = buf_size f /\ buffer_ok f' /\
  wpos f' = wpos f /\ (writing f -> writing f') /\ buf f' = buf f.
Proof.
  intros Hb. unfold append, put. rewrite bool_decide_true with (P := [] = []) by done. rewrite orb_true_r. cbn [mbind option_bind].
  eexists. split; [done|]. cbn. do 3 (split; [done|]). split; [done|]. rewrite Z.add_0_r. split; [done|]. split; [|done].
  intros (E1 & E2 & E3). split_and!; cbn; lia.
Qed.

(** Nothing, or the first byte, which is no newline. *)
Definition unsent (l s : list Z) : Prop := s = [] \/ l = [] /\ exists b, s = [b] /\ b <> 10.

(** [__fwritex] once the stream is ready for writing. *)
Lemma fwritex_logged h0 h f s l : logged h0 (h, f) l -> writing f ->
  exists h' f' n, fwritex h s f = Some (h', f', n) /\ logged h0 (h', f') (l ++ s) /\ (unsent l s -> h' = h).
Proof.
  intros (Hfl & Hlbf & Hsz & Hb & Hc) Hw. pose proof Hw as (W1 & W2 & W3). pose proof Hb as (B1 & _). unfold UNGET in B1.
  unfold fwritex. rewrite (proj2 (Z.eqb_neq (wend f) 0)) by lia. cbv iota beta zeta.
  destruct Hc as [[Hm Hl]|(_ & Hp & pre & b & post & -> & Hnl & Hl)].
  - assert (Hp : wpos f = buf f) by (destruct Hm as [(_ & ? & _)|[_ ?]]; lia). rewrite Hp, W3, Hsz, Hlbf. change (0 <=? 10) with true. cbv iota.
    replace (buf f + 1 - buf f) with 1 by lia. destruct s as [|b [|c s]].
    + cbn [length Z.of_nat after_newline Nat.ltb Nat.leb mbind option_bind]. change (1 <? 0) with false. change (0 <? 0) with false. cbv iota. cbn [drop].
      destruct (append_nothing f Hb) as (f' & -> & E1 & E2 & E3 & E4 & E5 & E6 & E7). cbn [mbind option_bind].
      exists h, f', 0. split; [done|]. rewrite app_nil_r. split; [|done]. split; [congruence|]. split; [congruence|]. split; [congruence|]. split; [done|]. left. split; [right; split; [by apply E6|congruence]|done].
    + change (Z.of_nat (length [b])) with 1. change (1 <? 1) with false. cbv iota. change (after_newline (length [b]) [b]) with (if b =? 10 then 1%nat else 0%nat).
      destruct (Z.eqb_spec b 10) as [->|Hnl].
      * change (0 <? 1)%nat with true. cbv iota. destruct (vlogf_write_ok h f (take 1 [10])) as (h' & -> & E). cbn [mbind option_bind].
        change (Z.of_nat (length (take 1 [10])) <? Z.of_nat 1) with false. cbv iota. change (drop 1 [10]) with (@nil Z).
        destruct (append_nothing f Hb) as (f' & -> & E1 & E2 & E3 & E4 & E5 & E6 & E7). cbn [mbind option_bind].
        exists h', f', 1. split; [done|]. split; [|intros [?|(_ & b & [= <-] & ?)]; done]. split; [congruence|]. split; [congruence|]. split; [congruence|]. split; [done|]. left. split; [right; split; [by apply E6|congruence]|].
        rewrite E, Hl. by rewrite <- app_assoc.
      * change (0 <? 0)%nat with false. cbv iota. cbn [mbind option_bind]. change (0 <? Z.of_nat 0) with false. cbv iota. rewrite drop_0.
        unfold append. rewrite put_ok by (done || (simpl; lia)). cbn [mbind option_bind]. exists h. eexists _, _. split; [done|].
        split; [|done]. split; [done|]. split; [done|]. split; [done|]. split; [by apply (buffer_ok_data f (wpos f) [b])|]. right.
        split; [split_and!; cbn; lia|]. split; [cbn; lia|]. exists l, b, []. split; [by rewrite app_nil_r|]. split; [done|]. by rewrite app_nil_r.
    + rewrite (proj2 (Z.ltb_lt 1 _)) by (simpl; lia). destruct (vlogf_write_ok h f (b :: c :: s)) as (h' & -> & E).
      exists h', f, (Z.of_nat (length (b :: c :: s))). split; [done|]. split; [|intros [?|(_ & ? & ? & _)]; done]. do 4 (split; [done|]). left. split; [right; done|]. rewrite E, Hl. by rewrite <- app_assoc.
  - rewrite Hp, W3, Hsz, Hlbf. change (0 <=? 10) with true. cbv iota. replace (buf f + 1 - (buf f + 1)) with 0 by lia. destruct s as [|c s].
    + cbn [length Z.of_nat after_newline Nat.ltb Nat.leb mbind option_bind]. change (0 <? 0) with false. cbv iota. cbn [drop].
      destruct (append_nothing f Hb) as (f' & -> & E1 & E2 & E3 & E4 & E5 & E6 & E7). cbn [mbind option_bind].
      exists h, f', 0. split; [done|]. rewrite app_nil_r. split; [|done]. split; [congruence|]. split; [congruence|]. split; [congruence|]. split; [done|]. right. split; [by apply E6|]. split; [congruence|]. by exists pre, b, post.
    + rewrite (proj2 (Z.ltb_lt 0 _)) by (simpl; lia). destruct (vlogf_write_ok h f (c :: s)) as (h' & -> & E).
      exists h', f, (Z.of_nat (length (c :: s))). split; [done|]. split; [|intros [?|[Hl0 _]]; [done|by destruct pre]]. do 4 (split; [done|]). right. split; [done|]. split; [done|].
      exists pre, b, (post ++ c :: s). split; [by rewrite <- !app_assoc|]. split; [done|]. rewrite E, Hl. by rewrite <- !app_assoc.
Qed.

Lemma out_logged h0 hf l s : logged h0 hf l -> exists hf', out hf s = Ok hf' /\ logged h0 hf' (l ++ s) /\ (unsent l s -> hf'.1 = hf.1).
Proof.
  destruct hf as [h f]. intros Hl. pose proof Hl as (Hfl & Hlbf & Hsz & Hb & Hc). pose proof Hb as (B1 & B2 & B3 & B4). unfold UNGET in B1.
  unfold out. unfold has. rewrite Hfl. change (nz (Z.land 0 F_ERR)) with false. cbv iota.
  assert (Hr : exists h' f' n, fwritex h s f = Some (h', f', n) /\ logged h0 (h', f') (l ++ s) /\ (unsent l s -> h' = h)).
  { destruct (Z.eq_dec (wend f) 0) as [Hz|Hz].
    - assert (Hi : idle f) by (destruct Hc as [[[?|[(? & ? & ?) _]] _]|((? & ? & ?) & _)]; [done|lia|lia]).
      set (f1 := set_write (set_read (touch_mode f) 0 0) (buf f) (buf f) (buf f + buf_size f)).
      assert (Et : towrite f = (f1, false)).
      { unfold towrite. change (has (touch_mode f) F_NOWR) with (has f F_NOWR). unfold has. by rewrite Hfl. }
      assert (Ef : fwritex h s f = fwritex h s f1).
      { unfold fwritex. rewrite Hz, Et, Z.eqb_refl. change (wend f1) with (buf f + buf_size f). by rewrite (proj2 (Z.eqb_neq (buf f + buf_size f) 0)) by lia. }
      rewrite Ef. apply fwritex_logged; [|split_and!; cbn; lia]. do 4 (split; [done|]). left.
      split; [right; split; [split_and!; cbn; lia|done]|]. destruct Hc as [[_ E]|((E1 & E2 & E3) & _)]; [done|]. lia.
    - apply fwritex_logged; [done|]. destruct Hc as [[[(_ & _ & ?)|[? _]] _]|[? _]]; done. }
  destruct Hr as (h' & f' & n & -> & Hl'). by exists (h', f').
Qed.

(** Before the second byte, and if the first is no newline, nothing was sent. *)
Definition quiet (h0 : H) (hf : H * FILE) (l : list Z) : Prop :=
  logged h0 hf l /\ (l = [] \/ (exists b, l = [b] /\ b <> 10) -> hf.1 = h0).

Lemma out_quiet h0 hf l s : quiet h0 hf l -> exists hf', out hf s = Ok hf' /\ quiet h0 hf' (l ++ s).
Proof.
  intros [Hl Hq]. destruct (out_logged h0 hf l s Hl) as (hf' & E & Hl' & Hu). exists hf'. split; [done|]. split; [done|].
  intros [Hnil|(b & Hb & Hne)].
  - apply app_eq_nil in Hnil as [-> ->]. rewrite Hu by (by left). apply Hq. by left.
  - destruct l as [|c l]; cbn [app] in Hb.
    + rewrite Hu by (right; split; [done|by exists b]). apply Hq. by left.
    + injection Hb as -> Hb. apply app_eq_nil in Hb as [-> ->]. rewrite Hu by (by left). apply Hq. right. by exists b.
Qed.

(** A run of [synthol_vlogf]. *)
Lemma vlogf_run one junk internal junk' utf8 h fmt m ap q out m' :
  frame_ok one internal junk' -> one + 1 < 2 ^ 63 -> mem_ok m -> Forall is_byte fmt -> prepared fmt ap q -> formatted utf8 m q 0 out m' ->
  Z.of_nat (length out) <= INT_MAX ->
  exists h' f', synthol_vlogf one junk internal junk' utf8 h fmt m ap = Some (h', m', Z.of_nat (length out)) /\ quiet h (h', f') out.
Proof.
  intros [Hone _] Hend Hm Hfmt (c & q' & Hscan & ->) Hout Hlen. unfold synthol_vlogf, vfprintf. rewrite Hscan.
  change (mode (log_file one junk) <? 1) with true. cbv iota. rewrite set_flags_same by done.
  change (nz (buf_size (log_file one junk))) with true. cbv iota. set (q0 := start fmt (Format.ap q') _ _) in *.
  assert (Hl0 : quiet h (h, log_file one junk) []).
  { split; [|done]. do 3 (split; [done|]). split; [split; [cbn; lia|]; split; [done|]; split; [apply (mapped_written ∅ one [junk])|cbn; lia]|]. left. split; [by left; split_and!|]. by rewrite app_nil_r. }
  pose proof (printf_core_ok (quiet h) (out_quiet h) utf8 m q0 0 out m' Hout (S (length fmt)) (h, log_file one junk) [] 0 0 Hl0 Hm Hfmt eq_refl ltac:(unfold INT_MAX; lia) ltac:(lia) ltac:(cbn; lia)) as Hc.
  unfold completes in Hc. rewrite Z.add_0_l in Hc. rewrite (proj2 (Z.leb_le _ _) Hlen) in Hc. destruct Hc as ([h' f'] & -> & Hq). pose proof Hq as ((Hfl & _) & _). cbn [app] in Hq.
  cbn [mbind option_bind]. change (nz 0) with false. cbv iota. cbn [mbind option_bind]. unfold has. rewrite Hfl. change (nz (Z.land 0 F_ERR)) with false. cbv iota.
  by exists h', f'.
Qed.

(** C15. [synthol_vlogf] (and [synthol_logf]) returns the length of a message and shows all of
    it but, possibly, one byte: the first piece of one byte goes to the buffer of the stream
    and stays there, unless it is a newline. *)
Theorem vlogf_shows one junk internal junk' utf8 h fmt m ap q out m' :
  frame_ok one internal junk' -> one + 1 < 2 ^ 63 -> mem_ok m -> Forall is_byte fmt -> prepared fmt ap q -> formatted utf8 m q 0 out m' ->
  Z.of_nat (length out) <= INT_MAX ->
  exists h', synthol_vlogf one junk internal junk' utf8 h fmt m ap = Some (h', m', Z.of_nat (length out)) /\
    (log h' = log h ++ out \/ exists pre b post, out = pre ++ [b] ++ post /\ b <> 10 /\ log h' = log h ++ pre ++ post).
Proof.
  intros Hf Hend Hm Hfmt Hq Hout Hlen. destruct (vlogf_run one junk internal junk' utf8 h fmt m ap q out m' Hf Hend Hm Hfmt Hq Hout Hlen) as (h' & f' & E & (Hl & _)).
  exists h'. split; [done|]. destruct Hl as (_ & _ & _ & _ & [[_ Hc]|(_ & _ & pre & b & post & Eo & Hn & Hc)]); [by left|right]. by exists pre, b, post.
Qed.

(** C16. A message of one byte that is not a newline is not shown, whatever the format that
    prints it: no hypercall is made, and the length is returned. *)
Theorem vlogf_silent one junk internal junk' utf8 h types args fmt m b m' :
  frame_ok one internal junk' -> one + 1 < 2 ^ 63 -> mem_ok m -> b <> 10 ->
  format_ok types args fmt -> meaning utf8 args m fmt 0 0 [b] m' ->
  synthol_vlogf one junk internal junk' utf8 h (format_text fmt) m args = Some (h, m', 1).
Proof.
  intros Hf Hend Hm Hb Hfmt Hmean. destruct (meaning_prepared _ _ _ _ _ _ _ Hfmt Hmean) as [[_ Hov]|(q & Hq & Hout)]; [by unfold INT_MAX in Hov; simpl in Hov|].
  destruct Hfmt as [Hl _]. destruct (vlogf_run one junk internal junk' utf8 h (format_text fmt) m args q [b] m') as (h' & f' & -> & (_ & Hs)); try done;
    [by eapply text_bytes|]. cbn [fst] in Hs. rewrite Hs; [done|]. right. by exists b.
Qed.
End vlogf.

(** ** A hypervisor, for examples: it keeps what it was told *)
Record xen := { shown : list Z; ended : option Z }.
#[export] Instance xen_hypervisor : Hypervisor xen := {
  CONSOLEIO_write := 0; SCHEDOP_shutdown := 2; SHUTDOWN_poweroff := 0; SHUTDOWN_crash := 3;
  console_io h cmd bs := if cmd =? 0 then ({| shown := shown h ++ bs; ended := ended h |}, 0) else (h, -38);
  sched_op h cmd r := if cmd =? 2 then ({| shown := shown h; ended := Some r |}, true) else (h, false);
}.
#[export, refine] Instance xen_laws : HypervisorLaws xen := {| log := shown; stopped := ended |}.
Proof.
  - done.
  - intros h bs. by eexists.
  - intros h r. by eexists.
Defined.
Definition boot : xen := {| shown := []; ended := None |}.

Lemma setup_session_witness : let m := write_bytes ∅ 96 (replicate 24 7) in
  exists h', synthol_setup 1 (fun h m => Some (NL h, m, -1)) 96 boot m 0x854903 0x7ff0 = Some h' /\
    log h' = log boot ++ session 0x854903 0x7ff0 (-1) [10] /\ stopped h' = Some (SHUTDOWN_poweroff xen).
Proof.
  apply (setup_session 1 (fun h m => Some (NL h, m, -1)) 96 boot (write_bytes ∅ 96 (replicate 24 7)) 0x854903 0x7ff0 [10] (-1)); [lia|split; mem_check|].
  intros h m Hr. exists (NL h), m. split; [done|]. split; [done|]. apply NL_log.
Defined.

Lemma vnlogf_sends_witness :
  (exists h', synthol_vnlogf 50 60 5000 (replicate 80 0) true 100 (replicate 16 0) boot 16 demo_fmt ∅ [2 ^ 64 - 42] = Some (h', ∅, 0) /\
    log h' = log boot ++ [120; 61; 45; 48; 48; 52; 50; 37]) /\
  (exists d, vsnprintf 50 60 5000 (replicate 80 0) true (write_bytes ∅ 100 (replicate 6 0)) 100 6 demo_fmt ∅ [2 ^ 64 - 42] = Some (8, None, d, ∅) /\
    HYPERCALL_console_io boot (CONSOLEIO_write xen) 8 d 100 = None /\
    synthol_vnlogf 50 60 5000 (replicate 80 0) true 100 (replicate 6 0) boot 6 demo_fmt ∅ [2 ^ 64 - 42] = None).
Proof.
  split.
  - apply (vnlogf_sends 50 60 5000 (replicate 80 0) true 100 (replicate 16 0) boot 16 demo_fmt ∅ [2 ^ 64 - 42] demo_pass);
      [done|done|done|mem_check|by repeat apply list.Forall_cons_2|apply (demo_formatted ∅)|apply (demo_formatted ∅)|done].
  - apply (vnlogf_sends 50 60 5000 (replicate 80 0) true 100 (replicate 6 0) boot 6 demo_fmt ∅ [2 ^ 64 - 42] demo_pass [120; 61; 45; 48; 48; 52; 50; 37] ∅);
      [done|done|done|mem_check|by repeat apply list.Forall_cons_2|apply (demo_formatted ∅)|apply (demo_formatted ∅)|done].
Defined.

Lemma vlogf_shows_witness : exists h', synthol_vlogf 50 0 5000 (replicate 80 0) true boot demo_fmt ∅ [2 ^ 64 - 42] = Some (h', ∅, 8) /\
    (log h' = log boot ++ [120; 61; 45; 48; 48; 52; 50; 37] \/
     exists pre b post, [120; 61; 45; 48; 48; 52; 50; 37] = pre ++ [b] ++ post /\ b <> 10 /\ log h' = log boot ++ pre ++ post).
Proof.
  apply (vlogf_shows 50 0 5000 (replicate 80 0) true boot demo_fmt ∅ [2 ^ 64 - 42] demo_pass [120; 61; 45; 48; 48; 52; 50; 37] ∅);
    [done|done|mem_check|by repeat apply list.Forall_cons_2|apply (demo_formatted ∅)|apply (demo_formatted ∅)|done].
Defined.

(** [synthol_logf("%c", '!')] *)
Definition demo_c : dir := {| d_from := NextArg; d_flags := []; d_width := None; d_prec := None; d_conv := Chr |}.

Lemma vlogf_silent_witness : synthol_vlogf 50 0 5000 (replicate 80 0) true boot (format_text [Dir demo_c]) ∅ [33] = Some (boot, ∅, 1).
Proof.
  apply (vlogf_silent 50 0 5000 (replicate 80 0) true boot None [33] [Dir demo_c] ∅ 33 ∅); [done|done|mem_check|done|split; [by repeat constructor|done]|].
  apply (meaning_dir true [33] ∅ demo_c [] 0 0 [33] ∅ 1); [|apply meaning_end].
  apply (effect_field true [33] ∅ demo_c 0 0 0 false 0 None 0 33 1 [] [33] false); try reflexivity. apply Formats.conv_c.
Defined.

(** What [synthol_logf("value: %d\n", 5)] shows. *)
Example logf_value : match synthol_logf 50 0 5000 (replicate 80 0) true boot (str "value: %d" ++ [10]) ∅ [5] with
  | Some (h, _, r) => shown h = str "value: " ++ [10] /\ r = 9 | None => False end.
Proof. vm_compute. done. Qed.
