(* ===== verification/Mman.v ===== *)
(** * Pages of memory: [mmap], [mremap], [munmap] and [madvise]
    ([src/src/src/mman/mmap.c], [musl/src/mman])

    The wrappers of the system calls that give a program memory.  A system call is a
    function of its arguments and of the state of the world ([W]) that gives a result
    ([-4095 .. -1] is an error number) and a new state; a wrapper gives the address or
    [MAP_FAILED], the new [errno] if it is set, and the new state. *)
From S2P Require Import Prelude Format.

Definition EPERM : Z := 1.
Definition ENOMEM : Z := 12.
Definition MAP_FAILED : Z := 2 ^ 64 - 1.
Definition MAP_PRIVATE : Z := 2.
Definition MAP_FIXED : Z := 16.
Definition MAP_ANON : Z := 32.
Definition PROT_READ : Z := 1.
Definition PROT_WRITE : Z := 2.
Definition MREMAP_MAYMOVE : Z := 1.
Definition MREMAP_FIXED : Z := 2.
Definition MADV_DONTNEED : Z := 4.
Definition UNIT : Z := 4096.
Definition OFF_MASK : Z := Z.lor (u64 (Z.shiftl (- 0x2000) (8 * 8 - 1))) (UNIT - 1).
Definition PTRDIFF_MAX : Z := 2 ^ 63 - 1.

(** [__syscall_ret]: the result and [errno], if it is set. *)
Definition syscall_ret (r : Z) : Z * option Z := if u64 (- 4096) <? u64 r then (2 ^ 64 - 1, Some (- s64 r)) else (u64 r, None).

Section calls.
Context {W : Type}.

(** [__mmap].  [__vm_wait] does nothing in a program without threads. *)
Definition mmap (sys : Z -> Z -> Z -> Z -> Z -> Z -> W -> Z * W) (start len prot flags fd off : Z) (w : W) : Z * option Z * W :=
  if nz (Z.land off OFF_MASK) then (MAP_FAILED, Some Format.EINVAL, w)
  else if PTRDIFF_MAX <=? len then (MAP_FAILED, Some ENOMEM, w)
  else
    let '(ret, w) := sys start len prot flags fd off w in
    let ret := if (ret =? - EPERM) && negb (nz start) && nz (Z.land flags MAP_ANON) && negb (nz (Z.land flags MAP_FIXED))
               then - ENOMEM else ret in
    (syscall_ret ret, w).

(** [__mremap]; [new_addr] is the variable argument. *)
Definition mremap (sys : Z -> Z -> Z -> Z -> Z -> W -> Z * W) (old_addr old_len new_len flags new_addr : Z) (w : W) : Z * option Z * W :=
  if PTRDIFF_MAX <=? new_len then (MAP_FAILED, Some ENOMEM, w)
  else
    let '(ret, w) := sys old_addr old_len new_len flags (if nz (Z.land flags MREMAP_FIXED) then new_addr else 0) w in
    (syscall_ret ret, w).

Definition munmap (sys : Z -> Z -> W -> Z * W) (start len : Z) (w : W) : Z * option Z * W :=
  let '(ret, w) := sys start len w in (syscall_ret ret, w).

Definition madvise (sys : Z -> Z -> Z -> W -> Z * W) (addr len advice : Z) (w : W) : Z * option Z * W :=
  let '(ret, w) := sys addr len advice w in (syscall_ret ret, w).
End calls.

(** An error becomes -1 and a positive [errno], any other result is the address. *)
Lemma syscall_ret_ok x : - 2 ^ 63 <= x < 2 ^ 63 ->
  syscall_ret x = if (-4096 <? x) && (x <? 0) then (MAP_FAILED, Some (- x)) else (u64 x, None).
Proof.
  intros Hx. unfold syscall_ret. change (u64 (-4096)) with (2 ^ 64 - 4096). rewrite (swrap_small 64) by lia.
  destruct (Z.ltb_spec x 0) as [Hneg|Hpos].
  - assert (Hu : u64 x = x + 2 ^ 64) by (unfold wrap; symmetry; apply (Z.mod_unique_pos _ _ (-1)); lia). rewrite Hu, andb_true_r.
    destruct (Z.ltb_spec (2 ^ 64 - 4096) (x + 2 ^ 64)), (Z.ltb_spec (-4096) x); (done || lia).
  - rewrite (wrap_small 64 x), andb_false_r by lia. by rewrite (proj2 (Z.ltb_ge _ _)) by lia.
Qed.

(** [mmap] refuses an offset that is not a multiple of a page and a length above
    [PTRDIFF_MAX] without a system call; an error of the system call becomes -1 and a
    positive [errno], where the wrong [EPERM] for anonymous memory is [ENOMEM], and any
    other result is the address. *)
Theorem mmap_result {W} (sys : Z -> Z -> Z -> Z -> Z -> Z -> W -> Z * W) start len prot flags fd off (w : W) : 0 <= off ->
  (forall a b c d e f w, - 2 ^ 63 <= (sys a b c d e f w).1 < 2 ^ 63) ->
  mmap sys start len prot flags fd off w =
    if nz (off mod 4096) then (MAP_FAILED, Some Format.EINVAL, w)
    else if PTRDIFF_MAX <=? len then (MAP_FAILED, Some ENOMEM, w)
    else
      let '(r, w') := sys start len prot flags fd off w in
      if (-4096 <? r) && (r <? 0)
      then (MAP_FAILED, Some (if (r =? - EPERM) && (start =? 0) && nz (Z.land flags MAP_ANON) && negb (nz (Z.land flags MAP_FIXED)) then ENOMEM else - r), w')
      else (u64 r, None, w').
Proof.
  intros Hoff Hsys. unfold mmap. change OFF_MASK with (Z.ones 12). rewrite Z.land_ones by lia. change (2 ^ 12) with 4096.
  destruct (nz (off mod 4096)); [done|]. destruct (PTRDIFF_MAX <=? len); [done|]. cbv zeta. specialize (Hsys start len prot flags fd off w).
  destruct (sys start len prot flags fd off w) as [r w']. cbn [fst] in Hsys. change (negb (nz start)) with (negb (negb (start =? 0))). rewrite negb_involutive.
  rewrite syscall_ret_ok; [|unfold ENOMEM; destruct (_ && _); lia].
  destruct ((r =? - EPERM) && (start =? 0) && nz (Z.land flags MAP_ANON) && negb (nz (Z.land flags MAP_FIXED))) eqn:E.
  - rewrite !andb_true_iff, Z.eqb_eq in E. assert (r = - EPERM) as -> by tauto. done.
  - by destruct ((-4096 <? r) && (r <? 0)).
Qed.

Lemma mmap_result_witness : mmap (fun _ _ _ _ _ _ w => (- EPERM, w)) 0 4096 3 (Z.lor MAP_ANON 2) (-1) 8192 tt = (MAP_FAILED, Some ENOMEM, tt).
Proof. apply (mmap_result (fun _ _ _ _ _ _ w => (- EPERM, w)) 0 4096 3 (Z.lor MAP_ANON 2) (-1) 8192 tt); [lia|]. intros. unfold EPERM. cbn. lia. Defined.
