(* ===== verification/Seplog.v ===== *)
(** * Separation logic over word memory

    The assertions about the memory that the allocator manages.  Memory is a finite
    map from the addresses of aligned 64-bit words to their values; an assertion
    [heapProp] is a set of such memories that holds of every larger memory too, with
    the separating conjunction, and an instance of Iris's interface of (affine)
    bunched logics, so that its proof mode applies.

    A program here has a state of its own besides the memory ([S], the static
    variables of a C file) and returns [None] for an access to a word that is not in
    the memory, or when it runs out of fuel.  [wp e s Φ] is total: from every memory
    that satisfies it, whatever other words there are, [e] returns, leaves the other
    words as they were, and its result satisfies [Φ]. *)
From iris.proofmode Require Import proofmode.
From S2P Require Import Prelude.

(** * Memory and programs *)

Abbreviation words := (gmap Z Z).

Section programs.
Context {S : Type}.

Definition prog (A : Type) : Type := S -> words -> option (A * S * words).

Definition ret {A} (a : A) : prog A := fun s m => Some (a, s, m).
Definition bind {A B} (e : prog A) (k : A -> prog B) : prog B := fun s m =>
  match e s m with Some (a, s', m') => k a s' m' | None => None end.

(** A program that can not go on. *)
Definition crash {A} : prog A := fun _ _ => None.

(** Reading and writing the word at an address. *)
Definition load (a : Z) : prog Z := fun s m =>
  if a mod 8 =? 0 then v ← m !! a; Some (v, s, m) else None.
Definition store (a v : Z) : prog unit := fun s m =>
  if a mod 8 =? 0 then _ ← m !! a; Some (tt, s, <[a := v]> m) else None.

(** Reading and changing the static variables. *)
Definition get {A} (f : S -> A) : prog A := fun s m => Some (f s, s, m).
Definition set (f : S -> S) : prog unit := fun s m => Some (tt, f s, m).
End programs.

Global Arguments prog S A : clear implicits.

Declare Scope prog_scope.
Delimit Scope prog_scope with prog.
Bind Scope prog_scope with prog.
Notation "'let!' x := e 'in' k" := (bind e (fun x => k))
  (at level 10, x pattern, e at level 100, k at level 200,
   format "'let!'  x  :=  e  'in' '//' k") : prog_scope.
Notation "e ;; k" := (bind e (fun _ => k))
  (at level 100, k at level 200, right associativity, format "e ;; '//' k") : prog_scope.

(** * Assertions *)

Record heapProp := HeapProp {
  holds :> words -> Prop;
  grows m1 m2 : holds m1 -> m1 ⊆ m2 -> holds m2;
}.
Global Arguments holds : simpl never.

Section definitions.
Record heapProp_equiv' (P Q : heapProp) : Prop := { equiv_holds m : P m <-> Q m }.
#[local] Instance heapProp_equiv : Equiv heapProp := heapProp_equiv'.
#[local] Instance heapProp_equivalence : Equivalence (≡@{heapProp}).
Proof.
  split; [by intros P; split|intros P Q [H]; split=> m; by symmetry|].
  intros P Q R [HPQ] [HQR]. split=> m. by etrans; [apply HPQ|].
Qed.
Canonical Structure heapPropO := discreteO heapProp.

Record heapProp_entails (P Q : heapProp) : Prop := { entails_holds m : P m -> Q m }.
#[program] Definition heapProp_pure (φ : Prop) : heapProp := HeapProp (fun _ => φ) _.
Solve Obligations with done.
Definition heapProp_emp : heapProp := heapProp_pure True.
#[program] Definition heapProp_and (P Q : heapProp) : heapProp := HeapProp (fun m => P m /\ Q m) _.
Next Obligation. intros P Q m1 m2 [HP HQ] Hs. split; by eapply grows. Qed.
#[program] Definition heapProp_or (P Q : heapProp) : heapProp := HeapProp (fun m => P m \/ Q m) _.
Next Obligation. intros P Q m1 m2 [HP|HQ] Hs; [left|right]; by eapply grows. Qed.
#[program] Definition heapProp_impl (P Q : heapProp) : heapProp :=
  HeapProp (fun m => forall m', m ⊆ m' -> P m' -> Q m') _.
Next Obligation. intros P Q m1 m2 H Hs m' Hs'. apply H. by etrans. Qed.
#[program] Definition heapProp_forall {A} (Φ : A -> heapProp) : heapProp :=
  HeapProp (fun m => forall x, Φ x m) _.
Next Obligation. intros A Φ m1 m2 H Hs x. by eapply grows. Qed.
#[program] Definition heapProp_exist {A} (Φ : A -> heapProp) : heapProp :=
  HeapProp (fun m => exists x, Φ x m) _.
Next Obligation. intros A Φ m1 m2 [x H] Hs. exists x. by eapply grows. Qed.
#[program] Definition heapProp_sep (P Q : heapProp) : heapProp :=
  HeapProp (fun m => exists m1 m2, m1 ∪ m2 ⊆ m /\ m1 ##ₘ m2 /\ P m1 /\ Q m2) _.
Next Obligation. intros P Q m m' (m1 & m2 & Hm & H) Hs. exists m1, m2. split; [by etrans|done]. Qed.
#[program] Definition heapProp_wand (P Q : heapProp) : heapProp :=
  HeapProp (fun m => forall m', m ##ₘ m' -> P m' -> Q (m ∪ m')) _.
Next Obligation.
  intros P Q m1 m2 H Hs m' Hd HP. eapply grows; [apply H; [|done]|].
  - by eapply map_disjoint_weaken_l.
  - by apply map_union_mono_r.
Qed.
Definition heapProp_persistently (P : heapProp) : heapProp :=
  heapProp_pure (heapProp_entails heapProp_emp P).
Definition heapProp_later (P : heapProp) : heapProp := P.
End definitions.

Lemma heapProp_bi_mixin :
  BiMixin (PROP:=heapProp) heapProp_entails heapProp_emp heapProp_pure heapProp_and heapProp_or
    heapProp_impl (@heapProp_forall) (@heapProp_exist) heapProp_sep heapProp_wand.
Proof.
  split.
  - split; [by intros P; split|]. intros P Q R [H1] [H2]. split=> m HP. by apply H2, H1.
  - intros P Q. split.
    + intros [H]. split; split=> m HP; by apply H.
    + intros [[H1] [H2]]. split=> m. split; [apply H1|apply H2].
  - intros n φ ψ H. by split=> m.
  - intros n P P' [HP] Q Q' [HQ]. split=> m. split; intros [H1 H2]; split; by [apply HP|apply HQ].
  - intros n P P' [HP] Q Q' [HQ]. split=> m. split; (intros [H|H]; [left|right]); by [apply HP|apply HQ].
  - intros n P P' [HP] Q Q' [HQ]. split=> m. split; intros H m' Hs HP'; apply HQ, H; try done; by apply HP.
  - intros A n Φ Ψ H. split=> m. split; intros HΦ x; by apply H.
  - intros A n Φ Ψ H. split=> m. split; intros [x Hx]; exists x; by apply H.
  - intros n P P' [HP] Q Q' [HQ]. split=> m. split; intros (m1 & m2 & Hs & Hd & H1 & H2); exists m1, m2;
      (split; [done|split; [done|split; [by apply HP|by apply HQ]]]).
  - intros n P P' [HP] Q Q' [HQ]. split=> m. split; intros H m' Hd HP'; apply HQ, H; try done; by apply HP.
  - intros φ P H. by split.
  - intros φ P H. split=> m Hφ. by apply H.
  - intros P Q. by split=> m [H _].
  - intros P Q. by split=> m [_ H].
  - intros P Q R [H1] [H2]. split=> m HP. split; [by apply H1|by apply H2].
  - intros P Q. split=> m H. by left.
  - intros P Q. split=> m H. by right.
  - intros P Q R [H1] [H2]. split=> m [H|H]; [by apply H1|by apply H2].
  - intros P Q R [H]. split=> m HP m' Hs HQ. apply H. split; [by eapply grows|done].
  - intros P Q R [H]. split=> m [HP HQ]. by apply (H m HP m).
  - intros A P Ψ H. split=> m HP x. by apply H.
  - intros A Ψ x. split=> m H. apply H.
  - intros A Ψ x. split=> m H. by exists x.
  - intros A Φ Q H. split=> m [x Hx]. by apply (H x).
  - intros P P' Q Q' [HP] [HQ]. split=> m [m1 [m2 [Hs [Hd [H1 H2]]]]]. exists m1, m2.
    split; [done|split; [done|split; [by apply HP|by apply HQ]]].
  - intros P. split=> m H. exists ∅, m. split; [by rw (left_id_L ∅ (∪))|].
    split; [apply map_disjoint_empty_l|done].
  - intros P. split=> m [m1 [m2 [Hs [Hd [_ H]]]]]. eapply grows; [done|]. etrans; [|done].
    by apply map_union_subseteq_r.
  - intros P Q. split=> m [m1 [m2 [Hs [Hd [H1 H2]]]]]. exists m2, m1.
    split; [by rw map_union_comm|done].
  - intros P Q R. split=> m [m12 [m3 [Hs [Hd [[m1 [m2 [Hs' [Hd' [H1 H2]]]]] H3]]]]].
    assert ((m1 ∪ m2) ##ₘ m3) as [Hd13 Hd23]%map_disjoint_union_l by by eapply map_disjoint_weaken_l.
    exists m1, (m2 ∪ m3). split.
    { rw (assoc_L (∪)). etrans; [|done]. by apply map_union_mono_r. }
    split; [by apply map_disjoint_union_r|]. split; [done|]. by exists m2, m3.
  - intros P Q R [H]. split=> m HP m' Hd HQ. apply H. by exists m, m'.
  - intros P Q R [H]. split=> m [m1 [m2 [Hs [Hd [H1 H2]]]]]. eapply grows; [by apply (H m1)|done].
Qed.

Lemma heapProp_persistently_mixin :
  BiPersistentlyMixin (PROP:=heapProp) heapProp_entails heapProp_emp heapProp_and (@heapProp_exist)
    heapProp_sep heapProp_persistently.
Proof.
  eapply bi_persistently_mixin_discrete, heapProp_bi_mixin; [done| |done].
  intros A Φ [H]. destruct (H ∅ I) as [x Hx]. exists x. split=> m _. eapply grows; [done|].
  apply map_empty_subseteq.
Qed.

Lemma heapProp_later_mixin :
  BiLaterMixin (PROP:=heapProp) heapProp_entails heapProp_pure heapProp_or heapProp_impl
    (@heapProp_forall) (@heapProp_exist) heapProp_sep heapProp_persistently heapProp_later.
Proof. eapply bi_later_mixin_id, heapProp_bi_mixin; done. Qed.

Canonical Structure heapPropI : bi :=
  {| bi_ofe_mixin := ofe_mixin_of heapProp;
     bi_bi_mixin := heapProp_bi_mixin;
     bi_bi_persistently_mixin := heapProp_persistently_mixin;
     bi_bi_later_mixin := heapProp_later_mixin |}.

#[export] Instance heapProp_affine : BiAffine heapPropI | 0.
Proof. intros P. by split. Qed.

#[export] Instance heapProp_pure_forall : BiPureForall heapPropI.
Proof. intros A φ. split=> m H x. exact (H x). Qed.

(** * Words and ranges of words *)

(** The word at an aligned address. *)
#[program] Definition pointsto (a v : Z) : heapProp :=
  HeapProp (fun m => m !! a = Some v /\ a mod 8 = 0) _.
Next Obligation. intros a v m1 m2 [H Ha] Hs. split; [by eapply lookup_weaken|done]. Qed.
Notation "a ↦ v" := (pointsto a v) (at level 20, format "a  ↦  v") : bi_scope.

(** Consecutive words. *)
Definition array (a : Z) (vs : list Z) : heapProp := ([∗ list] i ↦ v ∈ vs, (a + 8 * Z.of_nat i) ↦ v)%I.

Lemma pure_holds (φ : Prop) m : (bi_pure (PROP:=heapPropI) φ) m -> φ.
Proof. done. Qed.

Lemma sep_holds (P Q : heapProp) m :
  (P ∗ Q)%I m <-> exists m1 m2, m1 ∪ m2 ⊆ m /\ m1 ##ₘ m2 /\ P m1 /\ Q m2.
Proof. done. Qed.

Lemma pointsto_aligned a v : a ↦ v ⊢ ⌜a mod 8 = 0⌝.
Proof. split=> m [_ H]. exact H. Qed.

Lemma pointsto_distinct a b v w : a ↦ v -∗ b ↦ w -∗ ⌜a <> b⌝.
Proof.
  apply bi.entails_wand, bi.wand_intro_r. split=> m [m1 [m2 [_ [Hd [[Ha _] [Hb _]]]]]].
  assert (a <> b); [|done]. intros ->. eapply map_disjoint_spec; by eauto.
Qed.

Lemma array_app a vs ws : array a (vs ++ ws) ⊣⊢ array a vs ∗ array (a + 8 * Z.of_nat (length vs)) ws.
Proof.
  unfold array. rw big_sepL_app. f_equiv. apply big_sepL_proper. intros i v _.
  by replace (a + 8 * Z.of_nat (length vs + i))
    with (a + 8 * Z.of_nat (length vs) + 8 * Z.of_nat i) by lia.
Qed.

Lemma array_cons a v vs : array a (v :: vs) ⊣⊢ a ↦ v ∗ array (a + 8) vs.
Proof.
  change (v :: vs) with ([v] ++ vs). rw array_app. unfold array at 1. cbn [big_opL length].
  by rw right_id Z.add_0_r.
Qed.

Lemma array_nil a : array a [] ⊣⊢ emp.
Proof. done. Qed.

(** * Programs satisfy their assertions *)

Section wp.
Context {S : Type}.

#[program] Definition wp {A} (e : prog S A) (s : S) (Φ : A -> S -> heapProp) : heapProp :=
  HeapProp (fun m => forall mf, m ##ₘ mf ->
    exists a s' m', e s (m ∪ mf) = Some (a, s', m' ∪ mf) /\ m' ##ₘ mf /\ Φ a s' m') _.
Next Obligation.
  intros A e s Φ m1 m2 H Hs mf Hd. destruct (H (m2 ∖ m1 ∪ mf)) as (a & s' & m' & E & Hd' & HΦ).
  - apply map_disjoint_union_r. split; [by apply map_disjoint_difference_r1|].
    by eapply map_disjoint_weaken_l.
  - apply map_disjoint_union_r in Hd' as [Hd1 Hd2].
    assert (m1 ∪ (m2 ∖ m1 ∪ mf) = m2 ∪ mf) as Em by by rw (assoc_L (∪)) map_difference_union.
    rw Em in E. exists a, s', (m' ∪ m2 ∖ m1). rw -(assoc_L (∪)).
    split; [done|]. split.
    + apply map_disjoint_union_l. split; [done|]. by apply map_disjoint_difference_l2.
    + eapply grows; [done|]. apply map_union_subseteq_l.
Qed.

Implicit Types (s : S).

Lemma wp_ret {A} (a : A) s (Φ : A -> S -> heapProp) : Φ a s ⊢ wp (ret a) s Φ.
Proof. split=> m H mf Hd. by exists a, s, m. Qed.

Lemma wp_seq {A B} (e : prog S A) (k : A -> prog S B) s (Φ : B -> S -> heapProp) :
  wp e s (fun a s' => wp (k a) s' Φ) ⊢ wp (bind e k) s Φ.
Proof.
  split=> m H mf Hd. destruct (H mf Hd) as (a & s' & m' & E & Hd' & Hk).
  destruct (Hk mf Hd') as (b & s'' & m'' & E' & H').
  exists b, s'', m''. unfold bind. by rw E.
Qed.

Lemma wp_weaken {A} (e : prog S A) s (Φ Ψ : A -> S -> heapProp) :
  (forall a s', Φ a s' ⊢ Ψ a s') -> wp e s Φ ⊢ wp e s Ψ.
Proof.
  intros H. split=> m He mf Hd. destruct (He mf Hd) as (a & s' & m' & E & Hd' & HΦ).
  exists a, s', m'. split; [done|]. split; [done|]. by apply H.
Qed.

Lemma wp_frame {A} (e : prog S A) s (Φ : A -> S -> heapProp) R :
  wp e s Φ ∗ R ⊢ wp e s (fun a s' => Φ a s' ∗ R).
Proof.
  split=> m [m1 [m2 [Hs [Hd12 [He HR]]]]].
  eapply grows; [|exact Hs]. intros mf Hd.
  apply map_disjoint_union_l in Hd as [Hd1 Hd2].
  destruct (He (m2 ∪ mf)) as (a & s' & m' & E & Hd' & HΦ); [by apply map_disjoint_union_r|].
  apply map_disjoint_union_r in Hd' as [Hd' Hdf].
  exists a, s', (m' ∪ m2). rw -!(assoc_L (∪)). split; [done|].
  split; [by apply map_disjoint_union_l|]. by exists m', m2.
Qed.

Lemma wp_wand {A} (e : prog S A) s (Φ Ψ : A -> S -> heapProp) :
  wp e s Φ -∗ (∀ a s', Φ a s' -∗ Ψ a s') -∗ wp e s Ψ.
Proof.
  iIntros "He HΨ". iAssert (wp e s Φ ∗ ∀ a s', Φ a s' -∗ Ψ a s')%I with "[He HΨ]" as "H"; [iFrame|].
  iDestruct (wp_frame with "H") as "H". iApply (wp_weaken with "H").
  iIntros (a s') "[HΦ HΨ]". by iApply "HΨ".
Qed.

Lemma wp_load a v s Φ : a ↦ v -∗ (a ↦ v -∗ Φ v s) -∗ wp (load a) s Φ.
Proof.
  apply bi.entails_wand, bi.wand_intro_r. split=> m [m1 [m2 [Hs [Hd12 [[Ha Hal] HΦ]]]]].
  eapply grows; [|exact Hs]. intros mf Hd. exists v, s, (m1 ∪ m2).
  split; [|split; [done|]].
  - unfold load. apply Z.eqb_eq in Hal as ->. rw -(assoc_L (∪)).
    rw (lookup_union_Some_l _ _ _ _ Ha). by rw (assoc_L (∪)).
  - rw map_union_comm; [|done]. apply HΦ; [by symmetry|done].
Qed.

Lemma wp_store a v w s Φ : a ↦ v -∗ (a ↦ w -∗ Φ tt s) -∗ wp (store a w) s Φ.
Proof.
  apply bi.entails_wand, bi.wand_intro_r. split=> m [m1 [m2 [Hs [Hd12 [[Ha Hal] HΦ]]]]].
  eapply grows; [|exact Hs]. intros mf Hd.
  apply map_disjoint_union_l in Hd as Hd'. destruct Hd' as [Hd1 Hd2].
  assert (<[a:=w]> m1 ##ₘ m2) as Hd12' by (apply map_disjoint_insert_l; split; [exact (map_disjoint_Some_l _ _ _ _ Hd12 Ha)|done]).
  exists tt, s, (<[a := w]> m1 ∪ m2). split; [|split].
  - unfold store. pose proof Hal as Hal'. apply Z.eqb_eq in Hal as ->. rw -!(assoc_L (∪)).
    rw (lookup_union_Some_l _ _ _ _ Ha). cbn. by rw insert_union_l.
  - apply map_disjoint_union_l. split; [|done].
    apply map_disjoint_insert_l. split; [exact (map_disjoint_Some_l _ _ _ _ Hd1 Ha)|done].
  - rw map_union_comm; [|done]. apply HΦ; [by symmetry|]. split; [by rw lookup_insert_eq|done].
Qed.

Lemma wp_get {A} (f : S -> A) s Φ : Φ (f s) s ⊢ wp (get f) s Φ.
Proof. split=> m H mf Hd. by exists (f s), s, m. Qed.

Lemma wp_set (f : S -> S) s Φ : Φ tt (f s) ⊢ wp (set f) s Φ.
Proof. split=> m H mf Hd. by exists tt, (f s), m. Qed.

(** What [wp] says of a memory. *)
Lemma wp_adequate {A} (e : prog S A) s (Φ : A -> S -> heapProp) (P : heapProp) m :
  (P ⊢ wp e s Φ) -> P m -> exists a s' m', e s m = Some (a, s', m') /\ Φ a s' m'.
Proof.
  intros [H] HP. destruct (H m HP ∅) as (a & s' & m' & E & _ & HΦ); [apply map_disjoint_empty_r|].
  rw !(right_id_L ∅ (∪)) in E. by exists a, s', m'.
Qed.
End wp.
