(* ===== verification/Chunks.v ===== *)
(** * Sizes, bins and fields of chunks ([malloc/malloc.c])

    The parts of the allocator that do not touch memory: the size of the chunk for a
    request, the bin of a size, flags in a size, addresses of fields; and the facts
    about them that the allocator relies on: every chunk of the bins that [malloc]
    looks into is large enough. *)
From S2P Require Import Prelude IntOps Mman.

(** * Constants *)
Definition SIZE_MAX : Z := 2 ^ 64 - 1.
Definition SIZE_ALIGN : Z := 4 * 8.
Definition SIZE_MASK : Z := u64 (- SIZE_ALIGN).
Definition OVERHEAD : Z := 2 * 8.
Definition MMAP_THRESHOLD : Z := 0x1c00 * SIZE_ALIGN.
Definition DONTCARE : Z := 16.
Definition RECLAIM : Z := 163840.
Definition PAGE_SIZE : Z := 4096.
Definition C_INUSE : Z := 1.

(** * Bins *)
Definition first_set (x : Z) : Z := builtin_ctz x.

Definition bin_tab : list Z := [
              32;33;34;35;36;36;37;37;38;38;39;39;
  40;40;40;40;41;41;41;41;42;42;42;42;43;43;43;43;
  44;44;44;44;44;44;44;44;45;45;45;45;45;45;45;45;
  46;46;46;46;46;46;46;46;47;47;47;47;47;47;47;47].

Definition bin_index (x : Z) : Z :=
  let x := u64 (x / SIZE_ALIGN - 1) in
  if x <=? 32 then x
  else if x <? 512 then nth (Z.to_nat (x / 8 - 4)) bin_tab 0
  else if 0x1c00 <? x then 63
  else nth (Z.to_nat (x / 128 - 4)) bin_tab 0 + 16.

Definition bin_index_up (x : Z) : Z :=
  let x := u64 (x / SIZE_ALIGN - 1) in
  if x <=? 32 then x
  else
    let x := x - 1 in
    if x <? 512 then nth (Z.to_nat (x / 8 - 4)) bin_tab 0 + 1
    else nth (Z.to_nat (x / 128 - 4)) bin_tab 0 + 17.

(** [adjust_size]: the size of the chunk for a request; [None] is -1 (with [ENOMEM]). *)
Definition adjust_size (n : Z) : option Z :=
  if PTRDIFF_MAX - SIZE_ALIGN - PAGE_SIZE <? u64 (n - 1)
  then if nz n then None else Some SIZE_ALIGN
  else Some (Z.land (u64 (n + OVERHEAD + SIZE_ALIGN - 1)) SIZE_MASK).

(** [new_size+size > RECLAIM && (new_size+size^size) > size] *)
Definition reclaims (new_size size : Z) : bool :=
  (RECLAIM <? u64 (new_size + size)) && (size <? Z.lxor (u64 (new_size + size)) size).

(** * Fields *)

(** Addresses of the fields of the chunk at [c]. *)
Definition psize (c : Z) : Z := c.
Definition csize (c : Z) : Z := c + 8.
Definition next_ (c : Z) : Z := c + 16.
Definition prev_ (c : Z) : Z := c + 24.

Definition MEM_TO_CHUNK (p : Z) : Z := p - OVERHEAD.
Definition CHUNK_TO_MEM (c : Z) : Z := c + OVERHEAD.

(** * Sizes and flags *)

(** Sizes of chunks: a multiple of 32 from 32 on. *)
Definition good_size (s : Z) : Prop := s mod 32 = 0 /\ 32 <= s < 2 ^ 63.

Lemma land_one s : Z.land s 1 = s mod 2.
Proof. change 1 with (Z.ones 1). by rewrite Z.land_ones by lia. Qed.

Lemma lor_inuse s : s mod 2 = 0 -> Z.lor s 1 = s + 1.
Proof. intros H. rewrite <- Z.add_lor_land, land_one, H. lia. Qed.

Lemma lor_inuse_again s : s mod 2 = 0 -> Z.lor (s + 1) 1 = s + 1.
Proof. intros H. by rewrite <- (lor_inuse s H), <- Z.lor_assoc. Qed.

Lemma inuse_flag s u : s mod 2 = 0 -> nz (Z.land (s + b2z u) 1) = u.
Proof.
  intros H. rewrite land_one. unfold nz. destruct u; cbn [b2z].
  - by replace ((s + 1) mod 2) with 1 by divmod.
  - rewrite Z.add_0_r, H. done.
Qed.

Lemma both_inuse x y : nz (Z.land (Z.land x y) 1) = nz (Z.land x 1) && nz (Z.land y 1).
Proof.
  rewrite !land_one, !Zmod_odd. change 1 with (2 ^ 0) at 1. rewrite <- !Z.bit0_odd, Z.land_spec.
  by destruct (Z.testbit x 0), (Z.testbit y 0).
Qed.

Lemma size_mask s u : s mod 2 = 0 -> 0 <= s < 2 ^ 63 -> Z.land (s + b2z u) (u64 (- 2)) = s.
Proof.
  intros H Hs. change (u64 (-2)) with (Z.lnot 1 mod 2 ^ 64).
  rewrite <- Z.land_ones, (Z.land_comm (Z.lnot _)), Z.land_assoc by lia.
  rewrite Z.land_ones by lia. rewrite Z.mod_small by (destruct u; cbn; lia).
  rewrite <- Z.ldiff_land. change 1 with (Z.ones 1). rewrite Z.ldiff_ones_r by lia.
  rewrite Z.shiftr_div_pow2, Z.shiftl_mul_pow2 by lia.
  change (2 ^ 1) with 2. destruct u; cbn [b2z]; [|rewrite Z.add_0_r]; divmod.
Qed.

(** The size for a request: two words more, rounded up to 32. *)
Lemma adjust_size_value n : 0 <= n < 2 ^ 64 ->
  adjust_size n = if n =? 0 then Some 32 else if 2 ^ 63 - 4128 <? n then None else Some ((n + 47) / 32 * 32).
Proof.
  intros Hn. unfold adjust_size. change SIZE_MASK with (Z.lnot (Z.ones 5) mod 2 ^ 64). change SIZE_ALIGN with 32.
  change (PTRDIFF_MAX - 32 - PAGE_SIZE) with (2 ^ 63 - 4129). unfold OVERHEAD.
  destruct (Z.eqb_spec n 0) as [->|Hn0]; [done|].
  rewrite (wrap_small 64 (n - 1)) by lia. destruct (Z.ltb_spec (2 ^ 63 - 4129) (n - 1)) as [Hb|Hb].
  - rewrite (proj2 (Z.ltb_lt _ _)) by lia. unfold nz. by rewrite (proj2 (Z.eqb_neq n 0)).
  - rewrite (proj2 (Z.ltb_ge _ _)) by lia. rewrite (wrap_small 64), <- Z.land_ones, (Z.land_comm (Z.lnot _)), Z.land_assoc by lia.
    rewrite Z.land_ones, Z.mod_small, <- Z.ldiff_land, Z.ldiff_ones_r by lia.
    rewrite Z.shiftr_div_pow2, Z.shiftl_mul_pow2 by lia. change (2 ^ 5) with 32. do 2 f_equal. f_equal. lia.
Qed.

(** The size of a chunk serves the request, with its two words of overhead. *)
Lemma adjust_size_ok n : 0 <= n < 2 ^ 64 ->
  match adjust_size n with
  | Some s => good_size s /\ n + 16 <= s
  | None => PTRDIFF_MAX - SIZE_ALIGN - PAGE_SIZE < n
  end.
Proof.
  intros Hn. rewrite adjust_size_value by done. destruct (Z.eqb_spec n 0) as [->|Hn0]; [by split|].
  change (PTRDIFF_MAX - SIZE_ALIGN - PAGE_SIZE) with (2 ^ 63 - 4129).
  destruct (Z.ltb_spec (2 ^ 63 - 4128) n); [lia|]. unfold good_size. divmod.
Qed.

Lemma adjust_size_bound n m : 0 <= n < 2 ^ 64 -> adjust_size n = Some m -> m <= 2 ^ 63 - 4096.
Proof.
  intros Hn. rewrite adjust_size_value by done. destruct (n =? 0); [by intros [= <-]|].
  destruct (Z.ltb_spec (2 ^ 63 - 4128) n); [done|]. intros [= <-]. divmod.
Qed.

Lemma adjust_size_near n m : 0 <= n < 2 ^ 64 -> adjust_size n = Some m -> m - 47 <= n.
Proof.
  intros Hn. rewrite adjust_size_value by done. destruct (Z.eqb_spec n 0) as [->|]; [by intros [= <-]|].
  destruct (Z.ltb_spec (2 ^ 63 - 4128) n); [done|]. intros [= <-]. divmod.
Qed.

(** * Bins *)

(** The table is ordered, and its entries are bins. *)
Definition tab (k : Z) : Z := nth (Z.to_nat k) bin_tab 0.

Lemma tab_step k : 0 <= k < 59 -> tab k <= tab (k + 1) <= tab k + 1.
Proof.
  intros Hk. assert (H : forall i, (i < 59)%nat -> nth i bin_tab 0 <= nth (S i) bin_tab 0 <= nth i bin_tab 0 + 1).
  { intros i Hi. assert (Hb : forallb (fun i => (nth i bin_tab 0 <=? nth (S i) bin_tab 0) && (nth (S i) bin_tab 0 <=? nth i bin_tab 0 + 1)) (seq 0 59) = true) by done.
    rewrite List.forallb_forall in Hb. specialize (Hb i). rewrite andb_true_iff, !Z.leb_le in Hb. apply Hb, in_seq. lia. }
  unfold tab. replace (Z.to_nat (k + 1)) with (S (Z.to_nat k)) by lia. apply H. lia.
Qed.

Lemma tab_mono a b : 0 <= a -> a <= b -> b < 60 -> tab a <= tab b.
Proof.
  intros Ha Hab Hb. replace b with (a + Z.of_nat (Z.to_nat (b - a))) in * by lia. clear Hab.
  induction (Z.to_nat (b - a)) as [|k IH]; [by rewrite Z.add_0_r|].
  etrans; [apply IH; lia|]. replace (a + Z.of_nat (S k)) with (a + Z.of_nat k + 1) by lia. apply tab_step. lia.
Qed.

Lemma tab_range k : 0 <= k < 60 -> 32 <= tab k <= 47.
Proof. intros Hk. split; [apply (tab_mono 0 k)|apply (tab_mono k 59)]; lia. Qed.

Definition units (s : Z) : Z := s / SIZE_ALIGN - 1.

Lemma units_range s : good_size s -> 0 <= units s < 2 ^ 62.
Proof. intros [Hm Hs]. unfold units, SIZE_ALIGN. divmod. Qed.

Lemma units_le s n : good_size s -> good_size n -> units n <= units s -> n <= s.
Proof. intros [Hm Hs] [Hm' Hs'] H. unfold units, SIZE_ALIGN in *. divmod. Qed.

Lemma bin_index_units s : good_size s -> bin_index s =
  let x := units s in if x <=? 32 then x else if x <? 512 then tab (x / 8 - 4) else if 0x1c00 <? x then 63 else tab (x / 128 - 4) + 16.
Proof. intros H. pose proof (units_range s H). unfold bin_index. fold (units s). by rewrite (wrap_small 64) by lia. Qed.

Lemma bin_index_up_units s : good_size s -> bin_index_up s =
  let x := units s in if x <=? 32 then x else if x - 1 <? 512 then tab ((x - 1) / 8 - 4) + 1 else tab ((x - 1) / 128 - 4) + 17.
Proof. intros H. pose proof (units_range s H). unfold bin_index_up. fold (units s). by rewrite (wrap_small 64) by lia. Qed.

Lemma bin_index_range s : good_size s -> 0 <= bin_index s < 64.
Proof.
  intros H. rewrite bin_index_units by done. pose proof (units_range s H). cbv zeta.
  repeat case_match; try lia.
  - pose proof (tab_range (units s / 8 - 4)). divmod.
  - pose proof (tab_range (units s / 128 - 4)). divmod.
Qed.

Lemma bin_index_up_range s : good_size s -> s <= MMAP_THRESHOLD -> 0 <= bin_index_up s < 64.
Proof.
  intros H Hs. rewrite bin_index_up_units by done. pose proof (units_range s H).
  assert (units s <= 0x1bff) by (unfold units, SIZE_ALIGN, MMAP_THRESHOLD, SIZE_ALIGN in *; divmod). cbv zeta.
  repeat case_match; try lia.
  - pose proof (tab_range ((units s - 1) / 8 - 4)). divmod.
  - pose proof (tab_range ((units s - 1) / 128 - 4)). pose proof (tab_mono ((units s - 1) / 128 - 4) 51).
    change (tab 51) with 46 in *. divmod.
Qed.

(** A chunk of a bin at or above [bin_index_up n] has [n] bytes. *)
Lemma bin_fits s n : good_size s -> good_size n -> n <= MMAP_THRESHOLD -> bin_index_up n <= bin_index s -> n <= s.
Proof.
  intros Hs Hn Hle Hb. apply Z.nlt_ge. intros Hlt.
  assert (Hu : units s < units n) by (apply Z.nle_gt; intros Hu; pose proof (units_le s n Hs Hn Hu); lia).
  revert Hb. apply Z.nle_gt. rewrite bin_index_units, bin_index_up_units by done.
  pose proof (units_range s Hs). pose proof (units_range n Hn).
  assert (units n <= 0x1bff) by (unfold units, SIZE_ALIGN, MMAP_THRESHOLD, SIZE_ALIGN in *; divmod). cbv zeta.
  repeat case_match; try lia.
  - pose proof (tab_range ((units n - 1) / 8 - 4)). divmod.
  - pose proof (tab_range ((units n - 1) / 128 - 4)). divmod.
  - pose proof (tab_mono (units s / 8 - 4) ((units n - 1) / 8 - 4)). divmod.
  - pose proof (tab_range ((units n - 1) / 128 - 4)). pose proof (tab_range (units s / 8 - 4)). divmod.
  - pose proof (tab_mono (units s / 128 - 4) ((units n - 1) / 128 - 4)). divmod.
Qed.

Lemma bin_index_le_up s : good_size s -> s <= MMAP_THRESHOLD -> bin_index s <= bin_index_up s.
Proof.
  intros Hs Hle. rewrite bin_index_units, bin_index_up_units by done. pose proof (units_range s Hs).
  assert (units s <= 0x1bff) by (unfold units, SIZE_ALIGN, MMAP_THRESHOLD, SIZE_ALIGN in *; divmod). cbv zeta.
  repeat case_match; try lia.
  - assert (He : units s / 8 = (units s - 1) / 8 \/ units s / 8 = (units s - 1) / 8 + 1) by divmod.
    pose proof (tab_step ((units s - 1) / 8 - 4)). destruct He as [He|He]; rewrite He; [lia|].
    replace ((units s - 1) / 8 + 1 - 4) with ((units s - 1) / 8 - 4 + 1) by lia.
    assert (0 <= (units s - 1) / 8 - 4 < 59) by divmod. lia.
  - assert (units s = 512) as -> by lia. done.
  - assert (He : units s / 128 = (units s - 1) / 128 \/ units s / 128 = (units s - 1) / 128 + 1) by divmod.
    pose proof (tab_step ((units s - 1) / 128 - 4)). destruct He as [He|He]; rewrite He; [lia|].
    replace ((units s - 1) / 128 + 1 - 4) with ((units s - 1) / 128 - 4 + 1) by lia.
    assert (0 <= (units s - 1) / 128 - 4 < 59) by divmod. lia.
Qed.

(** * The map of bins *)
Definition map_ok (b : Z) : Prop := 0 <= b < 2 ^ 64.

Lemma testbit_pow2 i k : 0 <= i -> 0 <= k -> Z.testbit (Z.shiftl 1 i) k = bool_decide (k = i).
Proof.
  intros Hi Hk. rewrite Z.shiftl_1_l. case_bool_decide as E.
  - subst. by apply Z.pow2_bits_true.
  - apply Z.pow2_bits_false. lia.
Qed.

Lemma nonzero_bit x : x <> 0 <-> exists k, 0 <= k /\ Z.testbit x k = true.
Proof.
  split.
  - intros H. destruct (trailing_exists x H) as (c & Hc & m & ->). exists c. split; [done|].
    rewrite Z.mul_comm, Z.mul_pow2_bits, Z.sub_diag by done. apply Z.testbit_odd_0.
  - intros (k & Hk & E) ->. by rewrite Z.bits_0 in E.
Qed.

Lemma bit_set b i : 0 <= i -> nz (Z.land b (Z.shiftl 1 i)) = Z.testbit b i.
Proof.
  intros Hi. apply eq_true_iff_eq. rewrite nz_true, nonzero_bit. split.
  - intros (k & Hk & E). rewrite Z.land_spec, testbit_pow2 in E by done. apply andb_true_iff in E as [E E'].
    apply bool_decide_eq_true in E'. by subst.
  - intros E. exists i. split; [done|]. rewrite Z.land_spec, testbit_pow2, bool_decide_true by done. by rewrite E.
Qed.

Lemma mask_bit i k : 0 <= i < 64 -> 0 <= k -> Z.testbit (u64 (- Z.shiftl 1 i)) k = bool_decide (i <= k < 64).
Proof.
  intros Hi Hk. unfold wrap. case_bool_decide as E.
  - rewrite Z.mod_pow2_bits_low by lia. rewrite Z.shiftl_1_l, Z.bits_opp by done.
    replace (Z.pred (2 ^ i)) with (Z.ones i) by (rewrite Z.ones_equiv; done). by rewrite Z.ones_spec_high by lia.
  - destruct (Z.lt_ge_cases k 64); [|by rewrite Z.mod_pow2_bits_high by lia].
    rewrite Z.mod_pow2_bits_low by lia. rewrite Z.shiftl_1_l, Z.bits_opp by done.
    replace (Z.pred (2 ^ i)) with (Z.ones i) by (rewrite Z.ones_equiv; done). by rewrite Z.ones_spec_low by lia.
Qed.

(** [first_set] of the bins from [i] on is the first of them. *)
Lemma first_set_ok b i : 0 <= i < 64 ->
  let mask := Z.land b (u64 (- Z.shiftl 1 i)) in
  mask <> 0 -> i <= first_set mask < 64 /\ Z.testbit b (first_set mask) = true.
Proof.
  intros Hi mask Hm. destruct (trailing_exists mask Hm) as (c & Hc). unfold first_set. rewrite (trailing_ctz mask c Hc).
  destruct Hc as (Hc & m & E). assert (Ht : Z.testbit mask c = true).
  { rewrite E, Z.mul_comm, Z.mul_pow2_bits, Z.sub_diag by done. apply Z.testbit_odd_0. }
  unfold mask in Ht. rewrite Z.land_spec, mask_bit in Ht by done.
  apply andb_true_iff in Ht as [Ht Hr]. by apply bool_decide_eq_true in Hr.
Qed.

Lemma no_bins b i k : 0 <= i < 64 -> Z.land b (u64 (- Z.shiftl 1 i)) = 0 -> i <= k < 64 -> Z.testbit b k = false.
Proof.
  intros Hi H Hk. assert (E : Z.testbit (Z.land b (u64 (- Z.shiftl 1 i))) k = false) by (rewrite H; apply Z.bits_0).
  rewrite Z.land_spec, mask_bit, bool_decide_true, andb_true_r in E by lia. done.
Qed.

Definition clear_bit (b i : Z) : Z := Z.land b (u64 (Z.lnot (Z.shiftl 1 i))).
Definition set_bit (b i : Z) : Z := Z.lor b (Z.shiftl 1 i).

Lemma clear_bit_ok b i : map_ok b -> 0 <= i < 64 ->
  map_ok (clear_bit b i) /\ forall k, 0 <= k < 64 -> Z.testbit (clear_bit b i) k = Z.testbit b k && negb (bool_decide (k = i)).
Proof.
  intros Hb Hi. unfold clear_bit. split.
  - apply land_range; [lia|done|]. by apply wrap_range.
  - intros k Hk. rewrite Z.land_spec. f_equal. unfold wrap. rewrite Z.mod_pow2_bits_low by lia.
    by rewrite Z.lnot_spec, testbit_pow2 by lia.
Qed.

Lemma set_bit_ok b i : map_ok b -> 0 <= i < 64 ->
  map_ok (set_bit b i) /\ forall k, 0 <= k < 64 -> Z.testbit (set_bit b i) k = Z.testbit b k || bool_decide (k = i).
Proof.
  intros Hb Hi. unfold set_bit. split.
  - apply lor_range; [lia|done|]. rewrite Z.shiftl_1_l. split; [lia|]. apply Z.pow_lt_mono_r; lia.
  - intros k Hk. by rewrite Z.lor_spec, testbit_pow2 by lia.
Qed.

Lemma set_bit_same b i : 0 <= i -> Z.testbit b i = true -> set_bit b i = b.
Proof.
  intros Hi E. apply Z.bits_inj'. intros k Hk. unfold set_bit. rewrite Z.lor_spec, testbit_pow2 by done.
  case_bool_decide; subst; rewrite ?E, ?orb_false_r; done.
Qed.

(** * Pages *)
Lemma pow2_mask k x : 0 <= k < 64 -> 0 <= x < 2 ^ 64 -> Z.land (u64 x) (u64 (- 2 ^ k)) = x - x mod 2 ^ k.
Proof.
  intros Hk Hx. rewrite (wrap_small 64 x) by done. assert (Hp : 0 < 2 ^ k) by lia.
  replace (- 2 ^ k) with (Z.lnot (Z.ones k)) by (rewrite Z.ones_equiv; unfold Z.lnot; lia). unfold wrap.
  rewrite <- Z.land_ones, (Z.land_comm (Z.lnot _)), Z.land_assoc by lia.
  rewrite Z.land_ones, Z.mod_small, <- Z.ldiff_land, Z.ldiff_ones_r by lia.
  rewrite Z.shiftr_div_pow2, Z.shiftl_mul_pow2 by lia. pose proof (Z.div_mod x (2 ^ k)). lia.
Qed.

Lemma page_mask x : 0 <= x < 2 ^ 64 -> Z.land (u64 x) (u64 (- PAGE_SIZE)) = x - x mod PAGE_SIZE.
Proof. intros Hx. change PAGE_SIZE with (2 ^ 12). by apply pow2_mask. Qed.

(** A power of two is its own lowest bit. *)
Lemma pow2_alone k : 0 <= k < 64 -> Z.land (2 ^ k) (u64 (- 2 ^ k)) = 2 ^ k.
Proof.
  intros Hk. assert (0 < 2 ^ k < 2 ^ 64) by (split; [lia|apply Z.pow_lt_mono_r; lia]).
  pose proof (pow2_mask k (2 ^ k) Hk ltac:(lia)) as Hm. rewrite (wrap_small 64 (2 ^ k)), Z_mod_same_full in Hm by lia. lia.
Qed.

Lemma page_pad n : 0 <= n -> n + PAGE_SIZE < 2 ^ 64 -> let m := u64 (n + Z.land (u64 (- n)) (PAGE_SIZE - 1)) in
  n <= m < n + PAGE_SIZE /\ m mod PAGE_SIZE = 0.
Proof.
  intros Hn Hlt. change (PAGE_SIZE - 1) with (Z.ones 12). rewrite Z.land_ones by lia. change (2 ^ 12) with PAGE_SIZE.
  assert (E : (- n mod 2 ^ 64) mod PAGE_SIZE = - n mod PAGE_SIZE) by (unfold PAGE_SIZE; divmod).
  cbv zeta. unfold wrap. rewrite E. unfold PAGE_SIZE in *. rewrite (Z.mod_small _ (2 ^ 64)) by divmod. divmod.
Qed.

(** The chunk whose middle is given back is larger than [RECLAIM]. *)
Definition reclaim_ok (new n : Z) (rc : bool) : Prop := 0 <= new <= n /\ (rc = true -> RECLAIM < n).

Lemma reclaim_grown new n m rc : reclaim_ok new n rc -> 0 <= m -> n + m < 2 ^ 63 ->
  reclaim_ok new (n + m) (rc || reclaims new m).
Proof.
  intros [Hn Hrc] Hm Hlt. split; [lia|]. rewrite orb_true_iff. intros [E|E]; [specialize (Hrc E); lia|].
  unfold reclaims in E. apply andb_true_iff in E as [E _]. rewrite (wrap_small 64) in E by lia. apply Z.ltb_lt in E. lia.
Qed.
