(* ===== verification/Segments.v ===== *)
(** * Segments of the heap

    A segment is a run of chunks, each with its size and whether it is in use.  Here
    are the chunks of a segment with their addresses, the free ones of a bin, and the
    property that no two free chunks are neighbours. *)
From S2P Require Import Prelude IntOps Mman Chunks.

Definition blocks : Type := list (Z * bool).

Fixpoint total (bs : blocks) : Z := match bs with [] => 0 | (s, _) :: bs => s + total bs end.

(** The chunks in use, or the free ones: addresses and sizes. *)
Fixpoint chunks (inuse : bool) (c : Z) (bs : blocks) : list (Z * Z) :=
  match bs with
  | [] => []
  | (s, u) :: bs => (if eqb u inuse then [(c, s)] else []) ++ chunks inuse (c + s) bs
  end.

Definition segment : Type := Z * blocks.
Definition seg_chunks (inuse : bool) (sg : segment) : list (Z * Z) := chunks inuse sg.1 sg.2.
Definition heap_chunks (inuse : bool) (segs : list segment) : list (Z * Z) := concat (seg_chunks inuse <$> segs).

(** The end of a segment, where its last, empty chunk is. *)
Definition seg_end (sg : segment) : Z := sg.1 + total sg.2.

(** No two free chunks are neighbours. *)
Fixpoint apart (bs : blocks) : Prop :=
  match bs with
  | (_, false) :: (((_, u) :: _) as bs') => u = true /\ apart bs'
  | _ :: bs' => apart bs'
  | [] => True
  end.
Definition busy (o : option (Z * bool)) : Prop := match o with Some (_, u) => u = true | None => True end.

Definition seg_ok (sg : segment) : Prop :=
  0 < sg.1 /\ sg.1 mod 32 = 16 /\ Forall (fun b => good_size b.1) sg.2 /\ seg_end sg < 2 ^ 47 /\ apart sg.2.

(** The free chunks of bin [i] among the free chunks [F]. *)
Definition members (i : Z) (F : list (Z * Z)) : list Z := (filter (fun x => bin_index x.2 = i) F).*1.

(** The map of bins says which are not empty. *)
Definition binmap_ok (b : Z) (F : list (Z * Z)) : Prop :=
  map_ok b /\ forall i, 0 <= i < 64 -> Z.testbit b i = bool_decide (members i F <> []).

(** ** Segments split and joined *)
Lemma total_app b1 b2 : total (b1 ++ b2) = total b1 + total b2.
Proof. induction b1 as [|[s u] b1 IH]; cbn [total app]; [done|]. rewrite IH. lia. Qed.

Lemma total_cons s u b : total ((s, u) :: b) = s + total b.
Proof. done. Qed.

Lemma chunks_app u c b1 b2 : chunks u c (b1 ++ b2) = chunks u c b1 ++ chunks u (c + total b1) b2.
Proof.
  revert c. induction b1 as [|[s v] b1 IH]; intros c; cbn [chunks app total]; [by rewrite Z.add_0_r|].
  rewrite IH, <- app_assoc. by replace (c + s + total b1) with (c + (s + total b1)) by lia.
Qed.

Lemma chunks_cons u c s v bs : chunks u c ((s, v) :: bs) = (if eqb v u then [(c, s)] else []) ++ chunks u (c + s) bs.
Proof. done. Qed.

Lemma heap_chunks_cons u sg segs : heap_chunks u (sg :: segs) = seg_chunks u sg ++ heap_chunks u segs.
Proof. done. Qed.

#[export] Instance heap_chunks_perm u : Proper ((≡ₚ) ==> (≡ₚ)) (heap_chunks u).
Proof. intros l l' H. unfold heap_chunks. by rewrite H. Qed.

#[export] Instance members_perm i : Proper ((≡ₚ) ==> (≡ₚ)) (members i).
Proof. intros l l' H. unfold members. by rewrite H. Qed.

Lemma members_cons_eq c s F : members (bin_index s) ((c, s) :: F) = c :: members (bin_index s) F.
Proof. unfold members. by rewrite filter_cons_True. Qed.

Lemma members_cons_ne i c s F : i <> bin_index s -> members i ((c, s) :: F) = members i F.
Proof. intros H. unfold members. by rewrite filter_cons_False by naive_solver. Qed.

Lemma elem_of_members c i F : c ∈ members i F <-> exists s, (c, s) ∈ F /\ bin_index s = i.
Proof.
  unfold members. rewrite list_elem_of_fmap. split.
  - intros ([c' s] & -> & H). rewrite list_elem_of_filter in H. cbn in H. exists s. naive_solver.
  - intros (s & H & Hi). exists (c, s). rewrite list_elem_of_filter. by split.
Qed.

#[export] Instance binmap_ok_perm b : Proper ((≡ₚ) ==> iff) (binmap_ok b).
Proof.
  assert (Hd : forall F F', F ≡ₚ F' -> binmap_ok b F -> binmap_ok b F').
  { intros F F' HF [Hb H]. split; [done|]. intros i Hi. rewrite H by done. apply bool_decide_ext.
    assert (Hm : members i F ≡ₚ members i F') by by apply members_perm.
    split; intros Hn E; apply Hn; rewrite E in Hm; [by apply Permutation_nil_r in Hm|by apply Permutation_nil_l in Hm]. }
  intros F F' HF. split; apply Hd; [done|by symmetry].
Qed.

(** ** Free chunks apart *)
Lemma apart_app_used b1 s b2 : apart (b1 ++ (s, true) :: b2) <-> apart b1 /\ apart b2.
Proof.
  induction b1 as [|[s1 u1] b1 IH]; cbn [app]; [naive_solver|].
  destruct u1; [done|]. destruct b1 as [|[s2 u2] b1]; cbn in *; naive_solver.
Qed.

Lemma apart_cons_free s b : apart ((s, false) :: b) <-> busy (list.head b) /\ apart b.
Proof. destruct b as [|[s' u] b]; cbn; naive_solver. Qed.

Lemma apart_app_free b1 s b2 : apart (b1 ++ (s, false) :: b2) <-> apart b1 /\ busy (list.last b1) /\ busy (list.head b2) /\ apart b2.
Proof.
  induction b1 as [|[s1 u1] b1 IH]; cbn [app].
  - rewrite apart_cons_free. naive_solver.
  - destruct b1 as [|[s2 u2] b1]; cbn [app] in *.
    + cbn [list.last]. destruct u1; cbn [apart busy]; rewrite ?apart_cons_free; cbn; naive_solver.
    + rewrite last_cons_cons. destruct u1; cbn [apart] in *; naive_solver.
Qed.

Lemma apart_app b1 b2 : apart (b1 ++ b2) -> apart b1 /\ apart b2.
Proof.
  induction b1 as [|[s1 u1] b1 IH]; cbn [app]; [done|]. destruct u1; [done|].
  rewrite apart_cons_free. intros [Hb H]. destruct (IH H) as [H1 H2]. split; [|done].
  rewrite apart_cons_free. split; [|done]. by destruct b1.
Qed.

(** ** Where chunks are *)
Definition chunk_ok (x : Z * Z) : Prop := 0 < x.1 /\ x.1 mod 32 = 16 /\ good_size x.2 /\ x.1 + x.2 < 2 ^ 47.

Lemma blocks_nonneg bs : Forall (fun b => good_size b.1) bs -> 0 <= total bs /\ total bs mod 32 = 0.
Proof.
  induction 1 as [|[s u] bs [Hm Hs] _ IH]; cbn [total]; [done|]. cbn [fst] in *.
  split; [lia|]. divmod.
Qed.

Lemma chunks_ok u c bs : 0 < c -> c mod 32 = 16 -> Forall (fun b => good_size b.1) bs -> c + total bs < 2 ^ 47 ->
  Forall chunk_ok (chunks u c bs).
Proof.
  revert c. induction bs as [|[s v] bs IH]; intros c Hc Hm Hg He; cbn [chunks]; [done|].
  apply list.Forall_cons in Hg as [Hg Hgs]. cbn [fst total] in *. pose proof (blocks_nonneg bs Hgs). destruct Hg as [Hg Hs].
  apply list.Forall_app. split; [|apply IH; [lia|divmod|done|lia]].
  destruct (eqb v u); [|done]. apply list.Forall_singleton. unfold chunk_ok, good_size. cbn [fst snd]. lia.
Qed.

Lemma heap_chunks_ok u segs : Forall seg_ok segs -> Forall chunk_ok (heap_chunks u segs).
Proof.
  induction 1 as [|sg segs (H1 & H2 & H3 & H4 & _) _ IH]; [done|]. rewrite heap_chunks_cons. apply list.Forall_app.
  split; [|done]. by apply chunks_ok.
Qed.

(** ** The map of bins when a chunk goes or comes *)
Lemma binmap_remove b c n F : binmap_ok b ((c, n) :: F) -> good_size n ->
  binmap_ok (match members (bin_index n) F with [] => clear_bit b (bin_index n) | _ => b end) F.
Proof.
  intros [Hb H] Hn. pose proof (bin_index_range n Hn) as Hi.
  assert (Hk : forall k, 0 <= k < 64 -> k <> bin_index n -> Z.testbit b k = bool_decide (members k F <> [])).
  { intros k Hk Hne. rewrite H by done. by rewrite members_cons_ne. }
  destruct (clear_bit_ok b (bin_index n) Hb Hi) as [Hc Hbit].
  destruct (members (bin_index n) F) as [|d l] eqn:E; (split; [done|]); intros k Hkr.
  - rewrite Hbit by done. destruct (decide (k = bin_index n)) as [->|Hne].
    + rewrite E, bool_decide_eq_true_2, andb_false_r by done. symmetry. apply bool_decide_eq_false_2. intros Hf. by apply Hf.
    + rewrite (bool_decide_eq_false_2 (k = _)), andb_true_r by done. by apply Hk.
  - destruct (decide (k = bin_index n)) as [->|Hne]; [|by apply Hk].
    rewrite H, members_cons_eq, E by done. by rewrite !bool_decide_eq_true_2.
Qed.

Lemma binmap_add b c n F : binmap_ok b F -> good_size n -> binmap_ok (set_bit b (bin_index n)) ((c, n) :: F).
Proof.
  intros [Hb H] Hn. pose proof (bin_index_range n Hn) as Hi. destruct (set_bit_ok b (bin_index n) Hb Hi) as [Hs Hbit].
  split; [done|]. intros k Hk. rewrite Hbit by done. destruct (decide (k = bin_index n)) as [->|Hne].
  - rewrite members_cons_eq, !bool_decide_eq_true_2 by done. apply orb_true_r.
  - rewrite members_cons_ne, (bool_decide_eq_false_2 (k = _)), orb_false_r by done. by apply H.
Qed.

(** A chunk of the same bin may take the place of another. *)
Lemma binmap_replace b c n c' n' F : binmap_ok b ((c, n) :: F) -> bin_index n = bin_index n' -> binmap_ok b ((c', n') :: F).
Proof.
  intros [Hb H] E. split; [done|]. intros k Hk. rewrite H by done. destruct (decide (k = bin_index n)) as [->|Hne].
  - rewrite members_cons_eq, E, members_cons_eq. by rewrite !bool_decide_eq_true_2.
  - rewrite !members_cons_ne by congruence. done.
Qed.

(** ** A chunk in use and its free neighbours become one chunk *)
Lemma good_size_add n m : good_size n -> good_size m -> n + m < 2 ^ 63 -> good_size (n + m).
Proof. intros [H1 H2] [H3 H4] H. unfold good_size. divmod. Qed.

Lemma total_mid b1 b b2 : total (b1 ++ b :: b2) = total b1 + b.1 + total b2.
Proof. rewrite total_app. destruct b. cbn [total fst]. lia. Qed.

Lemma seg_ok_mid c0 b1 n b2 : seg_ok (c0, b1 ++ (n, true) :: b2) <->
  0 < c0 /\ c0 mod 32 = 16 /\ Forall (fun b => good_size b.1) b1 /\ good_size n /\ Forall (fun b => good_size b.1) b2 /\
  c0 + total b1 + n + total b2 < 2 ^ 47 /\ apart b1 /\ apart b2.
Proof.
  unfold seg_ok, seg_end. cbn [fst snd]. rewrite total_mid, list.Forall_app, list.Forall_cons, apart_app_used. cbn [fst].
  replace (c0 + (total b1 + n + total b2)) with (c0 + total b1 + n + total b2) by lia. tauto.
Qed.

Lemma chunks_mid u c0 b1 n v b2 : chunks u c0 (b1 ++ (n, v) :: b2) =
  chunks u c0 b1 ++ (if eqb v u then [(c0 + total b1, n)] else []) ++ chunks u (c0 + total b1 + n) b2.
Proof. by rewrite chunks_app, chunks_cons. Qed.

Lemma absorb_left c0 b1 m n b2 : seg_ok (c0, (b1 ++ [(m, false)]) ++ (n, true) :: b2) ->
  good_size m /\ n + m < 2 ^ 47 /\ seg_ok (c0, b1 ++ (n + m, true) :: b2) /\ busy (list.last b1) /\ c0 + total b1 + m < 2 ^ 47.
Proof.
  rewrite !seg_ok_mid. intros (H1 & H2 & H3 & H4 & H5 & H6 & H7 & H8). rewrite total_app in H6. cbn [total] in H6.
  apply list.Forall_app in H3 as [H3 H3']. apply list.Forall_cons in H3' as [H3' _]. cbn [fst] in H3'.
  apply apart_app_free in H7 as (H7 & H9 & _). pose proof (blocks_nonneg b1 H3). pose proof (blocks_nonneg b2 H5).
  assert (0 < n) by (destruct H4; lia). assert (0 < m) by (unfold good_size in H3'; lia).
  split; [done|]. split; [lia|]. split; [|split; [done|lia]].
  split; [done|]. split; [done|]. split; [done|]. split; [apply good_size_add; (done || lia)|]. split; [done|]. split; [lia|done].
Qed.

Lemma absorb_right c0 b1 n m b2 : seg_ok (c0, b1 ++ (n, true) :: (m, false) :: b2) ->
  good_size m /\ n + m < 2 ^ 47 /\ seg_ok (c0, b1 ++ (n + m, true) :: b2) /\ busy (list.head b2).
Proof.
  rewrite !seg_ok_mid. intros (H1 & H2 & H3 & H4 & H5 & H6 & H7 & H8). rewrite total_cons in H6.
  apply list.Forall_cons in H5 as [H5 H5']. cbn [fst] in H5. apply apart_cons_free in H8 as [H8 H9].
  pose proof (blocks_nonneg b1 H3). pose proof (blocks_nonneg b2 H5').
  assert (0 < n) by (destruct H4; lia). assert (0 < m) by (destruct H5; lia).
  split; [done|]. split; [lia|]. split; [|done].
  split; [done|]. split; [done|]. split; [done|]. split; [apply good_size_add; (done || lia)|]. split; [done|]. split; [lia|done].
Qed.

(** A chunk in use in a segment, with the free chunks [F] of this segment and the others
    ([G]) and the map of their bins. *)
Definition gap (c0 : Z) (b1 : blocks) (n : Z) (b2 : blocks) (G F : list (Z * Z)) (b : Z) : Prop :=
  seg_ok (c0, b1 ++ (n, true) :: b2) /\ F ≡ₚ chunks false c0 (b1 ++ (n, true) :: b2) ++ G /\ Forall chunk_ok F /\ binmap_ok b F.

Lemma gap_left c0 b1 m n b2 G F b : gap c0 (b1 ++ [(m, false)]) n b2 G F b ->
  good_size m /\ n + m < 2 ^ 47 /\ busy (list.last b1) /\ chunks true c0 (b1 ++ [(m, false)]) = chunks true c0 b1 /\
  exists F', F ≡ₚ (c0 + total b1, m) :: F' /\ forall b', binmap_ok b' F' -> gap c0 b1 (n + m) b2 G F' b'.
Proof.
  intros (Hok & HF & HFok & Hb). destruct (absorb_left _ _ _ _ _ Hok) as (Hm & Hnm & Hok' & Hbusy & Hlim).
  split; [done|]. split; [done|]. split; [done|]. split.
  { rewrite chunks_app, chunks_cons. cbn [eqb app chunks]. by rewrite app_nil_r. }
  assert (HF' : F ≡ₚ (c0 + total b1, m) :: chunks false c0 (b1 ++ (n + m, true) :: b2) ++ G).
  { rewrite HF, !chunks_mid, !total_app, total_cons. cbn [eqb app chunks total].
    replace (c0 + (total b1 + (m + 0)) + n) with (c0 + total b1 + (n + m)) by lia.
    rewrite <- !app_assoc. cbn [app]. by rewrite <- Permutation_middle. }
  exists (chunks false c0 (b1 ++ (n + m, true) :: b2) ++ G). split; [done|]. intros b' Hb'.
  split; [done|]. split; [done|]. split; [|done]. rewrite HF' in HFok. by apply list.Forall_cons in HFok as [_ HFok].
Qed.

Lemma gap_right c0 b1 n m b2 G F b : gap c0 b1 n ((m, false) :: b2) G F b ->
  good_size m /\ n + m < 2 ^ 47 /\ busy (list.head b2) /\
  chunks true (c0 + total b1 + n) ((m, false) :: b2) = chunks true (c0 + total b1 + (n + m)) b2 /\
  exists F', F ≡ₚ (c0 + total b1 + n, m) :: F' /\ forall b', binmap_ok b' F' -> gap c0 b1 (n + m) b2 G F' b'.
Proof.
  intros (Hok & HF & HFok & Hb). destruct (absorb_right _ _ _ _ _ Hok) as (Hm & Hnm & Hok' & Hbusy).
  split; [done|]. split; [done|]. split; [done|]. split.
  { rewrite chunks_cons. cbn [eqb app]. by replace (c0 + total b1 + n + m) with (c0 + total b1 + (n + m)) by lia. }
  assert (HF' : F ≡ₚ (c0 + total b1 + n, m) :: chunks false c0 (b1 ++ (n + m, true) :: b2) ++ G).
  { rewrite HF, !chunks_mid, chunks_cons. cbn [eqb app].
    replace (c0 + total b1 + n + m) with (c0 + total b1 + (n + m)) by lia.
    rewrite <- !app_assoc. cbn [app]. by rewrite <- Permutation_middle. }
  exists (chunks false c0 (b1 ++ (n + m, true) :: b2) ++ G). split; [done|]. intros b' Hb'.
  split; [done|]. split; [done|]. split; [|done]. rewrite HF' in HFok. by apply list.Forall_cons in HFok as [_ HFok].
Qed.

(** ** Finding a chunk in the heap *)
Lemma elem_of_chunks u c n c0 bs : (c, n) ∈ chunks u c0 bs -> exists b1 b2, bs = b1 ++ (n, u) :: b2 /\ c = c0 + total b1.
Proof.
  revert c0. induction bs as [|[m v] bs IH]; intros c0 H; cbn [chunks] in H; [by apply not_elem_of_nil in H|].
  apply elem_of_app in H as [H|H].
  - destruct (eqb v u) eqn:E; [|by apply not_elem_of_nil in H]. apply eqb_prop in E as ->.
    apply elem_of_cons in H as [H|H]; [|by apply not_elem_of_nil in H]. injection H as -> ->. exists [], bs. split; [done|]. cbn. lia.
  - destruct (IH _ H) as (b1 & b2 & -> & ->). exists ((m, v) :: b1), b2. split; [done|]. cbn [total]. lia.
Qed.

Lemma heap_focus u segs c n U : heap_chunks u segs ≡ₚ (c, n) :: U ->
  exists c0 b1 b2 segs', segs ≡ₚ (c0, b1 ++ (n, u) :: b2) :: segs' /\ c = c0 + total b1 /\
    U ≡ₚ chunks u c0 b1 ++ chunks u (c + n) b2 ++ heap_chunks u segs'.
Proof.
  intros H. assert (Hin : (c, n) ∈ heap_chunks u segs) by (rewrite H; apply elem_of_cons; by left).
  unfold heap_chunks in Hin. apply list_elem_of_In, List.in_concat in Hin as (l & Hl & Hin).
  apply list_elem_of_In, list_elem_of_fmap in Hl as ([c0 bs] & -> & Hsg). apply list_elem_of_In in Hin.
  unfold seg_chunks in Hin. cbn [fst snd] in Hin. apply elem_of_chunks in Hin as (b1 & b2 & -> & ->).
  apply elem_of_Permutation in Hsg as (segs' & Hsegs). exists c0, b1, b2, segs'. split; [done|]. split; [done|].
  rewrite Hsegs, heap_chunks_cons in H. unfold seg_chunks in H. cbn [fst snd] in H. rewrite chunks_mid in H.
  rewrite (eqb_reflx u) in H. cbn [app] in H. rewrite <- !app_assoc in H. cbn [app] in H.
  rewrite <- Permutation_middle in H. by apply Permutation_cons_inv in H.
Qed.

Lemma seg_ok_free c0 b1 n b2 : seg_ok (c0, b1 ++ (n, true) :: b2) -> busy (list.last b1) -> busy (list.head b2) ->
  seg_ok (c0, b1 ++ (n, false) :: b2).
Proof.
  rewrite seg_ok_mid. intros (H1 & H2 & H3 & H4 & H5 & H6 & H7 & H8) Hb1 Hb2. unfold seg_ok, seg_end. cbn [fst snd].
  rewrite total_mid, list.Forall_app, list.Forall_cons, apart_app_free. cbn [fst].
  split; [done|]. split; [done|]. split; [done|]. split; [lia|done].
Qed.

Lemma seg_end_mid c0 b1 b b2 : seg_end (c0, b1 ++ b :: b2) = c0 + (total b1 + b.1 + total b2).
Proof. unfold seg_end. cbn [fst snd]. by rewrite total_mid. Qed.

Lemma chunks_false_free c0 b1 n b2 : chunks false c0 (b1 ++ (n, false) :: b2) ≡ₚ (c0 + total b1, n) :: chunks false c0 (b1 ++ (n, true) :: b2).
Proof. rewrite !chunks_mid. cbn [eqb app]. by rewrite <- Permutation_middle. Qed.

Lemma seg_ok_split c0 b1 n m b2 : seg_ok (c0, b1 ++ (n + m, true) :: b2) -> good_size n -> good_size m ->
  seg_ok (c0, b1 ++ (n, true) :: (m, true) :: b2).
Proof.
  rewrite !seg_ok_mid. intros (H1 & H2 & H3 & H4 & H5 & H6 & H7 & H8) Hn Hm. rewrite total_cons.
  split; [done|]. split; [done|]. split; [done|]. split; [done|]. split; [by apply list.Forall_cons|]. split; [lia|done].
Qed.

Lemma mid_chunk_ok c0 b1 n b2 : seg_ok (c0, b1 ++ (n, true) :: b2) -> chunk_ok (c0 + total b1, n).
Proof.
  rewrite seg_ok_mid. intros (H1 & H2 & H3 & H4 & H5 & H6 & _). pose proof (blocks_nonneg b1 H3). pose proof (blocks_nonneg b2 H5).
  unfold chunk_ok. cbn [fst snd]. split; [lia|]. split; [divmod|]. split; [done|lia].
Qed.

(** ** New chunks at the end of a segment, and new segments *)
Lemma seg_ok_extend c0 bs n : seg_ok (c0, bs) -> good_size n -> seg_end (c0, bs) + n < 2 ^ 47 -> seg_ok (c0, bs ++ [(n, true)]).
Proof.
  intros (H1 & H2 & H3 & H4 & H5) Hn Hlt. apply seg_ok_mid. unfold seg_end in *. cbn [fst snd total] in *.
  split; [done|]. split; [done|]. split; [done|]. split; [done|]. split; [done|]. split; [lia|done].
Qed.

Lemma seg_ok_new c0 n : 0 < c0 -> c0 mod 32 = 16 -> good_size n -> c0 + n < 2 ^ 47 -> seg_ok (c0, [(n, true)]).
Proof.
  intros H1 H2 Hn Hlt. apply (seg_ok_mid c0 [] n []). cbn [total].
  split; [done|]. split; [done|]. split; [done|]. split; [done|]. split; [done|]. split; [lia|done].
Qed.

Lemma seg_ok_use c0 b1 n b2 : seg_ok (c0, b1 ++ (n, false) :: b2) -> seg_ok (c0, b1 ++ (n, true) :: b2) /\ busy (list.head b2).
Proof.
  intros (H1 & H2 & H3 & H4 & H5). unfold seg_ok, seg_end in *. cbn [fst snd] in *. rewrite total_mid, list.Forall_app, list.Forall_cons in *.
  rewrite apart_app_free in H5. rewrite apart_app_used. cbn [fst] in *. tauto.
Qed.

Lemma seg_ok_pretrim c0 b1 n m b2 : seg_ok (c0, b1 ++ (n + m, false) :: b2) -> good_size n -> good_size m ->
  seg_ok (c0, b1 ++ (n, true) :: (m, false) :: b2).
Proof.
  intros Hok Hn Hm. destruct (seg_ok_use _ _ _ _ Hok) as [Hok' Hb]. apply seg_ok_mid in Hok' as (H1 & H2 & H3 & H4 & H5 & H6 & H7 & H8).
  apply seg_ok_mid. rewrite total_cons, apart_cons_free.
  split; [done|]. split; [done|]. split; [done|]. split; [done|]. split; [by apply list.Forall_cons|]. split; [lia|done].
Qed.
