(* ===== verification/Malloc.v ===== *)
(** * The memory allocator ([malloc/malloc.c], [expand_heap.c], [calloc.c], [memalign.c], ...)

    The code, over a memory of words: chunks with their sizes before and after them,
    the bins of free chunks as rings through the chunks and through [mal] itself, the
    map of the bins that are not empty, and the two sources of memory, [brk] and
    [mmap].  The system calls are a parameter, the class [Pages].

    The program has one thread: [libc.threads_minus_1] is 0, so [lock] does nothing,
    [unlock] finds the lock word 0, and the loops that look again after taking a lock
    are given [fuel] turns. *)
From iris.proofmode Require Import proofmode.
From S2P Require Import Prelude IntOps Format Mman Seplog Chunks.
#[global] Open Scope prog_scope.

(** The system calls, on the state of the kernel and the memory. *)
Class Pages (K : Type) := {
  sys_brk : Z -> K * words -> Z * (K * words);
  sys_mmap : Z -> Z -> Z -> Z -> Z -> Z -> K * words -> Z * (K * words);
  sys_mremap : Z -> Z -> Z -> Z -> Z -> K * words -> Z * (K * words);
  sys_munmap : Z -> Z -> K * words -> Z * (K * words);
  sys_madvise : Z -> Z -> Z -> K * words -> Z * (K * words);
}.

(** * Static variables *)

(** [mal.binmap], [end] of [expand_heap], [brk] and [mmap_step] of [__expand_heap], and
    [errno]; the bins are words of memory, since chunks point to them. *)
Record statics (K : Type) := Statics {
  binmap : Z; heap_end : Z; brk : Z; mmap_step : Z; errno : Z; kernel : K;
}.
Arguments Statics {K} _ _ _ _ _ _.
Arguments binmap {K} _.
Arguments heap_end {K} _.
Arguments brk {K} _.
Arguments mmap_step {K} _.
Arguments errno {K} _.
Arguments kernel {K} _.

Definition set_binmap {K} (v : Z) (s : statics K) := Statics v (heap_end s) (brk s) (mmap_step s) (errno s) (kernel s).
Definition set_end {K} (v : Z) (s : statics K) := Statics (binmap s) v (brk s) (mmap_step s) (errno s) (kernel s).
Definition set_brk {K} (v : Z) (s : statics K) := Statics (binmap s) (heap_end s) v (mmap_step s) (errno s) (kernel s).
Definition set_step {K} (v : Z) (s : statics K) := Statics (binmap s) (heap_end s) (brk s) v (errno s) (kernel s).
Definition set_errno {K} (v : Z) (s : statics K) := Statics (binmap s) (heap_end s) (brk s) (mmap_step s) v (kernel s).
Definition set_kernel {K} (v : K) (s : statics K) := Statics (binmap s) (heap_end s) (brk s) (mmap_step s) (errno s) v.

(** * The code *)
Section malloc.
Context {K : Type} `{Pages K}.
(** The address of [mal], of [libc.auxv], and of a local variable of [__expand_heap]. *)
Context (mal auxv sp : Z).
Context (fuel : nat).
Local Abbreviation M := (prog (statics K)).

Definition when (b : bool) (e : M unit) : M unit := if b then e else ret tt.

(** A system call: the address or -1, and [errno]. *)
Definition os (f : K * words -> Z * option Z * (K * words)) : M Z := fun s m =>
  let '(r, e, (k, m)) := f (kernel s, m) in
  Some (r, match e with Some e => set_errno e | None => id end (set_kernel k s), m).

Definition CHUNK_SIZE (c : Z) : M Z := let! n := load (csize c) in ret (Z.land n (u64 (- 2))).
Definition CHUNK_PSIZE (c : Z) : M Z := let! n := load (psize c) in ret (Z.land n (u64 (- 2))).
Definition PREV_CHUNK (c : Z) : M Z := let! n := CHUNK_PSIZE c in ret (c - n).
Definition NEXT_CHUNK (c : Z) : M Z := let! n := CHUNK_SIZE c in ret (c + n).
Definition IS_MMAPPED (c : Z) : M bool := let! n := load (csize c) in ret (negb (nz (Z.land n C_INUSE))).

(** [&mal.bins[i].head - OVERHEAD]: the head and the tail of bin [i] are the fields
    [next] and [prev] of a chunk at this address. *)
Definition BIN_TO_CHUNK (i : Z) : Z := MEM_TO_CHUNK (mal + 8 + 24 * i + 8).
Definition head (i : Z) : Z := mal + 8 + 24 * i + 8.
Definition tail (i : Z) : Z := mal + 8 + 24 * i + 16.

Definition lock_bin (i : Z) : M unit :=
  let! h := load (head i) in
  when (h =? 0) (store (tail i) (BIN_TO_CHUNK i);; store (head i) (BIN_TO_CHUNK i)).

(** * Getting memory *)
Definition traverses_stack_p (old new : Z) : bool :=
  let len := Z.shiftl 8 20 in
  let meets b := let a := if len <? b then b - len else 0 in (a <? new) && (old <? b) in
  meets auxv || meets sp.

(** [__syscall(SYS_brk, a)] *)
Definition call_brk (a : Z) : M Z := fun s m =>
  let '(r, (k, m)) := sys_brk a (kernel s, m) in Some (u64 r, set_kernel k s, m).

(** [brk += -brk & PAGE_SIZE-1], for the first call *)
Definition init_brk : M unit :=
  let! b := get brk in
  when (b =? 0) (
    let! b := call_brk 0 in
    set (set_brk (u64 (b + Z.land (u64 (- b)) (PAGE_SIZE - 1))))).

(** Extending the heap in place, if there is room and [brk] agrees. *)
Definition extend_brk (n : Z) : M bool :=
  let! b := get brk in
  if (n <? u64 (SIZE_MAX - b)) && negb (traverses_stack_p b (u64 (b + n)))
  then let! r := call_brk (u64 (b + n)) in ret (r =? u64 (b + n))
  else ret false.

(** [__expand_heap]: the memory and its size, or 0. *)
Definition __expand_heap (n0 : Z) : M (Z * Z) :=
  if SIZE_MAX / 2 - PAGE_SIZE <? n0 then set (set_errno ENOMEM);; ret (0, n0)
  else
    let n := u64 (n0 + Z.land (u64 (- n0)) (PAGE_SIZE - 1)) in
    init_brk;;
    let! ok := extend_brk n in
    if (ok : bool) then
      let! b := get brk in
      set (set_brk (u64 (b + n)));;
      let! b := get brk in
      ret (u64 (b - n), n)
    else
      let! step := get mmap_step in
      if 64 <=? step / 2 then crash
      else
        let min := u64 (Z.shiftl PAGE_SIZE (step / 2)) in
        let n := if n <? min then min else n in
        let! area := os (mmap sys_mmap 0 n (Z.lor PROT_READ PROT_WRITE) (Z.lor MAP_PRIVATE MAP_ANON) (-1) 0) in
        if area =? MAP_FAILED then ret (0, n0)
        else let! step := get mmap_step in set (set_step (u32 (step + 1)));; ret (area, n).

(** [expand_heap]: a chunk in use of at least [n] bytes, at the end of the heap. *)
Definition expand_heap (n : Z) : M Z :=
  let n := u64 (n + SIZE_ALIGN) in
  let! (p, n) := __expand_heap n in
  if p =? 0 then ret 0
  else
    let! e := get heap_end in
    let! (p, n) :=
      (if p =? e then ret (p, n)
       else
         let n := u64 (n - SIZE_ALIGN) in
         let p := p + SIZE_ALIGN in
         store (psize (MEM_TO_CHUNK p)) (Z.lor 0 C_INUSE);;
         ret (p, n)) in
    set (set_end (p + n));;
    let! e := get heap_end in
    store (psize (MEM_TO_CHUNK e)) (Z.lor n C_INUSE);;
    store (csize (MEM_TO_CHUNK e)) (Z.lor 0 C_INUSE);;
    store (csize (MEM_TO_CHUNK p)) (Z.lor n C_INUSE);;
    ret (MEM_TO_CHUNK p).

(** * Taking chunks out of bins *)
Definition unbin (c i : Z) : M unit :=
  let! p := load (prev_ c) in
  let! q := load (next_ c) in
  when (p =? q) (let! b := get binmap in set (set_binmap (Z.land b (u64 (Z.lnot (Z.shiftl 1 i))))));;
  let! p := load (prev_ c) in
  let! q := load (next_ c) in
  store (next_ p) q;;
  let! q := load (next_ c) in
  let! p := load (prev_ c) in
  store (prev_ q) p;;
  let! n := load (csize c) in
  store (csize c) (Z.lor n C_INUSE);;
  let! c' := NEXT_CHUNK c in
  let! n := load (psize c') in
  store (psize c') (Z.lor n C_INUSE).

(** Taking the chunk at [c], or the one before it, if it is free. *)
Fixpoint alloc_fwd (fuel : nat) (c : Z) : M bool :=
  match fuel with
  | O => crash
  | S fuel =>
      let! k := load (csize c) in
      if nz (Z.land k C_INUSE) then ret false
      else
        let i := bin_index k in
        lock_bin i;;
        let! k' := load (csize c) in
        if k' =? k then unbin c i;; ret true
        else alloc_fwd fuel c
  end.

Fixpoint alloc_rev (fuel : nat) (c : Z) : M bool :=
  match fuel with
  | O => crash
  | S fuel =>
      let! k := load (psize c) in
      if nz (Z.land k C_INUSE) then ret false
      else
        let i := bin_index k in
        lock_bin i;;
        let! k' := load (psize c) in
        if k' =? k then let! c' := PREV_CHUNK c in unbin c' i;; ret true
        else alloc_rev fuel c
  end.

(** * Freeing *)

(** One neighbour has been taken: its size is added. *)
Definition grown (new_size size final_size : Z) (reclaim : bool) : Z * bool :=
  (u64 (final_size + size), reclaim || reclaims new_size size).

(** One turn of the loop of [free] takes the chunk before, and the chunk after. *)
Definition merge_rev (self new_size final_size : Z) (reclaim : bool) : M (Z * Z * bool) :=
  let! b := alloc_rev fuel self in
  if (b : bool) then
    let! self := PREV_CHUNK self in
    let! size := CHUNK_SIZE self in
    let '(final_size, reclaim) := grown new_size size final_size reclaim in
    ret (self, final_size, reclaim)
  else ret (self, final_size, reclaim).

Definition merge_fwd (next new_size final_size : Z) (reclaim : bool) : M (Z * Z * bool) :=
  let! b := alloc_fwd fuel next in
  if (b : bool) then
    let! size := CHUNK_SIZE next in
    let '(final_size, reclaim) := grown new_size size final_size reclaim in
    let! next := NEXT_CHUNK next in
    ret (next, final_size, reclaim)
  else ret (next, final_size, reclaim).

(** The loop of [free]: merge with free neighbours until there are none. *)
Fixpoint free_loop (turns : nat) (self next new_size final_size : Z) (reclaim : bool) : M (Z * Z * Z * bool * Z) :=
  match turns with
  | O => crash
  | S turns =>
      let! p := load (psize self) in
      let! n := load (csize next) in
      let! stop :=
        (if nz (Z.land (Z.land p n) C_INUSE) then
           store (csize self) (Z.lor final_size C_INUSE);;
           store (psize next) (Z.lor final_size C_INUSE);;
           let i := bin_index final_size in
           lock_bin i;;
           let! p := load (psize self) in
           let! n := load (csize next) in
           ret (if nz (Z.land (Z.land p n) C_INUSE) then Some i else None)
         else ret None) in
      match stop with
      | Some i => ret (self, next, final_size, reclaim, i)
      | None =>
          let! (self, final_size, reclaim) := merge_rev self new_size final_size reclaim in
          let! (next, final_size, reclaim) := merge_fwd next new_size final_size reclaim in
          free_loop turns self next new_size final_size reclaim
      end
  end.

(** The end of [free]: the merged chunk goes to the end of its bin. *)
Definition bin_chunk (self next final_size : Z) (reclaim : bool) (i : Z) : M unit :=
  let! b := get binmap in
  when (negb (nz (Z.land b (Z.shiftl 1 i)))) (let! b := get binmap in set (set_binmap (Z.lor b (Z.shiftl 1 i))));;
  store (csize self) final_size;;
  store (psize next) final_size;;
  store (next_ self) (BIN_TO_CHUNK i);;
  let! t := load (tail i) in
  store (prev_ self) t;;
  let! q := load (next_ self) in
  store (prev_ q) self;;
  let! p := load (prev_ self) in
  store (next_ p) self;;
  when reclaim (
    let a := Z.land (u64 (self + SIZE_ALIGN + PAGE_SIZE - 1)) (u64 (- PAGE_SIZE)) in
    let b := Z.land (u64 (next - SIZE_ALIGN)) (u64 (- PAGE_SIZE)) in
    os (madvise sys_madvise a (u64 (b - a)) MADV_DONTNEED);; ret tt).

Definition free (p : Z) : M unit :=
  if p =? 0 then ret tt
  else
    let self := MEM_TO_CHUNK p in
    let! mapped := IS_MMAPPED self in
    if (mapped : bool) then
      let! extra := load (psize self) in
      let base := self - extra in
      let! n := CHUNK_SIZE self in
      let len := u64 (n + extra) in
      if nz (Z.land extra 1) then crash
      else os (munmap sys_munmap base len);; ret tt
    else
      let! new_size := CHUNK_SIZE self in
      let! next := NEXT_CHUNK self in
      let! f := load (psize next) in
      let! h := load (csize self) in
      if negb (f =? h) then crash
      else
        let! (self, next, final_size, reclaim, i) := free_loop fuel self next new_size new_size false in
        bin_chunk self next final_size reclaim i.

(** * Allocating *)

(** [pretrim]: split a free chunk of bin [j] that stays in its bin. *)
Definition pretrim (self n i j : Z) : M bool :=
  if j <? 40 then ret false
  else
    let! n1 := CHUNK_SIZE self in
    if (j <? i + 3) && (negb (j =? 63) || (u64 (n1 - n) <=? MMAP_THRESHOLD)) then ret false
    else if negb (bin_index (u64 (n1 - n)) =? j) then ret false
    else
      let! next := NEXT_CHUNK self in
      let split := self + n in
      let! p := load (prev_ self) in
      store (prev_ split) p;;
      let! q := load (next_ self) in
      store (next_ split) q;;
      let! p := load (prev_ split) in
      store (next_ p) split;;
      let! q := load (next_ split) in
      store (prev_ q) split;;
      store (psize split) (Z.lor n C_INUSE);;
      store (csize split) (u64 (n1 - n));;
      store (psize next) (u64 (n1 - n));;
      store (csize self) (Z.lor n C_INUSE);;
      ret true.

(** [trim]: free what a chunk has too much. *)
Definition trim (self n : Z) : M unit :=
  let! n1 := CHUNK_SIZE self in
  if u64 (n1 - DONTCARE) <=? n then ret tt
  else
    let! next := NEXT_CHUNK self in
    let split := self + n in
    store (psize split) (Z.lor n C_INUSE);;
    store (csize split) (Z.lor (u64 (n1 - n)) C_INUSE);;
    store (psize next) (Z.lor (u64 (n1 - n)) C_INUSE);;
    store (csize self) (Z.lor n C_INUSE);;
    free (CHUNK_TO_MEM split).

(** No bin has a chunk that is large enough: new memory, and the free chunk before it. *)
Definition new_chunk (n : Z) : M Z :=
  let! c := expand_heap n in
  if c =? 0 then ret 0
  else
    let! b := alloc_rev fuel c in
    if (b : bool) then
      let x := c in
      let! c := PREV_CHUNK c in
      let! m := load (csize x) in
      let! k := CHUNK_SIZE c in
      store (csize c) (u64 (m + k));;
      let! f := NEXT_CHUNK x in
      let! v := load (csize c) in
      store (psize f) v;;
      ret c
    else ret c.

(** The loop of [malloc]: a chunk of at least [n] bytes, from a bin or from new
    memory, or 0. *)
Fixpoint find_chunk (turns : nat) (n i : Z) : M Z :=
  match turns with
  | O => crash
  | S turns =>
      let! b := get binmap in
      let mask := Z.land b (u64 (- Z.shiftl 1 i)) in
      if negb (nz mask) then new_chunk n
      else
        let j := first_set mask in
        lock_bin j;;
        let! c := load (head j) in
        if negb (c =? BIN_TO_CHUNK j) then
          let! b := pretrim c n i j in
          when (negb b) (unbin c j);;
          ret c
        else find_chunk turns n i
  end.

Definition malloc (n : Z) : M Z :=
  match adjust_size n with
  | None => set (set_errno ENOMEM);; ret 0
  | Some n =>
      if MMAP_THRESHOLD <? n then
        let len := Z.land (u64 (n + OVERHEAD + PAGE_SIZE - 1)) (u64 (- PAGE_SIZE)) in
        let! base := os (mmap sys_mmap 0 len (Z.lor PROT_READ PROT_WRITE) (Z.lor MAP_PRIVATE MAP_ANON) (-1) 0) in
        if base =? u64 (-1) then ret 0
        else
          let c := base + SIZE_ALIGN - OVERHEAD in
          store (csize c) (u64 (len - (SIZE_ALIGN - OVERHEAD)));;
          store (psize c) (SIZE_ALIGN - OVERHEAD);;
          ret (CHUNK_TO_MEM c)
      else
        let! c := find_chunk fuel n (bin_index_up n) in
        if c =? 0 then ret 0
        else trim c n;; ret (CHUNK_TO_MEM c)
  end.

(** The loop of [__malloc0]: words that are not 0 become 0. *)
Fixpoint zero_words (n : nat) (z : Z) : M unit :=
  match n with
  | O => ret tt
  | S n => let! v := load z in when (nz v) (store z 0);; zero_words n (z + 8)
  end.

Definition __malloc0 (n : Z) : M Z :=
  let! p := malloc n in
  if nz p then
    let! b := IS_MMAPPED (MEM_TO_CHUNK p) in
    when (negb b) (zero_words (Z.to_nat (u64 (n + 8 - 1) / 8)) p);;
    ret p
  else ret p.

Definition calloc (m n : Z) : M Z :=
  if nz n && (SIZE_MAX / n <? m) then set (set_errno ENOMEM);; ret 0
  else __malloc0 (u64 (n * m)).

(** [memcpy] of a whole number of words. *)
Fixpoint copy_words (n : nat) (dest src : Z) : M unit :=
  match n with
  | O => ret tt
  | S n => let! v := load src in store dest v;; copy_words n (dest + 8) (src + 8)
  end.

(** [copy_realloc]: a new chunk, and a copy. *)
Definition copy_realloc (self p n n0 : Z) : M Z :=
  let! new := malloc (u64 (n - OVERHEAD)) in
  if new =? 0 then ret 0
  else copy_words (Z.to_nat (u64 (n0 - OVERHEAD) / 8)) new p;; free (CHUNK_TO_MEM self);; ret new.

Definition realloc (p n : Z) : M Z :=
  if p =? 0 then malloc n
  else match adjust_size n with
  | None => set (set_errno ENOMEM);; ret 0
  | Some n =>
      let self := MEM_TO_CHUNK p in
      let! n0 := CHUNK_SIZE self in
      let! mapped := IS_MMAPPED self in
      if (mapped : bool) then
        let! extra := load (psize self) in
        let base := self - extra in
        let oldlen := u64 (n0 + extra) in
        let newlen := u64 (n + extra) in
        if nz (Z.land extra 1) then crash
        else
          let! new := (if newlen <? PAGE_SIZE then malloc n else ret 0) in
          if nz new then
            copy_words (Z.to_nat (u64 (n - OVERHEAD) / 8)) new p;; free p;; ret new
          else
            let newlen := Z.land (u64 (newlen + PAGE_SIZE - 1)) (u64 (- PAGE_SIZE)) in
            if oldlen =? newlen then ret p
            else
              let! base := os (mremap sys_mremap base oldlen newlen MREMAP_MAYMOVE 0) in
              if base =? u64 (-1) then copy_realloc self p n n0
              else
                let self := base + extra in
                store (csize self) (u64 (newlen - extra));;
                ret (CHUNK_TO_MEM self)
      else
        let! next := NEXT_CHUNK self in
        let! f := load (psize next) in
        let! h := load (csize self) in
        if negb (f =? h) then crash
        else
          let! (n1, next) :=
            (if n0 <? n then
               let! b := alloc_fwd fuel next in
               if (b : bool) then
                 let! k := CHUNK_SIZE next in
                 let! next := NEXT_CHUNK next in
                 ret (u64 (n0 + k), next)
               else ret (n0, next)
             else ret (n0, next)) in
          store (csize self) (Z.lor n1 C_INUSE);;
          store (psize next) (Z.lor n1 C_INUSE);;
          if n <=? n1 then trim self n;; ret (CHUNK_TO_MEM self)
          else copy_realloc self p n n0
  end.

(** * Aligned memory *)
Definition __memalign (align len : Z) : M Z :=
  if negb (Z.land align (u64 (- align)) =? align) then set (set_errno Format.EINVAL);; ret 0
  else if SIZE_MAX - align <? len then set (set_errno ENOMEM);; ret 0
  else if align <=? 4 * 8 then malloc len
  else
    let! mem := malloc (u64 (len + align - 1)) in
    if mem =? 0 then ret 0
    else
      let new := Z.land (u64 (mem + align - 1)) (u64 (- align)) in
      if new =? mem then ret mem
      else
        let! header := load (mem - 8) in
        if negb (nz (Z.land header 7)) then
          let! e := load (mem - 16) in
          store (new - 16) (u64 (e + (new - mem)));;
          let! h := load (mem - 8) in
          store (new - 8) (u64 (h - (new - mem)));;
          ret new
        else
          let end_ := mem + Z.land header (u64 (- 8)) in
          let! footer := load (end_ - 16) in
          store (mem - 8) (Z.lor (Z.land header 7) (new - mem));;
          store (new - 16) (Z.lor (Z.land footer 7) (new - mem));;
          store (new - 8) (Z.lor (Z.land header 7) (end_ - new));;
          store (end_ - 16) (Z.lor (Z.land footer 7) (end_ - new));;
          free mem;;
          ret new.

Definition aligned_alloc (align len : Z) : M Z := __memalign align len.

(** [posix_memalign]: the error number, and what is stored in [*res]. *)
Definition posix_memalign (align len : Z) : M (Z * option Z) :=
  if align <? 8 then ret (Format.EINVAL, None)
  else
    let! mem := __memalign align len in
    if mem =? 0 then let! e := get errno in ret (e, None)
    else ret (0, Some mem).

Definition malloc_usable_size (p : Z) : M Z :=
  if nz p then let! n := CHUNK_SIZE (MEM_TO_CHUNK p) in ret (u64 (n - OVERHEAD)) else ret 0.
End malloc.
