(* ===== verification/MallocHeap.v ===== *)
(** * The heap of the allocator

    What the words of the heap mean: segments of chunks with boundary tags, rings of
    free chunks through the bins, and the words that no chunk uses. *)
From iris.proofmode Require Import proofmode.
From S2P Require Import Prelude IntOps Mman Seplog Chunks Segments Malloc.

(** * Words without a meaning *)
Definition junk (a n : Z) : heapProp := (∃ vs : list Z, ⌜n = (8 * Z.of_nat (length vs))%Z⌝ ∗ array a vs)%I.

Lemma junk_size a n : junk a n ⊢ ⌜0 <= n /\ n mod 8 = 0⌝.
Proof. iIntros "(%vs & -> & _)". iPureIntro. split; [lia|]. by rw Z.mul_comm Z_mod_mult. Qed.

Lemma junk_split a n m : 0 <= n -> n mod 8 = 0 -> 0 <= m -> junk a (n + m) ⊣⊢ junk a n ∗ junk (a + n) m.
Proof.
  intros Hn Hm Hm0. iSplit.
  - iIntros "(%vs & %E & H)". rw -(take_drop (Z.to_nat (n / 8)) vs) array_app.
    assert (Hl : 8 * Z.of_nat (length (take (Z.to_nat (n / 8)) vs)) = n) by (rw length_take; divmod).
    rw Hl. iDestruct "H" as "[H1 H2]". iSplitL "H1"; iExists _; iFrame; iPureIntro; [done|].
    rw length_drop. divmod.
  - iIntros "[(%vs & -> & H1) (%ws & -> & H2)]". iExists (vs ++ ws). rw array_app. iFrame.
    iPureIntro. rw length_app. lia.
Qed.

Lemma junk_one a : junk a 8 ⊣⊢ ∃ v, a ↦ v.
Proof.
  iSplit.
  - iIntros "(%vs & %E & H)". destruct vs as [|v [|]]; cbn in E; [lia| |lia].
    rw array_cons. iDestruct "H" as "[H _]". by iExists v.
  - iIntros "(%v & H)". iExists [v]. rw array_cons array_nil. by iFrame.
Qed.

Lemma junk_nil a : emp ⊢ junk a 0.
Proof. iIntros "_". iExists []. rw array_nil. by iSplit. Qed.

Lemma junk_cons a n : 0 <= n -> junk a (8 + n) ⊣⊢ (∃ v, a ↦ v) ∗ junk (a + 8) n.
Proof. intros Hn. rw junk_split; [|done..]. by rw junk_one. Qed.

Lemma junk_pair a : junk a 16 ⊣⊢ (∃ v, a ↦ v) ∗ (∃ v, (a + 8) ↦ v).
Proof. change 16 with (8 + 8). by rw junk_cons // junk_one. Qed.

Lemma array_junk a vs : array a vs ⊢ junk a (8 * Z.of_nat (length vs)).
Proof. iIntros "H". iExists vs. by iFrame. Qed.

(** * Rings *)

(** [x->next = y] and [y->prev = x]; a path of such links through the chunks [l]. *)
Definition link (x y : Z) : heapProp := ((x + 16) ↦ y ∗ (y + 24) ↦ x)%I.
Fixpoint path (x : Z) (l : list Z) (y : Z) : heapProp :=
  match l with [] => link x y | z :: l => link x z ∗ path z l y end%I.

Lemma path_app x l1 z l2 y : path x (l1 ++ z :: l2) y ⊣⊢ path x l1 z ∗ path z l2 y.
Proof.
  revert x. induction l1 as [|w l1 IH]; intros x; cbn [app path]; [done|]. by rw IH assoc.
Qed.

Lemma path_snoc x l z y : path x (l ++ [z]) y ⊣⊢ path x l z ∗ link z y.
Proof. by rw path_app. Qed.

Definition at_end (x : Z) (l : list Z) : Z := default x (list.last l).
Definition at_start (l : list Z) (y : Z) : Z := default y (list.head l).

(** A path cut at one of its links. *)
Fixpoint front (x : Z) (l : list Z) : heapProp :=
  match l with [] => emp | z :: l => link x z ∗ front z l end%I.
Definition back (l : list Z) (y : Z) : heapProp := match l with [] => emp | z :: l => path z l y end%I.

Lemma at_end_cons x w l : at_end x (w :: l) = at_end w l.
Proof. unfold at_end. destruct l as [|z l]; [done|]. rw last_cons_cons. by destruct (list.last (z :: l)) eqn:E; [|by apply last_None in E]. Qed.

Lemma path_cut x l1 l2 y : path x (l1 ++ l2) y ⊣⊢ front x l1 ∗ link (at_end x l1) (at_start l2 y) ∗ back l2 y.
Proof.
  revert x. induction l1 as [|w l1 IH]; intros x; cbn [app front].
  - rw left_id. destruct l2 as [|z l2]; cbn [path back at_start list.head]; [by rw right_id|done].
  - cbn [path]. by rw IH at_end_cons assoc.
Qed.

Lemma path_last x l y : path x l y ⊣⊢ front x l ∗ link (at_end x l) y.
Proof. rw -{1}(app_nil_r l) path_cut. cbn [back]. by rw right_id. Qed.

Lemma path_first x l y : path x l y ⊣⊢ link x (at_start l y) ∗ back l y.
Proof. rw -(app_nil_l l) path_cut. cbn [front app]. by rw left_id. Qed.

(** The neighbours of a chunk of a ring are the same only when it is alone. *)
Lemma ring_alone b l1 c l2 : path b l1 c ∗ path c l2 b ⊢ ⌜at_end b l1 = at_start l2 b <-> l1 ++ l2 = []⌝.
Proof.
  iIntros "[H1 H2]". destruct l1 as [|w l1 _] using rev_ind; destruct l2 as [|z l2]; unfold at_end, at_start; cbn [list.head].
  - done.
  - iDestruct "H1" as "[H1 _]". iDestruct "H2" as "[_ H2]". iDestruct (path_first with "H2") as "[[H2 _] _]".
    iDestruct (pointsto_distinct with "H1 H2") as %Hd. iPureIntro. cbn. split; [intros ->; by destruct Hd|done].
  - rw last_snoc path_snoc. iDestruct "H1" as "[H1 [Hw _]]". iDestruct (path_first with "H1") as "[[H1 _] _]".
    iDestruct (pointsto_distinct with "H1 Hw") as %Hd. iPureIntro. cbn. split; [intros <-; by destruct Hd|by destruct l1].
  - rw last_snoc path_snoc. iDestruct "H1" as "[_ [Hw _]]". iDestruct "H2" as "[_ H2]".
    iDestruct (path_first with "H2") as "[[H2 _] _]".
    iDestruct (pointsto_distinct with "Hw H2") as %Hd. iPureIntro. cbn. split; [intros ->; by destruct Hd|by destruct l1].
Qed.

(** * Chunks, segments and bins *)

(** The word after and before a chunk: its size and whether it is in use. *)
Definition tag (b : Z * bool) : Z := b.1 + b2z b.2.
Definition edge (o : option (Z * bool)) : Z := match o with Some b => tag b | None => 1 end.

(** A chunk: both tags, and what a free one has after its links. *)
Definition block (c : Z) (b : Z * bool) : heapProp :=
  ((c + 8) ↦ tag b ∗ (c + b.1) ↦ tag b ∗ (if b.2 then emp else junk (c + 32) (b.1 - 32)))%I.
Fixpoint run (c : Z) (bs : blocks) : heapProp :=
  match bs with [] => emp | b :: bs => block c b ∗ run (c + b.1) bs end%I.

(** A segment up to a chunk, and from it on. *)
Definition left (c0 : Z) (bs : blocks) : heapProp := (c0 ↦ 1 ∗ run c0 bs)%I.
Definition right (c : Z) (bs : blocks) : heapProp := (run c bs ∗ (c + total bs + 8) ↦ 1)%I.
Definition seg (sg : segment) : heapProp := (left sg.1 sg.2 ∗ (seg_end sg + 8) ↦ 1)%I.

Lemma run_app c b1 b2 : run c (b1 ++ b2) ⊣⊢ run c b1 ∗ run (c + total b1) b2.
Proof.
  revert c. induction b1 as [|[s u] b1 IH]; intros c; cbn [app run total].
  - by rw Z.add_0_r left_id.
  - rw IH assoc. cbn [fst]. by replace (c + (s + total b1)) with (c + s + total b1) by lia.
Qed.

Lemma seg_split c0 b1 b2 : seg (c0, b1 ++ b2) ⊣⊢ left c0 b1 ∗ right (c0 + total b1) b2.
Proof.
  unfold seg, left, right, seg_end. cbn [fst snd]. rw run_app total_app.
  replace (c0 + total b1 + total b2 + 8) with (c0 + (total b1 + total b2) + 8) by lia.
  iSplit; iIntros "[[H1 H2] H3]"; iFrame; iAssumption.
Qed.

Lemma left_snoc c0 b1 b : left c0 (b1 ++ [b]) ⊣⊢ left c0 b1 ∗ block (c0 + total b1) b.
Proof. unfold left. rw run_app. cbn [run]. by rw right_id assoc. Qed.

Lemma right_cons c b bs : right c (b :: bs) ⊣⊢ block c b ∗ right (c + b.1) bs.
Proof.
  unfold right. cbn [run]. destruct b as [s u]. cbn [total fst].
  replace (c + (s + total bs) + 8) with (c + s + total bs + 8) by lia. by rw assoc.
Qed.

Lemma left_edge c0 bs : left c0 bs ⊢ (c0 + total bs) ↦ edge (list.last bs) ∗
  ((c0 + total bs) ↦ edge (list.last bs) -∗ left c0 bs).
Proof.
  destruct bs as [|b bs _] using rev_ind.
  - unfold left. cbn [total run list.last edge]. rw Z.add_0_r. iIntros "[H _]". iFrame. iIntros "H". by iFrame.
  - rw left_snoc last_snoc total_app. destruct b as [s u]. cbn [total edge].
    replace (c0 + (total bs + (s + 0))) with (c0 + total bs + s) by lia.
    unfold block. cbn [fst snd]. iIntros "(H1 & H2 & H3 & H4)". iFrame. iIntros "H". iFrame.
Qed.

Lemma right_edge c bs : right c bs ⊢ (c + 8) ↦ edge (list.head bs) ∗ ((c + 8) ↦ edge (list.head bs) -∗ right c bs).
Proof.
  destruct bs as [|b bs].
  - unfold right. cbn [total run list.head edge]. rw Z.add_0_r. iIntros "[_ H]". iFrame. iIntros "H". by iFrame.
  - rw right_cons. cbn [list.head edge]. unfold block. iIntros "((H1 & H2 & H3) & H4)". iFrame. iIntros "H". iFrame.
Qed.

Section bins.
Context (mal : Z).

(** A bin, before it is used for the first time or as a ring. *)
Definition bin (i : Z) (l : list Z) : heapProp :=
  ((⌜l = []⌝ ∗ head mal i ↦ 0 ∗ tail mal i ↦ 0) ∨ path (BIN_TO_CHUNK mal i) l (BIN_TO_CHUNK mal i))%I.
Definition binned (i : Z) (L : list Z) : heapProp := (∃ l, ⌜l ≡ₚ L⌝ ∗ bin i l)%I.

Definition all_bins : gset Z := list_to_set (seqZ 0 64).
Definition bins (F : list (Z * Z)) : heapProp := ([∗ set] i ∈ all_bins, binned i (members i F))%I.
Definition bins_but (j : Z) (F : list (Z * Z)) : heapProp := ([∗ set] i ∈ all_bins ∖ {[j]}, binned i (members i F))%I.

#[export] Instance binned_perm i : Proper ((≡ₚ) ==> (⊣⊢)) (binned i).
Proof.
  intros L L' HL. unfold binned. apply bi.exist_proper. intros l. f_equiv. apply bi.pure_proper.
  split; intros E; etrans; [exact E|done|exact E|by symmetry].
Qed.

#[export] Instance bins_perm : Proper ((≡ₚ) ==> (⊣⊢)) bins.
Proof. intros F F' HF. unfold bins. apply big_sepS_proper. intros i _. by rw HF. Qed.

#[export] Instance bins_but_perm j : Proper ((≡ₚ) ==> (⊣⊢)) (bins_but j).
Proof. intros F F' HF. unfold bins_but. apply big_sepS_proper. intros i _. by rw HF. Qed.

Lemma bins_reorder F F' : F ≡ₚ F' -> bins F ⊢ bins F'.
Proof. intros HF. by rw (bins_perm F F' HF). Qed.

Lemma elem_of_all_bins i : i ∈ all_bins <-> 0 <= i < 64.
Proof. unfold all_bins. rw elem_of_list_to_set elem_of_seqZ. lia. Qed.

Lemma bins_split j F : 0 <= j < 64 -> bins F ⊣⊢ binned j (members j F) ∗ bins_but j F.
Proof.
  intros Hj. unfold bins, bins_but. apply (big_sepS_delete (fun i => binned i (members i F))).
  by apply elem_of_all_bins.
Qed.

(** The other bins do not see a change of one. *)
Lemma bins_but_cons c s F : bins_but (bin_index s) ((c, s) :: F) ⊣⊢ bins_but (bin_index s) F.
Proof.
  unfold bins_but. apply big_sepS_proper. intros i Hi. rw members_cons_ne; [done|]. set_solver.
Qed.

Lemma bins_cons c n F l : 0 <= bin_index n < 64 -> l ≡ₚ c :: members (bin_index n) F ->
  path (BIN_TO_CHUNK mal (bin_index n)) l (BIN_TO_CHUNK mal (bin_index n)) -∗ bins_but (bin_index n) F -∗ bins ((c, n) :: F).
Proof.
  iIntros (Hn Hl) "Hp HB". iApply (bins_split (bin_index n)); [done|]. rw bins_but_cons members_cons_eq. iFrame. by iPureIntro.
Qed.
End bins.
