(* ===== verification/MallocOps.v ===== *)
(** * The inner operations of the allocator *)
From iris.proofmode Require Import proofmode.
From S2P Require Import Prelude IntOps Mman Seplog Chunks Segments Malloc MallocHeap.

(** One step of a program: reading and writing a word that is owned, or a static
    variable. *)
Ltac ld H := iApply wp_seq; iApply (wp_load with H); iIntros H.
Ltac st H := iApply wp_seq; iApply (wp_store with H); iIntros H.
Ltac val := iApply wp_seq; iApply wp_ret; cbv beta.
Ltac rd := iApply wp_seq; iApply wp_get; cbv beta.
Ltac up := iApply wp_seq; iApply wp_set; cbv beta.

Section ops.
Context {K : Type} `{Pages K} (mal : Z) (Hmal : 0 < mal).
Implicit Types (s : statics K).

Lemma wp_CHUNK_SIZE c (b : Z * bool) s Φ : good_size b.1 ->
  (c + 8) ↦ tag b -∗ ((c + 8) ↦ tag b -∗ Φ b.1 s) -∗ wp (S := statics K) (CHUNK_SIZE c) s Φ.
Proof.
  iIntros ([Hm Hs]) "H HΦ". unfold CHUNK_SIZE, csize. ld "H". iApply wp_ret. destruct b as [n u]. unfold tag. cbn [fst snd] in *.
  rw size_mask; [by iApply "HΦ"|divmod|lia].
Qed.

Lemma wp_CHUNK_PSIZE c (b : Z * bool) s Φ : good_size b.1 ->
  c ↦ tag b -∗ (c ↦ tag b -∗ Φ b.1 s) -∗ wp (S := statics K) (CHUNK_PSIZE c) s Φ.
Proof.
  iIntros ([Hm Hs]) "H HΦ". unfold CHUNK_PSIZE, psize. ld "H". iApply wp_ret. destruct b as [n u]. unfold tag. cbn [fst snd] in *.
  rw size_mask; [by iApply "HΦ"|divmod|lia].
Qed.

Lemma wp_NEXT_CHUNK c (b : Z * bool) s Φ : good_size b.1 ->
  (c + 8) ↦ tag b -∗ ((c + 8) ↦ tag b -∗ Φ (c + b.1) s) -∗ wp (S := statics K) (NEXT_CHUNK c) s Φ.
Proof.
  iIntros (Hs) "H HΦ". unfold NEXT_CHUNK. iApply wp_seq. iApply (wp_CHUNK_SIZE with "H"); [done|]. iIntros "H".
  iApply wp_ret. by iApply "HΦ".
Qed.

Lemma wp_PREV_CHUNK c (b : Z * bool) s Φ : good_size b.1 ->
  c ↦ tag b -∗ (c ↦ tag b -∗ Φ (c - b.1) s) -∗ wp (S := statics K) (PREV_CHUNK c) s Φ.
Proof.
  iIntros (Hs) "H HΦ". unfold PREV_CHUNK. iApply wp_seq. iApply (wp_CHUNK_PSIZE with "H"); [done|]. iIntros "H".
  iApply wp_ret. by iApply "HΦ".
Qed.

(** * Bins *)
Lemma bin_positive i : 0 <= i -> 0 < BIN_TO_CHUNK mal i.
Proof. intros Hi. unfold BIN_TO_CHUNK, MEM_TO_CHUNK, OVERHEAD. lia. Qed.

Lemma head_bin i : head mal i = BIN_TO_CHUNK mal i + 16.
Proof. unfold head, BIN_TO_CHUNK, MEM_TO_CHUNK, OVERHEAD. lia. Qed.

Lemma tail_bin i : tail mal i = BIN_TO_CHUNK mal i + 24.
Proof. unfold tail, BIN_TO_CHUNK, MEM_TO_CHUNK, OVERHEAD. lia. Qed.

Lemma ring_empty b : (b + 16) ↦ b ∗ (b + 24) ↦ b ⊢ path b [] b.
Proof. done. Qed.

Lemma wp_lock_bin i F s Φ : 0 <= i < 64 -> Forall chunk_ok F ->
  bins mal F -∗
  (∀ l, ⌜l ≡ₚ members i F⌝ -∗ path (BIN_TO_CHUNK mal i) l (BIN_TO_CHUNK mal i) -∗ bins_but mal i F -∗ Φ tt s) -∗
  wp (lock_bin mal i) s Φ.
Proof.
  iIntros (Hi HF) "HB HΦ". rw (bins_split mal i F Hi). iDestruct "HB" as "[(%l & %Hl & [(-> & Hh & Ht)|Hr]) HB]"; unfold lock_bin.
  - ld "Hh". cbn [when Z.eqb]. st "Ht". iApply (wp_store with "Hh"). iIntros "Hh".
    iApply ("HΦ" $! [] with "[//] [Hh Ht] HB"). iApply ring_empty. rw head_bin tail_bin. iFrame.
  - rw path_first. iDestruct "Hr" as "[[Hh Hp] Hr]". rw -head_bin. ld "Hh".
    assert (0 < at_start l (BIN_TO_CHUNK mal i)) as Hpos.
    { unfold at_start. destruct l as [|c l]; cbn; [by apply bin_positive; lia|].
      assert (c ∈ members i F) as (n & Hc & _)%elem_of_members by (rw -Hl; apply elem_of_cons; by left).
      rw list.Forall_forall in HF. by apply (HF _ Hc). }
    destruct (Z.eqb_spec (at_start l (BIN_TO_CHUNK mal i)) 0); [lia|]. cbn [when]. iApply wp_ret.
    iApply ("HΦ" $! l with "[//] [Hh Hp Hr] HB"). rw path_first head_bin. iFrame.
Qed.

Lemma wp_unbin c n i l1 l2 s Φ : good_size n ->
  path (BIN_TO_CHUNK mal i) l1 c -∗ path c l2 (BIN_TO_CHUNK mal i) -∗ (c + 8) ↦ n -∗ (c + n) ↦ n -∗
  (path (BIN_TO_CHUNK mal i) (l1 ++ l2) (BIN_TO_CHUNK mal i) -∗ (c + 8) ↦ (n + 1) -∗ (c + n) ↦ (n + 1) -∗ junk (c + 16) 16 -∗
   Φ tt (match l1 ++ l2 with [] => set_binmap (clear_bit (binmap s) i) s | _ => s end)) -∗
  wp (unbin c i) s Φ.
Proof.
  iIntros ([Hm32 Hn]) "H1 H2 Hh Hf HΦ". assert (n mod 2 = 0) as Hm by divmod. iDestruct (ring_alone with "[$H1 $H2]") as %Ha.
  rw path_last path_first. iDestruct "H1" as "[H1 [Hpn Hcp]]". iDestruct "H2" as "[[Hcn Hqp] H2]".
  set (p := at_end _ l1) in *. set (q := at_start l2 _) in *. unfold unbin, prev_, next_, csize, psize.
  ld "Hcp". ld "Hcn".
  set (s' := match l1 ++ l2 with [] => _ | _ => _ end).
  iAssert (wp (when (p =? q) (let! b := get binmap in set (set_binmap (Z.land b (u64 (Z.lnot (Z.shiftl 1 i))))))) s
    (fun _ s0 => ⌜s0 = s'⌝))%I as "Hw".
  { destruct (Z.eqb_spec p q) as [E|E]; cbn [when].
    - rd. iApply wp_set. iPureIntro. unfold s'. by rw (proj1 Ha E).
    - iApply wp_ret. iPureIntro. unfold s'. destruct (l1 ++ l2) eqn:El; [|done]. by destruct E; apply Ha. }
  iApply wp_seq. iApply (wp_wand with "Hw"). iIntros (? ? ->).
  ld "Hcp". ld "Hcn". st "Hpn". ld "Hcn". ld "Hcp". st "Hqp". ld "Hh". st "Hh". rw lor_inuse; [|done].
  iApply wp_seq. iApply (wp_NEXT_CHUNK c (n, true) with "Hh"); [unfold good_size; cbn; lia|]. iIntros "Hh". cbn [fst].
  ld "Hf". iApply (wp_store with "Hf"). iIntros "Hf". rw lor_inuse; [|done].
  iApply ("HΦ" with "[H1 H2 Hpn Hqp] Hh Hf [Hcp Hcn]").
  - rw path_cut. iFrame.
  - rw junk_pair. replace (c + 16 + 8) with (c + 24) by lia. iSplitL "Hcn"; by iExists _.
Qed.

(** * Taking a free chunk *)

(** A chunk in use and what it contains. *)
Definition owned (c n : Z) : heapProp := ((c + 8) ↦ (n + 1) ∗ (c + n) ↦ (n + 1) ∗ junk (c + 16) (n - 16))%I.

Lemma set_binmap_same s : set_binmap (binmap s) s = s.
Proof. by destruct s. Qed.

Lemma wp_unbin_free c n F l s Φ : good_size n -> l ≡ₚ members (bin_index n) ((c, n) :: F) ->
  binmap_ok (binmap s) ((c, n) :: F) ->
  path (BIN_TO_CHUNK mal (bin_index n)) l (BIN_TO_CHUNK mal (bin_index n)) -∗ bins_but mal (bin_index n) ((c, n) :: F) -∗
  block c (n, false) -∗
  (∀ b, ⌜binmap_ok b F⌝ -∗ bins mal F -∗ owned c n -∗ Φ tt (set_binmap b s)) -∗
  wp (unbin c (bin_index n)) s Φ.
Proof.
  iIntros (Hn Hl Hb) "Hr HB (Hh & Hf & Hj) HΦ". cbn [fst snd]. unfold tag. cbn [fst snd b2z]. rw Z.add_0_r.
  pose proof (bin_index_range n Hn) as Hi. rw members_cons_eq in Hl.
  assert (c ∈ l) as (l1 & l2 & ->)%list_elem_of_split by (rw Hl; apply elem_of_cons; by left).
  rw path_app. iDestruct "Hr" as "[H1 H2]". rw -Permutation_middle in Hl. apply Permutation_cons_inv in Hl.
  iApply (wp_unbin with "H1 H2 Hh Hf"); [done|]. iIntros "Hr Hh Hf Hj2".
  rw bins_but_cons. iAssert (bins mal F) with "[Hr HB]" as "HB".
  { rw (bins_split mal (bin_index n)) //. iFrame. by iPureIntro. }
  iAssert (owned c n) with "[Hh Hf Hj Hj2]" as "Ho".
  { unfold owned. iFrame. replace (n - 16) with (16 + (n - 32)) by lia. rw junk_split; [|done|done|by unfold good_size in Hn; lia].
    replace (c + 16 + 16) with (c + 32) by lia. iFrame. }
  pose proof (binmap_remove _ _ _ _ Hb Hn) as Hb'.
  destruct (l1 ++ l2) as [|d l].
  - apply Permutation_nil_l in Hl. rw -Hl in Hb'. by iApply ("HΦ" with "[//] HB Ho").
  - destruct (members (bin_index n) F) eqn:E; [by apply Permutation_nil_r in Hl|]. rw -{2}(set_binmap_same s).
    by iApply ("HΦ" with "[//] HB Ho").
Qed.

(** * Taking a neighbour *)
Lemma tag_flag (b : Z * bool) : good_size b.1 -> nz (Z.land (tag b) C_INUSE) = b.2.
Proof. destruct b as [n u]. intros [Hm _]. unfold tag, C_INUSE. cbn [fst snd] in *. rw inuse_flag; [done|divmod]. Qed.

Lemma edge_flag o : (forall b, o = Some b -> good_size b.1) -> nz (Z.land (edge o) C_INUSE) = true <-> busy o.
Proof.
  intros Hg. destruct o as [[n u]|]; cbn [edge busy]; [|by split].
  destruct (Hg _ eq_refl) as [Hm _]. cbn [fst] in Hm. unfold tag, C_INUSE. cbn [fst snd]. rw inuse_flag; [done|divmod].
Qed.

Lemma wp_alloc_fwd_busy f c bs s Φ : (0 < f)%nat -> Forall (fun b => good_size b.1) bs -> busy (list.head bs) ->
  right c bs -∗ (right c bs -∗ Φ false s) -∗ wp (alloc_fwd mal f c) s Φ.
Proof.
  iIntros (Hf0 Hg Hb) "Hr HΦ". iDestruct (right_edge with "Hr") as "[He Hr]". destruct f as [|f]; [lia|]. cbn [alloc_fwd]. unfold csize. ld "He".
  rw (proj2 (edge_flag (list.head bs) _) Hb).
  - iApply wp_ret. iApply "HΦ". by iApply "Hr".
  - intros b Eb. destruct bs as [|b' bs]; [done|]. cbn in Eb. injection Eb as ->. by apply list.Forall_cons in Hg as [? _].
Qed.

Lemma wp_alloc_rev_busy f c0 bs c s Φ : (0 < f)%nat -> c = c0 + total bs -> Forall (fun b => good_size b.1) bs -> busy (list.last bs) ->
  left c0 bs -∗ (left c0 bs -∗ Φ false s) -∗ wp (alloc_rev mal f c) s Φ.
Proof.
  iIntros (Hf0 -> Hg Hb) "Hr HΦ". iDestruct (left_edge with "Hr") as "[He Hr]". destruct f as [|f]; [lia|]. cbn [alloc_rev]. unfold psize. ld "He".
  rw (proj2 (edge_flag (list.last bs) _) Hb).
  - iApply wp_ret. iApply "HΦ". by iApply "Hr".
  - intros b Eb. rw list.Forall_forall in Hg. apply Hg. by eapply last_Some_elem_of.
Qed.

Lemma tag_free n : tag (n, false) = n.
Proof. unfold tag. cbn. lia. Qed.

Lemma wp_alloc_fwd_free f c n bs F s Φ : (0 < f)%nat -> Forall chunk_ok ((c, n) :: F) -> binmap_ok (binmap s) ((c, n) :: F) ->
  right c ((n, false) :: bs) -∗ bins mal ((c, n) :: F) -∗
  (∀ b, ⌜binmap_ok b F⌝ -∗ bins mal F -∗ owned c n -∗ right (c + n) bs -∗ Φ true (set_binmap b s)) -∗
  wp (alloc_fwd mal f c) s Φ.
Proof.
  iIntros (Hf0 HF Hb) "Hr HB HΦ". rw right_cons. iDestruct "Hr" as "[(Hh & Hf & Hj) Hr]". cbn [fst snd]. rw tag_free.
  assert (good_size n) as Hn by (apply list.Forall_cons in HF as [(_ & _ & Hn & _) _]; done).
  destruct f as [|f]; [lia|]. cbn [alloc_fwd]. unfold csize. ld "Hh".
  replace (Z.land n C_INUSE) with (Z.land (n + b2z false) 1) by (unfold C_INUSE; cbn; by rw Z.add_0_r).
  rw inuse_flag; [|by destruct Hn; divmod].
  iApply wp_seq. iApply (wp_lock_bin with "HB"); [by apply bin_index_range|done|]. iIntros (l Hl) "Hp HB".
  ld "Hh". rw Z.eqb_refl. iApply wp_seq.
  iApply (wp_unbin_free with "Hp HB [Hh Hf Hj]"); [done|done|done| |].
  - unfold block. cbn [fst snd]. rw tag_free. iFrame.
  - iIntros (b Hb') "HB Ho". iApply wp_ret. by iApply ("HΦ" with "[//] HB Ho Hr").
Qed.

Lemma wp_alloc_rev_free f c0 bs n c F s Φ : (0 < f)%nat -> c = c0 + total bs -> Forall chunk_ok ((c, n) :: F) -> binmap_ok (binmap s) ((c, n) :: F) ->
  left c0 (bs ++ [(n, false)]) -∗ bins mal ((c, n) :: F) -∗
  (∀ b, ⌜binmap_ok b F⌝ -∗ bins mal F -∗ owned c n -∗ left c0 bs -∗ Φ true (set_binmap b s)) -∗
  wp (alloc_rev mal f (c + n)) s Φ.
Proof.
  iIntros (Hf0 -> HF Hb) "Hr HB HΦ". rw left_snoc. iDestruct "Hr" as "[Hr (Hh & Hf & Hj)]". cbn [fst snd]. rw tag_free.
  set (c := c0 + total bs) in *.
  assert (good_size n) as Hn by (apply list.Forall_cons in HF as [(_ & _ & Hn & _) _]; done).
  destruct f as [|f]; [lia|]. cbn [alloc_rev]. unfold psize. ld "Hf".
  replace (Z.land n C_INUSE) with (Z.land (n + b2z false) 1) by (unfold C_INUSE; cbn; by rw Z.add_0_r).
  rw inuse_flag; [|by destruct Hn; divmod].
  iApply wp_seq. iApply (wp_lock_bin with "HB"); [by apply bin_index_range|done|]. iIntros (l Hl) "Hp HB".
  ld "Hf". rw Z.eqb_refl. iApply wp_seq. iApply (wp_PREV_CHUNK (c + n) (n, false) with "[Hf]"); [done|by rw tag_free|].
  rw tag_free. iIntros "Hf". cbn [fst]. replace (c + n - n) with c by lia. iApply wp_seq.
  iApply (wp_unbin_free with "Hp HB [Hh Hf Hj]"); [done|done|done| |].
  - unfold block. cbn [fst snd]. rw tag_free. iFrame.
  - iIntros (b Hb') "HB Ho". iApply wp_ret. by iApply ("HΦ" with "[//] HB Ho Hr").
Qed.

(** * Merging *)

(** The words of a chunk with its tags, when their values do not matter: [n] bytes from
    its size on. *)
Lemma hole_open c n : good_size n -> junk (c + 8) n ⊣⊢ (∃ v, (c + 8) ↦ v) ∗ junk (c + 16) (n - 16) ∗ (∃ v, (c + n) ↦ v).
Proof.
  intros [Hm Hn]. replace n with (8 + ((n - 16) + 8)) at 1 by lia. rw junk_cons; [|lia].
  rw junk_split; [|lia|divmod|lia]. rw junk_one.
  by replace (c + 8 + 8) with (c + 16) by lia; replace (c + 16 + (n - 16)) with (c + n) by lia.
Qed.

Lemma owned_hole c n : good_size n -> owned c n ⊢ junk (c + 8) n.
Proof. iIntros (Hn) "(H1 & H2 & H3)". rw hole_open //. iFrame. Qed.

Lemma hole_join c n m : good_size n -> good_size m -> junk (c + 8) n -∗ junk (c + n + 8) m -∗ junk (c + 8) (n + m).
Proof.
  iIntros ([Hn1 Hn2] [Hm1 Hm2]) "H1 H2". rw junk_split; [|lia|divmod|lia].
  replace (c + 8 + n) with (c + n + 8) by lia. iFrame.
Qed.

Context (fuel : nat).

Lemma edges_flag b1 b2 : Forall (fun b => good_size b.1) b1 -> Forall (fun b => good_size b.1) b2 ->
  nz (Z.land (Z.land (edge (list.last b1)) (edge (list.head b2))) C_INUSE) = true <-> busy (list.last b1) /\ busy (list.head b2).
Proof.
  intros Hg1 Hg2. unfold C_INUSE. rw both_inuse andb_true_iff. rw !edge_flag; [done|intros b Eb..].
  - destruct b2 as [|b' b2]; [done|]. cbn in Eb. injection Eb as ->. by apply list.Forall_cons in Hg2 as [? _].
  - rw list.Forall_forall in Hg1. apply Hg1. by eapply last_Some_elem_of.
Qed.

(** Nothing to merge: the sizes are written and the bin is taken. *)
Lemma wp_free_loop_stop t c0 b1 b2 self next new n rc F s Φ :
  self = c0 + total b1 -> next = self + n -> good_size n ->
  Forall (fun b => good_size b.1) b1 -> Forall (fun b => good_size b.1) b2 -> Forall chunk_ok F ->
  busy (list.last b1) -> busy (list.head b2) ->
  left c0 b1 -∗ junk (self + 8) n -∗ right next b2 -∗ bins mal F -∗
  (∀ l, ⌜l ≡ₚ members (bin_index n) F⌝ -∗ path (BIN_TO_CHUNK mal (bin_index n)) l (BIN_TO_CHUNK mal (bin_index n)) -∗
   bins_but mal (bin_index n) F -∗ left c0 b1 -∗ junk (self + 8) n -∗ right next b2 -∗ Φ (self, next, n, rc, bin_index n) s) -∗
  wp (free_loop mal fuel (S t) self next new n rc) s Φ.
Proof.
  iIntros (-> -> Hn Hg1 Hg2 HF Hb1 Hb2) "Hl Hm Hr HB HΦ". cbn [free_loop]. unfold psize, csize.
  pose proof (proj2 (edges_flag b1 b2 Hg1 Hg2) (conj Hb1 Hb2)) as Hflag.
  iDestruct (left_edge with "Hl") as "[He Hl]". ld "He". iDestruct ("Hl" with "He") as "Hl".
  iDestruct (right_edge with "Hr") as "[He Hr]". ld "He". iDestruct ("Hr" with "He") as "Hr". rw Hflag.
  iDestruct (hole_open with "Hm") as "((%v & Hh) & Hj & (%w & Hf))"; [done|].
  iApply wp_seq. st "Hh". st "Hf".
  iApply wp_seq. iApply (wp_lock_bin with "HB"); [by apply bin_index_range|done|]. iIntros (l Hl) "Hp HB".
  iDestruct (left_edge with "Hl") as "[He Hl]". ld "He". iDestruct ("Hl" with "He") as "Hl".
  iDestruct (right_edge with "Hr") as "[He Hr]". ld "He". iDestruct ("Hr" with "He") as "Hr". rw Hflag.
  iApply wp_ret. cbv beta iota. iApply wp_ret. iApply ("HΦ" with "[//] Hp HB Hl [Hh Hj Hf] Hr").
  rw hole_open //. iFrame.
Qed.

Lemma last_cases (b1 : blocks) : busy (list.last b1) \/ exists b1' m, b1 = b1' ++ [(m, false)].
Proof.
  destruct b1 as [|[m u] b1 _] using rev_ind; [by left|]. rw last_snoc. destruct u; [by left|right; by eexists _, _].
Qed.

Lemma head_cases (b2 : blocks) : busy (list.head b2) \/ exists b2' m, b2 = (m, false) :: b2'.
Proof. destruct b2 as [|[m [|]] b2]; [by left|by left|right; by eexists _, _]. Qed.

Lemma owned_tags c n : owned c n ⊣⊢ (c + 8) ↦ tag (n, true) ∗ (c + n) ↦ tag (n, true) ∗ junk (c + 16) (n - 16).
Proof. done. Qed.

Lemma wp_merge_rev c0 b1 n b2 new rc G F s Φ : (0 < fuel)%nat -> reclaim_ok new n rc -> gap c0 b1 n b2 G F (binmap s) ->
  left c0 b1 -∗ junk (c0 + total b1 + 8) n -∗ bins mal F -∗
  (∀ b1' n' rc' b F', ⌜reclaim_ok new n' rc'⌝ -∗ ⌜gap c0 b1' n' b2 G F' b⌝ -∗ ⌜(total b1' + n' = total b1 + n)%Z⌝ -∗
      ⌜chunks true c0 b1' = chunks true c0 b1⌝ -∗ ⌜busy (list.last b1')⌝ -∗
    left c0 b1' -∗ junk (c0 + total b1' + 8) n' -∗ bins mal F' -∗ Φ (c0 + total b1', n', rc') (set_binmap b s)) -∗
  wp (merge_rev mal fuel (c0 + total b1) new n rc) s Φ.
Proof.
  iIntros (Hfuel Hrc Hgap) "Hl Hm HB HΦ". unfold merge_rev.
  pose proof Hgap as (Hok & HF & HFok & Hb).
  pose proof (proj1 (seg_ok_mid _ _ _ _) Hok) as (H1 & H2 & H3 & H4 & H5 & H6 & H7 & H8).
  iApply wp_seq. destruct (last_cases b1) as [Hbusy|(b1' & m & ->)].
  - iApply (wp_alloc_rev_busy with "Hl"); [done..|]. iIntros "Hl". iApply wp_ret. rw -{2}(set_binmap_same s).
    by iApply ("HΦ" $! b1 n rc (binmap s) F with "[%] [%] [%] [%] [%] Hl Hm HB").
  - destruct (gap_left _ _ _ _ _ _ _ _ Hgap) as (Hm & Hnm & Hbusy & Hch & F' & HF' & Hgap').
    rw total_app total_cons. cbn [total]. rw Z.add_0_r !Z.add_assoc.
    rw HF' in Hb. rw HF' in HFok. iDestruct (bins_reorder _ _ _ HF' with "HB") as "HB".
    iApply (wp_alloc_rev_free with "Hl HB"); [done..|]. iIntros (b Hb') "HB Ho Hl".
    rw owned_tags. iDestruct "Ho" as "(Hh & Hf & Hj)".
    iApply wp_seq. iApply (wp_PREV_CHUNK with "Hf"); [done|]. iIntros "Hf". cbn [fst].
    replace (c0 + total b1' + m - m) with (c0 + total b1') by lia.
    iApply wp_seq. iApply (wp_CHUNK_SIZE with "Hh"); [done|]. iIntros "Hh". cbn [fst].
    unfold grown. rw (wrap_small 64 (n + m)); [|destruct H4, Hm; lia]. iApply wp_ret.
    iApply ("HΦ" $! b1' (n + m) _ b F' with "[%] [%] [%] [%] [%] Hl [Hh Hf Hj Hm] HB"); [apply reclaim_grown; [done|destruct Hm; lia|lia]|by apply Hgap'|lia|done|done|].
    rw (Z.add_comm n m). iApply (hole_join with "[Hh Hf Hj] Hm"); [done|done|].
    iApply owned_hole; [done|]. rw owned_tags. iFrame.
Qed.

Lemma wp_merge_fwd c0 b1 n b2 new rc G F s Φ : (0 < fuel)%nat -> reclaim_ok new n rc -> gap c0 b1 n b2 G F (binmap s) ->
  junk (c0 + total b1 + 8) n -∗ right (c0 + total b1 + n) b2 -∗ bins mal F -∗
  (∀ b2' n' rc' b F', ⌜reclaim_ok new n' rc'⌝ -∗ ⌜gap c0 b1 n' b2' G F' b⌝ -∗
      ⌜chunks true (c0 + total b1 + n) b2 = chunks true (c0 + total b1 + n') b2'⌝ -∗ ⌜(n' + total b2' = n + total b2)%Z⌝ -∗ ⌜busy (list.head b2')⌝ -∗
    junk (c0 + total b1 + 8) n' -∗ right (c0 + total b1 + n') b2' -∗ bins mal F' -∗ Φ (c0 + total b1 + n', n', rc') (set_binmap b s)) -∗
  wp (merge_fwd mal fuel (c0 + total b1 + n) new n rc) s Φ.
Proof.
  iIntros (Hfuel Hrc Hgap) "Hm Hr HB HΦ". unfold merge_fwd.
  pose proof Hgap as (Hok & HF & HFok & Hb).
  pose proof (proj1 (seg_ok_mid _ _ _ _) Hok) as (H1 & H2 & H3 & H4 & H5 & H6 & H7 & H8).
  iApply wp_seq. destruct (head_cases b2) as [Hbusy|(b2' & m & ->)].
  - iApply (wp_alloc_fwd_busy with "Hr"); [done..|]. iIntros "Hr". iApply wp_ret. rw -{2}(set_binmap_same s).
    by iApply ("HΦ" $! b2 n rc (binmap s) F with "[%] [%] [%] [%] [%] Hm Hr HB").
  - destruct (gap_right _ _ _ _ _ _ _ _ Hgap) as (Hm & Hnm & Hbusy & Hch & F' & HF' & Hgap').
    rw HF' in Hb. rw HF' in HFok. iDestruct (bins_reorder _ _ _ HF' with "HB") as "HB".
    iApply (wp_alloc_fwd_free with "Hr HB"); [done..|]. iIntros (b Hb') "HB Ho Hr".
    rw owned_tags. iDestruct "Ho" as "(Hh & Hf & Hj)".
    iApply wp_seq. iApply (wp_CHUNK_SIZE with "Hh"); [done|]. iIntros "Hh". cbn [fst].
    unfold grown. rw (wrap_small 64 (n + m)); [|destruct H4, Hm; lia].
    iApply wp_seq. iApply (wp_NEXT_CHUNK with "Hh"); [done|]. iIntros "Hh". cbn [fst]. iApply wp_ret.
    replace (c0 + total b1 + n + m) with (c0 + total b1 + (n + m)) by lia.
    iApply ("HΦ" $! b2' (n + m) _ b F' with "[%] [%] [%] [%] [%] [Hh Hf Hj Hm] Hr HB"); [apply reclaim_grown; [done|destruct Hm; lia|lia]|by apply Hgap'|done|rw total_cons; lia|done|].
    iApply (hole_join with "Hm [Hh Hf Hj]"); [done|done|].
    iApply owned_hole; [done|]. rw owned_tags. by replace (c0 + total b1 + n + m) with (c0 + total b1 + (n + m)) by lia; iFrame.
Qed.

Lemma free_loop_S t self next new n rc : free_loop (K := K) mal fuel (S t) self next new n rc =
  (let! p := load (psize self) in
   let! q := load (csize next) in
   let! stop :=
     (if nz (Z.land (Z.land p q) C_INUSE) then
        store (csize self) (Z.lor n C_INUSE);;
        store (psize next) (Z.lor n C_INUSE);;
        let i := bin_index n in
        lock_bin mal i;;
        let! p := load (psize self) in
        let! n := load (csize next) in
        ret (if nz (Z.land (Z.land p n) C_INUSE) then Some i else None)
      else ret None) in
   match stop with
   | Some i => ret (self, next, n, rc, i)
   | None =>
       let! (self, n, rc) := merge_rev mal fuel self new n rc in
       let! (next, n, rc) := merge_fwd mal fuel next new n rc in
       free_loop mal fuel t self next new n rc
   end).
Proof. done. Qed.

(** The loop of [free] ends in its second turn. *)
Lemma wp_free_loop turns c0 b1 n b2 new rc G F s Φ : (0 < fuel)%nat -> (2 <= turns)%nat -> reclaim_ok new n rc -> gap c0 b1 n b2 G F (binmap s) ->
  left c0 b1 -∗ junk (c0 + total b1 + 8) n -∗ right (c0 + total b1 + n) b2 -∗ bins mal F -∗
  (∀ b1' n' b2' rc' b F' l, ⌜reclaim_ok new n' rc'⌝ -∗ ⌜gap c0 b1' n' b2' G F' b⌝ -∗ ⌜chunks true c0 b1' = chunks true c0 b1⌝ -∗
      ⌜chunks true (c0 + total b1' + n') b2' = chunks true (c0 + total b1 + n) b2⌝ -∗
      ⌜(total b1' + n' + total b2' = total b1 + n + total b2)%Z⌝ -∗
      ⌜busy (list.last b1') /\ busy (list.head b2')⌝ -∗ ⌜l ≡ₚ members (bin_index n') F'⌝ -∗
    path (BIN_TO_CHUNK mal (bin_index n')) l (BIN_TO_CHUNK mal (bin_index n')) -∗ bins_but mal (bin_index n') F' -∗
    left c0 b1' -∗ junk (c0 + total b1' + 8) n' -∗ right (c0 + total b1' + n') b2' -∗
    Φ (c0 + total b1', c0 + total b1' + n', n', rc', bin_index n') (set_binmap b s)) -∗
  wp (free_loop mal fuel turns (c0 + total b1) (c0 + total b1 + n) new n rc) s Φ.
Proof.
  iIntros (Hfuel Hturns Hrc Hgap) "Hl Hm Hr HB HΦ". destruct turns as [|[|t]]; [lia|lia|]. pose proof Hgap as (Hok & HF & HFok & Hb).
  pose proof (proj1 (seg_ok_mid _ _ _ _) Hok) as (_ & _ & Hg1 & Hn & Hg2 & _).
  pose proof (edges_flag b1 b2 Hg1 Hg2) as Hflag.
  destruct (nz (Z.land (Z.land (edge (list.last b1)) (edge (list.head b2))) C_INUSE)) eqn:Ef.
  - destruct (proj1 Hflag eq_refl) as [Hb1 Hb2].
    iApply (wp_free_loop_stop with "Hl Hm Hr HB"); [done..|]. iIntros (l Hl) "Hp HB Hl Hm Hr".
    rw -{2}(set_binmap_same s). by iApply ("HΦ" with "[%] [%] [%] [%] [%] [%] [%] Hp HB Hl Hm Hr").
  - rw free_loop_S. unfold psize, csize.
    iDestruct (left_edge with "Hl") as "[He Hl]". ld "He". iDestruct ("Hl" with "He") as "Hl".
    iDestruct (right_edge with "Hr") as "[He Hr]". ld "He". iDestruct ("Hr" with "He") as "Hr". rw Ef.
    iApply wp_seq. iApply wp_ret. cbv iota.
    iApply wp_seq. iApply (wp_merge_rev with "Hl Hm HB"); [done|done|done|].
    iIntros (b1' n1 rc1 m1 F1 Hrc1 Hgap1 Ht1 Hc1 Hbusy1) "Hl Hm HB".
    iApply wp_seq. replace (c0 + total b1 + n) with (c0 + total b1' + n1) by lia.
    iApply (wp_merge_fwd with "Hm Hr HB"); [done|done|done|].
    iIntros (b2' n2 rc2 m2 F2 Hrc2 Hgap2 Hc2 Ht2 Hbusy2) "Hm Hr HB". pose proof Hgap2 as (Hok2 & HF2 & HFok2 & Hb2).
    pose proof (proj1 (seg_ok_mid _ _ _ _) Hok2) as (_ & _ & Hg12 & Hn2 & Hg22 & _).
    iApply (wp_free_loop_stop with "Hl Hm Hr HB"); [done..|]. iIntros (l Hl) "Hp HB Hl Hm Hr".
    iApply ("HΦ" with "[%] [%] [%] [%] [%] [%] [%] Hp HB Hl Hm Hr"); [done|done|done|done|lia|done|done].
Qed.
End ops.
