(* ===== verification/MallocOs.v ===== *)
(** * What the allocator relies on in the system

    The laws of the system calls for memory, as the manual pages state them, and what
    they are for a program that owns some words: memory that it did not own and that
    is zero, or an error and no change. *)
From iris.proofmode Require Import proofmode.
From S2P Require Import Prelude IntOps Mman Seplog Chunks Segments Malloc MallocHeap.

(** The aligned words from [a] to [b]. *)
Definition in_words (a b w : Z) : bool := (w mod 8 =? 0) && (a <=? w) && (w <? b).

(** [gains m a b m']: the words from [a] to [b] are new in [m'], and zero. *)
Definition gains (m : words) (a b : Z) (m' : words) : Prop :=
  forall w, if in_words a b w then m !! w = None /\ m' !! w = Some 0 else m' !! w = m !! w.

(** [loses m a b m']: the words from [a] to [b] are gone in [m']. *)
Definition loses (m : words) (a b : Z) (m' : words) : Prop :=
  forall w, m' !! w = if in_words a b w then None else m !! w.

(** [top k] is the current break, and [refusals k] the lengths of the mappings that the
    system has refused, the last one first.  A program sees neither; what the system has
    refused is kept so that a theorem can say it of a call. *)
Class PagesLaws (K : Type) `{Pages K} := {
  top : K -> Z;
  refusals : K -> list Z;
  top_range k : 0 < top k <= 2 ^ 47;
  brk_law a k m : 0 <= a ->
    let '(r, (k', m')) := sys_brk a (k, m) in
    refusals k' = refusals k /\ r = top k' /\ ((m' = m /\ top k' = top k) \/ (top k < a /\ top k' = a /\ gains m (top k) a m'));
  mmap_law len k m : 0 < len -> len mod PAGE_SIZE = 0 ->
    let '(r, (k', m')) := sys_mmap 0 len (Z.lor PROT_READ PROT_WRITE) (Z.lor MAP_PRIVATE MAP_ANON) (-1) 0 (k, m) in
    top k' = top k /\
    ((-4096 < r < 0 /\ refusals k' = len :: refusals k /\ m' = m) \/
     (0 < r /\ r mod PAGE_SIZE = 0 /\ r + len <= 2 ^ 47 /\ refusals k' = refusals k /\ gains m r (r + len) m'));
  munmap_law base len k m : base mod PAGE_SIZE = 0 -> 0 < len -> len mod PAGE_SIZE = 0 ->
    let '(r, (k', m')) := sys_munmap base len (k, m) in
    top k' = top k /\ refusals k' = refusals k /\ (m' = m \/ loses m base (base + len) m');
  mremap_law base old new k m : base mod PAGE_SIZE = 0 -> 0 < old -> old mod PAGE_SIZE = 0 -> 0 < new -> new mod PAGE_SIZE = 0 ->
    (forall w, in_words base (base + old) w = true -> is_Some (m !! w)) ->
    let '(r, (k', m')) := sys_mremap base old new MREMAP_MAYMOVE 0 (k, m) in
    top k' = top k /\ refusals k' = refusals k /\
    ((-4096 < r < 0 /\ m' = m) \/
     (0 < r /\ r mod PAGE_SIZE = 0 /\ r + new <= 2 ^ 47 /\
      exists m0, loses m base (base + old) m0 /\
      forall w, if in_words r (r + new) w
                then m0 !! w = None /\ m' !! w = if w - r <? old then m !! (base + (w - r)) else Some 0
                else m' !! w = m0 !! w));
  madvise_law a len k m : 0 <= len ->
    let '(r, (k', m')) := sys_madvise a len MADV_DONTNEED (k, m) in
    top k' = top k /\ refusals k' = refusals k /\
    forall w, m' !! w = m !! w \/ (in_words a (a + len) w = true /\ is_Some (m !! w) /\ m' !! w = Some 0);
}.

(** * Words of memory *)
Lemma array_holds a vs (m : words) : a mod 8 = 0 -> (forall i v, vs !! i = Some v -> m !! (a + 8 * Z.of_nat i) = Some v) ->
  array a vs m.
Proof.
  revert a m. induction vs as [|v vs IH]; intros a m Ha Hm; [by apply (array_nil a)|].
  apply array_cons. exists {[a := v]}, (delete a m). 
  assert (E : m !! a = Some v) by (rw -(Hm 0%nat v eq_refl); f_equal; lia).
  split; [|split; [|split]].
  - rw -insert_union_singleton_l. by rw insert_delete_id.
  - apply map_disjoint_singleton_l. by rw lookup_delete_eq.
  - split; [by rw lookup_singleton_eq|done].
  - apply IH; [divmod|]. intros i w Hi. rw lookup_delete_ne; [|lia].
    rw -(Hm (S i) w Hi). f_equal. lia.
Qed.

Lemma array_lookup a vs (m : words) i v : array a vs m -> vs !! i = Some v -> m !! (a + 8 * Z.of_nat i) = Some v /\ (a + 8 * Z.of_nat i) mod 8 = 0.
Proof.
  intros Ha Hi. assert (H : array a vs ⊢ (a + 8 * Z.of_nat i) ↦ v ∗ True).
  { iIntros "H". unfold array. iDestruct (big_sepL_lookup with "H") as "H"; [done|]. by iFrame. }
  apply H in Ha. destruct Ha as (m1 & m2 & Hs & _ & [Hl Hal] & _). split; [|done].
  eapply lookup_weaken; [done|]. etrans; [|done]. apply map_union_subseteq_l.
Qed.

Lemma in_words_index a n w : a mod 8 = 0 -> in_words a (a + 8 * Z.of_nat n) w = true <-> exists i, (i < n)%nat /\ w = a + 8 * Z.of_nat i.
Proof.
  intros Ha. unfold in_words. rw !andb_true_iff Z.eqb_eq Z.leb_le Z.ltb_lt. split.
  - intros [[H1 H2] H3]. exists (Z.to_nat ((w - a) / 8)). divmod.
  - intros (i & Hi & ->). split; [split; [divmod|lia]|lia].
Qed.

Lemma array_words a vs (m : words) : array a vs m -> a mod 8 = 0 -> forall w, in_words a (a + 8 * Z.of_nat (length vs)) w = true -> is_Some (m !! w).
Proof.
  intros Hm Ha w Hw. apply in_words_index in Hw as (i & Hi & ->); [|done].
  destruct (lookup_lt_is_Some_2 vs i Hi) as [v Hv]. exists v. by apply (array_lookup a vs m i v).
Qed.

Lemma gains_array m lo hi a n m' : a mod 8 = 0 -> lo <= a -> a + 8 * Z.of_nat n <= hi -> gains m lo hi m' -> array a (replicate n 0) (m' ∖ m).
Proof.
  intros Ha Hlo Hhi Hg. apply array_holds; [done|]. intros i v Hi. apply lookup_replicate in Hi as [-> Hi].
  specialize (Hg (a + 8 * Z.of_nat i)).
  assert (in_words lo hi (a + 8 * Z.of_nat i) = true) as E by (unfold in_words; rw !andb_true_iff Z.eqb_eq Z.leb_le Z.ltb_lt; split; [split; [divmod|lia]|lia]).
  rw E in Hg.
  apply lookup_difference_Some. by destruct Hg.
Qed.

Lemma gains_subseteq m a b m' : gains m a b m' -> m ⊆ m'.
Proof.
  intros Hg. apply map_subseteq_spec. intros w v Hw. specialize (Hg w). destruct (in_words a b w); [destruct Hg as [Hn _]; by rw Hn in Hw|]. by rw Hg.
Qed.

(** * System calls as programs *)
Section os.
Context {K : Type} `{PagesLaws K}.
Implicit Types (s : statics K).

(** A system call leaves the variables of the allocator, and most of them the break. *)
Definition kept (s s' : statics K) : Prop :=
  binmap s' = binmap s /\ heap_end s' = heap_end s /\ brk s' = brk s /\ mmap_step s' = mmap_step s.
Definition same (s s' : statics K) : Prop := kept s s' /\ top (kernel s') = top (kernel s).

(** The system has refused no mapping between two states; some; and the one of [len] bytes last. *)
Definition still s s' : Prop := refusals (kernel s') = refusals (kernel s).
Definition since s s' : Prop := exists l, refusals (kernel s') = l ++ refusals (kernel s).
Definition last_refused (len : Z) s s' : Prop := exists l, refusals (kernel s') = len :: l ++ refusals (kernel s).

Lemma still_since s s' : still s s' -> since s s'.
Proof. intros E. by exists []. Qed.

Lemma still_trans s1 s2 s3 : still s1 s2 -> still s2 s3 -> still s1 s3.
Proof. unfold still. congruence. Qed.

Lemma last_refused_since len s s' : last_refused len s s' -> since s s'.
Proof. intros [l E]. by exists (len :: l). Qed.

Lemma since_last_refused len s1 s2 s3 : since s1 s2 -> last_refused len s2 s3 -> last_refused len s1 s3.
Proof. intros [l1 E1] [l2 E2]. exists (l2 ++ l1). by rw E2 E1 app_assoc. Qed.

(** [errno] is an error number. *)
Definition errno_set s : Prop := 0 < errno s < 4096.

(** Why a request of [n] bytes, or of up to [slack] more for alignment and bookkeeping,
    is not served: it is too large for any system, or the last thing that the system
    was asked for in this call is a mapping for it, and this was refused.  The length
    is that of the request, to the end of its pages, or what the heap grows by at
    least, which is [PAGE_SIZE << mmap_step / 2]. *)
Definition too_large (n : Z) : Prop := 2 ^ 63 - 2 ^ 14 < n.
Definition asked s s' (n m : Z) : Prop := exists len,
  last_refused len s s' /\ n <= len <= Z.max m (PAGE_SIZE * 2 ^ (mmap_step s' / 2)).
Definition refused s s' (n : Z) : Prop := asked s s' n (n + 2 * PAGE_SIZE).
Definition unserved s s' (n slack : Z) : Prop :=
  errno_set s' /\ exists x, n <= x <= n + slack /\ (too_large x \/ refused s s' x).

Lemma unserved_le s1 s2 s3 n1 k1 n2 k2 : since s1 s2 -> unserved s2 s3 n2 k2 -> n1 <= n2 -> n2 + k2 <= n1 + k1 -> unserved s1 s3 n1 k1.
Proof.
  intros Hs [He (x & Hx & Hr)] H1 H2. split; [done|]. exists x. split; [lia|]. destruct Hr as [Hr|(len & Hl & Hle)]; [by left|right].
  exists len. split; [by eapply since_last_refused|done].
Qed.

Lemma unserved_large s s' n : errno_set s' -> too_large n -> unserved s s' n 0.
Proof. intros He Hn. split; [done|]. exists n. split; [lia|by left]. Qed.

Lemma unserved_since s s' n k : unserved s s' n k -> n + k <= 2 ^ 63 - 2 ^ 14 -> since s s'.
Proof. intros (_ & x & Hx & [Hl|(len & Hl & _)]) Hn; [unfold too_large in Hl; lia|by eapply last_refused_since]. Qed.

Definition after (s : statics K) (e : option Z) (k : K) : statics K :=
  match e with Some e => set_errno e | None => id end (set_kernel k s).

Lemma same_after s e k : top k = top (kernel s) -> same s (after s e k).
Proof. intros E. by destruct e. Qed.

Lemma wp_os (f : K * words -> Z * option Z * (K * words)) s (P : heapProp) (Φ : Z -> statics K -> heapProp) :
  (forall m mf, m ##ₘ mf -> P m -> let '(r, e, (k', R)) := f (kernel s, m ∪ mf) in mf ⊆ R /\ Φ r (after s e k') (R ∖ mf)) ->
  P ⊢ wp (os f) s Φ.
Proof.
  intros Hf. split=> m HP mf Hd. specialize (Hf m mf Hd HP). unfold os.
  destruct (f (kernel s, m ∪ mf)) as [[r e] [k' R]]. destruct Hf as [Hs HΦ].
  exists r, (after s e k'), (R ∖ mf). split; [|split; [by apply map_disjoint_difference_l1|done]].
  rw map_union_comm; [|by apply map_disjoint_difference_l1]. by rw map_difference_union.
Qed.

Lemma union_minus (m mf : words) : m ##ₘ mf -> (m ∪ mf) ∖ mf = m.
Proof.
  intros Hd. apply map_eq. intros w. rw lookup_difference. destruct (mf !! w) eqn:E.
  - symmetry. by eapply map_disjoint_Some_r.
  - rw lookup_union E. by destruct (m !! w).
Qed.

Lemma error_result r : -4096 < r < 0 -> syscall_ret r = (MAP_FAILED, Some (- r)).
Proof.
  intros Hr. rw syscall_ret_ok; [|lia]. rw (proj2 (Z.ltb_lt (-4096) r)); [|lia]. by rw (proj2 (Z.ltb_lt r 0)); [|lia].
Qed.

Lemma address_result r : 0 <= r < 2 ^ 63 -> syscall_ret r = (r, None).
Proof.
  intros Hr. rw syscall_ret_ok; [|lia]. rw (proj2 (Z.ltb_ge r 0)); [|lia]. rw andb_false_r wrap_small; [done|lia].
Qed.

(** What is owned and what is gained. *)
Lemma gained (P : heapProp) (m mf : words) lo hi a n R : m ##ₘ mf -> P m -> a mod 8 = 0 -> lo <= a -> a + 8 * Z.of_nat n <= hi ->
  gains (m ∪ mf) lo hi R ->
  mf ⊆ R /\ (array a (replicate n 0) ∗ P)%I (R ∖ mf).
Proof.
  intros Hd HP Ha Hlo Hhi Hg. pose proof (gains_subseteq _ _ _ _ Hg) as Hs.
  assert (Hmf : mf ⊆ R) by (etrans; [|done]; by apply map_union_subseteq_r).
  split; [done|]. exists (R ∖ (m ∪ mf)), m. split; [|split; [|split; [by apply (gains_array _ lo hi)|done]]].
  - apply map_union_least.
    + apply map_subseteq_spec. intros w v. rw !lookup_difference_Some lookup_union_None. naive_solver.
    + apply map_subseteq_spec. intros w v Hw. apply lookup_difference_Some. split.
      * eapply lookup_weaken; [|exact Hs]. by apply lookup_union_Some_l.
      * by eapply map_disjoint_Some_l.
  - apply map_disjoint_difference_l1. by apply map_union_subseteq_l.
Qed.

Definition page_words (len : Z) : nat := Z.to_nat (len / 8).

Lemma page_words_ok len : 0 <= len -> len mod PAGE_SIZE = 0 -> 8 * Z.of_nat (page_words len) = len.
Proof. unfold PAGE_SIZE, page_words. intros Hl Hm. divmod. Qed.

(** [mmap]: zero memory, or -1. *)
Lemma wp_mmap len s (P : heapProp) (Φ : Z -> statics K -> heapProp) : 0 < len -> len mod PAGE_SIZE = 0 -> len < 2 ^ 63 - 1 ->
  P -∗ (∀ s', ⌜same s s' /\ errno_set s' /\ last_refused len s s'⌝ -∗ P -∗ Φ MAP_FAILED s') ∧
    (∀ base s', ⌜same s s'⌝ -∗ ⌜0 < base /\ base mod PAGE_SIZE = 0 /\ (base + len <= 2 ^ 47)%Z⌝ -∗
      array base (replicate (page_words len) 0) -∗ P -∗ Φ base s') -∗
  wp (os (mmap sys_mmap 0 len (Z.lor PROT_READ PROT_WRITE) (Z.lor MAP_PRIVATE MAP_ANON) (-1) 0)) s Φ.
Proof.
  intros H1 H2 H3. apply bi.entails_wand, bi.wand_intro_r. apply wp_os. intros m mf Hd (m1 & m2 & Hs & Hd12 & HP & HΦ).
  assert (HP12 : (P ∗ (∀ s', ⌜same s s' /\ errno_set s' /\ last_refused len s s'⌝ -∗ P -∗ Φ MAP_FAILED s') ∧
    (∀ base s', ⌜same s s'⌝ -∗ ⌜0 < base /\ base mod PAGE_SIZE = 0 /\ (base + len <= 2 ^ 47)%Z⌝ -∗
      array base (replicate (page_words len) 0) -∗ P -∗ Φ base s'))%I m) by by exists m1, m2.
  clear m1 m2 Hs Hd12 HP HΦ. unfold mmap. rw (Z.land_0_l OFF_MASK). cbn [nz Z.eqb negb].
  rw (proj2 (Z.leb_gt PTRDIFF_MAX len)); [|unfold PTRDIFF_MAX; lia].
  pose proof (mmap_law len (kernel s) (m ∪ mf) H1 H2) as Hlaw.
  destruct (sys_mmap _ _ _ _ _ _ _) as [r [k' R]] eqn:Esys. destruct Hlaw as (Ht & [(Hr & Href & ->)|(Hr0 & Hrm & Hrl & _ & Hg)]).
  - set (r' := if _ && _ then _ else r). assert (Hr' : -4096 < r' < 0).
    { unfold r', ENOMEM. destruct (_ && _); lia. }
    rw (error_result r' Hr'). cbn [fst snd]. split; [by apply map_union_subseteq_r|]. rw union_minus; [|done].
    revert HP12. apply entails_holds. iIntros "[HP [HΦ _]]". iApply ("HΦ" with "[%] HP").
    split; [by apply same_after|]. split; [unfold errno_set; cbn; lia|]. by exists [].
  - rw (proj2 (Z.eqb_neq r (- EPERM))); [|unfold EPERM; lia]. cbn [andb].
    rw (address_result r); [|lia]. 
    pose proof (page_words_ok len ltac:(lia) H2) as Hw.
    destruct (gained _ m mf r (r + len) r (page_words len) R Hd HP12 ltac:(unfold PAGE_SIZE in *; divmod) ltac:(lia) ltac:(lia) Hg) as [Hmf Hgain].
    split; [done|]. revert Hgain. apply entails_holds. iIntros "(Ha & HP & [_ HΦ])".
    iApply ("HΦ" with "[%] [%] Ha HP"); [by apply same_after|done].
Qed.

(** [brk]: no change, or zero memory up to the new break. *)
Lemma wp_call_brk_0 s Φ : (∀ s', ⌜same s s' /\ still s s'⌝ -∗ Φ (top (kernel s)) s') -∗ wp (call_brk 0) s Φ.
Proof.
  apply bi.entails_wand. split=> m HP mf Hd. unfold call_brk. pose proof (brk_law 0 (kernel s) (m ∪ mf) ltac:(lia)) as Hlaw.
  pose proof (top_range (kernel s)). destruct (sys_brk 0 (kernel s, m ∪ mf)) as [r [k' R]]. destruct Hlaw as (Href & -> & [(-> & Ht)|(Hlt & _)]); [|lia].
  exists (top (kernel s)), (set_kernel k' s), m. rw Ht wrap_small; [|lia].
  split; [done|]. split; [done|]. revert HP. apply entails_holds. iIntros "HΦ". by iApply ("HΦ" with "[%]").
Qed.

Lemma wp_call_brk a b s (P : heapProp) Φ : b < a < 2 ^ 63 -> top (kernel s) <= b -> b mod PAGE_SIZE = 0 -> a mod PAGE_SIZE = 0 -> 
  P -∗ (∀ s', ⌜same s s' /\ still s s'⌝ -∗ P -∗ Φ (top (kernel s)) s') ∧
    (∀ s', ⌜kept s s' /\ top (kernel s') = a⌝ -∗ array b (replicate (page_words (a - b)) 0) -∗ P -∗ Φ a s') -∗
  wp (call_brk a) s Φ.
Proof.
  intros Ha Hb Hbm Ham. apply bi.entails_wand, bi.wand_intro_r. unfold call_brk.
  split=> m HP12 mf Hd. pose proof (top_range (kernel s)). pose proof (brk_law a (kernel s) (m ∪ mf) ltac:(lia)) as Hlaw.
  destruct (sys_brk a (kernel s, m ∪ mf)) as [r [k' R]]. destruct Hlaw as (Href & -> & [(-> & Ht)|(Hlt & Ht & Hg)]).
  - exists (top (kernel s)), (set_kernel k' s), m. rw Ht wrap_small; [|lia].
    split; [done|]. split; [done|]. revert HP12. apply entails_holds. iIntros "[HP [HΦ _]]". by iApply ("HΦ" with "[%] HP").
  - pose proof (page_words_ok (a - b) ltac:(lia) ltac:(unfold PAGE_SIZE in *; divmod)) as Hw.
    destruct (gained _ m mf (top (kernel s)) a b (page_words (a - b)) R Hd HP12 ltac:(unfold PAGE_SIZE in *; divmod) Hb ltac:(lia) Hg) as [Hmf Hgain].
    exists a, (set_kernel k' s), (R ∖ mf). rw Ht wrap_small; [|lia]. split; [|split; [by apply map_disjoint_difference_l1|]].
    + rw map_union_comm; [|by apply map_disjoint_difference_l1]. by rw map_difference_union.
    + revert Hgain. apply entails_holds. iIntros "(Ha & HP & [_ HΦ])". by iApply ("HΦ" with "[%] Ha HP").
Qed.

(** What is not given to a system call is still there. *)
Lemma kept_outside (m m1 m2 mf R : words) : m1 ∪ m2 ⊆ m -> m1 ##ₘ m2 -> m ##ₘ mf ->
  (forall w v, m1 !! w = None -> (m ∪ mf) !! w = Some v -> R !! w = Some v) -> mf ⊆ R /\ m2 ⊆ R ∖ mf.
Proof.
  intros Hs Hd12 Hd Hout. assert (Hs1 : m1 ⊆ m) by (etrans; [|done]; apply map_union_subseteq_l).
  assert (Hs2 : m2 ⊆ m) by (transitivity (m1 ∪ m2); [by apply map_union_subseteq_r|done]). split.
  - apply map_subseteq_spec. intros w v Hw. apply Hout; [|by apply lookup_union_Some_r].
    apply (map_disjoint_Some_r m1 mf w v); [|done]. by eapply map_disjoint_weaken_l.
  - apply map_subseteq_spec. intros w v Hw. pose proof (lookup_weaken _ _ _ _ Hw Hs2) as Hm. apply lookup_difference_Some. split.
    + apply Hout; [by apply (map_disjoint_Some_r m1 m2 w v)|by apply lookup_union_Some_l].
    + by apply (map_disjoint_Some_l m mf w v).
Qed.

Lemma sep_difference (P Q : heapProp) (m2 mf R : words) : m2 ⊆ R ∖ mf -> P ((R ∖ mf) ∖ m2) -> Q m2 -> (P ∗ Q)%I (R ∖ mf).
Proof.
  intros Hm2 HP HQ. exists ((R ∖ mf) ∖ m2), m2. split; [|split; [by apply map_disjoint_difference_l1|done]].
  rw map_union_comm; [|by apply map_disjoint_difference_l1]. by rw map_difference_union.
Qed.

(** A word of an array that is given, in the memory before. *)
Lemma given_lookup a vs (m m1 m2 mf : words) i v : array a vs m1 -> m1 ∪ m2 ⊆ m -> m ##ₘ mf -> vs !! i = Some v ->
  (m ∪ mf) !! (a + 8 * Z.of_nat i) = Some v /\ mf !! (a + 8 * Z.of_nat i) = None.
Proof.
  intros Hvs Hs Hd Hi. destruct (array_lookup _ _ _ i v Hvs Hi) as [Hm1 _].
  assert (Hm : m !! (a + 8 * Z.of_nat i) = Some v) by (eapply lookup_weaken; [done|]; etrans; [|done]; apply map_union_subseteq_l).
  split; [by apply lookup_union_Some_l|by eapply map_disjoint_Some_l].
Qed.

(** [madvise]: the words that are given stay, with other values. *)
Lemma wp_madvise_array a vs s Φ : a mod 8 = 0 ->
  array a vs -∗ (∀ r s', ⌜same s s'⌝ -∗ junk a (8 * Z.of_nat (length vs)) -∗ Φ r s') -∗
  wp (os (madvise sys_madvise a (8 * Z.of_nat (length vs)) MADV_DONTNEED)) s Φ.
Proof.
  intros Ha. apply bi.entails_wand, bi.wand_intro_r. apply wp_os.
  intros m mf Hd (m1 & m2 & Hs & Hd12 & Hvs & HΦ). unfold madvise.
  pose proof (madvise_law a (8 * Z.of_nat (length vs)) (kernel s) (m ∪ mf) ltac:(lia)) as Hlaw.
  destruct (sys_madvise _ _ _ _) as [r [k' R]]. destruct Hlaw as (Ht & _ & HR).
  destruct (syscall_ret r) as [p e].
  destruct (kept_outside m m1 m2 mf R Hs Hd12 Hd) as [Hmf Hm2].
  { intros w v Hw Hv. destruct (HR w) as [->|(Hin & _ & _)]; [done|].
    destruct (array_words _ _ _ Hvs Ha w Hin) as [v' Hv']. by rw Hw in Hv'. }
  split; [done|]. set (ws := (fun i => default 0 (R !! (a + 8 * Z.of_nat i))) <$> seq 0 (length vs)).
  assert (Hws : array a ws ((R ∖ mf) ∖ m2)).
  { apply array_holds; [done|]. intros i v Hi. unfold ws in Hi. apply list_lookup_fmap_Some in Hi as (j & -> & Hj).
    apply lookup_seq in Hj as [-> Hj]. cbn. destruct (lookup_lt_is_Some_2 vs i Hj) as [v' Hv'].
    destruct (given_lookup _ _ _ _ _ _ i v' Hvs Hs Hd Hv') as [Hm Hmfi]. destruct (array_lookup _ _ _ i v' Hvs Hv') as [Hm1 _].
    assert (HRi : exists v, R !! (a + 8 * Z.of_nat i) = Some v).
    { destruct (HR (a + 8 * Z.of_nat i)) as [E|(_ & _ & E)]; [|by exists 0]. exists v'. by rw E. }
    destruct HRi as [v HRi]. rw HRi. apply lookup_difference_Some. split; [by apply lookup_difference_Some|].
    by eapply map_disjoint_Some_l. }
  assert (Hlen : length ws = length vs) by (unfold ws; by rw length_fmap length_seq).
  pose proof (sep_difference _ _ _ _ _ Hm2 Hws HΦ) as Hsep.
  revert Hsep. apply entails_holds. iIntros "[Ha HΦ]". iApply ("HΦ" with "[%] [Ha]"); [by apply same_after|].
  rw -Hlen. by iApply array_junk.
Qed.

Lemma wp_madvise a n s Φ : a mod 8 = 0 ->
  junk a n -∗ (∀ r s', ⌜same s s'⌝ -∗ junk a n -∗ Φ r s') -∗ wp (os (madvise sys_madvise a n MADV_DONTNEED)) s Φ.
Proof. iIntros (Ha) "(%vs & -> & H) HΦ". iApply (wp_madvise_array with "H"); [done|]. iIntros (r s') "Hs H". by iApply ("HΦ" with "Hs H"). Qed.

(** [munmap]: the words that are given may be gone. *)
Lemma wp_munmap base vs s Φ : base mod PAGE_SIZE = 0 -> (0 < length vs)%nat -> (8 * Z.of_nat (length vs)) mod PAGE_SIZE = 0 ->
  array base vs -∗ (∀ r s', ⌜same s s'⌝ -∗ Φ r s') -∗ wp (os (munmap sys_munmap base (8 * Z.of_nat (length vs)))) s Φ.
Proof.
  intros Hb Hlen Hm. apply bi.entails_wand, bi.wand_intro_r. apply wp_os.
  intros m mf Hd (m1 & m2 & Hs & Hd12 & Hvs & HΦ). unfold munmap.
  pose proof (munmap_law base (8 * Z.of_nat (length vs)) (kernel s) (m ∪ mf) Hb ltac:(lia) Hm) as Hlaw.
  destruct (sys_munmap _ _ _) as [r [k' R]]. destruct Hlaw as (Ht & _ & HR). destruct (syscall_ret r) as [p e].
  assert (Hb8 : base mod 8 = 0) by (unfold PAGE_SIZE in *; divmod).
  destruct (kept_outside m m1 m2 mf R Hs Hd12 Hd) as [Hmf Hm2].
  { intros w v Hw Hv. destruct HR as [->|HR]; [done|]. rw (HR w). destruct (in_words base _ w) eqn:Hin; [|done].
    destruct (array_words _ _ _ Hvs Hb8 w Hin) as [v' Hv']. by rw Hw in Hv'. }
  split; [done|]. apply (grows _ m2); [|done].
  revert HΦ. apply entails_holds. iIntros "HΦ". iApply "HΦ". iPureIntro. by apply same_after.
Qed.

(** [mremap]: the words that are given, as far as the new length goes, and zero words,
    or an error; without a system call for a length above [PTRDIFF_MAX]. *)
Lemma wp_mremap base vs new s (P : heapProp) (Φ : Z -> statics K -> heapProp) :
  base mod PAGE_SIZE = 0 -> (0 < length vs)%nat -> (8 * Z.of_nat (length vs)) mod PAGE_SIZE = 0 -> 0 < new -> new mod PAGE_SIZE = 0 ->
  array base vs -∗ P -∗
  (∀ s', ⌜same s s' /\ still s s'⌝ -∗ ⌜PTRDIFF_MAX <= new \/ exists k m, (sys_mremap base (8 * Z.of_nat (length vs)) new MREMAP_MAYMOVE 0 (k, m)).1 < 0⌝ -∗
     array base vs -∗ P -∗ Φ MAP_FAILED s') ∧
  (∀ base' s', ⌜same s s'⌝ -∗ ⌜0 < base' /\ base' mod PAGE_SIZE = 0 /\ (base' + new <= 2 ^ 47)%Z⌝ -∗
     array base' (take (page_words new) vs ++ replicate (page_words new - length vs) 0) -∗ P -∗ Φ base' s') -∗
  wp (os (mremap sys_mremap base (8 * Z.of_nat (length vs)) new MREMAP_MAYMOVE 0)) s Φ.
Proof.
  iIntros (Hb Hl Hlm Hn Hnm) "Ha HP HΦ". iStopProof. apply wp_os. intros m mf Hd HPm.
  pose proof HPm as (m1 & m2 & Hs & Hd12 & Hvs & HΦ). unfold mremap.
  assert (Hb8 : base mod 8 = 0) by (unfold PAGE_SIZE in *; divmod).
  destruct (Z.leb_spec PTRDIFF_MAX new) as [Hbig|Hbig].
  { split; [by apply map_union_subseteq_r|]. rw union_minus; [|done]. revert HPm. apply entails_holds. iIntros "(Ha & HP & HΦ & _)".
    iApply ("HΦ" with "[%] [%] Ha HP"); [split; [by apply same_after|done]|by left]. }
  change (nz (Z.land MREMAP_MAYMOVE MREMAP_FIXED)) with false. cbv iota. set (len := 8 * Z.of_nat (length vs)) in *.
  pose proof (mremap_law base len new (kernel s) (m ∪ mf) Hb ltac:(lia) Hlm Hn Hnm) as Hlaw.
  assert (Hgiven : forall w, in_words base (base + len) w = true -> is_Some ((m ∪ mf) !! w)).
  { intros w Hw. destruct (array_words _ _ _ Hvs Hb8 w Hw) as [v Hv]. exists v. apply lookup_union_Some_l. eapply lookup_weaken; [done|].
    etrans; [|done]. apply map_union_subseteq_l. }
  specialize (Hlaw Hgiven). destruct (sys_mremap base len new MREMAP_MAYMOVE 0 (kernel s, m ∪ mf)) as [r [k' R]] eqn:Esys.
  destruct Hlaw as (Ht & Href & [(Hr & ->)|(Hr0 & Hrm & Hrl & m0 & Hm0 & HR)]).
  { rw (error_result r Hr). cbn [fst snd]. split; [by apply map_union_subseteq_r|]. rw union_minus; [|done].
    revert HPm. apply entails_holds. iIntros "(Ha & HP & HΦ & _)".
    iApply ("HΦ" with "[%] [%] Ha HP"); [split; [by apply same_after|done]|]. right. exists (kernel s), (m ∪ mf). rw Esys. cbn. lia. }
  rw (address_result r); [|lia].
  destruct (kept_outside m m1 m2 mf R Hs Hd12 Hd) as [Hmf Hm2].
  { intros w v Hw Hv. assert (Hm0w : m0 !! w = Some v).
    { rw (Hm0 w). destruct (in_words base (base + len) w) eqn:Hin; [|done]. destruct (array_words _ _ _ Hvs Hb8 w Hin) as [v' Hv']. by rw Hw in Hv'. }
    specialize (HR w). destruct (in_words r (r + new) w); [destruct HR as [HR _]; by rw HR in Hm0w|by rw HR]. }
  split; [done|].
  assert (Hws : array r (take (page_words new) vs ++ replicate (page_words new - length vs) 0) ((R ∖ mf) ∖ m2)).
  { apply array_holds; [unfold PAGE_SIZE in *; divmod|]. intros i v Hi. pose proof (page_words_ok new ltac:(lia) Hnm) as Hw.
    specialize (HR (r + 8 * Z.of_nat i)). 
    assert (Hi2 : (i < page_words new)%nat).
    { apply lookup_lt_Some in Hi. rw length_app length_take length_replicate in Hi. lia. }
    assert (Hin : in_words r (r + new) (r + 8 * Z.of_nat i) = true).
    { rw -Hw. apply in_words_index; [unfold PAGE_SIZE in *; divmod|]. by exists i. }
    rw Hin in HR. destruct HR as [Hn0 HRi]. replace (r + 8 * Z.of_nat i - r) with (8 * Z.of_nat i) in HRi by lia.
    assert (HRv : R !! (r + 8 * Z.of_nat i) = Some v).
    { rw HRi. destruct (Z.ltb_spec (8 * Z.of_nat i) len) as [Hlt|Hge].
      - rw lookup_app_l in Hi; [|rw length_take; lia]. rw lookup_take_lt in Hi; [|lia].
        by destruct (given_lookup _ _ _ _ _ _ i v Hvs Hs Hd Hi).
      - rw lookup_app_r in Hi; [|rw length_take; lia]. by apply lookup_replicate in Hi as [-> _]. }
    assert (Hout : forall m', m' ⊆ m ∪ mf -> m1 ##ₘ m' -> m' !! (r + 8 * Z.of_nat i) = None).
    { intros m' Hs' Hd'. destruct (m' !! (r + 8 * Z.of_nat i)) as [v'|] eqn:E; [|done]. exfalso.
      pose proof (lookup_weaken _ _ _ _ E Hs') as E'. rw (Hm0 (r + 8 * Z.of_nat i)) in Hn0.
      destruct (in_words base (base + len) (r + 8 * Z.of_nat i)) eqn:Hin2; [|by rw E' in Hn0].
      destruct (array_words _ _ _ Hvs Hb8 _ Hin2) as [v2 Hv2]. by rw (map_disjoint_Some_l _ _ _ _ Hd' Hv2) in E. }
    apply lookup_difference_Some. split; [apply lookup_difference_Some; split; [done|]|].
    - apply Hout; [by apply map_union_subseteq_r|]. eapply map_disjoint_weaken_l; [done|]. etrans; [|done]. apply map_union_subseteq_l.
    - apply Hout; [|done]. apply map_union_subseteq_l'. transitivity (m1 ∪ m2); [by apply map_union_subseteq_r|done]. }
  pose proof (sep_difference _ _ _ _ _ Hm2 Hws HΦ) as Hsep. revert Hsep. apply entails_holds. iIntros "(Ha & HP & _ & HΦ)".
  iApply ("HΦ" with "[%] [%] Ha HP"); [by apply same_after|done].
Qed.

(** [mmap] refuses a length above [PTRDIFF_MAX]. *)
Lemma wp_mmap_refused len s (Φ : Z -> statics K -> heapProp) : PTRDIFF_MAX <= len ->
  (∀ s', ⌜same s s' /\ errno_set s'⌝ -∗ Φ MAP_FAILED s') -∗
  wp (os (mmap sys_mmap 0 len (Z.lor PROT_READ PROT_WRITE) (Z.lor MAP_PRIVATE MAP_ANON) (-1) 0)) s Φ.
Proof.
  intros Hl. apply bi.entails_wand. apply wp_os. intros m mf Hd HΦ. unfold mmap. rw (Z.land_0_l OFF_MASK). cbn [nz Z.eqb negb].
  rw (proj2 (Z.leb_le PTRDIFF_MAX len)); [|done]. split; [by apply map_union_subseteq_r|]. rw union_minus; [|done].
  revert HΦ. apply entails_holds. iIntros "HΦ". iApply "HΦ". iPureIntro. by split; [apply same_after|].
Qed.
End os.
