(* ===== verification/MallocFree.v ===== *)
(** * Freeing ([free] of [malloc/malloc.c])

    The heap as one assertion, indexed by the chunks in use, and [free]: the chunk and
    its free neighbours become one free chunk at the end of its bin, in at most two
    turns of the loop. *)
From iris.proofmode Require Import proofmode.
From S2P Require Import Prelude IntOps Mman Seplog Chunks Segments Malloc MallocHeap MallocOps MallocOs.

Section free.
Context {K : Type} `{PagesLaws K} (mal : Z) (Hmal : 0 < mal).
Context (fuel : nat) (Hfuel : (2 <= fuel)%nat).
Implicit Types (s : statics K).

(** * The end of [free] *)
Lemma wp_reclaim self n s Φ : 0 < self -> self mod 8 = 0 -> good_size n -> self + n < 2 ^ 47 -> RECLAIM < n ->
  junk (self + 32) (n - 32) -∗ (∀ s', ⌜same s s'⌝ -∗ junk (self + 32) (n - 32) -∗ Φ tt s') -∗
  wp (let a := Z.land (u64 (self + SIZE_ALIGN + PAGE_SIZE - 1)) (u64 (- PAGE_SIZE)) in
      let b := Z.land (u64 (self + n - SIZE_ALIGN)) (u64 (- PAGE_SIZE)) in
      os (madvise sys_madvise a (u64 (b - a)) MADV_DONTNEED);; ret tt)%prog s Φ.
Proof.
  iIntros (H1 H2 [H3 H4] H5 H6) "Hj HΦ". unfold SIZE_ALIGN, RECLAIM in *. cbv zeta.
  rw !page_mask; [|lia|unfold PAGE_SIZE; lia].
  set (x := self + 4 * 8 + PAGE_SIZE - 1). set (y := self + n - 4 * 8).
  set (a := x - x mod PAGE_SIZE). set (b := y - y mod PAGE_SIZE).
  assert (Hab : self + 32 <= a /\ a <= b /\ b <= self + n - 32 /\ a mod 8 = 0 /\ b mod 8 = 0) by (unfold a, b, x, y, PAGE_SIZE; divmod).
  destruct Hab as (Ha1 & Ha2 & Ha3 & Ha4 & Ha5). clearbody a b. clear x y. rw (wrap_small 64); [|lia].
  assert (E : junk (self + 32) (n - 32) ⊣⊢ junk (self + 32) (a - (self + 32)) ∗ junk a (b - a) ∗ junk b (self + n - b)).
  { replace (n - 32) with ((a - (self + 32)) + ((b - a) + (self + n - b))) by lia.
    rw (junk_split _ (a - (self + 32))); [|lia|divmod|lia]. replace (self + 32 + (a - (self + 32))) with a by lia.
    rw (junk_split a (b - a)); [|lia|divmod|lia]. by replace (a + (b - a)) with b by lia. }
  iDestruct (E with "Hj") as "(Hj1 & Hj2 & Hj3)".
  iApply wp_seq. iApply (wp_madvise with "Hj2"); [done|]. iIntros (r s') "%Hs Hj2". iApply wp_ret.
  iApply ("HΦ" with "[//]"). iApply E. iFrame.
Qed.

Lemma wp_bin_chunk c0 b1 n b2 new rc G F l s Φ : reclaim_ok new n rc -> gap c0 b1 n b2 G F (binmap s) ->
  l ≡ₚ members (bin_index n) F ->
  path (BIN_TO_CHUNK mal (bin_index n)) l (BIN_TO_CHUNK mal (bin_index n)) -∗ bins_but mal (bin_index n) F -∗
  left c0 b1 -∗ junk (c0 + total b1 + 8) n -∗ right (c0 + total b1 + n) b2 -∗
  (∀ b s', ⌜binmap_ok b (((c0 + total b1)%Z, n) :: F)⌝ -∗ ⌜same (set_binmap b s) s'⌝ -∗
    bins mal ((c0 + total b1, n) :: F) -∗ seg (c0, b1 ++ (n, false) :: b2) -∗ Φ tt s') -∗
  wp (bin_chunk mal (c0 + total b1) (c0 + total b1 + n) n rc (bin_index n)) s Φ.
Proof.
  iIntros (Hrc (Hok & HF & HFok & Hb) Hl) "Hp HB Hleft Hm Hright HΦ".
  pose proof (proj1 (seg_ok_mid _ _ _ _) Hok) as (H1 & H2 & H3 & H4 & H5 & H6 & H7 & H8).
  pose proof (bin_index_range n H4) as Hi. pose proof (blocks_nonneg b1 H3) as [Ht1 Ht2]. pose proof (blocks_nonneg b2 H5) as [Ht3 _].
  set (c := c0 + total b1) in *. set (i := bin_index n) in *. unfold bin_chunk.
  iAssert (wp (when (negb (nz (Z.land (binmap s) (Z.shiftl 1 i)))) (let! b := get binmap in set (set_binmap (Z.lor b (Z.shiftl 1 i))))) s
    (fun _ s0 => ⌜s0 = set_binmap (set_bit (binmap s) i) s⌝))%I as "Hw".
  { rw bit_set; [|lia]. destruct (Z.testbit (binmap s) i) eqn:E; cbn [negb when].
    - iApply wp_ret. rw set_bit_same; [|lia|done]. by rw set_binmap_same.
    - rd. by iApply wp_set. }
  rd. iApply wp_seq. iApply (wp_wand with "Hw"). iIntros (? ? ->). iClear "Hw". set (s1 := set_binmap _ s).
  iDestruct (hole_open with "Hm") as "((%v & Hh) & Hj & (%w & Hf))"; [done|].
  unfold csize, psize, next_, prev_. st "Hh". st "Hf".
  replace (n - 16) with (16 + (n - 32)) by lia. iDestruct (junk_split with "Hj") as "[Hj2 Hj]"; [done|done|unfold good_size in H4; lia|].
  iDestruct (junk_pair with "Hj2") as "[(%v1 & Hn) (%v2 & Hp2)]". replace (c + 16 + 8) with (c + 24) by lia.
  replace (c + 16 + 16) with (c + 32) by lia.
  st "Hn". iDestruct (path_last with "Hp") as "[Hp [Hpn Hpp]]". rw tail_bin.
  ld "Hpp". st "Hp2". ld "Hn". st "Hpp". ld "Hp2". st "Hpn".
  set (bin := BIN_TO_CHUNK mal i) in *.
  iAssert (path bin (l ++ [c]) bin) with "[Hp Hpn Hp2 Hn Hpp]" as "Hp".
  { rw path_snoc path_last. iFrame. }
  iAssert (bins mal ((c, n) :: F)) with "[Hp HB]" as "HB".
  { iApply (bins_cons with "Hp HB"); [done|]. by rw Hl Permutation_app_comm. }
  iAssert (wp (when rc _) s1 (fun _ s' => ⌜same s1 s'⌝ ∗ junk (c + 32) (n - 32)))%I with "[Hj]" as "Hw".
  { destruct rc; cbn [when].
    - iApply (wp_reclaim with "Hj"); [lia|divmod|done|lia|by apply Hrc|]. iIntros (s') "%Hs Hj". by iFrame.
    - iApply wp_ret. by iFrame. }
  iApply (wp_wand with "Hw"). iIntros ([] s') "[%Hs Hj]".
  iApply ("HΦ" with "[%] [%] HB"); [by apply binmap_add|done|].
  rw seg_split right_cons. unfold block. cbn [fst snd]. rw tag_free. iFrame.
Qed.

(** * The heap *)

(** [brk] of [__expand_heap] is not below the break, and [mmap_step] has not gone far. *)
Definition os_ok (s : statics K) : Prop :=
  0 <= brk s <= 2 ^ 47 /\ brk s mod PAGE_SIZE = 0 /\ (brk s = 0 \/ top (kernel s) <= brk s) /\ 0 <= mmap_step s <= 80.

(** [end] of [expand_heap] is the end of a segment. *)
Definition end_ok (s : statics K) (segs : list segment) : Prop :=
  heap_end s = 0 \/ heap_end s ∈ ((fun sg => seg_end sg + 16) <$> segs).

Definition heap_ok (s : statics K) (segs : list segment) (U : list (Z * Z)) : Prop :=
  Forall seg_ok segs /\ heap_chunks true segs ≡ₚ U /\ binmap_ok (binmap s) (heap_chunks false segs) /\
  end_ok s segs /\ os_ok s.

(** The heap with the chunks [U] in use: addresses and sizes. *)
Definition heap (s : statics K) (U : list (Z * Z)) : heapProp :=
  (∃ segs, ⌜heap_ok s segs U⌝ ∗ ([∗ list] sg ∈ segs, seg sg) ∗ bins mal (heap_chunks false segs))%I.

Lemma heap_reorder s U U' : U ≡ₚ U' -> heap s U ⊢ heap s U'.
Proof.
  iIntros (HU) "(%segs & (%H1 & %H2 & %H3) & H)". iExists segs. iFrame. iPureIntro. split; [done|]. by rw H2.
Qed.

(** A heap around a chunk in use. *)
Lemma heap_open s c n U : heap s ((c, n) :: U) ⊢ ∃ c0 b1 b2 segs,
  ⌜c = (c0 + total b1)%Z /\ Forall seg_ok segs /\ U ≡ₚ chunks true c0 b1 ++ chunks true (c + n)%Z b2 ++ heap_chunks true segs /\
   end_ok s ((c0, b1 ++ (n, true) :: b2) :: segs) /\ os_ok s⌝ ∗
  (∃ F, ⌜gap c0 b1 n b2 (heap_chunks false segs) F (binmap s)⌝ ∗ bins mal F) ∗
  left c0 b1 ∗ (c + 8) ↦ tag (n, true) ∗ (c + n) ↦ tag (n, true) ∗ right (c + n) b2 ∗ ([∗ list] sg ∈ segs, seg sg).
Proof.
  iIntros "(%segs & (%Hok & %HU & %Hb & %He & %Hos) & Hs & HB)".
  destruct (heap_focus _ _ _ _ _ HU) as (c0 & b1 & b2 & segs' & Hsegs & -> & HU').
  iExists c0, b1, b2, segs'. rw Hsegs in Hok. apply list.Forall_cons in Hok as [Hok1 Hok2].
  iSplit; [|iSplitL "HB"].
  - iPureIntro. split; [done|]. split; [done|]. split; [done|]. split; [|done].
    destruct He as [He|He]; [by left|right]. by rw -Hsegs.
  - iExists (heap_chunks false segs). iFrame. iPureIntro. split; [done|]. split; [|split; [|done]].
    + by rw Hsegs heap_chunks_cons.
    + apply heap_chunks_ok. rw Hsegs. by apply list.Forall_cons.
  - rw (big_opL_permutation _ _ _ Hsegs). iDestruct "Hs" as "[H1 $]". rw seg_split right_cons.
    iDestruct "H1" as "(H1 & (H2 & H3 & _) & H4)". cbn [fst]. iFrame.
Qed.
Lemma heap_close s c0 bs segs F U : seg_ok (c0, bs) -> Forall seg_ok segs -> F ≡ₚ chunks false c0 bs ++ heap_chunks false segs ->
  binmap_ok (binmap s) F -> chunks true c0 bs ++ heap_chunks true segs ≡ₚ U -> end_ok s ((c0, bs) :: segs) -> os_ok s ->
  seg (c0, bs) -∗ ([∗ list] sg ∈ segs, seg sg) -∗ bins mal F -∗ heap s U.
Proof.
  iIntros (H1 H2 HF H3 H4 H5 H6) "Hs Hsegs HB". iExists ((c0, bs) :: segs). iSplit; [iPureIntro|iSplitL "Hs Hsegs"].
  - split; [by apply list.Forall_cons|]. rw !heap_chunks_cons. split; [done|]. split; [|done]. unfold seg_chunks. cbn [fst snd]. by rw -HF.
  - iFrame.
  - rw heap_chunks_cons. by iApply bins_reorder.
Qed.

(** The tags of a chunk in use. *)
Lemma heap_tags s c n U : heap s ((c, n) :: U) ⊢ ⌜chunk_ok (c, n)⌝ ∗ (c + 8) ↦ tag (n, true) ∗ (c + n) ↦ tag (n, true) ∗
  ((c + 8) ↦ tag (n, true) -∗ (c + n) ↦ tag (n, true) -∗ heap s ((c, n) :: U)).
Proof.
  iIntros "Hheap". iDestruct (heap_open with "Hheap") as (c0 b1 b2 segs) "((-> & %Hsegs & %HU & %He & %Hos) & (%F & %Hgap & HB) & Hl & $ & $ & Hr & Hs)".
  destruct Hgap as (Hok & HF & HFok & Hb). iSplit.
  - iPureIntro. by eapply mid_chunk_ok.
  - iIntros "Hh Hf". iApply (heap_close s c0 (b1 ++ (n, true) :: b2) with "[Hl Hh Hf Hr] Hs HB"); [done..| |done|done|].
    + rw HU chunks_mid. cbn [eqb app]. rw -app_assoc. cbn [app]. by rw -Permutation_middle.
    + rw seg_split right_cons. unfold block. cbn [fst snd]. iFrame.
Qed.

Lemma same_os s s' : same s s' -> os_ok s -> os_ok s'.
Proof. intros ((_ & _ & E1 & E2) & E3) H1. unfold os_ok. by rw E1 E2 E3. Qed.

Lemma same_end s s' segs : same s s' -> end_ok s segs -> end_ok s' segs.
Proof. intros ((_ & E & _) & _) H1. unfold end_ok. by rw E. Qed.

(** [free] takes a chunk out of those in use. *)
Lemma wp_free c n U s Φ :
  heap s ((c, n) :: U) -∗ junk (c + 16) (n - 16) -∗ (∀ s', heap s' U -∗ Φ tt s') -∗ wp (free mal fuel (c + 16)) s Φ.
Proof.
  iIntros "Hheap Hj HΦ". iDestruct (heap_open with "Hheap") as (c0 b1 b2 segs) "((-> & %Hsegs & %HU & %He & %Hos) & (%F & %Hgap & HB) & Hl & Hh & Hf & Hr & Hs)".
  pose proof Hgap as (Hok & _). pose proof (proj1 (seg_ok_mid _ _ _ _) Hok) as (H1 & H2 & H3 & H4 & H5 & H6 & H7 & H8).
  pose proof (blocks_nonneg b1 H3) as [Ht1 Ht2]. set (c := c0 + total b1) in *. unfold free.
  rw (proj2 (Z.eqb_neq (c + 16) 0)); [|lia]. unfold MEM_TO_CHUNK, OVERHEAD. replace (c + 16 - 2 * 8) with c by lia.
  iApply wp_seq. unfold IS_MMAPPED, csize. ld "Hh". iApply wp_ret. rw tag_flag; [|done]. cbn [negb snd].
  iApply wp_seq. iApply (wp_CHUNK_SIZE with "Hh"); [done|]. iIntros "Hh". cbn [fst].
  iApply wp_seq. iApply (wp_NEXT_CHUNK with "Hh"); [done|]. iIntros "Hh". cbn [fst]. unfold psize.
  ld "Hf". ld "Hh". rw Z.eqb_refl. cbn [negb].
  iApply wp_seq. iApply (wp_free_loop with "Hl [Hh Hf Hj] Hr HB"); [done|lia|done| |done| |].
  { split; [destruct H4; lia|done]. }
  { iApply owned_hole; [done|]. rw owned_tags. iFrame. }
  iIntros (b1' n' b2' rc b F' l Hrc Hgap' Hc1 Hc2 Ht [Hb1 Hb2] Hl) "Hp HB Hl Hm Hr". cbv iota beta.
  iApply (wp_bin_chunk with "Hp HB Hl Hm Hr"); [done|done|done|]. iIntros (b' s' Hb' Hs') "HB Hseg".
  iApply "HΦ". pose proof Hgap' as (Hok' & HF' & _).
  iApply (heap_close with "Hseg Hs HB"); [by apply seg_ok_free|done| | | | |].
  - by rw chunks_false_free HF'.
  - by destruct Hs' as ((-> & _) & _).
  - rw HU chunks_mid. cbn [eqb app]. by rw Hc1 Hc2 app_assoc.
  - apply (same_end (set_binmap b' (set_binmap b s))); [done|]. unfold end_ok in *. cbn [heap_end set_binmap fmap list_fmap] in *.
    rw seg_end_mid. rw seg_end_mid in He. cbn [fst] in *. by rw Ht.
  - by apply (same_os (set_binmap b' (set_binmap b s))).
Qed.
End free.
