(* ===== verification/MallocAlloc.v ===== *)
(** * Finding memory ([malloc] of [malloc/malloc.c], [expand_heap.c])

    A chunk of at least the size asked for, from a bin or from new memory; what it has
    too much is freed. *)
From iris.proofmode Require Import proofmode.
From S2P Require Import Prelude IntOps Mman Seplog Chunks Segments Malloc MallocHeap MallocOps MallocOs MallocFree.

Section alloc.
Context {K : Type} `{PagesLaws K} (mal : Z) (Hmal : 0 < mal).
Context (fuel : nat) (Hfuel : (2 <= fuel)%nat).
Implicit Types (s : statics K).

(** * Splitting a chunk *)
Lemma chunk_split s c n m U : good_size n -> good_size m ->
  heap mal s ((c, n + m) :: U) -∗ junk (c + n) m -∗
  (c + 8) ↦ tag (n + m, true) ∗ (c + (n + m)) ↦ tag (n + m, true) ∗ (∃ v, (c + n) ↦ v) ∗ (∃ v, (c + n + 8) ↦ v) ∗
  junk (c + n + 16) (m - 16) ∗
  ((c + 8) ↦ tag (n, true) -∗ (c + n) ↦ tag (n, true) -∗ (c + n + 8) ↦ tag (m, true) -∗ (c + (n + m)) ↦ tag (m, true) -∗
   heap mal s ((c, n) :: (c + n, m) :: U)).
Proof.
  iIntros (Hn Hm) "Hheap Hj". 
  iDestruct (heap_open with "Hheap") as (c0 b1 b2 segs) "((-> & %Hsegs & %HU & %He & %Hos) & (%F & %Hgap & HB) & Hl & Hh & Hf & Hr & Hs)".
  set (c := c0 + total b1) in *. iFrame "Hh Hf".
  assert (E : junk (c + n) m ⊣⊢ junk (c + n) 16 ∗ junk (c + n + 16) (m - 16)).
  { destruct Hm. replace m with (16 + (m - 16)) at 1 by lia. rw (junk_split (c + n) 16); [done|lia|done|lia]. }
  iDestruct (E with "Hj") as "(Hj & $)". iDestruct (junk_pair with "Hj") as "[$ $]".
  iIntros "H1 H2 H3 H4". destruct Hgap as (Hok & HF & HFok & Hb).
  iApply (heap_close mal s c0 (b1 ++ (n, true) :: (m, true) :: b2) with "[Hl H1 H2 H3 H4 Hr] Hs HB").
  - by apply seg_ok_split.
  - done.
  - rw HF !chunks_mid !chunks_cons. cbn [eqb app]. by replace (c0 + total b1 + n + m) with (c0 + total b1 + (n + m)) by lia.
  - done.
  - rw HU !chunks_mid !chunks_cons. cbn [eqb app]. replace (c0 + total b1 + n + m) with (c0 + total b1 + (n + m)) by lia.
    rw -!app_assoc. cbn [app]. by rw -!Permutation_middle.
  - unfold end_ok in *. cbn [fmap list_fmap] in *. rw !seg_end_mid total_cons. rw seg_end_mid in He. cbn [fst] in *.
    by replace (total b1 + n + (m + total b2)) with (total b1 + (n + m) + total b2) by lia.
  - done.
  - rw seg_split !right_cons. unfold block. cbn [fst snd]. replace (c0 + total b1 + n + m) with (c + (n + m)) by lia. iFrame.
Qed.

(** [trim]: exactly the size asked for. *)
Lemma wp_trim c n n1 U s Φ : good_size n -> good_size n1 -> n <= n1 ->
  heap mal s ((c, n1) :: U) -∗ junk (c + n) (n1 - n) -∗
  (∀ s', heap mal s' ((c, n) :: U) -∗ Φ tt s') -∗ wp (trim mal fuel c n) s Φ.
Proof.
  iIntros (Hn Hn1 Hle) "Hh Hj HΦ". unfold trim, csize, psize. iApply wp_seq.
  iDestruct (heap_tags with "Hh") as "(%Hc & H1 & H2 & Hh)". destruct Hc as (Hc1 & Hc2 & _ & Hc3). cbn [fst snd] in *.
  iApply (wp_CHUNK_SIZE with "H1"); [done|]. iIntros "H1". cbn [fst]. iDestruct ("Hh" with "H1 H2") as "Hh".
  unfold DONTCARE. rw (wrap_small 64 (n1 - 16)); [|destruct Hn1; lia]. destruct (Z.leb_spec (n1 - 16) n) as [Hcase|Hcase].
  - assert (n1 = n) as -> by (destruct Hn, Hn1; divmod). iApply wp_ret. by iApply ("HΦ" with "Hh").
  - set (m := n1 - n) in *. assert (Hm : good_size m) by (unfold m; destruct Hn, Hn1; split; divmod).
    replace n1 with (n + m) in * by lia. clearbody m. rw (wrap_small 64); [|destruct Hn, Hm; lia]. replace (n + m - n) with m by lia.
    iDestruct (chunk_split with "Hh Hj") as "(H1 & H4 & (%v & H2) & (%w & H3) & Hj2 & Hh)"; [done|done|].
    iApply wp_seq. iApply (wp_NEXT_CHUNK with "H1"); [done|]. iIntros "H1". cbn [fst].
    st "H2". st "H3". st "H4". st "H1". unfold C_INUSE. rw !lor_inuse; [|destruct Hm; divmod|destruct Hn; divmod].
    iDestruct ("Hh" with "H1 H2 H3 H4") as "Hh". unfold CHUNK_TO_MEM, OVERHEAD.
    iApply (wp_free with "[Hh] Hj2"); [done|done| |].
    { iApply (heap_reorder with "Hh"). by rw Permutation_swap. }
    iIntros (s') "Hh". by iApply ("HΦ" with "Hh").
Qed.

(** * New memory *)
Context (auxv sp : Z).

(** Only [brk], [mmap_step], [errno] and the kernel may change. *)
Definition quiet s s' : Prop := binmap s' = binmap s /\ heap_end s' = heap_end s /\ os_ok s'.

Lemma same_quiet s s' : os_ok s -> same s s' -> quiet s s'.
Proof. intros Ho Hs. split; [|split; [|by eapply same_os]]; by destruct Hs as [(? & ? & _) _]. Qed.

Lemma quiet_trans s1 s2 s3 : quiet s1 s2 -> quiet s2 s3 -> quiet s1 s3.
Proof. intros (E1 & E2 & _) (E3 & E4 & Ho). split; [by rw E3|split; [by rw E4|done]]. Qed.

Lemma wp_init_brk s Φ : os_ok s ->
  (∀ s', ⌜quiet s s' /\ still s s' /\ 0 < brk s' /\ top (kernel s') <= brk s'⌝ -∗ Φ tt s') -∗ wp init_brk s Φ.
Proof.
  iIntros (Ho) "HΦ". pose proof Ho as (Ho1 & Ho2 & Ho3 & Ho4). unfold init_brk. rd.
  destruct (Z.eqb_spec (brk s) 0) as [E|E]; cbn [when].
  - iApply wp_seq. iApply wp_call_brk_0. iIntros (s' [Hs Hst]). iApply wp_set. iApply "HΦ". iPureIntro.
    pose proof (top_range (kernel s)) as Ht. set (t0 := top (kernel s)) in *.
    destruct (page_pad t0) as [Hp1 Hp2]; [lia|unfold PAGE_SIZE; lia|].
    pose proof (same_quiet _ _ Ho Hs) as (Hq1 & Hq2 & _ & _ & _ & Hq3). destruct Hs as [_ Hs]. cbn [brk kernel set_brk]. rw Hs.
    split; [split; [done|split; [done|]]|split; [done|split; lia]]. split; [|split; [done|split; [right; cbn; lia|done]]].
    cbn [brk set_brk]. split; [lia|]. unfold PAGE_SIZE in *. divmod.
  - iApply wp_ret. iApply "HΦ". iPureIntro. split; [done|]. split; [done|]. split; [lia|]. by destruct Ho3.
Qed.

Lemma wp_extend_brk n s Φ : os_ok s -> 0 < brk s -> top (kernel s) <= brk s -> 0 < n < 2 ^ 62 -> n mod PAGE_SIZE = 0 ->
  (∀ s', ⌜quiet s s' /\ still s s'⌝ -∗ Φ false s') ∧
  (∀ s', ⌜kept s s' /\ top (kernel s') = (brk s + n)%Z⌝ -∗ array (brk s) (replicate (page_words n) 0) -∗ Φ true s') -∗
  wp (extend_brk auxv sp n) s Φ.
Proof.
  iIntros (Ho Hb Ht Hn Hm) "HΦ". pose proof Ho as (Ho1 & Ho2 & Ho3 & Ho4). unfold extend_brk. rd.
  rw (wrap_small 64 (brk s + n)); [|lia].
  destruct ((n <? u64 (SIZE_MAX - brk s)) && negb (traverses_stack_p auxv sp (brk s) (brk s + n))).
  - iApply wp_seq. iApply (wp_call_brk (brk s + n) (brk s) s emp%I); [lia|done|done|unfold PAGE_SIZE in *; divmod|done|].
    iSplit.
    + iIntros (s' [Hs Hst]) "_". iApply wp_ret. rw (proj2 (Z.eqb_neq (top (kernel s)) (brk s + n))); [|lia].
      iDestruct "HΦ" as "[HΦ _]". iApply "HΦ". iPureIntro. split; [by apply same_quiet|done].
    + iIntros (s' Hs) "Ha _". iApply wp_ret. rw Z.eqb_refl. iDestruct "HΦ" as "[_ HΦ]".
      replace (brk s + n - brk s) with n by lia. by iApply ("HΦ" with "[//] Ha").
  - iApply wp_ret. iDestruct "HΦ" as "[HΦ _]". by iApply "HΦ".
Qed.

Lemma wp___expand_heap n0 s Φ : os_ok s -> 0 < n0 <= 2 ^ 40 ->
  (∀ s', ⌜quiet s s' /\ errno_set s' /\ asked s s' n0 (n0 + PAGE_SIZE)⌝ -∗ Φ (0, n0) s') ∧
  (∀ s' p n, ⌜quiet s s'⌝ -∗ ⌜n0 <= n /\ n mod PAGE_SIZE = 0 /\ 0 < p /\ p mod PAGE_SIZE = 0 /\ (p + n <= 2 ^ 47)%Z⌝ -∗
     array p (replicate (page_words n) 0) -∗ Φ (p, n) s') -∗
  wp (__expand_heap auxv sp n0) s Φ.
Proof.
  iIntros (Ho Hn0) "HΦ". unfold __expand_heap. 
  rw (proj2 (Z.ltb_ge (SIZE_MAX / 2 - PAGE_SIZE) n0)); [|unfold PAGE_SIZE; change (SIZE_MAX / 2) with (2 ^ 63 - 1); lia].
  destruct (page_pad n0 ltac:(lia) ltac:(unfold PAGE_SIZE; lia)) as [Hn1 Hn2]. cbv zeta.
  set (n := u64 (n0 + Z.land (u64 (- n0)) (PAGE_SIZE - 1))) in *. clearbody n. assert (PAGE_SIZE = 4096) as HP by done.
  iApply wp_seq. iApply wp_init_brk; [done|]. iIntros (s1) "(%Hq1 & %Hst1 & %Hb1 & %Ht1)". pose proof Hq1 as (_ & _ & Ho1).
  pose proof Ho1 as (Hbr & Hbm & _ & Hstep).
  iApply wp_seq. iApply wp_extend_brk; [done|done|done|lia|done|]. iSplit.
  - iIntros (s2 [Hq2 Hst2]). cbv iota. pose proof Hq2 as (_ & _ & _ & _ & _ & Hstep2). rd.
    rw (proj2 (Z.leb_gt 64 (mmap_step s2 / 2))); [|divmod].
    assert (Hmin : u64 (Z.shiftl PAGE_SIZE (mmap_step s2 / 2)) = 4096 * 2 ^ (mmap_step s2 / 2)).
    { rw Z.shiftl_mul_pow2; [|divmod]. apply wrap_small. split; [lia|].
      assert (2 ^ (mmap_step s2 / 2) <= 2 ^ 40) by (apply Z.pow_le_mono_r; divmod). lia. }
    rw Hmin. set (k := mmap_step s2 / 2) in *. assert (0 <= k <= 40) as Hk by (unfold k; divmod).
    assert (0 < 2 ^ k <= 2 ^ 40) as Hpow by (split; [lia|apply Z.pow_le_mono_r; lia]).
    set (n' := if n <? _ then _ else n). assert (Hn' : n <= n' /\ 4096 * 2 ^ k <= n' /\ n' < 2 ^ 63 - 1 /\ n' mod PAGE_SIZE = 0 /\ n' = Z.max n (PAGE_SIZE * 2 ^ k)).
    { unfold n'. rw HP in Hn2. rw HP. destruct (Z.ltb_spec n (4096 * 2 ^ k)); [|lia].
      split; [lia|]. split; [lia|]. split; [lia|]. split; [by rw Z.mul_comm Z_mod_mult|lia]. }
    clearbody n'. destruct Hn' as (Hn'1 & Hn'2 & Hn'3 & Hn'4 & Hn'5).
    iApply wp_seq. iApply (wp_mmap n' s2 emp%I); [lia|done|done|done|]. iSplit.
    + iIntros (s3 (Hs3 & Herr & Href)) "_". rw Z.eqb_refl. iApply wp_ret. iDestruct "HΦ" as "[HΦ _]". iApply "HΦ". iPureIntro. split; [|split; [done|]].
      * pose proof Hq2 as (_ & _ & Ho2). eapply quiet_trans; [done|]. eapply quiet_trans; [done|]. by apply same_quiet.
      * exists n'. split; [by eapply since_last_refused; [apply still_since; by eapply still_trans|]|].
        assert (Est : mmap_step s3 = mmap_step s2) by (destruct Hs3 as [(_ & _ & _ & E) _]; done). rw Est. fold k. lia.
    + iIntros (p s3 Hs3 (Hp1 & Hp2 & Hp3)) "Ha _". rw (proj2 (Z.eqb_neq p MAP_FAILED)); [|unfold MAP_FAILED; lia].
      rd. up. iApply wp_ret. iDestruct "HΦ" as "[_ HΦ]". iApply ("HΦ" with "[%] [%] Ha"); [|split; [lia|done]].
      pose proof Hq2 as (_ & _ & Ho2). pose proof (same_quiet _ _ Ho2 Hs3) as Hq3.
      eapply quiet_trans; [done|]. eapply quiet_trans; [done|]. destruct Hq3 as (E1 & E2 & E3 & E4 & E5 & E6).
      assert (Est : mmap_step s3 = mmap_step s2) by (destruct Hs3 as [(_ & _ & _ & E) _]; done).
      assert (k <= 35) as Hk35 by (apply Z.lt_succ_r, (Z.pow_lt_mono_r_iff 2); lia).
      split; [done|]. split; [done|]. split; [done|]. split; [done|]. split; [done|]. cbn [mmap_step set_step].
      rw Est wrap_small; [|lia]. unfold k in Hk35. clear - Hk35 Hstep2. divmod.
  - iIntros (s2 (Hk2 & Ht2)) "Ha". cbv iota. rd. up. rd. iApply wp_ret. iDestruct "HΦ" as "[_ HΦ]". cbn [brk set_brk].
    destruct Hk2 as (E1 & E2 & E3 & E4). rw E3 (wrap_small 64 (brk s1 + n)); [|lia]. rw (wrap_small 64); [|lia].
    replace (brk s1 + n - n) with (brk s1) by lia. iApply ("HΦ" with "[%] [%] Ha").
    + pose proof Hq1 as (F1 & F2 & _). split; [cbn; by rw E1|]. split; [cbn; by rw E2|]. pose proof (top_range (kernel s2)).
      split; [cbn; lia|]. cbn [brk set_brk kernel mmap_step]. split; [rw HP in Hbm; rw HP in Hn2; rw HP; divmod|].
      split; [right; lia|by rw E4].
    + pose proof (top_range (kernel s2)). split; [lia|]. split; [done|]. split; [done|]. split; [done|lia].
Qed.

Lemma heap_quiet s s' U : quiet s s' -> heap mal s U ⊢ heap mal s' U.
Proof.
  iIntros ((E1 & E2 & E3)) "(%segs & (%H1 & %H2 & %H3 & %H4 & %H5) & H)". iExists segs. iFrame. iPureIntro.
  split; [done|]. split; [done|]. rw E1. split; [done|]. split; [|done]. unfold end_ok. by rw E2.
Qed.

Lemma quiet_set_end s v : os_ok s -> os_ok (set_end v s).
Proof. done. Qed.

(** [expand_heap] *)
Lemma wp_expand_heap n U s Φ : good_size n -> n <= MMAP_THRESHOLD -> 
  heap mal s U -∗
  (∀ s', ⌜errno_set s' /\ asked s s' n (n + PAGE_SIZE + 32)⌝ -∗ heap mal s' U -∗ Φ 0 s') ∧
  (∀ s' c n', ⌜good_size n' /\ n <= n'⌝ -∗ heap mal s' ((c, n') :: U) -∗ junk (c + 16) (n' - 16) -∗ Φ c s') -∗
  wp (expand_heap auxv sp n) s Φ.
Proof.
  iIntros (Hn Hle) "(%segs & %Hok & Hs & HB) HΦ". pose proof Hok as (H1 & H2 & H3 & H4 & H5).
  unfold expand_heap, SIZE_ALIGN. assert (MMAP_THRESHOLD = 229376) as HT by done. destruct Hn as [Hn1 Hn2].
  rw (wrap_small 64); [|lia]. iApply wp_seq. iApply wp___expand_heap; [done|lia|]. iSplit.
  { iIntros (s' (Hq & Herr & len & Hlast & Hlen)). cbv beta iota. rw Z.eqb_refl. iApply wp_ret. iDestruct "HΦ" as "[HΦ _]". iApply ("HΦ" with "[%]").
    { split; [done|]. exists len. split; [done|]. unfold PAGE_SIZE in *. lia. }
    iApply heap_quiet; [done|]. iExists segs. by iFrame. }
  iIntros (s' p n2 (Q1 & Q2 & Q3) (Hp1 & Hp2 & Hp3 & Hp4 & Hp5)) "Ha". cbv beta iota.
  iDestruct (array_junk with "Ha") as "Ha". rw length_replicate page_words_ok; [|lia|done].
  rw (proj2 (Z.eqb_neq p 0)); [|lia]. rd. rw Q2. unfold MEM_TO_CHUNK, OVERHEAD, psize, csize, C_INUSE.
  assert (PAGE_SIZE = 4096) as HP by done. rw HP in Hp2 Hp4. iApply wp_seq.
  destruct (Z.eqb_spec p (heap_end s)) as [E|E].
  - (* in place *)
    iApply wp_ret. cbv beta iota. up. rd. cbn [heap_end set_end].
    replace (p + n2 - 2 * 8) with (p + (n2 - 16)) by lia. replace (p - 2 * 8 + 8) with (p - 8) by lia.
    assert (E' : junk p n2 ⊣⊢ junk p (n2 - 16) ∗ (∃ v, (p + (n2 - 16)) ↦ v) ∗ (∃ v, (p + (n2 - 16) + 8) ↦ v)).
    { replace n2 with ((n2 - 16) + 16) at 1 by lia. rw junk_split; [|lia|divmod|lia]. by rw junk_pair. }
    iDestruct (E' with "Ha") as "(Hj & (%v & Hf) & (%w & He))". clear E'. st "Hf". st "He".
    destruct H4 as [H4|H4]; [lia|]. apply list_elem_of_fmap in H4 as ([c0 bs] & Hend & Hin). apply elem_of_Permutation in Hin as (segs' & Hsegs).
    rw (big_opL_permutation _ _ _ Hsegs). iDestruct "Hs" as "[[Hl Hh] Hs]". cbn [fst snd].
    rw Hsegs in H1. apply list.Forall_cons in H1 as [Hc0 Hsok]. rw Hsegs heap_chunks_cons in H2. rw Hsegs heap_chunks_cons in H3.
    replace (p - 8) with (seg_end (c0, bs) + 8) by lia. st "Hh". iApply wp_ret.
    change (Z.lor 0 1) with 1. rw lor_inuse; [|divmod].
    iDestruct "HΦ" as "[_ HΦ]". replace (p - 2 * 8) with (seg_end (c0, bs)) by lia.
    iApply ("HΦ" $! _ (seg_end (c0, bs)) n2 with "[%] [Hl Hh Hf He Hs HB] [Hj]"); [unfold good_size; split; [split; [divmod|lia]|lia]| |].
    + iApply (heap_close mal _ c0 (bs ++ [(n2, true)]) with "[Hl Hh Hf He] Hs HB").
      * apply seg_ok_extend; [done|split; [divmod|lia]|]. lia.
      * done.
      * rw Hsegs heap_chunks_cons chunks_mid. cbn [eqb app chunks]. by rw app_nil_r.
      * cbn [binmap set_end]. by rw Q1 Hsegs heap_chunks_cons.
      * rw chunks_mid. cbn [eqb app chunks]. rw -H2 -app_assoc. cbn [app]. by rw -Permutation_middle.
      * right. apply elem_of_cons. left. cbn [heap_end set_end]. rw seg_end_mid. cbn [fst total]. unfold seg_end in Hend. cbn [fst snd] in Hend. lia.
      * done.
      * rw seg_split. unfold right, run, block, tag. unfold seg_end in *. cbn [fst snd total b2z] in *.
        replace (c0 + total bs + n2) with (p + (n2 - 16)) by lia.
        replace (c0 + total bs + (n2 + 0) + 8) with (p + (n2 - 16) + 8) by lia. iFrame.
    + replace (seg_end (c0, bs) + 16) with p by lia. iFrame.
  - (* a new segment *)
    iAssert (junk p n2) with "Ha" as "Ha". rw (wrap_small 64 (n2 - 4 * 8)); [|lia].
    assert (E' : junk p n2 ⊣⊢ junk p 16 ∗ ((∃ v, (p + 16) ↦ v) ∗ (∃ v, (p + 24) ↦ v)) ∗ junk (p + 32) (n2 - 48) ∗
      (∃ v, (p + (n2 - 16)) ↦ v) ∗ (∃ v, (p + (n2 - 16) + 8) ↦ v)).
    { replace n2 with (16 + (16 + ((n2 - 48) + 16))) at 1 by lia. rw junk_split; [|lia|divmod|lia]. rw (junk_split (p + 16)); [|lia|divmod|lia].
      rw (junk_split (p + 16 + 16)); [|lia|divmod|lia]. rw !junk_pair.
      replace (p + 16 + 8) with (p + 24) by lia. replace (p + 16 + 16) with (p + 32) by lia.
      by replace (p + 32 + (n2 - 48)) with (p + (n2 - 16)) by lia. }
    iDestruct (E' with "Ha") as "(_ & ((%v1 & Hp) & (%v2 & Hh)) & Hj & (%v & Hf) & (%w & He))". clear E'.
    iApply wp_seq. replace (p + 4 * 8 - 2 * 8) with (p + 16) by lia. iApply (wp_store with "Hp"). iIntros "Hp".
    iApply wp_ret. cbv beta iota. up. rd. cbn [heap_end set_end].
    replace (p + 4 * 8 + (n2 - 4 * 8) - 2 * 8) with (p + (n2 - 16)) by lia. st "Hf". st "He".
    replace (p + 4 * 8 - 2 * 8) with (p + 16) by lia. replace (p + 16 + 8) with (p + 24) by lia. st "Hh". iApply wp_ret.
    change (Z.lor 0 1) with 1. rw lor_inuse; [|divmod]. replace (n2 - 4 * 8) with (n2 - 32) by lia.
    iDestruct "HΦ" as "[_ HΦ]".
    iApply ("HΦ" $! _ (p + 16) (n2 - 32) with "[%] [Hp Hh Hf He Hs HB] [Hj]"); [unfold good_size; split; [split; [divmod|lia]|lia]| |].
    + iApply (heap_close mal _ (p + 16) [(n2 - 32, true)] with "[Hp Hh Hf He] Hs HB").
      * apply seg_ok_new; [lia|divmod|split; [divmod|lia]|lia].
      * done.
      * done.
      * cbn [binmap set_end]. by rw Q1.
      * cbn [chunks eqb app]. by rw H2.
      * right. apply elem_of_cons. left. cbn [heap_end set_end]. unfold seg_end. cbn [fst snd total]. lia.
      * done.
      * unfold seg, left, run, block, seg_end, tag. cbn [fst snd total b2z].
        replace (p + 16 + 8) with (p + 24) by lia. replace (p + 16 + (n2 - 32)) with (p + (n2 - 16)) by lia.
        replace (p + 16 + (n2 - 32 + 0) + 8) with (p + (n2 - 16) + 8) by lia. iFrame.
    + replace (p + 16 + 16) with (p + 32) by lia. replace (n2 - 32 - 16) with (n2 - 48) by lia. iFrame.
Qed.

(** A free chunk and the chunk in use after it, as one. *)
Lemma join_words c n m : good_size n -> good_size m ->
  junk (c + 16) (n - 16) -∗ (∃ v, (c + n) ↦ v) -∗ (∃ v, (c + n + 8) ↦ v) -∗ junk (c + n + 16) (m - 16) -∗ junk (c + 16) (m + n - 16).
Proof.
  iIntros ([Hn1 Hn2] [Hm1 Hm2]) "H1 H2 H3 H4". replace (m + n - 16) with ((n - 16) + (16 + (m - 16))) by lia.
  rw junk_split; [|lia|divmod|lia]. replace (c + 16 + (n - 16)) with (c + n) by lia.
  rw (junk_split (c + n)); [|lia|done|lia]. rw junk_pair. iFrame.
Qed.

Lemma wp_new_chunk n U s Φ : good_size n -> n <= MMAP_THRESHOLD -> 
  heap mal s U -∗
  (∀ s', ⌜errno_set s' /\ asked s s' n (n + PAGE_SIZE + 32)⌝ -∗ heap mal s' U -∗ Φ 0 s') ∧
  (∀ s' c n', ⌜good_size n' /\ n <= n'⌝ -∗ heap mal s' ((c, n') :: U) -∗ junk (c + 16) (n' - 16) -∗ Φ c s') -∗
  wp (new_chunk mal auxv sp fuel n) s Φ.
Proof.
  iIntros (Hn Hle) "Hh HΦ". unfold new_chunk. iApply wp_seq. iApply (wp_expand_heap with "Hh"); [done|done|]. iSplit.
  { iIntros (s') "Href Hh". rw Z.eqb_refl. iApply wp_ret. iDestruct "HΦ" as "[HΦ _]". by iApply ("HΦ" with "Href"). }
  iDestruct "HΦ" as "[_ HΦ]". iIntros (s1 c m [Hm Hnm]) "Hheap Hj".
  iDestruct (heap_open with "Hheap") as (c0 b1 b2 segs) "((-> & %Hsegs & %HU & %He & %Hos) & (%F & %Hgap & HB) & Hl & Hh & Hf & Hr & Hs)".
  pose proof Hgap as (Hok & HF & HFok & Hb). pose proof (mid_chunk_ok _ _ _ _ Hok) as (Hc & _ & _ & Hc'). cbn [fst snd] in *.
  pose proof (proj1 (seg_ok_mid _ _ _ _) Hok) as (_ & _ & Hg1 & _ & _ & _).
  rw (proj2 (Z.eqb_neq (c0 + total b1) 0)); [|lia]. assert (0 < fuel)%nat as Hf0 by lia. iApply wp_seq.
  destruct (last_cases b1) as [Hbusy|(b1' & k & ->)].
  - iApply (wp_alloc_rev_busy with "Hl"); [done..|]. iIntros "Hl". iApply wp_ret.
    iApply ("HΦ" with "[//] [Hl Hh Hf Hr Hs HB] Hj").
    iApply (heap_close mal _ c0 (b1 ++ (m, true) :: b2) with "[Hl Hh Hf Hr] Hs HB"); [done..| |done|done|].
    + rw HU chunks_mid. cbn [eqb app]. rw -app_assoc. cbn [app]. by rw -Permutation_middle.
    + rw seg_split right_cons. unfold block. cbn [fst snd]. iFrame.
  - destruct (gap_left _ _ _ _ _ _ _ _ Hgap) as (Hk & Hmk & Hbusy & Hch & F' & HF' & Hgap').
    rw total_app total_cons. cbn [total]. rw Z.add_0_r !Z.add_assoc.
    rw HF' in Hb. rw HF' in HFok. iDestruct (bins_reorder _ _ _ HF' with "HB") as "HB".
    set (c := c0 + total b1') in *.
    iApply (wp_alloc_rev_free with "Hl HB"); [done..|]. iIntros (b Hb') "HB Ho Hl".
    rw owned_tags. iDestruct "Ho" as "(H1 & H2 & H3)". unfold csize, psize.
    iApply wp_seq. iApply (wp_PREV_CHUNK with "H2"); [done|]. iIntros "H2". cbn [fst]. replace (c + k - k) with c by lia.
    ld "Hh". iApply wp_seq. iApply (wp_CHUNK_SIZE with "H1"); [done|]. iIntros "H1". cbn [fst]. st "H1".
    iApply wp_seq. iApply (wp_NEXT_CHUNK with "Hh"); [done|]. iIntros "Hh". cbn [fst]. ld "H1". st "Hf". iApply wp_ret.
    unfold tag. cbn [fst snd b2z]. rw (wrap_small 64 (m + 1 + k)); [|destruct Hm, Hk; lia].
    replace (m + 1 + k) with (m + k + 1) by lia.
    iApply ("HΦ" $! _ c (m + k) with "[%] [Hl H1 Hf Hr Hs HB] [H2 H3 Hh Hj]").
    + split; [apply good_size_add; [done|done|lia]|destruct Hk; lia].
    + destruct (Hgap' b Hb') as (Hok2 & HF2 & _).
      iApply (heap_close mal _ c0 (b1' ++ (m + k, true) :: b2) with "[Hl H1 Hf Hr] Hs HB"); [done|done|done|done| | |done|].
      * rw HU chunks_mid Hch. cbn [eqb app]. rw total_app total_cons -app_assoc. cbn [app total].
        rw -Permutation_middle. replace (c0 + (total b1' + (k + 0)) + m) with (c0 + total b1' + (m + k)) by lia. by fold c.
      * unfold end_ok in *. cbn [fmap list_fmap heap_end set_binmap] in *. rw seg_end_mid total_app in He. rw seg_end_mid. cbn [fst total] in *.
        by replace (total b1' + (m + k) + total b2) with (total b1' + (k + 0) + m + total b2) by lia.
      * rw seg_split right_cons. unfold block, tag. cbn [fst snd b2z]. fold c. rw Z.add_assoc.
        replace (c + m + k) with (c + k + m) by lia. iFrame.
    + iApply (join_words with "H3 [H2] [Hh] Hj"); [done|done|by iExists _|by iExists _].
Qed.

(** * From a bin *)

(** [pretrim]: the front of the first chunk of a bin, if the rest stays in the bin. *)
Lemma wp_pretrim c n n1 l s Φ : good_size n -> good_size n1 -> n <= MMAP_THRESHOLD -> n <= n1 ->
  let j := bin_index n1 in let bin := BIN_TO_CHUNK mal j in
  path bin (c :: l) bin -∗ block c (n1, false) -∗
  (path bin (c :: l) bin -∗ block c (n1, false) -∗ Φ false s) ∧
  (∀ m, ⌜n1 = (n + m)%Z /\ good_size m /\ bin_index m = j⌝ -∗ path bin ((c + n) :: l) bin -∗
     block c (n, true) -∗ junk (c + 16) (n - 16) -∗ block (c + n) (m, false) -∗ Φ true s) -∗
  wp (pretrim c n (bin_index_up n) j) s Φ.
Proof.
  iIntros (Hn Hn1 Ht Hle j bin) "Hp (Hh & Hf & Hj) HΦ". cbn [fst snd]. unfold pretrim. 
  destruct (Z.ltb_spec j 40) as [Hj|Hj].
  { iApply wp_ret. iDestruct "HΦ" as "[HΦ _]". iApply ("HΦ" with "Hp"). iFrame. }
  iApply wp_seq. iApply (wp_CHUNK_SIZE with "Hh"); [done|]. iIntros "Hh". cbn [fst].
  rw (wrap_small 64 (n1 - n)); [|destruct Hn, Hn1; lia].
  destruct ((j <? bin_index_up n + 3) && (negb (j =? 63) || (n1 - n <=? MMAP_THRESHOLD))) eqn:E1.
  { iApply wp_ret. iDestruct "HΦ" as "[HΦ _]". iApply ("HΦ" with "Hp"). iFrame. }
  destruct (Z.eqb_spec (bin_index (n1 - n)) j) as [E2|E2]; cbn [negb].
  2: { iApply wp_ret. iDestruct "HΦ" as "[HΦ _]". iApply ("HΦ" with "Hp"). iFrame. }
  iDestruct "HΦ" as "[_ HΦ]".
  assert (Hlt : n < n1).
  { destruct (Z.eq_dec n n1) as [<-|]; [exfalso|lia]. pose proof (bin_index_le_up n Hn Ht) as Hup. fold j in Hup.
    rw (proj2 (Z.ltb_lt j (bin_index_up n + 3))) in E1; [|lia]. rw Z.sub_diag in E1. cbn [andb] in E1.
    apply orb_false_iff in E1 as [_ E1]. unfold MMAP_THRESHOLD, SIZE_ALIGN in E1. lia. }
  assert (exists m, n1 = n + m) as [m ->] by (exists (n1 - n); lia). replace (n + m - n) with m in * by lia.
  assert (Hm : good_size m) by (destruct Hn, Hn1; split; divmod).
  iApply wp_seq. iApply (wp_NEXT_CHUNK with "Hh"); [done|]. iIntros "Hh". cbn [fst].
  assert (E : junk (c + 32) (n + m - 32) ⊣⊢ junk (c + 32) (n - 32) ∗ ((∃ v, (c + n) ↦ v) ∗ (∃ v, (c + n + 8) ↦ v)) ∗
    ((∃ v, (c + n + 16) ↦ v) ∗ (∃ v, (c + n + 24) ↦ v)) ∗ junk (c + n + 32) (m - 32)).
  { destruct Hn, Hm. replace (n + m - 32) with ((n - 32) + (16 + (16 + (m - 32)))) by lia. rw junk_split; [|lia|divmod|lia].
    replace (c + 32 + (n - 32)) with (c + n) by lia. rw (junk_split (c + n)); [|lia|done|lia]. rw (junk_split (c + n + 16)); [|lia|done|lia].
    rw !junk_pair. replace (c + n + 16 + 8) with (c + n + 24) by lia. by replace (c + n + 16 + 16) with (c + n + 32) by lia. }
  iDestruct (E with "Hj") as "(Hj & ((%v1 & Hs0) & (%v2 & Hs8)) & ((%v3 & Hs16) & (%v4 & Hs24)) & Hj2)". clear E.
  cbn [path]. iDestruct "Hp" as "[[Hbn Hcp] Hp]". rw path_first. iDestruct "Hp" as "[[Hcn Hqp] Hp]". unfold prev_, next_, psize, csize.
  ld "Hcp". st "Hs24". ld "Hcn". st "Hs16". ld "Hs24". st "Hbn". ld "Hs16". st "Hqp". st "Hs0". st "Hs8". st "Hf". st "Hh". iApply wp_ret.
  unfold C_INUSE. rw lor_inuse; [|destruct Hn; divmod].
  iApply ("HΦ" $! m with "[%] [Hbn Hs24 Hs16 Hqp Hp] [Hh Hs0] [Hj Hcn Hcp] [Hs8 Hf Hj2]").
  - done.
  - cbn [path]. rw path_first. iFrame.
  - unfold block, tag. cbn [fst snd b2z]. iFrame.
  - replace (n - 16) with (16 + (n - 32)) by lia. rw junk_split; [|lia|done|destruct Hn; lia]. rw junk_pair.
    replace (c + 16 + 8) with (c + 24) by lia. replace (c + 16 + 16) with (c + 32) by lia. iFrame.
  - unfold block. rw tag_free. cbn [fst snd]. replace (c + n + m) with (c + (n + m)) by lia. iFrame.
Qed.

Lemma wp_take_bin n j U e s Φ : good_size n -> n <= MMAP_THRESHOLD -> bin_index_up n <= j < 64 -> Z.testbit (binmap s) j = true ->
  heap mal s U -∗
  (∀ s' c m, ⌜good_size m /\ n <= m⌝ -∗ heap mal s' ((c, m) :: U) -∗ junk (c + 16) (m - 16) -∗ Φ c s') -∗
  wp (lock_bin mal j;;
      let! c := load (head mal j) in
      if negb (c =? BIN_TO_CHUNK mal j) then
        let! b := pretrim c n (bin_index_up n) j in
        when (negb b) (unbin c j);;
        ret c
      else e) s Φ.
Proof.
  iIntros (Hn Hle Hj Hbit) "(%segs & (%H1 & %H2 & %H3 & %H4 & %H5) & Hs & HB) HΦ".
  pose proof (bin_index_up_range n Hn Hle) as Hup. pose proof (heap_chunks_ok false segs H1) as HFok.
  iApply wp_seq. iApply (wp_lock_bin with "HB"); [done|lia|done|]. iIntros (l Hl) "Hp HB".
  assert (exists c l', l = c :: l') as (c & l' & ->).
  { destruct l as [|c l']; [|by eexists _, _]. apply Permutation_nil_l in Hl. destruct H3 as [_ H3]. rw H3 in Hbit; [|lia]. rw -Hl in Hbit.
    by apply bool_decide_eq_true in Hbit. }
  assert (Hin : c ∈ members j (heap_chunks false segs)) by (rw -Hl; apply elem_of_cons; by left).
  apply elem_of_members in Hin as (n1 & Hin & <-). apply elem_of_Permutation in Hin as (F & HF).
  destruct (heap_focus _ _ _ _ _ HF) as (c0 & b1 & b2 & segs' & Hsegs & -> & HF').
  set (c := c0 + total b1) in *. set (j := bin_index n1) in *. set (bin := BIN_TO_CHUNK mal j) in *.
  assert (Hn1 : good_size n1) by (rw HF in HFok; apply list.Forall_cons in HFok as [(_ & _ & Hn1 & _) _]; done).
  assert (Hnn : n <= n1) by (apply bin_fits; [done|done|done|lia]).
  iDestruct (bins_but_perm mal j _ _ HF with "HB") as "HB". rw HF in Hl. rw HF in H3.
  iAssert (⌜c <> bin⌝)%I as %Hne.
  { cbn [path]. rw path_first. iDestruct "Hp" as "[[Hb _] [[Hc _] _]]". iDestruct (pointsto_distinct with "Hb Hc") as %Hd.
    iPureIntro. intros E. apply Hd. by rw E. }
  rw (path_first bin (c :: l')). iDestruct "Hp" as "[[Hbn Hcp] Hp]". cbn [at_start list.head default]. rw head_bin. fold bin.
  ld "Hbn". rw (proj2 (Z.eqb_neq c bin) Hne). cbn [negb].
  rw (big_opL_permutation _ _ _ Hsegs). iDestruct "Hs" as "[Hseg Hs]". rw seg_split right_cons. cbn [fst].
  iDestruct "Hseg" as "(Hleft & Hblk & Hright)".
  iAssert (path bin (c :: l') bin) with "[Hbn Hcp Hp]" as "Hp"; [rw (path_first bin (c :: l')); iFrame|].
  rw Hsegs in H1. apply list.Forall_cons in H1 as [Hok Hsok].
  iApply wp_seq. iApply (wp_pretrim c n n1 l' with "Hp Hblk"); [done..|]. iSplit.
  - iIntros "Hp Hblk". cbn [negb when]. iApply wp_seq.
    iApply (wp_unbin_free with "Hp HB Hblk"); [done..|]. iIntros (b Hb) "HB Ho". iApply wp_ret.
    rw owned_tags. iDestruct "Ho" as "(Hh & Hf & Hj)". destruct (seg_ok_use _ _ _ _ Hok) as [Hok' _].
    iApply ("HΦ" with "[//] [Hleft Hh Hf Hright Hs HB] Hj").
    iApply (heap_close mal _ c0 (b1 ++ (n1, true) :: b2) with "[Hleft Hh Hf Hright] Hs HB"); [done|done| |done| | |done|].
    + rw chunks_mid. cbn [eqb app]. by rw HF' app_assoc.
    + rw -H2 Hsegs heap_chunks_cons. unfold seg_chunks. cbn [fst snd]. rw !chunks_mid. cbn [eqb app]. rw -!app_assoc. cbn [app]. by rw -Permutation_middle.
    + unfold end_ok in *. rw Hsegs in H4. cbn [fmap list_fmap heap_end set_binmap] in *. by rw !seg_end_mid in H4 |- *.
    + rw seg_split right_cons. unfold block. cbn [fst snd]. iFrame.
  - iIntros (m (-> & Hm & Hbm)) "Hp (Hh & Hf & _) Hj Hblk2". cbn [negb when fst snd]. iApply wp_seq. iApply wp_ret. iApply wp_ret.
    iApply ("HΦ" with "[%] [Hleft Hh Hf Hright Hblk2 Hs HB Hp] Hj"); [done|].
    iAssert (bins mal ((c + n, m) :: F)) with "[HB Hp]" as "HB".
    { iDestruct (bins_but_cons mal c (n + m) F with "HB") as "HB". rw -Hbm. iApply (bins_cons with "Hp HB"); [by apply bin_index_range|].
      unfold j in Hl. rw members_cons_eq in Hl. apply Permutation_cons_inv in Hl. by rw Hl Hbm. }
    iApply (heap_close mal _ c0 (b1 ++ (n, true) :: (m, false) :: b2) with "[Hleft Hh Hf Hright Hblk2] Hs HB").
    + by apply seg_ok_pretrim.
    + done.
    + rw chunks_mid chunks_cons. cbn [eqb app]. fold c. rw HF' -Z.add_assoc. by rw -Permutation_middle app_assoc.
    + apply (binmap_replace _ c (n + m)); [done|by rw Hbm].
    + rw -H2 Hsegs heap_chunks_cons. unfold seg_chunks. cbn [fst snd]. rw !chunks_mid chunks_cons. cbn [eqb app]. rw -!app_assoc. cbn [app].
      fold c. rw -Z.add_assoc. by rw -Permutation_middle.
    + unfold end_ok in *. rw Hsegs in H4. cbn [fmap list_fmap heap_end set_binmap] in *. rw !seg_end_mid in H4 |- *. rw total_cons. cbn [fst] in *.
      by replace (total b1 + n + (m + total b2)) with (total b1 + (n + m) + total b2) by lia.
    + done.
    + rw seg_split !right_cons. cbn [fst]. fold c. rw -Z.add_assoc. iFrame. 
Qed.


(** The loop of [malloc] ends in its first turn. *)
Lemma wp_find_chunk turns n U s Φ : (0 < turns)%nat -> good_size n -> n <= MMAP_THRESHOLD ->
  heap mal s U -∗
  (∀ s', ⌜errno_set s' /\ asked s s' n (n + PAGE_SIZE + 32)⌝ -∗ heap mal s' U -∗ Φ 0 s') ∧
  (∀ s' c m, ⌜good_size m /\ n <= m⌝ -∗ heap mal s' ((c, m) :: U) -∗ junk (c + 16) (m - 16) -∗ Φ c s') -∗
  wp (find_chunk mal auxv sp fuel turns n (bin_index_up n)) s Φ.
Proof.
  iIntros (Ht Hn Hle) "Hh HΦ". destruct turns as [|t]; [lia|]. cbn [find_chunk]. rd.
  pose proof (bin_index_up_range n Hn Hle) as Hup. pose proof (first_set_ok (binmap s) (bin_index_up n) Hup) as Hf. cbv zeta in Hf.
  destruct (nz (Z.land (binmap s) (u64 (- Z.shiftl 1 (bin_index_up n))))) eqn:E; cbn [negb].
  - apply nz_true in E. destruct (Hf E) as [Hj Hbit].
    iApply (wp_take_bin with "Hh"); [done|done|lia|done|]. iDestruct "HΦ" as "[_ HΦ]". iApply "HΦ".
  - by iApply (wp_new_chunk with "Hh").
Qed.
End alloc.
