(* ===== verification/MallocApi.v ===== *)
(** * The functions of the allocator ([malloc/malloc.c], [calloc.c], [memalign.c], ...)

    Blocks of two kinds: chunks of the heap, and chunks that are an area of their own
    from [mmap].  What [malloc], [free], [realloc], [calloc] and [memalign] do to the
    heap and to one block. *)
From iris.proofmode Require Import proofmode.
From S2P Require Import Prelude IntOps Format Mman Seplog Chunks Segments Malloc MallocHeap MallocOps MallocOs MallocFree MallocAlloc.

(** * Areas *)

(** A chunk of an area of its own: [e] bytes before it, and no flag in its size. *)
Definition mapped_ok (c n e : Z) : Prop :=
  0 < c - e /\ (c - e) mod PAGE_SIZE = 0 /\ 16 <= e /\ e mod 32 = 16 /\ (n + e) mod PAGE_SIZE = 0 /\ 32 <= n /\ c + n <= 2 ^ 47.
Definition mapped (x : Z * Z) : heapProp :=
  (∃ e, ⌜mapped_ok x.1 x.2 e⌝ ∗ x.1 ↦ e ∗ (x.1 + 8) ↦ x.2 ∗ junk (x.1 - e) e)%I.

Lemma mapped_facts c n e : mapped_ok c n e -> 0 < c /\ c mod 32 = 16 /\ n mod 32 = 16 /\ n < 2 ^ 47 /\ e < 2 ^ 47.
Proof. intros (H1 & H2 & H3 & H4 & H5 & H6 & H7). unfold PAGE_SIZE in *. divmod. Qed.

Lemma even_mask n : n mod 2 = 0 -> 0 <= n < 2 ^ 63 -> Z.land n (u64 (- 2)) = n.
Proof. intros H1 H2. pose proof (size_mask n false H1 H2) as H. cbn [b2z] in H. by rw Z.add_0_r in H. Qed.

Lemma even_flag n : n mod 2 = 0 -> nz (Z.land n 1) = false.
Proof. intros H1. pose proof (inuse_flag n false H1) as H. cbn [b2z] in H. by rw Z.add_0_r in H. Qed.

(** The words of an area are its first words, the chunk's sizes and the block. *)
Lemma mapped_split c n e : mapped_ok c n e ->
  junk (c - e) (n + e) ⊣⊢ junk (c - e) e ∗ (∃ v, c ↦ v) ∗ (∃ v, (c + 8) ↦ v) ∗ junk (c + 16) (n - 16).
Proof.
  intros Hok. pose proof (mapped_facts _ _ _ Hok). destruct Hok as (H1 & H2 & H3 & H4 & H5 & H6 & H7).
  replace (n + e) with (e + (16 + (n - 16))) by lia. rw junk_split; [|lia|divmod|lia]. replace (c - e + e) with c by lia.
  rw (junk_split c); [|lia|done|lia]. by rw junk_pair -assoc.
Qed.

Lemma area_split c n e hs vs : 8 * Z.of_nat (length hs) = e ->
  array (c - e) (hs ++ e :: n :: vs) ⊣⊢ array (c - e) hs ∗ c ↦ e ∗ (c + 8) ↦ n ∗ array (c + 16) vs.
Proof.
  intros He. rw array_app He. replace (c - e + e) with c by lia. rw !array_cons. by replace (c + 8 + 8) with (c + 16) by lia.
Qed.

Section api.
Context {K : Type} `{PagesLaws K} (mal : Z) (Hmal : 0 < mal).
Context (fuel : nat) (Hfuel : (2 <= fuel)%nat) (auxv sp : Z).
Implicit Types (s : statics K).

Lemma heap_same s s' U : same s s' -> heap mal s U ⊢ heap mal s' U.
Proof.
  intros Hs. iIntros "(%segs & (%H1 & %H2 & %H3 & %H4 & %H5) & H)". iExists segs. iFrame. iPureIntro.
  split; [done|]. split; [done|]. split; [by destruct Hs as ((-> & _) & _)|]. split; [by eapply same_end|by eapply same_os].
Qed.

Lemma heap_errno s v U : heap mal s U ⊢ heap mal (set_errno v s) U.
Proof. by apply heap_same. Qed.

(** * [malloc] *)

(** An area from [mmap]. *)
Lemma wp_map_chunk m s (P : heapProp) Φ : good_size m -> m <= 2 ^ 63 - 4096 ->
  P -∗ (∀ s', ⌜same s s' /\ errno_set s' /\
     (2 ^ 63 - 2 ^ 13 < m \/ exists len, last_refused len s s' /\ m <= len <= m + 4111)%Z⌝ -∗ P -∗ Φ 0 s') ∧
  (∀ s' c n, ⌜same s s' /\ (m <= n)%Z⌝ -∗ P -∗ mapped (c, n) -∗ array (c + 16) (replicate (Z.to_nat ((n - 16) / 8)) 0) -∗ Φ (c + 16) s') -∗
  wp (let len := Z.land (u64 (m + OVERHEAD + PAGE_SIZE - 1)) (u64 (- PAGE_SIZE)) in
      let! base := os (mmap sys_mmap 0 len (Z.lor PROT_READ PROT_WRITE) (Z.lor MAP_PRIVATE MAP_ANON) (-1) 0) in
      if base =? u64 (-1) then ret 0
      else
        let c := base + SIZE_ALIGN - OVERHEAD in
        store (csize c) (u64 (len - (SIZE_ALIGN - OVERHEAD)));;
        store (psize c) (SIZE_ALIGN - OVERHEAD);;
        ret (CHUNK_TO_MEM c)) s Φ.
Proof.
  iIntros ([Hm1 Hm2] Hm3) "HP HΦ". cbv zeta. rw page_mask; [|unfold OVERHEAD, PAGE_SIZE; lia].
  set (x := m + OVERHEAD + PAGE_SIZE - 1). set (len := x - x mod PAGE_SIZE).
  assert (Hlen : m + 16 <= len /\ len mod PAGE_SIZE = 0 /\ len <= 2 ^ 63 /\ len <= m + 4111) by (unfold len, x, OVERHEAD, PAGE_SIZE in *; divmod).
  clearbody len. clear x. destruct Hlen as (Hl1 & Hl2 & Hl3 & Hl4). iApply wp_seq. destruct (Z.leb_spec PTRDIFF_MAX len) as [Hbig|Hsmall].
  { iApply wp_mmap_refused; [done|]. iIntros (s' [Hs Herr]). iApply wp_ret. iDestruct "HΦ" as "[HΦ _]". iApply ("HΦ" with "[%] HP").
    split; [done|]. split; [done|]. left. unfold PTRDIFF_MAX, PAGE_SIZE in *. lia. }
  unfold PTRDIFF_MAX in Hsmall. iApply (wp_mmap with "HP"); [lia|done|lia|]. iSplit.
  { iIntros (s' (Hs & Herr & Href)) "HP". iApply wp_ret. iDestruct "HΦ" as "[HΦ _]". iApply ("HΦ" with "[%] HP"). split; [done|]. split; [done|].
    right. exists len. split; [done|lia]. }
  iIntros (base s') "%Hs (%Hb1 & %Hb2 & %Hb3) Ha HP". rw (proj2 (Z.eqb_neq base (u64 (-1)))); [|change (u64 (-1)) with (2 ^ 64 - 1); lia].
  unfold csize, psize, CHUNK_TO_MEM, SIZE_ALIGN, OVERHEAD. set (c := base + 4 * 8 - 2 * 8). set (n := len - 16).
  assert (Hok : mapped_ok c n 16) by (unfold mapped_ok, c, n, PAGE_SIZE in *; repeat split; divmod).
  pose proof (page_words_ok len ltac:(lia) Hl2) as Hw. set (k := Z.to_nat ((n - 16) / 8)).
  assert (Hk : page_words len = (2 + (1 + (1 + k)))%nat) by (unfold k, n, PAGE_SIZE in *; divmod).
  rw Hk !replicate_add !array_app !length_replicate. iDestruct "Ha" as "(H1 & H2 & H3 & H4)". cbn [replicate]. rw !array_cons !array_nil.
  replace (base + 8 * Z.of_nat 2) with c by (unfold c; lia). replace (c + 8 * Z.of_nat 1) with (c + 8) by lia.
  replace (c + 8 + 8 * Z.of_nat 1) with (c + 16) by lia. iDestruct "H2" as "[H2 _]". iDestruct "H3" as "[H3 _]".
  st "H3". st "H2". iApply wp_ret. change (4 * 8 - 2 * 8) with 16. fold n. rw (wrap_small 64); [|unfold n; lia].
  iDestruct "HΦ" as "[_ HΦ]". iApply ("HΦ" $! s' c n with "[%] HP [H1 H2 H3] H4"); [unfold n; split; [done|lia]|].
  iExists 16. cbn [fst snd]. iFrame. iSplit; [done|]. replace (c - 16) with base by (unfold c; lia).
  iDestruct "H1" as "(H1 & H2 & _)". rw junk_pair. iSplitL "H1"; by iExists _.
Qed.

Lemma wp_malloc_cases n s U Φ : 0 <= n < 2 ^ 64 ->
  heap mal s U -∗
  (∀ s', ⌜unserved s s' n 0⌝ -∗ heap mal s' U -∗ Φ 0 s') ∧
  (∀ s' c m, ⌜adjust_size n = Some m⌝ -∗ heap mal s' ((c, m) :: U) -∗ junk (c + 16) (m - 16) -∗ Φ (c + 16) s') ∧
  (∀ s' c m0 m, ⌜adjust_size n = Some m0 /\ m0 <= m⌝ -∗ heap mal s' U -∗ mapped (c, m) -∗
     array (c + 16) (replicate (Z.to_nat ((m - 16) / 8)) 0) -∗ Φ (c + 16) s') -∗
  wp (malloc mal auxv sp fuel n) s Φ.
Proof.
  iIntros (Hn) "Hh HΦ". unfold malloc. pose proof (adjust_size_ok n Hn) as Hadj. 
  destruct (adjust_size n) as [m|] eqn:Em.
  2: { up. iApply wp_ret. iDestruct "HΦ" as "[HΦ _]". iApply ("HΦ" with "[%]"); [|by iApply heap_errno].
    apply unserved_large; [done|]. unfold too_large. unfold PTRDIFF_MAX, SIZE_ALIGN, PAGE_SIZE in Hadj. lia. }
  destruct Hadj as [Hgood Hle]. destruct (Z.ltb_spec MMAP_THRESHOLD m) as [Hbig|Hsmall].
  - iApply (wp_map_chunk with "Hh"); [done|by eapply adjust_size_bound|]. iSplit.
    + iIntros (s' (Hs & Herr & Hun)) "Hh". iDestruct "HΦ" as "[HΦ _]". iApply ("HΦ" with "[%]"); [|by iApply (heap_same with "Hh")].
      pose proof (adjust_size_near n m Hn Em). split; [done|]. exists n. split; [lia|]. destruct Hun as [Hun|(len & Hl & Hlen)].
      * left. unfold too_large. lia.
      * right. exists len. split; [done|]. unfold PAGE_SIZE. lia.
    + iIntros (s' c k [Hs Hk]) "Hh". iDestruct "HΦ" as "[_ [_ HΦ]]". iApply ("HΦ" with "[//]"). by iApply (heap_same with "Hh").
  - iApply wp_seq. iApply (wp_find_chunk with "Hh"); [done|done|lia|done|done|]. iSplit.
    + iIntros (s' (Herr & len & Hl & Hlen)) "Hh". iApply wp_ret. iDestruct "HΦ" as "[HΦ _]". iApply ("HΦ" with "[%] Hh").
      pose proof (adjust_size_near n m Hn Em). split; [done|]. exists n. split; [lia|]. right. exists len. split; [done|]. unfold PAGE_SIZE in *. lia.
    + iIntros (s' c m' [Hm' Hmm]) "Hh Hj".
      iDestruct (heap_tags with "Hh") as "(%Hc & H1 & H2 & Hh)". iDestruct ("Hh" with "H1 H2") as "Hh". destruct Hc as (Hc & _). cbn [fst] in Hc.
      rw (proj2 (Z.eqb_neq c 0)); [|lia]. assert (E : junk (c + 16) (m' - 16) ⊣⊢ junk (c + 16) (m - 16) ∗ junk (c + m) (m' - m)).
      { destruct Hgood, Hm'. replace (m' - 16) with ((m - 16) + (m' - m)) by lia. rw junk_split; [|lia|divmod|lia].
        by replace (c + 16 + (m - 16)) with (c + m) by lia. }
      iDestruct (E with "Hj") as "[Hj Hj2]". iApply wp_seq. iApply (wp_trim with "Hh Hj2"); [done..|].
      iIntros (s'') "Hh". iApply wp_ret. iDestruct "HΦ" as "[_ [HΦ _]]". by iApply ("HΦ" with "[//] Hh Hj").
Qed.

(** * [free] *)
Lemma wp_free_mapped c n s Φ :
  mapped (c, n) -∗ junk (c + 16) (n - 16) -∗ (∀ s', ⌜same s s'⌝ -∗ Φ tt s') -∗ wp (free mal fuel (c + 16)) s Φ.
Proof.
  iIntros "(%e & %Hok & Hc & Hn & Hj0) Hj HΦ". cbn [fst snd] in *. pose proof (mapped_facts _ _ _ Hok) as (F1 & F2 & F3 & F4 & F5).
  pose proof Hok as (H1 & H2 & H3 & H4 & H5 & H6 & H7). unfold free. rw (proj2 (Z.eqb_neq (c + 16) 0)); [|lia].
  unfold MEM_TO_CHUNK, OVERHEAD. replace (c + 16 - 2 * 8) with c by lia. unfold IS_MMAPPED, csize, psize.
  iApply wp_seq. ld "Hn". iApply wp_ret. unfold C_INUSE. rw even_flag; [|divmod]. cbn [negb].
  ld "Hc". iApply wp_seq. unfold CHUNK_SIZE, csize. ld "Hn". iApply wp_ret. rw even_mask; [|divmod|lia].
  rw even_flag; [|divmod]. rw (wrap_small 64 (n + e)); [|lia]. iApply wp_seq.
  iAssert (junk (c - e) (n + e)) with "[Hc Hn Hj0 Hj]" as "Ha".
  { rw (mapped_split c n e); [|done]. iFrame. }
  iDestruct "Ha" as "(%vs & %Hvs & Ha)". rw Hvs. iApply (wp_munmap with "Ha"); [done|lia|by rw -Hvs|].
  iIntros (r s' Hs). iApply wp_ret. by iApply "HΦ".
Qed.

(** * Live blocks *)

(** The blocks [L]: chunks of the heap and areas. *)
Definition pool s (L : list (Z * Z)) : heapProp :=
  (∃ U M, ⌜L ≡ₚ U ++ M⌝ ∗ heap mal s U ∗ [∗ list] x ∈ M, mapped x)%I.

Lemma pool_reorder s L L' : L ≡ₚ L' -> pool s L ⊢ pool s L'.
Proof. iIntros (HL) "(%U & %M & %HU & H)". iExists U, M. iFrame. iPureIntro. by rw -HL. Qed.

Lemma pool_heap s L U M : L ≡ₚ U ++ M -> heap mal s U -∗ ([∗ list] x ∈ M, mapped x) -∗ pool s L.
Proof. iIntros (HL) "H1 H2". iExists U, M. by iFrame. Qed.

(** A block is one or the other. *)
Lemma pool_focus s x L : pool s (x :: L) ⊢ ∃ U M, ⌜L ≡ₚ U ++ M⌝ ∗ ([∗ list] x ∈ M, mapped x) ∗
  (heap mal s (x :: U) ∨ heap mal s U ∗ mapped x).
Proof.
  iIntros "(%U & %M & %HU & Hh & HM)". assert (Hin : x ∈ U ++ M) by (rw -HU; apply elem_of_cons; by left).
  apply elem_of_app in Hin as [Hin|Hin]; apply elem_of_Permutation in Hin as (W & HW).
  - iExists W, M. iFrame. iSplit.
    + iPureIntro. rw HW in HU. cbn [app] in HU. by apply Permutation_cons_inv in HU.
    + iLeft. by iApply (heap_reorder with "Hh").
  - iExists U, W. rw (big_opL_permutation _ _ _ HW). iDestruct "HM" as "[Hx HM]". iFrame. iSplit.
    + iPureIntro. rw HW -Permutation_middle in HU. by apply Permutation_cons_inv in HU.
    + iRight. iFrame.
Qed.

(** Where a live block is: aligned, and below [2 ^ 47]. *)
Definition live_ok (x : Z * Z) : Prop := 0 < x.1 /\ x.1 mod 32 = 16 /\ x.2 mod 16 = 0 /\ 32 <= x.2 /\ x.1 + x.2 <= 2 ^ 47.

Lemma chunk_live x : chunk_ok x -> live_ok x.
Proof.
  clear Hfuel. intros (H1 & H2 & [H3 H4] & H5). unfold live_ok. split; [done|split; [done|]]. divmod. Qed.

Lemma mapped_live x : mapped x ⊢ ⌜live_ok x⌝.
Proof.
  clear Hfuel.
  iIntros "(%e & %Hok & _)". iPureIntro. destruct x as [c n]. cbn [fst snd] in *. pose proof (mapped_facts _ _ _ Hok) as (F1 & F2 & F3 & F4 & F5).
  destruct Hok as (H1 & H2 & H3 & H4 & H5 & H6 & H7). unfold live_ok. cbn [fst snd]. split; [done|split; [done|]]. divmod.
Qed.

Lemma heap_live s U x : x ∈ U -> heap mal s U ⊢ ⌜live_ok x⌝.
Proof.
  clear Hfuel.
  intros Hx. apply elem_of_Permutation in Hx as (W & HW). destruct x as [c n]. rw heap_reorder; [|exact HW].
  rw heap_tags. iIntros "(%Hc & _)". iPureIntro. by apply chunk_live.
Qed.

Lemma pool_live s x L : x ∈ L -> pool s L ⊢ ⌜live_ok x⌝.
Proof.
  clear Hfuel.
  intros Hx. apply elem_of_Permutation in Hx as (W & HW). rw pool_reorder; [|exact HW]. rw pool_focus.
  iIntros "(%U & %M & _ & _ & [Hh|[_ Hm]])"; [iApply (heap_live with "Hh"); apply elem_of_cons; by left|by iApply mapped_live].
Qed.

(** [malloc] adds a block, and [free] takes one away. *)
Lemma wp_malloc_pool n s L Φ : 0 <= n < 2 ^ 64 ->
  pool s L -∗
  (∀ s', ⌜unserved s s' n 0⌝ -∗ pool s' L -∗ Φ 0 s') ∧
  (∀ s' c m, ⌜n + 16 <= m⌝ -∗ pool s' ((c, m) :: L) -∗ junk (c + 16) (m - 16) -∗ Φ (c + 16) s') -∗
  wp (malloc mal auxv sp fuel n) s Φ.
Proof.
  iIntros (Hn) "(%U & %M & %HL & Hh & HM) HΦ". pose proof (adjust_size_ok n Hn) as Hadj.
  iApply (wp_malloc_cases with "Hh"); [done|]. iSplit; [|iSplit].
  - iIntros (s') "Hun Hh". iDestruct "HΦ" as "[HΦ _]". iApply ("HΦ" with "Hun"). by iApply (pool_heap with "Hh HM").
  - iIntros (s' c m Hm) "Hh Hj". rw Hm in Hadj. iDestruct "HΦ" as "[_ HΦ]". iApply ("HΦ" with "[%] [Hh HM] Hj"); [lia|].
    iApply (pool_heap with "Hh HM"). by rw HL.
  - iIntros (s' c m0 m [Hm0 Hm]) "Hh Hmap Ha". rw Hm0 in Hadj. iDestruct "HΦ" as "[_ HΦ]". iDestruct (mapped_live with "Hmap") as %Hlive.
    iApply ("HΦ" $! s' c m with "[%] [Hh HM Hmap] [Ha]"); [lia| |].
    + iApply (pool_heap s' _ U ((c, m) :: M) with "Hh"); [by rw HL -Permutation_middle|]. iFrame.
    + iDestruct (array_junk with "Ha") as "Ha". rw length_replicate.
      replace (8 * Z.of_nat (Z.to_nat ((m - 16) / 8))) with (m - 16); [done|]. destruct Hlive as (_ & _ & H3 & H4 & _). cbn [snd] in *. divmod.
Qed.

Lemma wp_free_pool c n s L Φ :
  pool s ((c, n) :: L) -∗ junk (c + 16) (n - 16) -∗ (∀ s', pool s' L -∗ Φ tt s') -∗ wp (free mal fuel (c + 16)) s Φ.
Proof.
  iIntros "Hp Hj HΦ". iDestruct (pool_focus with "Hp") as (U M HL) "[HM [Hh|[Hh Hm]]]".
  - iApply (wp_free with "Hh Hj"); [done..|]. iIntros (s') "Hh". iApply "HΦ". by iApply (pool_heap with "Hh HM").
  - iApply (wp_free_mapped with "Hm Hj"). iIntros (s' Hs). iApply "HΦ". iApply (pool_heap with "[Hh] HM"); [done|]. by iApply (heap_same with "Hh").
Qed.

(** * [realloc] *)

(** A chunk takes the free chunk after it, if it has to grow and there is one. *)
Lemma wp_grow c n0 n U (e : Z -> prog (statics K) Z) s Φ :
  heap mal s ((c, n0) :: U) -∗
  (∀ s' k, ⌜still s s' /\ 0 <= k /\ k mod 32 = 0 /\ good_size (n0 + k)%Z⌝ -∗ heap mal s' ((c, n0 + k) :: U) -∗ junk (c + n0) k -∗ wp (e (n0 + k)) s' Φ) -∗
  wp (let! (n1, next) :=
        (if n0 <? n then
           let! b := alloc_fwd mal fuel (c + n0) in
           if (b : bool) then
             let! k := CHUNK_SIZE (c + n0) in
             let! next := NEXT_CHUNK (c + n0) in
             ret (u64 (n0 + k), next)
           else ret (n0, c + n0)
         else ret (n0, c + n0)) in
      store (csize c) (Z.lor n1 C_INUSE);; store (psize next) (Z.lor n1 C_INUSE);; e n1) s Φ.
Proof.
  iIntros "Hheap HΦ". iDestruct (heap_open with "Hheap") as (c0 b1 b2 segs) "((-> & %Hsegs & %HU & %He & %Hos) & (%F & %Hgap & HB) & Hl & Hh & Hf & Hr & Hs)".
  pose proof Hgap as (Hok & HF & HFok & Hb). pose proof (proj1 (seg_ok_mid _ _ _ _) Hok) as (H1 & H2 & H3 & H4 & H5 & H6 & H7 & H8).
  set (c := c0 + total b1) in *. unfold csize, psize, C_INUSE. iApply wp_seq.
  iAssert (left c0 b1 -∗ (c + 8) ↦ tag (n0, true) -∗ (c + n0) ↦ tag (n0, true) -∗ right (c + n0) b2 -∗ bins mal F -∗
    ([∗ list] sg ∈ segs, seg sg) -∗ (∀ s' k, ⌜still s s' /\ 0 <= k /\ k mod 32 = 0 /\ good_size (n0 + k)%Z⌝ -∗ heap mal s' ((c, n0 + k) :: U) -∗ junk (c + n0) k -∗ wp (e (n0 + k)) s' Φ) -∗
    wp (store (c + 8) (Z.lor n0 1);; store (c + n0) (Z.lor n0 1);; e n0) s Φ)%I as "Hstay".
  { iIntros "Hl Hh Hf Hr HB Hs HΦ". st "Hh". st "Hf". rw lor_inuse; [|destruct H4; divmod].
    iSpecialize ("HΦ" $! s 0). rw Z.add_0_r. iApply ("HΦ" with "[//] [-]"); [|by iApply junk_nil].
    iApply (heap_close mal s c0 (b1 ++ (n0, true) :: b2) with "[Hl Hh Hf Hr] Hs HB"); [done..| |done|done|].
    - rw HU chunks_mid. cbn [eqb app]. rw -app_assoc. cbn [app]. by rw -Permutation_middle.
    - rw seg_split right_cons. unfold block. cbn [fst snd]. iFrame. }
  destruct (n0 <? n); [|iApply wp_ret; by iApply ("Hstay" with "Hl Hh Hf Hr HB Hs")].
  iApply wp_seq. destruct (head_cases b2) as [Hbusy|(b2' & m & ->)].
  - iApply (wp_alloc_fwd_busy with "Hr"); [lia|done..|]. iIntros "Hr". iApply wp_ret. by iApply ("Hstay" with "Hl Hh Hf Hr HB Hs").
  - iClear "Hstay". destruct (gap_right _ _ _ _ _ _ _ _ Hgap) as (Hm & Hnm & Hbusy & Hch & F' & HF' & Hgap').
    rw HF' in Hb. rw HF' in HFok. iDestruct (bins_reorder _ _ _ HF' with "HB") as "HB".
    iApply (wp_alloc_fwd_free with "Hr HB"); [first [done|lia]..|]. iIntros (b Hb') "HB Ho Hr".
    rw owned_tags. iDestruct "Ho" as "(Hh2 & Hf2 & Hj)".
    iApply wp_seq. iApply (wp_CHUNK_SIZE with "Hh2"); [done|]. iIntros "Hh2". cbn [fst].
    rw (wrap_small 64 (n0 + m)); [|destruct H4, Hm; lia].
    iApply wp_seq. iApply (wp_NEXT_CHUNK with "Hh2"); [done|]. iIntros "Hh2". cbn [fst]. iApply wp_ret. cbv iota beta.
    assert (Hnm2 : good_size (n0 + m)) by (apply good_size_add; [done|done|lia]).
    st "Hh". st "Hf2". rw lor_inuse; [|destruct Hnm2; divmod].
    iApply ("HΦ" with "[%] [-Hf Hh2 Hj]"); [destruct Hm; split; [done|split; [lia|done]]| |].
    + destruct (Hgap' b Hb') as (Hok2 & HF2 & _). replace (c + n0 + m) with (c + (n0 + m)) by lia.
      iApply (heap_close mal _ c0 (b1 ++ (n0 + m, true) :: b2') with "[Hl Hh Hf2 Hr] Hs HB"); [done|done|done|done| | |done|].
      * rw HU chunks_mid Hch. cbn [eqb app]. rw -app_assoc. cbn [app]. rw -Permutation_middle. by replace (c + (n0 + m)) with (c + n0 + m) by lia.
      * unfold end_ok in *. cbn [fmap list_fmap heap_end set_binmap] in *. rw seg_end_mid total_cons in He. rw seg_end_mid. cbn [fst] in *.
        by replace (total b1 + (n0 + m) + total b2') with (total b1 + n0 + (m + total b2')) by lia.
      * rw seg_split right_cons. unfold block. cbn [fst snd]. fold c. iFrame.
    + replace m with (8 + (8 + (m - 16))) by lia. destruct Hm. rw junk_cons; [|lia]. rw junk_cons; [|lia].
      replace (c + n0 + 8 + 8) with (c + n0 + 16) by lia. replace (8 + (8 + (m - 16)) - 16) with (m - 16) by lia. iFrame.
Qed.

(** The loop of [__malloc0] and [memcpy]. *)
Lemma wp_zero_words n z vs s Φ : (n <= length vs)%nat ->
  array z vs -∗ (array z (replicate n 0 ++ drop n vs) -∗ Φ tt s) -∗ wp (zero_words n z) s Φ.
Proof.
  revert z vs. induction n as [|n IH]; intros z vs Hn; iIntros "Ha HΦ"; cbn [zero_words].
  - iApply wp_ret. by iApply "HΦ".
  - destruct vs as [|v vs]; [cbn in Hn; lia|]. rw array_cons. iDestruct "Ha" as "[Hv Ha]". ld "Hv". iApply wp_seq.
    iAssert (wp (when (nz v) (store z 0)) s (fun _ s' => ⌜s' = s⌝ ∗ z ↦ 0))%I with "[Hv]" as "Hw".
    { unfold nz. destruct (Z.eqb_spec v 0) as [->|Hv]; cbn [negb when]; [iApply wp_ret; by iFrame|].
      iApply (wp_store with "Hv"). iIntros "Hv". by iFrame. }
    iApply (wp_wand with "Hw"). iIntros (? ?) "[-> Hv]". iApply (IH with "Ha"); [cbn in Hn; lia|]. iIntros "Ha". iApply "HΦ".
    cbn [replicate app drop]. rw array_cons. iFrame.
Qed.

Lemma wp_copy_words n dest src ds vs s Φ : (n <= length ds)%nat -> (n <= length vs)%nat ->
  array dest ds -∗ array src vs -∗ (array dest (take n vs ++ drop n ds) -∗ array src vs -∗ Φ tt s) -∗ wp (copy_words n dest src) s Φ.
Proof.
  revert dest src ds vs. induction n as [|n IH]; intros dest src ds vs Hd Hs; iIntros "Hd Hs HΦ"; cbn [copy_words].
  - iApply wp_ret. iApply ("HΦ" with "[Hd] Hs"). cbn. by rw drop_0.
  - destruct ds as [|d ds]; [cbn in Hd; lia|]. destruct vs as [|v vs]; [cbn in Hs; lia|]. cbn [length] in *. rw !array_cons.
    iDestruct "Hd" as "[Hd Hds]". iDestruct "Hs" as "[Hs Hss]". ld "Hs". st "Hd".
    iApply (IH with "Hds Hss"); [lia|lia|]. iIntros "Hds Hss". iApply ("HΦ" with "[Hd Hds] [Hs Hss]"); [|iFrame].
    iSplitL "Hd"; [iExact "Hd"|iExact "Hds"].
Qed.

(** The words of [vs] up to [n] bytes are those of [ws]. *)
Definition same_prefix (n : Z) (vs ws : list Z) : Prop := forall i v, vs !! i = Some v -> 8 * Z.of_nat i < n -> ws !! i = Some v.

Lemma same_prefix_app n vs ws : same_prefix n vs (vs ++ ws).
Proof. intros i v Hi _. by apply lookup_app_l_Some. Qed.

Lemma same_prefix_take n k vs ws : n <= 8 * Z.of_nat k -> same_prefix n vs (take k vs ++ ws).
Proof. intros Hk i v Hi Hn. apply lookup_app_l_Some. rw lookup_take_lt; [done|lia]. Qed.

Lemma junk_resize a n m : n = m -> junk a n ⊢ junk a m.
Proof. by intros ->. Qed.

(** A new block, and a copy of the old one, which is free then. *)
Lemma wp_copy_realloc c n1 n n0 vs L s Φ : 16 <= n < 2 ^ 64 -> 16 <= n0 <= n -> 8 * Z.of_nat (length vs) = n0 - 16 ->
  pool s ((c, n1) :: L) -∗ array (c + 16) vs -∗ junk (c + n0) (n1 - n0) -∗
  (∀ s', ⌜unserved s s' (n - 16) 0⌝ -∗ pool s' ((c, n1) :: L) -∗ array (c + 16) vs -∗ junk (c + n0) (n1 - n0) -∗ Φ 0 s') ∧
  (∀ s' (c' m : Z) (ws : list Z), ⌜(n <= m /\ 8 * Z.of_nat (length (vs ++ ws)) = m - 16)%Z⌝ -∗ pool s' ((c', m) :: L) -∗ array (c' + 16) (vs ++ ws) -∗ Φ (c' + 16) s') -∗
  wp (copy_realloc mal auxv sp fuel c (c + 16) n n0) s Φ.
Proof.
  iIntros (Hn Hn0 Hvs) "Hp Ha Hj HΦ". unfold copy_realloc, OVERHEAD, CHUNK_TO_MEM. iApply wp_seq.
  rw (wrap_small 64 (n - 2 * 8)); [|lia]. iApply (wp_malloc_pool with "Hp"); [lia|]. iSplit.
  { iIntros (s' Hun) "Hp". iApply wp_ret. iDestruct "HΦ" as "[HΦ _]". iApply ("HΦ" with "[%] Hp Ha Hj"). by replace (n - 16) with (n - 2 * 8) by lia. }
  iIntros (s' c' m Hm) "Hp (%ds & %Hds & Hd)". iDestruct (pool_live s' (c', m) with "Hp") as %(Hc' & _); [apply elem_of_cons; by left|]. cbn [fst] in Hc'.
  rw (proj2 (Z.eqb_neq (c' + 16) 0)); [|lia]. rw (wrap_small 64 (n0 - 2 * 8)); [|lia].
  assert (Hk : Z.to_nat ((n0 - 2 * 8) / 8) = length vs) by divmod. rw Hk. iApply wp_seq.
  iApply (wp_copy_words with "Hd Ha"); [lia|done|]. iIntros "Hd Ha". iApply wp_seq. iDestruct (array_junk with "Ha") as "Hv".
  iDestruct (junk_size with "Hj") as %[Hj1 Hj2].
  iApply (wp_free_pool c n1 s' ((c', m) :: L) with "[Hp] [Hv Hj]").
  - iApply (pool_reorder with "Hp"). by rw Permutation_swap.
  - replace (n1 - 2 * 8) with ((n0 - 16) + (n1 - n0)) by lia. replace (n1 - 16) with ((n0 - 16) + (n1 - n0)) by lia. rw Hvs. rw junk_split; [|lia|divmod|lia].
    replace (c + 16 + (n0 - 16)) with (c + n0) by lia. iFrame.
  - iIntros (s'') "Hp". iApply wp_ret. iDestruct "HΦ" as "[_ HΦ]". rw firstn_all.
    iApply ("HΦ" with "[%] Hp Hd"). split; [lia|]. rw length_app length_drop. lia.
Qed.

Lemma pool_same s s' L : same s s' -> pool s L ⊢ pool s' L.
Proof. iIntros (Hs) "(%U & %M & % & Hh & HM)". iExists U, M. iFrame. iSplit; [done|]. by iApply (heap_same with "Hh"). Qed.

(** [realloc] of a chunk of the heap. *)
Lemma wp_realloc_heap c n0 vs n n' U M L s Φ : 0 <= n < 2 ^ 64 -> adjust_size n = Some n' -> good_size n' -> n + 16 <= n' -> n' < 2 ^ 63 ->
  8 * Z.of_nat (length vs) = n0 - 16 -> L ≡ₚ U ++ M ->
  heap mal s ((c, n0) :: U) -∗ ([∗ list] x ∈ M, mapped x) -∗ array (c + 16) vs -∗
  (∀ s' n1, ⌜n0 <= n1 /\ unserved s s' n 64⌝ -∗ pool s' ((c, n1) :: L) -∗ array (c + 16) vs -∗ junk (c + n0) (n1 - n0) -∗ Φ 0 s') ∧
  (∀ s' (c' m : Z) (ws : list Z), ⌜(n + 16 <= m /\ 8 * Z.of_nat (length ws) = m - 16 /\ same_prefix n vs ws)%Z⌝ -∗
     pool s' ((c', m) :: L) -∗ array (c' + 16) ws -∗ Φ (c' + 16) s') -∗
  wp (realloc mal auxv sp fuel (c + 16) n) s Φ.
Proof.
  iIntros (Hn Hadj Hg Hle Hlt Hvs HL) "Hh HM Ha HΦ". unfold realloc. rw Hadj.
  iDestruct (heap_tags with "Hh") as "(%Hc & H1 & H2 & Hh)". destruct Hc as (Hc1 & Hc2 & Hg0 & Hc3). cbn [fst snd] in *.
  rw (proj2 (Z.eqb_neq (c + 16) 0)); [|lia]. unfold MEM_TO_CHUNK, OVERHEAD. replace (c + 16 - 2 * 8) with c by lia.
  iApply wp_seq. iApply (wp_CHUNK_SIZE with "H1"); [done|]. iIntros "H1". cbn [fst].
  iApply wp_seq. unfold IS_MMAPPED, csize. ld "H1". iApply wp_ret. rw tag_flag; [|done]. cbn [negb snd].
  iApply wp_seq. iApply (wp_NEXT_CHUNK with "H1"); [done|]. iIntros "H1". cbn [fst]. unfold psize at 1.
  ld "H2". ld "H1". rw Z.eqb_refl. cbn [negb]. iDestruct ("Hh" with "H1 H2") as "Hh".
  iApply (wp_grow c n0 n' U (fun n1 => if n' <=? n1 then trim mal fuel c n';; ret (CHUNK_TO_MEM c) else copy_realloc mal auxv sp fuel c (c + 16) n' n0) with "Hh").
  iIntros (s' k (Hst & Hk1 & Hk2 & Hgk)) "Hh Hj". destruct (Z.leb_spec n' (n0 + k)) as [Hfit|Hfit].
  - iDestruct "Hj" as "(%ws & %Hws & Hws)". set (q := Z.to_nat ((n' - 16) / 8)).
    iAssert (array (c + 16) (vs ++ ws)) with "[Ha Hws]" as "Ha".
    { rw array_app Hvs. replace (c + 16 + (n0 - 16)) with (c + n0) by lia. iFrame. }
    assert (Hlen : length (vs ++ ws) = (q + Z.to_nat ((n0 + k - n') / 8))%nat) by (rw length_app; unfold q; destruct Hg, Hg0; divmod).
    assert (Hq : 8 * Z.of_nat q = n' - 16) by (unfold q; destruct Hg; divmod). assert (Htake : length (take q (vs ++ ws)) = q) by (rw length_take; lia).
    rw -(take_drop q (vs ++ ws)) array_app Htake Hq. replace (c + 16 + (n' - 16)) with (c + n') by lia. iDestruct "Ha" as "[Ha Hrest]".
    iDestruct (array_junk with "Hrest") as "Hrest". rw length_drop Hlen. 
    iDestruct (junk_resize _ _ (n0 + k - n') with "Hrest") as "Hrest"; [destruct Hg, Hg0, Hgk; divmod|].
    iApply wp_seq. iApply (wp_trim with "Hh Hrest"); [done..|]. iIntros (s'') "Hh". iApply wp_ret. iDestruct "HΦ" as "[_ HΦ]".
    change (CHUNK_TO_MEM c) with (c + 16). iApply ("HΦ" $! s'' c n' with "[%] [Hh HM] Ha"); [|iApply (pool_heap with "Hh HM"); by rw HL].
    split; [done|]. split; [by rw Htake|]. intros i v Hi Hin. rw lookup_take_lt; [by apply lookup_app_l_Some|lia].
  - iApply (wp_copy_realloc c (n0 + k) n' n0 vs L with "[Hh HM] Ha [Hj]"); [lia|destruct Hg0; lia|done| | |].
    + iApply (pool_heap with "Hh HM"). by rw HL.
    + by replace (n0 + k - n0) with k by lia.
    + iSplit.
      * iIntros (s'' Hun) "Hp Ha Hj". iDestruct "HΦ" as "[HΦ _]". iApply ("HΦ" with "[%] Hp Ha Hj"). split; [lia|].
        pose proof (adjust_size_near n n' ltac:(lia) Hadj). apply (unserved_le s s' s'' n 64 (n' - 16) 0); [by apply still_since|done|lia|lia].
      * iIntros (s'' c' m ws [Hm Hlm]) "Hp Ha". iDestruct "HΦ" as "[_ HΦ]". iApply ("HΦ" with "[%] Hp Ha").
        split; [lia|]. split; [done|]. apply same_prefix_app.
Qed.

(** * [calloc] *)

(** The words of [vs] up to [n] bytes are 0. *)
Definition zero_prefix (n : Z) (vs : list Z) : Prop := forall i, 0 <= 8 * Z.of_nat i < n -> vs !! i = Some 0.

Lemma wp___malloc0 n L s Φ : 0 <= n < 2 ^ 64 ->
  pool s L -∗
  (∀ s', ⌜unserved s s' n 0⌝ -∗ pool s' L -∗ Φ 0 s') ∧
  (∀ s' (c m : Z) (vs : list Z), ⌜(n + 16 <= m /\ 8 * Z.of_nat (length vs) = m - 16 /\ zero_prefix n vs)%Z⌝ -∗
     pool s' ((c, m) :: L) -∗ array (c + 16) vs -∗ Φ (c + 16) s') -∗
  wp (__malloc0 mal auxv sp fuel n) s Φ.
Proof.
  iIntros (Hn) "(%U & %M & %HL & Hh & HM) HΦ". unfold __malloc0. iApply wp_seq. pose proof (adjust_size_ok n Hn) as Hadj.
  iApply (wp_malloc_cases with "Hh"); [done|]. iSplit; [|iSplit].
  - iIntros (s') "Hun Hh". change (nz 0) with false. cbv iota. iApply wp_ret. iDestruct "HΦ" as "[HΦ _]". iApply ("HΦ" with "Hun"). by iApply (pool_heap with "Hh HM").
  - iIntros (s' c m Hm) "Hh (%vs & %Hvs & Ha)". rw Hm in Hadj. destruct Hadj as [[Hg1 Hg2] Hle]. pose proof (adjust_size_bound n m Hn Hm) as Hb.
    iDestruct (heap_tags with "Hh") as "(%Hc & H1 & H2 & Hh)". destruct Hc as (Hc1 & _ & Hg & _). cbn [fst snd] in *.
    rw (proj2 (nz_true (c + 16))); [|lia]. unfold IS_MMAPPED, MEM_TO_CHUNK, OVERHEAD, csize. replace (c + 16 - 2 * 8 + 8) with (c + 8) by lia.
    iApply wp_seq. ld "H1". iApply wp_ret. rw tag_flag; [|done]. cbn [snd negb when]. rw (wrap_small 64); [|lia].
    iApply wp_seq. iApply (wp_zero_words with "Ha"); [divmod|]. iIntros "Ha". iApply wp_ret. iDestruct "HΦ" as "[_ HΦ]".
    set (k := Z.to_nat ((n + 8 - 1) / 8)) in *. iApply ("HΦ" $! s' c m with "[%] [-Ha] Ha").
    + split; [done|]. rw length_app length_replicate length_drop. split; [unfold k; divmod|]. intros i Hi.
      rw lookup_app_l; [|rw length_replicate; unfold k; divmod]. apply lookup_replicate. split; [done|unfold k; divmod].
    + iDestruct ("Hh" with "H1 H2") as "Hh". iApply (pool_heap with "Hh HM"). by rw HL.
  - iIntros (s' c m0 m [Hm0 Hm]) "Hh Hmap Ha". rw Hm0 in Hadj. destruct Hadj as [_ Hle]. iDestruct (mapped_live with "Hmap") as %(Hc1 & _ & Hl3 & Hl4 & _).
    cbn [fst snd] in *. rw (proj2 (nz_true (c + 16))); [|lia]. iDestruct "Hmap" as "(%e & %Hok & H1 & H2 & H3)". cbn [fst snd] in *.
    unfold IS_MMAPPED, MEM_TO_CHUNK, OVERHEAD, csize. replace (c + 16 - 2 * 8 + 8) with (c + 8) by lia.
    iApply wp_seq. ld "H2". iApply wp_ret. unfold C_INUSE. rw even_flag; [|divmod]. cbn [negb when]. iApply wp_seq. iApply wp_ret. iApply wp_ret.
    iDestruct "HΦ" as "[_ HΦ]". iApply ("HΦ" $! s' c m with "[%] [-Ha] Ha").
    + split; [lia|]. rw length_replicate. split; [divmod|]. intros i Hi. apply lookup_replicate. split; [done|divmod].
    + iApply (pool_heap s' _ U ((c, m) :: M) with "Hh"); [by rw HL -Permutation_middle|]. iFrame "HM". iExists e. cbn [fst snd]. by iFrame.
Qed.

Lemma wp_calloc m n L s Φ : 0 <= m < 2 ^ 64 -> 0 <= n < 2 ^ 64 ->
  pool s L -∗
  (∀ s', ⌜unserved s s' (m * n) 0⌝ -∗ pool s' L -∗ Φ 0 s') ∧
  (∀ s' (c k : Z) (vs : list Z), ⌜(m * n + 16 <= k /\ 8 * Z.of_nat (length vs) = k - 16 /\ zero_prefix (m * n) vs)%Z⌝ -∗
     pool s' ((c, k) :: L) -∗ array (c + 16) vs -∗ Φ (c + 16) s') -∗
  wp (calloc mal auxv sp fuel m n) s Φ.
Proof.
  iIntros (Hm Hn) "Hp HΦ". unfold calloc. destruct (nz n && (SIZE_MAX / n <? m)) eqn:E.
  - up. iApply wp_ret. iDestruct "HΦ" as "[HΦ _]". iApply ("HΦ" with "[%]"); [|by iApply (pool_same with "Hp")]. apply unserved_large; [done|]. unfold too_large.
    apply andb_true_iff in E as [E1 E2]. apply nz_true in E1. apply Z.ltb_lt in E2. unfold SIZE_MAX in E2.
    pose proof (Z.mul_succ_div_gt (2 ^ 64 - 1) n ltac:(lia)). nia.
  - assert (Hmn : 0 <= n * m < 2 ^ 64).
    { destruct (Z.eq_dec n 0) as [->|Hn0]; [lia|]. rw (proj2 (nz_true n)) in E; [|done]. cbn [andb] in E. apply Z.ltb_ge in E.
      unfold SIZE_MAX in E. assert (n * m <= n * ((2 ^ 64 - 1) / n)) by nia. pose proof (Z.mul_div_le (2 ^ 64 - 1) n). lia. }
    rw (wrap_small 64 (n * m)); [|done]. rw (Z.mul_comm m n). by iApply (wp___malloc0 with "Hp").
Qed.

(** * [malloc_usable_size] *)
Lemma wp_usable_size c n L s Φ : pool s ((c, n) :: L) -∗ (pool s ((c, n) :: L) -∗ Φ (n - 16) s) -∗ wp (malloc_usable_size (c + 16)) s Φ.
Proof.
  clear Hfuel.
  iIntros "Hp HΦ". iDestruct (pool_live s (c, n) with "Hp") as %(Hc & _ & H3 & H4 & H5); [apply elem_of_cons; by left|]. cbn [fst snd] in *.
  unfold malloc_usable_size. rw (proj2 (nz_true (c + 16))); [|lia]. unfold CHUNK_SIZE, MEM_TO_CHUNK, OVERHEAD, csize. replace (c + 16 - 2 * 8 + 8) with (c + 8) by lia.
  iDestruct (pool_focus with "Hp") as (U M HL) "[HM [Hh|[Hh (%e & %Hok & H1 & H2 & H3)]]]"; cbn [fst snd].
  - iDestruct (heap_tags with "Hh") as "(%Hc' & H1 & H2 & Hh)". iApply wp_seq. iApply wp_seq. iApply (wp_load with "H1"). iIntros "H1". iApply wp_ret. iApply wp_ret.
    unfold tag. cbn [fst snd]. rw size_mask; [|divmod|lia]. rw (wrap_small 64 (n - 2 * 8)); [|lia]. iApply "HΦ". iDestruct ("Hh" with "H1 H2") as "Hh".
    iApply (pool_heap with "Hh HM"). by rw HL.
  - iApply wp_seq. iApply wp_seq. iApply (wp_load with "H2"). iIntros "H2". iApply wp_ret. iApply wp_ret. rw even_mask; [|divmod|lia].
    rw (wrap_small 64 (n - 2 * 8)); [|lia]. iApply "HΦ". iApply (pool_heap s _ U ((c, n) :: M) with "Hh"); [by rw HL -Permutation_middle|]. iFrame "HM". iExists e. cbn [fst snd]. by iFrame.
Qed.
(** * Aligned blocks *)

Lemma tag_seven n : good_size n -> Z.land (tag (n, true)) 7 = 1.
Proof. intros [Hm Hn]. unfold tag. cbn [fst snd b2z]. change 7 with (Z.ones 3). rw Z.land_ones; [|lia]. change (2 ^ 3) with 8. divmod. Qed.

Lemma tag_eight n : good_size n -> Z.land (tag (n, true)) (u64 (- 8)) = n.
Proof.
  intros [Hm Hn]. unfold tag. cbn [fst snd b2z]. pose proof (pow2_mask 3 (n + 1) ltac:(lia) ltac:(lia)) as H1.
  rw (wrap_small 64 (n + 1)) in H1; [|lia]. change (2 ^ 3) with 8 in H1. rw H1. divmod.
Qed.

(** The front of an area is given up. *)
Lemma mapped_ok_front c n e d : mapped_ok c n e -> 32 <= d -> d mod 32 = 0 -> 32 <= n - d -> mapped_ok (c + d) (n - d) (e + d).
Proof.
  intros (H1 & H2 & H3 & H4 & H5 & H6 & H7) Hd Hdm Hn. unfold mapped_ok. replace (c + d - (e + d)) with (c - e) by lia.
  replace (n - d + (e + d)) with (n + e) by lia. repeat split; (done || lia || divmod).
Qed.

Lemma front_split c n d : 32 <= d -> d mod 32 = 0 -> 32 <= n - d ->
  junk (c + 16) (n - 16) ⊣⊢ junk (c + 16) (d - 16) ∗ (∃ v, (c + d) ↦ v) ∗ (∃ v, (c + d + 8) ↦ v) ∗ junk (c + d + 16) (n - d - 16).
Proof.
  intros Hd Hdm Hn. replace (n - 16) with ((d - 16) + (16 + (n - d - 16))) by lia. rw junk_split; [|lia|divmod|lia].
  replace (c + 16 + (d - 16)) with (c + d) by lia. rw (junk_split (c + d)); [|lia|done|lia]. by rw junk_pair -assoc.
Qed.

Lemma mapped_front c n e d : mapped_ok c n e -> 32 <= d -> d mod 32 = 0 -> 32 <= n - d ->
  junk (c - e) e -∗ c ↦ e -∗ (c + 8) ↦ n -∗ junk (c + 16) (d - 16) -∗ (c + d) ↦ (e + d) -∗ (c + d + 8) ↦ (n - d) -∗ mapped (c + d, n - d).
Proof.
  iIntros (Hok Hd Hdm Hn) "H1 H2 H3 H4 H5 H6". pose proof (mapped_ok_front c n e d Hok Hd Hdm Hn) as Hok'.
  pose proof (mapped_facts _ _ _ Hok) as (F1 & F2 & F3 & F4 & F5). destruct Hok as (Q1 & Q2 & Q3 & Q4 & Q5 & Q6 & Q7).
  iExists (e + d). cbn [fst snd]. iFrame. iSplit; [done|]. replace (c + d - (e + d)) with (c - e) by lia.
  replace (e + d) with (e + (16 + (d - 16))) by lia. rw junk_split; [|lia|divmod|lia]. replace (c - e + e) with c by lia.
  rw (junk_split c); [|lia|done|lia]. rw junk_pair. iFrame.
Qed.

(** The next aligned address. *)
Lemma align_up k p : 5 <= k < 64 -> 0 < p < 2 ^ 47 -> p mod 32 = 0 ->
  let q := Z.land (u64 (p + 2 ^ k - 1)) (u64 (- 2 ^ k)) in
  q mod 2 ^ k = 0 /\ p <= q <= p + 2 ^ k - 32 /\ (q - p) mod 32 = 0.
Proof.
  intros Hk Hp Hm. assert (Hlt : 2 ^ k <= 2 ^ 63) by (apply Z.pow_le_mono_r; lia). cbv zeta.
  assert (Hpow : 2 ^ k = 32 * 2 ^ (k - 5)) by (change 32 with (2 ^ 5); rw -Z.pow_add_r; [f_equal; lia|lia|lia]).
  assert (0 < 2 ^ (k - 5)) by lia. rw pow2_mask; [|lia|lia].
  set (a := 2 ^ k) in *. set (x := p + a - 1). pose proof (Z.div_mod x a ltac:(lia)) as Hx. pose proof (Z.mod_pos_bound x a ltac:(lia)) as Hr.
  replace (x - x mod a) with (x / a * a) by lia. split; [by rw Z_mod_mult|].
  assert (Hqm : (x / a * a) mod 32 = 0) by (rw {2}Hpow (Z.mul_comm 32) Z.mul_assoc; by rw Z_mod_mult).
  assert (Ha : a mod 32 = 0) by (rw Hpow (Z.mul_comm 32); by rw Z_mod_mult).
  assert (Hq : p <= x / a * a <= x) by lia. clear Hx. set (q := x / a * a) in *. unfold x in Hq. clearbody q.
  clear -Hq Hqm Hm Ha. divmod.
Qed.

Lemma wp___memalign k len L s Φ : 0 <= k < 64 -> 0 <= len < 2 ^ 64 ->
  pool s L -∗
  (∀ s', ⌜unserved s s' len (2 ^ k)⌝ -∗ pool s' L -∗ Φ 0 s') ∧
  (∀ s' c m, ⌜(len + 16 <= m /\ (c + 16) mod 2 ^ k = 0)%Z⌝ -∗ pool s' ((c, m) :: L) -∗ junk (c + 16) (m - 16) -∗ Φ (c + 16) s') -∗
  wp (__memalign mal auxv sp fuel (2 ^ k) len) s Φ.
Proof.
  iIntros (Hk Hlen) "Hp HΦ". unfold __memalign. rw (pow2_alone k Hk) Z.eqb_refl. cbn [negb].
  assert (Hpk : 0 < 2 ^ k <= 2 ^ 63) by (split; [lia|apply Z.pow_le_mono_r; lia]).
  destruct (Z.ltb_spec (SIZE_MAX - 2 ^ k) len) as [Hbig|Hfit].
  { up. iApply wp_ret. iDestruct "HΦ" as "[HΦ _]". iApply ("HΦ" with "[%]"); [|by iApply (pool_same with "Hp")].
    split; [done|]. exists (len + 2 ^ k). split; [lia|]. left. unfold too_large. unfold SIZE_MAX in Hbig. lia. }
  unfold SIZE_MAX in Hfit. destruct (Z.leb_spec (2 ^ k) (4 * 8)) as [Hsmall|Hlarge].
  { iApply (wp_malloc_pool with "Hp"); [done|]. iSplit.
    { iIntros (s' Hun). iDestruct "HΦ" as "[HΦ _]". iApply "HΦ". iPureIntro. apply (unserved_le s s s' len (2 ^ k) len 0); [by apply still_since|done|lia|lia]. }
    iIntros (s' c m Hm) "Hp Hj".
    iDestruct (pool_live s' (c, m) with "Hp") as %(Hc1 & Hc2 & _); [apply elem_of_cons; by left|]. cbn [fst] in *.
    iDestruct "HΦ" as "[_ HΦ]". iApply ("HΦ" with "[%] Hp Hj"). split; [lia|].
    assert (Hk5 : k <= 5) by (apply (Z.pow_le_mono_r_iff 2); [lia|lia|]; change (2 ^ 5) with 32; lia).
    replace (c + 16) with ((c + 16) / 32 * 2 ^ (5 - k) * 2 ^ k); [by rw Z_mod_mult|].
    rw -Z.mul_assoc -Z.pow_add_r; [|lia|lia]. replace (5 - k + k) with 5 by lia. change (2 ^ 5) with 32. divmod. }
  assert (Hk5 : 5 <= k) by (apply Z.nlt_ge; intros Hlt; assert (2 ^ k <= 2 ^ 5) by (apply Z.pow_le_mono_r; lia); lia).
  rw (wrap_small 64 (len + 2 ^ k - 1)); [|lia]. set (n := len + 2 ^ k - 1). iApply wp_seq.
  iDestruct "Hp" as (U M HL) "[Hh HM]". pose proof (adjust_size_ok n ltac:(unfold n; lia)) as Hadj.
  iApply (wp_malloc_cases with "Hh"); [unfold n; lia|]. iSplit; [|iSplit].
  - iIntros (s' Hun) "Hh". iApply wp_ret. iDestruct "HΦ" as "[HΦ _]". iApply ("HΦ" with "[%]"); [|by iApply (pool_heap with "Hh HM")].
    apply (unserved_le s s s' len (2 ^ k) n 0); [by apply still_since|done|unfold n; lia..].
  - iIntros (s' c m Hm) "Hh Hj". rw Hm in Hadj. destruct Hadj as [Hg Hle].
    iDestruct (heap_tags with "Hh") as "(%Hc & H1 & H2 & Hh)". destruct Hc as (Hc1 & Hc2 & _ & Hc3). cbn [fst snd] in *.
    rw (proj2 (Z.eqb_neq (c + 16) 0)); [|lia]. destruct (align_up k (c + 16)) as (Hq1 & Hq2 & Hq3); [lia|lia|divmod|].
    set (q := Z.land _ _) in *. destruct (Z.eqb_spec q (c + 16)) as [E|E].
    { iApply wp_ret. iDestruct ("Hh" with "H1 H2") as "Hh". iDestruct "HΦ" as "[_ HΦ]". iApply ("HΦ" with "[%] [Hh HM] Hj").
      - split; [unfold n in *; lia|by rw -E].
      - iApply (pool_heap with "Hh HM"). by rw HL. }
    set (d := q - (c + 16)) in *. replace (c + 16 - 8) with (c + 8) by lia. ld "H1". rw tag_seven; [|done]. change (nz 1) with true. cbn [negb].
    rw tag_eight; [|done]. replace (c + 16 + m - 16) with (c + m) by lia. ld "H2". rw tag_seven; [|done].
    iDestruct ("Hh" with "H1 H2") as "Hh".
    assert (Hd : 32 <= d /\ d mod 32 = 0 /\ n + 16 - 2 ^ k + 32 <= m - d) by (unfold d; clear -Hq2 Hq3 E Hle Hc2; clearbody q n; divmod).
    destruct Hd as (Hd1 & Hd2 & Hd3). assert (Hgd : good_size d) by (unfold d in *; destruct Hg; split; [done|lia]).
    destruct Hg as [Hg1 Hg2]. assert (Hgm : good_size (m - d)) by (split; [clear -Hd2 Hg1; divmod|unfold n in *; lia]).
    assert (Hq : q = c + 16 + d) by (unfold d; lia). clearbody d q. subst q. replace (c + 16 + m - (c + 16 + d)) with (m - d) by lia.
    replace (c + 16 + d - 16) with (c + d) by lia. replace (c + 16 + d - 8) with (c + d + 8) by lia.
    set (m2 := m - d) in *. assert (Em : m = d + m2) by (unfold m2; lia). clearbody m2. subst m. rw !(Z.lor_comm 1) !lor_inuse; [|destruct Hgm; divmod|destruct Hgd; divmod].
    assert (Ej : junk (c + 16) (d + m2 - 16) ⊣⊢ junk (c + 16) (d - 16) ∗ junk (c + d) m2).
    { destruct Hgd, Hgm. replace (d + m2 - 16) with ((d - 16) + m2) by lia. rw junk_split; [|lia|divmod|lia].
      by replace (c + 16 + (d - 16)) with (c + d) by lia. }
    iDestruct (Ej with "Hj") as "[Hj1 Hj2]".
    iDestruct (chunk_split with "Hh Hj2") as "(H1 & H4 & (%v & H2) & (%w & H3) & Hj2 & Hh)"; [done..|].
    st "H1". st "H2". st "H3". st "H4". iDestruct ("Hh" with "H1 H2 H3 H4") as "Hh". iApply wp_seq.
    iApply (wp_free with "Hh Hj1"); [done..|]. iIntros (s'') "Hh". iApply wp_ret. iDestruct "HΦ" as "[_ HΦ]".
    replace (c + 16 + d) with (c + d + 16) in * by lia. iApply ("HΦ" $! s'' (c + d) m2 with "[%] [Hh HM] Hj2").
    + split; [unfold n in *; lia|done].
    + iApply (pool_heap with "Hh HM"). by rw HL.
  - iIntros (s' c m0 m [Hm0 Hm]) "Hh Hmap Ha". rw Hm0 in Hadj. destruct Hadj as [_ Hle]. iDestruct (array_junk with "Ha") as "Hj". rw length_replicate.
    iDestruct "Hmap" as "(%e & %Hok & H1 & H2 & H3)". cbn [fst snd] in *. pose proof (mapped_facts _ _ _ Hok) as (F1 & F2 & F3 & F4 & F5).
    pose proof Hok as (Q1 & Q2 & Q3 & Q4 & Q5 & Q6 & Q7). iDestruct (junk_resize _ _ (m - 16) with "Hj") as "Hj"; [divmod|].
    rw (proj2 (Z.eqb_neq (c + 16) 0)); [|lia]. destruct (align_up k (c + 16)) as (Hq1 & Hq2 & Hq3); [lia|lia|divmod|].
    set (q := Z.land _ _) in *. destruct (Z.eqb_spec q (c + 16)) as [E|E].
    { iApply wp_ret. iDestruct "HΦ" as "[_ HΦ]". iApply ("HΦ" with "[%] [-Hj] Hj").
      - split; [unfold n in *; lia|by rw -E].
      - iApply (pool_heap s' _ U ((c, m) :: M) with "Hh"); [by rw HL -Permutation_middle|]. iFrame "HM". iExists e. cbn [fst snd]. by iFrame. }
    set (d := q - (c + 16)) in *. replace (c + 16 - 8) with (c + 8) by lia. replace (c + 16 - 16) with c by lia.
    ld "H2". assert (E7 : Z.land m 7 = 0) by (change 7 with (Z.ones 3); rw Z.land_ones; [change (2 ^ 3) with 8; divmod|lia]).
    rw E7. change (nz 0) with false. cbn [negb]. ld "H1".
    assert (Hd : 32 <= d /\ d mod 32 = 0 /\ n + 16 - 2 ^ k + 32 <= m - d).
    { unfold d. assert (n + 16 <= m) by lia. assert ((c + 16) mod 32 = 0) by divmod. clear -Hq2 Hq3 E H1 H2; clearbody q n; divmod. }
    destruct Hd as (Hd1 & Hd2 & Hd3). assert (Hq : q = c + 16 + d) by (unfold d; lia). clearbody d q. subst q.
    replace (c + 16 + d - 16) with (c + d) by lia. replace (c + 16 + d - 8) with (c + d + 8) by lia.
    rw front_split; [|done|done|unfold n in *; lia]. iDestruct "Hj" as "(Hj & (%v & H4) & (%w & H5) & Hj2)".
    replace (c + 16 + d - (c + 16)) with d by lia. rw (wrap_small 64 (e + d)); [|lia].
    st "H4". ld "H2". rw (wrap_small 64 (m - d)); [|unfold n in *; lia]. st "H5". iApply wp_ret. iDestruct "HΦ" as "[_ HΦ]".
    iDestruct (mapped_front with "H3 H1 H2 Hj H4 H5") as "Hmap"; [done|done|done|unfold n in *; lia|].
    replace (c + 16 + d) with (c + d + 16) in * by lia. iApply ("HΦ" $! s' (c + d) (m - d) with "[%] [Hh HM Hmap] Hj2").
    + split; [unfold n in *; lia|done].
    + iApply (pool_heap s' _ U ((c + d, m - d) :: M) with "Hh"); [by rw HL -Permutation_middle|]. iFrame.
Qed.
(** * [realloc] of a block *)

(** The system does not fail to shrink a mapping. *)
Definition mremap_shrinks : Prop := forall base old new k m, 0 < base -> base mod PAGE_SIZE = 0 -> base + old <= 2 ^ 47 -> 0 < new <= old ->
  0 <= (sys_mremap base old new MREMAP_MAYMOVE 0 (k, m)).1.

(** The end of [realloc] for an area. *)
Lemma wp_remap c n0 e hs vs n n' L s Φ : n0 <= n + 16 \/ mremap_shrinks -> 0 <= n -> good_size n' -> n + 16 <= n' -> n' <= 2 ^ 63 - 4096 ->
  mapped_ok c n0 e -> 8 * Z.of_nat (length hs) = e -> 8 * Z.of_nat (length vs) = n0 - 16 ->
  pool s L -∗ array (c - e) (hs ++ e :: n0 :: vs) -∗
  (∀ s', ⌜unserved s s' (n' - 16) 0⌝ -∗ pool s' ((c, n0) :: L) -∗ array (c + 16) vs -∗ Φ 0 s') ∧
  (∀ s' (c' m : Z) (ws : list Z), ⌜(n + 16 <= m /\ 8 * Z.of_nat (length ws) = m - 16 /\ same_prefix n vs ws)%Z⌝ -∗
     pool s' ((c', m) :: L) -∗ array (c' + 16) ws -∗ Φ (c' + 16) s') -∗
  wp (let newlen := Z.land (u64 (u64 (n' + e) + PAGE_SIZE - 1)) (u64 (- PAGE_SIZE)) in
      if u64 (n0 + e) =? newlen then ret (c + 16)
      else
        let! base := os (mremap sys_mremap (c - e) (u64 (n0 + e)) newlen MREMAP_MAYMOVE 0) in
        if base =? u64 (-1) then copy_realloc mal auxv sp fuel c (c + 16) n' n0
        else
          let self := base + e in
          store (csize self) (u64 (newlen - e));;
          ret (CHUNK_TO_MEM self)) s Φ.
Proof.
  iIntros (Hgrow Hn [Hg1 Hg2] Hle Hb Hok Hhs Hvs) "Hp Ha HΦ". pose proof (mapped_facts _ _ _ Hok) as (F1 & F2 & F3 & F4 & F5).
  pose proof Hok as (H1 & H2 & H3 & H4 & H5 & H6 & H7). rw (wrap_small 64 (n' + e)); [|lia]. rw (wrap_small 64 (n0 + e)); [|lia].
  cbv zeta. rw page_mask; [|unfold PAGE_SIZE; lia]. set (x := n' + e + PAGE_SIZE - 1). set (newlen := x - x mod PAGE_SIZE).
  assert (Hnl : n' + e <= newlen < n' + e + PAGE_SIZE /\ newlen mod PAGE_SIZE = 0) by (unfold newlen, x, PAGE_SIZE in *; divmod).
  clearbody newlen. clear x. destruct Hnl as [Hnl Hnm].
  assert (Hclose : forall s', pool s' L -∗ array (c - e) (hs ++ e :: n0 :: vs) -∗ pool s' ((c, n0) :: L) ∗ array (c + 16) vs).
  { intros s'. iIntros "(%U & %M & %HL & Hh & HM) Ha". rw area_split; [|done]. iDestruct "Ha" as "(Hhs & Hc & Hn & $)".
    iApply (pool_heap s' _ U ((c, n0) :: M) with "Hh"); [by rw HL -Permutation_middle|]. iFrame "HM". iExists e. cbn [fst snd]. iFrame.
    iSplit; iPureIntro; [done|lia]. }
  destruct (Z.eqb_spec (n0 + e) newlen) as [E|E].
  { iApply wp_ret. iDestruct "HΦ" as "[_ HΦ]". iDestruct (Hclose with "Hp Ha") as "[Hp Ha]".
    iApply ("HΦ" $! s c n0 with "[%] Hp Ha"). split; [lia|]. split; [done|]. by intros i v Hi _. }
  assert (Hlen : n0 + e = 8 * Z.of_nat (length (hs ++ e :: n0 :: vs))) by (rw length_app; cbn [length]; lia).
  iApply wp_seq. rw {1}Hlen. iApply (wp_mremap with "Ha Hp"); [done|lia|by rw -Hlen|lia|done|]. rw -Hlen. iSplit.
  - iIntros (s' [Hs Hst] Hfail) "Ha Hp". iDestruct (pool_same with "Hp") as "Hp"; [done|]. iDestruct (Hclose with "Hp Ha") as "[Hp Ha]".
    change (MAP_FAILED =? u64 (-1)) with true. cbv iota.
    assert (n0 <= n').
    { destruct Hgrow as [Hgrow|mremap_shrinks]; [lia|]. destruct Hfail as [Hf|(k & m & Hf)]; [unfold PTRDIFF_MAX, PAGE_SIZE in *; lia|].
      destruct (Z.le_gt_cases newlen (n0 + e)) as [Hsh|Hgr]; [|unfold PAGE_SIZE in *; divmod].
      pose proof (mremap_shrinks (c - e) (n0 + e) newlen k m H1 H2 ltac:(lia) ltac:(lia)). lia. }
    iApply (wp_copy_realloc c n0 n' n0 vs L with "Hp Ha"); [lia|lia|done|replace (n0 - n0) with 0 by lia; by iApply junk_nil|]. iSplit.
    + iIntros (s'' Hun) "Hp Ha _". iDestruct "HΦ" as "[HΦ _]". iApply ("HΦ" with "[%] Hp Ha").
      apply (unserved_le s s' s'' (n' - 16) 0 (n' - 16) 0); [by apply still_since|done|lia|lia].
    + iIntros (s'' c' m ws [Hm Hlm]) "Hp Ha". iDestruct "HΦ" as "[_ HΦ]". iApply ("HΦ" with "[%] Hp Ha").
      split; [lia|]. split; [done|]. apply same_prefix_app.
  - iIntros (base' s') "%Hs (%Hb1 & %Hb2 & %Hb3) Ha Hp". rw (proj2 (Z.eqb_neq base' (u64 (-1)))); [|change (u64 (-1)) with (2 ^ 64 - 1); lia].
    pose proof (page_words_ok newlen ltac:(lia) Hnm) as Hw. set (k := (page_words newlen - length hs - 2)%nat).
    assert (Hk : page_words newlen = (length hs + (2 + k))%nat) by (unfold k; lia).
    set (zs := replicate _ 0). rw Hk firstn_app_2. cbn [Nat.add firstn]. rw -app_assoc. cbn [app].
    set (c' := base' + e). replace base' with (c' - e) by (unfold c'; lia). rw area_split; [|done]. iDestruct "Ha" as "(Hhs & Hc & Hn & Ha)".
    unfold csize, CHUNK_TO_MEM, OVERHEAD. change (2 * 8) with 16. st "Hn". iApply wp_ret. rw (wrap_small 64 (newlen - e)); [|lia].
    assert (Hok' : mapped_ok c' (newlen - e) e).
    { unfold mapped_ok, c'. replace (base' + e - e) with base' by lia. replace (newlen - e + e) with newlen by lia. repeat split; (done || lia). }
    iDestruct (pool_same with "Hp") as "(%U & %M & %HL & Hh & HM)"; [done|]. iDestruct "HΦ" as "[_ HΦ]".
    iApply ("HΦ" $! s' c' (newlen - e) with "[%] [Hhs Hc Hn Hh HM] Ha").
    + split; [lia|]. split.
      * rw length_app length_take. unfold zs. rw length_replicate length_app. cbn [length]. unfold k. lia.
      * apply same_prefix_take. unfold k. lia.
    + iApply (pool_heap s' _ U ((c', newlen - e) :: M) with "Hh"); [by rw HL -Permutation_middle|]. iFrame "HM". iExists e. cbn [fst snd]. iFrame.
      iSplit; iPureIntro; [done|lia].
Qed.

(** [realloc] of an area. *)
Lemma wp_realloc_mapped c n0 vs n n' L s Φ : n0 <= n + 16 \/ mremap_shrinks -> 0 <= n < 2 ^ 64 -> adjust_size n = Some n' -> good_size n' -> n + 16 <= n' -> n' <= 2 ^ 63 - 4096 ->
  8 * Z.of_nat (length vs) = n0 - 16 ->
  pool s L -∗ mapped (c, n0) -∗ array (c + 16) vs -∗
  (∀ s', ⌜unserved s s' (n' - 16) 0⌝ -∗ pool s' ((c, n0) :: L) -∗ array (c + 16) vs -∗ Φ 0 s') ∧
  (∀ s' (c' m : Z) (ws : list Z), ⌜(n + 16 <= m /\ 8 * Z.of_nat (length ws) = m - 16 /\ same_prefix n vs ws)%Z⌝ -∗
     pool s' ((c', m) :: L) -∗ array (c' + 16) ws -∗ Φ (c' + 16) s') -∗
  wp (realloc mal auxv sp fuel (c + 16) n) s Φ.
Proof.
  iIntros (Hgrow Hn Hadj Hg Hle Hb Hvs) "Hp (%e & %Hok & Hc & Hcn & Hj) Ha HΦ". cbn [fst snd] in *.
  pose proof (mapped_facts _ _ _ Hok) as (F1 & F2 & F3 & F4 & F5). pose proof Hok as (H1 & H2 & H3 & H4 & H5 & H6 & H7).
  unfold realloc. rw Hadj (proj2 (Z.eqb_neq (c + 16) 0)); [|lia]. unfold MEM_TO_CHUNK, OVERHEAD. replace (c + 16 - 2 * 8) with c by lia.
  iApply wp_seq. unfold CHUNK_SIZE, csize. ld "Hcn". iApply wp_ret. rw even_mask; [|divmod|lia].
  iApply wp_seq. unfold IS_MMAPPED, csize. ld "Hcn". iApply wp_ret. unfold C_INUSE. rw even_flag; [|divmod]. cbn [negb].
  unfold psize. ld "Hc". rw even_flag; [|divmod]. iDestruct "Hj" as "(%hs & %Hhs & Hhs)".
  iAssert (array (c - e) (hs ++ e :: n0 :: vs)) with "[Hc Hcn Hhs Ha]" as "Ha".
  { rw area_split; [|done]. iFrame. }
  iApply wp_seq. rw {1}(wrap_small 64 (n' + e)); [|destruct Hg; lia]. destruct (Z.ltb_spec (n' + e) PAGE_SIZE) as [Hsmall|Hlarge].
  - iApply (wp_malloc_pool with "Hp"); [destruct Hg; lia|]. iSplit.
    + iIntros (s' Hun) "Hp". change (nz 0) with false. cbv iota.
      iApply (wp_remap c n0 e hs vs n n' L s' with "Hp Ha"); [done|lia|done..|]. iSplit.
      * iIntros (s'' Hun'). iDestruct "HΦ" as "[HΦ _]". iApply "HΦ". iPureIntro.
        assert (Hs : since s s') by (eapply unserved_since; [done|unfold PAGE_SIZE in *; lia]).
        apply (unserved_le s s' s'' (n' - 16) 0 (n' - 16) 0); done || lia.
      * iDestruct "HΦ" as "[_ HΦ]". iApply "HΦ".
    + iIntros (s' c' m Hm) "Hp (%ds & %Hds & Hd)". iDestruct (pool_live s' (c', m) with "Hp") as %(Hc' & _); [apply elem_of_cons; by left|]. cbn [fst] in Hc'.
      rw (proj2 (nz_true (c' + 16))); [|lia]. rw area_split; [|done]. iDestruct "Ha" as "(Hhs & Hc & Hcn & Ha)". destruct Hg as [Hg1 Hg2].
      rw (wrap_small 64 (n' - 2 * 8)); [|lia]. set (q := Z.to_nat ((n' - 2 * 8) / 8)). assert (Hq : 8 * Z.of_nat q = n' - 16) by (unfold q; divmod).
      assert (Hbig : PAGE_SIZE <= n0 + e) by (unfold PAGE_SIZE in *; divmod).
      iApply wp_seq. iApply (wp_copy_words with "Hd Ha"); [lia|lia|]. iIntros "Hd Ha". iApply wp_seq.
      iDestruct "Hp" as "(%U & %M & %HL & Hh & HM)".
      iApply (wp_free_mapped c n0 with "[Hhs Hc Hcn] [Ha]").
      * iExists e. cbn [fst snd]. iFrame. iSplit; iPureIntro; [done|lia].
      * iDestruct (array_junk with "Ha") as "Ha". by rw Hvs.
      * iIntros (s'' Hs). iApply wp_ret. iDestruct "HΦ" as "[_ HΦ]". iApply ("HΦ" $! s'' c' m with "[%] [Hh HM] Hd").
        -- split; [lia|]. split; [rw length_app length_take length_drop; lia|]. apply same_prefix_take. lia.
        -- iApply (pool_heap with "[Hh] HM"); [done|]. by iApply (heap_same with "Hh").
  - iApply wp_ret. change (nz 0) with false. cbv iota. iApply (wp_remap with "Hp Ha HΦ"); first [done|lia].
Qed.

(** A block of either kind; [Q] is what the caller knows of a block that is an area. *)
Lemma wp_realloc_pool (Q : Prop) c n0 vs n L s Φ : 0 <= n < 2 ^ 64 -> 8 * Z.of_nat (length vs) = n0 - 16 -> (Q -> n0 <= n + 16 \/ mremap_shrinks) ->
  (∃ U M, ⌜L ≡ₚ U ++ M⌝ ∗ ([∗ list] x ∈ M, mapped x) ∗ (heap mal s ((c, n0) :: U) ∨ ⌜Q⌝ ∗ heap mal s U ∗ mapped (c, n0))) -∗ array (c + 16) vs -∗
  (∀ s' n1, ⌜n0 <= n1 /\ unserved s s' n 64⌝ -∗ pool s' ((c, n1) :: L) -∗ array (c + 16) vs -∗ junk (c + n0) (n1 - n0) -∗ Φ 0 s') ∧
  (∀ s' (c' m : Z) (ws : list Z), ⌜(n + 16 <= m /\ 8 * Z.of_nat (length ws) = m - 16 /\ same_prefix n vs ws)%Z⌝ -∗
     pool s' ((c', m) :: L) -∗ array (c' + 16) ws -∗ Φ (c' + 16) s') -∗
  wp (realloc mal auxv sp fuel (c + 16) n) s Φ.
Proof.
  iIntros (Hn Hvs HQ) "(%U & %M & %HL & HM & Hx) Ha HΦ". pose proof (adjust_size_ok n Hn) as Hadj.
  destruct (adjust_size n) as [n'|] eqn:E.
  2: { iAssert (pool s ((c, n0) :: L)) with "[Hx HM]" as "Hp".
    { iDestruct "Hx" as "[Hh|(_ & Hh & Hm)]"; [iApply (pool_heap with "Hh HM"); by rw HL|].
      iApply (pool_heap s _ U ((c, n0) :: M) with "Hh"); [by rw HL -Permutation_middle|]. iFrame. }
    iDestruct (pool_live s (c, n0) with "Hp") as %(Hc & _); [apply elem_of_cons; by left|]. cbn [fst] in Hc.
    unfold realloc. rw E (proj2 (Z.eqb_neq (c + 16) 0)); [|lia]. up. iApply wp_ret. iDestruct "HΦ" as "[HΦ _]".
    iApply ("HΦ" with "[%] [Hp] Ha"); [|by iApply (pool_same with "Hp")|replace (n0 - n0) with 0 by lia; by iApply junk_nil].
    split; [lia|]. apply (unserved_le s s _ n 64 n 0); [by apply still_since| |lia|lia]. apply unserved_large; [done|].
    unfold too_large. unfold PTRDIFF_MAX, SIZE_ALIGN, PAGE_SIZE in Hadj. lia. }
  destruct Hadj as [Hg Hle]. pose proof (adjust_size_bound n n' Hn E) as Hb. iDestruct "Hx" as "[Hh|(%Hq & Hh & Hm)]".
  - iApply (wp_realloc_heap with "Hh HM Ha HΦ"); (done || lia).
  - iApply (wp_realloc_mapped with "[Hh HM] Hm Ha"); [by apply HQ|lia|done..|iApply (pool_heap with "Hh HM"); done|]. iSplit.
    + iIntros (s' Hun) "Hp Ha". iDestruct "HΦ" as "[HΦ _]". iApply ("HΦ" with "[%] Hp Ha"); [|replace (n0 - n0) with 0 by lia; by iApply junk_nil].
      split; [lia|]. pose proof (adjust_size_near n n' Hn E). apply (unserved_le s s s' n 64 (n' - 16) 0); [by apply still_since|done|lia|lia].
    + iIntros (s' c' m ws Hws). iDestruct "HΦ" as "[_ HΦ]". by iApply "HΦ".
Qed.

End api.
