(* ===== verification/MallocKernel.v ===== *)
(** * A system that keeps the laws of the allocator

    A small kernel: [brk] extends the heap into free words, [mmap] takes an area above
    all others, [mremap] only shrinks, or always fails, [madvise] does nothing.  It keeps [PagesLaws],
    so what is shown for every system that keeps them is about something. *)
From stdpp Require Import gmap.
From S2P Require Import Prelude IntOps Mman Seplog Chunks Malloc MallocOs.

Fixpoint zeros_from (a : Z) (n : nat) : words := match n with O => ∅ | S n => <[a := 0]> (zeros_from (a + 8) n) end.
Definition aligned_up (a : Z) : Z := (a + 7) / 8 * 8.
Definition zeros (lo hi : Z) : words := zeros_from (aligned_up lo) (Z.to_nat ((hi - aligned_up lo + 7) / 8)).
Definition vacant (lo hi : Z) (m : words) : Prop := map_Forall (fun w _ => in_words lo hi w = false) m.
Definition without (lo hi : Z) (m : words) : words := filter (fun x => in_words lo hi x.1 = false) m.
Definition top_word (m : words) : Z := map_fold (fun w _ t => Z.max w t) 0 m.

Lemma in_words_true lo hi w : in_words lo hi w = true <-> w mod 8 = 0 /\ lo <= w < hi.
Proof. unfold in_words. rewrite !andb_true_iff, Z.eqb_eq, Z.leb_le, Z.ltb_lt. tauto. Qed.

Lemma zeros_from_lookup a n w : a mod 8 = 0 -> zeros_from a n !! w = if in_words a (a + 8 * Z.of_nat n) w then Some 0 else None.
Proof.
  revert a. induction n as [|n IH]; intros a Ha; cbn [zeros_from].
  - rewrite lookup_empty. destruct (in_words _ _ w) eqn:E; [|done]. apply in_words_true in E. lia.
  - destruct (Z.eq_dec w a) as [->|Hne].
    + rewrite lookup_insert_eq. assert (E : in_words a (a + 8 * Z.of_nat (S n)) a = true) by (apply in_words_true; lia). by rewrite E.
    + rewrite lookup_insert_ne by done. rewrite IH by divmod.
      replace (in_words (a + 8) (a + 8 + 8 * Z.of_nat n) w) with (in_words a (a + 8 * Z.of_nat (S n)) w); [done|].
      apply eq_true_iff_eq. rewrite !in_words_true. divmod.
Qed.

Lemma zeros_lookup lo hi w : zeros lo hi !! w = if in_words lo hi w then Some 0 else None.
Proof.
  unfold zeros, aligned_up. set (a := (lo + 7) / 8 * 8). assert (Ha : lo <= a < lo + 8 /\ a mod 8 = 0) by (unfold a; divmod). clearbody a.
  rewrite zeros_from_lookup by lia. replace (in_words a (a + 8 * Z.of_nat (Z.to_nat ((hi - a + 7) / 8))) w) with (in_words lo hi w); [done|].
  apply eq_true_iff_eq. rewrite !in_words_true. divmod.
Qed.

Lemma without_loses lo hi m : loses m lo hi (without lo hi m).
Proof.
  intros w. unfold without. rewrite map_lookup_filter. destruct (in_words lo hi w) eqn:E, (m !! w) as [v|]; cbn; try done.
  - by rewrite option_guard_False by (cbn; congruence).
  - by rewrite option_guard_True.
Qed.

Lemma vacant_gains lo hi m : vacant lo hi m -> gains m lo hi (m ∪ zeros lo hi).
Proof.
  intros Hv w. destruct (in_words lo hi w) eqn:E.
  - assert (Hn : m !! w = None) by (destruct (m !! w) eqn:Em; [pose proof (Hv w _ Em); congruence|done]).
    split; [done|]. rewrite lookup_union_r by done. by rewrite zeros_lookup, E.
  - rewrite lookup_union, zeros_lookup, E. by destruct (m !! w).
Qed.

Lemma top_word_ok (m : words) w v : m !! w = Some v -> w <= top_word m.
Proof.
  unfold top_word. revert w v. apply (map_fold_weak_ind (fun t (m : words) => forall w v, m !! w = Some v -> w <= t)).
  - intros w v Hw. by rewrite lookup_empty in Hw.
  - intros i x m' t Hi IH w v Hw. destruct (Z.eq_dec i w) as [<-|Hne]; [lia|].
    rewrite lookup_insert_ne in Hw by done. specialize (IH w v Hw). lia.
Qed.

(** The break is between 1 and [2 ^ 47]. *)
Definition break (k : Z) : Z := Z.max 1 (Z.min k (2 ^ 47)).
Definition area (m : words) : Z := (top_word m / PAGE_SIZE + 1) * PAGE_SIZE.

(** The break, and the mappings refused; where [shrinks] is false, [mremap] always fails. *)
Abbreviation kstate := (Z * list Z)%type.

Definition small_pages (shrinks : bool) : Pages kstate := {|
  sys_brk a := fun '((k, l), m) =>
    if (break k <? a) && (a <=? 2 ^ 47) && bool_decide (vacant (break k) a m)
    then (a, ((a, l), m ∪ zeros (break k) a)) else (break k, ((k, l), m));
  sys_mmap _ len _ _ _ _ := fun '((k, l), m) =>
    if (0 <? area m) && (area m + len <=? 2 ^ 47) then (area m, ((k, l), m ∪ zeros (area m) (area m + len)))
    else (- ENOMEM, ((k, len :: l), m));
  sys_mremap base old new _ _ := fun '(k, m) =>
    if shrinks && ((0 <? base) && (base + old <=? 2 ^ 47) && (new <=? old)) then (base, (k, without (base + new) (base + old) m))
    else (- ENOMEM, (k, m));
  sys_munmap base len := fun '(k, m) => (0, (k, without base (base + len) m));
  sys_madvise _ _ _ := fun '(k, m) => (0, (k, m));
|}.

Lemma small_laws shrinks : @PagesLaws kstate (small_pages shrinks).
Proof.
  refine {| top := fun k => break k.1; refusals := snd |}.
  - intros k. unfold break. lia.
  - intros a [k l] m Ha. cbn. destruct ((break k <? a) && (a <=? 2 ^ 47) && bool_decide (vacant (break k) a m)) eqn:E; [|by split; [|split; [|left]]].
    rewrite !andb_true_iff, Z.ltb_lt, Z.leb_le, bool_decide_eq_true in E. destruct E as [[E1 E2] E3].
    cbn [fst snd]. assert (break a = a) as -> by (unfold break in *; lia). split; [done|]. split; [done|]. right. split; [done|]. split; [done|]. by apply vacant_gains.
  - intros len [k l] m Hl Hlm. cbn. destruct ((0 <? area m) && (area m + len <=? 2 ^ 47)) eqn:E; (split; [done|]); [right|left; unfold ENOMEM; split; [lia|done]].
    rewrite andb_true_iff, Z.ltb_lt, Z.leb_le in E. destruct E as [E1 E2]. split; [done|]. split; [unfold area; by rewrite Z_mod_mult|]. split; [done|].
    split; [done|]. apply vacant_gains. intros w v Hw. apply top_word_ok in Hw. apply not_true_iff_false. rewrite in_words_true. unfold area, PAGE_SIZE in *. divmod.
  - intros base len k m _ _ _. cbn. split; [done|]. split; [done|]. right. apply without_loses.
  - intros base old new k m Hb _ _ Hn _ Hw. cbn.
    destruct (shrinks && ((0 <? base) && (base + old <=? 2 ^ 47) && (new <=? old))) eqn:E; (split; [done|]); (split; [done|]); [right|left; unfold ENOMEM; split; [lia|done]].
    rewrite !andb_true_iff, Z.ltb_lt, !Z.leb_le in E. split; [lia|]. split; [done|]. split; [lia|].
    exists (without base (base + old) m). split; [apply without_loses|]. intros w. rewrite !(without_loses _ _ m w).
    destruct (in_words base (base + new) w) eqn:E1.
    + apply in_words_true in E1. assert (in_words base (base + old) w = true) as -> by (apply in_words_true; lia). split; [done|].
      replace (in_words (base + new) (base + old) w) with false by (symmetry; apply not_true_iff_false; rewrite in_words_true; lia).
      rewrite (proj2 (Z.ltb_lt _ _)) by lia. f_equal. lia.
    + apply not_true_iff_false in E1. rewrite in_words_true in E1.
      replace (in_words (base + new) (base + old) w) with (in_words base (base + old) w); [done|].
      apply eq_true_iff_eq. rewrite !in_words_true. lia.
  - intros a len k m _. cbn. split; [done|]. split; [done|]. intros w. by left.
Defined.

#[export] Instance small_kernel : Pages kstate := small_pages true.
#[export] Instance small_kernel_laws : PagesLaws kstate := small_laws true.
