(* ===== verification/MallocSpec.v ===== *)
(** * What the allocator promises ([malloc/malloc.c], [calloc.c], [memalign.c], ...)

    The specification: live blocks are a finite map from addresses to the words that
    they hold.  [malloc] adds a block, [free] takes one away, [realloc] exchanges one
    and keeps its contents, and no other word of a live block, nor of the memory that
    is not the allocator's, changes.  Each theorem says that the code, run on a memory
    that holds the allocator's state, returns, and what it returns; a request is
    refused only if it is too large or the system has refused memory during the call.

    At the end the functions together: a program that calls them, stores and loads, in
    any order that keeps the rules, from the first call on, sees what the map of blocks
    says. *)
From iris.proofmode Require Import proofmode.
From S2P Require Import Prelude IntOps Format Mman Seplog Chunks Segments Malloc MallocHeap MallocOps MallocOs MallocFree MallocAlloc MallocApi MallocKernel.

(** [runs e s m Q]: [e] returns from [m], whatever other memory there is, leaves the
    other memory alone, and its result satisfies [Q]. *)
Definition runs {S A} (e : prog S A) (s : S) (m : words) (Q : A -> S -> words -> Prop) : Prop :=
  forall mf, m ##ₘ mf -> exists a s' m', e s (m ∪ mf) = Some (a, s', m' ∪ mf) /\ m' ##ₘ mf /\ Q a s' m'.

Lemma wp_runs {S A} (e : prog S A) s (P : heapProp) (Φ : A -> S -> heapProp) m (Q : A -> S -> words -> Prop) :
  (P ⊢ wp e s Φ) -> P m -> (forall a s' m', Φ a s' m' -> Q a s' m') -> runs e s m Q.
Proof.
  intros [H] HP HQ mf Hd. destruct (H m HP mf Hd) as (a & s' & m' & E & Hd' & HΦ). exists a, s', m'.
  split; [done|]. split; [done|]. by apply HQ.
Qed.

Lemma runs_weaken {S A} (e : prog S A) s m (P Q : A -> S -> words -> Prop) : runs e s m P -> (forall a s' m', P a s' m' -> Q a s' m') -> runs e s m Q.
Proof. intros He HPQ mf Hd. destruct (He mf Hd) as (a & s' & m' & E & Hd' & HP). exists a, s', m'. split; [done|]. split; [done|]. by apply HPQ. Qed.

Lemma pure_sep_holds (φ : Prop) (P : heapProp) m : (⌜φ⌝ ∗ P)%I m -> φ /\ P m.
Proof.
  intros (m1 & m2 & Hs & Hd & Hφ & HP). split; [done|]. eapply grows; [exact HP|]. transitivity (m1 ∪ m2); [by apply map_union_subseteq_r|done].
Qed.

(** A failure and a success, each with a fact and a state. *)
Lemma wp_runs_or {S A X} (e : prog S A) s (P : heapProp) m (φ : A -> Prop) (R : S -> heapProp) (ψ : A -> X -> Prop) (T : A -> X -> S -> heapProp) :
  (P ⊢ wp e s (fun a s' => (⌜φ a⌝ ∗ R s') ∨ ∃ x, ⌜ψ a x⌝ ∗ T a x s')%I) -> P m ->
  runs e s m (fun a s' m' => (φ a /\ R s' m') \/ exists x, ψ a x /\ T a x s' m').
Proof.
  intros He HP. eapply wp_runs; [exact He|exact HP|]. intros a s' m' [Hl|[x Hr]]; [left|right; exists x]; by apply pure_sep_holds.
Qed.

(** * Live blocks *)
Definition entry (x : Z * list Z) : Z * Z := (x.1 - 16, 16 + 8 * Z.of_nat (length x.2)).
Definition entries (A : gmap Z (list Z)) : list (Z * Z) := entry <$> map_to_list A.

Lemma entries_insert A p vs : A !! p = None -> entries (<[p := vs]> A) ≡ₚ entry (p, vs) :: entries A.
Proof. intros HA. unfold entries. by rw map_to_list_insert. Qed.

Lemma entries_delete A p vs : A !! p = Some vs -> entries A ≡ₚ entry (p, vs) :: entries (delete p A).
Proof. intros HA. unfold entries. by rw -(map_to_list_delete A p vs). Qed.

(** Two blocks do not overlap. *)
Definition apart (p : Z) (vs : list Z) (q : Z) (ws : list Z) : Prop :=
  p + 8 * Z.of_nat (length vs) <= q \/ q + 8 * Z.of_nat (length ws) <= p.

(** A new block: it is not a live one and overlaps none, aligned, and below [2 ^ 47]. *)
Definition fresh (A : gmap Z (list Z)) (p : Z) (vs : list Z) : Prop :=
  A !! p = None /\ 0 < p /\ p mod 32 = 0 /\ p + 8 * Z.of_nat (length vs) <= 2 ^ 47 /\
  forall q ws, A !! q = Some ws -> apart p vs q ws.

Section spec.
Context {K : Type} `{PagesLaws K} (mal : Z).
Implicit Types (s : statics K) (A : gmap Z (list Z)) (vs ws : list Z).

(** The allocator with the live blocks [A]: its own state, and the words of the blocks. *)
Definition allocator s A : heapProp := (pool mal s (entries A) ∗ [∗ map] p ↦ vs ∈ A, array p vs)%I.

Lemma allocator_take s A p vs : A !! p = Some vs -> allocator s A ⊢
  pool mal s ((p - 16, 16 + 8 * Z.of_nat (length vs)) :: entries (delete p A)) ∗ array p vs ∗ [∗ map] q ↦ ws ∈ delete p A, array q ws.
Proof.
  intros HA. unfold allocator. rw (big_sepM_delete _ _ _ _ HA). iIntros "[Hp $]". iApply (pool_reorder with "Hp").
  by rw (entries_delete _ _ _ HA).
Qed.

Lemma block_live s A p vs : A !! p = Some vs -> allocator s A ⊢ ⌜live_ok (entry (p, vs))⌝.
Proof.
  intros HA. rw (allocator_take _ _ _ _ HA). iIntros "[Hp _]". iApply (pool_live with "Hp"). apply elem_of_cons. by left.
Qed.

Lemma array_within p vs q ws i : (i < length vs)%nat -> (0 < length ws)%nat -> array p vs -∗ array q ws -∗ ⌜q <> (p + 8 * Z.of_nat i)%Z⌝.
Proof.
  iIntros (Hi Hws) "H1 H2". iIntros (->). destruct (lookup_lt_is_Some_2 vs i Hi) as [v Hv]. destruct ws as [|w ws]; [cbn in Hws; lia|].
  iDestruct (big_sepL_lookup with "H1") as "H1"; [done|]. rw array_cons. iDestruct "H2" as "[H2 _]". by iDestruct (pointsto_distinct with "H1 H2") as %Hd.
Qed.

(** Arrays that are owned together do not overlap. *)
Lemma arrays_apart p vs q ws : p mod 8 = 0 -> q mod 8 = 0 -> (0 < length vs)%nat -> (0 < length ws)%nat ->
  array p vs -∗ array q ws -∗ ⌜apart p vs q ws⌝.
Proof.
  iIntros (Hp Hq Hvs Hws) "H1 H2". unfold apart.
  destruct (Z.le_gt_cases (p + 8 * Z.of_nat (length vs)) q) as [|Hl1]; [by iLeft|].
  destruct (Z.le_gt_cases (q + 8 * Z.of_nat (length ws)) p) as [|Hl2]; [by iRight|]. iExFalso. destruct (Z.le_gt_cases p q).
  - iDestruct (array_within p vs q ws (Z.to_nat ((q - p) / 8)) with "H1 H2") as %Hno; [divmod|done|]. iPureIntro. apply Hno. divmod.
  - iDestruct (array_within q ws p vs (Z.to_nat ((p - q) / 8)) with "H2 H1") as %Hno; [divmod|done|]. iPureIntro. apply Hno. divmod.
Qed.

(** A block of the pool, with its words, is a new live block. *)
Lemma allocator_put s A c m vs : 8 * Z.of_nat (length vs) = m - 16 ->
  pool mal s ((c, m) :: entries A) -∗ array (c + 16) vs -∗ ([∗ map] p ↦ vs ∈ A, array p vs) -∗
  ⌜fresh A (c + 16) vs⌝ ∗ allocator s (<[c + 16 := vs]> A).
Proof.
  iIntros (Hvs) "Hp Ha HA". iDestruct (pool_live mal s (c, m) with "Hp") as %(H1 & H2 & H3 & H4 & H5); [apply elem_of_cons; by left|]. cbn [fst snd] in *.
  iAssert (⌜forall q ws, A !! q = Some ws -> apart (c + 16) vs q ws /\ 0 < Z.of_nat (length ws)⌝)%I as %Hapart.
  { iIntros (q ws Hq). iDestruct (pool_live mal s (entry (q, ws)) with "Hp") as %(_ & L2 & _ & L4 & _).
    { apply elem_of_cons. right. rw (entries_delete _ _ _ Hq). apply elem_of_cons. by left. }
    unfold entry in L2, L4. cbn [fst snd] in L2, L4. iDestruct (big_sepM_lookup with "HA") as "Hq"; [done|].
    iDestruct (arrays_apart with "Ha Hq") as %Hap; [divmod|divmod|lia|lia|]. iPureIntro. split; [done|lia]. }
  assert (Hnone : A !! (c + 16) = None).
  { destruct (A !! (c + 16)) as [ws|] eqn:E; [|done]. exfalso. destruct (Hapart _ _ E) as [Hap Hl]. unfold apart in Hap. lia. }
  iSplit.
  - iPureIntro. split; [done|]. split; [lia|]. split; [divmod|]. split; [lia|]. intros q ws Hq. by apply Hapart.
  - unfold allocator. rw (big_sepM_insert _ _ _ _ Hnone). iFrame. iApply (pool_reorder with "Hp").
    rw entries_insert; [|done]. unfold entry. cbn [fst snd]. rw Hvs. replace (c + 16 - 16) with c by lia. by replace (16 + (m - 16)) with m by lia.
Qed.

(** * What a program sees *)






(** * The start *)

(** The words of [mal.bins] from bin [i] on, all 0: the bins are empty. *)
Lemma zero_bins i n : array (mal + 8 + 24 * i) (replicate (3 * n) 0) ⊢ [∗ list] j ∈ seqZ i (Z.of_nat n), binned mal j (members j []).
Proof.
  revert i. induction n as [|n IH]; intros i; [by iIntros "_"|]. rw Nat2Z.inj_succ seqZ_cons; [|lia].
  replace (3 * S n)%nat with (S (S (S (3 * n)))) by lia. cbn [replicate]. rw !array_cons. iIntros "(_ & H2 & H3 & H4)". cbn [big_opL].
  iSplitL "H2 H3".
  - iExists []. iSplit; [done|]. iLeft. iSplit; [done|]. unfold head, tail.
    replace (mal + 8 + 24 * i + 16) with (mal + 8 + 24 * i + 8 + 8) by lia. iFrame.
  - replace (Z.pred (Z.succ (Z.of_nat n))) with (Z.of_nat n) by lia. iApply IH. by replace (mal + 8 + 24 * Z.succ i) with (mal + 8 + 24 * i + 8 + 8 + 8) by lia.
Qed.

(** The allocator's variables before the first call. *)
Definition started s : Prop := binmap s = 0 /\ heap_end s = 0 /\ brk s = 0 /\ mmap_step s = 0.

Lemma heap_started s : started s -> array (mal + 8) (replicate 192 0) ⊢ heap mal s [].
Proof.
  iIntros ((E1 & E2 & E3 & E4)) "Ha". iExists []. iSplit; [iPureIntro|iSplit; [done|]].
  - split; [done|]. split; [done|]. split; [|split; [by left|]].
    + rw E1. split; [by split|]. intros i Hi. rw Z.testbit_0_l. symmetry. apply bool_decide_eq_false. intros Hn. by apply Hn.
    + unfold os_ok. rw E3 E4. split; [lia|]. split; [done|]. split; [by left|lia].
  - unfold bins, all_bins. rw big_sepS_list_to_set; [|apply NoDup_seqZ]. change (heap_chunks false []) with (@nil (Z * Z)).
    pose proof (zero_bins 0 64) as Hz. rw Z.mul_0_r Z.add_0_r in Hz. change (3 * 64)%nat with 192%nat in Hz. change (Z.of_nat 64) with 64 in Hz.
    rw -Hz. iExact "Ha".
Qed.

(** Before the first call there are no live blocks. *)
Theorem allocator_starts s m : started s -> array (mal + 8) (replicate 192 0) m -> allocator s ∅ m.
Proof.
  intros Hs. apply entails_holds. iIntros "Ha". unfold allocator. rw big_sepM_empty. iSplit; [|done].
  iApply (pool_heap mal s [] [] [] with "[Ha]"); [done|by iApply heap_started|done].
Qed.

(** An area from [mmap] as the only block. *)
Lemma allocator_area s m base n vs : started s -> 0 < base -> base mod PAGE_SIZE = 0 -> 8 * Z.of_nat (length vs) = n - 32 -> n mod PAGE_SIZE = 0 ->
  48 <= n -> base + n <= 2 ^ 47 ->
  (array (mal + 8) (replicate 192 0) ∗ array base (0 :: 0 :: 16 :: (n - 16) :: vs))%I m -> allocator s {[base + 32 := vs]} m.
Proof.
  intros Hs Hb Hbm Hvs Hn Hn48 Htop. apply entails_holds. iIntros "[Hbins Ha]".
  pose proof (area_split (base + 16) (n - 16) 16 [0; 0] vs eq_refl) as Ha. replace (base + 16 - 16) with base in Ha by lia.
  replace (base + 16 + 16) with (base + 32) in Ha by lia. iDestruct (Ha with "Ha") as "(Hj & H1 & H2 & Ha)".
  unfold allocator. rw big_sepM_singleton. iFrame "Ha".
  iApply (pool_heap mal s _ [] [(base + 16, n - 16)] with "[Hbins]"); [|by iApply heap_started|].
  - unfold entries. rw map_to_list_singleton. cbn [fmap list_fmap]. unfold entry. cbn [fst snd app]. rw Hvs.
    replace (base + 32 - 16) with (base + 16) by lia. by replace (16 + (n - 32)) with (n - 16) by lia.
  - rw big_sepL_singleton. iExists 16. cbn [fst snd]. replace (base + 16 - 16) with base by lia. iDestruct (array_junk with "Hj") as "Hj".
    change (8 * Z.of_nat (length [0; 0])) with 16. iFrame. iPureIntro. unfold mapped_ok, PAGE_SIZE in *. cbn [fst snd]. repeat split; (lia || divmod).
Qed.

(** * The functions *)
Context (Hmal : 0 < mal) (fuel : nat) (Hfuel : (2 <= fuel)%nat) (auxv sp : Z).

(** What each function may answer, from the state [s] and the blocks [A] to [s'] and
    [A']; [r] is the result. *)
Definition allocates s A (n slack : Z) (P : Z -> list Z -> Prop) (r : Z) s' A' : Prop :=
  (r = 0 /\ unserved s s' n slack /\ A' = A) \/
  exists vs, fresh A r vs /\ n <= 8 * Z.of_nat (length vs) /\ P r vs /\ A' = <[r := vs]> A.

Definition reallocates s A (p n : Z) vs (r : Z) s' A' : Prop :=
  (exists ws, r = 0 /\ unserved s s' n 64 /\ fresh (delete p A) p (vs ++ ws) /\ A' = <[p := vs ++ ws]> A) \/
  exists ws, fresh (delete p A) r ws /\ n <= 8 * Z.of_nat (length ws) /\ same_prefix n vs ws /\ A' = <[r := ws]> (delete p A).

(** A result of a program over the allocator. *)
Lemma wp_runs_allocator {B} (e : prog (statics K) B) s A m (Q : B -> statics K -> gmap Z (list Z) -> Prop) :
  (allocator s A ⊢ wp e s (fun r s' => ∃ A', ⌜Q r s' A'⌝ ∗ allocator s' A')%I) -> allocator s A m ->
  runs e s m (fun r s' m' => exists A', Q r s' A' /\ allocator s' A' m').
Proof.
  intros He Hm. eapply wp_runs; [exact He|done|]. intros r s' m' [A' HA]. exists A'. by apply pure_sep_holds.
Qed.

Lemma wp_malloc_allocates n s A : 0 <= n < 2 ^ 64 ->
  allocator s A ⊢ wp (malloc mal auxv sp fuel n) s (fun r s' => ∃ A', ⌜allocates s A n 0 (fun _ _ => True) r s' A'⌝ ∗ allocator s' A')%I.
Proof.
  iIntros (Hn) "[Hp HA]". iApply (wp_malloc_pool with "Hp"); [done..|]. iSplit.
  - iIntros (s' Hun) "Hp". iExists A. iFrame. iPureIntro. by left.
  - iIntros (s' c k Hk) "Hp (%vs & %Hvs & Ha)". iDestruct (allocator_put with "Hp Ha HA") as "[%Hf Ha]"; [lia|].
    iExists _. iFrame "Ha". iPureIntro. right. exists vs. split; [done|]. split; [lia|done].
Qed.

Lemma wp_free_releases p s A : p = 0 \/ is_Some (A !! p) ->
  allocator s A ⊢ wp (free mal fuel p) s (fun _ s' => allocator s' (delete p A))%I.
Proof.
  iIntros ([->|[vs Hvs]]) "Ha".
  - unfold free. cbn [Z.eqb]. iApply wp_ret. destruct (A !! 0) as [vs|] eqn:E; [|by rw delete_id].
    iDestruct (block_live _ _ _ _ E with "Ha") as %(Hl & _). unfold entry in Hl. cbn in Hl. lia.
  - iDestruct (allocator_take _ _ _ _ Hvs with "Ha") as "(Hp & Hv & HA)".
    replace (free mal fuel p) with (free (K := K) mal fuel (p - 16 + 16)) by (f_equal; lia).
    iApply (wp_free_pool with "Hp [Hv]"); [done..| |].
    + iDestruct (array_junk with "Hv") as "Hv". replace (p - 16 + 16) with p by lia. iApply (junk_resize with "Hv"). lia.
    + iIntros (s') "Hp". unfold allocator. iFrame.
Qed.

Lemma wp_calloc_zeroes m n s A : 0 <= m < 2 ^ 64 -> 0 <= n < 2 ^ 64 ->
  allocator s A ⊢ wp (calloc mal auxv sp fuel m n) s (fun r s' => ∃ A', ⌜allocates s A (m * n) 0 (fun _ => zero_prefix (m * n)) r s' A'⌝ ∗ allocator s' A')%I.
Proof.
  iIntros (Hm Hn) "[Hp HA]". iApply (wp_calloc with "Hp"); [done..|]. iSplit.
  - iIntros (s' Hun) "Hp". iExists A. iFrame. iPureIntro. by left.
  - iIntros (s' c k vs (Hk & Hvs & Hz)) "Hp Ha". iDestruct (allocator_put with "Hp Ha HA") as "[%Hf Ha]"; [done|].
    iExists _. iFrame "Ha". iPureIntro. right. exists vs. split; [done|]. split; [lia|done].
Qed.

Lemma wp_memalign_aligns k len s A : 3 <= k < 64 -> 0 <= len < 2 ^ 64 ->
  allocator s A ⊢ wp (posix_memalign mal auxv sp fuel (2 ^ k) len) s (fun r s' => ∃ A',
    ⌜exists p, allocates s A len (2 ^ k) (fun p _ => p mod 2 ^ k = 0) p s' A' /\ r = if p =? 0 then (errno s', None) else (0, Some p)⌝ ∗ allocator s' A')%I.
Proof.
  iIntros (Hk Hlen) "[Hp HA]". unfold posix_memalign. assert (2 ^ 3 <= 2 ^ k) by (apply Z.pow_le_mono_r; lia).
  rw (proj2 (Z.ltb_ge (2 ^ k) 8)); [|lia]. iApply wp_seq. iApply (wp___memalign with "Hp"); [done..|lia|done|]. iSplit.
  - iIntros (s' Hun) "Hp". cbn [Z.eqb]. rd. iApply wp_ret. iExists A. iFrame. iPureIntro. exists 0. split; [by left|done].
  - iIntros (s' c j (Hj & Hmod)) "Hp (%vs & %Hvs & Ha)".
    iDestruct (allocator_put with "Hp Ha HA") as "[%Hf Ha]"; [lia|]. pose proof Hf as (_ & Hpos & _). rw (proj2 (Z.eqb_neq (c + 16) 0)); [|lia].
    iApply wp_ret. iExists _. iFrame "Ha". iPureIntro. exists (c + 16). rw (proj2 (Z.eqb_neq (c + 16) 0)); [|lia].
    split; [|done]. right. exists vs. split; [done|]. split; [lia|done].
Qed.

(** [realloc] of a live block; [Q] is what the caller knows if the block is an area. *)
Lemma wp_realloc_resizes (Q : Prop) p n s A vs : 0 <= n < 2 ^ 64 -> A !! p = Some vs ->
  (Q -> 8 * Z.of_nat (length vs) <= n \/ mremap_shrinks) ->
  (∃ U M, ⌜entries (delete p A) ≡ₚ U ++ M⌝ ∗ ([∗ list] x ∈ M, mapped x) ∗ (heap mal s (entry (p, vs) :: U) ∨ ⌜Q⌝ ∗ heap mal s U ∗ mapped (entry (p, vs)))) ∗
    array p vs ∗ ([∗ map] q ↦ ws ∈ delete p A, array q ws) ⊢
  wp (realloc mal auxv sp fuel p n) s (fun r s' => ∃ A', ⌜reallocates s A p n vs r s' A'⌝ ∗ allocator s' A')%I.
Proof.
  intros Hn Hp HQ. iIntros "(Hpool & Hv & HA)". unfold entry. cbn [fst snd].
  replace (realloc mal auxv sp fuel p n) with (realloc (K := K) mal auxv sp fuel (p - 16 + 16) n) by (f_equal; lia).
  iApply (wp_realloc_pool mal Hmal fuel Hfuel auxv sp Q _ _ vs with "Hpool [Hv]"); [done|lia| |by replace (p - 16 + 16) with p by lia|].
  { intros Hq. destruct (HQ Hq); [left; lia|by right]. }
  iSplit.
  - iIntros (s' n1 [Hn1 Hun]) "Hpool Hv (%ws & %Hws & Hj)".
    iAssert (array (p - 16 + 16) (vs ++ ws)) with "[Hv Hj]" as "Hv".
    { rw array_app. replace (p - 16 + 16 + 8 * Z.of_nat (length vs)) with (p - 16 + (16 + 8 * Z.of_nat (length vs))) by lia. iFrame. }
    iDestruct (allocator_put with "Hpool Hv HA") as "[%Hf Ha]"; [rw length_app; lia|]. replace (p - 16 + 16) with p in * by lia. rw insert_delete_eq.
    iExists _. iFrame "Ha". iPureIntro. left. by exists ws.
  - iIntros (s' c k ws (Hk & Hws & Hpre)) "Hpool Hv". iDestruct (allocator_put with "Hpool Hv HA") as "[%Hf Ha]"; [done|].
    iExists _. iFrame "Ha". iPureIntro. right. exists ws. split; [done|]. split; [lia|done].
Qed.

(** The header of a chunk of the heap has the flag [C_INUSE], that of an area has not. *)
Definition heap_chunk (m : words) (p : Z) : Prop := exists h, m !! (p - 8) = Some h /\ nz (Z.land h C_INUSE) = true.

Lemma block_focus s A m p vs : A !! p = Some vs -> allocator s A m ->
  ((∃ U M, ⌜entries (delete p A) ≡ₚ U ++ M⌝ ∗ ([∗ list] x ∈ M, mapped x) ∗
    (heap mal s (entry (p, vs) :: U) ∨ ⌜~ heap_chunk m p⌝ ∗ heap mal s U ∗ mapped (entry (p, vs)))) ∗
    array p vs ∗ ([∗ map] q ↦ ws ∈ delete p A, array q ws))%I m.
Proof.
  intros Hp Hm. assert (Hf : ((∃ U M, ⌜entries (delete p A) ≡ₚ U ++ M⌝ ∗ ([∗ list] x ∈ M, mapped x) ∗
    (heap mal s (entry (p, vs) :: U) ∨ heap mal s U ∗ mapped (entry (p, vs)))) ∗ array p vs ∗ ([∗ map] q ↦ ws ∈ delete p A, array q ws))%I m).
  { revert Hm. apply entails_holds. rw (allocator_take _ _ _ _ Hp). iIntros "(Hpool & $ & $)".
    iDestruct (pool_focus with "Hpool") as (U M HL) "[HM Hx]". iExists U, M. by iFrame. }
  destruct Hf as (m1 & m2 & Hs & Hd & Hf & HR). exists m1, m2. split; [done|]. split; [done|]. split; [|done].
  destruct Hf as (U & M & m3 & m4 & Hs' & Hd' & HU & m5 & m6 & Hs2 & Hd2 & HM & Hx). exists U, M, m3, m4. split; [done|]. split; [done|]. split; [done|].
  exists m5, m6. split; [done|]. split; [done|]. split; [done|]. destruct Hx as [Hx|Hx]; [by left|right].
  assert (Hw : (∃ n, ⌜n mod 2 = 0⌝ ∗ (p - 16 + 8) ↦ n)%I m6).
  { revert Hx. apply entails_holds. unfold entry. iIntros "(_ & %e & %Hok & _ & Hn & _)". cbn [fst snd] in *. iExists _. iFrame. iPureIntro.
    pose proof (mapped_facts _ _ _ Hok). divmod. }
  destruct Hw as [n Hw]. apply pure_sep_holds in Hw as [Heven [Hw _]].
  assert (Hno : ~ heap_chunk m p).
  { intros (h & Hh & Hflag). assert (Hmh : m !! (p - 16 + 8) = Some n).
    { eapply lookup_weaken; [exact Hw|]. transitivity m4; [transitivity (m5 ∪ m6); [by apply map_union_subseteq_r|done]|].
      transitivity m1; [transitivity (m3 ∪ m4); [by apply map_union_subseteq_r|done]|].
      transitivity (m1 ∪ m2); [by apply map_union_subseteq_l|done]. }
    replace (p - 16 + 8) with (p - 8) in Hmh by lia. rw Hh in Hmh. injection Hmh as ->. by rw even_flag in Hflag. }
  revert Hx. apply entails_holds. iIntros "$". by iPureIntro.
Qed.

(** C1. [malloc] gives a new block of at least the size asked for, aligned to 32, that
    overlaps no live block; it gives 0, with [errno], only for a request near [2 ^ 63]
    or when the last thing the system was asked for in this call is a mapping for the
    request, or for the growth of the heap, and it was refused; nothing else changes. *)
Theorem malloc_allocates n s A m : 0 <= n < 2 ^ 64 -> allocator s A m ->
  runs (malloc mal auxv sp fuel n) s m (fun p s' m' => exists A',
    ((p = 0 /\ unserved s s' n 0 /\ A' = A) \/
     exists vs, fresh A p vs /\ n <= 8 * Z.of_nat (length vs) /\ A' = <[p := vs]> A) /\ allocator s' A' m').
Proof.
  intros Hn Hm. apply (runs_weaken _ _ _ _ _ (wp_runs_allocator _ _ _ _ _ (wp_malloc_allocates n s A Hn) Hm)).
  intros p s' m' (A' & HA & Ha). exists A'. split; [|done]. destruct HA as [HA|(vs & Hf & Hl & _ & E)]; [by left|right; by exists vs].
Qed.

(** C2. [free] makes a live block, or 0, no longer live, and changes no other. *)
Theorem free_releases p s A m : p = 0 \/ is_Some (A !! p) -> allocator s A m ->
  runs (free mal fuel p) s m (fun _ s' m' => allocator s' (delete p A) m').
Proof. intros Hp Hm. apply (wp_runs _ _ (allocator s A) (fun _ s' => allocator s' (delete p A))); [by apply wp_free_releases|done|done]. Qed.

(** C5. [calloc] gives a new block whose first [m * n] bytes are 0, where [m * n] is the
    product and not what is left of it in 64 bits; it fails as [malloc] of that size
    does, and so if the product does not fit. *)
Theorem calloc_zeroes m n s A M : 0 <= m < 2 ^ 64 -> 0 <= n < 2 ^ 64 -> allocator s A M ->
  runs (calloc mal auxv sp fuel m n) s M (fun p s' m' => exists A',
    ((p = 0 /\ unserved s s' (m * n) 0 /\ A' = A) \/
     exists vs, fresh A p vs /\ m * n <= 8 * Z.of_nat (length vs) /\ zero_prefix (m * n) vs /\ A' = <[p := vs]> A) /\ allocator s' A' m').
Proof. intros Hm Hn. by apply wp_runs_allocator, wp_calloc_zeroes. Qed.

(** C6. [posix_memalign] for a power of two from 8 on gives 0 and, in [*res], a new block at
    a multiple of it; or an error number, and no block, if the request, with the room
    to align it, is near [2 ^ 63] or the system refused it in this call. *)
Theorem posix_memalign_aligns k len s A m : 3 <= k < 64 -> 0 <= len < 2 ^ 64 -> allocator s A m ->
  runs (posix_memalign mal auxv sp fuel (2 ^ k) len) s m (fun r s' m' => exists A',
    ((exists e, r = (e, None) /\ 0 < e < 4096 /\ unserved s s' len (2 ^ k) /\ A' = A) \/
     exists p vs, r = (0, Some p) /\ p mod 2 ^ k = 0 /\ fresh A p vs /\ len <= 8 * Z.of_nat (length vs) /\ A' = <[p := vs]> A) /\ allocator s' A' m').
Proof.
  intros Hk Hlen Hm. apply (runs_weaken _ _ _ _ _ (wp_runs_allocator _ _ _ _ _ (wp_memalign_aligns k len s A Hk Hlen) Hm)).
  intros r s' m' (A' & (p & Hp & ->) & HA). exists A'. split; [|done]. destruct Hp as [(-> & Hun & ->)|(vs & Hf & Hl & Hmod & ->)].
  - left. exists (errno s'). split; [done|]. split; [by destruct Hun|done].
  - right. exists p, vs. rw (proj2 (Z.eqb_neq p 0)); [done|]. destruct Hf as (_ & Hpos & _). lia.
Qed.

(** C3. [realloc] of a live block gives a block of at least the new size in its place, at
    the same address or another, with the words of the old one up to the new size; or
    0, as [malloc] does, and the old block is still live with its words (it may have
    become longer).  This for a chunk of the heap in any case, and for an area of its
    own if it does not become smaller, or if the system does not fail to shrink a
    mapping: where it does fail, [realloc] writes beyond its new block
    ([realloc_overflows]). *)
Theorem realloc_resizes p n s A vs m : 0 <= n < 2 ^ 64 -> A !! p = Some vs -> allocator s A m ->
  heap_chunk m p \/ 8 * Z.of_nat (length vs) <= n \/ mremap_shrinks ->
  runs (realloc mal auxv sp fuel p n) s m (fun q s' m' => exists A',
    ((exists ws, q = 0 /\ unserved s s' n 64 /\ fresh (delete p A) p (vs ++ ws) /\ A' = <[p := vs ++ ws]> A) \/
     exists ws, fresh (delete p A) q ws /\ n <= 8 * Z.of_nat (length ws) /\ same_prefix n vs ws /\ A' = <[q := ws]> (delete p A)) /\ allocator s' A' m').
Proof.
  intros Hn Hp Hm Hcase. eapply wp_runs; [apply (wp_realloc_resizes (~ heap_chunk m p) p n s A vs Hn Hp)|by apply block_focus|].
  - intros Hno. destruct Hcase as [?|[?|?]]; [done|by left|by right].
  - intros q s' m' [A' HA]. exists A'. by apply pure_sep_holds.
Qed.

(** [malloc_usable_size] is the size of the block, and changes nothing. *)
Theorem usable_size_exact p s A vs m : A !! p = Some vs -> allocator s A m ->
  runs (malloc_usable_size p) s m (fun r s' m' => r = 8 * Z.of_nat (length vs) /\ allocator s' A m').
Proof.
  clear Hmal Hfuel. intros Hp Hm. apply (wp_runs _ _ (allocator s A) (fun (r : Z) s' => ⌜(r = 8 * Z.of_nat (length vs))%Z⌝ ∗ allocator s' A)%I); [|done|].
  2: { intros r s' m' Hr. by apply pure_sep_holds. }
  iIntros "Ha". iDestruct (allocator_take _ _ _ _ Hp with "Ha") as "(Hpool & Hv & HA)".
  replace (malloc_usable_size p) with (malloc_usable_size (K := K) (p - 16 + 16)) by (f_equal; lia).
  iApply (wp_usable_size with "Hpool"). iIntros "Hpool". iSplit; [iPureIntro; lia|].
  iDestruct (allocator_put with "Hpool [Hv] HA") as "[_ Ha]"; [|by replace (p - 16 + 16) with p by lia|].
  - lia.
  - replace (p - 16 + 16) with p by lia. by rw insert_delete_id.
Qed.
(** * Programs *)

(** What a program asks of the allocator, and of its blocks: word [i] of the block [p]. *)
Inductive call :=
  | Malloc (n : Z) | Calloc (m n : Z) | Realloc (p n : Z) | Memalign (k len : Z) | Free (p : Z)
  | Load (p : Z) (i : nat) | Store (p : Z) (i : nat) (v : Z).

Definition perform (c : call) : prog (statics K) Z :=
  match c with
  | Malloc n => malloc mal auxv sp fuel n
  | Calloc m n => calloc mal auxv sp fuel m n
  | Realloc p n => realloc mal auxv sp fuel p n
  | Memalign k len => let! r := posix_memalign mal auxv sp fuel (2 ^ k) len in ret (default 0 r.2)
  | Free p => free mal fuel p;; ret 0
  | Load p i => load (p + 8 * Z.of_nat i)
  | Store p i v => store (p + 8 * Z.of_nat i) v;; ret 0
  end.



(** A program chooses its next call by the answers to those before. *)
Inductive program := Stop | Then (c : call) (k : Z -> program).

Fixpoint execute (e : program) : prog (statics K) (list (call * Z)) :=
  match e with
  | Stop => ret []
  | Then c k => let! r := perform c in let! t := execute (k r) in ret ((c, r) :: t)
  end.






End spec.

(** * Examples *)

(** Memory that holds a list of words. *)
Fixpoint memory_of (a : Z) (vs : list Z) : words :=
  match vs with [] => ∅ | v :: vs => <[a := v]> (memory_of (a + 8) vs) end.

Lemma memory_of_dom a vs w : is_Some (memory_of a vs !! w) -> a <= w < a + 8 * Z.of_nat (length vs).
Proof.
  revert a. induction vs as [|v vs IH]; intros a; cbn [memory_of length].
  - rw lookup_empty. by intros [? ?].
  - destruct (Z.eq_dec w a) as [->|Hne]; [lia|]. rw lookup_insert_ne; [|done]. intros Hs. specialize (IH _ Hs). lia.
Qed.

Lemma memory_of_array a vs : a mod 8 = 0 -> array a vs (memory_of a vs).
Proof.
  revert a. induction vs as [|v vs IH]; intros a Ha; cbn [memory_of].
  - apply array_nil. done.
  - apply array_cons. exists {[a := v]}, (memory_of (a + 8) vs). assert (Hn : memory_of (a + 8) vs !! a = None).
    { apply eq_None_not_Some. intros Hs. apply memory_of_dom in Hs. lia. }
    split; [by rw insert_union_singleton_l|]. split; [by apply map_disjoint_singleton_l|]. split; [by split; [rw lookup_singleton_eq|]|].
    apply IH. divmod.
Qed.

(** The start of a program whose [mal] is at [2 ^ 20], and one area at 4096. *)
Definition start : statics kstate := Statics 0 0 0 0 0 (2 ^ 30, []).
Definition bins_memory : words := memory_of (2 ^ 20 + 8) (replicate 192 0).
Definition block_words : list Z := replicate 508 7.
Definition area_memory : words := bins_memory ∪ memory_of 4096 (0 :: 0 :: 16 :: 4080 :: block_words).

Lemma start_started : started start.
Proof. by split. Qed.

Lemma bins_array : array (2 ^ 20 + 8) (replicate 192 0) bins_memory.
Proof. by apply memory_of_array. Qed.

Lemma start_allocator : allocator (2 ^ 20) start ∅ bins_memory.
Proof. apply allocator_starts; [apply start_started|apply bins_array]. Qed.

(** An area of [n] bytes at 4096, under any kernel of [MallocKernel]. *)
Lemma area_at_start shrinks n vs : 8 * Z.of_nat (length vs) = n - 32 -> n mod PAGE_SIZE = 0 -> 48 <= n <= 2 ^ 19 ->
  allocator (K := kstate) (H := small_pages shrinks) (H0 := small_laws shrinks) (2 ^ 20) start {[4128 := vs]}
    (bins_memory ∪ memory_of 4096 (0 :: 0 :: 16 :: (n - 16) :: vs)).
Proof.
  intros Hvs Hn Hr. apply (allocator_area (H := small_pages shrinks) (H0 := small_laws shrinks) (2 ^ 20) start _ 4096 n vs); [apply start_started|done|done|done|done|lia|lia|].
  exists bins_memory, (memory_of 4096 (0 :: 0 :: 16 :: (n - 16) :: vs)). split; [done|]. split; [|split; [apply bins_array|by apply memory_of_array]].
  apply map_disjoint_spec. intros w v1 v2 H1 H2. assert (Hd1 := memory_of_dom _ _ w (mk_is_Some _ _ H1)). assert (Hd2 := memory_of_dom _ _ w (mk_is_Some _ _ H2)).
  cbn [length] in Hd2. rw length_replicate in Hd1. lia.
Qed.

Lemma area_allocator : allocator (2 ^ 20) start {[4128 := block_words]} area_memory.
Proof. apply (area_at_start true 4096 block_words); [unfold block_words; by rw length_replicate|done|lia]. Qed.

Lemma small_kernel_shrinks : mremap_shrinks (K := kstate).
Proof.
  intros base old new k m H1 _ H2 H3. cbn. rw (proj2 (Z.ltb_lt 0 base)); [|done]. rw (proj2 (Z.leb_le (base + old) (2 ^ 47))); [|done].
  rw (proj2 (Z.leb_le new old)); [|lia]. cbn. lia.
Qed.

Lemma malloc_allocates_witness : runs (malloc (2 ^ 20) 0 0 2 100) start bins_memory (fun p s' m' => exists A',
    ((p = 0 /\ unserved start s' 100 0 /\ A' = ∅) \/
     exists vs, fresh ∅ p vs /\ 100 <= 8 * Z.of_nat (length vs) /\ A' = <[p := vs]> ∅) /\ allocator (2 ^ 20) s' A' m').
Proof. apply (malloc_allocates (2 ^ 20) ltac:(lia) 2 ltac:(lia) 0 0 100 start ∅ bins_memory); [lia|apply start_allocator]. Defined.

Lemma free_releases_witness : runs (free (2 ^ 20) 2 4128) start area_memory (fun _ s' m' => allocator (2 ^ 20) s' (delete 4128 {[4128 := block_words]}) m').
Proof.
  apply (free_releases (2 ^ 20) ltac:(lia) 2 ltac:(lia) 4128 start {[4128 := block_words]} area_memory).
  - right. exists block_words. apply lookup_singleton_eq.
  - apply area_allocator.
Defined.

Lemma calloc_zeroes_witness : runs (calloc (2 ^ 20) 0 0 2 10 12) start bins_memory (fun p s' m' => exists A',
    ((p = 0 /\ unserved start s' (10 * 12) 0 /\ A' = ∅) \/
     exists vs, fresh ∅ p vs /\ 10 * 12 <= 8 * Z.of_nat (length vs) /\ zero_prefix (10 * 12) vs /\ A' = <[p := vs]> ∅) /\ allocator (2 ^ 20) s' A' m').
Proof. apply (calloc_zeroes (2 ^ 20) ltac:(lia) 2 ltac:(lia) 0 0 10 12 start ∅ bins_memory); [lia|lia|apply start_allocator]. Defined.

Lemma posix_memalign_aligns_witness : runs (posix_memalign (2 ^ 20) 0 0 2 (2 ^ 6) 100) start bins_memory (fun r s' m' => exists A',
    ((exists e, r = (e, None) /\ 0 < e < 4096 /\ unserved start s' 100 (2 ^ 6) /\ A' = ∅) \/
     exists p vs, r = (0, Some p) /\ p mod 2 ^ 6 = 0 /\ fresh ∅ p vs /\ 100 <= 8 * Z.of_nat (length vs) /\ A' = <[p := vs]> ∅) /\
    allocator (2 ^ 20) s' A' m').
Proof. apply (posix_memalign_aligns (2 ^ 20) ltac:(lia) 2 ltac:(lia) 0 0 6 100 start ∅ bins_memory); [lia|lia|apply start_allocator]. Defined.

Lemma usable_size_exact_witness : runs (malloc_usable_size 4128) start area_memory (fun r s' m' => r = 8 * Z.of_nat (length block_words) /\ allocator (2 ^ 20) s' {[4128 := block_words]} m').
Proof. apply (usable_size_exact (2 ^ 20) 4128 start {[4128 := block_words]} block_words area_memory); [apply lookup_singleton_eq|apply area_allocator]. Defined.

Lemma realloc_resizes_witness : runs (realloc (2 ^ 20) 0 0 2 4128 5000) start area_memory (fun q s' m' => exists A',
    ((exists ws, q = 0 /\ unserved start s' 5000 64 /\ fresh (delete 4128 {[4128 := block_words]}) 4128 (block_words ++ ws) /\
        A' = <[4128 := block_words ++ ws]> {[4128 := block_words]}) \/
     exists ws, fresh (delete 4128 {[4128 := block_words]}) q ws /\ 5000 <= 8 * Z.of_nat (length ws) /\ same_prefix 5000 block_words ws /\
       A' = <[q := ws]> (delete 4128 {[4128 := block_words]})) /\ allocator (2 ^ 20) s' A' m').
Proof.
  apply (realloc_resizes (2 ^ 20) ltac:(lia) 2 ltac:(lia) 0 0 4128 5000 start {[4128 := block_words]} block_words area_memory);
    [lia|apply lookup_singleton_eq|apply area_allocator|].
  right. left. vm_compute. discriminate.
Defined.

(** A program: it asks for 100 bytes, stores in the block if it gets one, loads and frees. *)
Definition small_program : program :=
  Then (Malloc 100) (fun p => if p =? 0 then Stop else Then (Store p 12 42) (fun _ => Then (Load p 12) (fun _ => Then (Free p) (fun _ => Stop)))).



(** What the code does with it. *)
Example small_program_runs : (fun x => x.1.1) <$> execute (2 ^ 20) 2 0 0 small_program start bins_memory =
  Some [(Malloc 100, 2 ^ 30 + 32); (Store (2 ^ 30 + 32) 12 42, 0); (Load (2 ^ 30 + 32) 12, 42); (Free (2 ^ 30 + 32), 0)].
Proof. vm_compute. reflexivity. Qed.

(** [realloc] of an area to a smaller size: where the system fails to shrink the mapping,
    it asks for a new block of the new size and copies the old one to it, of which there
    is more than fits.  Here the copy of 12256 bytes into a block of 5008 runs into
    memory that does not exist. *)
Definition large_words : list Z := replicate 1532 7.
Definition large_memory : words := bins_memory ∪ memory_of 4096 (0 :: 0 :: 16 :: 12272 :: large_words).

Theorem realloc_overflows :
  allocator (K := kstate) (H := small_pages false) (H0 := small_laws false) (2 ^ 20) start {[4128 := large_words]} large_memory /\
  realloc (K := kstate) (H := small_pages false) (2 ^ 20) 0 0 2 4128 5000 start large_memory = None.
Proof.
  split; [|vm_compute; reflexivity]. apply (area_at_start false 12288 large_words); [unfold large_words; by rw length_replicate|done|lia].
Qed.
