(* ===== verification/Fnmatch.v ===== *)
(** * Patterns of file names ([regex/fnmatch.c])

    [fnmatch] over strings in memory: the head of the pattern, its tail after the last
    [*], and the components between stars, each searched for after the one before.
    The upper and lower case of a wide character and its classes ([iswctype]) are
    parameters; a result [None] is a read outside the strings, or a loop that does not
    end. *)
From S2P Require Import Prelude Mem StrScan Utf8.

Definition END : Z := 0.
Definition UNMATCHABLE : Z := -2.
Definition BRACKET : Z := -3.
Definition QUESTION : Z := -4.
Definition STAR : Z := -5.

Definition FNM_PATHNAME : Z := 0x1.
Definition FNM_NOESCAPE : Z := 0x2.
Definition FNM_PERIOD : Z := 0x4.
Definition FNM_LEADING_DIR : Z := 0x8.
Definition FNM_CASEFOLD : Z := 0x10.
Definition FNM_NOMATCH : Z := 1.

Section fnmatch.
(** [MB_CUR_MAX > 1], the case of a wide character, and [iswctype(k, wctype(name))]. *)
Context (utf8 : bool) (towupper towlower : Z -> Z) (class : list Z -> Z -> bool).
Context (m : mem).

(** The next character of the string: its code, or 0 at the end, or -1; and its length. *)
Definition str_next (str n : Z) : option (Z * Z) :=
  if negb (nz n) then Some (0, 0)
  else
    b ← load8 m str;
    if 128 <=? b then
      '(k, wc) ← mbtowc utf8 m str n;
      if k <? 0 then Some (-1, 1) else Some (default 0 wc, k)
    else Some (b, 1).

(** [:], [.] or [=] *)
Definition opens_class (b : Z) : bool := (b =? 58) || (b =? 46) || (b =? 61).

(** The inner loop over a bracket: to the [']'] after [z]. *)
Definition skip_class (pat n z k : Z) : option Z :=
  iter (fuel_of m) (fun k =>
    if k <? n then
      b ← load8 m (pat + k);
      if nz b then
        a ← load8 m (pat + k - 1);
        if negb (a =? z) || negb (b =? 93) then Some (Next (k + 1)) else Some (Leave k)
      else Some (Leave k)
    else Some (Leave k)) k.

(** One turn over a bracket: past a character, or a class. *)
Definition scan_turn (pat n : Z) (k : Z) : option (turn Z Z) :=
  if k <? n then
    b ← load8 m (pat + k);
    if nz b && negb (b =? 93) then
      z ← (if (k + 1 <? n) && (b =? 91) then z ← load8 m (pat + k + 1); Some (if nz z && opens_class z then z else 0) else Some 0);
      if nz z then
        let k := k + 2 in
        k ← (if k <? n then b ← load8 m (pat + k); Some (if nz b then k + 1 else k) else Some k);
        k ← skip_class pat n z k;
        if k =? n then Some (Leave k)
        else
          b ← load8 m (pat + k);
          if nz b then Some (Next (k + 1)) else Some (Leave k)
      else Some (Next (k + 1))
    else Some (Leave k)
  else Some (Leave k).

(** The loop over a bracket: to its [']'], or to the end of the pattern. *)
Definition scan_bracket (pat n k : Z) : option Z :=
  iter (fuel_of m) (scan_turn pat n) k.

(** The byte at [k], if it is before [n]. *)
Definition byte_before (pat n k : Z) : option Z := if k <? n then load8 m (pat + k) else Some 0.

(** A character that stands for itself; [esc] is 1 after a backslash. *)
Definition literal_next (pat n esc : Z) : option (Z * Z) :=
  b ← load8 m pat;
  if 128 <=? b then
    '(k, wc) ← mbtowc utf8 m pat n;
    if k <? 0 then Some (UNMATCHABLE, 0) else Some (default 0 wc, k + esc)
  else Some (b, 1 + esc).

(** The next element of the pattern, and its length. *)
Definition pat_next (pat n flags : Z) : option (Z * Z) :=
  if negb (nz n) then Some (END, 0)
  else
    b ← load8 m pat;
    if negb (nz b) then Some (END, 0)
    else
      esc ← (if b =? 92 then b1 ← load8 m (pat + 1); Some (nz b1 && negb (nz (Z.land flags FNM_NOESCAPE))) else Some false);
      if (esc : bool) then literal_next (pat + 1) n 1
      else if b =? 91 then
        let k := 1 in
        c ← byte_before pat n k;
        let k := if (c =? 94) || (c =? 33) then k + 1 else k in
        c ← byte_before pat n k;
        let k := if c =? 93 then k + 1 else k in
        k ← scan_bracket pat n k;
        c ← byte_before pat n k;
        if nz c then Some (BRACKET, k + 1) else Some (91, 1)
      else if b =? 42 then Some (STAR, 1)
      else if b =? 63 then Some (QUESTION, 1)
      else literal_next pat n 0.

Definition casefold (k : Z) : Z :=
  let c := towupper k in if c =? k then towlower k else c.

(** The end of a class name in a bracket: the [']'] after [z]. *)
Definition class_end (p z : Z) : option Z :=
  iter (fuel_of m) (fun p =>
    a ← load8 m (p - 1); b ← load8 m p;
    if negb (a =? z) || negb (b =? 93) then Some (Next (p + 1)) else Some (Leave p)) p.

(** [(unsigned)k-wc <= wc2-wc] *)
Definition in_range (k wc wc2 : Z) : bool := u32 (k - wc) <=? u32 (wc2 - wc).

(** One item of a bracket: the character [k], or [kfold], is found in it, or not so far. *)
Definition item_turn (inv : bool) (k kfold : Z) (st : Z * Z) : option (turn (Z * Z) bool) :=
  let '(p, wc) := st in
  b ← load8 m p;
  if b =? 93 then Some (Leave inv)
  else
    b1 ← (if (b =? 45) || (b =? 91) then load8 m (p + 1) else Some 0);
    if (b =? 45) && negb (b1 =? 93) then
      '(l, wc2) ← mbtowc utf8 m (p + 1) 4;
      if l <? 0 then Some (Leave false)
      else
        let wc2 := default 0 wc2 in
        if (wc <=? wc2) && (in_range k wc wc2 || in_range kfold wc wc2) then Some (Leave (negb inv))
        else Some (Next (p + (l - 1) + 1, wc))
    else if (b =? 91) && opens_class b1 then
      let p0 := p + 2 in
      p ← class_end (p + 3) b1;
      let name := bytes_of m p0 (p - 1 - p0) in
      if (b1 =? 58) && (p - 1 - p0 <? 16) && (class name k || class name kfold) then Some (Leave (negb inv))
      else Some (Next (p + 1, wc))
    else
      '(l, wc) ← (if b <? 128 then Some (1, b) else '(l, wc) ← mbtowc utf8 m p 4; Some (l, default 0 wc));
      if l <? 0 then Some (Leave false)
      else if (wc =? k) || (wc =? kfold) then Some (Leave (negb inv))
      else Some (Next (p + (l - 1) + 1, wc)).

(** Whether the bracket at [p] has the character [k], or [kfold]. *)
Definition match_bracket (p k kfold : Z) : option bool :=
  let p := p + 1 in
  b ← load8 m p;
  let inv := (b =? 94) || (b =? 33) in
  let p := if inv then p + 1 else p in
  b ← load8 m p;
  if (b =? 93) && (k =? 93) then Some (negb inv)
  else if (b =? 45) && (k =? 45) then Some (negb inv)
  else
    let p := if (b =? 93) || (b =? 45) then p + 1 else p in
    wc ← load8 m (p - 1);
    iter (fuel_of m) (item_turn inv k kfold) (p, s8 wc).

Definition fold (flags k : Z) : Z := if nz (Z.land flags FNM_CASEFOLD) then casefold k else k.

(** The element [c] of the pattern, at [p], and the character [k]. *)
Definition matches (flags c p k : Z) : option bool :=
  let kfold := fold flags k in
  if c =? BRACKET then match_bracket p k kfold
  else Some (negb (negb (c =? QUESTION) && negb (k =? c) && negb (kfold =? c))).

(** One element of the head. *)
Definition head_turn (flags : Z) (st : Z * Z * Z * Z) : option (turn (Z * Z * Z * Z) (exit (Z * Z * Z * Z) Z)) :=
  let '(pat, pn, str, n) := st in
  '(c, pinc) ← pat_next pat pn flags;
  if c =? UNMATCHABLE then Some (Leave (Ret FNM_NOMATCH))
  else if c =? STAR then Some (Leave (Fell (pat + 1, u64 (pn - 1), str, n)))
  else
    '(k, sinc) ← str_next str n;
    if k <=? 0 then Some (Leave (Ret (if c =? END then 0 else FNM_NOMATCH)))
    else
      ok ← matches flags c pat k;
      if (ok : bool) then Some (Next (pat + pinc, u64 (pn - pinc), str + sinc, u64 (n - sinc)))
      else Some (Leave (Ret FNM_NOMATCH)).

(** The head of the pattern, up to a star. *)
Definition match_head (pat pn str n flags : Z) : option (exit (Z * Z * Z * Z) Z) :=
  iter (fuel_of m) (head_turn flags) (pat, pn, str, n).

(** One element of the pattern, counted. *)
Definition find_turn (endpat flags : Z) (st : Z * Z * Z) : option (turn (Z * Z * Z) (exit (Z * Z) Z)) :=
  let '(p, ptail, tailcnt) := st in
  if p <? endpat then
    '(c, pinc) ← pat_next p (endpat - p) flags;
    if c =? UNMATCHABLE then Some (Leave (Ret FNM_NOMATCH))
    else if c =? STAR then Some (Next (p + pinc, p + 1, 0))
    else Some (Next (p + pinc, ptail, tailcnt + 1))
  else Some (Leave (Fell (ptail, tailcnt))).

(** The last star, and the number of elements after it. *)
Definition find_tail (pat endpat flags : Z) : option (exit (Z * Z) Z) :=
  iter (fuel_of m) (find_turn endpat flags) (pat, pat, 0).

(** One character back: over the bytes that continue it. *)
Definition char_back (str s : Z) : option Z :=
  iter (fuel_of m) (fun s =>
    let s := s - 1 in
    b ← load8 m s;
    if (u32 (b - 0x80) <? 0x40) && (str <? s) then Some (Next s) else Some (Leave s)) s.

(** One of [tailcnt] characters back. *)
Definition back_turn (str : Z) (st : Z * Z) : option (turn (Z * Z) (Z * Z)) :=
  let '(s, tailcnt) := st in
  if (str <? s) && nz tailcnt then
    b ← load8 m (s - 1);
    s ← (if (b <? 128) || negb utf8 then Some (s - 1) else char_back str s);
    Some (Next (s, tailcnt - 1))
  else Some (Leave (s, tailcnt)).

(** [tailcnt] characters back from [endstr]: where that is, and how many are missing. *)
Definition tail_start (str endstr tailcnt : Z) : option (Z * Z) :=
  iter (fuel_of m) (back_turn str) (endstr, tailcnt).

(** One element of the tail. *)
Definition tail_turn (endpat endstr flags : Z) (st : Z * Z) : option (turn (Z * Z) bool) :=
  let '(p, s) := st in
  '(c, pinc) ← pat_next p (endpat - p) flags;
  '(k, sinc) ← str_next s (endstr - s);
  if k <=? 0 then Some (Leave (c =? END))
  else
    ok ← matches flags c p k;
    if (ok : bool) then Some (Next (p + pinc, s + sinc)) else Some (Leave false).

(** The tails of both. *)
Definition match_tail (p endpat s endstr flags : Z) : option bool :=
  iter (fuel_of m) (tail_turn endpat endstr flags) (p, s).

(** How a component ends: at its star, where both are then; at a character that does
    not match; or where the string ends. *)
Inductive component : Type := Committed (p s : Z) | Broken | Ended.

(** One element of a component. *)
Definition component_turn (endpat endstr flags : Z) (st : Z * Z) : option (turn (Z * Z) component) :=
  let '(p, s) := st in
  '(c, pinc) ← pat_next p (endpat - p) flags;
  if c =? STAR then Some (Leave (Committed (p + pinc) s))
  else
    '(k, sinc) ← str_next s (endstr - s);
    if k =? 0 then Some (Leave Ended)
    else
      ok ← matches flags c p k;
      if (ok : bool) then Some (Next (p + pinc, s + sinc)) else Some (Leave Broken).

Definition match_component (p endpat s endstr flags : Z) : option component :=
  iter (fuel_of m) (component_turn endpat endstr flags) (p, s).

(** Past one character, or past all invalid bytes. *)
Definition skip_char (str endstr : Z) : option Z :=
  '(k, sinc) ← str_next str (endstr - str);
  if 0 <? k then Some (str + sinc)
  else
    iter (fuel_of m) (fun str =>
      '(k, _) ← str_next str (endstr - str);
      if k <? 0 then Some (Next (str + 1)) else Some (Leave str)) (str + 1).

(** One component, at its first occurrence so far; or one character is given up. *)
Definition sea_turn (endpat endstr flags : Z) (st : Z * Z) : option (turn (Z * Z) bool) :=
  let '(pat, str) := st in
  if pat <? endpat then
    r ← match_component pat endpat str endstr flags;
    match r with
    | Committed p s => Some (Next (p, s))
    | Ended => Some (Leave false)
    | Broken => str ← skip_char str endstr; Some (Next (pat, str))
    end
  else Some (Leave true).

(** The components between the stars. *)
Definition match_sea (pat endpat str endstr flags : Z) : option bool :=
  iter (2 * fuel_of m) (sea_turn endpat endstr flags) (pat, str).

Definition of_bool (b : bool) : Z := if b then 0 else FNM_NOMATCH.

Definition fnmatch_internal (pat pn str n flags : Z) : option Z :=
  hidden ← (if nz (Z.land flags FNM_PERIOD) then
              s ← load8 m str;
              if s =? 46 then p ← load8 m pat; Some (negb (p =? 46)) else Some false
            else Some false);
  if (hidden : bool) then Some FNM_NOMATCH
  else
    h ← match_head pat pn str n flags;
    match h with
    | Ret r => Some r
    | Fell (pat, pn, str, n) =>
        pn ← strnlen m pat pn;
        let endpat := pat + pn in
        t ← find_tail pat endpat flags;
        match t with
        | Ret r => Some r
        | Fell (ptail, tailcnt) =>
            n ← strnlen m str n;
            let endstr := str + n in
            if n <? tailcnt then Some FNM_NOMATCH
            else
              '(stail, missing) ← tail_start str endstr tailcnt;
              if nz missing then Some FNM_NOMATCH
              else
                ok ← match_tail ptail endpat stail endstr flags;
                if (ok : bool) then r ← match_sea pat ptail str stail flags; Some (of_bool r)
                else Some FNM_NOMATCH
        end
    end.

(** To the next [/] or the end of the string. *)
Definition find_slash (s : Z) : option Z :=
  iter (fuel_of m) (fun s => b ← load8 m s; if nz b && negb (b =? 47) then Some (Next (s + 1)) else Some (Leave s)) s.

(** One element of the pattern, unless it is a [/] or the end. *)
Definition slash_turn (flags p : Z) : option (turn Z (Z * Z * Z)) :=
  '(c, inc) ← pat_next p (u64 (-1)) flags;
  if negb (c =? END) && negb (c =? 47) then Some (Next (p + inc)) else Some (Leave (p, c, inc)).

(** To the next [/] or the end of the pattern: where, what is there, and its length. *)
Definition find_pattern_slash (p flags : Z) : option (Z * Z * Z) := iter (fuel_of m) (slash_turn flags) p.

(** One component of both, each up to its next [/] or its end. *)
Definition path_turn (flags : Z) (st : Z * Z) : option (turn (Z * Z) Z) :=
  let '(pat, str) := st in
  s ← find_slash str;
  '(p, c, inc) ← find_pattern_slash pat flags;
  b ← load8 m s;
  if negb (c =? b) && (negb (nz b) || negb (nz (Z.land flags FNM_LEADING_DIR))) then Some (Leave FNM_NOMATCH)
  else
    r ← fnmatch_internal pat (p - pat) str (s - str) flags;
    if nz r then Some (Leave FNM_NOMATCH)
    else if negb (nz c) then Some (Leave 0)
    else Some (Next (p + inc, s + 1)).

(** One byte of the string; at a [/], the pattern is tried on what is before it. *)
Definition leading_turn (pat str flags s : Z) : option (turn Z bool) :=
  b ← load8 m s;
  if negb (nz b) then Some (Leave false)
  else if negb (b =? 47) then Some (Next (s + 1))
  else
    r ← fnmatch_internal pat (u64 (-1)) str (s - str) flags;
    if nz r then Some (Next (s + 1)) else Some (Leave true).

Definition fnmatch (pat str flags : Z) : option Z :=
  if nz (Z.land flags FNM_PATHNAME) then iter (fuel_of m) (path_turn flags) (pat, str)
  else
    found ← (if nz (Z.land flags FNM_LEADING_DIR) then iter (fuel_of m) (leading_turn pat str flags) str else Some false);
    if (found : bool) then Some 0
    else fnmatch_internal pat (u64 (-1)) str (u64 (-1)) flags.
End fnmatch.
