(* ===== verification/Patterns.v ===== *)
(** * Patterns of file names, written and matched

    A pattern as a list of elements, how it is written in memory, which strings it
    matches ([glob]); and that [pat_next], [str_next], [match_bracket] read the elements
    and characters written, in UTF-8 and in the byte locale. *)
From S2P Require Import Prelude Mem StrScan StrSpec Utf8 Fnmatch.

Abbreviation len l := (Z.of_nat (length l)).

(** The bytes [bs] are in the memory at [p]. *)
Fixpoint has (m : mem) (p : Z) (bs : list Z) : Prop :=
  match bs with [] => True | b :: bs => m !! p = Some b /\ has m (p + 1) bs end.

(** A null byte, and the rest of its aligned word: what [strnlen] may read. *)
Definition nul_at (m : mem) (q : Z) : Prop := m !! q = Some 0 /\ mapped m q (8 * (q / 8) + 8 - q).

(** The bytes are all that a string at [p] bounded by [n] has: it is [n] bytes long, with
    some byte after it, or a null byte comes first. *)
Definition holds (m : mem) (p n : Z) (bs : list Z) : Prop :=
  has m p bs /\ n < 2 ^ 64 /\ is_Some (m !! (p + len bs)) /\ (n = len bs \/ len bs < n /\ nul_at m (p + len bs)).

(** ** Patterns *)

Inductive item : Type := One (c : Z) | Range (a b : Z) | Class (name : list Z).

Inductive elt : Type := Lit (c : Z) | Esc (c : Z) | Any | Stars | Brackets (mark : option Z) (items : list item).

#[export] Instance item_eq_dec : EqDecision item.
Proof. solve_decision. Defined.
#[export] Instance elt_eq_dec : EqDecision elt.
Proof. solve_decision. Defined.

Section spec.
Context (utf8 : bool) (towupper towlower : Z -> Z) (class : list Z -> Z -> bool) (flags : Z).

(** The bytes of a character in the current locale. *)
Definition enc (k : Z) : list Z := if utf8 then utf8_encode k else [u8 k].
Definition char_ok (k : Z) : Prop := 0 < k /\ (if utf8 then scalar k else k < 128 \/ 0xdf80 <= k < 0xe000).
Definition spell (cs : list Z) : list Z := flat_map enc cs.

Definition show_item (i : item) : list Z :=
  match i with
  | One c => enc c
  | Range a b => enc a ++ [45; b]
  | Class name => [91; 58] ++ name ++ [58; 93]
  end.

(** The rest of a bracket, from some item on. *)
Definition show_items (l : list item) : list Z := flat_map show_item l ++ [93].

Definition show (t : elt) : list Z :=
  match t with
  | Lit c => enc c
  | Esc c => 92 :: enc c
  | Any => [63]
  | Stars => [42]
  | Brackets mark items => 91 :: option_list mark ++ show_items items
  end.

Definition print (ts : list elt) : list Z := flat_map show ts.

(** ** Which are well formed *)

(** What an item may not begin with: a ['-'] would make a range with what is before it,
    unless the bracket ends there, and a [']'] would end it. *)
Definition starts_ok (first : bool) (c : Z) (rest : list Z) : Prop :=
  first = true \/ c <> 93 /\ (c = 45 -> hd 0 rest = 93).

Definition item_ok (first : bool) (i : item) (rest : list Z) : Prop :=
  match i with
  | One c => char_ok c /\ starts_ok first c rest /\ (c = 91 -> opens_class (hd 0 rest) = false)
  | Range a b => char_ok a /\ (first = true \/ a <> 93 /\ a <> 45) /\ a <= b < 128 /\ b <> 45 /\ b <> 91 /\ b <> 93
  | Class name => len name < 16 /\ Forall (fun b => 0 < b < 256 /\ b <> 58) name
  end.

Fixpoint items_ok (first : bool) (l : list item) : Prop :=
  match l with [] => first = false | i :: l => item_ok first i (show_items l) /\ items_ok false l end.

Definition elt_ok (t : elt) : Prop :=
  match t with
  | Lit c => char_ok c /\ c <> 42 /\ c <> 63 /\ c <> 91 /\ (c = 92 -> nz (Z.land flags FNM_NOESCAPE) = true)
  | Esc c => char_ok c /\ nz (Z.land flags FNM_NOESCAPE) = false
  | Any | Stars => True
  | Brackets (Some x) l => (x = 33 \/ x = 94) /\ items_ok true l
  | Brackets None l => hd 0 (show_items l) <> 33 /\ hd 0 (show_items l) <> 94 /\ items_ok true l
  end.

(** ** What they match *)

(** The other case of a character: its upper case, or its lower case if it is upper case. *)
Definition other_case (k : Z) : Z :=
  if nz (Z.land flags FNM_CASEFOLD) then if decide (towupper k = k) then towlower k else towupper k else k.

Definition item_has (k kf : Z) (i : item) : bool :=
  match i with
  | One c => (c =? k) || (c =? kf)
  | Range a b => ((a <=? k) && (k <=? b)) || ((a <=? kf) && (kf <=? b))
  | Class name => class name k || class name kf
  end.

Definition elt_has (t : elt) (k : Z) : bool :=
  let kf := other_case k in
  match t with
  | Lit c | Esc c => (k =? c) || (kf =? c)
  | Any => true
  | Stars => false
  | Brackets mark l => xorb (existsb (item_has k kf) l) (match mark with Some _ => true | None => false end)
  end.

(** A star is any characters, every other element is one. *)
Fixpoint glob (ts : list elt) (cs : list Z) : bool :=
  match ts with
  | [] => match cs with [] => true | _ => false end
  | Stars :: ts =>
      (fix star cs := glob ts cs || match cs with [] => false | _ :: cs => star cs end) cs
  | t :: ts => match cs with [] => false | k :: cs => elt_has t k && glob ts cs end
  end.

(** A leading period is matched by a period of the pattern only. *)
Definition period (t : elt) : bool := match t with Lit c | Esc c => c =? 46 | _ => false end.

Definition hidden (ts : list elt) (cs : list Z) : bool :=
  nz (Z.land flags FNM_PERIOD) && (hd 0 cs =? 46) && match ts with t :: _ => negb (period t) | [] => true end.

(** With [FNM_PERIOD] the first element is no escaped period. *)
Definition plain_start (ts : list elt) : Prop :=
  nz (Z.land flags FNM_PERIOD) = true -> head ts <> Some (Esc 46).

(** The other case of a character is a character, and that of [']'] and ['-'] no other's. *)
Definition cases_ok : Prop := forall k, 0 < k < 0x110000 ->
  let cased x := 0 < x < 2 ^ 31 /\ (x = 93 \/ x = 45 -> x = k) in cased (towupper k) /\ cased (towlower k).
End spec.

(** ** Bytes in memory *)

Section bytes.
Context (m : mem).

Lemma has_app p xs ys : has m p (xs ++ ys) <-> has m p xs /\ has m (p + len xs) ys.
Proof.
  revert p. induction xs as [|x xs IH]; intros p; simpl; [rewrite Z.add_0_r; tauto|].
  rewrite IH. replace (p + 1 + len xs) with (p + Z.pos (Pos.of_succ_nat (length xs))) by lia. tauto.
Qed.

Lemma has_mapped p bs : has m p bs -> mapped m p (len bs).
Proof.
  revert p. induction bs as [|b bs IH]; intros p H a Ha; simpl in *; [lia|]. destruct H as [Hb H].
  destruct (decide (a = p)) as [->|]; [by rewrite Hb|]. apply (IH (p + 1)); [done|lia].
Qed.

Lemma has_bytes_of p bs : has m p bs -> bytes_of m p (len bs) = bs.
Proof.
  revert p. induction bs as [|b bs IH]; intros p H; [by apply bytes_of_nonpos|]. destruct H as [Hb H].
  rewrite bytes_of_cons by (simpl; lia). unfold rd. rewrite Hb. simpl default. f_equal.
  rewrite <- (IH (p + 1) H) at 2. f_equal. simpl length. lia.
Qed.

Lemma has_size p bs : has m p bs -> (length bs < fuel_of m)%nat.
Proof. intros H. apply has_mapped, mapped_size in H. unfold fuel_of. lia. Qed.

Lemma holds_app p n xs ys : holds m p n (xs ++ ys) -> holds m (p + len xs) (n - len xs) ys.
Proof.
  unfold holds. rewrite has_app, length_app, Nat2Z.inj_add, Z.add_assoc. intros ([? ?] & ? & ? & Hn).
  split; [done|]. split; [lia|]. split; [done|]. destruct Hn as [Hn|[Hn Hz]]; [left; lia|right; split; [lia|done]].
Qed.

Lemma holds_u64 p n xs ys : holds m p n (xs ++ ys) -> u64 (n - len xs) = n - len xs.
Proof. intros (_ & ? & _ & Hn). rewrite length_app in Hn. apply wrap_small. lia. Qed.

Lemma holds_le p n xs ys : holds m p n (xs ++ ys) -> len xs <= n.
Proof. intros (_ & _ & _ & Hn). rewrite length_app in Hn. lia. Qed.

Lemma holds_has p n bs : holds m p n bs -> has m p bs.
Proof. by intros []. Qed.

End bytes.

(** ** Characters *)

Section chars.
Context (utf8 : bool) (m : mem).
Hypothesis Hok : mem_ok m.

Abbreviation enc := (enc utf8).
Abbreviation char_ok := (char_ok utf8).

Lemma enc_cases k : char_ok k ->
  (k < 128 /\ enc k = [k]) \/
  (128 <= k /\ exists b bs, enc k = b :: bs /\ 128 <= b < 256 /\ Forall (fun b => 128 <= b < 192) bs /\
    (utf8 = true -> 192 <= b)).
Proof.
  unfold char_ok, enc. intros [Hk Hc]. destruct utf8.
  - destruct (encode_cases k Hc) as [[Hr E]|[[Hr E]|[(Hr & Hn & E)|[Hr E]]]]; rewrite E; [left; split; [lia|done]|right..];
      (split; [lia|]); eexists _, _; (split; [done|]); (split; [divmod|]); (split; [|intros; divmod]);
      repeat constructor; divmod.
  - destruct (Z.lt_ge_cases k 128); [left; rewrite wrap_small by lia; split; [lia|done]|right; split; [lia|]].
    exists (u8 k), []. split; [done|]. split; [|split; [constructor|done]]. unfold wrap. divmod.
Qed.

Lemma enc_pos k : 1 <= len (enc k).
Proof.
  unfold enc. destruct utf8; [|simpl; lia]. destruct (encode_nonempty k) as (b & bs & ->). simpl. lia.
Qed.

(** [n] only has to cover the character. *)
Lemma mbtowc_more_n s l n c : mbtowc utf8 m s l = Some (l, Some c) -> 0 < l <= n -> mbtowc utf8 m s n = Some (l, Some c).
Proof.
  intros H Hn. unfold mbtowc in *. destruct (s =? 0); [done|].
  assert (nz l = true /\ nz n = true) as [El En] by (rewrite !nz_true; lia). rewrite El in H. rewrite En. cbn [negb] in *.
  destruct (load8 m s) as [b|] eqn:Hb; [|done]. cbn [mbind option_bind] in *.
  destruct (b <? 128) eqn:Hlt; [done|]. destruct (negb utf8); [done|]. destruct (not_lead b) eqn:Hl; [done|].
  pose proof (Hok s b Hb) as Hbyte. apply Z.ltb_ge in Hlt. pose proof (lead_table b ltac:(lia)) as Ht.
  destruct (lead b) as [|p|] eqn:E; [congruence| |congruence].
  destruct Ht as (_ & x & Hx & Ep). rewrite Hx in *. cbn [mbind option_bind] in *. rewrite Ep in *.
  pose proof (short_test_ok b l p ltac:(lia) ltac:(lia) E) as [Tl _].
  pose proof (short_test_ok b n p ltac:(lia) ltac:(lia) E) as [Tn _]. rewrite Tl in H. rewrite Tn.
  destruct (l <? p_len p) eqn:Ll; [done|]. apply Z.ltb_ge in Ll. rewrite (proj2 (Z.ltb_ge _ _)) by lia. done.
Qed.

Lemma mbtowc_char s n k : char_ok k -> has m s (enc k) -> 0 < s -> len (enc k) <= n ->
  mbtowc utf8 m s n = Some (len (enc k), Some k).
Proof.
  intros Hk Hh Hs Hn. pose proof (enc_pos k). apply mbtowc_more_n; [|lia]. destruct Hk as [Hk Hc].
  pose proof (has_mapped m s _ Hh) as Hm. pose proof (has_bytes_of m s _ Hh) as Hb.
  unfold enc in *. destruct utf8.
  - rewrite mbtowc_ok by (done || lia). rewrite Hb.
    rewrite <- (app_nil_r (utf8_encode k)) at 1. rewrite decode_encode by done. simpl.
    rewrite (proj2 (Z.eqb_neq k 0)) by lia. done.
  - destruct Hh as [Hl _]. unfold mbtowc. rewrite (proj2 (Z.eqb_neq s 0)) by lia. simpl. unfold load8. rewrite Hl. simpl.
    destruct (Z.lt_ge_cases k 128) as [Hlt|Hge].
    + rewrite wrap_small by lia. rewrite (proj2 (Z.ltb_lt k 128)) by lia. unfold nz.
      by rewrite (proj2 (Z.eqb_neq k 0)) by lia.
    + destruct Hc as [Hc|Hc]; [lia|]. rewrite (proj2 (Z.ltb_ge _ _)) by (unfold wrap; divmod). do 3 f_equal.
      assert (E : forall b, 128 <= b < 256 -> CODEUNIT b = 0xdf00 + b).
      { clear. intros b Hb. apply Z.eqb_eq. revert b Hb. apply (byte_cases (fun b => CODEUNIT b =? 0xdf00 + b)). vm_compute. done. }
      rewrite E; clear -Hc; unfold wrap; divmod.
Qed.

(** The first byte of a character. *)
Lemma enc_head k bs p : char_ok k -> has m p (enc k ++ bs) -> exists b, m !! p = Some b /\ 0 < b < 256 /\ (k < 128 /\ b = k /\ enc k = [k] \/ 128 <= k /\ 128 <= b).
Proof.
  intros Hk Hh. pose proof Hk as [? _]. destruct (enc_cases k Hk) as [[Hlt E]|(Hge & b & bs' & E & Hb & _)]; rewrite E in Hh; destruct Hh as [Hm _].
  - exists k. split; [done|]. split; [lia|]. left. done.
  - exists b. split; [done|]. split; [lia|]. right. lia.
Qed.

Lemma str_next_nil s n : holds m s n [] -> exists l, str_next utf8 m s n = Some (0, l).
Proof.
  intros (_ & _ & _ & Hn). simpl in Hn. rewrite Z.add_0_r in Hn. unfold str_next, load8.
  destruct Hn as [->|[Hn [Hz _]]]; [by exists 0|]. rewrite (proj2 (nz_true n)) by lia. rewrite Hz. by exists 1.
Qed.

Lemma str_next_char s n k bs : char_ok k -> 0 < s -> holds m s n (enc k ++ bs) ->
  str_next utf8 m s n = Some (k, len (enc k)).
Proof.
  intros Hk Hs Hh. pose proof (enc_pos k). pose proof (holds_le _ _ _ _ _ Hh) as Hle. apply holds_has in Hh.
  unfold str_next, load8. rewrite (proj2 (nz_true n)) by lia. cbn [negb].
  destruct (enc_head k bs s Hk Hh) as (b & -> & Hb & [(Hlt & -> & E)|[Hge Hb8]]); cbn [mbind option_bind].
  - rewrite (proj2 (Z.leb_gt 128 k)) by lia. by rewrite E.
  - rewrite (proj2 (Z.leb_le 128 b)) by lia. apply has_app in Hh as [Hh _].
    rewrite (mbtowc_char _ _ k) by done. cbn [mbind option_bind]. rewrite (proj2 (Z.ltb_ge _ 0)) by lia. done.
Qed.

Lemma literal_next_char p n k bs esc : char_ok k -> 0 < p -> has m p (enc k ++ bs) -> len (enc k) <= n ->
  literal_next utf8 m p n esc = Some (k, len (enc k) + esc).
Proof.
  intros Hk Hs Hh Hle. pose proof (enc_pos k). unfold literal_next, load8.
  destruct (enc_head k bs p Hk Hh) as (b & -> & Hb & [(Hlt & -> & E)|[Hge Hb8]]); cbn [mbind option_bind].
  - rewrite (proj2 (Z.leb_gt 128 k)) by lia. by rewrite E.
  - rewrite (proj2 (Z.leb_le 128 b)) by lia. apply has_app in Hh as [Hh _].
    rewrite (mbtowc_char _ _ k) by done. cbn [mbind option_bind]. rewrite (proj2 (Z.ltb_ge _ 0)) by lia. done.
Qed.
End chars.

(** ** Over a bracket *)

Section brackets.
Context (utf8 : bool) (m : mem).
Hypothesis Hok : mem_ok m.

Abbreviation enc := (enc utf8).
Abbreviation char_ok := (char_ok utf8).
Abbreviation show_item := (show_item utf8).
Abbreviation show_items := (show_items utf8).

Lemma load8_at p q b bs : has m p (b :: bs) -> q = p -> load8 m q = Some b.
Proof. intros [H _] ->. exact H. Qed.

Lemma has_at p q bs : has m p bs -> q = p -> has m q bs.
Proof. by intros H ->. Qed.

(** To the end of a class name. *)
Lemma class_end_ok z name bs : forall fuel p, opens_class z = true -> Forall (fun b => 0 < b < 256 /\ b <> z) name ->
  has m (p - 1) (name ++ z :: 93 :: bs) -> (length name < fuel)%nat ->
  iter fuel (fun p =>
    a ← load8 m (p - 1); b ← load8 m p;
    if negb (a =? z) || negb (b =? 93) then Some (Next (p + 1)) else Some (Leave p)) p = Some (p + len name).
Proof.
  induction name as [|y name IH]; intros [|fuel] p Hz Hn Hh Hf; try (simpl in Hf; lia).
  - destruct Hh as (H1 & H2 & _). rewrite Z.sub_add in H2. apply iter_leave. unfold load8. rewrite H1, H2. simpl.
    rewrite Z.eqb_refl. simpl. do 2 f_equal. lia.
  - apply list.Forall_cons in Hn as [[Hy Hyz] Hn]. pose proof Hh as [H1 H2]. rewrite Z.sub_add in H2.
    assert (exists b, m !! p = Some b) as (b & Hb) by (destruct name as [|]; destruct H2; eauto).
    rewrite (iter_next _ _ _ (p + 1)).
    + rewrite IH; [f_equal; simpl length; lia|done|done|by rewrite Z.add_simpl_r|simpl in Hf; lia].
    + unfold load8. rewrite H1, Hb. simpl. by rewrite (proj2 (Z.eqb_neq y z)).
Qed.

Lemma skip_class_ok pat n z name bs : forall fuel k, opens_class z = true ->
  Forall (fun b => 0 < b < 256 /\ b <> z) name ->
  has m (pat + k - 1) (name ++ z :: 93 :: bs) -> k + len name < n -> (length name < fuel)%nat ->
  iter fuel (fun k =>
    if k <? n then
      b ← load8 m (pat + k);
      if nz b then
        a ← load8 m (pat + k - 1);
        if negb (a =? z) || negb (b =? 93) then Some (Next (k + 1)) else Some (Leave k)
      else Some (Leave k)
    else Some (Leave k)) k = Some (k + len name).
Proof.
  induction name as [|y name IH]; intros [|fuel] k Hz Hn Hh Hk Hf; try (simpl in Hf; lia).
  - destruct Hh as (H1 & H2 & _). rewrite Z.sub_add in H2. apply iter_leave. unfold load8.
    simpl in Hk. rewrite (proj2 (Z.ltb_lt k n)), H1, H2 by lia. simpl. rewrite Z.eqb_refl. simpl. do 2 f_equal. lia.
  - apply list.Forall_cons in Hn as [[Hy Hyz] Hn]. pose proof Hh as [H1 H2]. rewrite Z.sub_add in H2.
    assert (exists b, m !! (pat + k) = Some b /\ b <> 0) as (b & Hb & Hb0).
    { destruct name as [|x name]; destruct H2 as [H2 _]; eexists; (split; [exact H2|]).
      - intros ->. done.
      - apply list.Forall_cons in Hn as [? _]. lia. }
    rewrite (iter_next _ _ _ (k + 1)).
    + rewrite IH; [f_equal; simpl length; lia|done|done| |simpl in Hk; lia|simpl in Hf; lia].
      by replace (pat + (k + 1) - 1) with (pat + k) by lia.
    + unfold load8. simpl in Hk. rewrite (proj2 (Z.ltb_lt k n)), H1, Hb by lia. simpl.
      rewrite (proj2 (nz_true b)) by done. by rewrite (proj2 (Z.eqb_neq y z)).
Qed.

(** What the scan for the end of a bracket passes over. *)
Definition inert (b : Z) : Prop := 0 < b < 256 /\ b <> 91 /\ b <> 93.

Definition scans (i : item) (rest : list Z) : Prop :=
  match i with
  | One c => char_ok c /\ c <> 93 /\ (c = 91 -> opens_class (hd 0 rest) = false)
  | Range a b => char_ok a /\ a <> 93 /\ inert b
  | Class name => Forall (fun b => 0 < b < 256 /\ b <> 58) name
  end.

Lemma enc_plain c : char_ok c -> c <> 91 -> c <> 93 -> Forall inert (enc c).
Proof.
  intros Hc H1 H2. pose proof Hc as [Hp _]. destruct (enc_cases utf8 c Hc) as [[Hlt ->]|(Hge & b & bs & -> & Hb & Hbs & _)].
  - repeat constructor; lia.
  - constructor; [unfold inert; lia|]. apply (list.Forall_impl _ _ _ Hbs). unfold inert. lia.
Qed.

Lemma enc_small c : 0 < c < 128 -> enc c = [c].
Proof.
  intros Hc. unfold enc. destruct utf8; [by destruct (encode_ascii c ltac:(lia))|]. by rewrite wrap_small by lia.
Qed.

Lemma scan_plain pat n xs : forall fuel k, Forall inert xs -> has m (pat + k) xs -> k + len xs <= n ->
  (length xs <= fuel)%nat -> iter fuel (scan_turn m pat n) k = iter (fuel - length xs) (scan_turn m pat n) (k + len xs).
Proof.
  induction xs as [|x xs IH]; intros fuel k Hx Hh Hk Hf; [by rewrite Z.add_0_r, Nat.sub_0_r|].
  destruct fuel as [|fuel]; [simpl in Hf; lia|]. apply list.Forall_cons in Hx as [(Hx & H1 & H2) Hxs].
  destruct Hh as [Hb Hh]. simpl in Hk, Hf.
  rewrite (iter_next _ _ _ (k + 1)).
  - rewrite IH; [f_equal; simpl length; lia|done| |lia|lia]. by rewrite Z.add_assoc.
  - unfold scan_turn, load8. rewrite (proj2 (Z.ltb_lt k n)), Hb by lia. simpl.
    rewrite (proj2 (nz_true x)), (proj2 (Z.eqb_neq x 93)), (proj2 (Z.eqb_neq x 91)) by lia. simpl.
    by rewrite andb_false_r.
Qed.

Lemma scan_open pat n fuel k b : m !! (pat + k) = Some 91 -> m !! (pat + k + 1) = Some b -> opens_class b = false ->
  k < n -> iter (S fuel) (scan_turn m pat n) k = iter fuel (scan_turn m pat n) (k + 1).
Proof.
  intros Hb Hb1 Ho Hk. apply iter_next. unfold scan_turn, load8. rewrite (proj2 (Z.ltb_lt k n)), Hb by lia. simpl.
  rewrite andb_true_r, Hb1. destruct (k + 1 <? n); simpl; rewrite ?Ho, ?andb_false_r; done.
Qed.

Lemma scan_class pat n fuel k z name bs : opens_class z = true -> Forall (fun b => 0 < b < 256 /\ b <> z) name ->
  has m (pat + k) (91 :: z :: name ++ z :: 93 :: bs) -> k + len name + 4 <= n ->
  iter (S fuel) (scan_turn m pat n) k = iter fuel (scan_turn m pat n) (k + len name + 4).
Proof.
  intros Hz Hn (H1 & H2 & Hh) Hk. assert (Hz0 : z <> 0) by (intros ->; done). apply iter_next. unfold scan_turn, load8.
  rewrite (proj2 (Z.ltb_lt k n)), H1 by lia. simpl. rewrite (proj2 (Z.ltb_lt (k + 1) n)), H2 by lia. simpl.
  rewrite (proj2 (nz_true z)), Hz by done. simpl. rewrite (proj2 (nz_true z)) by done.
  replace (pat + k + 1 + 1) with (pat + (k + 2)) in Hh by lia. rewrite (proj2 (Z.ltb_lt (k + 2) n)) by lia.
  assert (exists b, m !! (pat + (k + 2)) = Some b /\ b <> 0) as (b & Hb & Hb0).
  { destruct name as [|x name]; destruct Hh as [Hb _]; eexists; (split; [exact Hb|]); [done|].
    apply list.Forall_cons in Hn as [? _]. lia. }
  rewrite Hb. simpl. rewrite (proj2 (nz_true b)) by done. unfold skip_class.
  rewrite (skip_class_ok pat n z name bs); [simpl|done|done| |lia|].
  - rewrite (proj2 (Z.eqb_neq _ n)) by lia.
    apply has_app in Hh as (_ & _ & Hh & _). replace (pat + (k + 2) + len name + 1) with (pat + (k + 2 + 1 + len name)) in Hh by lia.
    rewrite Hh. simpl. do 2 f_equal. lia.
  - by replace (pat + (k + 2 + 1) - 1) with (pat + (k + 2)) by lia.
  - apply has_app in Hh as [Hh _]. by apply has_size in Hh.
Qed.

Lemma show_items_cons i l : show_items (i :: l) = show_item i ++ show_items l.
Proof. unfold show_items. simpl. by rewrite app_assoc. Qed.

Lemma show_items_head l : exists b bs, show_items l = b :: bs.
Proof.
  destruct l as [|[c|a b|name] l]; unfold show_items; simpl; [eauto| | |eauto].
  - pose proof (enc_pos utf8 c). destruct (enc c); simpl in *; [lia|eauto].
  - pose proof (enc_pos utf8 a). destruct (enc a); simpl in *; [lia|eauto].
Qed.

Lemma scan_item pat n i l fuel k : scans i (show_items l) -> has m (pat + k) (show_item i ++ show_items l) ->
  k + len (show_item i) < n -> (length (show_item i) <= fuel)%nat ->
  exists fuel', (fuel - length (show_item i) <= fuel')%nat /\
    iter fuel (scan_turn m pat n) k = iter fuel' (scan_turn m pat n) (k + len (show_item i)).
Proof.
  intros Hi Hh Hk Hf. destruct (show_items_head l) as (x & xs & El). destruct i as [c|a b|name]; simpl in Hi.
  - destruct Hi as (Hc & H93 & Ho). simpl in *. destruct (decide (c = 91)) as [->|H91].
    + rewrite (enc_small 91) in * by lia. simpl in *. destruct fuel as [|fuel]; [lia|]. exists fuel. split; [lia|].
      rewrite El in *. destruct Hh as (H1 & H2 & _). apply (scan_open _ _ _ _ x); [done|done|by apply Ho|lia].
    + exists (fuel - length (enc c))%nat. split; [done|]. apply has_app in Hh as [Hh _].
      apply scan_plain; [by apply enc_plain|done|lia|done].
  - destruct Hi as (Ha & H93 & Hb). cbn [Patterns.show_item] in *. rewrite <- app_assoc in Hh.
    rewrite length_app in *. simpl length in *. rewrite Nat2Z.inj_add in *.
    destruct (decide (a = 91)) as [->|H91].
    + rewrite (enc_small 91) in * by lia. simpl length in *. destruct fuel as [|fuel]; [lia|].
      exists (fuel - 2)%nat. split; [lia|]. destruct Hh as (H1 & H2). pose proof H2 as [H45 _]. rewrite (scan_open _ _ _ _ 45) by (done || lia).
      rewrite (scan_plain _ _ [45; b]); [f_equal; simpl; lia| | |simpl; lia|simpl; lia].
      * repeat constructor; unfold inert in Hb; try lia.
      * simpl in H2. rewrite Z.add_assoc. simpl. tauto.
    + exists (fuel - (length (enc a) + 2))%nat. split; [done|].
      rewrite (scan_plain _ _ (enc a ++ [45; b])); rewrite ?length_app, ?Nat2Z.inj_add; [done| | |simpl; lia|simpl; lia].
      * apply list.Forall_app. split; [by apply enc_plain|]. repeat constructor; unfold inert in *; lia.
      * rewrite app_assoc in Hh. by apply has_app in Hh as [Hh _].
  - cbn [Patterns.show_item] in *. simpl length in *. rewrite length_app in *. simpl length in *.
    destruct fuel as [|fuel]; [lia|]. exists fuel. split; [lia|]. simpl app in Hh. rewrite <- app_assoc in Hh. simpl app in Hh.
    rewrite (scan_class pat n fuel k 58 name (show_items l)); [f_equal; lia|done|done|done|lia].
Qed.

Lemma item_scans first i rest : item_ok utf8 first i rest -> first = false -> scans i rest.
Proof.
  intros Hi ->. destruct i as [c|a b|name]; simpl in *; [| |tauto].
  - destruct Hi as (Hc & [?|[? _]] & ?); done.
  - destruct Hi as (Hc & [?|[? _]] & ?); [done|]. pose proof Hc as [? _]. unfold inert. split; [done|lia].
Qed.

Lemma scan_items pat n l : forall fuel k, items_ok utf8 false l -> has m (pat + k) (show_items l) ->
  k + len (show_items l) <= n -> (length (show_items l) <= fuel)%nat ->
  iter fuel (scan_turn m pat n) k = Some (k + len (show_items l) - 1).
Proof.
  induction l as [|i l IH]; intros fuel k Hl Hh Hk Hf.
  - destruct fuel as [|fuel]; [simpl in Hf; lia|]. destruct Hh as [Hb _]. simpl in *. apply iter_leave.
    unfold scan_turn, load8. rewrite (proj2 (Z.ltb_lt k n)), Hb by lia. simpl. do 2 f_equal. lia.
  - rewrite show_items_cons in *. destruct Hl as [Hi Hl]. rewrite length_app, Nat2Z.inj_add in *.
    pose proof (show_items_head l) as (x & xs & El). assert (1 <= len (show_items l)) by (rewrite El; simpl; lia).
    destruct (scan_item pat n i l fuel k) as (fuel' & Hf' & ->); [by eapply item_scans|done|lia|lia|].
    apply has_app in Hh as [_ Hh]. rewrite IH; [f_equal; lia|done|by rewrite Z.add_assoc|lia|lia].
Qed.

Lemma scan_tail pat n i l fuel k : scans i (show_items l) -> items_ok utf8 false l -> has m (pat + k) (show_items (i :: l)) ->
  k + len (show_items (i :: l)) <= n -> (length (show_items (i :: l)) <= fuel)%nat ->
  iter fuel (scan_turn m pat n) k = Some (k + len (show_items (i :: l)) - 1).
Proof.
  intros Hi Hl Hh Hk Hf. rewrite show_items_cons in *. rewrite length_app, Nat2Z.inj_add in *.
  pose proof (show_items_head l) as (x & xs & El). assert (1 <= len (show_items l)) by (rewrite El; simpl; lia).
  destruct (scan_item pat n i l fuel k) as (fuel' & Hf' & ->); [done|done|lia|lia|].
  apply has_app in Hh as [_ Hh]. rewrite (scan_items _ _ l); [f_equal; lia|done|by rewrite Z.add_assoc|lia|lia].
Qed.

Lemma hd_enc c bs : char_ok c -> (hd 0 (enc c ++ bs) = c /\ c < 128) \/ (128 <= c /\ 128 <= hd 0 (enc c ++ bs)).
Proof.
  intros Hc. destruct (enc_cases utf8 c Hc) as [[? ->]|(? & b & xs & -> & ? & _)]; simpl; [by left|right; lia].
Qed.

Lemma scan_opening pat n l fuel k : items_ok utf8 true l -> has m (pat + k) (show_items l) ->
  k + len (show_items l) <= n -> (length (show_items l) <= fuel)%nat ->
  iter fuel (scan_turn m pat n) (if hd 0 (show_items l) =? 93 then k + 1 else k) = Some (k + len (show_items l) - 1).
Proof.
  destruct l as [|i l]; [done|]. intros [Hi Hl] Hh Hk Hf.
  assert (Hcase : scans i (show_items l) /\ hd 0 (show_items (i :: l)) <> 93 \/
                  i = One 93 \/ exists b, i = Range 93 b /\ inert b).
  { destruct i as [c|a b|name]; simpl in Hi.
    - destruct Hi as (Hc & _ & Ho). destruct (decide (c = 93)) as [->|Hne]; [tauto|left]. split; [done|].
      rewrite show_items_cons. cbn [Patterns.show_item]. destruct (hd_enc c (show_items l) Hc) as [[-> ?]|[? ?]]; [done|lia].
    - destruct Hi as (Ha & _ & Hb). pose proof Ha as [? _]. assert (inert b) by (unfold inert; lia).
      destruct (decide (a = 93)) as [->|Hne]; [eauto|left]. split; [done|].
      rewrite show_items_cons. cbn [Patterns.show_item]. rewrite <- app_assoc. destruct (hd_enc a ([45; b] ++ show_items l) Ha) as [[-> ?]|[? ?]]; [done|lia].
    - left. simpl. split; [tauto|done]. }
  rewrite show_items_cons in Hh |- *. destruct Hcase as [[Hs Hne]|[->|(b & -> & Hb)]].
  - rewrite show_items_cons in Hne. rewrite (proj2 (Z.eqb_neq _ 93) Hne). rewrite <- show_items_cons in *.
    by apply scan_tail.
  - rewrite show_items_cons in *. simpl in *. rewrite (enc_small 93) in * by lia. simpl in *.
    rewrite (scan_items _ _ l); [f_equal; lia|done| |lia|lia]. rewrite Z.add_assoc. tauto.
  - rewrite show_items_cons in *. simpl in *. rewrite (enc_small 93) in * by lia. simpl in *.
    destruct Hh as (_ & Hh). rewrite (scan_plain _ _ [45; b]).
    + simpl. rewrite (scan_items _ _ l); [f_equal; lia|done| |lia|lia]. destruct Hh as (_ & _ & Hh).
      eapply has_at; [exact Hh|]. simpl. lia.
    + repeat constructor; unfold inert in *; lia.
    + rewrite Z.add_assoc. simpl in *. tauto.
    + simpl. lia.
    + simpl. lia.
Qed.

Lemma pat_next_bracket p n mark l bs flags : elt_ok utf8 flags (Brackets mark l) ->
  holds m p n (show utf8 (Brackets mark l) ++ bs) ->
  pat_next utf8 m p n flags = Some (BRACKET, len (show utf8 (Brackets mark l))).
Proof.
  intros He Hh. pose proof (holds_le _ _ _ _ _ Hh) as Hn. apply holds_has, has_app in Hh as [Hh _].
  pose proof (show_items_head l) as (x & xs & El).
  cbn [show] in *. simpl length in *. simpl app in Hh. destruct Hh as [H91 Hh]. rewrite length_app in *.
  unfold pat_next, load8. rewrite (proj2 (nz_true n)), H91 by lia. simpl.
  set (k := 1 + len (option_list mark)).
  assert (Hl : items_ok utf8 true l) by (destruct mark; simpl in He; tauto).
  assert (Hx : has m (p + k) (show_items l)).
  { apply has_app in Hh as [_ Hh]. eapply has_at; [exact Hh|]. unfold k. lia. }
  assert (0 < len (show_items l)) by (rewrite El; simpl; lia).
  assert (exists y, byte_before m p n 1 = Some y /\ (if (y =? 94) || (y =? 33) then 1 + 1 else 1) = k) as (y & -> & Hy).
  { unfold byte_before, load8. rewrite (proj2 (Z.ltb_lt 1 n)) by lia. unfold k. destruct mark as [y|]; simpl in *.
    - exists y. destruct Hh as [-> _]. split; [done|]. by destruct He as [[-> | ->] _].
    - exists x. rewrite El in Hh, He. destruct Hh as [-> _]. simpl in *. by rewrite !(proj2 (Z.eqb_neq x _)) by tauto. }
  simpl mbind. cbn [mbind option_bind]. rewrite Hy.
  assert (byte_before m p n k = Some x) as ->.
  { unfold byte_before, load8. rewrite (proj2 (Z.ltb_lt k n)) by lia. rewrite El in Hx. by destruct Hx. }
  cbn [mbind option_bind]. pose proof (has_size m _ _ Hx).
  pose proof (scan_opening p n l (fuel_of m) k Hl Hx ltac:(lia) ltac:(lia)) as Hs. rewrite El in Hs at 1. simpl hd in Hs.
  unfold scan_bracket. rewrite Hs. cbn [mbind option_bind].
  unfold byte_before, load8. rewrite (proj2 (Z.ltb_lt _ n)) by lia.
  unfold Patterns.show_items in Hx. apply has_app in Hx as [_ [Hx _]].
  replace (p + (k + len (show_items l) - 1)) with (p + k + len (flat_map show_item l)).
  - rewrite Hx. cbn [mbind option_bind nz Z.eqb negb]. do 2 f_equal. unfold k. lia.
  - unfold Patterns.show_items. rewrite length_app. simpl. lia.
Qed.
End brackets.

(** ** What a bracket matches *)

Section bracket_match.
Context (utf8 : bool) (class : list Z -> Z -> bool) (m : mem) (inv : bool) (k kf : Z).
Hypothesis Hok : mem_ok m.
Hypothesis Hk : 0 <= k < 2 ^ 31.
Hypothesis Hkf : 0 <= kf < 2 ^ 31.

Abbreviation turn_ := (item_turn utf8 class m inv k kf).
Abbreviation item_has := (item_has class k kf).

Lemma in_range_ok a b x : 0 <= x < 2 ^ 31 -> 0 <= a <= b -> b < 128 -> in_range x a b = (a <=? x) && (x <=? b).
Proof.
  intros. unfold in_range. rewrite (wrap_small 32 (b - a)) by lia. destruct (Z.leb_spec a x); simpl.
  - rewrite wrap_small by lia. destruct (Z.leb_spec x b); [apply Z.leb_le|apply Z.leb_gt]; lia.
  - apply Z.leb_gt. unfold wrap. divmod.
Qed.

(** A character that stands for itself. *)
Lemma char_turn p wc c x xs : char_ok utf8 c -> c <> 93 -> (c = 45 -> x = 93) -> (c = 91 -> opens_class x = false) ->
  0 < p -> has m p (enc utf8 c ++ x :: xs) ->
  turn_ (p, wc) = Some (if (c =? k) || (c =? kf) then Leave (negb inv) else Next (p + len (enc utf8 c), c)).
Proof.
  intros Hc H93 H45 H91 Hp Hh. unfold item_turn, load8.
  destruct (enc_head utf8 m c _ p Hc Hh) as (b & Hb & Hbr & [(Hlt & -> & E)|[Hge Hb8]]); rewrite Hb; simpl mbind; cbn [mbind option_bind].
  - rewrite (proj2 (Z.eqb_neq c 93)) by done. rewrite E in *. destruct Hh as (_ & Hx & _). rewrite Hx.
    assert ((if (c =? 45) || (c =? 91) then Some x else Some 0) = Some (if (c =? 45) || (c =? 91) then x else 0)) as ->
      by (by case_match). cbn [mbind option_bind].
    rewrite (proj2 (Z.ltb_lt c 128)) by lia. cbn [mbind option_bind]. simpl length.
    assert (Hend : forall d : bool, (if d then Some (Leave (negb inv)) else Some (Next (p + 0 + 1, c))) =
      Some (if d then Leave (negb inv) else Next (p + 1, c))) by (intros []; rewrite ?Z.add_0_r; done).
    destruct (Z.eqb_spec c 45) as [H1|H1]; [rewrite (H45 H1), H1; simpl; rewrite <- H1; apply Hend|]. simpl.
    destruct (Z.eqb_spec c 91) as [H2|H2]; [rewrite (H91 H2)|]; apply Hend.
  - rewrite !(proj2 (Z.eqb_neq b _)) by lia. simpl. rewrite (proj2 (Z.ltb_ge b 128)) by lia.
    apply has_app in Hh as [Hh _]. pose proof (enc_pos utf8 c).
    assert (len (enc utf8 c) <= 4).
    { unfold enc. destruct utf8; [|simpl; lia]. unfold char_ok in Hc. pose proof (encode_len_range c). unfold encode_len in *. lia. }
    rewrite (mbtowc_char utf8 m Hok p 4 c) by (done || lia). cbn [mbind option_bind default].
    rewrite (proj2 (Z.ltb_ge _ 0)) by lia. replace (p + (len (enc utf8 c) - 1) + 1) with (p + len (enc utf8 c)) by lia.
    unfold id. by case_match.
Qed.

Lemma range_turns fuel p a b x xs : 0 < a <= b -> b < 128 -> b <> 45 -> b <> 91 -> b <> 93 -> 0 < p ->
  has m p (45 :: b :: x :: xs) -> (2 <= fuel)%nat ->
  iter fuel turn_ (p, a) =
    if item_has (Range a b) then Some (negb inv) else iter (fuel - 2) turn_ (p + 2, b).
Proof.
  intros Ha Hb H45 H91 H93 Hp Hh Hf. destruct fuel as [|[|fuel]]; [lia|lia|]. pose proof Hh as (Hm & Hm1 & Hmx & _).
  assert (Hcb : char_ok utf8 b) by (split; [lia|]; destruct utf8; [left; lia|lia]).
  assert (E : enc utf8 b = [b]) by (apply (enc_small utf8); lia).
  assert (Hmb : mbtowc utf8 m (p + 1) 4 = Some (1, Some b)).
  { pose proof (mbtowc_char utf8 m Hok (p + 1) 4 b Hcb) as H. rewrite E in H. apply H; [done|lia|simpl; lia]. }
  assert (Ht : turn_ (p, a) = Some (if item_has (Range a b) then Leave (negb inv) else Next (p + 1, a))).
  { unfold item_turn, load8. rewrite Hm. simpl. rewrite Hm1. simpl. rewrite (proj2 (Z.eqb_neq b 93)) by done. simpl.
    rewrite Hmb. simpl. rewrite (proj2 (Z.leb_le a b)) by lia. rewrite !in_range_ok by lia. simpl.
    replace (p + (1 - 1) + 1) with (p + 1) by lia. by case_match. }
  destruct (item_has (Range a b)) eqn:Hi; [by apply iter_leave|].
  rewrite (iter_next _ _ _ _ Ht). simpl Nat.sub. rewrite Nat.sub_0_r.
  apply iter_next. rewrite (char_turn (p + 1) a b x xs); [|done..|lia|rewrite E; simpl in Hh |- *; tauto].
  rewrite E. simpl in Hi. apply orb_false_iff in Hi as [Hi1 Hi2].
  assert ((b =? k) || (b =? kf) = false) as ->.
  { rewrite orb_false_iff, !Z.eqb_neq. rewrite !andb_false_iff, !Z.leb_gt in *. lia. }
  do 3 f_equal. simpl. lia.
Qed.

Lemma class_turn p wc name x xs : len name < 16 -> Forall (fun b => 0 < b < 256 /\ b <> 58) name ->
  has m p (show_item utf8 (Class name) ++ x :: xs) ->
  turn_ (p, wc) = Some (if item_has (Class name) then Leave (negb inv) else Next (p + len (show_item utf8 (Class name)), wc)).
Proof.
  intros Hz Hn Hh. cbn [show_item] in *. simpl in Hh. rewrite <- app_assoc in Hh. destruct Hh as (H1 & H2 & Hh).
  unfold item_turn, load8. rewrite H1. simpl. rewrite H2. simpl. unfold class_end.
  pose proof Hh as Hh'. apply has_app in Hh' as [Hname _].
  rewrite (class_end_ok m 58 name (x :: xs)); [|done|done|by replace (p + 3 - 1) with (p + 1 + 1) by lia|by eapply has_size].
  simpl. replace (p + 3 + len name - 1 - (p + 2)) with (len name) by lia. rewrite (proj2 (Z.ltb_lt _ 16)) by done.
  replace (p + 2) with (p + 1 + 1) by lia. rewrite has_bytes_of by done. rewrite length_app. simpl.
  replace (p + 3 + len name + 1) with (p + Z.of_nat (S (S (length name + 2)))) by lia.
  by case_match.
Qed.

Lemma range_rest fuel p a b l : 0 < a <= b -> b < 128 -> b <> 45 -> b <> 91 -> b <> 93 -> 0 < p ->
  has m p ([45; b] ++ show_items utf8 l) -> (2 <= fuel)%nat ->
  iter fuel turn_ (p, a) =
    if item_has (Range a b) then Some (negb inv) else iter (fuel - 2) turn_ (p + 2, b).
Proof.
  destruct (show_items_head utf8 l) as (x & xs & ->). intros. by apply (range_turns _ _ _ _ x xs).
Qed.

Lemma items_match l : forall fuel p wc, items_ok utf8 false l -> has m p (show_items utf8 l) -> 0 < p ->
  (length (show_items utf8 l) <= fuel)%nat ->
  iter fuel turn_ (p, wc) = Some (xorb (existsb item_has l) inv).
Proof.
  induction l as [|i l IH]; intros fuel p wc Hl Hh Hp Hf.
  - destruct fuel as [|fuel]; [simpl in Hf; lia|]. destruct Hh as [Hb _]. apply iter_leave.
    unfold item_turn, load8. rewrite Hb. simpl. by destruct inv.
  - destruct Hl as [Hi Hl]. rewrite show_items_cons in Hh, Hf. rewrite length_app in Hf.
    destruct (show_items_head utf8 l) as (x & xs & El). simpl existsb.
    assert (Hend : item_has i = true -> Some (negb inv) = Some (xorb (item_has i || existsb item_has l) inv)).
    { intros ->. by destruct inv. }
    destruct i as [c|a b|name].
    + destruct Hi as (Hc & [?|[H93 H45]] & H91); [done|]. cbn [show_item] in *. pose proof (enc_pos utf8 c).
      destruct fuel as [|fuel]; [lia|]. rewrite El in Hh, H45, H91.
      pose proof (char_turn p wc c x xs Hc H93 H45 H91 Hp Hh) as Ht. cbn [Patterns.item_has] in *.
      destruct ((c =? k) || (c =? kf)); [rewrite (iter_leave _ _ _ _ Ht); by apply Hend|].
      rewrite (iter_next _ _ _ _ Ht). rewrite <- El in Hh. apply has_app in Hh as [_ Hh]. apply IH; [done|done|lia|lia].
    + destruct Hi as (Ha & [?|[H93 H45]] & Hab & Hb45 & Hb91 & Hb93); [done|]. cbn [show_item] in *.
      pose proof (enc_pos utf8 a). pose proof Ha as [Ha0 _]. rewrite length_app in Hf. simpl length in Hf.
      destruct fuel as [|fuel]; [lia|]. rewrite <- app_assoc in Hh.
      pose proof (char_turn p wc a 45 (b :: show_items utf8 l) Ha H93 ltac:(lia) (fun _ => eq_refl) Hp Hh) as Ht.
      assert (Eor : (a =? k) || (a =? kf) = true -> item_has (Range a b) = true).
      { simpl. rewrite !orb_true_iff, !andb_true_iff, !Z.eqb_eq, !Z.leb_le. lia. }
      destruct ((a =? k) || (a =? kf)).
      { rewrite (iter_leave _ _ _ _ Ht). apply Hend. by apply Eor. }
      rewrite (iter_next _ _ _ _ Ht). apply has_app in Hh as [_ Hh]. rewrite (range_rest fuel _ a b l); [|lia|lia|done|done|done|lia|exact Hh|lia].
      destruct (item_has (Range a b)) eqn:Hr; [by apply Hend|]. apply has_app in Hh as [_ Hh]. apply IH; [done|done|lia|lia].
    + destruct Hi as [Hz Hn]. rewrite El in Hh. pose proof (class_turn p wc name x xs Hz Hn Hh) as Ht.
      destruct fuel as [|fuel]; [simpl in Hf; lia|].
      destruct (item_has (Class name)); [rewrite (iter_leave _ _ _ _ Ht); by apply Hend|].
      rewrite (iter_next _ _ _ _ Ht). rewrite <- El in Hh. apply has_app in Hh as [_ Hh]. apply IH; [done|done|lia|].
      simpl length in Hf. lia.
Qed.

(** A [']'] or ['-'] at the start stands for itself. *)
Lemma first_cases i l : item_ok utf8 true i (show_items utf8 l) ->
  (item_ok utf8 false i (show_items utf8 l) /\ hd 0 (show_items utf8 (i :: l)) <> 93 /\ hd 0 (show_items utf8 (i :: l)) <> 45) \/
  exists c, (c = 93 \/ c = 45) /\
    (i = One c \/ exists b, i = Range c b /\ c <= b < 128 /\ b <> 45 /\ b <> 91 /\ b <> 93).
Proof.
  intros Hi. destruct i as [c|a b|name]; simpl in Hi.
  - destruct Hi as (Hc & _ & Ho). destruct (decide (c = 93 \/ c = 45)) as [H|H]; [right; eauto|left].
    rewrite show_items_cons. cbn [show_item].
    split; [|destruct (hd_enc utf8 c (show_items utf8 l) Hc) as [[-> ?]|[? ?]]; lia].
    split; [done|]. split; [right; lia|done].
  - destruct Hi as (Ha & _ & Hb). destruct (decide (a = 93 \/ a = 45)) as [H|H]; [right; exists a; split; [done|]; right; exists b; tauto|left].
    rewrite show_items_cons. cbn [show_item]. rewrite <- app_assoc.
    split; [|destruct (hd_enc utf8 a ([45; b] ++ show_items utf8 l) Ha) as [[-> ?]|[? ?]]; lia].
    split; [done|]. split; [right; lia|done].
  - left. rewrite show_items_cons. done.
Qed.

Hypothesis Hfold93 : kf = 93 -> k = 93.
Hypothesis Hfold45 : kf = 45 -> k = 45.

(** From the first item. *)
Lemma first_match p l : items_ok utf8 true l -> has m p (show_items utf8 l) -> 0 < p -> is_Some (m !! (p - 1)) ->
  (b ← load8 m p;
   if (b =? 93) && (k =? 93) then Some (negb inv)
   else if (b =? 45) && (k =? 45) then Some (negb inv)
   else
     let p := if (b =? 93) || (b =? 45) then p + 1 else p in
     wc ← load8 m (p - 1);
     iter (fuel_of m) turn_ (p, s8 wc)) = Some (xorb (existsb item_has l) inv).
Proof.
  destruct l as [|i l]; [done|]. intros [Hi Hl] Hh Hp [wc Hwc]. pose proof (has_size m p _ Hh) as Hsz.
  destruct (first_cases i l Hi) as [(Hi' & H93 & H45)|(c & Hc & Hi')].
  - destruct (show_items_head utf8 (i :: l)) as (x & xs & El). rewrite El in H93, H45. simpl in H93, H45.
    pose proof Hh as Hh'. rewrite El in Hh'. destruct Hh' as [Hx _]. unfold load8. rewrite Hx. simpl.
    rewrite !(proj2 (Z.eqb_neq x _)) by done. simpl. rewrite Hwc. cbn [mbind option_bind].
    apply (items_match (i :: l)); [done|done|lia|lia].
  - assert (Hx : exists xs, show_items utf8 (i :: l) = c :: xs /\ m !! p = Some c).
    { rewrite show_items_cons in *. destruct Hi' as [->|(b & -> & _)]; cbn [show_item] in *;
        rewrite (enc_small utf8 c) in * by lia; simpl in *; destruct Hh; eauto. }
    destruct Hx as (xs & Ex & Hx). unfold load8. rewrite Hx. cbn [mbind option_bind].
    assert (Hb : ((c =? 93) || (c =? 45)) = true) by (destruct Hc; subst; done). rewrite Hb.
    rewrite Z.add_simpl_r, Hx. cbn [mbind option_bind].
    assert (s8 c = c) as -> by (apply swrap_small; lia).
    destruct (decide (k = c)) as [Hkc|Hkc].
    { assert (item_has i = true) as Hit.
      { destruct Hi' as [->|(b & -> & ? & _)]; simpl; rewrite ?orb_true_iff, ?andb_true_iff, ?Z.eqb_eq, ?Z.leb_le; lia. }
      simpl existsb. rewrite Hit. simpl. destruct Hc; subst c; rewrite Hkc; simpl; destruct inv; done. }
    assert (((c =? 93) && (k =? 93)) = false /\ ((c =? 45) && (k =? 45)) = false) as [-> ->]
      by (rewrite !andb_false_iff, !Z.eqb_neq; lia).
    assert (Hkfc : kf <> c) by (intros ->; destruct Hc; subst c; auto).
    rewrite show_items_cons in Hh, Hsz. rewrite length_app in Hsz. simpl existsb.
    destruct Hi' as [->|(b & -> & Hb' & Hb45 & Hb91 & Hb93)]; cbn [show_item] in *; rewrite (enc_small utf8 c) in * by lia.
    + rewrite (items_match l); [|done|by destruct Hh|lia|simpl in Hsz; lia]. simpl.
      by rewrite !(proj2 (Z.eqb_neq c _)) by done.
    + simpl length in Hsz. destruct Hh as [_ Hh]. rewrite (range_rest _ _ c b l) by (done || lia).
      destruct (item_has (Range c b)); [by destruct inv|].
      rewrite (items_match l); [done|done| |lia|lia]. apply has_app in Hh as [_ Hh]. eapply has_at; [exact Hh|]. simpl. lia.
Qed.
End bracket_match.

Lemma match_bracket_ok utf8 class m flags p mark l k kf : mem_ok m -> 0 <= k < 2 ^ 31 -> 0 <= kf < 2 ^ 31 ->
  (kf = 93 -> k = 93) -> (kf = 45 -> k = 45) -> elt_ok utf8 flags (Brackets mark l) ->
  has m p (show utf8 (Brackets mark l)) -> 0 < p ->
  match_bracket utf8 class m p k kf =
    Some (xorb (existsb (item_has class k kf) l) (match mark with Some _ => true | None => false end)).
Proof.
  intros Hok Hk Hkf H93 H45 He Hh Hp. cbn [show] in Hh. destruct Hh as [H91 Hh]. unfold match_bracket.
  assert (Hl : items_ok utf8 true l) by (destruct mark; simpl in He; tauto).
  destruct mark as [y|]; simpl in Hh.
  - destruct Hh as [Hy Hh]. change (load8 m (p + 1)) with (m !! (p + 1)). rewrite Hy. cbn [mbind option_bind].
    assert ((y =? 94) || (y =? 33) = true) as -> by (by destruct He as [[-> | ->] _]).
    apply first_match; [done..|lia|]. rewrite Z.add_simpl_r. eauto.
  - destruct (show_items_head utf8 l) as (x & xs & El). pose proof Hh as Hx. rewrite El in Hx. destruct Hx as [Hx _].
    destruct He as (H33 & H94 & _). rewrite El in H33, H94. simpl in H33, H94.
    change (load8 m (p + 1)) with (m !! (p + 1)). rewrite Hx. cbn [mbind option_bind].
    assert ((x =? 94) || (x =? 33) = false) as -> by (by rewrite !(proj2 (Z.eqb_neq x _)) by done).
    apply first_match; [done..|lia|]. rewrite Z.add_simpl_r. eauto.
Qed.

(** ** The elements of a pattern in memory *)

Section elements.
Context (utf8 : bool) (towupper towlower : Z -> Z) (class : list Z -> Z -> bool) (m : mem) (flags : Z).
Hypothesis Hok : mem_ok m.

Hypothesis Hcase : cases_ok towupper towlower.

Abbreviation show := (show utf8).
Abbreviation print := (print utf8).
Abbreviation spell := (spell utf8).
Abbreviation char_ok := (char_ok utf8).
Abbreviation elt_ok := (elt_ok utf8 flags).
Abbreviation elt_has := (elt_has towupper towlower class flags).
Abbreviation glob := (glob towupper towlower class flags).

Definition code (t : elt) : Z :=
  match t with Lit c | Esc c => c | Any => QUESTION | Stars => STAR | Brackets _ _ => BRACKET end.

Lemma fold_other k : fold towupper towlower flags k = other_case towupper towlower flags k.
Proof.
  unfold fold, other_case, casefold. destruct (nz _); [|done].
  destruct (decide (towupper k = k)) as [E|E]; [by rewrite E, Z.eqb_refl|by rewrite (proj2 (Z.eqb_neq _ _) E)].
Qed.

Lemma fold_ok k : 0 < k < 0x110000 ->
  0 < fold towupper towlower flags k < 2 ^ 31 /\
  (fold towupper towlower flags k = 93 -> k = 93) /\ (fold towupper towlower flags k = 45 -> k = 45).
Proof.
  intros Hk. rewrite fold_other. unfold other_case. destruct (nz _); [|lia]. destruct (Hcase k Hk) as [[? H] [? H']].
  destruct (decide _); split_and!; lia || (intros E; rewrite <- E; symmetry; (apply H || apply H'); lia).
Qed.

Lemma char_range k : char_ok k -> 0 < k < 0x110000.
Proof. unfold Patterns.char_ok, scalar. destruct utf8; lia. Qed.

Lemma pat_next_end p n : holds m p n [] -> pat_next utf8 m p n flags = Some (END, 0).
Proof.
  intros (_ & _ & _ & Hn). simpl in Hn. rewrite Z.add_0_r in Hn. unfold pat_next, load8.
  destruct Hn as [->|[Hn [Hz _]]]; [done|]. rewrite (proj2 (nz_true n)) by lia. by rewrite Hz.
Qed.

Lemma pat_next_elt p n t bs : elt_ok t -> 0 < p -> holds m p n (show t ++ bs) ->
  pat_next utf8 m p n flags = Some (code t, len (show t)).
Proof.
  intros Ht Hp Hh. pose proof (holds_le _ _ _ _ _ Hh) as Hle. destruct t as [c|c| | |mark l].
  5:{ by apply (pat_next_bracket utf8 m p n mark l bs). }
  all: pose proof Hh as (Hb & _ & Hnext & _); unfold pat_next; cbn [Patterns.show code] in *.
  - destruct Ht as (Hc & H42 & H63 & H91 & H92). pose proof (enc_pos utf8 c). rewrite (proj2 (nz_true n)) by lia. cbn [negb].
    destruct (enc_head utf8 m c bs p Hc Hb) as (b & Hm & Hbr & Hcase'). change (load8 m p) with (m !! p). rewrite Hm. cbn [mbind option_bind].
    rewrite (proj2 (nz_true b)) by lia. cbn [negb].
    assert (exists e, (if b =? 92 then b1 ← load8 m (p + 1); Some (nz b1 && negb (nz (Z.land flags FNM_NOESCAPE))) else Some false) = Some e /\ e = false) as (e & -> & ->).
    { destruct (Z.eqb_spec b 92) as [->|]; [|eauto]. destruct Hcase' as [(_ & <- & E)|]; [|lia].
      assert (is_Some (load8 m (p + 1))) as [b1 ->].
      { unfold load8. rewrite E in *. destruct bs as [|x bs]; simpl in *; [done|]. destruct Hb as (_ & -> & _). eauto. }
      simpl. rewrite H92 by done. rewrite andb_false_r. eauto. }
    cbn [mbind option_bind]. assert (b <> 91 /\ b <> 42 /\ b <> 63) as (? & ? & ?) by lia.
    rewrite !(proj2 (Z.eqb_neq b _)) by done.
    rewrite (literal_next_char utf8 m Hok p n c bs 0) by done. by rewrite Z.add_0_r.
  - destruct Ht as [Hc Hf]. simpl length in *. simpl app in Hb. destruct Hb as [Hm Hb]. rewrite (proj2 (nz_true n)) by lia.
    change (load8 m p) with (m !! p). rewrite Hm. simpl. destruct (enc_head utf8 m c bs (p + 1) Hc Hb) as (b & Hm1 & Hbr & _).
    change (load8 m (p + 1)) with (m !! (p + 1)). rewrite Hm1. simpl. rewrite (proj2 (nz_true b)), Hf by lia. simpl.
    rewrite (literal_next_char utf8 m Hok (p + 1) n c bs 1) by (done || lia). do 2 f_equal. lia.
  - simpl in *. destruct Hb as [Hm _]. unfold load8. rewrite Hm, (proj2 (nz_true n)) by lia. done.
  - simpl in *. destruct Hb as [Hm _]. unfold load8. rewrite Hm, (proj2 (nz_true n)) by lia. done.
Qed.

Lemma matches_ok p t k : elt_ok t -> t <> Stars -> char_ok k -> 0 < p -> has m p (show t) ->
  matches utf8 towupper towlower class m flags (code t) p k = Some (elt_has t k).
Proof.
  intros Ht Hs Hk Hp Hh. pose proof (char_range k Hk) as Hkr. destruct (fold_ok k Hkr) as (Hf & H93 & H45).
  unfold matches. rewrite fold_other in *. destruct t as [c|c| | |mark l]; cbn [code Patterns.elt_has] in *; [| |done|done|].
  1,2: destruct Ht as (Hc & _); pose proof (char_range c Hc); rewrite (proj2 (Z.eqb_neq c BRACKET)), (proj2 (Z.eqb_neq c QUESTION))
    by (unfold BRACKET, QUESTION; lia); f_equal; destruct (k =? c), (_ =? c); done.
  rewrite Z.eqb_refl. apply (match_bracket_ok utf8 class m flags); done || lia.
Qed.

Lemma matches_end p k : char_ok k -> matches utf8 towupper towlower class m flags END p k = Some false.
Proof.
  intros Hk. pose proof (char_range k Hk) as Hkr. destruct (fold_ok k Hkr) as (Hf & _).
  unfold matches. simpl. by rewrite !(proj2 (Z.eqb_neq _ END)) by (unfold END; lia).
Qed.
End elements.
