(* ===== verification/FnmatchSpec.v ===== *)
(** * What [fnmatch] promises

    The loops of [fnmatch] against [glob]: the head, the tail of as many characters, the
    sea of components at their first occurrences; then the components between slashes. *)
From S2P Require Import Prelude Mem StrScan StrSpec Utf8 Fnmatch Patterns.

Abbreviation len l := (Z.of_nat (length l)).

(** ** Stars *)

Section lists.
Context (towupper towlower : Z -> Z) (class : list Z -> Z -> bool) (flags : Z).

Abbreviation glob := (glob towupper towlower class flags).
Abbreviation elt_has := (elt_has towupper towlower class flags).













End lists.





(** ** The loops *)

(** A string that a null byte ends. *)
Definition cstring (m : mem) (p : Z) (bs : list Z) : Prop :=
  has m p bs /\ len bs < 2 ^ 64 - 1 /\ nul_at m (p + len bs).

Section loops.
Context (utf8 : bool) (towupper towlower : Z -> Z) (class : list Z -> Z -> bool) (m : mem) (flags : Z).
Hypothesis Hok : mem_ok m.
Hypothesis Hcase : cases_ok towupper towlower.

Abbreviation show := (show utf8).
Abbreviation print := (print utf8).
Abbreviation spell := (spell utf8).
Abbreviation enc := (enc utf8).
Abbreviation chars := (Forall (char_ok utf8)).
Abbreviation elts := (Forall (elt_ok utf8 flags)).
Abbreviation elt_has := (elt_has towupper towlower class flags).
Abbreviation glob := (glob towupper towlower class flags).








Lemma code_end t : elt_ok utf8 flags t -> (code t =? END) = false.
Proof.
  intros Ht. destruct t as [c|c| | |]; try done; destruct Ht as [[Hc _] _]; simpl; apply Z.eqb_neq; unfold END; lia.
Qed.


Lemma cstring_holds p bs : cstring m p bs -> holds m p (u64 (-1)) bs.
Proof.
  intros (Hb & Hl & Hz). split; [done|]. split; [done|]. split; [destruct Hz as [-> _]; eauto|].
  right. split; [by change (u64 (-1)) with (2 ^ 64 - 1)|done].
Qed.

Lemma cstring_app p xs ys : cstring m p (xs ++ ys) -> cstring m (p + len xs) ys.
Proof.
  unfold cstring. rewrite has_app, length_app, Nat2Z.inj_add, Z.add_assoc. intros ([? ?] & ? & ?).
  split; [done|]. split; [lia|done].
Qed.






















Section between.
Context (p e s e' : Z).
Hypothesis Hp : 0 < p.
Hypothesis Hs : 0 < s.





End between.









(** ** A whole pattern *)





Abbreviation internal := (fnmatch_internal utf8 towupper towlower class m).




(** ** Slashes *)

Definition slash_elt (t : elt) : bool := match t with Lit c | Esc c => c =? 47 | _ => false end.

Lemma slash_code t : slash_elt t = (code t =? 47).
Proof. by destruct t. Qed.




Lemma find_slash_ok bs : forall fuel s, Forall (fun b => b <> 0 /\ b <> 47) bs -> has m s bs ->
  m !! (s + len bs) = Some 0 \/ m !! (s + len bs) = Some 47 -> (length bs < fuel)%nat ->
  iter fuel (fun s => b ← load8 m s; if nz b && negb (b =? 47) then Some (Next (s + 1)) else Some (Leave s)) s =
    Some (s + len bs).
Proof.
  induction bs as [|b bs IH]; intros [|fuel] s Hb Hh He Hf; try (simpl in Hf; lia).
  - apply iter_leave. simpl in *. rewrite Z.add_0_r in *. unfold load8. by destruct He as [-> | ->].
  - apply list.Forall_cons in Hb as [[Hb0 Hb47] Hb]. destruct Hh as [Hm Hh]. simpl in Hf.
    replace (s + len (b :: bs)) with (s + 1 + len bs) in * by (simpl; lia).
    rewrite (iter_next _ _ _ (s + 1)); [apply IH; [done|done|done|lia]|].
    unfold load8. rewrite Hm. simpl. by rewrite (proj2 (nz_true b)), (proj2 (Z.eqb_neq b 47)).
Qed.


(** *** Components *)

















End loops.


(** ASCII, for examples. *)
Definition upper (k : Z) : Z := if (97 <=? k) && (k <=? 122) then k - 32 else k.
Definition lower (k : Z) : Z := if (65 <=? k) && (k <=? 90) then k + 32 else k.
Definition ascii_class (name : list Z) (k : Z) : bool := bool_decide (name = [97; 108; 112; 104; 97]) && (65 <=? upper k) && (upper k <=? 90).





(** ** Bytes that are no characters *)

(** A loop that goes on however much fuel it has. *)
Definition endless {S R : Type} (body : S -> option (turn S R)) (s : S) : Prop := forall fuel, iter fuel body s = None.

Section invalid.
Context (m : mem) (flags : Z).
Hypothesis Hok : mem_ok m.

(** A byte that starts no character in UTF-8. *)
Definition starts_none (b : Z) : Prop := 0x80 <= b < 0xc2 \/ 0xf5 <= b < 256.

Lemma starts_none_not_lead b : starts_none b -> not_lead b = true.
Proof.
  intros Hb. unfold starts_none in Hb. pose proof (lead_table b ltac:(lia)) as Ht. unfold lead in Ht.
  destruct Hb; rewrite ?(proj2 (Z.leb_gt _ b)), ?(proj2 (Z.ltb_ge b _)), ?andb_false_r in Ht by lia; exact Ht.
Qed.

Lemma pat_next_invalid p b : 0 < p -> m !! p = Some b -> starts_none b ->
  pat_next true m p (u64 (-1)) flags = Some (UNMATCHABLE, 0).
Proof.
  intros Hp Hb Hs. pose proof (starts_none_not_lead b Hs) as Hl. assert (128 <= b) by (unfold starts_none in Hs; lia).
  unfold pat_next, literal_next, load8. rewrite Hb. simpl. rewrite (proj2 (nz_true b)) by lia.
  rewrite !(proj2 (Z.eqb_neq b _)) by lia. simpl. rewrite (proj2 (Z.leb_le 128 b)) by lia.
  unfold mbtowc, load8. rewrite (proj2 (Z.eqb_neq p 0)) by lia. simpl. rewrite Hb. simpl.
  rewrite (proj2 (Z.ltb_ge b 128)) by lia. by rewrite Hl.
Qed.

(** The scan for the next slash of the pattern stays at such a byte. *)
Lemma endless_slash ts : forall p b rest, Forall (elt_ok true flags) ts -> Forall (fun t => slash_elt t = false) ts ->
  starts_none b -> 0 < p -> cstring m p (print true ts ++ b :: rest) -> endless (slash_turn true m flags) p.
Proof.
  induction ts as [|t ts IH]; intros p b rest Ht Hs Hb Hp Hm fuel.
  - pose proof Hm as ([Hm0 _] & _). induction fuel as [|fuel IHf]; [done|]. rewrite (iter_next _ _ _ p); [done|].
    unfold slash_turn. rewrite (pat_next_invalid p b) by done. simpl. by rewrite Z.add_0_r.
  - apply list.Forall_cons in Ht as [Ht Hts]. apply list.Forall_cons in Hs as [Hs Hss]. simpl in Hm. rewrite <- app_assoc in Hm.
    destruct fuel as [|fuel]; [done|]. rewrite (iter_next _ _ _ (p + len (show true t))).
    + apply (IH _ b rest); [done|done|done|lia|]. by apply cstring_app in Hm.
    + unfold slash_turn. rewrite (pat_next_elt true m flags Hok p _ t (print true ts ++ b :: rest)) by (done || by apply cstring_holds).
      cbn [mbind option_bind]. rewrite (code_end true flags t Ht). rewrite slash_code in Hs. by rewrite Hs.
Qed.
End invalid.

(** C19. In UTF-8 with [FNM_PATHNAME], [fnmatch] does not return on any string when the
    first component of the pattern has, after well-formed elements and outside brackets,
    a byte that starts no character: [pat_next] gives that byte no length, and the scan
    for the next slash stays there however many turns it takes. *)
Theorem fnmatch_never_ends towupper towlower class m flags pat str ts b rest bs :
  mem_ok m -> nz (Z.land flags FNM_PATHNAME) = true -> 0 < pat -> cstring m pat (print true ts ++ b :: rest) ->
  Forall (elt_ok true flags) ts -> Forall (fun t => slash_elt t = false) ts -> starts_none b ->
  has m str bs -> Forall (fun b => b <> 0 /\ b <> 47) bs -> m !! (str + len bs) = Some 0 \/ m !! (str + len bs) = Some 47 ->
  endless (slash_turn true m flags) pat /\ fnmatch true towupper towlower class m pat str flags = None.
Proof.
  intros Hok Hfl Hpat Hp Ht Hts Hb Hh Hbs Hz.
  assert (Hloop : endless (slash_turn true m flags) pat) by by apply (endless_slash m flags Hok ts pat b rest).
  split; [done|]. unfold fnmatch. rewrite Hfl. pose proof (has_size m str bs Hh) as Hs. destruct (fuel_of m) as [|fuel] eqn:Ef; [done|].
  unfold iter at 1. cbn beta iota. unfold path_turn at 1, find_pattern_slash, find_slash.
  rewrite (find_slash_ok m bs) by (done || lia). cbn [mbind option_bind]. by rewrite Hloop.
Qed.

(** The pattern [a[bc]\xff*] and the string [ab/c]. *)
Definition bad_names : mem :=
  write_bytes (write_bytes ∅ 16 [97; 98; 47; 99; 0; 0; 0; 0]) 24 [97; 91; 98; 99; 93; 0xff; 42; 0].

Lemma fnmatch_never_ends_witness :
  endless (slash_turn true bad_names FNM_PATHNAME) 24 /\ fnmatch true upper lower ascii_class bad_names 24 16 FNM_PATHNAME = None.
Proof.
  apply (fnmatch_never_ends upper lower ascii_class bad_names FNM_PATHNAME 24 16 [Lit 97; Brackets None [One 98; One 99]] 0xff [42] [97; 98]).
  - mem_check.
  - done.
  - lia.
  - split; [vm_compute; tauto|]. split; [vm_compute; done|]. split; [vm_compute; done|mem_check].
  - repeat constructor; unfold char_ok, scalar, starts_ok; try (simpl; lia); try done; (left; done).
  - repeat constructor.
  - right. lia.
  - vm_compute. tauto.
  - repeat constructor; lia.
  - right. vm_compute. done.
Defined.

(** A byte that is no character ends the string, if the pattern has no star: [a] matches
    the two bytes [a\xff]. *)
Lemma fnmatch_ignores_rest :
  fnmatch true upper lower ascii_class (write_bytes bad_names 32 [97; 0; 97; 0xff; 0]) 32 34 0 = Some 0.
Proof. vm_compute. reflexivity. Qed.

(** A range that ends in a character of more than one byte is followed by the last of
    them: [[!а-я]] matches nothing. *)
Lemma fnmatch_range_misparsed :
  fnmatch true upper lower ascii_class (write_bytes bad_names 32 [91; 33; 0xd0; 0xb0; 45; 0xd1; 0x8f; 93; 0; 120; 0]) 32 41 0 =
    Some FNM_NOMATCH.
Proof. vm_compute. reflexivity. Qed.

(** With [FNM_PERIOD] an escaped period does not match a leading period; it does without. *)
Lemma fnmatch_escaped_period :
  fnmatch true upper lower ascii_class (write_bytes bad_names 32 [92; 46; 120; 0; 46; 120; 0]) 32 36 FNM_PERIOD = Some FNM_NOMATCH /\
  fnmatch true upper lower ascii_class (write_bytes bad_names 32 [92; 46; 120; 0; 46; 120; 0]) 32 36 0 = Some 0.
Proof. split; vm_compute; reflexivity. Qed.

(** An equivalence class matches nothing, and a collating symbol neither: [[[=x=]]] and
    [[[.x.]]] do not match [x]. *)
Lemma fnmatch_equivalence :
  fnmatch true upper lower ascii_class (write_bytes bad_names 32 [91; 91; 61; 120; 61; 93; 93; 0; 120; 0]) 32 40 0 = Some FNM_NOMATCH /\
  fnmatch true upper lower ascii_class (write_bytes bad_names 32 [91; 91; 46; 120; 46; 93; 93; 0; 120; 0]) 32 40 0 = Some FNM_NOMATCH.
Proof. split; vm_compute; reflexivity. Qed.
