(* ===== verification/Softfloat.v ===== *)
(** * Floating point in software ([compiler-rt/builtins])

    The routines of [fp_lib.h], [fp_add_impl.inc], [fp_mul_impl.inc], [comparesf2.c],
    [fp_fixint_impl.inc], [fp_fixuint_impl.inc], [floatsisf.c] and the conversions between
    formats, on the representation of a number as an unsigned integer ([rep_t]), for any
    format: [SINGLE_PRECISION] and [DOUBLE_PRECISION] are instances. *)
From S2P Require Import Prelude.

(** ** [fp_lib.h] *)

(** What the two precisions define differently. *)
Class Format : Type := {
  typeWidth : Z;
  significandBits : Z;
  wideMultiply : Z -> Z -> Z * Z;
}.

(** [__builtin_clz] of a word of [w] bits. *)
Definition builtin_clz (w a : Z) : Z := w - 1 - Z.log2 a.

Section fp_lib.
Context `{F : Format}.

(** A [rep_t] *)
Definition rep (x : Z) : Z := wrap typeWidth x.

Definition exponentBits : Z := typeWidth - significandBits - 1.
Definition maxExponent : Z := Z.shiftl 1 exponentBits - 1.
Definition exponentBias : Z := Z.shiftr maxExponent 1.
Definition implicitBit : Z := Z.shiftl 1 significandBits.
Definition significandMask : Z := implicitBit - 1.
Definition signBit : Z := Z.shiftl 1 (significandBits + exponentBits).
Definition absMask : Z := signBit - 1.
Definition exponentMask : Z := Z.lxor absMask significandMask.
Definition infRep : Z := exponentMask.
Definition quietBit : Z := Z.shiftr implicitBit 1.
Definition qnanRep : Z := Z.lor exponentMask quietBit.

Definition rep_clz (a : Z) : Z := builtin_clz typeWidth a.

(** The significand and the exponent it gives. *)
Definition normalize (significand : Z) : Z * Z :=
  let shift := rep_clz significand - rep_clz implicitBit in
  (rep (Z.shiftl significand shift), 1 - shift).

Definition wideLeftShift (hi lo count : Z) : Z * Z :=
  (Z.lor (rep (Z.shiftl hi count)) (Z.shiftr lo (typeWidth - count)), rep (Z.shiftl lo count)).

Definition wideRightShiftWithSticky (hi lo count : Z) : Z * Z :=
  if count <? typeWidth then
    let sticky := nz (rep (Z.shiftl lo (typeWidth - count))) in
    (Z.shiftr hi count, Z.lor (Z.lor (rep (Z.shiftl hi (typeWidth - count))) (Z.shiftr lo count)) (b2z sticky))
  else if count <? 2 * typeWidth then
    let sticky := nz (Z.lor (rep (Z.shiftl hi (2 * typeWidth - count))) lo) in
    (0, Z.lor (Z.shiftr hi (count - typeWidth)) (b2z sticky))
  else
    let sticky := nz (Z.lor hi lo) in
    (0, b2z sticky).

(** ** [fp_add_impl.inc] *)

(** A right shift of at least one bit that keeps whether bits were lost. *)
Definition shift_sticky (x n : Z) : Z :=
  let sticky := nz (rep (Z.shiftl x (typeWidth - n))) in
  Z.lor (Z.shiftr x n) (b2z sticky).

(** The operands that are zero, infinite or not a number. *)
Definition add_special (a b : Z) : option Z :=
  let aAbs := Z.land a absMask in
  let bAbs := Z.land b absMask in
  if (rep (infRep - 1) <=? rep (aAbs - 1)) || (rep (infRep - 1) <=? rep (bAbs - 1)) then
    if infRep <? aAbs then Some (Z.lor a quietBit)
    else if infRep <? bAbs then Some (Z.lor b quietBit)
    else if aAbs =? infRep then
      if Z.lxor a b =? signBit then Some qnanRep else Some a
    else if bAbs =? infRep then Some b
    else if negb (nz aAbs) then
      if negb (nz bAbs) then Some (Z.land a b) else Some b
    else if negb (nz bAbs) then Some a
    else None
  else None.

(** The exponent and the significand of a number that is not zero. *)
Definition unpack (aRep : Z) : Z * Z :=
  let aExponent := Z.land (Z.shiftr aRep significandBits) maxExponent in
  let aSignificand := Z.land aRep significandMask in
  let '(aSignificand, aExponent) := if aExponent =? 0 then normalize aSignificand else (aSignificand, aExponent) in
  (aExponent, rep (Z.shiftl (Z.lor aSignificand implicitBit) 3)).

(** [b]'s significand, where [a]'s exponent puts it. *)
Definition align_b (bSignificand align : Z) : Z :=
  if nz align then
    if align <? typeWidth then shift_sticky bSignificand align else 1
  else bSignificand.

(** The sum's significand and exponent; none if it is zero. *)
Definition add_significands (subtraction : bool) (aSignificand bSignificand aExponent : Z) : option (Z * Z) :=
  if subtraction then
    let aSignificand := rep (aSignificand - bSignificand) in
    if aSignificand =? 0 then None
    else if aSignificand <? Z.shiftl implicitBit 3 then
      let shift := rep_clz aSignificand - rep_clz (Z.shiftl implicitBit 3) in
      Some (rep (Z.shiftl aSignificand shift), aExponent - shift)
    else Some (aSignificand, aExponent)
  else
    let aSignificand := rep (aSignificand + bSignificand) in
    if nz (Z.land aSignificand (Z.shiftl implicitBit 4)) then
      let sticky := nz (Z.land aSignificand 1) in
      Some (Z.lor (Z.shiftr aSignificand 1) (b2z sticky), aExponent + 1)
    else Some (aSignificand, aExponent).

(** From the overflow test on: the three low bits are round, guard and sticky. *)
Definition add_round (aSignificand aExponent resultSign : Z) : Z :=
  if maxExponent <=? aExponent then Z.lor infRep resultSign
  else
    let '(aSignificand, aExponent) :=
      if aExponent <=? 0 then (shift_sticky aSignificand (1 - aExponent), 0) else (aSignificand, aExponent) in
    let roundGuardSticky := Z.land aSignificand 0x7 in
    let result := Z.land (Z.shiftr aSignificand 3) significandMask in
    let result := Z.lor result (rep (Z.shiftl aExponent significandBits)) in
    let result := Z.lor result resultSign in
    let result := if 0x4 <? roundGuardSticky then rep (result + 1) else result in
    if roundGuardSticky =? 0x4 then rep (result + Z.land result 1) else result.

Definition addXf3 (a b : Z) : Z :=
  match add_special a b with
  | Some r => r
  | None =>
      let '(aRep, bRep) := if Z.land a absMask <? Z.land b absMask then (b, a) else (a, b) in
      let '(aExponent, aSignificand) := unpack aRep in
      let '(bExponent, bSignificand) := unpack bRep in
      let resultSign := Z.land aRep signBit in
      let subtraction := nz (Z.land (Z.lxor aRep bRep) signBit) in
      let align := u32 (aExponent - bExponent) in
      match add_significands subtraction aSignificand (align_b bSignificand align) aExponent with
      | None => 0
      | Some (aSignificand, aExponent) => add_round aSignificand aExponent resultSign
      end
  end.

Definition subXf3 (a b : Z) : Z := addXf3 a (Z.lxor b signBit).
Definition negXf2 (a : Z) : Z := Z.lxor a signBit.

(** ** [fp_mul_impl.inc] *)

Definition mul_special (a b productSign : Z) : option Z :=
  let aAbs := Z.land a absMask in
  let bAbs := Z.land b absMask in
  if infRep <? aAbs then Some (Z.lor a quietBit)
  else if infRep <? bAbs then Some (Z.lor b quietBit)
  else if aAbs =? infRep then
    if nz bAbs then Some (Z.lor aAbs productSign) else Some qnanRep
  else if bAbs =? infRep then
    if nz aAbs then Some (Z.lor bAbs productSign) else Some qnanRep
  else if negb (nz aAbs) then Some productSign
  else if negb (nz bAbs) then Some productSign
  else None.

(** The significand of an operand, and what it adds to the scale. *)
Definition mul_normalize (a : Z) : Z * Z :=
  let aSignificand := Z.land a significandMask in
  if Z.land a absMask <? implicitBit then normalize aSignificand else (aSignificand, 0).

(** From the normalisation of the product on. *)
Definition mul_round (productHi productLo productExponent productSign : Z) : Z :=
  let '(productHi, productLo, productExponent) :=
    if nz (Z.land productHi implicitBit) then (productHi, productLo, productExponent + 1)
    else (wideLeftShift productHi productLo 1, productExponent) in
  if maxExponent <=? productExponent then Z.lor infRep productSign
  else
    let shift := u32 (1 - u32 productExponent) in
    if (productExponent <=? 0) && (typeWidth <=? shift) then productSign
    else
      let '(productHi, productLo) :=
        if productExponent <=? 0 then wideRightShiftWithSticky productHi productLo shift
        else (Z.lor (Z.land productHi significandMask) (rep (Z.shiftl productExponent significandBits)), productLo) in
      let productHi := Z.lor productHi productSign in
      let productHi := if signBit <? productLo then rep (productHi + 1) else productHi in
      if productLo =? signBit then rep (productHi + Z.land productHi 1) else productHi.

Definition mulXf3 (a b : Z) : Z :=
  let aExponent := Z.land (Z.shiftr a significandBits) maxExponent in
  let bExponent := Z.land (Z.shiftr b significandBits) maxExponent in
  let productSign := Z.land (Z.lxor a b) signBit in
  let special := (maxExponent - 1 <=? u32 (aExponent - 1)) || (maxExponent - 1 <=? u32 (bExponent - 1)) in
  match (if special then mul_special a b productSign else None) with
  | Some r => r
  | None =>
      let '(aSignificand, aScale) := if special then mul_normalize a else (Z.land a significandMask, 0) in
      let '(bSignificand, bScale) := if special then mul_normalize b else (Z.land b significandMask, 0) in
      let aSignificand := Z.lor aSignificand implicitBit in
      let bSignificand := Z.lor bSignificand implicitBit in
      let '(productHi, productLo) := wideMultiply aSignificand (rep (Z.shiftl bSignificand exponentBits)) in
      let productExponent := s32 (aExponent + bExponent - exponentBias + (aScale + bScale)) in
      mul_round productHi productLo productExponent productSign
  end.

(** ** [comparesf2.c], [comparedf2.c] *)

Definition srep (x : Z) : Z := swrap typeWidth x.

Definition unordsf2 (a b : Z) : bool :=
  let aAbs := Z.land a absMask in
  let bAbs := Z.land b absMask in
  (infRep <? aAbs) || (infRep <? bAbs).

(** [__lesf2] and [__gesf2], but for what they return on unordered operands. *)
Definition compare_reps (unordered a b : Z) : Z :=
  let aInt := srep a in
  let bInt := srep b in
  let aAbs := Z.land a absMask in
  let bAbs := Z.land b absMask in
  if (infRep <? aAbs) || (infRep <? bAbs) then unordered
  else if Z.lor aAbs bAbs =? 0 then 0
  else if 0 <=? Z.land aInt bInt then
    (if aInt <? bInt then -1 else if aInt =? bInt then 0 else 1)
  else
    (if bInt <? aInt then -1 else if aInt =? bInt then 0 else 1).

Definition lesf2 (a b : Z) : Z := compare_reps 1 a b.
Definition gesf2 (a b : Z) : Z := compare_reps (-1) a b.

(** ** [fp_fixint_impl.inc], [fp_fixuint_impl.inc] *)

(** To a signed integer of [W] bits. *)
Definition fixint (W a : Z) : Z :=
  let fixint_max := (2 ^ W - 1) / 2 in
  let fixint_min := - fixint_max - 1 in
  let aAbs := Z.land a absMask in
  let sign := if nz (Z.land a signBit) then -1 else 1 in
  let exponent := Z.shiftr aAbs significandBits - exponentBias in
  let significand := Z.lor (Z.land aAbs significandMask) implicitBit in
  if exponent <? 0 then 0
  else if W <=? exponent then (if sign =? 1 then fixint_max else fixint_min)
  else if exponent <? significandBits then swrap W (sign * Z.shiftr significand (significandBits - exponent))
  else swrap W (sign * swrap W (Z.shiftl significand (exponent - significandBits))).

(** To an unsigned one. *)
Definition fixuint (W a : Z) : Z :=
  let aAbs := Z.land a absMask in
  let sign := if nz (Z.land a signBit) then -1 else 1 in
  let exponent := Z.shiftr aAbs significandBits - exponentBias in
  let significand := Z.lor (Z.land aAbs significandMask) implicitBit in
  if (sign =? -1) || (exponent <? 0) then 0
  else if W <=? exponent then 2 ^ W - 1
  else if exponent <? significandBits then wrap W (Z.shiftr significand (significandBits - exponent))
  else wrap W (Z.shiftl significand (exponent - significandBits)).

(** ** [floatsisf.c], [floatunsisf.c], [floatsidf.c], [floatunsidf.c] *)

(** The magnitude [a], not zero, of [aWidth] bits. *)
Definition float_abs (aWidth a : Z) : Z :=
  let exponent := aWidth - 1 - builtin_clz aWidth a in
  let result :=
    if exponent <=? significandBits then Z.lxor (rep (Z.shiftl a (significandBits - exponent))) implicitBit
    else
      let shift := exponent - significandBits in
      let result := Z.lxor (Z.shiftr a shift) implicitBit in
      let round := rep (Z.shiftl a (typeWidth - shift)) in
      let result := if signBit <? round then rep (result + 1) else result in
      if round =? signBit then rep (result + Z.land result 1) else result in
  rep (result + rep (Z.shiftl (exponent + exponentBias) significandBits)).

(** From a signed [int]. *)
Definition floatsi (a : Z) : Z :=
  if a =? 0 then 0
  else
    let sign := if a <? 0 then signBit else 0 in
    let a := if a <? 0 then u32 (- a) else a in
    Z.lor (float_abs 32 a) sign.

(** From an [unsigned]. *)
Definition floatunsi (a : Z) : Z := if a =? 0 then 0 else float_abs 32 a.
End fp_lib.

(** ** [fp_extend_impl.inc], [fp_trunc_impl.inc] *)

Section convert.
Context (src dst : Format).

Definition srcBits : Z := @typeWidth src.
Definition dstBits : Z := @typeWidth dst.
Definition srcSigBits : Z := @significandBits src.
Definition dstSigBits : Z := @significandBits dst.
Definition srcInfExp : Z := @maxExponent src.
Definition dstInfExp : Z := @maxExponent dst.
Definition srcExpBias : Z := @exponentBias src.
Definition dstExpBias : Z := @exponentBias dst.
Definition srcMinNormal : Z := @implicitBit src.
Definition dstMinNormal : Z := @implicitBit dst.
Definition srcInfinity : Z := Z.shiftl srcInfExp srcSigBits.
Definition srcSignMask : Z := @signBit src.
Definition srcAbsMask : Z := srcSignMask - 1.
Definition srcQNaN : Z := Z.shiftl 1 (srcSigBits - 1).
Definition srcNaNCode : Z := srcQNaN - 1.

Abbreviation srep_ := (wrap srcBits).
Abbreviation drep := (wrap dstBits).

(** What precedes the sign. *)
Definition extend_abs (aAbs : Z) : Z :=
  if srep_ (aAbs - srcMinNormal) <? srep_ (srcInfinity - srcMinNormal) then
    let absResult := drep (Z.shiftl aAbs (dstSigBits - srcSigBits)) in
    drep (absResult + drep (Z.shiftl (dstExpBias - srcExpBias) dstSigBits))
  else if srcInfinity <=? aAbs then
    let absResult := drep (Z.shiftl dstInfExp dstSigBits) in
    let absResult := Z.lor absResult (drep (Z.shiftl (Z.land aAbs srcQNaN) (dstSigBits - srcSigBits))) in
    Z.lor absResult (drep (Z.shiftl (Z.land aAbs srcNaNCode) (dstSigBits - srcSigBits)))
  else if nz aAbs then
    let scale := @rep_clz src aAbs - @rep_clz src srcMinNormal in
    let absResult := drep (Z.shiftl aAbs (dstSigBits - srcSigBits + scale)) in
    let absResult := Z.lxor absResult dstMinNormal in
    let resultExponent := dstExpBias - srcExpBias - scale + 1 in
    Z.lor absResult (drep (Z.shiftl resultExponent dstSigBits))
  else 0.

Definition extendXfYf2 (a : Z) : Z :=
  let aAbs := Z.land a srcAbsMask in
  let sign := Z.land a srcSignMask in
  let absResult := extend_abs aAbs in
  Z.lor absResult (drep (Z.shiftl sign (dstBits - srcBits))).

Definition srcSignificandMask : Z := srcMinNormal - 1.
Definition roundMask : Z := Z.shiftl 1 (srcSigBits - dstSigBits) - 1.
Definition halfway : Z := Z.shiftl 1 (srcSigBits - dstSigBits - 1).
Definition underflow : Z := Z.shiftl (srcExpBias + 1 - dstExpBias) srcSigBits.
Definition overflow : Z := Z.shiftl (srcExpBias + dstInfExp - dstExpBias) srcSigBits.
Definition dstQNaN : Z := Z.shiftl 1 (dstSigBits - 1).
Definition dstNaNCode : Z := dstQNaN - 1.

(** To nearest, ties to even. *)
Definition round_bits (absResult roundBits : Z) : Z :=
  if halfway <? roundBits then drep (absResult + 1)
  else if roundBits =? halfway then drep (absResult + Z.land absResult 1)
  else absResult.

Definition trunc_abs (a aAbs : Z) : Z :=
  if srep_ (aAbs - underflow) <? srep_ (aAbs - overflow) then
    let absResult := drep (Z.shiftr aAbs (srcSigBits - dstSigBits)) in
    let absResult := drep (absResult - drep (Z.shiftl (srcExpBias - dstExpBias) dstSigBits)) in
    round_bits absResult (Z.land aAbs roundMask)
  else if srcInfinity <? aAbs then
    let absResult := drep (Z.shiftl dstInfExp dstSigBits) in
    let absResult := Z.lor absResult dstQNaN in
    Z.lor absResult (drep (Z.land (Z.shiftr (Z.land aAbs srcNaNCode) (srcSigBits - dstSigBits)) dstNaNCode))
  else if overflow <=? aAbs then drep (Z.shiftl dstInfExp dstSigBits)
  else
    let aExp := Z.shiftr aAbs srcSigBits in
    let shift := srcExpBias - dstExpBias - aExp + 1 in
    let significand := Z.lor (Z.land a srcSignificandMask) srcMinNormal in
    if srcSigBits <? shift then 0
    else
      let denormalizedSignificand := @shift_sticky src significand shift in
      round_bits (drep (Z.shiftr denormalizedSignificand (srcSigBits - dstSigBits))) (Z.land denormalizedSignificand roundMask).

Definition truncXfYf2 (a : Z) : Z :=
  let aAbs := Z.land a srcAbsMask in
  let sign := Z.land a srcSignMask in
  let absResult := trunc_abs a aAbs in
  Z.lor absResult (drep (Z.shiftr sign (srcBits - dstBits))).
End convert.

(** ** The two precisions *)

Definition wideMultiply32 (a b : Z) : Z * Z :=
  let product := u64 (a * b) in
  (u32 (Z.shiftr product 32), u32 product).

Definition loWord (a : Z) : Z := Z.land a 0xffffffff.
Definition hiWord (a : Z) : Z := Z.shiftr a 32.

Definition wideMultiply64 (a b : Z) : Z * Z :=
  let plolo := u64 (loWord a * loWord b) in
  let plohi := u64 (loWord a * hiWord b) in
  let philo := u64 (hiWord a * loWord b) in
  let phihi := u64 (hiWord a * hiWord b) in
  let r0 := loWord plolo in
  let r1 := u64 (hiWord plolo + loWord plohi + loWord philo) in
  (u64 (hiWord plohi + hiWord philo + hiWord r1 + phihi), u64 (r0 + u64 (Z.shiftl r1 32))).

Definition SINGLE : Format := {| typeWidth := 32; significandBits := 23; wideMultiply := wideMultiply32 |}.
Definition DOUBLE : Format := {| typeWidth := 64; significandBits := 52; wideMultiply := wideMultiply64 |}.
