(* ===== verification/FloatSpec.v ===== *)
(** * Rounding to nearest

    The magnitude of a representation, in units of the least denormal; what it means that
    a representation is nearest to a ratio, ties to even; and the two facts the routines
    of [Softfloat] rest on: a significand with a sticky bit stands for the exact value, and
    adding the rounding of its low bits to a representation gives the nearest one, also
    when that carries into the exponent or to infinity. *)
From S2P Require Import Prelude Softfloat.

(** What the routines need of a format. *)
Class FormatOk (F : Format) : Prop := {
  significand_pos : 1 <= significandBits;
  exponent_range : 4 <= exponentBits <= 28;
  width_range : typeWidth <= 2 ^ 16;
  wideMultiply_ok a b : 0 <= a < 2 ^ typeWidth -> 0 <= b < 2 ^ typeWidth ->
    wideMultiply a b = (a * b / 2 ^ typeWidth, a * b mod 2 ^ typeWidth);
}.

(** ** Magnitudes *)

Section mag.
Context `{F : Format}.

Definition mag (r : Z) : Z :=
  let exponent := r / implicitBit in
  let fraction := r mod implicitBit in
  if exponent =? 0 then fraction else (implicitBit + fraction) * 2 ^ (exponent - 1).

(** [r] is a representation nearest to [num / den], and even if there are two. *)
Definition nearest (num den r : Z) : Prop :=
  0 <= r <= infRep /\
  forall r', 0 <= r' <= infRep ->
    Z.abs (num - den * mag r) < Z.abs (num - den * mag r') \/
    Z.abs (num - den * mag r) = Z.abs (num - den * mag r') /\ (r = r' \/ Z.even r = true).

(** The sign of a representation and its signed value. *)
Definition negative (r : Z) : bool := nz (Z.land r signBit).
Definition value (r : Z) : Z := (if negative r then -1 else 1) * mag (Z.land r absMask).

(** Numbers, infinities and what is not a number. *)
Definition finite (r : Z) : Prop := Z.land r absMask < infRep.
Definition infinite (r : Z) : Prop := Z.land r absMask = infRep.
Definition nan (r : Z) : Prop := infRep < Z.land r absMask.
End mag.

Section theory.
Context `{F : Format} `{!FormatOk F}.

Abbreviation s := (@significandBits F).
Abbreviation e := (@exponentBits F).
Abbreviation I := (@implicitBit F).
Abbreviation w := (@typeWidth F).

Lemma s_pos : 1 <= s.
Proof. apply significand_pos. Qed.

Lemma e_range : 4 <= e <= 28.
Proof. apply exponent_range. Qed.

Lemma width_split : w = s + e + 1.
Proof. unfold exponentBits. lia. Qed.

Lemma implicit_pow : I = 2 ^ s.
Proof. pose proof s_pos. unfold implicitBit. rewrite Z.shiftl_mul_pow2; lia. Qed.

Lemma sign_pow : signBit = 2 ^ (s + e).
Proof. pose proof s_pos. pose proof e_range. unfold signBit. rewrite Z.shiftl_mul_pow2; lia. Qed.

Lemma max_pow : maxExponent = 2 ^ e - 1.
Proof. pose proof e_range. unfold maxExponent. rewrite Z.shiftl_mul_pow2; lia. Qed.

Lemma bias_pow : exponentBias = 2 ^ (e - 1) - 1.
Proof.
  pose proof e_range. unfold exponentBias. rewrite max_pow, Z.shiftr_div_pow2 by lia. change (2 ^ 1) with 2.
  assert (E : 2 ^ e = 2 * 2 ^ (e - 1)) by (rewrite <- Z.pow_succ_r by lia; f_equal; lia). rewrite E.
  symmetry. apply (Z.div_unique_pos _ _ _ 1); lia.
Qed.

Lemma bias_pos : 7 <= exponentBias < 2 ^ 28.
Proof.
  pose proof e_range. rewrite bias_pow. assert (2 ^ 3 <= 2 ^ (e - 1)) by (apply Z.pow_le_mono_r; lia).
  assert (2 ^ (e - 1) <= 2 ^ 28) by (apply Z.pow_le_mono_r; lia). change (2 ^ 3) with 8 in *. lia.
Qed.

Lemma pow_pos n : 0 <= n -> 0 < 2 ^ n.
Proof. apply Z.pow_pos_nonneg. lia. Qed.

Lemma pow_se : 2 ^ (s + e) = 2 ^ e * 2 ^ s.
Proof. pose proof s_pos. pose proof e_range. rewrite Z.add_comm. apply Z.pow_add_r; lia. Qed.

Lemma inf_value : infRep = maxExponent * I.
Proof.
  pose proof s_pos. pose proof e_range. unfold infRep, exponentMask, absMask, significandMask.
  rewrite max_pow, implicit_pow, sign_pow, pow_se.
  replace (2 ^ e * 2 ^ s - 1) with ((2 ^ s - 1) + 2 ^ s * (2 ^ e - 1)) by lia.
  assert (0 < 2 ^ s) by (apply pow_pos; lia). assert (0 < 2 ^ e) by (apply pow_pos; lia). pose proof (lxor_split s ltac:(lia) (2 ^ s - 1) (2 ^ s - 1) (2 ^ e - 1) 0) as Hx.
  rewrite Z.mul_0_r, Z.add_0_r in Hx. rewrite Hx by lia. rewrite Z.lxor_nilpotent, Z.lxor_0_r. lia.
Qed.

Lemma implicit_pos : 2 <= I.
Proof. rewrite implicit_pow. pose proof s_pos. change 2 with (2 ^ 1) at 1. apply Z.pow_le_mono_r; lia. Qed.

Lemma inf_even : Z.even infRep = true.
Proof.
  rewrite inf_value, implicit_pow, Z.even_mul. apply orb_true_iff. right. pose proof s_pos.
  rewrite Z.even_pow by lia. done.
Qed.

(** The representation with exponent [t + 1] and significand [q]; the formula holds for
    denormals ([t] is 0) and for a significand that carries. *)
Lemma mag_at t q : 0 <= t -> 0 <= q <= 2 * I -> t = 0 \/ I <= q ->
  mag (t * I + q) = q * 2 ^ t.
Proof.
  intros Ht Hq Hn. pose proof implicit_pos. unfold mag.
  destruct (Z.lt_ge_cases q I) as [Hlt|Hge].
  - assert (t = 0) as -> by lia. rewrite Z.mul_0_l, Z.add_0_l, Z.div_small, Z.mod_small by lia. simpl. lia.
  - assert (q = 2 * I \/ q < 2 * I) as [->|Hq2] by lia.
    + replace (t * I + 2 * I) with ((t + 2) * I) by lia.
      rewrite Z.div_mul, Z.mod_mul by lia. rewrite (proj2 (Z.eqb_neq _ 0)) by lia.
      replace (t + 2 - 1) with (t + 1) by lia. rewrite Z.pow_add_r by lia. lia.
    + replace (t * I + q) with ((q - I) + (t + 1) * I) by lia.
      rewrite Z.div_add, Z.mod_add, Z.div_small, Z.mod_small by lia. rewrite (proj2 (Z.eqb_neq _ 0)) by lia.
      replace (0 + (t + 1) - 1) with t by lia. lia.
Qed.

Lemma rep_split r : 0 <= r -> exists t q, 0 <= t /\ 0 <= q < 2 * I /\ (t = 0 \/ I <= q) /\
  r = t * I + q.
Proof.
  intros Hr. pose proof implicit_pos. pose proof (Z.div_mod r I ltac:(lia)).
  pose proof (Z.mod_pos_bound r I ltac:(lia)). pose proof (Z.div_pos r I Hr ltac:(lia)).
  destruct (decide (r / I = 0)) as [E|E].
  - exists 0, r. lia.
  - exists (r / I - 1), (I + r mod I). lia.
Qed.

Lemma mag_succ r : 0 <= r -> mag r < mag (r + 1).
Proof.
  intros Hr. destruct (rep_split r Hr) as (t & q & Ht & Hq & Hn & ->). rewrite <- Z.add_assoc.
  rewrite !mag_at by lia. pose proof (pow_pos t Ht). lia.
Qed.

Lemma mag_mono r r' : 0 <= r -> r < r' -> mag r < mag r'.
Proof.
  intros Hr Hlt. replace r' with (r + (r' - r)) by lia. assert (Hd : 0 < r' - r) by lia. revert Hd.
  generalize (r' - r) as d. intros d Hd. pattern d. apply (Zlt_lower_bound_ind _ 1); [|lia].
  intros x IH Hx. destruct (decide (x = 1)) as [->|]; [by apply mag_succ|].
  specialize (IH (x - 1) ltac:(lia)). pose proof (mag_succ (r + (x - 1)) ltac:(lia)).
  replace (r + x) with (r + (x - 1) + 1) by lia. lia.
Qed.

Lemma mag_mono_le r r' : 0 <= r -> r <= r' -> mag r <= mag r'.
Proof. intros Hr Hle. destruct (decide (r = r')) as [->|]; [lia|]. pose proof (mag_mono r r'). lia. Qed.

Lemma mag_nonneg r : 0 <= r -> 0 <= mag r.
Proof.
  intros Hr. destruct (rep_split r Hr) as (t & q & Ht & Hq & Hn & ->). rewrite mag_at by lia.
  pose proof (pow_pos t Ht). nia.
Qed.

Lemma mag_inj r r' : 0 <= r -> 0 <= r' -> mag r = mag r' -> r = r'.
Proof.
  intros Hr Hr' E. destruct (Z.lt_trichotomy r r') as [H|[H|H]]; [|done|].
  - pose proof (mag_mono r r' Hr H). lia.
  - pose proof (mag_mono r' r Hr' H). lia.
Qed.

(** ** Nearest representations *)

Lemma nearest_scale num den c r : 0 < c -> nearest (num * c) (den * c) r -> nearest num den r.
Proof.
  intros Hc [Hr H]. split; [done|]. intros r' Hr'. specialize (H r' Hr').
  replace (num * c - den * c * mag r) with ((num - den * mag r) * c) in H by lia.
  replace (num * c - den * c * mag r') with ((num - den * mag r') * c) in H by lia.
  rewrite !Z.abs_mul, (Z.abs_eq c) in H by lia.
  destruct H as [H|[H E]]; [left; nia|right; split; [nia|done]].
Qed.

Lemma nearest_same num den num' den' r : 0 < den -> 0 < den' -> num * den' = num' * den ->
  nearest num den r -> nearest num' den' r.
Proof.
  intros Hd Hd' E [Hr H]. apply (nearest_scale _ _ den); [done|]. rewrite <- E. split; [done|]. intros r' Hr'.
  specialize (H r' Hr').
  replace (num * den' - den' * den * mag r) with ((num - den * mag r) * den') by lia.
  replace (num * den' - den' * den * mag r') with ((num - den * mag r') * den') by lia.
  rewrite !Z.abs_mul, (Z.abs_eq den') by lia.
  destruct H as [H|[H E']]; [left; nia|right; split; [nia|done]].
Qed.

(** Between two neighbours. *)
Lemma nearest_between num den r : 0 < den -> 0 <= r < infRep -> den * mag r <= num <= den * mag (r + 1) ->
  nearest num den
    (match Z.compare (2 * num) (den * (mag r + mag (r + 1))) with
     | Lt => r | Gt => r + 1 | Eq => if Z.even r then r else r + 1 end).
Proof.
  intros Hd Hr Hn. pose proof (mag_succ r ltac:(lia)) as Hs.
  assert (Hside : forall r', 0 <= r' -> (r' <= r -> den * mag r' <= den * mag r) /\ (r + 1 <= r' -> den * mag (r + 1) <= den * mag r')).
  { intros r' Hr'. split; intros Hle; [pose proof (mag_mono_le r' r Hr' Hle)|pose proof (mag_mono_le (r + 1) r' ltac:(lia) Hle)]; nia. }
  assert (Hstrict : forall r', 0 <= r' -> (r' < r -> den * mag r' < den * mag r) /\ (r + 1 < r' -> den * mag (r + 1) < den * mag r')).
  { intros r' Hr'. split; intros Hle; [pose proof (mag_mono r' r Hr' Hle)|pose proof (mag_mono (r + 1) r' ltac:(lia) Hle)]; nia. }
  assert (Hne : Z.even (r + 1) = negb (Z.even r)) by (rewrite Z.even_add; by destruct (Z.even r)).
  destruct (Z.compare_spec (2 * num) (den * (mag r + mag (r + 1)))) as [E|E|E].
  - split; [destruct (Z.even r); lia|]. intros r' Hr'. destruct (Hside r') as [H1 H2]; [lia|].
    destruct (Hstrict r') as [H3 H4]; [lia|]. destruct (Z.even r) eqn:Ev.
    + assert (Z.abs (num - den * mag r) <= Z.abs (num - den * mag r')) by lia.
      destruct (decide (Z.abs (num - den * mag r) = Z.abs (num - den * mag r'))); [right; split; [done|by right]|left; lia].
    + rewrite Hne. assert (Z.abs (num - den * mag (r + 1)) <= Z.abs (num - den * mag r')) by lia.
      destruct (decide (Z.abs (num - den * mag (r + 1)) = Z.abs (num - den * mag r'))); [right; split; [done|by right]|left; lia].
  - split; [lia|]. intros r' Hr'. destruct (Hside r') as [H1 H2]; [lia|]. destruct (decide (r' = r)) as [->|]; [lia|].
    destruct (Hstrict r') as [H3 H4]; [lia|]. left. lia.
  - split; [lia|]. intros r' Hr'. destruct (Hside r') as [H1 H2]; [lia|]. destruct (decide (r' = r + 1)) as [->|]; [lia|].
    destruct (Hstrict r') as [H3 H4]; [lia|]. left. lia.
Qed.

Lemma nearest_inf num den : 0 < den -> den * mag infRep <= num -> nearest num den infRep.
Proof.
  intros Hd Hn. pose proof inf_even. split; [rewrite inf_value, max_pow; pose proof implicit_pos; pose proof (pow_pos e); pose proof e_range; nia|].
  intros r' [Hr0 Hri]. assert (Hle : mag r' <= mag infRep) by (apply mag_mono_le; done).
  assert (den * mag r' <= den * mag infRep) by nia.
  assert (Z.abs (num - den * mag infRep) <= Z.abs (num - den * mag r')) by lia.
  destruct (decide (Z.abs (num - den * mag infRep) = Z.abs (num - den * mag r'))); [right; split; [done|by right]|left; lia].
Qed.
Lemma nearest_zero num den : 0 < den -> 0 <= num -> num * 2 < den -> nearest num den 0.
Proof.
  intros Hd Hn Hlt. pose proof implicit_pos.
  assert (M0 : mag 0 = 0) by (apply (mag_at 0 0); lia). assert (M1 : mag 1 = 1) by (apply (mag_at 0 1); lia).
  pose proof inf_value. pose proof max_pow. pose proof e_range. assert (2 ^ 1 <= 2 ^ e) by (apply Z.pow_le_mono_r; lia).
  pose proof (nearest_between num den 0 Hd ltac:(nia)) as Hb. change (0 + 1) with 1 in Hb. rewrite M0, M1 in Hb.
  rewrite (proj2 (Z.compare_lt_iff _ _)) in Hb by lia. apply Hb. lia.
Qed.

(** There is one. *)
Lemma nearest_unique num den r r' : 0 < den -> nearest num den r -> nearest num den r' -> r = r'.
Proof.
  intros Hd [Hr H] [Hr' H']. destruct (decide (r = r')) as [E|Hne]; [done|exfalso].
  assert (Heq : Z.abs (num - den * mag r) = Z.abs (num - den * mag r')) by (specialize (H r' Hr'); specialize (H' r Hr); lia).
  assert (Hev : Z.even r = true /\ Z.even r' = true).
  { specialize (H r' Hr'). specialize (H' r Hr). split; [destruct H as [?|[? [?|?]]]|destruct H' as [?|[? [?|?]]]]; congruence || lia. }
  assert (Hmid : forall x y, 0 <= x < y -> y <= infRep -> Z.even x = true -> Z.even y = true ->
    Z.abs (num - den * mag x) = Z.abs (num - den * mag y) -> Z.abs (num - den * mag (x + 1)) < Z.abs (num - den * mag x)).
  { intros x y Hxy Hy Ex Ey E. assert (x + 1 < y).
    { assert (x + 1 <> y) by (intros <-; rewrite Z.even_add, Ex in Ey; done). lia. }
    pose proof (mag_mono x (x + 1) ltac:(lia) ltac:(lia)). pose proof (mag_mono (x + 1) y ltac:(lia) ltac:(lia)).
    assert (den * mag x < den * mag (x + 1)) by (apply Z.mul_lt_mono_pos_l; done).
    assert (den * mag (x + 1) < den * mag y) by (apply Z.mul_lt_mono_pos_l; done). lia. }
  destruct (Z.lt_total r r') as [Hlt|[?|Hlt]]; [|done|].
  - pose proof (Hmid r r' ltac:(lia) ltac:(lia) ltac:(apply Hev) ltac:(apply Hev) Heq). specialize (H (r + 1) ltac:(lia)). lia.
  - symmetry in Heq. pose proof (Hmid r' r ltac:(lia) ltac:(lia) ltac:(apply Hev) ltac:(apply Hev) Heq). specialize (H' (r' + 1) ltac:(lia)). lia.
Qed.
End theory.

(** ** Sticky bits *)

(** [S] compares with the multiples of [2 ^ g] as the exact [num / den] does. *)
Definition stands (g num den S : Z) : Prop :=
  forall j, (num < den * (2 ^ g * j) <-> S < 2 ^ g * j) /\ (den * (2 ^ g * j) < num <-> 2 ^ g * j < S).

Section stands.
Implicit Types g num den S : Z.

Lemma stands_exact g num den S : 0 < den -> num = den * S -> stands g num den S.
Proof. intros Hd -> j. rewrite <- !Z.mul_lt_mono_pos_l by done. done. Qed.

Lemma stands_weaken g g' num den S : 0 <= g <= g' -> stands g num den S -> stands g' num den S.
Proof.
  intros Hg H j. specialize (H (2 ^ (g' - g) * j)).
  replace (2 ^ g * (2 ^ (g' - g) * j)) with (2 ^ g' * j) in H; [done|].
  rewrite Z.mul_assoc, <- Z.pow_add_r by lia. do 2 f_equal. lia.
Qed.

Lemma stands_add g num den S a : stands g num den S -> stands g (den * (2 ^ g * a) + num) den (2 ^ g * a + S).
Proof. intros H j. specialize (H (j - a)). rewrite !Z.mul_sub_distr_l in H. lia. Qed.

Lemma stands_sub g num den S a : stands g num den S -> stands g (den * (2 ^ g * a) - num) den (2 ^ g * a - S).
Proof. intros H j. specialize (H (a - j)). rewrite !Z.mul_sub_distr_l in H. lia. Qed.

Lemma stands_zero g num den S : stands g num den S -> (0 < num <-> 0 < S) /\ (num < 0 <-> S < 0).
Proof. intros H. specialize (H 0). rewrite !Z.mul_0_r in H. tauto. Qed.

Lemma stands_shl g num den S c : 0 <= g -> 0 <= c -> stands g num den S -> stands (g + c) (num * 2 ^ c) den (S * 2 ^ c).
Proof.
  intros Hg Hc H j. specialize (H j). rewrite Z.pow_add_r by done. pose proof (pow_pos c Hc).
  replace (den * (2 ^ g * 2 ^ c * j)) with (den * (2 ^ g * j) * 2 ^ c) by lia.
  replace (2 ^ g * 2 ^ c * j) with (2 ^ g * j * 2 ^ c) by lia. rewrite <- !Z.mul_lt_mono_pos_r by done. done.
Qed.

(** The low bits of [x] fold into the lowest of what a shift leaves. *)
Definition fold_low (x n : Z) : Z := Z.lor (x / 2 ^ n) (b2z (nz (x mod 2 ^ n))).

Lemma lor_bit0 q b : 0 <= q -> Z.lor q (b2z b) = if b && Z.even q then q + 1 else q.
Proof.
  intros Hq. pose proof (Z.div_mod q 2 ltac:(lia)) as E. pose proof (Z.mod_pos_bound q 2 ltac:(lia)).
  assert (Hev : Z.even q = (q mod 2 =? 0)) by (rewrite Zmod_even; by destruct (Z.even q)). rewrite Hev.
  pose proof (lor_split 1 ltac:(lia) (q mod 2) (b2z b) (q / 2) 0) as Hl. change (2 ^ 1) with 2 in Hl.
  pose proof (b2z_range b). replace (q mod 2 + 2 * (q / 2)) with q in Hl by lia. replace (b2z b + 2 * 0) with (b2z b) in Hl by lia.
  rewrite Hl, Z.lor_0_r by lia.
  assert (Z.lor (q mod 2) (b2z b) = if b then 1 else q mod 2) as ->.
  { assert (q mod 2 = 0 \/ q mod 2 = 1) as [-> | ->] by lia; by destruct b. }
  destruct b; cbn [andb]; [destruct (Z.eqb_spec (q mod 2) 0)|]; lia.
Qed.

Lemma stands_fold g num den S n : 0 < den -> 1 <= n -> 0 <= g <= n + 1 -> 0 <= S ->
  stands g num den S -> stands 1 num (den * 2 ^ n) (fold_low S n).
Proof.
  intros Hd Hn Hg HS H j. apply (stands_weaken _ (n + 1)) in H; [|done]. specialize (H j).
  rewrite Z.pow_add_r in H by lia. change (2 ^ 1) with 2 in *. pose proof (pow_pos n ltac:(lia)) as Hp.
  replace (den * 2 ^ n * (2 * j)) with (den * (2 ^ n * 2 * j)) by lia. destruct H as [-> ->].
  pose proof (Z.div_mod S (2 ^ n) ltac:(lia)) as E. pose proof (Z.mod_pos_bound S (2 ^ n) Hp) as Hm.
  pose proof (Z.div_pos S (2 ^ n) HS Hp) as Hq. unfold fold_low. rewrite lor_bit0 by done.
  set (q := S / 2 ^ n) in *. set (r := S mod 2 ^ n) in *.
  assert (Hpar : Z.even q = true -> exists k, q = 2 * k) by (intros Hev; apply Z.even_spec in Hev as [k ->]; eauto).
  assert (Hpar' : Z.even q = false -> exists k, q = 2 * k + 1).
  { intros Hev. rewrite <- Z.negb_odd in Hev. apply negb_false_iff, Z.odd_spec in Hev as [k ->]. eauto. }
  replace (2 ^ n * 2 * j) with (2 ^ n * (2 * j)) by lia.
  assert (Hless : S < 2 ^ n * (2 * j) <-> q < 2 * j).
  { split; intros; [apply Z.nle_gt; intros ?|]; nia. }
  assert (Hmore : 2 ^ n * (2 * j) < S <-> 2 * j < q \/ 2 * j = q /\ r <> 0).
  { split; [intros Hlt; destruct (Z.lt_trichotomy (2 * j) q) as [?|[<-|?]]; [by left|right; lia|exfalso; nia]|].
    intros [?|[<- ?]]; nia. }
  rewrite Hless, Hmore. destruct (nz r) eqn:Er; [apply nz_true in Er|apply nz_false in Er]; cbn [andb]; [|lia].
  destruct (Z.even q); [destruct (Hpar eq_refl) as (k & Ek)|destruct (Hpar' eq_refl) as (k & Ek)]; lia.
Qed.
End stands.

(** ** Rounding *)

(** [r], rounded up if [S]'s [K] low bits are more than a half, or are one and [r] is odd. *)
Definition rounded (K S r : Z) : Z :=
  match Z.compare (S mod 2 ^ K) (2 ^ (K - 1)) with
  | Lt => r | Gt => r + 1 | Eq => if Z.even r then r else r + 1
  end.

Section rounding.
Context `{F : Format} `{!FormatOk F}.

Abbreviation I := (@implicitBit F).

Lemma nearest_rounded K num den S t q : 1 <= K -> 0 < den -> stands (K - 1) num den S -> q = S / 2 ^ K ->
  0 <= t -> 0 <= q < 2 * I -> t = 0 \/ I <= q -> t * I + q < infRep ->
  nearest (num * 2 ^ t) (den * 2 ^ K) (rounded K S (t * I + q)).
Proof.
  intros HK Hd Hst -> Ht Hq Hn Hinf. pose proof implicit_pos. pose proof (pow_pos t Ht) as Hpt.
  pose proof (pow_pos (K - 1) ltac:(lia)) as Hpk. assert (EK : 2 ^ K = 2 * 2 ^ (K - 1)) by (rewrite <- Z.pow_succ_r by lia; f_equal; lia).
  pose proof (Z.div_mod S (2 ^ K) ltac:(lia)) as E. pose proof (Z.mod_pos_bound S (2 ^ K) ltac:(lia)) as Hm.
  set (q := S / 2 ^ K) in *. set (r := S mod 2 ^ K) in *.
  assert (M0 : mag (t * I + q) = q * 2 ^ t) by (apply mag_at; lia).
  assert (M1 : mag (t * I + q + 1) = (q + 1) * 2 ^ t) by (rewrite <- Z.add_assoc; apply mag_at; lia).
  pose proof (Hst (2 * q)) as [_ L0]. pose proof (Hst (2 * q)) as [L0' _]. pose proof (Hst (2 * (q + 1))) as [_ L1]. pose proof (Hst (2 * q + 1)) as [Hlt Hgt].
  replace (2 ^ (K - 1) * (2 * q)) with (2 ^ K * q) in * by lia. replace (2 ^ (K - 1) * (2 * (q + 1))) with (2 ^ K * q + 2 ^ K) in * by lia.
  replace (2 ^ (K - 1) * (2 * q + 1)) with (2 ^ K * q + 2 ^ (K - 1)) in * by lia.
  assert (Hlow : den * (2 ^ K * q) <= num) by lia. assert (Hhigh : num <= den * (2 ^ K * q + 2 ^ K)) by lia.
  pose proof (nearest_between (num * 2 ^ t) (den * 2 ^ K) (t * I + q)) as Hb. rewrite M0, M1 in Hb.
  assert (Hc : Z.compare (2 * (num * 2 ^ t)) (den * 2 ^ K * (q * 2 ^ t + (q + 1) * 2 ^ t)) = Z.compare r (2 ^ (K - 1))).
  { replace (den * 2 ^ K * (q * 2 ^ t + (q + 1) * 2 ^ t)) with (2 * (den * (2 ^ K * q + 2 ^ (K - 1)) * 2 ^ t)) by (rewrite EK; ring).
    destruct (Z.compare_spec r (2 ^ (K - 1))) as [Er|Er|Er].
    - apply Z.compare_eq_iff. assert (num = den * (2 ^ K * q + 2 ^ (K - 1))) as -> by lia. done.
    - apply Z.compare_lt_iff. assert (num < den * (2 ^ K * q + 2 ^ (K - 1))) by (apply Hlt; lia). nia.
    - apply Z.compare_gt_iff. assert (den * (2 ^ K * q + 2 ^ (K - 1)) < num) by (apply Hgt; lia). nia. }
  rewrite Hc in Hb. unfold rounded. fold r. apply Hb; [nia|nia|nia].
Qed.
End rounding.

(** ** The two precisions *)

Lemma wideMultiply32_ok a b : 0 <= a < 2 ^ 32 -> 0 <= b < 2 ^ 32 ->
  wideMultiply32 a b = (a * b / 2 ^ 32, a * b mod 2 ^ 32).
Proof.
  intros Ha Hb. unfold wideMultiply32. assert (Hp : 0 <= a * b < 2 ^ 64) by nia.
  assert (Hu : u64 (a * b) = a * b) by (by apply wrap_small). rewrite Hu, Z.shiftr_div_pow2 by lia. f_equal.
  apply wrap_small. split; [apply Z.div_pos|apply Z.div_lt_upper_bound]; lia.
Qed.

Lemma words64 a : 0 <= a < 2 ^ 64 -> 0 <= loWord a < 2 ^ 32 /\ 0 <= hiWord a < 2 ^ 32 /\ a = 2 ^ 32 * hiWord a + loWord a.
Proof.
  intros Ha. unfold loWord, hiWord. rewrite Z.shiftr_div_pow2 by lia. change 0xffffffff with (Z.ones 32). rewrite Z.land_ones by lia. divmod.
Qed.

Lemma wideMultiply64_ok a b : 0 <= a < 2 ^ 64 -> 0 <= b < 2 ^ 64 ->
  wideMultiply64 a b = (a * b / 2 ^ 64, a * b mod 2 ^ 64).
Proof.
  intros Ha Hb. destruct (words64 a Ha) as (Hal & Hah & Ea). destruct (words64 b Hb) as (Hbl & Hbh & Eb).
  unfold wideMultiply64. cbv zeta. set (al := loWord a) in *. set (ah := hiWord a) in *. set (bl := loWord b) in *. set (bh := hiWord b) in *.
  assert (Hmul : forall x y, 0 <= x < 2 ^ 32 -> 0 <= y < 2 ^ 32 -> u64 (x * y) = x * y /\ 0 <= x * y <= (2 ^ 32 - 1) * (2 ^ 32 - 1)).
  { intros x y Hx Hy. split; [apply wrap_small; nia|nia]. }
  destruct (Hmul al bl Hal Hbl) as [-> H1]. destruct (Hmul al bh Hal Hbh) as [-> H2]. destruct (Hmul ah bl Hah Hbl) as [-> H3]. destruct (Hmul ah bh Hah Hbh) as [-> H4].
  assert (Hab : a * b = al * bl + 2 ^ 32 * (al * bh + ah * bl) + 2 ^ 64 * (ah * bh)) by (rewrite Ea, Eb; ring).
  rewrite Hab. clear Hab Hmul Ea Eb Ha Hb. revert H1 H2 H3 H4.
  generalize (al * bl) as p, (al * bh) as q, (ah * bl) as r, (ah * bh) as t. clear. intros p q r t Hp Hq Hr Ht.
  destruct (words64 p ltac:(lia)) as (Hpl & Hph & Ep). destruct (words64 q ltac:(lia)) as (Hql & Hqh & Eq). destruct (words64 r ltac:(lia)) as (Hrl & Hrh & Er).
  set (pl := loWord p) in *. set (ph := hiWord p) in *. set (ql := loWord q) in *. set (qh := hiWord q) in *. set (rl := loWord r) in *. set (rh := hiWord r) in *.
  assert (Hc : u64 (ph + ql + rl) = ph + ql + rl) by (apply wrap_small; lia). rewrite Hc.
  destruct (words64 (ph + ql + rl) ltac:(lia)) as (Hcl & Hch & Ec). set (cl := loWord (ph + ql + rl)) in *. set (ch := hiWord (ph + ql + rl)) in *.
  assert (Hsh : u64 (Z.shiftl (ph + ql + rl) 32) = 2 ^ 32 * cl).
  { rewrite Z.shiftl_mul_pow2 by lia. unfold u64, wrap. symmetry. apply (Z.mod_unique_pos _ _ ch); lia. }
  rewrite Hsh. assert (Hlo : u64 (pl + 2 ^ 32 * cl) = pl + 2 ^ 32 * cl) by (apply wrap_small; lia). rewrite Hlo.
  assert (Hhi : 0 <= qh + rh + ch + t < 2 ^ 64) by lia. assert (Hu : u64 (qh + rh + ch + t) = qh + rh + ch + t) by (by apply wrap_small). rewrite Hu.
  assert (E : p + 2 ^ 32 * (q + r) + 2 ^ 64 * t = 2 ^ 64 * (qh + rh + ch + t) + (pl + 2 ^ 32 * cl)) by lia.
  rewrite E. f_equal; [apply (Z.div_unique_pos _ _ _ (pl + 2 ^ 32 * cl))|apply (Z.mod_unique_pos _ _ (qh + rh + ch + t))]; lia.
Qed.

#[export] Instance SINGLE_ok : FormatOk SINGLE.
Proof. split; [done|done|done|exact wideMultiply32_ok]. Qed.

#[export] Instance DOUBLE_ok : FormatOk DOUBLE.
Proof. split; [done|done|done|exact wideMultiply64_ok]. Qed.
