(* ===== verification/FloatBits.v ===== *)
(** * The bits of a floating-point number

    The fields of a representation, its sign and its magnitude; the significands that the
    routines take from it; the last steps that put a significand, an exponent and a sign
    together; and what it means that a routine delivers an exact value rounded. *)
From S2P Require Import Prelude Softfloat FloatSpec.

Lemma wrap_lor k x y : 0 <= k -> wrap k (Z.lor x y) = Z.lor (wrap k x) (wrap k y).
Proof. intros Hk. unfold wrap. rewrite <- !Z.land_ones by done. apply Z.land_lor_distr_l. Qed.

(** ** The fields of a representation *)

Section fields.
Context `{F : Format} `{!FormatOk F}.

Abbreviation s := (@significandBits F).
Abbreviation e := (@exponentBits F).
Abbreviation I := (@implicitBit F).
Abbreviation w := (@typeWidth F).
Abbreviation S_ := (@signBit F).

Lemma abs_mod r : Z.land r absMask = r mod S_.
Proof.
  pose proof s_pos. pose proof e_range. unfold absMask. rewrite sign_pow.
  rewrite Z.sub_1_r, <- Z.ones_equiv. apply Z.land_ones. lia.
Qed.

Lemma significand_mod r : Z.land r significandMask = r mod I.
Proof.
  pose proof s_pos. unfold significandMask. rewrite implicit_pow, Z.sub_1_r, <- Z.ones_equiv. apply Z.land_ones. lia.
Qed.

Lemma sign_split : S_ = 2 ^ e * I.
Proof. rewrite sign_pow, implicit_pow. apply pow_se. Qed.

Lemma width_pow : 2 ^ w = 2 * S_.
Proof. pose proof s_pos. pose proof e_range. rewrite width_split, sign_pow, Z.pow_add_r by lia. lia. Qed.

Lemma sizes : 2 <= I /\ 16 <= 2 ^ e /\ S_ = 2 ^ e * I /\ 2 ^ w = 2 * S_ /\ infRep = S_ - I /\ 16 * I <= S_ /\ 2 ^ e <= 2 ^ 28.
Proof.
  pose proof implicit_pos. pose proof e_range. rewrite inf_value, max_pow, sign_split, width_pow, sign_split.
  assert (2 ^ 4 <= 2 ^ e) by (apply Z.pow_le_mono_r; lia). assert (2 ^ e <= 2 ^ 28) by (apply Z.pow_le_mono_r; lia).
  change (2 ^ 4) with 16 in *. nia.
Qed.

(** The exponent and the fraction, with or without the sign. *)
Lemma exponent_field r : Z.land (Z.shiftr r s) maxExponent = r mod S_ / I.
Proof.
  pose proof s_pos. pose proof e_range. rewrite max_pow, Z.sub_1_r, <- Z.ones_equiv, Z.land_ones, Z.shiftr_div_pow2 by lia.
  pose proof sizes as (Hi & He & Hs & _). rewrite Hs, implicit_pow in *.
  rewrite (Z.mul_comm (2 ^ e)), Z.rem_mul_r by lia. rewrite Z.mul_comm, Z.div_add by lia.
  rewrite (Z.div_small (r mod 2 ^ s)) by (apply Z.mod_pos_bound; lia). lia.
Qed.

Lemma fraction_field r : Z.land r significandMask = r mod S_ mod I.
Proof.
  pose proof sizes as (Hi & He & Hs & _). rewrite significand_mod, Hs, (Z.mul_comm (2 ^ e)), Z.rem_mul_r by lia.
  rewrite Z.mul_comm, Z.mod_add, Z.mod_mod by lia. done.
Qed.

(** The highest bit. *)
Lemma land_top_bit n x : 0 <= n -> 0 <= x < 2 * 2 ^ n -> Z.land x (2 ^ n) = if 2 ^ n <=? x then 2 ^ n else 0.
Proof.
  intros Hn Hx. pose proof (pow_pos n Hn) as Hp. pose proof (Z.div_mod x (2 ^ n) ltac:(lia)) as E. pose proof (Z.mod_pos_bound x (2 ^ n) Hp).
  pose proof (land_split n Hn (x mod 2 ^ n) 0 (x / 2 ^ n) 1) as Hl. rewrite Z.land_0_r, Z.mul_1_r, !Z.add_0_l in Hl.
  replace (x mod 2 ^ n + 2 ^ n * (x / 2 ^ n)) with x in Hl by lia. rewrite Hl by lia. destruct (Z.leb_spec (2 ^ n) x).
  - assert (x / 2 ^ n = 1) as -> by (symmetry; apply (Z.div_unique_pos _ _ _ (x - 2 ^ n)); lia). change (Z.land 1 1) with 1. lia.
  - rewrite Z.div_small by lia. change (Z.land 0 1) with 0. lia.
Qed.

Lemma top_bit_set n x : 0 <= n -> 0 <= x < 2 * 2 ^ n -> nz (Z.land x (2 ^ n)) = (2 ^ n <=? x).
Proof. intros Hn Hx. rewrite land_top_bit by done. pose proof (pow_pos n Hn). destruct (_ <=? _); [apply nz_true; lia|done]. Qed.

Lemma sign_field r : 0 <= r < 2 ^ w -> Z.land r signBit = if S_ <=? r then S_ else 0.
Proof.
  pose proof e_range. pose proof s_pos. rewrite width_pow, sign_pow. intros Hr. apply land_top_bit; lia.
Qed.

Lemma negative_ok r : 0 <= r < 2 ^ w -> negative r = (S_ <=? r).
Proof.
  pose proof sizes as (Hi & He & Hs & Hw & _). intros Hr. unfold negative. rewrite sign_field by done.
  destruct (S_ <=? r); [apply nz_true; lia|done].
Qed.

Lemma abs_cases r : 0 <= r < 2 ^ w -> r mod S_ = (if negative r then r - S_ else r) /\ 0 <= r mod S_ < S_.
Proof.
  pose proof sizes as (Hi & He & Hs & Hw & _). intros Hr. rewrite negative_ok by done. split; [|apply Z.mod_pos_bound; nia].
  destruct (Z.leb_spec S_ r); [|apply Z.mod_small; lia].
  symmetry. apply (Z.mod_unique_pos _ _ 1); nia.
Qed.

(** A magnitude below the sign bit and a sign. *)
Definition sign_bit_of (b : bool) : Z := if b then S_ else 0.

Lemma with_sign_range b r : 0 <= r < S_ -> 0 <= r + sign_bit_of b < 2 ^ w.
Proof. pose proof sizes as (Hi & He & Hs & Hw & _). unfold sign_bit_of. destruct b; lia. Qed.

Lemma with_sign_fields b r : 0 <= r < S_ -> Z.land (r + sign_bit_of b) absMask = r /\ negative (r + sign_bit_of b) = b.
Proof.
  intros Hr. pose proof (with_sign_range b r Hr) as Hb. rewrite abs_mod, negative_ok by done. unfold sign_bit_of in *. destruct b.
  - split; [symmetry; apply (Z.mod_unique_pos _ _ 1); lia|apply Z.leb_le; lia].
  - rewrite Z.add_0_r. split; [apply Z.mod_small; lia|apply Z.leb_gt; lia].
Qed.

Lemma lor_sign b r : 0 <= r < S_ -> Z.lor r (sign_bit_of b) = r + sign_bit_of b.
Proof.
  intros Hr. pose proof s_pos. pose proof e_range. unfold sign_bit_of. destruct b; [|by rewrite Z.lor_0_r, Z.add_0_r].
  pose proof (lor_disjoint_add (s + e) ltac:(lia) r 1) as Hl. rewrite sign_pow in *. rewrite Z.mul_1_r in Hl. by apply Hl.
Qed.

Lemma sign_of_negative r : 0 <= r < 2 ^ w -> Z.land r signBit = sign_bit_of (negative r).
Proof. intros Hr. rewrite sign_field, negative_ok by done. done. Qed.

Lemma rep_small x : 0 <= x < 2 ^ w -> rep x = x.
Proof. apply wrap_small. Qed.

Lemma rep_sign r : 0 <= r < 2 ^ w -> r = r mod S_ + sign_bit_of (negative r).
Proof. intros Hr. destruct (abs_cases r Hr) as [-> _]. unfold sign_bit_of. destruct (negative r); lia. Qed.

Lemma value_eq r : value r = if negative r then - mag (r mod S_) else mag (r mod S_).
Proof. unfold value. rewrite abs_mod. destruct (negative r); lia. Qed.

Lemma lxor_parts a b x y : 0 <= a < S_ -> 0 <= b < S_ ->
  Z.lxor (a + sign_bit_of x) (b + sign_bit_of y) = Z.lxor a b + sign_bit_of (xorb x y) /\ 0 <= Z.lxor a b < S_.
Proof.
  intros Ha Hb. pose proof s_pos. pose proof e_range. rewrite sign_pow in *.
  split; [|apply lxor_range; [lia|done|done]].
  pose proof (lxor_split (s + e) ltac:(lia) a b (b2z x) (b2z y) Ha Hb) as Hl.
  assert (Hs : forall c, sign_bit_of c = 2 ^ (s + e) * b2z c) by (intros c; unfold sign_bit_of; rewrite sign_pow; destruct c; cbn [b2z]; lia).
  rewrite !Hs, Hl. do 2 f_equal. by destruct x, y.
Qed.

Lemma land_parts a b x y : 0 <= a < S_ -> 0 <= b < S_ ->
  Z.land (a + sign_bit_of x) (b + sign_bit_of y) = Z.land a b + sign_bit_of (x && y).
Proof.
  intros Ha Hb. pose proof s_pos. pose proof e_range. rewrite sign_pow in *.
  pose proof (land_split (s + e) ltac:(lia) a b (b2z x) (b2z y) Ha Hb) as Hl.
  assert (Hs : forall c, sign_bit_of c = 2 ^ (s + e) * b2z c) by (intros c; unfold sign_bit_of; rewrite sign_pow; destruct c; cbn [b2z]; lia).
  rewrite !Hs, Hl. do 2 f_equal. by destruct x, y.
Qed.

Lemma sign_differs a b : 0 <= a < 2 ^ w -> 0 <= b < 2 ^ w ->
  nz (Z.land (Z.lxor a b) signBit) = xorb (negative a) (negative b).
Proof.
  intros Ha Hb. pose proof sizes as (Hi & He & Hs & Hw & Hinf & H16 & _).
  destruct (abs_cases a Ha) as [_ Ha']. destruct (abs_cases b Hb) as [_ Hb'].
  rewrite (rep_sign a Ha), (rep_sign b Hb) at 1.
  destruct (lxor_parts (a mod S_) (b mod S_) (negative a) (negative b) Ha' Hb') as [-> Hr].
  apply (with_sign_fields (xorb (negative a) (negative b))) in Hr. apply Hr.
Qed.

Lemma lxor_sign_eq a b : 0 <= a < 2 ^ w -> 0 <= b < 2 ^ w ->
  (Z.lxor a b =? signBit) = (a mod S_ =? b mod S_) && xorb (negative a) (negative b).
Proof.
  intros Ha Hb. destruct (abs_cases a Ha) as [_ Ha']. destruct (abs_cases b Hb) as [_ Hb'].
  rewrite (rep_sign a Ha), (rep_sign b Hb) at 1.
  destruct (lxor_parts _ _ (negative a) (negative b) Ha' Hb') as [-> Hr]. pose proof sizes as (Hi & He & Hs & Hw & _).
  destruct (Z.eqb_spec (a mod S_) (b mod S_)) as [E|E]; cbn [andb].
  - rewrite E, Z.lxor_nilpotent. unfold sign_bit_of. destruct (xorb _ _); [apply Z.eqb_eq|apply Z.eqb_neq]; lia.
  - assert (Z.lxor (a mod S_) (b mod S_) <> 0) by (intros Hx; by apply Z.lxor_eq in Hx).
    apply Z.eqb_neq. unfold sign_bit_of. destruct (xorb _ _); lia.
Qed.

Lemma lxor_sign a : 0 <= a < 2 ^ w ->
  0 <= Z.lxor a signBit < 2 ^ w /\ Z.lxor a signBit mod S_ = a mod S_ /\ negative (Z.lxor a signBit) = negb (negative a).
Proof.
  intros Ha. destruct (abs_cases a Ha) as [_ Ha']. destruct (lxor_parts (a mod S_) 0 (negative a) true Ha') as [E _]; [lia|].
  rewrite <- rep_sign, Z.lxor_0_r, Z.add_0_l in E by done. change (sign_bit_of true) with S_ in E. rewrite E.
  destruct (with_sign_fields (xorb (negative a) true) _ Ha') as [H1 H2]. rewrite abs_mod in H1. rewrite H1, H2.
  split; [by apply with_sign_range|]. by destruct (negative a).
Qed.

Lemma sign_product a b : 0 <= a < 2 ^ w -> 0 <= b < 2 ^ w ->
  Z.land (Z.lxor a b) signBit = sign_bit_of (xorb (negative a) (negative b)).
Proof.
  intros Ha Hb. rewrite <- sign_differs by done. apply sign_of_negative, lxor_range; [pose proof s_pos; pose proof e_range; pose proof width_split; lia|done|done].
Qed.

(** ** Significands *)

Lemma lor_implicit q : 0 <= q < 2 * I -> Z.lor q implicitBit = if q <? I then q + I else q.
Proof.
  intros Hq. pose proof s_pos. pose proof (pow_pos s ltac:(lia)). pose proof (lor_split s ltac:(lia)) as Hl. rewrite implicit_pow in *.
  destruct (Z.ltb_spec q (2 ^ s)).
  - specialize (Hl q 0 0 1). rewrite Z.lor_0_r, Z.mul_0_r, Z.mul_1_r, Z.add_0_r, Z.add_0_l in Hl. rewrite Hl by lia. change (Z.lor 0 1) with 1. lia.
  - specialize (Hl (q - 2 ^ s) 0 1 1). rewrite Z.lor_0_r, Z.mul_1_r, Z.add_0_l in Hl.
    replace (q - 2 ^ s + 2 ^ s) with q in Hl by lia. rewrite Hl by lia. change (Z.lor 1 1) with 1. lia.
Qed.

(** Left to the place of a given bit. *)
Lemma log2_shift x n : 0 < x < 2 ^ (n + 1) -> 0 <= n ->
  0 <= n - Z.log2 x <= n /\ 2 ^ n <= x * 2 ^ (n - Z.log2 x) < 2 ^ (n + 1).
Proof.
  intros Hx Hn. pose proof (Z.log2_spec x ltac:(lia)) as [Hl Hu]. pose proof (Z.log2_nonneg x).
  assert (Z.log2 x <= n) by (assert (Z.log2 x < n + 1) by (apply Z.log2_lt_pow2; lia); lia). split; [lia|].
  replace n with (Z.log2 x + (n - Z.log2 x)) at 1 by lia.
  replace (n + 1) with (Z.succ (Z.log2 x) + (n - Z.log2 x)) at 1 by lia. rewrite !Z.pow_add_r by lia.
  pose proof (pow_pos (n - Z.log2 x) ltac:(lia)). nia.
Qed.

Lemma clz_diff x n : 0 < x -> 0 <= n -> rep_clz x - rep_clz (2 ^ n) = n - Z.log2 x.
Proof. intros Hx Hn. unfold rep_clz, builtin_clz. rewrite Z.log2_pow2 by lia. lia. Qed.

Lemma normalize_ok f : 0 < f < I -> exists k, 1 <= k <= s /\ normalize f = (f * 2 ^ k, 1 - k) /\ I <= f * 2 ^ k < 2 * I.
Proof.
  intros Hf. pose proof s_pos. pose proof sizes as (Hi & He & Hs & Hw & _). unfold normalize. rewrite implicit_pow in *.
  assert (Hlog : Z.log2 f < s) by (apply Z.log2_lt_pow2; lia).
  destruct (log2_shift f s) as [Hk Hr]; [rewrite Z.pow_add_r by lia; lia|lia|].
  rewrite clz_diff by lia. exists (s - Z.log2 f). rewrite Z.pow_add_r in Hr by lia. change (2 ^ 1) with 2 in Hr. rewrite Z.shiftl_mul_pow2 by lia.
  split; [lia|]. split; [|lia]. f_equal. apply rep_small. nia.
Qed.

(** The significand of [a], which is not zero or infinite, is [q] at the exponent [E]. *)
Definition scaled (N m q E : Z) : Prop := I <= q < 2 * I /\ 1 - s <= E < maxExponent /\ m * 2 ^ N = q * 2 ^ (E - 1 + N).

Lemma unpack_ok r N : 0 <= r < 2 ^ w -> 0 < r mod S_ < infRep -> s <= N ->
  exists E q, unpack r = (E, 8 * q) /\ scaled N (mag (r mod S_)) q E.
Proof.
  intros Hr Hm HN. pose proof s_pos. pose proof e_range. pose proof sizes as (Hi & He & Hs & Hw & Hinf & H16 & _).
  pose proof inf_value as Hiv. unfold unpack. rewrite exponent_field, fraction_field.
  set (m := r mod S_) in *. pose proof (Z.div_mod m I ltac:(lia)) as Em. pose proof (Z.mod_pos_bound m I ltac:(lia)) as Hf.
  assert (HE : 0 <= m / I < maxExponent) by (split; [apply Z.div_pos; lia|apply Z.div_lt_upper_bound; lia]).
  assert (Hsh : forall q, 0 <= q < 2 * I -> rep (Z.shiftl q 3) = 8 * q).
  { intros q Hq. rewrite Z.shiftl_mul_pow2 by lia. change (2 ^ 3) with 8. rewrite rep_small by nia. lia. }
  unfold mag, scaled. destruct (Z.eqb_spec (m / I) 0) as [E0|E0].
  - destruct (normalize_ok (m mod I)) as (k & Hk & -> & Hq); [nia|]. exists (1 - k), (m mod I * 2 ^ k).
    rewrite lor_implicit by lia. rewrite (proj2 (Z.ltb_ge _ _)), Hsh by lia.
    split; [done|]. split; [lia|]. split; [lia|].
    rewrite <- Z.mul_assoc, <- Z.pow_add_r by lia. do 2 f_equal. lia.
  - exists (m / I), (I + m mod I). rewrite lor_implicit, (proj2 (Z.ltb_lt _ _)), Hsh by lia.
    split; [f_equal; lia|]. split; [lia|]. split; [lia|].
    rewrite <- Z.mul_assoc, <- Z.pow_add_r by lia. done.
Qed.

(** ** Shifts that keep a sticky bit *)

Lemma shift_sticky_fold x n : 0 <= x < 2 ^ w -> 1 <= n < w -> shift_sticky x n = fold_low x n.
Proof.
  intros Hx Hn. unfold shift_sticky, fold_low. rewrite Z.shiftr_div_pow2 by lia. f_equal. f_equal.
  rewrite Z.shiftl_mul_pow2 by lia. unfold rep, wrap. replace w with (n + (w - n)) at 2 by lia.
  rewrite Z.pow_add_r by lia. pose proof (pow_pos (w - n) ltac:(lia)). pose proof (pow_pos n ltac:(lia)).
  rewrite Z.mul_mod_distr_r by lia. unfold nz. f_equal. pose proof (Z.mod_pos_bound x (2 ^ n) ltac:(lia)).
  destruct (Z.eqb_spec (x mod 2 ^ n) 0) as [->|Hne]; [done|]. apply Z.eqb_neq. nia.
Qed.

Lemma fold_low_bound x n M : 0 <= x -> 1 <= n -> x / 2 ^ n < 2 * M -> 0 <= fold_low x n < 2 * M.
Proof.
  intros Hx Hn Hb. pose proof (pow_pos n ltac:(lia)). pose proof (Z.div_pos x (2 ^ n) Hx ltac:(lia)).
  unfold fold_low. rewrite lor_bit0 by done. destruct (_ && _) eqn:E; [|lia].
  apply andb_true_iff in E as [_ E]. apply Z.even_spec in E as [j Ej]. lia.
Qed.

(** ** Putting a result together *)

(** The last steps, on a significand in place: the fraction of [q] under the exponent [E]. *)
Lemma insert_exponent q E b : 0 <= q < 2 * I -> 0 <= E -> (if I <=? q then 1 <= E else E = 0) -> Z.max 0 (E - 1) * I + q < infRep ->
  Z.lor (Z.lor (Z.land q significandMask) (rep (Z.shiftl E s))) (sign_bit_of b) = Z.max 0 (E - 1) * I + q + sign_bit_of b.
Proof.
  intros Hq HE Hn Hinf. pose proof s_pos. pose proof sizes as (Hi & He & Hs & Hw & HinfI & H16 & _).
  rewrite significand_mod, Z.shiftl_mul_pow2, <- implicit_pow by lia.
  assert (Hm : q mod I = if I <=? q then q - I else q).
  { destruct (Z.leb_spec I q); [symmetry; apply (Z.mod_unique_pos _ _ 1); lia|apply Z.mod_small; lia]. }
  assert (Hv : q mod I + E * I = Z.max 0 (E - 1) * I + q).
  { rewrite Hm. destruct (Z.leb_spec I q); [|lia]. rewrite Z.max_r by lia. lia. }
  pose proof (Z.mod_pos_bound q I ltac:(lia)). rewrite rep_small by lia.
  pose proof (lor_disjoint_add s ltac:(lia) (q mod I) E) as Hl. rewrite implicit_pow in *. rewrite (Z.mul_comm E), Hl by lia.
  rewrite (Z.mul_comm _ E), Hv. apply lor_sign. lia.
Qed.

Lemma even_sign r b : Z.even (r + sign_bit_of b) = Z.even r.
Proof.
  assert (Hs : Z.even (sign_bit_of b) = true).
  { pose proof s_pos. pose proof e_range. unfold sign_bit_of. destruct b; [|done]. rewrite sign_pow, Z.even_pow by lia. done. }
  rewrite Z.even_add, Hs. by destruct (Z.even r).
Qed.

Lemma land_1 r : Z.land r 1 = if Z.even r then 0 else 1.
Proof. change 1 with (Z.ones 1) at 1. rewrite Z.land_ones by lia. apply Zmod_even. Qed.

Lemma rounded_range K S r : 0 <= r < infRep -> 0 <= rounded K S r <= infRep.
Proof. intros Hr. unfold rounded. destruct (Z.compare _ _), (Z.even r); lia. Qed.

(** ** What a routine delivers *)

(** What [r] must be for the exact result [num / den]; [b] is whether a zero is negative. *)
Definition delivers (num den : Z) (b : bool) (r : Z) : Prop :=
  0 <= r < 2 ^ w /\
  if num =? 0 then r = sign_bit_of b else nearest (Z.abs num) den (Z.land r absMask) /\ negative r = (num <? 0).

Lemma eq_delivers x x' den b r : x = x' -> delivers x den b r -> delivers x' den b r.
Proof. by intros ->. Qed.

Lemma nearest_exact r : 0 <= r <= infRep -> nearest (mag r) 1 r.
Proof.
  intros Hr. split; [done|]. intros r' Hr'. rewrite !Z.mul_1_l, Z.sub_diag. destruct (decide (r = r')) as [->|Hne].
  - right. rewrite Z.sub_diag. split; [done|by left].
  - left. assert (mag r <> mag r') by (intros E; apply mag_inj in E; lia). lia.
Qed.

Lemma mag_pos r : 0 < r -> 0 < mag r.
Proof. intros Hr. pose proof (mag_mono 0 r ltac:(lia) Hr). pose proof (mag_nonneg 0 ltac:(lia)). lia. Qed.

Lemma delivers_sign m den (b z : bool) r : 0 < m -> nearest m den r -> delivers (if b then - m else m) den z (r + sign_bit_of b).
Proof.
  intros Hm Hn. pose proof sizes as (Hi & He & Hs & Hw & Hinf & H16 & _). assert (Hr : 0 <= r < S_) by (destruct Hn; lia).
  destruct (with_sign_fields b r Hr) as [Ha Hng]. split; [by apply with_sign_range|]. rewrite Ha, Hng.
  replace (Z.abs (if b then - m else m)) with m by (destruct b; lia).
  destruct b; rewrite (proj2 (Z.eqb_neq _ 0)) by lia; (split; [done|]); symmetry; [apply Z.ltb_lt|apply Z.ltb_ge]; lia.
Qed.

Lemma delivers_self r z : 0 <= r < 2 ^ w -> 0 < r mod S_ <= infRep -> delivers (value r) 1 z r.
Proof.
  intros Hr Hm. rewrite value_eq. assert (Hp : 0 < mag (r mod S_)) by (apply mag_pos; lia).
  assert (Hn : nearest (mag (r mod S_)) 1 (r mod S_)) by (apply nearest_exact; lia).
  pose proof (delivers_sign _ 1 (negative r) z _ Hp Hn) as Hd. by rewrite <- (rep_sign r Hr) in Hd.
Qed.

Lemma value_zero r : r mod S_ = 0 -> value r = 0.
Proof. intros E. rewrite value_eq, E. pose proof implicit_pos. unfold mag. rewrite Z.div_0_l, Z.mod_0_l by lia. by destruct (negative r). Qed.

(** ** What is not a number *)

Lemma le_lor x y : 0 <= x -> 0 <= y -> x <= Z.lor x y.
Proof.
  intros Hx Hy. apply Z.ldiff_le; [by apply Z.lor_nonneg|]. apply Z.bits_inj'. intros n Hn.
  rewrite Z.ldiff_spec, Z.lor_spec, Z.bits_0. by destruct (Z.testbit x n), (Z.testbit y n).
Qed.

Lemma quiet_nan a : 0 <= a -> nan a -> nan (Z.lor a quietBit).
Proof.
  unfold nan. intros Ha Hn. rewrite Z.land_lor_distr_l. pose proof s_pos. pose proof e_range.
  assert (Hq : 0 <= quietBit) by (unfold quietBit; apply Z.shiftr_nonneg; pose proof implicit_pos; lia).
  assert (Hm : 0 <= absMask) by (unfold absMask; rewrite sign_pow; pose proof (pow_pos (s + e)); lia).
  pose proof (le_lor (Z.land a absMask) (Z.land quietBit absMask)) as Hl. rewrite !Z.land_nonneg in Hl. lia.
Qed.

Lemma qnan_nan : nan qnanRep.
Proof.
  pose proof s_pos. pose proof e_range. pose proof sizes as (Hi & He & Hs & Hw & HinfI & H16 & _). unfold nan, qnanRep. rewrite abs_mod.
  change exponentMask with infRep. unfold quietBit. rewrite Z.shiftr_div_pow2 by lia. change (2 ^ 1) with 2.
  pose proof inf_value as Hiv. pose proof (lor_disjoint_add s ltac:(lia) (I / 2) maxExponent) as Hl. rewrite implicit_pow in *.
  assert (1 <= 2 ^ s / 2 < 2 ^ s) by (split; [apply Z.div_le_lower_bound|apply Z.div_lt_upper_bound]; lia).
  rewrite Z.lor_comm, Hiv, (Z.mul_comm maxExponent), Hl by lia. rewrite Z.mod_small; lia.
Qed.

End fields.
