(* ===== verification/SoftAdd.v ===== *)
(** * Addition and subtraction ([fp_add_impl.inc])

    The sum is the representation nearest to the exact sum, ties to even, with its sign;
    the cases of zeros, infinities and NaNs. *)
From S2P Require Import Prelude Softfloat FloatSpec FloatBits.

Section addition.
Context `{F : Format} `{!FormatOk F}.

Abbreviation s := (@significandBits F).
Abbreviation e := (@exponentBits F).
Abbreviation I := (@implicitBit F).
Abbreviation w := (@typeWidth F).
Abbreviation S_ := (@signBit F).

(** ** Alignment *)

Lemma align_b_ok q d : I <= q < 2 * I -> 0 <= d ->
  stands 1 (8 * q) (2 ^ d) (align_b (8 * q) d) /\ 0 < align_b (8 * q) d /\
  (d <= 1 -> 8 * q = 2 ^ d * align_b (8 * q) d) /\ (2 <= d -> align_b (8 * q) d <= 4 * I).
Proof.
  intros Hq Hd. pose proof sizes as (Hi & He & Hs & Hw & Hinf & H16 & _). unfold align_b.
  destruct (nz d) eqn:Ed; [apply nz_true in Ed|apply nz_false in Ed as ->].
  - destruct (Z.ltb_spec d w) as [Hdw|Hdw].
    + rewrite shift_sticky_fold by lia. pose proof (pow_pos d Hd) as Hp.
      assert (Hst : stands 1 (8 * q) (1 * 2 ^ d) (fold_low (8 * q) d)).
      { apply (stands_fold 0); [lia|lia|lia|lia|]. apply stands_exact; lia. }
      rewrite Z.mul_1_l in Hst. split; [done|].
      assert (Hp1 : d = 1 -> fold_low (8 * q) d = 4 * q).
      { intros ->. unfold fold_low. change (2 ^ 1) with 2. replace (8 * q) with (4 * q * 2) by lia.
        rewrite Z.div_mul, Z.mod_mul by lia. change (b2z (nz 0)) with 0. by rewrite Z.lor_0_r. }
      split; [apply (proj1 (proj2 (Hst 0))); lia|].
      split; [intros Hd1; assert (d = 1) as Ed1 by lia; rewrite Hp1 by done; rewrite Ed1; lia|].
      intros Hd2. destruct (Hst (2 * I)) as [Hst1 _]. assert (2 ^ 2 <= 2 ^ d) by (apply Z.pow_le_mono_r; lia).
      change (2 ^ 2) with 4 in *. change (2 ^ 1) with 2 in *. nia.
    + assert (2 ^ w <= 2 ^ d) by (apply Z.pow_le_mono_r; pose proof s_pos; pose proof e_range; pose proof width_split; lia).
      split; [intros j; change (2 ^ 1) with 2; split; split; intros; nia|]. split; [lia|]. split; [|lia].
      pose proof s_pos; pose proof e_range; pose proof width_split; lia.
  - change (2 ^ 0) with 1. split; [apply (stands_weaken 0); [lia|apply stands_exact; lia]|]. lia.
Qed.

Lemma align_b_le q d : I <= q < 2 * I -> 0 <= d -> align_b (8 * q) d <= 8 * q.
Proof.
  intros Hq Hd. destruct (align_b_ok q d Hq Hd) as (Hst & _). pose proof (Hst (4 * q)) as [_ Hj]. pose proof (pow_pos d Hd).
  change (2 ^ 1) with 2 in Hj. nia.
Qed.

(** ** The sum's significand *)

(** The significand [S] at the exponent [E], with three bits below its unit, for [x]. *)
Definition stage (N x S E : Z) : Prop :=
  exists num den, 0 < den /\ stands 2 num den S /\ 8 * I <= S < 16 * I /\ 0 <= E - 1 + N /\
    num * 2 ^ (E - 1 + N) = 8 * x * den * 2 ^ N.

Lemma carry_bit S : 0 <= S < 32 * I -> nz (Z.land S (Z.shiftl implicitBit 4)) = (16 * I <=? S).
Proof.
  intros HS. pose proof s_pos. assert (Hp : 2 ^ (s + 4) = 16 * I) by (rewrite implicit_pow, Z.pow_add_r by lia; lia).
  rewrite Z.shiftl_mul_pow2 by lia. change (2 ^ 4) with 16. rewrite (Z.mul_comm I), <- Hp. apply top_bit_set; lia.
Qed.

Lemma carry_fold S : 0 <= S -> Z.lor (Z.shiftr S 1) (b2z (nz (Z.land S 1))) = fold_low S 1.
Proof. intros HS. unfold fold_low. rewrite Z.shiftr_div_pow2 by lia. do 3 f_equal. apply (Z.land_ones _ 1). lia. Qed.

Section significands.
Context (N ma mb qa qb Ea Eb : Z) (HN : N = 2 * s + 8).
Context (Ha : scaled N ma qa Ea) (Hb : scaled N mb qb Eb) (Hd : Eb <= Ea).

Abbreviation d := (Ea - Eb).
Abbreviation B := (align_b (8 * qb) d).

Lemma scaled_sum k : (2 ^ d * (8 * qa) + k * (8 * qb)) * 2 ^ (Ea - 1 + N) = 8 * (ma + k * mb) * 2 ^ d * 2 ^ N.
Proof.
  destruct Ha as (_ & HEa & Ema), Hb as (_ & HEb & Emb). pose proof s_pos.
  assert (Hp : 2 ^ (Ea - 1 + N) = 2 ^ d * 2 ^ (Eb - 1 + N)) by (rewrite <- Z.pow_add_r by lia; f_equal; lia).
  transitivity (8 * 2 ^ d * (ma * 2 ^ N + k * (mb * 2 ^ N))); [|ring]. rewrite Ema, Emb. rewrite Hp at 1.
  rewrite Hp. ring.
Qed.

Lemma add_significands_sum : exists S E, add_significands false (8 * qa) B Ea = Some (S, E) /\ stage N (ma + mb) S E.
Proof.
  pose proof sizes as (Hi & He & Hs & Hw & Hinf & H16 & _). pose proof s_pos. pose proof (scaled_sum 1) as Hsum. rewrite !Z.mul_1_l in Hsum.
  destruct Ha as (Hqa & HEa & _), Hb as (Hqb & HEb & _). destruct (align_b_ok qb d Hqb ltac:(lia)) as (Hst & Hpos & _).
  pose proof (pow_pos d ltac:(lia)) as Hp. apply (stands_add _ _ _ _ (4 * qa)) in Hst. change (2 ^ 1) with 2 in Hst.
  replace (2 * (4 * qa)) with (8 * qa) in Hst by lia.
  pose proof (align_b_le qb d Hqb ltac:(lia)) as HB.
  unfold add_significands. rewrite rep_small, carry_bit by lia. destruct (Z.leb_spec (16 * I) (8 * qa + B)) as [Hc|Hc].
  - rewrite carry_fold by lia. do 2 eexists. split; [done|]. exists (2 ^ d * (8 * qa) + 8 * qb), (2 ^ d * 2 ^ 1).
    split; [lia|]. split; [apply (stands_weaken 1); [lia|]; apply (stands_fold 1); [lia..|done]|].
    split; [|split; [lia|]].
    + assert (fold_low (8 * qa + B) 1 < 2 * (8 * I)); [|].
      { apply fold_low_bound; [lia|lia|]. change (2 ^ 1) with 2. apply Z.div_lt_upper_bound; lia. }
      split; [|lia]. unfold fold_low. change (2 ^ 1) with 2. assert (8 * I <= (8 * qa + B) / 2) by (apply Z.div_le_lower_bound; lia).
      rewrite lor_bit0 by lia. destruct (_ && _); lia.
    + replace (Ea + 1 - 1 + N) with (Ea - 1 + N + 1) by lia. rewrite Z.pow_add_r by lia. rewrite Z.mul_assoc, Hsum. ring.
  - do 2 eexists. split; [done|]. exists (2 ^ d * (8 * qa) + 8 * qb), (2 ^ d).
    split; [lia|]. split; [by apply (stands_weaken 1); [lia|]|]. split; [lia|]. split; [lia|done].
Qed.

Lemma difference_le : mb <= ma -> qb <= 2 ^ d * qa.
Proof.
  destruct Ha as (_ & HEa & Ema), Hb as (_ & HEb & Emb). pose proof s_pos. intros Hle.
  assert (Hp : 2 ^ (Ea - 1 + N) = 2 ^ d * 2 ^ (Eb - 1 + N)) by (rewrite <- Z.pow_add_r by lia; f_equal; lia).
  pose proof (pow_pos N ltac:(lia)). pose proof (pow_pos (Eb - 1 + N) ltac:(lia)). rewrite Hp in Ema.
  apply (Z.mul_le_mono_pos_r _ _ (2 ^ (Eb - 1 + N))); [done|]. nia.
Qed.

Lemma add_significands_difference : mb <= ma ->
  match add_significands true (8 * qa) B Ea with
  | None => ma = mb
  | Some (M, E) => stage N (ma - mb) M E /\ mb < ma
  end.
Proof.
  intros Hle. apply difference_le in Hle.
  pose proof sizes as (Hi & He & Hs & Hw & Hinf & H16 & _). pose proof s_pos. pose proof (scaled_sum (-1)) as Hsum.
  destruct Ha as (Hqa & HEa & Ema), Hb as (Hqb & HEb & Emb). destruct (align_b_ok qb d Hqb ltac:(lia)) as (Hst & Hpos & Hex & Hsmall).
  pose proof (pow_pos d ltac:(lia)) as Hp. apply (stands_sub _ _ _ _ (4 * qa)) in Hst. change (2 ^ 1) with 2 in Hst.
  replace (2 * (4 * qa)) with (8 * qa) in Hst by lia.
  replace (2 ^ d * (8 * qa) + -1 * (8 * qb)) with (2 ^ d * (8 * qa) - 8 * qb) in Hsum by lia.
  replace (ma + -1 * mb) with (ma - mb) in Hsum by lia.
  set (num := 2 ^ d * (8 * qa) - 8 * qb) in *. set (S := 8 * qa - B) in *.
  destruct (stands_zero _ _ _ _ Hst) as [Hz1 Hz2].
  assert (HS0 : 0 <= S < 16 * I) by (unfold S, num in *; lia).
  pose proof (pow_pos N ltac:(lia)) as HpN. pose proof (pow_pos (Ea - 1 + N) ltac:(lia)) as HpE.
  assert (Hnum : 0 < S -> mb < ma).
  { intros HS. assert (Hn : 0 < num * 2 ^ (Ea - 1 + N)) by (apply Z.mul_pos_pos; [by apply Hz1|done]).
    apply Z.nle_gt. intros Hm. assert ((ma - mb) * (2 ^ d * 2 ^ N) <= 0) by (apply Z.mul_nonpos_nonneg; lia). lia. }
  unfold add_significands. fold S. rewrite rep_small by lia. destruct (Z.eqb_spec S 0) as [HS|HS].
  - assert (Hn : num = 0) by lia. rewrite Hn in Hsum. assert (Hz : (ma - mb) * (2 ^ d * 2 ^ N) = 0) by lia. apply Z.mul_eq_0 in Hz. lia.
  - rewrite Z.shiftl_mul_pow2 by lia. change (2 ^ 3) with 8. rewrite (Z.mul_comm I). destruct (Z.ltb_spec S (8 * I)) as [Hc|Hc].
    + assert (H8 : 8 * I = 2 ^ (s + 3)) by (rewrite implicit_pow, Z.pow_add_r by lia; lia).
      assert (H16' : 16 * I = 2 ^ (s + 3 + 1)) by (rewrite Z.pow_add_r, <- H8 by lia; lia).
      destruct (log2_shift S (s + 3)) as [Hk Hr]; [lia|lia|]. rewrite H8, clz_diff by lia.
      assert (1 <= s + 3 - Z.log2 S) by (assert (Z.log2 S < s + 3) by (apply Z.log2_lt_pow2; lia); lia).
      set (c := s + 3 - Z.log2 S) in *. rewrite <- H8, <- H16' in Hr. rewrite Z.shiftl_mul_pow2, rep_small by lia.
      split; [|apply Hnum; lia]. exists (num * 2 ^ c), (2 ^ d). split; [lia|]. split; [|split; [done|split; [lia|]]].
      * destruct (decide (c = 1)) as [Ec|Ec]; [rewrite Ec; by apply (stands_shl 1 _ _ _ 1)|].
        assert (2 ^ 2 <= 2 ^ c) by (apply Z.pow_le_mono_r; lia). change (2 ^ 2) with 4 in *.
        assert (S * 4 <= S * 2 ^ c) by (apply Z.mul_le_mono_nonneg_l; lia). assert (d <= 1) by (unfold S in *; lia).
        apply (stands_weaken 0); [lia|]. apply stands_exact; [done|]. specialize (Hex ltac:(done)). unfold num, S. lia.
      * rewrite <- Hsum, <- Z.mul_assoc, <- Z.pow_add_r by lia. do 2 f_equal. lia.
    + split; [|apply Hnum; lia]. exists num, (2 ^ d).
      split; [lia|]. split; [by apply (stands_weaken 1); [lia|]|]. split; [lia|]. split; [lia|done].
Qed.
End significands.

(** ** The rounding *)

Lemma round_ok M r b : 0 <= r < infRep ->
  (let result := if 0x4 <? Z.land M 0x7 then rep (r + sign_bit_of b + 1) else r + sign_bit_of b in
   if Z.land M 0x7 =? 0x4 then rep (result + Z.land result 1) else result) = rounded 3 M r + sign_bit_of b.
Proof.
  intros Hr. pose proof sizes as (Hi & He & Hs & Hw & Hinf & H16 & _).
  assert (Hr1 : 0 <= r + 1 < S_) by lia. assert (Hr0 : 0 <= r < S_) by lia.
  pose proof (with_sign_range b _ Hr1). pose proof (with_sign_range b _ Hr0).
  change 0x7 with (Z.ones 3). rewrite Z.land_ones by lia. unfold rounded. change (2 ^ (3 - 1)) with 4. cbn zeta.
  destruct (Z.compare_spec (M mod 2 ^ 3) 4) as [E|E|E].
  - rewrite E. cbn [Z.ltb Z.eqb Z.compare Pos.compare Pos.compare_cont Pos.eqb]. rewrite land_1, even_sign.
    destruct (Z.even r); rewrite rep_small; lia.
  - rewrite (proj2 (Z.ltb_ge _ _)), (proj2 (Z.eqb_neq _ _)) by lia. done.
  - rewrite (proj2 (Z.ltb_lt _ _)), (proj2 (Z.eqb_neq _ _)) by lia. rewrite rep_small; lia.
Qed.

Lemma add_round_ok x M E b : 0 < x -> stage (2 * s + 8) x M E ->
  exists r, add_round M E (sign_bit_of b) = r + sign_bit_of b /\ nearest x 1 r.
Proof.
  intros Hx (num & den & Hden & Hst & HM & HE & Heq). pose proof s_pos. pose proof sizes as (Hi & He & Hs & Hw & Hinf & H16 & _).
  pose proof (pow_pos (2 * s + 8) ltac:(lia)) as HpN. pose proof inf_value as Hiv. pose proof max_pow as Hmax.
  assert (Hlow : den * (8 * I) <= num).
  { destruct (Hst (2 * I)) as [H1 _]. change (2 ^ 2) with 4 in H1. replace (4 * (2 * I)) with (8 * I) in H1 by lia. lia. }
  assert (Hhigh : num < den * (16 * I)).
  { destruct (Hst (4 * I)) as [H1 _]. change (2 ^ 2) with 4 in H1. replace (4 * (4 * I)) with (16 * I) in H1 by lia. lia. }
  assert (Hscale : forall t, 0 <= t -> E - 1 = t -> num * 2 ^ t = 8 * x * den).
  { intros t Ht Et. rewrite Et, Z.pow_add_r in Heq by lia. apply (Z.mul_reg_r _ _ (2 ^ (2 * s + 8))); lia. }
  unfold add_round. destruct (Z.leb_spec maxExponent E) as [Hov|Hov].
  - exists infRep. split; [apply lor_sign; lia|]. apply nearest_inf; [lia|].
    assert (Hm : mag infRep = I * 2 ^ (maxExponent - 1)).
    { rewrite Hiv. replace (maxExponent * I) with ((maxExponent - 1) * I + I) by lia. apply mag_at; lia. }
    rewrite Hm. specialize (Hscale (E - 1) ltac:(lia) eq_refl).
    assert (2 ^ (maxExponent - 1) <= 2 ^ (E - 1)) by (apply Z.pow_le_mono_r; lia).
    assert (0 < 2 ^ (maxExponent - 1)) by (apply pow_pos; lia).
    assert (den * (8 * I) * 2 ^ (maxExponent - 1) <= num * 2 ^ (E - 1)) by (apply Z.mul_le_mono_nonneg; nia).
    apply (Z.mul_le_mono_pos_l _ _ (8 * den)); lia.
  - destruct (Z.leb_spec E 0) as [Hden0|Hnorm].
    + assert (Hnum : num = 8 * x * den * 2 ^ (1 - E)).
      { pose proof (pow_pos (E - 1 + (2 * s + 8)) HE). apply (Z.mul_reg_r _ _ (2 ^ (E - 1 + (2 * s + 8)))); [lia|].
        rewrite Heq, <- (Z.mul_assoc _ (2 ^ (1 - E))), <- Z.pow_add_r by lia. do 2 f_equal. lia. }
      pose proof (pow_pos (1 - E) ltac:(lia)) as Hpn.
      assert (Hsmall : 2 ^ (1 - E) < 2 ^ (s + 1)).
      { rewrite Z.pow_add_r, <- implicit_pow by lia. apply (Z.mul_lt_mono_pos_l (8 * den)); [lia|]. nia. }
      apply Z.pow_lt_mono_r_iff in Hsmall; [|lia|lia]. pose proof width_split. pose proof e_range.
      rewrite shift_sticky_fold by lia. set (M' := fold_low M (1 - E)).
      assert (Hst' : stands 1 num (den * 2 ^ (1 - E)) M') by (apply (stands_fold 2); [lia|lia|lia|lia|done]).
      assert (HM' : 0 <= M' < 2 * (4 * I)).
      { apply fold_low_bound; [lia|lia|]. apply Z.div_lt_upper_bound; [lia|].
        assert (2 ^ 1 <= 2 ^ (1 - E)) by (apply Z.pow_le_mono_r; lia). change (2 ^ 1) with 2 in *. nia. }
      assert (Hq : 0 <= M' / 2 ^ 3 < I).
      { change (2 ^ 3) with 8. split; [apply Z.div_pos; lia|apply Z.div_lt_upper_bound; lia]. }
      exists (rounded 3 M' (M' / 2 ^ 3)). split.
      * rewrite (Z.shiftr_div_pow2 M' 3), insert_exponent by (rewrite ?(proj2 (Z.leb_gt _ _)) by lia; lia).
        cbn [Z.max Z.compare Z.sub Z.add Z.opp]. rewrite Z.mul_0_l, Z.add_0_l. apply round_ok. lia.
      * apply (nearest_same (num * 2 ^ 0) (den * 2 ^ (1 - E) * 2 ^ 3)); [lia|lia|rewrite Hnum; ring|].
        replace (M' / 2 ^ 3) with (0 * I + M' / 2 ^ 3) at 1 by lia.
        apply nearest_rounded; [lia|lia|by apply (stands_weaken 1)|done|lia|lia|lia|lia].
    + set (r := (E - 1) * I + M / 2 ^ 3).
      assert (Hq : I <= M / 2 ^ 3 < 2 * I).
      { change (2 ^ 3) with 8. split; [apply Z.div_le_lower_bound; lia|apply Z.div_lt_upper_bound; lia]. }
      assert (Hr : 0 <= r < infRep) by (unfold r; nia).
      exists (rounded 3 M r). split.
      * rewrite (Z.shiftr_div_pow2 M 3), insert_exponent by (rewrite ?(proj2 (Z.leb_le _ _)), ?Z.max_r by lia; unfold r in *; lia).
        rewrite Z.max_r by lia. fold r. by apply round_ok.
      * apply (nearest_same (num * 2 ^ (E - 1)) (den * 2 ^ 3)); [lia|lia|rewrite Hscale by lia; change (2 ^ 3) with 8; lia|].
        apply nearest_rounded; [lia|done|done|done|lia|lia|lia|unfold r in *; lia].
Qed.

Lemma scaled_le ma mb qa qb Ea Eb : mb <= ma ->
  scaled (2 * s + 8) ma qa Ea -> scaled (2 * s + 8) mb qb Eb -> Eb <= Ea.
Proof.
  pose proof s_pos. intros Hm (Hqa & HEa & Ema) (Hqb & HEb & Emb). apply Z.nlt_ge. intros Hlt. pose proof implicit_pos.
  pose proof (pow_pos (2 * s + 8) ltac:(lia)). pose proof (pow_pos (Ea - 1 + (2 * s + 8)) ltac:(lia)).
  assert (Hp : 2 ^ (Eb - 1 + (2 * s + 8)) = 2 ^ (Eb - Ea) * 2 ^ (Ea - 1 + (2 * s + 8))) by (rewrite <- Z.pow_add_r by lia; f_equal; lia).
  assert (2 ^ 1 <= 2 ^ (Eb - Ea)) by (apply Z.pow_le_mono_r; lia). change (2 ^ 1) with 2 in *. rewrite Hp, Z.mul_assoc in Emb.
  assert (qa * 2 ^ (Ea - 1 + (2 * s + 8)) < qb * 2 ^ (Eb - Ea) * 2 ^ (Ea - 1 + (2 * s + 8))).
  { apply Z.mul_lt_mono_pos_r; [done|]. nia. }
  nia.
Qed.

(** ** The sum *)

(** The body after the exchange. *)
Definition add_ordered (aRep bRep : Z) : Z :=
  let '(aExponent, aSignificand) := unpack aRep in
  let '(bExponent, bSignificand) := unpack bRep in
  match add_significands (nz (Z.land (Z.lxor aRep bRep) signBit)) aSignificand
          (align_b bSignificand (u32 (aExponent - bExponent))) aExponent with
  | None => 0
  | Some (aSignificand, aExponent) => add_round aSignificand aExponent (Z.land aRep signBit)
  end.

Lemma addXf3_eq a b : addXf3 a b =
  match add_special a b with
  | Some r => r
  | None => if Z.land a absMask <? Z.land b absMask then add_ordered b a else add_ordered a b
  end.
Proof. unfold addXf3. destruct (add_special a b); [done|]. by destruct (_ <? _). Qed.

Lemma add_ordered_ok a b : 0 <= a < 2 ^ w -> 0 <= b < 2 ^ w -> 0 < b mod S_ <= a mod S_ -> a mod S_ < infRep ->
  delivers (value a + value b) 1 (negative a && negative b) (add_ordered a b).
Proof.
  intros Ha Hb Hab Hinf. pose proof s_pos. pose proof e_range. pose proof sizes as (Hi & He & Hs & Hw & HinfI & H16 & He28).
  pose proof width_range. pose proof width_split. pose proof max_pow.
  destruct (unpack_ok a (2 * s + 8)) as (Ea & qa & Ua & Sa); [done|lia|lia|].
  destruct (unpack_ok b (2 * s + 8)) as (Eb & qb & Ub & Sb); [done|lia|lia|].
  assert (Hm : mag (b mod S_) <= mag (a mod S_)) by (apply mag_mono_le; lia).
  pose proof (mag_pos (b mod S_) ltac:(lia)) as Hbp.
  unfold add_ordered. rewrite Ua, Ub, sign_differs by done.
  assert (HE : Eb <= Ea) by (by apply (scaled_le (mag (a mod S_)) (mag (b mod S_)) qa qb)).
  assert (Hu : u32 (Ea - Eb) = Ea - Eb).
  { destruct Sa as (_ & HEa & _), Sb as (_ & HEb & _). apply wrap_small. change (2 ^ 16) with 65536 in *. change (2 ^ 28) with 268435456 in *. lia. }
  rewrite Hu, sign_of_negative, !value_eq by done.
  destruct (xorb (negative a) (negative b)) eqn:Ex.
  - pose proof (add_significands_difference (2 * s + 8) _ _ qa qb Ea Eb eq_refl Sa Sb HE Hm) as Hd.
    destruct (add_significands true _ _ _) as [[M E]|].
    + destruct Hd as [Hst Hlt]. apply Z.lt_0_sub in Hlt. destruct (add_round_ok _ M E (negative a) Hlt Hst) as (r & -> & Hn).
      apply (eq_delivers (if negative a then - (mag (a mod S_) - mag (b mod S_)) else mag (a mod S_) - mag (b mod S_)));
        [destruct (negative a), (negative b); try done; lia|].
      apply delivers_sign; [lia|done].
    + rewrite Hd. split; [lia|]. destruct (negative a), (negative b); try done; rewrite (proj2 (Z.eqb_eq _ 0)) by lia; done.
  - destruct (add_significands_sum (2 * s + 8) _ _ qa qb Ea Eb eq_refl Sa Sb HE) as (M & E & -> & Hst).
    assert (Hpos : 0 < mag (a mod S_) + mag (b mod S_)) by lia. destruct (add_round_ok _ M E (negative a) Hpos Hst) as (r & -> & Hn).
    apply (eq_delivers (if negative a then - (mag (a mod S_) + mag (b mod S_)) else mag (a mod S_) + mag (b mod S_)));
      [destruct (negative a), (negative b); try done; lia|].
    apply delivers_sign; [lia|done].
Qed.

Lemma rep_pred x : 0 <= x < S_ -> (rep (infRep - 1) <=? rep (x - 1)) = (x =? 0) || (infRep <=? x).
Proof.
  intros Hx. pose proof sizes as (Hi & He & Hs & Hw & HinfI & H16 & _). rewrite (rep_small (infRep - 1)) by lia.
  destruct (Z.eqb_spec x 0) as [->|Hne]; cbn [orb].
  - assert (rep (0 - 1) = 2 ^ w - 1) as ->.
    { unfold rep, wrap. symmetry. apply (Z.mod_unique_pos _ _ (-1)); lia. }
    apply Z.leb_le. lia.
  - rewrite rep_small by lia. destruct (Z.leb_spec infRep x); [apply Z.leb_le|apply Z.leb_gt]; lia.
Qed.

(** The special operands, by what is left of their bits. *)
Lemma add_special_eq a b : 0 <= a < 2 ^ w -> 0 <= b < 2 ^ w ->
  add_special a b =
    if infRep <? a mod S_ then Some (Z.lor a quietBit)
    else if infRep <? b mod S_ then Some (Z.lor b quietBit)
    else if a mod S_ =? infRep then
      if (b mod S_ =? infRep) && xorb (negative a) (negative b) then Some qnanRep else Some a
    else if b mod S_ =? infRep then Some b
    else if a mod S_ =? 0 then if b mod S_ =? 0 then Some (sign_bit_of (negative a && negative b)) else Some b
    else if b mod S_ =? 0 then Some a
    else None.
Proof.
  intros Ha Hb. destruct (abs_cases a Ha) as [_ Ha']. destruct (abs_cases b Hb) as [_ Hb'].
  pose proof sizes as (Hi & He & Hs & Hw & HinfI & H16 & _). unfold add_special.
  rewrite !abs_mod, !rep_pred, lxor_sign_eq by done. unfold nz. rewrite !negb_involutive.
  destruct (Z.ltb_spec infRep (a mod S_)) as [H1|H1]; [by rewrite (proj2 (Z.leb_le infRep (a mod S_))), orb_true_r by lia|].
  destruct (Z.ltb_spec infRep (b mod S_)) as [H2|H2]; [by rewrite (proj2 (Z.leb_le infRep (b mod S_))), !orb_true_r by lia|].
  destruct (Z.eqb_spec (a mod S_) infRep) as [H3|H3].
  { rewrite H3, (proj2 (Z.leb_le infRep infRep)), orb_true_r by lia. cbn [orb]. rewrite (Z.eqb_sym infRep). done. }
  destruct (Z.eqb_spec (b mod S_) infRep) as [H4|H4].
  { by rewrite H4, (proj2 (Z.leb_le infRep infRep)), !orb_true_r by lia. }
  rewrite (proj2 (Z.leb_gt infRep (a mod S_))), (proj2 (Z.leb_gt infRep (b mod S_))), !orb_false_r by lia.
  destruct (Z.eqb_spec (a mod S_) 0) as [H5|H5]; cbn [orb]; destruct (Z.eqb_spec (b mod S_) 0) as [H6|H6]; try done.
  f_equal. rewrite (rep_sign a Ha), (rep_sign b Hb) at 1. rewrite land_parts, H5, H6 by lia. done.
Qed.

Lemma add_finite a b : 0 <= a < 2 ^ w -> 0 <= b < 2 ^ w -> a mod S_ < infRep -> b mod S_ < infRep ->
  delivers (value a + value b) 1 (negative a && negative b) (addXf3 a b).
Proof.
  intros Ha Hb Hfa Hfb. destruct (abs_cases a Ha) as [_ Ha']. destruct (abs_cases b Hb) as [_ Hb'].
  rewrite addXf3_eq, add_special_eq, !abs_mod by done.
  rewrite (proj2 (Z.ltb_ge _ (a mod S_))), (proj2 (Z.ltb_ge _ (b mod S_))), !(proj2 (Z.eqb_neq _ infRep)) by lia.
  destruct (Z.eqb_spec (a mod S_) 0) as [H5|H5]; destruct (Z.eqb_spec (b mod S_) 0) as [H6|H6].
  - rewrite !value_zero by done. split; [|done]. pose proof (with_sign_range (negative a && negative b) 0). lia.
  - rewrite (value_zero a) by done. apply delivers_self; [done|lia].
  - rewrite (value_zero b), Z.add_0_r by done. apply delivers_self; [done|lia].
  - destruct (Z.ltb_spec (a mod S_) (b mod S_)).
    + rewrite Z.add_comm, andb_comm. apply add_ordered_ok; try done; lia.
    + apply add_ordered_ok; try done; lia.
Qed.

Lemma sub_finite a b : 0 <= a < 2 ^ w -> 0 <= b < 2 ^ w -> a mod S_ < infRep -> b mod S_ < infRep ->
  delivers (value a - value b) 1 (negative a && negb (negative b)) (subXf3 a b).
Proof.
  intros Ha Hb Hfa Hfb. unfold subXf3. destruct (lxor_sign b Hb) as (Hr & Hm & Hn).
  pose proof (add_finite a (Z.lxor b signBit) Ha Hr Hfa) as H. rewrite Hm, Hn in H. specialize (H Hfb).
  apply (eq_delivers (value a + value (Z.lxor b signBit))); [|done]. rewrite (value_eq b), (value_eq (Z.lxor _ _)), Hm, Hn.
  destruct (negative b); cbn [negb]; lia.
Qed.

(** C7. Addition and subtraction in software round as they must: for finite operands of
    any format, the result is the representation nearest to the exact sum or difference,
    ties to even, overflow to infinity included, with its sign; an exact zero is positive
    unless both terms are negative. A NaN, or infinities that cancel, give a NaN, and an
    infinity absorbs anything else. *)
Theorem addition_rounds a b : 0 <= a < 2 ^ typeWidth -> 0 <= b < 2 ^ typeWidth ->
  (finite a -> finite b -> delivers (value a + value b) 1 (negative a && negative b) (addXf3 a b)) /\
  (finite a -> finite b -> delivers (value a - value b) 1 (negative a && negb (negative b)) (subXf3 a b)) /\
  (nan a \/ nan b \/ infinite a /\ infinite b /\ negative a <> negative b -> nan (addXf3 a b)) /\
  (infinite a -> ~ nan b -> (infinite b -> negative a = negative b) -> addXf3 a b = a) /\
  (infinite b -> finite a -> addXf3 a b = b).
Proof.
  intros Ha Hb. split; [|split]; [unfold finite; rewrite !abs_mod; by apply add_finite|unfold finite; rewrite !abs_mod; by apply sub_finite|].
  pose proof (quiet_nan a ltac:(lia)) as Hqa. pose proof (quiet_nan b ltac:(lia)) as Hqb. pose proof qnan_nan.
  rewrite addXf3_eq, add_special_eq by done. unfold nan, infinite, finite in *. rewrite !abs_mod in *.
  destruct (Z.ltb_spec infRep (a mod S_)); [split; [intros _; by apply Hqa|split; intros; lia]|].
  destruct (Z.ltb_spec infRep (b mod S_)); [split; [intros _; by apply Hqb|split; intros; lia]|].
  destruct (Z.eqb_spec (a mod S_) infRep).
  - destruct (Z.eqb_spec (b mod S_) infRep); cbn [andb]; [|split; [intros; lia|split; intros; [done|lia]]].
    assert (Hx : xorb (negative a) (negative b) = true <-> negative a <> negative b) by (destruct (negative a), (negative b); naive_solver).
    destruct (xorb (negative a) (negative b)).
    + split; [done|]. split; [|intros; lia]. intros _ _ Hs. exfalso. apply Hx; auto.
    + split; [|split; [done|intros; lia]]. intros [?|[?|(_ & _ & ?)]]; [lia|lia|]. apply Hx in H2. done.
  - split; [intros; lia|]. split; [intros; lia|]. intros -> _. by rewrite Z.eqb_refl.
Qed.

End addition.

(** 1 and 2^-24, half a unit in the last place of 1: to even. *)
Lemma addition_rounds_witness :
  delivers (F := SINGLE) (value (F := SINGLE) 0x3f800000 + value (F := SINGLE) 0x33800000) 1 (negative (F := SINGLE) 0x3f800000 && negative (F := SINGLE) 0x33800000) (addXf3 (F := SINGLE) 0x3f800000 0x33800000) /\
  addXf3 (F := SINGLE) 0x3f800000 0x33800000 = 0x3f800000 /\ addXf3 (F := SINGLE) 0x3f800001 0x33800000 = 0x3f800002.
Proof.
  split; [|split; reflexivity].
  refine (proj1 (addition_rounds (F := SINGLE) 0x3f800000 0x33800000 _ _) _ _); [by split|by split|reflexivity|reflexivity].
Defined.
