(* ===== verification/SoftMul.v ===== *)
(** * Multiplication ([fp_mul_impl.inc])

    The product is the representation nearest to the exact product, ties to even, with its
    sign; the cases of zeros, infinities and NaNs. *)
From S2P Require Import Prelude Softfloat FloatSpec FloatBits.

Section multiplication.
Context `{F : Format} `{!FormatOk F}.

Abbreviation s := (@significandBits F).
Abbreviation e := (@exponentBits F).
Abbreviation I := (@implicitBit F).
Abbreviation w := (@typeWidth F).
Abbreviation S_ := (@signBit F).
Abbreviation bias := (@exponentBias F).
Abbreviation X := (@maxExponent F).

(** ** The operands *)

Lemma mul_normalize_ok r (special : bool) : 0 <= r < 2 ^ w -> 0 < r mod S_ < infRep -> special = true \/ r mod S_ / I <> 0 ->
  exists q c, (if special then mul_normalize r else (Z.land r significandMask, 0)) = (q, c) /\
    scaled (2 * s + 8) (mag (r mod S_)) (Z.lor q implicitBit) (Z.land (Z.shiftr r s) maxExponent + c) /\ c = Z.max (1 - s) c /\ c <= 0.
Proof.
  intros Hr Hm Hsp. pose proof s_pos. pose proof sizes as (Hi & He & Hs & Hw & Hinf & H16 & _). pose proof inf_value as Hiv.
  unfold mul_normalize. rewrite exponent_field, fraction_field, abs_mod.
  set (m := r mod S_) in *. pose proof (Z.div_mod m I ltac:(lia)) as Em. pose proof (Z.mod_pos_bound m I ltac:(lia)) as Hf.
  assert (HE : 0 <= m / I < X) by (split; [apply Z.div_pos; lia|apply Z.div_lt_upper_bound; lia]).
  assert (Hlt : (m <? I) = (m / I =? 0)).
  { destruct (Z.ltb_spec m I); symmetry; [apply Z.eqb_eq, Z.div_small; lia|apply Z.eqb_neq; intros E; rewrite E in Em; lia]. }
  rewrite Hlt. unfold mag, scaled. destruct (Z.eqb_spec (m / I) 0) as [E0|E0].
  - destruct Hsp as [->|?]; [|done]. destruct (normalize_ok (m mod I)) as (k & Hk & -> & Hq); [nia|]. exists (m mod I * 2 ^ k), (1 - k).
    split; [done|]. rewrite lor_implicit, (proj2 (Z.ltb_ge _ _)), E0 by lia. split; [|lia]. split; [lia|]. split; [lia|].
    rewrite <- Z.mul_assoc, <- Z.pow_add_r by lia. do 2 f_equal. lia.
  - exists (m mod I), 0. split; [by destruct special|]. rewrite lor_implicit, (proj2 (Z.ltb_lt _ _)) by lia. split; [|lia].
    split; [lia|]. split; [lia|]. rewrite <- Z.mul_assoc, <- Z.pow_add_r by lia. rewrite (Z.add_comm (m mod I)). do 2 f_equal. lia.
Qed.

(** ** The product *)

(** The product [P] of two words, normalised, at the exponent [E], for [num / 2 ^ D]. *)
Definition product_at (num P E : Z) : Prop :=
  I * 2 ^ w <= P < 2 * I * 2 ^ w /\ - s <= E - 1 + (bias + s - 1) /\
  num * 2 ^ (w + 2 * s) = P * 2 ^ (E - 1 + (bias + s - 1) + 2 * s).

(** From what follows the normalisation on. *)
Definition mul_finish (productHi productLo productExponent productSign : Z) : Z :=
  if maxExponent <=? productExponent then Z.lor infRep productSign
  else
    let shift := u32 (1 - u32 productExponent) in
    if (productExponent <=? 0) && (typeWidth <=? shift) then productSign
    else
      let '(productHi, productLo) :=
        if productExponent <=? 0 then wideRightShiftWithSticky productHi productLo shift
        else (Z.lor (Z.land productHi significandMask) (rep (Z.shiftl productExponent significandBits)), productLo) in
      let productHi := Z.lor productHi productSign in
      let productHi := if signBit <? productLo then rep (productHi + 1) else productHi in
      if productLo =? signBit then rep (productHi + Z.land productHi 1) else productHi.

Lemma mul_round_eq hi lo E z : mul_round hi lo E z =
  if nz (Z.land hi implicitBit) then mul_finish hi lo (E + 1) z
  else let '(hi, lo) := wideLeftShift hi lo 1 in mul_finish hi lo E z.
Proof. unfold mul_round, mul_finish, wideLeftShift. by destruct (nz (Z.land hi implicitBit)). Qed.

Lemma right_shift_fold P n : 0 <= P < 2 ^ w * 2 ^ w -> 1 <= n < w ->
  wideRightShiftWithSticky (P / 2 ^ w) (P mod 2 ^ w) n = (fold_low P n / 2 ^ w, fold_low P n mod 2 ^ w).
Proof.
  intros HP Hn. unfold wideRightShiftWithSticky. rewrite (proj2 (Z.ltb_lt _ _)) by lia.
  assert (Hsplit : 2 ^ w = 2 ^ n * 2 ^ (w - n)) by (rewrite <- Z.pow_add_r by lia; f_equal; lia).
  pose proof (pow_pos n ltac:(lia)) as Hpn. pose proof (pow_pos (w - n) ltac:(lia)) as Hpwn.
  pose proof (Z.div_mod P (2 ^ w) ltac:(lia)) as EP. pose proof (Z.mod_pos_bound P (2 ^ w) ltac:(lia)) as Hlo.
  assert (Hhi : 0 <= P / 2 ^ w < 2 ^ w) by (split; [apply Z.div_pos; lia|apply Z.div_lt_upper_bound; lia]).
  set (hi := P / 2 ^ w) in *. set (lo := P mod 2 ^ w) in *.
  pose proof (Z.div_mod hi (2 ^ n) ltac:(lia)) as Ehi. pose proof (Z.mod_pos_bound hi (2 ^ n) Hpn) as Hmh.
  pose proof (Z.div_mod lo (2 ^ n) ltac:(lia)) as Elo. pose proof (Z.mod_pos_bound lo (2 ^ n) Hpn) as Hml.
  assert (Hst : nz (rep (Z.shiftl lo (w - n))) = nz (P mod 2 ^ n)).
  { rewrite Z.shiftl_mul_pow2 by lia. unfold rep, wrap. rewrite Hsplit, Z.mul_mod_distr_r by lia.
    assert (P mod 2 ^ n = lo mod 2 ^ n) as ->.
    { rewrite EP, Hsplit. rewrite <- (Z.mul_assoc (2 ^ n)), (Z.mul_comm (2 ^ n)), Z.add_comm, Z.mod_add by lia. done. }
    unfold nz. f_equal. destruct (Z.eqb_spec (lo mod 2 ^ n) 0) as [->|]; [by rewrite Z.mul_0_l|apply Z.eqb_neq; nia]. }
  rewrite Hst. set (b := nz (P mod 2 ^ n)).
  assert (Hq : 0 <= lo / 2 ^ n < 2 ^ (w - n)) by (split; [apply Z.div_pos; lia|apply Z.div_lt_upper_bound; lia]).
  assert (Hlow : Z.lor (rep (Z.shiftl hi (w - n))) (Z.shiftr lo n) = lo / 2 ^ n + 2 ^ (w - n) * (hi mod 2 ^ n)).
  { rewrite Z.shiftl_mul_pow2, Z.shiftr_div_pow2 by lia. unfold rep, wrap. rewrite Hsplit, Z.mul_mod_distr_r by lia.
    rewrite Z.lor_comm, (Z.mul_comm _ (2 ^ (w - n))). apply (lor_disjoint_add (w - n)); lia. }
  assert (Hdiv : P / 2 ^ n = (lo / 2 ^ n + 2 ^ (w - n) * (hi mod 2 ^ n)) + 2 ^ w * (hi / 2 ^ n)).
  { symmetry. apply (Z.div_unique_pos _ _ _ (lo mod 2 ^ n)); [done|]. rewrite EP, Hsplit. rewrite Ehi at 1. rewrite Elo at 1. ring. }
  unfold fold_low. fold b. rewrite Hdiv, Hlow, Z.shiftr_div_pow2 by lia.
  set (l := lo / 2 ^ n + 2 ^ (w - n) * (hi mod 2 ^ n)) in *.
  assert (Hl : 0 <= l < 2 ^ w) by (unfold l; rewrite Hsplit; nia).
  pose proof (b2z_range b) as Hb. assert (H2w : 2 <= 2 ^ w) by (change 2 with (2 ^ 1) at 1; apply Z.pow_le_mono_r; lia).
  pose proof (lor_split w ltac:(lia) l (b2z b) (hi / 2 ^ n) 0 Hl ltac:(lia)) as Hls. rewrite Z.mul_0_r, Z.add_0_r, Z.lor_0_r in Hls.
  rewrite Hls. pose proof (lor_range w ltac:(lia) l (b2z b) Hl ltac:(lia)) as Hlr.
  f_equal; [apply (Z.div_unique_pos _ _ _ (Z.lor l (b2z b)))|apply (Z.mod_unique_pos _ _ (hi / 2 ^ n))]; lia.
Qed.

(** ** The rounding *)

Lemma round_low M r b : 0 <= r < infRep ->
  (let result := if signBit <? M mod 2 ^ w then rep (r + sign_bit_of b + 1) else r + sign_bit_of b in
   if M mod 2 ^ w =? signBit then rep (result + Z.land result 1) else result) = rounded w M r + sign_bit_of b.
Proof.
  intros Hr. pose proof sizes as (Hi & He & Hs & Hw & Hinf & H16 & _). pose proof s_pos. pose proof e_range.
  assert (Hr1 : 0 <= r + 1 < S_) by lia. assert (Hr0 : 0 <= r < S_) by lia.
  pose proof (with_sign_range b _ Hr1). pose proof (with_sign_range b _ Hr0). unfold rounded.
  replace (2 ^ (w - 1)) with S_ by (rewrite sign_pow, width_split; f_equal; lia). cbn zeta.
  destruct (Z.compare_spec (M mod 2 ^ w) S_) as [E|E|E].
  - rewrite E, Z.ltb_irrefl, Z.eqb_refl, land_1, even_sign. destruct (Z.even r); rewrite rep_small; lia.
  - rewrite (proj2 (Z.ltb_ge _ _)), (proj2 (Z.eqb_neq _ _)) by lia. done.
  - rewrite (proj2 (Z.ltb_lt _ _)), (proj2 (Z.eqb_neq _ _)) by lia. rewrite rep_small; lia.
Qed.

Lemma product_scale num P E t n : product_at num P E -> 0 <= n -> 0 <= t -> E - 1 = t - n ->
  num * (2 ^ n * 2 ^ w) = P * 2 ^ t * 2 ^ (bias + s - 1).
Proof.
  intros (HP & HE & Heq) Hn Ht Et. pose proof s_pos. pose proof width_split. pose proof e_range. pose proof bias_pos.
  apply (Z.mul_reg_r _ _ (2 ^ (2 * s))); [pose proof (pow_pos (2 * s)); lia|].
  rewrite Z.pow_add_r in Heq by lia. replace (num * (2 ^ n * 2 ^ w) * 2 ^ (2 * s)) with (num * (2 ^ w * 2 ^ (2 * s)) * 2 ^ n) by ring.
  rewrite Heq, <- !Z.mul_assoc, <- !Z.pow_add_r by lia. do 2 f_equal. lia.
Qed.

Lemma mul_finish_ok num P E b : 0 < num -> - 2 ^ 31 <= E -> product_at num P E ->
  exists r, mul_finish (P / 2 ^ w) (P mod 2 ^ w) E (sign_bit_of b) = r + sign_bit_of b /\ nearest num (2 ^ (bias + s - 1)) r.
Proof.
  intros Hnum HE31 Hat. destruct (Hat) as (HP & HE & Heq). pose proof s_pos. pose proof e_range. pose proof bias_pos.
  pose proof sizes as (Hi & He & Hs & Hw & Hinf & H16 & _). pose proof inf_value as Hiv. pose proof max_pow as Hmax. pose proof width_split.
  pose proof (pow_pos (bias + s - 1) ltac:(lia)) as HpD. pose proof (pow_pos w ltac:(lia)) as Hpw.
  assert (Hhi : I <= P / 2 ^ w < 2 * I) by (split; [apply Z.div_le_lower_bound|apply Z.div_lt_upper_bound]; lia).
  assert (Heven : I = 2 * (I / 2)).
  { rewrite implicit_pow. replace s with (Z.succ (s - 1)) by lia. rewrite Z.pow_succ_r, (Z.mul_comm 2), Z.div_mul; lia. }
  assert (Hev2 : 2 * (I / 2 * 2 ^ w) = I * 2 ^ w) by (rewrite Z.mul_assoc, <- Heven; done).
  assert (HIw : 0 < I * 2 ^ w) by (apply Z.mul_pos_pos; lia). assert (Hnw : 0 < num * 2 ^ w) by (apply Z.mul_pos_pos; lia).
  unfold mul_finish. destruct (Z.leb_spec maxExponent E) as [Hov|Hov].
  - exists infRep. split; [apply lor_sign; lia|]. apply nearest_inf; [lia|].
    assert (Hm : mag infRep = I * 2 ^ (X - 1)).
    { rewrite Hiv. replace (X * I) with ((X - 1) * I + I) by lia. apply mag_at; lia. }
    pose proof (product_scale num P E (E - 1) 0 Hat ltac:(lia) ltac:(lia) ltac:(lia)) as Hsc. rewrite Z.mul_1_l in Hsc.
    assert (Hle : 2 ^ (X - 1) <= 2 ^ (E - 1)) by (apply Z.pow_le_mono_r; lia). assert (0 < 2 ^ (X - 1)) by (apply pow_pos; lia).
    rewrite Hm. apply (Z.mul_le_mono_pos_r _ _ (2 ^ w)); [done|]. rewrite Hsc.
    assert (I * 2 ^ w * 2 ^ (X - 1) <= P * 2 ^ (E - 1)) by (apply Z.mul_le_mono_nonneg; lia).
    assert (I * 2 ^ w * 2 ^ (X - 1) * 2 ^ (bias + s - 1) <= P * 2 ^ (E - 1) * 2 ^ (bias + s - 1)) by (apply Z.mul_le_mono_nonneg_r; lia). lia.
  - destruct (Z.leb_spec E 0) as [Hsub|Hnorm]; cbn [andb].
    + assert (Hu : u32 (1 - u32 E) = 1 - E).
      { unfold u32, wrap. rewrite Zminus_mod_idemp_r. apply Z.mod_small. lia. }
      rewrite Hu. destruct (Z.leb_spec typeWidth (1 - E)) as [Htiny|Hsh].
      * exists 0. split; [done|]. pose proof (product_scale num P E 0 (1 - E) Hat ltac:(lia) ltac:(lia) ltac:(lia)) as Hsc.
        assert (Hbig : 2 ^ w <= 2 ^ (1 - E)) by (apply Z.pow_le_mono_r; lia).
        apply nearest_zero; [lia|lia|]. apply (Z.mul_lt_mono_pos_r (I * 2 ^ w)); [done|].
        assert (num * 2 * (I * 2 ^ w) * 16 <= num * (2 ^ (1 - E) * 2 ^ w) * 2).
        { assert (I * 16 <= 2 ^ (1 - E)) by lia. assert (I * 16 * (num * 2 ^ w) <= 2 ^ (1 - E) * (num * 2 ^ w)) by (apply Z.mul_le_mono_nonneg_r; lia). lia. }
        assert (P * 2 ^ (bias + s - 1) < 2 * I * 2 ^ w * 2 ^ (bias + s - 1)) by (apply Z.mul_lt_mono_pos_r; lia). lia.
      * pose proof (product_scale num P E 0 (1 - E) Hat ltac:(lia) ltac:(lia) ltac:(lia)) as Hsc.
        pose proof (pow_pos (1 - E) ltac:(lia)) as Hpn.
        assert (HPw : 0 <= P < 2 ^ w * 2 ^ w) by (assert (2 * I * 2 ^ w <= 2 ^ w * 2 ^ w) by (apply Z.mul_le_mono_nonneg_r; lia); lia).
        rewrite right_shift_fold by lia. set (M := fold_low P (1 - E)).
        assert (Hst : stands 1 P (1 * 2 ^ (1 - E)) M).
        { apply (stands_fold 0); [lia|lia|lia|nia|]. apply stands_exact; lia. }
        rewrite Z.mul_1_l in Hst.
        assert (HM : 0 <= M < 2 * (I / 2 * 2 ^ w)).
        { apply fold_low_bound; [lia|lia|]. apply Z.div_lt_upper_bound; [lia|].
          assert (2 ^ 1 <= 2 ^ (1 - E)) by (apply Z.pow_le_mono_r; lia). change (2 ^ 1) with 2 in *.
          rewrite Hev2. assert (2 * (I * 2 ^ w) <= 2 ^ (1 - E) * (I * 2 ^ w)) by (apply Z.mul_le_mono_nonneg_r; lia). lia. }
        rewrite Hev2 in HM.
        assert (Hq : 0 <= M / 2 ^ w < I) by (split; [apply Z.div_pos; lia|apply Z.div_lt_upper_bound; lia]).
        exists (rounded w M (M / 2 ^ w)). rewrite lor_sign by lia. split; [apply round_low; lia|].
        apply (nearest_same (P * 2 ^ 0) (2 ^ (1 - E) * 2 ^ w)); [lia|lia|lia|].
        replace (M / 2 ^ w) with (0 * I + M / 2 ^ w) at 1 by lia.
        apply nearest_rounded; [lia|lia|by apply (stands_weaken 1); [lia|]|done|lia|lia|lia|lia].
    + pose proof (product_scale num P E (E - 1) 0 Hat ltac:(lia) ltac:(lia) ltac:(lia)) as Hsc. rewrite Z.mul_1_l in Hsc.
      assert (HE1 : (E - 1) * I <= (X - 2) * I) by (apply Z.mul_le_mono_nonneg_r; lia).
      assert (HE0 : 0 <= (E - 1) * I) by (apply Z.mul_nonneg_nonneg; lia).
      assert (Hr : 0 <= (E - 1) * I + P / 2 ^ w < infRep) by lia.
      exists (rounded w P ((E - 1) * I + P / 2 ^ w)).
      rewrite insert_exponent by (rewrite ?(proj2 (Z.leb_le _ _)), ?Z.max_r by lia; lia).
      rewrite Z.max_r by lia. split; [by apply round_low|].
      apply (nearest_same (P * 2 ^ (E - 1)) (1 * 2 ^ w)); [lia|lia|lia|].
      apply nearest_rounded; [lia|lia|apply (stands_weaken 0); [lia|apply stands_exact; lia]|done|lia|lia|lia|lia].
Qed.

Lemma left_shift_double P : 0 <= P < I * 2 ^ w -> wideLeftShift (P / 2 ^ w) (P mod 2 ^ w) 1 = (2 * P / 2 ^ w, (2 * P) mod 2 ^ w).
Proof.
  intros HP. pose proof s_pos. pose proof e_range. pose proof sizes as (Hi & He & Hs & Hw & Hinf & H16 & _). unfold wideLeftShift.
  assert (Hww : 2 ^ w = 2 * 2 ^ (w - 1)) by (rewrite <- Z.pow_succ_r by (pose proof width_split; lia); f_equal; lia).
  assert (Hp1 : 0 < 2 ^ (w - 1)) by lia.
  pose proof (Z.div_mod P (2 ^ w) ltac:(lia)) as EP. pose proof (Z.mod_pos_bound P (2 ^ w) ltac:(lia)) as Hlo.
  assert (Hhi : 0 <= P / 2 ^ w < I) by (split; [apply Z.div_pos|apply Z.div_lt_upper_bound]; lia).
  set (hi := P / 2 ^ w) in *. set (lo := P mod 2 ^ w) in *.
  pose proof (Z.div_mod lo (2 ^ (w - 1)) ltac:(lia)) as El. pose proof (Z.mod_pos_bound lo (2 ^ (w - 1)) Hp1) as Hml.
  assert (Hq : 0 <= lo / 2 ^ (w - 1) < 2) by (split; [apply Z.div_pos|apply Z.div_lt_upper_bound]; lia).
  rewrite !Z.shiftl_mul_pow2, Z.shiftr_div_pow2 by (pose proof width_split; lia). change (2 ^ 1) with 2.
  rewrite (rep_small (hi * 2)) by lia. rewrite Z.lor_comm, (Z.mul_comm hi).
  pose proof (lor_disjoint_add 1 ltac:(lia) (lo / 2 ^ (w - 1)) hi) as Hl. change (2 ^ 1) with 2 in Hl. rewrite Hl by lia. clear Hl.
  set (c := lo / 2 ^ (w - 1)) in *. unfold rep, wrap.
  assert (E2 : 2 * P = 2 ^ w * (c + 2 * hi) + 2 * (lo mod 2 ^ (w - 1))) by lia.
  f_equal; [apply (Z.div_unique_pos _ _ _ (2 * (lo mod 2 ^ (w - 1)))); lia|].
  transitivity (2 * (lo mod 2 ^ (w - 1))); [symmetry; apply (Z.mod_unique_pos _ _ c)|apply (Z.mod_unique_pos _ _ (c + 2 * hi))]; lia.
Qed.

Lemma mul_round_ok ma mb qa qb Ea Eb b : 0 < ma -> 0 < mb -> scaled (2 * s + 8) ma qa Ea -> scaled (2 * s + 8) mb qb Eb ->
  let P := qa * (qb * 2 ^ e) in
  exists r, mul_round (P / 2 ^ w) (P mod 2 ^ w) (Ea + Eb - bias) (sign_bit_of b) = r + sign_bit_of b /\ nearest (ma * mb) (2 ^ (bias + s - 1)) r.
Proof.
  intros Hma Hmb (Hqa & HEa & Ema) (Hqb & HEb & Emb) P. pose proof s_pos. pose proof e_range. pose proof bias_pos. pose proof width_range.
  pose proof width_split. pose proof sizes as (Hi & He & Hs & Hw & Hinf & H16 & _). change (2 ^ 16) with 65536 in *. change (2 ^ 28) with 268435456 in *.
  assert (Hqq : I * I <= qa * qb < (2 * I) * (2 * I)) by (split; [apply Z.mul_le_mono_nonneg|apply Z.mul_lt_mono_nonneg]; lia).
  assert (HP : I * 2 ^ w <= 2 * P < 4 * I * 2 ^ w).
  { unfold P. replace (qa * (qb * 2 ^ e)) with (qa * qb * 2 ^ e) by ring. rewrite Hw, Hs.
    assert (I * I * 2 ^ e <= qa * qb * 2 ^ e) by (apply Z.mul_le_mono_nonneg_r; lia).
    assert (qa * qb * 2 ^ e < 2 * I * (2 * I) * 2 ^ e) by (apply Z.mul_lt_mono_pos_r; lia). lia. }
  assert (Hsc : forall k, ma * mb * 2 ^ (w + 2 * s) * 2 ^ k = P * 2 ^ (Ea + Eb + s - 1 + 2 * s) * 2 ^ k).
  { intros k. f_equal. apply (Z.mul_reg_r _ _ (2 ^ (2 * s + 8) * 2 ^ (2 * s + 8))); [pose proof (pow_pos (2 * s + 8)); lia|].
    transitivity ((ma * 2 ^ (2 * s + 8)) * (mb * 2 ^ (2 * s + 8)) * 2 ^ (w + 2 * s)); [ring|]. rewrite Ema, Emb. unfold P.
    transitivity (qa * qb * (2 ^ (Ea - 1 + (2 * s + 8)) * 2 ^ (Eb - 1 + (2 * s + 8)) * 2 ^ (w + 2 * s))); [ring|].
    transitivity (qa * qb * (2 ^ e * 2 ^ (Ea + Eb + s - 1 + 2 * s) * (2 ^ (2 * s + 8) * 2 ^ (2 * s + 8)))); [|ring].
    rewrite <- !Z.pow_add_r by lia. do 2 f_equal. lia. }
  specialize (Hsc 0). rewrite !Z.mul_1_r in Hsc.
  assert (Hnum : 0 < ma * mb) by (apply Z.mul_pos_pos; lia).
  assert (Hhi : 0 <= P / 2 ^ w < 2 * I) by (split; [apply Z.div_pos|apply Z.div_lt_upper_bound]; lia).
  rewrite mul_round_eq. rewrite implicit_pow, top_bit_set, <- implicit_pow by (rewrite <- ?implicit_pow; lia).
  destruct (Z.leb_spec I (P / 2 ^ w)) as [Hc|Hc].
  - apply mul_finish_ok; [done|lia|]. split; [|split; [lia|]].
    + assert (2 ^ w * (P / 2 ^ w) <= P) by (apply Z.mul_div_le; lia). assert (I * 2 ^ w <= P / 2 ^ w * 2 ^ w) by (apply Z.mul_le_mono_nonneg_r; lia). lia.
    + rewrite Hsc. do 2 f_equal. lia.
  - assert (P < I * 2 ^ w).
    { pose proof (Z.mul_succ_div_gt P (2 ^ w) ltac:(lia)). assert (2 ^ w * Z.succ (P / 2 ^ w) <= 2 ^ w * I) by (apply Z.mul_le_mono_nonneg_l; lia). lia. }
    rewrite left_shift_double by lia. apply mul_finish_ok; [done|lia|]. split; [lia|]. split; [lia|].
    rewrite Hsc. transitivity (P * (2 ^ 1 * 2 ^ (Ea + Eb - bias - 1 + (bias + s - 1) + 2 * s))); [|change (2 ^ 1) with 2; ring].
    rewrite <- Z.pow_add_r by lia. do 2 f_equal. lia.
Qed.

(** ** The product *)

(** Whether the operands need a look: a zero or a denormal, or an infinity or a NaN. *)
Lemma special_exponent r : 0 <= r < 2 ^ w ->
  (X - 1 <=? u32 (r mod S_ / I - 1)) = (r mod S_ / I =? 0) || (infRep <=? r mod S_).
Proof.
  intros Hr. pose proof max_pow. pose proof inf_value. pose proof sizes as (Hi & He & Hs & Hw & Hinf & H16 & He28).
  change (2 ^ 28) with 268435456 in *. destruct (abs_cases r Hr) as [_ Hm]. set (m := r mod S_) in *.
  assert (HE : 0 <= m / I <= X) by (split; [apply Z.div_pos; lia|]; assert (m / I < X + 1) by (apply Z.div_lt_upper_bound; lia); lia).
  destruct (Z.eqb_spec (m / I) 0) as [->|E0]; cbn [orb].
  - change (u32 (0 - 1)) with 4294967295. apply Z.leb_le. lia.
  - assert (Hu : u32 (m / I - 1) = m / I - 1) by (apply wrap_small; lia). rewrite Hu.
    pose proof (Z.div_mod m I ltac:(lia)). pose proof (Z.mod_pos_bound m I ltac:(lia)).
    destruct (Z.leb_spec infRep m) as [Hinfm|Hinfm]; [apply Z.leb_le|apply Z.leb_gt].
    + assert (X <= m / I) by (apply Z.div_le_lower_bound; lia). lia.
    + assert (m / I < X) by (apply Z.div_lt_upper_bound; lia). lia.
Qed.

Lemma mul_finite a b : 0 <= a < 2 ^ w -> 0 <= b < 2 ^ w -> 0 < a mod S_ < infRep -> 0 < b mod S_ < infRep ->
  delivers (value a * value b) (2 ^ (bias + s - 1)) (xorb (negative a) (negative b)) (mulXf3 a b).
Proof.
  intros Ha Hb Hfa Hfb. pose proof s_pos. pose proof e_range. pose proof bias_pos. pose proof width_range. pose proof width_split.
  pose proof max_pow. pose proof inf_value. pose proof sizes as (Hi & He & Hs & Hw & Hinf & H16 & He28).
  change (2 ^ 16) with 65536 in *. change (2 ^ 28) with 268435456 in *.
  unfold mulXf3. cbv zeta. rewrite (exponent_field a), (exponent_field b), !special_exponent by done.
  rewrite !(proj2 (Z.leb_gt infRep _)), !orb_false_r by lia. set (special := _ || _).
  assert (Hnone : (if special then mul_special a b (Z.land (Z.lxor a b) signBit) else None) = None).
  { destruct special; [|done]. unfold mul_special. rewrite !abs_mod. unfold nz.
    rewrite !(proj2 (Z.ltb_ge infRep _)), !(proj2 (Z.eqb_neq _ infRep)), !(proj2 (Z.eqb_neq _ 0)) by lia. done. }
  rewrite Hnone.
  assert (Hspa : special = true \/ a mod S_ / I <> 0).
  { unfold special. destruct (Z.eqb_spec (a mod S_ / I) 0); [by left|by right]. }
  assert (Hspb : special = true \/ b mod S_ / I <> 0).
  { unfold special. destruct (Z.eqb_spec (b mod S_ / I) 0); [left; by rewrite orb_true_r|by right]. }
  destruct (mul_normalize_ok a special Ha Hfa Hspa) as (qa & ca & -> & Sa & Hca).
  destruct (mul_normalize_ok b special Hb Hfb Hspb) as (qb & cb & -> & Sb & Hcb).
  rewrite exponent_field in Sa, Sb. set (Ea := a mod S_ / I) in *. set (Eb := b mod S_ / I) in *.
  assert (HEa : 0 <= Ea < X) by (unfold Ea; split; [apply Z.div_pos|apply Z.div_lt_upper_bound]; lia).
  assert (HEb : 0 <= Eb < X) by (unfold Eb; split; [apply Z.div_pos|apply Z.div_lt_upper_bound]; lia).
  assert (Hs32 : s32 (Ea + Eb - bias + (ca + cb)) = (Ea + ca) + (Eb + cb) - bias).
  { transitivity (Ea + Eb - bias + (ca + cb)); [apply swrap_small; [lia|]; change (2 ^ (32 - 1)) with 2147483648; lia|lia]. }
  rewrite Hs32. destruct (Sb) as (Hqb & _). destruct (Sa) as (Hqa & _).
  assert (Hsh : rep (Z.shiftl (Z.lor qb implicitBit) exponentBits) = Z.lor qb implicitBit * 2 ^ e).
  { rewrite Z.shiftl_mul_pow2 by lia. apply rep_small. rewrite Hw, Hs. split; [apply Z.mul_nonneg_nonneg; lia|].
    assert (Z.lor qb implicitBit * 2 ^ e < 2 * I * 2 ^ e) by (apply Z.mul_lt_mono_pos_r; lia). lia. }
  assert (Hrange : 0 <= Z.lor qb implicitBit * 2 ^ e < 2 ^ w) by (rewrite <- Hsh; apply wrap_range; lia).
  rewrite Hsh, wideMultiply_ok by lia.
  rewrite sign_product by done.
  pose proof (mag_pos (a mod S_) ltac:(lia)) as Hma. pose proof (mag_pos (b mod S_) ltac:(lia)) as Hmb.
  destruct (mul_round_ok _ _ _ _ _ _ (xorb (negative a) (negative b)) Hma Hmb Sa Sb) as (r & -> & Hn).
  apply (eq_delivers (if xorb (negative a) (negative b) then - (mag (a mod S_) * mag (b mod S_)) else mag (a mod S_) * mag (b mod S_))).
  - rewrite !value_eq. destruct (negative a), (negative b); cbn [xorb]; ring.
  - apply delivers_sign; [by apply Z.mul_pos_pos|done].
Qed.

(** Zeros, infinities and NaNs. *)
Lemma mul_unusual a b : 0 <= a < 2 ^ w -> 0 <= b < 2 ^ w -> a mod S_ = 0 \/ b mod S_ = 0 \/ infRep <= a mod S_ \/ infRep <= b mod S_ ->
  mulXf3 a b =
    if infRep <? a mod S_ then Z.lor a quietBit
    else if infRep <? b mod S_ then Z.lor b quietBit
    else if (a mod S_ =? infRep) && (b mod S_ =? 0) || (b mod S_ =? infRep) && (a mod S_ =? 0) then qnanRep
    else (if (a mod S_ =? infRep) || (b mod S_ =? infRep) then infRep else 0) + sign_bit_of (xorb (negative a) (negative b)).
Proof.
  intros Ha Hb Hu. pose proof sizes as (Hi & He & Hs & Hw & Hinf & H16 & He28).
  unfold mulXf3. cbv zeta. rewrite (exponent_field a), (exponent_field b), !special_exponent by done.
  assert (Hsp : (a mod S_ / I =? 0) || (infRep <=? a mod S_) || ((b mod S_ / I =? 0) || (infRep <=? b mod S_)) = true).
  { destruct Hu as [E|[E|[E|E]]]; rewrite ?E, ?Z.div_0_l, ?(proj2 (Z.leb_le _ _) E), ?orb_true_r by lia; done. }
  rewrite Hsp. unfold mul_special. rewrite !abs_mod, sign_product by done. unfold nz.
  assert (Hz : 0 <= 0 < S_) by lia. assert (Hi' : 0 <= infRep < S_) by lia.
  destruct (Z.ltb_spec infRep (a mod S_)) as [H1|H1]; [done|]. destruct (Z.ltb_spec infRep (b mod S_)) as [H2|H2]; [done|].
  destruct (Z.eqb_spec (a mod S_) infRep) as [H3|H3]; cbn [andb orb].
  - rewrite H3, lor_sign, (proj2 (Z.eqb_neq infRep 0)), andb_false_r, orb_false_r by lia. by destruct (Z.eqb_spec (b mod S_) 0).
  - destruct (Z.eqb_spec (b mod S_) infRep) as [H4|H4]; cbn [andb orb].
    + rewrite H4, lor_sign by lia. by destruct (Z.eqb_spec (a mod S_) 0).
    + rewrite Z.add_0_l. destruct (Z.eqb_spec (a mod S_) 0); [done|]. destruct (Z.eqb_spec (b mod S_) 0); [done|]. exfalso. lia.
Qed.

(** C8. Multiplication in software rounds as it must: for finite operands of any format the
    result is the representation nearest to the exact product, ties to even, denormal or
    overflowing results included, with the sign of the product, also of a zero. A NaN, or
    an infinity times zero, gives a NaN, and another infinity an infinity of that sign. *)
Theorem multiplication_rounds a b : 0 <= a < 2 ^ typeWidth -> 0 <= b < 2 ^ typeWidth ->
  (finite a -> finite b ->
    delivers (value a * value b) (2 ^ (exponentBias + significandBits - 1)) (xorb (negative a) (negative b)) (mulXf3 a b)) /\
  (nan a \/ nan b \/ infinite a /\ value b = 0 \/ infinite b /\ value a = 0 -> nan (mulXf3 a b)) /\
  (~ nan a -> ~ nan b -> infinite a /\ value b <> 0 \/ infinite b /\ value a <> 0 ->
    infinite (mulXf3 a b) /\ negative (mulXf3 a b) = xorb (negative a) (negative b)).
Proof.
  intros Ha Hb. destruct (abs_cases a Ha) as [_ Ha']. destruct (abs_cases b Hb) as [_ Hb'].
  pose proof sizes as (Hi & He & Hs & Hw & Hinf & H16 & _).
  pose proof (quiet_nan a ltac:(lia)) as Hqa. pose proof (quiet_nan b ltac:(lia)) as Hqb. pose proof qnan_nan as Hq.
  assert (Hv : forall r, value r = 0 <-> r mod S_ = 0 \/ r mod S_ < 0).
  { intros r. split; [|intros [E|E]; [by apply value_zero|pose proof (Z.mod_pos_bound r S_); lia]].
    rewrite value_eq. intros E. destruct (Z.lt_trichotomy (r mod S_) 0) as [?|[?|Hp]]; [by right|by left|].
    apply mag_pos in Hp. destruct (negative r); lia. }
  split; [|split].
  - unfold finite. rewrite !abs_mod. intros Hfa Hfb.
    destruct (decide (a mod S_ = 0 \/ b mod S_ = 0)) as [Hz|Hz]; [|apply mul_finite; try done; lia].
    assert (Hzero : 0 <= 0 < S_) by lia.
    split; [|rewrite (proj2 (Z.eqb_eq _ 0)) by (destruct Hz as [Hz|Hz]; rewrite (value_zero _ Hz); lia)];
      rewrite mul_unusual by (done || lia);
      rewrite !(proj2 (Z.ltb_ge infRep _)), !(proj2 (Z.eqb_neq _ infRep)) by lia; [by apply with_sign_range|done].
  - rewrite !Hv. unfold nan, infinite in *. rewrite !abs_mod in *. intros Hc.
    rewrite mul_unusual by (done || lia).
    destruct (Z.ltb_spec infRep (a mod S_)) as [H1|H1]; [auto|]. destruct (Z.ltb_spec infRep (b mod S_)) as [H2|H2]; [auto|].
    destruct Hc as [?|[?|[[Ei E]|[Ei E]]]]; [lia|lia| |].
    + assert (Ez : b mod S_ = 0) by lia. rewrite Ei, Ez, Z.eqb_refl. exact Hq.
    + assert (Ez : a mod S_ = 0) by lia. rewrite Ei, Ez, Z.eqb_refl, orb_true_r. exact Hq.
  - rewrite !Hv. unfold nan, infinite in *. rewrite !abs_mod in *. intros Hna Hnb Hc.
    assert (Hi' : 0 <= infRep < S_) by lia. destruct (with_sign_fields (xorb (negative a) (negative b)) _ Hi') as [Hf Hg]. rewrite abs_mod in Hf.
    assert (Hm : mulXf3 a b = infRep + sign_bit_of (xorb (negative a) (negative b))).
    { rewrite mul_unusual by (done || lia). rewrite !(proj2 (Z.ltb_ge infRep _)) by lia.
      destruct Hc as [[E1 E2]|[E1 E2]]; rewrite E1, Z.eqb_refl, (proj2 (Z.eqb_neq infRep 0)), (proj2 (Z.eqb_neq _ 0)), ?andb_false_r, ?orb_true_r by lia; done. }
    by rewrite Hm.
Qed.

End multiplication.

(** The largest number doubled overflows to infinity; the square of the least vanishes. *)
Lemma multiplication_rounds_witness :
  delivers (F := SINGLE) (value (F := SINGLE) 0x7f7fffff * value (F := SINGLE) 0xc0000000) (2 ^ (@exponentBias SINGLE + @significandBits SINGLE - 1))
    (xorb (negative (F := SINGLE) 0x7f7fffff) (negative (F := SINGLE) 0xc0000000)) (mulXf3 (F := SINGLE) 0x7f7fffff 0xc0000000) /\
  mulXf3 (F := SINGLE) 0x7f7fffff 0xc0000000 = 0xff800000 /\ mulXf3 (F := SINGLE) 1 0x80000001 = 0x80000000.
Proof.
  split; [|split; reflexivity].
  refine (proj1 (multiplication_rounds (F := SINGLE) 0x7f7fffff 0xc0000000 _ _) _ _); [by split|by split|reflexivity|reflexivity].
Defined.
