(* ===== verification/SoftConv.v ===== *)
(** * Comparison and conversions ([comparesf2.c], [fp_fixint_impl.inc],
      [fp_fixuint_impl.inc], [floatsisf.c], [fp_extend_impl.inc], [fp_trunc_impl.inc])

    Comparison is that of the values; conversion to an integer truncates; conversion from an
    integer or to a narrower format gives the nearest representation; conversion to a wider
    format is exact. *)
From S2P Require Import Prelude Softfloat FloatSpec FloatBits.

Section conversions.
Context `{F : Format} `{!FormatOk F}.

Abbreviation s := (@significandBits F).
Abbreviation e := (@exponentBits F).
Abbreviation I := (@implicitBit F).
Abbreviation w := (@typeWidth F).
Abbreviation S_ := (@signBit F).
Abbreviation bias := (@exponentBias F).
Abbreviation X := (@maxExponent F).

(** The units in 1. *)
Definition one : Z := 2 ^ (bias + s - 1).

Lemma one_pos : 0 < one.
Proof. pose proof bias_pos. pose proof s_pos. apply pow_pos. lia. Qed.

(** ** Comparison *)

Lemma srep_eq r : 0 <= r < 2 ^ w -> srep r = r mod S_ - sign_bit_of (negative r).
Proof.
  intros Hr. destruct (abs_cases r Hr) as [Em Hm]. pose proof sizes as (Hi & He & Hs & Hw & _).
  pose proof s_pos. pose proof e_range. pose proof width_split.
  assert (Hh : 2 ^ (w - 1) = S_) by (rewrite sign_pow, width_split; f_equal; lia).
  unfold srep, sign_bit_of. destruct (negative r).
  - transitivity (swrap w (r - 2 ^ w)).
    + apply swrap_eq; [lia|]. replace (r - 2 ^ w) with (r + -1 * 2 ^ w) by lia. rewrite Z.mod_add by lia. done.
    + rewrite swrap_small; [lia|lia|]. rewrite Hh. lia.
  - rewrite swrap_small; [lia|lia|]. rewrite Hh. lia.
Qed.

Definition sign_of_compare (c : comparison) : Z := match c with Lt => -1 | Eq => 0 | Gt => 1 end.

Lemma compare_order x y : (if x <? y then -1 else if x =? y then 0 else 1) = sign_of_compare (Z.compare x y).
Proof.
  destruct (Z.ltb_spec x y), (Z.eqb_spec x y), (Z.compare_spec x y); try done; lia.
Qed.

Lemma mag_compare x y : 0 <= x -> 0 <= y -> Z.compare (mag x) (mag y) = Z.compare x y.
Proof.
  intros Hx Hy. destruct (Z.compare_spec x y) as [->|H|H].
  - apply Z.compare_refl.
  - apply Z.compare_lt_iff, mag_mono; lia.
  - apply Z.compare_gt_iff, mag_mono; lia.
Qed.

(** Nonzero magnitudes below the sign bit with signs, as two's-complement integers. *)
Lemma compare_signed x y (p q : bool) : 0 <= x < S_ -> 0 <= y < S_ -> x <> 0 \/ y <> 0 ->
  (if 0 <=? Z.land (x - sign_bit_of p) (y - sign_bit_of q) then
     (if x - sign_bit_of p <? y - sign_bit_of q then -1 else if x - sign_bit_of p =? y - sign_bit_of q then 0 else 1)
   else (if y - sign_bit_of q <? x - sign_bit_of p then -1 else if x - sign_bit_of p =? y - sign_bit_of q then 0 else 1)) =
  sign_of_compare (Z.compare (if p then - mag x else mag x) (if q then - mag y else mag y)).
Proof.
  intros Hx Hy Hne. pose proof (mag_compare x y ltac:(lia) ltac:(lia)) as Hcmp. pose proof (mag_nonneg x ltac:(lia)). pose proof (mag_nonneg y ltac:(lia)).
  assert (Hpos : 0 < mag x + mag y) by (destruct Hne; [pose proof (mag_pos x)|pose proof (mag_pos y)]; lia).
  unfold sign_bit_of. rewrite (Z.eqb_sym (x - _)). destruct p, q.
  - rewrite (proj2 (Z.leb_gt _ _)) by (apply Z.land_neg; lia). rewrite compare_order, Z.compare_opp, mag_compare by lia.
    f_equal. rewrite <- !Z.add_opp_r, !(Z.add_comm _ (- S_)). apply Z.add_compare_mono_l.
  - rewrite (proj2 (Z.leb_le _ _)) by (apply Z.land_nonneg; lia). rewrite (proj2 (Z.ltb_lt _ _)) by lia.
    rewrite (proj2 (Z.compare_lt_iff _ _)) by lia. done.
  - rewrite (proj2 (Z.leb_le _ _)) by (apply Z.land_nonneg; lia). rewrite (proj2 (Z.ltb_ge _ _)), (proj2 (Z.eqb_neq _ _)) by lia.
    rewrite (proj2 (Z.compare_gt_iff _ _)) by lia. done.
  - rewrite (proj2 (Z.leb_le _ _)) by (apply Z.land_nonneg; lia). rewrite (Z.eqb_sym (y - 0)), compare_order, Hcmp, !Z.sub_0_r. done.
Qed.

(** C12. Comparison in software is that of the values, infinities included and the two zeros
    equal, unless an operand is not a number; then [__lesf2] says greater, [__gesf2] less,
    and [__unordsf2] says so. *)
Theorem comparison_orders a b : 0 <= a < 2 ^ typeWidth -> 0 <= b < 2 ^ typeWidth ->
  (unordsf2 a b = true <-> nan a \/ nan b) /\
  lesf2 a b = (if unordsf2 a b then 1 else sign_of_compare (Z.compare (value a) (value b))) /\
  gesf2 a b = (if unordsf2 a b then -1 else sign_of_compare (Z.compare (value a) (value b))).
Proof.
  intros Ha Hb. destruct (abs_cases a Ha) as [_ Ha']. destruct (abs_cases b Hb) as [_ Hb'].
  pose proof sizes as (Hi & He & Hs & Hw & _).
  assert (Hc : forall u, compare_reps u a b = if unordsf2 a b then u else sign_of_compare (Z.compare (value a) (value b))).
  { intros u. unfold compare_reps, unordsf2. destruct (_ || _); [done|]. rewrite !srep_eq, !value_eq, !abs_mod by done.
    destruct (Z.eqb_spec (Z.lor (a mod S_) (b mod S_)) 0) as [Hz|Hz].
    - apply Z.lor_eq_0_iff in Hz as [-> ->]. by destruct (negative a), (negative b).
    - assert (Hne : a mod S_ <> 0 \/ b mod S_ <> 0).
      { destruct (decide (a mod S_ = 0)) as [E|]; [right; intros E'; by rewrite E, E' in Hz|by left]. }
      by apply compare_signed. }
  split; [|split; apply Hc]. unfold unordsf2, nan. rewrite orb_true_iff, !Z.ltb_lt. done.
Qed.

(** ** To an integer *)

(** The integral part, by the exponent and the significand. *)
Lemma integral_part r : 0 <= r < 2 ^ w ->
  let exponent := Z.shiftr (Z.land r absMask) s - bias in
  let significand := Z.lor (Z.land (Z.land r absMask) significandMask) implicitBit in
  (exponent < 0 -> mag (r mod S_) / one = 0) /\
  (0 <= exponent -> 2 ^ exponent <= mag (r mod S_) / one < 2 ^ (exponent + 1) /\
    mag (r mod S_) / one = if exponent <? s then Z.shiftr significand (s - exponent) else Z.shiftl significand (exponent - s)).
Proof.
  intros Hr. cbv zeta. pose proof s_pos. pose proof bias_pos. pose proof sizes as (Hi & He & Hs & Hw & Hinf & H16 & He28). pose proof one_pos as H1.
  destruct (abs_cases r Hr) as [_ Hm]. rewrite abs_mod, significand_mod, Z.shiftr_div_pow2, <- implicit_pow by lia. set (m := r mod S_) in *.
  pose proof (Z.div_mod m I ltac:(lia)) as Em. pose proof (Z.mod_pos_bound m I ltac:(lia)) as Hf.
  assert (HE : 0 <= m / I) by (apply Z.div_pos; lia). rewrite lor_implicit, (proj2 (Z.ltb_lt (m mod I) I)) by lia.
  set (q := m mod I + I). assert (Hq : I <= q < 2 * I) by lia. rewrite implicit_pow in Hq.
  split.
  - intros Hk. apply Z.div_small. split; [apply mag_nonneg; lia|]. unfold mag, one. fold I.
    destruct (Z.eqb_spec (m / I) 0) as [E0|E0].
    + assert (2 ^ s <= 2 ^ (bias + s - 1)) by (apply Z.pow_le_mono_r; lia). rewrite <- implicit_pow in *. lia.
    + rewrite (Z.add_comm I). fold q. replace (bias + s - 1) with (s + 1 + (bias - 2)) by lia. rewrite Z.pow_add_r, (Z.pow_add_r 2 s 1) by lia. change (2 ^ 1) with 2.
      assert (2 ^ (m / I - 1) <= 2 ^ (bias - 2)) by (apply Z.pow_le_mono_r; lia). assert (0 < 2 ^ (m / I - 1)) by (apply pow_pos; lia).
      assert (q * 2 ^ (m / I - 1) < 2 ^ s * 2 * 2 ^ (m / I - 1)) by (apply Z.mul_lt_mono_pos_r; lia).
      assert (2 ^ s * 2 * 2 ^ (m / I - 1) <= 2 ^ s * 2 * 2 ^ (bias - 2)) by (apply Z.mul_le_mono_nonneg_l; lia). lia.
  - intros Hk. set (k := m / I - bias) in *.
    assert (Hmag : mag m = q * 2 ^ k * 2 ^ (bias - 1)).
    { unfold mag. fold I. rewrite (proj2 (Z.eqb_neq _ _)), (Z.add_comm I) by lia. fold q. rewrite <- Z.mul_assoc, <- Z.pow_add_r by lia. do 2 f_equal. lia. }
    assert (Hone : one = 2 ^ s * 2 ^ (bias - 1)) by (unfold one; rewrite <- Z.pow_add_r by lia; f_equal; lia).
    assert (Hdiv : mag m / one = q * 2 ^ k / 2 ^ s) by (rewrite Hmag, Hone; apply Z.div_mul_cancel_r; apply Z.pow_nonzero; lia).
    pose proof (pow_pos k Hk) as Hpk. pose proof (pow_pos s ltac:(lia)) as Hps. rewrite Hdiv. split.
    + rewrite (Z.pow_add_r 2 k 1) by lia. change (2 ^ 1) with 2. assert (2 ^ s * 2 ^ k <= q * 2 ^ k) by (apply Z.mul_le_mono_nonneg_r; lia).
      assert (q * 2 ^ k < 2 * 2 ^ s * 2 ^ k) by (apply Z.mul_lt_mono_pos_r; lia).
      split; [apply Z.div_le_lower_bound|apply Z.div_lt_upper_bound]; lia.
    + destruct (Z.ltb_spec k s).
      * rewrite Z.shiftr_div_pow2 by lia. replace s with (s - k + k) at 1 by lia. rewrite Z.pow_add_r by lia. apply Z.div_mul_cancel_r; apply Z.pow_nonzero; lia.
      * rewrite Z.shiftl_mul_pow2 by lia. replace k with (k - s + s) at 1 by lia. rewrite Z.pow_add_r, Z.mul_assoc by lia. apply Z.div_mul. lia.
Qed.

Lemma quot_value r : 0 <= r < 2 ^ w -> Z.quot (value r) one = (if negative r then -1 else 1) * (mag (r mod S_) / one).
Proof.
  intros Hr. destruct (abs_cases r Hr) as [_ Hm]. pose proof one_pos. pose proof (mag_nonneg _ (proj1 Hm)). rewrite value_eq.
  destruct (negative r); rewrite ?Z.quot_opp_l, Z.quot_div_nonneg by lia; lia.
Qed.

(** C11. Conversion to a signed integer of [W] bits truncates towards zero whatever fits, the
    least integer included. It saturates from [2 ^ W] on; in between, positive values
    that do not fit come out negative. To an unsigned integer it truncates or saturates,
    and negative numbers give 0. *)
Theorem fix_truncates W a : 1 <= W -> 0 <= a < 2 ^ typeWidth ->
  let t := Z.quot (value a) one in
  fixint W a = (if Z.abs t <? 2 ^ W then swrap W t else if negative a then - 2 ^ (W - 1) else 2 ^ (W - 1) - 1) /\
  (- 2 ^ (W - 1) <= t < 2 ^ (W - 1) -> fixint W a = t) /\
  fixuint W a = (if negative a then 0 else Z.min t (2 ^ W - 1)).
Proof.
  intros HW Ha t. destruct (integral_part a Ha) as [Hneg Hpos]. pose proof s_pos. pose proof one_pos.
  destruct (abs_cases a Ha) as [_ Hm]. pose proof (mag_nonneg _ (proj1 Hm)) as Hmag.
  assert (HT : 0 <= mag (a mod S_) / one) by (apply Z.div_pos; lia).
  assert (Et : t = (if negative a then -1 else 1) * (mag (a mod S_) / one)) by (by apply quot_value).
  assert (Hpw : 2 ^ W = 2 * 2 ^ (W - 1)) by (rewrite <- Z.pow_succ_r by lia; f_equal; lia). pose proof (pow_pos (W - 1) ltac:(lia)).
  set (T := mag (a mod S_) / one) in *. set (k := Z.shiftr (Z.land a absMask) s - bias) in *.
  set (q := Z.lor (Z.land (Z.land a absMask) significandMask) implicitBit) in *.
  assert (Hmono : forall i j, 0 <= i <= j -> 2 ^ i <= 2 ^ j) by (intros; apply Z.pow_le_mono_r; lia).
  assert (Hk2 : 0 <= k -> (W <= k -> 2 ^ W <= T) /\ (k < W -> T < 2 ^ W)).
  { intros Hk. destruct (Hpos Hk) as [HTk _]. pose proof (Hmono W k). pose proof (Hmono (k + 1) W). lia. }
  assert (Hfix : fixint W a = (if Z.abs t <? 2 ^ W then swrap W t else if negative a then - 2 ^ (W - 1) else 2 ^ (W - 1) - 1)).
  { unfold fixint. fold k q (negative a).
    assert (Hmax : (2 ^ W - 1) / 2 = 2 ^ (W - 1) - 1) by (symmetry; apply (Z.div_unique_pos _ _ _ 1); lia). rewrite Hmax.
    assert (Habs : Z.abs t = T) by (rewrite Et; destruct (negative a); lia).
    destruct (Z.ltb_spec k 0) as [Hk|Hk].
    { rewrite Et, Hneg, Z.mul_0_r by done. rewrite (proj2 (Z.ltb_lt _ _)), swrap_small by lia. done. }
    destruct (Hk2 Hk) as [Hk3 Hk4]. destruct (Hpos Hk) as [_ HTv]. rewrite Habs. destruct (Z.leb_spec W k) as [Hw|Hw].
    - rewrite (proj2 (Z.ltb_ge _ _)) by lia. destruct (negative a); cbn [Z.eqb Pos.eqb]; lia.
    - rewrite (proj2 (Z.ltb_lt T _)), Et by lia. destruct (k <? s); rewrite HTv; [done|].
      apply swrap_eq; [lia|]. rewrite <- Zmult_mod_idemp_r, swrap_mod, Zmult_mod_idemp_r by lia. done. }
  split; [done|]. split.
  - intros Ht. rewrite Hfix, (proj2 (Z.ltb_lt _ _)), swrap_small by lia. done.
  - unfold fixuint. fold k q (negative a). destruct (negative a); [done|]. change (1 =? -1) with false. cbn [orb].
    destruct (Z.ltb_spec k 0) as [Hk|Hk]; [rewrite Et, Hneg by done; lia|].
    destruct (Hk2 Hk) as [Hk3 Hk4]. destruct (Hpos Hk) as [_ HTv]. destruct (Z.leb_spec W k) as [Hw|Hw]; [lia|].
    rewrite Z.min_l by lia. rewrite Et, Z.mul_1_l, HTv. rewrite HTv in Hk4, HT. destruct (k <? s); apply wrap_small; lia.
Qed.

(** ** From an integer *)

Lemma lxor_implicit q : I <= q < 2 * I -> Z.lxor q implicitBit = q - I.
Proof.
  intros Hq. pose proof s_pos. pose proof (lxor_split s ltac:(lia)) as Hl. rewrite implicit_pow in *.
  specialize (Hl (q - 2 ^ s) 0 1 1). rewrite Z.lxor_0_r, Z.mul_1_r, Z.add_0_l in Hl.
  replace (q - 2 ^ s + 2 ^ s) with q in Hl by lia. rewrite Hl by lia. change (Z.lxor 1 1) with 0. lia.
Qed.

(** Above the fraction, an even number. *)
Lemma even_exponent n r : Z.even (r + n * I) = Z.even r.
Proof.
  pose proof s_pos. rewrite implicit_pow, Z.even_add, Z.even_mul, (Z.even_pow 2 s) by lia. rewrite orb_true_r. by destruct (Z.even r).
Qed.

Lemma float_abs_ok a : 0 < a < 2 ^ 32 -> 32 <= bias -> 32 <= w ->
  nearest (a * one) 1 (float_abs 32 a).
Proof.
  intros Ha Hb Hw32. pose proof s_pos. pose proof bias_pos. pose proof e_range. pose proof width_split.
  pose proof sizes as (Hi & He & Hs & Hw & Hinf & H16 & He28). pose proof inf_value as Hiv. pose proof max_pow as Hmax. pose proof bias_pow as Hbias.
  assert (HX : X = 2 * bias + 1).
  { rewrite Hmax, Hbias. replace e with (Z.succ (e - 1)) at 1 by lia. rewrite Z.pow_succ_r by lia. lia. }
  unfold float_abs, builtin_clz. replace (32 - 1 - (32 - 1 - Z.log2 a)) with (Z.log2 a) by lia. set (x := Z.log2 a).
  assert (Hx : 0 <= x < 32) by (unfold x; split; [apply Z.log2_nonneg|apply Z.log2_lt_pow2; lia]).
  pose proof (Z.log2_spec a ltac:(lia)) as Hlog. fold x in Hlog.
  assert (Hexp : rep (Z.shiftl (x + bias) s) = (x + bias) * I).
  { rewrite Z.shiftl_mul_pow2, <- implicit_pow by lia. apply rep_small. split; [apply Z.mul_nonneg_nonneg; lia|].
    assert ((x + bias) * I <= X * I) by (apply Z.mul_le_mono_nonneg_r; lia). lia. }
  assert (Hbig : forall q, I <= q <= 2 * I -> (x + bias - 1) * I + q <= infRep /\ 0 <= (x + bias - 1) * I).
  { intros q Hq. split; [|apply Z.mul_nonneg_nonneg; lia].
    assert ((x + bias + 1) * I <= X * I) by (apply Z.mul_le_mono_nonneg_r; lia). lia. }
  cbv zeta. rewrite Hexp. destruct (Z.leb_spec x s) as [Hxs|Hxs].
  - destruct (log2_shift a s) as [Hk Hr]; [split; [lia|]|lia|].
    { apply (Z.lt_le_trans _ _ _ (proj2 Hlog)). apply Z.pow_le_mono_r; lia. }
    fold x in Hk, Hr. rewrite Z.pow_add_r in Hr by lia. change (2 ^ 1) with 2 in Hr. rewrite <- implicit_pow in Hr.
    rewrite Z.shiftl_mul_pow2, (rep_small (a * _)), lxor_implicit by lia. set (q := a * 2 ^ (s - x)) in *.
    pose proof (Hbig q ltac:(lia)). assert (Hv : q - I + (x + bias) * I = (x + bias - 1) * I + q) by lia. rewrite Hv, rep_small by lia.
    assert (Hmag : a * one = mag ((x + bias - 1) * I + q)).
    { rewrite mag_at by lia. unfold q, one. rewrite <- Z.mul_assoc, <- Z.pow_add_r by lia. do 2 f_equal. lia. }
    rewrite Hmag. apply nearest_exact. lia.
  - set (n := x - s). pose proof (pow_pos n ltac:(lia)) as Hpn. pose proof (pow_pos (n - 1) ltac:(lia)).
    assert (Hn2 : 2 ^ n = 2 * 2 ^ (n - 1)) by (rewrite <- Z.pow_succ_r by lia; f_equal; lia).
    assert (Hq : I <= a / 2 ^ n < 2 * I).
    { assert (Hxe : 2 ^ x = 2 ^ n * I) by (rewrite implicit_pow, <- Z.pow_add_r by lia; f_equal; lia).
      rewrite Z.pow_succ_r in Hlog by lia. split; [apply Z.div_le_lower_bound|apply Z.div_lt_upper_bound]; lia. }
    rewrite (Z.shiftr_div_pow2 a n), lxor_implicit by lia. set (q := a / 2 ^ n) in *.
    pose proof (pow_pos (w - n) ltac:(lia)) as Hpwn. pose proof (Z.mod_pos_bound a (2 ^ n) Hpn) as Hm.
    assert (Hround : rep (Z.shiftl a (w - n)) = a mod 2 ^ n * 2 ^ (w - n)).
    { rewrite Z.shiftl_mul_pow2 by lia. unfold rep, wrap. replace w with (n + (w - n)) at 2 by lia. rewrite Z.pow_add_r by lia. apply Z.mul_mod_distr_r; lia. }
    assert (Hsign : S_ = 2 ^ (n - 1) * 2 ^ (w - n)) by (rewrite sign_pow, <- Z.pow_add_r by lia; f_equal; lia).
    rewrite Hround. pose proof (Hbig (q + 1) ltac:(lia)). pose proof (Hbig q ltac:(lia)).
    assert (Hres : forall r', I <= q -> r' = q - I \/ r' = q - I + 1 -> rep (r' + (x + bias) * I) = (x + bias - 1) * I + (r' + I)) by (intros; rewrite rep_small; lia).
    assert (Hround2 : rep ((let result := if signBit <? a mod 2 ^ n * 2 ^ (w - n) then rep (q - I + 1) else q - I in
        if a mod 2 ^ n * 2 ^ (w - n) =? signBit then rep (result + Z.land result 1) else result) + (x + bias) * I) = rounded n a ((x + bias - 1) * I + q)).
    { unfold rounded. rewrite Hsign, !(Z.mul_comm _ (2 ^ (w - n))). cbv zeta.
      assert (Hev : Z.even ((x + bias - 1) * I + q) = Z.even (q - I)).
      { replace ((x + bias - 1) * I + q) with ((q - I) + (x + bias) * I) by lia. apply even_exponent. }
      destruct (Z.compare_spec (a mod 2 ^ n) (2 ^ (n - 1))) as [E|E|E].
      - rewrite E, Z.ltb_irrefl, Z.eqb_refl, land_1, Hev. destruct (Z.even (q - I)); rewrite (rep_small (q - I + _)), Hres by lia; lia.
      - rewrite (proj2 (Z.ltb_ge _ _)), (proj2 (Z.eqb_neq _ _)), Hres by nia. lia.
      - rewrite (proj2 (Z.ltb_lt _ _)), (proj2 (Z.eqb_neq _ _)), (rep_small (q - I + 1)), Hres by nia. lia. }
    cbv zeta in Hround2. rewrite Hround2. apply (nearest_same (a * 2 ^ (x + bias - 1)) (1 * 2 ^ n)); [lia|lia| |].
    + unfold one. rewrite Z.mul_1_r, Z.mul_1_l, <- (Z.mul_assoc a), <- Z.pow_add_r by lia. do 2 f_equal. lia.
    + apply nearest_rounded; [lia|lia|apply (stands_weaken 0); [lia|apply stands_exact; lia]|done|lia|lia|lia|lia].
Qed.

(** Conversion from a 32-bit integer gives the nearest representation, ties to even, with
    its sign, and a positive zero; where the significand has room, that is the integer. *)
Theorem float_rounds a : 32 <= exponentBias -> 32 <= typeWidth ->
  (- 2 ^ 31 <= a < 2 ^ 31 -> delivers (a * one) 1 false (floatsi a)) /\
  (0 <= a < 2 ^ 32 -> delivers (a * one) 1 false (floatunsi a)).
Proof.
  intros Hb Hw32. pose proof one_pos as H1. pose proof s_pos. pose proof e_range. pose proof width_split. pose proof (pow_pos w ltac:(lia)).
  pose proof sizes as (Hi & He & Hs & Hw & Hinf & H16 & He28).
  assert (Hz : delivers (0 * one) 1 false 0) by (split; [lia|done]).
  split; intros Ha; unfold floatsi, floatunsi; destruct (Z.eqb_spec a 0) as [->|Hne]; try done.
  - assert (Hu : (if a <? 0 then u32 (- a) else a) = Z.abs a).
    { destruct (Z.ltb_spec a 0); [unfold u32, wrap; rewrite Z.mod_small; lia|lia]. }
    rewrite Hu. pose proof (float_abs_ok (Z.abs a) ltac:(lia) Hb Hw32) as Hn.
    assert (Hr : 0 <= float_abs 32 (Z.abs a) < S_) by (destruct Hn as [Hn _]; lia).
    change (if a <? 0 then signBit else 0) with (sign_bit_of (a <? 0)). rewrite lor_sign by done.
    apply (eq_delivers (if a <? 0 then - (Z.abs a * one) else Z.abs a * one)); [destruct (Z.ltb_spec a 0); lia|].
    apply delivers_sign; [nia|done].
  - pose proof (float_abs_ok a ltac:(lia) Hb Hw32) as Hn.
    assert (Hp : 0 < a * one) by (apply Z.mul_pos_pos; lia). pose proof (delivers_sign _ _ false false _ Hp Hn) as Hd.
    change (sign_bit_of false) with 0 in Hd. by rewrite Z.add_0_r in Hd.
Qed.

End conversions.

(** -0 and 0 are equal, -1 is less than the least denormal. *)
Lemma comparison_orders_witness :
  lesf2 (F := SINGLE) 0xbf800000 1 =
    (if unordsf2 (F := SINGLE) 0xbf800000 1 then 1 else sign_of_compare (Z.compare (value (F := SINGLE) 0xbf800000) (value (F := SINGLE) 1))) /\
  lesf2 (F := SINGLE) 0xbf800000 1 = -1 /\ lesf2 (F := SINGLE) 0x80000000 0 = 0.
Proof.
  split; [|split; reflexivity].
  refine (proj1 (proj2 (comparison_orders (F := SINGLE) 0xbf800000 1 _ _))); by split.
Defined.

(** -1.5 becomes -1; 2^31 comes out negative. *)
Lemma fix_truncates_witness :
  fixint (F := SINGLE) 32 0xbfc00000 =
    (if Z.abs (Z.quot (value (F := SINGLE) 0xbfc00000) (one (F := SINGLE))) <? 2 ^ 32
     then swrap 32 (Z.quot (value (F := SINGLE) 0xbfc00000) (one (F := SINGLE)))
     else if negative (F := SINGLE) 0xbfc00000 then - 2 ^ (32 - 1) else 2 ^ (32 - 1) - 1) /\
  fixint (F := SINGLE) 32 0xbfc00000 = -1 /\ fixint (F := SINGLE) 32 0x4f000000 = - 2 ^ 31 /\ fixint (F := SINGLE) 32 0x4f800000 = 2 ^ 31 - 1.
Proof.
  split; [|split; [|split]; reflexivity].
  refine (proj1 (fix_truncates (F := SINGLE) 32 0xbfc00000 _ _)); [lia|by split].
Defined.

(** 2^24 + 1 is halfway between two representations. *)
Lemma float_rounds_witness :
  delivers (F := SINGLE) (16777217 * one (F := SINGLE)) 1 false (floatsi (F := SINGLE) 16777217) /\
  floatsi (F := SINGLE) 16777217 = 0x4b800000 /\ floatsi (F := DOUBLE) (- 2 ^ 31) = 0xc1e0000000000000.
Proof.
  split; [|split; reflexivity].
  refine (proj1 (float_rounds (F := SINGLE) 16777217 _ _) _); [done|done|lia].
Defined.
