(* ===== verification/SoftDiv.v ===== *)
(** * Division ([divsf3.c], [divdf3.c])

    The quotient of two numbers by Newton's iteration for the reciprocal, in fixed point.
    The two files are the same but for their widths and the computation of the quotient,
    which is a parameter of the routine here: three steps in 32 bits for singles, and one
    more in 64 bits for doubles.  What the code claims of the reciprocal from exhaustive
    testing is proved: it is below the exact one, and close enough for the quotient to
    round correctly.  Results below the normal numbers become zero, and so does the least
    normal number where the significands are equal. *)
From S2P Require Import Prelude Softfloat FloatSpec FloatBits SoftConv SoftMul.

(** ** The code *)

Section code.
Context `{F : Format} (quotient_of : Z -> Z -> Z).

(** The operands that are zero, infinite or not a number. *)
Definition div_special (a b quotientSign : Z) : option Z :=
  let aAbs := Z.land a absMask in
  let bAbs := Z.land b absMask in
  if infRep <? aAbs then Some (Z.lor a quietBit)
  else if infRep <? bAbs then Some (Z.lor b quietBit)
  else if aAbs =? infRep then
    if bAbs =? infRep then Some qnanRep else Some (Z.lor aAbs quotientSign)
  else if bAbs =? infRep then Some quotientSign
  else if negb (nz aAbs) then
    if negb (nz bAbs) then Some qnanRep else Some quotientSign
  else if negb (nz bAbs) then Some (Z.lor infRep quotientSign)
  else None.

(** The quotient to the bits of a significand, the residual and the exponent. *)
Definition div_residual (quotient aSignificand bSignificand quotientExponent : Z) : Z * Z * Z :=
  if quotient <? rep (Z.shiftl implicitBit 1) then
    (quotient, rep (rep (Z.shiftl aSignificand (significandBits + 1)) - rep (quotient * bSignificand)), quotientExponent - 1)
  else
    let quotient := Z.shiftr quotient 1 in
    (quotient, rep (rep (Z.shiftl aSignificand significandBits) - rep (quotient * bSignificand)), quotientExponent).

(** From the range of the exponent on. *)
Definition div_round (quotient residual quotientExponent bSignificand quotientSign : Z) : Z :=
  let writtenExponent := quotientExponent + exponentBias in
  if maxExponent <=? writtenExponent then Z.lor infRep quotientSign
  else if writtenExponent <? 1 then quotientSign
  else
    let round := bSignificand <? rep (Z.shiftl residual 1) in
    let absResult := Z.land quotient significandMask in
    let absResult := Z.lor absResult (rep (Z.shiftl writtenExponent significandBits)) in
    let absResult := rep (absResult + b2z round) in
    Z.lor absResult quotientSign.

Definition divXf3 (a b : Z) : Z :=
  let aExponent := Z.land (Z.shiftr a significandBits) maxExponent in
  let bExponent := Z.land (Z.shiftr b significandBits) maxExponent in
  let quotientSign := Z.land (Z.lxor a b) signBit in
  let special := (maxExponent - 1 <=? u32 (aExponent - 1)) || (maxExponent - 1 <=? u32 (bExponent - 1)) in
  match (if special then div_special a b quotientSign else None) with
  | Some r => r
  | None =>
      let '(aSignificand, aScale) := if special then mul_normalize a else (Z.land a significandMask, 0) in
      let '(bSignificand, bScale) := if special then mul_normalize b else (Z.land b significandMask, 0) in
      let aSignificand := Z.lor aSignificand implicitBit in
      let bSignificand := Z.lor bSignificand implicitBit in
      let quotientExponent := s32 (aExponent - bExponent + (aScale - bScale)) in
      let '(quotient, residual, quotientExponent) :=
        div_residual (quotient_of aSignificand bSignificand) aSignificand bSignificand quotientExponent in
      div_round quotient residual quotientExponent bSignificand quotientSign
  end.
End code.

(** One step of the iteration, and the three that both take. *)
Definition refine_reciprocal (q31b reciprocal : Z) : Z :=
  let correction := u32 (- Z.shiftr (u64 (reciprocal * q31b)) 32) in
  u32 (Z.shiftr (u64 (reciprocal * correction)) 31).

Definition reciprocal_steps (q31b : Z) : Z :=
  let reciprocal := u32 (0x7504f333 - q31b) in
  let reciprocal := refine_reciprocal q31b reciprocal in
  let reciprocal := refine_reciprocal q31b reciprocal in
  refine_reciprocal q31b reciprocal.

Definition quotient_single (aSignificand bSignificand : Z) : Z :=
  let q31b := u32 (Z.shiftl bSignificand 8) in
  let reciprocal := u32 (reciprocal_steps q31b - 2) in
  u32 (Z.shiftr (u64 (reciprocal * u32 (Z.shiftl aSignificand 1))) 32).

(** The last step of doubles, in full width. *)
Definition refine_wide (recip32 q31b q63blo : Z) : Z :=
  let correction := u64 (- u64 (u64 (recip32 * q31b) + Z.shiftr (u64 (recip32 * q63blo)) 32)) in
  let cHi := u32 (Z.shiftr correction 32) in
  let cLo := u32 correction in
  u64 (u64 (recip32 * cHi) + Z.shiftr (u64 (recip32 * cLo)) 32).

Definition quotient_double (aSignificand bSignificand : Z) : Z :=
  let q31b := u32 (Z.shiftr bSignificand 21) in
  let recip32 := u32 (reciprocal_steps q31b - 1) in
  let q63blo := u32 (Z.shiftl bSignificand 11) in
  let reciprocal := u64 (refine_wide recip32 q31b q63blo - 2) in
  (wideMultiply64 (u64 (Z.shiftl aSignificand 2)) reciprocal).1.

Definition divsf3 (a b : Z) : Z := divXf3 (F := SINGLE) quotient_single a b.
Definition divdf3 (a b : Z) : Z := divXf3 (F := DOUBLE) quotient_double a b.

(** ** The reciprocal *)

Lemma refine_ok B R : 2 ^ 31 + 2 <= B < 2 ^ 32 -> 0 <= R < 2 ^ 32 -> Z.abs (2 ^ 63 - R * B) <= 2 ^ 60 ->
  let R' := refine_reciprocal B R in let E := 2 ^ 63 - R * B in let E' := 2 ^ 63 - R' * B in
  0 <= R' < 2 ^ 32 /\ E * E - 2 ^ 64 * B < E' * 2 ^ 63 <= E * E + 2 ^ 63 * B.
Proof.
  intros HB HR HE. cbv zeta. unfold refine_reciprocal.
  assert (HRB : 0 <= R * B < 2 ^ 64) by lia. assert (Hu : u64 (R * B) = R * B) by (by apply wrap_small).
  rewrite Hu, (Z.shiftr_div_pow2 (R * B)) by lia. pose proof (Z.div_mod (R * B) (2 ^ 32) ltac:(lia)) as ET. pose proof (Z.mod_pos_bound (R * B) (2 ^ 32) ltac:(lia)) as Ht.
  set (T := R * B / 2 ^ 32) in *. set (t := (R * B) mod 2 ^ 32) in *.
  assert (HT : 0 < T < 2 ^ 32) by lia.
  assert (Hc : u32 (- T) = 2 ^ 32 - T) by (unfold u32, wrap; symmetry; apply (Z.mod_unique_pos _ _ (-1)); lia). rewrite Hc.
  assert (HRc : 0 <= R * (2 ^ 32 - T) < 2 ^ 64) by nia. assert (Hu2 : u64 (R * (2 ^ 32 - T)) = R * (2 ^ 32 - T)) by (by apply wrap_small).
  rewrite Hu2, Z.shiftr_div_pow2 by lia.
  pose proof (Z.div_mod (R * (2 ^ 32 - T)) (2 ^ 31) ltac:(lia)) as ER. pose proof (Z.mod_pos_bound (R * (2 ^ 32 - T)) (2 ^ 31) ltac:(lia)) as Hr.
  set (R' := R * (2 ^ 32 - T) / 2 ^ 31) in *. set (r := (R * (2 ^ 32 - T)) mod 2 ^ 31) in *.
  assert (HR' : 0 <= R') by (apply Z.div_pos; lia).
  assert (HE' : (2 ^ 63 - R' * B) * 2 ^ 63 = (2 ^ 63 - R * B) * (2 ^ 63 - R * B) - t * (R * B) + r * (2 ^ 32 * B)).
  { assert (H1 : R * (2 ^ 32 * T) = R * (R * B - t)) by (f_equal; lia).
    assert (H2 : 2 ^ 63 * R' = R * (2 ^ 64 - R * B + t) - r * 2 ^ 32) by lia.
    transitivity (2 ^ 126 - 2 ^ 63 * R' * B); [ring|]. rewrite H2. ring. }
  assert (HRB2 : R * B <= 2 ^ 32 * B) by (apply Z.mul_le_mono_nonneg_r; lia).
  assert (Htx : 0 <= t * (R * B) <= (2 ^ 32 - 1) * (2 ^ 32 * B)) by (split; [apply Z.mul_nonneg_nonneg; lia|apply Z.mul_le_mono_nonneg; lia]).
  assert (Hrx : 0 <= r * (2 ^ 32 * B) <= (2 ^ 31 - 1) * (2 ^ 32 * B)) by (split; [apply Z.mul_nonneg_nonneg; lia|apply Z.mul_le_mono_nonneg_r; lia]).
  assert (Hsq : 0 <= (2 ^ 63 - R * B) * (2 ^ 63 - R * B)) by apply Z.square_nonneg.
  assert (Hlt : R' < 2 ^ 32).
  { assert (R' * B < 2 ^ 63 + 2 * B) by lia. assert (2 ^ 63 + 2 * B <= 2 ^ 32 * B) by lia. apply (Z.mul_lt_mono_pos_r B); lia. }
  assert (Hu3 : u32 R' = R') by (apply wrap_small; lia). rewrite Hu3. lia.
Qed.

(** The first estimate is off by less than a part in eleven. *)
Lemma estimate_ok B : 2 ^ 31 <= B < 2 ^ 32 ->
  let R := u32 (0x7504f333 - B) in 0 <= R < 2 ^ 32 /\ Z.abs (2 ^ 63 - R * B) <= 792 * 10 ^ 15.
Proof.
  intros HB R. assert (HR : R = 0x17504f333 - B) by (unfold R, u32, wrap; symmetry; apply (Z.mod_unique_pos _ _ (-1)); lia).
  rewrite HR. split; [lia|]. assert (H1 : 0 <= (B - 2 ^ 31) * (2 ^ 32 - B)) by (apply Z.mul_nonneg_nonneg; lia).
  pose proof (Z.square_nonneg (2 * B - 0x17504f333)) as H2. lia.
Qed.

Lemma square_bound E K : Z.abs E <= K -> 0 <= E * E <= K * K.
Proof. intros HE. rewrite <- Z.abs_square. nia. Qed.

(** After three steps, unless [B] is very close to a power of two. *)
Lemma reciprocal_steps_ok B : 2 ^ 31 + 2 <= B < 2 ^ 32 ->
  let R := reciprocal_steps B in 2 <= R < 2 ^ 32 /\ - (2 * B) < 2 ^ 63 - R * B <= 32 * 10 ^ 9.
Proof.
  intros HB. unfold reciprocal_steps. cbv zeta.
  destruct (estimate_ok B) as [HR0 HE0]; [lia|]. set (R0 := u32 _) in *.
  destruct (refine_ok B R0) as [HR1 HE1]; [lia|done|lia|]. set (R1 := refine_reciprocal B R0) in *.
  pose proof (square_bound _ _ HE0). assert (Hb1 : Z.abs (2 ^ 63 - R1 * B) <= 681 * 10 ^ 14) by lia.
  destruct (refine_ok B R1) as [HR2 HE2]; [lia|done|lia|]. set (R2 := refine_reciprocal B R1) in *.
  pose proof (square_bound _ _ Hb1). assert (Hb2 : Z.abs (2 ^ 63 - R2 * B) <= 504 * 10 ^ 12) by lia.
  destruct (refine_ok B R2) as [HR3 HE3]; [lia|done|lia|]. set (R3 := refine_reciprocal B R2) in *.
  pose proof (square_bound _ _ Hb2). assert (Hb3 : - (2 * B) < 2 ^ 63 - R3 * B <= 32 * 10 ^ 9) by lia.
  split; [|done]. split; [|lia]. apply Z.nlt_ge. intros Hlt. assert (R3 * B <= 1 * B) by (apply Z.mul_le_mono_nonneg_r; lia). lia.
Qed.

(** What the rounding needs of a quotient. *)
Definition quotient_close (s Q A b : Z) : Prop :=
  0 <= Q < 2 ^ (s + 2) /\ 0 < A * 2 ^ (s + 1) - b * Q /\ 20 * (A * 2 ^ (s + 1) - b * Q) < 29 * b.

(** *** Singles *)

(** After the bump, below the exact reciprocal by no more than 2^-27 of it. *)
Lemma reciprocal_single B : 2 ^ 31 <= B < 2 ^ 32 -> B = 2 ^ 31 \/ 2 ^ 31 + 2 <= B ->
  let R := u32 (reciprocal_steps B - 2) in 0 <= R < 2 ^ 32 /\ 0 < 2 ^ 63 - R * B < 41 * 10 ^ 9.
Proof.
  intros HB [->|HB2]; [vm_compute; intuition congruence|]. destruct (reciprocal_steps_ok B) as [HR HE]; [lia|].
  revert HR HE. generalize (reciprocal_steps B) as R. intros R HR HE. cbv zeta.
  assert (Hu : u32 (R - 2) = R - 2) by (apply wrap_small; lia). rewrite Hu. lia.
Qed.

Lemma raw_single R A b : 2 ^ 23 <= A < 2 ^ 24 -> 2 ^ 23 <= b < 2 ^ 24 -> 0 <= R < 2 ^ 32 -> 0 < 2 ^ 63 - R * (256 * b) < 41 * 10 ^ 9 ->
  quotient_close 23 (u32 (Z.shiftr (u64 (R * (2 * A))) 32)) A b.
Proof.
  unfold quotient_close. change (2 ^ (23 + 2)) with (2 ^ 25). change (2 ^ (23 + 1)) with (2 ^ 24).
  intros HA Hb HR HE.
  assert (HRA : 0 <= R * (2 * A) < 2 ^ 32 * 2 ^ 25) by (split; [apply Z.mul_nonneg_nonneg; lia|apply Z.mul_lt_mono_nonneg; lia]).
  assert (Hu : u64 (R * (2 * A)) = R * (2 * A)) by (apply wrap_small; lia). rewrite Hu, Z.shiftr_div_pow2 by lia.
  pose proof (Z.div_mod (R * (2 * A)) (2 ^ 32) ltac:(lia)) as EQ. pose proof (Z.mod_pos_bound (R * (2 * A)) (2 ^ 32) ltac:(lia)) as Hz.
  assert (HQ : 0 <= R * (2 * A) / 2 ^ 32 < 2 ^ 25) by (split; [apply Z.div_pos|apply Z.div_lt_upper_bound]; lia).
  revert EQ Hz HQ. generalize (R * (2 * A) / 2 ^ 32) as Q, ((R * (2 * A)) mod 2 ^ 32) as z. intros Q z EQ Hz HQ.
  assert (Hu2 : u32 Q = Q) by (apply wrap_small; lia). rewrite Hu2. split; [done|]. clear Hu Hu2.
  assert (HE' : exists E, E = 2 ^ 63 - R * (256 * b)) by eauto. destruct HE' as [E HE']. rewrite <- HE' in HE.
  assert (Hid : 2 ^ 40 * (A * 2 ^ 24 - b * Q) = 2 * A * E + 256 * b * z).
  { assert (H1 : 256 * b * (R * (2 * A)) = 256 * b * (2 ^ 32 * Q + z)) by (f_equal; done).
    assert (H2 : 2 * A * E = 2 * A * (2 ^ 63 - R * (256 * b))) by (f_equal; done). lia. }
  assert (HAE : 0 < 2 * A * E < 2 ^ 25 * (41 * 10 ^ 9)) by (split; [apply Z.mul_pos_pos; lia|apply Z.mul_lt_mono_nonneg; lia]).
  assert (Hbz : 0 <= 256 * b * z <= 256 * b * (2 ^ 32 - 1)) by (split; [apply Z.mul_nonneg_nonneg; lia|apply Z.mul_le_mono_nonneg_l; lia]).
  lia.
Qed.

Lemma quotient_single_ok A b : 2 ^ 23 <= A < 2 ^ 24 -> 2 ^ 23 <= b < 2 ^ 24 -> quotient_close 23 (quotient_single A b) A b.
Proof.
  intros HA Hb. destruct (reciprocal_single (256 * b)) as [HR HE]; [lia|lia|]. unfold quotient_single. cbv zeta.
  assert (HB : u32 (Z.shiftl b 8) = 256 * b).
  { rewrite Z.shiftl_mul_pow2 by lia. change (2 ^ 8) with 256. transitivity (b * 256); [apply wrap_small; lia|lia]. }
  assert (HA2 : u32 (Z.shiftl A 1) = 2 * A).
  { rewrite Z.shiftl_mul_pow2 by lia. change (2 ^ 1) with 2. transitivity (A * 2); [apply wrap_small; lia|lia]. }
  rewrite HB, HA2. revert HR HE. generalize (u32 (reciprocal_steps (256 * b) - 2)) as R. intros R HR HE. by apply raw_single.
Qed.

(** *** Doubles *)

Lemma reciprocal_double B : 2 ^ 31 <= B < 2 ^ 32 ->
  let R := u32 (reciprocal_steps B - 1) in 0 <= R < 2 ^ 32 /\ Z.abs (2 ^ 63 - R * B) <= 37 * 10 ^ 9.
Proof.
  intros HB. assert (B = 2 ^ 31 \/ B = 2 ^ 31 + 1 \/ 2 ^ 31 + 2 <= B) as [->|[->|HB2]] by lia; [vm_compute; intuition congruence..|].
  destruct (reciprocal_steps_ok B) as [HR HE]; [lia|].
  revert HR HE. generalize (reciprocal_steps B) as R. intros R HR HE. cbv zeta.
  assert (Hu : u32 (R - 1) = R - 1) by (apply wrap_small; lia). rewrite Hu. lia.
Qed.

Lemma refine_wide_ok R hi lo : 0 <= R < 2 ^ 32 -> 2 ^ 31 <= hi < 2 ^ 32 -> 0 <= lo < 2 ^ 32 -> Z.abs (2 ^ 63 - R * hi) <= 37 * 10 ^ 9 ->
  let B := 2 ^ 32 * hi + lo in let R' := refine_wide R hi lo in
  2 <= R' < 2 ^ 64 /\ - B < 2 ^ 126 - R' * B < 178 * 10 ^ 19.
Proof.
  intros HR Hhi Hlo HE. cbv zeta. unfold refine_wide. cbv zeta.
  assert (Hm : forall x, 0 <= x < 2 ^ 32 -> u64 (R * x) = R * x /\ 0 <= R * x <= (2 ^ 32 - 1) * (2 ^ 32 - 1)).
  { intros x Hx. assert (0 <= R * x <= (2 ^ 32 - 1) * (2 ^ 32 - 1)) by (split; [apply Z.mul_nonneg_nonneg|apply Z.mul_le_mono_nonneg]; lia).
    split; [apply wrap_small; lia|done]. }
  destruct (Hm hi ltac:(lia)) as [-> Hrh]. destruct (Hm lo ltac:(lia)) as [-> Hrl]. rewrite (Z.shiftr_div_pow2 (R * lo)) by lia.
  pose proof (Z.div_mod (R * lo) (2 ^ 32) ltac:(lia)) as EL. pose proof (Z.mod_pos_bound (R * lo) (2 ^ 32) ltac:(lia)) as Ht.
  revert EL Ht. generalize (R * lo / 2 ^ 32) as h, ((R * lo) mod 2 ^ 32) as t. intros h t EL Ht.
  assert (Hs : u64 (R * hi + h) = R * hi + h) by (apply wrap_small; lia). rewrite Hs.
  assert (Hc : u64 (- (R * hi + h)) = 2 ^ 64 - (R * hi + h)) by (unfold wrap; symmetry; apply (Z.mod_unique_pos _ _ (-1)); lia). rewrite Hc. clear Hs Hc.
  set (c := 2 ^ 64 - (R * hi + h)). assert (HcB : 2 ^ 32 * c = 2 ^ 96 - R * (2 ^ 32 * hi + lo) + t) by (unfold c; lia).
  assert (Hcr : 0 < c < 2 ^ 64) by (unfold c; lia). clearbody c.
  assert (HcHi : 0 <= c / 2 ^ 32 < 2 ^ 32) by (split; [apply Z.div_pos|apply Z.div_lt_upper_bound]; lia).
  rewrite (Z.shiftr_div_pow2 c) by lia. assert (Hu : u32 (c / 2 ^ 32) = c / 2 ^ 32) by (by apply wrap_small). rewrite Hu. change (u32 c) with (c mod 2 ^ 32).
  pose proof (Z.div_mod c (2 ^ 32) ltac:(lia)) as EC. pose proof (Z.mod_pos_bound c (2 ^ 32) ltac:(lia)) as HcLo.
  revert EC HcHi HcLo. generalize (c / 2 ^ 32) as cHi, (c mod 2 ^ 32) as cLo. intros cHi cLo EC HcHi HcLo. clear Hu.
  destruct (Hm cHi HcHi) as [-> Hrch]. destruct (Hm cLo HcLo) as [-> Hrcl]. rewrite Z.shiftr_div_pow2 by lia.
  pose proof (Z.div_mod (R * cLo) (2 ^ 32) ltac:(lia)) as ER. pose proof (Z.mod_pos_bound (R * cLo) (2 ^ 32) ltac:(lia)) as Hr.
  revert ER Hr. generalize (R * cLo / 2 ^ 32) as q, ((R * cLo) mod 2 ^ 32) as r. intros q r ER Hr.
  assert (Hu : u64 (R * cHi + q) = R * cHi + q) by (apply wrap_small; lia). rewrite Hu. clear Hu Hm.
  assert (HRc : 2 ^ 32 * (R * cHi + q) = R * c - r) by (rewrite EC; lia).
  assert (Hrange : 0 <= R * cHi + q < 2 ^ 64) by lia. revert HRc Hrange. generalize (R * cHi + q) as R'. intros R' HRc Hrange.
  assert (HB : exists B, B = 2 ^ 32 * hi + lo) by eauto. destruct HB as [B EB]. rewrite <- EB in *.
  assert (HBr : 2 ^ 63 <= B < 2 ^ 64) by lia.
  assert (HRB : 0 <= R * B <= 2 ^ 32 * B) by (split; [apply Z.mul_nonneg_nonneg|apply Z.mul_le_mono_nonneg_r]; lia).
  assert (HEB : Z.abs (2 ^ 95 - R * B) <= 2 ^ 32 * (37 * 10 ^ 9) + 2 ^ 64) by (rewrite EB; lia).
  pose proof (square_bound _ _ HEB) as Hsq.
  assert (Hid : (2 ^ 126 - R' * B) * 2 ^ 64 = (2 ^ 95 - R * B) * (2 ^ 95 - R * B) - t * (R * B) + r * (2 ^ 32 * B)).
  { assert (H1 : R * (2 ^ 32 * c) = R * (2 ^ 96 - R * B + t)) by (f_equal; done).
    assert (H2 : 2 ^ 64 * R' = R * (2 ^ 96 - R * B + t) - r * 2 ^ 32) by lia.
    transitivity (2 ^ 190 - 2 ^ 64 * R' * B); [ring|]. rewrite H2. ring. }
  assert (Htx : 0 <= t * (R * B) <= (2 ^ 32 - 1) * (2 ^ 32 * B)) by (split; [apply Z.mul_nonneg_nonneg; lia|apply Z.mul_le_mono_nonneg; lia]).
  assert (Hrx : 0 <= r * (2 ^ 32 * B) <= (2 ^ 32 - 1) * (2 ^ 32 * B)) by (split; [apply Z.mul_nonneg_nonneg; lia|apply Z.mul_le_mono_nonneg_r; lia]).
  assert (Hb : - B < 2 ^ 126 - R' * B < 178 * 10 ^ 19).
  { clear -Hid Htx Hrx Hsq HBr. replace (r * (2 ^ 32 * B)) with (2 ^ 32 * (r * B)) in * by ring. revert Hid Htx Hrx Hsq.
    generalize ((2 ^ 95 - R * B) * (2 ^ 95 - R * B)) as sq, (t * (R * B)) as tx, (r * B) as rx, (R' * B) as p. intros p rx tx sq. lia. }
  clear -Hb HBr Hrange. split; [|done]. split; [|lia].
  apply Z.nlt_ge. intros Hlt. assert (R' * B <= 1 * B) by (apply Z.mul_le_mono_nonneg_r; lia). lia.
Qed.

Lemma raw_double R A b : 2 ^ 52 <= A < 2 ^ 53 -> 2 ^ 52 <= b < 2 ^ 53 -> 0 <= R < 2 ^ 64 -> 0 < 2 ^ 126 - R * (2 ^ 11 * b) < 184 * 10 ^ 19 ->
  quotient_close 52 (4 * A * R / 2 ^ 64) A b.
Proof.
  intros HA Hb HR HE. unfold quotient_close. change (2 ^ (52 + 2)) with (2 ^ 54). change (2 ^ (52 + 1)) with (2 ^ 53).
  assert (HRA : 0 <= 4 * A * R < 2 ^ 55 * 2 ^ 64) by (split; [apply Z.mul_nonneg_nonneg; lia|apply Z.mul_lt_mono_nonneg; lia]).
  pose proof (Z.div_mod (4 * A * R) (2 ^ 64) ltac:(lia)) as EQ. pose proof (Z.mod_pos_bound (4 * A * R) (2 ^ 64) ltac:(lia)) as Hz.
  assert (HQ : 0 <= 4 * A * R / 2 ^ 64) by (apply Z.div_pos; lia).
  revert EQ Hz HQ. generalize (4 * A * R / 2 ^ 64) as Q, ((4 * A * R) mod 2 ^ 64) as z. intros Q z EQ Hz HQ.
  assert (HE' : exists E, E = 2 ^ 126 - R * (2 ^ 11 * b)) by eauto. destruct HE' as [E HE']. rewrite <- HE' in HE.
  assert (Hid : 2 ^ 75 * (A * 2 ^ 53 - b * Q) = 4 * A * E + 2 ^ 11 * b * z).
  { assert (H1 : 2 ^ 11 * b * (4 * A * R) = 2 ^ 11 * b * (2 ^ 64 * Q + z)) by (f_equal; done).
    assert (H2 : 4 * A * E = 4 * A * (2 ^ 126 - R * (2 ^ 11 * b))) by (f_equal; done). lia. }
  assert (HAE : 0 < 4 * A * E < 2 ^ 55 * (184 * 10 ^ 19)) by (split; [apply Z.mul_pos_pos; lia|apply Z.mul_lt_mono_nonneg; lia]).
  assert (Hbz : 0 <= 2 ^ 11 * b * z <= 2 ^ 11 * b * (2 ^ 64 - 1)) by (split; [apply Z.mul_nonneg_nonneg; lia|apply Z.mul_le_mono_nonneg_l; lia]).
  split; [|lia]. split; [done|]. apply Z.nle_gt. intros Hge. assert (b * 2 ^ 54 <= b * Q) by (apply Z.mul_le_mono_nonneg_l; lia). lia.
Qed.

Lemma quotient_double_ok A b : 2 ^ 52 <= A < 2 ^ 53 -> 2 ^ 52 <= b < 2 ^ 53 -> quotient_close 52 (quotient_double A b) A b.
Proof.
  intros HA Hb. pose proof (Z.div_mod b (2 ^ 21) ltac:(lia)) as Eb. pose proof (Z.mod_pos_bound b (2 ^ 21) ltac:(lia)) as Hl.
  assert (Hh : 2 ^ 31 <= b / 2 ^ 21 < 2 ^ 32) by (split; [apply Z.div_le_lower_bound|apply Z.div_lt_upper_bound]; lia).
  unfold quotient_double. cbv zeta. rewrite (Z.shiftr_div_pow2 b), (Z.shiftl_mul_pow2 b), (Z.shiftl_mul_pow2 A) by lia.
  assert (H1 : u32 (b / 2 ^ 21) = b / 2 ^ 21) by (apply wrap_small; lia).
  assert (H2 : u32 (b * 2 ^ 11) = 2 ^ 11 * (b mod 2 ^ 21)) by (unfold wrap; symmetry; apply (Z.mod_unique_pos _ _ (b / 2 ^ 21)); lia).
  assert (H3 : u64 (A * 2 ^ 2) = 4 * A) by (change (2 ^ 2) with 4; transitivity (A * 4); [apply wrap_small; lia|lia]).
  rewrite H1, H2, H3. clear H1 H2 H3. destruct (reciprocal_double (b / 2 ^ 21) Hh) as [HR HE].
  revert Eb Hl Hh HR HE. generalize (u32 (reciprocal_steps (b / 2 ^ 21) - 1)) as R. generalize (b / 2 ^ 21) as hi, (b mod 2 ^ 21) as lo. intros hi lo R Eb Hl Hh HR HE.
  destruct (refine_wide_ok R hi (2 ^ 11 * lo)) as [HR' HE']; [done|done|lia|done|].
  replace (2 ^ 32 * hi + 2 ^ 11 * lo) with (2 ^ 11 * b) in HE' by lia. revert HR' HE'. generalize (refine_wide R hi (2 ^ 11 * lo)) as R'. intros R' HR' HE'.
  assert (Hu : u64 (R' - 2) = R' - 2) by (apply wrap_small; lia). rewrite Hu, wideMultiply64_ok by lia. cbn [fst].
  apply raw_double; [done|done|lia|lia].
Qed.

(** ** The rounding *)

Lemma odd_divides (k : nat) d x : Z.odd d = true -> (d | 2 ^ Z.of_nat k * x) -> (d | x).
Proof.
  intros Hd. induction k as [|k IH]; intros Hx; [by rewrite Z.mul_1_l in Hx|]. apply IH.
  rewrite Nat2Z.inj_succ, Z.pow_succ_r, <- Z.mul_assoc in Hx by lia. destruct Hx as [c Hc].
  assert (Hev : Z.even c = true).
  { assert (H : Z.even (c * d) = true) by (rewrite <- Hc, Z.even_mul; done). rewrite Z.even_mul, <- (Z.negb_odd d), Hd, orb_false_r in H. done. }
  apply Z.even_spec in Hev as [c' ->]. exists c'. lia.
Qed.

Section division.
Context `{F : Format} `{!FormatOk F}.

Abbreviation s := (@significandBits F).
Abbreviation e := (@exponentBits F).
Abbreviation I := (@implicitBit F).
Abbreviation w := (@typeWidth F).
Abbreviation S_ := (@signBit F).
Abbreviation bias := (@exponentBias F).
Abbreviation X := (@maxExponent F).

(** Significands of [A / b] with [k] bits more: a quotient, not above it, and the residual. *)
Definition quotient_at (A b k q residual : Z) : Prop :=
  I <= q < 2 * I /\ residual = A * 2 ^ k - b * q /\ 0 < residual /\ 2 * residual < 3 * b.

(** The numbers of the code fit. *)
Lemma room : 2 <= I /\ 32 * I <= 2 ^ w /\ 2 ^ (s + 1) = 2 * I /\ 2 ^ (s + 2) = 4 * I /\ 2 ^ s = I.
Proof.
  pose proof sizes as (Hi & He & Hs & Hw & _ & H16 & _). pose proof s_pos. rewrite !Z.pow_add_r, <- implicit_pow by lia. lia.
Qed.

Lemma div_residual_ok Q A b n : I <= A < 2 * I -> I <= b < 2 * I -> quotient_close s Q A b ->
  exists q residual k, div_residual Q A b n = (q, residual, n + s - k) /\ quotient_at A b k q residual /\ (k = s \/ k = s + 1 /\ A <= b).
Proof.
  intros HA Hb (HQ & Hlo & Hhi). pose proof s_pos. destruct room as (Hi & Hw & E1 & E2 & E0). rewrite E1 in *. rewrite E2 in *. unfold div_residual.
  assert (Hone : rep (Z.shiftl implicitBit 1) = 2 * I) by (rewrite Z.shiftl_mul_pow2 by lia; change (2 ^ 1) with 2; rewrite rep_small; lia). rewrite Hone.
  assert (Hres : forall k q, 0 <= k -> 0 <= A * 2 ^ k - b * q < 2 ^ w -> rep (rep (Z.shiftl A k) - rep (q * b)) = A * 2 ^ k - b * q).
  { intros k q Hk Hr. rewrite Z.shiftl_mul_pow2 by lia. unfold rep, wrap. rewrite <- Zminus_mod, (Z.mul_comm q). by apply Z.mod_small. }
  destruct (Z.ltb_spec Q (2 * I)) as [Hlt|Hge].
  - assert (HAb : A <= b).
    { apply Z.nlt_ge. intros Hgt. assert (b * Q <= b * (2 * I - 1)) by (apply Z.mul_le_mono_nonneg_l; lia).
      assert ((b + 1) * (2 * I) <= A * (2 * I)) by (apply Z.mul_le_mono_nonneg_r; lia). lia. }
    assert (HQlo : I <= Q).
    { apply Z.nlt_ge. intros Hgt. assert (b * Q <= b * (I - 1)) by (apply Z.mul_le_mono_nonneg_l; lia).
      assert (I * (2 * I) <= A * (2 * I)) by (apply Z.mul_le_mono_nonneg_r; lia). assert (I * b <= I * (2 * I - 1)) by (apply Z.mul_le_mono_nonneg_l; lia). lia. }
    exists Q, (A * 2 ^ (s + 1) - b * Q), (s + 1). split; [rewrite Hres by (rewrite ?E1; lia); f_equal; lia|]. split; [|by right].
    split; [lia|]. split; [done|]. rewrite E1. lia.
  - pose proof (Z.div_mod Q 2 ltac:(lia)) as EQ. pose proof (Z.mod_pos_bound Q 2 ltac:(lia)) as Hp. rewrite (Z.shiftr_div_pow2 Q 1) by lia. change (2 ^ 1) with 2.
    revert EQ Hp. generalize (Q / 2) as q, (Q mod 2) as p. intros q p EQ Hp.
    assert (Hbq : b * Q = 2 * (b * q) + b * p) by (rewrite EQ; ring).
    assert (Hbp : 0 <= b * p <= b) by (assert (p = 0 \/ p = 1) as [-> | ->] by lia; lia).
    exists q, (A * 2 ^ s - b * q), s. split; [rewrite Hres by (rewrite ?E0; lia); f_equal; lia|]. split; [|by left].
    split; [lia|]. split; [done|]. rewrite E0. lia.
Qed.

(** A quotient of significands is never halfway. *)
Lemma no_tie A b k q residual : I <= A < 2 * I -> 0 <= k -> quotient_at A b k q residual -> 2 * residual <> b.
Proof.
  intros HA Hk (Hq & -> & _) Ht.
  assert (Hdiv : (2 * q + 1 | 2 ^ Z.of_nat (Z.to_nat (k + 1)) * A)).
  { exists b. rewrite Z2Nat.id, Z.pow_add_r by lia. change (2 ^ 1) with 2. lia. }
  apply odd_divides in Hdiv; [|rewrite Z.add_comm; apply Z.odd_add_mul_2]. apply Z.divide_pos_le in Hdiv; lia.
Qed.

Lemma mag_next t q : 0 <= t -> I <= q < 2 * I ->
  mag (t * I + q) = q * 2 ^ t /\ mag (t * I + q + 1) = (q + 1) * 2 ^ t /\ (q + 2) * 2 ^ t <= mag (t * I + q + 1 + 1).
Proof.
  intros Ht Hq. pose proof (pow_pos t Ht). pose proof implicit_pos. split; [apply mag_at; lia|]. split; [rewrite <- Z.add_assoc; apply mag_at; lia|].
  destruct (decide (q + 1 = 2 * I)) as [E|E].
  - replace (t * I + q + 1 + 1) with ((t + 1) * I + (I + 1)) by lia. rewrite mag_at by lia.
    rewrite Z.pow_add_r by lia. change (2 ^ 1) with 2. replace q with (2 * I - 1) by lia. lia.
  - replace (t * I + q + 1 + 1) with (t * I + (q + 2)) by lia. rewrite mag_at by lia. lia.
Qed.

Lemma quotient_nearest A b k q residual t : I <= A < 2 * I -> I <= b < 2 * I -> 0 <= k -> quotient_at A b k q residual ->
  0 <= t -> t * I + q < infRep -> nearest (A * 2 ^ k * 2 ^ t) b (t * I + q + b2z (b <? 2 * residual)).
Proof.
  intros HA Hb Hk Hat Ht Hinf. pose proof (no_tie A b k q residual HA Hk Hat) as Hnt. destruct Hat as (Hq & Er & Hpos & Hup). pose proof implicit_pos.
  pose proof (pow_pos t Ht) as Hp. destruct (mag_next t q Ht Hq) as (M0 & M1 & M2).
  assert (EN : A * 2 ^ k = b * q + residual) by lia. rewrite EN. set (p := 2 ^ t) in *.
  assert (Hr0 : 0 <= t * I + q) by (assert (0 <= t * I) by (apply Z.mul_nonneg_nonneg; lia); lia). set (r := t * I + q) in *. clearbody r p.
  assert (Hlow : b * (q * p) <= (b * q + residual) * p) by (assert (0 <= residual * p) by (apply Z.mul_nonneg_nonneg; lia); lia).
  destruct (Z.ltb_spec b (2 * residual)) as [Hgt|Hle]; cbn [b2z].
  - assert (Hhalf : b * p < 2 * residual * p) by (apply Z.mul_lt_mono_pos_r; lia).
    assert (Hthree : 2 * residual * p < 3 * b * p) by (apply Z.mul_lt_mono_pos_r; lia).
    destruct (Z.le_gt_cases ((b * q + residual) * p) (b * ((q + 1) * p))) as [Hin|Hout].
    + pose proof (nearest_between ((b * q + residual) * p) b r ltac:(lia)) as Hn. rewrite M0, M1 in Hn.
      rewrite (proj2 (Z.compare_gt_iff _ _)) in Hn by lia. apply Hn; lia.
    + destruct (decide (r + 1 = infRep)) as [Ei|Ei].
      * rewrite Ei. apply nearest_inf; [lia|]. rewrite <- Ei, M1. lia.
      * pose proof (nearest_between ((b * q + residual) * p) b (r + 1) ltac:(lia)) as Hn. rewrite M1 in Hn.
        assert (Hb2 : b * ((q + 2) * p) <= b * mag (r + 1 + 1)) by (apply Z.mul_le_mono_nonneg_l; lia).
        rewrite (proj2 (Z.compare_lt_iff _ _)) in Hn by lia. apply Hn; lia.
  - assert (Hhalf : 2 * residual * p < b * p) by (apply Z.mul_lt_mono_pos_r; lia).
    pose proof (nearest_between ((b * q + residual) * p) b r ltac:(lia)) as Hn. rewrite M0, M1 in Hn.
    rewrite (proj2 (Z.compare_lt_iff _ _)), Z.add_0_r in * by lia. apply Hn; lia.
Qed.

Lemma div_round_ok A b k q residual n z : I <= A < 2 * I -> I <= b < 2 * I -> 0 <= k -> quotient_at A b k q residual -> 1 <= n + bias ->
  exists r, div_round q residual n b (sign_bit_of z) = r + sign_bit_of z /\ nearest (A * 2 ^ k * 2 ^ (n + bias - 1)) b r.
Proof.
  intros HA Hb Hk Hat Hn. unfold div_round. set (E := n + bias) in *. pose proof s_pos. pose proof room as (Hi & Hw32 & _ & _ & Es).
  destruct (Hat) as (Hq & Er & Hpos & Hup). pose proof sizes as (_ & He & Hs & Hw & Hinf & H16 & _). pose proof inf_value as Hiv. pose proof max_pow as HX.
  destruct (Z.leb_spec X E) as [Hov|Hov].
  - exists infRep. split; [apply lor_sign; lia|]. apply nearest_inf; [lia|].
    assert (Hm : mag infRep = I * 2 ^ (X - 1)) by (rewrite Hiv; replace (X * I) with ((X - 1) * I + I) by lia; apply mag_at; lia). rewrite Hm.
    assert (Hp : 2 ^ (X - 1) <= 2 ^ (E - 1)) by (apply Z.pow_le_mono_r; lia). assert (Hp0 : 0 < 2 ^ (X - 1)) by (apply pow_pos; lia).
    assert (Hbq : b * I <= b * q) by (apply Z.mul_le_mono_nonneg_l; lia). assert (Hb0 : 0 <= b * I) by (apply Z.mul_nonneg_nonneg; lia).
    assert (H1 : b * I * 2 ^ (X - 1) <= A * 2 ^ k * 2 ^ (E - 1)) by (apply Z.mul_le_mono_nonneg; lia). lia.
  - rewrite (proj2 (Z.ltb_ge E 1)) by lia.
    assert (HE1 : 0 <= (E - 1) * I <= (X - 2) * I) by (split; [apply Z.mul_nonneg_nonneg; lia|apply Z.mul_le_mono_nonneg_r; lia]).
    assert (Hr : 0 <= (E - 1) * I + q < infRep) by lia.
    pose proof (quotient_nearest A b k q residual (E - 1) HA Hb Hk Hat ltac:(lia) ltac:(lia)) as Hnear.
    assert (Hres : rep (Z.shiftl residual 1) = 2 * residual).
    { rewrite Z.shiftl_mul_pow2 by lia. change (2 ^ 1) with 2. rewrite rep_small; lia. }
    rewrite Hres.
    assert (Hins : Z.lor (Z.land q significandMask) (rep (Z.shiftl E significandBits)) = (E - 1) * I + q).
    { pose proof (insert_exponent q E false) as Hi2. change (sign_bit_of false) with 0 in Hi2. rewrite Z.lor_0_r, Z.add_0_r in Hi2.
      rewrite Z.max_r in Hi2 by lia. apply Hi2; [lia|lia|rewrite (proj2 (Z.leb_le _ _)) by lia; lia|lia]. }
    rewrite Hins. pose proof (b2z_range (b <? 2 * residual)) as Hb2. rewrite rep_small by lia.
    eexists. split; [apply lor_sign; lia|done].
Qed.

(** The ratio of the significands, and that of the magnitudes. *)
Lemma ratio ma mb A b Ea Eb k u v : scaled (2 * s + 8) ma A Ea -> scaled (2 * s + 8) mb b Eb -> 0 <= k -> 0 <= u -> 0 <= v ->
  u - v = Ea - Eb + (bias + s - 1) - k -> A * 2 ^ k * 2 ^ u * mb = ma * one * b * 2 ^ v.
Proof.
  intros (HA & HEa & Ema) (Hb & HEb & Emb) Hk Hu Hv E. pose proof s_pos. pose proof bias_pos. set (N := 2 * s + 8) in *.
  apply (Z.mul_reg_r _ _ (2 ^ N)); [pose proof (pow_pos N); lia|]. transitivity (A * 2 ^ k * 2 ^ u * (mb * 2 ^ N)); [ring|]. rewrite Emb.
  transitivity (b * one * 2 ^ v * (ma * 2 ^ N)); [|ring]. rewrite Ema. unfold one.
  transitivity (A * b * (2 ^ k * 2 ^ u * 2 ^ (Eb - 1 + N))); [ring|]. transitivity (A * b * (2 ^ (bias + s - 1) * 2 ^ v * 2 ^ (Ea - 1 + N))); [|ring].
  rewrite <- !Z.pow_add_r by lia. do 2 f_equal. lia.
Qed.

Lemma div_body Q ma mb A b Ea Eb z : 0 < ma -> 0 < mb -> scaled (2 * s + 8) ma A Ea -> scaled (2 * s + 8) mb b Eb -> quotient_close s Q A b ->
  exists r, (let '(quotient, residual, n) := div_residual Q A b (Ea - Eb) in div_round quotient residual n b (sign_bit_of z)) = r + sign_bit_of z /\
    (I * mb < ma * one -> nearest (ma * one) mb r) /\ (ma * one <= I * mb -> r = 0).
Proof.
  intros Hma Hmb Sa Sb HQ. destruct (Sa) as (HA & HEa & _). destruct (Sb) as (Hb & HEb & _). pose proof s_pos. pose proof bias_pos. pose proof one_pos.
  pose proof room as (Hi & Hw32 & Es1 & _ & Es). pose proof max_pow. pose proof sizes as (_ & He & _).
  destruct (div_residual_ok Q A b (Ea - Eb) HA Hb HQ) as (q & residual & k & -> & Hat & Hk). set (n := Ea - Eb + s - k).
  destruct (Z.le_gt_cases 1 (n + bias)) as [Hn|Hn].
  - destruct (div_round_ok A b k q residual n z HA Hb ltac:(lia) Hat Hn) as (r & Hr & Hnear). exists r. split; [done|].
    pose proof (ratio ma mb A b Ea Eb k (n + bias - 1) 0 Sa Sb ltac:(lia) ltac:(lia) ltac:(lia) ltac:(lia)) as Hratio. rewrite Z.mul_1_r in Hratio.
    split; [intros _; apply (nearest_same (A * 2 ^ k * 2 ^ (n + bias - 1)) b); [lia|lia|lia|done]|].
    intros Hle. exfalso. destruct Hat as (Hq & Er & Hpos & _). pose proof (pow_pos (n + bias - 1) ltac:(lia)) as Hp.
    assert (HbA : b * I < A * 2 ^ k) by (assert (b * I <= b * q) by (apply Z.mul_le_mono_nonneg_l; lia); lia).
    assert (HbI : 0 <= b * I) by (apply Z.mul_nonneg_nonneg; lia).
    assert (Hmono : A * 2 ^ k * 1 <= A * 2 ^ k * 2 ^ (n + bias - 1)) by (apply Z.mul_le_mono_nonneg_l; lia).
    assert (Hlt3 : b * I < A * 2 ^ k * 2 ^ (n + bias - 1)) by lia. clear Hmono.
    apply (Z.mul_lt_mono_pos_r mb) in Hlt3; [|done]. rewrite Hratio in Hlt3. apply (Z.mul_le_mono_nonneg_r _ _ b) in Hle; lia.
  - exists 0. unfold div_round. rewrite (proj2 (Z.leb_gt _ _)), (proj2 (Z.ltb_lt _ _)) by lia. split; [done|]. split; [|done]. intros Hlt. exfalso.
    pose proof (ratio ma mb A b Ea Eb k 0 (1 - (n + bias)) Sa Sb ltac:(lia) ltac:(lia) ltac:(lia) ltac:(lia)) as Hratio. rewrite Z.mul_1_r in Hratio.
    assert (HAk : A * 2 ^ k <= b * (2 * I)).
    { destruct Hk as [->|[-> HAb]]; rewrite ?Es1, ?Es; [|apply Z.mul_le_mono_nonneg_r; lia].
      assert (A * I <= 2 * b * I) by (apply Z.mul_le_mono_nonneg_r; lia). lia. }
    assert (Hmono : 2 ^ 1 <= 2 ^ (1 - (n + bias))) by (apply Z.pow_le_mono_r; lia). change (2 ^ 1) with 2 in Hmono.
    assert (Hlt3 : ma * one * b * 2 <= ma * one * b * 2 ^ (1 - (n + bias))).
    { apply Z.mul_le_mono_nonneg_l; [|done]. apply Z.mul_nonneg_nonneg; [|lia]. apply Z.mul_nonneg_nonneg; lia. }
    apply (Z.mul_le_mono_nonneg_r _ _ mb) in HAk; [|lia]. apply (Z.mul_lt_mono_pos_r b) in Hlt; lia.
Qed.

(** ** The quotient of two numbers *)

(** What a division must deliver. *)
Definition divides (div : Z -> Z -> Z) : Prop := forall a b, 0 <= a < 2 ^ w -> 0 <= b < 2 ^ w ->
  let sign := xorb (negative a) (negative b) in
  (finite a -> finite b -> value b <> 0 ->
    if I * Z.abs (value b) <? Z.abs (value a) * one
    then delivers (Z.sgn (value b) * value a * one) (Z.abs (value b)) sign (div a b)
    else div a b = sign_bit_of sign) /\
  (nan a \/ nan b \/ infinite a /\ infinite b \/ value a = 0 /\ value b = 0 -> nan (div a b)) /\
  (infinite a /\ finite b \/ finite a /\ value a <> 0 /\ value b = 0 -> div a b = infRep + sign_bit_of sign) /\
  (finite a -> infinite b -> div a b = sign_bit_of sign).

Section quotient.
Context (quotient_of : Z -> Z -> Z).
Context (Hclose : forall A b, I <= A < 2 * I -> I <= b < 2 * I -> quotient_close s (quotient_of A b) A b).

Lemma div_finite a b : 0 <= a < 2 ^ w -> 0 <= b < 2 ^ w -> 0 < a mod S_ < infRep -> 0 < b mod S_ < infRep ->
  exists r, divXf3 quotient_of a b = r + sign_bit_of (xorb (negative a) (negative b)) /\
    (I * mag (b mod S_) < mag (a mod S_) * one -> nearest (mag (a mod S_) * one) (mag (b mod S_)) r) /\
    (mag (a mod S_) * one <= I * mag (b mod S_) -> r = 0).
Proof using Hclose FormatOk0.
  intros Ha Hb Hfa Hfb. pose proof s_pos. pose proof inf_value. pose proof max_pow as HX. pose proof width_range. pose proof width_split.
  pose proof sizes as (Hi & He & _ & _ & _ & _ & He28). change (2 ^ 16) with 65536 in *. change (2 ^ 28) with 268435456 in *.
  unfold divXf3. cbv zeta. rewrite (exponent_field a), (exponent_field b), !special_exponent by done.
  rewrite !(proj2 (Z.leb_gt infRep _)), !orb_false_r by lia. set (special := _ || _).
  assert (Hnone : (if special then div_special a b (Z.land (Z.lxor a b) S_) else None) = None).
  { destruct special; [|done]. unfold div_special. rewrite !abs_mod. unfold nz.
    rewrite !(proj2 (Z.ltb_ge infRep _)), !(proj2 (Z.eqb_neq _ infRep)), !(proj2 (Z.eqb_neq _ 0)) by lia. done. }
  rewrite Hnone.
  assert (Hspa : special = true \/ a mod S_ / I <> 0).
  { unfold special. destruct (Z.eqb_spec (a mod S_ / I) 0); [by left|by right]. }
  assert (Hspb : special = true \/ b mod S_ / I <> 0).
  { unfold special. destruct (Z.eqb_spec (b mod S_ / I) 0); [left; by rewrite orb_true_r|by right]. }
  destruct (mul_normalize_ok a special Ha Hfa Hspa) as (qa & ca & -> & Sa & Hca).
  destruct (mul_normalize_ok b special Hb Hfb Hspb) as (qb & cb & -> & Sb & Hcb).
  rewrite exponent_field in Sa, Sb.
  assert (HEa : 0 <= a mod S_ / I < X) by (split; [apply Z.div_pos|apply Z.div_lt_upper_bound]; lia).
  assert (HEb : 0 <= b mod S_ / I < X) by (split; [apply Z.div_pos|apply Z.div_lt_upper_bound]; lia).
  pose proof e_range.
  assert (Hs32 : s32 (a mod S_ / I - b mod S_ / I + (ca - cb)) = (a mod S_ / I + ca) - (b mod S_ / I + cb)).
  { transitivity (a mod S_ / I - b mod S_ / I + (ca - cb)); [apply swrap_small; [lia|]; change (2 ^ (32 - 1)) with 2147483648; lia|lia]. }
  rewrite Hs32, (sign_product a b) by done. destruct (Sa) as (HA & _). destruct (Sb) as (HB & _).
  apply div_body; [apply mag_pos; lia|apply mag_pos; lia|done|done|by apply Hclose].
Qed.

Lemma div_unusual a b : 0 <= a < 2 ^ w -> 0 <= b < 2 ^ w -> a mod S_ = 0 \/ b mod S_ = 0 \/ infRep <= a mod S_ \/ infRep <= b mod S_ ->
  divXf3 quotient_of a b =
    if infRep <? a mod S_ then Z.lor a quietBit
    else if infRep <? b mod S_ then Z.lor b quietBit
    else if (a mod S_ =? infRep) && (b mod S_ =? infRep) || (a mod S_ =? 0) && (b mod S_ =? 0) then qnanRep
    else (if (a mod S_ =? infRep) || negb (b mod S_ =? infRep) && (b mod S_ =? 0) then infRep else 0) +
      sign_bit_of (xorb (negative a) (negative b)).
Proof using FormatOk0.
  intros Ha Hb Hu. pose proof sizes as (Hi & _ & _ & _ & Hinf & H16 & _). unfold divXf3. cbv zeta. rewrite (exponent_field a), (exponent_field b), !special_exponent by done.
  assert (Hsp : (a mod S_ / I =? 0) || (infRep <=? a mod S_) || ((b mod S_ / I =? 0) || (infRep <=? b mod S_)) = true).
  { destruct Hu as [E|[E|[E|E]]]; rewrite ?E, ?Z.div_0_l, ?(proj2 (Z.leb_le _ _) E), ?orb_true_r by lia; done. }
  rewrite Hsp. unfold div_special. rewrite !abs_mod, (sign_product a b) by done. unfold nz.
  destruct (Z.ltb_spec infRep (a mod S_)) as [H1|H1]; [done|]. destruct (Z.ltb_spec infRep (b mod S_)) as [H2|H2]; [done|].
  destruct (Z.eqb_spec (a mod S_) infRep) as [H3|H3]; cbn [andb orb].
  - rewrite H3, lor_sign, (proj2 (Z.eqb_neq infRep 0)) by lia. cbn [andb]. rewrite orb_false_r. by destruct (Z.eqb_spec (b mod S_) infRep).
  - destruct (Z.eqb_spec (b mod S_) infRep) as [H4|H4]; cbn [andb orb negb].
    + rewrite H4, (proj2 (Z.eqb_neq infRep 0)), andb_false_r by lia. done.
    + rewrite lor_sign by lia. destruct (Z.eqb_spec (a mod S_) 0), (Z.eqb_spec (b mod S_) 0); cbn [andb negb]; try done. exfalso. lia.
Qed.

Lemma divXf3_divides : divides (divXf3 quotient_of).
Proof using Hclose FormatOk0.
  intros a b Ha Hb sign. destruct (abs_cases a Ha) as [_ Ha']. destruct (abs_cases b Hb) as [_ Hb']. pose proof sizes as (Hi & _ & _ & _ & Hinf & H16 & _).
  pose proof (quiet_nan a ltac:(lia)) as Hqa. pose proof (quiet_nan b ltac:(lia)) as Hqb. pose proof qnan_nan as Hq.
  assert (Hv : forall r, 0 <= r mod S_ -> value r = 0 <-> r mod S_ = 0).
  { intros r Hr. split; [|by apply value_zero]. rewrite value_eq. intros E. destruct (decide (r mod S_ = 0)) as [|Hne]; [done|].
    assert (Hp : 0 < r mod S_) by lia. pose proof (mag_pos _ Hp). destruct (negative r); lia. }
  rewrite !Hv by lia. unfold finite, infinite, nan in *. rewrite !abs_mod in *.
  split; [|split; [|split]].
  - intros Hfa Hfb Hz.
    assert (Hav : forall r, 0 <= r mod S_ -> Z.abs (value r) = mag (r mod S_)).
    { intros r Hr. rewrite value_eq. pose proof (mag_nonneg (r mod S_) Hr). destruct (negative r); lia. }
    assert (Hbp : 0 < b mod S_) by lia. rewrite !Hav by lia. pose proof (mag_pos _ Hbp) as Hmb.
    destruct (decide (a mod S_ = 0)) as [Ea|Ea].
    + assert (M0 : mag 0 = 0) by (apply (mag_at 0 0); lia).
      assert (HI : 0 <= I * mag (b mod S_)) by (apply Z.mul_nonneg_nonneg; lia).
      rewrite Ea, M0, (proj2 (Z.ltb_ge _ _)) by lia. rewrite div_unusual by (done || lia).
      rewrite Ea, (proj2 (Z.ltb_ge infRep 0)), (proj2 (Z.ltb_ge infRep (b mod S_))), (proj2 (Z.eqb_neq (b mod S_) 0)), (proj2 (Z.eqb_neq (b mod S_) infRep)), (proj2 (Z.eqb_neq 0 infRep)) by lia. done.
    + assert (Hap : 0 < a mod S_) by lia. destruct (div_finite a b Ha Hb) as (r & -> & Hn & Hr0); [lia|lia|]. pose proof (mag_pos _ Hap) as Hma. fold sign.
      destruct (Z.ltb_spec (I * mag (b mod S_)) (mag (a mod S_) * one)) as [Hlt|Hge]; [|by rewrite Hr0].
      apply (eq_delivers (if sign then - (mag (a mod S_) * one) else mag (a mod S_) * one)).
      * rewrite !value_eq. unfold sign. destruct (negative a), (negative b); cbn [xorb]; rewrite ?Z.sgn_opp, Z.sgn_pos by done; ring.
      * apply delivers_sign; [apply Z.mul_pos_pos; [done|apply one_pos]|by apply Hn].
  - intros Hc. rewrite div_unusual by (done || lia).
    destruct (Z.ltb_spec infRep (a mod S_)) as [H1|H1]; [auto|]. destruct (Z.ltb_spec infRep (b mod S_)) as [H2|H2]; [auto|].
    destruct Hc as [?|[?|[[E1 E2]|[E1 E2]]]]; [lia|lia| |]; rewrite E1, E2, Z.eqb_refl; rewrite ?orb_true_r; exact Hq.
  - intros Hc. rewrite div_unusual by (done || lia). rewrite !(proj2 (Z.ltb_ge infRep _)) by lia.
    destruct Hc as [[E1 E2]|(E1 & E2 & E3)].
    + rewrite E1, Z.eqb_refl, (proj2 (Z.eqb_neq (b mod S_) infRep)), (proj2 (Z.eqb_neq infRep 0)) by lia. done.
    + rewrite E3, (proj2 (Z.eqb_neq (a mod S_) infRep)), (proj2 (Z.eqb_neq (a mod S_) 0)), (proj2 (Z.eqb_neq 0 infRep)) by lia. done.
  - intros E1 E2. rewrite div_unusual by (done || lia). rewrite !(proj2 (Z.ltb_ge infRep _)) by lia.
    rewrite E2, Z.eqb_refl, (proj2 (Z.eqb_neq (a mod S_) infRep)), (proj2 (Z.eqb_neq infRep 0)), andb_false_r by lia. done.
Qed.
End quotient.
End division.

(** C9. Division in software, of singles and of doubles, gives the representation nearest to
    the exact quotient, with its sign, if the quotient is above the least normal number;
    from there down it gives a zero of that sign.  A NaN, zero by zero and infinity by
    infinity give a NaN; division by zero and of an infinity an infinity, division by an
    infinity a zero, of the sign of the quotient.  All of this for every pair of
    representations. *)
Theorem division_rounds : divides (F := SINGLE) divsf3 /\ divides (F := DOUBLE) divdf3.
Proof.
  split; [exact (divXf3_divides (F := SINGLE) quotient_single quotient_single_ok)|exact (divXf3_divides (F := DOUBLE) quotient_double quotient_double_ok)].
Qed.

(** A third, in both formats; and the least normal number by 1, which is not below the
    normal numbers. *)
Example division_examples :
  divsf3 0x3f800000 0x40400000 = 0x3eaaaaab /\ divsf3 0x00800000 0x3f800000 = 0 /\
  divdf3 0x3ff0000000000000 0x4008000000000000 = 0x3fd5555555555555 /\ divdf3 0x0010000000000000 0x3ff0000000000000 = 0.
Proof. repeat split; reflexivity. Qed.
