(* ===== verification/SoftWidth.v ===== *)
(** * Conversion between formats ([fp_extend_impl.inc], [fp_trunc_impl.inc])

    To a wider format, exactly; to a narrower one, to the nearest representation. *)
From S2P Require Import Prelude Softfloat FloatSpec FloatBits SoftConv.

Section widths.
Context (narrow wide : Format) `{!FormatOk narrow} `{!FormatOk wide}.

Abbreviation sn := (@significandBits narrow).
Abbreviation sv := (@significandBits wide).
Abbreviation In := (@implicitBit narrow).
Abbreviation Iv := (@implicitBit wide).
Abbreviation Sn := (@signBit narrow).
Abbreviation Sv := (@signBit wide).
Abbreviation wn := (@typeWidth narrow).
Abbreviation wv := (@typeWidth wide).
Abbreviation bn := (@exponentBias narrow).
Abbreviation bv := (@exponentBias wide).
Abbreviation Xn := (@maxExponent narrow).
Abbreviation Xv := (@maxExponent wide).
Abbreviation infn := (@infRep narrow).
Abbreviation infv := (@infRep wide).
Abbreviation magn := (@mag narrow).
Abbreviation magv := (@mag wide).

(** The wide format has at least two more significant bits, and its normal numbers reach
    below the narrow one's denormals. *)
Context (Hsig : sn + 2 <= sv) (Hbias : bn + sv <= bv) (Hwidth : wn < wv).

Abbreviation d := (sv - sn).

Lemma implicit_wide : Iv = 2 ^ d * In.
Proof. pose proof (@s_pos narrow _). rewrite !implicit_pow, <- Z.pow_add_r by lia. f_equal. lia. Qed.

Lemma max_bias `{!FormatOk F} : @maxExponent F = 2 * @exponentBias F + 1.
Proof.
  pose proof e_range. rewrite max_pow, bias_pow. replace (@exponentBits F) with (Z.succ (@exponentBits F - 1)) at 1 by lia.
  rewrite Z.pow_succ_r by lia. lia.
Qed.

Lemma sign_shift : Sv = Sn * 2 ^ (wv - wn).
Proof.
  pose proof (@s_pos narrow _). pose proof (@e_range narrow _). pose proof (@width_split narrow). pose proof (@width_split wide).
  rewrite !sign_pow, <- Z.pow_add_r by lia. f_equal. lia.
Qed.

(** The bounds of both formats. *)
Lemma both : 2 <= In /\ 4 * In <= Iv /\ infn = Xn * In /\ infv = Xv * Iv /\ infn = Sn - In /\ infv = Sv - Iv /\
  2 ^ wn = 2 * Sn /\ 2 ^ wv = 2 * Sv /\ Xn = 2 * bn + 1 /\ Xv = 2 * bv + 1 /\ 7 <= bn /\ 1 <= sn /\ sn + 2 <= sv /\ bn + sv <= bv /\ 0 < wn < wv /\
  16 * In <= Sn /\ 16 * Iv <= Sv.
Proof.
  pose proof (@sizes narrow _) as (H1 & _ & _ & H2 & H3 & H7 & _). pose proof (@sizes wide _) as (H4 & _ & _ & H5 & H6 & H8 & _).
  pose proof (@inf_value narrow _). pose proof (@inf_value wide _). pose proof (@max_bias narrow _). pose proof (@max_bias wide _).
  pose proof (@s_pos narrow _). pose proof (@bias_pos narrow _). pose proof implicit_wide as Hi.
  pose proof (@e_range narrow _). pose proof (@width_split narrow).
  assert (2 ^ 2 <= 2 ^ d) by (apply Z.pow_le_mono_r; lia). change (2 ^ 2) with 4 in *. rewrite Hi in *.
  assert (4 * In <= 2 ^ d * In) by (apply Z.mul_le_mono_nonneg_r; lia). lia.
Qed.

(** ** Widening *)

Lemma extend_bits E f : 0 <= f < In -> 0 <= E -> Z.shiftl (E * In + f) d = E * Iv + f * 2 ^ d /\ 0 <= f * 2 ^ d < Iv.
Proof.
  intros Hf HE. pose proof both. rewrite Z.shiftl_mul_pow2, implicit_wide by lia. pose proof (pow_pos d ltac:(lia)).
  split; [ring|]. split; [apply Z.mul_nonneg_nonneg; lia|]. rewrite Z.mul_comm. apply Z.mul_lt_mono_pos_l; lia.
Qed.

Lemma srcInfinity_wide (F : Format) `{!FormatOk F} : srcInfinity F = @infRep F.
Proof. pose proof s_pos. unfold srcInfinity, srcInfExp, srcSigBits. rewrite Z.shiftl_mul_pow2, <- implicit_pow, inf_value by lia. done. Qed.

Lemma srcInfinity_eq : srcInfinity narrow = infn.
Proof. apply srcInfinity_wide, _. Qed.

Lemma normal_test m : 0 <= m < Sn ->
  (wrap wn (m - In) <? wrap wn (infn - In)) = (In <=? m) && (m <? infn).
Proof.
  intros Hm. pose proof both. rewrite (wrap_small _ (infn - In)) by nia. destruct (Z.leb_spec In m) as [Hn|Hn]; cbn [andb].
  - rewrite wrap_small by lia. destruct (Z.ltb_spec m infn); [apply Z.ltb_lt|apply Z.ltb_ge]; lia.
  - apply Z.ltb_ge. assert (wrap wn (m - In) = m - In + 2 ^ wn) as ->; [|lia].
    unfold wrap. symmetry. apply (Z.mod_unique_pos _ _ (-1)); lia.
Qed.

Lemma exponent_wide E : 0 <= E <= Xv -> wrap wv (Z.shiftl E sv) = E * Iv.
Proof.
  intros HE. pose proof both. rewrite Z.shiftl_mul_pow2, <- implicit_pow by lia. apply wrap_small.
  assert (E * Iv <= Xv * Iv) by (apply Z.mul_le_mono_nonneg_r; lia). split; [apply Z.mul_nonneg_nonneg; lia|lia].
Qed.

Lemma nan_code m : Z.lor (Z.land m (srcQNaN narrow)) (Z.land m (srcNaNCode narrow)) = Z.land m (@significandMask narrow).
Proof.
  pose proof (@s_pos narrow _). rewrite <- Z.land_lor_distr_r. f_equal. unfold srcNaNCode, srcQNaN, srcSigBits.
  rewrite Z.shiftl_mul_pow2 by lia. pose proof (pow_pos (sn - 1) ltac:(lia)). pose proof (lor_disjoint_add (sn - 1) ltac:(lia) (2 ^ (sn - 1) - 1) 1) as Hl.
  rewrite Z.mul_1_l, Z.lor_comm. rewrite Z.mul_1_r in Hl. rewrite Hl by lia. unfold significandMask. rewrite implicit_pow.
  replace sn with (Z.succ (sn - 1)) at 3 by lia. rewrite Z.pow_succ_r by lia. lia.
Qed.

Lemma extend_special m : infn <= m < Sn -> extend_abs narrow wide m = infv + (m - infn) * 2 ^ d /\ infv + (m - infn) * 2 ^ d < Sv.
Proof.
  intros Hm. pose proof both as Hb. unfold extend_abs. rewrite srcInfinity_eq. change (srcMinNormal narrow) with In.
  change (srcBits narrow) with wn. rewrite normal_test, (proj2 (Z.ltb_ge m infn)), andb_false_r, (proj2 (Z.leb_le infn m)) by lia.
  change (dstBits wide) with wv. change (dstSigBits wide) with sv. change (srcSigBits narrow) with sn. change (dstInfExp wide) with Xv.
  rewrite exponent_wide by lia. assert (Hf : m = Xn * In + (m - infn)) by lia.
  destruct (extend_bits 0 (m - infn) ltac:(lia) ltac:(lia)) as [_ Hx].
  assert (Hbits : Z.lor (wrap wv (Z.shiftl (Z.land m (srcQNaN narrow)) d)) (wrap wv (Z.shiftl (Z.land m (srcNaNCode narrow)) d)) = (m - infn) * 2 ^ d).
  { rewrite <- wrap_lor, <- Z.shiftl_lor, nan_code by lia. rewrite fraction_field, (Z.mod_small m) by lia.
    assert (m mod In = m - infn) as -> by (symmetry; apply (Z.mod_unique_pos _ _ Xn); lia).
    rewrite Z.shiftl_mul_pow2 by lia. apply wrap_small. lia. }
  rewrite <- Z.lor_assoc, Hbits, Z.lor_comm, (Z.mul_comm Xv). rewrite (Z.add_comm infv). split; [|lia].
  assert (Hiv : infv = Iv * Xv) by lia. rewrite Hiv. rewrite (implicit_pow (F := wide)) in *. apply lor_disjoint_add; lia.
Qed.

(** [q] at the exponent [t] of the narrow format, in the wide one. *)
Lemma widen_scale q t : 0 <= t + (bv - bn) -> q * 2 ^ d * 2 ^ (t + (bv - bn)) * @one narrow = q * 2 ^ (t + (bv - bn) + (bn + sn - 1) + d).
Proof.
  intros Ht. pose proof both. unfold one. rewrite <- !Z.mul_assoc, <- !Z.pow_add_r by lia. do 2 f_equal. lia.
Qed.

Lemma extend_finite m : 0 <= m < infn ->
  0 <= extend_abs narrow wide m < infv /\ magv (extend_abs narrow wide m) * @one narrow = magn m * @one wide.
Proof.
  intros Hm. pose proof both as Hb. unfold extend_abs. rewrite srcInfinity_eq. change (srcMinNormal narrow) with In.
  change (srcBits narrow) with wn. rewrite normal_test, (proj2 (Z.ltb_lt m infn)), andb_true_r, (proj2 (Z.leb_gt infn m)) by lia.
  change (dstBits wide) with wv. change (dstSigBits wide) with sv. change (srcSigBits narrow) with sn.
  change (dstExpBias wide) with bv. change (srcExpBias narrow) with bn. change (dstMinNormal wide) with Iv.
  pose proof (pow_pos d ltac:(lia)) as Hpd. destruct (Z.leb_spec In m) as [Hn|Hn].
  - pose proof (Z.div_mod m In ltac:(lia)) as Em. pose proof (Z.mod_pos_bound m In ltac:(lia)) as Hf.
    assert (HE : 1 <= m / In <= 2 * bn) by (split; [apply Z.div_le_lower_bound; lia|assert (m / In < 2 * bn + 1) by (apply Z.div_lt_upper_bound; lia); lia]).
    set (E := m / In) in *. set (f := m mod In) in *.
    destruct (extend_bits E f Hf ltac:(lia)) as [Hsh Hfd]. replace (E * In + f) with m in Hsh by lia. rewrite Hsh.
    assert (HEv : forall k, 0 <= k <= 2 * bv -> 0 <= k * Iv <= infv - Iv).
    { intros k Hk. split; [apply Z.mul_nonneg_nonneg; lia|]. assert (k * Iv <= (Xv - 1) * Iv) by (apply Z.mul_le_mono_nonneg_r; lia). lia. }
    pose proof (HEv E ltac:(lia)). pose proof (HEv (E + (bv - bn)) ltac:(lia)).
    rewrite exponent_wide, (wrap_small wv (E * Iv + f * 2 ^ d)), wrap_small by lia.
    assert (Hv : E * Iv + f * 2 ^ d + (bv - bn) * Iv = (E + (bv - bn) - 1) * Iv + (In + f) * 2 ^ d) by (rewrite implicit_wide; ring).
    split; [lia|]. rewrite Hv, mag_at by (rewrite ?implicit_wide in *; lia). replace (E + (bv - bn) - 1) with (E - 1 + (bv - bn)) by lia.
    rewrite widen_scale by lia. unfold mag. fold E f. rewrite (proj2 (Z.eqb_neq _ _)) by lia. unfold one.
    rewrite <- Z.mul_assoc, <- Z.pow_add_r by lia. do 2 f_equal. lia.
  - destruct (nz m) eqn:Em; [apply nz_true in Em|apply nz_false in Em as ->].
    + destruct (normalize_ok (F := narrow) m) as (k & Hk & En & Hq); [lia|]. unfold normalize in En. injection En as _ Ek.
      assert (Hscale : @rep_clz narrow m - @rep_clz narrow In = k) by lia. rewrite Hscale.
      assert (Hsh : Z.shiftl m (d + k) = m * 2 ^ k * 2 ^ d) by (rewrite Z.shiftl_mul_pow2, (Z.add_comm d), Z.pow_add_r by lia; ring).
      assert (Hq' : Iv <= m * 2 ^ k * 2 ^ d < 2 * Iv).
      { rewrite implicit_wide. assert (In * 2 ^ d <= m * 2 ^ k * 2 ^ d) by (apply Z.mul_le_mono_nonneg_r; lia).
        assert (m * 2 ^ k * 2 ^ d < 2 * In * 2 ^ d) by (apply Z.mul_lt_mono_pos_r; lia). lia. }
      rewrite Hsh, (wrap_small wv (m * _ * _)), (lxor_implicit (F := wide)), exponent_wide by lia.
      set (q := m * 2 ^ k * 2 ^ d) in *.
      assert (Hlor : Z.lor (q - Iv) ((bv - bn - k + 1) * Iv) = (bv - bn - k) * Iv + q).
      { rewrite (Z.mul_comm _ Iv). rewrite (implicit_pow (F := wide)) in *. rewrite lor_disjoint_add by lia. lia. }
      rewrite Hlor. assert (Hr : 0 <= (bv - bn - k) * Iv <= (Xv - 2) * Iv) by (split; [apply Z.mul_nonneg_nonneg; lia|apply Z.mul_le_mono_nonneg_r; lia]).
      split; [lia|]. rewrite mag_at by lia. unfold q. replace (bv - bn - k) with (- k + (bv - bn)) by lia. rewrite widen_scale by lia.
      unfold mag. rewrite Z.div_small, Z.mod_small by lia. cbn [Z.eqb]. unfold one. rewrite <- Z.mul_assoc, <- Z.pow_add_r by lia. do 2 f_equal. lia.
    + split; [lia|]. unfold mag. rewrite !Z.div_0_l, !Z.mod_0_l by lia. done.
Qed.

Lemma sign_widen b : wrap wv (Z.shiftl (@sign_bit_of narrow b) (wv - wn)) = @sign_bit_of wide b.
Proof.
  pose proof both. unfold sign_bit_of. destruct b; [|by rewrite Z.shiftl_0_l].
  rewrite Z.shiftl_mul_pow2, <- sign_shift by lia. apply wrap_small. lia.
Qed.

(** Conversion to a wider format keeps the value exactly, whatever the number, denormals
    included, and the sign; infinities stay infinities and NaNs stay NaNs. *)
Theorem extension_exact a : 0 <= a < 2 ^ @typeWidth narrow ->
  let r := extendXfYf2 narrow wide a in
  @negative wide r = @negative narrow a /\
  (@finite narrow a -> @finite wide r /\ @value wide r * @one narrow = @value narrow a * @one wide) /\
  (@infinite narrow a -> @infinite wide r) /\ (@nan narrow a -> @nan wide r).
Proof.
  intros Ha r. pose proof both as Hb. destruct (abs_cases a Ha) as [_ Hm].
  assert (Hr : r = extend_abs narrow wide (a mod Sn) + @sign_bit_of wide (@negative narrow a) /\ 0 <= extend_abs narrow wide (a mod Sn) < Sv).
  { assert (Hrange : 0 <= extend_abs narrow wide (a mod Sn) < Sv).
    { destruct (Z.lt_ge_cases (a mod Sn) infn) as [Hlt|Hge]; [destruct (extend_finite (a mod Sn)); lia|].
      destruct (extend_special (a mod Sn)) as [-> Hlt]; [lia|]. split; [|done]. pose proof (pow_pos d ltac:(lia)).
      assert (0 <= (a mod Sn - infn) * 2 ^ d) by (apply Z.mul_nonneg_nonneg; lia). lia. }
    split; [|done]. unfold r, extendXfYf2. change (srcAbsMask narrow) with (@absMask narrow). change (srcSignMask narrow) with Sn.
    change (dstBits wide) with wv. change (srcBits narrow) with wn. rewrite abs_mod, sign_of_negative, sign_widen by done. by apply lor_sign. }
  destruct Hr as [-> Hr]. destruct (with_sign_fields (@negative narrow a) _ Hr) as [Hfa Hfn]. rewrite abs_mod in Hfa.
  unfold finite, infinite, nan. rewrite !value_eq, Hfn, !abs_mod, Hfa. split; [done|]. split; [|split].
  - intros Hfin. destruct (extend_finite (a mod Sn)) as [H1 H2]; [lia|]. split; [lia|]. destruct (@negative narrow a); lia.
  - intros E. destruct (extend_special (a mod Sn)) as [-> _]; [lia|]. rewrite E. lia.
  - intros E. destruct (extend_special (a mod Sn)) as [-> _]; [lia|]. pose proof (pow_pos d ltac:(lia)).
    assert (0 < (a mod Sn - infn) * 2 ^ d) by (apply Z.mul_pos_pos; lia). lia.
Qed.

(** ** Narrowing *)

Lemma land_round x : Z.land x (roundMask wide narrow) = x mod 2 ^ d.
Proof.
  pose proof both. unfold roundMask. change (srcSigBits wide) with sv. change (dstSigBits narrow) with sn.
  rewrite Z.shiftl_mul_pow2, Z.mul_1_l, Z.sub_1_r, <- Z.ones_equiv by lia. apply Z.land_ones. lia.
Qed.

Lemma round_bits_ok M r : 0 <= r < infn -> round_bits wide narrow r (M mod 2 ^ d) = rounded d M r.
Proof.
  intros Hr. pose proof both as Hb. unfold round_bits, rounded, halfway. change (srcSigBits wide) with sv. change (dstSigBits narrow) with sn.
  change (dstBits narrow) with wn. rewrite Z.shiftl_mul_pow2, Z.mul_1_l by lia.
  destruct (Z.compare_spec (M mod 2 ^ d) (2 ^ (d - 1))) as [E|E|E].
  - rewrite E, Z.ltb_irrefl, Z.eqb_refl, land_1. destruct (Z.even r); rewrite wrap_small; lia.
  - rewrite (proj2 (Z.ltb_ge _ _)), (proj2 (Z.eqb_neq _ _)) by lia. done.
  - rewrite (proj2 (Z.ltb_lt _ _)) by lia. apply wrap_small. lia.
Qed.

Abbreviation U := (underflow wide narrow).
Abbreviation O := (overflow wide narrow).

Lemma thresholds : U = (bv + 1 - bn) * Iv /\ O = (bv + Xn - bn) * Iv /\ 0 < U /\ U <= O <= infv - Iv.
Proof.
  pose proof both as Hb. unfold underflow, overflow. change (srcSigBits wide) with sv. change (dstInfExp narrow) with Xn.
  change (srcExpBias wide) with bv. change (dstExpBias narrow) with bn. rewrite !Z.shiftl_mul_pow2, <- !implicit_pow by lia.
  split; [done|]. split; [done|]. split; [apply Z.mul_pos_pos; lia|].
  split; [apply Z.mul_le_mono_nonneg_r; lia|]. assert ((bv + Xn - bn) * Iv <= (Xv - 1) * Iv) by (apply Z.mul_le_mono_nonneg_r; lia). lia.
Qed.

Lemma range_test m : 0 <= m < Sv -> (wrap wv (m - U) <? wrap wv (m - O)) = (U <=? m) && (m <? O).
Proof.
  intros Hm. pose proof both as Hb. pose proof thresholds as (_ & _ & HU & HO).
  assert (Hw : forall x, 0 < x <= infv -> wrap wv (m - x) = if x <=? m then m - x else m - x + 2 ^ wv).
  { intros x Hx. destruct (Z.leb_spec x m); [apply wrap_small; lia|]. unfold wrap. symmetry. apply (Z.mod_unique_pos _ _ (-1)); lia. }
  rewrite !Hw by lia. destruct (Z.leb_spec U m), (Z.leb_spec O m), (Z.ltb_spec m O); cbn [andb]; try lia;
    (apply Z.ltb_lt || apply Z.ltb_ge); lia.
Qed.

(** A number of the wide format that is normal in the narrow one. *)
Lemma trunc_normal m : U <= m < O ->
  nearest (F := narrow) (magv m * @one narrow) (@one wide)
    (round_bits wide narrow (wrap wn (wrap wn (Z.shiftr m d) - wrap wn (Z.shiftl (bv - bn) sn))) (m mod 2 ^ d)).
Proof.
  intros Hm. pose proof both as Hb. pose proof thresholds as (EU & EO & HU & HO). pose proof (@one_pos wide _). pose proof implicit_wide as Hiw.
  pose proof (pow_pos d ltac:(lia)) as Hpd.
  pose proof (Z.div_mod m Iv ltac:(lia)) as Em. pose proof (Z.mod_pos_bound m Iv ltac:(lia)) as Hf.
  assert (HE : bv + 1 - bn <= m / Iv < bv + Xn - bn) by (split; [apply Z.div_le_lower_bound|apply Z.div_lt_upper_bound]; lia).
  assert (Hmag : magv m = (Iv + m mod Iv) * 2 ^ (m / Iv - 1)) by (unfold mag; rewrite (proj2 (Z.eqb_neq _ _)) by lia; done).
  set (E := m / Iv) in *. set (f := m mod Iv) in *. set (M := Iv + f) in *.
  assert (Hq : In <= M / 2 ^ d < 2 * In) by (split; [apply Z.div_le_lower_bound|apply Z.div_lt_upper_bound]; lia).
  assert (Hmd : m / 2 ^ d = (E - 1) * In + M / 2 ^ d).
  { rewrite <- Z.div_add_l by lia. f_equal. rewrite Em. unfold M. rewrite Hiw. ring. }
  assert (Hmm : m mod 2 ^ d = M mod 2 ^ d).
  { replace m with (M + ((E - 1) * In) * 2 ^ d) by (rewrite Em; unfold M; rewrite Hiw; ring). apply Z.mod_add. lia. }
  assert (Ht : 0 <= (E - 1 - (bv - bn)) * In <= (Xn - 2) * In) by (split; [apply Z.mul_nonneg_nonneg; lia|apply Z.mul_le_mono_nonneg_r; lia]).
  assert (Hr : wrap wn (wrap wn (Z.shiftr m d) - wrap wn (Z.shiftl (bv - bn) sn)) = (E - 1 - (bv - bn)) * In + M / 2 ^ d).
  { rewrite Z.shiftr_div_pow2, Z.shiftl_mul_pow2, <- implicit_pow, Hmd by lia. unfold wrap. rewrite <- Zminus_mod.
    replace ((E - 1) * In + M / 2 ^ d - (bv - bn) * In) with ((E - 1 - (bv - bn)) * In + M / 2 ^ d) by ring. apply Z.mod_small. lia. }
  rewrite Hr, Hmm, round_bits_ok by lia.
  apply (nearest_same (M * 2 ^ (E - 1 - (bv - bn))) (1 * 2 ^ d)); [lia|lia| |].
  - rewrite Hmag. unfold one. rewrite Z.mul_1_l, <- !Z.mul_assoc, <- !Z.pow_add_r by lia. do 2 f_equal. lia.
  - apply nearest_rounded; [lia|lia|apply (stands_weaken 0); [lia|apply stands_exact; lia]|done|lia|lia|lia|lia].
Qed.

Lemma trunc_overflow m : O <= m -> nearest (F := narrow) (magv m * @one narrow) (@one wide) infn.
Proof.
  intros Hm. pose proof both as Hb. pose proof thresholds as (EU & EO & HU & HO). apply nearest_inf; [apply one_pos|].
  assert (Hmi : magn infn = In * 2 ^ (Xn - 1)).
  { replace infn with ((Xn - 1) * In + In) by lia. apply mag_at; lia. }
  assert (HmO : magv O = Iv * 2 ^ (bv + Xn - bn - 1)).
  { rewrite EO. replace ((bv + Xn - bn) * Iv) with ((bv + Xn - bn - 1) * Iv + Iv) by lia. apply mag_at; lia. }
  pose proof (mag_mono_le (F := wide) O m ltac:(lia) Hm) as Hle. pose proof (@one_pos narrow _).
  apply (Z.mul_le_mono_nonneg_r _ _ (@one narrow)) in Hle; [|lia]. refine (Z.le_trans _ _ _ _ Hle). rewrite Hmi, HmO. unfold one.
  rewrite !implicit_pow, <- !Z.pow_add_r by lia. apply Z.pow_le_mono_r; lia.
Qed.

(** Below the normal numbers of the narrow format, by the shift. *)
Lemma trunc_small a m : m = a mod Sv -> 0 <= m < U ->
  let aExp := Z.shiftr m sv in
  let shift := bv - bn - aExp + 1 in
  let significand := Z.lor (Z.land a (srcSignificandMask wide)) Iv in
  nearest (F := narrow) (magv m * @one narrow) (@one wide)
    (if sv <? shift then 0
     else round_bits wide narrow (wrap wn (Z.shiftr (@shift_sticky wide significand shift) d)) (@shift_sticky wide significand shift mod 2 ^ d)).
Proof.
  intros Ea Hm. cbv zeta. pose proof both as Hb. pose proof thresholds as (EU & EO & HU & HO). pose proof (@one_pos wide _) as Hov. pose proof (@one_pos narrow _) as Hon.
  pose proof implicit_wide as Hiw. pose proof (pow_pos d ltac:(lia)) as Hpd. pose proof (@width_split wide). pose proof (@e_range wide _).
  pose proof (Z.div_mod m Iv ltac:(lia)) as Em. pose proof (Z.mod_pos_bound m Iv ltac:(lia)) as Hf.
  change (srcSignificandMask wide) with (@significandMask wide). rewrite fraction_field, <- Ea, Z.shiftr_div_pow2, <- implicit_pow by lia.
  assert (HE : 0 <= m / Iv < bv + 1 - bn) by (split; [apply Z.div_pos|apply Z.div_lt_upper_bound]; lia).
  rewrite lor_implicit, (proj2 (Z.ltb_lt (m mod Iv) Iv)) by lia. set (E := m / Iv) in *. set (q := m mod Iv + Iv).
  destruct (Z.ltb_spec sv (bv - bn - E + 1)) as [Htiny|Hsh].
  - apply nearest_zero; [done|apply Z.mul_nonneg_nonneg; [apply mag_nonneg|]; lia|].
    assert (Hlt : magv m < 2 ^ (bv - bn)).
    { unfold mag. fold E. destruct (Z.eqb_spec E 0) as [E0|E0].
      - assert (2 ^ sv <= 2 ^ (bv - bn)) by (apply Z.pow_le_mono_r; lia). rewrite <- (implicit_pow (F := wide)) in *. lia.
      - assert (Hp : 2 ^ (sv + 1) * 2 ^ (E - 1) <= 2 ^ (bv - bn)) by (rewrite <- Z.pow_add_r by lia; apply Z.pow_le_mono_r; lia).
        rewrite Z.pow_add_r, <- (implicit_pow (F := wide)) in Hp by lia. change (2 ^ 1) with 2 in Hp. pose proof (pow_pos (E - 1) ltac:(lia)).
        assert ((Iv + m mod Iv) * 2 ^ (E - 1) < Iv * 2 * 2 ^ (E - 1)) by (apply Z.mul_lt_mono_pos_r; lia). lia. }
    assert (Hle : 2 ^ (bv - bn) * @one narrow * 2 <= @one wide).
    { unfold one. change 2 with (2 ^ 1) at 3. rewrite <- !Z.pow_add_r by lia. apply Z.pow_le_mono_r; lia. }
    apply (Z.mul_lt_mono_pos_r (@one narrow)) in Hlt; [|done]. lia.
  - assert (HE1 : 1 <= E) by lia. set (n := bv - bn - E + 1) in *. pose proof (pow_pos n ltac:(lia)) as Hpn.
    assert (Hq : Iv <= q < 2 * Iv) by lia. rewrite shift_sticky_fold by lia. set (M := fold_low q n).
    assert (Hst : stands 1 q (1 * 2 ^ n) M) by (apply (stands_fold 0); [lia|lia|lia|lia|apply stands_exact; lia]). rewrite Z.mul_1_l in Hst.
    assert (Hev : Iv = 2 * (2 ^ (d - 1) * In)) by (rewrite Hiw; replace d with (Z.succ (d - 1)) at 1 by lia; rewrite Z.pow_succ_r by lia; ring).
    assert (HM : 0 <= M < 2 * (2 ^ (d - 1) * In)).
    { apply fold_low_bound; [lia|lia|]. rewrite <- Hev. apply Z.div_lt_upper_bound; [lia|].
      assert (2 ^ 1 <= 2 ^ n) by (apply Z.pow_le_mono_r; lia). change (2 ^ 1) with 2 in *. assert (2 * Iv <= 2 ^ n * Iv) by (apply Z.mul_le_mono_nonneg_r; lia). lia. }
    rewrite <- Hev, Hiw in HM. assert (HMd : 0 <= M / 2 ^ d < In) by (split; [apply Z.div_pos|apply Z.div_lt_upper_bound]; lia).
    rewrite Z.shiftr_div_pow2, (wrap_small wn), round_bits_ok by lia.
    apply (nearest_same (q * 2 ^ 0) (2 ^ n * 2 ^ d)); [lia|lia| |].
    + unfold mag. fold E. rewrite (proj2 (Z.eqb_neq E 0)), (Z.add_comm Iv) by lia. fold q. unfold one.
      rewrite <- !Z.mul_assoc, <- !Z.pow_add_r by lia. do 2 f_equal. lia.
    + replace (M / 2 ^ d) with (0 * In + M / 2 ^ d) at 1 by lia.
      apply nearest_rounded; [lia|lia|apply (stands_weaken 1); [lia|done]|done|lia|lia|lia|lia].
Qed.

Lemma trunc_infinity : wrap (dstBits narrow) (Z.shiftl (dstInfExp narrow) (dstSigBits narrow)) = infn.
Proof.
  pose proof both as Hb. change (dstBits narrow) with wn. change (dstInfExp narrow) with Xn. change (dstSigBits narrow) with sn.
  rewrite Z.shiftl_mul_pow2, <- implicit_pow by lia. rewrite wrap_small; lia.
Qed.

Lemma trunc_abs_nearest a m : m = a mod Sv -> 0 <= m <= infv ->
  nearest (F := narrow) (magv m * @one narrow) (@one wide) (trunc_abs wide narrow a m).
Proof.
  intros Ea Hm. pose proof both as Hb. pose proof thresholds as (EU & EO & HU & HO). unfold trunc_abs. rewrite (srcInfinity_wide wide), trunc_infinity.
  change (srcBits wide) with wv. change (dstBits narrow) with wn. change (srcSigBits wide) with sv. change (dstSigBits narrow) with sn.
  change (srcExpBias wide) with bv. change (dstExpBias narrow) with bn. change (srcMinNormal wide) with Iv.
  rewrite range_test, !land_round by lia. rewrite (proj2 (Z.ltb_ge infv m)) by lia.
  destruct (Z.leb_spec U m); cbn [andb].
  - destruct (Z.ltb_spec m O); [apply trunc_normal; lia|]. rewrite (proj2 (Z.leb_le O m)) by lia. apply trunc_overflow. lia.
  - rewrite (proj2 (Z.leb_gt O m)) by lia. apply trunc_small; [done|lia].
Qed.

Lemma trunc_abs_nan a m : infv < m < Sv -> infn < trunc_abs wide narrow a m < Sn.
Proof.
  intros Hm. pose proof both as Hb. pose proof thresholds as (EU & EO & HU & HO). unfold trunc_abs. rewrite (srcInfinity_wide wide), trunc_infinity.
  change (srcBits wide) with wv. rewrite range_test by lia. rewrite (proj2 (Z.ltb_ge m O)), andb_false_r, (proj2 (Z.ltb_lt infv m)) by lia.
  change (dstBits narrow) with wn. set (x := Z.land (Z.shiftr _ _) _).
  assert (Hq : dstQNaN narrow = 2 ^ (sn - 1)) by (unfold dstQNaN; change (dstSigBits narrow) with sn; rewrite Z.shiftl_mul_pow2; lia).
  pose proof (pow_pos (sn - 1) ltac:(lia)) as Hp. assert (Hin : In = 2 * 2 ^ (sn - 1)) by (rewrite implicit_pow, <- Z.pow_succ_r by lia; f_equal; lia).
  assert (Hx : 0 <= x < In).
  { unfold x. unfold dstNaNCode. rewrite Hq, Z.sub_1_r, <- Z.ones_equiv, Z.land_ones by lia.
    pose proof (Z.mod_pos_bound (Z.shiftr (Z.land m (srcNaNCode wide)) (srcSigBits wide - dstSigBits narrow)) (2 ^ (sn - 1)) Hp). lia. }
  rewrite (wrap_small wn x), Hq, <- Z.lor_assoc by lia.
  assert (Hl : 0 <= Z.lor (2 ^ (sn - 1)) x < 2 ^ sn) by (apply lor_range; rewrite <- ?(implicit_pow (F := narrow)); lia).
  pose proof (le_lor (2 ^ (sn - 1)) x ltac:(lia) ltac:(lia)) as Hge.
  assert (Hiv : infn = 2 ^ sn * Xn) by (rewrite <- implicit_pow; lia).
  rewrite Z.lor_comm, Hiv, lor_disjoint_add by lia. rewrite <- Hiv, <- implicit_pow in *. lia.
Qed.

Lemma sign_narrow b : wrap wn (Z.shiftr (@sign_bit_of wide b) (wv - wn)) = @sign_bit_of narrow b.
Proof.
  pose proof both. unfold sign_bit_of. destruct b; [|by rewrite Z.shiftr_0_l].
  rewrite Z.shiftr_div_pow2, sign_shift, Z.div_mul by (lia || (apply Z.pow_nonzero; lia)). apply wrap_small. lia.
Qed.

(** C10. Conversion to a narrower format gives the representation nearest to the number, ties
    to even, also where that is a denormal, a zero or an infinity, with its sign; infinities
    stay infinities and NaNs stay NaNs. *)
Theorem truncation_rounds a : 0 <= a < 2 ^ @typeWidth wide ->
  let r := truncXfYf2 wide narrow a in
  @negative narrow r = @negative wide a /\
  (@finite wide a -> nearest (F := narrow) (Z.abs (@value wide a) * @one narrow) (@one wide) (Z.land r (@absMask narrow))) /\
  (@infinite wide a -> @infinite narrow r) /\ (@nan wide a -> @nan narrow r).
Proof.
  intros Ha r. pose proof both as Hb. destruct (abs_cases a Ha) as [_ Hm].
  assert (Hn : a mod Sv <= infv -> nearest (F := narrow) (magv (a mod Sv) * @one narrow) (@one wide) (trunc_abs wide narrow a (a mod Sv))) by (intros; apply trunc_abs_nearest; lia || done).
  assert (Hx : infv < a mod Sv -> infn < trunc_abs wide narrow a (a mod Sv) < Sn) by (intros; apply trunc_abs_nan; lia).
  assert (Hr : 0 <= trunc_abs wide narrow a (a mod Sv) < Sn).
  { destruct (Z.le_gt_cases (a mod Sv) infv) as [Hle|Hgt]; [destruct (Hn Hle); lia|lia]. }
  assert (Er : r = trunc_abs wide narrow a (a mod Sv) + @sign_bit_of narrow (@negative wide a)).
  { unfold r, truncXfYf2. change (srcAbsMask wide) with (@absMask wide). change (srcSignMask wide) with Sv.
    change (dstBits narrow) with wn. change (srcBits wide) with wv. rewrite abs_mod, sign_of_negative, sign_narrow by done. by apply lor_sign. }
  rewrite Er. destruct (with_sign_fields (@negative wide a) _ Hr) as [Hfa Hfn]. rewrite abs_mod in Hfa.
  pose proof (mag_nonneg (F := wide) _ (proj1 Hm)).
  unfold finite, infinite, nan. rewrite !value_eq, Hfn, !abs_mod, Hfa. split; [done|]. split; [|split].
  - intros Hfin. replace (Z.abs _) with (magv (a mod Sv)) by (destruct (@negative wide a); lia). apply Hn. lia.
  - intros E. destruct thresholds as (_ & _ & _ & HO).
    apply (nearest_unique (F := narrow) (magv (a mod Sv) * @one narrow) (@one wide)); [apply one_pos|apply Hn; lia|apply trunc_overflow; lia].
  - intros E. by apply Hx.
Qed.

End widths.

(** The least single is a normal double. *)
Lemma extension_exact_witness :
  (@negative DOUBLE (extendXfYf2 SINGLE DOUBLE 0x80000001) = @negative SINGLE 0x80000001) /\
  extendXfYf2 SINGLE DOUBLE 0x80000001 = 0xb6a0000000000000 /\ extendXfYf2 SINGLE DOUBLE 0x3fc00000 = 0x3ff8000000000000.
Proof.
  split; [|split; reflexivity].
  refine (proj1 (extension_exact SINGLE DOUBLE _ _ _ 0x80000001 _)); [done|done|done|by split].
Defined.

(** Halfway between the least single and zero: zero, with the sign. *)
Lemma truncation_rounds_witness :
  (@negative SINGLE (truncXfYf2 DOUBLE SINGLE 0xb690000000000000) = @negative DOUBLE 0xb690000000000000) /\
  truncXfYf2 DOUBLE SINGLE 0xb690000000000000 = 0x80000000 /\ truncXfYf2 DOUBLE SINGLE 0x3690000000000001 = 1.
Proof.
  split; [|split; reflexivity].
  refine (proj1 (truncation_rounds SINGLE DOUBLE _ _ _ 0xb690000000000000 _)); [done|done|done|by split].
Defined.
